(* ===== verification/_CoqProject ===== *)
-Q . S2P
Prelude.v
Async.v
Wire.v
Sink.v
Tee.v
RadixTree.v
NarReader.v
NarTree.v
NarWriter.v
PaddedReader.v
NarParser.v
BufferMut.v
BytesReader.v
NarBytes.v
Nar.v
ProtoRead.v
Framed.v
Version.v
BaseEncoding.v
Codecs.v
Hash.v
StorePath.v
ContentAddress.v
Signature.v
DerivedPath.v
Pool.v
NixIO.v
Streams.v
NixCodec.v
Utf8.v
WireTypes.v
Messages.v
Derivations.v
Requests.v
Logger.v
ResultLogs.v
DaemonErrors.v
DaemonStore.v
Server.v
ServerSpec.v
Samples.v
Client.v
ClientSpec.v
Remote.v
Transfers.v
Mismatch.v
FileSystem.v
CaseHack.v
Restore.v
RestoreSpec.v
Dump.v
DumpSpec.v
Walk.v
ByteStream.v
Archive.v
StoreDb.v
StoreDbSpec.v
StoreDbRefine.v
LocalStore.v
LocalStoreSpec.v
Lookup.v
CacheConfig.v
Cache.v
CacheSpec.v
CacheFiles.v
CacheFilesSpec.v
AddMultiple.v
DrvInputs.v
Json.v
DerivationJson.v
Nested.v
MultiStore.v
RemoteMultiple.v
StderrRead.v
StderrSource.v
