(* ===== verification/Prelude.v ===== *)
(** * Harmonia: a verification library

    Harmonia is a set of Rust crates around the Nix store: it reads and writes
    Nix archives (NAR), speaks the protocol of the Nix daemon, and handles the
    names, hashes and signatures of store objects. This library models its
    core and proves it correct. The model is a shallow embedding: a Rust
    function is a Rocq function, [Result] with the possibility of a panic is
    the type [res] below, asynchronous code is a function of the state and of
    what its peers do at each poll, and machine integers are kept at their
    width ([Z] with the wrap-around written out, or a failing addition).

    ** The parts and the files

    - [Prelude]: results, bytes, digits and little-endian integers, the string
      operations of the Rust standard library, decimal numbers.
    - [Async] ([harmonia-utils-io/src/async_bytes_read.rs]): polls, the source
      behind a reader (chunks and pending polls in any order), the traits
      [AsyncRead] and [AsyncBytesRead] as classes of operations, and the laws an
      implementation promises its clients: [AsyncBytesReadBase], in which
      [rd_fits] says how much the buffer can be asked to hold, and
      [AsyncBytesReadLaws] for a reader that can hold all that is to come. The
      theorems on the parser, the protocol readers and the framed reader are
      proved against the laws; [BytesReader] discharges both.
    - [Wire] ([utils-io/src/lib.rs]): alignment and padding.
    - [Sink]: the writer behind a buffering writer, with a schedule of pending
      polls and partial writes, and the trait [AsyncWrite] with its laws.
    - [Tee] ([utils-io/src/tee.rs]): the writer that copies to two writers.
    - [RadixTree], [NarReader] ([harmonia-nar/src/archive/radix_tree.rs],
      [read_nar.rs]): the token trees and the state machine [drive] that
      recognises an archive, one buffer at a time.
    - [NarTree]: the specification of the format: a file tree, its
      serialisation [nar] and its events [events_of].
    - [NarWriter] ([archive/writer.rs]): the sink of events.
    - [PaddedReader] ([padded_reader.rs], [utils-io/src/compat.rs],
      [lending.rs]): the reader of one file inside an archive, lent to the
      consumer and drained when it comes back.
    - [NarParser] ([archive/parser.rs]): the stream of events.
    - [BufferMut], [BytesReader] ([utils-io/src/bytes_reader]): the shared
      buffer, as a heap of vectors that snapshots point into, and the buffered
      reader on top of it.
    - [NarBytes] ([read_nar.rs]): the reader that delimits an archive.
    - [Nar]: the theorems that connect writer, parser and readers.
    - [FileSystem]: Unix paths as [std::path] has them, byte for byte, and the
      system calls behind [std::fs] on a file system with directories, files,
      links and special files; paths are resolved component by component.
    - [CaseHack], [Restore] ([archive/restorer.rs]): the sink that unpacks
      events with one blocking task at a time; [RestoreSpec]: what appears on
      the file system.
    - [Dump] ([archive/dumper.rs], [mmap.rs]): the stream of events of a file
      tree, the lazy reader of its files behind a semaphore; [DumpSpec]: its
      events; [Walk]: the law of [walkdir], which is a parameter, and a walker
      that keeps it.
    - [ByteStream] ([archive/byte_stream.rs]): the writer into a bounded
      channel, an instance of the laws of [AsyncWrite], and the task that
      feeds it.
    - [Archive]: dumping, writing, parsing and restoring together.
    - [ProtoRead] ([utils-io/src/read_u64.rs], [try_read_bytes_limited.rs]):
      the primitive readers of the daemon protocol.
    - [Framed] ([harmonia-protocol/src/daemon_wire/framed]): framed streams.
    - [Version] ([harmonia-protocol/src/version.rs]): versions and ranges.
    - [BaseEncoding] ([harmonia-utils-base-encoding/src]): base16, base32 and
      base64. The package [data_encoding] is a parameter ([DataEncoding]) with
      its documented behaviour as laws; [Codecs] is a concrete instance with
      the proof of the laws, which the witnesses evaluate.
    - [Hash] ([harmonia-utils-hash/src]): algorithms, hashes, all text forms,
      digests ([ring] and [md5] are parameters) and [HashSink].
    - [StorePath] ([harmonia-store-core/src/store_path/path.rs],
      [store_dir.rs]): store paths and the store directory.
    - [ContentAddress] ([content_address.rs], [create.rs]): content addresses
      and the paths made from them.
    - [Signature] ([signature.rs]): signatures, keys, the signed fingerprint;
      Ed25519 is a parameter.
    - [DerivedPath] ([derived_path], [realisation.rs], [placeholder.rs]).
    - [Pool] ([harmonia-store-remote/src/pool.rs]): the connection pool. Its
      users are jobs that stand at an await point; an [Action] lets one of them
      run to its next await point, lets time pass or cancels a job, and
      [reachable] are the states of any interleaving. [tokio]'s [Notify] is a
      parameter.
    - [NixIO] ([harmonia-protocol/src/ser/writer.rs], [de/reader.rs]): the
      traits [NixWrite] and [NixRead] as classes with laws, the buffered writer
      and the reader as their instances.
    - [Utf8]: lossy decoding as [String::from_utf8_lossy] does it.
    - [NixCodec] ([ser/*.rs], [de/*.rs]): [NixSerialize] and [NixDeserialize]
      for integers, strings and collections; [NixCodec] is the class of types
      whose two halves fit.
    - [Streams]: what the two ends of the daemon protocol need of their streams
      besides values (flushing, raw bytes, frames, the version), as classes
      with laws, with the buffered reader and writer as instances.
    - [WireTypes], [Messages], [Derivations], [Requests], [Logger]
      ([store_impls.rs], [daemon_wire/types.rs], [types2.rs], [logger.rs],
      [valid_path_info.rs], [build_result.rs], and what
      [harmonia-protocol-derive] generates): every message of the protocol with
      its writer, its reader, and the proof that they fit ([NixCodec]).
    - [ResultLogs] ([daemon_wire/logger.rs]): the combinators on a stream of log
      messages with a result, poll by poll.
    - [DaemonErrors], [DaemonStore] ([harmonia-protocol/src/types.rs]): errors,
      and the trait [DaemonStore] as a type of methods with a class of
      handlers.
    - [Server] ([harmonia-daemon/src/server/mod.rs]): handshake, requests,
      uploads, NARs and errors, over any store; [ServerSpec]: what it reads and
      writes.
    - [Client] ([harmonia-store-remote/src/client.rs]): the client;
      [ClientSpec]: which of its methods fit the server.
    - [Remote], [Transfers], [Mismatch]: client and server together: where the
      client is the store behind the server, and where the two disagree.
      [Samples] has concrete streams and a small store for the examples.
    - [AddMultiple] ([daemon_wire/add_multiple_to_store.rs], [utils-io]'s
      [lending.rs], [compat.rs]): the stream of several paths with their
      archives, written by the client and read back item by item.
    - [Nested]: a protocol reader or writer inside the frames of another;
      [MultiStore] ([server/mod.rs], [client.rs], [types.rs]):
      [AddMultipleToStore] in the server, the store and the client;
      [RemoteMultiple]: the two ends together.
    - [StderrRead] ([daemon_wire/stderr_read.rs]): the reader that asks for its
      data through a channel; [StderrSource] ([logger.rs], [client.rs]): the
      client that answers such requests from the source of an upload.
    - [Json]: the tree of a JSON text and what [serde] derives for structures,
      described by their fields; the forms of the types of the store core.
    - [DrvInputs], [DerivationJson] ([harmonia-store-core/src/derivation]): the
      inputs of a derivation as a set and as a trie; derivations and their JSON
      form. The map of structured attributes is a parameter.
    - [StoreDb] ([harmonia-store-db/src]): the tables with their constraints,
      triggers and cascades, and every statement and query; the order of rows
      without ORDER BY is a parameter ([Planner]). [StoreDbSpec]: the invariant
      and the view of the tables as a map; [StoreDbRefine]: the refinement.
    - [LocalStore] ([harmonia-daemon/src/handler.rs]): the store of the daemon
      that answers from the database; [LocalStoreSpec]: from the database to
      the client.
    - [Lookup]: the calls of [std::fs] that follow a path to its end, and the
      proof that the place they find is real.
    - [CacheConfig], [Cache], [CacheFiles] ([harmonia-cache/src]): the binary
      cache: errors, configuration and keys; narinfo and NAR with ranges;
      listings, served files, build logs and pages. [actix_web], [http_range],
      [toml], the templates and escapes are parameters. [CacheSpec] and
      [CacheFilesSpec]: what the handlers promise.

    ** What the theorems show

    - NAR: the writer produces the serialisation of the tree under every
      schedule; the state machine is safe, does not depend on how its input is
      cut, and accepts every serialisation; the parser over any lawful reader
      returns the events of the tree with the contents of its files, read or
      dropped; writing and parsing are inverse; an archive inside a stream is
      delimited to the byte. One theorem shows where lengths wrap.
    - Archives and files: restoring puts exactly the tree at its path and harms
      nothing that is there, whatever the events; dumping what was restored
      gives the same events, with and without the case hack; a tree goes from
      one file system to another unchanged; the byte stream is the archive in
      bounded chunks. Two theorems show defects: entry names can lead outside
      the target ([restore_escapes]), and a dump that fails ends the byte stream
      without an error ([stream_truncates]).
    - Buffers and protocol: the shared buffer is a queue whose snapshots never
      change; reading a string is a pure function of the stream; framing is
      transparent; one theorem shows a string inside the limit that is refused.
    - Names: every text form round trips, every parser is total (no panic, and
      errors that point into the text), what is accepted is canonical where
      the format is, the order of paths is the order of their texts; the
      fingerprints that are hashed or signed determine what they say.
    - Tee: both writers get what was accepted; large writes fail.
    - Pool: the invariant, exact counts and the conservation of connections in
      every reachable state, when a call waits, and two defects: a failed
      connection wakes nobody, a cancelled one leaks its slot.
    - Protocol values: what is written is read back for every type with a
      codec, and what is read is well typed whatever the peer sends.
    - Daemon: a connection from the handshake on is the store behind the server
      for the methods on which client and server agree; an upload hands the
      store exactly the bytes of its source and a NAR arrives to the byte, and
      both leave the connection in step; the server's loop ends on every finite
      session, with all of it served or at the first NAR the store cannot give;
      the poll-level combinators mean what their sequential reading
      says. Four theorems show where the two ends disagree: an acknowledgement
      that is not read, a request that is too short, a path in the wrong form,
      a derivation output that cannot be read.
    - Several paths: what the writer of many paths sends is read back as the
      same paths with the same archives, whether the consumer reads an archive
      to its end, in part or not at all; through a connection, the method of the
      store behind the server gets the paths that the client sends. The reader
      inside the frames has a buffer of 8 MiB: the stream may have any length,
      each of its strings at most a quarter of the buffer less its reserve
      ([INNER_LIMIT]).
    - Requests for data: the reader behind [STDERR_READ] is the stream of the
      replies, with one request for each; the client's answers carry the stream
      of its source to that reader.
    - Derivations: both forms of the inputs say the same, and a derivation is
      read back from its JSON form as itself.
    - Database and local store: any sequence of statements behaves as a finite
      map from paths to their data with outputs, realisations and their
      references, errors and the order of the rows included; what is registered
      there is what a client of the daemon gets; the search for a hash part is
      right when rows come in the order of the index, and may not be otherwise.
    - Binary cache: the URL of a narinfo leads to the archive of its path, its
      signatures verify under every key file of the configuration, its text
      says all of it; a range is answered with exactly that part; the listing
      is the tree on disk, and that of the archive when the names are UTF-8 and no
      file has an execute bit that its owner has not; a file that is served lies in the store,
      unless it is an index file that is a link, which one theorem shows; the
      log of a derivation is found under its name; without a configuration file
      the documented defaults are not used ([load_without_file]).

    ** Bounds and fuel

    Loops that are not structural carry fuel. [drive_fuel] and [lookup_fuel]
    are computed from the buffer and proved sufficient ([drive_safe] is about
    [drive] itself, without fuel in its statement); flushing loops run on the
    length of the buffer, because a writer that takes nothing is an error; the
    recursion on derived paths runs on the length of the text. Loops over polls
    ([collect], [nb_read_to_end], [tee_finish]) take fuel as an argument, and
    their theorems ask for more than the length of the stream plus the number
    of pending polls to come ([patience]). The server's loop takes one unit of
    fuel for each request and one for the end of the stream, and the client one
    for each log message; the theorems ask for exactly that. The loops of the
    dumper pass through at most two or three states ([DUMPER_STEPS],
    [STATE_STEPS], [FILE_STATES]) and are proved to end within them. The loop of
    a listing takes one unit of fuel for each turn, and its theorem asks for two
    turns for a directory and one for any other entry.

    ** What is not modelled

    Wakers and the scheduler (a poll is a call, and pending polls come in any
    order), tracing, permissions and a full disk in the file system, the SQL
    engine (the statements are modelled by what they do to the tables), the
    HTTP framework, sockets, TLS and metrics, the parsing of attributes in the
    derive macros, JSON texts (the forms are trees) and the JSON forms of
    messages, and uploads below version 1.21. The theorems about a connection
    hold for any handler of [AddMultipleToStore], which [Server] has as an
    argument; [MultiStore] has the handler of the code. An upload of the client
    is modelled with its driver run to its end before the log is read, one of
    the schedules that [ResultLogs] allows. *)

From stdpp Require Import base list numbers strings gmap.
From Stdlib Require Import ZArith Lia Strings.Byte.

(** ** Results

    Rust's [Result<A, E>] with a third outcome for a panic: an assertion or
    [unwrap] that fails, an index out of range, an overflow that is checked. *)

Inductive res (E A : Type) : Type :=
| Ok (a : A)
| Err (e : E)
| Panic.
Arguments Ok {E A} a.
Arguments Err {E A} e.
Arguments Panic {E A}.

#[export] Instance res_ret (E : Type) : MRet (res E) := fun A a => Ok a.
#[export] Instance res_bind (E : Type) : MBind (res E) := fun A B f m =>
  match m with Ok a => f a | Err e => Err e | Panic => Panic end.
#[export] Instance res_fmap (E : Type) : FMap (res E) := fun A B f m =>
  match m with Ok a => Ok (f a) | Err e => Err e | Panic => Panic end.

(** [Result::map_err]. *)
Definition map_err {E F A : Type} (f : E → F) (m : res E A) : res F A :=
  match m with Ok a => Ok a | Err e => Err (f e) | Panic => Panic end.

(** [Option::ok_or]. *)
Definition ok_or {E A : Type} (o : option A) (e : E) : res E A :=
  match o with Some a => Ok a | None => Err e end.

(** [Result::or_else]. *)
Definition or_else {E F A : Type} (m : res E A) (k : E → res F A) : res F A :=
  match m with Ok a => Ok a | Err e => k e | Panic => Panic end.

(** [Result::unwrap]. *)
Definition unwrap {E F A : Type} (m : res E A) : res F A :=
  match m with Ok a => Ok a | _ => Panic end.

Definition is_panic {E A : Type} (m : res E A) : bool :=
  match m with Panic => true | _ => false end.

#[export] Instance res_eq_dec {E A : Type} `{!EqDecision E, !EqDecision A} : EqDecision (res E A).
Proof. refine (λ m n, match m, n with
  | Ok a, Ok b => cast_if (decide (a = b))
  | Err e, Err f => cast_if (decide (e = f))
  | Panic, Panic => left eq_refl
  | _, _ => right _ end); congruence. Defined.

Lemma res_bind_Ok {E A B} (m : res E A) (f : A → res E B) b :
  m ≫= f = Ok b ↔ ∃ a, m = Ok a ∧ f a = Ok b.
Proof. destruct m; cbn; naive_solver. Qed.

Lemma res_bind_not_panic {E A B} (m : res E A) (f : A → res E B) :
  is_panic m = false → (∀ a, m = Ok a → is_panic (f a) = false) →
  is_panic (m ≫= f) = false.
Proof. destruct m; cbn; naive_solver. Qed.

Lemma map_err_Ok {E F A} (f : E → F) (m : res E A) a :
  map_err f m = Ok a ↔ m = Ok a.
Proof. destruct m; cbn; naive_solver. Qed.

Lemma map_err_not_panic {E F A} (f : E → F) (m : res E A) :
  is_panic (map_err f m) = is_panic m.
Proof. by destruct m. Qed.

Lemma fmap_rev {A B : Type} (f : A → B) (l : list A) : f <$> rev l = rev (f <$> l).
Proof. apply map_rev. Qed.

Lemma list_fmap_fixed {A : Type} (f : A → A) (l : list A) :
  Forall (λ x, f x = x) l → f <$> l = l.
Proof. induction 1; cbn; congruence. Qed.

(** ** Bytes and byte strings *)

Abbreviation byte := Corelib.Init.Byte.byte.
Abbreviation bytes := (list byte).

#[export] Instance byte_eq_decision : EqDecision byte := Byte.byte_eq_dec.

Definition byte_to_Z (b : byte) : Z := Z.of_N (Byte.to_N b).

Definition byte_of_Z (z : Z) : byte :=
  default Byte.x00 (Byte.of_N (Z.to_N (z mod 256))).

(** A Rust string literal, as its bytes. *)
Definition str (s : string) : bytes := String.list_byte_of_string s.

Lemma byte_to_Z_range b : (0 ≤ byte_to_Z b < 256)%Z.
Proof.
  unfold byte_to_Z. pose proof (Byte.to_N_bounded b). lia.
Qed.

Lemma byte_to_of_Z z : (0 ≤ z < 256)%Z → byte_to_Z (byte_of_Z z) = z.
Proof.
  intros Hz. unfold byte_to_Z, byte_of_Z. rewrite Z.mod_small by done.
  destruct (Byte.of_N (Z.to_N z)) as [b|] eqn:E; cbn.
  - apply Byte.to_of_N in E. lia.
  - apply Byte.of_N_None_iff in E. lia.
Qed.

Lemma byte_of_to_Z b : byte_of_Z (byte_to_Z b) = b.
Proof.
  unfold byte_of_Z. rewrite Z.mod_small by apply byte_to_Z_range.
  unfold byte_to_Z. by rewrite N2Z.id, Byte.of_to_N.
Qed.

Lemma byte_to_Z_inj b c : byte_to_Z b = byte_to_Z c → b = c.
Proof. intros H. by rewrite <-(byte_of_to_Z b), H, byte_of_to_Z. Qed.

(** ** Positional numerals

    [from_digits b ds] is the little-endian value of the digits [ds] in base
    [b]; [to_digits b n z] are the [n] low digits of [z]. Little-endian
    integers and the LSB-first base encodings are both instances. *)

Section digits.
Context (b : Z) (Hb : (1 < b)%Z).

Fixpoint from_digits (ds : list Z) : Z :=
  match ds with
  | [] => 0
  | d :: ds => d + b * from_digits ds
  end.

Fixpoint to_digits (n : nat) (z : Z) : list Z :=
  match n with
  | O => []
  | S n => (z mod b)%Z :: to_digits n (z / b)
  end.

Lemma length_to_digits n z : length (to_digits n z) = n.
Proof. revert z; induction n; intros; cbn; auto. Qed.

Lemma to_digits_range n z : Forall (λ d, 0 ≤ d < b)%Z (to_digits n z).
Proof.
  revert z; induction n; intros; cbn; constructor; auto.
  apply Z.mod_pos_bound. lia.
Qed.

Lemma from_to_digits n z : (0 ≤ z < b ^ Z.of_nat n)%Z → from_digits (to_digits n z) = z.
Proof.
  revert z; induction n as [|n IH]; intros z Hz; cbn.
  - change (b ^ Z.of_nat 0)%Z with 1%Z in Hz. lia.
  - rewrite Nat2Z.inj_succ, Z.pow_succ_r in Hz by lia.
    rewrite IH.
    + pose proof (Z.div_mod z b). lia.
    + split; [apply Z.div_pos; lia|]. apply Z.div_lt_upper_bound; lia.
Qed.

Lemma from_digits_range ds :
  Forall (λ d, 0 ≤ d < b)%Z ds → (0 ≤ from_digits ds < b ^ Z.of_nat (length ds))%Z.
Proof.
  induction 1 as [|d ds Hd _ IH]; cbn [from_digits length].
  - cbn. lia.
  - rewrite Nat2Z.inj_succ, Z.pow_succ_r by lia. nia.
Qed.

Lemma to_from_digits ds :
  Forall (λ d, 0 ≤ d < b)%Z ds → to_digits (length ds) (from_digits ds) = ds.
Proof.
  induction 1 as [|d ds Hd _ IH]; cbn; [done|].
  assert ((d + b * from_digits ds) mod b = d)%Z as ->.
  { rewrite Z.mul_comm, Z.mod_add by lia. apply Z.mod_small; lia. }
  assert ((d + b * from_digits ds) / b = from_digits ds)%Z as ->.
  { rewrite Z.mul_comm, Z.div_add by lia. rewrite Z.div_small; lia. }
  by rewrite IH.
Qed.
End digits.

(** ** Machine integers

    [usize] and [u64] are 64 bits wide. [to_le_bytes] and [from_le_bytes] are
    Rust's conversions, for a width of [n] bytes. *)

Definition u64_modulus : Z := 18446744073709551616.
Definition u64_max : Z := 18446744073709551615.

Definition is_u64 (z : Z) : Prop := (0 ≤ z < u64_modulus)%Z.

Definition wrap_u64 (z : Z) : Z := (z mod u64_modulus)%Z.

Definition to_le_bytes (n : nat) (z : Z) : bytes := byte_of_Z <$> to_digits 256 n z.

Definition from_le_bytes (bs : bytes) : Z := from_digits 256 (byte_to_Z <$> bs).

Definition u64_to_le_bytes (z : Z) : bytes := to_le_bytes 8 z.

Lemma length_to_le_bytes n z : length (to_le_bytes n z) = n.
Proof. unfold to_le_bytes. by rewrite length_fmap, length_to_digits. Qed.

Lemma byte_digits_range bs : Forall (λ d, 0 ≤ d < 256)%Z (byte_to_Z <$> bs).
Proof. apply Forall_fmap, Forall_true. intros; apply byte_to_Z_range. Qed.

Lemma from_to_le_bytes n z :
  (0 ≤ z < 256 ^ Z.of_nat n)%Z → from_le_bytes (to_le_bytes n z) = z.
Proof.
  intros Hz. unfold from_le_bytes, to_le_bytes. rewrite <-list_fmap_compose.
  rewrite (list_fmap_fixed (byte_to_Z ∘ byte_of_Z)); [by apply from_to_digits|].
  eapply Forall_impl; [apply to_digits_range; lia|].
  intros d ?; cbn. by apply byte_to_of_Z.
Qed.

Lemma to_from_le_bytes bs : to_le_bytes (length bs) (from_le_bytes bs) = bs.
Proof.
  unfold from_le_bytes, to_le_bytes.
  rewrite <-(length_fmap byte_to_Z bs), to_from_digits by (lia || apply byte_digits_range).
  rewrite <-list_fmap_compose. apply list_fmap_fixed, Forall_true.
  intros; apply byte_of_to_Z.
Qed.

Lemma from_le_bytes_range bs : (0 ≤ from_le_bytes bs < 256 ^ Z.of_nat (length bs))%Z.
Proof.
  unfold from_le_bytes. rewrite <-(length_fmap byte_to_Z bs).
  apply from_digits_range; [lia|apply byte_digits_range].
Qed.

Lemma from_u64_to_le_bytes z : is_u64 z → from_le_bytes (u64_to_le_bytes z) = z.
Proof. intros Hz. apply from_to_le_bytes. exact Hz. Qed.

Lemma from_le_bytes_u64 bs : length bs = 8 → is_u64 (from_le_bytes bs).
Proof. intros H. pose proof (from_le_bytes_range bs) as R. by rewrite H in R. Qed.

Lemma u64_to_from_le_bytes bs : length bs = 8 → u64_to_le_bytes (from_le_bytes bs) = bs.
Proof. intros H. unfold u64_to_le_bytes. by rewrite <-H, to_from_le_bytes. Qed.

Lemma length_u64_to_le_bytes z : length (u64_to_le_bytes z) = 8.
Proof. apply length_to_le_bytes. Qed.

(** ** String operations

    A [&str] is the list of its (UTF-8) bytes. The separators and prefixes the
    code searches for are all ASCII, so a search over bytes is the search over
    characters. *)

(** [str::split_once]. *)
Fixpoint split_once (c : byte) (s : bytes) : option (bytes * bytes) :=
  match s with
  | [] => None
  | x :: s' =>
      if decide (x = c) then Some ([], s')
      else match split_once c s' with
           | Some (p, q) => Some (x :: p, q)
           | None => None
           end
  end.

(** [str::rsplitn(2, c)]: the part after the last [c] and, when there is one,
    the part before it. *)
Definition rsplitn2 (c : byte) (s : bytes) : bytes * option bytes :=
  match split_once c (rev s) with
  | Some (p, q) => (rev p, Some (rev q))
  | None => (s, None)
  end.

(** [str::split(c)], collected. *)
Fixpoint split_all (c : byte) (s : bytes) : list bytes :=
  match s with
  | [] => [[]]
  | x :: s' =>
      if decide (x = c) then [] :: split_all c s'
      else match split_all c s' with
           | p :: ps => (x :: p) :: ps
           | [] => [[x]]
           end
  end.

(** [str::strip_prefix]. *)
Fixpoint strip_prefix (p s : bytes) : option bytes :=
  match p, s with
  | [], _ => Some s
  | x :: p', y :: s' => if decide (x = y) then strip_prefix p' s' else None
  | _ :: _, [] => None
  end.

(** [str::strip_suffix]. *)
Definition strip_suffix (p s : bytes) : option bytes :=
  @rev byte <$> strip_prefix (rev p) (rev s).

(** [str::ends_with]. *)
Definition ends_with (p s : bytes) : bool :=
  match strip_suffix p s with Some _ => true | None => false end.

(** [u8::to_ascii_lowercase] and [str::eq_ignore_ascii_case]. *)
Definition to_ascii_lowercase (b : byte) : byte :=
  let z := byte_to_Z b in
  if (65 <=? z)%Z && (z <=? 90)%Z then byte_of_Z (z + 32) else b.

Definition eq_ignore_ascii_case (s t : bytes) : bool :=
  bool_decide (to_ascii_lowercase <$> s = to_ascii_lowercase <$> t).

(** [{:02x}] and [{:02X}] of a byte. *)
Definition hex_digit (digits : bytes) (d : Z) : byte := default x00 (digits !! Z.to_nat d).

Definition fmt_02 (digits : bytes) (b : byte) : bytes :=
  [hex_digit digits (byte_to_Z b / 16); hex_digit digits (byte_to_Z b mod 16)].

Definition fmt_02x : byte → bytes := fmt_02 (str "0123456789abcdef").
Definition fmt_02X : byte → bytes := fmt_02 (str "0123456789ABCDEF").

(** [to_string] of an unsigned integer below [10 ^ fuel]. *)
Fixpoint dec_digits (fuel : nat) (z : Z) : list Z :=
  match fuel with
  | O => []
  | S fuel => if decide (z < 10)%Z then [z] else dec_digits fuel (z / 10) ++ [(z mod 10)%Z]
  end.

Definition dec_to_string (fuel : nat) (z : Z) : bytes :=
  (λ d, byte_of_Z (48 + d)) <$> dec_digits fuel z.

(** [to_string] of a [u64], which has at most 20 digits. *)
Definition u64_to_string (z : Z) : bytes := dec_to_string 20 z.

(** [parse::<u64>]'s value of a string of digits. *)
Definition dec_value (s : bytes) : Z :=
  fold_left (λ acc b, 10 * acc + (byte_to_Z b - 48))%Z s 0%Z.

(** [Ord] of byte strings. *)
Fixpoint bytes_cmp (a b : bytes) : comparison :=
  match a, b with
  | [], [] => Eq
  | [], _ :: _ => Lt
  | _ :: _, [] => Gt
  | x :: a, y :: b =>
      match Z.compare (byte_to_Z x) (byte_to_Z y) with Eq => bytes_cmp a b | c => c end
  end.

(** The pieces of [ps] with [c] between them. *)
Fixpoint join (c : byte) (ps : list bytes) : bytes :=
  match ps with
  | [] => []
  | [p] => p
  | p :: ps => p ++ c :: join c ps
  end.

Lemma split_once_app c p q : c ∉ p → split_once c (p ++ c :: q) = Some (p, q).
Proof.
  induction p as [|x p IH]; intros Hc; cbn.
  - by rewrite decide_True.
  - rewrite decide_False by set_solver. by rewrite IH by set_solver.
Qed.

Lemma split_once_None c s : c ∉ s → split_once c s = None.
Proof.
  induction s as [|x s IH]; intros Hc; cbn; [done|].
  rewrite decide_False by set_solver. by rewrite IH by set_solver.
Qed.

Lemma split_once_None_inv c s : split_once c s = None → c ∉ s.
Proof.
  induction s as [|x s IH]; cbn; [intros _ Hin; inversion Hin|].
  destruct (decide (x = c)) as [|Hx]; [done|]. destruct (split_once c s) as [[]|]; [done|].
  intros _. rewrite not_elem_of_cons. split; [congruence|by apply IH].
Qed.

Lemma split_once_Some c s p q : split_once c s = Some (p, q) → s = p ++ c :: q ∧ c ∉ p.
Proof.
  revert p q; induction s as [|x s IH]; intros p q; cbn; [done|].
  case_decide as Hx.
  - intros [= <- <-]. subst. split; [done|set_solver].
  - destruct (split_once c s) as [[p' q']|]; [|done]. intros [= <- <-].
    destruct (IH _ _ eq_refl) as [-> ?]. split; [done|set_solver].
Qed.

Lemma split_once_length c s p q :
  split_once c s = Some (p, q) → length s = S (length p + length q).
Proof. intros [-> _]%split_once_Some. rewrite length_app; cbn; lia. Qed.

Lemma elem_of_rev' {A : Type} (x : A) (l : list A) : x ∈ rev l ↔ x ∈ l.
Proof. rewrite !list_elem_of_In. symmetry; apply in_rev. Qed.

Lemma rsplitn2_app c p q : c ∉ q → rsplitn2 c (p ++ c :: q) = (q, Some p).
Proof.
  intros Hc. unfold rsplitn2. rewrite rev_app_distr. cbn. rewrite <-app_assoc. cbn.
  rewrite split_once_app by (by rewrite elem_of_rev').
  by rewrite !rev_involutive.
Qed.

Lemma rsplitn2_None c s : c ∉ s → rsplitn2 c s = (s, None).
Proof.
  intros Hc. unfold rsplitn2. by rewrite split_once_None by (by rewrite elem_of_rev').
Qed.

Lemma rsplitn2_Some c s l p : rsplitn2 c s = (l, Some p) → s = p ++ c :: l ∧ c ∉ l.
Proof.
  unfold rsplitn2. destruct (split_once c (rev s)) as [[x y]|] eqn:E; [|done].
  intros [= <- <-]. apply split_once_Some in E as [E Hc].
  apply (f_equal (@rev byte)) in E. rewrite rev_involutive, rev_app_distr in E. cbn in E.
  rewrite <-app_assoc in E. rewrite E. by rewrite elem_of_rev'.
Qed.

Lemma strip_prefix_app p s : strip_prefix p (p ++ s) = Some s.
Proof. induction p; cbn; [done|]. by rewrite decide_True. Qed.

Lemma strip_prefix_Some p s q : strip_prefix p s = Some q ↔ s = p ++ q.
Proof.
  split; [|intros ->; apply strip_prefix_app].
  revert s; induction p as [|x p IH]; intros s; cbn; [naive_solver|].
  destruct s as [|y s]; [done|]. case_decide; [|done]. subst.
  intros H%IH. by rewrite H.
Qed.

Lemma strip_suffix_Some p s q : strip_suffix p s = Some q ↔ s = q ++ p.
Proof.
  unfold strip_suffix. rewrite fmap_Some. split.
  - intros (r & H%strip_prefix_Some & ->).
    apply (f_equal (@rev byte)) in H. rewrite rev_involutive, rev_app_distr, rev_involutive in H.
    done.
  - intros ->. exists (rev q). rewrite rev_app_distr, strip_prefix_app, rev_involutive. done.
Qed.

Lemma split_all_app c p s : c ∉ p → split_all c (p ++ c :: s) = p :: split_all c s.
Proof.
  induction p as [|x p IH]; intros Hc; cbn.
  - by rewrite decide_True.
  - rewrite decide_False by set_solver. by rewrite IH by set_solver.
Qed.

Lemma split_all_single c p : c ∉ p → split_all c p = [p].
Proof.
  induction p as [|x p IH]; intros Hc; cbn; [done|].
  rewrite decide_False by set_solver. by rewrite IH by set_solver.
Qed.

Lemma split_all_join c ps :
  ps ≠ [] → Forall (λ p, c ∉ p) ps → split_all c (join c ps) = ps.
Proof.
  intros Hne. induction ps as [|p [|q ps] IH]; intros Hps; [done| |].
  - apply Forall_cons in Hps as [Hp _]. by apply split_all_single.
  - apply Forall_cons in Hps as [Hp Hps].
    change (join c (p :: q :: ps)) with (p ++ c :: join c (q :: ps)).
    rewrite split_all_app by done. by rewrite IH.
Qed.

Lemma to_ascii_lowercase_idem b : to_ascii_lowercase (to_ascii_lowercase b) = to_ascii_lowercase b.
Proof. by destruct b. Qed.

Lemma fmt_02X_lowercase b : map to_ascii_lowercase (fmt_02X b) = fmt_02x b.
Proof. by destruct b. Qed.

(** ** Decimal numbers *)

Lemma dec_digits_spec fuel z : (0 ≤ z < 10 ^ Z.of_nat fuel)%Z →
  Forall (λ d, 0 ≤ d < 10)%Z (dec_digits fuel z) ∧
  fold_left (λ acc d, 10 * acc + d)%Z (dec_digits fuel z) 0%Z = z.
Proof.
  revert z; induction fuel as [|fuel IH]; intros z Hz.
  - change (10 ^ Z.of_nat 0)%Z with 1%Z in Hz. cbn. split; [constructor|lia].
  - rewrite Nat2Z.inj_succ, Z.pow_succ_r in Hz by lia. cbn [dec_digits].
    destruct (decide (z < 10)%Z); [split; [repeat constructor; lia|cbn; lia]|].
    destruct (IH (z / 10)%Z) as [HF Hv].
    { split; [apply Z.div_pos; lia|]. apply Z.div_lt_upper_bound; lia. }
    pose proof (Z.mod_pos_bound z 10). split.
    + apply Forall_app. split; [done|]. repeat constructor; lia.
    + rewrite fold_left_app, Hv. cbn. pose proof (Z.div_mod z 10). lia.
Qed.

Lemma dec_to_string_value fuel z : (0 ≤ z < 10 ^ Z.of_nat fuel)%Z → dec_value (dec_to_string fuel z) = z.
Proof.
  intros Hz. destruct (dec_digits_spec fuel z Hz) as [HF Hv]. rewrite <-Hv at 2.
  unfold dec_value, dec_to_string. clear Hv Hz. revert HF. generalize (dec_digits fuel z).
  intros ds HF. generalize 0%Z. induction HF as [|d ds Hd HF IH]; intros acc; [done|].
  cbn. rewrite byte_to_of_Z by lia. rewrite IH. f_equal. lia.
Qed.

Lemma u64_to_string_inj x y : is_u64 x → is_u64 y → u64_to_string x = u64_to_string y → x = y.
Proof.
  intros Hx Hy E. apply (f_equal dec_value) in E. unfold u64_to_string, is_u64, u64_modulus in *.
  rewrite !dec_to_string_value in E by (cbn; lia). done.
Qed.

(** A decimal number has no byte that is not a digit. *)
Lemma dec_to_string_plain fuel z c :
  (0 ≤ z < 10 ^ Z.of_nat fuel)%Z → ¬ (48 ≤ byte_to_Z c < 58)%Z → c ∉ dec_to_string fuel z.
Proof.
  intros Hz Hc (d & -> & Hd)%list_elem_of_fmap. destruct (dec_digits_spec fuel z Hz) as [HF _].
  rewrite Forall_forall in HF. apply HF in Hd. apply Hc. rewrite byte_to_of_Z; lia.
Qed.

(** Two strings cut at the first occurrence of a separator, or at the end. *)
Lemma app_sep_inj (c : byte) (p q r t : bytes) :
  c ∉ p → c ∉ q → (r = [] ∨ hd_error r = Some c) → (t = [] ∨ hd_error t = Some c) →
  p ++ r = q ++ t → p = q ∧ r = t.
Proof.
  intros Hp Hq Hr Ht. revert q Hq; induction p as [|x p IH]; intros [|y q] Hq E; cbn in *.
  - done.
  - subst r. exfalso. apply Hq. destruct Hr as [|[= ->]]; [done|left].
  - subst t. exfalso. apply Hp. destruct Ht as [|[= ->]]; [done|left].
  - injection E as -> E. rewrite not_elem_of_cons in Hp, Hq.
    destruct (IH (proj2 Hp) q (proj2 Hq) E) as [-> ->]. done.
Qed.

(** ** The order of byte strings *)

Lemma bytes_cmp_antisym a b : bytes_cmp b a = CompOpp (bytes_cmp a b).
Proof.
  revert b; induction a as [|x a IH]; intros [|y b]; cbn; [done..|].
  rewrite (Z.compare_antisym (byte_to_Z x) (byte_to_Z y)), IH. by destruct (_ ?= _)%Z.
Qed.

Lemma bytes_cmp_eq a b : bytes_cmp a b = Eq ↔ a = b.
Proof.
  revert b; induction a as [|x a IH]; intros [|y b]; cbn; [done..|].
  destruct (Z.compare_spec (byte_to_Z x) (byte_to_Z y)) as [E| |].
  - apply byte_to_Z_inj in E as ->. rewrite IH. split; [congruence|by intros [=]].
  - split; [done|]. intros [= -> ->]. lia.
  - split; [done|]. intros [= -> ->]. lia.
Qed.

Lemma bytes_cmp_trans a b c : bytes_cmp a b = Lt → bytes_cmp b c = Lt → bytes_cmp a c = Lt.
Proof.
  revert b c; induction a as [|x a IH]; intros [|y b] [|z c]; cbn; try done.
  destruct (Z.compare_spec (byte_to_Z x) (byte_to_Z y)), (Z.compare_spec (byte_to_Z y) (byte_to_Z z)),
    (Z.compare_spec (byte_to_Z x) (byte_to_Z z)); try done; try lia. apply IH.
Qed.

(** ** Automation

    [res_simpl] computes the operations of [res] on a known outcome;
    [use_decide] takes the branch of a test that holds or fails by assumption;
    the databases [harmonia] and [len] hold the facts and the length equations
    the components share. *)

Ltac res_simpl := cbn [mbind res_bind fmap res_fmap mret res_ret map_err ok_or or_else unwrap].

Ltac use_decide := first [rewrite decide_True by (done || lia) | rewrite decide_False by (auto || lia)].

Create HintDb harmonia.
Create HintDb len.

#[export] Hint Resolve byte_to_Z_range byte_digits_range from_le_bytes_range to_digits_range
  split_once_None_inv from_le_bytes_u64 : harmonia.
#[export] Hint Rewrite @length_app @length_take @length_drop @length_replicate @length_rev @length_fmap
  length_to_le_bytes length_u64_to_le_bytes @length_to_digits : len.

Ltac len_lia := autorewrite with len in *; cbn [length] in *; lia.
