(* ===== verification/Async.v ===== *)
(** Asynchronous reading: [Poll], I/O errors, a byte source with a schedule,
    and the trait [AsyncBytesRead]
    ([harmonia-utils-io/src/async_bytes_read.rs]) as a class of operations
    with the laws its clients rely on. *)

From stdpp Require Import base list numbers strings.
From Stdlib Require Import ZArith Lia Strings.Byte.
From S2P Require Import Prelude.

(** ** Poll and errors *)

Inductive poll (A : Type) : Type := Ready (a : A) | Pending.
Arguments Ready {A} a.
Arguments Pending {A}.

(** The errors of the system calls that the code makes. *)
Inductive errno : Type := EEXIST | ENOENT | ENOTDIR | EISDIR | ELOOP | EINVAL.

#[export] Instance errno_eq_dec : EqDecision errno.
Proof. solve_decision. Defined.

(** [io::Error], with the kinds the code builds. *)
Inductive io_error : Type :=
| InvalidData (msg : string)
| UnexpectedEof (msg : string)
| WriteZero (msg : string)
| BrokenPipe (msg : string)
| Other (msg : string)
| OsError (e : errno).

#[export] Instance io_error_eq_dec : EqDecision io_error.
Proof. solve_decision. Defined.

Abbreviation polled A := (poll (res io_error A)).

(** ** A source with a schedule

    What the next reads of an [AsyncRead] give: [None] is [Pending], [Some c]
    is data that has arrived. A read takes at most as much as it has room
    for; an empty schedule is the end of the file. *)

Abbreviation source := (list (option bytes)).

Definition src_rest (s : source) : bytes := concat (omap id s).

Definition src_ok (s : source) : Prop := Forall (λ o, o ≠ Some []) s.

Definition src_read (s : source) (room : nat) : source * polled bytes :=
  match s with
  | [] => ([], Ready (Ok []))
  | None :: s => (s, Pending)
  | Some c :: s =>
      (match drop room c with [] => s | c' => Some c' :: s end, Ready (Ok (take room c)))
  end.

Lemma src_read_spec s room s' p :
  src_ok s → 0 < room → src_read s room = (s', p) →
  src_ok s' ∧
  match p with
  | Pending => src_rest s' = src_rest s ∧ length s' < length s
  | Ready (Ok b) => src_rest s = b ++ src_rest s' ∧ length b ≤ room ∧
      (b = [] → src_rest s = []) ∧ length s' ≤ length s
  | _ => False
  end.
Proof.
  unfold src_ok, src_rest. intros Hs Hr. destruct s as [|[c|] s]; cbn; intros [= <- <-].
  - repeat split; try done; cbn; lia.
  - apply Forall_cons in Hs as [Hc Hs].
    assert (take room c = [] → c = []) as Ht by (destruct room, c; [lia|lia|done|done]).
    pose proof (length_take c room). pose proof (take_drop room c) as Hd.
    destruct (drop room c) as [|y c'] eqn:E; cbn [omap list_omap id concat].
    + rewrite app_nil_r in Hd. split; [done|]. rewrite Hd. split; [done|].
      split; [rewrite Hd in *; lia|]. split; [by intros ->|cbn; lia].
    + split; [by constructor|]. cbn. repeat split; [|lia| |lia].
      * rewrite <-Hd at 1. by rewrite <-app_assoc.
      * intros E'%Ht. by subst c.
  - apply Forall_cons in Hs as [_ Hs]. repeat split; try done; cbn; lia.
Qed.

(** ** The trait [AsyncRead] *)

(** [poll_read] with room for the given number of bytes. *)
Class AsyncRead (S : Type) : Type := ar_poll_read : S → nat → S * polled bytes.

(** What a client may rely on: [ar_rest] is what is still to be read, and a
    poll that is not ready uses up [ar_patience]. *)
Class AsyncReadLaws (S : Type) {AR : AsyncRead S} : Type := {
  ar_inv : S → Prop;
  ar_rest : S → bytes;
  ar_patience : S → nat;
  ar_poll_read_law s room s' p :
    ar_inv s → 0 < room → ar_poll_read s room = (s', p) →
    ar_inv s' ∧
    match p with
    | Pending => ar_rest s' = ar_rest s ∧ ar_patience s' < ar_patience s
    | Ready (Ok b) => ar_rest s = b ++ ar_rest s' ∧ length b ≤ room ∧
        (b = [] → ar_rest s = []) ∧ ar_patience s' ≤ ar_patience s
    | _ => False
    end
}.

#[export] Instance source_async_read : AsyncRead source := src_read.

#[export] Instance source_async_read_laws : AsyncReadLaws source := {|
  ar_inv := src_ok;
  ar_rest := src_rest;
  ar_patience := @length (option bytes);
  ar_poll_read_law := src_read_spec
|}.

(** ** The trait [AsyncBytesRead] *)

(** [poll_read] has room for the given number of bytes. [consume] asserts. *)
Class AsyncBytesRead (R : Type) : Type := {
  poll_force_fill_buf : R → R * polled bytes;
  poll_fill_buf : R → R * polled bytes;
  prepare : R → nat → R;
  consume : R → nat → res io_error R;
  poll_read : R → nat → R * polled bytes
}.

(** What a client may rely on. [rest] is everything still to be read; the
    buffer last returned is [held], a prefix of it. A poll that is not ready
    uses up [patience], so that polling again ends. [rd_fits r n]: the buffer may
    be made to hold [n] bytes; a reader has a limit, beyond which
    [poll_force_fill_buf] and [prepare] are not promised anything. *)
Class AsyncBytesReadBase (R : Type) `{!AsyncBytesRead R} : Type := {
  rd_inv : R → Prop;
  rest : R → bytes;
  held : R → bytes;
  patience : R → nat;
  rd_fits : R → nat → Prop;
  fits_le r n m : rd_fits r n → m ≤ n → rd_fits r m;
  held_prefix r : rd_inv r → held r `prefix_of` rest r;
  poll_fill_buf_law r r' p :
    rd_inv r → poll_fill_buf r = (r', p) →
    rd_inv r' ∧ rest r' = rest r ∧
    match p with
    | Pending => held r' = held r ∧ patience r' < patience r
    | Ready (Ok b) => b = held r' ∧ (b = [] → rest r = []) ∧ length (held r) ≤ length b ∧
        patience r' ≤ patience r
    | _ => False
    end;
  force_fill_law r r' p :
    rd_inv r → rd_fits r (length (held r)) → poll_force_fill_buf r = (r', p) →
    rd_inv r' ∧ rest r' = rest r ∧
    match p with
    | Pending => held r' = held r ∧ patience r' < patience r
    | Ready (Ok b) => b = held r' ∧ length (held r) < length b ∧ patience r' ≤ patience r
    | Ready (Err e) => e = UnexpectedEof "EOF while force reading" ∧ held r = rest r
    | _ => False
    end;
  prepare_fits_law r n :
    rd_inv r → rd_fits r n → rd_inv (prepare r n) ∧ rest (prepare r n) = rest r ∧
    held (prepare r n) = held r ∧ patience (prepare r n) = patience r;
  consume_law r n :
    rd_inv r → n ≤ length (held r) →
    ∃ r', consume r n = Ok r' ∧ rd_inv r' ∧ rest r' = drop n (rest r) ∧
      held r' = drop n (held r) ∧ patience r' = patience r;
  poll_read_law r room r' p :
    rd_inv r → 0 < room → poll_read r room = (r', p) →
    rd_inv r' ∧
    match p with
    | Pending => rest r' = rest r ∧ patience r' < patience r
    | Ready (Ok b) => rest r = b ++ rest r' ∧ length b ≤ room ∧ (b = [] → rest r = []) ∧
        patience r' ≤ patience r
    | _ => False
    end;
  poll_fill_buf_fits r r' p n : poll_fill_buf r = (r', p) → rd_fits r n → rd_fits r' n;
  force_fill_fits r r' p n : poll_force_fill_buf r = (r', p) → rd_fits r n → rd_fits r' n;
  prepare_fits r m n : rd_fits r n → rd_fits (prepare r m) n;
  consume_fits r m r' n : consume r m = Ok r' → rd_fits r n → rd_fits r' n;
  poll_read_fits r room r' p n : poll_read r room = (r', p) → rd_fits r n → rd_fits r' n
}.

(** A reader whose buffer can hold all that is to come. *)
Class AsyncBytesReadLaws (R : Type) `{!AsyncBytesRead R} : Type := {
  #[global] laws_base :: AsyncBytesReadBase R;
  rest_fits r : rd_inv r → rd_fits r (length (rest r))
}.

(** Polling until ready. *)
Fixpoint poll_until {R A : Type} (f : R → R * poll A) (fuel : nat) (r : R) : R * poll A :=
  match f r with
  | (r, Pending) => match fuel with O => (r, Pending) | S fuel => poll_until f fuel r end
  | x => x
  end.

(** The induction behind it: what every poll preserves, and a measure every
    pending poll uses up. *)
Lemma poll_until_ind {R A : Type} (f : R → R * poll A) (m : R → nat) (I : R → Prop)
    (Q : R → A → Prop) :
  (∀ r r' p, I r → f r = (r', p) →
     match p with Pending => I r' ∧ m r' < m r | Ready a => Q r' a end) →
  ∀ fuel r, I r → m r ≤ fuel → ∃ r' a, poll_until f fuel r = (r', Ready a) ∧ Q r' a.
Proof.
  intros H fuel. induction fuel as [|fuel IH]; intros r Hi Hm; cbn;
    destruct (f r) as [r1 [a|]] eqn:E; specialize (H _ _ _ Hi E); cbn in H; eauto; try lia.
  apply IH; [apply H|]. destruct H. lia.
Qed.

(** ** Filling up to a length

    [while buf.len() < want { buf = ready!(poll_force_fill_buf)? }]. Every
    iteration makes the buffer longer, so [want] of them are enough. *)
Fixpoint fill_to {R : Type} `{!AsyncBytesRead R} (fuel want : nat) (r : R) (buf : bytes)
    : R * polled bytes :=
  if decide (want ≤ length buf) then (r, Ready (Ok buf)) else
  match fuel with
  | O => (r, Pending)
  | S fuel =>
      match poll_force_fill_buf r with
      | (r, Ready (Ok b)) => fill_to fuel want r b
      | (r, p) => (r, p)
      end
  end.

Section base.
Context {R : Type} `{!AsyncBytesRead R} {HB : AsyncBytesReadBase R}.
Implicit Types r : R.

(** What fits stays so. *)
Definition keeps_fits (r r' : R) : Prop := ∀ n, rd_fits r n → rd_fits r' n.

Lemma length_held r : rd_inv r → length (held r) ≤ length (rest r).
Proof. intros Hi. by apply prefix_length, held_prefix. Qed.

Lemma fill_to_fits fuel want r r' p buf : fill_to fuel want r buf = (r', p) → keeps_fits r r'.
Proof.
  revert r buf. induction fuel as [|fuel IH]; intros r buf; cbn [fill_to]; (case_decide; [by intros [= <- <-] ?|]).
  { by intros [= <- <-] ?. }
  destruct (poll_force_fill_buf r) as [r1 p1] eqn:E. intros E1 n Hn. pose proof (force_fill_fits r r1 p1 n E Hn) as Hn1.
  destruct p1 as [[b|e|]|]; [by apply (IH _ _ E1)|by injection E1 as <- <-..].
Qed.

Lemma fill_to_spec fuel want r r' p :
  rd_inv r → rd_fits r (min want (length (rest r))) → want ≤ length (held r) + fuel →
  fill_to fuel want r (held r) = (r', p) →
  rd_inv r' ∧ rest r' = rest r ∧
  match p with
  | Pending => patience r' < patience r
  | Ready (Ok b) => b = held r' ∧ want ≤ length b ∧ patience r' ≤ patience r
  | Ready (Err e) => e = UnexpectedEof "EOF while force reading" ∧ length (rest r) < want
  | _ => False
  end.
Proof.
  revert r; induction fuel as [|fuel IH]; intros r Hi Hfit Hw; cbn [fill_to].
  - rewrite decide_True by lia. intros [= <- <-]. repeat split; auto; lia.
  - case_decide; [intros [= <- <-]; repeat split; auto; lia|].
    destruct (poll_force_fill_buf r) as [r1 p1] eqn:E. pose proof (length_held r Hi) as Hh0.
    destruct (force_fill_law r r1 p1 Hi) as (Hi1 & Hr1 & Hp); [by eapply fits_le; [exact Hfit|lia]|done|].
    destruct p1 as [[b|e|]|]; try done.
    + destruct Hp as (-> & Hlt & Hpat). intros E'. apply IH in E'; [|done| |lia].
      2:{ rewrite Hr1. by eapply force_fill_fits. }
      destruct E' as (? & Hr & Hp). rewrite Hr1 in *. split; [done|]. split; [done|].
      destruct p as [[]|]; try done; [destruct Hp as (? & ? & ?); repeat split; try done; lia|lia].
    + intros [= <- <-]. destruct Hp as [-> Hh]. rewrite <-Hh. repeat split; try done; [by rewrite Hr1|lia].
    + intros [= <- <-]. destruct Hp. auto.
Qed.

Lemma held_take r : rd_inv r → held r = take (length (held r)) (rest r).
Proof. intros Hi. destruct (held_prefix r Hi) as [k ->]. by rewrite take_app_length. Qed.

Lemma held_app r a k : rd_inv r → rest r = a ++ k → length a ≤ length (held r) → a `prefix_of` held r.
Proof.
  intros Hi E Hl. rewrite (held_take r Hi), E. exists (take (length (held r) - length a) k).
  by rewrite take_app, take_ge by lia.
Qed.
End base.

Section laws.
Context {R : Type} `{!AsyncBytesRead R, !AsyncBytesReadLaws R}.
Implicit Types r : R.

Lemma laws_fits r n : rd_inv r → n ≤ length (rest r) → rd_fits r n.
Proof. intros Hi. apply fits_le. by apply rest_fits. Qed.

Lemma poll_force_fill_buf_law r r' p :
  rd_inv r → poll_force_fill_buf r = (r', p) →
  rd_inv r' ∧ rest r' = rest r ∧
  match p with
  | Pending => held r' = held r ∧ patience r' < patience r
  | Ready (Ok b) => b = held r' ∧ length (held r) < length b ∧ patience r' ≤ patience r
  | Ready (Err e) => e = UnexpectedEof "EOF while force reading" ∧ held r = rest r
  | _ => False
  end.
Proof. intros Hi. apply force_fill_law; [done|]. by apply laws_fits; [|apply length_held]. Qed.

Lemma prepare_law r n :
  rd_inv r → n ≤ length (rest r) → rd_inv (prepare r n) ∧ rest (prepare r n) = rest r ∧
  held (prepare r n) = held r ∧ patience (prepare r n) = patience r.
Proof. intros Hi Hn. apply prepare_fits_law; [done|]. by apply laws_fits. Qed.
End laws.

(** ** Readers with less promised, and with more *)

Section restrict.
Context {R : Type} `{!AsyncBytesRead R} (HB : AsyncBytesReadBase R).

(** An invariant that is also kept. *)
Class Kept (Q : R → Prop) : Prop := {
  kept_fill r r' p : rd_inv r → Q r → poll_fill_buf r = (r', p) → Q r';
  kept_force r r' p : rd_inv r → rd_fits r (length (held r)) → Q r → poll_force_fill_buf r = (r', p) → Q r';
  kept_prepare r n : rd_inv r → rd_fits r n → Q r → Q (prepare r n);
  kept_consume r n r' : rd_inv r → n ≤ length (held r) → Q r → consume r n = Ok r' → Q r';
  kept_read r room r' p : rd_inv r → 0 < room → Q r → poll_read r room = (r', p) → Q r'
}.

Program Definition restricted (Q : R → Prop) {HQ : Kept Q} : AsyncBytesReadBase R := {|
  rd_inv r := rd_inv r ∧ Q r;
  rest := rest;
  held := held;
  patience := patience;
  rd_fits := rd_fits
|}.
Next Obligation. intros. by eapply fits_le. Qed.
Next Obligation. intros Q HQ r [Hi _]. by apply held_prefix. Qed.
Next Obligation.
  intros Q HQ r r' p [Hi Hq] E. destruct (poll_fill_buf_law r r' p Hi E). split; [|done]. split; [done|exact (kept_fill r r' p Hi Hq E)].
Qed.
Next Obligation.
  intros Q HQ r r' p [Hi Hq] Hf E. destruct (force_fill_law r r' p Hi Hf E). split; [|done].
  split; [done|exact (kept_force r r' p Hi Hf Hq E)].
Qed.
Next Obligation.
  intros Q HQ r n [Hi Hq] Hf. destruct (prepare_fits_law r n Hi Hf). split; [|done]. split; [done|by apply kept_prepare].
Qed.
Next Obligation.
  intros Q HQ r n [Hi Hq] Hn. destruct (consume_law r n Hi Hn) as (r' & E & ? & ?). exists r'. split; [done|].
  split; [|done]. split; [done|exact (kept_consume r n r' Hi Hn Hq E)].
Qed.
Next Obligation.
  intros Q HQ r room r' p [Hi Hq] Hr E. destruct (poll_read_law r room r' p Hi Hr E). split; [|done].
  split; [done|exact (kept_read r room r' p Hi Hr Hq E)].
Qed.
Next Obligation. intros. by eapply poll_fill_buf_fits. Qed.
Next Obligation. intros. by eapply force_fill_fits. Qed.
Next Obligation. intros. by eapply prepare_fits. Qed.
Next Obligation. intros. by eapply consume_fits. Qed.
Next Obligation. intros. by eapply poll_read_fits. Qed.

(** The buffer can hold [n] bytes. *)
Lemma room_kept n : Kept (λ r, rd_fits r n).
Proof.
  split; intros; [by eapply poll_fill_buf_fits|by eapply force_fill_fits|by eapply prepare_fits|by eapply consume_fits
    |by eapply poll_read_fits].
Qed.

Definition with_room (n : nat) : AsyncBytesReadBase R := restricted (λ r, rd_fits r n) (HQ := room_kept n).

(** It can hold all that is to come. *)
Lemma rest_kept : Kept (λ r, rd_fits r (length (rest r))).
Proof.
  split.
  - intros r r' p Hi Hq E. destruct (poll_fill_buf_law r r' p Hi E) as (_ & -> & _). by eapply poll_fill_buf_fits.
  - intros r r' p Hi Hf Hq E. destruct (force_fill_law r r' p Hi Hf E) as (_ & -> & _). by eapply force_fill_fits.
  - intros r n Hi Hf Hq. destruct (prepare_fits_law r n Hi Hf) as (_ & -> & _). by eapply prepare_fits.
  - intros r n r' Hi Hn Hq E. destruct (consume_law r n Hi Hn) as (r1 & E1 & _ & Hr & _). rewrite E in E1.
    injection E1 as <-. eapply consume_fits; [exact E|]. eapply fits_le; [exact Hq|]. rewrite Hr, length_drop. lia.
  - intros r room r' p Hi Hr Hq E. destruct (poll_read_law r room r' p Hi Hr E) as [_ Hp].
    eapply poll_read_fits; [exact E|]. eapply fits_le; [exact Hq|]. destruct p as [[b|e|]|]; try done.
    + destruct Hp as [-> _]. rewrite length_app. lia.
    + by destruct Hp as [-> _].
Qed.

Definition with_all : AsyncBytesReadLaws R := {|
  laws_base := restricted (λ r, rd_fits r (length (rest r))) (HQ := rest_kept);
  rest_fits r Hr := proj2 Hr
|}.
End restrict.
