(* ===== verification/Wire.v ===== *)
(** Wire-format utilities shared by the NAR format and the daemon protocol
    ([harmonia-utils-io/src/lib.rs], module [wire]; [put_nix_slice] of
    [harmonia-nar/src/archive/writer.rs]): 64-bit alignment, padding, and the
    length-prefixed, zero-padded byte string every message is made of. *)

From stdpp Require Import base list numbers.
From Stdlib Require Import ZArith Lia Strings.Byte.
From S2P Require Import Prelude.

Local Open Scope Z_scope.

(** ** Definitions *)

Definition ZEROS : bytes := replicate 8 Byte.x00.

(** [len.wrapping_add(7) & !7]. *)
Definition calc_aligned (len : Z) : Z := Z.land (wrap_u64 (len + 7)) (Z.lnot 7).

(** [aligned.wrapping_sub(len) as usize]. *)
Definition calc_padding (len : Z) : nat :=
  Z.to_nat (wrap_u64 (calc_aligned len - len)).

(** The length, the bytes, and zeros up to a multiple of eight. *)
Definition put_nix_slice (src : bytes) : bytes :=
  let len := Z.of_nat (length src) in
  u64_to_le_bytes len ++ src ++ replicate (calc_padding len) Byte.x00.

(** ** Alignment *)

Lemma land_lnot_7 z : Z.land z (Z.lnot 7) = 8 * (z / 8).
Proof.
  rewrite <-Z.ldiff_land. change 7 with (Z.ones 3).
  rewrite Z.ldiff_ones_r by lia. rewrite Z.shiftl_mul_pow2, Z.shiftr_div_pow2 by lia.
  change (2 ^ 3) with 8. lia.
Qed.

(** Lengths for which rounding up to a multiple of eight stays in 64 bits. *)
Definition alignable (len : Z) : Prop := 0 ≤ len ≤ u64_max - 7.

Lemma calc_aligned_alignable len :
  alignable len → calc_aligned len = 8 * ((len + 7) / 8).
Proof.
  unfold alignable, calc_aligned, wrap_u64, u64_max, u64_modulus. intros.
  rewrite land_lnot_7, Z.mod_small by lia. done.
Qed.

Lemma calc_aligned_bounds len :
  alignable len → len ≤ calc_aligned len < len + 8 ∧ (8 | calc_aligned len).
Proof.
  intros H. rewrite calc_aligned_alignable by done. split; [|by exists ((len + 7) / 8); lia].
  pose proof (Z.div_mod (len + 7) 8). pose proof (Z.mod_pos_bound (len + 7) 8). lia.
Qed.

Lemma calc_padding_alignable len :
  alignable len → Z.of_nat (calc_padding len) = calc_aligned len - len.
Proof.
  intros H. pose proof (calc_aligned_bounds len H).
  unfold calc_padding, wrap_u64, u64_modulus, alignable, u64_max in *.
  rewrite Z.mod_small by lia. lia.
Qed.

(** The padding completes the length to a multiple of eight, also where the
    aligned length wraps around. *)
Lemma calc_padding_mod len : Z.of_nat (calc_padding len) = (- len) mod 8.
Proof.
  unfold calc_padding, calc_aligned. rewrite land_lnot_7. unfold wrap_u64.
  change u64_modulus with (2 ^ 64).
  set (q := (len + 7) / 2 ^ 64).
  assert ((len + 7) mod 2 ^ 64 / 8 = (len + 7) / 8 - q * 2 ^ 61) as ->.
  { rewrite Z.mod_eq by lia. fold q.
    replace (len + 7 - 2 ^ 64 * q) with (len + 7 + (- (q * 2 ^ 61)) * 8) by lia.
    rewrite Z.div_add by lia. lia. }
  assert (8 * ((len + 7) / 8) - len = (- len) mod 8) as Hr.
  { apply (Z.mod_unique_pos _ _ (- ((len + 7) / 8))); [|lia].
    pose proof (Z.div_mod (len + 7) 8). pose proof (Z.mod_pos_bound (len + 7) 8). lia. }
  replace (8 * ((len + 7) / 8 - q * 2 ^ 61) - len) with ((- len) mod 8 + (- q) * 2 ^ 64) by lia.
  rewrite Z.mod_add by lia. pose proof (Z.mod_pos_bound (- len) 8).
  rewrite Z.mod_small by lia. lia.
Qed.

Lemma calc_padding_lt_8 len : (calc_padding len < 8)%nat.
Proof. pose proof (calc_padding_mod len). pose proof (Z.mod_pos_bound (- len) 8). lia. Qed.

Lemma calc_aligned_wraps len :
  u64_max - 7 < len ≤ u64_max → calc_aligned len = 0.
Proof.
  unfold u64_max, calc_aligned, wrap_u64, u64_modulus. intros.
  rewrite land_lnot_7.
  assert ((len + 7) mod 18446744073709551616 = len + 7 - 18446744073709551616) as ->.
  { symmetry. apply (Z.mod_unique_pos _ _ 1); lia. }
  rewrite Z.div_small by lia. lia.
Qed.

Lemma length_put_nix_slice src :
  alignable (Z.of_nat (length src)) →
  Z.of_nat (length (put_nix_slice src)) = 8 + calc_aligned (Z.of_nat (length src)).
Proof.
  intros H. unfold put_nix_slice.
  rewrite !length_app, length_replicate, length_u64_to_le_bytes.
  pose proof (calc_padding_alignable _ H). lia.
Qed.
