(* ===== verification/Sink.v ===== *)
(** Asynchronous writing: an [AsyncWrite] with a schedule, and the loop with
    which the buffering writers empty their buffers into it. *)

From stdpp Require Import base list numbers strings.
From Stdlib Require Import ZArith Lia Strings.Byte.
From S2P Require Import Prelude Async.

(** ** The underlying writer

    [sched] is what the next calls of [poll_write] do: [None] is [Pending],
    [Some n] accepts at most [n] bytes. When it is used up, a call accepts
    everything. *)

Record sink : Type := mk_sink { written : bytes; sched : list (option nat) }.

Definition poll_write (w : sink) (buf : bytes) : sink * poll nat :=
  match sched w with
  | [] => (mk_sink (written w ++ buf) [], Ready (length buf))
  | None :: r => (mk_sink (written w) r, Pending)
  | Some n :: r =>
      let k := min n (length buf) in
      (mk_sink (written w ++ take k buf) r, Ready k)
  end.

(** The writer accepts at least a byte whenever it is ready. *)
Definition sched_ok (w : sink) : Prop := Forall (λ o, o ≠ Some 0) (sched w).

Lemma poll_write_spec w buf w' p :
  sched_ok w → poll_write w buf = (w', p) →
  sched_ok w' ∧
  match p with
  | Pending => written w' = written w ∧ length (sched w') < length (sched w)
  | Ready n => written w' = written w ++ take n buf ∧ (buf ≠ [] → 0 < n) ∧ n ≤ length buf ∧
      (length (sched w') < length (sched w) ∨ sched w' = sched w ∧ n = length buf)
  end.
Proof.
  unfold poll_write, sched_ok. intros Hs.
  destruct (sched w) as [|[n|] r] eqn:E; intros [= <- <-]; cbn.
  - split; [constructor|]. rewrite take_ge by lia.
    destruct buf; cbn; repeat split; try lia; try done; by right.
  - apply Forall_cons in Hs as [Hn Hs]. split; [done|].
    destruct buf; cbn; repeat split; try lia; try done. 
    intros _. destruct n; [done|lia].
  - apply Forall_cons in Hs as [_ Hs]. repeat split; [done|lia].
Qed.

(** ** The trait [AsyncWrite] *)

Class AsyncWrite (W : Type) : Type := aw_poll_write : W → bytes → W * polled nat.

(** What a client may rely on: [wr_written] is what has been accepted, and a
    poll that is not ready uses up [wr_patience]. *)
Class AsyncWriteLaws (W : Type) {AW : AsyncWrite W} : Type := {
  wr_inv : W → Prop;
  wr_written : W → bytes;
  wr_patience : W → nat;
  aw_poll_write_law w buf w' p :
    wr_inv w → buf ≠ [] → aw_poll_write w buf = (w', p) →
    wr_inv w' ∧ wr_patience w' ≤ wr_patience w ∧
    match p with
    | Pending => wr_written w' = wr_written w ∧ wr_patience w' < wr_patience w
    | Ready (Ok n) => wr_written w' = wr_written w ++ take n buf ∧ 0 < n ≤ length buf
    | _ => False
    end
}.

#[export] Instance sink_async_write : AsyncWrite sink := λ w buf,
  let '(w, p) := poll_write w buf in (w, match p with Ready n => Ready (Ok n) | Pending => Pending end).

#[export] Program Instance sink_async_write_laws : AsyncWriteLaws sink := {|
  wr_inv := sched_ok;
  wr_written := written;
  wr_patience w := length (sched w)
|}.
Next Obligation.
  intros w buf w' p Hs Hne E. unfold aw_poll_write, sink_async_write in E.
  destruct (poll_write w buf) as [w1 q] eqn:E1. injection E as <- <-.
  apply poll_write_spec in E1 as [Hs1 Hq]; [|done]. split; [done|]. destruct q as [n|].
  - destruct Hq as (Hw & Hn & Hle & Hd). split; [destruct Hd as [?|[-> _]]; lia|].
    specialize (Hn Hne). split; [done|lia].
  - destruct Hq. split; [lia|done].
Qed.

(** [poll_flush] and [poll_shutdown] of the same trait. *)
Class AsyncFlush (W : Type) : Type := {
  aw_poll_flush : W → W * polled unit;
  aw_poll_shutdown : W → W * polled unit
}.

Class AsyncFlushLaws (W : Type) {AW : AsyncWrite W} {AWL : AsyncWriteLaws W} {AF : AsyncFlush W} : Prop :=
  aw_poll_flush_law w w' p :
    wr_inv w → aw_poll_flush w = (w', p) →
    wr_inv w' ∧ wr_written w' = wr_written w ∧ wr_patience w' ≤ wr_patience w ∧
    match p with
    | Pending => wr_patience w' < wr_patience w
    | Ready (Ok _) => True
    | _ => False
    end.

(** What is written here is there. *)
#[export] Instance sink_async_flush : AsyncFlush sink := {|
  aw_poll_flush w := (w, Ready (Ok tt));
  aw_poll_shutdown w := (w, Ready (Ok tt))
|}.

#[export] Instance sink_async_flush_laws : AsyncFlushLaws sink.
Proof. intros w w' p Hw [= <- <-]. done. Qed.

(** The loop [while !buffer.is_empty()] of the writers: write, report a
    writer that takes nothing with [msg], advance. [fuel] is the length of the
    buffer. *)
Fixpoint flush_loop {W} {AW : AsyncWrite W} (msg : string) (fuel : nat) (buf : bytes) (w : W)
    : bytes * W * polled unit :=
  match buf, fuel with
  | [], _ => ([], w, Ready (Ok tt))
  | _, O => (buf, w, Pending)
  | _, S fuel =>
      match aw_poll_write w buf with
      | (w, Pending) => (buf, w, Pending)
      | (w, Ready (Err e)) => (buf, w, Ready (Err e))
      | (w, Ready Panic) => (buf, w, Ready Panic)
      | (w, Ready (Ok O)) => (buf, w, Ready (Err (WriteZero msg)))
      | (w, Ready (Ok n)) => flush_loop msg fuel (drop n buf) w
      end
  end.

Lemma flush_loop_law {W} {AW : AsyncWrite W} {AWL : AsyncWriteLaws W} msg fuel buf (w : W) buf' w' p :
  wr_inv w → length buf ≤ fuel → flush_loop msg fuel buf w = (buf', w', p) →
  wr_inv w' ∧ (∃ k, wr_written w' = wr_written w ++ k ∧ k ++ buf' = buf) ∧
  wr_patience w' ≤ wr_patience w ∧
  match p with
  | Pending => wr_patience w' < wr_patience w
  | Ready (Ok _) => buf' = []
  | _ => False
  end.
Proof.
  revert buf w; induction fuel as [|fuel IH]; intros buf w Hs Hl.
  - destruct buf; cbn in *; [|lia]. intros [= <- <- <-]. split; [done|]. split; [|done].
    exists []. by rewrite app_nil_r.
  - destruct buf as [|c buf].
    { intros [= <- <- <-]. split; [done|]. split; [|done]. exists []. by rewrite app_nil_r. }
    cbn [flush_loop]. destruct (aw_poll_write w (c :: buf)) as [w1 p1] eqn:E.
    apply aw_poll_write_law in E as (Hs1 & Hle & Hp); [|done|done].
    destruct p1 as [[n|e|]|]; try done.
    + destruct Hp as (Hw & Hn). destruct n as [|n]; [lia|].
      intros E. apply IH in E; [|done|cbn in *; rewrite length_drop; lia].
      destruct E as (? & (k & Hk & Hbuf) & ? & Hp). split; [done|]. split; [|split; [lia|]].
      * exists (take (S n) (c :: buf) ++ k). rewrite Hk, Hw, <-!app_assoc, Hbuf. split; [done|apply take_drop].
      * destruct p as [[]|]; try done. lia.
    + intros [= <- <- <-]. destruct Hp as [-> ?]. split; [done|]. split; [|lia].
      exists []. by rewrite app_nil_r.
Qed.

Lemma flush_loop_spec msg fuel buf (w : sink) buf' w' p :
  sched_ok w → length buf ≤ fuel → flush_loop msg fuel buf w = (buf', w', p) →
  sched_ok w' ∧ written w' ++ buf' = written w ++ buf ∧ length (sched w') ≤ length (sched w) ∧
  match p with
  | Pending => length (sched w') < length (sched w)
  | Ready (Ok _) => buf' = []
  | _ => False
  end.
Proof.
  intros Hs Hl E. apply flush_loop_law in E as (? & (k & Hk & Hb) & ? & ?); [|done|done].
  split; [done|]. split; [|done]. cbn in Hk. by rewrite Hk, <-app_assoc, Hb.
Qed.

Lemma flush_loop_written msg fuel buf (w : sink) buf' w' p :
  sched_ok w → length buf ≤ fuel → flush_loop msg fuel buf w = (buf', w', p) →
  ∃ k, written w' = written w ++ k.
Proof. intros Hs Hl E. apply flush_loop_law in E as (? & (k & Hk & _) & _); [|done|done]. eauto. Qed.
