(* ===== verification/Tee.v ===== *)
(** The writer that copies to two writers ([harmonia-utils-io/src/tee.rs]). *)

From stdpp Require Import base list numbers strings.
From Stdlib Require Import ZArith Lia Strings.Byte.
From S2P Require Import Prelude Async Sink.

(** ** Operations *)

Record TeeWriter : Type := mk_tee {
  tee_cap : nat;
  tee_buf : bytes;
  written1 : nat;
  written2 : nat;
  writer1 : sink;
  writer2 : sink
}.

(** [Vec::with_capacity(cap)]; nothing grows the vector beyond [cap]. *)
Definition tee_new (cap : nat) (w1 w2 : sink) : TeeWriter := mk_tee cap [] 0 0 w1 w2.

(** [if written < buf.len() { written += ready!(writer.poll_write(..)) }]. *)
Definition tee_write_one (w : sink) (buf : bytes) (written : nat) : sink * poll nat :=
  if decide (written < length buf) then
    match poll_write w (drop written buf) with
    | (w, Ready n) => (w, Ready (written + n))
    | (w, Pending) => (w, Pending)
    end
  else (w, Ready written).

Fixpoint tee_flush_loop (fuel : nat) (t : TeeWriter) : TeeWriter * polled unit :=
  if decide (written1 t < length (tee_buf t) ∨ written2 t < length (tee_buf t)) then
    match fuel with
    | O => (t, Pending)
    | S fuel =>
        match tee_write_one (writer1 t) (tee_buf t) (written1 t) with
        | (w1, Pending) =>
            (mk_tee (tee_cap t) (tee_buf t) (written1 t) (written2 t) w1 (writer2 t), Pending)
        | (w1, Ready n1) =>
            match tee_write_one (writer2 t) (tee_buf t) (written2 t) with
            | (w2, Pending) => (mk_tee (tee_cap t) (tee_buf t) n1 (written2 t) w1 w2, Pending)
            | (w2, Ready n2) => tee_flush_loop fuel (mk_tee (tee_cap t) (tee_buf t) n1 n2 w1 w2)
            end
        end
    end
  else (mk_tee (tee_cap t) [] 0 0 (writer1 t) (writer2 t), Ready (Ok tt)).

(** [poll_flush_buf]. *)
Definition tee_flush_buf (t : TeeWriter) : TeeWriter * polled unit :=
  match tee_buf t with
  | [] => (t, Ready (Ok tt))
  | _ => tee_flush_loop (length (tee_buf t)) t
  end.

(** [capacity - len] of the buffer. *)
Definition tee_room (t : TeeWriter) : nat := tee_cap t - length (tee_buf t).

Definition tee_extend (t : TeeWriter) (buf : bytes) : TeeWriter * polled nat :=
  let rem := min (length buf) (tee_room t) in
  (mk_tee (tee_cap t) (tee_buf t ++ take rem buf) (written1 t) (written2 t) (writer1 t) (writer2 t),
   Ready (Ok rem)).

Definition tee_poll_write (t : TeeWriter) (buf : bytes) : TeeWriter * polled nat :=
  if decide (length buf < tee_cap t) then
    if decide (tee_cap t < length buf + length (tee_buf t)) then
      match tee_flush_buf t with
      | (t, Ready (Ok _)) => tee_extend t buf
      | (t, Pending) => (t, Pending)
      | (t, Ready (Err e)) => (t, Ready (Err e))
      | (t, Ready Panic) => (t, Ready Panic)
      end
    else tee_extend t buf
  else tee_extend t buf.

(** ** Callers

    [tee_writes] hands over one buffer after the other, taking note of what
    was accepted; [tee_finish] polls the flush until it is ready; [tee_write_all]
    is [AsyncWriteExt::write_all]. *)

Fixpoint tee_writes (t : TeeWriter) (bufs : list bytes) (accepted : bytes) : res io_error (TeeWriter * bytes) :=
  match bufs with
  | [] => Ok (t, accepted)
  | buf :: bufs =>
      match tee_poll_write t buf with
      | (t, Pending) => tee_writes t bufs accepted
      | (t, Ready (Ok n)) => tee_writes t bufs (accepted ++ take n buf)
      | (_, Ready (Err e)) => Err e
      | (_, Ready Panic) => Panic
      end
  end.

Fixpoint tee_finish (fuel : nat) (t : TeeWriter) : res io_error TeeWriter :=
  match fuel with
  | O => Panic
  | S fuel =>
      match tee_flush_buf t with
      | (t, Pending) => tee_finish fuel t
      | (t, Ready (Ok _)) => Ok t
      | (_, Ready (Err e)) => Err e
      | (_, Ready Panic) => Panic
      end
  end.

Fixpoint tee_write_all (fuel : nat) (t : TeeWriter) (data : bytes) : res io_error TeeWriter :=
  match data with
  | [] => Ok t
  | _ =>
      match fuel with
      | O => Panic
      | S fuel =>
          match tee_poll_write t data with
          | (t, Pending) => tee_write_all fuel t data
          | (_, Ready (Ok O)) => Err (WriteZero "failed to write whole buffer")
          | (t, Ready (Ok n)) => tee_write_all fuel t (drop n data)
          | (_, Ready (Err e)) => Err e
          | (_, Ready Panic) => Panic
          end
      end
  end.

(** ** Invariant

    Each writer has what was accepted, up to its part of the buffer. *)

Definition tee_at (t : TeeWriter) (acc : bytes) : Prop :=
  sched_ok (writer1 t) ∧ sched_ok (writer2 t) ∧ length (tee_buf t) ≤ tee_cap t ∧
  written (writer1 t) ++ drop (written1 t) (tee_buf t) = acc ∧
  written (writer2 t) ++ drop (written2 t) (tee_buf t) = acc ∧
  written1 t ≤ length (tee_buf t) ∧ written2 t ≤ length (tee_buf t).

Definition tee_patience (t : TeeWriter) : nat := length (sched (writer1 t)) + length (sched (writer2 t)).

Lemma tee_write_one_spec w buf n w' p :
  sched_ok w → n ≤ length buf → tee_write_one w buf n = (w', p) →
  sched_ok w' ∧ length (sched w') ≤ length (sched w) ∧
  match p with
  | Pending => written w' = written w ∧ length (sched w') < length (sched w)
  | Ready m => written w' ++ drop m buf = written w ++ drop n buf ∧ n ≤ m ≤ length buf ∧
               (n < length buf → n < m)
  end.
Proof.
  intros Hs Hn. unfold tee_write_one. destruct (decide (n < length buf)) as [Hlt|Hge].
  - destruct (poll_write w (drop n buf)) as [w1 p1] eqn:E. apply poll_write_spec in E as [Hs1 Hp]; [|done].
    destruct p1 as [k|]; intros [= <- <-].
    + destruct Hp as (Hw & Hk & Hle & Hd). rewrite length_drop in Hle.
      assert (drop n buf ≠ []) as Hne by (intros E%(f_equal length); rewrite length_drop in E; cbn in E; lia).
      specialize (Hk Hne). split; [done|]. split; [destruct Hd as [?|[-> _]]; lia|].
      split; [|split; [lia|intros; lia]]. by rewrite Hw, <-app_assoc, <-drop_drop, take_drop.
    + destruct Hp as [-> ?]. split; [done|]. split; [lia|done].
  - intros [= <- <-]. split; [done|]. split; [lia|]. split; [done|]. split; [lia|intros; lia].
Qed.

Lemma tee_flush_loop_spec fuel t acc t' p :
  tee_at t acc → length (tee_buf t) - written1 t ≤ fuel → length (tee_buf t) - written2 t ≤ fuel →
  tee_flush_loop fuel t = (t', p) →
  tee_at t' acc ∧ tee_cap t' = tee_cap t ∧ tee_patience t' ≤ tee_patience t ∧
  match p with
  | Pending => tee_patience t' < tee_patience t
  | Ready (Ok _) => tee_buf t' = [] ∧ written (writer1 t') = acc ∧ written (writer2 t') = acc
  | _ => False
  end.
Proof.
  revert t; induction fuel as [|fuel IH]; intros t Hat Hf1 Hf2; cbn [tee_flush_loop];
    destruct (decide _) as [Hd|Hd].
  1: lia.
  2: destruct Hat as (H1 & H2 & Hc & Hw1 & Hw2 & Hl1 & Hl2).
  2: destruct (tee_write_one (writer1 t) _ _) as [w1 p1] eqn:E1.
  2: apply tee_write_one_spec in E1 as (Hs1 & Hp1 & E1); [|done|done].
  2: destruct p1 as [n1|].
  3: { intros [= <- <-]. destruct E1 as [Ew ?]. unfold tee_patience, tee_at; cbn. rewrite Ew.
       split_and!; try done; lia. }
  2: destruct (tee_write_one (writer2 t) _ _) as [w2 p2] eqn:E2.
  2: apply tee_write_one_spec in E2 as (Hs2 & Hp2 & E2); [|done|done].
  2: destruct E1 as (Ew1 & Hle1 & Hlt1).
  2: destruct p2 as [n2|].
  3: { intros [= <- <-]. destruct E2 as [Ew ?]. unfold tee_patience, tee_at; cbn. rewrite Ew, Ew1.
       split_and!; try done; lia. }
  2: { destruct E2 as (Ew2 & Hle2 & Hlt2). intros E. apply IH in E.
       - unfold tee_patience in *; cbn in *. destruct E as (? & ? & ? & Hp). split_and!; [done|done|lia|].
         destruct p as [[]|]; try done. lia.
       - unfold tee_at; cbn. rewrite Ew1, Ew2. split_and!; try done; lia.
       - cbn. lia.
       - cbn. lia. }
  all: intros [= <- <-]; destruct Hat as (H1 & H2 & Hc & Hw1 & Hw2 & Hl1 & Hl2);
    rewrite drop_ge, app_nil_r in Hw1 by lia; rewrite drop_ge, app_nil_r in Hw2 by lia;
    unfold tee_at, tee_patience; cbn; rewrite !app_nil_r; split_and!; try done; lia.
Qed.

Lemma tee_flush_buf_spec t acc t' p : tee_at t acc → tee_flush_buf t = (t', p) →
  tee_at t' acc ∧ tee_cap t' = tee_cap t ∧ tee_patience t' ≤ tee_patience t ∧
  match p with
  | Pending => tee_patience t' < tee_patience t
  | Ready (Ok _) => tee_buf t' = [] ∧ written (writer1 t') = acc ∧ written (writer2 t') = acc
  | _ => False
  end.
Proof.
  intros Hat. unfold tee_flush_buf. destruct (tee_buf t) as [|b buf] eqn:Eb.
  - intros [= <- <-]. split_and!; try done. all: destruct Hat as (_ & _ & _ & H1 & H2 & _);
      rewrite Eb, drop_nil, app_nil_r in *; done.
  - intros E. eapply tee_flush_loop_spec; [done| | |done]; rewrite Eb; cbn; lia.
Qed.

Lemma tee_extend_spec t acc buf t' p : tee_at t acc → tee_extend t buf = (t', p) →
  ∃ n, p = Ready (Ok n) ∧ tee_at t' (acc ++ take n buf) ∧ tee_patience t' = tee_patience t.
Proof.
  intros (H1 & H2 & Hc & Hw1 & Hw2 & Hl1 & Hl2) [= <- <-]. eexists. split; [done|].
  unfold tee_at, tee_patience, tee_room; cbn. rewrite !drop_app_le by lia.
  rewrite !length_app, !length_take, !app_assoc, Hw1, Hw2. split_and!; try done; lia.
Qed.

Lemma tee_poll_write_spec t acc buf t' p : tee_at t acc → tee_poll_write t buf = (t', p) →
  match p with
  | Pending => tee_at t' acc ∧ tee_patience t' < tee_patience t
  | Ready (Ok n) => tee_at t' (acc ++ take n buf) ∧ tee_patience t' ≤ tee_patience t
  | _ => False
  end.
Proof.
  intros Hat. unfold tee_poll_write. repeat case_decide; intros E.
  - destruct (tee_flush_buf t) as [t1 p1] eqn:E1. apply (tee_flush_buf_spec t acc) in E1 as (Hat1 & _ & Hp1 & Hm); [|done].
    destruct p1 as [[[]| |]|]; try done.
    + apply (tee_extend_spec t1 acc) in E as (n & -> & ? & ?); [|done]. split; [done|lia].
    + by injection E as <- <-.
  - apply (tee_extend_spec t acc) in E as (n & -> & ? & ?); [|done]. split; [done|lia].
  - apply (tee_extend_spec t acc) in E as (n & -> & ? & ?); [|done]. split; [done|lia].
Qed.

Lemma tee_writes_spec bufs t acc : tee_at t acc →
  ∃ t' acc', tee_writes t bufs acc = Ok (t', acc') ∧ tee_at t' acc' ∧ tee_patience t' ≤ tee_patience t.
Proof.
  revert t acc; induction bufs as [|buf bufs IH]; intros t acc Hat; cbn [tee_writes]; [eauto|].
  destruct (tee_poll_write t buf) as [t1 p1] eqn:E. apply (tee_poll_write_spec t acc) in E; [|done].
  destruct p1 as [[n| |]|]; try done; destruct E as [Hat1 Hp1];
    destruct (IH t1 _ Hat1) as (t' & acc' & E' & ? & ?); exists t', acc'; (split; [done|]); (split; [done|lia]).
Qed.

Lemma tee_finish_spec fuel t acc : tee_at t acc → tee_patience t < fuel →
  ∃ t', tee_finish fuel t = Ok t' ∧ written (writer1 t') = acc ∧ written (writer2 t') = acc.
Proof.
  revert t; induction fuel as [|fuel IH]; intros t Hat Hf; [lia|]. cbn [tee_finish].
  destruct (tee_flush_buf t) as [t1 p1] eqn:E. apply (tee_flush_buf_spec t acc) in E as (Hat1 & _ & _ & Hp1); [|done].
  destruct p1 as [[[]| |]|]; try done.
  - exists t1. by destruct Hp1 as (_ & ? & ?).
  - apply IH; [done|lia].
Qed.

(** A buffer no smaller than the capacity only fills up the room left. *)
Lemma tee_poll_write_large t buf : tee_cap t ≤ length buf →
  tee_poll_write t buf =
    (mk_tee (tee_cap t) (tee_buf t ++ take (tee_room t) buf) (written1 t) (written2 t) (writer1 t) (writer2 t),
     Ready (Ok (tee_room t))).
Proof.
  intros Hc. unfold tee_poll_write. use_decide. unfold tee_extend.
  rewrite Nat.min_r by (unfold tee_room; lia). done.
Qed.

(** ** Properties *)

(** The tee writer is faithful: over any two writers that accept a byte
    whenever they are ready, under any schedules, and for any buffers handed
    to it, it never fails, and once the flush is done both writers hold
    exactly the bytes that were accepted. *)
Theorem tee_faithful (cap : nat) (s1 s2 : list (option nat)) (bufs : list bytes) (fuel : nat)
    (H1 : Forall (λ o, o ≠ Some 0) s1) (H2 : Forall (λ o, o ≠ Some 0) s2)
    (Hf : length s1 + length s2 < fuel) :
  ∃ t acc t', tee_writes (tee_new cap (mk_sink [] s1) (mk_sink [] s2)) bufs [] = Ok (t, acc) ∧
    tee_finish fuel t = Ok t' ∧ written (writer1 t') = acc ∧ written (writer2 t') = acc.
Proof.
  destruct (tee_writes_spec bufs (tee_new cap (mk_sink [] s1) (mk_sink [] s2)) []) as (t & acc & E & Hat & Hp).
  { unfold tee_at; cbn. split_and!; try done; lia. }
  destruct (tee_finish_spec fuel t acc) as (t' & ? & ? & ?); [done|unfold tee_patience in *; cbn in *; lia|].
  by exists t, acc, t'.
Qed.

(** A write of at least twice the capacity fails on any two writers: the
    buffer is filled, the rest is not smaller than the capacity, and the next
    call accepts nothing instead of flushing, which [write_all] reports as an
    error. *)
Theorem tee_large_write_fails (cap : nat) (w1 w2 : sink) (data : bytes) (fuel : nat)
    (Hcap : 0 < cap) (Hdata : 2 * cap ≤ length data) (Hf : 2 ≤ fuel) :
  tee_write_all fuel (tee_new cap w1 w2) data = Err (WriteZero "failed to write whole buffer").
Proof.
  destruct fuel as [|[|fuel]]; [lia..|].
  assert (∀ (x : bytes) n, n < length x → ∃ b y, drop n x = b :: y) as Hcons.
  { intros x n Hn. destruct (drop n x) eqn:E; [|eauto].
    apply (f_equal length) in E. rewrite length_drop in E. cbn in E. lia. }
  destruct (Hcons data 0) as (b & d & Ed); [lia|]. rewrite drop_0 in Ed. subst data. cbn [tee_write_all].
  rewrite tee_poll_write_large by (cbn in *; lia). unfold tee_room. cbn [tee_new tee_cap tee_buf length].
  rewrite Nat.sub_0_r. destruct (Hcons (b :: d) cap) as (b' & d' & Ed); [lia|].
  assert (cap ≤ length (b' :: d')) by (rewrite <-Ed, length_drop; lia).
  destruct cap as [|cap]; [lia|]. rewrite Ed, tee_poll_write_large by done.
  unfold tee_room. cbn [tee_cap tee_buf]. rewrite app_nil_l, length_take_le by lia. by rewrite Nat.sub_diag.
Qed.

Lemma tee_faithful_witness :
  ∃ t acc t', tee_writes (tee_new 4 (mk_sink [] [Some 1; None]) (mk_sink [] [None; Some 2])) [str "abc"; str "def"; str "ghi"] [] = Ok (t, acc) ∧
    tee_finish 5 t = Ok t' ∧ written (writer1 t') = acc ∧ written (writer2 t') = acc.
Proof. apply tee_faithful; [repeat constructor; discriminate|repeat constructor; discriminate|cbn; lia]. Defined.

Lemma tee_large_write_fails_witness :
  tee_write_all 2 (tee_new 4 (mk_sink [] []) (mk_sink [] [])) (str "12345678") =
  Err (WriteZero "failed to write whole buffer").
Proof. apply tee_large_write_fails; cbn; lia. Defined.
