(* ===== verification/RadixTree.v ===== *)
(** The constant radix tree the NAR reader selects tokens with
    ([harmonia-nar/src/archive/radix_tree.rs]): fixed-size arrays of nodes and
    edges, insertion that splits an edge at the first differing byte, and a
    resumable lookup that may run out of input in the middle of an edge. *)

From stdpp Require Import base list numbers.
From Stdlib Require Import Lia Strings.Byte.
From S2P Require Import Prelude.

(** ** Data *)

Inductive RLookup : Type :=
| Node (node_idx : nat)
| Edge (edge_idx read : nat).

Inductive RMatch : Type :=
| Matched (read : nat)
| NeedsMore
| Mismatch (read : nat).

Record REdge : Type := mk_edge { prefix : bytes; node_idx : nat }.

Inductive RNode (R : Type) : Type :=
| Branch (edge_idx len : nat)
| Leaf (value : R).
Arguments Branch {R} edge_idx len.
Arguments Leaf {R} value.

(** The arrays have the length of the Rust const generics [N] and [E]. *)
Record RTree (R : Type) : Type := mk_tree {
  nodes : list (RNode R);
  nodes_len : nat;
  edges : list REdge;
  edges_len : nat
}.
Arguments mk_tree {R} nodes nodes_len edges edges_len.
Arguments nodes {R} r.
Arguments nodes_len {R} r.
Arguments edges {R} r.
Arguments edges_len {R} r.

#[export] Instance RLookup_eq_dec : EqDecision RLookup.
Proof. solve_decision. Defined.
#[export] Instance RMatch_eq_dec : EqDecision RMatch.
Proof. solve_decision. Defined.
#[export] Instance REdge_eq_dec : EqDecision REdge.
Proof. solve_decision. Defined.

Definition RLookup_default : RLookup := Node 0.

(** ** Lookup *)

Section lookup.
Context {R : Type} (t : RTree R).

(** The inner [while start < end]: the first edge of the list whose prefix
    starts with [c]. An edge index out of range or an empty prefix panics. *)
Fixpoint find_edge (c : byte) (start len : nat) : res Empty_set (option nat) :=
  match len with
  | O => Ok None
  | S len' =>
      match edges t !! start with
      | Some e =>
          match prefix e with
          | p :: _ => if decide (c = p) then Ok (Some start) else find_edge c (S start) len'
          | [] => Panic
          end
      | None => Panic
      end
  end.

(** The inner [while idx < cmp]: how many bytes agree. *)
Fixpoint common_len (p b : bytes) : nat :=
  match p, b with
  | x :: p', y :: b' => if decide (y = x) then S (common_len p' b') else O
  | _, _ => O
  end.

(** One iteration of ['state: loop]. *)
Inductive lookup_step_result : Type :=
| LCont (state : RLookup) (buf : bytes) (read : nat)
| LRet (state : RLookup) (m : RMatch)
| LPanic.

Definition lookup_step (state : RLookup) (buf : bytes) (parsed : nat) : lookup_step_result :=
  match state with
  | Node idx =>
      match nodes t !! idx with
      | None => LPanic
      | Some (Leaf _) => LRet state (Matched parsed)
      | Some (Branch e len) =>
          match buf with
          | [] => LRet state NeedsMore
          | c :: rest =>
              match find_edge c e len with
              | Ok (Some start) => LCont (Edge start 1) rest (parsed + 1)
              | Ok None => LRet state (Mismatch parsed)
              | _ => LPanic
              end
          end
      end
  | Edge eidx read =>
      match edges t !! eidx with
      | None => LPanic
      | Some e =>
          if decide (length (prefix e) < read) then LPanic else
          let cmp := min (length (prefix e) - read) (length buf) in
          let idx := common_len (drop read (prefix e)) buf in
          if decide (idx < cmp) then LRet (Edge eidx (read + idx)) (Mismatch (parsed + idx))
          else if decide (read + cmp < length (prefix e)) then LRet (Edge eidx (read + cmp)) NeedsMore
          else LCont (Node (node_idx e)) (drop cmp buf) (parsed + cmp)
      end
  end.

Fixpoint lookup_loop (fuel : nat) (state : RLookup) (buf : bytes) (parsed : nat)
    : option (res Empty_set (RLookup * RMatch)) :=
  match fuel with
  | O => None
  | S fuel =>
      match lookup_step state buf parsed with
      | LCont state buf parsed => lookup_loop fuel state buf parsed
      | LRet state m => Some (Ok (state, m))
      | LPanic => Some Panic
      end
  end.

(** Every second iteration consumes a byte. *)
Definition lookup_fuel (buf : bytes) : nat := 2 * length buf + 2.

Definition rlookup (state : RLookup) (buf : bytes) : res Empty_set (RLookup * RMatch) :=
  default Panic (lookup_loop (lookup_fuel buf) state buf 0).

Definition get_value (state : RLookup) : res Empty_set R :=
  match state with
  | Node idx =>
      match nodes t !! idx with
      | Some (Leaf v) => Ok v
      | _ => Panic
      end
  | Edge _ _ => Panic
  end.
End lookup.

(** ** Construction

    [N], [E] and [B] are the const generics: numbers of nodes and edges, and
    the branching factor. *)

Section construction.
Context {R : Type}.

Definition RTree_new (N E : nat) : RTree R :=
  mk_tree (replicate N (Branch 0 0)) 0 (replicate E (mk_edge [] 0)) 0.

Definition set_node (t : RTree R) (i : nat) (n : RNode R) : res Empty_set (RTree R) :=
  if decide (i < length (nodes t))
  then Ok (mk_tree (<[i := n]> (nodes t)) (nodes_len t) (edges t) (edges_len t))
  else Panic.

Definition update_edge (t : RTree R) (i ni : nat) (p : bytes) : res Empty_set (RTree R) :=
  if decide (i < length (edges t))
  then Ok (mk_tree (nodes t) (nodes_len t) (<[i := mk_edge p ni]> (edges t)) (edges_len t))
  else Panic.

Definition bump_nodes (t : RTree R) : RTree R :=
  mk_tree (nodes t) (nodes_len t + 1) (edges t) (edges_len t).

Definition add_leaf_node (t : RTree R) (v : R) : res Empty_set (RTree R * nat) :=
  let idx := nodes_len t in
  t ← set_node t idx (Leaf v); mret (bump_nodes t, idx).

Definition add_branch_node (t : RTree R) (e len : nat) : res Empty_set (RTree R * nat) :=
  let idx := nodes_len t in
  t ← set_node t idx (Branch e len); mret (bump_nodes t, idx).

Definition add_edge_list (B : nat) (t : RTree R) (ni : nat) (p : bytes)
    : res Empty_set (RTree R * (nat * nat)) :=
  let idx := edges_len t in
  t ← update_edge t idx ni p;
  mret (mk_tree (nodes t) (nodes_len t) (edges t) (edges_len t + B), (idx, 1)).

Definition add_edge (B : nat) (t : RTree R) (ni edge_ni : nat) (p : bytes)
    : res Empty_set (RTree R) :=
  match nodes t !! ni with
  | Some (Branch e len) =>
      if decide (len = B) then Panic
      else t ← update_edge t (e + len) edge_ni p; set_node t ni (Branch e (len + 1))
  | _ => Panic
  end.

Definition insert_token (B : nat) (token : bytes) (v : R) (t : RTree R)
    : res Empty_set (RTree R) :=
  if decide (nodes_len t = 0) then
    '(t, (e, len)) ← add_edge_list B t 1 token;
    '(t, _) ← add_branch_node t e len;
    '(t, _) ← add_leaf_node t v;
    mret t
  else
    '(state, m) ← rlookup t (Node 0) token;
    match m with
    | Matched _ | NeedsMore => Panic
    | Mismatch idx =>
        let postfix := drop idx token in
        match state with
        | Node ni =>
            '(t, new) ← add_leaf_node t v;
            add_edge B t ni new postfix
        | Edge ei read =>
            match edges t !! ei with
            | None => Panic
            | Some e =>
                if decide (length (prefix e) < read) then Panic else
                let shared := take read (prefix e) in
                let left_prefix := drop read (prefix e) in
                '(t, (le, len)) ← add_edge_list B t (node_idx e) left_prefix;
                '(t, branch) ← add_branch_node t le len;
                '(t, leaf) ← add_leaf_node t v;
                t ← add_edge B t branch leaf postfix;
                update_edge t ei branch shared
            end
        end
    end.
End construction.

(** ** The lookup terminates and is resumable *)

Definition shift_match (k : nat) (m : RMatch) : RMatch :=
  match m with
  | Matched n => Matched (k + n)
  | NeedsMore => NeedsMore
  | Mismatch n => Mismatch (k + n)
  end.

Definition shift_result (k : nat) (r : res Empty_set (RLookup * RMatch))
    : res Empty_set (RLookup * RMatch) :=
  prod_map id (shift_match k) <$> r.

Arguments shift_result : simpl never.
Arguments lookup_fuel : simpl never.

Lemma common_len_le p b : common_len p b ≤ min (length p) (length b).
Proof.
  revert b; induction p as [|x p IH]; intros [|y b]; cbn; try lia.
  case_decide; [|lia]. specialize (IH b). lia.
Qed.

Lemma common_len_app p b c :
  common_len p (b ++ c) =
    if decide (common_len p b = length b) then length b + common_len (drop (length b) p) c
    else common_len p b.
Proof.
  revert b; induction p as [|x p IH]; intros [|y b]; cbn; try done.
  case_decide as Hx; [|done]. rewrite IH. repeat case_decide; lia.
Qed.

Lemma common_len_full p b : common_len p b = length p → b = p ++ drop (length p) b.
Proof.
  revert b; induction p as [|x p IH]; intros [|y b]; cbn; try done.
  case_decide; [|done]. intros [= Hl]. subst. f_equal. auto.
Qed.

Lemma common_len_self p c : common_len p (p ++ c) = length p.
Proof. induction p; cbn; [by destruct c|]. rewrite decide_True by done. auto. Qed.

Section lookup_facts.
Context {R : Type} (t : RTree R).

Definition lookup_measure (state : RLookup) (buf : bytes) : nat :=
  2 * length buf + match state with Node _ => 1 | Edge _ _ => 2 end.

Lemma lookup_step_measure state buf p state' buf' p' :
  lookup_step t state buf p = LCont state' buf' p' →
  lookup_measure state' buf' < lookup_measure state buf.
Proof.
  unfold lookup_step, lookup_measure. destruct state as [i|e r].
  - repeat case_match; try done. intros [= <- <- <-]. cbn. lia.
  - repeat case_match; try done. intros [= <- <- <-].
    rewrite length_drop. lia.
Qed.

Lemma lookup_step_shift state buf k p :
  lookup_step t state buf (k + p) =
    match lookup_step t state buf p with
    | LCont s b q => LCont s b (k + q)
    | LRet s m => LRet s (shift_match k m)
    | LPanic => LPanic
    end.
Proof.
  unfold lookup_step. repeat (case_match; try done); simplify_eq; cbn;
    rewrite ?Nat.add_assoc; done.
Qed.

Lemma lookup_loop_total fuel state buf p :
  lookup_measure state buf ≤ fuel → lookup_loop t fuel state buf p ≠ None.
Proof.
  revert state buf p; induction fuel as [|fuel IH]; intros state buf p Hf.
  - destruct state; cbn in Hf; lia.
  - cbn. destruct (lookup_step t state buf p) eqn:E; try done.
    apply IH. apply lookup_step_measure in E. lia.
Qed.

Lemma lookup_loop_mono fuel fuel' state buf p r :
  lookup_loop t fuel state buf p = Some r → fuel ≤ fuel' →
  lookup_loop t fuel' state buf p = Some r.
Proof.
  revert fuel' state buf p; induction fuel as [|fuel IH]; intros fuel' state buf p; [done|].
  destruct fuel' as [|fuel']; [lia|]. cbn.
  destruct (lookup_step t state buf p); try done. intros H ?. apply IH; [done|lia].
Qed.

Lemma lookup_loop_shift fuel state buf k p :
  lookup_loop t fuel state buf (k + p) = shift_result k <$> lookup_loop t fuel state buf p.
Proof.
  revert state buf p; induction fuel as [|fuel IH]; intros state buf p; [done|].
  cbn. rewrite lookup_step_shift. destruct (lookup_step t state buf p); cbn; auto.
Qed.

Lemma lookup_fuel_enough state buf fuel p :
  lookup_measure state buf ≤ fuel →
  lookup_loop t fuel state buf p = Some (shift_result p (rlookup t state buf)).
Proof.
  intros Hf. destruct (lookup_loop t fuel state buf p) as [r|] eqn:E;
    [|by apply lookup_loop_total in E].
  assert (lookup_measure state buf ≤ lookup_fuel buf) as Hl.
  { unfold lookup_measure, lookup_fuel. destruct state; lia. }
  unfold rlookup.
  destruct (lookup_loop t (lookup_fuel buf) state buf 0) as [r'|] eqn:E';
    [|by apply lookup_loop_total in E'].
  cbn. f_equal.
  pose proof (lookup_loop_shift (lookup_fuel buf) state buf p 0) as Hs.
  rewrite E', Nat.add_0_r in Hs. cbn in Hs.
  destruct (decide (fuel ≤ lookup_fuel buf)) as [?|?].
  - eapply lookup_loop_mono in E; [|done]. congruence.
  - eapply (lookup_loop_mono _ fuel) in Hs; [|lia]. congruence.
Qed.

(** The defining equation of the loop, without fuel. *)
Lemma rlookup_unfold state buf :
  rlookup t state buf =
    match lookup_step t state buf 0 with
    | LCont state' buf' k => shift_result k (rlookup t state' buf')
    | LRet state' m => Ok (state', m)
    | LPanic => Panic
    end.
Proof.
  unfold rlookup at 1, lookup_fuel. rewrite Nat.add_succ_r. cbn [lookup_loop].
  destruct (lookup_step t state buf 0) as [state' buf' k| |] eqn:E; [|done|done].
  rewrite lookup_fuel_enough; [done|].
  apply lookup_step_measure in E. unfold lookup_measure in *. destruct state; lia.
Qed.

Lemma shift_shift j k r : shift_result j (shift_result k r) = shift_result (j + k) r.
Proof. destruct r as [[s []]| |]; unfold shift_result; cbn; rewrite ?Nat.add_assoc; done. Qed.

Lemma shift_0 r : shift_result 0 r = r.
Proof. by destruct r as [[s []]| |]. Qed.

(** What feeding more input after [buf] amounts to, by the outcome on [buf]. *)
Definition resume (r : res Empty_set (RLookup * RMatch)) (buf more : bytes)
    : res Empty_set (RLookup * RMatch) :=
  match r with
  | Ok (state, NeedsMore) => shift_result (length buf) (rlookup t state more)
  | r => r
  end.

Lemma shift_resume k r buf buf' more :
  length buf = k + length buf' →
  shift_result k (resume r buf' more) = resume (shift_result k r) buf more.
Proof.
  intros Hl. destruct r as [[s []]| |]; try done.
  transitivity (shift_result (length buf) (rlookup t s more)); [|done].
  cbn. rewrite shift_shift. by rewrite Hl.
Qed.

Lemma rlookup_resume_edge e read buf more :
  (∀ state' buf', lookup_measure state' buf' < lookup_measure (Edge e read) buf →
     rlookup t state' (buf' ++ more) = resume (rlookup t state' buf') buf' more) →
  rlookup t (Edge e read) (buf ++ more) = resume (rlookup t (Edge e read) buf) buf more.
Proof.
  intros IH. rewrite (rlookup_unfold _ (buf ++ more)), (rlookup_unfold _ buf). cbn.
  destruct (edges t !! e) as [ed|] eqn:He; [|done].
  case_decide as Hr; [done|].
  pose proof (common_len_le (drop read (prefix ed)) buf) as Hc.
  pose proof (common_len_le (drop (read + length buf) (prefix ed)) more) as Hc'.
  rewrite common_len_app, drop_drop, !length_app. rewrite length_drop in Hc, Hc'.
  set (n := common_len (drop read (prefix ed)) buf) in *.
  destruct (decide (n = length buf)) as [Hn|Hn].
  - destruct (decide (n < min (length (prefix ed) - read) (length buf))); [lia|].
    destruct (decide (read + min (length (prefix ed) - read) (length buf) < length (prefix ed)))
      as [Hs|Hs].
    + cbn. replace (min (length (prefix ed) - read) (length buf)) with (length buf) by lia.
      rewrite rlookup_unfold. cbn. rewrite He.
      set (m := common_len (drop (read + length buf) (prefix ed)) more) in *.
      repeat case_decide; try lia; try (unfold shift_result; cbn; do 3 f_equal; lia).
      rewrite shift_shift, drop_app_ge by lia.
      f_equal; [lia|]. f_equal. f_equal. lia.
    + rewrite decide_False by lia. rewrite decide_False by lia.
      replace (min (length (prefix ed) - read) (length buf + length more))
        with (min (length (prefix ed) - read) (length buf)) by lia.
      rewrite drop_app_le by lia. rewrite IH.
      * apply shift_resume. rewrite length_drop. lia.
      * unfold lookup_measure. rewrite length_drop. lia.
  - destruct (decide (n < min (length (prefix ed) - read) (length buf))) as [Hs|Hs].
    + rewrite decide_True by lia. done.
    + rewrite decide_False by lia. rewrite decide_False by lia.
      rewrite decide_False by lia.
      replace (min (length (prefix ed) - read) (length buf + length more))
        with (min (length (prefix ed) - read) (length buf)) by lia.
      rewrite drop_app_le by lia. rewrite IH.
      * apply shift_resume. rewrite length_drop. lia.
      * unfold lookup_measure. rewrite length_drop. lia.
Qed.

Lemma rlookup_resume state buf more :
  rlookup t state (buf ++ more) = resume (rlookup t state buf) buf more.
Proof.
  remember (lookup_measure state buf) as n eqn:Hn. revert state buf Hn.
  induction n as [n IH] using lt_wf_ind. intros state buf ->.
  destruct state as [i|e read].
  - rewrite (rlookup_unfold _ (buf ++ more)), (rlookup_unfold _ buf). cbn.
    destruct (nodes t !! i) as [[ei len|v]|] eqn:Hi; try done.
    destruct buf as [|c buf]; cbn.
    + rewrite shift_0, (rlookup_unfold _ more). cbn. by rewrite Hi.
    + destruct (find_edge t c ei len) as [[s|]| |]; try done.
      rewrite (IH (lookup_measure (Edge s 1) buf)); [|unfold lookup_measure; cbn; lia|done].
      apply shift_resume. cbn. lia.
  - apply rlookup_resume_edge. intros. by eapply IH.
Qed.

Lemma rlookup_matched_len state buf state' n :
  rlookup t state buf = Ok (state', Matched n) → n ≤ length buf.
Proof.
  remember (lookup_measure state buf) as m eqn:Hm. revert state buf n Hm.
  induction m as [m IH] using lt_wf_ind. intros state buf n ->.
  rewrite rlookup_unfold.
  destruct (lookup_step t state buf 0) as [s1 b1 k|s1 m1|] eqn:E; [| |done].
  - pose proof (lookup_step_measure _ _ _ _ _ _ E) as Hlt.
    destruct (rlookup t s1 b1) as [[s2 []]| |] eqn:E2; unfold shift_result; cbn; try done.
    intros [= -> <-]. eapply IH in E2; [|done|done].
    assert (length buf = k + length b1).
    { revert E. unfold lookup_step. repeat case_match; try done; intros [= <- <- <-]; cbn;
        rewrite ?length_drop; lia. }
    lia.
  - intros [= -> ->]. revert E. unfold lookup_step.
    repeat case_match; try done; intros [= <- <-]; lia.
Qed.

(** ** Lookups on a well-formed tree do not panic *)

Definition tree_wf : Prop :=
  Forall (λ n, match n with
               | Branch e len => e + len ≤ length (edges t)
               | Leaf _ => True
               end) (nodes t) ∧
  Forall (λ e, prefix e ≠ [] ∧ node_idx e < length (nodes t)) (edges t).

#[global] Instance tree_wf_dec : Decision tree_wf.
Proof.
  apply and_dec; apply Forall_dec.
  - intros [e len|v]; [|left; exact I].
    exact (decide (e + len ≤ length (edges t))).
  - intros e. exact (decide (prefix e ≠ [] ∧ node_idx e < length (nodes t))).
Defined.

(** The states a lookup pauses in: at a branch, or inside an edge. *)
Definition lookup_wf (l : RLookup) : Prop :=
  match l with
  | Node i => ∃ e len, nodes t !! i = Some (Branch e len)
  | Edge e r => ∃ ed, edges t !! e = Some ed ∧ 0 < r < length (prefix ed)
  end.

(** The states inside the loop. *)
Definition lookup_pre (l : RLookup) : Prop :=
  match l with
  | Node i => i < length (nodes t)
  | Edge e r => ∃ ed, edges t !! e = Some ed ∧ 0 < r ≤ length (prefix ed)
  end.

Lemma lookup_wf_pre l : lookup_wf l → lookup_pre l.
Proof.
  destruct l as [i|e r]; cbn.
  - intros (? & ? & H). by eapply lookup_lt_Some.
  - intros (ed & ? & ?). exists ed. split; [done|lia].
Qed.

Lemma find_edge_wf c start len :
  tree_wf → start + len ≤ length (edges t) →
  find_edge t c start len = Ok None ∨
  ∃ s ed, find_edge t c start len = Ok (Some s) ∧ edges t !! s = Some ed ∧ prefix ed ≠ [].
Proof.
  intros [_ Hwf]. revert start; induction len as [|len IH]; intros start Hl; cbn; [by left|].
  destruct (edges t !! start) as [ed|] eqn:He;
    [|apply lookup_ge_None in He; lia].
  pose proof (Forall_lookup_1 _ _ _ _ Hwf He) as [Hp _].
  destruct (prefix ed) as [|x p] eqn:Hpe; [done|].
  case_decide; [|apply IH; lia].
  right. exists start, ed. rewrite Hpe. done.
Qed.

(** What a lookup on a well-formed tree can return. *)
Definition lookup_post (r : res Empty_set (RLookup * RMatch)) : Prop :=
  match r with
  | Ok (Node i, Matched _) => ∃ v, nodes t !! i = Some (Leaf v)
  | Ok (Edge _ _, Matched _) => False
  | Ok (l, NeedsMore) => lookup_wf l
  | Ok (_, Mismatch _) => True
  | _ => False
  end.

Lemma lookup_post_shift k r : lookup_post r → lookup_post (shift_result k r).
Proof. by destruct r as [[[] []]| |]. Qed.

Lemma rlookup_wf l buf : tree_wf → lookup_pre l → lookup_post (rlookup t l buf).
Proof.
  intros Hwf. remember (lookup_measure l buf) as m eqn:Hm. revert l buf Hm.
  induction m as [m IH] using lt_wf_ind. intros l buf -> Hl.
  rewrite rlookup_unfold.
  destruct (lookup_step t l buf 0) as [l' buf' k| l' r|] eqn:E.
  - apply lookup_post_shift. eapply IH; [by eapply lookup_step_measure|done|].
    destruct Hwf as [Hn He]. revert E. unfold lookup_step. destruct l as [i|e r].
    + destruct (nodes t !! i) as [[e len|v]|] eqn:Hi; try done.
      pose proof (Forall_lookup_1 _ _ _ _ Hn Hi) as Hb. cbn in Hb.
      destruct buf as [|c buf]; [done|].
      destruct (find_edge_wf c e len) as [->|(s & ed & -> & Hs & Hp)]; try done.
      intros [= <- <- <-]. exists ed. split; [done|].
      destruct (prefix ed); [done|]. cbn. lia.
    + destruct Hl as (ed & Hed & Hr). rewrite Hed. repeat case_decide; try done.
      intros [= <- <- <-]. cbn.
      by pose proof (Forall_lookup_1 _ _ _ _ He Hed) as [_ ?].
  - revert E. unfold lookup_step. destruct l as [i|e r'].
    + destruct (nodes t !! i) as [[e len|v]|] eqn:Hi; try done.
      * destruct buf as [|c buf].
        -- intros [= <- <-]. cbn. eauto.
        -- destruct (find_edge t c e len) as [[]| |]; try done. by intros [= <- <-].
      * intros [= <- <-]. cbn. eauto.
    + destruct Hl as (ed & Hed & Hr). rewrite Hed. repeat case_decide; try done.
      * by intros [= <- <-].
      * intros [= <- <-]. cbn. exists ed. split; [done|lia].
  - exfalso. revert E. destruct Hwf as [Hn He]. unfold lookup_step. destruct l as [i|e r].
    + destruct (nodes t !! i) as [[e len|v]|] eqn:Hi; try done.
      * pose proof (Forall_lookup_1 _ _ _ _ Hn Hi) as Hb. cbn in Hb.
        destruct buf as [|c buf]; [done|].
        by destruct (find_edge_wf c e len) as [->|(s & ed & -> & Hs & Hp)].
      * apply lookup_ge_None in Hi. cbn in Hl. lia.
    + destruct Hl as (ed & Hed & Hr). rewrite Hed. repeat case_decide; try done. lia.
Qed.

(** A paused lookup consumes at least one byte before it matches. *)
Lemma rlookup_matched_pos l buf l' n :
  lookup_wf l → rlookup t l buf = Ok (l', Matched n) → 0 < n.
Proof.
  intros Hl. rewrite rlookup_unfold.
  destruct (lookup_step t l buf 0) as [l1 b1 k|l1 r|] eqn:E; [| |done].
  - destruct (rlookup t l1 b1) as [[l2 []]| |]; unfold shift_result; cbn; try done.
    intros [= <- <-]. cut (0 < k); [lia|]. revert E. unfold lookup_step.
    destruct l as [i|e r]; repeat case_match; try done; intros [= <- <- <-]; [lia|].
    destruct Hl as (ed & ? & ?). simplify_eq. lia.
  - intros [= -> ->]. revert E. unfold lookup_step.
    destruct l as [i|e r]; repeat case_match; try done; intros [= <- <-].
    destruct Hl as (? & ? & ?). congruence.
Qed.
End lookup_facts.
