(* ===== verification/NarReader.v ===== *)
(** The incremental NAR reader ([harmonia-nar/src/archive/read_nar.rs]): the
    token constants, the state machine [Inner<P>] and its [drive] loop.
    [P = true] is the reader that skips over file contents and names
    ([NarReader], [NarBytesReader]); [P = false] is the one the parser uses,
    which stops at contents, names and directory boundaries. *)

From stdpp Require Import base list numbers strings.
From Stdlib Require Import ZArith Lia Strings.Byte.
From S2P Require Import Prelude Async Wire RadixTree.

(** ** Tokens *)

(** [encode::<R>(s)] with [R = calc_aligned(s.len()) + 8]: a zeroed array with
    the length and the bytes copied into it. *)
Definition encode (s : bytes) : bytes :=
  let r := Z.to_nat (calc_aligned (Z.of_nat (length s)) + 8) in
  let body := u64_to_le_bytes (Z.of_nat (length s)) ++ s in
  body ++ replicate (r - length body) Byte.x00.

(** [token!(...)]: the concatenation of the encoded literals. *)
Definition token (ls : list string) : bytes := concat (encode ∘ str <$> ls).

Definition TOK_ROOT : bytes := Eval vm_compute in token ["nix-archive-1"; "("; "type"]%string.
Definition TOK_PAR : bytes := Eval vm_compute in token [")"]%string.
Definition TOK_ENTRY : bytes := Eval vm_compute in token ["entry"; "("; "name"]%string.
Definition TOK_NODE : bytes := Eval vm_compute in token ["node"; "("; "type"]%string.
Definition TOK_FILE_E : bytes :=
  Eval vm_compute in token ["regular"; "executable"; ""; "contents"]%string.
Definition TOK_FILE : bytes := Eval vm_compute in token ["regular"; "contents"]%string.
Definition TOK_SYM : bytes := Eval vm_compute in token ["symlink"; "target"]%string.
Definition TOK_DIR : bytes := Eval vm_compute in token ["directory"]%string.

(** ** States *)

Inductive NodeType : Type := NT_File | NT_ExecutableFile | NT_Symlink.

#[export] Instance NodeType_eq_dec : EqDecision NodeType.
Proof. solve_decision. Defined.

(** The counters [read : u8] are naturals: they never exceed the length of a
    token (at most 64), see [inner_wf]. *)
Inductive InnerState : Type :=
| Root (read : nat)
| SelectNode (l : RLookup)
| ReadContentsLen (nt : NodeType) (value : bytes) (read : nat)
| ReadContents (nt : NodeType) (size rem : Z)
| FinishNode (read : nat)
| ReadDir
| FinishEntry (read : nat)
| ReadEntries (l : RLookup)
| FinishReadEntry
| ReadEntryNameLen (value : bytes) (read : nat)
| ReadEntryName (len rem : Z)
| ReadNode (read : nat)
| Eof.

#[export] Instance InnerState_eq_dec : EqDecision InnerState.
Proof. solve_decision. Defined.

Record Inner : Type := mk_inner { state : InnerState; level : nat }.

#[export] Instance Inner_eq_dec : EqDecision Inner.
Proof. solve_decision. Defined.

Definition inner_new : Inner := mk_inner (Root 0) 0.

Definition set_state (i : Inner) (s : InnerState) : Inner := mk_inner s (level i).

Definition is_eof (i : Inner) : bool := match state i with Eof => true | _ => false end.

(** ** The selection trees *)

Definition build_tree (N E B : nat) (l : list (bytes * InnerState))
    : res Empty_set (RTree InnerState) :=
  foldl (λ t '(tok, v), t ≫= insert_token B tok v) (Ok (RTree_new N E)) l.

Definition tree_of (r : res Empty_set (RTree InnerState)) : RTree InnerState :=
  match r with Ok t => t | _ => RTree_new 0 0 end.

Definition NODE_SELECT_tokens : list (bytes * InnerState) :=
  [(TOK_DIR, ReadDir);
   (TOK_SYM, ReadContentsLen NT_Symlink ZEROS 0);
   (TOK_FILE, ReadContentsLen NT_File ZEROS 0);
   (TOK_FILE_E, ReadContentsLen NT_ExecutableFile ZEROS 0)].

Definition ENTRY_SELECT_tokens : list (bytes * InnerState) :=
  [(TOK_ENTRY, ReadEntryNameLen ZEROS 0); (TOK_PAR, FinishReadEntry)].

Definition NODE_SELECT : RTree InnerState :=
  Eval vm_compute in tree_of (build_tree 7 6 2 NODE_SELECT_tokens).

Definition ENTRY_SELECT : RTree InnerState :=
  Eval vm_compute in tree_of (build_tree 3 2 2 ENTRY_SELECT_tokens).

(** ** The state machine *)

(** [bump_state]; a state it does not expect panics. *)
Definition bump_state (i : Inner) : res io_error Inner :=
  match state i with
  | ReadContents _ _ _ => Ok (set_state i (FinishNode 0))
  | ReadEntryName _ _ => Ok (set_state i (ReadNode 0))
  | ReadDir => Ok (set_state i (ReadEntries RLookup_default))
  | FinishReadEntry =>
      if decide (1 < level i) then Ok (mk_inner (FinishEntry 0) (level i - 1))
      else Ok (set_state i Eof)
  | _ => Panic
  end.

(** [bump_next] asserts [!P]. *)
Definition bump_next (P : bool) (i : Inner) : res io_error Inner :=
  if P then Panic else bump_state i.

(** One iteration of the loop of [drive]: go on with the rest of the buffer
    after consuming [n] bytes, leave the loop having consumed [n] bytes,
    return an error (the state stays as it is), or panic. *)
Inductive drive_step_result : Type :=
| DCont (i : Inner) (n : nat)
| DBreak (i : Inner) (n : nat)
| DErr (e : io_error)
| DPanic.

(** The macro [read_token!], with the state that counts the bytes already
    matched and the state to go on with. *)
Definition read_token (i : Inner) (tok : bytes) (read : nat) (buf : bytes)
    (count : nat → InnerState) (next : InnerState) : drive_step_result :=
  if decide (length tok < read) then DPanic else
  let rem := drop read tok in
  let cmp := min (length rem) (length buf) in
  if decide (take cmp rem = take cmp buf) then
    if decide (cmp < length rem) then DBreak (set_state i (count (read + cmp))) cmp
    else DCont (set_state i next) cmp
  else DErr (InvalidData "invalid data in NAR").

(** A selection by the radix tree. *)
Definition select (i : Inner) (t : RTree InnerState) (l : RLookup) (buf : bytes)
    (again : RLookup → InnerState) (msg : string) : drive_step_result :=
  match rlookup t l buf with
  | Ok (l', Matched n) =>
      match get_value t l' with
      | Ok v => DCont (set_state i v) n
      | _ => DPanic
      end
  | Ok (l', NeedsMore) => DBreak (set_state i (again l')) (length buf)
  | Ok (_, Mismatch _) => DErr (InvalidData msg)
  | _ => DPanic
  end.

(** Eight bytes of a little-endian length. *)
Definition read_len (i : Inner) (value : bytes) (read : nat) (buf : bytes)
    (again : bytes → nat → InnerState) (next : Z → InnerState) : drive_step_result :=
  if decide (8 < read ∨ length value ≠ 8) then DPanic else
  let rem := min (length buf) (8 - read) in
  let new_read := read + rem in
  let value := take read value ++ take rem buf ++ drop new_read value in
  if decide (new_read < 8) then DBreak (set_state i (again value new_read)) rem
  else DCont (set_state i (next (from_le_bytes value))) rem.

(** Skipping over [rem] bytes, then [bump_state]. *)
Definition skip (i : Inner) (rem : Z) (buf : bytes) (again : Z → InnerState) : drive_step_result :=
  if decide (Z.of_nat (length buf) < rem)%Z
  then DBreak (set_state i (again (rem - Z.of_nat (length buf))%Z)) (length buf)
  else match bump_state i with
       | Ok i' => DCont i' (Z.to_nat rem)
       | _ => DPanic
       end.

Definition drive_step (P : bool) (i : Inner) (buf : bytes) : drive_step_result :=
  match state i with
  | Root read => read_token i TOK_ROOT read buf Root (SelectNode RLookup_default)
  | SelectNode l => select i NODE_SELECT l buf SelectNode "could not select node type"
  | ReadContentsLen nt value read =>
      read_len i value read buf (ReadContentsLen nt)
        (λ len, ReadContents nt len (calc_aligned len))
  | ReadContents nt size rem =>
      if P then skip i rem buf (ReadContents nt size) else DBreak i 0
  | FinishNode read =>
      read_token i TOK_PAR read buf FinishNode
        (if decide (0 < level i) then FinishEntry 0 else Eof)
  | ReadDir =>
      let i' := mk_inner (state i) (level i + 1) in
      if P then match bump_state i' with Ok i'' => DCont i'' 0 | _ => DPanic end
      else DBreak i' 0
  | FinishEntry read =>
      read_token i TOK_PAR read buf FinishEntry (ReadEntries RLookup_default)
  | ReadEntries l => select i ENTRY_SELECT l buf ReadEntries "could not read entry"
  | FinishReadEntry =>
      if P then match bump_state i with Ok i' => DCont i' 0 | _ => DPanic end
      else DBreak i 0
  | ReadEntryNameLen value read =>
      read_len i value read buf ReadEntryNameLen
        (λ len, ReadEntryName len (calc_aligned len))
  | ReadEntryName len rem =>
      if P then skip i rem buf (ReadEntryName len) else DBreak i 0
  | ReadNode read => read_token i TOK_NODE read buf ReadNode (SelectNode RLookup_default)
  | Eof => DBreak i 0
  end.

(** [drive]: the state it leaves and the number of bytes parsed. *)
Fixpoint drive_loop (P : bool) (fuel : nat) (i : Inner) (buf : bytes) (parsed : nat)
    : option (Inner * res io_error nat) :=
  match fuel with
  | O => None
  | S fuel =>
      match drive_step P i buf with
      | DCont i' n => drive_loop P fuel i' (drop n buf) (parsed + n)
      | DBreak i' n => Some (i', Ok (parsed + n))
      | DErr e => Some (i, Err e)
      | DPanic => Some (i, Panic)
      end
  end.

(** Between two iterations that consume a byte there is at most one that
    consumes none (see [drive_measure]). *)
Definition drive_fuel (buf : bytes) : nat := 2 * length buf + 2.

Definition drive (P : bool) (i : Inner) (buf : bytes) : Inner * res io_error nat :=
  default (i, Panic) (drive_loop P (drive_fuel buf) i buf 0).

(** ** Well-formed states *)

Definition inner_wf (i : Inner) : Prop :=
  match state i with
  | Root r => r < length TOK_ROOT
  | SelectNode l => lookup_wf NODE_SELECT l
  | ReadContentsLen _ v r => length v = 8 ∧ r < 8
  | ReadContents _ size rem => is_u64 size ∧ is_u64 rem
  | FinishNode r => r < length TOK_PAR
  | FinishEntry r => r < length TOK_PAR ∧ 0 < level i
  | ReadEntries l => lookup_wf ENTRY_SELECT l ∧ 0 < level i
  | FinishReadEntry => 0 < level i
  | ReadEntryNameLen v r => length v = 8 ∧ r < 8 ∧ 0 < level i
  | ReadEntryName len rem => is_u64 len ∧ is_u64 rem ∧ 0 < level i
  | ReadNode r => r < length TOK_NODE ∧ 0 < level i
  | ReadDir | Eof => True
  end.

Lemma inner_new_wf : inner_wf inner_new.
Proof. cbn. lia. Qed.

Lemma NODE_SELECT_wf : tree_wf NODE_SELECT.
Proof. apply (bool_decide_unpack _). by vm_compute. Qed.

Lemma ENTRY_SELECT_wf : tree_wf ENTRY_SELECT.
Proof. apply (bool_decide_unpack _). by vm_compute. Qed.

Lemma RLookup_default_wf : lookup_wf NODE_SELECT RLookup_default ∧ lookup_wf ENTRY_SELECT RLookup_default.
Proof. split; do 2 eexists; reflexivity. Qed.

Definition leaves {R : Type} (t : RTree R) : list R :=
  omap (λ n, match n with Leaf v => Some v | Branch _ _ => None end) (nodes t).

Lemma leaves_lookup {R : Type} (t : RTree R) n v : nodes t !! n = Some (Leaf v) → v ∈ leaves t.
Proof. intros H%list_elem_of_lookup_2. apply list_elem_of_omap. by exists (Leaf v). Qed.

Lemma NODE_SELECT_leaf n v : nodes NODE_SELECT !! n = Some (Leaf v) → v ∈ leaves NODE_SELECT.
Proof. apply leaves_lookup. Qed.

Lemma ENTRY_SELECT_leaf n v : nodes ENTRY_SELECT !! n = Some (Leaf v) → v ∈ leaves ENTRY_SELECT.
Proof. apply leaves_lookup. Qed.

Lemma calc_aligned_u64 len : is_u64 len → is_u64 (calc_aligned len).
Proof.
  unfold is_u64. intros H.
  destruct (decide (alignable len)) as [Ha|Ha].
  - pose proof (calc_aligned_bounds len Ha) as [? [k ?]].
    unfold alignable, u64_max, u64_modulus in *. lia.
  - rewrite calc_aligned_wraps; unfold alignable, u64_max, u64_modulus in *; lia.
Qed.

(** States in which [drive] leaves the loop whatever the buffer holds. *)
Definition stops (P : bool) (i : Inner) : bool :=
  match state i with
  | Eof => true
  | ReadContents _ _ _ | ReadEntryName _ _ | ReadDir | FinishReadEntry => negb P
  | _ => false
  end.

(** What one iteration guarantees. *)
Definition step_post (P : bool) (i : Inner) (buf : bytes) (r : drive_step_result) : Prop :=
  match r with
  | DCont i' n => inner_wf i' ∧ n ≤ length buf ∧
      (n = 0 → negb (stops false i') = true ∨ is_eof i' = true) ∧
      (n = 0 → stops false i = true ∧ is_eof i = false)
  | DBreak i' n => inner_wf i' ∧ (stops P i' = true ∧ n = 0 ∨ stops P i' = false ∧ n = length buf)
  | DErr _ => True
  | DPanic => False
  end.

Lemma read_token_post P i tok r buf count next :
  r < length tok →
  inner_wf (set_state i next) →
  (∀ r', r' < length tok → inner_wf (set_state i (count r'))) →
  (∀ r', stops P (set_state i (count r')) = false) →
  step_post P i buf (read_token i tok r buf count next).
Proof.
  intros Hr Hn Hc Hs. unfold read_token. rewrite decide_False by lia.
  rewrite length_drop. repeat case_decide; cbn; try done.
  - split; [apply Hc; lia|]. right. split; [apply Hs|lia].
  - split; [done|]. split; [lia|]. split; intros; lia.
Qed.

Lemma select_post P i t l buf again msg toks :
  tree_wf t → lookup_wf t l →
  (∀ n v, nodes t !! n = Some (Leaf v) → v ∈ toks) →
  Forall (λ v, inner_wf (set_state i v)) toks →
  (∀ l', lookup_wf t l' → inner_wf (set_state i (again l'))) →
  (∀ l', stops P (set_state i (again l')) = false) →
  step_post P i buf (select i t l buf again msg).
Proof.
  intros Ht Hl Hleaf Htoks Ha Hs. unfold select.
  pose proof (rlookup_wf t l buf Ht (lookup_wf_pre t l Hl)) as Hp.
  destruct (rlookup t l buf) as [[l' m]| |] eqn:E; [|done|done].
  destruct m as [n| |n]; [| |done].
  - destruct l' as [ni|]; [|done]. destruct Hp as [v Hv]. cbn. rewrite Hv. cbn.
    pose proof (rlookup_matched_len t _ _ _ _ E). pose proof (rlookup_matched_pos t _ _ _ _ Hl E).
    split; [|split; [done|split; intros; lia]].
    rewrite Forall_forall in Htoks. eauto.
  - cbn. split; [by apply Ha; destruct l'|]. right. auto.
Qed.

Lemma read_len_post P i v r buf again next :
  length v = 8 → r < 8 →
  (∀ v' r', length v' = 8 → r' < 8 → inner_wf (set_state i (again v' r'))) →
  (∀ v' r', stops P (set_state i (again v' r')) = false) →
  (∀ len, is_u64 len → inner_wf (set_state i (next len))) →
  step_post P i buf (read_len i v r buf again next).
Proof.
  intros Hv Hr Ha Hs Hn. unfold read_len.
  rewrite decide_False by (intros [?|?]; lia).
  assert (length (take r v ++ take (min (length buf) (8 - r)) buf ++
                  drop (r + min (length buf) (8 - r)) v) = 8) as Hl.
  { rewrite !length_app, !length_take, length_drop. lia. }
  case_decide; cbn.
  - split; [apply Ha; [done|lia]|]. right. split; [apply Hs|lia].
  - split; [apply Hn, from_le_bytes_u64; done|]. split; [lia|]. split; intros; lia.
Qed.

Lemma skip_post i rem buf again i' :
  is_u64 rem → bump_state i = Ok i' → inner_wf i' → stops false i' = false →
  (stops false i = true ∧ is_eof i = false) →
  (∀ rem', is_u64 rem' → inner_wf (set_state i (again rem'))) →
  (∀ rem', stops true (set_state i (again rem')) = false) →
  step_post true i buf (skip i rem buf again).
Proof.
  intros Hr Hb Hi Hs Hs' Ha Hsa. unfold skip. rewrite Hb. unfold is_u64 in *.
  case_decide; cbn.
  - split; [apply Ha; lia|]. right. auto.
  - split; [done|]. split; [lia|]. split; [|done]. rewrite Hs. auto.
Qed.

Lemma drive_step_post P i buf : inner_wf i → step_post P i buf (drive_step P i buf).
Proof.
  intros Hwf. pose proof RLookup_default_wf as [Hd1 Hd2].
  unfold drive_step, inner_wf in *. destruct i as [s lv]; cbn in *. destruct s; cbn in *.
  - by apply read_token_post.
  - apply (select_post _ _ _ _ _ _ _ _ NODE_SELECT_wf Hwf NODE_SELECT_leaf); try done.
    repeat constructor; cbn; lia.
  - destruct Hwf. apply read_len_post; try done.
    intros. split; [done|by apply calc_aligned_u64].
  - destruct P; [|cbn; auto].
    destruct Hwf. eapply skip_post; first [done | cbn; lia].
  - apply read_token_post; try done. cbn. case_decide; cbn; [|done]. split; [lia|done].
  - destruct P; cbn; [|auto]. split; [split; [done|lia]|]. split; [lia|]. split; [by left|done].
  - destruct Hwf. apply read_token_post; try done; cbn; auto.
  - destruct Hwf. apply (select_post _ _ _ _ _ _ _ _ ENTRY_SELECT_wf H ENTRY_SELECT_leaf); try done.
    repeat constructor; cbn; lia.
  - destruct P; cbn; [|auto]. case_decide; cbn.
    + split; [split; lia|]. split; [lia|]. auto.
    + split; [done|]. split; [lia|]. auto.
  - destruct Hwf as (? & ? & ?). apply read_len_post; try done.
    intros. split; [done|]. split; [by apply calc_aligned_u64|done].
  - destruct P; [|cbn; auto].
    destruct Hwf as (? & ? & ?). eapply skip_post; first [done | cbn; split; [lia|done]].
  - destruct Hwf. apply read_token_post; try done; cbn; auto.
  - auto.
Qed.

(** ** The loop of [drive] terminates *)

Definition drive_measure (i : Inner) (buf : bytes) : nat :=
  2 * length buf + (if stops false i && negb (is_eof i) then 1 else 0).

Lemma drive_step_measure P i buf i' n :
  inner_wf i → drive_step P i buf = DCont i' n →
  inner_wf i' ∧ n ≤ length buf ∧ drive_measure i' (drop n buf) < drive_measure i buf.
Proof.
  intros Hwf E. pose proof (drive_step_post P i buf Hwf) as Hp. rewrite E in Hp.
  destruct Hp as (? & ? & H1 & H2). split; [done|]. split; [done|].
  unfold drive_measure. rewrite length_drop.
  destruct (decide (n = 0)) as [->|].
  - destruct (H2 eq_refl) as [-> ->].
    destruct (H1 eq_refl) as [Hs|Hs].
    + apply negb_true_iff in Hs. rewrite Hs. cbn. lia.
    + rewrite Hs, andb_false_r. cbn. lia.
  - repeat case_match; lia.
Qed.

Lemma drive_loop_enough P fuel i buf parsed :
  inner_wf i → drive_measure i buf < fuel →
  ∃ r, drive_loop P fuel i buf parsed = Some r.
Proof.
  revert i buf parsed; induction fuel as [|fuel IH]; intros i buf parsed Hwf Hf; [lia|]. cbn.
  destruct (drive_step P i buf) as [i' n|i' n|e|] eqn:E; eauto.
  apply drive_step_measure in E as (? & ? & ?); [|done]. apply IH; [done|lia].
Qed.

Lemma drive_loop_mono P fuel fuel' i buf p r :
  drive_loop P fuel i buf p = Some r → fuel ≤ fuel' → drive_loop P fuel' i buf p = Some r.
Proof.
  revert fuel' i buf p; induction fuel as [|fuel IH]; intros fuel' i buf p; [done|].
  destruct fuel' as [|fuel']; [lia|]. cbn.
  destruct (drive_step P i buf); try done. intros H ?. apply IH; [done|lia].
Qed.

Definition shift_parsed (k : nat) (r : Inner * res io_error nat) : Inner * res io_error nat :=
  (r.1, (λ n, k + n) <$> r.2).
Arguments shift_parsed : simpl never.

Lemma drive_loop_shift P fuel i buf k p :
  drive_loop P fuel i buf (k + p) = shift_parsed k <$> drive_loop P fuel i buf p.
Proof.
  revert i buf p; induction fuel as [|fuel IH]; intros i buf p; [done|].
  cbn. destruct (drive_step P i buf); cbn; try done.
  - by rewrite <-IH, Nat.add_assoc.
  - unfold shift_parsed; cbn. by rewrite Nat.add_assoc.
Qed.

Lemma drive_loop_drive P fuel i buf p :
  inner_wf i → drive_measure i buf < fuel →
  drive_loop P fuel i buf p = Some (shift_parsed p (drive P i buf)).
Proof.
  intros Hwf Hf. unfold drive.
  assert (drive_measure i buf < drive_fuel buf) as Hf'.
  { unfold drive_measure, drive_fuel. case_match; lia. }
  destruct (drive_loop_enough P _ i buf 0 Hwf Hf') as [r' Hr'].
  destruct (drive_loop_enough P _ i buf p Hwf Hf) as [r Hr]. rewrite Hr, Hr'. cbn [default].
  pose proof (drive_loop_shift P (drive_fuel buf) i buf p 0) as Hs.
  rewrite Hr', Nat.add_0_r in Hs. cbn [fmap option_fmap option_map] in Hs.
  eapply (drive_loop_mono _ _ (max fuel (drive_fuel buf))) in Hr; [|lia].
  eapply (drive_loop_mono _ _ (max fuel (drive_fuel buf))) in Hs; [|lia].
  unfold id. congruence.
Qed.

Lemma drive_unfold P i buf :
  inner_wf i →
  drive P i buf =
    match drive_step P i buf with
    | DCont i' n => shift_parsed n (drive P i' (drop n buf))
    | DBreak i' n => (i', Ok n)
    | DErr e => (i, Err e)
    | DPanic => (i, Panic)
    end.
Proof.
  intros Hwf. unfold drive at 1, drive_fuel. rewrite Nat.add_succ_r. cbn [drive_loop].
  destruct (drive_step P i buf) as [i' n|i' n|e|] eqn:E; try done.
  apply drive_step_measure in E as (Hi' & ? & Hm); [|done].
  rewrite (drive_loop_drive P _ i'); [done|done|].
  unfold drive_measure in *. repeat case_match; lia.
Qed.

(** Strong induction along the iterations of [drive]. *)
Lemma drive_ind (P : bool) (Q : Inner → bytes → Prop) :
  (∀ i buf, inner_wf i →
     (∀ i' n, drive_step P i buf = DCont i' n → Q i' (drop n buf)) → Q i buf) →
  ∀ i buf, inner_wf i → Q i buf.
Proof.
  intros H i buf. remember (drive_measure i buf) as m eqn:Hm. revert i buf Hm.
  induction m as [m IH] using lt_wf_ind. intros i buf -> Hwf. apply H; [done|].
  intros i' n E. apply drive_step_measure in E as (? & ? & ?); [|done]. by eapply IH.
Qed.

(** [drive] keeps the state well-formed, never panics, never claims to have
    parsed more than it was given, and stops early only in a stop state. *)
Lemma drive_wf P i buf :
  inner_wf i →
  match drive P i buf with
  | (i', Ok n) => inner_wf i' ∧ n ≤ length buf ∧ (stops P i' = false → n = length buf)
  | (_, Err _) => True
  | (_, Panic) => False
  end.
Proof.
  revert i buf. apply (drive_ind P). intros i buf Hwf IH.
  rewrite drive_unfold by done. pose proof (drive_step_post P i buf Hwf) as Hp.
  destruct (drive_step P i buf) as [i' n|i' n|e|] eqn:E; cbn in Hp; try done.
  - specialize (IH _ _ eq_refl). unfold shift_parsed.
    destruct (drive P i' (drop n buf)) as [i'' [m| |]]; cbn; try done.
    destruct Hp as (? & ? & _). destruct IH as (? & ? & Hs). rewrite length_drop in *.
    split; [done|]. split; [lia|]. intros Hs'%Hs. lia.
  - destruct Hp as [? [[Hs ->]|[Hs ->]]]; (split; [done|]); (split; [lia|]); rewrite Hs; done.
Qed.

(** ** Resumability: the result does not depend on how the input is chunked *)

Definition shift_step (k : nat) (r : drive_step_result) : drive_step_result :=
  match r with
  | DCont i n => DCont i (k + n)
  | DBreak i n => DBreak i (k + n)
  | r => r
  end.

(** The iteration on [buf ++ more], from the iteration on [buf]. *)
Definition step_resume (P : bool) (i : Inner) (buf more : bytes) : drive_step_result :=
  match drive_step P i buf with
  | DBreak i' n =>
      if stops P i' then DBreak i' n else shift_step (length buf) (drive_step P i' more)
  | r => r
  end.

Lemma take_app_min {A : Type} (l k1 k2 : list A) :
  length l ≤ length k1 → take (min (length l) (length (k1 ++ k2))) (k1 ++ k2) =
  take (min (length l) (length k1)) k1.
Proof. intros. rewrite length_app, !Nat.min_l by lia. by rewrite take_app_le. Qed.

Lemma read_token_resume i tok r buf more count next :
  r < length tok →
  read_token i tok r (buf ++ more) count next =
    match read_token i tok r buf count next with
    | DBreak _ n => shift_step (length buf)
        (read_token (set_state i (count (r + n))) tok (r + n) more count next)
    | x => x
    end.
Proof.
  intros Hr. unfold read_token. rewrite !(decide_False (P := length tok < r)) by lia.
  set (rem := drop r tok). assert (length rem = length tok - r) as Hl by apply length_drop.
  destruct (decide (length rem ≤ length buf)) as [Hle|Hgt].
  - rewrite !take_app_min by done. rewrite length_app, !Nat.min_l by lia.
    destruct (decide (take _ rem = take _ buf)); [|done].
    by rewrite decide_False by lia.
  - rewrite (Nat.min_r (length rem) (length buf)) by lia.
    rewrite (take_ge buf (length buf)) by lia.
    destruct (decide (take (length buf) rem = buf)) as [Hb|Hb].
    + rewrite (decide_True (P := length buf < length rem)) by lia.
      rewrite (decide_False (P := length tok < r + length buf)) by lia. rewrite length_app.
      assert (drop (r + length buf) tok = drop (length buf) rem) as ->.
      { unfold rem. by rewrite drop_drop. }
      assert (length rem = length buf + length (drop (length buf) rem)) as Hl2.
      { rewrite length_drop. lia. }
      assert (rem = buf ++ drop (length buf) rem) as Hrem.
      { rewrite <-Hb at 1. by rewrite take_drop. }
      set (rem2 := drop (length buf) rem) in *.
      assert (min (length rem) (length buf + length more) =
              length buf + min (length rem2) (length more)) as -> by lia.
      assert (∀ k, take (length buf + k) rem = buf ++ take k rem2) as Htr.
      { intros k. rewrite Hrem. by apply take_app_add'. }
      rewrite Htr, take_app_add' by done.
      destruct (decide (take (min (length rem2) (length more)) rem2 =
                        take (min (length rem2) (length more)) more)) as [He|He].
      * rewrite decide_True by (by rewrite He).
        repeat case_decide; cbn; try lia; by rewrite ?Nat.add_assoc.
      * rewrite decide_False by (by intros ?%app_inv_head). done.
    + rewrite decide_False; [done|]. intros Ht. apply Hb.
      apply (f_equal (take (length buf))) in Ht. rewrite length_app in Ht.
      rewrite !take_take, take_app_le in Ht by lia.
      rewrite Nat.min_l in Ht by lia. by rewrite (take_ge buf) in Ht by lia.
Qed.

Lemma select_resume i t l buf more again msg :
  select i t l (buf ++ more) again msg =
    match rlookup t l buf with
    | Ok (l', NeedsMore) => shift_step (length buf) (select (set_state i (again l')) t l' more again msg)
    | _ => select i t l buf again msg
    end.
Proof.
  unfold select. rewrite rlookup_resume.
  destruct (rlookup t l buf) as [[l' [n| |n]]| |]; try done. cbn.
  destruct (rlookup t l' more) as [[l2 [m| |m]]| |]; unfold shift_result; cbn; try done.
  - by destruct (get_value t l2).
  - by rewrite length_app.
Qed.

Lemma read_len_resume i v r buf more again next :
  r < 8 → length v = 8 →
  read_len i v r (buf ++ more) again next =
    match read_len i v r buf again next with
    | DBreak _ n => shift_step (length buf)
        (read_len (set_state i (again (take r v ++ buf ++ drop (r + n) v) (r + n)))
           (take r v ++ buf ++ drop (r + n) v) (r + n) more again next)
    | x => x
    end.
Proof.
  intros Hr Hv. unfold read_len.
  rewrite !(decide_False (P := 8 < r ∨ length v ≠ 8)) by (intros [?|?]; lia).
  destruct (decide (length buf < 8 - r)) as [Hlt|Hge].
  - rewrite (Nat.min_l (length buf)) by lia. rewrite (take_ge buf) by lia.
    rewrite (decide_True (P := r + length buf < 8)) by lia.
    set (v' := take r v ++ buf ++ drop (r + length buf) v).
    assert (length v' = 8) as Hv'.
    { unfold v'. rewrite !length_app, length_take, length_drop. lia. }
    rewrite (decide_False (P := 8 < r + length buf ∨ length v' ≠ 8)) by (intros [?|?]; lia).
    rewrite length_app.
    assert (min (length buf + length more) (8 - r) =
            length buf + min (length more) (8 - (r + length buf))) as -> by lia.
    set (m := min (length more) (8 - (r + length buf))).
    rewrite take_app_add' by done.
    assert (take (r + length buf) v' ++ take m more ++ drop (r + length buf + m) v' =
            take r v ++ (buf ++ take m more) ++ drop (r + (length buf + m)) v) as ->.
    { assert (v' = (take r v ++ buf) ++ drop (r + length buf) v) as ->
        by (unfold v'; by rewrite <-app_assoc).
      assert (length (take r v ++ buf) = r + length buf) as Hl.
      { rewrite length_app, length_take. lia. }
      rewrite take_app_length', drop_app_add' by done.
      rewrite drop_drop, <-!app_assoc. do 4 f_equal. lia. }
    rewrite !Nat.add_assoc. by case_decide.
  - rewrite length_app. rewrite !(Nat.min_r _ (8 - r)) by lia.
    rewrite take_app_le by lia. by rewrite !(decide_False (P := r + (8 - r) < 8)) by lia.
Qed.

Lemma skip_resume i rem buf more again :
  (∀ rem', bump_state (set_state i (again rem')) = bump_state i) →
  skip i rem (buf ++ more) again =
    match skip i rem buf again with
    | DBreak _ n => shift_step (length buf)
        (skip (set_state i (again (rem - Z.of_nat (length buf))%Z))
              (rem - Z.of_nat (length buf))%Z more again)
    | x => x
    end.
Proof.
  intros Hb. unfold skip. rewrite Hb, length_app.
  destruct (decide (Z.of_nat (length buf) < rem)%Z) as [H|H].
  - repeat case_decide; try lia; cbn.
    + f_equal. unfold set_state; cbn. do 2 f_equal. lia.
    + destruct (bump_state i); cbn; try done. f_equal. lia.
  - rewrite decide_False by lia. by destruct (bump_state i).
Qed.

Lemma drive_step_resume P i buf more :
  inner_wf i → drive_step P i (buf ++ more) = step_resume P i buf more.
Proof.
  intros Hwf. unfold step_resume, drive_step, inner_wf in *.
  destruct i as [s lv]; cbn in *. destruct s; cbn in *.
  all: try (destruct P; [|done]).
  all: try (case_decide; done).
  all: try done.
  - rewrite read_token_resume by done. unfold read_token at 1 3.
    repeat case_decide; try done.
  - rewrite select_resume. unfold select.
    by destruct (rlookup NODE_SELECT l buf) as [[l' [n| |n]]| |]; try destruct (get_value _ l').
  - destruct Hwf. rewrite read_len_resume by done. unfold read_len at 1 3.
    rewrite !decide_False by (intros [?|?]; lia). case_decide; [|done]. cbn.
    by rewrite Nat.min_l, (take_ge buf) by lia.
  - rewrite skip_resume by done. unfold skip at 1 3. by case_decide.
  - rewrite read_token_resume by done. unfold read_token at 1 3.
    repeat case_decide; try done.
  - destruct Hwf. rewrite read_token_resume by done. unfold read_token at 1 3.
    repeat case_decide; try done.
  - rewrite select_resume. unfold select.
    by destruct (rlookup ENTRY_SELECT l buf) as [[l' [n| |n]]| |]; try destruct (get_value _ l').
  - destruct Hwf as (? & ? & ?). rewrite read_len_resume by done. unfold read_len at 1 3.
    rewrite !decide_False by (intros [?|?]; lia). case_decide; [|done]. cbn.
    by rewrite Nat.min_l, (take_ge buf) by lia.
  - rewrite skip_resume by done. unfold skip at 1 3. by case_decide.
  - destruct Hwf. rewrite read_token_resume by done. unfold read_token at 1 3.
    repeat case_decide; try done.
Qed.

(** The outcome of [drive]: the state is part of it only when it succeeds. *)
Definition run (P : bool) (i : Inner) (buf : bytes) : res io_error (Inner * nat) :=
  match drive P i buf with
  | (i', Ok n) => Ok (i', n)
  | (_, Err e) => Err e
  | (_, Panic) => Panic
  end.

Definition shift_run (k : nat) (r : res io_error (Inner * nat)) : res io_error (Inner * nat) :=
  prod_map id (λ n, k + n) <$> r.
Arguments shift_run : simpl never.

Lemma run_unfold P i buf :
  inner_wf i →
  run P i buf =
    match drive_step P i buf with
    | DCont i' n => shift_run n (run P i' (drop n buf))
    | DBreak i' n => Ok (i', n)
    | DErr e => Err e
    | DPanic => Panic
    end.
Proof.
  intros Hwf. unfold run at 1. rewrite drive_unfold by done.
  destruct (drive_step P i buf) as [i' n| | |]; try done.
  unfold run, shift_parsed, shift_run. by destruct (drive P i' (drop n buf)) as [? []].
Qed.

Lemma shift_run_add j k r : shift_run j (shift_run k r) = shift_run (j + k) r.
Proof. destruct r as [[]| |]; unfold shift_run; cbn; by rewrite ?Nat.add_assoc. Qed.

(** What [drive] does on [buf ++ more], given its outcome on [buf]. *)
Definition run_resume (P : bool) (r : res io_error (Inner * nat)) (buf more : bytes)
    : res io_error (Inner * nat) :=
  match r with
  | Ok (i', n) => if stops P i' then r else shift_run (length buf) (run P i' more)
  | r => r
  end.

Lemma run_app P i buf more :
  inner_wf i → run P i (buf ++ more) = run_resume P (run P i buf) buf more.
Proof.
  revert i buf. apply (drive_ind P). intros i buf Hwf IH.
  rewrite (run_unfold P i (buf ++ more)), (run_unfold P i buf) by done.
  rewrite drive_step_resume by done. unfold step_resume.
  pose proof (drive_step_post P i buf Hwf) as Hp.
  destruct (drive_step P i buf) as [i' n|i' n|e|] eqn:E; cbn in Hp |- *; try done.
  - destruct Hp as (Hi' & Hn & _). rewrite drop_app_le by done. rewrite (IH _ _ eq_refl).
    destruct (run P i' (drop n buf)) as [[i'' m]| |]; unfold shift_run at 2; cbn; try done.
    destruct (stops P i''); [done|]. rewrite shift_run_add, length_drop. f_equal. lia.
  - destruct Hp as [Hi' Hp]. destruct (stops P i') eqn:Hs; [done|].
    rewrite (run_unfold P i' more) by done.
    destruct (drive_step P i' more) as [i2 m|i2 m|e2|]; cbn; try done.
    rewrite drop_app_ge, shift_run_add by lia. do 2 f_equal. f_equal. lia.
Qed.

Lemma run_drive P i buf i' n :
  inner_wf i → run P i buf = Ok (i', n) →
  drive P i buf = (i', Ok n) ∧ inner_wf i' ∧ n ≤ length buf ∧ (stops P i' = false → n = length buf).
Proof.
  intros Hwf Hr. pose proof (drive_wf P i buf Hwf) as Hd. unfold run in Hr.
  destruct (drive P i buf) as [i1 [n1| |]]; by simplify_eq.
Qed.


(** Once [drive] has used up its input, it has nothing to do without more. *)
Lemma run_settled P i buf i' :
  inner_wf i → run P i buf = Ok (i', length buf) → stops P i' = false → run P i' [] = Ok (i', 0).
Proof.
  intros Hwf Hr Hs. pose proof (run_app P i buf [] Hwf) as Ha.
  rewrite app_nil_r, Hr in Ha. cbn in Ha. rewrite Hs in Ha.
  destruct (run P i' []) as [[i2 n2]| |]; unfold shift_run in Ha; cbn in Ha; simplify_eq.
  do 2 f_equal. lia.
Qed.

(** ** Properties *)

(** C24. [drive] is total and safe. From every well-formed state and on every
    buffer, well-formed archive or not, its loop ends, it does not panic, the
    state stays well-formed, it reports at most the bytes it was given, and
    it stops before the end of the buffer only in a state where the caller
    has to act. *)
Theorem drive_safe (P : bool) (i : Inner) (buf : bytes) :
  inner_wf i →
  (∃ r, drive_loop P (drive_fuel buf) i buf 0 = Some r) ∧
  match drive P i buf with
  | (i', Ok n) => inner_wf i' ∧ n ≤ length buf ∧ (stops P i' = false → n = length buf)
  | (_, Err _) => True
  | (_, Panic) => False
  end.
Proof.
  intros Hwf. split; [|by apply drive_wf]. apply drive_loop_enough; [done|].
  unfold drive_measure, drive_fuel. case_match; lia.
Qed.

Lemma drive_safe_witness :
  inner_wf inner_new ∧
  match drive true inner_new (str "garbage") with
  | (i', Ok n) => inner_wf i' ∧ n ≤ 7 ∧ (stops true i' = false → n = 7)
  | (_, Err _) => True
  | (_, Panic) => False
  end.
Proof.
  split; [exact inner_new_wf|].
  destruct (drive_safe true inner_new (str "garbage") inner_new_wf) as [_ H]. exact H.
Defined.

(** Feeding [drive] one buffer after the other, as the readers do. *)
Fixpoint feed (P : bool) (i : Inner) (c : bytes) (cs : list bytes) : res io_error (Inner * nat) :=
  match run P i c with
  | Ok (i', n) =>
      if stops P i' then Ok (i', n) else
      match cs with
      | [] => Ok (i', n)
      | c' :: cs => shift_run n (feed P i' c' cs)
      end
  | r => r
  end.

(** C25. The state machine does not depend on how the input is cut: feeding it
    the pieces one by one, in any number and of any sizes, tokens and lengths
    split at any byte, gives the state, the count and the errors it gives on
    the whole input. *)
Theorem drive_chunk_independent (P : bool) (i : Inner) (c : bytes) (cs : list bytes) :
  inner_wf i → run P i (concat (c :: cs)) = feed P i c cs.
Proof.
  revert i c; induction cs as [|c' cs IH]; intros i c Hwf.
  - cbn [concat]. rewrite app_nil_r. cbn [feed].
    by destruct (run P i c) as [[i' n]| |]; [destruct (stops P i')|..].
  - cbn [concat]. rewrite run_app by done. cbn [feed].
    destruct (run P i c) as [[i' n]| |] eqn:Er; cbn; try done.
    destruct (run_drive P i c i' n Hwf Er) as (_ & Hwf' & _ & Hn).
    destruct (stops P i'); [done|]. rewrite <-(Hn eq_refl). f_equal.
    by rewrite <-(IH i' c' Hwf').
Qed.

Lemma drive_chunk_independent_witness :
  run true inner_new TOK_ROOT =
  feed true inner_new (take 3 TOK_ROOT) [take 20 (drop 3 TOK_ROOT); drop 23 TOK_ROOT].
Proof.
  rewrite <-(drive_chunk_independent true inner_new (take 3 TOK_ROOT)
    [take 20 (drop 3 TOK_ROOT); drop 23 TOK_ROOT] inner_new_wf).
  reflexivity.
Defined.
