(* ===== verification/NarTree.v ===== *)
(** The NAR format: file-system trees, their serialisation as the grammar in
    the header comment of [harmonia-nar/src/archive/read_nar.rs] defines it,
    the event streams ([NarEvent], [harmonia-nar/src/archive/mod.rs]), and the
    proof that the incremental reader accepts every serialised tree. *)

From stdpp Require Import base sets list numbers strings.
From Stdlib Require Import ZArith Lia Strings.Byte.
From S2P Require Import Prelude Async Wire RadixTree NarReader.

(** ** Trees and their serialisation *)

Inductive node : Type :=
| FileNode (executable : bool) (contents : bytes)
| SymlinkNode (target : bytes)
| DirectoryNode (entries : list (bytes * node)).

(** Induction through the entries of a directory. *)
Section node_induction.
Context (Q : node → Prop).
Context (HF : ∀ x c, Q (FileNode x c)).
Context (HS : ∀ g, Q (SymlinkNode g)).
Context (HD : ∀ es, Forall (λ e, Q e.2) es → Q (DirectoryNode es)).

Fixpoint node_rect' (t : node) : Q t :=
  match t with
  | FileNode x c => HF x c
  | SymlinkNode g => HS g
  | DirectoryNode es =>
      HD es ((fix go (es : list (bytes * node)) : Forall (λ e, Q e.2) es :=
        match es with
        | [] => Forall_nil_2 _
        | e :: es => Forall_cons_2 _ e es (node_rect' e.2) (go es)
        end) es)
  end.
End node_induction.

(** The grammar, with [s] for a length-prefixed padded string. *)
Definition s (x : string) : bytes := put_nix_slice (str x).

Fixpoint nar_node (t : node) : bytes :=
  s "(" ++
  match t with
  | FileNode x c =>
      s "type" ++ s "regular" ++ (if x then s "executable" ++ s "" else []) ++
      s "contents" ++ put_nix_slice c
  | SymlinkNode g => s "type" ++ s "symlink" ++ s "target" ++ put_nix_slice g
  | DirectoryNode es =>
      s "type" ++ s "directory" ++
      (fix go (es : list (bytes * node)) : bytes :=
         match es with
         | [] => []
         | (n, t) :: es =>
             s "entry" ++ s "(" ++ s "name" ++ put_nix_slice n ++ s "node" ++ nar_node t ++
             s ")" ++ go es
         end) es
  end ++ s ")".

Definition nar (t : node) : bytes := s "nix-archive-1" ++ nar_node t.

(** ** The same, cut at the reader's tokens *)

Fixpoint node_body (t : node) : bytes :=
  match t with
  | FileNode x c => (if x then TOK_FILE_E else TOK_FILE) ++ put_nix_slice c ++ TOK_PAR
  | SymlinkNode g => TOK_SYM ++ put_nix_slice g ++ TOK_PAR
  | DirectoryNode es =>
      TOK_DIR ++
      (fix go (es : list (bytes * node)) : bytes :=
         match es with
         | [] => []
         | (n, t) :: es =>
             TOK_ENTRY ++ put_nix_slice n ++ TOK_NODE ++ node_body t ++ TOK_PAR ++ go es
         end) es ++ TOK_PAR
  end.

Definition entries_body (es : list (bytes * node)) : bytes :=
  concat ((λ e, TOK_ENTRY ++ put_nix_slice e.1 ++ TOK_NODE ++ node_body e.2 ++ TOK_PAR) <$> es).

Lemma node_body_dir es : node_body (DirectoryNode es) = TOK_DIR ++ entries_body es ++ TOK_PAR.
Proof.
  cbn [node_body]. f_equal. f_equal. unfold entries_body.
  induction es as [|[n t] es IH]; [done|].
  rewrite fmap_cons, concat_cons, IH. cbn [fst snd]. by rewrite <-!app_assoc.
Qed.

Lemma token_strings :
  TOK_ROOT = s "nix-archive-1" ++ s "(" ++ s "type" ∧ TOK_PAR = s ")" ∧
  TOK_ENTRY = s "entry" ++ s "(" ++ s "name" ∧ TOK_NODE = s "node" ++ s "(" ++ s "type" ∧
  TOK_FILE = s "regular" ++ s "contents" ∧
  TOK_FILE_E = s "regular" ++ s "executable" ++ s "" ++ s "contents" ∧
  TOK_SYM = s "symlink" ++ s "target" ∧ TOK_DIR = s "directory".
Proof. repeat split. Qed.

Lemma node_body_spec t : s "(" ++ s "type" ++ node_body t = nar_node t.
Proof.
  destruct token_strings as (_ & HP & HE & HN & HF & HX & HS & HD).
  induction t as [x c|g|es IH] using node_rect'; [destruct x| |rewrite node_body_dir];
    cbn [nar_node node_body]; rewrite ?HF, ?HX, ?HS, ?HD, ?HP, <-!app_assoc; try done.
  do 4 f_equal. unfold entries_body.
  induction IH as [|[n t] es Ht _ IHes]; [done|].
  rewrite fmap_cons, concat_cons, IHes. cbn in Ht.
  cbn [fst snd]. rewrite <-Ht, HE, HN, HP, <-!app_assoc. done.
Qed.

Lemma nar_tokens t : nar t = TOK_ROOT ++ node_body t.
Proof.
  unfold nar. rewrite <-node_body_spec.
  rewrite (proj1 token_strings).
  by rewrite <-!app_assoc.
Qed.

(** Every name, target and file fits a 64-bit aligned length. *)
Fixpoint node_wf (t : node) : Prop :=
  match t with
  | FileNode _ c => alignable (Z.of_nat (length c))
  | SymlinkNode g => alignable (Z.of_nat (length g))
  | DirectoryNode es =>
      (fix go (es : list (bytes * node)) : Prop :=
         match es with
         | [] => True
         | (n, t) :: es => alignable (Z.of_nat (length n)) ∧ node_wf t ∧ go es
         end) es
  end.

Lemma node_wf_dir es :
  node_wf (DirectoryNode es) ↔
  Forall (λ e, alignable (Z.of_nat (length e.1)) ∧ node_wf e.2) es.
Proof.
  cbn. induction es as [|[n t] es IH]; cbn; [by rewrite Forall_nil|].
  rewrite Forall_cons, IH. cbn. tauto.
Qed.

(** ** Events *)

(** A [File] event carries its reader; here, the contents read from it. *)
Inductive NarEvent : Type :=
| EvFile (name : bytes) (executable : bool) (size : Z) (contents : bytes)
| EvSymlink (name target : bytes)
| EvStartDirectory (name : bytes)
| EvEndDirectory.

#[export] Instance NarEvent_eq_dec : EqDecision NarEvent.
Proof. solve_decision. Defined.

Fixpoint events_of (name : bytes) (t : node) : list NarEvent :=
  match t with
  | FileNode x c => [EvFile name x (Z.of_nat (length c)) c]
  | SymlinkNode g => [EvSymlink name g]
  | DirectoryNode es =>
      EvStartDirectory name ::
      (fix go (es : list (bytes * node)) : list NarEvent :=
         match es with
         | [] => []
         | (n, t) :: es => events_of n t ++ go es
         end) es ++ [EvEndDirectory]
  end.

Lemma events_of_dir name es :
  events_of name (DirectoryNode es) =
  EvStartDirectory name :: concat ((λ e, events_of e.1 e.2) <$> es) ++ [EvEndDirectory].
Proof. cbn. do 2 f_equal. induction es as [|[n t] es IH]; cbn; by rewrite ?IH. Qed.

(** ** Consuming a piece of input

    [consumes P i bs i']: from state [i], on any input that starts with [bs],
    [drive] gets to [i'] having parsed [bs], and goes on from there. *)

Definition consumes (P : bool) (i : Inner) (bs : bytes) (i' : Inner) : Prop :=
  inner_wf i' ∧ ∀ rest, run P i (bs ++ rest) = shift_run (length bs) (run P i' rest).

Lemma shift_run_0 r : shift_run 0 r = r.
Proof. by destruct r as [[]| |]. Qed.

Lemma consumes_trans P i bs i' bs' i'' :
  consumes P i bs i' → consumes P i' bs' i'' → consumes P i (bs ++ bs') i''.
Proof.
  intros [_ H1] [? H2]. split; [done|]. intros rest.
  rewrite <-app_assoc, H1, H2, shift_run_add. by rewrite length_app.
Qed.

Lemma consumes_step P i bs i' :
  inner_wf i → inner_wf i' →
  (∀ rest, drive_step P i (bs ++ rest) = DCont i' (length bs)) → consumes P i bs i'.
Proof.
  intros Hi Hi' H. split; [done|]. intros rest. rewrite run_unfold, H by done.
  by rewrite drop_app_length.
Qed.

Lemma read_token_whole i tok rest count next :
  0 < length tok → read_token i tok 0 (tok ++ rest) count next = DCont (set_state i next) (length tok).
Proof.
  intros Ht. unfold read_token. rewrite decide_False by lia. rewrite drop_0, length_app.
  rewrite Nat.min_l by lia. rewrite take_ge, take_app_length by lia.
  by rewrite decide_True, decide_False by (lia || done).
Qed.

Lemma select_whole i t l tok v rest again msg :
  rlookup t l tok = Ok (v.1, Matched (length tok)) → get_value t v.1 = Ok v.2 →
  select i t l (tok ++ rest) again msg = DCont (set_state i v.2) (length tok).
Proof. intros H1 H2. unfold select. rewrite rlookup_resume, H1. cbn. by rewrite H2. Qed.

Lemma read_len_whole i v n rest again next :
  length v = 8 → is_u64 n →
  read_len i v 0 (u64_to_le_bytes n ++ rest) again next = DCont (set_state i (next n)) 8.
Proof.
  intros Hv Hn. unfold read_len. rewrite decide_False by (intros [?|?]; lia).
  rewrite length_app, length_u64_to_le_bytes, Nat.min_r by lia. cbn [Nat.add].
  rewrite decide_False by lia. rewrite take_0, drop_ge by lia.
  rewrite take_app_length' by (symmetry; apply length_u64_to_le_bytes).
  by rewrite app_nil_r, app_nil_l, from_u64_to_le_bytes.
Qed.

Ltac solve_in := repeat first [apply list_elem_of_here | apply list_elem_of_further].

Ltac solve_wf := cbn; rewrite ?Nat.add_0_r; auto using Nat.lt_0_succ; try lia.

Lemma alignable_u64 n : alignable n → is_u64 n.
Proof. unfold alignable, is_u64, u64_max, u64_modulus. lia. Qed.

(** The bytes after a length: content and padding. *)
Definition padded (c : bytes) : bytes :=
  c ++ replicate (calc_padding (Z.of_nat (length c))) Byte.x00.

Lemma put_nix_slice_padded c : put_nix_slice c = u64_to_le_bytes (Z.of_nat (length c)) ++ padded c.
Proof. done. Qed.

Lemma length_padded c :
  alignable (Z.of_nat (length c)) → Z.of_nat (length (padded c)) = calc_aligned (Z.of_nat (length c)).
Proof.
  intros H. unfold padded. rewrite length_app, length_replicate.
  pose proof (calc_padding_alignable _ H). lia.
Qed.

Lemma skip_whole i rem bs rest again i' :
  Z.of_nat (length bs) = rem → bump_state i = Ok i' →
  skip i rem (bs ++ rest) again = DCont i' (length bs).
Proof.
  intros <- Hb. unfold skip. rewrite length_app. rewrite decide_False by lia.
  by rewrite Hb, Nat2Z.id.
Qed.

Section pieces.
Context (P : bool) (lv : nat).

Lemma consumes_root : consumes P inner_new TOK_ROOT (mk_inner (SelectNode RLookup_default) 0).
Proof.
  apply consumes_step; [apply inner_new_wf|apply RLookup_default_wf|].
  intros. unfold drive_step. cbn [state inner_new]. by rewrite read_token_whole by (cbn; lia).
Qed.

Lemma consumes_select_node tok v :
  (tok, v) ∈ NODE_SELECT_tokens →
  consumes P (mk_inner (SelectNode RLookup_default) lv) tok (mk_inner v lv).
Proof.
  intros Hin. apply consumes_step.
  - apply RLookup_default_wf.
  - repeat (apply elem_of_cons in Hin as [[= -> ->]|Hin]); solve_wf. by apply elem_of_nil in Hin.
  - intros rest. unfold drive_step. cbn [state].
    repeat (apply elem_of_cons in Hin as [[= -> ->]|Hin]);
      [rewrite (select_whole _ _ _ _ (Node 1, ReadDir))
      |rewrite (select_whole _ _ _ _ (Node 2, ReadContentsLen NT_Symlink ZEROS 0))
      |rewrite (select_whole _ _ _ _ (Node 4, ReadContentsLen NT_File ZEROS 0))
      |rewrite (select_whole _ _ _ _ (Node 6, ReadContentsLen NT_ExecutableFile ZEROS 0))
      |by apply elem_of_nil in Hin]; by vm_compute.
Qed.

Lemma consumes_select_entry tok v :
  0 < lv → (tok, v) ∈ ENTRY_SELECT_tokens →
  consumes P (mk_inner (ReadEntries RLookup_default) lv) tok (mk_inner v lv).
Proof.
  intros Hlv Hin. apply consumes_step.
  - split; [apply RLookup_default_wf|done].
  - repeat (apply elem_of_cons in Hin as [[= -> ->]|Hin]); solve_wf. by apply elem_of_nil in Hin.
  - intros rest. unfold drive_step. cbn [state].
    repeat (apply elem_of_cons in Hin as [[= -> ->]|Hin]);
      [rewrite (select_whole _ _ _ _ (Node 1, ReadEntryNameLen ZEROS 0))
      |rewrite (select_whole _ _ _ _ (Node 2, FinishReadEntry))
      |by apply elem_of_nil in Hin]; by vm_compute.
Qed.

Lemma consumes_contents_len nt n :
  is_u64 n →
  consumes P (mk_inner (ReadContentsLen nt ZEROS 0) lv) (u64_to_le_bytes n)
    (mk_inner (ReadContents nt n (calc_aligned n)) lv).
Proof.
  intros Hn. apply consumes_step; [cbn; lia|cbn; auto using calc_aligned_u64|].
  intros. unfold drive_step. cbn [state].
  rewrite read_len_whole by done. by rewrite length_u64_to_le_bytes.
Qed.

Lemma consumes_name_len n :
  0 < lv → is_u64 n →
  consumes P (mk_inner (ReadEntryNameLen ZEROS 0) lv) (u64_to_le_bytes n)
    (mk_inner (ReadEntryName n (calc_aligned n)) lv).
Proof.
  intros Hlv Hn. apply consumes_step; [cbn; lia|cbn; auto using calc_aligned_u64|].
  intros. unfold drive_step. cbn [state].
  rewrite read_len_whole by done. by rewrite length_u64_to_le_bytes.
Qed.

Definition after_node : InnerState := if decide (0 < lv) then FinishEntry 0 else Eof.

Lemma consumes_finish_node :
  consumes P (mk_inner (FinishNode 0) lv) TOK_PAR (mk_inner after_node lv).
Proof.
  apply consumes_step; [cbn; lia| |].
  - unfold after_node. case_decide; [|done]. split; [cbn; lia|done].
  - intros. unfold drive_step. cbn [state]. by rewrite read_token_whole by (cbn; lia).
Qed.

Lemma consumes_finish_entry :
  0 < lv → consumes P (mk_inner (FinishEntry 0) lv) TOK_PAR
             (mk_inner (ReadEntries RLookup_default) lv).
Proof.
  intros Hlv. apply consumes_step; [split; [cbn; lia|done]| |].
  - split; [apply RLookup_default_wf|done].
  - intros. unfold drive_step. cbn [state]. by rewrite read_token_whole by (cbn; lia).
Qed.

Lemma consumes_read_node :
  0 < lv → consumes P (mk_inner (ReadNode 0) lv) TOK_NODE
             (mk_inner (SelectNode RLookup_default) lv).
Proof.
  intros Hlv. apply consumes_step; [split; [cbn; lia|done]| |].
  - apply RLookup_default_wf.
  - intros. unfold drive_step. cbn [state]. by rewrite read_token_whole by (cbn; lia).
Qed.
End pieces.

(** ** The skipping reader accepts every serialised tree *)

Lemma consumes_contents_skip nt lv c :
  alignable (Z.of_nat (length c)) →
  consumes true (mk_inner (ReadContentsLen nt ZEROS 0) lv) (put_nix_slice c)
    (mk_inner (FinishNode 0) lv).
Proof.
  intros Hc. rewrite put_nix_slice_padded. eapply consumes_trans.
  { apply consumes_contents_len, alignable_u64, Hc. }
  apply consumes_step; [|cbn; lia|].
  - cbn. auto using alignable_u64, calc_aligned_u64.
  - intros rest. unfold drive_step. cbn [state].
    by erewrite skip_whole by (done || by apply length_padded).
Qed.

Lemma consumes_name_skip lv n :
  0 < lv → alignable (Z.of_nat (length n)) →
  consumes true (mk_inner (ReadEntryNameLen ZEROS 0) lv) (put_nix_slice n)
    (mk_inner (ReadNode 0) lv).
Proof.
  intros Hlv Hn. rewrite put_nix_slice_padded. eapply consumes_trans.
  { apply consumes_name_len, alignable_u64, Hn. done. }
  apply consumes_step; [|split; [cbn; lia|done]|].
  - cbn. auto using alignable_u64, calc_aligned_u64.
  - intros rest. unfold drive_step. cbn [state].
    by erewrite skip_whole by (done || by apply length_padded).
Qed.

Lemma consumes_read_dir lv :
  consumes true (mk_inner ReadDir lv) [] (mk_inner (ReadEntries RLookup_default) (lv + 1)).
Proof.
  apply consumes_step; [done|split; [apply RLookup_default_wf|cbn; lia]|done].
Qed.

(** The state after a whole node; a directory at the root ends with level 1. *)
Definition node_end (t : node) (lv : nat) : Inner :=
  if decide (0 < lv) then mk_inner (FinishEntry 0) lv
  else mk_inner Eof (match t with DirectoryNode _ => 1 | _ => 0 end).

Lemma consumes_finish_read_entry t lv :
  consumes true (mk_inner FinishReadEntry (lv + 1)) [] (node_end (DirectoryNode t) lv).
Proof.
  assert (∀ i, drive_step true (mk_inner FinishReadEntry (lv + 1)) i =
               DCont (node_end (DirectoryNode t) lv) 0) as H.
  { intros i. cbn. unfold node_end.
    destruct (decide (0 < lv)); [rewrite decide_True by lia|rewrite decide_False by lia];
      cbn; unfold set_state; cbn; do 2 f_equal; lia. }
  apply consumes_step; [cbn; lia| |by intros; rewrite H].
  unfold node_end. case_decide; cbn; [lia|done].
Qed.

Lemma consumes_node t lv :
  node_wf t →
  consumes true (mk_inner (SelectNode RLookup_default) lv) (node_body t) (node_end t lv).
Proof.
  revert lv. induction t as [x c|g|es IH] using node_rect'; intros lv Hwf.
  - replace (node_end (FileNode x c) lv) with (mk_inner (after_node lv) lv).
    2: { unfold node_end, after_node. case_decide; [done|]. f_equal. lia. }
    destruct x; cbn [node_body];
      (eapply consumes_trans; [apply consumes_select_node; solve_in|]);
      (eapply consumes_trans; [by apply consumes_contents_skip|]); apply consumes_finish_node.
  - replace (node_end (SymlinkNode g) lv) with (mk_inner (after_node lv) lv).
    2: { unfold node_end, after_node. case_decide; [done|]. f_equal. lia. }
    cbn [node_body].
    eapply consumes_trans; [apply consumes_select_node; solve_in|].
    eapply consumes_trans; [by apply consumes_contents_skip|]. apply consumes_finish_node.
  - rewrite node_body_dir. apply node_wf_dir in Hwf.
    eapply consumes_trans; [apply consumes_select_node; solve_in|].
    rewrite <-(app_nil_l (entries_body es ++ TOK_PAR)).
    eapply consumes_trans; [apply consumes_read_dir|].
    eapply consumes_trans.
    + instantiate (1 := mk_inner (ReadEntries RLookup_default) (lv + 1)).
      induction es as [|[n t] es IHes].
      { split; [split; [apply RLookup_default_wf|cbn; lia]|].
        intros. cbn. by rewrite shift_run_0. }
      apply Forall_cons in IH as [IHt IH], Hwf as [[Hn Ht] Hwf]. cbn in IHt, Hn, Ht.
      unfold entries_body. rewrite fmap_cons, concat_cons. cbn [fst snd].
      eapply consumes_trans; [|by apply IHes].
      eapply consumes_trans;
        [apply consumes_select_entry; [lia|solve_in]|].
      eapply consumes_trans; [apply consumes_name_skip; [lia|done]|].
      eapply consumes_trans; [apply consumes_read_node; lia|].
      eapply consumes_trans; [by apply IHt|].
      unfold node_end. rewrite decide_True by lia. apply consumes_finish_entry. lia.
    + rewrite <-(app_nil_r TOK_PAR).
      eapply consumes_trans; [apply consumes_select_entry; [lia|solve_in]|].
      apply consumes_finish_read_entry.
Qed.

Lemma consumes_nar t : node_wf t → consumes true inner_new (nar t) (node_end t 0).
Proof.
  intros Hwf. rewrite nar_tokens. eapply consumes_trans; [apply consumes_root|].
  by apply consumes_node.
Qed.

Lemma run_eof P i buf : state i = Eof → run P i buf = Ok (i, 0).
Proof.
  intros H. rewrite run_unfold by (unfold inner_wf; by rewrite H).
  unfold drive_step. by rewrite H.
Qed.

(** ** Properties *)

(** The reader recognises every archive: on the serialisation of a tree
    followed by anything, it parses exactly the bytes of the archive and ends
    in the state [Eof]. *)
Theorem reader_accepts_nar (t : node) (junk : bytes) :
  node_wf t →
  ∃ i, drive true inner_new (nar t ++ junk) = (i, Ok (length (nar t))) ∧ is_eof i = true.
Proof.
  intros Hwf. exists (node_end t 0). destruct (consumes_nar t Hwf) as [_ Hc].
  specialize (Hc junk). rewrite (run_eof true (node_end t 0)) in Hc by reflexivity.
  unfold shift_run in Hc. cbn in Hc. rewrite Nat.add_0_r in Hc.
  destruct (run_drive true inner_new (nar t ++ junk) _ _ inner_new_wf Hc) as [E _]. by rewrite E.
Qed.

Lemma reader_accepts_nar_witness :
  let t := DirectoryNode [(str "a", FileNode true (str "hello")); (str "b", SymlinkNode (str "a"))] in
  ∃ i, drive true inner_new (nar t ++ str "tail") = (i, Ok (length (nar t))) ∧ is_eof i = true.
Proof.
  intros t. apply (reader_accepts_nar t (str "tail")).
  cbn. unfold alignable, u64_max, u64_modulus. cbn. lia.
Defined.
