(* ===== verification/NarWriter.v ===== *)
(** The NAR writer ([harmonia-nar/src/archive/writer.rs]): a [Sink] of events
    with an internal buffer, writing to an [AsyncWrite] that may accept part
    of a buffer, or none of it yet ([Pending]). *)

From stdpp Require Import base list numbers strings.
From Stdlib Require Import ZArith Lia Strings.Byte.
From S2P Require Import Prelude Async Wire Sink NarReader NarTree.

(** ** The writer's state *)

Inductive WState : Type := WReady | WFlushing (cnt : nat) | WEof.

(** The reader of a file's contents: the non-empty buffers [poll_fill_buf]
    returns, in order. *)
Record NarWriter (W : Type) : Type := mk_writer {
  wstate : WState;
  buffer : bytes;
  cutoff : nat;
  wreader : option (list bytes);
  wlevel : nat;
  wout : W
}.
Arguments mk_writer {W}.
Arguments wstate {W}.
Arguments buffer {W}.
Arguments cutoff {W}.
Arguments wreader {W}.
Arguments wlevel {W}.
Arguments wout {W}.

(** [DEFAULT_RESERVED_BUF_SIZE]. *)
Definition DEFAULT_RESERVED_BUF_SIZE : nat := Z.to_nat 8192.

Definition is_flushing (st : WState) : bool := match st with WFlushing _ => true | _ => false end.

Definition par_tail (lv : nat) : bytes := TOK_PAR ++ (if decide (lv = 0) then [] else TOK_PAR).

(** [Sink::start_send]'s items. The contents of a file come in the buffers
    [chunks]. *)
Inductive WEvent : Type :=
| WFile (name : bytes) (executable : bool) (size : Z) (chunks : list bytes)
| WSymlink (name target : bytes)
| WStartDirectory (name : bytes)
| WEndDirectory.

Definition entry_head (lv : nat) (name : bytes) : bytes :=
  if decide (0 < lv) then TOK_ENTRY ++ put_nix_slice name ++ TOK_NODE else [].

Arguments par_tail : simpl never.

Section writer.
Context {W : Type} {AW : AsyncWrite W} {AWL : AsyncWriteLaws W}.
Abbreviation NarWriter := (NarWriter W).

Definition writer_new (w : W) : NarWriter :=
  mk_writer WReady [] DEFAULT_RESERVED_BUF_SIZE None 0 w.

(** The loop over the reader; an empty buffer is the end. A writer that keeps
    its laws takes a byte in every round. *)
Fixpoint copy_loop (fuel : nat) (r : list bytes) (w : W) : list bytes * W * polled unit :=
  match r, fuel with
  | [], _ | [] :: _, _ => (r, w, Ready (Ok tt))
  | _, O => (r, w, Pending)
  | c :: r', S fuel =>
      match aw_poll_write w c with
      | (w, Pending) => (r, w, Pending)
      | (w, Ready (Ok n)) =>
          copy_loop fuel (match drop n c with [] => r' | c' => c' :: r' end) w
      | (w, Ready (Err e)) => (r, w, Ready (Err e))
      | (w, Ready Panic) => (r, w, Ready Panic)
      end
  end.

Definition copy_fuel (r : list bytes) : nat := length (concat r).

(** [Sink::poll_ready]. *)
Definition poll_ready (x : NarWriter) : NarWriter * poll (res io_error unit) :=
  let st :=
    if negb (is_flushing (wstate x)) && bool_decide (cutoff x < length (buffer x))
    then WFlushing 0 else wstate x in
  let idle := if decide (wlevel x = 0) then WEof else WReady in
  let '(st, buf, w, p) :=
    match st with
    | WFlushing cnt =>
        match flush_loop "wrote zero bytes" (length (buffer x)) (buffer x) (wout x) with
        | (buf, w, Ready (Ok _)) => (idle, buf ++ replicate cnt Byte.x00, w, Ready (Ok tt))
        | (buf, w, p) => (st, buf, w, p)
        end
    | _ => (st, buffer x, wout x, Ready (Ok tt))
    end in
  match p with
  | Ready (Ok _) =>
      match wreader x with
      | None => (mk_writer st buf (cutoff x) None (wlevel x) w, Ready (Ok tt))
      | Some r =>
          match copy_loop (copy_fuel r) r w with
          | (_, w, Ready (Ok _)) =>
              (mk_writer (if decide (wlevel x = 0) then WEof else st)
                 (buf ++ par_tail (wlevel x)) (cutoff x) None (wlevel x) w, Ready (Ok tt))
          | (r, w, p) => (mk_writer st buf (cutoff x) (Some r) (wlevel x) w, p)
          end
      end
  | p => (mk_writer st buf (cutoff x) (wreader x) (wlevel x) w, p)
  end.

(** [Sink::start_send]. *)
Definition start_send (x : NarWriter) (item : WEvent) : res io_error NarWriter :=
  let lv := wlevel x in
  let buf := buffer x ++ (if decide (lv = 0) then TOK_ROOT else []) in
  let ended := if decide (lv = 0) then WEof else wstate x in
  match item with
  | WFile name x_ size chunks =>
      Ok (mk_writer (WFlushing (calc_padding size))
            (buf ++ entry_head lv name ++ (if x_ then TOK_FILE_E else TOK_FILE) ++
             u64_to_le_bytes size)
            (cutoff x) (Some chunks) lv (wout x))
  | WSymlink name target =>
      Ok (mk_writer ended
            (buf ++ entry_head lv name ++ TOK_SYM ++ put_nix_slice target ++ par_tail lv)
            (cutoff x) (wreader x) lv (wout x))
  | WStartDirectory name =>
      Ok (mk_writer (wstate x) (buf ++ entry_head lv name ++ TOK_DIR)
            (cutoff x) (wreader x) (lv + 1) (wout x))
  | WEndDirectory =>
      match lv with
      | O => Panic
      | S lv' =>
          Ok (mk_writer (if decide (lv' = 0) then WEof else wstate x)
                (buf ++ par_tail lv') (cutoff x) (wreader x) lv' (wout x))
      end
  end.

(** Polling again after [Pending]; every [Pending] uses up patience. *)
Fixpoint until_ready (fuel : nat) (x : NarWriter) : NarWriter * poll (res io_error unit) :=
  match poll_ready x with
  | (x, Pending) =>
      match fuel with O => (x, Pending) | S fuel => until_ready fuel x end
  | r => r
  end.

Definition ready_fuel (x : NarWriter) : nat := wr_patience (wout x).

(** [poll_flush_buf], polled until it is ready. *)
Fixpoint flush_buf (fuel : nat) (x : NarWriter) : res io_error NarWriter :=
  match fuel with
  | O => Panic
  | S fuel =>
      match until_ready (ready_fuel x) x with
      | (x, Ready (Ok _)) =>
          match buffer x with
          | [] => Ok x
          | _ => flush_buf fuel (mk_writer (WFlushing 0) (buffer x) (cutoff x) (wreader x)
                                  (wlevel x) (wout x))
          end
      | (_, Ready (Err e)) => Err e
      | _ => Panic
      end
  end.

(** [SinkExt::send_all]: [poll_ready], then [start_send], for every item. *)
Fixpoint send_all (x : NarWriter) (items : list WEvent) : res io_error NarWriter :=
  match items with
  | [] => Ok x
  | item :: items =>
      match until_ready (ready_fuel x) x with
      | (x, Ready (Ok _)) => x ← start_send x item; send_all x items
      | (_, Ready (Err e)) => Err e
      | _ => Panic
      end
  end.

(** [write_nar]: send the events, then close. *)
Definition write_nar (w : W) (items : list WEvent) : res io_error bytes :=
  x ← send_all (writer_new w) items;
  x ← flush_buf 3 x;
  mret (wr_written (wout x)).

(** ** What the writer has still to write *)

Definition pending (x : NarWriter) : bytes :=
  let content := concat (default [] (wreader x)) in
  let tail := if wreader x is Some _ then par_tail (wlevel x) else [] in
  match wstate x with
  | WFlushing cnt => buffer x ++ content ++ replicate cnt Byte.x00 ++ tail
  | _ => content ++ buffer x ++ tail
  end.

Definition logical (x : NarWriter) : bytes := wr_written (wout x) ++ pending x.

Definition writer_inv (x : NarWriter) : Prop :=
  wr_inv (wout x) ∧ 8 ≤ cutoff x ∧ Forall (λ c, c ≠ []) (default [] (wreader x)) ∧
  match wstate x with
  | WFlushing cnt => cnt < 8
  | _ => is_Some (wreader x) → length (buffer x) < 8
  end.

Lemma copy_loop_spec fuel r w r' w' p :
  wr_inv w → Forall (λ c, c ≠ []) r → length (concat r) ≤ fuel → copy_loop fuel r w = (r', w', p) →
  wr_inv w' ∧ Forall (λ c, c ≠ []) r' ∧ wr_written w' ++ concat r' = wr_written w ++ concat r ∧
  wr_patience w' ≤ wr_patience w ∧
  match p with
  | Pending => wr_patience w' < wr_patience w
  | Ready (Ok _) => r' = []
  | _ => False
  end.
Proof.
  revert r w; induction fuel as [|fuel IH]; intros r w Hs Hr Hl.
  - destruct Hr as [|c r Hc Hr]; [intros [= <- <- <-]; auto 6|]. destruct c; [done|cbn in Hl; lia].
  - destruct Hr as [|c r Hc Hr]; [intros [= <- <- <-]; auto 6|].
    destruct c as [|b c]; [done|]. cbn [copy_loop]. set (k := b :: c) in *.
    destruct (aw_poll_write w k) as [w1 p1] eqn:E.
    apply aw_poll_write_law in E as (Hs1 & Hpat & Hp); [|done|done].
    destruct p1 as [[n|e|]|]; try done.
    2: { intros [= <- <- <-]. destruct Hp as [-> ?]. repeat split; try done; by constructor. }
    destruct Hp as [Hw Hn]. cbn [concat] in Hl. rewrite length_app in Hl. intros E.
    assert (concat match drop n k with [] => r | c' => c' :: r end = drop n k ++ concat r) as Hcc
      by (by destruct (drop n k)).
    apply IH in E as (? & ? & Heq & ? & Hp); [|done| |].
    + split; [done|]. split; [done|]. split; [|split; [lia|]].
      * cbn [concat]. by rewrite Heq, Hw, Hcc, <-app_assoc, (app_assoc (take n k)), take_drop.
      * destruct p as [[]|]; [done..|lia].
    + destruct (drop n k); [done|]. by constructor.
    + rewrite Hcc, length_app, length_drop. lia.
Qed.

(** ** One poll keeps what is to be written and makes progress *)

(** Draining the buffer, with nothing behind it. *)
Definition draining (x : NarWriter) : Prop := wreader x = None ∧ wstate x = WFlushing 0.

Definition ready_post (x x' : NarWriter) (p : poll (res io_error unit)) : Prop :=
  writer_inv x' ∧ logical x' = logical x ∧ wlevel x' = wlevel x ∧
  match p with
  | Pending => wr_patience (wout x') < wr_patience (wout x) ∧ (draining x → draining x')
  | Ready (Ok _) => wreader x' = None ∧ is_flushing (wstate x') = false ∧
      (draining x → buffer x' = [])
  | _ => False
  end.

(** The first half of [poll_ready]: flushing the buffer. *)
Definition flush_part (x : NarWriter) : WState * bytes * W * poll (res io_error unit) :=
  let st :=
    if negb (is_flushing (wstate x)) && bool_decide (cutoff x < length (buffer x))
    then WFlushing 0 else wstate x in
  let idle := if decide (wlevel x = 0) then WEof else WReady in
  match st with
  | WFlushing cnt =>
      match flush_loop "wrote zero bytes" (length (buffer x)) (buffer x) (wout x) with
      | (buf, w, Ready (Ok _)) => (idle, buf ++ replicate cnt Byte.x00, w, Ready (Ok tt))
      | (buf, w, p) => (st, buf, w, p)
      end
  | _ => (st, buffer x, wout x, Ready (Ok tt))
  end.

Definition with_flush (x : NarWriter) (st : WState) (buf : bytes) (w : W) : NarWriter :=
  mk_writer st buf (cutoff x) (wreader x) (wlevel x) w.

Lemma flush_part_spec x st buf w p :
  writer_inv x → flush_part x = (st, buf, w, p) →
  writer_inv (with_flush x st buf w) ∧ logical (with_flush x st buf w) = logical x ∧
  wr_patience w ≤ wr_patience (wout x) ∧
  match p with
  | Pending => wr_patience w < wr_patience (wout x) ∧ (draining x → st = WFlushing 0)
  | Ready (Ok _) => is_flushing st = false ∧ (draining x → buf = [])
  | _ => False
  end.
Proof.
  intros (Hs & Hc & Hne & Hst). unfold flush_part.
  set (st0 := if negb _ && _ then WFlushing 0 else wstate x).
  assert (logical (with_flush x st0 (buffer x) (wout x)) = logical x ∧
          writer_inv (with_flush x st0 (buffer x) (wout x)) ∧ (draining x → st0 = WFlushing 0))
    as (Hlog & Hinv & Hdr).
  { unfold st0, draining. destruct (wstate x) eqn:Ew; cbn.
    2: { unfold logical, pending, writer_inv; cbn. rewrite Ew. naive_solver. }
    all: case_bool_decide as Hb; cbn.
    all: unfold logical, pending, writer_inv; cbn; rewrite Ew.
    all: repeat split; try done; try lia; try naive_solver.
    all: destruct (wreader x); cbn; [|by rewrite ?app_nil_l, ?app_nil_r].
    all: exfalso; specialize (Hst ltac:(done)); lia. }
  destruct st0 as [|cnt|] eqn:Est.
  - intros [= <- <- <- <-]. naive_solver.
  - destruct (flush_loop _ _ _ _) as [[buf' w'] p'] eqn:E.
    apply flush_loop_law in E as (Hs' & (kk & Hkk & Heq0) & Hle & Hp); [|done|done].
    assert (wr_written w' ++ buf' = wr_written (wout x) ++ buffer x) as Heq
      by (by rewrite Hkk, <-app_assoc, Heq0).
    destruct p' as [[]|]; try done; intros [= <- <- <- <-].
    + subst buf'. rewrite app_nil_r in Heq. unfold logical, pending, writer_inv in *. cbn in *.
      destruct Hinv as (_ & _ & _ & Hcnt). split; [|split; [|split; [done|]]].
      * split; [done|]. split; [done|]. split; [done|]. rewrite length_replicate. by case_decide.
      * rewrite <-Hlog. rewrite Heq. by case_decide; rewrite <-!app_assoc.
      * split; [by case_decide|]. intros Hd. specialize (Hdr Hd). by injection Hdr as ->.
    + unfold logical, pending, writer_inv in *. cbn in *.
      destruct Hinv as (_ & _ & _ & Hcnt). split; [done|]. split; [|done].
      by rewrite <-Hlog, !app_assoc, Heq.
  - intros [= <- <- <- <-]. naive_solver.
Qed.

Lemma poll_ready_spec x x' p :
  writer_inv x → poll_ready x = (x', p) → ready_post x x' p.
Proof.
  intros Hinv E. unfold poll_ready in E. fold (flush_part x) in E.
  destruct (flush_part x) as [[[st buf] w] p1] eqn:Ef.
  apply flush_part_spec in Ef as (Hinv' & Hlog & Hle & Hp); [|done].
  destruct p1 as [[|e|]|]; try done.
  - destruct Hp as [Hst Hdr]. destruct (wreader x) as [r|] eqn:Er.
    + destruct (copy_loop _ _ _) as [[r' w'] p2] eqn:Ec.
      destruct Hinv' as (Hs' & Hc' & Hne' & Hb). cbn in Hne'. rewrite Er in Hne'.
      apply copy_loop_spec in Ec as (Hs2 & Hne2 & Heq & Hle2 & Hp2); [|done..].
      unfold logical, pending, with_flush in Hlog. cbn in Hlog, Hb. rewrite Er in Hlog, Hb.
      destruct p2 as [[u|e|]|]; try done; injection E as <- <-.
      * subst r'. rewrite app_nil_r in Heq. unfold ready_post, writer_inv, logical. cbn.
        split; [|split; [|split; [done|]]].
        -- split; [done|]. split; [done|]. split; [constructor|]. case_decide; [by intros [? ?]|].
           destruct st; try done; by intros [? ?].
        -- unfold pending. rewrite Er. cbn. cbn in Hlog. rewrite <-Hlog, Heq.
           rewrite app_nil_r. case_decide; destruct st; try done; by rewrite <-!app_assoc.
        -- split; [done|]. split; [by case_decide|]. unfold draining. rewrite Er. naive_solver.
      * unfold ready_post, writer_inv, logical, draining. cbn. split; [|split; [|split; [done|]]].
        -- split; [done|]. split; [done|]. split; [done|]. destruct st; [|done|]; intros _; by apply Hb.
        -- unfold pending. rewrite Er. cbn. cbn in Hlog. rewrite <-Hlog.
           destruct st; try done; by rewrite !app_assoc, Heq.
        -- split; [lia|]. rewrite Er. naive_solver.
    + injection E as <- <-. unfold with_flush in *. rewrite Er in Hinv', Hlog.
      unfold ready_post. cbn. auto 6.
  - destruct Hp as [Hlt Hdr]. injection E as <- <-. unfold ready_post, draining.
    split; [done|]. split; [done|]. split; [done|]. split; [done|].
    intros [H1 H2]. split; [done|]. by apply Hdr.
Qed.

(** ** Polling until ready, and sending *)

Lemma until_ready_spec fuel x x' p :
  writer_inv x → wr_patience (wout x) ≤ fuel → until_ready fuel x = (x', p) →
  writer_inv x' ∧ logical x' = logical x ∧ wlevel x' = wlevel x ∧
  p = Ready (Ok tt) ∧ wreader x' = None ∧ is_flushing (wstate x') = false ∧
  (draining x → buffer x' = []).
Proof.
  revert x; induction fuel as [|fuel IH]; intros x Hinv Hf;
    cbn [until_ready]; destruct (poll_ready x) as [x1 p1] eqn:Ep;
    apply poll_ready_spec in Ep as (Hi1 & Hl1 & Hv1 & Hp1); try done;
    destruct p1 as [[[]|e|]|]; try done.
  - intros [= <- <-]. naive_solver.
  - lia.
  - intros [= <- <-]. naive_solver.
  - destruct Hp1 as [Hlt Hd]. intros E. apply IH in E; [|done|lia].
    rewrite Hl1, Hv1 in E. naive_solver.
Qed.

(** The writer is idle: nothing held back behind the buffer. *)
Definition idle (x : NarWriter) : Prop :=
  writer_inv x ∧ wreader x = None ∧ is_flushing (wstate x) = false.

Lemma until_ready_idle x :
  writer_inv x →
  ∃ x', until_ready (ready_fuel x) x = (x', Ready (Ok tt)) ∧ idle x' ∧
    logical x' = logical x ∧ wlevel x' = wlevel x ∧ (draining x → buffer x' = []).
Proof.
  intros Hinv. destruct (until_ready _ x) as [x' p] eqn:E.
  apply until_ready_spec in E as (? & ? & ? & -> & ? & ? & ?); [|done|done].
  exists x'. unfold idle. auto 8.
Qed.

(** ** Sending events *)

(** [w] is the event [e] with the contents of a file behind a reader, which
    hands them out in non-empty buffers of any sizes. *)
Inductive carries : NarEvent → WEvent → Prop :=
| carries_file name x c chunks :
    concat chunks = c → Forall (λ k, k ≠ []) chunks →
    carries (EvFile name x (Z.of_nat (length c)) c) (WFile name x (Z.of_nat (length c)) chunks)
| carries_symlink name g : carries (EvSymlink name g) (WSymlink name g)
| carries_start name : carries (EvStartDirectory name) (WStartDirectory name)
| carries_end : carries EvEndDirectory WEndDirectory.

(** What an event adds to the output, and the level after it. *)
Definition event_bytes (lv : nat) (e : NarEvent) : bytes :=
  (if decide (lv = 0) then TOK_ROOT else []) ++
  match e with
  | EvFile name x _ c =>
      entry_head lv name ++ (if x then TOK_FILE_E else TOK_FILE) ++ put_nix_slice c ++ par_tail lv
  | EvSymlink name g => entry_head lv name ++ TOK_SYM ++ put_nix_slice g ++ par_tail lv
  | EvStartDirectory name => entry_head lv name ++ TOK_DIR
  | EvEndDirectory => par_tail (lv - 1)
  end.

Definition event_level (lv : nat) (e : NarEvent) : nat :=
  match e with EvStartDirectory _ => lv + 1 | EvEndDirectory => lv - 1 | _ => lv end.

Definition event_ok (lv : nat) (e : NarEvent) : Prop :=
  match e with EvEndDirectory => 0 < lv | _ => True end.

Lemma logical_idle x : idle x → logical x = wr_written (wout x) ++ buffer x.
Proof.
  intros (_ & Hr & Hf). unfold logical, pending. rewrite Hr. cbn.
  destruct (wstate x); [by rewrite app_nil_r|done|by rewrite app_nil_r].
Qed.

Lemma start_send_spec x e w :
  idle x → carries e w → event_ok (wlevel x) e →
  ∃ x', start_send x w = Ok x' ∧ writer_inv x' ∧
    logical x' = logical x ++ event_bytes (wlevel x) e ∧ wlevel x' = event_level (wlevel x) e.
Proof.
  intros Hidle Hc Hok. rewrite (logical_idle x Hidle).
  destruct Hidle as ((Hs & Hcut & _ & _) & Hr & Hf).
  destruct Hc as [name ex c chunks Hch Hne|name g|name|]; unfold start_send; cbn zeta.
  - eexists; split; [done|]. split; [|split; [|done]].
    + split; [done|]. split; [done|]. split; [done|]. cbn. apply calc_padding_lt_8.
    + unfold logical, pending, event_bytes, put_nix_slice. cbn. rewrite Hch.
      by rewrite <-!app_assoc.
  - eexists; split; [done|]. split; [|split; [|done]].
    + split; [done|]. split; [done|]. cbn. rewrite Hr. split; [constructor|].
      by case_decide; destruct (wstate x).
    + unfold logical, pending, event_bytes. cbn. rewrite Hr. cbn.
      case_decide; destruct (wstate x); try done; by rewrite ?app_nil_r, <-!app_assoc.
  - eexists; split; [done|]. split; [|split; [|done]].
    + split; [done|]. split; [done|]. cbn. rewrite Hr. split; [constructor|].
      by destruct (wstate x).
    + unfold logical, pending, event_bytes. cbn. rewrite Hr. cbn.
      case_decide; destruct (wstate x); try done; by rewrite ?app_nil_r, <-!app_assoc.
  - cbn in Hok. destruct (wlevel x) as [|lv] eqn:El; [lia|].
    eexists; split; [done|]. cbn. rewrite Nat.sub_0_r. split; [|split; [|done]].
    + split; [done|]. split; [done|]. cbn. rewrite Hr. split; [constructor|].
      by case_decide; destruct (wstate x).
    + unfold logical, pending, event_bytes. cbn. rewrite Hr. cbn. rewrite Nat.sub_0_r.
      case_decide; destruct (wstate x); try done; by rewrite ?app_nil_r, <-?app_assoc.
Qed.

(** One [poll_ready], polled until it is ready, followed by [start_send]. *)
Lemma send_all_cons x e w ws :
  writer_inv x → carries e w → event_ok (wlevel x) e →
  ∃ x', send_all x (w :: ws) = send_all x' ws ∧ writer_inv x' ∧
    logical x' = logical x ++ event_bytes (wlevel x) e ∧ wlevel x' = event_level (wlevel x) e.
Proof.
  intros Hinv Hc Hok. destruct (until_ready_idle x Hinv) as (x1 & Hu & Hi & Hl & Hv & _).
  rewrite <-Hv in Hok. destruct (start_send_spec x1 e w Hi Hc Hok) as (x2 & Hs & ? & Hl2 & Hv2).
  exists x2. cbn [send_all]. rewrite Hu, Hs. cbn. rewrite <-Hl, <-Hv. auto.
Qed.

(** A list of events carried by a list of items takes the writer from [x] to
    a state at level [lv] with [out] added to its output. *)
Definition sends (es : list NarEvent) (lv lv' : nat) (out : bytes) : Prop :=
  ∀ x ws ws', writer_inv x → wlevel x = lv → Forall2 carries es ws →
  ∃ x', send_all x (ws ++ ws') = send_all x' ws' ∧ writer_inv x' ∧
    logical x' = logical x ++ out ∧ wlevel x' = lv'.

Lemma sends_nil lv : sends [] lv lv [].
Proof. intros x ws ws' ? ? Hf. inversion Hf; subst. exists x. by rewrite app_nil_r. Qed.

Lemma sends_one e lv : event_ok lv e → sends [e] lv (event_level lv e) (event_bytes lv e).
Proof.
  intros Hok x ws ws' Hi <- Hf. inversion Hf as [|? w ? ws0 Hc Hf']; subst. inversion Hf'; subst.
  cbn [app]. by apply send_all_cons.
Qed.

Lemma sends_app es1 es2 lv lv1 lv2 o1 o2 :
  sends es1 lv lv1 o1 → sends es2 lv1 lv2 o2 → sends (es1 ++ es2) lv lv2 (o1 ++ o2).
Proof.
  intros H1 H2 x ws ws' Hi Hl Hf. apply Forall2_app_inv_l in Hf as (w1 & w2 & Hf1 & Hf2 & ->).
  destruct (H1 x w1 (w2 ++ ws') Hi Hl Hf1) as (x1 & E1 & Hi1 & Hlog1 & Hv1).
  destruct (H2 x1 w2 ws' Hi1 Hv1 Hf2) as (x2 & E2 & Hi2 & Hlog2 & Hv2).
  exists x2. rewrite <-app_assoc, E1, E2, Hlog2, Hlog1, <-app_assoc. auto.
Qed.

Definition node_out (lv : nat) (name : bytes) (t : node) : bytes :=
  (if decide (lv = 0) then TOK_ROOT else []) ++ entry_head lv name ++ node_body t ++
  (if decide (lv = 0) then [] else TOK_PAR).

Lemma sends_node t : ∀ name lv, sends (events_of name t) lv lv (node_out lv name t).
Proof.
  induction t as [x c|g|es IH] using node_rect'; intros name lv.
  - cbn [events_of]. assert (node_out lv name (FileNode x c) =
      event_bytes lv (EvFile name x (Z.of_nat (length c)) c)) as ->.
    { unfold node_out, event_bytes, par_tail. cbn [node_body]. by rewrite <-!app_assoc. }
    by apply sends_one.
  - cbn [events_of]. assert (node_out lv name (SymlinkNode g) =
      event_bytes lv (EvSymlink name g)) as ->.
    { unfold node_out, event_bytes, par_tail. cbn [node_body]. by rewrite <-!app_assoc. }
    by apply sends_one.
  - rewrite events_of_dir.
    assert (node_out lv name (DirectoryNode es) =
      event_bytes lv (EvStartDirectory name) ++ entries_body es ++
      event_bytes (lv + 1) EvEndDirectory) as ->.
    { unfold node_out, event_bytes, par_tail. rewrite node_body_dir, <-!app_assoc.
      rewrite Nat.add_sub, (decide_False (P := lv + 1 = 0)) by lia. done. }
    apply (sends_app [_] _ _ (lv + 1)); [by apply (sends_one (EvStartDirectory name))|].
    eapply (sends_app _ _ _ (lv + 1)).
    + unfold entries_body. induction IH as [|[n t] es Ht _ IHes]; [apply sends_nil|].
      rewrite !fmap_cons, !concat_cons. eapply sends_app; [|exact IHes].
      cbn [fst snd] in *. specialize (Ht n (lv + 1)). unfold node_out, entry_head in Ht.
      rewrite !(decide_False (P := lv + 1 = 0)), decide_True in Ht by lia.
      revert Ht. rewrite ?app_nil_l, <-!app_assoc. done.
    + rewrite <-(Nat.add_sub lv 1) at 2. apply (sends_one EvEndDirectory). cbn. lia.
Qed.

(** ** Closing *)

Lemma flush_buf_closed n x :
  writer_inv x →
  ∃ x', flush_buf (S (S n)) x = Ok x' ∧ wr_written (wout x') = logical x ∧
    writer_inv x' ∧ logical x' = logical x ∧ wlevel x' = wlevel x.
Proof.
  intros Hinv. destruct (until_ready_idle x Hinv) as (x1 & Hu & Hi & Hl & Hv & _).
  rewrite <-Hl, (logical_idle x1 Hi).
  assert (∃ c b, buffer x1 = c :: b ∨ buffer x1 = []) as (c & b & Hb).
  { destruct (buffer x1) as [|c b]; [exists Byte.x00, []; by right|exists c, b; by left]. }
  destruct Hb as [Hb|Hb].
  - set (y := mk_writer (WFlushing 0) (buffer x1) (cutoff x1) (wreader x1) (wlevel x1) (wout x1)).
    assert (writer_inv y) as Hy.
    { destruct Hi as ((? & ? & ? & _) & _). repeat split; try done. cbn. lia. }
    assert (draining y) as Hd by (split; [apply Hi|done]).
    destruct (until_ready_idle y Hy) as (x2 & Hu2 & Hi2 & Hl2 & Hv2 & Hd2). specialize (Hd2 Hd).
    assert (logical y = wr_written (wout x1) ++ buffer x1) as Hly.
    { unfold logical, pending, y. cbn. destruct Hi as (_ & -> & _). cbn. by rewrite app_nil_r. }
    exists x2. split; [|split; [|split; [apply Hi2|split; [congruence|]]]].
    + cbn [flush_buf]. rewrite Hu, Hb. rewrite <-Hb. fold y. by rewrite Hu2, Hd2.
    + rewrite (logical_idle x2 Hi2), Hd2, app_nil_r in Hl2. congruence.
    + rewrite Hv2. exact Hv.
  - exists x1. cbn [flush_buf]. rewrite Hu, Hb, app_nil_r.
    split; [done|]. split; [done|]. split; [apply Hi|]. split; [|done].
    by rewrite (logical_idle x1 Hi), Hb, app_nil_r.
Qed.

Lemma writer_new_inv w : wr_inv w → writer_inv (writer_new w).
Proof.
  intros Hs. split; [done|]. split; [|split; [constructor|intros [? [=]]]].
  cbn. unfold DEFAULT_RESERVED_BUF_SIZE. lia.
Qed.

Lemma write_nar_spec t name w ws :
  wr_inv w → wr_written w = [] → Forall2 carries (events_of name t) ws →
  write_nar w ws = Ok (nar t).
Proof.
  intros Hs Hnil Hf. rewrite nar_tokens. unfold write_nar.
  destruct (sends_node t name 0 (writer_new w) ws [])
    as (x & E & Hi & Hlog & _); [by apply writer_new_inv|done|done|].
  rewrite app_nil_r in E. rewrite E. cbn [send_all mbind res_bind].
  destruct (flush_buf_closed 1 x Hi) as (x' & -> & Hw & _). cbn. rewrite Hw, Hlog.
  unfold logical, pending, node_out, entry_head. cbn. by rewrite Hnil, !app_nil_r.
Qed.

(** ** What the writer below keeps *)

Section kept.
Context (P : W → Prop) (HP : ∀ w buf, P w → P (aw_poll_write w buf).1).

Lemma flush_loop_kept msg fuel : ∀ buf w, P w → P (flush_loop msg fuel buf w).1.2.
Proof using HP.
  induction fuel as [|fuel IH]; intros [|b buf] w Hw; cbn [flush_loop]; try done.
  pose proof (HP w (b :: buf) Hw) as H1. destruct (aw_poll_write w (b :: buf)) as [w1 [[[|n]|e|]|]]; try done.
  by apply IH.
Qed.

Lemma copy_loop_kept fuel : ∀ r w, P w → P (copy_loop fuel r w).1.2.
Proof using HP.
  induction fuel as [|fuel IH]; intros [|[|b c] r] w Hw; cbn [copy_loop]; try done.
  pose proof (HP w (b :: c) Hw) as H1. destruct (aw_poll_write w (b :: c)) as [w1 [[n|e|]|]]; try done.
  by apply IH.
Qed.

Lemma poll_ready_kept x : P (wout x) → P (wout (poll_ready x).1).
Proof using HP.
  intros Hx. unfold poll_ready. fold (flush_part x).
  assert (P (flush_part x).1.2) as Hf.
  { unfold flush_part. destruct (if negb _ && _ then _ else _) as [|cnt|]; try done.
    pose proof (flush_loop_kept "wrote zero bytes" (length (buffer x)) (buffer x) (wout x) Hx) as H1.
    by destruct (flush_loop _ _ _ _) as [[buf w] [[]|]]. }
  destruct (flush_part x) as [[[st buf] w] [[]|]]; try done. cbn in Hf.
  destruct (wreader x) as [r|]; [|done]. pose proof (copy_loop_kept (copy_fuel r) r w Hf) as H2.
  by destruct (copy_loop _ _ _) as [[r' w'] [[]|]].
Qed.

Lemma until_ready_kept fuel : ∀ x, P (wout x) → P (wout (until_ready fuel x).1).
Proof using HP.
  induction fuel as [|fuel IH]; intros x Hx; cbn [until_ready];
    pose proof (poll_ready_kept x Hx) as H1; destruct (poll_ready x) as [x1 [|]]; try done.
  by apply IH.
Qed.

Lemma start_send_kept x ev x' : P (wout x) → start_send x ev = Ok x' → P (wout x').
Proof using.
  intros Hx. unfold start_send. destruct ev; [..|destruct (wlevel x)]; try done; by intros [= <-].
Qed.

Lemma flush_buf_kept fuel : ∀ x x', P (wout x) → flush_buf fuel x = Ok x' → P (wout x').
Proof using HP.
  induction fuel as [|fuel IH]; intros x x' Hx; [done|]. cbn [flush_buf].
  pose proof (until_ready_kept (ready_fuel x) x Hx) as H1.
  destruct (until_ready (ready_fuel x) x) as [x1 [[u|e|]|]]; try done.
  destruct (buffer x1); [by intros [= <-]|]. by apply IH.
Qed.
End kept.
End writer.

(** ** Properties *)

(** C1. The writer produces the NAR serialisation of a tree, and nothing else:
    over any writer that keeps the laws of [AsyncWrite], whatever part of a
    buffer it accepts in each call, as often as it is not ready, and however
    the readers cut the contents of the files, sending the events of the tree
    and closing succeeds and leaves exactly the bytes the grammar prescribes. *)
Theorem write_nar_correct (W : Type) (AW : AsyncWrite W) (AWL : AsyncWriteLaws W)
    (t : node) (name : bytes) (w : W) (ws : list WEvent) :
  wr_inv w → wr_written w = [] → Forall2 carries (events_of name t) ws →
  write_nar w ws = Ok (nar t).
Proof. intros Hs Hn Hc. by eapply write_nar_spec. Qed.

Definition sample_tree : node :=
  DirectoryNode
    [(str "a", FileNode true (str "hello world"));
     (str "d", DirectoryNode [(str "l", SymlinkNode (str "../a"))]);
     (str "e", FileNode false [])].

Definition sample_items : list WEvent :=
  [WStartDirectory []; WFile (str "a") true 11 [str "hel"; str "lo "; str "world"];
   WStartDirectory (str "d"); WSymlink (str "l") (str "../a"); WEndDirectory;
   WFile (str "e") false 0 []; WEndDirectory].

Definition sample_sched : list (option nat) := [None; Some 7; None; None; Some 1; Some 300; None].

Lemma write_nar_correct_witness :
  write_nar (mk_sink [] sample_sched) sample_items = Ok (nar sample_tree).
Proof.
  apply (write_nar_correct sink _ _ sample_tree [] (mk_sink [] sample_sched) sample_items).
  - repeat constructor; discriminate.
  - reflexivity.
  - repeat constructor; try discriminate.
Defined.

(** A poll of the writer loses and duplicates nothing: it keeps the
    invariant, and the bytes written so far followed by the bytes still held
    (buffer, contents behind the reader, padding and closing tokens) stay the
    same. When it is not ready the schedule has moved on, and when it is
    ready the reader is used up and the next event may be sent. *)
Theorem poll_ready_preserves (x x' : NarWriter sink) (p : poll (res io_error unit)) :
  writer_inv x → poll_ready x = (x', p) →
  writer_inv x' ∧ written (wout x') ++ pending x' = written (wout x) ++ pending x ∧
  match p with
  | Pending => length (sched (wout x')) < length (sched (wout x))
  | Ready (Ok _) => wreader x' = None ∧ is_flushing (wstate x') = false
  | _ => False
  end.
Proof.
  intros Hi E. destruct (poll_ready_spec x x' p Hi E) as (? & ? & _ & Hp).
  split; [done|]. split; [done|]. destruct p as [[]|]; naive_solver.
Qed.

Definition sample_writer : NarWriter sink :=
  mk_writer (WFlushing 5) (str "header") 8 (Some [str "abc"]) 1 (mk_sink (str "x") [Some 2; None]).

Lemma poll_ready_preserves_witness :
  writer_inv (poll_ready sample_writer).1 ∧
  written (wout (poll_ready sample_writer).1) = str "xhe" ∧
  (poll_ready sample_writer).2 = Pending.
Proof.
  split; [|split; vm_compute; reflexivity].
  apply (poll_ready_preserves sample_writer _ (poll_ready sample_writer).2).
  - split; [repeat constructor; discriminate|]. split; [cbn; lia|].
    split; [repeat constructor; discriminate|]. cbn. lia.
  - apply surjective_pairing.
Defined.

(** A writer that accepts no byte of the buffer is an error, not an
    endless loop, and an [EndDirectory] with no open directory underflows
    the nesting level. *)
Theorem writer_errors (x : NarWriter sink) (cnt : nat) (r : list (option nat)) :
  wstate x = WFlushing cnt → buffer x ≠ [] → sched (wout x) = Some 0 :: r → wlevel x = 0 →
  (∃ x', poll_ready x = (x', Ready (Err (WriteZero "wrote zero bytes"))) ∧ buffer x' = buffer x) ∧
  start_send x WEndDirectory = Panic.
Proof.
  intros Hst Hb Hs Hl. split.
  - unfold poll_ready. rewrite Hst. cbn. destruct (buffer x) as [|c b]; [done|].
    cbn. unfold aw_poll_write, sink_async_write, poll_write. rewrite Hs. cbn. eauto.
  - unfold start_send. by rewrite Hl.
Qed.

Lemma writer_errors_witness :
  let x := mk_writer (WFlushing 0) (str "header") 8 None 0 (mk_sink [] [Some 0]) in
  (∃ x', poll_ready x = (x', Ready (Err (WriteZero "wrote zero bytes"))) ∧ buffer x' = buffer x) ∧
  start_send x WEndDirectory = Panic.
Proof. intros x. by apply (writer_errors x 0 []). Defined.
