(* ===== verification/PaddedReader.v ===== *)
(** The reader of a file's contents inside a NAR
    ([harmonia-nar/src/padded_reader.rs]), and the adapters it is handed out
    behind: [AsyncBufReadCompat] ([harmonia-utils-io/src/compat.rs]) and
    [LentReader] / [Lending] ([harmonia-utils-io/src/lending.rs]). *)

From stdpp Require Import base list numbers strings.
From Stdlib Require Import ZArith Lia Strings.Byte.
From S2P Require Import Prelude Async Wire.

(** ** State *)

Inductive PState : Type :=
| PContent (rem : nat)
| PReadPadding (start end_ : nat)
| PPadding (start : nat)
| PEof.

Record PaddedReader (R : Type) : Type := mk_padded {
  preader : R;
  trailer_size : nat;
  padding : bytes;
  pstate : PState
}.
Arguments mk_padded {R}.
Arguments preader {R}.
Arguments trailer_size {R}.
Arguments padding {R}.
Arguments pstate {R}.

(** Subtraction and addition that panic on overflow. *)
Definition sub_checked (a b : nat) : res io_error nat :=
  if decide (b ≤ a) then Ok (a - b) else Panic.
Definition add_u64 (a b : nat) : res io_error nat :=
  if decide (Z.of_nat a + Z.of_nat b < u64_modulus)%Z then Ok (a + b) else Panic.

Section padded.
Context {R : Type} `{!AsyncBytesRead R}.
Implicit Types (r : R) (p : PaddedReader R).

(** [PaddedReader::new]: [len & !7] bytes of content, then the trailer. *)
Definition padded_new (r : R) (len : nat) : PaddedReader R :=
  let content := 8 * (len / 8) in
  mk_padded r (len - content) ZEROS (PContent content).

Definition set_pstate p (r : R) (st : PState) : PaddedReader R :=
  mk_padded r (trailer_size p) (padding p) st.

(** [(trailer_size + 7) & !7]. *)
Definition trailer_aligned p : nat := 8 * ((trailer_size p + 7) / 8).
Arguments trailer_aligned : simpl never.

Definition remaining_usize p : res io_error (nat * nat * nat) :=
  let aligned := trailer_aligned p in
  match pstate p with
  | PContent rem =>
      a ← add_u64 rem (trailer_size p);
      b ← add_u64 rem aligned;
      mret (rem, a, b)
  | PReadPadding start _ | PPadding start =>
      a ← sub_checked (trailer_size p) start;
      b ← sub_checked aligned start;
      mret (0, a, b)
  | PEof => mret (0, 0, 0)
  end.

(** Reading the last eight bytes into [padding], from [end_] on. *)
Fixpoint read_padding (fuel : nat) p (start end_ : nat) : PaddedReader R * polled unit :=
  if decide (8 ≤ end_) then (set_pstate p (preader p) (PPadding start), Ready (Ok tt)) else
  match fuel with
  | O => (p, Pending)
  | S fuel =>
      match poll_read (preader p) (8 - end_) with
      | (r, Ready (Ok b)) =>
          let p :=
            mk_padded r (trailer_size p)
              (take end_ (padding p) ++ b ++ drop (end_ + length b) (padding p))
              (PReadPadding start (end_ + length b)) in
          if decide (b = [])
          then (p, Ready (Err (UnexpectedEof "EOF before end of padding")))
          else read_padding fuel p start (end_ + length b)
      | (r, Ready (Err e)) => (set_pstate p r (PReadPadding start end_), Ready (Err e))
      | (r, Ready Panic) => (set_pstate p r (PReadPadding start end_), Ready Panic)
      | (r, Pending) => (set_pstate p r (PReadPadding start end_), Pending)
      end
  end.

(** The part of [padding] not yet consumed. *)
Definition padding_rest p (start : nat) : bytes := drop start (take (trailer_size p) (padding p)).

(** [poll_fill_buf] and [poll_force_fill_buf] differ in how they first get a
    buffer, and in the states after the content. *)
Definition padded_content p (first : R → R * polled bytes) (content rem trailing : nat)
    : PaddedReader R * polled bytes :=
  match first (preader p) with
  | (r, Ready (Ok buf)) =>
      if decide (content ≤ length buf) then
        match fill_to trailing trailing r buf with
        | (r, Ready (Ok buf)) => (set_pstate p r (pstate p), Ready (Ok (take rem buf)))
        | (r, q) => (set_pstate p r (pstate p), q)
        end
      else (set_pstate p r (pstate p), Ready (Ok buf))
  | (r, q) => (set_pstate p r (pstate p), q)
  end.

Definition padded_read_padding p (start end_ : nat) : PaddedReader R * polled bytes :=
  match read_padding 8 p start end_ with
  | (p, Ready (Ok _)) => (p, Ready (Ok (padding_rest p start)))
  | (p, Ready (Err e)) => (p, Ready (Err e))
  | (p, Ready Panic) => (p, Ready Panic)
  | (p, Pending) => (p, Pending)
  end.

Definition padded_fill_buf p : PaddedReader R * polled bytes :=
  match remaining_usize p with
  | Ok (content, rem, trailing) =>
      match pstate p with
      | PContent _ => padded_content p poll_fill_buf content rem trailing
      | PReadPadding start end_ => padded_read_padding p start end_
      | PPadding start => (p, Ready (Ok (padding_rest p start)))
      | PEof => (p, Ready (Ok []))
      end
  | _ => (p, Ready Panic)
  end.

Definition padded_force_fill_buf p : PaddedReader R * polled bytes :=
  match remaining_usize p with
  | Ok (content, rem, trailing) =>
      match pstate p with
      | PContent _ => padded_content p poll_force_fill_buf content rem trailing
      | PReadPadding start end_ => padded_read_padding p start end_
      | _ => (p, Ready (Err (UnexpectedEof "EOF while force reading")))
      end
  | _ => (p, Ready Panic)
  end.

Definition padded_consume p (amt : nat) : res io_error (PaddedReader R) :=
  '(_, rem, aligned) ← remaining_usize p;
  if decide (rem < amt) then Panic else
  if decide (amt = rem) then
    match pstate p with
    | PContent _ | PReadPadding _ _ =>
        r ← consume (preader p) aligned; mret (set_pstate p r PEof)
    | _ => mret (set_pstate p (preader p) PEof)
    end
  else
    match pstate p with
    | PContent c_rem =>
        r ← consume (preader p) amt;
        mret (set_pstate p r
          (if decide (c_rem < amt) then PReadPadding (amt - c_rem) (amt - c_rem)
           else PContent (c_rem - amt)))
    | PReadPadding start end_ =>
        r ← consume (preader p) amt;
        mret (set_pstate p r (PReadPadding (start + amt) (max (start + amt) end_)))
    | PPadding start => mret (set_pstate p (preader p) (PPadding (start + amt)))
    | PEof => mret p
    end.

(** [poll_drain]: every iteration consumes a byte. *)
Fixpoint drain_loop (fuel : nat) p : PaddedReader R * polled unit :=
  match padded_fill_buf p with
  | (p, Ready (Ok [])) => (p, Ready (Ok tt))
  | (p, Ready (Ok b)) =>
      match padded_consume p (length b), fuel with
      | Ok p, S fuel => drain_loop fuel p
      | Err e, _ => (p, Ready (Err e))
      | _, _ => (p, Ready Panic)
      end
  | (p, Ready (Err e)) => (p, Ready (Err e))
  | (p, Ready Panic) => (p, Ready Panic)
  | (p, Pending) => (p, Pending)
  end.

Definition drain_fuel p : nat :=
  match pstate p with PContent rem => rem + trailer_size p | _ => trailer_size p end.

Definition poll_drain p : PaddedReader R * polled unit := drain_loop (drain_fuel p) p.

(** ** Specification

    [padded_at p c after]: the reader has the content [c] still to give, and
    the underlying reader goes on with [after] behind the padding. *)

Context `{!AsyncBytesReadLaws R}.

Definition padded_at p (c after : bytes) : Prop :=
  rd_inv (preader p) ∧ length (padding p) = 8 ∧ trailer_size p < 8 ∧
  match pstate p with
  | PContent rem => (Z.of_nat rem + Z.of_nat (trailer_aligned p) < u64_modulus)%Z ∧ length c = rem + trailer_size p ∧
      ∃ pad, rest (preader p) = c ++ pad ++ after ∧ length pad = trailer_aligned p - trailer_size p
  | PReadPadding start end_ => start ≤ end_ ≤ 8 ∧ start < trailer_size p ∧
      length c = trailer_size p - start ∧
      ∃ pad, drop start (take end_ (padding p)) ++ rest (preader p) = c ++ pad ++ after ∧
        length pad = 8 - trailer_size p
  | PPadding start =>
      start < trailer_size p ∧ c = padding_rest p start ∧ rest (preader p) = after
  | PEof => c = [] ∧ rest (preader p) = after
  end.

(** Up to [n] bytes may be consumed without filling again. *)
Definition padded_avail p (n : nat) : Prop :=
  match pstate p with
  | PContent rem => n ≤ length (held (preader p)) ∧
      (rem < n → rem + trailer_aligned p ≤ length (held (preader p)))
  | PReadPadding start end_ => 0 < n → end_ = start ∧ 8 - start ≤ length (held (preader p))
  | PPadding _ | PEof => True
  end.

Lemma trailer_aligned_bounds p :
  trailer_size p < 8 → trailer_size p ≤ trailer_aligned p ≤ 8 ∧
  (0 < trailer_size p → trailer_aligned p = 8) ∧ (trailer_size p = 0 → trailer_aligned p = 0).
Proof.
  unfold trailer_aligned. intros Ht.
  destruct (trailer_size p) as [|t]; [cbn; lia|].
  assert ((S t + 7) / 8 = 1) as ->; [|lia].
  symmetry. apply (Nat.div_unique _ _ _ t); lia.
Qed.

Lemma padded_remaining p c after :
  padded_at p c after →
  ∃ content aligned, remaining_usize p = Ok (content, length c, aligned) ∧
    match pstate p with
    | PContent rem => content = rem ∧ aligned = rem + trailer_aligned p
    | PReadPadding start _ => content = 0 ∧ aligned = 8 - start
    | _ => True
    end.
Proof.
  intros (_ & Hl & Ht & Hs). pose proof (trailer_aligned_bounds p Ht) as (Hb & H8 & H0).
  unfold remaining_usize, add_u64, sub_checked.
  destruct (pstate p) as [rem|st en|st|].
  - destruct Hs as (Hm & Hc & _). rewrite !decide_True by lia. cbn. rewrite Hc. eauto.
  - destruct Hs as (? & ? & Hc & _). rewrite !decide_True by lia. cbn. rewrite Hc, H8 by lia. eauto.
  - destruct Hs as (? & -> & _). rewrite !decide_True by lia. cbn.
    unfold padding_rest. rewrite length_drop, length_take, Nat.min_l by lia. eauto.
  - destruct Hs as [-> _]. cbn. eauto.
Qed.

Lemma padded_new_at r c pad after :
  rd_inv r → alignable (Z.of_nat (length c)) → rest r = c ++ pad ++ after →
  length pad = calc_padding (Z.of_nat (length c)) →
  padded_at (padded_new r (length c)) c after.
Proof.
  intros Hi Ha Hr Hp. unfold padded_at, padded_new, trailer_aligned.
  cbn zeta. cbn [preader padding trailer_size pstate].
  pose proof (Nat.div_mod_eq (length c) 8). pose proof (Nat.mod_upper_bound (length c) 8).
  set (q := length c / 8) in *. assert (length c - 8 * q = length c mod 8) as Hm by lia.
  pose proof (calc_padding_mod (Z.of_nat (length c))) as Hz.
  unfold alignable, u64_max, u64_modulus in *.
  split; [done|]. split; [done|]. rewrite Hm. split; [lia|].
  assert (8 * ((length c mod 8 + 7) / 8) = length c mod 8 + length pad ∧
    (Z.of_nat (8 * q) + Z.of_nat (8 * ((length c mod 8 + 7) / 8)) < 18446744073709551616)%Z)
    as [E Hlt].
  { rewrite Hp. assert (Z.of_nat (length c mod 8) = Z.of_nat (length c) mod 8)%Z as Hmz
      by (by rewrite Nat2Z.inj_mod).
    destruct (length c mod 8) as [|t] eqn:Et.
    - rewrite Z.mod_opp_l_z in Hz by lia. cbn [plus]. change (7 / 8) with 0. lia.
    - rewrite Z.mod_opp_l_nz in Hz by lia.
      assert ((S t + 7) / 8 = 1) as ->; [symmetry; apply (Nat.div_unique _ _ _ t); lia|]. lia. }
  split; [done|]. split; [lia|]. exists pad. split; [done|lia].
Qed.

(** ** Filling *)

Definition padded_fill_post p c after p' (q : polled bytes) : Prop :=
  padded_at p' c after ∧
  match q with
  | Pending => patience (preader p') < patience (preader p)
  | Ready (Ok b) => b `prefix_of` c ∧ padded_avail p' (length b) ∧ (b = [] → c = []) ∧
      patience (preader p') ≤ patience (preader p)
  | _ => False
  end.

Lemma padded_content_spec p c after rem p' q :
  padded_at p c after → pstate p = PContent rem →
  padded_content p poll_fill_buf rem (length c) (rem + trailer_aligned p) = (p', q) →
  padded_fill_post p c after p' q.
Proof.
  intros (Hi & Hl & Ht & Hs) Hst E. unfold padded_content in E. rewrite Hst in *.
  destruct Hs as (Hm & Hc & pad & Hr & Hpad). pose proof (trailer_aligned_bounds p Ht) as (Hb & _ & _).
  assert (∀ r, rd_inv r → rest r = rest (preader p) →
    padded_at (set_pstate p r (PContent rem)) c after) as Hat.
  { intros r Hir Hrr. unfold padded_at. cbn. split; [done|]. split; [done|]. split; [done|].
    split; [done|]. split; [done|]. exists pad. by rewrite Hrr. }
  destruct (poll_fill_buf (preader p)) as [r1 q1] eqn:E1.
  destruct (poll_fill_buf_law _ _ _ Hi E1) as (Hi1 & Hr1 & Hq1).
  destruct q1 as [[b|e|]|]; try done.
  2: { injection E as <- <-. destruct Hq1. split; [by apply Hat|done]. }
  destruct Hq1 as (-> & Hnil & _ & Hp1).
  assert (∀ r, rd_inv r → rest r = rest (preader p) → length (held r) < rem →
    held r `prefix_of` c) as Hpre.
  { intros r Hir Hrr Hlt. rewrite (held_take r Hir), Hrr, Hr, take_app_le by lia.
    apply prefix_take. }
  case_decide as Hd.
  - destruct (fill_to _ _ r1 (held r1)) as [r2 q2] eqn:E2.
    apply fill_to_spec in E2 as (Hi2 & Hr2 & Hq2); [|done|by apply laws_fits; [|lia]|lia].
    destruct q2 as [[b|e|]|]; try done.
    + destruct Hq2 as (-> & Hlen & Hp2). injection E as <- <-.
      assert (take (length c) (held r2) = c) as ->.
      { rewrite (held_take r2 Hi2), Hr2, Hr1, Hr, take_take, Nat.min_l by lia.
        by rewrite take_app_length. }
      split; [apply Hat; [done|by rewrite Hr2]|]. split; [done|].
      split; [cbn; split; [lia|done]|]. split; [done|]. cbn. lia.
    + exfalso. destruct Hq2 as [_ Hq2]. rewrite Hr1, Hr, !length_app in Hq2. lia.
    + injection E as <- <-. split; [apply Hat; [done|by rewrite Hr2]|]. cbn. lia.
  - injection E as <- <-. split; [by apply Hat|]. split; [apply Hpre; [done|done|lia]|].
    split; [cbn; lia|]. split; [|done]. intros Hh. specialize (Hnil Hh). exfalso.
    assert (length (rest (preader p)) = 0) as H0 by (by rewrite Hnil).
    rewrite Hr, !length_app in H0. lia.
Qed.

Lemma read_padding_spec fuel p c after start end_ p' q :
  padded_at (set_pstate p (preader p) (PReadPadding start end_)) c after → 8 - end_ ≤ fuel →
  read_padding fuel p start end_ = (p', q) →
  padded_at p' c after ∧ trailer_size p' = trailer_size p ∧
  match q with
  | Pending => patience (preader p') < patience (preader p)
  | Ready (Ok _) => pstate p' = PPadding start ∧ patience (preader p') ≤ patience (preader p)
  | _ => False
  end.
Proof.
  revert p end_; induction fuel as [|fuel IH]; intros p end_ Hat Hf; cbn [read_padding];
    destruct (id Hat) as (Hi & Hl & Ht & Hse & Hst & Hc & pad & Hr & Hpad); cbn in *.
  all: case_decide as H8.
  1, 3: assert (end_ = 8) as -> by lia; intros [= <- <-]; split; [|by cbn];
    rewrite (take_ge (padding p)) in Hr by lia;
    (unfold padded_at; cbn; split; [done|]; split; [done|]; split; [done|]; split; [done|]);
    unfold padding_rest; cbn;
    rewrite <-(take_drop (trailer_size p) (padding p)), drop_app_le in Hr
      by (rewrite length_take; lia);
    rewrite <-app_assoc in Hr;
    (apply app_inj_1 in Hr as [Hc' Hr];
      [rewrite Hc'; split; [done|]|rewrite length_drop, length_take; lia]);
    (apply app_inj_1 in Hr as [_ ?]; [done|rewrite length_drop; lia]).
  1: lia.
  destruct (poll_read (preader p) (8 - end_)) as [r1 q1] eqn:E1.
  apply poll_read_law in E1 as (Hi1 & Hq1); [|done|lia].
  destruct q1 as [[b|e|]|]; try done.
  - destruct Hq1 as (Hrest & Hlen & Hnil & Hp1).
    set (p1 := mk_padded r1 _ _ _).
    assert (padded_at p1 c after) as Hat1.
    { unfold padded_at, p1. cbn. split; [done|]. split.
      { rewrite !length_app, length_take, length_drop. lia. }
      split; [done|]. split; [lia|]. split; [lia|]. split; [done|]. exists pad. split; [|done].
      rewrite (app_assoc (take end_ _)), take_app_le by (rewrite length_app, length_take; lia).
      rewrite take_ge by (rewrite length_app, length_take; lia).
      rewrite drop_app_le by (rewrite length_take; lia).
      by rewrite <-app_assoc, <-Hrest. }
    case_decide as Hb.
    + exfalso. specialize (Hnil Hb). rewrite Hnil, app_nil_r in Hr.
      apply (f_equal length) in Hr. rewrite length_drop, length_take, !length_app in Hr. lia.
    + intros E. apply IH in E; [|exact Hat1|destruct b; [done|cbn; lia]].
      destruct E as (? & ? & Hq). split; [done|]. split; [done|]. cbn in Hq.
      destruct q as [[]|]; try done; [destruct Hq; split; [done|lia]|lia].
  - intros [= <- <-]. destruct Hq1 as [Hrest Hlt]. split; [|by cbn].
    unfold padded_at. cbn. split; [done|]. split; [done|]. split; [done|]. split; [done|].
    split; [done|]. split; [done|]. exists pad. by rewrite Hrest.
Qed.

Lemma padded_fill_spec p c after p' q :
  padded_at p c after → padded_fill_buf p = (p', q) → padded_fill_post p c after p' q.
Proof.
  intros Hat E. unfold padded_fill_buf in E.
  destruct (padded_remaining p c after Hat) as (content & aligned & Hrem & Hm). rewrite Hrem in E.
  destruct (pstate p) as [rem|start end_|start|] eqn:Hst.
  - destruct Hm as [-> ->]. by eapply padded_content_spec.
  - unfold padded_read_padding in E. destruct (read_padding 8 p start end_) as [p1 q1] eqn:E1.
    apply (read_padding_spec 8 p c after) in E1 as (Hat1 & Ht1 & Hq1); [| |lia].
    2: { destruct p; cbn in *; by subst. }
    destruct q1 as [[]|]; try done; injection E as <- <-.
    + destruct Hq1 as [Hs1 Hp1]. split; [done|]. destruct Hat1 as (_ & _ & _ & Hat1).
      rewrite Hs1 in Hat1. destruct Hat1 as (? & -> & _). split; [done|].
      unfold padded_avail. rewrite Hs1. auto.
    + by split.
  - injection E as <- <-. split; [done|]. destruct Hat as (_ & _ & _ & Hat). rewrite Hst in Hat.
    destruct Hat as (? & -> & _). unfold padded_avail. rewrite Hst. auto.
  - injection E as <- <-. split; [done|]. destruct Hat as (_ & _ & _ & Hat). rewrite Hst in Hat.
    destruct Hat as (-> & _). unfold padded_avail. rewrite Hst. auto.
Qed.

(** ** Consuming *)

Lemma padded_consume_content p c after rem n m :
  padded_at p c after → pstate p = PContent rem → n ≤ m → m ≤ length c → padded_avail p m →
  ∃ p', padded_consume p n = Ok p' ∧ padded_at p' (drop n c) after ∧ padded_avail p' (m - n) ∧
    patience (preader p') = patience (preader p).
Proof.
  intros Hat Hst Hn Hm Hav.
  destruct (padded_remaining p c after Hat) as (content & aligned & Hrem & Hma).
  rewrite Hst in Hma. destruct Hma as [-> ->].
  destruct Hat as (Hi & Hl & Ht & Hs). pose proof (trailer_aligned_bounds p Ht) as (Hb & H8 & H0).
  unfold padded_avail in Hav. rewrite Hst in Hs, Hav. destruct Hs as (Hmod & Hc & pad & Hr & Hpad).
  destruct Hav as [Hav1 Hav2].
  unfold padded_consume. rewrite Hrem, Hst. cbn [mbind res_bind].
  rewrite decide_False by lia. case_decide as Hall.
  - destruct (consume_law (preader p) (rem + trailer_aligned p)) as (r' & -> & Hi' & Hr' & Hh' & Hp');
      [done| |].
    { destruct (decide (rem < m)); [auto|]. lia. }
    cbn. eexists; split; [done|]. split; [|split; [done|done]].
    unfold padded_at. cbn. split; [done|]. split; [done|]. split; [done|].
    split; [by rewrite drop_ge by lia|]. rewrite Hr', Hr, app_assoc, drop_app_ge, length_app
      by (rewrite length_app; lia).
    by replace (rem + trailer_aligned p - (length c + length pad)) with 0 by lia.
  - destruct (consume_law (preader p) n) as (r' & -> & Hi' & Hr' & Hh' & Hp'); [done|lia|].
    cbn. eexists; split; [done|]. rewrite Hr, drop_app_le in Hr' by lia.
    split; [|split; [|done]].
    + unfold padded_at. cbn. split; [done|]. split; [done|]. split; [done|].
      rewrite length_drop. case_decide.
      * split; [lia|]. split; [lia|]. split; [lia|]. exists pad.
        rewrite drop_ge by (rewrite length_take; lia). rewrite app_nil_l. split; [done|lia].
      * change (trailer_aligned (set_pstate _ _ _)) with (trailer_aligned p). split; [lia|]. split; [lia|]. eauto.
    + unfold padded_avail. cbn. rewrite Hh', length_drop. case_decide.
      * intros _. split; [done|]. specialize (Hav2 ltac:(lia)). lia.
      * split; [lia|]. intros ?. specialize (Hav2 ltac:(lia)).
        change (trailer_aligned (set_pstate _ _ _)) with (trailer_aligned p). lia.
Qed.

Lemma padded_consume_trailer p c after start end_ n m :
  padded_at p c after → pstate p = PReadPadding start end_ → n ≤ m → m ≤ length c →
  padded_avail p m → 0 < n →
  ∃ p', padded_consume p n = Ok p' ∧ padded_at p' (drop n c) after ∧ padded_avail p' (m - n) ∧
    patience (preader p') = patience (preader p).
Proof.
  intros Hat Hst Hn Hm Hav Hpos.
  destruct (padded_remaining p c after Hat) as (content & aligned & Hrem & Hma).
  rewrite Hst in Hma. destruct Hma as [-> ->].
  destruct Hat as (Hi & Hl & Ht & Hs). unfold padded_avail in Hav. rewrite Hst in Hs, Hav.
  destruct Hs as (Hse & Hlt & Hc & pad & Hr & Hpad). destruct (Hav ltac:(lia)) as [-> Hav2].
  rewrite drop_ge, app_nil_l in Hr by (rewrite length_take; lia).
  unfold padded_consume. rewrite Hrem, Hst. cbn [mbind res_bind].
  rewrite decide_False by lia. case_decide as Hall.
  - destruct (consume_law (preader p) (8 - start)) as (r' & -> & Hi' & Hr' & Hh' & Hp'); [done|lia|].
    cbn. eexists; split; [done|]. split; [|split; [done|done]].
    unfold padded_at. cbn. split; [done|]. split; [done|]. split; [done|].
    split; [by rewrite drop_ge by lia|]. rewrite Hr', Hr, app_assoc, drop_app_ge, length_app
      by (rewrite length_app; lia).
    by replace (8 - start - (length c + length pad)) with 0 by lia.
  - destruct (consume_law (preader p) n) as (r' & -> & Hi' & Hr' & Hh' & Hp'); [done|lia|].
    cbn. eexists; split; [done|]. rewrite Hr, drop_app_le in Hr' by lia.
    rewrite Nat.max_l by lia. split; [|split; [|done]].
    + unfold padded_at. cbn. split; [done|]. split; [done|]. split; [done|].
      rewrite length_drop. split; [lia|]. split; [lia|]. split; [lia|]. exists pad.
      rewrite drop_ge by (rewrite length_take; lia). done.
    + unfold padded_avail. cbn. rewrite Hh', length_drop. intros ?. split; [done|lia].
Qed.

Lemma padded_consume_spec p c after n m :
  padded_at p c after → n ≤ m → m ≤ length c → padded_avail p m → 0 < n →
  ∃ p', padded_consume p n = Ok p' ∧ padded_at p' (drop n c) after ∧ padded_avail p' (m - n) ∧
    patience (preader p') = patience (preader p).
Proof.
  intros Hat Hn Hm Hav Hpos. destruct (pstate p) as [rem|start end_|start|] eqn:Hst.
  - by eapply padded_consume_content.
  - by eapply padded_consume_trailer.
  - destruct (padded_remaining p c after Hat) as (content & aligned & Hrem & _).
    destruct Hat as (Hi & Hl & Ht & Hs). rewrite Hst in Hs. destruct Hs as (Hlt & Hc & Hr).
    unfold padded_consume. rewrite Hrem, Hst. cbn [mbind res_bind].
    rewrite decide_False by lia. unfold padding_rest in Hc.
    assert (length c = trailer_size p - start) as Hlc
      by (rewrite Hc, length_drop, length_take; lia).
    case_decide; (eexists; split; [done|]); unfold padded_at, padded_avail; cbn.
    + repeat split; try done. by rewrite drop_ge by lia.
    + repeat split; try done; [lia|]. unfold padding_rest. cbn. by rewrite Hc, drop_drop.
  - destruct Hat as (_ & _ & _ & Hs). rewrite Hst in Hs. destruct Hs as [-> _]. cbn in Hm. lia.
Qed.

(** ** Draining *)

Lemma drain_loop_spec fuel p c after p' q :
  padded_at p c after → length c ≤ fuel → drain_loop fuel p = (p', q) →
  match q with
  | Pending => (∃ c', padded_at p' c' after) ∧ patience (preader p') < patience (preader p)
  | Ready (Ok _) => padded_at p' [] after ∧ patience (preader p') ≤ patience (preader p)
  | _ => False
  end.
Proof.
  revert p c; induction fuel as [|fuel IH]; intros p c Hat Hf; cbn [drain_loop];
    destruct (padded_fill_buf p) as [p1 q1] eqn:E1;
    apply (padded_fill_spec p c after) in E1 as [Hat1 Hq1]; try done;
    destruct q1 as [[b|e|]|]; try done.
  - destruct Hq1 as (Hpre & Hav & Hnil & Hp1). assert (c = []) as -> by (by destruct c; cbn in *; [|lia]).
    apply prefix_nil_inv in Hpre as ->. intros [= <- <-]. auto.
  - intros [= <- <-]. eauto.
  - destruct Hq1 as (Hpre & Hav & Hnil & Hp1). pose proof (prefix_length _ _ Hpre).
    destruct b as [|y b]; [intros [= <- <-]; rewrite (Hnil eq_refl) in Hat1; auto|].
    destruct (padded_consume_spec p1 c after (length (y :: b)) (length (y :: b)))
      as (p2 & E2 & Hat2 & _ & Hp2); [done|done|done|done|cbn; lia|].
    rewrite E2. intros E. apply (IH p2 (drop (length (y :: b)) c)) in E; [|done|rewrite length_drop; cbn; lia].
    destruct q as [[]|]; try done; [destruct E; split; [done|lia]|destruct E; split; [done|lia]].
  - intros [= <- <-]. eauto.
Qed.

Lemma drain_fuel_enough p c after : padded_at p c after → length c ≤ drain_fuel p.
Proof.
  intros (_ & _ & _ & Hs). unfold drain_fuel. destruct (pstate p); cbn in *.
  - destruct Hs as (_ & -> & _). lia.
  - destruct Hs as (_ & _ & -> & _). lia.
  - destruct Hs as (_ & -> & _). unfold padding_rest. rewrite length_drop, length_take. lia.
  - destruct Hs as [-> _]. cbn. lia.
Qed.

Lemma poll_drain_spec p c after p' q :
  padded_at p c after → poll_drain p = (p', q) →
  match q with
  | Pending => (∃ c', padded_at p' c' after) ∧ patience (preader p') < patience (preader p)
  | Ready (Ok _) => padded_at p' [] after ∧ patience (preader p') ≤ patience (preader p)
  | _ => False
  end.
Proof. intros Hat E. eapply drain_loop_spec; [done| |done]. by eapply drain_fuel_enough. Qed.
End padded.

(** ** Handing the reader out

    A [File] event carries an [AsyncBufReadCompat] around a [LentReader]
    around the [PaddedReader]. [fchan] is the channel through which
    [LentReader] gives its reader back, at the end of the file or when it is
    dropped. *)

Record FileReader (R : Type) : Type := mk_file {
  fbuf : bytes;
  finner : option (PaddedReader R);
  fchan : option (PaddedReader R)
}.
Arguments mk_file {R}.
Arguments fbuf {R}.
Arguments finner {R}.
Arguments fchan {R}.

(** [Lending]: the side that waits for the reader and drains it. *)
Inductive Lending (R : Type) : Type :=
| Lent (chan : option (PaddedReader R))
| Drain (p : PaddedReader R)
| Available (r : R).
Arguments Lent {R}.
Arguments Drain {R}.
Arguments Available {R}.

Section lending.
Context {R : Type} `{!AsyncBytesRead R}.
Implicit Types (f : FileReader R) (l : Lending R).

(** [LentReader::return_reader]. *)
Definition return_reader f : FileReader R :=
  match finner f with
  | Some p => mk_file (fbuf f) None (Some p)
  | None => f
  end.

(** [LentReader::poll_fill_buf]. *)
Definition lent_fill_buf f : FileReader R * polled bytes :=
  match finner f with
  | Some p =>
      match padded_fill_buf p with
      | (p, Ready (Ok [])) => (return_reader (mk_file (fbuf f) (Some p) (fchan f)), Ready (Ok []))
      | (p, q) => (mk_file (fbuf f) (Some p) (fchan f), q)
      end
  | None => (f, Ready (Ok []))
  end.

(** [LentReader::consume]. *)
Definition lent_consume f (amt : nat) : res io_error (FileReader R) :=
  match finner f with
  | Some p => p ← padded_consume p amt; mret (mk_file (fbuf f) (Some p) (fchan f))
  | None => if decide (amt = 0) then mret f else Panic
  end.

(** [AsyncBufReadCompat::poll_fill_buf]. *)
Definition compat_fill_buf f : FileReader R * polled bytes :=
  match fbuf f with
  | [] =>
      match lent_fill_buf f with
      | (f, Ready (Ok b)) => (mk_file b (finner f) (fchan f), Ready (Ok b))
      | x => x
      end
  | b => (f, Ready (Ok b))
  end.

(** [AsyncBufReadCompat::consume]: [Bytes::advance] panics past the end. *)
Definition compat_consume f (amt : nat) : res io_error (FileReader R) :=
  if decide (length (fbuf f) < amt) then Panic
  else lent_consume (mk_file (drop amt (fbuf f)) (finner f) (fchan f)) amt.

(** [AsyncBufReadCompat::poll_read]. *)
Definition compat_poll_read f (room : nat) : FileReader R * polled bytes :=
  match compat_fill_buf f with
  | (f, Ready (Ok [])) => (f, Ready (Ok []))
  | (f, Ready (Ok rem)) =>
      let amt := min (length rem) room in
      match compat_consume f amt with
      | Ok f => (f, Ready (Ok (take amt rem)))
      | Err e => (f, Ready (Err e))
      | Panic => (f, Ready Panic)
      end
  | x => x
  end.

(** A consumer of the contents: reads with the given rooms ([S r] bytes
    each) and then, when [to_end], goes on until the end of the file. A read
    that is not ready is repeated. *)
Fixpoint read_file (fuel : nat) (rooms : list nat) (to_end : bool) f (acc : bytes)
    : FileReader R * res io_error bytes :=
  match rooms, to_end with
  | [], false => (f, Ok acc)
  | _, _ =>
      match fuel with
      | O => (f, Panic)
      | S fuel =>
          match compat_poll_read f (S (hd 31 rooms)) with
          | (f, Pending) => read_file fuel rooms to_end f acc
          | (f, Ready (Ok [])) => (f, Ok acc)
          | (f, Ready (Ok b)) => read_file fuel (tl rooms) to_end f (acc ++ b)
          | (f, Ready (Err e)) => (f, Err e)
          | (f, Ready Panic) => (f, Panic)
          end
      end
  end.

(** [Lending::poll_ready], with the reader [poll_reader] returns. *)
Definition drain_ready (p : PaddedReader R) : Lending R * polled R :=
  match poll_drain p with
  | (p, Ready (Ok _)) => (Available (preader p), Ready (Ok (preader p)))
  | (p, Ready (Err e)) => (Drain p, Ready (Err e))
  | (p, Ready Panic) => (Drain p, Ready Panic)
  | (p, Pending) => (Drain p, Pending)
  end.

Definition poll_reader l : Lending R * polled R :=
  match l with
  | Lent None => (l, Pending)
  | Lent (Some p) | Drain p => drain_ready p
  | Available r => (l, Ready (Ok r))
  end.

(** [Lending::lend] with [PaddedReader::new]. *)
Definition lend l (size : nat) : res io_error (Lending R * FileReader R) :=
  match l with
  | Available r => Ok (Lent None, mk_file [] (Some (padded_new r size)) None)
  | _ => Panic
  end.

(** ** Specification *)

Context `{!AsyncBytesReadLaws R}.

Definition file_at f (c after : bytes) : Prop :=
  match finner f with
  | Some p => fchan f = None ∧ padded_at p c after ∧ fbuf f `prefix_of` c ∧
      padded_avail p (length (fbuf f))
  | None => c = [] ∧ fbuf f = [] ∧ ∃ p, fchan f = Some p ∧ padded_at p [] after
  end.

Definition file_patience f : nat :=
  match finner f with
  | Some p => patience (preader p)
  | None => match fchan f with Some p => patience (preader p) | None => 0 end
  end.

Definition lending_at l (bs : bytes) : Prop :=
  match l with
  | Lent None => False
  | Lent (Some p) | Drain p => ∃ c, padded_at p c bs
  | Available r => rd_inv r ∧ rest r = bs
  end.

Definition lending_patience l : nat :=
  match l with
  | Lent (Some p) | Drain p => patience (preader p)
  | Available r => patience r
  | Lent None => 0
  end.

Lemma padded_avail_0 (p : PaddedReader R) : padded_avail p 0.
Proof. unfold padded_avail. destruct (pstate p); lia || done. Qed.

Lemma compat_fill_spec f c after f' q :
  file_at f c after → compat_fill_buf f = (f', q) →
  file_at f' c after ∧
  match q with
  | Pending => file_patience f' < file_patience f
  | Ready (Ok b) => b = fbuf f' ∧ (b = [] → c = []) ∧ file_patience f' ≤ file_patience f
  | _ => False
  end.
Proof.
  intros Hat E. unfold compat_fill_buf in E. destruct (fbuf f) as [|y b] eqn:Eb.
  2: { injection E as <- <-. rewrite Eb. repeat split; auto. done. }
  unfold lent_fill_buf in E. unfold file_at, file_patience in *.
  destruct (finner f) as [p|] eqn:Ei.
  - destruct Hat as (Hch & Hat & _ & _).
    destruct (padded_fill_buf p) as [p1 q1] eqn:E1.
    apply (padded_fill_spec p c after) in E1 as [Hat1 Hq1]; [|done].
    destruct q1 as [[b|e|]|]; try done.
    + destruct Hq1 as (Hpre & Hav & Hnil & Hp1).
      destruct b as [|z b]; injection E as <- <-; cbn [finner fbuf fchan return_reader].
      * rewrite (Hnil eq_refl) in *. eauto 10.
      * auto 10.
    + injection E as <- <-. cbn [finner fbuf fchan]. rewrite Eb.
      auto 10 using prefix_nil, padded_avail_0.
  - injection E as <- <-. cbn. rewrite Eb in *. destruct Hat as (-> & _ & p & Hc & Hp).
    rewrite Ei. eauto 10.
Qed.
Lemma compat_consume_spec f c after n :
  file_at f c after → 0 < n ≤ length (fbuf f) →
  ∃ f', compat_consume f n = Ok f' ∧ file_at f' (drop n c) after ∧
    file_patience f' = file_patience f.
Proof.
  intros Hat Hn. unfold compat_consume. rewrite decide_False by lia.
  unfold lent_consume, file_at, file_patience in *. cbn. destruct (finner f) as [p|].
  - destruct Hat as (Hch & Hat & Hpre & Hav). pose proof (prefix_length _ _ Hpre).
    destruct (padded_consume_spec p c after n (length (fbuf f))) as (p' & -> & Hat' & Hav' & Hp');
      [done|lia|done|done|lia|].
    cbn. eexists; split; [done|]. cbn. split; [|done]. split; [done|]. split; [done|].
    rewrite length_drop. split; [|done]. destruct Hpre as [k ->].
    rewrite drop_app_le by lia. by exists k.
  - destruct Hat as (_ & Hb & _). rewrite Hb in Hn. cbn in Hn. lia.
Qed.

Lemma compat_poll_read_spec f c after room f' q :
  file_at f c after → 0 < room → compat_poll_read f room = (f', q) →
  match q with
  | Pending => file_at f' c after ∧ file_patience f' < file_patience f
  | Ready (Ok b) => ∃ c', c = b ++ c' ∧ file_at f' c' after ∧ (b = [] → c = []) ∧
      file_patience f' ≤ file_patience f
  | _ => False
  end.
Proof.
  intros Hat Hroom E. unfold compat_poll_read in E.
  destruct (compat_fill_buf f) as [f1 q1] eqn:E1.
  apply (compat_fill_spec f c after) in E1 as [Hat1 Hq1]; [|done].
  destruct q1 as [[b|e|]|]; try done; [|by injection E as <- <-].
  destruct Hq1 as (-> & Hnil & Hp1). destruct (fbuf f1) as [|y b] eqn:Eb.
  { injection E as <- <-. exists c. rewrite (Hnil eq_refl) in *. eauto. }
  assert (0 < length (y :: b)) as Hb0 by (cbn; lia).
  destruct (compat_consume_spec f1 c after (min (length (y :: b)) room))
    as (f2 & Ec & Hat2 & Hp2); [done|rewrite Eb; lia|]. rewrite Ec in E. injection E as <- <-.
  exists (drop (min (length (y :: b)) room) c). split.
  - unfold file_at in Hat1. rewrite Eb in Hat1.
    destruct (finner f1); [|destruct Hat1 as (_ & ? & _); done].
    destruct Hat1 as (_ & _ & [k ->] & _).
    rewrite drop_app_le by lia. by rewrite app_assoc, take_drop.
  - split; [done|]. split; [|lia]. intros Ht.
    destruct room; [lia|done].
Qed.

Lemma read_file_spec fuel rooms to_end f c after acc :
  file_at f c after → length c + file_patience f < fuel →
  ∃ f' c1 c2, read_file fuel rooms to_end f acc = (f', Ok (acc ++ c1)) ∧ c = c1 ++ c2 ∧
    file_at f' c2 after ∧ file_patience f' ≤ file_patience f ∧ (to_end = true → c2 = []).
Proof.
  revert rooms f c acc; induction fuel as [|fuel IH]; intros rooms f c acc Hat Hf; [lia|].
  assert (rooms = [] ∧ to_end = false ∨ read_file (S fuel) rooms to_end f acc =
    match compat_poll_read f (S (hd 31 rooms)) with
    | (f, Pending) => read_file fuel rooms to_end f acc
    | (f, Ready (Ok [])) => (f, Ok acc)
    | (f, Ready (Ok b)) => read_file fuel (tl rooms) to_end f (acc ++ b)
    | (f, Ready (Err e)) => (f, Err e)
    | (f, Ready Panic) => (f, Panic)
    end) as [ [-> ->] | -> ] by (destruct rooms, to_end; auto).
  { exists f, [], c. rewrite app_nil_r. naive_solver. }
  destruct (compat_poll_read f _) as [f1 q1] eqn:E1.
  apply (compat_poll_read_spec f c after) in E1; [|done|lia].
  destruct q1 as [[b|e|]|]; try done.
  - destruct E1 as (c' & -> & Hat1 & Hnil & Hp1). destruct b as [|y b].
    { rewrite (Hnil eq_refl) in *. exists f1, [], []. rewrite app_nil_r. naive_solver. }
    cbn in Hf. rewrite length_app in Hf.
    destruct (IH (tl rooms) f1 c' (acc ++ y :: b)) as (f2 & c1 & c2 & E & -> & ? & ? & ?); [done|lia|].
    exists f2, ((y :: b) ++ c1), c2. rewrite E, <-!app_assoc. repeat split; auto; lia.
  - destruct E1 as [Hat1 Hp1].
    destruct (IH rooms f1 c acc) as (f2 & c1 & c2 & E & -> & ? & ? & ?); [done|lia|].
    exists f2, c1, c2. repeat split; auto; lia.
Qed.

(** Dropping the reader gives it back, wherever it is in the contents. *)
Lemma return_reader_spec f c after :
  file_at f c after → lending_at (Lent (fchan (return_reader f))) after ∧
  lending_patience (Lent (fchan (return_reader f))) = file_patience f.
Proof.
  unfold file_at, return_reader, file_patience. destruct (finner f) as [p|] eqn:Ei; cbn.
  - intros (_ & Hp & _). eauto.
  - intros (-> & _ & p & -> & Hp). cbn. eauto.
Qed.

Lemma poll_reader_spec l bs l' q :
  lending_at l bs → poll_reader l = (l', q) →
  match q with
  | Pending => lending_at l' bs ∧ lending_patience l' < lending_patience l
  | Ready (Ok r) => l' = Available r ∧ rd_inv r ∧ rest r = bs ∧ patience r ≤ lending_patience l
  | _ => False
  end.
Proof.
  assert (∀ p c, padded_at p c bs → drain_ready p = (l', q) →
    match q with
    | Pending => lending_at l' bs ∧ lending_patience l' < patience (preader p)
    | Ready (Ok r) => l' = Available r ∧ rd_inv r ∧ rest r = bs ∧ patience r ≤ patience (preader p)
    | _ => False
    end) as Hd.
  { intros p c Hat E. unfold drain_ready in E. destruct (poll_drain p) as [p1 q1] eqn:E1.
    apply (poll_drain_spec p c bs) in E1; [|done].
    destruct q1 as [[]|]; try done; injection E as <- <-; [|done].
    destruct E1 as [(Hi & H8 & H7 & Hs) ?]. split; [done|]. split; [done|]. split; [|done].
    destruct (pstate p1).
    - destruct Hs as (_ & Hl & pad & -> & Hpad). cbn in *.
      assert (trailer_aligned p1 = 0) as H0
        by (unfold trailer_aligned; assert (trailer_size p1 = 0) as -> by lia; done).
      destruct pad; [done|cbn in *; lia].
    - destruct Hs as (? & ? & Hl & _). cbn in Hl. lia.
    - destruct Hs as (? & Hl & _). apply (f_equal length) in Hl. unfold padding_rest in Hl.
      rewrite length_drop, length_take in Hl. cbn in Hl. lia.
    - by destruct Hs. }
  unfold lending_at, poll_reader. destruct l as [[p|]|p|r]; cbn [lending_patience]; [|done| |].
  1, 2: intros [c Hat] E; eapply Hd; eauto.
  intros [Hi Hr] [= <- <-]. auto.
Qed.
End lending.
