(* ===== verification/NarParser.v ===== *)
(** The NAR parser ([harmonia-nar/src/archive/parser.rs]): the stream of
    events read from an [AsyncBytesRead], with the contents of files handed
    out as readers and drained before the next event. *)

From stdpp Require Import base list numbers strings.
From Stdlib Require Import ZArith Lia Strings.Byte.
From S2P Require Import Prelude Async Wire RadixTree NarReader NarTree PaddedReader.

(** ** The parser *)

Record NarParser (R : Type) : Type := mk_parser {
  np_reader : Lending R;
  np_name : option bytes;
  np_state : Inner
}.
Arguments mk_parser {R}.
Arguments np_reader {R}.
Arguments np_name {R}.
Arguments np_state {R}.

Inductive ParserEvent (R : Type) : Type :=
| PFile (name : bytes) (executable : bool) (size : Z) (reader : FileReader R)
| PSymlink (name target : bytes)
| PStartDirectory (name : bytes)
| PEndDirectory.
Arguments PFile {R}.
Arguments PSymlink {R}.
Arguments PStartDirectory {R}.
Arguments PEndDirectory {R}.

Section parser.
Context {R : Type} `{!AsyncBytesRead R}.
Implicit Types (x : NarParser R) (r : R).

Abbreviation next_result := (poll (option (res io_error (ParserEvent R)))).

Definition parser_new (r : R) : NarParser R := mk_parser (Available r) None inner_new.

Definition fails (e : io_error) : next_result := Ready (Some (Err e)).
Definition panics : next_result := Ready (Some Panic).
Definition emits (e : ParserEvent R) : next_result := Ready (Some (Ok e)).

(** Reading [len] bytes padded to [aligned] from the buffer: fill it up,
    [split_to], [advance] (both panic past the end) and [consume]. *)
Definition read_string (r : R) (buf : bytes) (len aligned : Z) : R * polled bytes :=
  match fill_to (Z.to_nat aligned) (Z.to_nat aligned) r buf with
  | (r, Ready (Ok buf)) =>
      if decide (len ≤ Z.of_nat (length buf) ∧ len ≤ aligned)%Z then
        match consume r (Z.to_nat aligned) with
        | Ok r => (r, Ready (Ok (take (Z.to_nat len) buf)))
        | Err e => (r, Ready (Err e))
        | Panic => (r, Ready Panic)
        end
      else (r, Ready Panic)
  | x => x
  end.

(** The [match] on the state the loop ends in: an event, or [k] to go on. *)
Definition dispatch (k : R → option bytes → Inner → NarParser R * next_result)
    (r : R) (nm : option bytes) (i : Inner) (buf : bytes) : NarParser R * next_result :=
  let at_ r nm := mk_parser (Available r) nm i in
  let name := default [] nm in
  match state i with
  | ReadContents NT_Symlink len aligned =>
      match read_string r buf len aligned with
      | (r, Pending) => (at_ r nm, Pending)
      | (r, Ready (Err e)) => (at_ r nm, fails e)
      | (r, Ready Panic) => (at_ r nm, panics)
      | (r, Ready (Ok target)) =>
          match bump_next false i with
          | Ok i => (mk_parser (Available r) None i, emits (PSymlink name target))
          | _ => (at_ r nm, panics)
          end
      end
  | ReadContents nt size _ =>
      match lend (Available r) (Z.to_nat size) with
      | Ok (l, f) =>
          (mk_parser l None i,
           emits (PFile name (bool_decide (nt = NT_ExecutableFile)) size f))
      | _ => (at_ r nm, panics)
      end
  | ReadEntryName len aligned =>
      match read_string r buf len aligned with
      | (r, Pending) => (at_ r nm, Pending)
      | (r, Ready (Err e)) => (at_ r nm, fails e)
      | (r, Ready Panic) => (at_ r nm, panics)
      | (r, Ready (Ok n)) =>
          match bump_next false i with
          | Ok i => k r (Some n) i
          | _ => (at_ r (Some n), panics)
          end
      end
  | ReadDir => (at_ r None, emits (PStartDirectory name))
  | FinishReadEntry => (at_ r nm, emits PEndDirectory)
  | Eof => (at_ r nm, Ready None)
  | _ => k r nm i
  end.

(** The loop of [poll_next], with the reader available. *)
Fixpoint next_loop (fuel : nat) (r : R) (nm : option bytes) (i : Inner)
    : NarParser R * next_result :=
  let at_ r i := mk_parser (Available r) nm i in
  match fuel with
  | O => (at_ r i, Pending)
  | S fuel =>
      match poll_fill_buf r with
      | (r, Pending) => (at_ r i, Pending)
      | (r, Ready (Err e)) => (at_ r i, fails e)
      | (r, Ready Panic) => (at_ r i, panics)
      | (r, Ready (Ok [])) => (at_ r i, fails (UnexpectedEof "EOF while reading NAR"))
      | (r, Ready (Ok buf)) =>
          match drive false i buf with
          | (i, Err e) => (at_ r i, fails e)
          | (i, Panic) => (at_ r i, panics)
          | (i, Ok cnt) =>
              match consume r cnt with
              | Err e => (at_ r i, fails e)
              | Panic => (at_ r i, panics)
              | Ok r => dispatch (next_loop fuel) r nm i (drop cnt buf)
              end
          end
      end
  end.

(** The state after the event last returned. *)
Definition resume_state (i : Inner) : res io_error Inner :=
  match state i with
  | ReadContents (NT_ExecutableFile | NT_File) _ _ | ReadDir | FinishReadEntry => bump_next false i
  | _ => Ok i
  end.

Definition poll_next (fuel : nat) x : NarParser R * next_result :=
  match poll_reader (np_reader x) with
  | (l, Pending) => (mk_parser l (np_name x) (np_state x), Pending)
  | (l, Ready (Err e)) => (mk_parser l (np_name x) (np_state x), fails e)
  | (l, Ready Panic) => (mk_parser l (np_name x) (np_state x), panics)
  | (l, Ready (Ok r)) =>
      match resume_state (np_state x) with
      | Ok i =>
          if is_eof i then (mk_parser l (np_name x) i, Ready None)
          else next_loop fuel r (np_name x) i
      | _ => (mk_parser l (np_name x) (np_state x), panics)
      end
  end.

(** [read_nar]: the events, each file read with [NarEvent::read_file] and
    dropped. [plans] are the sizes of the reads of each file; when [to_end]
    does not hold, the file is dropped after them, without being read to its
    end. [nfuel] bounds the loops inside one event, [fuel] the polls. *)
Fixpoint collect (nfuel fuel : nat) (to_end : bool) (plans : list (list nat)) x
    (acc : list NarEvent) : res io_error (list NarEvent) :=
  match fuel with
  | O => Panic
  | S fuel =>
      match poll_next nfuel x with
      | (x, Pending) => collect nfuel fuel to_end plans x acc
      | (x, Ready None) => Ok acc
      | (x, Ready (Some (Err e))) => Err e
      | (x, Ready (Some Panic)) => Panic
      | (x, Ready (Some (Ok (PFile name ex size f)))) =>
          match read_file nfuel (hd [] plans) to_end f [] with
          | (f, Ok c) =>
              collect nfuel fuel to_end (tl plans)
                (mk_parser (Lent (fchan (return_reader f))) (np_name x) (np_state x))
                (acc ++ [EvFile name ex size c])
          | (_, Err e) => Err e
          | (_, Panic) => Panic
          end
      | (x, Ready (Some (Ok (PSymlink name target)))) =>
          collect nfuel fuel to_end plans x (acc ++ [EvSymlink name target])
      | (x, Ready (Some (Ok (PStartDirectory name)))) =>
          collect nfuel fuel to_end plans x (acc ++ [EvStartDirectory name])
      | (x, Ready (Some (Ok PEndDirectory))) =>
          collect nfuel fuel to_end plans x (acc ++ [EvEndDirectory])
      end
  end.
End parser.

(** ** The stream of events of a whole input

    [pstream i nm bs evs]: with [bs] still to read, in the state [i] and with
    the entry name [nm], the events to come are [evs]. The state machine runs
    over the whole input here; that it may be cut into buffers is the
    refinement below. *)

Definition string_at (bs : bytes) (c after : bytes) (len aligned : Z) : Prop :=
  len = Z.of_nat (length c) ∧ alignable len ∧ aligned = calc_aligned len ∧
  ∃ pad, bs = c ++ pad ++ after ∧ length pad = calc_padding len.

Definition file_type (x : bool) : NodeType := if x then NT_ExecutableFile else NT_File.

Inductive pstream : Inner → option bytes → bytes → list NarEvent → Prop :=
| ps_eof i nm bs i' n :
    bs ≠ [] → run false i bs = Ok (i', n) → state i' = Eof → pstream i nm bs []
| ps_file i nm bs i' n x len al c after evs :
    bs ≠ [] → run false i bs = Ok (i', n) → state i' = ReadContents (file_type x) len al →
    string_at (drop n bs) c after len al →
    pstream (set_state i' (FinishNode 0)) None after evs →
    pstream i nm bs (EvFile (default [] nm) x len c :: evs)
| ps_symlink i nm bs i' n len al c after evs :
    bs ≠ [] → run false i bs = Ok (i', n) → state i' = ReadContents NT_Symlink len al →
    string_at (drop n bs) c after len al →
    pstream (set_state i' (FinishNode 0)) None after evs →
    pstream i nm bs (EvSymlink (default [] nm) c :: evs)
| ps_name i nm bs i' n len al c after evs :
    bs ≠ [] → run false i bs = Ok (i', n) → state i' = ReadEntryName len al →
    string_at (drop n bs) c after len al →
    pstream (set_state i' (ReadNode 0)) (Some c) after evs →
    pstream i nm bs evs
| ps_dir i nm bs i' n evs :
    bs ≠ [] → run false i bs = Ok (i', n) → state i' = ReadDir →
    pstream (set_state i' (ReadEntries RLookup_default)) None (drop n bs) evs →
    pstream i nm bs (EvStartDirectory (default [] nm) :: evs)
| ps_end i nm bs i' n i'' evs :
    bs ≠ [] → run false i bs = Ok (i', n) → state i' = FinishReadEntry →
    bump_state i' = Ok i'' → is_eof i'' = false → pstream i'' nm (drop n bs) evs →
    pstream i nm bs (EvEndDirectory :: evs)
| ps_last i nm bs i' n i'' :
    bs ≠ [] → run false i bs = Ok (i', n) → state i' = FinishReadEntry →
    bump_state i' = Ok i'' → is_eof i'' = true →
    pstream i nm bs [EvEndDirectory].

(** A piece of input consumed before the next stop. *)
Lemma pstream_consumes i bs i' nm tl evs :
  consumes false i bs i' → pstream i' nm tl evs → pstream i nm (bs ++ tl) evs.
Proof.
  intros [_ Hc] Hp. specialize (Hc tl).
  assert (∀ j n, run false i' tl = Ok (j, n) →
    run false i (bs ++ tl) = Ok (j, length bs + n) ∧
    drop (length bs + n) (bs ++ tl) = drop n tl) as Hrun.
  { intros j n E. rewrite Hc, E. split; [done|].
    by rewrite <-drop_drop, drop_app_length. }
  assert (tl ≠ [] → bs ++ tl ≠ []) as Hne by (by destruct bs).
  destruct Hp as [? ? ? ? ? ? E|? ? ? ? ? ? ? ? ? ? ? ? E|? ? ? ? ? ? ? ? ? ? ? E
    |? ? ? ? ? ? ? ? ? ? ? E|? ? ? ? ? ? ? E|? ? ? ? ? ? ? ? E|? ? ? ? ? ? ? E];
    destruct (Hrun _ _ E) as [E' Ed];
    [eapply ps_eof|eapply ps_file|eapply ps_symlink|eapply ps_name|eapply ps_dir|eapply ps_end
    |eapply ps_last]; eauto; rewrite Ed; eauto.
Qed.

Lemma run_stop i bs : inner_wf i → stops false i = true → state i ≠ ReadDir → run false i bs = Ok (i, 0).
Proof.
  intros Hwf Hs Hd. rewrite run_unfold by done. unfold drive_step, stops in *.
  by destruct (state i).
Qed.

Lemma string_at_padded c tl :
  alignable (Z.of_nat (length c)) →
  string_at (padded c ++ tl) c tl (Z.of_nat (length c)) (calc_aligned (Z.of_nat (length c))).
Proof.
  intros Ha. split; [done|]. split; [done|]. split; [done|]. eexists. unfold padded.
  rewrite <-app_assoc. split; [done|]. apply length_replicate.
Qed.

(** Contents: the length, then the string the parser reads itself. *)
Lemma pstream_contents nt lv nm c tl evs (ev : NarEvent) :
  alignable (Z.of_nat (length c)) → padded c ++ tl ≠ [] →
  ev = match nt with
       | NT_Symlink => EvSymlink (default [] nm) c
       | _ => EvFile (default [] nm) (bool_decide (nt = NT_ExecutableFile)) (Z.of_nat (length c)) c
       end →
  pstream (mk_inner (FinishNode 0) lv) None tl evs →
  pstream (mk_inner (ReadContentsLen nt ZEROS 0) lv) nm (put_nix_slice c ++ tl) (ev :: evs).
Proof.
  intros Ha Hne -> Hp. rewrite put_nix_slice_padded, <-app_assoc.
  eapply pstream_consumes; [by apply consumes_contents_len, alignable_u64|].
  set (i := mk_inner (ReadContents nt _ _) lv).
  assert (run false i (padded c ++ tl) = Ok (i, 0)) as Hr.
  { apply run_stop; [|done|done]. split; [by apply alignable_u64|].
    by apply calc_aligned_u64, alignable_u64. }
  pose proof (string_at_padded c tl Ha) as Hs.
  destruct nt.
  - eapply (ps_file _ _ _ _ _ false); eauto.
  - eapply (ps_file _ _ _ _ _ true); eauto.
  - eapply ps_symlink; eauto.
Qed.

Lemma pstream_name lv nm c tl evs :
  0 < lv → alignable (Z.of_nat (length c)) → padded c ++ tl ≠ [] →
  pstream (mk_inner (ReadNode 0) lv) (Some c) tl evs →
  pstream (mk_inner (ReadEntryNameLen ZEROS 0) lv) nm (put_nix_slice c ++ tl) evs.
Proof.
  intros Hlv Ha Hne Hp. rewrite put_nix_slice_padded, <-app_assoc.
  eapply pstream_consumes; [by apply consumes_name_len; [|apply alignable_u64]|].
  eapply ps_name; [done|apply run_stop|done|by apply string_at_padded|done]; try done.
  split; [by apply alignable_u64|]. split; [|done]. by apply calc_aligned_u64, alignable_u64.
Qed.

Lemma app_tok_ne (tok a b : bytes) : tok ≠ [] → a ++ tok ++ b ≠ [].
Proof. destruct a, tok; done. Qed.

(** The end of a node: its closing parenthesis, then the stream goes on. *)
Definition after_stream (lv : nat) (tl : bytes) (evs : list NarEvent) : Prop :=
  if decide (0 < lv) then pstream (mk_inner (FinishEntry 0) lv) None tl evs else evs = [].

Lemma pstream_finish_node lv tl evs :
  after_stream lv tl evs → pstream (mk_inner (FinishNode 0) lv) None (TOK_PAR ++ tl) evs.
Proof.
  intros Hp. unfold after_stream in Hp. case_decide as Hlv.
  - eapply pstream_consumes; [apply consumes_finish_node|]. unfold after_node.
    by rewrite decide_True.
  - subst evs. pose proof (consumes_finish_node false lv) as [_ Hc]. specialize (Hc tl).
    eapply ps_eof; [done| |].
    + rewrite Hc, run_eof; [done|]. unfold after_node. by rewrite decide_False.
    + unfold after_node. by rewrite decide_False.
Qed.

Lemma run_read_dir lv bs :
  run false (mk_inner ReadDir lv) bs = Ok (mk_inner ReadDir (lv + 1), 0).
Proof. by rewrite run_unfold. Qed.

Lemma pstream_entries lv es tl evs :
  0 < lv →
  Forall (λ e, ∀ lv nm tl evs, node_wf e.2 → after_stream lv tl evs →
    pstream (mk_inner (SelectNode RLookup_default) lv) nm (node_body e.2 ++ tl)
      (events_of (default [] nm) e.2 ++ evs)) es →
  Forall (λ e, alignable (Z.of_nat (length e.1)) ∧ node_wf e.2) es →
  pstream (mk_inner (ReadEntries RLookup_default) lv) None tl evs →
  pstream (mk_inner (ReadEntries RLookup_default) lv) None (entries_body es ++ tl)
    (concat ((λ e, events_of e.1 e.2) <$> es) ++ evs).
Proof.
  intros Hlv IH Hwf Htl. induction es as [|[n t] es IHes]; [done|].
  apply Forall_cons in IH as [IHt IH], Hwf as [[Hn Ht] Hwf]. cbn [fst snd] in *.
  unfold entries_body. rewrite !fmap_cons, !concat_cons. fold (entries_body es).
  cbn [fst snd]. rewrite <-!app_assoc.
  eapply pstream_consumes; [apply consumes_select_entry; [done|solve_in]|].
  apply pstream_name; [done|done|by apply app_tok_ne|].
  eapply pstream_consumes; [by apply consumes_read_node|].
  apply (IHt lv (Some n)); [done|]. unfold after_stream. rewrite decide_True by done.
  eapply pstream_consumes; [by apply consumes_finish_entry|]. by apply IHes.
Qed.

(** The parser's stream over a serialised node is its events. *)
Lemma pstream_node t : ∀ lv nm tl evs,
  node_wf t → after_stream lv tl evs →
  pstream (mk_inner (SelectNode RLookup_default) lv) nm (node_body t ++ tl)
    (events_of (default [] nm) t ++ evs).
Proof.
  induction t as [x c|g|es IH] using node_rect'; intros lv nm tl evs Hwf Htl.
  - cbn [node_body events_of]. rewrite <-!app_assoc. cbn [app]. cbn in Hwf.
    destruct x; (eapply pstream_consumes; [apply consumes_select_node; solve_in|]);
      (eapply pstream_contents; [done|by apply app_tok_ne|done|by apply pstream_finish_node]).
  - cbn [node_body events_of]. rewrite <-!app_assoc. cbn [app]. cbn in Hwf.
    eapply pstream_consumes; [apply consumes_select_node; solve_in|].
    eapply pstream_contents; [done|by apply app_tok_ne|done|by apply pstream_finish_node].
  - rewrite node_body_dir, events_of_dir, <-!app_assoc. apply node_wf_dir in Hwf.
    eapply pstream_consumes; [apply consumes_select_node; solve_in|]. cbn [app].
    eapply ps_dir; [|apply run_read_dir|done|]; [by apply app_tok_ne|]. rewrite drop_0.
    change (set_state _ _) with (mk_inner (ReadEntries RLookup_default) (lv + 1)).
    rewrite <-app_assoc. apply pstream_entries; [lia|done|done|].
    assert (consumes false (mk_inner (ReadEntries RLookup_default) (lv + 1)) TOK_PAR
      (mk_inner FinishReadEntry (lv + 1))) as [_ Hc]
      by (apply consumes_select_entry; [lia|solve_in]).
    assert (run false (mk_inner (ReadEntries RLookup_default) (lv + 1)) (TOK_PAR ++ tl) =
      Ok (mk_inner FinishReadEntry (lv + 1), length TOK_PAR)) as Hr.
    { rewrite Hc, run_stop; [done|cbn; lia|done|done]. }
    unfold after_stream in Htl. case_decide as Hlv.
    + eapply ps_end; [done|exact Hr|done| | |].
      * unfold bump_state. cbn. by rewrite decide_True by lia.
      * done.
      * rewrite drop_app_length. by rewrite Nat.add_sub.
    + subst evs. eapply ps_last; [done|exact Hr|done| |].
      * unfold bump_state. cbn. by rewrite decide_False by lia.
      * done.
Qed.

Lemma pstream_nar t tl :
  node_wf t → pstream inner_new None (nar t ++ tl) (events_of [] t).
Proof.
  intros Hwf. rewrite nar_tokens, <-app_assoc.
  eapply pstream_consumes; [apply consumes_root|].
  rewrite <-(app_nil_r (events_of [] t)). by apply (pstream_node t 0 None).
Qed.

(** ** States between two events *)

(** The states in which the loop of [poll_next] waits for input. *)
Definition looping (i : Inner) : bool :=
  match state i with
  | ReadContents (NT_ExecutableFile | NT_File) _ _ | ReadDir | FinishReadEntry | Eof => false
  | _ => true
  end.

Lemma drive_step_break P i buf i' n :
  drive_step P i buf = DBreak i' n →
  (stops false i = false → stops P i' = false) ∧ (P = false → state i' = ReadDir → 0 < level i').
Proof.
  unfold drive_step, stops. destruct i as [st lv]; cbn. destruct st; cbn.
  all: unfold read_token, select, read_len, skip; repeat case_match; intros; simplify_eq; cbn; try done.
  all: try (split; [done|]; intros; lia).
Qed.

Lemma run_nonstop i buf i' n :
  inner_wf i → stops false i = false → run false i buf = Ok (i', n) → stops false i' = true → 0 < n.
Proof.
  intros Hwf Hs. rewrite run_unfold by done. pose proof (drive_step_post false i buf Hwf) as Hp.
  destruct (drive_step false i buf) as [i1 n1|i1 n1| |] eqn:E; try done.
  - cbn in Hp. destruct Hp as (_ & _ & _ & H0). intros Hr _.
    destruct (run false i1 _) as [[i2 n2]| |]; unfold shift_run in Hr; cbn in Hr; simplify_eq.
    destruct n1; [|lia]. destruct (H0 eq_refl). congruence.
  - intros [= <- <-] Hs'. destruct (drive_step_break _ _ _ _ _ E) as [H _].
    rewrite H in Hs' by done. done.
Qed.

Lemma run_nil_nonstop i i' n :
  inner_wf i → stops false i = false → run false i [] = Ok (i', n) → stops false i' = false.
Proof.
  intros Hwf Hs Hr. destruct (stops false i') eqn:Hs'; [|done].
  assert (0 < n) by (by eapply run_nonstop). unfold run in Hr.
  pose proof (drive_wf false i [] Hwf) as Hd.
  destruct (drive false i []) as [i1 [n1| |]]; simplify_eq. cbn in Hd. lia.
Qed.

Lemma run_read_dir_level i buf i' n :
  inner_wf i → run false i buf = Ok (i', n) → state i' = ReadDir → 0 < level i'.
Proof.
  intros Hwf. revert i buf Hwf n. apply (drive_ind false (λ i buf, ∀ n,
    run false i buf = Ok (i', n) → state i' = ReadDir → 0 < level i')).
  intros i buf Hwf IH n. rewrite run_unfold by done.
  destruct (drive_step false i buf) as [i1 n1|i1 n1| |] eqn:E; try done.
  - destruct (run false i1 _) as [[i2 n2]| |] eqn:Er; unfold shift_run; cbn; intros; simplify_eq.
    by eapply IH.
  - intros [= <- <-]. by apply (drive_step_break _ _ _ _ _ E).
Qed.

(** Cutting the input where the state machine has not stopped. *)
Lemma pstream_resume i nm buf more i1 evs :
  inner_wf i1 → stops false i1 = false →
  run false i (buf ++ more) = shift_run (length buf) (run false i1 more) →
  pstream i nm (buf ++ more) evs → pstream i1 nm more evs.
Proof.
  intros Hwf Hs Hrun Hp.
  assert (∀ j n, run false i (buf ++ more) = Ok (j, n) → stops false j = true →
    ∃ n', run false i1 more = Ok (j, n') ∧ drop n (buf ++ more) = drop n' more ∧ more ≠ []) as Hr.
  { intros j n E Hj. rewrite Hrun in E.
    destruct (run false i1 more) as [[j1 n1]| |] eqn:E1; unfold shift_run in E; cbn in E;
      simplify_eq. exists n1. split; [done|]. split; [by rewrite <-drop_drop, drop_app_length|].
    intros ->. apply run_nil_nonstop in E1; [|done|done]. congruence. }
  remember (buf ++ more) as bs eqn:Ebs.
  destruct Hp as [? ? ? ? ? ? E Hst|? ? ? ? ? x ? ? ? ? ? ? E Hst|? ? ? ? ? ? ? ? ? ? ? E Hst
    |? ? ? ? ? ? ? ? ? ? ? E Hst|? ? ? ? ? ? ? E Hst|? ? ? ? ? ? ? ? E Hst|? ? ? ? ? ? ? E Hst];
    (destruct (Hr _ _ E) as (n' & E' & Ed & Hne); [unfold stops; by rewrite Hst|]); rewrite ?Ed in *.
  - by eapply ps_eof.
  - by eapply ps_file; eauto.
  - by eapply ps_symlink; eauto.
  - by eapply ps_name; eauto.
  - by eapply ps_dir; eauto.
  - by eapply ps_end; eauto.
  - by eapply ps_last; eauto.
Qed.

(** ** The parser refines the stream *)

Section refinement.
Context {R : Type} `{!AsyncBytesRead R, !AsyncBytesReadLaws R}.
Implicit Types (x : NarParser R) (r : R).

Lemma read_string_spec r c after len al r' q :
  rd_inv r → string_at (rest r) c after len al →
  read_string r (held r) len al = (r', q) →
  rd_inv r' ∧
  match q with
  | Pending => rest r' = rest r ∧ patience r' < patience r
  | Ready (Ok b) => b = c ∧ rest r' = after ∧ patience r' ≤ patience r
  | _ => False
  end.
Proof.
  intros Hi (-> & Ha & -> & pad & Hr & Hpad) E. unfold read_string in E.
  pose proof (calc_padding_alignable _ Ha) as Hal.
  destruct (fill_to _ _ r (held r)) as [r1 q1] eqn:E1.
  apply fill_to_spec in E1 as (Hi1 & Hr1 & Hq1); [|done|by apply laws_fits; [|lia]|lia].
  destruct q1 as [[b|e|]|]; try done.
  - destruct Hq1 as (-> & Hlen & Hp1). rewrite decide_True in E by lia.
    destruct (consume_law r1 (Z.to_nat (calc_aligned (Z.of_nat (length c)))))
      as (r2 & Ec & Hi2 & Hr2 & _ & Hp2); [done|done|].
    rewrite Ec in E. injection E as <- <-. split; [done|]. split; [|split; [|lia]].
    + rewrite Nat2Z.id, (held_take r1 Hi1), Hr1, Hr, take_take, Nat.min_l by lia.
      by rewrite take_app_length.
    + rewrite Hr2, Hr1, Hr, app_assoc, drop_app_ge, length_app by (rewrite length_app; lia).
      by replace (_ - _) with 0 by lia.
  - exfalso. destruct Hq1 as [_ Hq1]. rewrite Hr, !length_app in Hq1. lia.
  - injection E as <- <-. auto.
Qed.

(** What is left of the stream after an event, or after a pending poll. *)
Definition resumes x (bs : bytes) (evs : list NarEvent) : Prop :=
  ∃ i, resume_state (np_state x) = Ok i ∧
    if is_eof i then evs = []
    else inner_wf i ∧ looping i = true ∧ pstream i (np_name x) bs evs.

Definition parser_at x (bs : bytes) (evs : list NarEvent) : Prop :=
  lending_at (np_reader x) bs ∧ resumes x bs evs.

(** The parser after an event: at [after] of the stream, [P] patience left. *)
Definition goes_on x (P N : nat) (evs : list NarEvent) : Prop :=
  ∃ bs, parser_at x bs evs ∧ lending_patience (np_reader x) ≤ P ∧ length bs ≤ N.

Definition next_post (P N : nat) (evs : list NarEvent) x (q : poll (option (res io_error (ParserEvent R))))
    : Prop :=
  match q with
  | Pending => ∃ P', P' < P ∧ goes_on x P' N evs
  | Ready None => evs = []
  | Ready (Some (Ok (PFile name ex size f))) =>
      ∃ c after evs', evs = EvFile name ex size c :: evs' ∧ file_at f c after ∧
        length c + length after ≤ N ∧ file_patience f ≤ P ∧ resumes x after evs'
  | Ready (Some (Ok (PSymlink name g))) =>
      ∃ evs', evs = EvSymlink name g :: evs' ∧ goes_on x P N evs'
  | Ready (Some (Ok (PStartDirectory name))) =>
      ∃ evs', evs = EvStartDirectory name :: evs' ∧ goes_on x P N evs'
  | Ready (Some (Ok PEndDirectory)) =>
      ∃ evs', evs = EvEndDirectory :: evs' ∧ goes_on x P N evs'
  | _ => False
  end.

Lemma goes_on_looping r nm i evs P N :
  rd_inv r → inner_wf i → looping i = true → pstream i nm (rest r) evs →
  patience r ≤ P → length (rest r) ≤ N → goes_on (mk_parser (Available r) nm i) P N evs.
Proof.
  intros Hi Hwf Hl Hp ? ?. exists (rest r). split; [|done]. split; [by split|].
  exists i. split; [by unfold resume_state, looping in *; cbn; repeat case_match|].
  assert (is_eof i = false) as -> by (unfold is_eof, looping in *; by destruct (state i)). done.
Qed.

Lemma looping_nonstop i : stops false i = false → looping i = true.
Proof. unfold stops, looping. by destruct (state i). Qed.

(** The parser waits for the rest of a string it reads itself. *)
Lemma pending_string r nm i len al c after evs P N :
  rd_inv r → inner_wf i → patience r < P → length (rest r) ≤ N → rest r ≠ [] →
  string_at (rest r) c after len al →
  (∃ evs', state i = ReadContents NT_Symlink len al ∧ evs = EvSymlink (default [] nm) c :: evs' ∧
     pstream (set_state i (FinishNode 0)) None after evs') ∨
  (state i = ReadEntryName len al ∧ pstream (set_state i (ReadNode 0)) (Some c) after evs) →
  next_post P N evs (mk_parser (Available r) nm i) Pending.
Proof.
  intros Hi Hwf HP HN Hne Hs Hcase. exists (patience r). split; [done|].
  assert (looping i = true ∧ stops false i = true ∧ state i ≠ ReadDir) as (Hl & Hst & Hd).
  { unfold looping, stops. by destruct Hcase as [(? & -> & _)|(-> & _)]. }
  apply goes_on_looping; auto.
  destruct Hcase as [(evs' & Est & -> & Hp)|(Est & Hp)].
  - eapply ps_symlink; [done|by apply run_stop|done|by rewrite drop_0|done].
  - eapply ps_name; [done|by apply run_stop|done|by rewrite drop_0|done].
Qed.

Lemma read_string_pending r c after len al r' :
  rd_inv r → string_at (rest r) c after len al → read_string r (held r) len al = (r', Pending) →
  rest r ≠ [].
Proof.
  intros Hi (-> & Ha & -> & pad & Hr & Hpad) E Hn. rewrite Hr in Hn.
  apply app_eq_nil in Hn as [-> [-> ->]%app_eq_nil]. unfold read_string in E.
  change (Z.to_nat (calc_aligned _)) with 0 in E. cbn in E.
  repeat case_match; done.
Qed.

Lemma string_at_after bs c after len al :
  string_at bs c after len al → length c + length after ≤ length bs.
Proof. intros (_ & _ & _ & pad & -> & _). rewrite !length_app. lia. Qed.

(** A symlink target or an entry name is read, or the parser waits for more
    of it, where the wait is a legitimate one. *)
Lemma string_post r nm i len al c after evs P N r' q :
  rd_inv r → inner_wf i → patience r ≤ P → length (rest r) ≤ N →
  string_at (rest r) c after len al →
  (∃ evs', state i = ReadContents NT_Symlink len al ∧ evs = EvSymlink (default [] nm) c :: evs' ∧
     pstream (set_state i (FinishNode 0)) None after evs') ∨
  (state i = ReadEntryName len al ∧ pstream (set_state i (ReadNode 0)) (Some c) after evs) →
  read_string r (held r) len al = (r', q) →
  rd_inv r' ∧ patience r' ≤ patience r ∧ length (rest r') ≤ length (rest r) ∧
  (q = Ready (Ok c) ∧ rest r' = after ∨
   q = Pending ∧ next_post P N evs (mk_parser (Available r') nm i) Pending).
Proof.
  intros Hi Hwf HP HN Hat Hcase E. pose proof (string_at_after _ _ _ _ _ Hat).
  destruct (read_string_spec r c after len al r' q Hi Hat E) as [Hi1 Hq1].
  destruct q as [[b|e|]|]; try done.
  - destruct Hq1 as (-> & Hr1 & Hp1). rewrite Hr1. split_and!; [done|lia|lia|by left].
  - destruct Hq1 as [Hr1 Hp1]. split; [done|]. split; [lia|]. split; [by rewrite Hr1|].
    right. split; [done|]. eapply pending_string; rewrite ?Hr1; try done; [lia|].
    by eapply read_string_pending.
Qed.

(** A file has been lent: the events go on behind its contents. *)
Lemma file_post r nm i1 ex len al c after evs P N :
  rd_inv r → patience r ≤ P → length (rest r) ≤ N →
  state i1 = ReadContents (file_type ex) len al → string_at (rest r) c after len al →
  pstream (set_state i1 (FinishNode 0)) None after evs →
  next_post P N (EvFile (default [] nm) ex len c :: evs) (mk_parser (Lent None) None i1)
    (emits (PFile (default [] nm) ex len (mk_file [] (Some (padded_new r (Z.to_nat len))) None))).
Proof.
  intros Hi HP HN Hst Hat Hp.
  pose proof (string_at_after _ _ _ _ _ Hat). destruct Hat as (-> & Ha & -> & pad & Hbs & Hpad).
  rewrite Nat2Z.id. exists c, after, evs. split; [done|]. split; [|split; [lia|split; [done|]]].
  - split; [done|]. split; [by eapply padded_new_at|]. split; [apply prefix_nil|].
    apply padded_avail_0.
  - exists (set_state i1 (FinishNode 0)). split.
    { unfold resume_state, bump_next, bump_state. cbn. rewrite Hst. by destruct ex. }
    cbn. split; [cbn; lia|done].
Qed.

(** One stop of the state machine, with the reader at the stop. *)
Lemma dispatch_spec k r nm i1 n evs i bs P N x q :
  (∀ r nm i evs, rd_inv r → inner_wf i → stops false i = false → patience r ≤ P →
     length (rest r) ≤ length bs - n → pstream i nm (rest r) evs →
     next_post P N evs (k r nm i).1 (k r nm i).2) →
  rd_inv r → inner_wf i1 → stops false i1 = true → rest r = drop n bs →
  patience r ≤ P → length (rest r) ≤ N → (state i1 = ReadDir → 0 < level i1) →
  run false i bs = Ok (i1, n) → pstream i nm bs evs →
  dispatch k r nm i1 (held r) = (x, q) → next_post P N evs x q.
Proof.
  intros IH Hi Hwf Hs Hr HP HN Hlv Hrun Hp E. unfold dispatch in E. cbn zeta in E.
  destruct Hp as [? ? ? ? ? _ E' Hst|? ? ? ? ? ex len al c after evs _ E' Hst Hat Hp
    |? ? ? ? ? len al c after evs _ E' Hst Hat Hp|? ? ? ? ? len al c after evs _ E' Hst Hat Hp
    |? ? ? ? ? evs _ E' Hst Hp|? ? ? ? ? i'' evs _ E' Hst Hb He Hp|? ? ? ? ? i'' _ E' Hst Hb He];
    rewrite Hrun in E'; injection E' as <- <-; rewrite Hst in E; try rewrite <-Hr in *.
  - injection E as <- <-. done.
  - assert (lend (Available r) (Z.to_nat len) =
      Ok (Lent None, mk_file [] (Some (padded_new r (Z.to_nat len))) None)) as Hl by done.
    rewrite Hl in E. clear Hl.
    assert (next_post P N (EvFile (default [] nm) ex len c :: evs) (mk_parser (Lent None) None i1)
      (emits (PFile (default [] nm) ex len
        (mk_file [] (Some (padded_new r (Z.to_nat len))) None)))) as Hpost by (by eapply file_post).
    destruct ex; cbn in E; injection E as <- <-; exact Hpost.
  - destruct (read_string r (held r) len al) as [r1 q1] eqn:Es.
    destruct (string_post r nm i1 len al c after (EvSymlink (default [] nm) c :: evs) P N r1 q1)
      as (Hi1 & Hp1 & Hl1 & [[-> Hr1]|[-> Hpost]]); try done; [left; by eauto| |].
    + unfold bump_next, bump_state in E. rewrite Hst in E. injection E as <- <-.
      exists evs. split; [done|]. apply goes_on_looping; [done|cbn; lia|done|by rewrite Hr1|lia|lia].
    + by injection E as <- <-.
  - destruct (read_string r (held r) len al) as [r1 q1] eqn:Es.
    destruct (string_post r nm i1 len al c after evs P N r1 q1)
      as (Hi1 & Hp1 & Hl1 & [[-> Hr1]|[-> Hpost]]); try done; [right; by eauto| |].
    + unfold bump_next, bump_state in E. rewrite Hst in E.
      assert (inner_wf (set_state i1 (ReadNode 0))) as Hwf'.
      { unfold inner_wf in *. rewrite Hst in Hwf. cbn. split; [lia|]. apply Hwf. }
      specialize (IH r1 (Some c) (set_state i1 (ReadNode 0)) evs).
      rewrite E in IH. cbn [fst snd] in IH.
      apply IH; [done|done|done|lia| |by rewrite Hr1].
      rewrite <-length_drop, <-Hr. lia.
    + by injection E as <- <-.
  - injection E as <- <-. exists evs. split; [done|]. exists (rest r).
    split; [|done]. split; [done|]. exists (set_state i1 (ReadEntries RLookup_default)).
    split; [unfold resume_state, bump_next, bump_state; cbn; by rewrite Hst|].
    split; [split; [apply RLookup_default_wf|cbn; auto]|]. done.
  - injection E as <- <-. exists evs. split; [done|]. exists (rest r).
    split; [|done]. split; [done|]. exists i''. split.
    { unfold resume_state, bump_next. cbn. by rewrite Hst. }
    rewrite He. unfold bump_state in Hb. rewrite Hst in Hb.
    case_decide; injection Hb as <-; [|done]. cbn. split; [lia|done].
  - injection E as <- <-. exists []. split; [done|]. exists (rest r).
    split; [|done]. split; [done|]. exists i''. split.
    { unfold resume_state, bump_next. cbn. by rewrite Hst. }
    by rewrite He.
Qed.

Lemma next_loop_spec fuel r nm i evs P N :
  rd_inv r → inner_wf i → looping i = true → patience r ≤ P → length (rest r) ≤ N →
  2 * length (rest r) + (if stops false i then 1 else 0) < fuel → pstream i nm (rest r) evs →
  next_post P N evs (next_loop fuel r nm i).1 (next_loop fuel r nm i).2.
Proof.
  revert r nm i evs P; induction fuel as [|fuel IH]; intros r nm i evs P Hi Hwf Hl HP HN Hf Hp; [lia|].
  assert (rest r ≠ []) as Hne by (by destruct Hp).
  cbn [next_loop]. destruct (poll_fill_buf r) as [r1 q1] eqn:E1.
  destruct (poll_fill_buf_law r r1 q1 Hi E1) as (Hi1 & Hr1 & Hq1).
  destruct q1 as [[buf|e|]|]; try done.
  2: { cbn. destruct Hq1 as [_ Hlt]. exists (patience r1). split; [lia|].
       apply goes_on_looping; rewrite ?Hr1; auto. }
  destruct Hq1 as (Hh & Hnil & _ & Hp1). destruct buf as [|y b]; [by specialize (Hnil eq_refl)|].
  set (buf := y :: b) in *. assert (0 < length buf) as Hb by (cbn; lia). clearbody buf.
  destruct (held_prefix r1 Hi1) as [more Hmore]. rewrite Hr1, <-Hh in Hmore.
  assert (length buf ≤ length (rest r)) as Hbl by (rewrite Hmore, length_app; lia).
  assert (∃ i1 n1, run false i buf = Ok (i1, n1)) as (i1 & n1 & Erun).
  { pose proof (run_app false i buf more Hwf) as Ha. rewrite <-Hmore in Ha.
    assert (∃ i' n, run false i (rest r) = Ok (i', n)) as (i' & n' & E) by (destruct Hp; eauto).
    rewrite E in Ha. destruct (run false i buf) as [[]| |]; cbn in Ha; eauto; done. }
  destruct (run_drive false i buf i1 n1 Hwf Erun) as (-> & Hwf1 & Hn1 & Hstop).
  destruct (consume_law r1 n1) as (r2 & -> & Hi2 & Hr2 & Hh2 & Hp2); [done|by rewrite <-Hh|].
  rewrite Hh, <-Hh2. rewrite Hr1 in Hr2.
  pose proof (run_app false i buf more Hwf) as Ha. rewrite <-Hmore, Erun in Ha. cbn in Ha.
  assert (length (rest r2) = length (rest r) - n1) as Hlr2 by (by rewrite Hr2, length_drop).
  destruct (stops false i1) eqn:Hs1.
  - destruct (dispatch _ r2 nm i1 _) as [x q] eqn:Ed. cbn.
    eapply (dispatch_spec (next_loop fuel) r2 nm i1 n1 evs i (rest r)); try done; try lia.
    + intros r3 nm3 i3 evs3 Hi3 Hwf3 Hs3 HP3 Hlen3 Hp3.
      apply IH; try done; [by apply looping_nonstop|lia|]. rewrite Hs3.
      assert (stops false i = false → 0 < n1) as Hpos by (intros; by apply (run_nonstop i buf i1)).
      revert Hf Hpos. clear -Hlen3 Hbl Hb Hn1. destruct (stops false i); intros Hf Hpos; [lia|].
      specialize (Hpos eq_refl). lia.
    + intros. by apply (run_read_dir_level i buf i1 n1).
  - rewrite (Hstop eq_refl) in *. rewrite Hmore, drop_app_length in Hr2.
    assert (dispatch (next_loop fuel) r2 nm i1 (held r2) = next_loop fuel r2 nm i1) as ->.
    { unfold dispatch, stops in *. by destruct (state i1). }
    apply IH; [done|done|by apply looping_nonstop|lia|lia|rewrite Hs1, Hlr2; lia|].
    rewrite Hr2. apply (pstream_resume i nm buf more); [done|done|by rewrite <-Hmore|].
    by rewrite <-Hmore.
Qed.

Lemma poll_next_spec fuel x bs evs x' q :
  parser_at x bs evs → 2 * length bs + 1 < fuel → poll_next fuel x = (x', q) →
  next_post (lending_patience (np_reader x)) (length bs) evs x' q.
Proof.
  intros (Hlend & i & Hres & Hi) Hf E. unfold poll_next in E.
  destruct (poll_reader (np_reader x)) as [l ql] eqn:El.
  apply (poll_reader_spec _ bs) in El; [|done].
  destruct ql as [[r|e|]|]; try done.
  - destruct El as (-> & Hir & Hr & Hp). rewrite Hres in E.
    destruct (is_eof i) eqn:He; [injection E as <- <-; done|].
    destruct Hi as (Hwf & Hl & Hps).
    pose proof (next_loop_spec fuel r (np_name x) i evs (lending_patience (np_reader x)) (length bs))
      as Hn. rewrite E in Hn. apply Hn; rewrite ?Hr; try done. destruct (stops false i); lia.
  - injection E as <- <-. destruct El as [Hl Hp]. exists (lending_patience l).
    split; [done|]. exists bs. split; [|cbn; lia]. split; [done|].
    exists i. by split.
Qed.

(** ** Collecting the events *)

Definition event_read (to_end : bool) (e e' : NarEvent) : Prop :=
  match e, e' with
  | EvFile n x s c, EvFile n' x' s' c' =>
      n = n' ∧ x = x' ∧ s = s' ∧ c' `prefix_of` c ∧ (to_end = true → c' = c)
  | e, e' => e = e'
  end.

Lemma collect_spec nfuel fuel to_end plans x bs evs acc :
  parser_at x bs evs → 2 * length bs + lending_patience (np_reader x) + 1 < nfuel →
  length evs + lending_patience (np_reader x) < fuel →
  ∃ evs', collect nfuel fuel to_end plans x acc = Ok (acc ++ evs') ∧
    Forall2 (event_read to_end) evs evs'.
Proof.
  revert plans x bs evs acc; induction fuel as [|fuel IH]; intros plans x bs evs acc Hat Hnf Hf; [lia|].
  cbn [collect]. destruct (poll_next nfuel x) as [x1 q] eqn:E.
  apply (poll_next_spec _ _ bs evs) in E; [|done|lia].
  destruct q as [[[e|e|]|]|]; try done; cbn in E.
  - destruct e as [name ex size f|name g|name|].
    + destruct E as (c & after & evs' & -> & Hfile & Hlen & Hpat & Hres).
      destruct (read_file_spec nfuel (hd [] plans) to_end f c after [] Hfile)
        as (f' & c1 & c2 & -> & -> & Hfile' & Hpat' & Hend); [lia|].
      rewrite length_app in Hlen. cbn [app].
      destruct (return_reader_spec f' c2 after Hfile') as [Hl Hlp].
      destruct (IH (tl plans) (mk_parser (Lent (fchan (return_reader f'))) (np_name x1) (np_state x1))
        after evs' (acc ++ [EvFile name ex size c1])) as (evs'' & -> & Hf2).
      { by split. } { cbn [np_reader]. lia. } { cbn in Hf. cbn [np_reader]. lia. }
      exists (EvFile name ex size c1 :: evs''). rewrite <-app_assoc. split; [done|].
      constructor; [|done]. repeat split; [by exists c2|]. intros Ht. by rewrite (Hend Ht), app_nil_r.
    + destruct E as (evs' & -> & bs' & Hat' & ? & ?). cbn in Hf.
      destruct (IH plans x1 bs' evs' (acc ++ [EvSymlink name g])) as (evs'' & -> & ?); [done|lia|lia|].
      exists (EvSymlink name g :: evs''). rewrite <-app_assoc. split; [done|]. constructor; [cbn|]; done.
    + destruct E as (evs' & -> & bs' & Hat' & ? & ?). cbn in Hf.
      destruct (IH plans x1 bs' evs' (acc ++ [EvStartDirectory name])) as (evs'' & -> & ?);
        [done|lia|lia|].
      exists (EvStartDirectory name :: evs''). rewrite <-app_assoc. split; [done|]. constructor; [cbn|]; done.
    + destruct E as (evs' & -> & bs' & Hat' & ? & ?). cbn in Hf.
      destruct (IH plans x1 bs' evs' (acc ++ [EvEndDirectory])) as (evs'' & -> & ?); [done|lia|lia|].
      exists (EvEndDirectory :: evs''). rewrite <-app_assoc. split; [done|]. constructor; [cbn|]; done.
  - exists []. rewrite app_nil_r. subst evs. auto.
  - destruct E as (P' & ? & bs' & Hat' & ? & ?). apply (IH plans x1 bs' evs acc); [done|lia|lia].
Qed.

Lemma event_read_eq es es' : Forall2 (event_read true) es es' → es' = es.
Proof.
  induction 1 as [|e e' es es' He _ IH]; [done|]. f_equal; [|done].
  destruct e, e'; cbn in He; try done. destruct He as (-> & -> & -> & _ & ->); done.
Qed.

Lemma parser_new_at r bs evs :
  rd_inv r → rest r = bs → pstream inner_new None bs evs → parser_at (parser_new r) bs evs.
Proof. intros Hi Hr Hp. split; [done|]. exists inner_new. split; [done|]. split; [cbn; lia|done]. Qed.

Lemma collect_nar nfuel fuel to_end plans r t junk :
  rd_inv r → rest r = nar t ++ junk → node_wf t →
  2 * length (nar t ++ junk) + patience r + 1 < nfuel →
  length (events_of [] t) + patience r < fuel →
  ∃ evs, collect nfuel fuel to_end plans (parser_new r) [] = Ok evs ∧
    Forall2 (event_read to_end) (events_of [] t) evs.
Proof.
  intros Hi Hr Hwf Hn Hf. apply (collect_spec nfuel fuel to_end plans (parser_new r) (nar t ++ junk));
    [|done|done]. by apply parser_new_at, pstream_nar.
Qed.
End refinement.
