(* ===== verification/BufferMut.v ===== *)
(** The reader's buffer ([harmonia-utils-io/src/bytes_reader/buffer/buffer_mut.rs]):
    a window into a reference-counted vector, written with unsafe code, of
    which [filled] hands out snapshots that share the memory. The model has
    the memory as a heap of vectors, so that sharing and aliasing are part of
    it. *)

From stdpp Require Import base list numbers strings gmap.
From Stdlib Require Import ZArith Lia Strings.Byte.
From S2P Require Import Prelude Async.

(** ** Memory, the window and its snapshots *)

(** An [Arc<Vec<u8>>] is an address; a vector is its whole allocation, the
    bytes past its length included. *)
Record Filled : Type := mk_filled { f_arc : nat; f_off : nat; f_len : nat }.

#[export] Instance Filled_eq_dec : EqDecision Filled.
Proof. solve_decision. Defined.

Record BufferMut : Type := mk_buffer { b_arc : nat; b_off : nat; b_len : nat; b_cap : nat }.

(** [live] are the snapshots not yet dropped. *)
Record world : Type := mk_world { heap : gmap nat bytes; buf : BufferMut; live : list Filled }.

Definition mem (w : world) (a : nat) : bytes := default [] (heap w !! a).

Definition slice (m : bytes) (off len : nat) : bytes := take len (drop off m).

(** [as_slice] of the buffer and of a snapshot. *)
Definition as_slice (w : world) : bytes := slice (mem w (b_arc (buf w))) (b_off (buf w)) (b_len (buf w)).
Definition view (w : world) (f : Filled) : bytes := slice (mem w (f_arc f)) (f_off f) (f_len f).

Definition capacity (w : world) : nat := b_cap (buf w).
Definition remaining_mut (w : world) : nat := b_cap (buf w) - b_len (buf w).

(** The capacity of the vector behind the window. *)
Definition v_capacity (w : world) : nat := length (mem w (b_arc (buf w))).

(** ** Operations *)

Definition with_capacity (n : nat) : world :=
  mk_world {[ 0 := replicate n Byte.x00 ]} (mk_buffer 0 0 0 n) [].

Definition filled (w : world) : world * Filled :=
  let f := mk_filled (b_arc (buf w)) (b_off (buf w)) (b_len (buf w)) in
  (mk_world (heap w) (buf w) (f :: live w), f).

(** Dropping snapshots: those of [keep] stay. *)
Definition drop_filled (w : world) (keep : list Filled) : world := mk_world (heap w) (buf w) keep.

(** [Arc::get_mut] succeeds when no snapshot shares the vector. *)
Definition unique (w : world) : bool :=
  bool_decide (Forall (λ f, f_arc f ≠ b_arc (buf w)) (live w)).

(** [Vec::reserve]: at least doubles, and at least eight bytes. *)
Definition vec_reserve (v_len additional : nat) (m : bytes) : bytes :=
  if decide (length m - v_len < additional)
  then m ++ replicate (max (max (2 * length m) (v_len + additional)) 8 - length m) Byte.x00
  else m.

Definition set_mem (w : world) (m : bytes) (b : BufferMut) : world :=
  mk_world (<[b_arc b := m]> (heap w)) b (live w).

(** The two reallocations of [reserve_inner]: the vector is ours... *)
Definition reserve_unique (w : world) (additional : nat) : world :=
  let b := buf w in
  let m := mem w (b_arc b) in
  let new_cap := b_len b + additional in
  if decide (new_cap ≤ length m ∧ b_len b ≤ b_off b) then
    set_mem w (as_slice w ++ drop (b_len b) m) (mk_buffer (b_arc b) 0 (b_len b) (length m))
  else
    let new_cap := max (2 * length m) (new_cap + b_off b) in
    let v_len := b_off b + b_len b in
    let m := vec_reserve v_len (new_cap - v_len) m in
    set_mem w m (mk_buffer (b_arc b) (b_off b) (b_len b) (length m - b_off b)).

(** ... or shared, and the window moves to a new one. *)
Definition reserve_shared (w : world) (additional : nat) : world :=
  let b := buf w in
  let new_cap := max (b_len b + additional) (v_capacity w) in
  let m := as_slice w ++ replicate (new_cap - b_len b) Byte.x00 in
  set_mem w m (mk_buffer (fresh (dom (heap w))) 0 (b_len b) new_cap).

Definition reserve (w : world) (additional : nat) : world :=
  if decide (additional ≤ remaining_mut w) then w
  else if unique w then reserve_unique w additional else reserve_shared w additional.

(** [advance], with its assertion. *)
Definition advance (w : world) (cnt : nat) : res io_error world :=
  let b := buf w in
  if decide (b_len b < cnt) then Panic
  else Ok (mk_world (heap w)
             (mk_buffer (b_arc b) (b_off b + cnt) (b_len b - cnt) (b_cap b - cnt)) (live w)).

(** Writing [bs] into [spare_capacity_mut], then [advance_mut]. *)
Definition extend (w : world) (bs : bytes) : res io_error world :=
  let b := buf w in
  if decide (remaining_mut w < length bs) then Panic
  else
    let m := mem w (b_arc b) in
    let pos := b_off b + b_len b in
    Ok (set_mem w (take pos m ++ bs ++ drop (pos + length bs) m)
          (mk_buffer (b_arc b) (b_off b) (b_len b + length bs) (b_cap b))).

(** [copy_to_bytes]: a snapshot of the first [len] bytes, then [advance]. *)
Definition copy_to_bytes (w : world) (len : nat) : res io_error (world * Filled) :=
  if decide (b_len (buf w) < len) then Panic
  else
    let f := mk_filled (b_arc (buf w)) (b_off (buf w)) len in
    w ← advance (mk_world (heap w) (buf w) (f :: live w)) len; mret (w, f).

(** ** Invariant *)

Definition filled_wf (w : world) (f : Filled) : Prop :=
  f_arc f ∈ dom (heap w) ∧ f_off f + f_len f ≤ length (mem w (f_arc f)) ∧
  (f_arc f = b_arc (buf w) → f_off f + f_len f ≤ b_off (buf w) + b_len (buf w)).

Definition world_wf (w : world) : Prop :=
  b_arc (buf w) ∈ dom (heap w) ∧ b_off (buf w) + b_cap (buf w) = v_capacity w ∧
  b_len (buf w) ≤ b_cap (buf w) ∧ Forall (filled_wf w) (live w).

(** One step changes the contents of the buffer to [c], keeps the invariant,
    and no snapshot that is still live sees a change. *)
Definition step_ok (w w' : world) (c : bytes) : Prop :=
  world_wf w' ∧ as_slice w' = c ∧ ∀ f, f ∈ live w → f ∈ live w' → view w' f = view w f.

Lemma length_slice m off len : off + len ≤ length m → length (slice m off len) = len.
Proof. intros. unfold slice. rewrite length_take, length_drop. lia. Qed.

Lemma length_as_slice w : world_wf w → length (as_slice w) = b_len (buf w).
Proof. intros (_ & Hc & Hl & _). apply length_slice. unfold v_capacity in Hc. lia. Qed.

Lemma mem_set_mem w m b a : mem (set_mem w m b) a = if decide (a = b_arc b) then m else mem w a.
Proof.
  unfold mem, set_mem. cbn. case_decide as H; [by rewrite H, lookup_insert_eq|].
  by rewrite lookup_insert_ne by done.
Qed.

Lemma filled_wf_in w f : world_wf w → f ∈ live w → filled_wf w f.
Proof. intros (_ & _ & _ & Hf) Hin. rewrite Forall_forall in Hf. auto. Qed.

(** A change of the vector of the buffer that keeps what lies before its end. *)
Lemma set_mem_ok w m b c :
  world_wf w → b_arc b = b_arc (buf w) → b_off b + b_cap b = length m → b_len b ≤ b_cap b →
  slice m (b_off b) (b_len b) = c →
  (unique w = false → length (mem w (b_arc b)) ≤ length m ∧
     b_off (buf w) + b_len (buf w) ≤ b_off b + b_len b ∧
     take (b_off (buf w) + b_len (buf w)) m =
     take (b_off (buf w) + b_len (buf w)) (mem w (b_arc b))) →
  step_ok w (set_mem w m b) c.
Proof.
  intros Hwf Ha Hcap Hlen Hc Hkeep.
  assert (∀ f, f ∈ live w → f_arc f = b_arc b →
    length (mem w (b_arc b)) ≤ length m ∧ b_off (buf w) + b_len (buf w) ≤ b_off b + b_len b ∧
    slice m (f_off f) (f_len f) = slice (mem w (b_arc b)) (f_off f) (f_len f)) as Hview.
  { intros f Hin Hf. destruct (unique w) eqn:Hu.
    { exfalso. unfold unique in Hu. apply bool_decide_eq_true in Hu. rewrite Forall_forall in Hu.
      apply (Hu f Hin). congruence. }
    destruct (Hkeep eq_refl) as (? & ? & Hk). split; [done|]. split; [done|].
    destruct (filled_wf_in w f Hwf Hin) as (_ & _ & Hend). specialize (Hend ltac:(congruence)).
    unfold slice. rewrite !take_drop_commute.
    rewrite <-(Nat.min_l (f_off f + f_len f) (b_off (buf w) + b_len (buf w))) by lia.
    rewrite <-!take_take, Hk. done. }
  split; [|split].
  - unfold world_wf, v_capacity. cbn [buf set_mem]. rewrite mem_set_mem, decide_True by done.
    split; [set_solver|]. split; [done|]. split; [done|]. cbn [live set_mem].
    apply Forall_forall. intros f Hin. destruct (filled_wf_in w f Hwf Hin) as (Hd & Hl & He).
    unfold filled_wf. rewrite mem_set_mem. cbn [heap buf set_mem].
    split; [set_solver|]. case_decide as Hf; [|by split].
    destruct (Hview f Hin Hf) as (? & ? & _). rewrite Hf in Hl.
    split; [lia|]. intros _. specialize (He ltac:(congruence)). lia.
  - unfold as_slice. cbn [buf set_mem]. by rewrite mem_set_mem, decide_True.
  - intros f Hin _. unfold view. rewrite mem_set_mem. case_decide as Hf; [|done].
    rewrite Hf. by apply Hview.
Qed.

(** ** The operations keep the invariant and the snapshots *)

Lemma extend_ok w bs :
  world_wf w → length bs ≤ remaining_mut w →
  ∃ w', extend w bs = Ok w' ∧ step_ok w w' (as_slice w ++ bs) ∧
    live w' = live w ∧ v_capacity w' = v_capacity w ∧ capacity w' = capacity w ∧
    b_len (buf w') = b_len (buf w) + length bs.
Proof.
  intros Hwf Hbs. unfold extend. rewrite decide_False by lia. eexists; split; [done|].
  pose proof Hwf as (_ & Hcap & Hlen & _). unfold remaining_mut, v_capacity in *.
  set (m := mem w (b_arc (buf w))) in *. set (pos := b_off (buf w) + b_len (buf w)).
  assert (length (take pos m) = pos) as Hpos by (rewrite length_take; lia).
  assert (length (take pos m ++ bs ++ drop (pos + length bs) m) = length m) as Hm.
  { rewrite !length_app, length_drop, Hpos. lia. }
  split; [|split; [done|]].
  - apply set_mem_ok; cbn [b_arc b_off b_len b_cap]; [done|done|lia|lia| |].
    + unfold as_slice, slice. fold m. rewrite drop_app_le by (rewrite Hpos; lia).
      assert (take (b_len (buf w)) (drop (b_off (buf w)) m) = drop (b_off (buf w)) (take pos m)) as ->.
      { by rewrite take_drop_commute. }
      rewrite app_assoc, take_app_le by (rewrite length_app, length_drop, Hpos; lia).
      apply take_ge. rewrite length_app, length_drop, Hpos. lia.
    + intros _. split; [fold m; lia|]. split; [lia|]. rewrite take_app_le by lia.
      by rewrite take_take, Nat.min_id.
  - cbn [buf set_mem b_arc]. rewrite mem_set_mem, decide_True by done. auto.
Qed.

Lemma advance_ok w cnt :
  world_wf w → cnt ≤ b_len (buf w) →
  ∃ w', advance w cnt = Ok w' ∧ step_ok w w' (drop cnt (as_slice w)) ∧
    live w' = live w ∧ v_capacity w' = v_capacity w ∧ capacity w' = capacity w - cnt ∧
    b_len (buf w') = b_len (buf w) - cnt.
Proof.
  intros Hwf Hcnt. unfold advance. rewrite decide_False by lia. eexists; split; [done|].
  split; [|auto]. pose proof Hwf as (Hd & Hcap & Hlen & Hf). split; [|split].
  - split; [done|]. unfold v_capacity, mem in *. cbn. split; [lia|]. split; [lia|].
    apply Forall_forall. intros f Hin. destruct (filled_wf_in w f Hwf Hin) as (? & ? & He).
    split; [done|]. split; [done|]. cbn. intros Ha%He. lia.
  - unfold as_slice, slice, mem. cbn. rewrite skipn_firstn_comm. by rewrite drop_drop.
  - done.
Qed.

Lemma filled_ok w :
  world_wf w →
  step_ok w (filled w).1 (as_slice w) ∧ view (filled w).1 (filled w).2 = as_slice w ∧
  (filled w).2 ∈ live (filled w).1.
Proof.
  intros Hwf. pose proof Hwf as (Hd & Hcap & Hlen & Hf). split; [|split; [done|apply list_elem_of_here]].
  split; [|done]. split; [done|]. split; [done|]. split; [done|]. cbn. constructor; [|done].
  split; [done|]. unfold v_capacity in Hcap. cbn. split; [unfold mem in *; cbn; lia|done].
Qed.

Lemma drop_filled_ok w keep :
  world_wf w → keep ⊆ live w → step_ok w (drop_filled w keep) (as_slice w).
Proof.
  intros (Hd & Hcap & Hlen & Hf) Hsub. split; [|done]. split; [done|]. split; [done|].
  split; [done|]. cbn. apply Forall_forall. intros f Hin%Hsub. rewrite Forall_forall in Hf.
  by apply (Hf f).
Qed.

Lemma vec_reserve_spec v_len additional m :
  v_len ≤ length m →
  ∃ k, vec_reserve v_len additional m = m ++ replicate k Byte.x00 ∧
    v_len + additional ≤ length m + k ∧
    length m + k ≤ max (length m) (max (max (2 * length m) (v_len + additional)) 8).
Proof.
  intros Hv. unfold vec_reserve. case_decide; [eexists; split; [done|lia]|].
  exists 0. rewrite app_nil_r. split; [done|lia].
Qed.

(** [reserve] makes room; the vector stays in proportion to the contents. *)
Definition reserve_post (w : world) (additional : nat) (w' : world) : Prop :=
  step_ok w w' (as_slice w) ∧ live w' = live w ∧ additional ≤ remaining_mut w' ∧
  b_len (buf w') = b_len (buf w) ∧
  v_capacity w' ≤ max (v_capacity w) (max (4 * b_len (buf w) + 2 * additional) 8).

Lemma reserve_unique_ok w additional :
  world_wf w → unique w = true → remaining_mut w < additional →
  reserve_post w additional (reserve_unique w additional).
Proof.
  intros Hwf Hu Hr. pose proof Hwf as (Hd & Hcap & Hlen & _). pose proof (length_as_slice w Hwf) as Hs.
  unfold reserve_unique, remaining_mut, v_capacity in *. set (m := mem w (b_arc (buf w))) in *.
  case_decide as Hc.
  - destruct Hc as [Hc Ho].
    assert (length (as_slice w ++ drop (b_len (buf w)) m) = length m) as Hm
      by (rewrite length_app, length_drop, Hs; lia).
    split; [|split; [done|]].
    + apply set_mem_ok; cbn [b_arc b_off b_len b_cap]; [done|done|lia|lia| |congruence].
      unfold slice. rewrite drop_0, take_app_le by lia. apply take_ge. lia.
    + unfold remaining_mut, v_capacity. cbn [buf set_mem b_cap b_len b_arc].
      rewrite mem_set_mem, decide_True, Hm by done. fold m. lia.
  - set (new_cap := max (2 * length m) (b_len (buf w) + additional + b_off (buf w))).
    destruct (vec_reserve_spec (b_off (buf w) + b_len (buf w))
      (new_cap - (b_off (buf w) + b_len (buf w))) m) as (k & -> & Hk1 & Hk2); [lia|].
    assert (length (m ++ replicate k Byte.x00) = length m + k) as Hm
      by (by rewrite length_app, length_replicate).
    rewrite Hm. split; [|split; [done|]].
    + apply set_mem_ok; cbn [b_arc b_off b_len b_cap]; [done|done|lia|lia| |congruence].
      unfold slice, as_slice. fold m. rewrite drop_app_le by lia.
      by rewrite take_app_le by (rewrite length_drop; lia).
    + unfold remaining_mut, v_capacity. cbn [buf set_mem b_cap b_len b_arc].
      rewrite mem_set_mem, decide_True, Hm by done. fold m. lia.
Qed.

Lemma reserve_shared_ok w additional :
  world_wf w → remaining_mut w < additional →
  reserve_post w additional (reserve_shared w additional).
Proof.
  intros Hwf Hr. pose proof Hwf as (Hd & Hcap & Hlen & Hf). pose proof (length_as_slice w Hwf) as Hs.
  unfold reserve_shared, remaining_mut in *. cbn zeta.
  set (new_cap := max (b_len (buf w) + additional) (v_capacity w)).
  set (m := as_slice w ++ replicate (new_cap - b_len (buf w)) Byte.x00).
  set (a := fresh (dom (heap w))). pose proof (is_fresh (dom (heap w))) as Hfresh. fold a in Hfresh.
  assert (length m = new_cap) as Hm by (unfold m; rewrite length_app, length_replicate; lia).
  assert (∀ f, f ∈ live w → f_arc f ≠ a) as Hne.
  { intros f Hin Heq. apply Hfresh. rewrite <-Heq. by destruct (filled_wf_in w f Hwf Hin). }
  split; [split; [|split]|split; [done|]].
  - unfold world_wf, v_capacity. cbn [buf set_mem b_arc b_off b_len b_cap live].
    rewrite mem_set_mem, decide_True, Hm by done. cbn [heap set_mem b_arc].
    split; [set_solver|]. split; [done|]. split; [lia|]. apply Forall_forall. intros f Hin.
    destruct (filled_wf_in w f Hwf Hin) as (Hfd & Hfl & _). specialize (Hne f Hin).
    unfold filled_wf. rewrite mem_set_mem. cbn [heap buf set_mem b_arc b_off b_len].
    rewrite decide_False by done. split; [set_solver|]. split; [done|]. intros ?; done.
  - unfold as_slice at 1. cbn [buf set_mem b_arc b_off b_len].
    rewrite mem_set_mem, decide_True by done. unfold slice, m.
    rewrite drop_0, take_app_le by lia. apply take_ge. lia.
  - intros f Hin _. unfold view. rewrite mem_set_mem. cbn [b_arc].
    by rewrite decide_False by auto.
  - unfold remaining_mut, v_capacity. cbn [buf set_mem b_cap b_len b_arc].
    rewrite mem_set_mem, decide_True, Hm by done. unfold new_cap, v_capacity in *. lia.
Qed.

Lemma reserve_ok w additional : world_wf w → reserve_post w additional (reserve w additional).
Proof.
  intros Hwf. unfold reserve. case_decide; [|destruct (unique w) eqn:Hu].
  - split; [by split|]. repeat split; [done|lia].
  - apply reserve_unique_ok; [done|done|lia].
  - apply reserve_shared_ok; [done|lia].
Qed.

Lemma with_capacity_wf n : world_wf (with_capacity n) ∧ as_slice (with_capacity n) = [].
Proof.
  unfold world_wf, v_capacity, with_capacity, mem, as_slice, slice. cbn.
  rewrite lookup_singleton_eq. cbn. rewrite length_replicate.
  split; [|by rewrite take_0]. split; [apply elem_of_dom; eauto|]. split; [done|]. split; [lia|constructor].
Qed.

Lemma copy_to_bytes_ok w n :
  world_wf w → n ≤ b_len (buf w) →
  ∃ w' f, copy_to_bytes w n = Ok (w', f) ∧ step_ok w w' (drop n (as_slice w)) ∧
    live w' = f :: live w ∧ view w' f = take n (as_slice w).
Proof.
  intros Hwf Hn. unfold copy_to_bytes. rewrite decide_False by lia.
  set (f := mk_filled _ _ n). set (w1 := mk_world (heap w) (buf w) (f :: live w)).
  assert (world_wf w1) as Hwf1.
  { pose proof Hwf as (Hd & Hcap & Hlen & Hf). split; [done|]. split; [done|]. split; [done|].
    cbn. constructor; [|done]. unfold v_capacity in Hcap. split; [done|]. cbn.
    split; [unfold mem in *; cbn; lia|intros _; lia]. }
  destruct (advance_ok w1 n Hwf1 Hn) as (w' & E & (Hwf' & Hs & Hv) & Hl & _). rewrite E. cbn.
  exists w', f. split; [done|]. split; [|split; [done|]].
  - split; [done|]. split; [done|]. intros g Hg Hg'. apply Hv; [by apply list_elem_of_further|done].
  - rewrite (Hv f); [|apply list_elem_of_here|rewrite Hl; apply list_elem_of_here].
    unfold view, as_slice, slice. cbn. by rewrite take_take, Nat.min_l by done.
Qed.

(** ** The buffer as a queue of bytes

    The operations of a user of the buffer, the abstract queue they stand
    for, and sequences of them. *)

Inductive buffer_op : Type :=
| OFilled
| ODrop (keep : list Filled)
| OReserve (additional : nat)
| OExtend (bs : bytes)
| OAdvance (cnt : nat)
| OCopyToBytes (len : nat).

Definition exec (w : world) (o : buffer_op) : res io_error world :=
  match o with
  | OFilled => Ok (filled w).1
  | ODrop keep => Ok (drop_filled w keep)
  | OReserve n => Ok (reserve w n)
  | OExtend bs => extend w bs
  | OAdvance n => advance w n
  | OCopyToBytes n => fst <$> copy_to_bytes w n
  end.

(** What the caller has to respect: only live snapshots can be kept, what is
    written fits the spare capacity, and only contents are consumed. *)
Definition op_pre (w : world) (o : buffer_op) : Prop :=
  match o with
  | OFilled | OReserve _ => True
  | ODrop keep => keep ⊆ live w
  | OExtend bs => length bs ≤ remaining_mut w
  | OAdvance n | OCopyToBytes n => n ≤ b_len (buf w)
  end.

Definition queue_op (q : bytes) (o : buffer_op) : bytes :=
  match o with
  | OFilled | ODrop _ | OReserve _ => q
  | OExtend bs => q ++ bs
  | OAdvance n | OCopyToBytes n => drop n q
  end.

Lemma exec_ok w o :
  world_wf w → op_pre w o → ∃ w', exec w o = Ok w' ∧ step_ok w w' (queue_op (as_slice w) o).
Proof.
  intros Hwf Hpre. destruct o as [|keep|n|bs|n|n]; cbn in *.
  - eexists; split; [done|]. by apply filled_ok.
  - eexists; split; [done|]. by apply drop_filled_ok.
  - eexists; split; [done|]. by apply (reserve_ok w n).
  - destruct (extend_ok w bs Hwf Hpre) as (w' & -> & ? & _). eauto.
  - destruct (advance_ok w n Hwf Hpre) as (w' & -> & ? & _). eauto.
  - destruct (copy_to_bytes_ok w n Hwf Hpre) as (w' & f & -> & ? & _). eauto.
Qed.

(** A run of operations, each of which the caller may perform, that keeps
    the snapshots [fs] alive. *)
Inductive buffer_run (fs : list Filled) : world → list buffer_op → world → Prop :=
| br_nil w : buffer_run fs w [] w
| br_cons w o w' os w'' :
    op_pre w o → exec w o = Ok w' → fs ⊆ live w' → buffer_run fs w' os w'' →
    buffer_run fs w (o :: os) w''.

Lemma buffer_run_ok fs w os w' :
  buffer_run fs w os w' → world_wf w → fs ⊆ live w →
  world_wf w' ∧ as_slice w' = foldl queue_op (as_slice w) os ∧
  ∀ f, f ∈ fs → view w' f = view w f.
Proof.
  induction 1 as [w|w o w1 os w2 Hpre E Hfs _ IH]; intros Hwf Hlive; [done|].
  destruct (exec_ok w o Hwf Hpre) as (w1' & E' & Hwf1 & Hs1 & Hv1).
  rewrite E in E'. injection E' as <-. destruct (IH Hwf1 Hfs) as (Hwf2 & Hs2 & Hv2).
  split; [done|]. split; [by rewrite Hs2, Hs1|].
  intros f Hf. rewrite (Hv2 f Hf). apply Hv1; set_solver.
Qed.

(** ** Properties *)

(** C27. The buffer is a queue of bytes, and its snapshots are immutable: over
    any sequence of operations a caller may perform (reserving, which may
    shift, reallocate or leave the shared vector, writing into the spare
    capacity, consuming, taking and dropping snapshots), none of them panics,
    the contents are those of the abstract queue, and every snapshot that is
    kept reads the same bytes as when it was taken. *)
Theorem buffer_queue_and_snapshots (w : world) (os : list buffer_op) (w' : world) (fs : list Filled) :
  world_wf w → fs ⊆ live w → buffer_run fs w os w' →
  as_slice w' = foldl queue_op (as_slice w) os ∧ (∀ f, f ∈ fs → view w' f = view w f) ∧
  (∀ o, op_pre w' o → ∃ w'', exec w' o = Ok w'').
Proof.
  intros Hwf Hfs Hrun. destruct (buffer_run_ok fs w os w' Hrun Hwf Hfs) as (Hwf' & Hs & Hv).
  split; [done|]. split; [done|]. intros o Ho. destruct (exec_ok w' o Hwf' Ho) as (w'' & ? & _). eauto.
Qed.

(** A window at the end of its vector, with a snapshot of what it held
    before; making room reallocates because of the snapshot. *)
Definition sample_world : world :=
  mk_world {[ 0 := str "abcdefgh" ]} (mk_buffer 0 6 2 2) [mk_filled 0 2 4].

Definition sample_ops : list buffer_op :=
  [OReserve 4; OExtend (str "xyz"); OAdvance 3; OFilled; OReserve 20].

Lemma sample_world_wf : world_wf sample_world.
Proof.
  split; [apply elem_of_dom; eauto|]. split; [reflexivity|]. split; [cbn; lia|].
  constructor; [|constructor]. split; [apply elem_of_dom; eauto|]. vm_compute. lia.
Qed.

Lemma buffer_queue_and_snapshots_witness :
  ∃ w', buffer_run [mk_filled 0 2 4] sample_world sample_ops w' ∧
    as_slice w' = str "yz" ∧ view w' (mk_filled 0 2 4) = str "cdef".
Proof.
  assert (∃ w', buffer_run [mk_filled 0 2 4] sample_world sample_ops w') as [w' Hrun].
  { eexists.
    econstructor; [exact I|reflexivity|vm_compute; set_solver|].
    econstructor; [vm_compute; lia|vm_compute; reflexivity|vm_compute; set_solver|].
    econstructor; [vm_compute; lia|vm_compute; reflexivity|vm_compute; set_solver|].
    econstructor; [exact I|vm_compute; reflexivity|vm_compute; set_solver|].
    econstructor; [exact I|vm_compute; reflexivity|vm_compute; set_solver|].
    apply br_nil. }
  exists w'. split; [exact Hrun|].
  destruct (buffer_queue_and_snapshots sample_world sample_ops w' [mk_filled 0 2 4])
    as (Hs & Hv & _); [exact sample_world_wf|set_solver|exact Hrun|].
  split; [rewrite Hs; vm_compute; reflexivity|].
  rewrite (Hv (mk_filled 0 2 4)); [vm_compute; reflexivity|apply list_elem_of_here].
Defined.
