(* ===== verification/BytesReader.v ===== *)
(** The buffered reader ([harmonia-utils-io/src/bytes_reader/reader.rs]), an
    implementation of [AsyncBytesRead] over [BufferMut], and the readers of
    protocol integers and byte strings on top of the interface
    ([harmonia-utils-io/src/read_u64.rs] and [try_read_bytes_limited.rs]). *)

From stdpp Require Import base list numbers strings gmap.
From Stdlib Require Import ZArith Lia Strings.Byte.
From S2P Require Import Prelude Async Wire BufferMut.

Arguments as_slice : simpl never.
Arguments view : simpl never.
Arguments v_capacity : simpl never.
Arguments capacity : simpl never.
Arguments remaining_mut : simpl never.
Arguments src_rest : simpl never.

(** ** The reader *)

(** [br_keep] says which of the snapshots handed out earlier are still alive
    when the reader is polled. *)
Record BytesReader (R : Type) : Type := mk_reader {
  br_src : R;
  br_buf : world;
  reserved_buf_size : nat;
  max_buf_size : nat;
  br_keep : list Filled → list Filled
}.
Arguments mk_reader {R}.
Arguments br_src {R}.
Arguments br_buf {R}.
Arguments reserved_buf_size {R}.
Arguments max_buf_size {R}.
Arguments br_keep {R}.

Section reader.
Context {R : Type} {AR : AsyncRead R}.

(** [DEFAULT_MAX_BUF_SIZE] is [8 MiB]; [DEFAULT_RESERVED_BUF_SIZE] is 8192. *)
Definition reader_build (reserved max_ : nat) (keep : list Filled → list Filled) (src : R)
    : BytesReader R :=
  mk_reader src (with_capacity (reserved * 2)) reserved max_ keep.

Definition with_buf (r : BytesReader R) (src : R) (w : world) : BytesReader R :=
  mk_reader src w (reserved_buf_size r) (max_buf_size r) (br_keep r).

(** [BytesReader::reserve]. *)
Definition br_reserve (r : BytesReader R) (additional : nat) : BytesReader R * res io_error unit :=
  let w := reserve (br_buf r) additional in
  (with_buf r (br_src r) w,
   if decide (max_buf_size r < capacity w)
   then Err (InvalidData "buffer is too large") else Ok tt).

(** [poll_force_fill_buf_internal]: the number of bytes read. *)
Definition force_fill_internal (r : BytesReader R) : BytesReader R * polled nat :=
  let r := with_buf r (br_src r) (drop_filled (br_buf r) (br_keep r (live (br_buf r)))) in
  let '(r, e) :=
    if decide (remaining_mut (br_buf r) < reserved_buf_size r)
    then br_reserve r (reserved_buf_size r) else (r, Ok tt) in
  match e with
  | Err e => (r, Ready (Err e))
  | Panic => (r, Ready Panic)
  | Ok _ =>
      match ar_poll_read (br_src r) (remaining_mut (br_buf r)) with
      | (s, Ready (Ok b)) =>
          match extend (br_buf r) b with
          | Ok w => (with_buf r s w, Ready (Ok (length b)))
          | _ => (with_buf r s (br_buf r), Ready Panic)
          end
      | (s, Ready (Err e)) => (with_buf r s (br_buf r), Ready (Err e))
      | (s, Ready Panic) => (with_buf r s (br_buf r), Ready Panic)
      | (s, Pending) => (with_buf r s (br_buf r), Pending)
      end
  end.

(** [filled], as the bytes it shows. *)
Definition br_filled (r : BytesReader R) : BytesReader R * bytes :=
  let '(w, f) := filled (br_buf r) in (with_buf r (br_src r) w, view w f).

Definition br_force_fill_buf (r : BytesReader R) : BytesReader R * polled bytes :=
  match force_fill_internal r with
  | (r, Ready (Ok O)) => (r, Ready (Err (UnexpectedEof "EOF while force reading")))
  | (r, Ready (Ok _)) => let '(r, b) := br_filled r in (r, Ready (Ok b))
  | (r, Ready (Err e)) => (r, Ready (Err e))
  | (r, Ready Panic) => (r, Ready Panic)
  | (r, Pending) => (r, Pending)
  end.

Definition br_fill_buf (r : BytesReader R) : BytesReader R * polled bytes :=
  match b_len (buf (br_buf r)) with
  | O =>
      match force_fill_internal r with
      | (r, Ready (Ok _)) => let '(r, b) := br_filled r in (r, Ready (Ok b))
      | (r, Ready (Err e)) => (r, Ready (Err e))
      | (r, Ready Panic) => (r, Ready Panic)
      | (r, Pending) => (r, Pending)
      end
  | _ => let '(r, b) := br_filled r in (r, Ready (Ok b))
  end.

(** [prepare]: [len] is twice the length of the buffer, as in the code. *)
Definition br_prepare (r : BytesReader R) (additional : nat) : BytesReader R :=
  let w := br_buf r in
  let len := b_len (buf w) + b_len (buf w) in
  if decide (len < additional ∧ capacity w + additional < max_buf_size r)
  then with_buf r (br_src r) (reserve w (additional - len)) else r.

Definition br_consume (r : BytesReader R) (amt : nat) : res io_error (BytesReader R) :=
  w ← advance (br_buf r) amt; mret (with_buf r (br_src r) w).

Definition br_poll_read (r : BytesReader R) (room : nat) : BytesReader R * polled bytes :=
  match br_fill_buf r with
  | (r, Ready (Ok [])) => (r, Ready (Ok []))
  | (r, Ready (Ok rem)) =>
      let amt := min (length rem) room in
      match br_consume r amt with
      | Ok r => (r, Ready (Ok (take amt rem)))
      | Err e => (r, Ready (Err e))
      | Panic => (r, Ready Panic)
      end
  | x => x
  end.

#[export] Instance BytesReader_AsyncBytesRead : AsyncBytesRead (BytesReader R) := {
  poll_force_fill_buf := br_force_fill_buf;
  poll_fill_buf := br_fill_buf;
  prepare := br_prepare;
  consume := br_consume;
  poll_read := br_poll_read
}.

(** ** The laws

    The limit on the buffer is not reached while the contents are small: the
    vector is at most four times the contents plus twice the reserve. There is
    no limit on the input. *)

Context {AL : AsyncReadLaws R}.

Definition br_held (r : BytesReader R) : bytes := as_slice (br_buf r).
Definition br_rest (r : BytesReader R) : bytes := as_slice (br_buf r) ++ ar_rest (br_src r).
Definition br_patience (r : BytesReader R) : nat := ar_patience (br_src r).

Definition br_inv (r : BytesReader R) : Prop :=
  world_wf (br_buf r) ∧ ar_inv (br_src r) ∧ 0 < reserved_buf_size r ∧
  8 ≤ max_buf_size r ∧ v_capacity (br_buf r) ≤ max_buf_size r ∧
  2 * reserved_buf_size r ≤ max_buf_size r ∧
  ∀ l, br_keep r l ⊆ l.

(** Contents of [n] bytes stay below the limit. *)
Definition br_fits (r : BytesReader R) (n : nat) : Prop :=
  4 * n + 2 * reserved_buf_size r ≤ max_buf_size r.

Lemma capacity_le w : world_wf w → capacity w ≤ v_capacity w.
Proof. intros (_ & Hc & _ & _). unfold capacity. lia. Qed.

(** The reader with another world that holds the same bytes. *)
Lemma br_inv_with_buf r w :
  br_inv r → step_ok (br_buf r) w (as_slice (br_buf r)) →
  v_capacity w ≤ max_buf_size r →
  br_inv (with_buf r (br_src r) w) ∧ br_rest (with_buf r (br_src r) w) = br_rest r ∧
  br_held (with_buf r (br_src r) w) = br_held r.
Proof.
  intros (? & ? & ? & ? & ? & Hb & ?) (Hwf & Hs & _) Hv.
  unfold br_inv, br_rest, br_held in *. cbn. rewrite Hs. auto 10.
Qed.

Lemma length_br_held r : br_inv r → b_len (buf (br_buf r)) = length (br_held r).
Proof. intros (Hwf & _). unfold br_held. by rewrite length_as_slice. Qed.

Lemma br_held_rest r : length (br_held r) ≤ length (br_rest r).
Proof. unfold br_rest, br_held. rewrite length_app. lia. Qed.

Lemma br_reserve_ok r n :
  br_inv r → 4 * length (br_held r) + 2 * n ≤ max_buf_size r →
  br_inv (with_buf r (br_src r) (reserve (br_buf r) n)) ∧
  br_rest (with_buf r (br_src r) (reserve (br_buf r) n)) = br_rest r ∧
  br_held (with_buf r (br_src r) (reserve (br_buf r) n)) = br_held r ∧
  n ≤ remaining_mut (reserve (br_buf r) n) ∧ capacity (reserve (br_buf r) n) ≤ max_buf_size r.
Proof.
  intros Hinv Hb. pose proof (length_br_held r Hinv) as Hl.
  destruct (reserve_ok (br_buf r) n) as (Hst & _ & Hrem & _ & Hv); [apply Hinv|].
  assert (v_capacity (reserve (br_buf r) n) ≤ max_buf_size r) as Hv'.
  { destruct Hinv as (_ & _ & _ & ? & ? & _ & _). lia. }
  destruct (br_inv_with_buf r _ Hinv Hst Hv') as (? & ? & ?).
  split; [done|]. split; [done|]. split; [done|]. split; [done|].
  etrans; [apply capacity_le, Hst|done].
Qed.

Lemma force_fill_internal_spec r r' p :
  br_inv r → br_fits r (length (br_held r)) → force_fill_internal r = (r', p) →
  br_inv r' ∧ br_rest r' = br_rest r ∧
  match p with
  | Pending => br_held r' = br_held r ∧ br_patience r' < br_patience r
  | Ready (Ok n) => br_patience r' ≤ br_patience r ∧ length (br_held r') = length (br_held r) + n ∧
      (n = 0 → br_held r = br_rest r)
  | _ => False
  end.
Proof.
  intros Hinv Hfit E. unfold force_fill_internal in E. cbn zeta in E.
  set (r1 := with_buf r (br_src r) (drop_filled (br_buf r) (br_keep r (live (br_buf r))))) in *.
  assert (br_inv r1 ∧ br_rest r1 = br_rest r ∧ br_held r1 = br_held r) as (Hinv1 & Hr1 & Hh1).
  { apply br_inv_with_buf; [done| |apply Hinv]. apply drop_filled_ok; [apply Hinv|].
    destruct Hinv as (_ & _ & _ & _ & _ & _ & Hk). apply Hk. }
  change (br_patience r) with (br_patience r1). rewrite <-Hr1, <-Hh1. rewrite <-Hh1 in Hfit.
  change (br_fits r1 (length (br_held r1))) in Hfit. clear Hr1 Hh1 Hinv.
  clearbody r1. clear r. rename r1 into r, Hinv1 into Hinv.
  assert (∃ w, (if decide (remaining_mut (br_buf r) < reserved_buf_size r)
      then br_reserve r (reserved_buf_size r) else (r, Ok tt)) = (with_buf r (br_src r) w, Ok tt) ∧
    br_inv (with_buf r (br_src r) w) ∧ br_rest (with_buf r (br_src r) w) = br_rest r ∧
    br_held (with_buf r (br_src r) w) = br_held r ∧ 0 < remaining_mut w) as (w & Ew & Hi & Hr & Hh & Hrem).
  { assert (0 < reserved_buf_size r ∧
      4 * length (br_held r) + 2 * reserved_buf_size r ≤ max_buf_size r) as [Hres Hb].
    { unfold br_fits in Hfit. destruct Hinv as (_ & _ & ? & _). lia. }
    case_decide.
    - destruct (br_reserve_ok r (reserved_buf_size r) Hinv Hb) as (? & ? & ? & ? & ?).
      exists (reserve (br_buf r) (reserved_buf_size r)). unfold br_reserve.
      rewrite decide_False by lia. split; [done|]. split; [done|]. split; [done|]. split; [done|]. lia.
    - exists (br_buf r). assert (with_buf r (br_src r) (br_buf r) = r) as -> by (by destruct r).
      split; [done|]. split; [done|]. split; [done|]. split; [done|]. lia. }
  rewrite Ew in E. cbn in E.
  destruct (ar_poll_read (br_src r) (remaining_mut w)) as [s q] eqn:Es.
  destruct Hi as (Hwf & Hsrc & ? & ? & Hv & Hb & ?). cbn in *.
  apply ar_poll_read_law in Es as [Hsrc' Hq]; [|done|done].
  unfold br_held, br_rest, br_patience in *. cbn in *.
  destruct q as [[b|e|]|]; try done.
  - destruct Hq as (Hsr & Hlen & Hnil & Hpat).
    destruct (extend_ok w b Hwf Hlen) as (w' & Ex & (Hwf' & Hs' & _) & _ & Hv' & _ & _).
    rewrite Ex in E. injection E as <- <-.
    assert (as_slice w' ++ ar_rest s = as_slice w ++ ar_rest (br_src r)) as Heq
      by (by rewrite Hs', <-app_assoc, <-Hsr).
    unfold br_inv, br_rest. cbn. rewrite Heq, Hv'. split; [auto 10|]. split; [done|].
    split; [done|]. split; [by rewrite Hs', Hh, length_app|].
    intros Hb0. destruct b; [|done]. by rewrite (Hnil eq_refl), app_nil_r.
  - destruct Hq as [Hsr Hpat]. injection E as <- <-. unfold br_inv, br_rest. cbn.
    rewrite Hsr. auto 12.
Qed.

Lemma br_filled_spec r :
  br_inv r → br_inv (br_filled r).1 ∧ br_rest (br_filled r).1 = br_rest r ∧
  br_held (br_filled r).1 = br_held r ∧ br_patience (br_filled r).1 = br_patience r ∧
  (br_filled r).2 = br_held r.
Proof.
  intros Hinv. destruct (filled_ok (br_buf r)) as (Hst & Hview & _); [apply Hinv|].
  destruct (br_inv_with_buf r (filled (br_buf r)).1 Hinv Hst) as (? & ? & ?); [apply Hinv|].
  unfold br_filled. cbn in *. auto.
Qed.

Lemma br_fill_buf_spec r r' p :
  br_inv r → br_fill_buf r = (r', p) →
  br_inv r' ∧ br_rest r' = br_rest r ∧
  match p with
  | Pending => br_held r' = br_held r ∧ br_patience r' < br_patience r
  | Ready (Ok b) => b = br_held r' ∧ (b = [] → br_rest r = []) ∧ length (br_held r) ≤ length b ∧
      br_patience r' ≤ br_patience r
  | _ => False
  end.
Proof.
  intros Hinv E. unfold br_fill_buf in E. pose proof (length_br_held r Hinv) as Hl.
  assert (∀ r1, br_inv r1 → br_rest r1 = br_rest r → br_patience r1 ≤ br_patience r →
    (br_held r1 = [] → br_rest r = []) → length (br_held r) ≤ length (br_held r1) →
    (let '(r2, b) := br_filled r1 in (r2, Ready (Ok b))) = (r', p) →
    br_inv r' ∧ br_rest r' = br_rest r ∧
    match p with
    | Pending => br_held r' = br_held r ∧ br_patience r' < br_patience r
    | Ready (Ok b) => b = br_held r' ∧ (b = [] → br_rest r = []) ∧ length (br_held r) ≤ length b ∧
      br_patience r' ≤ br_patience r
    | _ => False
    end) as Hfill.
  { intros r1 Hi1 Hr1 Hp1 Hnil Hle Ef. destruct (br_filled_spec r1 Hi1) as (? & Hr & Hh & Hp & Hb).
    destruct (br_filled r1) as [r2 b]. cbn [fst snd] in *. injection Ef as <- <-.
    rewrite Hr, Hr1, Hb, Hh, Hp. auto 7. }
  destruct (b_len (buf (br_buf r))) as [|n] eqn:En.
  - destruct (force_fill_internal r) as [r1 q] eqn:E1.
    assert (br_fits r (length (br_held r))) as Hfit
      by (rewrite <-Hl; unfold br_fits; destruct Hinv as (_ & _ & _ & _ & _ & ? & _); lia).
    apply force_fill_internal_spec in E1 as (Hi1 & Hr1 & Hq); [|done|done].
    destruct q as [[n|e|]|]; try done; [|injection E as <- <-; auto].
    destruct Hq as (Hp1 & Hlen & H0). apply (Hfill r1); try done; [|lia].
    intros Hh. rewrite Hh in Hlen. change (length []) with 0 in Hlen.
    assert (n = 0) as Hn by lia. rewrite <-(H0 Hn). apply length_zero_iff_nil. lia.
  - apply (Hfill r); try done. intros Hh. rewrite Hh in Hl. done.
Qed.

Lemma br_consume_spec r n :
  br_inv r → n ≤ length (br_held r) →
  ∃ r', br_consume r n = Ok r' ∧ br_inv r' ∧ br_rest r' = drop n (br_rest r) ∧
    br_held r' = drop n (br_held r) ∧ br_patience r' = br_patience r.
Proof.
  intros Hinv Hn. pose proof Hinv as (Hwf & ? & ? & ? & ? & Hb & ?). unfold br_consume.
  rewrite <-length_br_held in Hn by done.
  destruct (advance_ok (br_buf r) n Hwf Hn) as (w & -> & (Hwf' & Hs & _) & _ & Hv & _). cbn.
  assert (as_slice w ++ ar_rest (br_src r) = drop n (br_rest r)) as Hrest.
  { unfold br_rest. rewrite Hs, drop_app_le; [done|]. by rewrite length_as_slice. }
  eexists; split; [done|]. unfold br_inv, br_held, br_patience, br_rest at 1 2. cbn.
  rewrite Hrest, Hv. split; [|auto].
  by split_and!.
Qed.

(** *** The limits do not change *)

Definition same_limits (r r' : BytesReader R) : Prop :=
  reserved_buf_size r' = reserved_buf_size r ∧ max_buf_size r' = max_buf_size r.

Lemma force_fill_limits r : same_limits r (force_fill_internal r).1.
Proof using Type.
  unfold force_fill_internal, br_reserve. cbn zeta. set (r1 := with_buf r _ _).
  change (same_limits r) with (same_limits r1). clearbody r1.
  case_decide; [case_decide|]; try done; destruct (ar_poll_read _ _) as [s [[b|e|]|]]; try done;
    by destruct (extend _ b).
Qed.

Lemma br_force_fill_buf_limits r : same_limits r (br_force_fill_buf r).1.
Proof using Type.
  pose proof (force_fill_limits r) as H. unfold br_force_fill_buf.
  by destruct (force_fill_internal r) as [r1 [[[|n]|e|]|]].
Qed.

Lemma br_fill_buf_limits r : same_limits r (br_fill_buf r).1.
Proof using Type.
  pose proof (force_fill_limits r) as H. unfold br_fill_buf. destruct (b_len _); [|done].
  by destruct (force_fill_internal r) as [r1 [[b|e|]|]].
Qed.

Lemma br_consume_limits r n r' : br_consume r n = Ok r' → same_limits r r'.
Proof using Type. unfold br_consume. destruct (advance _ _); cbn; [|done..]. by intros [= <-]. Qed.

Lemma br_poll_read_limits r room : same_limits r (br_poll_read r room).1.
Proof using Type.
  pose proof (br_fill_buf_limits r) as [H1 H2]. unfold br_poll_read. destruct (br_fill_buf r) as [r1 [[[|y b]|e|]|]]; try done.
  destruct (br_consume r1 _) as [r2| |] eqn:E; [|done..]. destruct (br_consume_limits _ _ _ E) as [E1 E2]. cbn in *.
  unfold same_limits. by rewrite E1, E2.
Qed.

Lemma br_prepare_limits r n : same_limits r (br_prepare r n).
Proof using Type. unfold br_prepare. cbn zeta. by case_decide. Qed.

Lemma fits_limits r r' n : same_limits r r' → br_fits r n → br_fits r' n.
Proof using Type. unfold br_fits. by intros [-> ->]. Qed.

Program Definition BytesReader_base : AsyncBytesReadBase (BytesReader R) := {|
  rd_inv := br_inv;
  rest := br_rest;
  held := br_held;
  patience := br_patience;
  rd_fits := br_fits
|}.
Next Obligation. unfold br_fits. lia. Qed.
Next Obligation. intros r _. by exists (ar_rest (br_src r)). Qed.
Next Obligation. intros r r' p Hi E. by apply br_fill_buf_spec. Qed.
Next Obligation.
  intros r r' p Hi Hfit E. cbn in E. unfold br_force_fill_buf in E.
  destruct (force_fill_internal r) as [r1 q] eqn:E1.
  apply force_fill_internal_spec in E1 as (Hi1 & Hr1 & Hq); [|done|done].
  destruct q as [[n|e|]|]; try done; [|injection E as <- <-; auto].
  destruct Hq as (Hp1 & Hlen & H0). destruct n as [|n]; [injection E as <- <-; auto|].
  destruct (br_filled_spec r1 Hi1) as (? & Hr & Hh & Hp & Hb).
  destruct (br_filled r1) as [r2 b]. cbn [fst snd] in *. injection E as <- <-.
  rewrite Hr, Hr1, Hb, Hh, Hp. split; [done|]. split; [done|]. split; [done|]. lia.
Qed.
Next Obligation.
  intros r n Hi Hn. cbn. unfold br_prepare. cbn zeta. case_decide as Hd; [|auto].
  pose proof (length_br_held r Hi) as Hl. unfold br_fits in Hn.
  destruct (br_reserve_ok r (n - (b_len (buf (br_buf r)) + b_len (buf (br_buf r)))) Hi)
    as (? & ? & ? & _); [lia|auto].
Qed.
Next Obligation. intros r n Hi Hn. by apply br_consume_spec. Qed.
Next Obligation.
  intros r room r' p Hi Hroom E. cbn in E. unfold br_poll_read in E.
  destruct (br_fill_buf r) as [r1 q] eqn:E1.
  apply br_fill_buf_spec in E1 as (Hi1 & Hr1 & Hq); [|done].
  destruct q as [[b|e|]|]; try done; [|injection E as <- <-; naive_solver].
  destruct Hq as (-> & Hnil & _ & Hp). destruct (br_held r1) as [|y b] eqn:Eh.
  { injection E as <- <-. rewrite Hr1, (Hnil eq_refl). split; [done|].
    split; [done|]. split; [cbn; lia|done]. }
  set (n := min (length (y :: b)) room) in *.
  destruct (br_consume_spec r1 n Hi1) as (r2 & Ec & Hi2 & Hr2 & _ & Hp2); [rewrite Eh; lia|].
  rewrite Ec in E. injection E as <- <-. split; [done|].
  assert (take n (y :: b) = take n (br_rest r)) as Ht.
  { rewrite <-Hr1. unfold br_rest. fold (br_held r1). rewrite Eh, take_app_le; [done|lia]. }
  rewrite Hr2, Hr1, Ht, take_drop. split; [done|]. rewrite <-Ht, length_take.
  split; [lia|]. split; [|lia]. destruct room; [lia|done].
Qed.
Next Obligation. intros r r' p n E. apply fits_limits. pose proof (br_fill_buf_limits r) as H. cbn in E. by rewrite E in H. Qed.
Next Obligation.
  intros r r' p n E. apply fits_limits. pose proof (br_force_fill_buf_limits r) as H. cbn in E. by rewrite E in H.
Qed.
Next Obligation. intros r m n. apply fits_limits, br_prepare_limits. Qed.
Next Obligation. intros r m r' n E. by apply fits_limits, (br_consume_limits r m). Qed.
Next Obligation.
  intros r room r' p n E. apply fits_limits. pose proof (br_poll_read_limits r room) as H. cbn in E. by rewrite E in H.
Qed.

(** A reader whose buffer can hold all the input. *)
#[export] Instance BytesReader_laws : AsyncBytesReadLaws (BytesReader R) := with_all BytesReader_base.

(** ** A buffered reader over a source *)

Definition reader_ok (reserved max_ : nat) (keep : list Filled → list Filled) (src : R) : Prop :=
  ar_inv src ∧ 4 ≤ reserved ∧ 4 * length (ar_rest src) + 2 * reserved ≤ max_ ∧ ∀ l, keep l ⊆ l.

Lemma reader_build_base reserved max_ keep src :
  ar_inv src → 4 ≤ reserved → 2 * reserved ≤ max_ → (∀ l, keep l ⊆ l) →
  let r := reader_build reserved max_ keep src in
  br_inv r ∧ br_rest r = ar_rest src ∧ br_patience r = ar_patience src.
Proof.
  intros Hs Hr Hm Hk r. destruct (with_capacity_wf (reserved * 2)) as [Hwf Hsl].
  assert (v_capacity (with_capacity (reserved * 2)) = reserved * 2) as Hv.
  { unfold v_capacity, mem, with_capacity. cbn. rewrite lookup_singleton_eq. apply length_replicate. }
  unfold br_inv, br_rest, br_patience, r, reader_build.
  cbn [br_src br_buf reserved_buf_size max_buf_size br_keep]. rewrite Hsl, Hv.
  change ([] ++ ar_rest src) with (ar_rest src).
  split; [|done]. split; [done|]. split; [done|]. split; [lia|]. split; [lia|].
  split; [lia|]. split; [lia|done].
Qed.

Lemma reader_build_inv reserved max_ keep src :
  reader_ok reserved max_ keep src →
  rd_inv (reader_build reserved max_ keep src) ∧
  rest (reader_build reserved max_ keep src) = ar_rest src ∧
  patience (reader_build reserved max_ keep src) = ar_patience src.
Proof.
  intros (Hs & Hr & Hm & Hk). destruct (reader_build_base reserved max_ keep src Hs Hr ltac:(lia) Hk) as (Hi & Hrest & Hp).
  split; [|done]. split; [exact Hi|]. cbn [rest BytesReader_base]. unfold rd_fits, BytesReader_base, br_fits.
  rewrite Hrest. exact Hm.
Qed.
End reader.

Lemma source_reader_inv reserved max_ keep (src : source) :
  reader_ok reserved max_ keep src →
  rd_inv (reader_build reserved max_ keep src) ∧
  rest (reader_build reserved max_ keep src) = src_rest src ∧
  patience (reader_build reserved max_ keep src) = length src.
Proof. exact (reader_build_inv reserved max_ keep src). Qed.
