(* ===== verification/NarBytes.v ===== *)
(** Reading one NAR out of a stream: [NarBytesReader]
    ([harmonia-nar/src/archive/read_nar.rs]) gives the bytes of the archive it
    recognises and leaves what follows it to the next reader. *)

From stdpp Require Import base list numbers strings.
From Stdlib Require Import ZArith Lia Strings.Byte.
From S2P Require Import Prelude Async Wire RadixTree NarReader NarTree BufferMut BytesReader.

(** ** The reader *)

Record NarBytesReader (R : Type) : Type := mk_nb { nb_reader : R; nb_parsed : nat; nb_state : Inner }.
Arguments mk_nb {R}.
Arguments nb_reader {R}.
Arguments nb_parsed {R}.
Arguments nb_state {R}.

Section nar_bytes.
Context {R : Type} `{!AsyncBytesRead R}.
Implicit Types x : NarBytesReader R.

Definition nb_new (r : R) : NarBytesReader R := mk_nb r 0 inner_new.

(** [poll_fill_buf] and [poll_force_fill_buf] are the same but for the call
    to the underlying reader. *)
Definition nb_poll (fill : R → R * polled bytes) x : NarBytesReader R * polled bytes :=
  if decide (nb_parsed x = 0 ∧ is_eof (nb_state x) = true) then (x, Ready (Ok [])) else
  match fill (nb_reader x) with
  | (r, Ready (Ok buf)) =>
      let '(i, p) :=
        if decide (nb_parsed x < length buf) then
          let '(i, p) := drive true (nb_state x) (drop (nb_parsed x) buf) in
          (i, (λ n, nb_parsed x + n) <$> p)
        else (nb_state x, Ok (nb_parsed x)) in
      match p with
      | Ok parsed =>
          (mk_nb r parsed i,
           if decide (buf = [] ∧ is_eof i = false)
           then Ready (Err (UnexpectedEof "not a complete NAR"))
           else Ready (Ok (take parsed buf)))
      | Err e => (mk_nb r (nb_parsed x) i, Ready (Err e))
      | Panic => (mk_nb r (nb_parsed x) i, Ready Panic)
      end
  | (r, Ready (Err e)) => (mk_nb r (nb_parsed x) (nb_state x), Ready (Err e))
  | (r, Ready Panic) => (mk_nb r (nb_parsed x) (nb_state x), Ready Panic)
  | (r, Pending) => (mk_nb r (nb_parsed x) (nb_state x), Pending)
  end.

Definition nb_fill_buf : NarBytesReader R → NarBytesReader R * polled bytes := nb_poll poll_fill_buf.
Definition nb_force_fill_buf : NarBytesReader R → NarBytesReader R * polled bytes :=
  nb_poll poll_force_fill_buf.

(** [consume], with its assertion. *)
Definition nb_consume x (amt : nat) : res io_error (NarBytesReader R) :=
  if decide (nb_parsed x < amt) then Panic else
  r ← consume (nb_reader x) amt; mret (mk_nb r (nb_parsed x - amt) (nb_state x)).

(** [poll_read] with the given room. *)
Definition nb_poll_read x (room : nat) : NarBytesReader R * polled bytes :=
  match nb_fill_buf x with
  | (x, Ready (Ok [])) => (x, Ready (Ok []))
  | (x, Ready (Ok rem)) =>
      let amt := min (length rem) room in
      match nb_consume x amt with
      | Ok x => (x, Ready (Ok (take amt rem)))
      | Err e => (x, Ready (Err e))
      | Panic => (x, Ready Panic)
      end
  | y => y
  end.

(** Reading to the end, with rooms of [S r] bytes. *)
Fixpoint nb_read_to_end (fuel : nat) (rooms : list nat) x (acc : bytes)
    : NarBytesReader R * res io_error bytes :=
  match fuel with
  | O => (x, Panic)
  | S fuel =>
      match nb_poll_read x (S (hd 31 rooms)) with
      | (x, Pending) => nb_read_to_end fuel rooms x acc
      | (x, Ready (Ok [])) => (x, Ok acc)
      | (x, Ready (Ok b)) => nb_read_to_end fuel (tl rooms) x (acc ++ b)
      | (x, Ready (Err e)) => (x, Err e)
      | (x, Ready Panic) => (x, Panic)
      end
  end.

(** ** Specification

    [nb_at x out junk]: what is to come of the archive is [out], followed by
    [junk] in the stream. *)

Context {HB : AsyncBytesReadBase R}.

Definition nb_at x (out junk : bytes) : Prop :=
  rd_inv (nb_reader x) ∧ rest (nb_reader x) = out ++ junk ∧
  nb_parsed x ≤ length (held (nb_reader x)) ∧ nb_parsed x ≤ length out ∧ inner_wf (nb_state x) ∧
  (is_eof (nb_state x) = false → run true (nb_state x) [] = Ok (nb_state x, 0)) ∧
  ∃ i, is_eof i = true ∧
    run true (nb_state x) (drop (nb_parsed x) (out ++ junk)) = Ok (i, length out - nb_parsed x).

Lemma run_is_eof P i bs : is_eof i = true → run P i bs = Ok (i, 0).
Proof. intros H. apply run_eof. unfold is_eof in H. by destruct (state i). Qed.

Lemma nb_at_eof x out junk :
  nb_at x out junk → is_eof (nb_state x) = true → length out = nb_parsed x.
Proof.
  intros (_ & _ & _ & Hle & _ & _ & i & _ & Hr) He. rewrite run_is_eof in Hr by done.
  injection Hr as _ Hr. lia.
Qed.

(** Driving the state machine over the unparsed part of a buffer [hd]: the
    parsed prefix grows, and stops short of the buffer only at the end. *)
Lemma parsed_prefix k st i (hd more out junk : bytes) :
  out ++ junk = hd ++ more → k ≤ length hd → k ≤ length out → inner_wf st → is_eof i = true →
  (is_eof st = false → run true st [] = Ok (st, 0)) →
  run true st (drop k (out ++ junk)) = Ok (i, length out - k) →
  ∃ i1 p1, (if decide (k < length hd) then
      let '(i, p) := drive true st (drop k hd) in (i, (λ n, k + n) <$> p)
    else (st, Ok k)) = (i1, Ok p1) ∧ k ≤ p1 ≤ length hd ∧ p1 ≤ length out ∧
    inner_wf i1 ∧ (is_eof i1 = false → p1 = length hd ∧ run true i1 [] = Ok (i1, 0)) ∧
    run true i1 (drop p1 (out ++ junk)) = Ok (i, length out - p1).
Proof.
  intros Hmore Hkh Hko Hwf Hie Hset Hrun. case_decide as Hlt.
  - rewrite Hmore, drop_app_le in Hrun by lia.
    pose proof (run_app true st (drop k hd) more Hwf) as Ha. rewrite Hrun in Ha.
    destruct (run true st (drop k hd)) as [[i1 n1]| |] eqn:Er; try done.
    destruct (run_drive true _ _ _ _ Hwf Er) as (-> & Hwf1 & Hn1 & Hs1). cbn in Ha |- *.
    rewrite length_drop in *. exists i1, (k + n1). split; [done|]. split; [lia|].
    destruct (stops true i1) eqn:Hst.
    + injection Ha as -> Hn. split; [lia|]. split; [done|]. split; [congruence|].
      rewrite run_is_eof by done. do 2 f_equal. lia.
    + rewrite (Hs1 eq_refl) in *. replace (k + (length hd - k)) with (length hd) in * by lia.
      destruct (run true i1 more) as [[i2 n2]| |] eqn:Er2; unfold shift_run in Ha; cbn in Ha;
        simplify_eq. split; [lia|]. split; [done|].
      split; [intros _; split; [done|]; eapply (run_settled true _ _ _ Hwf); [|done];
        by rewrite length_drop|].
      rewrite Hmore, drop_app_length, Er2. do 2 f_equal. lia.
  - exists st, k. split; [done|]. split; [lia|]. split; [done|]. split; [done|].
    split; [intros ?; split; [lia|auto]|]. done.
Qed.

Lemma nb_fill_spec x out junk x' q :
  nb_at x out junk → nb_fill_buf x = (x', q) →
  nb_at x' out junk ∧
  match q with
  | Pending => patience (nb_reader x') < patience (nb_reader x)
  | Ready (Ok b) => b `prefix_of` out ∧ length b = nb_parsed x' ∧ (b = [] → out = []) ∧
      patience (nb_reader x') ≤ patience (nb_reader x)
  | _ => False
  end.
Proof.
  intros Hat E. unfold nb_fill_buf, nb_poll in E. case_decide as He.
  { injection E as <- <-. split; [done|]. destruct He as [H0 He].
    pose proof (nb_at_eof x out junk Hat He) as Hl. rewrite H0 in *.
    destruct out; [|done]. auto. }
  destruct (id Hat) as (Hi & Hr & Hh & Ho & Hwf & Hset & i & Hie & Hrun).
  destruct (poll_fill_buf (nb_reader x)) as [r1 q1] eqn:E1.
  destruct (poll_fill_buf_law _ _ _ Hi E1) as (Hi1 & Hr1 & Hq1).
  destruct q1 as [[buf|e|]|]; try done.
  2: { injection E as <- <-. destruct Hq1 as [Hh1 ?]. split; [|done].
       unfold nb_at. cbn. rewrite Hh1, Hr1. eauto 10. }
  destruct Hq1 as (-> & Hnil & Hle & Hp). set (k := nb_parsed x) in *.
  destruct (held_prefix r1 Hi1) as [more Hmore]. rewrite Hr1, Hr in Hmore.
  destruct (parsed_prefix k (nb_state x) i (held r1) more out junk)
    as (i1 & p1 & Ed & Hk & Hpo & Hwf1 & Hall & Hrun1); auto; [lia|].
  rewrite Ed in E. cbn in E. injection E as <- <-.
  assert (nb_at (mk_nb r1 p1 i1) out junk) as Hat1.
  { unfold nb_at. cbn. rewrite Hr1. split; [done|]. split; [done|]. split; [lia|].
    split; [done|]. split; [done|]. split; [by apply Hall|]. eauto. }
  split; [done|]. rewrite decide_False.
  - assert (take p1 (held r1) = take p1 out) as Ht.
    { transitivity (take p1 (out ++ junk)); [rewrite Hmore|]; by rewrite take_app_le by lia. }
    rewrite Ht. split; [apply prefix_take|]. rewrite length_take. split; [cbn; lia|].
    split; [|done]. intros Hn%(f_equal length). rewrite length_take in Hn. cbn in Hn.
    assert (p1 = 0) as -> by (destruct out; cbn in *; lia).
    destruct (is_eof i1) eqn:He1.
    + pose proof (nb_at_eof _ _ _ Hat1 He1) as Hl. cbn in Hl. by destruct out.
    + destruct (Hall eq_refl) as [Hall' _]. destruct (held r1); [|done]. specialize (Hnil eq_refl).
      rewrite Hr in Hnil. by apply app_eq_nil in Hnil as [-> _].
  - intros [Hb He1]. destruct (Hall He1) as [_ Hset1]. specialize (Hnil Hb). rewrite Hr in Hnil.
    apply app_eq_nil in Hnil as [-> ->]. cbn in *.
    rewrite drop_nil, Hset1 in Hrun1. congruence.
Qed.

Lemma nb_consume_spec x out junk n :
  nb_at x out junk → n ≤ nb_parsed x →
  ∃ x', nb_consume x n = Ok x' ∧ nb_at x' (drop n out) junk ∧
    patience (nb_reader x') = patience (nb_reader x).
Proof.
  intros (Hi & Hr & Hh & Ho & Hwf & Hset & i & Hie & Hrun) Hn. unfold nb_consume.
  rewrite decide_False by lia.
  destruct (consume_law (nb_reader x) n) as (r' & -> & Hi' & Hr' & Hh' & Hp'); [done|lia|].
  cbn. eexists; split; [done|]. split; [|done]. unfold nb_at. cbn.
  rewrite Hr', Hr, Hh', !length_drop, drop_app_le by lia.
  split; [done|]. split; [done|]. split; [lia|]. split; [lia|]. split; [done|]. split; [done|].
  exists i. split; [done|]. rewrite <-drop_app_le, drop_drop by lia.
  replace (n + (nb_parsed x - n)) with (nb_parsed x) by lia. rewrite Hrun. do 2 f_equal. lia.
Qed.

Lemma nb_poll_read_spec x out junk room x' q :
  nb_at x out junk → 0 < room → nb_poll_read x room = (x', q) →
  match q with
  | Pending => nb_at x' out junk ∧ patience (nb_reader x') < patience (nb_reader x)
  | Ready (Ok b) => ∃ out', out = b ++ out' ∧ nb_at x' out' junk ∧ (b = [] → out = []) ∧
      patience (nb_reader x') ≤ patience (nb_reader x)
  | _ => False
  end.
Proof.
  intros Hat Hroom E. unfold nb_poll_read in E.
  destruct (nb_fill_buf x) as [x1 q1] eqn:E1.
  apply (nb_fill_spec x out junk) in E1 as [Hat1 Hq1]; [|done].
  destruct q1 as [[b|e|]|]; try done; [|by injection E as <- <-].
  destruct Hq1 as ([k ->] & Hl & Hnil & Hp1). destruct b as [|y b].
  { injection E as <- <-. exists k. auto. }
  set (n := min (length (y :: b)) room) in *.
  destruct (nb_consume_spec x1 _ junk n Hat1) as (x2 & Ec & Hat2 & Hp2); [lia|].
  rewrite Ec in E. injection E as <- <-. exists (drop n (y :: b) ++ k).
  rewrite app_assoc, take_drop. split; [done|]. rewrite drop_app_le in Hat2 by lia.
  split; [done|]. split; [|lia]. destruct room; [lia|done].
Qed.

Lemma nb_read_to_end_spec fuel rooms x out junk acc :
  nb_at x out junk → length out + patience (nb_reader x) < fuel →
  ∃ x', nb_read_to_end fuel rooms x acc = (x', Ok (acc ++ out)) ∧ nb_at x' [] junk.
Proof.
  revert rooms x out acc; induction fuel as [|fuel IH]; intros rooms x out acc Hat Hf; [lia|].
  cbn [nb_read_to_end]. destruct (nb_poll_read x _) as [x1 q] eqn:E.
  apply (nb_poll_read_spec x out junk) in E; [|done|lia]. destruct q as [[b|e|]|]; try done.
  - destruct E as (out' & -> & Hat1 & Hnil & Hp). destruct b as [|y b].
    { specialize (Hnil eq_refl). cbn in Hnil. subst out'. exists x1. by rewrite app_nil_r. }
    rewrite length_app in Hf. cbn in Hf.
    destruct (IH (tl rooms) x1 out' (acc ++ y :: b)) as (x' & -> & ?); [done|lia|].
    rewrite <-app_assoc. eauto.
  - destruct E as [Hat1 Hp]. apply IH; [done|lia].
Qed.

Lemma nb_new_at r t junk :
  rd_inv r → rest r = nar t ++ junk → node_wf t → nb_at (nb_new r) (nar t) junk.
Proof.
  intros Hi Hr Hwf. unfold nb_at. cbn [nb_new nb_reader nb_parsed nb_state].
  split; [done|]. split; [done|]. split; [lia|]. split; [lia|]. split; [apply inner_new_wf|].
  split; [by intros _|]. exists (node_end t 0). split; [done|].
  destruct (consumes_nar t Hwf) as [_ Hc]. rewrite drop_0, Hc, run_is_eof by done.
  unfold shift_run. cbn. do 2 f_equal. lia.
Qed.
End nar_bytes.
