(* ===== verification/Nar.v ===== *)
(** End-to-end properties of the NAR components: the parser and the archive
    reader over any lawful [AsyncBytesRead], the buffered reader in
    particular, and the round trip through the writer. *)

From stdpp Require Import base list numbers strings gmap.
From Stdlib Require Import ZArith Lia Strings.Byte.
From S2P Require Import Prelude Async Wire Sink RadixTree NarReader NarTree NarWriter PaddedReader NarParser BufferMut BytesReader NarBytes.

(** ** The parser *)

(** C22. The parser is correct over every reader that keeps the laws of
    [AsyncBytesRead]: on the serialisation of a tree followed by anything, it
    gives exactly the events of the tree, in order, each file with its
    contents, however the input arrives (buffers cut at any byte, polls that
    are not ready) and with whatever buffers the files are read. *)
Theorem parse_nar_correct (R : Type) (HR : AsyncBytesRead R) (HL : AsyncBytesReadLaws R)
    (r : R) (t : node) (junk : bytes) (plans : list (list nat)) (nfuel fuel : nat) :
  rd_inv r → rest r = nar t ++ junk → node_wf t →
  2 * length (nar t ++ junk) + patience r + 1 < nfuel →
  length (events_of [] t) + patience r < fuel →
  collect nfuel fuel true plans (parser_new r) [] = Ok (events_of [] t).
Proof.
  intros Hi Hr Hwf Hn Hf.
  destruct (collect_nar nfuel fuel true plans r t junk) as (evs & -> & Hev); try done.
  by rewrite (event_read_eq _ _ Hev).
Qed.

(** A source that hands out [bs] in pieces of [n] bytes with a pending poll
    before each of them. *)
Fixpoint pieces (fuel n : nat) (bs : bytes) : source :=
  match fuel, bs with
  | S fuel, _ :: _ => None :: Some (take n bs) :: pieces fuel n (drop n bs)
  | _, _ => []
  end.

Lemma pieces_ok fuel n bs : 0 < n → src_ok (pieces fuel n bs).
Proof.
  intros Hn. unfold src_ok. revert bs; induction fuel as [|fuel IH]; intros bs; [constructor|].
  destruct bs as [|b bs]; [constructor|]. cbn [pieces]. repeat constructor; [done| |apply IH].
  destruct n; [lia|done].
Qed.

Definition sample_reader : BytesReader source :=
  reader_build 16 4096 (λ l, take 1 l) (pieces 200 7 (nar sample_tree ++ str "next")).

Lemma sample_reader_ok :
  rd_inv sample_reader ∧ rest sample_reader = nar sample_tree ++ str "next" ∧ node_wf sample_tree.
Proof.
  destruct (source_reader_inv 16 4096 (λ l, take 1 l) (pieces 200 7 (nar sample_tree ++ str "next")))
    as (Hi & Hr & _).
  { split; [|split; [lia|split; [vm_compute; lia|]]].
    - apply pieces_ok. lia.
    - intros [|f l]; set_solver. }
  split; [exact Hi|]. split; [|cbn; unfold alignable, u64_max, u64_modulus; cbn; lia].
  unfold sample_reader. rewrite Hr. vm_compute. reflexivity.
Qed.

Lemma parse_nar_correct_witness :
  collect (Z.to_nat 5000) (Z.to_nat 1000) true [[0; 2]; []] (parser_new sample_reader) [] =
  Ok (events_of [] sample_tree).
Proof.
  destruct sample_reader_ok as (Hi & Hr & Hwf).
  apply (parse_nar_correct (BytesReader source) _ _ sample_reader sample_tree (str "next") [[0; 2]; []]).
  - exact Hi.
  - exact Hr.
  - exact Hwf.
  - apply Nat.ltb_lt. vm_compute. reflexivity.
  - apply Nat.ltb_lt. vm_compute. reflexivity.
Defined.

(** C23. Files need not be read: when the consumer drops a file's reader after
    any number of reads, the parser drains the rest of it and goes on, and
    the events are the same except that the contents read are a prefix. *)
Theorem parse_nar_dropped_files (R : Type) (HR : AsyncBytesRead R) (HL : AsyncBytesReadLaws R)
    (r : R) (t : node) (junk : bytes) (to_end : bool) (plans : list (list nat)) (nfuel fuel : nat) :
  rd_inv r → rest r = nar t ++ junk → node_wf t →
  2 * length (nar t ++ junk) + patience r + 1 < nfuel →
  length (events_of [] t) + patience r < fuel →
  ∃ evs, collect nfuel fuel to_end plans (parser_new r) [] = Ok evs ∧
    Forall2 (event_read to_end) (events_of [] t) evs.
Proof.
  intros Hi Hr Hwf Hn Hf. by apply (collect_nar nfuel fuel to_end plans r t junk).
Qed.

Lemma parse_nar_dropped_files_witness :
  ∃ evs, collect (Z.to_nat 5000) (Z.to_nat 1000) false [[2]; []] (parser_new sample_reader) [] = Ok evs ∧
    Forall2 (event_read false) (events_of [] sample_tree) evs.
Proof.
  destruct sample_reader_ok as (Hi & Hr & Hwf).
  apply (parse_nar_dropped_files (BytesReader source) _ _ sample_reader sample_tree (str "next") false).
  - exact Hi.
  - exact Hr.
  - exact Hwf.
  - apply Nat.ltb_lt. vm_compute. reflexivity.
  - apply Nat.ltb_lt. vm_compute. reflexivity.
Defined.

(** C2. Writing and parsing are inverse: the events of a tree, sent through
    the writer under any schedule of the underlying writer and any cut of the
    contents, give bytes that the parser over the buffered reader, under any
    schedule of the source, turns back into the same events. *)
Theorem nar_roundtrip (t : node) (sch : list (option nat)) (ws : list WEvent) (bs : bytes)
    (src : source) (reserved max_ : nat) (keep : list Filled → list Filled) (plans : list (list nat))
    (nfuel fuel : nat) :
  node_wf t → Forall (λ o, o ≠ Some 0) sch → Forall2 carries (events_of [] t) ws →
  write_nar (mk_sink [] sch) ws = Ok bs →
  src_rest src = bs → reader_ok reserved max_ keep src →
  2 * length bs + length src + 1 < nfuel → length (events_of [] t) + length src < fuel →
  collect nfuel fuel true plans (parser_new (reader_build reserved max_ keep src)) [] =
  Ok (events_of [] t).
Proof.
  intros Hwf Hs Hc Hw Hsrc Hok Hn Hf.
  assert (bs = nar t) as ->.
  { assert (write_nar (mk_sink [] sch) ws = Ok (nar t)) as Hw' by (by eapply write_nar_spec).
    congruence. }
  destruct (source_reader_inv reserved max_ keep src Hok) as (Hi & Hr & Hp).
  rewrite <-Hp in Hn, Hf.
  destruct (collect_nar nfuel fuel true plans (reader_build reserved max_ keep src) t [])
    as (evs & -> & Hev); [done|by rewrite Hr, app_nil_r|done|by rewrite app_nil_r|done|].
  by rewrite (event_read_eq _ _ Hev).
Qed.

Lemma nar_roundtrip_witness :
  let src := pieces 200 7 (nar sample_tree) in
  write_nar (mk_sink [] sample_sched) sample_items = Ok (nar sample_tree) ∧
  collect (Z.to_nat 5000) (Z.to_nat 1000) true [] (parser_new (reader_build 16 4096 (λ _, []) src)) [] =
  Ok (events_of [] sample_tree).
Proof.
  intros src.
  assert (write_nar (mk_sink [] sample_sched) sample_items = Ok (nar sample_tree)) as Hw
    by (vm_compute; reflexivity).
  split; [exact Hw|].
  apply (nar_roundtrip sample_tree sample_sched sample_items (nar sample_tree) src).
  - apply sample_reader_ok.
  - repeat constructor; discriminate.
  - repeat constructor; discriminate.
  - exact Hw.
  - vm_compute. reflexivity.
  - split; [apply pieces_ok; lia|].
    split; [lia|]. split; [vm_compute; lia|]. intros l. apply list_subseteq_nil.
  - apply Nat.ltb_lt. vm_compute. reflexivity.
  - apply Nat.ltb_lt. vm_compute. reflexivity.
Defined.

(** C26. An archive inside a longer stream is delimited exactly: the reader
    gives the bytes of the archive, to the byte, and the underlying reader is
    left at what follows, with any schedule and any read sizes. *)
Theorem nar_bytes_exact (R : Type) (HR : AsyncBytesRead R) (HL : AsyncBytesReadLaws R)
    (r : R) (t : node) (junk : bytes) (rooms : list nat) (fuel : nat) :
  rd_inv r → rest r = nar t ++ junk → node_wf t → length (nar t) + patience r < fuel →
  ∃ x, nb_read_to_end fuel rooms (nb_new r) [] = (x, Ok (nar t)) ∧ rest (nb_reader x) = junk.
Proof.
  intros Hi Hr Hwf Hf.
  destruct (nb_read_to_end_spec fuel rooms (nb_new r) (nar t) junk []) as (x & E & Hat);
    [by apply nb_new_at|done|].
  exists x. split; [done|]. by destruct Hat as (_ & -> & _).
Qed.

Lemma nar_bytes_exact_witness :
  ∃ x, nb_read_to_end (Z.to_nat 5000) [0; 3; 100] (nb_new sample_reader) [] = (x, Ok (nar sample_tree)) ∧
    rest (nb_reader x) = str "next".
Proof.
  destruct sample_reader_ok as (Hi & Hr & Hwf).
  apply (nar_bytes_exact (BytesReader source) _ _ sample_reader sample_tree (str "next")).
  - exact Hi.
  - exact Hr.
  - exact Hwf.
  - apply Nat.ltb_lt. vm_compute. reflexivity.
Defined.

(** ** Lengths that cannot be aligned *)

(** The archive of a file or a symlink that declares [len] bytes and has none. *)
Definition node_token (nt : NodeType) : bytes :=
  match nt with NT_File => TOK_FILE | NT_ExecutableFile => TOK_FILE_E | NT_Symlink => TOK_SYM end.

Definition hollow (nt : NodeType) (len : Z) : bytes := TOK_ROOT ++ node_token nt ++ u64_to_le_bytes len ++ TOK_PAR.

Lemma wrapped_aligned len : is_u64 len → ¬ alignable len → calc_aligned len = 0%Z.
Proof.
  unfold is_u64, alignable, calc_aligned, wrap_u64, u64_max. intros Hu Ha. unfold u64_modulus in *.
  assert (∃ k, len = 18446744073709551616 - k ∧ (k = 1 ∨ k = 2 ∨ k = 3 ∨ k = 4 ∨ k = 5 ∨ k = 6 ∨ k = 7))%Z
    as (k & -> & Hk) by (exists (18446744073709551616 - len)%Z; lia).
  destruct Hk as [->|[->|[->|[->|[->|[->| ->]]]]]]; reflexivity.
Qed.

(** The state machine as far as the contents. *)
Lemma consumes_hollow P nt len : is_u64 len →
  consumes P inner_new (TOK_ROOT ++ node_token nt ++ u64_to_le_bytes len)
    (mk_inner (ReadContents nt len (calc_aligned len)) 0).
Proof.
  intros Hu. eapply consumes_trans; [apply consumes_root|]. eapply consumes_trans.
  - apply (consumes_select_node P 0 _ (ReadContentsLen nt ZEROS 0)). destruct nt; solve_in.
  - by apply consumes_contents_len.
Qed.

(** Skipping the contents, all of it. *)
Lemma run_hollow nt len junk : is_u64 len → ¬ alignable len →
  run true inner_new (hollow nt len ++ junk) = Ok (mk_inner Eof 0, length (hollow nt len)).
Proof.
  intros Hu Ha. unfold hollow.
  assert (consumes true inner_new (TOK_ROOT ++ node_token nt ++ u64_to_le_bytes len ++ TOK_PAR) (mk_inner Eof 0)) as [_ Hc].
  { replace (TOK_ROOT ++ _) with ((TOK_ROOT ++ node_token nt ++ u64_to_le_bytes len) ++ [] ++ TOK_PAR)
      by by rewrite <-!app_assoc.
    eapply consumes_trans; [by apply consumes_hollow|]. rewrite wrapped_aligned by done.
    eapply (consumes_trans _ _ _ (mk_inner (FinishNode 0) 0)); [|apply (consumes_finish_node true 0)].
    apply consumes_step; [by split|cbn; lia|]. intros bs. unfold drive_step. cbn [state]. unfold skip. by destruct bs. }
  rewrite Hc, run_is_eof by done. unfold shift_run. cbn. do 2 f_equal. lia.
Qed.

Section wrapped.
Context {R : Type} `{!AsyncBytesRead R, !AsyncBytesReadLaws R}.
Implicit Types (x : NarParser R) (r : R).

(** The state machine has not yet come to the target of a symlink that declares
    [len] bytes, aligned to none. *)
Definition before_target (len : Z) (i : Inner) (bs : bytes) : Prop :=
  inner_wf i ∧ stops false i = false ∧ ∃ lv n, run false i bs = Ok (mk_inner (ReadContents NT_Symlink len 0) lv, n).

Definition waits_for_target (len : Z) (P N : nat) x : Prop :=
  ∃ r i, x = mk_parser (Available r) (np_name x) i ∧ rd_inv r ∧ patience r ≤ P ∧ length (rest r) ≤ N ∧
    before_target len i (rest r).

Lemma read_string_wrapped r buf len : (0 < len)%Z → read_string r buf len 0 = (r, Ready Panic).
Proof using Type.
  intros Hlen. unfold read_string. change (Z.to_nat 0) with 0. cbn [fill_to]. rewrite decide_True by lia.
  by rewrite decide_False by lia.
Qed.

Lemma next_loop_panics fuel r nm i len x q :
  (0 < len)%Z → rd_inv r → before_target len i (rest r) → length (rest r) < fuel →
  next_loop fuel r nm i = (x, q) →
  q = panics ∨ (q = Pending ∧ ∃ P, P < patience r ∧ waits_for_target len P (length (rest r)) x).
Proof using Type*.
  intros Hlen. revert r nm i. induction fuel as [|fuel IH]; intros r nm i Hi (Hwf & Hs & lv & n & Hrun) Hf E; [lia|].
  assert (rest r ≠ []) as Hne by (intros E0; rewrite E0 in Hrun; by apply run_nil_nonstop in Hrun).
  cbn [next_loop] in E. destruct (poll_fill_buf r) as [r1 q1] eqn:E1.
  destruct (poll_fill_buf_law r r1 q1 Hi E1) as (Hi1 & Hr1 & Hq1). destruct q1 as [[buf|e|]|]; try done.
  2:{ injection E as <- <-. right. split; [done|]. destruct Hq1 as [_ Hp]. exists (patience r1). split; [done|].
      exists r1, i. rewrite Hr1. split_and!; try done. split; [done|]. split; [done|]. by exists lv, n. }
  destruct Hq1 as (Hh & Hnil & _ & Hp1). destruct buf as [|y b]; [by specialize (Hnil eq_refl)|].
  set (buf := y :: b) in *. assert (0 < length buf) as Hb by (cbn; lia). clearbody buf.
  destruct (held_prefix r1 Hi1) as [more Hmore]. rewrite Hr1, <-Hh in Hmore.
  pose proof (run_app false i buf more Hwf) as Ha. rewrite <-Hmore, Hrun in Ha.
  assert (∃ i1 n1, run false i buf = Ok (i1, n1)) as (i1 & n1 & Erun)
    by (destruct (run false i buf) as [[]| |]; cbn in Ha; eauto; done).
  rewrite Erun in Ha. cbn in Ha.
  destruct (run_drive false i buf i1 n1 Hwf Erun) as (Ed & Hwf1 & Hn1 & Hstop). rewrite Ed in E.
  destruct (consume_law r1 n1) as (r2 & Ec & Hi2 & Hr2 & _ & Hp2); [done|by rewrite <-Hh|]. rewrite Ec in E.
  rewrite Hr1 in Hr2. destruct (stops false i1) eqn:Hs1.
  - injection Ha as <- _. cbn in E. rewrite (read_string_wrapped r2 _ len Hlen) in E. injection E as <- <-. by left.
  - rewrite (Hstop eq_refl) in *. rewrite Hmore, drop_app_length in Hr2.
    assert (dispatch (next_loop fuel) r2 nm i1 (drop (length buf) buf) = next_loop fuel r2 nm i1) as Ek.
    { unfold dispatch, stops in *. by destruct (state i1). }
    rewrite Ek in E. assert (length (rest r2) < length (rest r)) as Hl by (rewrite Hr2, Hmore, length_app; lia).
    assert (before_target len i1 (rest r2)) as Ht.
    { split; [done|]. split; [done|]. rewrite Hr2.
      destruct (run false i1 more) as [[j m]| |]; unfold shift_run in Ha; cbn in Ha; simplify_eq. by exists lv, m. }
    destruct (IH r2 nm i1 Hi2 Ht ltac:(lia) E) as [->|(-> & P & HP & r3 & i3 & Ex & Hi3 & HP3 & HN3 & Ht3)];
      [by left|right].
    split; [done|]. exists P. split; [lia|]. exists r3, i3. split_and!; try done. lia.
Qed.

Lemma poll_next_panics fuel x x' q len P N :
  (0 < len)%Z → waits_for_target len P N x → N < fuel → poll_next fuel x = (x', q) →
  match q with
  | Pending => ∃ P', P' < P ∧ waits_for_target len P' N x'
  | Ready a => a = Some Panic
  end.
Proof using Type*.
  intros Hlen (r & i & -> & Hi & HP & HN & Ht) Hf E. unfold poll_next in E.
  cbn [poll_reader np_reader np_state np_name] in E. destruct (id Ht) as (_ & Hs & _).
  assert (resume_state i = Ok i ∧ is_eof i = false) as [Eres Eeof].
  { unfold stops, resume_state, is_eof in *. by destruct (state i). }
  rewrite Eres, Eeof in E.
  destruct (next_loop_panics fuel r _ i len x' q Hlen Hi Ht ltac:(lia) E) as [->|(-> & P' & HP' & r3 & i3 & ? & ? & ? & ? & ?)];
    [done|].
  exists P'. split; [lia|]. exists r3, i3. split_and!; try done. lia.
Qed.

Lemma wrapped_target_panics r len junk fuel :
  is_u64 len → ¬ alignable len → rd_inv r → rest r = hollow NT_Symlink len ++ junk → length (rest r) < fuel →
  ∃ x, poll_until (poll_next fuel) (patience r) (parser_new r) = (x, panics).
Proof using Type*.
  intros Hu Ha Hi Hr Hf. assert (0 < len)%Z as Hlen by (unfold is_u64, alignable, u64_max in *; lia).
  set (m x := match np_reader x with Available r' => patience r' | _ => 0 end).
  destruct (poll_until_ind (poll_next fuel) m (λ x, waits_for_target len (m x) (length (rest r)) x)
    (λ _ a, a = Some Panic)) with (fuel := patience r) (r := parser_new r) as (x & a & E & ->).
  - intros x x' q Hx E. pose proof (poll_next_panics fuel x x' q len _ _ Hlen Hx Hf E) as Hp.
    destruct q as [a|]; [done|]. destruct Hp as (P & HP & r' & i' & Ex & ? & ? & ? & ?).
    assert (m x' = patience r') as Em by by rewrite Ex. split; [|lia].
    exists r', i'. rewrite Em. by split_and!.
  - exists r, inner_new. split_and!; try done. split; [apply inner_new_wf|]. split; [done|].
    destruct (consumes_hollow false NT_Symlink len Hu) as [Hwf Hc].
    specialize (Hc (TOK_PAR ++ junk)). rewrite wrapped_aligned in Hc, Hwf by done.
    rewrite (run_stop (mk_inner (ReadContents NT_Symlink len 0) 0)) in Hc by done. eexists 0, _. rewrite Hr. unfold hollow. rewrite <-!app_assoc in *. exact Hc.
  - done.
  - by exists x.
Qed.
End wrapped.

(** C40. Lengths above [u64::MAX - 7] cannot be aligned and wrap to zero. Over
    any lawful reader, the archive reader takes a file or a symlink that
    declares any such length and has no contents at all for a complete archive,
    with the following bytes for the next thing, and the parser panics on a
    symlink like that (it splits off more bytes than it has). *)
Theorem nar_length_wraps (R : Type) (HR : AsyncBytesRead R) (HL : AsyncBytesReadLaws R)
    (r : R) (nt : NodeType) (len : Z) (junk : bytes) (rooms : list nat) (fuel nfuel : nat) :
  rd_inv r → is_u64 len → ¬ alignable len → rest r = hollow nt len ++ junk →
  length (hollow nt len) + patience r < fuel → length (rest r) < nfuel →
  (∃ x, nb_read_to_end fuel rooms (nb_new r) [] = (x, Ok (hollow nt len)) ∧ rest (nb_reader x) = junk) ∧
  (nt = NT_Symlink → ∃ x, poll_until (poll_next nfuel) (patience r) (parser_new r) = (x, panics)).
Proof.
  intros Hi Hu Ha Hr Hf Hnf. split.
  - destruct (nb_read_to_end_spec fuel rooms (nb_new r) (hollow nt len) junk []) as (x & E & Hat); [|done|].
    + unfold nb_at. cbn [nb_new nb_reader nb_parsed nb_state]. split_and!; try done; try lia; [apply inner_new_wf|].
      exists (mk_inner Eof 0). split; [done|]. rewrite drop_0, run_hollow by done. by rewrite Nat.sub_0_r.
    + exists x. split; [done|]. by destruct Hat as (_ & -> & _).
  - intros ->. by apply (wrapped_target_panics r len junk).
Qed.

Lemma nar_length_wraps_witness :
  let r := reader_build 512 4096 (λ _, []) (pieces 40 20 (hollow NT_Symlink u64_max ++ str "next")) in
  (∃ x, nb_read_to_end 500 [0; 3; 100] (nb_new r) [] = (x, Ok (hollow NT_Symlink u64_max)) ∧
    rest (nb_reader x) = str "next") ∧
  ∃ x, poll_until (poll_next 500) (patience r) (parser_new r) = (x, panics).
Proof.
  intros r. assert (rd_inv r ∧ rest r = hollow NT_Symlink u64_max ++ str "next") as [Hi Hr].
  { destruct (source_reader_inv 512 4096 (λ _, []) (pieces 40 20 (hollow NT_Symlink u64_max ++ str "next"))) as (Hi & Hr & _).
    - split; [apply pieces_ok; lia|]. split; [lia|]. split; [apply Nat.leb_le; vm_compute; reflexivity|].
      intros l. apply list_subseteq_nil.
    - split; [exact Hi|]. etrans; [exact Hr|]. vm_compute. reflexivity. }
  destruct (nar_length_wraps (BytesReader source) _ _ r NT_Symlink u64_max (str "next") [0; 3; 100] 500 500 Hi)
    as [H1 H2].
  - vm_compute. split; [discriminate|reflexivity].
  - unfold alignable. lia.
  - exact Hr.
  - apply Nat.ltb_lt. vm_compute. reflexivity.
  - rewrite Hr. apply Nat.ltb_lt. vm_compute. reflexivity.
  - split; [exact H1|]. apply H2. reflexivity.
Defined.
