(* ===== verification/ProtoRead.v ===== *)
(** Reading the primitives of the daemon protocol from an [AsyncBytesRead]:
    integers ([harmonia-utils-io/src/read_u64.rs]) and length-limited padded
    byte strings ([harmonia-utils-io/src/try_read_bytes_limited.rs]). *)

From stdpp Require Import base list numbers strings gmap.
From Stdlib Require Import ZArith Lia Strings.Byte.
From S2P Require Import Prelude Async Wire BufferMut BytesReader.

(** ** Integers *)

Record TryReadU64 : Type := mk_u64 { tu_buf : bytes; tu_read : nat }.

Definition u64_new : TryReadU64 := mk_u64 ZEROS 0.

Section readers.
Context {R : Type} `{!AsyncBytesRead R}.
Implicit Types r : R.

(** [TryReadU64::poll_reader]; [while self.read < 8], every round reads. *)
Fixpoint u64_loop (fuel : nat) (st : TryReadU64 * R) : (TryReadU64 * R) * polled (option Z) :=
  let '(u, r) := st in
  if decide (8 ≤ tu_read u) then (st, Ready (Ok (Some (from_le_bytes (tu_buf u))))) else
  match fuel with
  | O => (st, Pending)
  | S fuel =>
      match poll_read r (8 - tu_read u) with
      | (r, Ready (Ok [])) =>
          ((u, r), if decide (tu_read u = 0) then Ready (Ok None)
                   else Ready (Err (UnexpectedEof "EOF reading u64")))
      | (r, Ready (Ok b)) =>
          u64_loop fuel
            (mk_u64 (take (tu_read u) (tu_buf u) ++ b ++ drop (tu_read u + length b) (tu_buf u))
               (tu_read u + length b), r)
      | (r, Ready (Err e)) => ((u, r), Ready (Err e))
      | (r, Ready Panic) => ((u, r), Ready Panic)
      | (r, Pending) => ((u, r), Pending)
      end
  end.

Definition u64_poll_reader (st : TryReadU64 * R) : (TryReadU64 * R) * polled (option Z) :=
  u64_loop 8 st.

(** ** Byte strings *)

(** [limit] is the range [lo..=hi]. *)
Inductive TryReadBytesLimited : Type :=
| ReadLen (lo hi : Z) (u : TryReadU64)
| Fill (len aligned : Z)
| Done.

(** [raw_len.checked_add(7).map(|v| v & !7)]. *)
Definition checked_aligned (len : Z) : option Z :=
  if decide (len + 7 < u64_modulus)%Z then Some (Z.land (len + 7) (Z.lnot 7)) else None.

(** The branch [Fill]: fill up to the aligned length, consume it, and check
    that the padding is zeros. *)
Definition fill_bytes r (len aligned : Z) : (TryReadBytesLimited * R) * polled (option bytes) :=
  match poll_fill_buf r with
  | (r, Ready (Ok buf)) =>
      match fill_to (Z.to_nat aligned) (Z.to_nat aligned) r buf with
      | (r, Ready (Ok buf)) =>
          let contents := take (Z.to_nat aligned) buf in
          match consume r (Z.to_nat aligned) with
          | Ok r =>
              ((Done, r),
               if decide (drop (Z.to_nat len) contents = take (Z.to_nat (aligned - len)) ZEROS)
               then Ready (Ok (Some (take (Z.to_nat len) contents)))
               else Ready (Err (InvalidData "non-zero padding")))
          | Err e => ((Fill len aligned, r), Ready (Err e))
          | Panic => ((Fill len aligned, r), Ready Panic)
          end
      | (r, Ready (Err e)) => ((Fill len aligned, r), Ready (Err e))
      | (r, Ready Panic) => ((Fill len aligned, r), Ready Panic)
      | (r, Pending) => ((Fill len aligned, r), Pending)
      end
  | (r, Ready (Err e)) => ((Fill len aligned, r), Ready (Err e))
  | (r, Ready Panic) => ((Fill len aligned, r), Ready Panic)
  | (r, Pending) => ((Fill len aligned, r), Pending)
  end.

(** [TryReadBytesLimited::poll_reader]. *)
Definition bytes_poll_reader (st : TryReadBytesLimited * R)
    : (TryReadBytesLimited * R) * polled (option bytes) :=
  let '(s, r) := st in
  match s with
  | ReadLen lo hi u =>
      match u64_poll_reader (u, r) with
      | ((u, r), Pending) => ((ReadLen lo hi u, r), Pending)
      | ((u, r), Ready (Err e)) => ((ReadLen lo hi u, r), Ready (Err e))
      | ((u, r), Ready Panic) => ((ReadLen lo hi u, r), Ready Panic)
      | ((u, r), Ready (Ok None)) => ((Done, r), Ready (Ok None))
      | ((u, r), Ready (Ok (Some raw_len))) =>
          if decide (lo ≤ raw_len ≤ hi)%Z then
            match checked_aligned raw_len with
            | None =>
                ((ReadLen lo hi u, r), Ready (Err (InvalidData "aligned bytes length out of range")))
            | Some aligned =>
                if decide (0 < aligned)%Z
                then fill_bytes (prepare r (Z.to_nat aligned)) raw_len aligned
                else ((Done, r), Ready (Ok (Some [])))
            end
          else ((ReadLen lo hi u, r), Ready (Err (InvalidData "bytes length out of range")))
      end
  | Fill len aligned => fill_bytes r len aligned
  | Done => (st, Ready Panic)
  end.
End readers.

(** ** What they read, as functions of the stream

    The value and the rest of the stream; [None] is a clean end of file. *)

Definition take_u64 (bs : bytes) : res io_error (option Z * bytes) :=
  if decide (bs = []) then Ok (None, [])
  else if decide (length bs < 8) then Err (UnexpectedEof "EOF reading u64")
  else Ok (Some (from_le_bytes (take 8 bs)), drop 8 bs).

Definition take_bytes (lo hi : Z) (bs : bytes) : res io_error (option bytes * bytes) :=
  '(o, bs) ← take_u64 bs;
  match o with
  | None => mret (None, bs)
  | Some len =>
      if decide (lo ≤ len ≤ hi)%Z then
        aligned ← ok_or (checked_aligned len) (InvalidData "aligned bytes length out of range");
        if decide (0 < aligned)%Z then
          if decide (Z.of_nat (length bs) < aligned)%Z
          then Err (UnexpectedEof "EOF while force reading")
          else
            let contents := take (Z.to_nat aligned) bs in
            if decide (drop (Z.to_nat len) contents = take (Z.to_nat (aligned - len)) ZEROS)
            then mret (Some (take (Z.to_nat len) contents), drop (Z.to_nat aligned) bs)
            else Err (InvalidData "non-zero padding")
        else mret (Some [], bs)
      else Err (InvalidData "bytes length out of range")
  end.

(** ** The readers refine the functions *)

Section laws.
Context {R : Type} `{!AsyncBytesRead R} {HB : AsyncBytesReadBase R}.
Implicit Types r : R.

(** The integer has the bytes [a] so far. *)
Definition u64_at (u : TryReadU64) (a : bytes) : Prop :=
  length (tu_buf u) = 8 ∧ tu_read u = length a ∧ length a ≤ 8 ∧ take (length a) (tu_buf u) = a.

Definition u64_post (r0 : R) (bs : bytes) (st' : TryReadU64 * R) (p : polled (option Z)) : Prop :=
  rd_inv st'.2 ∧
  match p with
  | Pending => ∃ a, u64_at st'.1 a ∧ bs = a ++ rest st'.2 ∧ patience st'.2 < patience r0
  | Ready (Ok o) => take_u64 bs = Ok (o, rest st'.2) ∧ patience st'.2 ≤ patience r0
  | Ready (Err e) => take_u64 bs = Err e
  | Ready Panic => False
  end.

Lemma u64_loop_spec fuel u r a bs st' p :
  rd_inv r → u64_at u a → bs = a ++ rest r → 8 - length a ≤ fuel →
  u64_loop fuel (u, r) = (st', p) → u64_post r bs st' p.
Proof.
  revert u r a; induction fuel as [|fuel IH]; intros u r a Hi (Hl & Hr & Ha & Ht) Hbs Hf E; cbn [u64_loop] in E.
  all: case_decide as H8.
  1, 3: injection E as <- <-; split; [done|]; split; [|done]; unfold take_u64; subst bs;
    (rewrite decide_False by (destruct a; cbn in *; [lia|done]));
    (rewrite decide_False by (rewrite length_app; lia)); cbn [snd];
    (rewrite take_app_le, take_ge, drop_app_ge by lia);
    (replace (8 - length a) with 0 by lia); rewrite drop_0;
    do 3 f_equal; rewrite <-Ht at 1; by rewrite take_ge by lia.
  1: lia.
  destruct (poll_read r (8 - tu_read u)) as [r1 q] eqn:E1.
  apply poll_read_law in E1 as [Hi1 Hq]; [|done|lia].
  destruct q as [[b|e|]|]; try done.
  - destruct Hq as (Hrest & Hlen & Hnil & Hpat). destruct b as [|y b].
    + injection E as <- <-. split; [done|]. specialize (Hnil eq_refl). cbn in Hrest.
      rewrite Hnil, app_nil_r in Hbs. subst bs. unfold take_u64. case_decide as H0.
      * destruct a; [|cbn in *; lia]. rewrite decide_True by done. cbn [snd]. rewrite <-Hrest, Hnil. done.
      * destruct a; [cbn in *; lia|]. rewrite decide_False by done. by rewrite decide_True by lia.
    + set (b' := y :: b) in *. assert (0 < length b') by (cbn; lia).
      apply (IH _ _ (a ++ b')) in E; [|done| | |rewrite length_app; lia].
      * destruct E as [? Hp]. split; [done|]. destruct p as [[]|]; try done; [|].
        -- destruct Hp. split; [done|lia].
        -- destruct Hp as (a' & ? & ? & ?). exists a'. split; [done|]. split; [done|lia].
      * clearbody b'. unfold u64_at. cbn [tu_buf tu_read]. rewrite Hr.
        split; [rewrite !length_app, length_take, length_drop; lia|]. rewrite length_app.
        split; [done|]. split; [lia|].
        rewrite app_assoc, take_app_le by (rewrite length_app, length_take; lia).
        rewrite take_ge by (rewrite length_app, length_take; lia). by rewrite Ht.
      * by rewrite Hbs, Hrest, app_assoc.
  - injection E as <- <-. destruct Hq as [Hrest Hpat]. split; [done|]. exists a. cbn.
    rewrite Hrest. done.
Qed.

Lemma u64_new_at : u64_at u64_new [].
Proof. unfold u64_at. cbn. auto with lia. Qed.

Lemma u64_poll_reader_spec u r a bs st' p :
  rd_inv r → u64_at u a → bs = a ++ rest r → u64_poll_reader (u, r) = (st', p) →
  u64_post r bs st' p.
Proof. intros ? ? ? E. eapply u64_loop_spec; [done|done|done| |exact E]. lia. Qed.

(** A byte string: the bytes of the length read so far, or the contents. *)
Definition bytes_at (lo hi : Z) (s : TryReadBytesLimited) (r : R) (bs : bytes) : Prop :=
  match s with
  | ReadLen lo' hi' u => lo' = lo ∧ hi' = hi ∧ ∃ a, u64_at u a ∧ bs = a ++ rest r
  | Fill len aligned => (lo ≤ len ≤ hi)%Z ∧ is_u64 len ∧ checked_aligned len = Some aligned ∧
      (0 < aligned)%Z ∧ bs = u64_to_le_bytes len ++ rest r
  | Done => False
  end.

Definition bytes_post (lo hi : Z) (r0 : R) (bs : bytes) (st' : TryReadBytesLimited * R)
    (p : polled (option bytes)) : Prop :=
  rd_inv st'.2 ∧
  match p with
  | Pending => bytes_at lo hi st'.1 st'.2 bs ∧ patience st'.2 < patience r0
  | Ready (Ok o) => take_bytes lo hi bs = Ok (o, rest st'.2) ∧ patience st'.2 ≤ patience r0
  | Ready (Err e) => take_bytes lo hi bs = Err e
  | Ready Panic => False
  end.

Lemma checked_aligned_spec len aligned :
  (0 ≤ len)%Z → checked_aligned len = Some aligned → alignable len ∧ aligned = calc_aligned len.
Proof.
  unfold checked_aligned, calc_aligned, wrap_u64, alignable, u64_max. intros Hl.
  case_decide; [|done]. intros [= <-]. unfold u64_modulus in *.
  split; [lia|]. by rewrite (Z.mod_small (len + 7)) by lia.
Qed.

Lemma take_u64_encoded len bs :
  is_u64 len → take_u64 (u64_to_le_bytes len ++ bs) = Ok (Some len, bs).
Proof.
  intros Hl. pose proof (length_u64_to_le_bytes len) as H8. unfold take_u64.
  rewrite decide_False by (intros [E _]%app_eq_nil; by rewrite E in H8).
  rewrite decide_False by (rewrite length_app; lia).
  rewrite take_app_length' by done. rewrite drop_app_length' by done.
  by rewrite from_u64_to_le_bytes.
Qed.

Lemma take_u64_Some bs len tl :
  take_u64 bs = Ok (Some len, tl) → is_u64 len ∧ bs = u64_to_le_bytes len ++ tl.
Proof.
  unfold take_u64. repeat case_decide; intros E; try done. injection E as <- <-.
  assert (length (take 8 bs) = 8) as H8 by (rewrite length_take; lia).
  split; [by apply from_le_bytes_u64|]. by rewrite u64_to_from_le_bytes, take_drop by done.
Qed.

Lemma fill_bytes_spec lo hi r0 r len aligned bs st' p :
  rd_inv r → rd_fits r (min (Z.to_nat aligned) (length (rest r))) →
  bytes_at lo hi (Fill len aligned) r bs → patience r ≤ patience r0 →
  fill_bytes r len aligned = (st', p) → bytes_post lo hi r0 bs st' p.
Proof.
  intros Hi Hfit (Hlim & Hu & Hal & Hpos & Hbs) Hpat E.
  assert (take_bytes lo hi bs =
    if decide (Z.of_nat (length (rest r)) < aligned)%Z
    then Err (UnexpectedEof "EOF while force reading")
    else if decide (drop (Z.to_nat len) (take (Z.to_nat aligned) (rest r)) =
                    take (Z.to_nat (aligned - len)) ZEROS)
      then Ok (Some (take (Z.to_nat len) (take (Z.to_nat aligned) (rest r))),
               drop (Z.to_nat aligned) (rest r))
      else Err (InvalidData "non-zero padding")) as Htb.
  { unfold take_bytes. rewrite Hbs, take_u64_encoded by done. cbn.
    rewrite decide_True by done. rewrite Hal. cbn. by rewrite decide_True by done. }
  unfold bytes_post. rewrite Htb. unfold fill_bytes in E.
  assert (∀ r1, rest r1 = rest r → bytes_at lo hi (Fill len aligned) r1 bs) as Hat.
  { intros r1 Hr1. unfold bytes_at. rewrite Hr1. auto. }
  destruct (poll_fill_buf r) as [r1 q1] eqn:E1.
  destruct (poll_fill_buf_law _ _ _ Hi E1) as (Hi1 & Hr1 & Hq1).
  destruct q1 as [[buf|e|]|]; try done.
  2: { injection E as <- <-. destruct Hq1. cbn. split; [done|]. split; [by apply Hat|lia]. }
  destruct Hq1 as (-> & _ & _ & Hp1).
  destruct (fill_to _ _ r1 (held r1)) as [r2 q2] eqn:E2.
  apply fill_to_spec in E2 as (Hi2 & Hr2 & Hq2); [|done|rewrite Hr1; by eapply poll_fill_buf_fits|lia].
  rewrite Hr1 in Hr2.
  destruct q2 as [[buf|e|]|]; try done.
  - destruct Hq2 as (-> & Hlen & Hp2).
    destruct (consume_law r2 (Z.to_nat aligned) Hi2 Hlen) as (r3 & Ec & Hi3 & Hr3 & _ & Hp3).
    rewrite Ec in E. injection E as <- <-. cbn [fst snd]. split; [done|].
    pose proof (length_held r2 Hi2) as Hlh. rewrite Hr2 in Hlh.
    rewrite (decide_False (P := (Z.of_nat (length (rest r)) < aligned)%Z)) by lia.
    assert (take (Z.to_nat aligned) (held r2) = take (Z.to_nat aligned) (rest r)) as ->.
    { rewrite (held_take r2 Hi2), Hr2, take_take. by rewrite Nat.min_l by lia. }
    clear Htb. case_decide; [|done]. cbn [fst snd]. rewrite Hr3, Hr2. split; [done|lia].
  - injection E as <- <-. cbn. split; [done|]. destruct Hq2 as [-> Hlt].
    rewrite Hr1 in Hlt. by rewrite decide_True by lia.
  - injection E as <- <-. cbn. split; [done|]. split; [by apply Hat|lia].
Qed.

(** *** What fits stays so *)

Lemma u64_loop_fits fuel u r st' p : u64_loop fuel (u, r) = (st', p) → keeps_fits r st'.2.
Proof using Type.
  revert u r. induction fuel as [|fuel IH]; intros u r E n Hn; cbn [u64_loop] in E.
  all: case_decide as H8; [by injection E as <- <-|].
  { by injection E as <- <-. }
  destruct (poll_read r (8 - tu_read u)) as [r2 q] eqn:E1. pose proof (poll_read_fits r _ r2 q n E1 Hn) as Hn2.
  destruct q as [[[|y b]|e|]|]; [by injection E as <- <-| |by injection E as <- <-..].
  exact (IH _ _ E n Hn2).
Qed.

Lemma fill_bytes_fits r len aligned st' p : fill_bytes r len aligned = (st', p) → keeps_fits r st'.2.
Proof using Type.
  unfold fill_bytes. intros E n Hn. destruct (poll_fill_buf r) as [r1 q1] eqn:E1.
  pose proof (poll_fill_buf_fits r r1 q1 n E1 Hn) as Hn1. destruct q1 as [[b|e|]|]; try (by injection E as <- <-).
  destruct (fill_to _ _ r1 b) as [r2 q2] eqn:E2. pose proof (fill_to_fits _ _ _ _ _ _ E2 n Hn1) as Hn2.
  destruct q2 as [[b2|e|]|]; try (by injection E as <- <-).
  destruct (consume r2 _) as [r3|e|] eqn:E3; injection E as <- <-; [by eapply consume_fits|done|done].
Qed.

Lemma bytes_poll_reader_fits s r st' p : bytes_poll_reader (s, r) = (st', p) → keeps_fits r st'.2.
Proof using Type.
  intros E n Hn. destruct s as [lo hi u|len aligned|]; cbn [bytes_poll_reader] in E.
  - destruct (u64_poll_reader (u, r)) as [[u1 r1] q] eqn:E1. pose proof (u64_loop_fits _ _ _ _ _ E1 n Hn) as Hn1.
    cbn [snd] in Hn1. destruct q as [[[len|]|e|]|]; try (by injection E as <- <-).
    case_decide; [|by injection E as <- <-]. destruct (checked_aligned len); [|by injection E as <- <-].
    case_decide; [|by injection E as <- <-]. apply (fill_bytes_fits _ _ _ _ _ E). by apply prepare_fits.
  - by apply (fill_bytes_fits _ _ _ _ _ E).
  - by injection E as <- <-.
Qed.

(** The length that the stream [bs] announces, if it is inside the limit, fits
    the buffer. *)
Definition announced_fits (lo hi : Z) (r : R) (bs : bytes) : Prop :=
  ∀ len aligned tl, take_u64 bs = Ok (Some len, tl) → (lo ≤ len ≤ hi)%Z → checked_aligned len = Some aligned →
    rd_fits r (Z.to_nat aligned).

Lemma announced_keeps lo hi r r' bs : keeps_fits r r' → announced_fits lo hi r bs → announced_fits lo hi r' bs.
Proof using Type. intros Hk Ha len aligned tl ???. apply Hk. by eapply Ha. Qed.

(** Then polling gives what [take_bytes] says. *)
Lemma bytes_poll_reader_spec lo hi s r bs st' p :
  rd_inv r → bytes_at lo hi s r bs → announced_fits lo hi r bs →
  bytes_poll_reader (s, r) = (st', p) → bytes_post lo hi r bs st' p.
Proof using Type.
  intros Hi Hat Hfits E. destruct s as [lo' hi' u|len aligned|]; [| |done].
  2:{ eapply fill_bytes_spec; [done| |done|done|done]. destruct Hat as (Hlim & Hu & Hal & Hpos & Hbs).
      eapply fits_le; [eapply (Hfits len aligned (rest r)); [|done|done]|lia]. rewrite Hbs. by apply take_u64_encoded. }
  cbn in Hat. destruct Hat as (-> & -> & a & Hu & Hbs). unfold bytes_poll_reader in E.
  destruct (u64_poll_reader (u, r)) as [[u1 r1] q] eqn:E1.
  pose proof (u64_loop_fits _ _ _ _ _ E1) as Hk. cbn [snd] in Hk.
  destruct (u64_poll_reader_spec u r a bs _ _ Hi Hu Hbs E1) as [Hi1 Hq]. cbn [fst snd] in *.
  destruct q as [[[len|]|e|]|]; try done.
  - destruct Hq as [Htu Hp1].
    assert (is_u64 len ∧ bs = u64_to_le_bytes len ++ rest r1) as [Hlen Hbs1].
    { by apply take_u64_Some. }
    assert (take_bytes lo hi bs = take_bytes lo hi (u64_to_le_bytes len ++ rest r1)) as Htb by congruence.
    revert Htb. unfold take_bytes at 2. rewrite take_u64_encoded by done. cbn. intros Htb.
    case_decide as Hlim; [|injection E as <- <-; split; done].
    destruct (checked_aligned len) as [aligned|] eqn:Hal; [|injection E as <- <-; split; done].
    cbn in Htb. case_decide as Hpos; [|injection E as <- <-; split; [done|]; cbn [fst snd]; split; [done|lia]].
    pose proof (Hk _ (Hfits len aligned _ Htu Hlim Hal)) as Hfit.
    destruct (prepare_fits_law r1 (Z.to_nat aligned) Hi1 Hfit) as (Hi2 & Hr2 & _ & Hp2).
    eapply (fill_bytes_spec lo hi r (prepare r1 (Z.to_nat aligned))); [done| | |lia|exact E].
    + eapply fits_le; [by apply prepare_fits|lia].
    + cbn. rewrite Hr2. auto.
  - injection E as <- <-. destruct Hq as [Htu Hp1]. split; [done|]. unfold bytes_post, take_bytes.
    rewrite Htu. cbn [fst snd]. split; [done|lia].
  - injection E as <- <-. split; [done|]. cbn. unfold take_bytes. by rewrite Hq.
  - injection E as <- <-. destruct Hq as (a' & Hu' & Hbs' & Hp). split; [done|]. cbn.
    split; [|done]. eauto.
Qed.
End laws.

(** When the whole string is there, or its length already tells that it is not
    acceptable, it fits a reader whose buffer can hold all that is to come. *)
Lemma complete_fits {R} `{!AsyncBytesRead R, !AsyncBytesReadLaws R} lo hi s (r : R) bs :
  rd_inv r → bytes_at lo hi s r bs →
  take_bytes lo hi bs ≠ Err (UnexpectedEof "EOF while force reading") → announced_fits lo hi r bs.
Proof.
  intros Hi Hat Hne len aligned tl Htu Hlim Hal. apply laws_fits; [done|].
  assert (length tl ≤ length (rest r)) as Hl.
  { apply take_u64_Some in Htu as [Hu ->]. pose proof (length_u64_to_le_bytes len) as H8.
    destruct s as [lo' hi' u|len' aligned'|]; [| |done]; unfold bytes_at in Hat.
    - destruct Hat as (_ & _ & a & (_ & _ & Ha & _) & E). apply (f_equal length) in E. rewrite !length_app in E. lia.
    - destruct Hat as (_ & _ & _ & _ & E). apply (f_equal length) in E. rewrite !length_app, !length_u64_to_le_bytes in E. lia. }
  unfold take_bytes in Hne. rewrite Htu in Hne. cbn [mbind res_bind] in Hne. rewrite decide_True, Hal in Hne by done.
  cbn [ok_or mbind res_bind] in Hne. destruct (decide (0 < aligned)%Z); [|lia]. case_decide; [congruence|lia].
Qed.

(** ** The encoding *)

Lemma aligned_padding len aligned :
  (0 ≤ len)%Z → checked_aligned len = Some aligned →
  (aligned = len + Z.of_nat (calc_padding len))%Z.
Proof.
  intros Hl Ha. destruct (checked_aligned_spec len aligned Hl Ha) as [Hal ->].
  rewrite calc_padding_alignable by done. lia.
Qed.

Lemma take_zeros n : n ≤ 8 → take n ZEROS = replicate n Byte.x00.
Proof. intros. unfold ZEROS. rewrite take_replicate. f_equal. lia. Qed.

Lemma alignable_checked len : alignable len → is_Some (checked_aligned len).
Proof.
  unfold alignable, checked_aligned, u64_max, u64_modulus. intros ?. rewrite decide_True by lia. eauto.
Qed.

Lemma alignable_is_u64 len : alignable len → is_u64 len.
Proof. unfold alignable, is_u64, u64_max, u64_modulus. lia. Qed.

Lemma checked_aligned_0 len aligned :
  (0 ≤ len)%Z → checked_aligned len = Some aligned → (aligned ≤ 0)%Z → len = 0%Z.
Proof. intros Hl Ha Hz. apply aligned_padding in Ha; lia. Qed.

Lemma take_bytes_encoded lo hi b tl :
  alignable (Z.of_nat (length b)) → (lo ≤ Z.of_nat (length b) ≤ hi)%Z →
  take_bytes lo hi (put_nix_slice b ++ tl) = Ok (Some b, tl).
Proof.
  intros Ha Hlim. unfold put_nix_slice. rewrite <-!app_assoc. unfold take_bytes.
  rewrite take_u64_encoded by (by apply alignable_is_u64). cbn [mbind res_bind].
  rewrite decide_True by done.
  destruct (alignable_checked _ Ha) as [al Hal]. rewrite Hal. cbn [ok_or mbind res_bind].
  pose proof (aligned_padding _ al (Nat2Z.is_nonneg (length b)) Hal) as Hp.
  pose proof (calc_padding_lt_8 (Z.of_nat (length b))) as H8.
  set (pad := replicate _ Byte.x00).
  assert (length pad = calc_padding (Z.of_nat (length b))) as Hpad by apply length_replicate.
  destruct (decide (0 < al)%Z) as [Hpos|Hpos].
  - rewrite decide_False by (rewrite !length_app, Hpad; lia).
    rewrite app_assoc, take_app_length' by (rewrite length_app, Hpad; lia).
    rewrite !drop_app_length' by (rewrite ?length_app, ?Hpad; lia).
    rewrite decide_True; [by rewrite take_app_length' by lia|].
    unfold pad. rewrite take_zeros by lia. f_equal. lia.
  - assert (length b = 0) as Hb0 by lia. apply length_zero_iff_nil in Hb0 as ->.
    unfold pad. assert (calc_padding (Z.of_nat (length [])) = 0) as -> by done. done.
Qed.

Lemma take_bytes_Some lo hi bs b tl :
  take_bytes lo hi bs = Ok (Some b, tl) →
  bs = put_nix_slice b ++ tl ∧ alignable (Z.of_nat (length b)) ∧ (lo ≤ Z.of_nat (length b) ≤ hi)%Z.
Proof.
  unfold take_bytes. destruct (take_u64 bs) as [[[len|] bs1]| |] eqn:Eu; try done.
  apply take_u64_Some in Eu as [Hu ->]. cbn [mbind res_bind]. case_decide as Hlim; [|done].
  destruct (checked_aligned len) as [al|] eqn:Hal; [|done]. cbn [ok_or mbind res_bind].
  assert (0 ≤ len)%Z as H0 by (unfold is_u64 in Hu; lia).
  pose proof (aligned_padding _ _ H0 Hal) as Hp. pose proof (calc_padding_lt_8 len) as H8.
  destruct (checked_aligned_spec _ _ H0 Hal) as [Ha _].
  unfold put_nix_slice. destruct (decide (0 < al)%Z) as [Hpos|Hpos].
  - case_decide as Hl; [done|]. case_decide as Hz; [|done]. intros [= <- <-].
    assert (length (take (Z.to_nat al) bs1) = Z.to_nat al) as Hla by (rewrite length_take; lia).
    assert (Z.of_nat (length (take (Z.to_nat len) (take (Z.to_nat al) bs1))) = len) as Hlen
      by (rewrite length_take; lia).
    rewrite Hlen. split; [|done]. rewrite <-!app_assoc. f_equal.
    assert (replicate (calc_padding len) Byte.x00 = drop (Z.to_nat len) (take (Z.to_nat al) bs1)) as ->.
    { rewrite Hz, take_zeros by lia. f_equal. lia. }
    by rewrite (app_assoc (take _ _)), take_drop, take_drop.
  - intros [= <- <-]. assert (len = 0%Z) as -> by (eapply checked_aligned_0; [done|done|lia]). done.
Qed.

(** ** Properties *)

(** C28. Reading a byte string is a function of the stream alone: over any
    reader that keeps the laws, however much there is to read, polling until it
    is ready gives the value or the error of [take_bytes] on the bytes to come,
    and leaves the reader behind the string, whatever the schedule. All errors
    are included: a length that is cut off, out of range or not alignable,
    padding that is not zero, and a string that is cut off. A length inside the
    limit is to fit the buffer (for the buffered reader: a quarter of what the
    reserve leaves of its maximal size). *)
Theorem read_bytes_refines (R : Type) (HR : AsyncBytesRead R) (HB : AsyncBytesReadBase R) (r : R) (lo hi : Z) :
  rd_inv r → announced_fits lo hi r (rest r) →
  ∃ st a, poll_until bytes_poll_reader (patience r) (ReadLen lo hi u64_new, r) = (st, Ready a) ∧
    match a with
    | Ok o => take_bytes lo hi (rest r) = Ok (o, rest st.2)
    | Err e => take_bytes lo hi (rest r) = Err e
    | Panic => False
    end.
Proof.
  intros Hi Hfits. apply (poll_until_ind bytes_poll_reader (λ st, patience st.2)
    (λ st, rd_inv st.2 ∧ bytes_at lo hi st.1 st.2 (rest r) ∧ announced_fits lo hi st.2 (rest r))); [|split; [done|]|done].
  - intros [s r1] st' p (Hi1 & Hat & Hf) E. pose proof (bytes_poll_reader_fits s r1 st' p E) as Hk.
    apply (bytes_poll_reader_spec lo hi s r1 (rest r)) in E as [Hi2 Hp]; [|done|done|done].
    destruct p as [[]|]; [apply Hp|done|done|]. destruct Hp. split; [|done]. split_and!; [done|done|].
    by apply (announced_keeps lo hi r1).
  - split; [|done]. split; [done|]. split; [done|]. exists []. split; [apply u64_new_at|done].
Qed.

(** Two strings behind each other, the first read with a pending poll inside
    the length and one inside the padding. *)
Definition sample_source : source :=
  let bs := put_nix_slice (str "harmonia daemon") ++ put_nix_slice (str "x") in
  [Some (take 3 bs); None; Some (take 20 (drop 3 bs)); None; Some (drop 23 bs)].

(** The first string, cut off inside its contents. *)
Definition cut_source : source :=
  let bs := take 18 (put_nix_slice (str "harmonia daemon")) in [Some (take 3 bs); None; Some (drop 3 bs)].

Definition sample_reader (src : source) : BytesReader source := reader_build 8 1000 (λ _, []) src.

Lemma sample_reader_inv (src : source) : src_ok src →
  @rd_inv _ _ BytesReader_base (sample_reader src) ∧ ∀ bs, announced_fits (HB := BytesReader_base) 0 100 (sample_reader src) bs.
Proof.
  intros Hs. split.
  - apply (reader_build_base 8 1000 (λ _, []) src); [exact Hs|lia|lia|]. intros l. apply list_subseteq_nil.
  - intros bs len aligned tl Hu Hlen Hal. apply take_u64_Some in Hu as [Hu _].
    apply aligned_padding in Hal; [|lia]. pose proof (calc_padding_lt_8 len).
    unfold rd_fits, BytesReader_base, br_fits. cbn. lia.
Qed.

Lemma read_bytes_refines_witness :
  let r := sample_reader sample_source in
  let c := sample_reader cut_source in
  (∃ st a, poll_until bytes_poll_reader (br_patience r) (ReadLen 0 100 u64_new, r) = (st, Ready a) ∧
    a = Ok (Some (str "harmonia daemon")) ∧ br_rest st.2 = put_nix_slice (str "x")) ∧
  (∃ st, poll_until bytes_poll_reader (br_patience c) (ReadLen 0 100 u64_new, c) =
    (st, Ready (Err (UnexpectedEof "EOF while force reading")))).
Proof.
  intros r c.
  destruct (sample_reader_inv sample_source) as [Hr Hrf]; [unfold src_ok, sample_source; repeat constructor; discriminate|].
  destruct (sample_reader_inv cut_source) as [Hc Hcf]; [unfold src_ok, cut_source; repeat constructor; discriminate|].
  assert (take_bytes 0 100 (br_rest r) = Ok (Some (str "harmonia daemon"), put_nix_slice (str "x"))) as Hrt
    by (vm_compute; reflexivity).
  assert (take_bytes 0 100 (br_rest c) = Err (UnexpectedEof "EOF while force reading")) as Hct
    by (vm_compute; reflexivity).
  split.
  - destruct (read_bytes_refines (BytesReader source) _ BytesReader_base r 0 100 Hr (Hrf _)) as (st & a & E & Ha).
    exists st, a. split; [exact E|].
    change (match a with Ok o => take_bytes 0 100 (br_rest r) = Ok (o, br_rest st.2)
      | Err e => take_bytes 0 100 (br_rest r) = Err e | Panic => False end) in Ha. rewrite Hrt in Ha.
    destruct a as [o|e|]; [|discriminate|contradiction]. injection Ha as <- <-. split; reflexivity.
  - destruct (read_bytes_refines (BytesReader source) _ BytesReader_base c 0 100 Hc (Hcf _)) as (st & a & E & Ha).
    change (match a with Ok o => take_bytes 0 100 (br_rest c) = Ok (o, br_rest st.2)
      | Err e => take_bytes 0 100 (br_rest c) = Err e | Panic => False end) in Ha. rewrite Hct in Ha.
    exists st. destruct a as [o|e|]; [discriminate| |contradiction]. injection Ha as <-. exact E.
Defined.

(** The encoding of byte strings is canonical, and reading is its
    inverse: the stream yields [b] and continues with [tl] exactly when it is
    the length of [b], its bytes and zero padding to a multiple of eight,
    followed by [tl], and the length is inside the limit; lengths whose
    alignment overflows and non-zero padding are refused. *)
Theorem take_bytes_canonical (lo hi : Z) (bs b tl : bytes) :
  take_bytes lo hi bs = Ok (Some b, tl) ↔
  bs = put_nix_slice b ++ tl ∧ alignable (Z.of_nat (length b)) ∧ (lo ≤ Z.of_nat (length b) ≤ hi)%Z.
Proof.
  split; [apply take_bytes_Some|]. intros (-> & Ha & Hlim). by apply take_bytes_encoded.
Qed.

(** ** The limit on the buffer *)

(** Reading strings one after the other, with the limit
    [NixReader::try_read_bytes] uses: the maximal size of the buffer. *)
Fixpoint read_strings (n : nat) (r : BytesReader source) : res io_error (list bytes) :=
  match n with
  | O => Ok []
  | S n =>
      match poll_until bytes_poll_reader (patience r)
              (ReadLen 0 (Z.of_nat (max_buf_size r)) u64_new, r) with
      | ((_, r), Ready (Ok (Some b))) => (λ bs, b :: bs) <$> read_strings n r
      | (_, Ready (Ok None)) => Ok []
      | (_, Ready (Err e)) => Err e
      | _ => Panic
      end
  end.

(** Whether a string inside the limit can be read depends on what was
    read before it: with a buffer of at most 64 bytes, a string of 50 bytes is
    read when it is the first one, but after a string of 40 bytes the reader
    refuses it, because [prepare] bounds the capacity of the window and not
    that of the vector, which doubles past the limit. *)
Theorem prepare_exceeds_limit :
  let x := replicate 40 Byte.x41 in
  let y := replicate 50 Byte.x42 in
  let reader bs := reader_build 4 64 (λ _, []) [Some bs] in
  read_strings 1 (reader (put_nix_slice y)) = Ok [y] ∧
  read_strings 1 (reader (put_nix_slice x ++ put_nix_slice y)) = Ok [x] ∧
  read_strings 2 (reader (put_nix_slice x ++ put_nix_slice y)) =
    Err (InvalidData "buffer is too large").
Proof. vm_compute. auto. Qed.

(** A string that is cut off close to the limit is refused in the same way
    before the end of the stream is seen: a length that does not fit the buffer
    need not lead to the end. *)
Lemma cut_near_limit :
  let bs n := take (n + 7) (put_nix_slice (replicate n Byte.x41)) in
  let reader bs := reader_build 8 64 (λ _, []) [Some bs] in
  read_strings 1 (reader (bs 40)) = Err (UnexpectedEof "EOF while force reading") ∧
  read_strings 1 (reader (bs 60)) = Err (InvalidData "buffer is too large").
Proof. vm_compute. auto. Qed.
