(* ===== verification/Framed.v ===== *)
(** Frames of the daemon protocol
    ([harmonia-protocol/src/daemon_wire/framed]): a byte stream of unknown
    length as a sequence of length-prefixed frames, ended by an empty one. *)

From stdpp Require Import base list numbers strings gmap.
From Stdlib Require Import ZArith Lia Strings.Byte.
From S2P Require Import Prelude Async Wire Sink BufferMut BytesReader ProtoRead.

Arguments u64_to_le_bytes : simpl never.

(** ** Frames *)

Definition frame (f : bytes) : bytes := u64_to_le_bytes (Z.of_nat (length f)) ++ f.

Definition frames (fs : list bytes) : bytes := concat (frame <$> fs) ++ u64_to_le_bytes 0.

Definition frames_ok (fs : list bytes) : Prop :=
  Forall (λ f, f ≠ [] ∧ is_u64 (Z.of_nat (length f))) fs.

Lemma frames_ok_total fs :
  Forall (λ f, f ≠ []) fs → is_u64 (Z.of_nat (length (concat fs))) → frames_ok fs.
Proof.
  induction 1 as [|f fs Hf _ IH]; intros Hu; [constructor|]. cbn [concat] in Hu. rewrite length_app in Hu.
  constructor; [split; [done|]|apply IH]; unfold is_u64 in *; lia.
Qed.

(** ** The reader *)

Inductive FramedReadState : Type :=
| FReadLen (u : TryReadU64)
| FReadData (remaining : Z)
| FEof.

Section reader.
Context {R : Type} `{!AsyncBytesRead R}.

Definition framed_new (r : R) : FramedReadState * R := (FReadLen u64_new, r).

Definition framed_data (remaining : Z) (r : R) : (FramedReadState * R) * polled bytes :=
  match poll_fill_buf r with
  | (r, Ready (Ok [])) => ((FReadData remaining, r), Ready (Err (UnexpectedEof "EOF in framed reader")))
  | (r, Ready (Ok buf)) =>
      ((FReadData remaining, r),
       Ready (Ok (take (min (length buf) (Z.to_nat remaining)) buf)))
  | (r, Ready (Err e)) => ((FReadData remaining, r), Ready (Err e))
  | (r, Ready Panic) => ((FReadData remaining, r), Ready Panic)
  | (r, Pending) => ((FReadData remaining, r), Pending)
  end.

(** [poll_fill_buf]; the loop goes around at most once. *)
Definition framed_fill_buf (x : FramedReadState * R) : (FramedReadState * R) * polled bytes :=
  let '(s, r) := x in
  match s with
  | FReadLen u =>
      match u64_poll_reader (u, r) with
      | ((u, r), Pending) => ((FReadLen u, r), Pending)
      | ((u, r), Ready (Err e)) => ((FReadLen u, r), Ready (Err e))
      | ((u, r), Ready Panic) => ((FReadLen u, r), Ready Panic)
      | ((u, r), Ready (Ok None)) =>
          ((FReadLen u, r), Ready (Err (UnexpectedEof "EOF in framed reader")))
      | ((u, r), Ready (Ok (Some len))) =>
          if decide (0 < len)%Z then framed_data len r else ((FEof, r), Ready (Ok []))
      end
  | FReadData remaining => framed_data remaining r
  | FEof => (x, Ready (Ok []))
  end.

Definition framed_consume (x : FramedReadState * R) (amt : nat) : res io_error (FramedReadState * R) :=
  let '(s, r) := x in
  match s with
  | FReadData remaining =>
      if decide (remaining < Z.of_nat amt)%Z then Panic else
      r ← consume r amt;
      mret (if decide (remaining = Z.of_nat amt) then FReadLen u64_new
            else FReadData (remaining - Z.of_nat amt), r)
  | _ => Panic
  end.

Definition framed_poll_read (x : FramedReadState * R) (room : nat)
    : (FramedReadState * R) * polled bytes :=
  match framed_fill_buf x with
  | (x, Ready (Ok [])) => (x, Ready (Ok []))
  | (x, Ready (Ok rem)) =>
      let amt := min (length rem) room in
      match framed_consume x amt with
      | Ok x => (x, Ready (Ok (take amt rem)))
      | Err e => (x, Ready (Err e))
      | Panic => (x, Ready Panic)
      end
  | y => y
  end.

(** [drain_all]: [consume] everything until the end; the count. *)
Fixpoint framed_drain (fuel : nat) (x : FramedReadState * R) (drained : nat)
    : (FramedReadState * R) * res io_error nat :=
  match fuel with
  | O => (x, Panic)
  | S fuel =>
      match framed_fill_buf x with
      | (x, Pending) => framed_drain fuel x drained
      | (x, Ready (Ok [])) => (x, Ok drained)
      | (x, Ready (Ok b)) =>
          match framed_consume x (length b) with
          | Ok x => framed_drain fuel x (drained + length b)
          | Err e => (x, Err e)
          | Panic => (x, Panic)
          end
      | (x, Ready (Err e)) => (x, Err e)
      | (x, Ready Panic) => (x, Panic)
      end
  end.

(** [read_to_end] with rooms of [S r] bytes. *)
Fixpoint framed_read_to_end (fuel : nat) (rooms : list nat) (x : FramedReadState * R) (acc : bytes)
    : (FramedReadState * R) * res io_error bytes :=
  match fuel with
  | O => (x, Panic)
  | S fuel =>
      match framed_poll_read x (S (hd 31 rooms)) with
      | (x, Pending) => framed_read_to_end fuel rooms x acc
      | (x, Ready (Ok [])) => (x, Ok acc)
      | (x, Ready (Ok b)) => framed_read_to_end fuel (tl rooms) x (acc ++ b)
      | (x, Ready (Err e)) => (x, Err e)
      | (x, Ready Panic) => (x, Panic)
      end
  end.

(** ** Reading frames *)

Context {HB : AsyncBytesReadBase R}.

(** The contents to come are [c], and [tl] follows the last frame. *)
Definition framed_at (x : FramedReadState * R) (c tl : bytes) : Prop :=
  rd_inv x.2 ∧ ∃ fs, frames_ok fs ∧
  match x.1 with
  | FReadLen u => c = concat fs ∧ ∃ a, u64_at u a ∧ frames fs ++ tl = a ++ rest x.2
  | FReadData remaining => ∃ d, d ≠ [] ∧ remaining = Z.of_nat (length d) ∧ c = d ++ concat fs ∧
      rest x.2 = d ++ frames fs ++ tl
  | FEof => c = [] ∧ rest x.2 = tl
  end.

Definition framed_fill_post (x : FramedReadState * R) (c tl : bytes) (x' : FramedReadState * R)
    (p : polled bytes) : Prop :=
  framed_at x' c tl ∧
  match p with
  | Pending => patience x'.2 < patience x.2
  | Ready (Ok b) => b `prefix_of` c ∧ (b = [] → c = [] ∧ x'.1 = FEof) ∧ patience x'.2 ≤ patience x.2 ∧
      (b ≠ [] → ∃ rem, x'.1 = FReadData rem ∧ (Z.of_nat (length b) ≤ rem)%Z ∧
        length b ≤ length (held x'.2))
  | _ => False
  end.

Lemma framed_data_spec r0 r fs d tl x' p :
  rd_inv r → frames_ok fs → d ≠ [] → rest r = d ++ frames fs ++ tl → patience r ≤ patience (r0 : FramedReadState * R).2 →
  framed_data (Z.of_nat (length d)) r = (x', p) → framed_fill_post r0 (d ++ concat fs) tl x' p.
Proof.
  intros Hi Hfs Hd Hr Hpat E. unfold framed_data in E.
  destruct (poll_fill_buf r) as [r1 q] eqn:E1.
  destruct (poll_fill_buf_law _ _ _ Hi E1) as (Hi1 & Hr1 & Hq).
  assert (framed_at (FReadData (Z.of_nat (length d)), r1) (d ++ concat fs) tl) as Hat.
  { split; [done|]. exists fs. split; [done|]. exists d. cbn. rewrite Hr1, Hr. auto. }
  destruct q as [[buf|e|]|]; try done.
  2: { injection E as <- <-. destruct Hq. split; [done|]. cbn. lia. }
  destruct Hq as (-> & Hnil & _ & Hp). destruct (held r1) as [|y b] eqn:Eh.
  { specialize (Hnil eq_refl). rewrite Hr in Hnil. apply app_eq_nil in Hnil as [-> _]. done. }
  rewrite <-Eh in E. assert (0 < length (held r1)) as Hl by (rewrite Eh; cbn; lia).
  destruct (held r1) as [|y' b'] eqn:Eh'; [done|]. rewrite <-Eh' in *. clear Eh Eh'.
  injection E as <- <-. split; [done|]. rewrite Nat2Z.id.
  assert (0 < length d) by (destruct d; [done|cbn; lia]).
  assert (take (min (length (held r1)) (length d)) (held r1) =
          take (min (length (held r1)) (length d)) d) as ->.
  { rewrite (held_take r1 Hi1) at 2. rewrite Hr1, Hr, take_take, take_app_le by lia.
    f_equal. lia. }
  split; [|split; [|split; [cbn; lia|]]].
  - etrans; [apply prefix_take|]. by exists (concat fs).
  - intros Hn%(f_equal length). rewrite length_take in Hn. cbn in Hn. lia.
  - intros _. eexists. split; [done|]. rewrite length_take. cbn. lia.
Qed.

Lemma framed_fill_spec x c tl x' p :
  framed_at x c tl → framed_fill_buf x = (x', p) → framed_fill_post x c tl x' p.
Proof.
  destruct x as [s r]. intros (Hi & fs & Hfs & Hat) E. cbn [fst snd] in *.
  unfold framed_fill_buf in E. destruct s as [u|rem|].
  - destruct Hat as (-> & a & Hu & Hbs). destruct (u64_poll_reader (u, r)) as [[u1 r1] q] eqn:E1.
    eapply (u64_poll_reader_spec u r a (frames fs ++ tl)) in E1 as [Hi1 Hq]; try done.
    cbn [fst snd] in *.
    assert (∃ len bs, is_u64 len ∧ frames fs ++ tl = u64_to_le_bytes len ++ bs ∧
      match fs with
      | [] => len = 0%Z ∧ bs = tl
      | f :: fs => len = Z.of_nat (length f) ∧ bs = f ++ frames fs ++ tl
      end) as (len & bs & Hu64 & Hf & Hcase).
    { destruct fs as [|f fs].
      - exists 0%Z, tl. split; [unfold is_u64, u64_modulus; lia|done].
      - apply Forall_cons in Hfs as [[_ ?] _]. exists (Z.of_nat (length f)), (f ++ frames fs ++ tl).
        split; [done|]. split; [|done]. unfold frames, frame. rewrite fmap_cons, concat_cons.
        by rewrite <-!app_assoc. }
    pose proof (take_u64_encoded len bs Hu64) as Ht. rewrite <-Hf in Ht.
    destruct q as [[[l|]|e|]|]; try done.
    + destruct Hq as [Hq Hp1]. rewrite Ht in Hq. injection Hq as <- ->.
      destruct fs as [|f fs].
      * destruct Hcase as [-> Hr1]. rewrite decide_False in E by lia. injection E as <- <-.
        split; [|done]. split; [done|]. exists []. split; [done|]. by split.
      * destruct Hcase as [-> Hr1]. apply Forall_cons in Hfs as [[Hne _] Hfs].
        rewrite decide_True in E by (destruct f; [done|cbn; lia]).
        cbn [concat]. by eapply (framed_data_spec (FReadLen u, r) r1).
    + destruct Hq as [Hq _]. by rewrite Ht in Hq.
    + by rewrite Ht in Hq.
    + injection E as <- <-. destruct Hq as (a' & Hu' & Hbs' & Hp). split; [|done].
      split; [done|]. exists fs. split; [done|]. split; [done|]. eauto.
  - destruct Hat as (d & Hd & -> & -> & Hr). by eapply (framed_data_spec (_, r) r).
  - injection E as <- <-. destruct Hat as [-> Hr]. split; [|done]. split; [done|].
    exists fs. by split.
Qed.

Lemma framed_consume_spec x c tl n b :
  framed_at x c tl → 0 < n ≤ length b → b `prefix_of` c →
  (∃ rem, x.1 = FReadData rem ∧ (Z.of_nat (length b) ≤ rem)%Z ∧ length b ≤ length (held x.2)) →
  ∃ x', framed_consume x n = Ok x' ∧ framed_at x' (drop n c) tl ∧ patience x'.2 = patience x.2.
Proof.
  destruct x as [s r]. intros (Hi & fs & Hfs & Hat) Hn _ (rem & Hs & Hrem & Hh). cbn in Hs, Hh, Hat.
  subst s. destruct Hat as (d & Hd & -> & -> & Hr). cbn. rewrite decide_False by lia.
  destruct (consume_law r n) as (r' & -> & Hi' & Hr' & _ & Hp'); [done|lia|]. cbn.
  eexists; split; [done|]. split; [|done]. cbn in Hr. rewrite Hr, drop_app_le in Hr' by lia.
  split; [done|]. exists fs. split; [done|]. cbn [fst snd]. case_decide as Hall.
  - rewrite drop_ge in Hr' by lia. cbn in Hr'. split; [rewrite drop_app_ge by lia|].
    + replace (n - length d) with 0 by lia. done.
    + exists []. split; [apply u64_new_at|]. by rewrite Hr'.
  - exists (drop n d). split; [|split; [rewrite length_drop; lia|]].
    + intros Hz%(f_equal length). rewrite length_drop in Hz. cbn in Hz. lia.
    + split; [by rewrite drop_app_le by lia|done].
Qed.

Lemma framed_poll_read_spec x c tl room x' q :
  framed_at x c tl → 0 < room → framed_poll_read x room = (x', q) →
  match q with
  | Pending => framed_at x' c tl ∧ patience x'.2 < patience x.2
  | Ready (Ok b) => ∃ c', c = b ++ c' ∧ framed_at x' c' tl ∧ (b = [] → c = [] ∧ x'.1 = FEof) ∧
      patience x'.2 ≤ patience x.2 ∧ length b ≤ room
  | _ => False
  end.
Proof.
  intros Hat Hroom E. unfold framed_poll_read in E.
  destruct (framed_fill_buf x) as [x1 q1] eqn:E1.
  apply (framed_fill_spec x c tl) in E1 as [Hat1 Hq1]; [|done].
  destruct q1 as [[b|e|]|]; try done; [|by injection E as <- <-].
  destruct Hq1 as (Hpre & Hnil & Hp1 & Hav). destruct b as [|y b].
  { injection E as <- <-. exists c. cbn. auto with lia. }
  set (n := min (length (y :: b)) room) in *. assert (0 < length (y :: b)) by (cbn; lia).
  destruct (framed_consume_spec x1 c tl n (y :: b)) as (x2 & Ec & Hat2 & Hp2);
    [done|lia|done|by apply Hav|].
  rewrite Ec in E. injection E as <- <-. exists (drop n c). destruct Hpre as [k ->].
  split; [rewrite drop_app_le, app_assoc, take_drop by lia; done|]. split; [done|].
  split; [destruct room; [lia|done]|]. rewrite length_take. lia.
Qed.

(** What is to come is not longer than the stream, up to a length that has been
    read in part. *)
Lemma framed_at_length x c tl : framed_at x c tl → length c ≤ 8 + length (rest x.2).
Proof.
  assert (∀ fs, length (concat fs) ≤ length (frames fs)) as Hfs.
  { intros fs. unfold frames. rewrite length_app. induction fs as [|f fs IH]; [cbn; lia|].
    unfold frame in *. cbn. rewrite !length_app. lia. }
  destruct x as [s r]. intros (_ & fs & _ & Hat). cbn [fst snd] in *. specialize (Hfs fs).
  destruct s as [u|rem|].
  - destruct Hat as (-> & a & (_ & _ & Ha & _) & Hbs). apply (f_equal length) in Hbs.
    rewrite !length_app in Hbs. lia.
  - destruct Hat as (d & _ & _ & -> & ->). rewrite !length_app. lia.
  - destruct Hat as [-> _]. cbn. lia.
Qed.

Lemma framed_drain_spec fuel x c tl k :
  framed_at x c tl → length c + patience x.2 < fuel →
  ∃ x', framed_drain fuel x k = (x', Ok (k + length c)) ∧ rd_inv x'.2 ∧ rest x'.2 = tl.
Proof.
  revert x c k; induction fuel as [|fuel IH]; intros x c k Hat Hf; [lia|].
  cbn [framed_drain]. destruct (framed_fill_buf x) as [x1 q] eqn:E.
  apply (framed_fill_spec x c tl) in E as [Hat1 Hq]; [|done]. destruct q as [[b|e|]|]; try done.
  - destruct Hq as (Hpre & Hnil & Hp & Hav). destruct b as [|y b].
    { destruct (Hnil eq_refl) as [-> He]. exists x1. cbn. rewrite Nat.add_0_r. split; [done|].
      destruct x1 as [s r], Hat1 as (Hi & fs & _ & Hfs). cbn in *. subst s. by destruct Hfs. }
    destruct (framed_consume_spec x1 c tl (length (y :: b)) (y :: b)) as (x2 & -> & Hat2 & Hp2);
      [done|cbn; lia|done|by apply Hav|].
    destruct Hpre as [c' ->]. rewrite drop_app_length in Hat2. rewrite length_app in Hf.
    assert (0 < length (y :: b)) by (cbn; lia).
    destruct (IH x2 c' (k + length (y :: b))) as (x' & -> & ?); [done|lia|].
    exists x'. rewrite length_app, Nat.add_assoc. done.
  - apply IH; [done|lia].
Qed.

Lemma framed_read_to_end_spec fuel rooms x c tl acc :
  framed_at x c tl → length c + patience x.2 < fuel →
  ∃ x', framed_read_to_end fuel rooms x acc = (x', Ok (acc ++ c)) ∧ framed_at x' [] tl ∧ x'.1 = FEof.
Proof.
  revert rooms x c acc; induction fuel as [|fuel IH]; intros rooms x c acc Hat Hf; [lia|].
  cbn [framed_read_to_end]. destruct (framed_poll_read x _) as [x1 q] eqn:E.
  apply (framed_poll_read_spec x c tl) in E; [|done|lia]. destruct q as [[b|e|]|]; try done.
  - destruct E as (c' & -> & Hat1 & Hnil & Hp). destruct b as [|y b].
    { destruct (Hnil eq_refl) as [Hc He]. cbn in Hc. subst c'. exists x1. by rewrite app_nil_r. }
    rewrite length_app in Hf. cbn in Hf.
    destruct (IH (list.tail rooms) x1 c' (acc ++ y :: b)) as (x' & -> & ?); [done|lia|].
    rewrite <-app_assoc. eauto.
  - destruct E as [Hat1 Hp]. apply IH; [done|lia].
Qed.

Lemma framed_new_at r fs tl :
  rd_inv r → frames_ok fs → rest r = frames fs ++ tl → framed_at (framed_new r) (concat fs) tl.
Proof.
  intros Hi Hfs Hr. split; [done|]. exists fs. split; [done|]. split; [done|].
  exists []. split; [apply u64_new_at|]. cbn. by rewrite Hr.
Qed.
End reader.

(** ** The writer *)

(** [fw_cap] is the capacity of the [BytesMut]; [advance] takes from it. *)
Record FramedWriter (W : Type) : Type := mk_fw {
  fw_buf : bytes;
  fw_cap : nat;
  fw_flushing : bool;
  fw_shutdown : bool;
  fw_out : W
}.
Arguments mk_fw {W}.
Arguments fw_buf {W}.
Arguments fw_cap {W}.
Arguments fw_flushing {W}.
Arguments fw_shutdown {W}.
Arguments fw_out {W}.

Definition DEFAULT_BUF_SIZE : nat := Z.to_nat 32768.
Definition RESERVED_BUF_SIZE : nat := Z.to_nat 16384.

(** [BytesMut::reserve] of the package [bytes], by what it promises: after
    [reserve additional] there is room for [additional] more bytes. It gets
    the length and the capacity, and gives the new capacity. *)
Class BytesMutReserve : Type := bytes_reserve : nat → nat → nat → nat.
Class BytesMutLaws `{!BytesMutReserve} : Prop :=
  bytes_reserve_room len cap additional : len + additional ≤ bytes_reserve len cap additional.

Section writer.
Context `{!BytesMutReserve} {W : Type} {AW : AsyncWrite W} {AF : AsyncFlush W} {AWL : AsyncWriteLaws W}.
Implicit Types x : FramedWriter W.

Definition fw_new (w : W) : FramedWriter W := mk_fw (u64_to_le_bytes 0) DEFAULT_BUF_SIZE false false w.

Definition fw_remaining x : nat := fw_cap x - length (fw_buf x).

(** The length is written over the first eight bytes. *)
Definition fw_start_flush x : FramedWriter W :=
  if negb (fw_flushing x) && bool_decide (8 < length (fw_buf x)) then
    mk_fw (u64_to_le_bytes (Z.of_nat (length (fw_buf x) - 8)) ++ drop 8 (fw_buf x))
      (fw_cap x) true (fw_shutdown x) (fw_out x)
  else x.

Definition fw_write_out x : FramedWriter W * polled unit :=
  let '(buf, w, p) :=
    flush_loop "failed to write the buffer" (length (fw_buf x)) (fw_buf x) (fw_out x) in
  (mk_fw buf (fw_cap x - (length (fw_buf x) - length buf)) (fw_flushing x) (fw_shutdown x) w, p).

Definition fw_flush_buf x : FramedWriter W * polled unit :=
  let x := fw_start_flush x in
  if fw_flushing x then
    match fw_write_out x with
    | (x, Ready (Ok _)) =>
        (mk_fw (u64_to_le_bytes 0) (bytes_reserve (length (fw_buf x)) (fw_cap x) RESERVED_BUF_SIZE)
           false (fw_shutdown x) (fw_out x), Ready (Ok tt))
    | y => y
    end
  else
    (mk_fw (fw_buf x) (bytes_reserve (length (fw_buf x)) (fw_cap x) RESERVED_BUF_SIZE)
       false (fw_shutdown x) (fw_out x), Ready (Ok tt)).

Definition fw_poll_write x (data : bytes) : FramedWriter W * polled nat :=
  let put x :=
    let n := min (length data) (fw_remaining x) in
    (mk_fw (fw_buf x ++ take n data) (fw_cap x) (fw_flushing x) (fw_shutdown x) (fw_out x),
     Ready (Ok n)) in
  if bool_decide (fw_remaining x = 0) || fw_flushing x then
    match fw_flush_buf x with
    | (x, Ready (Ok _)) => put x
    | (x, Ready (Err e)) => (x, Ready (Err e))
    | (x, Ready Panic) => (x, Ready Panic)
    | (x, Pending) => (x, Pending)
    end
  else put x.

(** [poll_flush] of the writer below. *)
Definition fw_flush_out x : FramedWriter W * polled unit :=
  let '(w, p) := aw_poll_flush (fw_out x) in
  (mk_fw (fw_buf x) (fw_cap x) (fw_flushing x) (fw_shutdown x) w, p).

Definition fw_poll_flush x : FramedWriter W * polled unit :=
  match fw_flush_buf x with
  | (x, Ready (Ok _)) => fw_flush_out x
  | y => y
  end.

Definition fw_poll_shutdown x : FramedWriter W * polled unit :=
  match fw_flush_buf x with
  | (x, Ready (Ok _)) =>
      match (if fw_shutdown x then (x, Ready (Ok tt)) else fw_write_out x) with
      | (x, Ready (Ok _)) =>
          fw_flush_out (mk_fw (fw_buf x) (fw_cap x) (fw_flushing x) true (fw_out x))
      | y => y
      end
  | y => y
  end.

(** [write_all], [flush] and [shutdown], each polled until it is ready. *)
Fixpoint fw_write_all (fuel : nat) x (data : bytes) : res io_error (FramedWriter W) :=
  match data, fuel with
  | [], _ => Ok x
  | _, O => Panic
  | _, S fuel =>
      match fw_poll_write x data with
      | (x, Ready (Ok n)) => fw_write_all fuel x (drop n data)
      | (x, Ready (Err e)) => Err e
      | (x, Ready Panic) => Panic
      | (x, Pending) => fw_write_all fuel x data
      end
  end.

Definition fw_until (f : FramedWriter W → FramedWriter W * polled unit) x : res io_error (FramedWriter W) :=
  match poll_until f (wr_patience (fw_out x)) x with
  | (x, Ready (Ok _)) => Ok x
  | (_, Ready (Err e)) => Err e
  | _ => Panic
  end.

(** A user of the writer: some writes, each of which may be followed by a
    flush, then [shutdown]. *)
Fixpoint fw_writes x (ds : list (bytes * bool)) : res io_error (FramedWriter W) :=
  match ds with
  | [] => Ok x
  | (d, fl) :: ds =>
      x ← fw_write_all (length d + wr_patience (fw_out x)) x d;
      x ← (if (fl : bool) then fw_until fw_poll_flush x else mret x);
      fw_writes x ds
  end.

Definition fw_send (w : W) (ds : list (bytes * bool)) : res io_error W :=
  x ← fw_writes (fw_new w) ds;
  x ← fw_until fw_poll_shutdown x;
  mret (fw_out x).

(** ** What the writer has accepted *)

(** The frames begin after [d0] bytes. *)
Context (d0 : bytes).

Abbreviation nonempty_all := (Forall (λ f : bytes, f ≠ [])).

(** The data [d] is in the frames [fs] already written or being written, and
    in the frame being filled. *)
Definition fw_at x (d : bytes) : Prop :=
  wr_inv (fw_out x) ∧ fw_shutdown x = false ∧
  ∃ fs, nonempty_all fs ∧
  if fw_flushing x then
    wr_written (fw_out x) ++ fw_buf x = d0 ++ concat (frame <$> fs) ∧ d = concat fs
  else
    ∃ f, length (fw_buf x) = 8 + length f ∧ wr_written (fw_out x) = d0 ++ concat (frame <$> fs) ∧
      fw_buf x = u64_to_le_bytes 0 ++ f ∧ d = concat fs ++ f.

Lemma fw_start_flush_at x d :
  fw_at x d → fw_at (fw_start_flush x) d ∧
  fw_out (fw_start_flush x) = fw_out x ∧
  (fw_flushing (fw_start_flush x) = false → fw_buf x = u64_to_le_bytes 0).
Proof.
  intros (Hs & Hsh & fs & Hfs & Hat). unfold fw_start_flush.
  destruct (fw_flushing x) eqn:Ef; cbn.
  { split; [|split; [done|congruence]]. split; [done|]. split; [done|]. exists fs. by rewrite Ef. }
  destruct Hat as (f & Hlen & Hw & Hb & ->). case_bool_decide as Hl; cbn.
  - split; [|done]. split; [done|]. split; [done|]. exists (fs ++ [f]). cbn. split; [|split].
    + apply Forall_app. split; [done|]. constructor; [|constructor].
      intros ->. cbn in *. lia.
    + rewrite Hw, Hb, fmap_app, concat_app. cbn. rewrite app_nil_r. unfold frame.
      rewrite length_app, (length_u64_to_le_bytes 0).
      rewrite drop_app_length' by (symmetry; apply length_u64_to_le_bytes).
      replace (8 + length f - 8) with (length f) by lia. by rewrite <-app_assoc.
    + rewrite concat_app. cbn. by rewrite app_nil_r.
  - assert (f = []) as -> by (destruct f; [done|cbn in *; lia]). rewrite app_nil_r in Hb.
    split; [|done]. split; [done|]. split; [done|]. exists fs. rewrite Ef. split; [done|].
    exists []. rewrite app_nil_r. auto.
Qed.

Context `{!BytesMutLaws}.

Lemma fw_write_out_spec x x' p :
  wr_inv (fw_out x) → fw_write_out x = (x', p) →
  wr_inv (fw_out x') ∧ fw_flushing x' = fw_flushing x ∧ fw_shutdown x' = fw_shutdown x ∧
  wr_written (fw_out x') ++ fw_buf x' = wr_written (fw_out x) ++ fw_buf x ∧
  length (fw_buf x') ≤ length (fw_buf x) ∧
  wr_patience (fw_out x') ≤ wr_patience (fw_out x) ∧
  match p with
  | Pending => wr_patience (fw_out x') < wr_patience (fw_out x)
  | Ready (Ok _) => fw_buf x' = []
  | _ => False
  end.
Proof.
  intros Hs E. unfold fw_write_out in E.
  destruct (flush_loop _ _ _ _) as [[buf w] q] eqn:El.
  apply flush_loop_law in El as (? & (k & Hk & Heq) & ? & Hq); [|done|done]. injection E as <- <-. cbn.
  rewrite <-Heq, length_app, Hk, <-app_assoc. repeat split; try done. lia.
Qed.

Lemma fw_flush_buf_spec x d x' p :
  fw_at x d → fw_flush_buf x = (x', p) →
  fw_at x' d ∧ wr_patience (fw_out x') ≤ wr_patience (fw_out x) ∧
  match p with
  | Pending => wr_patience (fw_out x') < wr_patience (fw_out x)
  | Ready (Ok _) => fw_flushing x' = false ∧ fw_buf x' = u64_to_le_bytes 0 ∧ 0 < fw_remaining x'
  | _ => False
  end.
Proof.
  intros Hat E. destruct (fw_start_flush_at x d Hat) as (Hat1 & Ho & Hb). unfold fw_flush_buf in E.
  rewrite <-Ho. set (x1 := fw_start_flush x) in *. clear Hat Ho.
  destruct Hat1 as (Hs & Hsh & fs & Hfs & Hat1). destruct (fw_flushing x1) eqn:Ef.
  - destruct (fw_write_out x1) as [x2 q] eqn:E2.
    apply fw_write_out_spec in E2 as (Hs2 & Hf2 & Hsh2 & Heq & _ & Hle & Hq); [|done].
    rewrite Ef in Hf2. rewrite Hsh in Hsh2. destruct Hat1 as [Hw ->]. destruct q as [[]|]; try done.
    + injection E as <- <-. rewrite Hq, app_nil_r, Hw in Heq. split; [|split; [done|]].
      * split; [done|]. split; [done|]. exists fs. split; [done|]. cbn. exists [].
        by rewrite !app_nil_r.
      * split; [done|]. split; [done|]. unfold fw_remaining. cbn [fw_cap fw_buf].
        pose proof (bytes_reserve_room (length (fw_buf x2)) (fw_cap x2) RESERVED_BUF_SIZE).
        rewrite length_u64_to_le_bytes. unfold RESERVED_BUF_SIZE in *. lia.
    + injection E as <- <-. split; [|done]. split; [done|]. split; [done|]. exists fs. rewrite Hf2.
      split; [done|]. split; [congruence|done].
  - injection E as <- <-. specialize (Hb eq_refl).
    assert (x1 = x) as Hx by (unfold x1, fw_start_flush in *; by destruct (negb _ && _)).
    destruct Hat1 as (f & Hlen & Hw & Hbuf & ->). cbn [fw_out fw_flushing fw_buf].
    rewrite Hx in *. assert (f = []) as ->.
    { rewrite Hb in Hlen. rewrite length_u64_to_le_bytes in Hlen. destruct f; [done|cbn in *; lia]. }
    split; [|split; [done|]].
    + split; [done|]. split; [done|]. exists fs. split; [done|]. cbn. exists [].
      by rewrite Hb, !app_nil_r.
    + split; [done|]. split; [done|]. unfold fw_remaining. cbn [fw_cap fw_buf].
      pose proof (bytes_reserve_room (length (fw_buf x)) (fw_cap x) RESERVED_BUF_SIZE).
      unfold RESERVED_BUF_SIZE in *. lia.
Qed.

Lemma fw_poll_write_spec x d data x' p :
  fw_at x d → data ≠ [] → fw_poll_write x data = (x', p) →
  wr_patience (fw_out x') ≤ wr_patience (fw_out x) ∧
  match p with
  | Pending => fw_at x' d ∧ wr_patience (fw_out x') < wr_patience (fw_out x)
  | Ready (Ok n) => 0 < n ≤ length data ∧ fw_at x' (d ++ take n data)
  | _ => False
  end.
Proof.
  intros Hat Hdata E. assert (0 < length data) as Hld by (destruct data; [done|cbn; lia]).
  unfold fw_poll_write in E. cbn zeta in E.
  assert (∀ y, fw_at y d → fw_flushing y = false → 0 < fw_remaining y →
    wr_patience (fw_out y) ≤ wr_patience (fw_out x) →
    (mk_fw (fw_buf y ++ take (min (length data) (fw_remaining y)) data) (fw_cap y) (fw_flushing y)
       (fw_shutdown y) (fw_out y), Ready (Ok (min (length data) (fw_remaining y)))) = (x', p) →
    wr_patience (fw_out x') ≤ wr_patience (fw_out x) ∧
    match p with
    | Pending => fw_at x' d ∧ wr_patience (fw_out x') < wr_patience (fw_out x)
    | Ready (Ok n) => 0 < n ≤ length data ∧ fw_at x' (d ++ take n data)
    | _ => False
    end) as Hput.
  { intros y (Hs & Hsh & fs & Hfs & Hy) Hf Hrem Hle [= <- <-]. rewrite Hf in Hy.
    destruct Hy as (f & Hlen & Hw & Hb & ->). split; [done|]. split; [lia|].
    split; [done|]. split; [done|]. exists fs. split; [done|]. cbn. rewrite Hf.
    exists (f ++ take (min (length data) (fw_remaining y)) data). rewrite !length_app, Hlen, Hb.
    split; [lia|]. split; [done|]. by rewrite <-!app_assoc. }
  destruct (fw_flushing x) eqn:Ef.
  2: destruct (decide (fw_remaining x = 0)) as [Hr|Hr];
    [rewrite bool_decide_true in E by done|
     rewrite bool_decide_false in E by done; cbn in E; apply (Hput x); try done; [lia|by rewrite Ef]].
  1: rewrite orb_true_r in E. 2: cbn in E.
  all: destruct (fw_flush_buf x) as [x1 q] eqn:E1;
    apply (fw_flush_buf_spec x d) in E1 as (Hat1 & Hle & Hq); [|done];
    destruct q as [[]|]; try done; [destruct Hq as (? & ? & ?); by apply (Hput x1)|];
    injection E as <- <-; auto.
Qed.

Lemma fw_write_all_spec fuel x d data :
  fw_at x d →
  length data + wr_patience (fw_out x) ≤ fuel →
  ∃ x', fw_write_all fuel x data = Ok x' ∧ fw_at x' (d ++ data).
Proof.
  revert x d data; induction fuel as [|fuel IH]; intros x d data Hat Hf.
  { destruct data; cbn in *; [|lia]. rewrite app_nil_r. eauto. }
  destruct data as [|y data]; [rewrite app_nil_r; cbn; eauto|].
  cbn [fw_write_all]. set (data' := y :: data) in *. destruct (fw_poll_write x data') as [x1 p] eqn:E.
  apply (fw_poll_write_spec x d) in E as [Hle Hp]; [|done|done].
  destruct p as [[n|e|]|]; try done.
  - destruct Hp as [Hn Hat1]. destruct (IH x1 (d ++ take n data') (drop n data')) as (x' & -> & ?).
    + done.
    + rewrite length_drop. lia.
    + rewrite <-app_assoc, take_drop in *. eauto.
  - destruct Hp as [Hat1 Hlt]. apply IH; [done|lia].
Qed.

(** While [shutdown] writes the last frame, what is written and what is in
    the buffer are the frames of [d]; then it flushes the writer below. *)
Definition fw_closing x (d : bytes) : Prop :=
  wr_inv (fw_out x) ∧ (fw_shutdown x = true → fw_buf x = []) ∧ fw_flushing x = false ∧ length (fw_buf x) ≤ 8 ∧
  ∃ fs, nonempty_all fs ∧ concat fs = d ∧ wr_written (fw_out x) ++ fw_buf x = d0 ++ frames fs.

Definition fw_closed x (d : bytes) : Prop :=
  wr_inv (fw_out x) ∧ ∃ fs, nonempty_all fs ∧ concat fs = d ∧ wr_written (fw_out x) = d0 ++ frames fs.

Context {AFL : AsyncFlushLaws W}.

Lemma fw_flush_out_spec x x' p :
  wr_inv (fw_out x) → fw_flush_out x = (x', p) →
  ∃ w, x' = mk_fw (fw_buf x) (fw_cap x) (fw_flushing x) (fw_shutdown x) w ∧
  wr_inv w ∧ wr_written w = wr_written (fw_out x) ∧ wr_patience w ≤ wr_patience (fw_out x) ∧
  match p with
  | Pending => wr_patience w < wr_patience (fw_out x)
  | Ready (Ok _) => True
  | _ => False
  end.
Proof.
  intros Hi E. unfold fw_flush_out in E. destruct (aw_poll_flush (fw_out x)) as [w q] eqn:Ew.
  injection E as <- <-. exists w. split; [done|]. by apply aw_poll_flush_law.
Qed.

Lemma fw_at_out x w d :
  fw_at x d → wr_inv w → wr_written w = wr_written (fw_out x) →
  fw_at (mk_fw (fw_buf x) (fw_cap x) (fw_flushing x) (fw_shutdown x) w) d.
Proof. intros (_ & Hsh & fs & Hfs & Hat) Hw Heq. split; [done|]. split; [done|]. exists fs. cbn. by rewrite Heq. Qed.

Lemma fw_poll_flush_spec x d x' p :
  fw_at x d → fw_poll_flush x = (x', p) →
  fw_at x' d ∧ wr_patience (fw_out x') ≤ wr_patience (fw_out x) ∧
  match p with
  | Pending => wr_patience (fw_out x') < wr_patience (fw_out x)
  | Ready (Ok _) => True
  | _ => False
  end.
Proof.
  intros Hat E. unfold fw_poll_flush in E. destruct (fw_flush_buf x) as [x1 q] eqn:E1.
  apply (fw_flush_buf_spec x d) in E1 as (Hat1 & Hle & Hq); [|done].
  destruct q as [[u|e|]|]; try done; [|by injection E as <- <-].
  apply fw_flush_out_spec in E as (w & -> & Hi & Hw & Hle2 & Hp); [|apply Hat1].
  split; [by apply fw_at_out|]. cbn [fw_out]. split; [lia|]. destruct p as [[]|]; try done. lia.
Qed.

(** A flush while [shutdown] is under way. *)
Lemma fw_flush_buf_closing x d :
  fw_closing x d → ∃ x', fw_flush_buf x = (x', Ready (Ok tt)) ∧ fw_closing x' d ∧ fw_out x' = fw_out x.
Proof.
  intros (Hs & Hsh & Hf & Hl & fs & Hfs & Hc & Hw). unfold fw_flush_buf, fw_start_flush. rewrite Hf. cbn.
  rewrite bool_decide_false by lia. rewrite Hf. eexists. split; [done|]. split; [|done]. repeat split; try done. eauto.
Qed.

Lemma fw_poll_flush_closing x d x' p :
  fw_closing x d → fw_poll_flush x = (x', p) →
  fw_closing x' d ∧ wr_patience (fw_out x') ≤ wr_patience (fw_out x) ∧
  match p with
  | Pending => wr_patience (fw_out x') < wr_patience (fw_out x)
  | Ready (Ok _) => True
  | _ => False
  end.
Proof.
  intros Hx E. unfold fw_poll_flush in E. destruct (fw_flush_buf_closing x d Hx) as (x1 & E1 & Hx1 & Ho). rewrite E1 in E.
  destruct Hx1 as (Hs & Hsh & Hf & Hl & fs & Hfs & Hc & Hw).
  apply fw_flush_out_spec in E as (w & -> & Hi & Hw' & Hle & Hp); [|done]. rewrite <-Ho. cbn [fw_out].
  split; [|split; [lia|by destruct p as [[]|]]]. repeat split; try done. exists fs. cbn. by rewrite Hw'.
Qed.

(** The end of [shutdown]. *)
Lemma fw_close_spec x d x' p :
  fw_closing x d →
  match (if fw_shutdown x then (x, Ready (Ok tt)) else fw_write_out x) with
  | (x, Ready (Ok _)) => fw_flush_out (mk_fw (fw_buf x) (fw_cap x) (fw_flushing x) true (fw_out x))
  | y => y
  end = (x', p) →
  match p with
  | Pending => fw_closing x' d ∧ wr_patience (fw_out x') < wr_patience (fw_out x)
  | Ready (Ok _) => fw_closed x' d
  | _ => False
  end.
Proof.
  intros (Hs & Hsh & Hf & Hl & fs & Hfs & Hd & Hw) E.
  assert (∀ y, wr_inv (fw_out y) → fw_buf y = [] → fw_flushing y = false → wr_written (fw_out y) = d0 ++ frames fs →
    wr_patience (fw_out y) ≤ wr_patience (fw_out x) →
    fw_flush_out (mk_fw (fw_buf y) (fw_cap y) (fw_flushing y) true (fw_out y)) = (x', p) →
    match p with
    | Pending => fw_closing x' d ∧ wr_patience (fw_out x') < wr_patience (fw_out x)
    | Ready (Ok _) => fw_closed x' d
    | _ => False
    end) as Hend.
  { intros y Hy Hb Hfy Hwy Hle Ey. apply fw_flush_out_spec in Ey as (w & -> & Hi & Hw' & Hle' & Hp); [|done].
    cbn [fw_out fw_buf fw_flushing fw_cap fw_shutdown] in *. destruct p as [[]|]; try done.
    - split; [done|]. exists fs. split; [done|]. split; [done|]. cbn. congruence.
    - split; [|cbn; lia]. unfold fw_closing. cbn. rewrite Hb. split; [done|]. split; [done|]. split; [done|]. split; [cbn; lia|].
      exists fs. rewrite app_nil_r. split_and!; congruence. }
  destruct (fw_shutdown x) eqn:Esh.
  - apply (Hend x); try done; [by apply Hsh|]. by rewrite (Hsh eq_refl), app_nil_r in Hw.
  - destruct (fw_write_out x) as [x1 q] eqn:E1.
    apply fw_write_out_spec in E1 as (Hs1 & Hf1 & Hsh1 & Heq & Hl1 & Hle1 & Hq); [|done].
    rewrite Hw in Heq. destruct q as [[]|]; try done.
    + apply (Hend x1); try done; [congruence|]. by rewrite Hq, app_nil_r in Heq.
    + injection E as <- <-. split; [|done]. split; [done|]. split; [congruence|]. split; [congruence|]. split; [lia|]. eauto.
Qed.

Lemma fw_shutdown_spec x d x' p :
  (fw_at x d ∨ fw_closing x d) → fw_poll_shutdown x = (x', p) →
  match p with
  | Pending => (fw_at x' d ∨ fw_closing x' d) ∧
      wr_patience (fw_out x') < wr_patience (fw_out x)
  | Ready (Ok _) => fw_closed x' d
  | _ => False
  end.
Proof.
  intros Hx E. unfold fw_poll_shutdown in E.
  assert (∃ x1 q, fw_flush_buf x = (x1, q) ∧
    wr_patience (fw_out x1) ≤ wr_patience (fw_out x) ∧
    match q with
    | Pending => fw_at x1 d ∧ wr_patience (fw_out x1) < wr_patience (fw_out x)
    | Ready (Ok _) => fw_closing x1 d
    | _ => False
    end) as (x1 & q & E1 & Hle & Hq).
  { destruct Hx as [Hat|Hx].
    - destruct (fw_flush_buf x) as [x1 q] eqn:E1. exists x1, q. split; [done|].
      apply (fw_flush_buf_spec x d) in E1 as (Hat1 & Hle & Hq); [|done]. split; [done|].
      destruct q as [[]|]; try done. destruct Hq as (Hf1 & Hb1 & _).
      destruct Hat1 as (Hs1 & Hsh1 & fs & Hfs & Hat1). rewrite Hf1 in Hat1.
      destruct Hat1 as (f & Hlen & Hw & Hb & ->). split; [done|]. split; [congruence|]. split; [done|].
      assert (f = []) as ->.
      { rewrite Hb1, length_u64_to_le_bytes in Hlen. destruct f; [done|cbn in *; lia]. }
      split; [cbn in Hlen; lia|]. exists fs. rewrite app_nil_r. split; [done|]. split; [done|].
      rewrite Hw, Hb1. unfold frames. by rewrite <-app_assoc.
    - destruct (fw_flush_buf_closing x d Hx) as (x1 & E1 & Hx1 & Ho). exists x1, (Ready (Ok tt)). by rewrite Ho. }
  rewrite E1 in E. destruct q as [[]|]; try done.
  - apply (fw_close_spec x1 d) in E; [|done].
    destruct p as [[]|]; try done. destruct E. split; [by right|lia].
  - injection E as <- <-. destruct Hq. split; [by left|done].
Qed.

Lemma fw_until_flush x d :
  fw_at x d → ∃ x', fw_until fw_poll_flush x = Ok x' ∧ fw_at x' d.
Proof.
  intros Hat. unfold fw_until.
  destruct (poll_until_ind fw_poll_flush (λ x, wr_patience (fw_out x)) (λ x, fw_at x d)
    (λ x a, match a with Ok _ => fw_at x d | _ => False end)) with
    (fuel := wr_patience (fw_out x)) (r := x) as (x' & a & -> & Ha); try done.
  - intros y y' p Hy E. apply (fw_poll_flush_spec y d) in E as (? & _ & Hp); [|done].
    by destruct p as [[]|].
  - destruct a; eauto; done.
Qed.

Lemma fw_writes_spec x d ds :
  fw_at x d →
  ∃ x', fw_writes x ds = Ok x' ∧ fw_at x' (d ++ concat ds.*1).
Proof.
  revert x d; induction ds as [|[data fl] ds IH]; intros x d Hat.
  { exists x. cbn. by rewrite app_nil_r. }
  rewrite fmap_cons, concat_cons, app_assoc. cbn [fst].
  destruct (fw_write_all_spec (length data + wr_patience (fw_out x)) x d data Hat)
    as (x1 & E1 & Hat1); [done|].
  cbn [fw_writes]. rewrite E1. cbn [mbind res_bind]. destruct fl.
  - destruct (fw_until_flush x1 _ Hat1) as (x2 & -> & Hat2). by apply IH.
  - by apply IH.
Qed.

Lemma fw_new_at w : wr_inv w → wr_written w = d0 → fw_at (fw_new w) [].
Proof. intros Hs Hw. split; [done|]. split; [done|]. exists []. split; [constructor|]. exists []. cbn [fw_new fw_out fw_buf]. rewrite Hw, !app_nil_r. auto. Qed.

Lemma fw_until_shutdown x d :
  fw_at x d → ∃ x', fw_until fw_poll_shutdown x = Ok x' ∧ fw_closed x' d.
Proof.
  intros Hat. unfold fw_until.
  destruct (poll_until_ind fw_poll_shutdown (λ x, wr_patience (fw_out x)) (λ x, fw_at x d ∨ fw_closing x d)
    (λ x a, match a with Ok _ => fw_closed x d | _ => False end)) with
    (fuel := wr_patience (fw_out x)) (r := x) as (x' & a & -> & Ha); auto.
  - intros y y' p Hy E. by apply (fw_shutdown_spec y d) in E; destruct p as [[]|].
  - destruct a; try done. eauto.
Qed.

Lemma fw_send_spec w ds :
  wr_inv w → wr_written w = d0 → is_u64 (Z.of_nat (length (concat ds.*1))) →
  ∃ fs w', frames_ok fs ∧ concat fs = concat ds.*1 ∧ fw_send w ds = Ok w' ∧ wr_inv w' ∧
    wr_written w' = d0 ++ frames fs.
Proof.
  intros Hs Hw Hu. unfold fw_send.
  destruct (fw_writes_spec (fw_new w) [] ds) as (x & -> & Hat); [by apply fw_new_at|].
  cbn [mbind res_bind app] in *. destruct (fw_until_shutdown x _ Hat) as (x' & -> & Hi & fs & ? & Hc & ?).
  exists fs, (fw_out x'). split; [|done]. apply frames_ok_total; [done|by rewrite Hc].
Qed.
End writer.

(** ** Properties *)

(** The framed writer loses, reorders and adds nothing: for any writes,
    flushed or not, over any schedule of the underlying writer, sending them
    and shutting down puts on the wire a sequence of non-empty frames, each
    with its exact length, that together hold the data, and one empty frame
    at the end. *)
Theorem framed_writer_correct (HM : BytesMutReserve) (HML : BytesMutLaws)
    (sch : list (option nat)) (ds : list (bytes * bool)) :
  Forall (λ o, o ≠ Some 0) sch → is_u64 (Z.of_nat (length (concat ds.*1))) →
  ∃ fs w, frames_ok fs ∧ concat fs = concat ds.*1 ∧
    fw_send (mk_sink [] sch) ds = Ok w ∧ written w = frames fs.
Proof.
  intros Hs Hu. destruct (fw_send_spec [] (mk_sink [] sch) ds) as (fs & w & ? & ? & ? & _ & Hw); [done..|].
  exists fs, w. done.
Qed.

(** [bytes] allocates exactly what it is asked for. *)
Definition exact_reserve : BytesMutReserve := λ len cap additional, max cap (len + additional).

Lemma exact_reserve_laws : @BytesMutLaws exact_reserve.
Proof. intros len cap additional. unfold bytes_reserve, exact_reserve. lia. Qed.

Definition sample_writes : list (bytes * bool) :=
  [(str " ", true); (str "ABCD", true); (str "", true); (str "E", false)].

Lemma framed_writer_correct_witness :
  ∃ fs w, frames_ok fs ∧ concat fs = str " ABCDE" ∧
    fw_send (H := exact_reserve) (mk_sink [] [Some 9; None; Some 5; None; None]) sample_writes = Ok w ∧
    written w = frames fs.
Proof.
  apply (framed_writer_correct exact_reserve exact_reserve_laws
    [Some 9; None; Some 5; None; None] sample_writes).
  - repeat constructor; discriminate.
  - unfold is_u64, u64_modulus. cbn. lia.
Defined.

(** Framing is transparent: what one side writes through the framed
    writer, the other side reads through the framed reader, to the byte, and
    what follows the frames on the connection is left unread. *)
Theorem framed_roundtrip (HM : BytesMutReserve) (HML : BytesMutLaws)
    (R : Type) (HR : AsyncBytesRead R) (HL : AsyncBytesReadLaws R)
    (sch : list (option nat)) (ds : list (bytes * bool)) (r : R) (w : sink) (tl : bytes)
    (rooms : list nat) (fuel : nat) :
  Forall (λ o, o ≠ Some 0) sch → is_u64 (Z.of_nat (length (concat ds.*1))) →
  fw_send (mk_sink [] sch) ds = Ok w → rd_inv r → rest r = written w ++ tl →
  length (concat ds.*1) + patience r < fuel →
  ∃ x, framed_read_to_end fuel rooms (framed_new r) [] = (x, Ok (concat ds.*1)) ∧ rest x.2 = tl.
Proof.
  intros Hs Hu Hw Hi Hr Hf.
  destruct (fw_send_spec [] (mk_sink [] sch) ds) as (fs & w' & Hfs & Hc & E & _ & Hwr); [done|done|done|].
  rewrite Hw in E. injection E as <-. cbn in Hwr. rewrite Hwr in Hr. rewrite <-Hc in Hf |- *.
  destruct (framed_read_to_end_spec fuel rooms (framed_new r) (concat fs) tl [])
    as (x & E & (_ & fs' & _ & Hat) & He); [by apply framed_new_at|done|].
  exists x. split; [done|]. rewrite He in Hat. by destruct Hat.
Qed.

Lemma framed_roundtrip_witness :
  let sch := [Some 9; None; Some 5; None; None] in
  ∃ w bs r x, fw_send (H := exact_reserve) (mk_sink [] sch) sample_writes = Ok w ∧ written w = bs ∧
    r = reader_build 8 1000 (λ _, []) [Some (take 5 bs); None; Some (drop 5 bs ++ str "F")] ∧
    framed_read_to_end 100 [1; 0] (framed_new r) [] = (x, Ok (str " ABCDE")) ∧
    rest x.2 = str "F".
Proof.
  intros sch.
  set (bs := frames [str " "; str "ABCD"; str "E"]).
  assert (fw_send (H := exact_reserve) (mk_sink [] sch) sample_writes = Ok (mk_sink bs [])) as Hw
    by (vm_compute; reflexivity).
  set (r := reader_build 8 1000 (λ _, []) [Some (take 5 bs); None; Some (drop 5 bs ++ str "F")]).
  assert (rd_inv r) as Hi.
  { apply source_reader_inv. split; [repeat constructor; discriminate|]. split; [lia|].
    split; [apply Nat.leb_le; vm_compute; reflexivity|]. intros l. apply list_subseteq_nil. }
  destruct (framed_roundtrip exact_reserve exact_reserve_laws (BytesReader source) _ _ sch sample_writes r (mk_sink bs [])
    (str "F") [1; 0] 100) as (x & E & Hx).
  - repeat constructor; discriminate.
  - unfold is_u64, u64_modulus. cbn. lia.
  - exact Hw.
  - exact Hi.
  - vm_compute. reflexivity.
  - apply Nat.ltb_lt. vm_compute. reflexivity.
  - exists (mk_sink bs []), bs, r, x. auto.
Defined.
