(* ===== verification/Version.v ===== *)
(** Protocol versions and ranges of them ([harmonia-protocol/src/version.rs]). *)

From stdpp Require Import base list numbers strings.
From Stdlib Require Import ZArith Lia Strings.Byte.
From S2P Require Import Prelude.

(** ** Versions *)

Record ProtocolVersion : Type := mk_version { major : Z; minor : Z }.

#[export] Instance ProtocolVersion_eq_dec : EqDecision ProtocolVersion.
Proof. solve_decision. Defined.

Definition is_u8 (z : Z) : Prop := (0 ≤ z < 256)%Z.

Definition version_wf (v : ProtocolVersion) : Prop := is_u8 (major v) ∧ is_u8 (minor v).

Definition PROTOCOL_VERSION : ProtocolVersion := mk_version 1 37.
Definition PROTOCOL_VERSION_MIN : ProtocolVersion := mk_version 1 37.

(** [derive(Ord)]. *)
Definition version_cmp (v w : ProtocolVersion) : comparison :=
  match Z.compare (major v) (major w) with Eq => Z.compare (minor v) (minor w) | c => c end.

Definition version_lt (v w : ProtocolVersion) : bool :=
  match version_cmp v w with Lt => true | _ => false end.

(** [Ord::max] and [Ord::min]. *)
Definition version_max (v w : ProtocolVersion) : ProtocolVersion := if version_lt w v then v else w.
Definition version_min (v w : ProtocolVersion) : ProtocolVersion := if version_lt w v then w else v.

(** [next] and [previous]: [u8] arithmetic that must not overflow. *)
Definition next {E : Type} (v : ProtocolVersion) : res E ProtocolVersion :=
  if decide (minor v + 1 < 256)%Z then Ok (mk_version (major v) (minor v + 1)) else Panic.

Definition previous {E : Type} (v : ProtocolVersion) : res E ProtocolVersion :=
  if decide (0 < minor v)%Z then Ok (mk_version (major v) (minor v - 1)) else Panic.

Definition from_u16 (value : Z) : ProtocolVersion :=
  mk_version (Z.shiftr (Z.land value 65280) 8) (Z.land value 255).

Definition to_u16 (v : ProtocolVersion) : Z := Z.lor (Z.shiftl (major v) 8) (minor v).

Definition u8_to_string (z : Z) : bytes := dec_to_string 3 z.

Definition version_to_string (v : ProtocolVersion) : bytes :=
  u8_to_string (major v) ++ "."%byte :: u8_to_string (minor v).

Definition is_digit (b : byte) : bool := (48 <=? byte_to_Z b)%Z && (byte_to_Z b <=? 57)%Z.

(** [u8::from_str]: digits, after an optional plus sign. *)
Definition parse_u8 (s : bytes) : option Z :=
  let ds := match s with "+"%byte :: x :: r => x :: r | _ => s end in
  if decide (ds ≠ []) then
    if forallb is_digit ds then
      if decide (dec_value ds < 256)%Z then Some (dec_value ds) else None
    else None
  else None.

Inductive ParseProtocolVersionError : Type :=
| ParseInt (value : bytes)
| InvalidFormat (value : bytes).

Definition version_from_str (value : bytes) : res ParseProtocolVersionError ProtocolVersion :=
  match split_once "." value with
  | Some (major, minor) =>
      major ← ok_or (parse_u8 major) (ParseInt value);
      minor ← ok_or (parse_u8 minor) (ParseInt value);
      Ok (mk_version major minor)
  | None => Err (InvalidFormat value)
  end.

(** ** Ranges *)

Inductive ProtocolRange : Type :=
| Full
| To (to : ProtocolVersion)
| From (from : ProtocolVersion)
| Between (from to : ProtocolVersion).

Inductive Bound : Type := Included (v : ProtocolVersion) | Excluded (v : ProtocolVersion) | Unbounded.

Definition start_bound (r : ProtocolRange) : Bound :=
  match r with Full => Unbounded | To _ => Unbounded | From from => Included from | Between from _ => Included from end.

Definition end_bound (r : ProtocolRange) : Bound :=
  match r with Full => Unbounded | To to => Excluded to | From _ => Unbounded | Between _ to => Excluded to end.

(** [RangeBounds::contains]. *)
Definition contains (r : ProtocolRange) (v : ProtocolVersion) : bool :=
  match start_bound r with
  | Included s => negb (version_lt v s)
  | Excluded s => version_lt s v
  | Unbounded => true
  end &&
  match end_bound r with
  | Included e => negb (version_lt e v)
  | Excluded e => version_lt v e
  | Unbounded => true
  end.

Definition meet_start (a b : Bound) : Bound :=
  match a, b with
  | Included a, Included b => Included (version_max a b)
  | Excluded a, Excluded b => Excluded (version_max a b)
  | Unbounded, Unbounded => Unbounded
  | x, Unbounded | Unbounded, x => x
  | Included i, Excluded e | Excluded e, Included i => if version_lt e i then Included i else Excluded e
  end.

Definition meet_end (a b : Bound) : Bound :=
  match a, b with
  | Included a, Included b => Included (version_min a b)
  | Excluded a, Excluded b => Excluded (version_min a b)
  | Unbounded, Unbounded => Unbounded
  | x, Unbounded | Unbounded, x => x
  | Included i, Excluded e | Excluded e, Included i => if version_lt i e then Included i else Excluded e
  end.

Definition intersect (r o : ProtocolRange) : option ProtocolRange :=
  match meet_start (start_bound r) (start_bound o), meet_end (end_bound r) (end_bound o) with
  | Included from, Excluded to => if version_lt from to then Some (Between from to) else None
  | Included from, Unbounded => Some (From from)
  | Unbounded, Excluded to => Some (To to)
  | Unbounded, Unbounded => Some Full
  | _, _ => None
  end.

Definition range_min (r : ProtocolRange) : ProtocolVersion :=
  match start_bound r with Included from => from | _ => PROTOCOL_VERSION_MIN end.

Definition range_max {E : Type} (r : ProtocolRange) : res E ProtocolVersion :=
  match end_bound r with Excluded to => previous to | _ => Ok PROTOCOL_VERSION end.

Definition range_to_string (r : ProtocolRange) : bytes :=
  match r with
  | Full => str ".."
  | To to => str ".." ++ version_to_string to
  | From from => version_to_string from ++ str ".."
  | Between from to => version_to_string from ++ str ".." ++ version_to_string to
  end.

(** [str::split_once] with a string of two bytes. *)
Fixpoint split_once_str (c d : byte) (s : bytes) : option (bytes * bytes) :=
  match s with
  | [] => None
  | x :: s' =>
      match s' with
      | [] => None
      | y :: r =>
          if decide (x = c ∧ y = d) then Some ([], r)
          else match split_once_str c d s' with
               | Some (p, q) => Some (x :: p, q)
               | None => None
               end
      end
  end.

Definition range_from_str (s : bytes) : res ParseProtocolVersionError ProtocolRange :=
  if decide (s = str "..") then Ok Full
  else match strip_suffix (str "..") s with
       | Some from => From <$> version_from_str from
       | None =>
           match strip_prefix (str "..") s with
           | Some to => To <$> version_from_str to
           | None =>
               match split_once_str "." "." s with
               | Some (from, to) =>
                   from ← version_from_str from; to ← version_from_str to; Ok (Between from to)
               | None => Err (InvalidFormat s)
               end
           end
       end.

(** ** Order and numbers *)

Lemma version_lt_iff v w :
  version_lt v w = true ↔ (major v < major w ∨ major v = major w ∧ minor v < minor w)%Z.
Proof.
  unfold version_lt, version_cmp.
  destruct (Z.compare_spec (major v) (major w)), (Z.compare_spec (minor v) (minor w)); split; (done || lia).
Qed.

Lemma version_lt_false v w :
  version_lt v w = false ↔ (major w < major v ∨ major v = major w ∧ minor w ≤ minor v)%Z.
Proof. rewrite <-not_true_iff_false, version_lt_iff. lia. Qed.

Lemma lor_shift_8 m n : (0 ≤ n < 256)%Z → Z.lor (Z.shiftl m 8) n = (256 * m + n)%Z.
Proof.
  intros Hn. assert (Z.land (Z.shiftl m 8) n = 0)%Z as H0.
  { apply Z.bits_inj'. intros k Hk. rewrite Z.land_spec, Z.bits_0.
    destruct (decide (k < 8)%Z); [by rewrite Z.shiftl_spec_low by lia|].
    rewrite (Z.bits_above_log2 n); [apply andb_false_r|lia|].
    destruct (decide (n = 0)%Z) as [->|]; [cbn; lia|]. apply Z.log2_lt_pow2; [lia|].
    apply Z.lt_le_trans with (2 ^ 8)%Z; [lia|apply Z.pow_le_mono_r; lia]. }
  rewrite <-Z.lxor_lor, <-Z.add_nocarry_lxor by done. rewrite Z.shiftl_mul_pow2 by lia.
  change (2 ^ 8)%Z with 256%Z. lia.
Qed.

Lemma from_u16_eq z : (0 ≤ z < 65536)%Z → from_u16 z = mk_version (z / 256) (z mod 256).
Proof.
  intros Hz. unfold from_u16. rewrite Z.shiftr_land. change (Z.shiftr 65280 8) with (Z.ones 8).
  change 255%Z with (Z.ones 8). rewrite !Z.land_ones, Z.shiftr_div_pow2 by lia. change (2 ^ 8)%Z with 256%Z.
  f_equal. apply Z.mod_small. split; [apply Z.div_pos; lia|apply Z.div_lt_upper_bound; lia].
Qed.

(** ** Texts *)

Lemma u8_digits z : is_u8 z → (0 ≤ z < 10 ^ Z.of_nat 3)%Z.
Proof. intros [? ?]. cbn. lia. Qed.

Lemma u8_to_string_shape z : is_u8 z →
  u8_to_string z ≠ [] ∧ forallb is_digit (u8_to_string z) = true ∧ dec_value (u8_to_string z) = z.
Proof.
  intros Hz. pose proof (u8_digits z Hz) as Hd. split; [|split].
  - unfold u8_to_string, dec_to_string. cbn [dec_digits]. destruct (decide _); [done|].
    intros E. apply fmap_nil_inv in E. by destruct (app_cons_not_nil _ _ _ (eq_sym E)).
  - apply forallb_forall. intros b Hb%list_elem_of_In. apply not_false_iff_true. intros Hf.
    apply (dec_to_string_plain 3 z b Hd) in Hb; [done|]. unfold is_digit in Hf.
    rewrite andb_false_iff, !Z.leb_gt in Hf. lia.
  - by apply dec_to_string_value.
Qed.

Lemma parse_u8_to_string z : is_u8 z → parse_u8 (u8_to_string z) = Some z.
Proof.
  intros Hz. destruct (u8_to_string_shape z Hz) as (Hne & Hd & Hv). unfold parse_u8.
  assert (match u8_to_string z with "+"%byte :: x :: r => x :: r | _ => u8_to_string z end = u8_to_string z) as ->.
  { destruct (u8_to_string z) as [|b [|]]; [done| |]; by destruct b. }
  rewrite decide_True, Hd, Hv by done. rewrite decide_True by apply Hz. done.
Qed.

Lemma u8_to_string_plain z : is_u8 z → "."%byte ∉ u8_to_string z.
Proof. intros Hz. apply dec_to_string_plain; [by apply u8_digits|]. vm_compute. intros []. done. Qed.

Lemma version_from_to_string v : version_wf v → version_from_str (version_to_string v) = Ok v.
Proof.
  intros [Hm Hn]. unfold version_from_str, version_to_string. rewrite split_once_app by (by apply u8_to_string_plain).
  rewrite !parse_u8_to_string by done. by destruct v.
Qed.

(** The first and the last byte of a version are digits. *)
Lemma version_ends v : version_wf v →
  ∃ b c s t, version_to_string v = b :: s ∧ version_to_string v = t ++ [c] ∧ b ≠ "."%byte ∧ c ≠ "."%byte.
Proof.
  intros [Hm Hn]. destruct (u8_to_string_shape _ Hm) as (Hnm & _ & _), (u8_to_string_shape _ Hn) as (Hnn & _ & _).
  pose proof (u8_to_string_plain _ Hm) as Hpm. pose proof (u8_to_string_plain _ Hn) as Hpn.
  unfold version_to_string. destruct (u8_to_string (major v)) as [|b s]; [done|].
  destruct (exists_last Hnn) as (t & c & Ec). rewrite Ec in *.
  exists b, c, (s ++ "."%byte :: t ++ [c]), ((b :: s) ++ "."%byte :: t). split; [done|].
  split; [by rewrite <-app_assoc|]. rewrite not_elem_of_cons in Hpm. rewrite not_elem_of_app in Hpn.
  split; [naive_solver|]. intros ->. apply (proj2 Hpn). left.
Qed.

Lemma split_once_str_cons c x s :
  x ≠ c → split_once_str c c (x :: s) = match split_once_str c c s with Some (p, q) => Some (x :: p, q) | None => None end.
Proof. intros Hx. destruct s as [|y s]; [done|]. change (split_once_str c c (x :: y :: s)) with
  (if decide (x = c ∧ y = c) then Some ([], s) else
   match split_once_str c c (y :: s) with Some (p, q) => Some (x :: p, q) | None => None end).
  by rewrite decide_False by naive_solver.
Qed.

Lemma split_once_str_skip c s p q r :
  c ∉ s → split_once_str c c (q ++ r) = Some (p, r) → s ≠ [] → split_once_str c c (s ++ q ++ r) = Some (s ++ p, r).
Proof.
  intros Hs Hq Hne. induction s as [|x s IH]; [done|]. rewrite not_elem_of_cons in Hs. destruct Hs as [Hx Hs].
  destruct s as [|y s].
  - cbn [app]. rewrite split_once_str_cons by done. by rewrite Hq.
  - specialize (IH Hs ltac:(done)). rewrite <-app_comm_cons, split_once_str_cons by done. by rewrite IH.
Qed.

Lemma split_once_str_version v t : version_wf v →
  split_once_str "." "." (version_to_string v ++ str ".." ++ t) = Some (version_to_string v, t).
Proof.
  intros [Hm Hn]. destruct (u8_to_string_shape _ Hm) as (Hnm & _ & _), (u8_to_string_shape _ Hn) as (Hnn & _ & _).
  pose proof (u8_to_string_plain _ Hm) as Hpm. pose proof (u8_to_string_plain _ Hn) as Hpn.
  assert (split_once_str "." "." (u8_to_string (minor v) ++ str ".." ++ t) = Some (u8_to_string (minor v), t)) as H1.
  { rewrite <-(app_nil_r (u8_to_string (minor v))) at 2. apply (split_once_str_skip _ _ [] (str "..") t); done. }
  unfold version_to_string. rewrite <-app_assoc. cbn [app].
  assert (split_once_str "." "." ("."%byte :: u8_to_string (minor v) ++ str ".." ++ t) =
    Some ("."%byte :: u8_to_string (minor v), t)) as H2.
  { destruct (u8_to_string (minor v)) as [|d ds]; [done|]. rewrite not_elem_of_cons in Hpn.
    change (split_once_str "." "." ("."%byte :: (d :: ds) ++ str ".." ++ t)) with
      (if decide ("."%byte = "."%byte ∧ d = "."%byte) then Some ([], ds ++ str ".." ++ t) else
       match split_once_str "." "." ((d :: ds) ++ str ".." ++ t) with
       | Some (p, q) => Some ("."%byte :: p, q) | None => None end).
    rewrite decide_False by naive_solver. by rewrite H1. }
  replace ("."%byte :: u8_to_string (minor v) ++ str ".." ++ t) with
    (("."%byte :: u8_to_string (minor v) ++ str "..") ++ t) in * by (cbn; by rewrite <-app_assoc).
  apply split_once_str_skip; done.
Qed.

Definition range_wf (r : ProtocolRange) : Prop :=
  match r with
  | Full => True
  | To to => version_wf to
  | From from => version_wf from
  | Between from to => version_wf from ∧ version_wf to
  end.

Lemma strip_suffix_last c s t : c ≠ "."%byte → t = s ++ [c] → strip_suffix (str "..") t = None.
Proof. intros Hc ->. unfold strip_suffix. rewrite rev_app_distr. cbn. by use_decide. Qed.

Lemma range_from_to_string r : range_wf r → range_from_str (range_to_string r) = Ok r.
Proof.
  destruct r as [|v|v|v w]; cbn [range_wf range_to_string]; [done|..]; unfold range_from_str.
  - intros Hv. destruct (version_ends v Hv) as (b & c & s & t & E1 & E2 & Hb & Hc).
    rewrite decide_False by (rewrite E1; done).
    rewrite (strip_suffix_last c (str ".." ++ t)) by (done || by rewrite E2, <-app_assoc).
    rewrite strip_prefix_app. by rewrite version_from_to_string.
  - intros Hv. destruct (version_ends v Hv) as (b & c & s & t & E1 & E2 & Hb & Hc).
    rewrite decide_False by (rewrite E1; intros [=]; done).
    rewrite (proj2 (strip_suffix_Some (str "..") _ (version_to_string v)) eq_refl).
    by rewrite version_from_to_string.
  - intros [Hv Hw]. destruct (version_ends v Hv) as (b & _ & s & _ & E1 & _ & Hb & _).
    destruct (version_ends w Hw) as (_ & c & _ & t & _ & E2 & _ & Hc).
    rewrite decide_False by (rewrite E1; intros [=]; done).
    rewrite (strip_suffix_last c (version_to_string v ++ str ".." ++ t)) by (done || by rewrite E2, <-!app_assoc).
    assert (strip_prefix (str "..") (version_to_string v ++ str ".." ++ version_to_string w) = None) as ->.
    { rewrite E1. cbn. by use_decide. }
    rewrite split_once_str_version by done. by rewrite !version_from_to_string.
Qed.

(** ** Properties *)

Lemma to_u16_eq v : version_wf v → to_u16 v = (256 * major v + minor v)%Z.
Proof. intros [_ Hn]. by apply lor_shift_8. Qed.

Lemma to_u16_roundtrip v : version_wf v → from_u16 (to_u16 v) = v ∧ (0 ≤ to_u16 v < 65536)%Z.
Proof.
  intros Hv. pose proof Hv as [Hm Hn]. unfold is_u8 in Hm, Hn. rewrite to_u16_eq by done.
  split; [|lia]. rewrite from_u16_eq by lia. rewrite (Z.mul_comm 256), Z.div_add_l by lia.
  rewrite Z.div_small, Z.add_0_r by lia. rewrite Z.add_comm, Z.mod_add, Z.mod_small by lia. by destruct v.
Qed.

(** Versions and ranges round trip: a version as a 16-bit number, in
    both directions and in order, and as text; a range as text. *)
Theorem version_roundtrip (v w : ProtocolVersion) (r : ProtocolRange) (z : Z)
    (Hv : version_wf v) (Hw : version_wf w) (Hr : range_wf r) (Hz : (0 ≤ z < 65536)%Z) :
  from_u16 (to_u16 v) = v ∧ to_u16 (from_u16 z) = z ∧ version_wf (from_u16 z) ∧
  version_cmp v w = Z.compare (to_u16 v) (to_u16 w) ∧
  version_from_str (version_to_string v) = Ok v ∧ range_from_str (range_to_string r) = Ok r.
Proof.
  assert (version_wf (from_u16 z)) as Hwf.
  { rewrite from_u16_eq by done. split; unfold is_u8; cbn.
    - split; [apply Z.div_pos; lia|apply Z.div_lt_upper_bound; lia].
    - apply Z.mod_pos_bound. lia. }
  pose proof Hv as [Hm Hn]. pose proof Hw as [Hm' Hn']. unfold is_u8 in Hm, Hn, Hm', Hn'.
  split; [|split; [|split; [done|split; [|split]]]].
  - by apply to_u16_roundtrip.
  - rewrite to_u16_eq by done. rewrite from_u16_eq by done. cbn. pose proof (Z.div_mod z 256). lia.
  - rewrite !to_u16_eq by done. unfold version_cmp.
    destruct (Z.compare_spec (major v) (major w)) as [->| |]; symmetry.
    + destruct (Z.compare_spec (minor v) (minor w)) as [->| |]; [apply Z.compare_refl|apply Z.compare_lt_iff; lia|apply Z.compare_gt_iff; lia].
    + apply Z.compare_lt_iff. lia.
    + apply Z.compare_gt_iff. lia.
  - by apply version_from_to_string.
  - by apply range_from_to_string.
Qed.

(** [intersect] is the intersection: a version is in both ranges exactly
    when there is an intersection and the version is in it. *)
Theorem intersect_correct (r o : ProtocolRange) (v : ProtocolVersion) :
  contains r v && contains o v = match intersect r o with Some i => contains i v | None => false end.
Proof.
  apply eq_true_iff_eq.
  destruct r, o; unfold intersect, contains; cbn [start_bound end_bound meet_start meet_end andb];
    unfold version_max, version_min;
    repeat match goal with
    | |- context [if version_lt ?a ?b then _ else _] => destruct (version_lt a b) eqn:?
    | Hx : context [if version_lt ?a ?b then _ else _] |- _ => destruct (version_lt a b) eqn:?
    end;
    cbn [start_bound end_bound]; rewrite ?andb_true_iff, ?negb_true_iff, ?version_lt_false, ?version_lt_iff in *;
    intuition lia.
Qed.

(** ** Witnesses *)

Lemma version_roundtrip_witness :
  let v := PROTOCOL_VERSION in
  from_u16 (to_u16 v) = v ∧ to_u16 (from_u16 293) = 293%Z ∧ version_wf (from_u16 293) ∧
  version_cmp v v = Z.compare (to_u16 v) (to_u16 v) ∧
  version_from_str (version_to_string v) = Ok v ∧
  range_from_str (range_to_string (Between v v)) = Ok (Between v v).
Proof.
  apply (version_roundtrip PROTOCOL_VERSION PROTOCOL_VERSION (Between PROTOCOL_VERSION PROTOCOL_VERSION) 293).
  all: unfold range_wf, version_wf, is_u8; cbn; lia.
Defined.
