(* ===== verification/BaseEncoding.v ===== *)
(** Base encodings ([harmonia-utils-base-encoding/src]): Nix base32, base16
    and base64 on top of the package [data_encoding]. *)

From stdpp Require Import base list numbers strings.
From Stdlib Require Import ZArith Lia Strings.Byte.
From S2P Require Import Prelude.

(** ** The package [data_encoding]

    An [Encoding] of the package is a parameter: what it computes, and what
    its documentation promises. [decode_mut] and [encode_mut] panic unless
    the output has exactly the length [decode_len] and [encode_len] give. *)

Inductive DecodeKind : Type := KLength | KSymbol | KTrailing | KPadding.

Record DecodeError : Type := mk_decode_error { position : nat; kind : DecodeKind }.

Record DecodePartial : Type := mk_partial { dp_read : nat; dp_written : nat; dp_error : DecodeError }.

#[export] Instance DecodeKind_eq_dec : EqDecision DecodeKind.
Proof. solve_decision. Defined.
#[export] Instance DecodeError_eq_dec : EqDecision DecodeError.
Proof. solve_decision. Defined.
#[export] Instance DecodePartial_eq_dec : EqDecision DecodePartial.
Proof. solve_decision. Defined.

Record Encoding_ : Type := mk_encoding {
  enc_len : nat → nat;
  dec_len : nat → res DecodeError nat;
  enc : bytes → bytes;
  dec : bytes → res DecodePartial bytes
}.

Class DataEncoding : Type := {
  NIX_BASE32 : Encoding_;
  HEXLOWER_PERMISSIVE : Encoding_;
  BASE64 : Encoding_
}.

(** [Encoding::decode_mut]: the bytes written to the front of the output. *)
Definition enc_decode_mut (e : Encoding_) (input : bytes) (out : nat) : res DecodePartial bytes :=
  match dec_len e (length input) with
  | Ok n => if decide (n = out) then dec e input else Panic
  | _ => Panic
  end.

Definition enc_encode_mut (e : Encoding_) (input : bytes) (out : nat) : res DecodePartial bytes :=
  if decide (enc_len e (length input) = out) then Ok (enc e input) else Panic.

(** What every encoding promises. *)
Record encoding_laws (e : Encoding_) : Prop := {
  law_enc_length x : length (enc e x) = enc_len e (length x);
  law_dec_enc x : dec e (enc e x) = Ok x;
  law_dec_error s p : dec e s = Err p → position (dp_error p) < length s;
  law_dec_no_panic s : dec e s ≠ Panic;
  law_dec_len_no_panic n : dec_len e n ≠ Panic;
  law_dec_length s x n : dec e s = Ok x → dec_len e (length s) = Ok n → length x ≤ n
}.

Class DataEncodingLaws `{!DataEncoding} : Prop := {
  base32_laws : encoding_laws NIX_BASE32;
  hex_laws : encoding_laws HEXLOWER_PERMISSIVE;
  base64_laws : encoding_laws BASE64;
  (** base32 is canonical, and base16 up to the case it reads; base64 is not,
      because padded blocks may be concatenated *)
  base32_canonical s x : dec NIX_BASE32 s = Ok x → enc NIX_BASE32 x = s;
  hex_canonical s x :
    dec HEXLOWER_PERMISSIVE s = Ok x → enc HEXLOWER_PERMISSIVE x = map to_ascii_lowercase s;
  (** the symbols of base32 are the digits of the bytes read as a
      little-endian number: the least significant bits come first *)
  base32_bits x :
    enc NIX_BASE32 x = (λ d, default x00 (str "0123456789abcdfghijklmnpqrsvwxyz" !! Z.to_nat d)) <$>
                         to_digits 32 ((8 * length x + 4) / 5) (from_le_bytes x);
  (** base16 is what [{:02x}] prints, and is read in both cases *)
  hex_enc x : enc HEXLOWER_PERMISSIVE x = x ≫= fmt_02x;
  hex_permissive s : dec HEXLOWER_PERMISSIVE (map to_ascii_lowercase s) = dec HEXLOWER_PERMISSIVE s;
  base32_enc_len n : enc_len NIX_BASE32 n = (8 * n + 4) / 5;
  hex_enc_len n : enc_len HEXLOWER_PERMISSIVE n = 2 * n;
  base64_enc_len n : enc_len BASE64 n = 4 * ((n + 2) / 3);
  base32_dec_len n : dec_len NIX_BASE32 ((8 * n + 4) / 5) = Ok n;
  hex_dec_len n : dec_len HEXLOWER_PERMISSIVE (2 * n) = Ok n;
  base64_dec_len n : dec_len BASE64 (4 * n) = Ok (3 * n);
  (** the symbols: lower-case alphanumerics, and for base64 also capitals,
      the plus sign, the slash and the equals sign *)
  base32_symbols x : Forall (λ b, b ∈ str "0123456789abcdfghijklmnpqrsvwxyz") (enc NIX_BASE32 x);
  hex_symbols x : Forall (λ b, b ∈ str "0123456789abcdef") (enc HEXLOWER_PERMISSIVE x);
  base64_symbols x : Forall (λ b, b ∈ str
    "ABCDEFGHIJKLMNOPQRSTUVWXYZabcdefghijklmnopqrstuvwxyz0123456789+/=") (enc BASE64 x)
}.

(** ** base32.rs *)

Section base32.
Context `{!DataEncoding}.

(** [(8 * len).div_ceil(5)]. *)
Definition encode_len (len : nat) : nat := (8 * len + 4) / 5.

Definition decode_len_internal (len : nat) : nat * nat :=
  let trail := len * 5 mod 8 in (len - trail / 5, 5 * len / 8).

Definition decode_len (len : nat) : res DecodePartial nat :=
  let '(ilen, olen) := decode_len_internal len in
  if decide (ilen = len) then Ok olen else Panic.

Definition encode_string (input : bytes) : bytes := rev (enc NIX_BASE32 input).

Definition encode_mut (input : bytes) (out : nat) : res DecodePartial bytes :=
  @rev byte <$> enc_encode_mut NIX_BASE32 input out.

(** The position of an error is mirrored; the subtraction can underflow. *)
Definition mirror (len : nat) (err : DecodePartial) : res DecodePartial bytes :=
  if decide (position (dp_error err) + 1 ≤ len) then
    let adjusted_pos := len - position (dp_error err) - 1 in
    Err (mk_partial (adjusted_pos / 8 * 8) (adjusted_pos / 8 * 5)
           (mk_decode_error adjusted_pos (kind (dp_error err))))
  else Panic.

Definition decode_mut (input : bytes) (out : nat) : res DecodePartial bytes :=
  match enc_decode_mut NIX_BASE32 (rev input) out with
  | Ok x => Ok x
  | Err err => mirror (length input) err
  | Panic => Panic
  end.

(** ** lib.rs *)

Inductive Base : Type := Hex | NixBase32 | Base64.

#[export] Instance Base_eq_dec : EqDecision Base.
Proof. solve_decision. Defined.

(** [((4 * len / 3) + 3) & !3]. *)
Definition base64_len (len : nat) : nat :=
  Z.to_nat (Z.land (4 * Z.of_nat len / 3 + 3) (Z.lnot 3)).

Definition input_len (b : Base) (decoded_size : nat) : nat :=
  match b with
  | Hex => decoded_size * 2
  | NixBase32 => encode_len decoded_size
  | Base64 => base64_len decoded_size
  end.

Definition scratch_len (b : Base) (decoded_size : nat) : nat :=
  match b with
  | Hex | NixBase32 => decoded_size
  | Base64 => base64_len decoded_size / 4 * 3
  end.

Definition decode_for_base (b : Base) (input : bytes) (out : nat) : res DecodePartial bytes :=
  match b with
  | Hex => enc_decode_mut HEXLOWER_PERMISSIVE input out
  | NixBase32 => decode_mut input out
  | Base64 => enc_decode_mut BASE64 input out
  end.

Definition encode_for_base (b : Base) (input : bytes) (out : nat) : res DecodePartial bytes :=
  match b with
  | Hex => enc_encode_mut HEXLOWER_PERMISSIVE input out
  | NixBase32 => encode_mut input out
  | Base64 => enc_encode_mut BASE64 input out
  end.

(** The names [Base] is printed and read with. *)
Definition Base_to_string (b : Base) : bytes :=
  str match b with Hex => "base16" | NixBase32 => "nixbase32" | Base64 => "base64" end.

Definition Base_deserialize (s : bytes) : option Base :=
  if decide (s = str "base16") then Some Hex
  else if decide (s = str "base64") then Some Base64
  else if decide (s = str "nix32" ∨ s = str "nixbase32") then Some NixBase32
  else None.
End base32.

(** ** Lengths *)

Lemma land_lnot_3 z : Z.land z (Z.lnot 3) = (4 * (z / 4))%Z.
Proof.
  rewrite <-Z.ldiff_land. change 3%Z with (Z.ones 2).
  rewrite Z.ldiff_ones_r by lia. rewrite Z.shiftl_mul_pow2, Z.shiftr_div_pow2 by lia.
  change (2 ^ 2)%Z with 4%Z. lia.
Qed.

Lemma base64_len_eq n : base64_len n = 4 * ((n + 2) / 3).
Proof.
  unfold base64_len. rewrite land_lnot_3. apply Nat2Z.inj.
  rewrite Nat2Z.inj_mul, Nat2Z.inj_div, Nat2Z.inj_add. change (Z.of_nat 4) with 4%Z.
  change (Z.of_nat 3) with 3%Z. change (Z.of_nat 2) with 2%Z.
  rewrite Z2Nat.id; Z.to_euclidean_division_equations; lia.
Qed.

Lemma encode_len_decode n : decode_len (encode_len n) = Ok n.
Proof.
  unfold decode_len, decode_len_internal, encode_len.
  assert (8 * n ≤ 5 * ((8 * n + 4) / 5) ≤ 8 * n + 4) as H.
  { pose proof (Nat.div_mod_eq (8 * n + 4) 5). pose proof (Nat.mod_upper_bound (8 * n + 4) 5). lia. }
  set (len := (8 * n + 4) / 5) in *.
  assert (5 * len / 8 = n ∧ len * 5 mod 8 < 5) as [-> Ht].
  { rewrite (Nat.mul_comm len 5). pose proof (Nat.div_mod_eq (5 * len) 8).
    pose proof (Nat.mod_upper_bound (5 * len) 8). lia. }
  rewrite (Nat.div_small (len * 5 mod 8)) by lia. rewrite Nat.sub_0_r. by rewrite decide_True.
Qed.

(** ** Round trips *)

Section laws.
Context `{!DataEncoding, !DataEncodingLaws}.

(** The text [encode_for_base] writes. *)
Definition encoded (b : Base) (x : bytes) : bytes :=
  match b with
  | Hex => enc HEXLOWER_PERMISSIVE x
  | NixBase32 => rev (enc NIX_BASE32 x)
  | Base64 => enc BASE64 x
  end.

Lemma length_encoded b x : length (encoded b x) = input_len b (length x).
Proof.
  destruct b; cbn; rewrite ?length_rev.
  - rewrite (law_enc_length _ hex_laws), hex_enc_len. lia.
  - by rewrite (law_enc_length _ base32_laws), base32_enc_len.
  - by rewrite (law_enc_length _ base64_laws), base64_enc_len, base64_len_eq.
Qed.

Lemma encode_for_base_eq b x : encode_for_base b x (input_len b (length x)) = Ok (encoded b x).
Proof.
  destruct b; unfold encode_for_base, encode_mut, enc_encode_mut, input_len, encoded.
  - rewrite hex_enc_len. by rewrite decide_True by lia.
  - rewrite base32_enc_len. by rewrite decide_True.
  - rewrite base64_enc_len, base64_len_eq. by rewrite decide_True.
Qed.

Lemma dec_len_hex n : dec_len HEXLOWER_PERMISSIVE (n * 2) = Ok n.
Proof. by rewrite Nat.mul_comm, hex_dec_len. Qed.

Lemma dec_len_base64 n : dec_len BASE64 (base64_len n) = Ok (base64_len n / 4 * 3).
Proof.
  rewrite base64_len_eq, base64_dec_len. f_equal.
  rewrite (Nat.mul_comm 4), Nat.div_mul by lia. lia.
Qed.

(** On an input of the right length nothing panics, and the error, if there
    is one, is inside the input. *)
Lemma decode_for_base_total b n s :
  length s = input_len b n →
  match decode_for_base b s (scratch_len b n) with
  | Ok x => length x ≤ scratch_len b n
  | Err p => position (dp_error p) < length s
  | Panic => False
  end.
Proof.
  intros Hl. destruct b; unfold decode_for_base, decode_mut, enc_decode_mut, input_len, scratch_len in *.
  - rewrite Hl, dec_len_hex, decide_True by done.
    destruct (dec HEXLOWER_PERMISSIVE s) as [x|p|] eqn:E.
    + apply (law_dec_length _ hex_laws s); [done|]. by rewrite Hl, dec_len_hex.
    + rewrite <-Hl. by apply (law_dec_error _ hex_laws).
    + by apply (law_dec_no_panic _ hex_laws) in E.
  - rewrite length_rev, Hl. unfold encode_len. rewrite base32_dec_len, decide_True by done.
    destruct (dec NIX_BASE32 (rev s)) as [x|p|] eqn:E.
    + apply (law_dec_length _ base32_laws (rev s)); [done|]. rewrite length_rev, Hl. apply base32_dec_len.
    + apply (law_dec_error _ base32_laws) in E. rewrite length_rev, Hl in E. unfold encode_len in E.
      unfold mirror. rewrite decide_True by lia. cbn [dp_error position]. lia.
    + by apply (law_dec_no_panic _ base32_laws) in E.
  - rewrite Hl, dec_len_base64, decide_True by done.
    destruct (dec BASE64 s) as [x|p|] eqn:E.
    + apply (law_dec_length _ base64_laws s); [done|]. by rewrite Hl, dec_len_base64.
    + rewrite <-Hl. by apply (law_dec_error _ base64_laws).
    + by apply (law_dec_no_panic _ base64_laws) in E.
Qed.

Lemma decode_encoded b x : decode_for_base b (encoded b x) (scratch_len b (length x)) = Ok x.
Proof.
  pose proof (length_encoded b x) as Hl.
  destruct b; unfold decode_for_base, decode_mut, enc_decode_mut, scratch_len; cbn [encoded] in *;
    rewrite ?rev_involutive.
  - rewrite Hl. cbn [input_len]. rewrite dec_len_hex, decide_True by done. apply (law_dec_enc _ hex_laws).
  - rewrite length_rev in Hl. rewrite Hl. cbn [input_len]. unfold encode_len.
    rewrite base32_dec_len, decide_True by done. by rewrite (law_dec_enc _ base32_laws).
  - rewrite Hl. cbn [input_len]. rewrite dec_len_base64, decide_True by done.
    apply (law_dec_enc _ base64_laws).
Qed.

(** Decoding accepts one text per value, but for the case of base16 and the
    padding inside base64. *)
Lemma encoded_decode b s n x :
  b ≠ Base64 → decode_for_base b s n = Ok x →
  encoded b x = match b with Hex => map to_ascii_lowercase s | _ => s end.
Proof.
  intros Hb. destruct b; [| |done]; unfold decode_for_base, decode_mut, enc_decode_mut; cbn [encoded].
  - destruct (dec_len _ _); try done. case_decide; [|done]. apply hex_canonical.
  - destruct (dec_len _ _); try done. case_decide; [|done].
    destruct (dec NIX_BASE32 (rev s)) as [y|p|] eqn:E; try done.
    + intros [= ->]. rewrite (base32_canonical _ _ E). apply rev_involutive.
    + unfold mirror. by case_decide.
Qed.
End laws.
