(* ===== verification/Codecs.v ===== *)
(** A concrete [DataEncoding]: base32 (least significant bits first), base16
    and base64 as the package [data_encoding] documents them, and the proof
    that they keep the promises of [DataEncodingLaws]. The theorems on hashes
    and store paths are stated for any package that keeps them; their
    witnesses are evaluated with this one. *)

From stdpp Require Import base list numbers strings.
From Stdlib Require Import ZArith Lia ZifyNat Strings.Byte.
From S2P Require Import Prelude BaseEncoding.

(** ** Symbols *)

Section symbols.
Context (al : bytes) (Hal : NoDup al).

Definition sym (d : Z) : byte := default x00 (al !! Z.to_nat d).

Definition val (b : byte) : option Z := Z.of_nat ∘ fst <$> list_find (b =.) al.

Definition vals (s : bytes) : option (list Z) := mapM val s.

Definition in_range (d : Z) : Prop := (0 ≤ d < Z.of_nat (length al))%Z.

Lemma val_Some b d : val b = Some d ↔ in_range d ∧ sym d = b.
Proof using Hal.
  unfold val, sym, in_range. rewrite fmap_Some. split.
  - intros ([i y] & (Hi & <- & _)%list_find_Some & ->). cbn.
    rewrite Nat2Z.id, Hi. split; [|done]. apply lookup_lt_Some in Hi. lia.
  - intros [Hd Hs]. destruct (lookup_lt_is_Some_2 al (Z.to_nat d)) as [c Hc]; [lia|].
    rewrite Hc in Hs. cbn in Hs. subst c. exists (Z.to_nat d, b). split; [|cbn; lia].
    apply list_find_Some. split; [done|]. split; [done|].
    intros j y Hj Hlt <-. pose proof (NoDup_lookup _ _ _ _ Hal Hj Hc). lia.
Qed.

Lemma vals_Some s ds : vals s = Some ds ↔ Forall in_range ds ∧ sym <$> ds = s.
Proof using Hal.
  unfold vals. rewrite mapM_Some. split.
  - induction 1 as [|b d s ds [? <-]%val_Some _ [? <-]]; [done|]. split; [by constructor|done].
  - intros [HF <-]. induction HF; cbn; constructor; [|done]. by apply val_Some.
Qed.

Lemma length_vals s ds : vals s = Some ds → length ds = length s.
Proof using Hal. intros [_ <-]%vals_Some. by rewrite length_fmap. Qed.

Lemma sym_elem d : in_range d → sym d ∈ al.
Proof using Type.
  intros Hd. unfold sym. destruct (al !! Z.to_nat d) as [c|] eqn:E; cbn.
  - by eapply list_elem_of_lookup_2.
  - apply lookup_ge_None in E. destruct Hd. lia.
Qed.

(** ** Groups

    [k] bytes as [m] symbols, most significant first; the last symbol of a
    short group is filled up with zero bits, a factor [s]. *)

Abbreviation B := (Z.of_nat (length al)).

Definition group_enc (m : nat) (s : Z) (l : bytes) : bytes :=
  sym <$> rev (to_digits B m (s * from_le_bytes (rev l))).

Definition group_dec (k : nat) (s : Z) (cs : bytes) : option bytes :=
  ds ← vals cs;
  let v := from_digits B (rev ds) in
  if decide (v mod s = 0)%Z then Some (rev (to_le_bytes k (v / s))) else None.

Lemma length_group_enc m s l : length (group_enc m s l) = m.
Proof using Type. unfold group_enc. by rewrite length_fmap, length_rev, length_to_digits. Qed.

Lemma group_enc_symbols m s l : (1 < B)%Z → Forall (.∈ al) (group_enc m s l).
Proof using Type.
  intros HB. unfold group_enc. apply Forall_fmap, Forall_rev.
  eapply Forall_impl; [by apply to_digits_range|]. intros d Hd. by apply sym_elem.
Qed.

Lemma group_dec_enc m s l :
  (1 < B)%Z → (0 < s)%Z → (256 ^ Z.of_nat (length l) * s ≤ B ^ Z.of_nat m)%Z →
  group_dec (length l) s (group_enc m s l) = Some l.
Proof using Hal.
  intros HB Hs Hm. pose proof (from_le_bytes_range (rev l)) as Hv. rewrite length_rev in Hv.
  unfold group_dec, group_enc. set (ds := to_digits _ _ _).
  assert (vals (sym <$> rev ds) = Some (rev ds)) as ->.
  { apply vals_Some. split; [|done]. apply Forall_rev. by apply to_digits_range. }
  cbn. rewrite rev_involutive. unfold ds. rewrite from_to_digits by (done || nia).
  rewrite (Z.mul_comm s), Z.mod_mul, Z.div_mul by lia. rewrite decide_True by done.
  rewrite <-(length_rev l), to_from_le_bytes. by rewrite rev_involutive.
Qed.

Lemma group_enc_dec k m cs l :
  (1 < B)%Z → (B ^ Z.of_nat m = 256 ^ Z.of_nat k)%Z → length cs = m →
  group_dec k 1 cs = Some l → group_enc m 1 l = cs ∧ length l = k.
Proof using Hal.
  intros HB Hm Hl. unfold group_dec. destruct (vals cs) as [ds|] eqn:Ev; [|done]. cbn.
  rewrite Z.mod_1_r, Z.div_1_r, decide_True by done. intros [= <-].
  rewrite length_rev, length_to_le_bytes. split; [|done].
  pose proof (length_vals _ _ Ev) as Hd. apply vals_Some in Ev as [HF <-].
  assert (Forall (λ d, 0 ≤ d < B)%Z (rev ds)) as HF' by by apply Forall_rev.
  pose proof (from_digits_range B HB _ HF') as Hr. rewrite length_rev, Hd, Hl, Hm in Hr.
  unfold group_enc. rewrite rev_involutive, Z.mul_1_l, from_to_le_bytes by done.
  rewrite <-Hl, <-Hd, <-(length_rev ds), to_from_digits by done. by rewrite rev_involutive.
Qed.

Lemma group_dec_length k s cs l : group_dec k s cs = Some l → length l = k.
Proof using Type.
  unfold group_dec. destruct (vals cs); cbn; [|done]. case_decide; [|done].
  intros [= <-]. by rewrite length_rev, length_to_le_bytes.
Qed.
End symbols.

(** ** The three encodings *)

Definition ALPHABET32 : bytes := str "0123456789abcdfghijklmnpqrsvwxyz".
Definition ALPHABET16 : bytes := str "0123456789abcdef".
Definition ALPHABET64 : bytes :=
  str "ABCDEFGHIJKLMNOPQRSTUVWXYZabcdefghijklmnopqrstuvwxyz0123456789+/".

Definition bad (k : DecodeKind) : DecodePartial := mk_partial 0 0 (mk_decode_error 0 k).

Definition of_option (o : option bytes) : res DecodePartial bytes :=
  match o with Some x => Ok x | None => Err (bad KSymbol) end.

Definition b32_enc (x : bytes) : bytes :=
  sym ALPHABET32 <$> to_digits 32 (encode_len (length x)) (from_le_bytes x).

Definition b32_dec (s : bytes) : option bytes :=
  let n := 5 * length s / 8 in
  if decide (encode_len n = length s) then
    ds ← vals ALPHABET32 s;
    let v := from_digits 32 ds in
    if decide (v < 256 ^ Z.of_nat n)%Z then Some (to_le_bytes n v) else None
  else None.

Definition b16_enc (x : bytes) : bytes := x ≫= λ b, group_enc ALPHABET16 2 1 [b].

Fixpoint b16_dec (s : bytes) : option bytes :=
  match s with
  | [] => Some []
  | a :: b :: s =>
      l ← group_dec ALPHABET16 1 1 [to_ascii_lowercase a; to_ascii_lowercase b];
      r ← b16_dec s;
      Some (l ++ r)
  | _ => None
  end.

Fixpoint b64_enc (x : bytes) : bytes :=
  match x with
  | a :: b :: c :: x => group_enc ALPHABET64 4 1 [a; b; c] ++ b64_enc x
  | [a; b] => group_enc ALPHABET64 3 4 [a; b] ++ str "="
  | [a] => group_enc ALPHABET64 2 16 [a] ++ str "=="
  | [] => []
  end.

Definition b64_block (a b c d : byte) : option bytes :=
  if decide (d = "="%byte) then
    if decide (c = "="%byte) then group_dec ALPHABET64 1 16 [a; b]
    else group_dec ALPHABET64 2 4 [a; b; c]
  else group_dec ALPHABET64 3 1 [a; b; c; d].

Fixpoint b64_dec (s : bytes) : option bytes :=
  match s with
  | [] => Some []
  | a :: b :: c :: d :: s => l ← b64_block a b c d; r ← b64_dec s; Some (l ++ r)
  | _ => None
  end.

Definition len_error : DecodeError := mk_decode_error 0 KLength.

#[export] Instance data_encoding : DataEncoding := {|
  NIX_BASE32 := {| enc_len := encode_len;
    dec_len n := if decide (encode_len (5 * n / 8) = n) then Ok (5 * n / 8) else Err len_error;
    enc := b32_enc; dec s := of_option (b32_dec s) |};
  HEXLOWER_PERMISSIVE := {| enc_len n := 2 * n;
    dec_len n := if decide (n mod 2 = 0) then Ok (n / 2) else Err len_error;
    enc := b16_enc; dec s := of_option (b16_dec s) |};
  BASE64 := {| enc_len n := 4 * ((n + 2) / 3);
    dec_len n := if decide (n mod 4 = 0) then Ok (3 * (n / 4)) else Err len_error;
    enc := b64_enc; dec s := of_option (b64_dec s) |}
|}.

(** ** The laws *)

Lemma alphabet32 : NoDup ALPHABET32 ∧ length ALPHABET32 = 32.
Proof. split; [by apply (bool_decide_unpack _); vm_compute|done]. Qed.

Lemma alphabet16 : NoDup ALPHABET16 ∧ length ALPHABET16 = 16.
Proof. split; [by apply (bool_decide_unpack _); vm_compute|done]. Qed.

Lemma alphabet64 : NoDup ALPHABET64 ∧ length ALPHABET64 = 64.
Proof. split; [by apply (bool_decide_unpack _); vm_compute|done]. Qed.

Lemma encode_len_inv n : 5 * encode_len n / 8 = n.
Proof. unfold encode_len. zify; Z.to_euclidean_division_equations; lia. Qed.

Lemma b32_bits n : (256 ^ Z.of_nat n ≤ 32 ^ Z.of_nat (encode_len n))%Z.
Proof.
  change 256%Z with (2 ^ 8)%Z. change 32%Z with (2 ^ 5)%Z. rewrite <-!Z.pow_mul_r by lia.
  apply Z.pow_le_mono_r; [lia|]. unfold encode_len. zify; Z.to_euclidean_division_equations; lia.
Qed.

Lemma b32_dec_enc x : b32_dec (b32_enc x) = Some x.
Proof.
  destruct alphabet32 as [Hal Hn]. unfold b32_dec, b32_enc. set (ds := to_digits _ _ _).
  assert (length ds = encode_len (length x)) as Hl by apply length_to_digits.
  rewrite !length_fmap, Hl, encode_len_inv, decide_True by done.
  assert (vals ALPHABET32 (sym ALPHABET32 <$> ds) = Some ds) as ->.
  { apply vals_Some; [done|]. split; [|done]. by apply to_digits_range. }
  cbn [mbind option_bind]. pose proof (from_le_bytes_range x). pose proof (b32_bits (length x)).
  unfold ds. rewrite from_to_digits by lia. rewrite decide_True by lia. by rewrite to_from_le_bytes.
Qed.

Lemma b32_enc_dec s x : b32_dec s = Some x → b32_enc x = s ∧ length x = 5 * length s / 8.
Proof.
  destruct alphabet32 as [Hal Hn]. unfold b32_dec. set (n := 5 * length s / 8).
  destruct (decide (encode_len n = length s)) as [He|]; [|done].
  destruct (vals ALPHABET32 s) as [ds|] eqn:Ev; [|done]. cbn [mbind option_bind].
  destruct (decide _) as [Hlt|]; [|done]. intros [= <-].
  pose proof (length_vals _ Hal _ _ Ev) as Hd. apply vals_Some in Ev as [HF <-]; [|done].
  pose proof (from_digits_range 32 ltac:(lia) ds HF) as Hr.
  unfold b32_enc. rewrite length_to_le_bytes, from_to_le_bytes by lia. split; [|done].
  f_equal. rewrite He, <-Hd. apply to_from_digits; [lia|done].
Qed.

Lemma b16_dec_enc x : b16_dec (b16_enc x) = Some x.
Proof.
  destruct alphabet16 as [Hal Hn]. induction x as [|b x IH]; [done|].
  unfold b16_enc. cbn [mbind list_bind]. fold (b16_enc x).
  pose proof (group_enc_symbols ALPHABET16 2 1 [b] ltac:(by vm_compute)) as HF.
  pose proof (group_dec_enc ALPHABET16 Hal 2 1 [b] ltac:(by vm_compute) ltac:(lia) ltac:(by vm_compute)) as Hg.
  pose proof (length_group_enc ALPHABET16 2 1 [b]) as Hl.
  destruct (group_enc _ _ _ _) as [|u [|v [|]]]; try done. cbn [app b16_dec].
  assert (∀ c, c ∈ ALPHABET16 → to_ascii_lowercase c = c) as Hlow.
  { apply Forall_forall. repeat constructor. }
  apply Forall_cons in HF as [Hu HF]. apply Forall_cons in HF as [Hv _].
  rewrite (Hlow u Hu), (Hlow v Hv). cbn [length] in Hg. rewrite Hg. cbn. by rewrite IH.
Qed.

Lemma b16_enc_dec s x :
  b16_dec s = Some x → b16_enc x = map to_ascii_lowercase s ∧ 2 * length x = length s.
Proof.
  destruct alphabet16 as [Hal Hn]. revert x.
  induction s as [s IH] using (induction_ltof1 _ length); unfold ltof in IH.
  destruct s as [|a [|b s]]; intros x; [by intros [= <-]|done|]. cbn [b16_dec].
  destruct (group_dec _ _ _ _) as [l|] eqn:Eg; [|done]. cbn [mbind option_bind].
  destruct (b16_dec s) as [r|] eqn:Er; [|done]. cbn. intros [= <-].
  apply (group_enc_dec ALPHABET16 Hal 1 2) in Eg as [Eg Hl]; [|by vm_compute..].
  destruct (IH s ltac:(cbn; lia) r Er) as [Hr Hlen].
  destruct l as [|c [|]]; try done. cbn [app map length]. unfold b16_enc in *.
  cbn [mbind list_bind]. rewrite Eg, Hr. split; [done|lia].
Qed.

Lemma b16_dec_lower s : b16_dec (map to_ascii_lowercase s) = b16_dec s.
Proof.
  induction s as [s IH] using (induction_ltof1 _ length); unfold ltof in IH.
  destruct s as [|a [|b s]]; [done..|]. cbn [map b16_dec].
  rewrite !to_ascii_lowercase_idem, IH by (cbn; lia). done.
Qed.

Lemma b16_enc_fmt x : b16_enc x = x ≫= fmt_02x.
Proof. unfold b16_enc. induction x as [|b x IH]; [done|]. cbn [mbind list_bind]. f_equal; [by destruct b|done]. Qed.

Lemma b64_groups k m s l :
  length l = k → (0 < s)%Z → (256 ^ Z.of_nat k * s = 64 ^ Z.of_nat m)%Z →
  group_dec ALPHABET64 k s (group_enc ALPHABET64 m s l) = Some l ∧
  length (group_enc ALPHABET64 m s l) = m ∧
  Forall (λ c, c ≠ "="%byte) (group_enc ALPHABET64 m s l).
Proof.
  destruct alphabet64 as [Hal Hn]. intros <- Hs Hm. repeat split.
  - apply (group_dec_enc _ Hal); [done|done|]. rewrite Hn. apply Z.eq_le_incl, Hm.
  - apply length_group_enc.
  - eapply Forall_impl; [by apply group_enc_symbols; vm_compute|]. intros c Hc ->. revert Hc.
    apply (bool_decide_unpack _). by vm_compute.
Qed.

Lemma b64_dec_enc x : b64_dec (b64_enc x) = Some x.
Proof.
  induction x as [x IH] using (induction_ltof1 _ length); unfold ltof in IH.
  destruct x as [|a [|b [|c x]]]; [done| | |]; cbn [b64_enc].
  - destruct (b64_groups 1 2 16 [a]) as (Hg & Hl & HF); [done..|].
    destruct (group_enc _ _ _ _) as [|u [|v [|]]]; try done.
    cbn [app b64_dec str b64_block]. cbn. unfold b64_block. rewrite !decide_True by done.
    by rewrite Hg.
  - destruct (b64_groups 2 3 4 [a; b]) as (Hg & Hl & HF); [done..|].
    destruct (group_enc _ _ _ _) as [|u [|v [|w [|]]]]; try done. rewrite !Forall_cons in HF.
    cbn. unfold b64_block. rewrite decide_True, decide_False by (done || tauto). by rewrite Hg.
  - destruct (b64_groups 3 4 1 [a; b; c]) as (Hg & Hl & HF); [done..|].
    destruct (group_enc _ _ _ _) as [|u [|v [|w [|y [|]]]]]; try done. rewrite !Forall_cons in HF.
    cbn [app b64_dec]. unfold b64_block. rewrite decide_False by tauto. rewrite Hg. cbn [mbind option_bind].
    rewrite IH by (cbn; lia). done.
Qed.

Lemma b64_dec_length s x : b64_dec s = Some x → 4 * length x ≤ 3 * length s.
Proof.
  revert x. induction s as [s IH] using (induction_ltof1 _ length); unfold ltof in IH.
  destruct s as [|a [|b [|c [|d s]]]]; intros x; [by intros [= <-]|done..|]. cbn [b64_dec].
  destruct (b64_block a b c d) as [l|] eqn:Eg; [|done]. cbn [mbind option_bind].
  destruct (b64_dec s) as [r|] eqn:Er; [|done]. cbn [mbind option_bind]. intros [= <-].
  apply IH in Er; [|cbn; lia]. rewrite length_app. cbn [length].
  assert (length l ≤ 3); [|lia].
  unfold b64_block in Eg. repeat case_decide; apply group_dec_length in Eg; lia.
Qed.

Lemma b64_enc_shape x :
  length (b64_enc x) = 4 * ((length x + 2) / 3) ∧
  Forall (λ b, b ∈ str "ABCDEFGHIJKLMNOPQRSTUVWXYZabcdefghijklmnopqrstuvwxyz0123456789+/=") (b64_enc x).
Proof.
  set (al := str _).
  assert (∀ m s l, Forall (.∈ al) (group_enc ALPHABET64 m s l)) as Hg.
  { intros. eapply Forall_impl; [by apply group_enc_symbols; vm_compute|]. intros c Hc.
    change al with (ALPHABET64 ++ str "="). apply elem_of_app. by left. }
  assert (Forall (.∈ al) (str "==")) as Hp
    by (repeat constructor; by apply (bool_decide_unpack _); vm_compute).
  assert (Forall (.∈ al) (str "=")) as Hp1 by by apply (Forall_cons_1 (.∈ al)) in Hp as [_ Hp].
  induction x as [x IH] using (induction_ltof1 _ length); unfold ltof in IH.
  destruct x as [|a [|b [|c x]]]; cbn [b64_enc]; rewrite ?length_app, ?length_group_enc.
  - split; [done|constructor].
  - split; [done|]. by apply Forall_app.
  - split; [done|]. by apply Forall_app.
  - destruct (IH x) as [Hl HF]; [cbn; lia|]. split; [|by apply Forall_app].
    rewrite Hl. cbn [length]. replace (S (S (S (length x))) + 2) with (length x + 2 + 1 * 3) by lia.
    rewrite Nat.div_add by lia. lia.
Qed.

Lemma of_option_laws e el de dl :
  de [] = Some [] →
  (∀ x, length (e x) = el (length x)) → (∀ x, de (e x) = Some x) →
  (∀ s x n, de s = Some x → dl (length s) = Ok n → length x ≤ n) → (∀ n, dl n ≠ Panic) →
  encoding_laws {| enc_len := el; dec_len := dl; enc := e; dec s := of_option (de s) |}.
Proof.
  intros Hnil Hl Hd Hn Hp. constructor; cbn.
  - done.
  - intros x. by rewrite Hd.
  - intros s p. destruct (de s) eqn:E; [done|]. cbn. intros [= <-]. cbn.
    destruct s; [by rewrite Hnil in E|cbn; lia].
  - intros s. by destruct (de s).
  - done.
  - intros s x n. destruct (de s) eqn:E; [|done]. intros [= ->]. by apply Hn.
Qed.

Lemma of_option_Ok o x : of_option o = Ok x → o = Some x.
Proof. destruct o; [by intros [= ->]|done]. Qed.

#[export] Instance data_encoding_laws : DataEncodingLaws.
Proof.
  constructor.
  - apply of_option_laws; [done| |apply b32_dec_enc| |by intros n; case_decide].
    + intros x. unfold b32_enc. by rewrite length_fmap, length_to_digits.
    + intros s x n [_ ->]%b32_enc_dec. case_decide; [|done]. intros [= <-]. done.
  - apply of_option_laws; [done| |apply b16_dec_enc| |by intros n; case_decide].
    + intros x. unfold b16_enc. induction x as [|b x IH]; [done|]. cbn [mbind list_bind].
      rewrite length_app, IH, length_group_enc. cbn. lia.
    + intros s x n [_ Hx]%b16_enc_dec. case_decide; [|done]. intros Hn.
      assert (n = length s / 2) as -> by congruence. pose proof (Nat.div_mod_eq (length s) 2). lia.
  - apply of_option_laws; [done| |apply b64_dec_enc| |by intros n; case_decide].
    + intros x. apply b64_enc_shape.
    + intros s x n H%b64_dec_length. case_decide; [|done]. intros Hn.
      assert (n = 3 * (length s / 4)) as -> by congruence.
      pose proof (Nat.div_mod_eq (length s) 4). lia.
  - intros s x H%of_option_Ok. by apply b32_enc_dec.
  - intros s x H%of_option_Ok. by apply b16_enc_dec.
  - done.
  - apply b16_enc_fmt.
  - intros s. cbn. f_equal. apply b16_dec_lower.
  - done.
  - done.
  - done.
  - intros n. cbn [dec_len NIX_BASE32 data_encoding]. fold (encode_len n).
    rewrite encode_len_inv. by rewrite decide_True.
  - intros n. cbn [dec_len HEXLOWER_PERMISSIVE data_encoding].
    rewrite Nat.mul_comm, Nat.Div0.mod_mul, Nat.div_mul by lia. done.
  - intros n. cbn [dec_len BASE64 data_encoding].
    rewrite Nat.mul_comm, Nat.Div0.mod_mul, Nat.div_mul by lia. done.
  - intros x. destruct alphabet32 as [Hal Hn]. cbn. unfold b32_enc. apply Forall_fmap.
    eapply Forall_impl; [by apply to_digits_range|]. intros d Hd. by apply sym_elem.
  - intros x. cbn. unfold b16_enc. induction x as [|b x IH]; [constructor|]. cbn [mbind list_bind].
    apply Forall_app. split; [by apply group_enc_symbols; vm_compute|done].
  - intros x. apply b64_enc_shape.
Qed.
