(* ===== verification/Hash.v ===== *)
(** Hashes and their text forms ([harmonia-utils-hash/src]): the algorithms,
    [Hash] and [Sha256], parsing and printing as base16, base32, base64 and
    SRI, and the incremental [Context] and [HashSink]. *)

From stdpp Require Import base list numbers strings.
From Stdlib Require Import ZArith Lia Strings.Byte.
From S2P Require Import Prelude BaseEncoding Codecs.

(** ** algo.rs *)

Inductive Algorithm : Type := MD5 | SHA1 | SHA256 | SHA512.

#[export] Instance Algorithm_eq_dec : EqDecision Algorithm.
Proof. solve_decision. Defined.

Definition LARGEST_ALGORITHM : Algorithm := SHA512.

Definition size (a : Algorithm) : nat :=
  match a with MD5 => 16 | SHA1 => 20 | SHA256 => 32 | SHA512 => 64 end.

Definition Algorithm_to_string (a : Algorithm) : bytes :=
  str match a with MD5 => "md5" | SHA1 => "sha1" | SHA256 => "sha256" | SHA512 => "sha512" end.

Record UnknownAlgorithm : Type := mk_unknown { unknown_name : bytes }.

#[export] Instance UnknownAlgorithm_eq_dec : EqDecision UnknownAlgorithm.
Proof. solve_decision. Defined.

Definition Algorithm_from_str (s : bytes) : res UnknownAlgorithm Algorithm :=
  if eq_ignore_ascii_case s (str "sha256") then Ok SHA256
  else if eq_ignore_ascii_case s (str "sha512") then Ok SHA512
  else if eq_ignore_ascii_case s (str "sha1") then Ok SHA1
  else if eq_ignore_ascii_case s (str "md5") then Ok MD5
  else Err (mk_unknown s).

(** ** lib.rs: [Hash] and [Sha256] *)

Record InvalidHashError : Type := mk_invalid_hash { ih_algorithm : Algorithm; ih_length : nat }.

Record Hash : Type := mk_hash { h_algorithm : Algorithm; h_data : bytes }.

Record Sha256 : Type := mk_sha256 { sha256_data : bytes }.

#[export] Instance Hash_eq_dec : EqDecision Hash.
Proof. solve_decision. Defined.
#[export] Instance Sha256_eq_dec : EqDecision Sha256.
Proof. solve_decision. Defined.

(** [Hash::new]: [copy_from_slice] panics unless the lengths agree. *)
Definition Hash_new {E : Type} (algorithm : Algorithm) (hash : bytes) : res E Hash :=
  if decide (length hash = size algorithm) then
    Ok (mk_hash algorithm (hash ++ replicate (size LARGEST_ALGORITHM - size algorithm) x00))
  else Panic.

Definition Hash_from_slice (algorithm : Algorithm) (hash : bytes) : res InvalidHashError Hash :=
  if decide (length hash ≠ size algorithm) then Err (mk_invalid_hash algorithm (length hash))
  else Hash_new algorithm hash.

Definition Hash_digest_bytes (h : Hash) : bytes := take (size (h_algorithm h)) (h_data h).

Definition Sha256_new {E : Type} (digest : bytes) : res E Sha256 :=
  if decide (length digest = size SHA256) then Ok (mk_sha256 digest) else Panic.

Definition Sha256_from_slice (digest : bytes) : res InvalidHashError Sha256 :=
  if decide (length digest ≠ size SHA256) then Err (mk_invalid_hash SHA256 (length digest))
  else Sha256_new digest.

(** ** fmt.rs: errors *)

Inductive Encoding : Type := Sri | NoAlgo (b : Base).

Inductive ParseHashErrorKind : Type :=
| EAlgorithm (a : UnknownAlgorithm)
| NotSRI
| TypeMismatch (expected actual : Algorithm)
| MissingType
| BadEncoding (e : Encoding) (d : DecodeError)
| WrongHashLength (a : Algorithm)
| WrongHashLength2 (a : Algorithm) (len : nat).

Record ParseHashError : Type := mk_parse_error { pe_hash : bytes; pe_kind : ParseHashErrorKind }.

#[export] Instance Encoding_eq_dec : EqDecision Encoding.
Proof. solve_decision. Defined.
#[export] Instance ParseHashErrorKind_eq_dec : EqDecision ParseHashErrorKind.
Proof. solve_decision. Defined.
#[export] Instance ParseHashError_eq_dec : EqDecision ParseHashError.
Proof. solve_decision. Defined.

Definition adjust_position (amt : nat) (k : ParseHashErrorKind) : ParseHashErrorKind :=
  match k with
  | BadEncoding e d => BadEncoding e (mk_decode_error (position d + amt) (kind d))
  | WrongHashLength2 a len => WrongHashLength2 a (len + amt)
  | k => k
  end.

Definition adjust_encoding (encoding : Encoding) (k : ParseHashErrorKind) : ParseHashErrorKind :=
  match k with BadEncoding _ d => BadEncoding encoding d | k => k end.

Definition invalid_to_kind (e : InvalidHashError) : ParseHashErrorKind :=
  WrongHashLength2 (ih_algorithm e) (ih_length e).

(** ** fmt.rs: the trait [CommonHash] and its two implementations *)

Class CommonHash (H : Type) : Type := {
  from_slice : Algorithm → bytes → res ParseHashErrorKind H;
  implied_algorithm : option Algorithm;
  algorithm : H → Algorithm;
  digest_bytes : H → bytes
}.
Arguments implied_algorithm H {_}.

#[export] Instance Hash_CommonHash : CommonHash Hash := {|
  from_slice a hash := map_err invalid_to_kind (Hash_from_slice a hash);
  implied_algorithm := None;
  algorithm := h_algorithm;
  digest_bytes := Hash_digest_bytes
|}.

#[export] Instance Sha256_CommonHash : CommonHash Sha256 := {|
  from_slice a hash :=
    if decide (a ≠ SHA256) then Err (TypeMismatch SHA256 a)
    else map_err invalid_to_kind (Sha256_from_slice hash);
  implied_algorithm := Some SHA256;
  algorithm _ := SHA256;
  digest_bytes := sha256_data
|}.

Definition Sha256_to_Hash {E : Type} (value : Sha256) : res E Hash := Hash_new SHA256 (sha256_data value).

Definition Hash_to_Sha256 (value : Hash) : res ParseHashErrorKind Sha256 :=
  if decide (h_algorithm value ≠ SHA256) then Err (TypeMismatch SHA256 (h_algorithm value))
  else Sha256_new (Hash_digest_bytes value).

(** ** fmt.rs: parsing *)

Section formats.
Context {DE : DataEncoding} {H : Type} {CH : CommonHash H}.

Definition parse_with_base (SCRATCH_SIZE : nat) (a : Algorithm) (s : bytes) (base : Base) :
    res ParseHashError H :=
  if decide (length s ≠ input_len base (size a)) then Err (mk_parse_error s (WrongHashLength a))
  else
    let algo_scratch_size := scratch_len base (size a) in
    if decide (SCRATCH_SIZE < algo_scratch_size) then Panic
    else
      hash ← map_err (λ err, mk_parse_error s (BadEncoding (NoAlgo base) (dp_error err)))
               (decode_for_base base s algo_scratch_size);
      if decide (length hash ≠ size a) then
        Err (mk_parse_error s (BadEncoding (NoAlgo base) (mk_decode_error 0 KLength)))
      else map_err (mk_parse_error s) (from_slice a hash).

(** The implementations of the trait [Format]. *)
Definition Format : Type := Algorithm → bytes → res ParseHashError H.

Definition Base16_parse : Format := λ a s,
  parse_with_base (scratch_len Hex (size LARGEST_ALGORITHM)) a s Hex.

Definition Base32_parse : Format := λ a s,
  parse_with_base (scratch_len NixBase32 (size LARGEST_ALGORITHM)) a s NixBase32.

Definition Base64_parse : Format := λ a s,
  parse_with_base (scratch_len Base64 (size LARGEST_ALGORITHM)) a s Base64.

Definition Any_parse : Format := λ a s,
  if decide (length s = input_len Hex (size a)) then Base16_parse a s
  else if decide (length s = input_len NixBase32 (size a)) then Base32_parse a s
  else if decide (length s = input_len Base64 (size a)) then Base64_parse a s
  else Err (mk_parse_error s (WrongHashLength a)).

Definition NonSRI_parse : Format := λ a s,
  if decide (length s = input_len Hex (size a)) then Base16_parse a s
  else if decide (length s = input_len NixBase32 (size a)) then Base32_parse a s
  else if decide (length s = input_len Base64 (size a)) then Base64_parse a s
  else Err (mk_parse_error s (WrongHashLength a)).

(** [prefix.parse::<Algorithm>()] of a prefix of [s]. *)
Definition parse_algorithm (s prefix : bytes) : res ParseHashError Algorithm :=
  map_err (λ err, mk_parse_error s (EAlgorithm err)) (Algorithm_from_str prefix).

(** The error of the part after [prefix] as an error of [s]. *)
Definition relocate (s prefix : bytes) (err : ParseHashError) : ParseHashError :=
  mk_parse_error s (adjust_position (length prefix + 1) (pe_kind err)).

Definition relocate_sri (s prefix : bytes) (err : ParseHashError) : ParseHashError :=
  mk_parse_error s (adjust_encoding Sri (adjust_position (length prefix + 1) (pe_kind err))).

Definition Base16_from_str (s : bytes) : res ParseHashError H :=
  match split_once ":" s with
  | Some (prefix, rest) =>
      a ← parse_algorithm s prefix; map_err (relocate s prefix) (Base16_parse a rest)
  | None => Err (mk_parse_error s MissingType)
  end.

Definition Base32_from_str (s : bytes) : res ParseHashError H :=
  match split_once ":" s with
  | Some (prefix, rest) =>
      a ← parse_algorithm s prefix; map_err (relocate s prefix) (Base32_parse a rest)
  | None => Err (mk_parse_error s MissingType)
  end.

Definition Base64_from_str (s : bytes) : res ParseHashError H :=
  match split_once ":" s with
  | Some (prefix, rest) =>
      a ← parse_algorithm s prefix; map_err (relocate s prefix) (Base64_parse a rest)
  | None => Err (mk_parse_error s MissingType)
  end.

Definition Any_from_str (s : bytes) : res ParseHashError H :=
  match split_once ":" s with
  | Some (prefix, rest) =>
      a ← parse_algorithm s prefix; map_err (relocate s prefix) (Any_parse a rest)
  | None =>
      match split_once "-" s with
      | Some (prefix, rest) =>
          a ← parse_algorithm s prefix;
          if decide (length rest = input_len Base64 (size a)) then
            map_err (relocate_sri s prefix) (Base64_parse a rest)
          else Err (mk_parse_error s (WrongHashLength a))
      | None =>
          match implied_algorithm H with
          | Some a => Any_parse a s
          | None => Err (mk_parse_error s MissingType)
          end
      end
  end.

Definition SRI_from_str (s : bytes) : res ParseHashError H :=
  match split_once "-" s with
  | Some (prefix, rest) =>
      a ← parse_algorithm s prefix; map_err (relocate_sri s prefix) (Base64_parse a rest)
  | None => Err (mk_parse_error s NotSRI)
  end.

Definition NonSRI_from_str (s : bytes) : res ParseHashError H :=
  match split_once ":" s with
  | Some (prefix, rest) =>
      a ← parse_algorithm s prefix; map_err (relocate s prefix) (NonSRI_parse a rest)
  | None =>
      match implied_algorithm H with
      | Some a => NonSRI_parse a s
      | None => Err (mk_parse_error s MissingType)
      end
  end.

(** [Bare<F>::from_str]. *)
Definition Bare_from_str (F : Format) (s : bytes) : res ParseHashError H :=
  match implied_algorithm H with
  | Some a => F a s
  | None => Err (mk_parse_error s MissingType)
  end.

(** ** fmt.rs: printing

    [alternate] is the flag [#] of a format string, which [Bare] sets. *)

Definition with_algorithm (alternate : bool) (sep : byte) (h : H) (s : bytes) : bytes :=
  if alternate then s else Algorithm_to_string (algorithm h) ++ sep :: s.

Definition Base16_fmt (alternate : bool) (h : H) : bytes :=
  with_algorithm alternate ":" h (digest_bytes h ≫= fmt_02x).

Definition Base32_fmt (alternate : bool) (h : H) : res DecodePartial bytes :=
  let output := input_len NixBase32 (size (algorithm h)) in
  if decide (input_len NixBase32 (size LARGEST_ALGORITHM) < output) then Panic
  else with_algorithm alternate ":" h <$> encode_mut (digest_bytes h) output.

Definition Base64_fmt (alternate : bool) (h : H) : res DecodePartial bytes :=
  let output := input_len Base64 (size (algorithm h)) in
  if decide (input_len Base64 (size LARGEST_ALGORITHM) < output) then Panic
  else with_algorithm alternate ":" h <$> enc_encode_mut BASE64 (digest_bytes h) output.

Definition SRI_fmt (h : H) : res DecodePartial bytes :=
  s ← Base64_fmt true h; Ok (Algorithm_to_string (algorithm h) ++ "-"%byte :: s).
End formats.
Arguments Format H : clear implicits.

(** [LowerHex] and [UpperHex]; those of [Sha256] never print the algorithm. *)
Definition Hash_LowerHex_fmt (alternate : bool) (h : Hash) : bytes :=
  with_algorithm alternate ":" h (digest_bytes h ≫= fmt_02x).

Definition Hash_UpperHex_fmt (alternate : bool) (h : Hash) : bytes :=
  with_algorithm alternate ":" h (digest_bytes h ≫= fmt_02X).

Definition Sha256_LowerHex_fmt (h : Sha256) : bytes := digest_bytes h ≫= fmt_02x.

Definition Sha256_UpperHex_fmt (h : Sha256) : bytes := digest_bytes h ≫= fmt_02X.

(** [Hash::serialize] and [Hash::deserialize]: the SRI form; reading falls
    back to any form. *)
Definition Hash_serialize `{!DataEncoding} (h : Hash) : res DecodePartial bytes := SRI_fmt h.

Definition Hash_deserialize `{!DataEncoding} (s : bytes) : res ParseHashError Hash :=
  or_else (SRI_from_str s) (λ _, Any_from_str s).

(** ** What an implementation of [CommonHash] promises *)

Class CommonHashLaws (H : Type) `{!CommonHash H} : Type := {
  h_wf : H → Prop;
  length_digest h : h_wf h → length (digest_bytes h) = size (algorithm h);
  from_slice_digest h : h_wf h → from_slice (algorithm h) (digest_bytes h) = Ok h;
  from_slice_sound a d : length d = size a →
    match from_slice a d with
    | Ok h => algorithm h = a ∧ digest_bytes h = d ∧ h_wf h
    | Err (BadEncoding _ _) => False
    | Err _ => True
    | Panic => False
    end
}.

(** A [Hash] is its digest, filled up with zeros. *)
Definition Hash_wf (h : Hash) : Prop :=
  ∃ d, length d = size (h_algorithm h) ∧
    h_data h = d ++ replicate (size LARGEST_ALGORITHM - size (h_algorithm h)) x00.

Definition Sha256_wf (h : Sha256) : Prop := length (sha256_data h) = size SHA256.

Lemma Hash_new_digest {E : Type} (a : Algorithm) d :
  length d = size a → ∃ h : Hash, Hash_new (E:=E) a d = Ok h ∧ h_algorithm h = a ∧ Hash_digest_bytes h = d ∧ Hash_wf h.
Proof.
  intros Hd. unfold Hash_new. use_decide. eexists. split; [done|]. split; [done|].
  unfold Hash_digest_bytes. cbn [h_algorithm h_data]. split; [by rewrite <-Hd, take_app_length|].
  by exists d.
Qed.

#[export] Instance Hash_laws : CommonHashLaws Hash.
Proof.
  refine {| h_wf := Hash_wf |}.
  - intros [a data] (d & Hd & Hdata). cbn in *. subst data. unfold Hash_digest_bytes. cbn.
    rewrite <-Hd, take_app_length. done.
  - intros [a data] (d & Hd & Hdata). cbn in *. subst data. unfold Hash_digest_bytes, Hash_from_slice. cbn.
    rewrite <-Hd, take_app_length, decide_False by (rewrite Hd; auto). unfold Hash_new.
    by rewrite decide_True, Hd.
  - intros a d Hd. cbn. unfold Hash_from_slice. use_decide.
    destruct (Hash_new_digest (E:=InvalidHashError) a d Hd) as (h & -> & Ha & Hb & Hwf). done.
Defined.

Lemma Sha256_from_slice_eq d : length d = size SHA256 → Sha256_from_slice d = Ok (mk_sha256 d).
Proof.
  intros Hd. unfold Sha256_from_slice, Sha256_new.
  rewrite (decide_False (P := length d ≠ size SHA256)) by auto. by rewrite decide_True.
Qed.

#[export] Instance Sha256_laws : CommonHashLaws Sha256.
Proof.
  refine {| h_wf := Sha256_wf |}.
  - done.
  - intros [d] Hd. cbn [from_slice Sha256_CommonHash algorithm digest_bytes sha256_data].
    use_decide. by rewrite Sha256_from_slice_eq.
  - intros a d Hd. cbn [from_slice Sha256_CommonHash]. destruct (decide (a ≠ SHA256)) as [|Ha]; [done|].
    apply dec_stable in Ha as ->. by rewrite Sha256_from_slice_eq.
Defined.

Lemma Algorithm_from_to_string a : Algorithm_from_str (Algorithm_to_string a) = Ok a.
Proof. by destruct a. Qed.

Lemma Algorithm_from_str_Ok s a :
  Algorithm_from_str s = Ok a → eq_ignore_ascii_case s (Algorithm_to_string a) = true.
Proof.
  unfold Algorithm_from_str.
  destruct (eq_ignore_ascii_case s (str "sha256")) eqn:?; [by intros [= <-]|].
  destruct (eq_ignore_ascii_case s (str "sha512")) eqn:?; [by intros [= <-]|].
  destruct (eq_ignore_ascii_case s (str "sha1")) eqn:?; [by intros [= <-]|].
  destruct (eq_ignore_ascii_case s (str "md5")) eqn:?; [by intros [= <-]|done].
Qed.

Lemma Algorithm_from_str_no_panic s : Algorithm_from_str s ≠ Panic.
Proof. unfold Algorithm_from_str. by repeat case_match. Qed.

Lemma Algorithm_to_string_plain a :
  (":"%byte ∉ Algorithm_to_string a) ∧ ("-"%byte ∉ Algorithm_to_string a).
Proof. by destruct a; split; apply (bool_decide_unpack _); vm_compute. Qed.

(** ** Proofs on the formats *)

Section proofs.
Context {DE : DataEncoding} {DL : DataEncodingLaws} {H : Type} {CH : CommonHash H} {CL : CommonHashLaws H}.

Abbreviation scratch b := (scratch_len b (size LARGEST_ALGORITHM)).

Lemma scratch_enough b a : scratch_len b (size a) ≤ scratch b.
Proof using Type. destruct b, a; vm_compute; lia. Qed.

Lemma input_enough b a : input_len b (size a) ≤ input_len b (size LARGEST_ALGORITHM).
Proof using Type. destruct b, a; vm_compute; lia. Qed.

Lemma input_len_pos b a : 0 < input_len b (size a).
Proof using Type. destruct b, a; vm_compute; lia. Qed.

(** The position an error names is a position of the text. *)
Definition kind_inside (n : nat) (k : ParseHashErrorKind) : Prop :=
  match k with BadEncoding _ d => position d < n | _ => True end.

Definition sound (s : bytes) (m : res ParseHashError H) : Prop :=
  match m with
  | Ok h => h_wf h
  | Err e => pe_hash e = s ∧ kind_inside (length s) (pe_kind e)
  | Panic => False
  end.

Lemma parse_with_base_encoded b h :
  h_wf h → parse_with_base (scratch b) (algorithm h) (encoded b (digest_bytes h)) b = Ok h.
Proof using DL CL.
  intros Hwf. pose proof (length_digest h Hwf) as Hd. unfold parse_with_base.
  rewrite length_encoded, Hd. use_decide.
  rewrite decide_False by (pose proof (scratch_enough b (algorithm h)); lia).
  rewrite <-Hd, decode_encoded. cbn. use_decide.
  by rewrite from_slice_digest.
Qed.

Lemma parse_with_base_sound b a s :
  sound s (parse_with_base (scratch b) a s b) ∧
  (∀ h, parse_with_base (scratch b) a s b = Ok h →
     algorithm h = a ∧ decode_for_base b s (scratch_len b (size a)) = Ok (digest_bytes h)).
Proof using DL CL.
  unfold parse_with_base. destruct (decide _) as [|Hl]; [done|]. apply dec_stable in Hl.
  destruct (decide _) as [Hs|_]; [pose proof (scratch_enough b a); lia|].
  pose proof (decode_for_base_total b (size a) s Hl) as Ht. pose proof (input_len_pos b a).
  destruct (decode_for_base _ _ _) as [d|p|]; [|done|done]. cbn.
  destruct (decide _) as [|Hd]; [cbn; split; [split; [done|lia]|done]|]. apply dec_stable in Hd.
  pose proof (from_slice_sound a d Hd) as Hf.
  destruct (from_slice a d) as [h|e|]; cbn; [|split; [|done]..].
  - split; [naive_solver|]. intros ? [= <-]. by destruct Hf as (? & -> & _).
  - split; [done|]. by destruct e.
  - done.
Qed.

Lemma sound_relocate s prefix c rest m f :
  s = prefix ++ c :: rest →
  (∀ e, pe_hash (f e) = s ∧ (kind_inside (length rest) (pe_kind e) → kind_inside (length s) (pe_kind (f e)))) →
  sound rest m → sound s (map_err f m).
Proof using Type.
  intros Hs Hf. destruct m as [h|e|]; cbn; [done| |done]. intros [_ Hk].
  destruct (Hf e) as [? Hi]. split; [done|by apply Hi].
Qed.

Lemma relocate_inside s prefix c rest e :
  s = prefix ++ c :: rest →
  pe_hash (relocate s prefix e) = s ∧
  (kind_inside (length rest) (pe_kind e) → kind_inside (length s) (pe_kind (relocate s prefix e))).
Proof using Type.
  intros Hs. split; [done|]. destruct e as [? []]; cbn; auto. intros. rewrite Hs, length_app. cbn. lia.
Qed.

Lemma relocate_sri_inside s prefix c rest e :
  s = prefix ++ c :: rest →
  pe_hash (relocate_sri s prefix e) = s ∧
  (kind_inside (length rest) (pe_kind e) → kind_inside (length s) (pe_kind (relocate_sri s prefix e))).
Proof using Type.
  intros Hs. split; [done|]. destruct e as [? []]; cbn; auto. intros. rewrite Hs, length_app. cbn. lia.
Qed.

Lemma sound_parse_algorithm s prefix (k : Algorithm → res ParseHashError H) :
  (∀ a, sound s (k a)) → sound s (parse_algorithm s prefix ≫= k).
Proof using Type.
  intros Hk. unfold parse_algorithm. pose proof (Algorithm_from_str_no_panic prefix).
  destruct (Algorithm_from_str prefix); cbn; [apply Hk|done|done].
Qed.

Lemma Any_parse_sound a s : sound s (Any_parse a s).
Proof using DL CL. unfold Any_parse. repeat case_decide; [apply parse_with_base_sound..|done]. Qed.
Lemma NonSRI_parse_sound a s : sound s (NonSRI_parse a s).
Proof using DL CL. apply Any_parse_sound. Qed.

Lemma Base_parse_sound b a s : sound s (parse_with_base (scratch b) a s b).
Proof using DL CL. apply parse_with_base_sound. Qed.

Lemma prefixed_sound s c (F : Format H) d :
  (∀ a r, sound r (F a r)) → sound s d →
  sound s match split_once c s with
          | Some (prefix, rest) => parse_algorithm s prefix ≫= λ a, map_err (relocate s prefix) (F a rest)
          | None => d
          end.
Proof using DL CL.
  intros HF Hd. destruct (split_once c s) as [[prefix rest]|] eqn:E; [|done].
  apply split_once_Some in E as [Hs _]. apply sound_parse_algorithm. intros a.
  eapply sound_relocate; [done| |apply HF]. intros e. by eapply relocate_inside.
Qed.

Lemma sri_sound s d (g : Algorithm → bytes → bool) :
  sound s d →
  sound s match split_once "-" s with
          | Some (prefix, rest) => parse_algorithm s prefix ≫= λ a,
              if g a rest then map_err (relocate_sri s prefix) (Base64_parse a rest)
              else Err (mk_parse_error s (WrongHashLength a))
          | None => d
          end.
Proof using DL CL.
  intros Hd. destruct (split_once "-" s) as [[prefix rest]|] eqn:E; [|done].
  apply split_once_Some in E as [Hs _]. apply sound_parse_algorithm. intros a.
  destruct (g a rest); [|done].
  eapply sound_relocate; [done| |apply Base_parse_sound]. intros e. by eapply relocate_sri_inside.
Qed.

Lemma implied_sound s (F : Format H) : (∀ a, sound s (F a s)) → sound s (Bare_from_str F s).
Proof using Type. intros HF. unfold Bare_from_str. destruct (implied_algorithm H); [apply HF|done]. Qed.

Lemma SRI_from_str_sound s : sound s (SRI_from_str s).
Proof using DL CL. by apply (sri_sound s _ (λ _ _, true)). Qed.

Lemma Any_from_str_sound s : sound s (Any_from_str s).
Proof using DL CL.
  apply prefixed_sound; [apply Any_parse_sound|].
  pose proof (sri_sound s (Bare_from_str Any_parse s)
    (λ a rest, bool_decide (length rest = input_len Base64 (size a)))) as Hs.
  unfold bool_decide in Hs. unfold Bare_from_str in Hs.
  destruct (split_once "-" s) as [[prefix rest]|]; [|apply (implied_sound s Any_parse); intros; apply Any_parse_sound].
  specialize (Hs (implied_sound s Any_parse (λ a, Any_parse_sound a s))).
  destruct (Algorithm_from_str prefix) as [a|?|] eqn:E; unfold parse_algorithm in *; rewrite E in *; cbn in *; [|done..].
  by case_decide.
Qed.

(** ** Printing *)

(** The three [Display] and [FromStr] implementations by their base. *)
Definition display (b : Base) (alternate : bool) (h : H) : res DecodePartial bytes :=
  match b with
  | Hex => Ok (Base16_fmt alternate h)
  | NixBase32 => Base32_fmt alternate h
  | Base64 => Base64_fmt alternate h
  end.

Definition parse (b : Base) : Format H :=
  match b with Hex => Base16_parse | NixBase32 => Base32_parse | Base64 => Base64_parse end.

Definition from_str (b : Base) (s : bytes) : res ParseHashError H :=
  match b with
  | Hex => Base16_from_str s
  | NixBase32 => Base32_from_str s
  | Base64 => Base64_from_str s
  end.

Lemma display_eq b alternate h :
  h_wf h → display b alternate h = Ok (with_algorithm alternate ":" h (encoded b (digest_bytes h))).
Proof using DL CL.
  intros Hwf. pose proof (length_digest h Hwf) as Hd. pose proof (input_enough b (algorithm h)) as Hi.
  pose proof (encode_for_base_eq b (digest_bytes h)) as He. rewrite Hd in He.
  destruct b; cbn [display encoded encode_for_base] in *; unfold Base16_fmt, Base32_fmt, Base64_fmt.
  - by rewrite hex_enc.
  - use_decide. by rewrite He.
  - use_decide. by rewrite He.
Qed.

Lemma encoded_plain b d : (":"%byte ∉ encoded b d) ∧ ("-"%byte ∉ encoded b d).
Proof using DL.
  assert (∀ (al : bytes) c, Forall (.∈ al) (encoded b d) → c ∉ al → c ∉ encoded b d) as Hout.
  { intros al c HF Hc Hin. rewrite Forall_forall in HF. by apply Hc, HF. }
  destruct b; cbn [encoded].
  - split; (eapply Hout; [apply hex_symbols|]; by apply (bool_decide_unpack _); vm_compute).
  - split; (eapply Hout; [apply Forall_rev, base32_symbols|]; by apply (bool_decide_unpack _); vm_compute).
  - split; (eapply Hout; [apply base64_symbols|]; by apply (bool_decide_unpack _); vm_compute).
Qed.

Lemma parse_encoded b h : h_wf h → parse b (algorithm h) (encoded b (digest_bytes h)) = Ok h.
Proof using DL CL. intros. destruct b; by apply parse_with_base_encoded. Qed.

Lemma Any_parse_encoded b h : h_wf h → Any_parse (algorithm h) (encoded b (digest_bytes h)) = Ok h.
Proof using DL CL.
  intros Hwf. pose proof (parse_encoded b h Hwf) as Hp.
  pose proof (length_encoded b (digest_bytes h)) as Hl. rewrite (length_digest h Hwf) in Hl.
  unfold Any_parse. rewrite Hl.
  destruct b, (algorithm h); repeat case_decide; try done; exfalso;
    repeat match goal with Hx : input_len _ _ = input_len _ _ |- _ => vm_compute in Hx; discriminate Hx
                         | Hx : input_len _ _ ≠ input_len _ _ |- _ => by destruct Hx end.
Qed.

Lemma parse_algorithm_to_string s a : parse_algorithm s (Algorithm_to_string a) = Ok a.
Proof using Type. unfold parse_algorithm. by rewrite Algorithm_from_to_string. Qed.

Lemma split_prefixed h sep t :
  sep = ":"%byte ∨ sep = "-"%byte →
  split_once sep (with_algorithm false sep h t) = Some (Algorithm_to_string (algorithm h), t).
Proof using Type.
  pose proof (Algorithm_to_string_plain (algorithm h)) as [H1 H2].
  intros [-> | ->]; unfold with_algorithm; by apply split_once_app.
Qed.

Lemma SRI_fmt_eq h :
  h_wf h → SRI_fmt h = Ok (with_algorithm false "-" h (encoded Base64 (digest_bytes h))).
Proof using DL CL.
  intros Hwf. pose proof (display_eq Base64 true h Hwf) as Hd. cbn [display] in Hd.
  unfold SRI_fmt. by rewrite Hd.
Qed.
End proofs.

Section texts.
Context {DE : DataEncoding} {DL : DataEncodingLaws} {H : Type} {CH : CommonHash H} {CL : CommonHashLaws H}.

Lemma NonSRI_from_str_prefixed b h :
  h_wf h → NonSRI_from_str (with_algorithm false ":" h (encoded b (digest_bytes h))) = Ok h.
Proof using DL CL.
  intros Hwf. unfold NonSRI_from_str. rewrite split_prefixed by auto.
  rewrite parse_algorithm_to_string. res_simpl.
  change (NonSRI_parse (algorithm h)) with (Any_parse (algorithm h)). by rewrite Any_parse_encoded.
Qed.

Lemma Any_from_str_prefixed b h :
  h_wf h → Any_from_str (with_algorithm false ":" h (encoded b (digest_bytes h))) = Ok h.
Proof using DL CL.
  intros Hwf. unfold Any_from_str. rewrite split_prefixed by auto.
  rewrite parse_algorithm_to_string. res_simpl. by rewrite Any_parse_encoded.
Qed.

Lemma SRI_from_str_prefixed h :
  h_wf h → SRI_from_str (with_algorithm false "-" h (encoded Base64 (digest_bytes h))) = Ok h.
Proof using DL CL.
  intros Hwf. unfold SRI_from_str. rewrite split_prefixed by auto.
  rewrite parse_algorithm_to_string. res_simpl.
  pose proof (parse_encoded Base64 h Hwf) as Hp. cbn [parse] in Hp. by rewrite Hp.
Qed.

Lemma NonSRI_from_str_sound s : sound s (NonSRI_from_str s).
Proof using DL CL.
  apply (prefixed_sound s ":" NonSRI_parse); [apply NonSRI_parse_sound|].
  apply (implied_sound s NonSRI_parse). intros; apply NonSRI_parse_sound.
Qed.

Lemma hex_inj (x y : bytes) : (x ≫= fmt_02x) = (y ≫= fmt_02x) → x = y.
Proof using DL.
  rewrite <-!hex_enc. intros E. apply (f_equal (dec HEXLOWER_PERMISSIVE)) in E.
  rewrite !(law_dec_enc _ hex_laws) in E. by injection E.
Qed.
End texts.

(** ** Digests

    The packages [ring] and [md5] are parameters: one-shot and incremental
    digests, and their documentation's promises. *)

Inductive RingAlgorithm : Type := SHA1_FOR_LEGACY_USE_ONLY | RING_SHA256 | RING_SHA384 | RING_SHA512.

#[export] Instance RingAlgorithm_eq_dec : EqDecision RingAlgorithm.
Proof. solve_decision. Defined.

Definition ring_output_len (r : RingAlgorithm) : nat :=
  match r with SHA1_FOR_LEGACY_USE_ONLY => 20 | RING_SHA256 => 32 | RING_SHA384 => 48 | RING_SHA512 => 64 end.

Class DigestLib : Type := {
  md5_context : Type;
  md5_new : md5_context;
  md5_consume : md5_context → bytes → md5_context;
  md5_finalize : md5_context → bytes;
  md5_compute : bytes → bytes;
  ring_context : Type;
  ring_new : RingAlgorithm → ring_context;
  ring_update : ring_context → bytes → ring_context;
  ring_finish : ring_context → RingAlgorithm * bytes;
  ring_digest : RingAlgorithm → bytes → RingAlgorithm * bytes
}.

Class DigestLaws `{!DigestLib} : Prop := {
  md5_length x : length (md5_compute x) = 16;
  md5_incremental cs : md5_finalize (foldl md5_consume md5_new cs) = md5_compute (concat cs);
  ring_length r x : length (ring_digest r x).2 = ring_output_len r;
  ring_algorithm r x : (ring_digest r x).1 = r;
  ring_incremental r cs : ring_finish (foldl ring_update (ring_new r) cs) = ring_digest r (concat cs)
}.

Section digest.
Context {DG : DigestLib}.

(** [Algorithm::digest_algorithm]: [unreachable!] for MD5. *)
Definition digest_algorithm {E : Type} (a : Algorithm) : res E RingAlgorithm :=
  match a with
  | SHA1 => Ok SHA1_FOR_LEGACY_USE_ONLY
  | SHA256 => Ok RING_SHA256
  | SHA512 => Ok RING_SHA512
  | MD5 => Panic
  end.

Definition Algorithm_try_from (value : RingAlgorithm) : res UnknownAlgorithm Algorithm :=
  if decide (value = SHA1_FOR_LEGACY_USE_ONLY) then Ok SHA1
  else if decide (value = RING_SHA256) then Ok SHA256
  else if decide (value = RING_SHA512) then Ok SHA512
  else Err (mk_unknown (str "SHA384")).

Definition Hash_try_from (digest : RingAlgorithm * bytes) : res UnknownAlgorithm Hash :=
  a ← Algorithm_try_from digest.1; Hash_new a digest.2.

Definition Algorithm_digest {E : Type} (a : Algorithm) (data : bytes) : res E Hash :=
  match a with
  | MD5 => Hash_new MD5 (md5_compute data)
  | _ => r ← digest_algorithm a; unwrap (Hash_try_from (ring_digest r data))
  end.

Definition Sha256_digest {E : Type} (data : bytes) : res E Sha256 :=
  h ← Algorithm_digest SHA256 data; unwrap (Hash_to_Sha256 h).

Inductive InnerContext : Type := IMD5 (c : md5_context) | IRing (c : ring_context).

Record Context : Type := mk_context { ctx_algorithm : Algorithm; ctx_inner : InnerContext }.

Definition Context_new {E : Type} (a : Algorithm) : res E Context :=
  match a with
  | MD5 => Ok (mk_context a (IMD5 md5_new))
  | _ => r ← digest_algorithm a; Ok (mk_context a (IRing (ring_new r)))
  end.

Definition Context_update (c : Context) (data : bytes) : Context :=
  mk_context (ctx_algorithm c)
    match ctx_inner c with
    | IMD5 m => IMD5 (md5_consume m data)
    | IRing r => IRing (ring_update r data)
    end.

Definition Context_finish {E : Type} (c : Context) : res E Hash :=
  match ctx_inner c with
  | IMD5 m => Hash_new (ctx_algorithm c) (md5_finalize m)
  | IRing r => unwrap (Hash_try_from (ring_finish r))
  end.

(** [HashSink]: the number of bytes written and the context. *)
Definition HashSink : Type := option (Z * Context).

Inductive sink_error : Type := BrokenPipe.

Definition HashSink_new (a : Algorithm) : res sink_error HashSink :=
  c ← Context_new a; Ok (Some (0%Z, c)).

Definition HashSink_poll_write (s : HashSink) (buf : bytes) : res sink_error (nat * HashSink) :=
  match s with
  | None => Err BrokenPipe
  | Some (read, ctx) =>
      Ok (length buf, Some (wrap_u64 (read + Z.of_nat (length buf)), Context_update ctx buf))
  end.

Definition HashSink_finish (s : HashSink) : res sink_error (Z * Hash) :=
  match s with
  | None => Panic
  | Some (read, ctx) => h ← Context_finish ctx; Ok (read, h)
  end.

(** A writer that hands the sink one buffer after the other. *)
Fixpoint HashSink_writes (s : HashSink) (bufs : list bytes) : res sink_error HashSink :=
  match bufs with
  | [] => Ok s
  | buf :: bufs => r ← HashSink_poll_write s buf; HashSink_writes r.2 bufs
  end.

Context {DGL : DigestLaws}.

Lemma digest_ok {E : Type} a data :
  ∃ h, Algorithm_digest (E:=E) a data = Ok h ∧ h_algorithm h = a ∧ Hash_wf h.
Proof using DGL.
  assert (∀ F b r, digest_algorithm (E:=E) b = Ok r → ring_output_len r = size b →
    Algorithm_try_from r = Ok b → ∃ h, unwrap (F:=F) (Hash_try_from (ring_digest r data)) = Ok h ∧
      h_algorithm h = b ∧ Hash_wf h) as Hring.
  { intros F b r _ Hlen Hr. unfold Hash_try_from. rewrite ring_algorithm, Hr. res_simpl.
    destruct (Hash_new_digest (E:=UnknownAlgorithm) b (ring_digest r data).2) as (h & -> & ? & _ & ?);
      [by rewrite ring_length|]. by exists h. }
  destruct a; [|by apply Hring..]. cbn.
  destruct (Hash_new_digest (E:=E) MD5 (md5_compute data) (md5_length data)) as (h & -> & ? & _ & ?).
  by exists h.
Qed.

(** The digest as a function. *)
Definition sha256_of (data : bytes) : Sha256 := mk_sha256 (ring_digest RING_SHA256 data).2.

Lemma Sha256_digest_eq {E : Type} data :
  Sha256_digest (E:=E) data = Ok (sha256_of data) ∧ Sha256_wf (sha256_of data).
Proof using DGL.
  pose proof (ring_length RING_SHA256 data) as Hl. cbn [ring_output_len] in Hl. split; [|done].
  unfold Sha256_digest, Algorithm_digest, Hash_try_from. cbn [digest_algorithm mbind res_bind].
  rewrite ring_algorithm. change (Algorithm_try_from RING_SHA256) with (@Ok UnknownAlgorithm _ SHA256).
  res_simpl. unfold Hash_new. use_decide. cbn [unwrap mbind res_bind].
  unfold Hash_to_Sha256, Hash_digest_bytes. cbn [h_algorithm h_data].
  use_decide. cbn [size]. rewrite <-Hl, take_app_length. unfold Sha256_new.
  by rewrite decide_True.
Qed.

Lemma context_incremental {E : Type} a cs :
  ∃ c, Context_new (E:=E) a = Ok c ∧ Context_finish (E:=E) (foldl Context_update c cs) = Algorithm_digest a (concat cs).
Proof using DGL.
  assert (∀ al c, foldl Context_update (mk_context al (IRing c)) cs = mk_context al (IRing (foldl ring_update c cs))) as Hr
    by (intros al; induction cs as [|d cs IH]; intros c; [done|apply IH]).
  assert (∀ al c, foldl Context_update (mk_context al (IMD5 c)) cs = mk_context al (IMD5 (foldl md5_consume c cs))) as Hm
    by (clear Hr; intros al; induction cs as [|d cs IH]; intros c; [done|apply IH]).
  destruct a; eexists; (split; [done|]);
    [rewrite Hm; unfold Context_finish; cbn [ctx_inner]; by rewrite md5_incremental
    |rewrite Hr; unfold Context_finish; cbn [ctx_inner]; by rewrite ring_incremental..].
Qed.

Lemma HashSink_writes_eq n c bufs :
  (0 ≤ n)%Z → (n + Z.of_nat (length (concat bufs)) < u64_modulus)%Z →
  HashSink_writes (Some (n, c)) bufs =
    Ok (Some ((n + Z.of_nat (length (concat bufs)))%Z, foldl Context_update c bufs)).
Proof using Type.
  revert n c; induction bufs as [|buf bufs IH]; intros n c Hn Hlt; cbn [HashSink_writes concat foldl] in *.
  - cbn. by rewrite Z.add_0_r.
  - rewrite length_app in *. cbn. unfold wrap_u64. rewrite Z.mod_small by lia.
    rewrite IH by lia. by rewrite Nat2Z.inj_add, Z.add_assoc.
Qed.
End digest.

(** ** Properties *)

Section properties.
Context {DE : DataEncoding} {DL : DataEncodingLaws} {H : Type} {CH : CommonHash H} {CL : CommonHashLaws H}.

(** C38. Round trips of hashes. Printing a hash succeeds in base16, base32,
    base64 and as an SRI expression; each text is read back as the same hash
    by the parser of its own form and by the parsers that accept any form;
    without the algorithm's prefix this holds for the hash types that imply
    their algorithm. *)
Theorem hash_roundtrip (h : H) (Hwf : h_wf h) :
  (∀ b, ∃ text bare,
     display b false h = Ok text ∧ display b true h = Ok bare ∧
     from_str b text = Ok h ∧ Any_from_str text = Ok h ∧ NonSRI_from_str text = Ok h ∧
     (implied_algorithm H = Some (algorithm h) →
      Bare_from_str (parse b) bare = Ok h ∧ Any_from_str bare = Ok h ∧ NonSRI_from_str bare = Ok h)) ∧
  (∃ sri, SRI_fmt h = Ok sri ∧ SRI_from_str sri = Ok h ∧ Any_from_str sri = Ok h).
Proof using DL.
  split.
  - intros b. set (t := encoded b (digest_bytes h)).
    exists (with_algorithm false ":" h t), t. rewrite !display_eq by done.
    split; [done|]. split; [done|].
    pose proof (split_prefixed h ":" t (or_introl eq_refl)) as Hsp.
    pose proof (encoded_plain b (digest_bytes h)) as [Hc Hm].
    pose proof (parse_encoded b h Hwf) as Hp. pose proof (Any_parse_encoded b h Hwf) as Ha. fold t in Hp, Ha, Hc, Hm.
    split; [|split; [|split]].
    + destruct b; cbn [from_str]; unfold Base16_from_str, Base32_from_str, Base64_from_str;
        rewrite Hsp, parse_algorithm_to_string; res_simpl; cbn [parse] in Hp; by rewrite Hp.
    + by apply Any_from_str_prefixed.
    + by apply NonSRI_from_str_prefixed.
    + intros Himp. unfold Bare_from_str, Any_from_str, NonSRI_from_str.
      rewrite !split_once_None, Himp by done. split; [done|]. by split.
  - exists (with_algorithm false "-" h (encoded Base64 (digest_bytes h))).
    rewrite SRI_fmt_eq by done. split; [done|]. set (t := encoded Base64 _).
    pose proof (split_prefixed h "-" t (or_intror eq_refl)) as Hsp.
    pose proof (encoded_plain Base64 (digest_bytes h)) as [Hc Hm].
    pose proof (parse_encoded Base64 h Hwf) as Hp. cbn [parse] in Hp.
    split.
    + by apply SRI_from_str_prefixed.
    + unfold Any_from_str. rewrite split_once_None, Hsp, parse_algorithm_to_string.
      2:{ unfold with_algorithm. pose proof (Algorithm_to_string_plain (algorithm h)) as [Hq _].
          rewrite not_elem_of_app, not_elem_of_cons. by repeat split. }
      res_simpl. unfold t.
      rewrite decide_True by (by rewrite length_encoded, length_digest). by rewrite Hp.
Qed.

(** Parsing a hash is total: for every text every parser returns a
    well-formed hash or an error, never a panic; the error carries the whole
    text, and a decoding error names a position inside it. *)
Theorem hash_parse_total (s : bytes) :
  Forall (sound s)
    [Base16_from_str s; Base32_from_str s; Base64_from_str s; SRI_from_str s;
     Any_from_str s; NonSRI_from_str s; Bare_from_str Base16_parse s;
     Bare_from_str Base32_parse s; Bare_from_str Base64_parse s;
     Bare_from_str Any_parse s; Bare_from_str NonSRI_parse s].
Proof using DL.
  pose proof (λ b a r, Base_parse_sound b a r) as HB.
  repeat (apply Forall_cons; split); [..|constructor].
  - apply (prefixed_sound s ":" Base16_parse); [apply (HB Hex)|done].
  - apply (prefixed_sound s ":" Base32_parse); [apply (HB NixBase32)|done].
  - apply (prefixed_sound s ":" Base64_parse); [apply (HB Base64)|done].
  - apply SRI_from_str_sound.
  - apply Any_from_str_sound.
  - apply NonSRI_from_str_sound.
  - apply implied_sound. intros; apply (HB Hex).
  - apply implied_sound. intros; apply (HB NixBase32).
  - apply implied_sound. intros; apply (HB Base64).
  - apply implied_sound. intros; apply Any_parse_sound.
  - apply implied_sound. intros; apply NonSRI_parse_sound.
Qed.

(** Base16 and base32 texts are canonical: an accepted text is the one
    the hash is printed as, up to the case of the algorithm's name and of
    base16 digits. *)
Theorem hash_canonical (b : Base) (s : bytes) (h : H)
    (Hb : b ≠ Base64) (Hs : from_str b s = Ok h) :
  ∃ prefix t, s = prefix ++ ":"%byte :: t ∧
    eq_ignore_ascii_case prefix (Algorithm_to_string (algorithm h)) = true ∧
    display b true h = Ok match b with Hex => map to_ascii_lowercase t | _ => t end.
Proof using DL CL.
  assert (∃ prefix t a, split_once ":" s = Some (prefix, t) ∧ Algorithm_from_str prefix = Ok a ∧
    parse_with_base (scratch_len b (size LARGEST_ALGORITHM)) a t b = Ok h) as (prefix & t & a & E & Ea & Hp).
  { destruct b; [..|done]; cbn in Hs; unfold Base16_from_str, Base32_from_str in Hs;
      destruct (split_once ":" s) as [[prefix t]|] eqn:E; try done;
      apply res_bind_Ok in Hs as (a & Ha & Hs); unfold parse_algorithm in Ha;
      apply map_err_Ok in Ha; apply map_err_Ok in Hs; by exists prefix, t, a. }
  destruct (parse_with_base_sound b a t) as [Hso Hok]. rewrite Hp in Hso. destruct (Hok h Hp) as [Hal Hd].
  apply split_once_Some in E as [-> _]. exists prefix, t. split; [done|].
  split; [rewrite Hal; by apply Algorithm_from_str_Ok|].
  rewrite display_eq by done. f_equal. cbn [with_algorithm]. by eapply encoded_decode.
Qed.
End properties.

(** A [HashSink] computes the digest: whatever buffers are written to it,
    [finish] returns the number of bytes and the hash of their concatenation,
    the one the one-shot function computes; the hash is well-formed. *)
Theorem hash_sink_correct `{!DigestLib, !DigestLaws} (a : Algorithm) (bufs : list bytes)
    (Hlen : is_u64 (Z.of_nat (length (concat bufs)))) :
  ∃ s s' h, HashSink_new a = Ok s ∧ HashSink_writes s bufs = Ok s' ∧
    HashSink_finish s' = Ok (Z.of_nat (length (concat bufs)), h) ∧
    Algorithm_digest (E:=sink_error) a (concat bufs) = Ok h ∧ h_algorithm h = a ∧ Hash_wf h.
Proof.
  destruct (context_incremental (E:=sink_error) a bufs) as (c & Hc & Hf).
  destruct (digest_ok (E:=sink_error) a (concat bufs)) as (h & Hh & Ha & Hwf).
  exists (Some (0%Z, c)). eexists. exists h. unfold HashSink_new. rewrite Hc. split; [done|].
  rewrite HashSink_writes_eq by (destruct Hlen; lia). split; [done|]. cbn [HashSink_finish].
  rewrite Hf, Hh. by split.
Qed.

(** ** Witnesses *)

(** The SHA-256 digest of [abc], as [algo.rs] and the tests print it. *)
Definition sample_sha256 : Sha256 := mk_sha256 (to_le_bytes 32
  78287233127892744762064256752147977895291281102938609026632374073081434896570).

Example sample_texts :
  SRI_fmt sample_sha256 = Ok (str "sha256-ungWv48Bz+pBQUDeXa4iI7ADYaOWF3qctBD/YfIAFa0=") ∧
  Base32_fmt false sample_sha256 = Ok (str "sha256:1b8m03r63zqhnjf7l5wnldhh7c134ap5vpj0850ymkq1iyzicy5s") ∧
  Base16_fmt true sample_sha256 = str "ba7816bf8f01cfea414140de5dae2223b00361a396177a9cb410ff61f20015ad".
Proof. vm_compute. repeat split. Qed.

Lemma hash_roundtrip_witness : h_wf sample_sha256 ∧
  ∃ sri, SRI_fmt sample_sha256 = Ok sri ∧ SRI_from_str sri = Ok sample_sha256 ∧
         Any_from_str sri = Ok sample_sha256.
Proof. split; [done|]. exact (proj2 (hash_roundtrip sample_sha256 eq_refl)). Defined.

Lemma hash_parse_total_witness :
  Forall (sound (H:=Hash) (str "sha256:zz"))
    [Base16_from_str (str "sha256:zz"); Base32_from_str (str "sha256:zz"); Base64_from_str (str "sha256:zz");
     SRI_from_str (str "sha256:zz"); Any_from_str (str "sha256:zz"); NonSRI_from_str (str "sha256:zz");
     Bare_from_str Base16_parse (str "sha256:zz"); Bare_from_str Base32_parse (str "sha256:zz");
     Bare_from_str Base64_parse (str "sha256:zz"); Bare_from_str Any_parse (str "sha256:zz");
     Bare_from_str NonSRI_parse (str "sha256:zz")].
Proof. exact (hash_parse_total (H:=Hash) (str "sha256:zz")). Defined.

Definition sample_md5 : bytes := str "MD5:D41D8CD98F00B204E9800998ECF8427E".

Definition sample_md5_hash : Hash :=
  mk_hash MD5 (to_le_bytes 16 167830467844043968176572005485231480276 ++ replicate 48 x00).

Lemma hash_canonical_witness : from_str Hex sample_md5 = Ok sample_md5_hash ∧
  ∃ prefix t, sample_md5 = prefix ++ ":"%byte :: t ∧
    eq_ignore_ascii_case prefix (Algorithm_to_string (algorithm sample_md5_hash)) = true ∧
    display Hex true sample_md5_hash = Ok (map to_ascii_lowercase t).
Proof.
  assert (from_str Hex sample_md5 = Ok sample_md5_hash) as E by (vm_compute; reflexivity).
  split; [exact E|]. exact (hash_canonical Hex sample_md5 sample_md5_hash ltac:(discriminate) E).
Defined.

(** A digest that keeps the first bytes of its input. *)
Definition prefix_digest (n : nat) (x : bytes) : bytes := take n (x ++ replicate n x00).

#[local] Instance prefix_lib : DigestLib := {|
  md5_context := bytes; md5_new := []; md5_consume c x := c ++ x;
  md5_finalize := prefix_digest 16; md5_compute := prefix_digest 16;
  ring_context := RingAlgorithm * bytes; ring_new r := (r, []);
  ring_update c x := (c.1, c.2 ++ x);
  ring_finish c := (c.1, prefix_digest (ring_output_len c.1) c.2);
  ring_digest r x := (r, prefix_digest (ring_output_len r) x)
|}.

Lemma foldl_app_concat (cs : list bytes) c : foldl (λ c x, c ++ x) c cs = c ++ concat cs.
Proof.
  revert c; induction cs as [|x cs IH]; intros c; cbn; [by rewrite app_nil_r|].
  by rewrite IH, <-app_assoc.
Qed.

#[local] Instance prefix_laws : DigestLaws.
Proof.
  assert (∀ n x, length (prefix_digest n x) = n) as Hl.
  { intros n x. unfold prefix_digest. rewrite length_take, length_app, length_replicate. lia. }
  constructor; cbn; intros; try done.
  - by rewrite foldl_app_concat.
  - assert (∀ c, foldl (λ c x, (c.1, c.2 ++ x)) c cs = (c.1, c.2 ++ concat cs)) as ->; [|done].
    induction cs as [|x cs IH]; intros [r' c]; cbn; [by rewrite app_nil_r|].
    rewrite IH. cbn. by rewrite <-app_assoc.
Qed.

Definition sample_bufs : list bytes := [str "hello"; str ", "; str "world"].

Lemma hash_sink_correct_witness :
  ∃ s s' h, HashSink_new SHA256 = Ok s ∧ HashSink_writes s sample_bufs = Ok s' ∧
    HashSink_finish s' = Ok (Z.of_nat (length (concat sample_bufs)), h) ∧
    Algorithm_digest (E:=sink_error) SHA256 (concat sample_bufs) = Ok h ∧ h_algorithm h = SHA256 ∧ Hash_wf h.
Proof. apply (hash_sink_correct SHA256 sample_bufs). vm_compute. split; [discriminate|reflexivity]. Defined.
