(* ===== verification/StorePath.v ===== *)
(** Store paths ([harmonia-store-core/src/store_path/path.rs] and
    [store_dir.rs]): the 20-byte hash with its base32 text, the name with its
    alphabet, the path [hash-name], and paths below a store directory. *)

From stdpp Require Import base list numbers strings.
From Stdlib Require Import ZArith Lia Strings.Byte.
From S2P Require Import Prelude BaseEncoding Codecs Hash.

(** ** path.rs: data *)

Definition STORE_PATH_HASH_SIZE : nat := 20.
Definition STORE_PATH_HASH_ENCODED_SIZE : nat := encode_len STORE_PATH_HASH_SIZE.
Definition MAX_NAME_LEN : nat := 211.

Record StorePathHash : Type := mk_sph { sph : bytes }.
Record StorePathName : Type := mk_spn { spn : bytes }.
Record StorePath : Type := mk_store_path { sp_hash : StorePathHash; sp_name : StorePathName }.

#[export] Instance StorePathHash_eq_dec : EqDecision StorePathHash.
Proof. solve_decision. Defined.
#[export] Instance StorePathName_eq_dec : EqDecision StorePathName.
Proof. solve_decision. Defined.
#[export] Instance StorePath_eq_dec : EqDecision StorePath.
Proof. solve_decision. Defined.

(** The indices in the errors are bytes ([as u8]). *)
Inductive StorePathNameError : Type :=
| NNameLength
| NSymbol (idx : nat) (ch : byte).

Inductive StorePathError : Type :=
| NonAbsolute (path : bytes)
| NotInStore (path : bytes)
| HashLength
| NameLength
| Symbol (idx : nat) (ch : byte).

#[export] Instance StorePathError_eq_dec : EqDecision StorePathError.
Proof. solve_decision. Defined.

Record ParseStorePathError : Type := mk_parse_path { pp_path : bytes; pp_error : StorePathError }.

Definition as_u8 (n : nat) : nat := n mod 256.

(** [StorePathError::adjust_index]: a [u8] addition. *)
Definition adjust_index (prefix : nat) (other : StorePathNameError) : StorePathError :=
  match other with
  | NSymbol old ch => Symbol (as_u8 (prefix + old)) ch
  | NNameLength => NameLength
  end.

Definition name_to_path_error (value : StorePathNameError) : StorePathError :=
  match value with NNameLength => NameLength | NSymbol idx ch => Symbol idx ch end.

(** ** path.rs: names *)

(** [NAME_LOOKUP]: its table ends before the index 255. *)
Definition NAME_LOOKUP (ch : byte) : bool :=
  let z := byte_to_Z ch in
  (z <? 255)%Z &&
  (((97 <=? z) && (z <=? 122)) || ((65 <=? z) && (z <=? 90)) || ((48 <=? z) && (z <=? 57)) ||
   bool_decide (ch ∈ str "+-_?=."))%Z.

Fixpoint check_symbols (idx : nat) (s : bytes) : option (nat * byte) :=
  match s with
  | [] => None
  | ch :: s => if NAME_LOOKUP ch then check_symbols (S idx) s else Some (idx, ch)
  end.

Definition into_name (s : bytes) : res StorePathNameError bytes :=
  if decide (s = [] ∨ MAX_NAME_LEN < length s) then Err NNameLength
  else match check_symbols 0 s with
       | Some (idx, ch) => Err (NSymbol (as_u8 idx) ch)
       | None => Ok s
       end.

Definition StorePathName_try_from (value : bytes) : res StorePathNameError StorePathName :=
  mk_spn <$> into_name value.

(** ** path.rs: hashes *)

Definition byte_xor (a b : byte) : byte := byte_of_Z (Z.lxor (byte_to_Z a) (byte_to_Z b)).

(** [StorePathHash::new_from_hash]: [digest[i % 20] ^= item]. *)
Fixpoint xor_items (i : nat) (items : bytes) (digest : bytes) : bytes :=
  match items with
  | [] => digest
  | item :: items =>
      let idx := i mod STORE_PATH_HASH_SIZE in
      xor_items (S i) items (alter (λ d, byte_xor d item) idx digest)
  end.

Definition new_from_hash (hash : Sha256) : StorePathHash :=
  mk_sph (xor_items 0 (digest_bytes hash) (replicate STORE_PATH_HASH_SIZE x00)).

(** [StorePathHash::copy_from_slice] panics on a wrong length. *)
Definition sph_copy_from_slice {E : Type} (data : bytes) : res E StorePathHash :=
  if decide (length data = STORE_PATH_HASH_SIZE) then Ok (mk_sph data) else Panic.

Definition StorePathHash_try_from (data : bytes) : res StorePathError StorePathHash :=
  if decide (length data ≠ STORE_PATH_HASH_SIZE) then Err HashLength else sph_copy_from_slice data.

Section store_path.
Context {DE : DataEncoding}.

(** The output array has the size of a hash; what the decoder leaves
    unwritten stays zero. [data[err.error.position]] is an index. *)
Definition decode_digest (data : bytes) : res StorePathError StorePathHash :=
  if decide (length data ≠ encode_len STORE_PATH_HASH_SIZE) then Err HashLength
  else
    match decode_mut data STORE_PATH_HASH_SIZE with
    | Ok x => Ok (mk_sph (x ++ drop (length x) (replicate STORE_PATH_HASH_SIZE x00)))
    | Err err =>
        match data !! position (dp_error err) with
        | Some ch => Err (Symbol (as_u8 (position (dp_error err))) ch)
        | None => Panic
        end
    | Panic => Panic
    end.

Definition StorePathHash_fmt (h : StorePathHash) : res DecodePartial bytes :=
  encode_mut (sph h) (encode_len STORE_PATH_HASH_SIZE).

(** [Ord for StorePathHash]: lexicographic, from the last byte on. *)
Definition StorePathHash_cmp (a b : StorePathHash) : comparison :=
  bytes_cmp (rev (sph a)) (rev (sph b)).

(** ** path.rs: paths *)

Definition from_bytes (buf : bytes) : res StorePathError StorePath :=
  if decide (length buf < STORE_PATH_HASH_ENCODED_SIZE + 1) then Err HashLength
  else
    match buf !! STORE_PATH_HASH_ENCODED_SIZE with
    | None => Panic
    | Some c =>
        if decide (c ≠ "-"%byte) then Err (Symbol (as_u8 STORE_PATH_HASH_ENCODED_SIZE) c)
        else
          hash ← decode_digest (take STORE_PATH_HASH_ENCODED_SIZE buf);
          name ← map_err (adjust_index (as_u8 STORE_PATH_HASH_ENCODED_SIZE + 1))
                   (StorePathName_try_from (drop (STORE_PATH_HASH_ENCODED_SIZE + 1) buf));
          Ok (mk_store_path hash name)
    end.

Definition from_hash (hash : Sha256) (name : StorePathName) : StorePath :=
  mk_store_path (new_from_hash hash) name.

Definition StorePath_fmt (p : StorePath) : res DecodePartial bytes :=
  h ← StorePathHash_fmt (sp_hash p); Ok (h ++ "-"%byte :: spn (sp_name p)).

Definition StorePath_from_str (s : bytes) : res ParseStorePathError StorePath :=
  map_err (mk_parse_path s) (from_bytes s).

(** [is_derivation]. *)
Definition is_derivation (p : StorePath) : bool := ends_with (str ".drv") (spn (sp_name p)).
End store_path.

(** ** store_dir.rs

    A [StoreDir] is its path as a string. *)

Definition StoreDir : Type := bytes.

(** [Path::is_absolute] on Unix. *)
Definition is_absolute (s : bytes) : bool :=
  match s with c :: _ => bool_decide (c = "/"%byte) | [] => false end.

Definition StoreDir_strip_prefix (dir : StoreDir) (s : bytes) : res StorePathError bytes :=
  if is_absolute s then
    match strip_prefix dir s with
    | None => Err (NotInStore s)
    | Some name =>
        match name with
        | c :: rest => if decide (c ≠ "/"%byte) then Err (NotInStore s) else Ok rest
        | [] => Err (NotInStore s)
        end
    end
  else Err (NonAbsolute s).

(** The traits [FromStoreDirStr] and [StoreDirDisplay]. *)
Class FromStoreDirStr (V E : Type) : Type := from_store_dir_str : StoreDir → bytes → res E V.

Class StoreDirDisplay (V : Type) : Type := store_dir_fmt : StoreDir → V → res DecodePartial bytes.

#[export] Instance StorePath_from_store_dir_str {DE : DataEncoding} :
    FromStoreDirStr StorePath ParseStorePathError := λ dir s,
  map_err (mk_parse_path s) (StoreDir_strip_prefix dir s ≫= from_bytes).

#[export] Instance StorePath_display {DE : DataEncoding} : StoreDirDisplay StorePath := λ dir p,
  s ← StorePath_fmt p; Ok (dir ++ "/"%byte :: s).

(** [derive(Ord) for StorePath]: the hash, then the name. *)
Definition StorePath_cmp (p q : StorePath) : comparison :=
  match StorePathHash_cmp (sp_hash p) (sp_hash q) with
  | Eq => bytes_cmp (spn (sp_name p)) (spn (sp_name q))
  | c => c
  end.

(** ** Well-formed paths *)

Definition name_ok (s : bytes) : Prop :=
  s ≠ [] ∧ length s ≤ MAX_NAME_LEN ∧ Forall (λ ch, NAME_LOOKUP ch = true) s.

Definition sph_wf (h : StorePathHash) : Prop := length (sph h) = STORE_PATH_HASH_SIZE.

Definition path_wf (p : StorePath) : Prop := sph_wf (sp_hash p) ∧ name_ok (spn (sp_name p)).

Lemma check_symbols_None i s : check_symbols i s = None ↔ Forall (λ ch, NAME_LOOKUP ch = true) s.
Proof.
  revert i; induction s as [|ch s IH]; intros i; cbn; [done|]. rewrite Forall_cons, <-(IH (S i)).
  destruct (NAME_LOOKUP ch); naive_solver.
Qed.

Lemma check_symbols_Some i s j ch :
  check_symbols i s = Some (j, ch) → i ≤ j ∧ s !! (j - i) = Some ch ∧ NAME_LOOKUP ch = false.
Proof.
  revert i; induction s as [|c s IH]; intros i; cbn; [done|].
  destruct (NAME_LOOKUP c) eqn:E.
  - intros (Hle & Hl & Hn)%IH. split; [lia|]. split; [|done].
    replace (j - i) with (S (j - S i)) by lia. done.
  - intros [= <- <-]. rewrite Nat.sub_diag. by split.
Qed.

Lemma into_name_spec s :
  match into_name s with
  | Ok n => n = s ∧ name_ok s
  | Err NNameLength => s = [] ∨ MAX_NAME_LEN < length s
  | Err (NSymbol i ch) => s !! i = Some ch ∧ NAME_LOOKUP ch = false ∧ i < MAX_NAME_LEN
  | Panic => False
  end.
Proof.
  unfold into_name. destruct (decide _) as [|Hl]; [done|]. apply Decidable.not_or in Hl as [Hne Hl].
  destruct (check_symbols 0 s) as [[i ch]|] eqn:E.
  - apply check_symbols_Some in E as (_ & Hs & Hn). rewrite Nat.sub_0_r in Hs.
    pose proof (lookup_lt_Some _ _ _ Hs). unfold as_u8, MAX_NAME_LEN in *.
    rewrite Nat.mod_small by lia. split; [done|]. split; [done|lia].
  - apply check_symbols_None in E. split; [done|]. split; [done|]. split; [lia|done].
Qed.

Lemma into_name_ok s : name_ok s → into_name s = Ok s.
Proof.
  intros (Hne & Hl & HF). unfold into_name. rewrite decide_False by (intros [->|]; [done|lia]).
  by rewrite (proj2 (check_symbols_None 0 s) HF).
Qed.

(** ** The hash compressed from a digest *)

Lemma byte_xor_0_l b : byte_xor x00 b = b.
Proof. by destruct b. Qed.

(** Byte [i] of the hash is byte [i] of the digest, with byte [i + 20] added
    where there is one. *)
Lemma new_from_hash_eq h : Sha256_wf h →
  sph (new_from_hash h) =
    zip_with byte_xor (take 20 (sha256_data h)) (drop 20 (sha256_data h)) ++
    drop 12 (take 20 (sha256_data h)).
Proof.
  destruct h as [d]. unfold Sha256_wf. cbn [sha256_data]. intros Hd. cbn [size] in Hd.
  do 32 (destruct d as [|? d]; [discriminate Hd|]). destruct d; [|discriminate Hd].
  unfold new_from_hash. cbn. by rewrite !byte_xor_0_l.
Qed.

Lemma new_from_hash_wf h : Sha256_wf h → sph_wf (new_from_hash h).
Proof.
  intros Hh. unfold sph_wf. rewrite new_from_hash_eq by done. unfold Sha256_wf in Hh. cbn [size] in Hh.
  rewrite length_app, length_zip_with, !length_drop, !length_take, Hh. done.
Qed.

(** ** Order *)

Fixpoint lex (a b : list Z) : comparison :=
  match a, b with
  | [], [] => Eq
  | [], _ :: _ => Lt
  | _ :: _, [] => Gt
  | x :: a, y :: b => match Z.compare x y with Eq => lex a b | c => c end
  end.

Lemma bytes_cmp_lex a b : bytes_cmp a b = lex (byte_to_Z <$> a) (byte_to_Z <$> b).
Proof. revert b; induction a as [|x a IH]; intros [|y b]; cbn; [done..|]. by rewrite IH. Qed.

Lemma lex_app a1 a2 b1 b2 : length a1 = length b1 →
  lex (a1 ++ a2) (b1 ++ b2) = match lex a1 b1 with Eq => lex a2 b2 | c => c end.
Proof.
  revert b1; induction a1 as [|x a1 IH]; intros [|y b1]; try done. cbn. intros [= Hl].
  rewrite IH by done. by destruct (x ?= y)%Z.
Qed.

Lemma lex_rev_digits b xs ys :
  (1 < b)%Z → Forall (λ d, 0 ≤ d < b)%Z xs → Forall (λ d, 0 ≤ d < b)%Z ys → length xs = length ys →
  lex (rev xs) (rev ys) = Z.compare (from_digits b xs) (from_digits b ys).
Proof.
  intros Hb Hxs. revert ys; induction Hxs as [|x xs Hx HF IH]; intros ys Hys Hl.
  - by destruct ys.
  - destruct Hys as [|y ys Hy Hys]; [done|]. cbn in Hl. injection Hl as Hl. cbn [rev from_digits].
    rewrite lex_app by (by rewrite !length_rev). rewrite IH by done. cbn [lex].
    symmetry. destruct (Z.compare_spec (from_digits b xs) (from_digits b ys)) as [->| |].
    + destruct (Z.compare_spec x y) as [->| |]; [apply Z.compare_refl|apply Z.compare_lt_iff; lia|apply Z.compare_gt_iff; lia].
    + apply Z.compare_lt_iff. nia.
    + apply Z.compare_gt_iff. nia.
Qed.

Lemma lex_fmap (f : Z → Z) n xs ys :
  (∀ i j, 0 ≤ i < n → 0 ≤ j < n → Z.compare (f i) (f j) = Z.compare i j)%Z →
  Forall (λ d, 0 ≤ d < n)%Z xs → Forall (λ d, 0 ≤ d < n)%Z ys →
  lex (f <$> xs) (f <$> ys) = lex xs ys.
Proof.
  intros Hf Hxs. revert ys; induction Hxs as [|x xs Hx HF IH]; intros ys [|y ys' Hy Hys]; try done.
  cbn. rewrite Hf by done. by rewrite IH.
Qed.

Definition base32_symbol (d : Z) : byte :=
  default x00 (str "0123456789abcdfghijklmnpqrsvwxyz" !! Z.to_nat d).

Lemma base32_symbol_mono i j : (0 ≤ i < 32)%Z → (0 ≤ j < 32)%Z →
  Z.compare (byte_to_Z (base32_symbol i)) (byte_to_Z (base32_symbol j)) = Z.compare i j.
Proof.
  assert (Forall (λ x, Forall (λ y, Z.compare (byte_to_Z (base32_symbol (Z.of_nat x))) (byte_to_Z (base32_symbol (Z.of_nat y)))
    = Z.compare (Z.of_nat x) (Z.of_nat y)) (seq 0 32)) (seq 0 32)) as HF
    by (apply (bool_decide_unpack _); vm_compute; exact I).
  intros Hi Hj. rewrite Forall_forall in HF. specialize (HF (Z.to_nat i)). rewrite Forall_forall in HF.
  specialize (HF ltac:(apply elem_of_seq; lia) (Z.to_nat j) ltac:(apply elem_of_seq; lia)).
  by rewrite !Z2Nat.id in HF by lia.
Qed.

Section laws.
Context {DE : DataEncoding} {DL : DataEncodingLaws}.

(** The text of a hash. *)
Definition hash_text (h : StorePathHash) : bytes := encoded NixBase32 (sph h).

Definition path_text (p : StorePath) : bytes := hash_text (sp_hash p) ++ "-"%byte :: spn (sp_name p).

Lemma StorePathHash_fmt_eq h : sph_wf h → StorePathHash_fmt h = Ok (hash_text h) ∧ length (hash_text h) = 32.
Proof using DL.
  intros Hh. unfold StorePathHash_fmt, hash_text. pose proof (encode_for_base_eq NixBase32 (sph h)) as He.
  rewrite Hh in He. cbn [encode_for_base input_len] in He. rewrite He. split; [done|].
  by rewrite length_encoded, Hh.
Qed.

Lemma StorePath_fmt_eq p : path_wf p → StorePath_fmt p = Ok (path_text p).
Proof using DL. intros [Hh _]. unfold StorePath_fmt. by rewrite (proj1 (StorePathHash_fmt_eq _ Hh)). Qed.

Lemma decode_digest_text h : sph_wf h → decode_digest (hash_text h) = Ok h.
Proof using DL.
  intros Hh. destruct (StorePathHash_fmt_eq h Hh) as [_ Hl]. unfold decode_digest.
  rewrite decide_False by (rewrite Hl; auto).
  pose proof (decode_encoded NixBase32 (sph h)) as Hd. cbn [decode_for_base scratch_len] in Hd.
  rewrite Hh in Hd. unfold hash_text. rewrite Hd, Hh, drop_replicate. cbn. rewrite app_nil_r. by destruct h.
Qed.

Lemma decode_digest_spec data :
  match decode_digest data with
  | Ok h => sph_wf h ∧ hash_text h = data
  | Err HashLength => length data ≠ 32
  | Err (Symbol i ch) => data !! i = Some ch ∧ i < 32
  | Err _ => False
  | Panic => False
  end.
Proof using DL.
  unfold decode_digest. destruct (decide _) as [|Hl]; [done|]. apply dec_stable in Hl.
  pose proof (decode_for_base_total NixBase32 STORE_PATH_HASH_SIZE data Hl) as Ht.
  pose proof (encoded_decode NixBase32 data STORE_PATH_HASH_SIZE) as Hc.
  cbn [decode_for_base scratch_len] in Ht, Hc. destruct (decode_mut data _) as [x|e|]; [| |done].
  - specialize (Hc x ltac:(done) eq_refl). assert (length x = STORE_PATH_HASH_SIZE) as Hx.
    { apply (f_equal length) in Hc. rewrite length_encoded, Hl in Hc. cbn [input_len] in Hc.
      apply (f_equal (λ n, 5 * n / 8)) in Hc. by rewrite !encode_len_inv in Hc. }
    rewrite Hx, drop_replicate, Nat.sub_diag, app_nil_r. by split.
  - change (encode_len STORE_PATH_HASH_SIZE) with 32 in Hl. rewrite Hl in Ht.
    destruct (lookup_lt_is_Some_2 data (position (dp_error e))) as [ch Hch]; [lia|]. rewrite Hch.
    unfold as_u8. rewrite Nat.mod_small by lia. done.
Qed.

Lemma from_bytes_text p : path_wf p → from_bytes (path_text p) = Ok p.
Proof using DL.
  intros [Hh Hn]. destruct (StorePathHash_fmt_eq _ Hh) as [_ Hl].
  unfold from_bytes. change STORE_PATH_HASH_ENCODED_SIZE with 32. unfold path_text.
  rewrite decide_False by (rewrite length_app, Hl; cbn; lia).
  rewrite lookup_app_r, Hl, Nat.sub_diag by lia. cbn [lookup list_lookup].
  use_decide. rewrite <-Hl at 1. rewrite take_app_length, decode_digest_text by done.
  res_simpl. rewrite drop_app_ge, Hl by lia. change (32 + 1 - 32) with 1. cbn [drop].
  unfold StorePathName_try_from. rewrite into_name_ok by done. by destruct p as [? []].
Qed.

Lemma path_text_inj p q : path_wf p → path_wf q → path_text p = path_text q → p = q.
Proof using DL.
  intros Hp Hq E. apply (f_equal from_bytes) in E. rewrite !from_bytes_text in E by done. by injection E.
Qed.

(** No separator of a list of paths occurs in the text of a path. *)
Lemma path_text_plain p c : path_wf p → NAME_LOOKUP c = false → c ∉ path_text p.
Proof using DL.
  intros [Hh (_ & _ & Hn)] Hc. unfold path_text, hash_text. cbn [encoded].
  rewrite not_elem_of_app, not_elem_of_cons. split; [|split].
  - pose proof (base32_symbols (sph (sp_hash p))) as HF. intros Hin. rewrite elem_of_rev' in Hin.
    rewrite Forall_forall in HF. apply HF in Hin. revert Hc.
    assert (Forall (λ b, NAME_LOOKUP b = true) (str "0123456789abcdfghijklmnpqrsvwxyz")) as HA
      by repeat constructor.
    rewrite Forall_forall in HA. by rewrite HA.
  - by intros ->.
  - rewrite Forall_forall in Hn. intros Hin%Hn. congruence.
Qed.

(** The hash text orders like the hash. *)
Lemma hash_text_cmp a b : sph_wf a → sph_wf b → bytes_cmp (hash_text a) (hash_text b) = StorePathHash_cmp a b.
Proof using DL.
  intros Ha Hb. unfold StorePathHash_cmp, hash_text. cbn [encoded].
  rewrite !base32_bits, Ha, Hb, !bytes_cmp_lex, !fmap_rev. fold base32_symbol.
  rewrite <-!list_fmap_compose.
  change ((8 * STORE_PATH_HASH_SIZE + 4) / 5) with 32.
  assert (∀ h, sph_wf h → (0 ≤ from_le_bytes (sph h) < 32 ^ Z.of_nat 32)%Z) as Hr.
  { intros h Hh. pose proof (from_le_bytes_range (sph h)) as Hv. by rewrite Hh in Hv. }
  rewrite <-!fmap_rev, (lex_fmap (byte_to_Z ∘ base32_symbol) 32); [|apply base32_symbol_mono|apply Forall_rev, to_digits_range; lia..].
  rewrite (lex_rev_digits 32) by (done || (by apply to_digits_range) || by rewrite !length_to_digits).
  rewrite !from_to_digits by (lia || auto). rewrite !fmap_rev.
  rewrite (lex_rev_digits 256) by (done || auto with harmonia || by rewrite !length_fmap, Ha, Hb). done.
Qed.

Lemma from_bytes_spec (s : bytes) :
  match from_bytes s with
  | Ok p => path_wf p ∧ StorePath_fmt p = Ok s
  | Err HashLength => length s < 33
  | Err NameLength => length s = 33 ∨ 33 + MAX_NAME_LEN < length s
  | Err (Symbol i ch) => s !! i = Some ch ∧ i < 33 + MAX_NAME_LEN
  | Err _ => False
  | Panic => False
  end.
Proof using DL.
  unfold from_bytes. change STORE_PATH_HASH_ENCODED_SIZE with 32.
  destruct (decide _) as [|Hl]; [lia|].
  destruct (lookup_lt_is_Some_2 s 32) as [c Hc]; [lia|]. rewrite Hc.
  destruct (decide _) as [|Hd]; [cbn; split; [done|unfold MAX_NAME_LEN; lia]|]. apply dec_stable in Hd as ->.
  pose proof (decode_digest_spec (take 32 s)) as Hh.
  destruct (decode_digest (take 32 s)) as [h|[]|]; res_simpl; try done.
  - destruct Hh as [Hwf Ht]. pose proof (into_name_spec (drop 33 s)) as Hn.
    unfold StorePathName_try_from. change (32 + 1) with 33.
    destruct (into_name (drop 33 s)) as [n|[|i ch]|];
      cbn [fmap res_fmap mbind res_bind map_err adjust_index]; [| | |done].
    + destruct Hn as [-> Hn]. split; [done|].
      rewrite StorePath_fmt_eq by done. f_equal. unfold path_text. cbn [sp_hash sp_name spn].
      rewrite Ht. by apply (take_drop_middle s 32).
    + rewrite length_drop in Hn. destruct Hn as [Hn|Hn]; [|lia].
      apply (f_equal length) in Hn. rewrite length_drop in Hn. cbn in Hn. lia.
    + destruct Hn as (Hi & _ & Hlt). rewrite lookup_drop in Hi.
      unfold as_u8, MAX_NAME_LEN in *. change (32 mod 256 + 1) with 33. rewrite Nat.mod_small by lia. split; [done|lia].
  - rewrite length_take in Hh. lia.
  - destruct Hh as [Hi Hlt]. rewrite lookup_take_lt in Hi by done. unfold MAX_NAME_LEN. split; [done|lia].
Qed.

(** ** Properties *)

(** Stripping the store directory that was printed. *)
Lemma strip_printed dir s : is_absolute dir = true → StoreDir_strip_prefix dir (dir ++ "/"%byte :: s) = Ok s.
Proof using Type.
  intros Hdir. unfold StoreDir_strip_prefix. rewrite strip_prefix_app, decide_False by auto.
  by replace (is_absolute _) with true by (by destruct dir).
Qed.

(** Store paths print and parse: the text of a well-formed path, alone
    or below an absolute store directory, is read back as the same path. *)
Theorem store_path_roundtrip (dir : StoreDir) (p : StorePath)
    (Hdir : is_absolute dir = true) (Hp : path_wf p) :
  ∃ s full, StorePath_fmt p = Ok s ∧ store_dir_fmt dir p = Ok full ∧
    StorePath_from_str s = Ok p ∧ from_store_dir_str dir full = Ok p.
Proof using DL.
  pose proof (from_bytes_text p Hp) as Hf.
  exists (path_text p), (dir ++ "/"%byte :: path_text p).
  unfold store_dir_fmt, StorePath_display, from_store_dir_str, StorePath_from_store_dir_str.
  rewrite StorePath_fmt_eq by done. split; [done|]. split; [done|].
  unfold StorePath_from_str. rewrite Hf. split; [done|].
  rewrite strip_printed by done. res_simpl. by rewrite Hf.
Qed.

(** Parsing a store path, for every byte string: an accepted string is
    the text of the path it gives, which is well-formed; a symbol error names
    a byte of the string and its position, so the index never wraps; a length
    error says which part is too short or too long; nothing panics. *)
Theorem store_path_parse (s : bytes) :
  match from_bytes s with
  | Ok p => path_wf p ∧ StorePath_fmt p = Ok s
  | Err HashLength => length s < 33
  | Err NameLength => length s = 33 ∨ 33 + MAX_NAME_LEN < length s
  | Err (Symbol i ch) => s !! i = Some ch ∧ i < 33 + MAX_NAME_LEN
  | Err _ => False
  | Panic => False
  end.
Proof using DL. exact (from_bytes_spec s). Qed.

(** The order of store paths is the order of their texts: comparing the
    hash from its last byte on, then the name, gives the same result as
    comparing the printed paths byte by byte. *)
Theorem store_path_order (p q : StorePath) (Hp : path_wf p) (Hq : path_wf q) :
  ∃ s t, StorePath_fmt p = Ok s ∧ StorePath_fmt q = Ok t ∧ StorePath_cmp p q = bytes_cmp s t.
Proof using DL.
  exists (path_text p), (path_text q). rewrite !StorePath_fmt_eq by done. split; [done|]. split; [done|].
  destruct Hp as [Hp _], Hq as [Hq _]. unfold StorePath_cmp, path_text. rewrite <-hash_text_cmp by done.
  rewrite !bytes_cmp_lex, !fmap_app, lex_app.
  - by destruct (lex _ _).
  - rewrite !length_fmap. by rewrite (proj2 (StorePathHash_fmt_eq _ Hp)), (proj2 (StorePathHash_fmt_eq _ Hq)).
Qed.
End laws.

(** ** Witnesses *)

Definition sample_dir : StoreDir := str "/nix/store".
Definition sample_path_text : bytes := str "55xkmqns51sw7nrgykp5vnz36w4fr3cw-nix-2.1.3".

Definition sample_path : StorePath :=
  Eval vm_compute in
    match from_bytes sample_path_text with
    | Ok p => p
    | _ => mk_store_path (mk_sph []) (mk_spn [])
    end.

Definition other_path : StorePath :=
  mk_store_path (mk_sph (replicate 20 "x"%byte)) (mk_spn (str "konsole-18.12.3")).

Lemma sample_path_wf : path_wf sample_path.
Proof. split; [reflexivity|]. split; [discriminate|]. split; [vm_compute; lia|repeat constructor]. Qed.

Lemma other_path_wf : path_wf other_path.
Proof. split; [reflexivity|]. split; [discriminate|]. split; [vm_compute; lia|repeat constructor]. Qed.

Example sample_path_printed :
  StorePath_fmt sample_path = Ok sample_path_text ∧ spn (sp_name sample_path) = str "nix-2.1.3".
Proof. split; vm_compute; reflexivity. Qed.

Lemma store_path_roundtrip_witness :
  ∃ s full, StorePath_fmt sample_path = Ok s ∧ store_dir_fmt sample_dir sample_path = Ok full ∧
    StorePath_from_str s = Ok sample_path ∧ from_store_dir_str sample_dir full = Ok sample_path.
Proof. exact (store_path_roundtrip sample_dir sample_path eq_refl sample_path_wf). Defined.

Lemma store_path_parse_witness :
  match from_bytes sample_path_text with
  | Ok p => path_wf p ∧ StorePath_fmt p = Ok sample_path_text
  | Err HashLength => length sample_path_text < 33
  | Err NameLength => length sample_path_text = 33 ∨ 33 + MAX_NAME_LEN < length sample_path_text
  | Err (Symbol i ch) => sample_path_text !! i = Some ch ∧ i < 33 + MAX_NAME_LEN
  | Err _ => False
  | Panic => False
  end.
Proof. exact (store_path_parse sample_path_text). Defined.

Lemma store_path_order_witness :
  ∃ s t, StorePath_fmt sample_path = Ok s ∧ StorePath_fmt other_path = Ok t ∧
    StorePath_cmp sample_path other_path = bytes_cmp s t.
Proof. exact (store_path_order sample_path other_path sample_path_wf other_path_wf). Defined.
