(* ===== verification/ContentAddress.v ===== *)
(** Content addresses and the store paths they give
    ([harmonia-store-core/src/store_path/content_address.rs], [create.rs] and
    [StoreDir::make_store_path_from_ca] of [store_dir.rs]). *)

From stdpp Require Import base list numbers strings.
From Stdlib Require Import ZArith Lia Strings.Byte.
From S2P Require Import Prelude BaseEncoding Codecs Hash StorePath.

(** ** content_address.rs *)

Inductive ContentAddressMethod : Type := MText | MFlat | MRecursive.

Inductive ContentAddressMethodAlgorithm : Type :=
| AText
| AFlat (a : Algorithm)
| ARecursive (a : Algorithm).

Inductive ContentAddress : Type :=
| CText (h : Sha256)
| CFlat (h : Hash)
| CRecursive (h : Hash).

#[export] Instance ContentAddressMethod_eq_dec : EqDecision ContentAddressMethod.
Proof. solve_decision. Defined.
#[export] Instance ContentAddressMethodAlgorithm_eq_dec : EqDecision ContentAddressMethodAlgorithm.
Proof. solve_decision. Defined.
#[export] Instance ContentAddress_eq_dec : EqDecision ContentAddress.
Proof. solve_decision. Defined.

Inductive ParseContentAddressError : Type :=
| InvalidHash (m : ContentAddressMethod) (e : ParseHashError)
| CUnknownAlgorithm (e : UnknownAlgorithm)
| InvalidForm (s : bytes).

Definition Method_to_string (m : ContentAddressMethod) : bytes :=
  match m with MText => str "text" | MFlat => str "fixed" | MRecursive => str "fixed:r" end.

Definition MA_algorithm (m : ContentAddressMethodAlgorithm) : Algorithm :=
  match m with AText => SHA256 | AFlat a => a | ARecursive a => a end.

Definition MA_method (m : ContentAddressMethodAlgorithm) : ContentAddressMethod :=
  match m with AText => MText | AFlat _ => MFlat | ARecursive _ => MRecursive end.

Definition MA_to_string (m : ContentAddressMethodAlgorithm) : bytes :=
  match m with
  | AText => str "text:sha256"
  | AFlat a => Algorithm_to_string a
  | ARecursive a => str "r:" ++ Algorithm_to_string a
  end.

Definition MA_from_str (s : bytes) : res ParseContentAddressError ContentAddressMethodAlgorithm :=
  if decide (s = str "text:sha256") then Ok AText
  else match strip_prefix (str "r:") s with
       | Some algo => ARecursive <$> map_err CUnknownAlgorithm (Algorithm_from_str algo)
       | None => AFlat <$> map_err CUnknownAlgorithm (Algorithm_from_str s)
       end.

(** The JSON form: the method and the algorithm. *)
Definition MA_serialize (m : ContentAddressMethodAlgorithm) : ContentAddressMethod * Algorithm :=
  (MA_method m, MA_algorithm m).

Definition MA_deserialize (raw : ContentAddressMethod * Algorithm) : ContentAddressMethodAlgorithm :=
  match raw.1 with MText => AText | MFlat => AFlat raw.2 | MRecursive => ARecursive raw.2 end.

Definition CA_from_hash (m : ContentAddressMethod) (hash : Hash) : res ParseHashErrorKind ContentAddress :=
  match m with
  | MText => CText <$> Hash_to_Sha256 hash
  | MFlat => Ok (CFlat hash)
  | MRecursive => Ok (CRecursive hash)
  end.

Definition CA_method (ca : ContentAddress) : ContentAddressMethod :=
  match ca with CText _ => MText | CFlat _ => MFlat | CRecursive _ => MRecursive end.

Definition CA_method_algorithm (ca : ContentAddress) : ContentAddressMethodAlgorithm :=
  match ca with
  | CText _ => AText
  | CFlat hash => AFlat (h_algorithm hash)
  | CRecursive hash => ARecursive (h_algorithm hash)
  end.

Definition CA_algorithm (ca : ContentAddress) : Algorithm := MA_algorithm (CA_method_algorithm ca).

Definition CA_hash {E : Type} (ca : ContentAddress) : res E Hash :=
  match ca with CText sha256 => Sha256_to_Hash sha256 | CFlat hash => Ok hash | CRecursive hash => Ok hash end.

Section texts.
Context {DE : DataEncoding}.

Definition CA_to_string (ca : ContentAddress) : res DecodePartial bytes :=
  match ca with
  | CText h => s ← Base32_fmt false h; Ok (str "text:" ++ s)
  | CFlat h => s ← Base32_fmt false h; Ok (str "fixed:" ++ s)
  | CRecursive h => s ← Base32_fmt false h; Ok (str "fixed:r:" ++ s)
  end.

Definition CA_from_str (s : bytes) : res ParseContentAddressError ContentAddress :=
  match strip_prefix (str "text:") s with
  | Some hash_s => CText <$> map_err (InvalidHash MText) (NonSRI_from_str (H:=Sha256) hash_s)
  | None =>
      match strip_prefix (str "fixed:r:") s with
      | Some hash_s => CRecursive <$> map_err (InvalidHash MRecursive) (NonSRI_from_str (H:=Hash) hash_s)
      | None =>
          match strip_prefix (str "fixed:") s with
          | Some hash_s => CFlat <$> map_err (InvalidHash MFlat) (NonSRI_from_str (H:=Hash) hash_s)
          | None => Err (InvalidForm s)
          end
      end
  end.

(** The JSON form: the method and the hash as an SRI string. *)
Definition CA_serialize (ca : ContentAddress) : res DecodePartial (ContentAddressMethod * bytes) :=
  h ← CA_hash ca; s ← Hash_serialize h; Ok (CA_method ca, s).

Inductive ca_json_error : Type := JHash (e : ParseHashError) | JKind (k : ParseHashErrorKind).

Definition CA_deserialize (raw : ContentAddressMethod * bytes) : res ca_json_error ContentAddress :=
  hash ← map_err JHash (Hash_deserialize raw.2); map_err JKind (CA_from_hash raw.1 hash).
End texts.

(** ** create.rs *)

(** References are store paths in the order of the set. *)
Inductive PathType : Type :=
| PText (references : list StorePath) (digest : Sha256)
| PSource (references : list StorePath) (self_ref : bool) (digest : Sha256)
| POutput (hash : Hash)
| PFlatOutput (hash : Hash).

Record Fingerprint : Type := mk_fingerprint { path_type : PathType; fp_name : StorePathName }.

(** [From<ContentAddress> for PathType]: [hash.try_into().unwrap()]. *)
Definition PathType_from {E : Type} (value : ContentAddress) : res E PathType :=
  match value with
  | CText digest => Ok (PText [] digest)
  | CRecursive hash =>
      if decide (h_algorithm hash = SHA256) then
        digest ← unwrap (Hash_to_Sha256 hash); Ok (PSource [] false digest)
      else Ok (POutput hash)
  | CFlat hash => Ok (PFlatOutput hash)
  end.

Section create.
Context {DE : DataEncoding} {DG : DigestLib}.

(** [for path in references { write!(f, ":{}", store_dir.display(path)) }]. *)
Fixpoint write_references (dir : StoreDir) (references : list StorePath) : res DecodePartial bytes :=
  match references with
  | [] => Ok []
  | path :: references =>
      s ← store_dir_fmt dir path; r ← write_references dir references; Ok (":"%byte :: s ++ r)
  end.

#[export] Instance PathType_display : StoreDirDisplay PathType := λ dir t,
  match t with
  | PText references digest =>
      r ← write_references dir references;
      Ok (str "text" ++ r ++ str ":sha256:" ++ Sha256_LowerHex_fmt digest)
  | PSource references self_ref digest =>
      r ← write_references dir references;
      Ok (str "source" ++ r ++ (if self_ref then str ":self" else []) ++
          str ":sha256:" ++ Sha256_LowerHex_fmt digest)
  | POutput hash =>
      digest ← Sha256_digest (str "fixed:out:r:" ++ Hash_LowerHex_fmt false hash);
      Ok (str "output:out:sha256:" ++ Sha256_LowerHex_fmt digest)
  | PFlatOutput hash =>
      digest ← Sha256_digest (str "fixed:out:" ++ Hash_LowerHex_fmt false hash);
      Ok (str "output:out:sha256:" ++ Sha256_LowerHex_fmt digest)
  end.

#[export] Instance Fingerprint_display : StoreDirDisplay Fingerprint := λ dir fp,
  t ← store_dir_fmt dir (path_type fp);
  Ok (t ++ ":"%byte :: dir ++ ":"%byte :: spn (fp_name fp)).

(** [StoreDir::make_store_path_from_ca]. *)
Definition make_store_path_from_ca (dir : StoreDir) (name : StorePathName) (ca : ContentAddress) :
    res DecodePartial StorePath :=
  path_type ← PathType_from ca;
  finger_print_s ← store_dir_fmt dir (mk_fingerprint path_type name);
  h ← Sha256_digest finger_print_s;
  Ok (from_hash h name).
End create.

(** ** Well-formed content addresses *)

Definition CA_wf (ca : ContentAddress) : Prop :=
  match ca with CText h => Sha256_wf h | CFlat h => Hash_wf h | CRecursive h => Hash_wf h end.

Lemma Hash_to_Sha256_eq h : Hash_wf h → h_algorithm h = SHA256 →
  Hash_to_Sha256 h = Ok (mk_sha256 (Hash_digest_bytes h)).
Proof.
  intros Hwf Ha. unfold Hash_to_Sha256. use_decide. unfold Sha256_new.
  rewrite decide_True; [done|]. pose proof (length_digest h Hwf) as Hl. cbn in Hl. by rewrite Hl, Ha.
Qed.

Lemma Sha256_to_Hash_eq {E : Type} h : Sha256_wf h →
  ∃ g, Sha256_to_Hash (E:=E) h = Ok g ∧ Hash_wf g ∧ Hash_to_Sha256 g = Ok h.
Proof.
  intros Hh. destruct (Hash_new_digest (E:=E) SHA256 (sha256_data h) Hh) as (g & Hg & Ha & Hd & Hwf).
  exists g. split; [done|]. split; [done|]. rewrite Hash_to_Sha256_eq by done. rewrite Hd. by destruct h.
Qed.

(** The prefix of the text of each method. *)
Definition method_prefix (m : ContentAddressMethod) : bytes :=
  match m with MText => str "text:" | MFlat => str "fixed:" | MRecursive => str "fixed:r:" end.

Section properties.
Context {DE : DataEncoding} {DL : DataEncodingLaws}.

Lemma Base32_fmt_eq {H : Type} {CH : CommonHash H} {CL : CommonHashLaws H} (h : H) :
  h_wf h → Base32_fmt false h = Ok (with_algorithm false ":" h (encoded NixBase32 (digest_bytes h))).
Proof using DL. apply (display_eq NixBase32 false). Qed.

(** No name of an algorithm starts with the [r:] of recursive addresses. *)
Lemma strip_fixed_r a t : strip_prefix (str "fixed:r:") (str "fixed:" ++ Algorithm_to_string a ++ t) = None.
Proof using Type. by destruct a. Qed.

(** The text of a content address. *)
Definition CA_text (ca : ContentAddress) : bytes :=
  method_prefix (CA_method ca) ++
  match ca with
  | CText h => with_algorithm false ":" h (encoded NixBase32 (digest_bytes h))
  | CFlat h | CRecursive h => with_algorithm false ":" h (encoded NixBase32 (digest_bytes h))
  end.

Lemma CA_to_string_eq ca : CA_wf ca → CA_to_string ca = Ok (CA_text ca).
Proof using DL. intros Hwf. destruct ca; unfold CA_to_string; by rewrite Base32_fmt_eq. Qed.

Lemma CA_from_text ca : CA_wf ca → CA_from_str (CA_text ca) = Ok ca.
Proof using DL.
  intros Hwf. unfold CA_from_str, CA_text. destruct ca as [h|h|h]; cbn [CA_wf CA_method method_prefix] in *.
  - rewrite strip_prefix_app. by rewrite NonSRI_from_str_prefixed.
  - change (strip_prefix (str "text:") _) with (@None bytes). unfold with_algorithm at 1.
    rewrite strip_fixed_r, strip_prefix_app. by rewrite NonSRI_from_str_prefixed.
  - change (strip_prefix (str "text:") _) with (@None bytes).
    rewrite strip_prefix_app. by rewrite NonSRI_from_str_prefixed.
Qed.

Lemma MA_from_to_string m : MA_from_str (MA_to_string m) = Ok m.
Proof using Type. destruct m as [|a|a]; [done|by destruct a..]. Qed.

Lemma CA_hash_spec {E : Type} ca : CA_wf ca →
  ∃ g, CA_hash (E:=E) ca = Ok g ∧ Hash_wf g ∧ CA_from_hash (CA_method ca) g = Ok ca.
Proof using Type.
  intros Hwf. destruct ca as [h|h|h]; cbn [CA_wf CA_hash] in *; [|by exists h..].
  destruct (Sha256_to_Hash_eq (E:=E) h Hwf) as (g & -> & Hgw & Hg). exists g.
  split; [done|]. split; [done|]. cbn [CA_method CA_from_hash]. by rewrite Hg.
Qed.

(** Content addresses and their method tags round trip: as text, and as
    the pair the JSON form holds. *)
Theorem content_address_roundtrip (ca : ContentAddress) (Hwf : CA_wf ca) :
  (∃ s, CA_to_string ca = Ok s ∧ CA_from_str s = Ok ca) ∧
  (∃ raw, CA_serialize ca = Ok raw ∧ CA_deserialize raw = Ok ca) ∧
  MA_from_str (MA_to_string (CA_method_algorithm ca)) = Ok (CA_method_algorithm ca) ∧
  MA_deserialize (MA_serialize (CA_method_algorithm ca)) = CA_method_algorithm ca.
Proof using DL.
  split; [|split].
  - exists (CA_text ca). split; [by apply CA_to_string_eq|by apply CA_from_text].
  - destruct (CA_hash_spec (E:=DecodePartial) ca Hwf) as (g & Hg & Hgwf & Hf).
    unfold CA_serialize, Hash_serialize. rewrite Hg. res_simpl. rewrite SRI_fmt_eq by done.
    eexists. split; [done|]. unfold CA_deserialize, Hash_deserialize. cbn [snd fst].
    rewrite SRI_from_str_prefixed by done. cbn [or_else map_err mbind res_bind]. by rewrite Hf.
  - split; [apply MA_from_to_string|]. by destruct ca.
Qed.

(** Parsing a content address is total: a well-formed address; or the
    error of its hash, which is the text after the method's prefix, with a
    position inside it; or that the text has no such prefix. *)
Theorem content_address_parse_total (s : bytes) :
  match CA_from_str s with
  | Ok ca => CA_wf ca
  | Err (InvalidHash m e) =>
      s = method_prefix m ++ pe_hash e ∧ kind_inside (length (pe_hash e)) (pe_kind e)
  | Err (InvalidForm t) => t = s ∧ ∀ m, strip_prefix (method_prefix m) s = None
  | Err (CUnknownAlgorithm _) => False
  | Panic => False
  end.
Proof using DL.
  unfold CA_from_str.
  destruct (strip_prefix (str "text:") s) as [r|] eqn:E1; [|
    destruct (strip_prefix (str "fixed:r:") s) as [r|] eqn:E2; [|
      destruct (strip_prefix (str "fixed:") s) as [r|] eqn:E3; [|split; [done|by intros []]]]];
    match goal with Hr : _ = Some r |- _ => apply strip_prefix_Some in Hr as -> end.
  1: pose proof (NonSRI_from_str_sound (H:=Sha256) r) as Hs.
  2-3: pose proof (NonSRI_from_str_sound (H:=Hash) r) as Hs.
  all: destruct (NonSRI_from_str r) as [h|e|]; cbn in Hs |- *; [done| |done]; by destruct Hs as [-> ?].
Qed.

Context {DG : DigestLib} {DGL : DigestLaws}.

(** What the fingerprint of a content address says. *)
Definition ca_type_text (ca : ContentAddress) : bytes :=
  match ca with
  | CText h => str "text:sha256:" ++ (sha256_data h ≫= fmt_02x)
  | CRecursive h =>
      if decide (h_algorithm h = SHA256) then str "source:sha256:" ++ (Hash_digest_bytes h ≫= fmt_02x)
      else str "output:out:sha256:" ++
             (sha256_data (sha256_of (str "fixed:out:r:" ++ Hash_LowerHex_fmt false h)) ≫= fmt_02x)
  | CFlat h =>
      str "output:out:sha256:" ++
        (sha256_data (sha256_of (str "fixed:out:" ++ Hash_LowerHex_fmt false h)) ≫= fmt_02x)
  end.

Definition ca_fingerprint (dir : StoreDir) (name : StorePathName) (ca : ContentAddress) : bytes :=
  ca_type_text ca ++ ":"%byte :: dir ++ ":"%byte :: spn name.

Definition ca_path (dir : StoreDir) (name : StorePathName) (ca : ContentAddress) : StorePath :=
  from_hash (sha256_of (ca_fingerprint dir name ca)) name.

(** That is what the code writes. *)
Lemma fingerprint_text dir name ca : CA_wf ca →
  ∃ t, PathType_from (E:=DecodePartial) ca = Ok t ∧
    store_dir_fmt dir (mk_fingerprint t name) = Ok (ca_fingerprint dir name ca).
Proof using DGL.
  intros Hca.
  assert (∃ t, PathType_from (E:=DecodePartial) ca = Ok t ∧ store_dir_fmt dir t = Ok (ca_type_text ca))
    as (t & Ht & Hs).
  { destruct ca as [h|h|h]; cbn [PathType_from ca_type_text CA_wf] in *.
    - eexists. split; [done|]. done.
    - eexists. split; [done|]. unfold store_dir_fmt, PathType_display.
      by rewrite (proj1 (Sha256_digest_eq _)).
    - destruct (decide _) as [Ha|].
      + rewrite Hash_to_Sha256_eq by done. eexists. split; [done|]. done.
      + eexists. split; [done|]. unfold store_dir_fmt, PathType_display.
        by rewrite (proj1 (Sha256_digest_eq _)). }
  exists t. split; [done|]. unfold store_dir_fmt, Fingerprint_display. cbn [path_type fp_name]. by rewrite Hs.
Qed.

Lemma make_store_path_eq dir name ca :
  CA_wf ca → name_ok (spn name) →
  make_store_path_from_ca dir name ca = Ok (ca_path dir name ca) ∧ path_wf (ca_path dir name ca).
Proof using DGL.
  intros Hca Hname. destruct (fingerprint_text dir name ca Hca) as (t & Ht & Hs).
  unfold make_store_path_from_ca. rewrite Ht. res_simpl. rewrite Hs. res_simpl.
  destruct (Sha256_digest_eq (E:=DecodePartial) (ca_fingerprint dir name ca)) as [-> Hwf].
  split; [done|]. split; [by apply new_from_hash_wf|done].
Qed.

(** The store path of a content address: it is made without an error,
    has the given name, is well-formed, and its hash is the compressed SHA-256
    digest of the fingerprint of the address, the directory and the name. *)
Theorem make_store_path_spec (dir : StoreDir) (name : StorePathName) (ca : ContentAddress)
    (Hca : CA_wf ca) (Hname : name_ok (spn name)) :
  ∃ p, make_store_path_from_ca dir name ca = Ok p ∧ path_wf p ∧ sp_name p = name ∧
    sp_hash p = new_from_hash (sha256_of (ca_fingerprint dir name ca)).
Proof using DGL.
  destruct (make_store_path_eq dir name ca Hca Hname) as [-> Hwf]. eauto.
Qed.

(** The text that is hashed for a fixed output, which the fingerprint then has
    the digest of. *)
Definition fixed_out_text (ca : ContentAddress) : option bytes :=
  match ca with
  | CText _ => None
  | CFlat h => Some (str "fixed:out:" ++ Hash_LowerHex_fmt false h)
  | CRecursive h =>
      if decide (h_algorithm h = SHA256) then None else Some (str "fixed:out:r:" ++ Hash_LowerHex_fmt false h)
  end.

(** These two addresses are not confused by SHA-256: the texts of their fixed
    outputs, if both have one, do not have the same digest unless they are the
    same. *)
Definition digests_apart (ca ca' : ContentAddress) : Prop :=
  ∀ x y, fixed_out_text ca = Some x → fixed_out_text ca' = Some y → sha256_of x = sha256_of y → x = y.

Lemma LowerHex_inj g h : Hash_wf g → Hash_wf h →
  Hash_LowerHex_fmt false g = Hash_LowerHex_fmt false h → g = h.
Proof using DL.
  intros Hg Hh E. unfold Hash_LowerHex_fmt in E.
  pose proof (split_prefixed g ":" (digest_bytes g ≫= fmt_02x) (or_introl eq_refl)) as Sg.
  pose proof (split_prefixed h ":" (digest_bytes h ≫= fmt_02x) (or_introl eq_refl)) as Sh.
  rewrite E, Sh in Sg. injection Sg as Ea Ed. apply hex_inj in Ed.
  apply (f_equal Algorithm_from_str) in Ea. rewrite !Algorithm_from_to_string in Ea. injection Ea as Ea.
  pose proof (from_slice_digest g Hg) as Fg. pose proof (from_slice_digest h Hh) as Fh.
  change (algorithm h = algorithm g) in Ea. change (digest_bytes h = digest_bytes g) in Ed.
  rewrite <-Ea, <-Ed, Fh in Fg. by injection Fg.
Qed.

Lemma length_hex (x : bytes) : length (x ≫= fmt_02x) = 2 * length x.
Proof using Type. induction x as [|b x IH]; [done|]. cbn [mbind list_bind]. rewrite length_app, IH. cbn. lia. Qed.

Lemma sha256_of_wf x : Sha256_wf (sha256_of x).
Proof using DGL. apply (Sha256_digest_eq (E:=DecodePartial)). Qed.

Lemma sha256_hex_inj x y :
  (sha256_data (sha256_of x) ≫= fmt_02x) = (sha256_data (sha256_of y) ≫= fmt_02x) → sha256_of x = sha256_of y.
Proof using DL. intros E%hex_inj. unfold sha256_of in *. cbn in E. by rewrite E. Qed.

Lemma fixed_out_inj (r r' : bool) g h : Hash_wf g → Hash_wf h →
  str "fixed:out:" ++ (if r then str "r:" else []) ++ Hash_LowerHex_fmt false g =
  str "fixed:out:" ++ (if r' then str "r:" else []) ++ Hash_LowerHex_fmt false h → r = r' ∧ g = h.
Proof using DL.
  intros Hg Hh E%app_inv_head. destruct r, r'.
  - apply app_inv_head in E. split; [done|]. by apply LowerHex_inj.
  - exfalso. unfold Hash_LowerHex_fmt, with_algorithm in E. by destruct (algorithm h).
  - exfalso. unfold Hash_LowerHex_fmt, with_algorithm in E. by destruct (algorithm g).
  - split; [done|]. by apply LowerHex_inj.
Qed.

Lemma ca_type_text_inj ca ca' : CA_wf ca → CA_wf ca' → digests_apart ca ca' →
  ca_type_text ca = ca_type_text ca' → ca = ca'.
Proof using DL.
  intros Hg Hh Hd E.
  assert (∀ (r r' : bool) g h, Hash_wf g → Hash_wf h →
    let x := str "fixed:out:" ++ (if r then str "r:" else []) ++ Hash_LowerHex_fmt false g in
    let y := str "fixed:out:" ++ (if r' then str "r:" else []) ++ Hash_LowerHex_fmt false h in
    fixed_out_text ca = Some x → fixed_out_text ca' = Some y →
    (sha256_data (sha256_of x) ≫= fmt_02x) = (sha256_data (sha256_of y) ≫= fmt_02x) → r = r' ∧ g = h) as Hout.
  { intros r r' g h Hg' Hh' x y Hx Hy E'%sha256_hex_inj. apply fixed_out_inj; [done|done|]. by apply Hd. }
  destruct ca as [g|g|g], ca' as [h|h|h]; cbn [CA_wf ca_type_text fixed_out_text] in *;
    repeat destruct (decide _); try done.
  - apply app_inv_head, hex_inj in E. destruct g, h. cbn in E. by subst.
  - apply app_inv_head in E. by destruct (Hout false false g h Hg Hh eq_refl eq_refl E) as [_ ->].
  - apply app_inv_head in E. by destruct (Hout false true g h Hg Hh eq_refl eq_refl E).
  - apply app_inv_head in E. by destruct (Hout true false g h Hg Hh eq_refl eq_refl E).
  - apply app_inv_head, hex_inj in E. f_equal.
    pose proof (from_slice_digest g Hg) as Fg. pose proof (from_slice_digest h Hh) as Fh.
    cbn [algorithm digest_bytes Hash_CommonHash] in Fg, Fh. rewrite E, e, <-e0, Fh in Fg. by injection Fg.
  - apply app_inv_head in E. by destruct (Hout true true g h Hg Hh eq_refl eq_refl E) as [_ ->].
Qed.

(** The kinds of fingerprint, told apart by their first byte, have fixed lengths. *)
Lemma ca_type_text_length ca : CA_wf ca →
  length (ca_type_text ca) =
    match hd x00 (ca_type_text ca) with "t"%byte => 76 | "s"%byte => 78 | _ => 82 end.
Proof using DGL.
  assert (∀ x, length (sha256_data (sha256_of x)) = 32) as Hd by (intros x; apply (sha256_of_wf x)).
  destruct ca as [h|h|h]; cbn [CA_wf ca_type_text]; intros Hwf; [| |destruct (decide _) as [Ha|]];
    rewrite length_app, length_hex.
  - unfold Sha256_wf in Hwf. cbn [size] in Hwf. by rewrite Hwf.
  - by rewrite Hd.
  - pose proof (length_digest h Hwf) as Hl. cbn [digest_bytes algorithm Hash_CommonHash] in Hl.
    by rewrite Hl, Ha.
  - by rewrite Hd.
Qed.

(** Two fingerprints as texts. *)
Lemma ca_fingerprint_inj dir name name' ca ca' : CA_wf ca → CA_wf ca' → digests_apart ca ca' →
  ca_fingerprint dir name ca = ca_fingerprint dir name' ca' → name = name' ∧ ca = ca'.
Proof using DL DGL.
  unfold ca_fingerprint. intros Hca Hca' Hd E.
  assert (hd x00 (ca_type_text ca) = hd x00 (ca_type_text ca')) as Hhd.
  { pose proof (ca_type_text_length ca Hca). pose proof (ca_type_text_length ca' Hca').
    destruct (ca_type_text ca), (ca_type_text ca'); try done. by injection E. }
  apply app_inj_1 in E as [Et En]; [|by rewrite !ca_type_text_length, Hhd].
  split; [|by apply ca_type_text_inj].
  injection En as En. apply app_inv_head in En. injection En as En. destruct name, name'. cbn in En. by subst.
Qed.

(** C39. The fingerprint of a content-addressed path identifies the address and
    the name. For one store directory, the fingerprints of any two well-formed
    addresses with names are written without an error, and are the same text
    only for the same address and the same name; for two fixed outputs, whose
    fingerprints have only the digest of a text, the digests of those two texts
    are to differ if the texts do. *)
Theorem fingerprint_injective (dir : StoreDir) (name name' : StorePathName) (ca ca' : ContentAddress)
    (Hca : CA_wf ca) (Hca' : CA_wf ca') (Hd : digests_apart ca ca') :
  ∃ t t' s s', PathType_from (E:=DecodePartial) ca = Ok t ∧ PathType_from (E:=DecodePartial) ca' = Ok t' ∧
    store_dir_fmt dir (mk_fingerprint t name) = Ok s ∧ store_dir_fmt dir (mk_fingerprint t' name') = Ok s' ∧
    (s = s' ↔ name = name' ∧ ca = ca').
Proof using DL DGL.
  destruct (fingerprint_text dir name ca Hca) as (t & Ht & Hs), (fingerprint_text dir name' ca' Hca') as (t' & Ht' & Hs').
  exists t, t', (ca_fingerprint dir name ca), (ca_fingerprint dir name' ca'). split_and!; try done.
  split; [by apply ca_fingerprint_inj|]. by intros [-> ->].
Qed.
End properties.

(** ** Witnesses *)

#[local] Existing Instance prefix_lib.
#[local] Existing Instance prefix_laws.

Definition sample_ca : ContentAddress := CText sample_sha256.
Definition sample_name : StorePathName := mk_spn (str "konsole-18.12.3").

Example sample_ca_text :
  CA_to_string sample_ca = Ok (str "text:sha256:1b8m03r63zqhnjf7l5wnldhh7c134ap5vpj0850ymkq1iyzicy5s").
Proof. vm_compute. reflexivity. Qed.

Lemma content_address_roundtrip_witness :
  (∃ s, CA_to_string sample_ca = Ok s ∧ CA_from_str s = Ok sample_ca) ∧
  (∃ raw, CA_serialize sample_ca = Ok raw ∧ CA_deserialize raw = Ok sample_ca) ∧
  MA_from_str (MA_to_string (CA_method_algorithm sample_ca)) = Ok (CA_method_algorithm sample_ca) ∧
  MA_deserialize (MA_serialize (CA_method_algorithm sample_ca)) = CA_method_algorithm sample_ca.
Proof. exact (content_address_roundtrip sample_ca eq_refl). Defined.

Definition bad_ca : bytes := str "text:sha1:kpcd173cq987hw957sx6m0868wv3x6d9".

Lemma content_address_parse_total_witness :
  match CA_from_str bad_ca with
  | Ok ca => CA_wf ca
  | Err (InvalidHash m e) =>
      bad_ca = method_prefix m ++ pe_hash e ∧ kind_inside (length (pe_hash e)) (pe_kind e)
  | Err (InvalidForm t) => t = bad_ca ∧ ∀ m, strip_prefix (method_prefix m) bad_ca = None
  | Err (CUnknownAlgorithm _) => False
  | Panic => False
  end.
Proof. exact (content_address_parse_total bad_ca). Defined.

Lemma sample_name_ok : name_ok (spn sample_name).
Proof. split; [discriminate|]. split; [vm_compute; lia|repeat constructor]. Qed.

Lemma make_store_path_spec_witness :
  ∃ p, make_store_path_from_ca sample_dir sample_name sample_ca = Ok p ∧ path_wf p ∧ sp_name p = sample_name ∧
    sp_hash p = new_from_hash (sha256_of (ca_fingerprint sample_dir sample_name sample_ca)).
Proof. exact (make_store_path_spec sample_dir sample_name sample_ca eq_refl sample_name_ok). Defined.

(** One hash as a flat and as a recursive fixed output. *)
Definition out_hash : Hash := mk_hash SHA1 (replicate 20 x61 ++ replicate 44 x00).
Definition flat_ca : ContentAddress := CFlat out_hash.
Definition recursive_ca : ContentAddress := CRecursive out_hash.

Lemma out_hash_wf : Hash_wf out_hash.
Proof. by exists (replicate 20 x61). Qed.

Lemma fingerprint_injective_witness :
  ∃ t t' s s', PathType_from (E:=DecodePartial) flat_ca = Ok t ∧ PathType_from (E:=DecodePartial) recursive_ca = Ok t' ∧
    store_dir_fmt sample_dir (mk_fingerprint t sample_name) = Ok s ∧
    store_dir_fmt sample_dir (mk_fingerprint t' sample_name) = Ok s' ∧ s ≠ s'.
Proof.
  destruct (fingerprint_injective sample_dir sample_name sample_name flat_ca recursive_ca)
    as (t & t' & s & s' & H1 & H2 & H3 & H4 & Hi).
  - exact out_hash_wf.
  - exact out_hash_wf.
  - intros x y [= <-] [= <-] E. vm_compute in E. discriminate.
  - exists t, t', s, s'. do 4 (split; [assumption|]). intros E. apply Hi in E as [_ E]. discriminate.
Defined.
