(* ===== verification/Signature.v ===== *)
(** Signatures, keys and the fingerprint that is signed
    ([harmonia-store-core/src/signature.rs]). The Ed25519 operations of the
    package [ring] are a parameter. *)

From stdpp Require Import base list numbers strings.
From Stdlib Require Import ZArith Lia Strings.Byte.
From S2P Require Import Prelude BaseEncoding Codecs Hash StorePath.

Definition SIGNATURE_BYTES : nat := 64.
Definition SEED_BYTES : nat := 32.
Definition PUBLIC_KEY_BYTES : nat := 32.
Definition SECRET_KEY_BYTES : nat := SEED_BYTES + PUBLIC_KEY_BYTES.
Definition PUBLIC_KEY_BASE64_DECODED_LEN : nat := 33.
Definition SECRET_KEY_BASE64_DECODED_LEN : nat := 66.

Inductive ParseSignatureError : Type := CorruptSignature | InvalidSignature.
Inductive ParseKeyError : Type := CorruptKey | InvalidSecretKey | InvalidPublicKey.

Record Signature : Type := mk_signature { key_name : bytes; sig : bytes }.

#[export] Instance Signature_eq_dec : EqDecision Signature.
Proof. solve_decision. Defined.

(** ** Signatures *)

Section signature.
Context {DE : DataEncoding}.

(** [Encoding::decode], which allocates its output. *)
Definition enc_decode (e : Encoding_) (input : bytes) : res DecodeError bytes :=
  match dec_len e (length input) with
  | Ok _ => map_err dp_error (dec e input)
  | Err err => Err err
  | Panic => Panic
  end.

Definition RawSignature_fmt (s : bytes) : res DecodePartial bytes :=
  enc_encode_mut BASE64 s (base64_len SIGNATURE_BYTES).

Definition RawSignature_from_str (s : bytes) : res ParseSignatureError bytes :=
  b ← map_err (λ _, InvalidSignature) (enc_decode BASE64 s);
  if decide (length b = SIGNATURE_BYTES) then Ok b else Err InvalidSignature.

Definition from_parts (name signature : bytes) : res ParseSignatureError Signature :=
  if decide (length signature ≠ SIGNATURE_BYTES) then Err InvalidSignature
  else Ok (mk_signature name signature).

Definition Signature_fmt (s : Signature) : res DecodePartial bytes :=
  t ← RawSignature_fmt (sig s); Ok (key_name s ++ ":"%byte :: t).

Definition Signature_from_str (s : bytes) : res ParseSignatureError Signature :=
  '(name, sig_s) ← ok_or (split_once ":" s) CorruptSignature;
  b ← RawSignature_from_str sig_s;
  Ok (mk_signature name b).
End signature.

(** ** Keys *)

Class Ed25519 : Type := {
  key_pair : Type;
  from_seed_and_public_key : bytes → bytes → option key_pair;
  public_key : key_pair → bytes;
  ed_sign : key_pair → bytes → bytes;
  ed_verify : bytes → bytes → bytes → bool
}.

(** What [ring] documents: sizes, that a signature verifies under the public
    key of its key pair, and that a pair made from a seed and a public key
    has that public key. *)
Class Ed25519Laws `{!Ed25519} : Prop := {
  length_public_key k : length (public_key k) = PUBLIC_KEY_BYTES;
  length_ed_sign k m : length (ed_sign k m) = SIGNATURE_BYTES;
  verify_sign k m : ed_verify (public_key k) m (ed_sign k m) = true;
  public_key_of_pair s p k : from_seed_and_public_key s p = Some k → public_key k = p
}.

Record PublicKey : Type := mk_public_key { pk_name : bytes; pk_data : bytes }.

Section keys.
Context {DE : DataEncoding} {ED : Ed25519}.

Record SecretKey : Type := mk_secret_key { sk_name : bytes; sk_data : bytes; sk_key : key_pair }.

Definition verify (k : PublicKey) (message : bytes) (s : Signature) : bool :=
  ed_verify (pk_data k) message (sig s).

Definition PublicKey_fmt (k : PublicKey) : bytes := pk_name k ++ ":"%byte :: enc BASE64 (pk_data k).

Definition PublicKey_from_str (s : bytes) : res ParseKeyError PublicKey :=
  '(name, key_s) ← ok_or (split_once ":" s) CorruptKey;
  if decide (length key_s ≠ base64_len PUBLIC_KEY_BYTES) then Err InvalidPublicKey
  else
    b ← map_err (λ _, InvalidPublicKey) (enc_decode_mut BASE64 key_s PUBLIC_KEY_BASE64_DECODED_LEN);
    if decide (length b ≠ PUBLIC_KEY_BYTES) then Err InvalidPublicKey
    else Ok (mk_public_key name b).

Definition SecretKey_fmt (k : SecretKey) : bytes := sk_name k ++ ":"%byte :: enc BASE64 (sk_data k).

Definition SecretKey_from_str (s : bytes) : res ParseKeyError SecretKey :=
  '(name, key_s) ← ok_or (split_once ":" s) CorruptKey;
  if decide (length key_s ≠ base64_len SECRET_KEY_BYTES) then Err InvalidSecretKey
  else
    key_data ← map_err (λ _, InvalidSecretKey) (enc_decode_mut BASE64 key_s SECRET_KEY_BASE64_DECODED_LEN);
    if decide (length key_data ≠ SECRET_KEY_BYTES) then Err InvalidSecretKey
    else
      let seed := take SEED_BYTES key_data in
      let public := drop SEED_BYTES key_data in
      key ← ok_or (from_seed_and_public_key seed public) InvalidSecretKey;
      Ok (mk_secret_key name key_data key).

(** [copy_from_slice] panics on a wrong length. *)
Definition sign {E : Type} (k : SecretKey) (msg : bytes) : res E Signature :=
  let s := ed_sign (sk_key k) msg in
  if decide (length s = SIGNATURE_BYTES) then Ok (mk_signature (sk_name k) s) else Panic.

Definition to_public_key {E : Type} (k : SecretKey) : res E PublicKey :=
  let p := public_key (sk_key k) in
  if decide (length p = PUBLIC_KEY_BYTES) then Ok (mk_public_key (sk_name k) p) else Panic.
End keys.

(** ** The fingerprint of a path *)

Inductive FingerprintError : Type := InvalidNarHashPrefix | InvalidNarHashLength (len : nat).

Section fingerprint.
Context {DE : DataEncoding}.

(** [references] are the elements of the [BTreeSet], in its order. *)
Fixpoint display_all (dir : StoreDir) (references : list StorePath) : res DecodePartial (list bytes) :=
  match references with
  | [] => Ok []
  | r :: rs => s ← store_dir_fmt dir r; ss ← display_all dir rs; Ok (s :: ss)
  end.

Definition fingerprint_path (dir : StoreDir) (path : StorePath) (nar_hash : bytes) (nar_size : Z)
    (references : list StorePath) : res FingerprintError bytes :=
  match strip_prefix (str "sha256:") nar_hash with
  | None => Err InvalidNarHashPrefix
  | Some _ =>
      if decide (length nar_hash ≠ 59) then Err (InvalidNarHashLength (length nar_hash))
      else
        p ← unwrap (store_dir_fmt dir path);
        rs ← unwrap (display_all dir references);
        Ok (str "1;" ++ p ++ ";"%byte :: nar_hash ++ ";"%byte :: u64_to_string nar_size ++ ";"%byte ::
            join "," rs)
  end.
End fingerprint.

(** ** Proofs *)

Section laws.
Context {DE : DataEncoding} {DL : DataEncodingLaws}.

Lemma BASE64_decode_enc x : enc_decode BASE64 (enc BASE64 x) = Ok x.
Proof using DL.
  unfold enc_decode. rewrite (law_enc_length _ base64_laws), base64_enc_len, base64_dec_len.
  by rewrite (law_dec_enc _ base64_laws).
Qed.

Lemma BASE64_decode_mut_enc x n :
  length x = n → enc_decode_mut BASE64 (enc BASE64 x) (base64_len n / 4 * 3) = Ok x.
Proof using DL.
  intros <-. unfold enc_decode_mut.
  rewrite (law_enc_length _ base64_laws), base64_enc_len, <-base64_len_eq, dec_len_base64.
  use_decide. apply (law_dec_enc _ base64_laws).
Qed.

Lemma length_BASE64 x : length (enc BASE64 x) = base64_len (length x).
Proof using DL. by rewrite (law_enc_length _ base64_laws), base64_enc_len, base64_len_eq. Qed.

(** Decoding a text of the length of [n] encoded bytes does not panic. *)
Lemma BASE64_decode_mut_total s n :
  length s = base64_len n → enc_decode_mut BASE64 s (base64_len n / 4 * 3) ≠ Panic.
Proof using DL.
  intros Hl. unfold enc_decode_mut. rewrite Hl, dec_len_base64, decide_True by done.
  apply (law_dec_no_panic _ base64_laws).
Qed.

Definition signature_wf (s : Signature) : Prop := (":"%byte ∉ key_name s) ∧ length (sig s) = SIGNATURE_BYTES.

Definition signature_text (s : Signature) : bytes := key_name s ++ ":"%byte :: enc BASE64 (sig s).

Lemma Signature_fmt_eq s : signature_wf s → Signature_fmt s = Ok (signature_text s).
Proof using DL.
  intros [Hn Hl]. unfold Signature_fmt, RawSignature_fmt, enc_encode_mut.
  rewrite <-Hl, base64_enc_len, <-base64_len_eq. by rewrite decide_True.
Qed.

Lemma Signature_from_text s : signature_wf s → Signature_from_str (signature_text s) = Ok s.
Proof using DL.
  intros [Hn Hl]. unfold Signature_from_str, signature_text. rewrite split_once_app by done. res_simpl.
  unfold RawSignature_from_str. rewrite BASE64_decode_enc. res_simpl. use_decide. by destruct s.
Qed.

(** Signatures print and parse: a signature whose key name has no colon
    is read back from its text, and whatever is read is such a signature. *)
Theorem signature_roundtrip (s : Signature) (t : bytes) (Hs : signature_wf s) :
  (∃ text, Signature_fmt s = Ok text ∧ Signature_from_str text = Ok s) ∧
  match Signature_from_str t with
  | Ok s' => signature_wf s' ∧ from_parts (key_name s') (sig s') = Ok s'
  | Err CorruptSignature => ":"%byte ∉ t
  | Err InvalidSignature => True
  | Panic => False
  end.
Proof using DL.
  split.
  - exists (signature_text s). split; [by apply Signature_fmt_eq|by apply Signature_from_text].
  - unfold Signature_from_str. destruct (split_once ":" t) as [[name r]|] eqn:E; res_simpl.
    + apply split_once_Some in E as [_ Hname]. unfold RawSignature_from_str, enc_decode.
      pose proof (law_dec_len_no_panic _ base64_laws (length r)).
      destruct (dec_len BASE64 (length r)); [|done|done].
      pose proof (law_dec_no_panic _ base64_laws r).
      destruct (dec BASE64 r) as [b| |]; res_simpl; [|done|done].
      destruct (decide (length b = SIGNATURE_BYTES)) as [Hb|]; [|done]. res_simpl.
      split; [done|]. unfold from_parts. cbn [sig key_name]. by use_decide.
    + auto with harmonia.
Qed.

(** *** Keys *)

Lemma PublicKey_from_fmt k :
  (":"%byte ∉ pk_name k) → length (pk_data k) = PUBLIC_KEY_BYTES → PublicKey_from_str (PublicKey_fmt k) = Ok k.
Proof using DL.
  intros Hn Hl. unfold PublicKey_from_str, PublicKey_fmt. rewrite split_once_app by done.
  res_simpl. rewrite decide_False by (rewrite length_BASE64, Hl; auto).
  change PUBLIC_KEY_BASE64_DECODED_LEN with (base64_len PUBLIC_KEY_BYTES / 4 * 3).
  rewrite BASE64_decode_mut_enc by done. res_simpl.
  use_decide. by destruct k.
Qed.

Context {ED : Ed25519} {EL : Ed25519Laws}.

Lemma SecretKey_from_str_ok s k : SecretKey_from_str s = Ok k →
  (":"%byte ∉ sk_name k) ∧ length (sk_data k) = SECRET_KEY_BYTES ∧
  from_seed_and_public_key (take SEED_BYTES (sk_data k)) (drop SEED_BYTES (sk_data k)) = Some (sk_key k).
Proof using Type.
  unfold SecretKey_from_str. destruct (split_once ":" s) as [[name r]|] eqn:E; [|done].
  apply split_once_Some in E as [_ Hn]. res_simpl.
  destruct (decide _); [done|]. destruct (enc_decode_mut _ _ _) as [b| |]; [|done|done]. res_simpl.
  destruct (decide _) as [|Hb]; [done|]. apply dec_stable in Hb.
  destruct (from_seed_and_public_key _ _) as [key|] eqn:Ek; [|done]. cbn. by intros [= <-].
Qed.

(** Keys work end to end: a secret key read from its text prints and
    reads back as itself, its public key prints and reads back as itself, and
    under the public key read back every signature the secret key makes
    verifies and carries the key's name. *)
Theorem key_sign_verify (s : bytes) (k : SecretKey) (Hk : SecretKey_from_str s = Ok k) :
  SecretKey_from_str (SecretKey_fmt k) = Ok k ∧
  ∃ p, to_public_key (E:=ParseKeyError) k = Ok p ∧ PublicKey_from_str (PublicKey_fmt p) = Ok p ∧
    ∀ m, ∃ g, sign (E:=ParseKeyError) k m = Ok g ∧ verify p m g = true ∧ key_name g = pk_name p ∧ signature_wf g.
Proof using DL EL.
  destruct (SecretKey_from_str_ok s k Hk) as (Hn & Hl & Hf). split.
  - unfold SecretKey_from_str, SecretKey_fmt. rewrite split_once_app by done. res_simpl.
    rewrite decide_False by (rewrite length_BASE64, Hl; auto).
    change SECRET_KEY_BASE64_DECODED_LEN with (base64_len SECRET_KEY_BYTES / 4 * 3).
    rewrite BASE64_decode_mut_enc by done. res_simpl.
    use_decide. rewrite Hf. by destruct k.
  - unfold to_public_key. rewrite decide_True by apply length_public_key. eexists. split; [done|]. split.
    + apply PublicKey_from_fmt; [done|apply length_public_key].
    + intros m. unfold sign. rewrite decide_True by apply length_ed_sign. eexists. split; [done|].
      unfold verify. cbn. split; [apply verify_sign|]. split; [done|]. split; [done|apply length_ed_sign].
Qed.

(** Parsing a key is total: it never panics, and an accepted public key
    has a name without a colon and the right size. *)
Theorem key_parse_total (s : bytes) :
  SecretKey_from_str s ≠ Panic ∧
  match PublicKey_from_str s with
  | Ok k => (":"%byte ∉ pk_name k) ∧ length (pk_data k) = PUBLIC_KEY_BYTES
  | Err CorruptKey => ":"%byte ∉ s
  | Err InvalidPublicKey => True
  | Err InvalidSecretKey => False
  | Panic => False
  end.
Proof using DL EL.
  unfold SecretKey_from_str, PublicKey_from_str.
  destruct (split_once ":" s) as [[name r]|] eqn:E; res_simpl;
    [|split; [done|auto with harmonia]].
  apply split_once_Some in E as [_ Hn]. split.
  - destruct (decide _) as [|Hl]; [done|]. apply dec_stable in Hl.
    pose proof (BASE64_decode_mut_total r SECRET_KEY_BYTES Hl) as Ht.
    change (base64_len SECRET_KEY_BYTES / 4 * 3) with SECRET_KEY_BASE64_DECODED_LEN in Ht.
    destruct (enc_decode_mut _ _ _); res_simpl; [|done|done].
    destruct (decide _); [done|]. by destruct (from_seed_and_public_key _ _).
  - destruct (decide _) as [|Hl]; [done|]. apply dec_stable in Hl.
    pose proof (BASE64_decode_mut_total r PUBLIC_KEY_BYTES Hl) as Ht.
    change (base64_len PUBLIC_KEY_BYTES / 4 * 3) with PUBLIC_KEY_BASE64_DECODED_LEN in Ht.
    destruct (enc_decode_mut _ _ _); res_simpl; [|done|done].
    destruct (decide _) as [|Hb]; [done|]. apply dec_stable in Hb. done.
Qed.

(** *** Fingerprints *)

(** The text of [dir/path]. *)
Definition full_text (dir : StoreDir) (p : StorePath) : bytes := dir ++ "/"%byte :: path_text p.

Lemma display_all_eq dir rs : Forall path_wf rs → display_all dir rs = Ok (full_text dir <$> rs).
Proof using DL.
  induction 1 as [|r rs Hr _ IH]; [done|]. cbn [display_all].
  unfold store_dir_fmt, StorePath_display. rewrite StorePath_fmt_eq by done. res_simpl.
  by rewrite IH.
Qed.

Lemma join_paths_inj dir rs rs' : Forall path_wf rs → Forall path_wf rs' →
  join "," (full_text dir <$> rs) = join "," (full_text dir <$> rs') → rs = rs'.
Proof using DL.
  assert (∀ r rs, join "," (full_text dir <$> r :: rs) = dir ++ "/"%byte :: path_text r ++
    match rs with [] => [] | _ => ","%byte :: join "," (full_text dir <$> rs) end) as Hj.
  { intros r [|r' rs0]; cbn [fmap list_fmap join]; unfold full_text; rewrite <-?app_assoc; [|done].
    by rewrite app_nil_r. }
  assert (∀ r rs, join "," (full_text dir <$> r :: rs) ≠ []) as Hne.
  { intros r rs0. rewrite Hj. by destruct dir. }
  intros Hrs. revert rs'; induction Hrs as [|r rs Hr _ IH]; intros rs' Hrs' E.
  - destruct rs' as [|r' rs']; [done|]. symmetry in E. by apply Hne in E.
  - destruct Hrs' as [|r' rs' Hr' Hrs']; [by apply Hne in E|].
    rewrite !Hj in E. apply app_inv_head in E. injection E as E.
    apply (app_sep_inj ",") in E as [Ep Er];
      [|by apply path_text_plain|by apply path_text_plain|destruct rs; auto|destruct rs'; auto].
    apply path_text_inj in Ep as ->; [|done..]. f_equal. apply IH; [done|].
    destruct rs, rs'; [done..|]. by injection Er.
Qed.

Definition fingerprint_text dir p h n rs : bytes :=
  str "1;" ++ full_text dir p ++ ";"%byte :: h ++ ";"%byte :: u64_to_string n ++ ";"%byte ::
  join "," (full_text dir <$> rs).

Lemma fingerprint_path_eq dir p h n rs :
  path_wf p → Forall path_wf rs →
  fingerprint_path dir p h n rs =
    match strip_prefix (str "sha256:") h with
    | None => Err InvalidNarHashPrefix
    | Some _ => if decide (length h = 59) then Ok (fingerprint_text dir p h n rs)
                else Err (InvalidNarHashLength (length h))
    end.
Proof using DL.
  intros Hp Hrs. unfold fingerprint_path. destruct (strip_prefix _ h); [|done].
  destruct (decide (length h = 59)) as [Hl|Hl]; [|by rewrite decide_True].
  use_decide. unfold store_dir_fmt, StorePath_display.
  rewrite StorePath_fmt_eq by done. cbn [mbind res_bind unwrap]. by rewrite display_all_eq.
Qed.

(** What is signed determines what it says: for one store directory, two
    paths with their hash, size and references that have the same fingerprint
    are the same in every part. *)
Theorem fingerprint_path_injective (dir : StoreDir) (p p' : StorePath) (h h' : bytes) (n n' : Z)
    (rs rs' : list StorePath) (t : bytes)
    (Hp : path_wf p) (Hp' : path_wf p') (Hn : is_u64 n) (Hn' : is_u64 n')
    (Hrs : Forall path_wf rs) (Hrs' : Forall path_wf rs')
    (E : fingerprint_path dir p h n rs = Ok t) (E' : fingerprint_path dir p' h' n' rs' = Ok t) :
  p = p' ∧ h = h' ∧ n = n' ∧ rs = rs'.
Proof using DL.
  rewrite fingerprint_path_eq in E by done. rewrite fingerprint_path_eq in E' by done.
  destruct (strip_prefix _ h); [|done]. destruct (strip_prefix _ h'); [|done].
  destruct (decide (length h = 59)) as [Hl|]; [|done]. destruct (decide (length h' = 59)) as [Hl'|]; [|done].
  assert (fingerprint_text dir p h n rs = fingerprint_text dir p' h' n' rs') as Et by congruence.
  unfold fingerprint_text, full_text at 1 3 in Et. apply app_inv_head in Et. rewrite <-!app_assoc in Et.
  apply app_inv_head in Et. injection Et as Et.
  apply (app_sep_inj ";") in Et as [Ep Et]; [|by apply path_text_plain|by apply path_text_plain|by right|by right].
  apply path_text_inj in Ep as ->; [|done..]. injection Et as Et.
  apply app_inj_1 in Et as [-> Et]; [|congruence]. injection Et as Et.
  assert (∀ x, is_u64 x → ";"%byte ∉ u64_to_string x) as Hplain.
  { intros x [? ?]. apply dec_to_string_plain; [|by vm_compute; intros []].
    unfold u64_modulus in *. cbn. lia. }
  apply (app_sep_inj ";") in Et as [Es Et]; [|by apply Hplain|by apply Hplain|by right|by right].
  injection Et as Et. split; [done|]. split; [done|]. split; [by apply u64_to_string_inj|].
  by apply join_paths_inj in Et.
Qed.
End laws.

(** ** Witnesses *)

(** A signature scheme that is not secret: a signature is the front of the
    public key and the message. *)
#[local] Instance open_scheme : Ed25519 := {|
  key_pair := bytes;
  from_seed_and_public_key _ p := if decide (length p = PUBLIC_KEY_BYTES) then Some p else None;
  public_key k := prefix_digest PUBLIC_KEY_BYTES k;
  ed_sign k m := prefix_digest SIGNATURE_BYTES (prefix_digest PUBLIC_KEY_BYTES k ++ m);
  ed_verify p m s := bool_decide (s = prefix_digest SIGNATURE_BYTES (p ++ m))
|}.

#[local] Instance open_scheme_laws : Ed25519Laws.
Proof.
  assert (∀ n x, length (prefix_digest n x) = n) as Hl.
  { intros n x. unfold prefix_digest. rewrite length_take, length_app, length_replicate. lia. }
  constructor.
  - intros k. apply Hl.
  - intros k m. apply Hl.
  - intros k m. unfold ed_verify, open_scheme. by apply bool_decide_eq_true.
  - intros s p k. cbn. case_decide as Hp; [|done]. intros [= <-]. unfold prefix_digest.
    rewrite <-Hp at 1. apply take_app_length.
Qed.

Definition sample_signature : Signature := mk_signature (str "cache.example.org-1") (replicate 64 "s"%byte).

Lemma signature_roundtrip_witness :
  ∃ text, Signature_fmt sample_signature = Ok text ∧ Signature_from_str text = Ok sample_signature.
Proof.
  apply (signature_roundtrip sample_signature (str "no colon")).
  split; [|reflexivity]. apply (bool_decide_unpack _). vm_compute. exact I.
Defined.

Definition sample_secret : SecretKey :=
  mk_secret_key (str "cache.example.org-1") (replicate 64 "k"%byte) (replicate 32 "k"%byte).

Lemma key_sign_verify_witness :
  SecretKey_from_str (SecretKey_fmt sample_secret) = Ok sample_secret ∧
  ∃ p, to_public_key (E:=ParseKeyError) sample_secret = Ok p ∧ PublicKey_from_str (PublicKey_fmt p) = Ok p ∧
    ∀ m, ∃ g, sign (E:=ParseKeyError) sample_secret m = Ok g ∧ verify p m g = true ∧
      key_name g = pk_name p ∧ signature_wf g.
Proof.
  apply (key_sign_verify (SecretKey_fmt sample_secret)). vm_compute. reflexivity.
Defined.

Lemma key_parse_total_witness :
  SecretKey_from_str (str "name") ≠ Panic ∧
  match PublicKey_from_str (str "name") with
  | Ok k => (":"%byte ∉ pk_name k) ∧ length (pk_data k) = PUBLIC_KEY_BYTES
  | Err CorruptKey => ":"%byte ∉ str "name"
  | Err InvalidPublicKey => True
  | Err InvalidSecretKey => False
  | Panic => False
  end.
Proof. exact (key_parse_total (str "name")). Defined.

Definition sample_nar_hash : bytes := str "sha256:1b8m03r63zqhnjf7l5wnldhh7c134ap5vpj0850ymkq1iyzicy5s".

Definition sample_fingerprint : bytes :=
  str "1;/nix/store/55xkmqns51sw7nrgykp5vnz36w4fr3cw-nix-2.1.3;sha256:1b8m03r63zqhnjf7l5wnldhh7c134ap5vpj0850ymkq1iyzicy5s;18446744073709551615;/nix/store/55xkmqns51sw7nrgykp5vnz36w4fr3cw-nix-2.1.3".

Lemma fingerprint_path_injective_witness :
  sample_path = sample_path ∧ sample_nar_hash = sample_nar_hash ∧ u64_max = u64_max ∧ [sample_path] = [sample_path].
Proof.
  apply (fingerprint_path_injective sample_dir sample_path sample_path sample_nar_hash sample_nar_hash
           u64_max u64_max [sample_path] [sample_path] sample_fingerprint).
  - exact sample_path_wf.
  - exact sample_path_wf.
  - split; [discriminate|reflexivity].
  - split; [discriminate|reflexivity].
  - constructor; [exact sample_path_wf|constructor].
  - constructor; [exact sample_path_wf|constructor].
  - vm_compute. reflexivity.
  - vm_compute. reflexivity.
Defined.
