(* ===== verification/DerivedPath.v ===== *)
(** Derived paths, derivation outputs and placeholders
    ([harmonia-store-core/src/derived_path/path.rs], [output_spec.rs],
    [realisation.rs] and [placeholder.rs]). *)

From stdpp Require Import base list numbers strings.
From Stdlib Require Import ZArith Lia Strings.Byte Sorting.Sorted.
From S2P Require Import Prelude BaseEncoding Codecs Hash StorePath.

(** ** output_spec.rs *)

Record OutputName : Type := mk_output { oname : bytes }.

#[export] Instance OutputName_eq_dec : EqDecision OutputName.
Proof. solve_decision. Defined.

Definition is_default (o : OutputName) : bool := bool_decide (oname o = str "out").

Definition OutputName_from_str (s : bytes) : res StorePathNameError OutputName := mk_output <$> into_name s.

(** A [BTreeSet<OutputName>] is the list of its elements in order. *)
Inductive OutputSpec : Type := All | Named (outputs : list OutputName).

(** [BTreeSet::insert]. *)
Fixpoint set_insert (o : OutputName) (l : list OutputName) : list OutputName :=
  match l with
  | [] => [o]
  | x :: l' =>
      match bytes_cmp (oname o) (oname x) with
      | Lt => o :: l
      | Eq => l
      | Gt => x :: set_insert o l'
      end
  end.

Fixpoint insert_names (names : list bytes) (outputs : list OutputName) : res StorePathNameError (list OutputName) :=
  match names with
  | [] => Ok outputs
  | name :: names => output ← OutputName_from_str name; insert_names names (set_insert output outputs)
  end.

Definition OutputSpec_from_str (s : bytes) : res StorePathNameError OutputSpec :=
  if decide (s = str "*") then Ok All
  else Named <$> insert_names (split_all "," s) [].

Definition OutputSpec_fmt (o : OutputSpec) : bytes :=
  match o with All => str "*" | Named outputs => join "," (oname <$> outputs) end.

(** ** derived_path/path.rs *)

Inductive SingleDerivedPath : Type :=
| SBuilt (drv_path : SingleDerivedPath) (output : OutputName)
| SOpaque (p : StorePath).

Inductive DerivedPath : Type :=
| DBuilt (drv_path : SingleDerivedPath) (outputs : OutputSpec)
| DOpaque (p : StorePath).

Fixpoint root_path (d : SingleDerivedPath) : StorePath :=
  match d with SOpaque p => p | SBuilt drv_path _ => root_path drv_path end.

Section paths.
Context {DE : DataEncoding}.

(** [DisplaySep]. *)
Fixpoint Single_fmt (sep : byte) (d : SingleDerivedPath) : res DecodePartial bytes :=
  match d with
  | SOpaque p => StorePath_fmt p
  | SBuilt drv_path output => s ← Single_fmt sep drv_path; Ok (s ++ sep :: oname output)
  end.

Definition Derived_fmt (sep : byte) (d : DerivedPath) : res DecodePartial bytes :=
  match d with
  | DOpaque p => StorePath_fmt p
  | DBuilt drv_path outputs => s ← Single_fmt sep drv_path; Ok (s ++ sep :: OutputSpec_fmt outputs)
  end.

(** [FromStrSep]: every call parses a shorter string. *)
Fixpoint Single_from_str_fuel (fuel : nat) (sep : byte) (s : bytes) : res StorePathError SingleDerivedPath :=
  match fuel with
  | O => Panic
  | S fuel =>
      match rsplitn2 sep s with
      | (last, Some prefix) =>
          drv_path ← Single_from_str_fuel fuel sep prefix;
          output ← map_err name_to_path_error (OutputName_from_str last);
          Ok (SBuilt drv_path output)
      | (last, None) => SOpaque <$> map_err pp_error (StorePath_from_str last)
      end
  end.

Definition Single_from_str_sep (sep : byte) (s : bytes) : res StorePathError SingleDerivedPath :=
  Single_from_str_fuel (S (length s)) sep s.

Definition Derived_from_str_sep (sep : byte) (s : bytes) : res StorePathError DerivedPath :=
  match rsplitn2 sep s with
  | (last, Some prefix) =>
      drv_path ← Single_from_str_sep sep prefix;
      outputs ← map_err name_to_path_error (OutputSpec_from_str last);
      Ok (DBuilt drv_path outputs)
  | (last, None) => DOpaque <$> map_err pp_error (StorePath_from_str last)
  end.

#[export] Instance Single_from_store_dir_str : FromStoreDirStr SingleDerivedPath ParseStorePathError := λ dir s,
  map_err (mk_parse_path s) (StoreDir_strip_prefix dir s ≫= Single_from_str_sep "^").

#[export] Instance Derived_from_store_dir_str : FromStoreDirStr DerivedPath ParseStorePathError := λ dir s,
  map_err (mk_parse_path s) (StoreDir_strip_prefix dir s ≫= Derived_from_str_sep "^").

(** [LegacyDerivedPath]. *)
Definition Legacy_from_store_dir_str (dir : StoreDir) (s : bytes) : res ParseStorePathError DerivedPath :=
  map_err (mk_parse_path s) (StoreDir_strip_prefix dir s ≫= Derived_from_str_sep "!").

#[export] Instance Single_display : StoreDirDisplay SingleDerivedPath := λ dir d,
  s ← Single_fmt "^" d; Ok (dir ++ "/"%byte :: s).

#[export] Instance Derived_display : StoreDirDisplay DerivedPath := λ dir d,
  s ← Derived_fmt "^" d; Ok (dir ++ "/"%byte :: s).

(** [to_legacy_format]. *)
Definition Legacy_fmt (dir : StoreDir) (d : DerivedPath) : res DecodePartial bytes :=
  s ← Derived_fmt "!" d; Ok (dir ++ "/"%byte :: s).

(** ** realisation.rs *)

Record DrvOutput : Type := mk_drv_output { do_path : StorePath; do_output : OutputName }.

Inductive ParseDrvOutputError : Type :=
| DOStorePath (e : ParseStorePathError)
| DOOutputName (e : StorePathNameError)
| InvalidDerivationOutputId (s : bytes).

Definition DrvOutput_fmt (d : DrvOutput) : res DecodePartial bytes :=
  s ← StorePath_fmt (do_path d); Ok (s ++ "^"%byte :: oname (do_output d)).

Definition DrvOutput_from_str (s : bytes) : res ParseDrvOutputError DrvOutput :=
  match split_once "^" s with
  | Some (drv_path_s, output_name_s) =>
      drv_path ← map_err DOStorePath (StorePath_from_str drv_path_s);
      output_name ← map_err DOOutputName (OutputName_from_str output_name_s);
      Ok (mk_drv_output drv_path output_name)
  | None => Err (InvalidDerivationOutputId s)
  end.

(** ** placeholder.rs *)

Record Placeholder : Type := mk_placeholder { ph_hash : bytes }.

Inductive StorePathOrPlaceholder : Type := SPPath (p : StorePath) | SPPlaceholder (p : Placeholder).

Definition render (p : Placeholder) : bytes := "/"%byte :: encode_string (ph_hash p).

(** [OutputPathName] of [derivation_output.rs]. *)
Definition output_path_name (drv_name : StorePathName) (output_name : OutputName) : bytes :=
  if is_default output_name then spn drv_name else spn drv_name ++ "-"%byte :: oname output_name.

(** [compress_hash]. *)
Fixpoint xor_into (new_size i : nat) (hash result : bytes) : bytes :=
  match hash with
  | [] => result
  | b :: hash => xor_into new_size (S i) hash (alter (λ d, byte_xor d b) (i mod new_size) result)
  end.

Definition compress_hash (hash : bytes) (new_size : nat) : bytes :=
  match hash with [] => [] | _ => xor_into new_size 0 hash (replicate new_size x00) end.

Context {DG : DigestLib}.

Definition standard_output (output_name : OutputName) : res DecodePartial Placeholder :=
  h ← Sha256_digest (str "nix-output:" ++ oname output_name); Ok (mk_placeholder (sha256_data h)).

(** [drv_name_str.parse().unwrap()]. *)
Definition ca_output (drv_path : StorePath) (output_name : OutputName) : res DecodePartial Placeholder :=
  let drv_name_str := spn (sp_name drv_path) in
  let drv_name_str := default drv_name_str (strip_suffix (str ".drv") drv_name_str) in
  drv_name ← unwrap (StorePathName_try_from drv_name_str);
  t ← StorePathHash_fmt (sp_hash drv_path);
  h ← Sha256_digest (str "nix-upstream-output:" ++ t ++ ":"%byte :: output_path_name drv_name output_name);
  Ok (mk_placeholder (sha256_data h)).

Definition dynamic_output (placeholder : Placeholder) (output_name : OutputName) : res DecodePartial Placeholder :=
  let compressed := compress_hash (ph_hash placeholder) 20 in
  h ← Sha256_digest (str "nix-computed-output:" ++ encode_string compressed ++ ":"%byte :: oname output_name);
  Ok (mk_placeholder (sha256_data h)).

Definition placeholder_output (drv : StorePathOrPlaceholder) (output_name : OutputName) :
    res DecodePartial Placeholder :=
  match drv with
  | SPPath store_path => ca_output store_path output_name
  | SPPlaceholder placeholder => dynamic_output placeholder output_name
  end.

(** [From<&SingleDerivedPath> for StorePathOrPlaceholder]. *)
Fixpoint to_placeholder (path : SingleDerivedPath) : res DecodePartial StorePathOrPlaceholder :=
  match path with
  | SOpaque store_path => Ok (SPPath store_path)
  | SBuilt drv_path output =>
      drv ← to_placeholder drv_path; SPPlaceholder <$> placeholder_output drv output
  end.

(** [TryFrom<String> for Placeholder]. *)
Definition Placeholder_try_from (s : bytes) : res DecodePartial Placeholder :=
  n ← decode_len (length s); h ← decode_mut s n; Ok (mk_placeholder (h ++ drop (length h) (replicate n x00))).
End paths.

(** ** Output names and sets of them *)

Definition output_ok (o : OutputName) : Prop := name_ok (oname o).

Abbreviation sorted := (StronglySorted (λ x y, bytes_cmp (oname x) (oname y) = Lt)).

Definition spec_wf (o : OutputSpec) : Prop :=
  match o with All => True | Named l => l ≠ [] ∧ Forall output_ok l ∧ sorted l end.

Lemma OutputName_from_str_ok s : name_ok s → OutputName_from_str s = Ok (mk_output s).
Proof. intros Hs. unfold OutputName_from_str. by rewrite into_name_ok. Qed.

Lemma OutputName_from_str_spec s :
  match OutputName_from_str s with Ok o => oname o = s ∧ output_ok o | Err _ => True | Panic => False end.
Proof.
  unfold OutputName_from_str. pose proof (into_name_spec s) as Hs.
  destruct (into_name s); cbn; [by destruct Hs as [-> ?]|done|done].
Qed.

Lemma set_insert_last o l : Forall (λ x, bytes_cmp (oname x) (oname o) = Lt) l → set_insert o l = l ++ [o].
Proof.
  induction 1 as [|x l Hx _ IH]; cbn; [done|]. rewrite bytes_cmp_antisym, Hx. cbn. by rewrite IH.
Qed.

Lemma set_insert_elem o l x : x ∈ set_insert o l ↔ x = o ∨ x ∈ l.
Proof.
  induction l as [|y l IH]; cbn; [by rewrite list_elem_of_singleton, elem_of_nil; tauto|].
  destruct (bytes_cmp (oname o) (oname y)) eqn:E; rewrite ?elem_of_cons, ?IH; [|tauto|tauto].
  apply bytes_cmp_eq in E. destruct o, y. cbn in E. subst. tauto.
Qed.

Lemma set_insert_sorted o l : sorted l → sorted (set_insert o l).
Proof.
  induction 1 as [|y l Hl IH HF]; cbn; [repeat constructor|].
  destruct (bytes_cmp (oname o) (oname y)) eqn:E.
  - by constructor.
  - constructor; [by constructor|]. constructor; [done|].
    eapply Forall_impl; [exact HF|]. intros z Hz. by eapply bytes_cmp_trans.
  - constructor; [done|]. apply Forall_forall. intros z [-> |Hz]%set_insert_elem.
    + by rewrite bytes_cmp_antisym, E.
    + rewrite Forall_forall in HF. by apply HF.
Qed.

Lemma insert_names_ok l acc : Forall output_ok l → sorted (acc ++ l) → insert_names (oname <$> l) acc = Ok (acc ++ l).
Proof.
  intros HF. revert acc; induction HF as [|o l Ho _ IH]; intros acc Hs; cbn; [by rewrite app_nil_r|].
  rewrite OutputName_from_str_ok by done. cbn. destruct o as [o]. cbn in *.
  rewrite set_insert_last.
  - rewrite IH; rewrite <-app_assoc; done.
  - clear -Hs. induction acc as [|x acc IH]; [constructor|]. cbn in Hs. inversion_clear Hs as [|? ? Hs' HF].
    apply Forall_app in HF as [_ HF]. apply Forall_cons in HF as [HF _]. constructor; [done|by apply IH].
Qed.

Lemma insert_names_spec names acc : sorted acc → Forall output_ok acc →
  match insert_names names acc with
  | Ok l => sorted l ∧ Forall output_ok l ∧ ∀ o, o ∈ l ↔ o ∈ acc ∨ oname o ∈ names
  | Err _ => True
  | Panic => False
  end.
Proof.
  revert acc; induction names as [|name names IH]; intros acc Hs HF; cbn.
  - split; [done|]. split; [done|]. intros o. rewrite elem_of_nil. tauto.
  - pose proof (OutputName_from_str_spec name) as Hn.
    destruct (OutputName_from_str name) as [o|e|]; cbn; [|done|done]. destruct Hn as [<- Ho].
    specialize (IH (set_insert o acc) (set_insert_sorted o acc Hs)).
    destruct (insert_names names _) as [l| |]; [|done|].
    + destruct IH as (Hs' & HF' & Hel).
      { apply Forall_forall. intros x [-> |Hx]%set_insert_elem; [done|]. by eapply Forall_forall in HF. }
      split; [done|]. split; [done|]. intros x. rewrite Hel, set_insert_elem, elem_of_cons.
      assert (oname x = oname o ↔ x = o) as <- by (destruct x, o; cbn; split; congruence). tauto.
    + apply IH. apply Forall_forall. intros x [-> |Hx]%set_insert_elem; [done|]. by eapply Forall_forall in HF.
Qed.

Lemma name_ok_plain s c : name_ok s → NAME_LOOKUP c = false → c ∉ s.
Proof. intros (_ & _ & HF) Hc Hin. rewrite Forall_forall in HF. apply HF in Hin. congruence. Qed.

Lemma OutputSpec_from_fmt o : spec_wf o → OutputSpec_from_str (OutputSpec_fmt o) = Ok o.
Proof.
  destruct o as [|l]; [done|]. intros (Hne & HF & Hs). unfold OutputSpec_from_str. cbn [OutputSpec_fmt].
  assert (split_all "," (join "," (oname <$> l)) = oname <$> l) as Hsp.
  { apply split_all_join; [by destruct l|]. apply Forall_fmap. eapply Forall_impl; [exact HF|].
    intros x Hx. by apply name_ok_plain. }
  rewrite decide_False.
  - rewrite Hsp, insert_names_ok by done. done.
  - intros Hstar. rewrite Hstar in Hsp. destruct HF as [|x l' Hx HF]; [done|].
    injection Hsp as Hx' _. apply (name_ok_plain _ "*") in Hx; [|done]. apply Hx. rewrite <-Hx'. left.
Qed.

Lemma OutputSpec_fmt_plain o c : spec_wf o → c = "^"%byte ∨ c = "!"%byte → c ∉ OutputSpec_fmt o.
Proof.
  intros Ho Hc. assert (NAME_LOOKUP c = false ∧ c ≠ ","%byte ∧ c ≠ "*"%byte) as (Hl & H1 & H2)
    by (destruct Hc as [-> | ->]; done).
  destruct o as [|l]; cbn [OutputSpec_fmt].
  - change (str "*") with ["*"%byte]. by rewrite list_elem_of_singleton.
  - destruct Ho as (_ & HF & _). induction HF as [|x l Hx HF IH]; [by intros ?%elem_of_nil|].
    apply (name_ok_plain _ c) in Hx; [|done]. cbn. destruct l; cbn in *; [done|].
    by rewrite not_elem_of_app, not_elem_of_cons.
Qed.

(** ** Paths *)

Fixpoint single_wf (d : SingleDerivedPath) : Prop :=
  match d with SOpaque p => path_wf p | SBuilt d o => single_wf d ∧ output_ok o end.

Definition derived_wf (d : DerivedPath) : Prop :=
  match d with DOpaque p => path_wf p | DBuilt d o => single_wf d ∧ spec_wf o end.

Section laws.
Context {DE : DataEncoding} {DL : DataEncodingLaws}.

Fixpoint single_text (sep : byte) (d : SingleDerivedPath) : bytes :=
  match d with SOpaque p => path_text p | SBuilt d o => single_text sep d ++ sep :: oname o end.

Definition derived_text (sep : byte) (d : DerivedPath) : bytes :=
  match d with DOpaque p => path_text p | DBuilt d o => single_text sep d ++ sep :: OutputSpec_fmt o end.

Lemma Single_fmt_eq sep d : single_wf d → Single_fmt sep d = Ok (single_text sep d).
Proof using DL.
  induction d as [d IH o|p]; cbn; [|apply StorePath_fmt_eq]. intros [Hd _]. by rewrite IH.
Qed.

Lemma Derived_fmt_eq sep d : derived_wf d → Derived_fmt sep d = Ok (derived_text sep d).
Proof using DL.
  destruct d; cbn; [|apply StorePath_fmt_eq]. intros [Hd _]. by rewrite Single_fmt_eq.
Qed.

Lemma StorePath_from_text p : path_wf p → StorePath_from_str (path_text p) = Ok p.
Proof using DL. intros Hp. unfold StorePath_from_str. by rewrite from_bytes_text. Qed.

Lemma StorePath_from_str_spec s :
  match StorePath_from_str s with
  | Ok p => path_wf p ∧ path_text p = s
  | Err e => pp_path e = s
  | Panic => False
  end.
Proof using DL.
  unfold StorePath_from_str. pose proof (from_bytes_spec s) as Hs.
  destruct (from_bytes s) as [p|e|]; cbn; [|done|done]. destruct Hs as [Hp Ht]. split; [done|].
  rewrite StorePath_fmt_eq in Ht by done. by injection Ht.
Qed.

Lemma Single_from_text sep d fuel : NAME_LOOKUP sep = false → single_wf d →
  length (single_text sep d) < fuel → Single_from_str_fuel fuel sep (single_text sep d) = Ok d.
Proof using DL.
  intros Hsep. revert fuel; induction d as [d IH o|p]; intros [|fuel] Hd Hf; try lia; cbn [Single_from_str_fuel single_text].
  - destruct Hd as [Hd Ho]. rewrite rsplitn2_app by (by apply name_ok_plain).
    cbn [single_text] in Hf. rewrite length_app in Hf. cbn in Hf.
    rewrite IH by (done || lia). cbn. destruct o as [o]. by rewrite OutputName_from_str_ok.
  - rewrite rsplitn2_None by (by apply path_text_plain). by rewrite StorePath_from_text.
Qed.

Lemma Single_from_str_spec sep s fuel : length s < fuel →
  match Single_from_str_fuel fuel sep s with
  | Ok d => single_wf d ∧ single_text sep d = s
  | Err _ => True
  | Panic => False
  end.
Proof using DL.
  revert s; induction fuel as [|fuel IH]; intros s Hf; [lia|]. cbn [Single_from_str_fuel].
  destruct (rsplitn2 sep s) as [last [prefix|]] eqn:E.
  - apply rsplitn2_Some in E as [-> _]. rewrite length_app in Hf. cbn in Hf.
    specialize (IH prefix ltac:(lia)). destruct (Single_from_str_fuel fuel sep prefix) as [d| |]; cbn; [|done|done].
    pose proof (OutputName_from_str_spec last) as Ho.
    destruct (OutputName_from_str last) as [o| |]; cbn; [|done|done].
    destruct IH as [? ->], Ho as [-> ?]. done.
  - assert (last = s) as ->.
    { unfold rsplitn2 in E. destruct (split_once sep (rev s)) as [[]|]; [done|]. by injection E. }
    pose proof (StorePath_from_str_spec s) as Hp. by destruct (StorePath_from_str s).
Qed.

Lemma Derived_from_text sep d : sep = "^"%byte ∨ sep = "!"%byte → derived_wf d →
  Derived_from_str_sep sep (derived_text sep d) = Ok d.
Proof using DL.
  intros Hsep. assert (NAME_LOOKUP sep = false) as Hl by (destruct Hsep as [-> | ->]; done).
  destruct d as [d o|p]; cbn [derived_wf derived_text]; unfold Derived_from_str_sep.
  - intros [Hd Ho]. rewrite rsplitn2_app by (by apply OutputSpec_fmt_plain).
    unfold Single_from_str_sep. rewrite Single_from_text by (done || lia). res_simpl.
    by rewrite OutputSpec_from_fmt.
  - intros Hp. rewrite rsplitn2_None by (by apply path_text_plain). by rewrite StorePath_from_text.
Qed.

(** Derived paths print and parse: a derived path, in the current and in
    the legacy notation, and a single derived path are read back from their
    text below an absolute store directory. *)
Theorem derived_path_roundtrip (dir : StoreDir) (d : DerivedPath) (sd : SingleDerivedPath)
    (Hdir : is_absolute dir = true) (Hd : derived_wf d) (Hsd : single_wf sd) :
  (∃ t, store_dir_fmt dir d = Ok t ∧ from_store_dir_str dir t = Ok d) ∧
  (∃ t, Legacy_fmt dir d = Ok t ∧ Legacy_from_store_dir_str dir t = Ok d) ∧
  (∃ t, store_dir_fmt dir sd = Ok t ∧ from_store_dir_str dir t = Ok sd).
Proof using DL.
  unfold store_dir_fmt, Derived_display, Legacy_fmt, Single_display, from_store_dir_str,
    Derived_from_store_dir_str, Legacy_from_store_dir_str, Single_from_store_dir_str.
  rewrite !Derived_fmt_eq, Single_fmt_eq by done. res_simpl.
  split; [|split]; (eexists; split; [done|]); rewrite strip_printed by done; res_simpl.
  - by rewrite Derived_from_text by auto.
  - by rewrite Derived_from_text by auto.
  - unfold Single_from_str_sep. by rewrite Single_from_text by (done || lia).
Qed.

(** Parsing a derived path is total and faithful: it never panics; an
    accepted text is the text of the derivation's path, the separator and the
    output specification; a list of outputs becomes the ordered set of exactly
    the names in it. *)
Theorem derived_path_parse (sep : byte) (s : bytes) :
  match Derived_from_str_sep sep s with
  | Ok (DOpaque p) => path_wf p ∧ path_text p = s
  | Ok (DBuilt sd o) =>
      ∃ last, s = single_text sep sd ++ sep :: last ∧ single_wf sd ∧ spec_wf o ∧
        match o with
        | All => last = str "*"
        | Named l => ∀ x, x ∈ l ↔ oname x ∈ split_all "," last
        end
  | Err _ => True
  | Panic => False
  end.
Proof using DL.
  unfold Derived_from_str_sep. destruct (rsplitn2 sep s) as [last [prefix|]] eqn:E.
  - apply rsplitn2_Some in E as [-> _].
    pose proof (Single_from_str_spec sep prefix (S (length prefix)) ltac:(lia)) as Hs. unfold Single_from_str_sep.
    destruct (Single_from_str_fuel _ sep prefix) as [sd| |]; res_simpl; [|done|done].
    destruct Hs as [Hsd <-]. unfold OutputSpec_from_str. destruct (decide (last = str "*")) as [->|]; res_simpl.
    + by exists (str "*").
    + pose proof (insert_names_spec (split_all "," last) [] ltac:(constructor) ltac:(constructor)) as Hi.
      destruct (insert_names _ _) as [l| |]; cbn; [|done|done]. destruct Hi as (Hs & HF & Hel).
      exists last. split; [done|]. split; [done|].
      assert (∀ x, x ∈ l ↔ oname x ∈ split_all "," last) as Hel'
        by (intros x; rewrite Hel, elem_of_nil; tauto).
      split; [|done]. split; [|done]. intros ->.
      destruct (split_all "," last) as [|q qs] eqn:Eq; [by destruct last; cbn in Eq; repeat case_match|].
      apply (elem_of_nil (mk_output q)), Hel'. cbn. left.
  - assert (last = s) as ->.
    { unfold rsplitn2 in E. destruct (split_once sep (rev s)) as [[]|]; [done|]. by injection E. }
    pose proof (StorePath_from_str_spec s) as Hp. by destruct (StorePath_from_str s).
Qed.

(** Derivation outputs print and parse, and parsing is total: a missing
    separator is reported with the text, and nothing panics. *)
Theorem drv_output_roundtrip (d : DrvOutput) (s : bytes)
    (Hp : path_wf (do_path d)) (Ho : output_ok (do_output d)) :
  (∃ t, DrvOutput_fmt d = Ok t ∧ DrvOutput_from_str t = Ok d) ∧
  match DrvOutput_from_str s with
  | Ok d' => path_wf (do_path d') ∧ output_ok (do_output d') ∧ DrvOutput_fmt d' = Ok s
  | Err (InvalidDerivationOutputId t) => t = s ∧ ("^"%byte ∉ s)
  | Err _ => True
  | Panic => False
  end.
Proof using DL.
  split.
  - unfold DrvOutput_fmt. rewrite StorePath_fmt_eq by done. eexists. split; [done|].
    unfold DrvOutput_from_str. rewrite split_once_app by (by apply path_text_plain).
    rewrite StorePath_from_text by done. cbn. destruct d as [p [o]]. cbn in *. by rewrite OutputName_from_str_ok.
  - unfold DrvOutput_from_str. destruct (split_once "^" s) as [[ps os]|] eqn:E;
      [|split; [done|auto with harmonia]].
    apply split_once_Some in E as [-> _].
    pose proof (StorePath_from_str_spec ps) as Hps. destruct (StorePath_from_str ps) as [p| |]; cbn; [|done|done].
    pose proof (OutputName_from_str_spec os) as Hos. destruct (OutputName_from_str os) as [o| |]; cbn; [|done|done].
    destruct Hps as [Hpw <-], Hos as [<- Hoo]. split; [done|]. split; [done|].
    unfold DrvOutput_fmt. cbn. by rewrite StorePath_fmt_eq.
Qed.

(** ** Placeholders *)

Context {DG : DigestLib} {DGL : DigestLaws}.

Lemma dynamic_output_ok h o : ∃ g, dynamic_output h o = Ok g ∧ length (ph_hash g) = 32.
Proof using DGL.
  unfold dynamic_output. destruct (Sha256_digest_eq (E:=DecodePartial)
    (str "nix-computed-output:" ++ encode_string (compress_hash (ph_hash h) 20) ++ ":"%byte :: oname o)) as [-> Hwf].
  by eexists.
Qed.

(** What is left of a name without its [.drv] is a name, unless nothing is. *)
Lemma stripped_name_ok s : name_ok s →
  name_ok (default s (strip_suffix (str ".drv") s)) ∨ s = str ".drv".
Proof using Type.
  intros (Hne & Hl & HF). destruct (strip_suffix (str ".drv") s) as [q|] eqn:E; cbn; [|by left].
  apply strip_suffix_Some in E as ->. destruct q as [|b q]; [by right|left].
  rewrite length_app in Hl. apply Forall_app in HF as [HF _]. split; [done|]. split; [lia|done].
Qed.

Lemma ca_output_spec p o : path_wf p →
  match ca_output p o with
  | Ok g => length (ph_hash g) = 32 ∧ spn (sp_name p) ≠ str ".drv"
  | Err _ => False
  | Panic => spn (sp_name p) = str ".drv"
  end.
Proof using DL DGL.
  intros [Hh Hn]. unfold ca_output, StorePathName_try_from.
  destruct (decide (spn (sp_name p) = str ".drv")) as [->|Hd]; [done|].
  destruct (stripped_name_ok _ Hn) as [Hs|]; [|done]. rewrite into_name_ok by done.
  res_simpl. rewrite (proj1 (StorePathHash_fmt_eq _ Hh)). res_simpl.
  by rewrite (proj1 (Sha256_digest_eq _)); cbn; split; [apply (Sha256_digest_eq (E:=DecodePartial))|].
Qed.

Lemma xor_into_eq i items acc : xor_into 20 i items acc = xor_items i items acc.
Proof using Type. revert i acc; induction items as [|b items IH]; intros i acc; [done|]. apply IH. Qed.

(** The placeholder of a derived path: an opaque path stands for itself,
    an output for a 32-byte placeholder; the only failure is the panic on a
    derivation that is named just [.drv]. The hash is compressed by the same
    function as the hash of a store path. *)
Theorem placeholder_total (d : SingleDerivedPath) (h : Sha256) (Hd : single_wf d) (Hh : Sha256_wf h) :
  match to_placeholder d with
  | Ok (SPPath p) => d = SOpaque p
  | Ok (SPPlaceholder g) => d ≠ SOpaque (root_path d) ∧ length (ph_hash g) = 32 ∧ spn (sp_name (root_path d)) ≠ str ".drv"
  | Err _ => False
  | Panic => d ≠ SOpaque (root_path d) ∧ spn (sp_name (root_path d)) = str ".drv"
  end ∧
  compress_hash (sha256_data h) 20 = sph (new_from_hash h).
Proof using DL DGL.
  split.
  - induction d as [d IH o|p]; [|done]. destruct Hd as [Hd Ho]. specialize (IH Hd). cbn [to_placeholder root_path].
    destruct (to_placeholder d) as [[p|g]| |]; cbn [mbind res_bind fmap res_fmap placeholder_output]; [| |done|].
    + subst d. cbn [root_path]. pose proof (ca_output_spec p o Hd) as Hc.
      destruct (ca_output p o) as [g| |]; cbn; [|done|by split]. destruct Hc. by split_and!.
    + destruct IH as (_ & _ & Hr). destruct (dynamic_output_ok g o) as (g' & -> & Hg). done.
    + by destruct IH as [_ ?].
  - unfold compress_hash, new_from_hash. cbn [digest_bytes Sha256_CommonHash]. rewrite xor_into_eq.
    unfold Sha256_wf in Hh. cbn [size] in Hh. by destruct (sha256_data h).
Qed.

(** The text of a placeholder is read back as the placeholder; on a text
    that is not as long as any encoding, the conversion does not return an
    error but panics. *)
Theorem placeholder_text (g : Placeholder) :
  Placeholder_try_from (encode_string (ph_hash g)) = Ok g ∧
  Placeholder_try_from (str "0") = Panic.
Proof using DL.
  split; [|done]. unfold Placeholder_try_from, encode_string. change (rev (enc NIX_BASE32 (ph_hash g))) with (encoded NixBase32 (ph_hash g)).
  rewrite length_encoded. cbn [input_len]. rewrite encode_len_decode. res_simpl.
  pose proof (decode_encoded NixBase32 (ph_hash g)) as Hd. cbn [decode_for_base scratch_len] in Hd. rewrite Hd.
  res_simpl. rewrite drop_replicate, Nat.sub_diag, app_nil_r. by destruct g.
Qed.
End laws.

(** ** Witnesses *)

#[local] Existing Instance prefix_lib.
#[local] Existing Instance prefix_laws.

Definition sample_single : SingleDerivedPath := SBuilt (SOpaque sample_path) (mk_output (str "dev")).
Definition sample_derived : DerivedPath :=
  DBuilt sample_single (Named [mk_output (str "bin"); mk_output (str "out")]).

Lemma small_name_ok s : s ≠ [] → length s ≤ 200 → forallb NAME_LOOKUP s = true → name_ok s.
Proof.
  intros Hne Hl HF. split; [done|]. split; [unfold MAX_NAME_LEN; lia|].
  apply Forall_forall. intros b Hb. rewrite forallb_forall in HF. by apply HF, list_elem_of_In.
Qed.

Lemma sample_single_wf : single_wf sample_single.
Proof. split; [exact sample_path_wf|]. apply small_name_ok; [discriminate|cbn; lia|reflexivity]. Qed.

Lemma sample_derived_wf : derived_wf sample_derived.
Proof.
  split; [exact sample_single_wf|]. split; [discriminate|]. split.
  - repeat constructor; apply small_name_ok; [discriminate|cbn; lia|reflexivity|discriminate|cbn; lia|reflexivity].
  - repeat constructor.
Qed.

Lemma derived_path_roundtrip_witness :
  (∃ t, store_dir_fmt sample_dir sample_derived = Ok t ∧ from_store_dir_str sample_dir t = Ok sample_derived) ∧
  (∃ t, Legacy_fmt sample_dir sample_derived = Ok t ∧ Legacy_from_store_dir_str sample_dir t = Ok sample_derived) ∧
  (∃ t, store_dir_fmt sample_dir sample_single = Ok t ∧ from_store_dir_str sample_dir t = Ok sample_single).
Proof. exact (derived_path_roundtrip sample_dir sample_derived sample_single eq_refl sample_derived_wf sample_single_wf). Defined.

Lemma derived_path_parse_witness :
  match Derived_from_str_sep "^" (str "x^out,bin") with
  | Ok (DOpaque p) => path_wf p ∧ path_text p = str "x^out,bin"
  | Ok (DBuilt sd o) =>
      ∃ last, str "x^out,bin" = single_text "^" sd ++ "^"%byte :: last ∧ single_wf sd ∧ spec_wf o ∧
        match o with
        | All => last = str "*"
        | Named l => ∀ x, x ∈ l ↔ oname x ∈ split_all "," last
        end
  | Err _ => True
  | Panic => False
  end.
Proof. exact (derived_path_parse "^" (str "x^out,bin")). Defined.

Lemma drv_output_roundtrip_witness :
  ∃ t, DrvOutput_fmt (mk_drv_output sample_path (mk_output (str "out"))) = Ok t ∧
    DrvOutput_from_str t = Ok (mk_drv_output sample_path (mk_output (str "out"))).
Proof.
  apply (drv_output_roundtrip (mk_drv_output sample_path (mk_output (str "out"))) []).
  - exact sample_path_wf.
  - apply small_name_ok; [discriminate|cbn; lia|reflexivity].
Defined.

Lemma placeholder_total_witness :
  compress_hash (sha256_data sample_sha256) 20 = sph (new_from_hash sample_sha256).
Proof. exact (proj2 (placeholder_total sample_single sample_sha256 sample_single_wf eq_refl)). Defined.

Lemma placeholder_text_witness :
  Placeholder_try_from (encode_string (str "hash")) = Ok (mk_placeholder (str "hash")) ∧
  Placeholder_try_from (str "0") = Panic.
Proof. exact (placeholder_text (mk_placeholder (str "hash"))). Defined.
