(* ===== verification/Pool.v ===== *)
(** The connection pool of the remote store
    ([harmonia-store-remote/src/pool.rs]): the pool's shared state, the
    critical sections that change it, and the system of concurrent [acquire]
    calls and guards that run them.

    A call of [acquire] and the guard it returns are a _job_. A job moves from
    one await point to the next in one step; the body of a critical section of
    the [Mutex] is one step, since no other job sees the state in between.
    Jobs interleave in any order, time passes between steps, and a pending
    [acquire] can be cancelled (its future dropped) at any await point.

    The daemon client and tokio's [Notify] are not part of the repository:
    they are the parameters [Client] and [Notify]. The Prometheus metrics are
    the log of the calls the pool makes. *)

From stdpp Require Import base list gmap numbers strings.
From Stdlib Require Import ZArith Lia.
From S2P Require Import Prelude.

(** ** Data *)

(** [DaemonError], as far as the pool makes or passes it on. *)
Inductive DaemonError : Type :=
| Custom (msg : string)
| FromDaemon (code : nat).

Definition timeout_error (context : string) : DaemonError :=
  Custom (String.append "timeout: " context).

(** Durations and instants are in milliseconds. *)
Record PoolConfig : Type := mk_config {
  max_size : nat;
  max_idle_time : Z;
  acquire_timeout : Z;
  connection_timeout : Z;
  metrics : bool
}.

(** [available_parallelism] is [None] where the system does not tell. *)
Definition PoolConfig_default (available_parallelism : option nat) : PoolConfig :=
  mk_config (match available_parallelism with Some n => n + 1 | None => 5 end)
    300000 30000 10000 false.

(** The calls of the metrics' methods. *)
Inductive metric : Type :=
| IdleConnections (n : Z)
| ActiveConnections (n : Z)
| ConnectionsCreated (label : string)
| ConnectionErrors (label : string)
| AcquireDuration (label : string) (d : Z).

Class Notify : Type := {
  notify_t : Type;
  notify_new : notify_t;
  notify_one : notify_t → notify_t;
  (** A poll of the future [notified()] of job [j], and its drop. *)
  poll_notified : nat → notify_t → notify_t * bool;
  drop_notified : nat → notify_t → notify_t
}.

Section pool.
Context {Client : Type} {NT : Notify}.

Record PooledConnection : Type := mk_conn { client : Client; last_used : Z }.

(** [Instant::elapsed] saturates at zero. *)
Definition elapsed (now since : Z) : Z := Z.max 0 (now - since).

Definition is_expired (now : Z) (c : PooledConnection) (max_idle : Z) : bool :=
  bool_decide (max_idle < elapsed now (last_used c))%Z.

Record PoolState : Type := mk_state {
  idle : list PooledConnection;
  active_count : nat;
  capacity : nat;
  waiting_count : nat
}.

Definition invariant (s : PoolState) : bool :=
  bool_decide (active_count s + length (idle s) ≤ capacity s) && bool_decide (0 < capacity s).

(** ** Critical sections

    [debug_assert!] panics, as in a debug build; the metrics calls are
    returned. *)

Definition debug_assert (b : bool) : res DaemonError unit := if b then Ok tt else Panic.

Definition update_metrics (cfg : PoolConfig) (s : PoolState) : list metric :=
  if metrics cfg then
    [IdleConnections (Z.of_nat (length (idle s))); ActiveConnections (Z.of_nat (active_count s))]
  else [].

Definition log_metric (cfg : PoolConfig) (m : metric) : list metric :=
  if metrics cfg then [m] else [].

Definition ConnectionPool_new (cfg : PoolConfig) : res DaemonError PoolState :=
  if decide (max_size cfg = 0) then Panic else
  let s := mk_state [] 0 (max_size cfg) 0 in
  _ ← debug_assert (invariant s);
  mret s.

(** [try_acquire] up to the release of the lock: a connection, or leave to
    create one, or the order to wait. *)
Inductive TryResult : Type :=
| Reused (c : PooledConnection)
| MustCreate
| WaitRequired.

Definition try_acquire (cfg : PoolConfig) (now start : Z) (s : PoolState)
    : res DaemonError (PoolState * list metric * TryResult) :=
  _ ← debug_assert (invariant s);
  let log := update_metrics cfg s in
  let kept := filter (λ c, is_expired now c (max_idle_time cfg) = false) (idle s) in
  match kept with
  | c :: rest =>
      let s := mk_state rest (active_count s + 1) (capacity s) (waiting_count s) in
      _ ← debug_assert (invariant s);
      mret (s, log ++ update_metrics cfg s ++
               log_metric cfg (AcquireDuration "reused" (elapsed now start)),
            Reused (mk_conn (client c) now))
  | [] =>
      if decide (active_count s < capacity s) then
        let s := mk_state [] (active_count s + 1) (capacity s) (waiting_count s) in
        _ ← debug_assert (invariant s);
        mret (s, log ++ update_metrics cfg s, MustCreate)
      else if decide (Z.of_nat (waiting_count s + 1) < u64_modulus)%Z then
        mret (mk_state [] (active_count s) (capacity s) (waiting_count s + 1), log, WaitRequired)
      else Panic
  end.

(** The error branch after [create_connection]. *)
Definition create_failed (cfg : PoolConfig) (s : PoolState)
    : res DaemonError (PoolState * list metric) :=
  let s := mk_state (idle s) (active_count s - 1) (capacity s) (waiting_count s) in
  _ ← debug_assert (invariant s);
  mret (s, update_metrics cfg s ++ log_metric cfg (ConnectionsCreated "error") ++
           log_metric cfg (ConnectionErrors "creation_failed")).

(** [saturating_sub(1)] of the waiting count, woken or timed out. *)
Definition stop_waiting (s : PoolState) : PoolState :=
  mk_state (idle s) (active_count s) (capacity s) (waiting_count s - 1).

(** The task that [Drop] spawns, up to the release of the lock; the flag says
    that a waiter is to be notified. *)
Definition drop_guard (cfg : PoolConfig) (now : Z) (conn : option PooledConnection) (s : PoolState)
    : res DaemonError (PoolState * list metric * bool) :=
  _ ← debug_assert (invariant s);
  let '(s, log) :=
    if decide (0 < active_count s) then
      let back := match conn with Some c => [mk_conn (client c) now] | None => [] end in
      let s := mk_state (idle s ++ back) (active_count s - 1) (capacity s) (waiting_count s) in
      (s, update_metrics cfg s)
    else (s, []) in
  _ ← debug_assert (invariant s);
  mret (s, log, bool_decide (0 < waiting_count s)).

Definition stats (s : PoolState) : nat * nat * nat := (length (idle s), active_count s, capacity s).

(** ** The jobs

    Where a job stands: the await point it is at, or how it ended. [start] is
    when [acquire] was called, [since] when the current timeout began. *)

Inductive Job : Type :=
| Acquiring (start : Z)
| Connecting (start since : Z)
| ConnectFailed (e : DaemonError)
| Waiting (start since : Z)
| Woken (start : Z)
| TimedOut (start : Z)
| Holding (c : PooledConnection)
| Dropping (c : option PooledConnection)
| Notifying
| Returned
| Failed (e : DaemonError)
| Cancelled (counted waited : bool).

(** [w_created] and [w_closed] record the clients ever opened and dropped. *)
Record World : Type := mk_world {
  w_state : PoolState;
  w_notify : notify_t;
  w_now : Z;
  w_log : list metric;
  w_jobs : gmap nat Job;
  w_created : list Client;
  w_closed : list Client
}.

(** What the environment does, and which job runs next. *)
Inductive Action : Type :=
| Tick (d : Z)                        (** time passes *)
| Acquire (j : nat)                   (** a new call of [acquire] *)
| TryAcquire (j : nat)
| Connected (j : nat) (c : Client)    (** [create_connection] succeeds *)
| ConnectError (j : nat) (e : DaemonError)
| ConnectTimeout (j : nat)
| CreateFailed (j : nat)
| PollWait (j : nat)                  (** the timeout around [notified()] is polled *)
| StopWaiting (j : nat)
| MarkBroken (j : nat)
| DropGuard (j : nat)
| DropTask (j : nat)                  (** the task spawned by [Drop] gets the lock *)
| NotifyOne (j : nat)
| Cancel (j : nat).

Definition set_job (w : World) (j : nat) (b : Job) : World :=
  mk_world (w_state w) (w_notify w) (w_now w) (w_log w) (<[j := b]> (w_jobs w))
    (w_created w) (w_closed w).

(** The state, the log and a job change together. *)
Definition commit (w : World) (j : nat) (s : PoolState) (log : list metric) (b : Job) : World :=
  mk_world s (w_notify w) (w_now w) (w_log w ++ log) (<[j := b]> (w_jobs w))
    (w_created w) (w_closed w).

Definition close (w : World) (cs : list Client) : World :=
  mk_world (w_state w) (w_notify w) (w_now w) (w_log w) (w_jobs w)
    (w_created w) (cs ++ w_closed w).

Definition set_notify (w : World) (n : notify_t) : World :=
  mk_world (w_state w) n (w_now w) (w_log w) (w_jobs w) (w_created w) (w_closed w).

Definition conn_clients (c : option PooledConnection) : list Client :=
  match c with Some c => [client c] | None => [] end.

Definition act_try_acquire (cfg : PoolConfig) (w : World) (j : nat) (start : Z)
    : res DaemonError World :=
  let gone := filter (λ c, is_expired (w_now w) c (max_idle_time cfg) = true) (idle (w_state w)) in
  '(s, log, r) ← try_acquire cfg (w_now w) start (w_state w);
  mret (commit (close w (client <$> gone)) j s log
    match r with
    | Reused c => Holding c
    | MustCreate => Connecting start (w_now w)
    | WaitRequired => Waiting start (w_now w)
    end).

Definition act_connected (cfg : PoolConfig) (w : World) (j : nat) (start : Z) (c : Client) : World :=
  mk_world (w_state w) (w_notify w) (w_now w)
    (w_log w ++ log_metric cfg (ConnectionsCreated "success") ++
     log_metric cfg (AcquireDuration "created" (elapsed (w_now w) start)))
    (<[j := Holding (mk_conn c (w_now w))]> (w_jobs w)) (c :: w_created w) (w_closed w).

(** [tokio::time::timeout] polls the future first, then the deadline. *)
Definition act_poll_wait (cfg : PoolConfig) (w : World) (j : nat) (start since : Z) : World :=
  match poll_notified j (w_notify w) with
  | (n, true) => set_job (set_notify w n) j (Woken start)
  | (n, false) =>
      if decide (since + acquire_timeout cfg ≤ w_now w)%Z
      then set_job (set_notify w (drop_notified j n)) j (TimedOut start)
      else set_notify w n
  end.

Definition timed_out_log (cfg : PoolConfig) (w : World) (start : Z) : list metric :=
  log_metric cfg (ConnectionErrors "timeout") ++
  log_metric cfg (AcquireDuration "timeout" (elapsed (w_now w) start)).

Definition act_drop_task (cfg : PoolConfig) (w : World) (j : nat) (conn : option PooledConnection)
    : res DaemonError World :=
  '(s, log, waiters) ← drop_guard cfg (w_now w) conn (w_state w);
  let lost := if decide (0 < active_count (w_state w)) then [] else conn_clients conn in
  mret (commit (close w lost) j s log (if waiters : bool then Notifying else Returned)).

(** What cancelling leaves behind: the future of [acquire] is dropped where it
    stands, and nothing undoes the counts. A guard is not an [acquire]. *)
Definition act_cancel (w : World) (j : nat) (b : Job) : option World :=
  match b with
  | Acquiring _ => Some (set_job w j (Cancelled false false))
  | Connecting _ _ | ConnectFailed _ => Some (set_job w j (Cancelled true false))
  | Waiting _ _ => Some (set_job (set_notify w (drop_notified j (w_notify w))) j (Cancelled false true))
  | Woken _ | TimedOut _ => Some (set_job w j (Cancelled false true))
  | _ => None
  end.

(** One step; [None] when the action is not possible. *)
Definition act (cfg : PoolConfig) (w : World) (a : Action) : option (res DaemonError World) :=
  let s := w_state w in
  match a with
  | Tick d =>
      if decide (0 ≤ d)%Z then
        Some (Ok (mk_world s (w_notify w) (w_now w + d) (w_log w) (w_jobs w)
                    (w_created w) (w_closed w)))
      else None
  | Acquire j =>
      match w_jobs w !! j with
      | None => Some (Ok (set_job w j (Acquiring (w_now w))))
      | _ => None
      end
  | TryAcquire j =>
      match w_jobs w !! j with
      | Some (Acquiring start) => Some (act_try_acquire cfg w j start)
      | _ => None
      end
  | Connected j c =>
      match w_jobs w !! j with
      | Some (Connecting start _) => Some (Ok (act_connected cfg w j start c))
      | _ => None
      end
  | ConnectError j e =>
      match w_jobs w !! j with
      | Some (Connecting _ _) => Some (Ok (set_job w j (ConnectFailed e)))
      | _ => None
      end
  | ConnectTimeout j =>
      match w_jobs w !! j with
      | Some (Connecting _ since) =>
          if decide (since + connection_timeout cfg ≤ w_now w)%Z
          then Some (Ok (set_job w j (ConnectFailed (timeout_error "connecting to daemon"))))
          else None
      | _ => None
      end
  | CreateFailed j =>
      match w_jobs w !! j with
      | Some (ConnectFailed e) =>
          Some ('(s, log) ← create_failed cfg s; mret (commit w j s log (Failed e)))
      | _ => None
      end
  | PollWait j =>
      match w_jobs w !! j with
      | Some (Waiting start since) => Some (Ok (act_poll_wait cfg w j start since))
      | _ => None
      end
  | StopWaiting j =>
      match w_jobs w !! j with
      | Some (Woken start) => Some (Ok (commit w j (stop_waiting s) [] (Acquiring start)))
      | Some (TimedOut start) =>
          Some (Ok (commit w j (stop_waiting s) (timed_out_log cfg w start)
                      (Failed (timeout_error "acquiring connection from pool"))))
      | _ => None
      end
  | MarkBroken j =>
      match w_jobs w !! j with
      | Some (Holding c) =>
          Some (Ok (commit (close w [client c]) j s
                      (log_metric cfg (ConnectionErrors "broken")) (Dropping None)))
      | _ => None
      end
  | DropGuard j =>
      match w_jobs w !! j with
      | Some (Holding c) => Some (Ok (set_job w j (Dropping (Some c))))
      | _ => None
      end
  | DropTask j =>
      match w_jobs w !! j with
      | Some (Dropping c) => Some (act_drop_task cfg w j c)
      | _ => None
      end
  | NotifyOne j =>
      match w_jobs w !! j with
      | Some Notifying => Some (Ok (set_job (set_notify w (notify_one (w_notify w))) j Returned))
      | _ => None
      end
  | Cancel j =>
      match w_jobs w !! j with
      | Some b => Ok <$> act_cancel w j b
      | None => None
      end
  end.

Definition init (s : PoolState) : World := mk_world s notify_new 0 [] ∅ [] [].

Inductive reachable (cfg : PoolConfig) : World → Prop :=
| reach_new s : ConnectionPool_new cfg = Ok s → reachable cfg (init s)
| reach_act w a w' : reachable cfg w → act cfg w a = Some (Ok w') → reachable cfg w'.

Fixpoint run_actions (cfg : PoolConfig) (w : World) (l : list Action) : option World :=
  match l with
  | [] => Some w
  | a :: l =>
      match act cfg w a with
      | Some (Ok w) => run_actions cfg w l
      | _ => None
      end
  end.

(** ** Gathering over the jobs

    [gather f m] puts together what the jobs contribute: a unit for each job
    that counts, or the clients it holds. *)

Definition gather {A} (f : Job → list A) (m : gmap nat Job) : list A :=
  concat (f <$> (map_to_list m).*2).

Lemma gather_fresh {A} (f : Job → list A) m j b :
  m !! j = None → gather f (<[j := b]> m) ≡ₚ f b ++ gather f m.
Proof. intros H. unfold gather. by rewrite map_to_list_insert. Qed.

Lemma gather_update {A} (f : Job → list A) m j b b' :
  m !! j = Some b → f b ++ gather f (<[j := b']> m) ≡ₚ f b' ++ gather f m.
Proof.
  intros H. rewrite <-(insert_delete_id m j b H) at 2. rewrite <-insert_delete_eq.
  rewrite !gather_fresh by apply lookup_delete_eq. apply Permutation_app_swap_app.
Qed.

(** A connection counts as active from the moment it is being created until
    its guard's drop task has run; a cancelled creation counts forever. *)
Definition counted (b : Job) : list unit :=
  match b with
  | Connecting _ _ | ConnectFailed _ | Holding _ | Dropping _ | Cancelled true _ => [tt]
  | _ => []
  end.

Definition waited (b : Job) : list unit :=
  match b with
  | Waiting _ _ | Woken _ | TimedOut _ | Cancelled _ true => [tt]
  | _ => []
  end.

Definition held_clients (b : Job) : list Client :=
  match b with
  | Holding c => [client c]
  | Dropping c => conn_clients c
  | _ => []
  end.

(** The last values of the two gauges. *)
Definition gauges (log : list metric) : Z * Z :=
  fold_left (λ g m, match m with
                    | IdleConnections n => (n, g.2)
                    | ActiveConnections n => (g.1, n)
                    | _ => g
                    end) log (0, 0)%Z.

#[local] Arguments gauges : simpl never.

(** ** The invariant of the system *)

Record pool_inv (cfg : PoolConfig) (w : World) : Prop := {
  inv_capacity : capacity (w_state w) = max_size cfg ∧ 0 < max_size cfg;
  inv_bound : active_count (w_state w) + length (idle (w_state w)) ≤ max_size cfg;
  inv_active : active_count (w_state w) = length (gather counted (w_jobs w));
  inv_waiting : waiting_count (w_state w) = length (gather waited (w_jobs w));
  inv_clients : w_created w ≡ₚ
    (client <$> idle (w_state w)) ++ gather held_clients (w_jobs w) ++ w_closed w;
  inv_gauges : metrics cfg = true → gauges (w_log w) =
    (Z.of_nat (length (idle (w_state w))), Z.of_nat (active_count (w_state w)))
}.

Lemma pool_inv_invariant cfg w : pool_inv cfg w → invariant (w_state w) = true.
Proof. intros [[Hc H0] Hb _ _ _ _]. unfold invariant. rewrite Hc. by rewrite !bool_decide_true. Qed.

Lemma gauges_app l1 l2 :
  gauges (l1 ++ l2) = fold_left (λ g m, match m with
    | IdleConnections n => (n, g.2) | ActiveConnections n => (g.1, n) | _ => g end) l2 (gauges l1).
Proof. apply fold_left_app. Qed.

(** The counts of waiting and counted jobs do not exceed the jobs. *)
Lemma gather_units_le (f : Job → list unit) m :
  (∀ b, length (f b) ≤ 1) → length (gather f m) ≤ size m.
Proof.
  intros Hf. unfold gather. rewrite <-length_map_to_list.
  induction (map_to_list m) as [|[i b] l IH]; cbn; [lia|].
  rewrite length_app. specialize (Hf b). lia.
Qed.

(** The part of the invariant that a change of one job has to restore. *)
Lemma job_counts w j b b' :
  w_jobs w !! j = Some b →
  let g (A : Type) (f : Job → list A) := gather f (<[j := b']> (w_jobs w)) in
  length (counted b) + length (g _ counted) = length (counted b') + length (gather counted (w_jobs w)) ∧
  length (waited b) + length (g _ waited) = length (waited b') + length (gather waited (w_jobs w)) ∧
  held_clients b ++ g _ held_clients ≡ₚ held_clients b' ++ gather held_clients (w_jobs w).
Proof.
  intros H g. rewrite <-!length_app. unfold g.
  rewrite !(gather_update _ _ j b b') by done. done.
Qed.

(** A step of one job restores the invariant when it moves the counts and the
    clients by what the job's place contributes. *)
Lemma change_inv cfg w w' j b b' :
  pool_inv cfg w → w_jobs w !! j = Some b → w_jobs w' = <[j := b']> (w_jobs w) →
  capacity (w_state w') = capacity (w_state w) →
  active_count (w_state w') + length (counted b) = active_count (w_state w) + length (counted b') →
  waiting_count (w_state w') + length (waited b) = waiting_count (w_state w) + length (waited b') →
  active_count (w_state w') + length (idle (w_state w')) ≤ max_size cfg →
  (client <$> idle (w_state w')) ++ held_clients b' ++ w_closed w' ++ w_created w ≡ₚ
    (client <$> idle (w_state w)) ++ held_clients b ++ w_closed w ++ w_created w' →
  (metrics cfg = true → gauges (w_log w') =
     (Z.of_nat (length (idle (w_state w'))), Z.of_nat (active_count (w_state w')))) →
  pool_inv cfg w'.
Proof.
  intros [[Hc H0] Hb Ha Hw Hcl Hg] Hj Hj' Hcap Hact Hwait Hbound Hcls Hg'.
  destruct (job_counts w j b b' Hj) as (Hn1 & Hn2 & Hn3). cbn in Hn1, Hn2, Hn3.
  rewrite <-Hj' in Hn1, Hn2, Hn3.
  split; [split; [congruence|done]|done|lia|lia| |done].
  revert Hcls Hn3 Hcl.
  generalize (client <$> idle (w_state w)) as i, (client <$> idle (w_state w')) as i',
    (gather held_clients (w_jobs w)) as g, (gather held_clients (w_jobs w')) as g',
    (held_clients b) as h, (held_clients b') as h'.
  intros i i' g g' h h' Hcls Hn3 Hcl.
  apply (Permutation_app_inv_l (i ++ h ++ w_closed w)).
  rewrite <-!app_assoc, <-Hcls, Hcl.
  transitivity (i' ++ w_closed w' ++ i ++ w_closed w ++ (h' ++ g)); [solve_Permutation|].
  rewrite <-Hn3. solve_Permutation.
Qed.

Lemma invariant_holds cfg s :
  capacity s = max_size cfg → 0 < max_size cfg →
  active_count s + length (idle s) ≤ max_size cfg → debug_assert (invariant s) = Ok tt.
Proof.
  intros Hx H0 Hy. unfold debug_assert, invariant. rewrite Hx. by rewrite !bool_decide_true.
Qed.

(** What the try leaves: the counts, the clients and the gauges. It panics
    only when the count of waiters overflows. *)
Lemma try_acquire_spec cfg now start s :
  capacity s = max_size cfg → 0 < max_size cfg →
  active_count s + length (idle s) ≤ max_size cfg →
  let kept := filter (λ c, is_expired now c (max_idle_time cfg) = false) (idle s) in
  match try_acquire cfg now start s with
  | Ok (s', log, r) =>
      capacity s' = max_size cfg ∧ active_count s' + length (idle s') ≤ max_size cfg ∧
      (∀ l, metrics cfg = true → gauges (l ++ log) =
         (Z.of_nat (length (idle s')), Z.of_nat (active_count s'))) ∧
      match r with
      | Reused c => active_count s' = active_count s + 1 ∧ waiting_count s' = waiting_count s ∧
          (client <$> kept) = client c :: (client <$> idle s')
      | MustCreate => active_count s' = active_count s + 1 ∧ waiting_count s' = waiting_count s ∧
          kept = [] ∧ idle s' = []
      | WaitRequired => active_count s' = active_count s ∧ waiting_count s' = waiting_count s + 1 ∧
          kept = [] ∧ idle s' = [] ∧ active_count s = max_size cfg
      end
  | Err _ => False
  | Panic => (u64_modulus ≤ Z.of_nat (waiting_count s + 1))%Z
  end.
Proof.
  intros Hc H0 Hb kept. unfold try_acquire.
  assert (length kept ≤ length (idle s)) as Hk by apply length_filter.
  rewrite (invariant_holds cfg s) by done. cbn. fold kept. unfold update_metrics, log_metric.
  destruct kept as [|d rest] eqn:Ek.
  - case_decide as Ha.
    + rewrite (invariant_holds cfg) by (cbn; try done; lia). cbn.
      split; [done|]. split; [lia|]. split; [|auto].
      intros l Hm. rewrite Hm, gauges_app. done.
    + case_decide; [|cbn; lia]. cbn. split; [done|].
      split; [lia|]. assert (active_count s = max_size cfg) by lia.
      assert (idle s = []) as Hi by (destruct (idle s); [done|cbn in *; lia]).
      split; [|auto]. intros l Hm. rewrite Hm, Hi, gauges_app. done.
  - cbn in Hk. rewrite (invariant_holds cfg) by (cbn; try done; lia). cbn.
    split; [done|]. split; [lia|]. split; [|auto].
    intros l Hm. rewrite Hm, gauges_app. done.
Qed.

Lemma try_acquire_reused cfg now start s c s' log :
  try_acquire cfg now start s = Ok (s', log, Reused c) →
  ∃ d, d ∈ idle s ∧ is_expired now d (max_idle_time cfg) = false ∧ c = mk_conn (client d) now.
Proof.
  unfold try_acquire. destruct (debug_assert (invariant s)); try done. cbn.
  destruct (filter _ (idle s)) as [|d rest] eqn:Ek.
  - case_decide; [by destruct (debug_assert _)|]. by case_decide.
  - assert (d ∈ d :: rest) as Hd by left. rewrite <-Ek in Hd.
    apply list_elem_of_filter in Hd as [? ?].
    destruct (debug_assert _); cbn; try done. intros [= <- <- <-]. eauto.
Qed.

Lemma create_failed_spec cfg s :
  capacity s = max_size cfg → 0 < max_size cfg →
  active_count s + length (idle s) ≤ max_size cfg →
  ∃ log, create_failed cfg s =
    Ok (mk_state (idle s) (active_count s - 1) (capacity s) (waiting_count s), log) ∧
    (∀ l, metrics cfg = true → gauges (l ++ log) =
       (Z.of_nat (length (idle s)), Z.of_nat (active_count s - 1))).
Proof.
  intros Hc H0 Hb. unfold create_failed. rewrite (invariant_holds cfg) by (cbn; try done; lia).
  eexists. split; [done|]. intros l Hm. unfold update_metrics, log_metric.
  rewrite Hm, gauges_app. done.
Qed.

Lemma drop_guard_spec cfg now conn s :
  capacity s = max_size cfg → 0 < max_size cfg → 0 < active_count s →
  active_count s + length (idle s) ≤ max_size cfg →
  ∃ s' log, drop_guard cfg now conn s = Ok (s', log, bool_decide (0 < waiting_count s)) ∧
    capacity s' = max_size cfg ∧ active_count s' + 1 = active_count s ∧
    waiting_count s' = waiting_count s ∧
    (client <$> idle s') = (client <$> idle s) ++ conn_clients conn ∧
    active_count s' + length (idle s') ≤ max_size cfg ∧
    (∀ l, metrics cfg = true → gauges (l ++ log) =
       (Z.of_nat (length (idle s')), Z.of_nat (active_count s'))).
Proof.
  intros Hc H0 Ha Hb. unfold drop_guard. rewrite (invariant_holds cfg s) by done. cbn.
  rewrite decide_True by done.
  set (s' := mk_state _ _ _ _). assert (active_count s' + length (idle s') ≤ max_size cfg) as Hs'.
  { cbn. rewrite length_app. destruct conn; cbn; lia. }
  rewrite (invariant_holds cfg) by done. do 2 eexists. split; [done|]. cbn.
  split; [done|]. split; [lia|]. split; [done|]. split; [|split; [done|]].
  - rewrite fmap_app. by destruct conn.
  - intros l Hm. unfold update_metrics. rewrite Hm, gauges_app. done.
Qed.

(** Expired connections are closed, the others are kept. *)
Lemma expired_clients now max_idle (l : list PooledConnection) :
  client <$> l ≡ₚ (client <$> filter (λ c, is_expired now c max_idle = true) l) ++
    (client <$> filter (λ c, is_expired now c max_idle = false) l).
Proof.
  rewrite <-fmap_app. apply fmap_Permutation.
  induction l as [|c l IH]; [done|]. rewrite !filter_cons.
  destruct (is_expired now c max_idle); repeat case_decide; try done; cbn; [by constructor|].
  rewrite <-Permutation_middle. by constructor.
Qed.
Lemma act_try_acquire_inv cfg w j start :
  pool_inv cfg w → w_jobs w !! j = Some (Acquiring start) →
  match act_try_acquire cfg w j start with
  | Ok w' => pool_inv cfg w'
  | Err _ => False
  | Panic => (u64_modulus ≤ Z.of_nat (waiting_count (w_state w) + 1))%Z
  end.
Proof.
  intros Hinv Hj. destruct (id Hinv) as [[Hc H0] Hb _ _ _ _]. unfold act_try_acquire.
  pose proof (try_acquire_spec cfg (w_now w) start (w_state w) Hc H0 Hb) as Ht.
  pose proof (expired_clients (w_now w) (max_idle_time cfg) (idle (w_state w))) as He.
  destruct (try_acquire _ _ _ _) as [[[s' log] r]|e|]; try done. cbn in *.
  destruct Ht as (Hc' & Hb' & Hg & Hr).
  destruct r as [c| |]; destruct Hr as (Ha' & Hw' & Hk);
    (eapply change_inv; [done|done|done|cbn; congruence|cbn; lia|cbn; lia|done| |apply Hg]); cbn.
  - rewrite He, Hk. solve_Permutation.
  - destruct Hk as [Hk ->]. rewrite He, Hk. solve_Permutation.
  - destruct Hk as (Hk & -> & _). rewrite He, Hk. solve_Permutation.
Qed.

(** Every counted job is counted. *)
Lemma counted_active cfg w j b :
  pool_inv cfg w → w_jobs w !! j = Some b → length (counted b) ≤ active_count (w_state w).
Proof.
  intros Hinv Hj. pose proof (gather_update counted (w_jobs w) j b Returned Hj) as Hp.
  apply Permutation_length in Hp. rewrite length_app in Hp. cbn in Hp.
  rewrite (inv_active _ _ Hinv). lia.
Qed.

Lemma waited_waiting cfg w j b :
  pool_inv cfg w → w_jobs w !! j = Some b → length (waited b) ≤ waiting_count (w_state w).
Proof.
  intros Hinv Hj. pose proof (gather_update waited (w_jobs w) j b Returned Hj) as Hp.
  apply Permutation_length in Hp. rewrite length_app in Hp. cbn in Hp.
  rewrite (inv_waiting _ _ Hinv). lia.
Qed.

Lemma act_drop_task_inv cfg w j c :
  pool_inv cfg w → w_jobs w !! j = Some (Dropping c) →
  ∃ w', act_drop_task cfg w j c = Ok w' ∧ pool_inv cfg w'.
Proof.
  intros Hinv Hj. destruct (id Hinv) as [[Hc H0] Hb _ _ _ _].
  pose proof (counted_active cfg w j _ Hinv Hj) as Ha. cbn in Ha.
  destruct (drop_guard_spec cfg (w_now w) c (w_state w)) as
    (s' & log & E & Hc' & Ha' & Hw' & Hcl & Hb' & Hg); auto.
  unfold act_drop_task. rewrite E. cbn. eexists. split; [done|].
  rewrite decide_True by lia.
  eapply change_inv; [done|done|done|cbn; congruence|case_bool_decide; cbn; lia
    |case_bool_decide; cbn; lia|done| |apply Hg].
  cbn. rewrite Hcl. case_bool_decide; cbn; solve_Permutation.
Qed.
(** The routine case of [change_inv]: the gauges keep their values. *)
Ltac job_step :=
  eapply change_inv; [eassumption|eassumption|reflexivity|reflexivity|cbn; lia|cbn; lia|cbn; lia
    |cbn; solve_Permutation
    |let Hm := fresh in intros Hm; cbn; unfold timed_out_log, log_metric;
     rewrite ?Hm, ?gauges_app; by eapply inv_gauges].

Lemma act_poll_wait_inv cfg w j start since :
  pool_inv cfg w → w_jobs w !! j = Some (Waiting start since) →
  pool_inv cfg (act_poll_wait cfg w j start since).
Proof.
  intros Hinv Hj. pose proof (inv_bound _ _ Hinv). unfold act_poll_wait.
  destruct (poll_notified j (w_notify w)) as [n []]; [job_step|].
  case_decide; [job_step|]. destruct Hinv. by split.
Qed.

Lemma act_cancel_inv cfg w j b w' :
  pool_inv cfg w → w_jobs w !! j = Some b → act_cancel w j b = Some w' → pool_inv cfg w'.
Proof.
  intros Hinv Hj E. pose proof (inv_bound _ _ Hinv).
  destruct b; cbn in E; try done; injection E as <-; job_step.
Qed.

(** A step keeps the invariant, and only an overflow of the count of waiters
    can make it panic. *)
Lemma act_inv cfg w a r :
  pool_inv cfg w → act cfg w a = Some r →
  match r with
  | Ok w' => pool_inv cfg w'
  | Err _ => False
  | Panic => (u64_modulus ≤ Z.of_nat (waiting_count (w_state w) + 1))%Z
  end.
Proof.
  intros Hinv E. pose proof (inv_bound _ _ Hinv).
  destruct a as [d|j|j|j c|j e|j|j|j|j|j|j|j|j|j]; cbn in E;
    try (destruct (w_jobs w !! j) as [b|] eqn:Hj; [|try done]);
    try (lazymatch type of E with context [act_cancel] => idtac | _ => destruct b; try done end);
    try (pose proof (counted_active _ _ _ _ Hinv Hj) as Ha; cbn in Ha);
    try (pose proof (waited_waiting _ _ _ _ Hinv Hj) as Hw; cbn in Hw).
  - case_decide; [|done]. injection E as <-. destruct Hinv. by split.
  - injection E as <-. destruct Hinv as [? ? Ha Hw Hc ?].
    split; cbn; rewrite ?gather_fresh by done; done.
  - injection E as <-. by apply act_try_acquire_inv.
  - injection E as <-. job_step.
  - injection E as <-. job_step.
  - case_decide; [|done]. injection E as <-. job_step.
  - injection E as <-. destruct (id Hinv) as [[Hc H0] Hb _ _ _ _].
    destruct (create_failed_spec cfg (w_state w)) as (log & -> & Hg); [done..|]. cbn.
    eapply change_inv; [done|done|done|done|cbn; lia|cbn; lia|cbn; lia|cbn; solve_Permutation|apply Hg].
  - injection E as <-. by apply act_poll_wait_inv.
  - injection E as <-. job_step.
  - injection E as <-. job_step.
  - injection E as <-. job_step.
  - injection E as <-. job_step.
  - injection E as <-. by destruct (act_drop_task_inv cfg w j c) as (w' & -> & ?).
  - injection E as <-. job_step.
  - destruct (act_cancel w j b) as [w'|] eqn:Ec; [|done]. injection E as <-.
    by eapply act_cancel_inv.
Qed.
Lemma pool_new_inv cfg s : ConnectionPool_new cfg = Ok s → pool_inv cfg (init s).
Proof.
  unfold ConnectionPool_new. case_decide; [done|].
  rewrite (invariant_holds cfg) by (cbn; lia). intros [= <-]. split; cbn; try done; lia.
Qed.

Lemma reachable_inv cfg w : reachable cfg w → pool_inv cfg w.
Proof.
  induction 1 as [s Hs|w a w' _ IH E]; [by apply pool_new_inv|].
  apply (act_inv _ _ _ _ IH E).
Qed.

Lemma run_actions_reachable cfg w l w' :
  reachable cfg w → run_actions cfg w l = Some w' → reachable cfg w'.
Proof.
  revert w. induction l as [|a l IH]; cbn; intros w Hr E; [by simplify_eq|].
  destruct (act cfg w a) as [[w1|e|]|] eqn:Ea; try done. by eapply IH, E; eapply reach_act.
Qed.

Lemma run_actions_app cfg w l1 l2 :
  run_actions cfg w (l1 ++ l2) = (w1 ← run_actions cfg w l1; run_actions cfg w1 l2).
Proof.
  revert w. induction l1 as [|a l1 IH]; cbn; intros w; [done|].
  by destruct (act cfg w a) as [[]|].
Qed.

(** ** Safety *)

(** C31. In every reachable state of any number of interleaved [acquire] calls,
    guards, failures, timeouts and cancellations, the pool's own invariant
    holds, the active count is exactly the number of jobs that own a slot, the
    waiting count is the number of jobs that registered to wait, the gauges of
    the metrics show the state, and no assertion, subtraction or addition of
    any next step panics (as long as there were fewer than 2^64 - 1 calls). *)
Theorem pool_safe cfg w :
  reachable cfg w →
  invariant (w_state w) = true ∧
  active_count (w_state w) = length (gather counted (w_jobs w)) ∧
  waiting_count (w_state w) = length (gather waited (w_jobs w)) ∧
  (metrics cfg = true → gauges (w_log w) =
     (Z.of_nat (length (idle (w_state w))), Z.of_nat (active_count (w_state w)))) ∧
  ((Z.of_nat (size (w_jobs w)) + 1 < u64_modulus)%Z →
   ∀ a r, act cfg w a = Some r → ∃ w', r = Ok w').
Proof.
  intros Hr. apply reachable_inv in Hr as Hinv.
  split; [by eapply pool_inv_invariant|]. split; [apply Hinv|]. split; [apply Hinv|].
  split; [apply Hinv|]. intros Hs a r E. pose proof (act_inv _ _ _ _ Hinv E) as Ha.
  destruct r as [w'|e|]; [by eauto|done|]. rewrite (inv_waiting _ _ Hinv) in Ha.
  pose proof (gather_units_le waited (w_jobs w)) as Hle.
  assert (length (gather waited (w_jobs w)) ≤ size (w_jobs w)); [|lia].
  apply Hle. intros []; cbn; repeat case_match; cbn; lia.
Qed.

Lemma held_counted w :
  length (gather held_clients (w_jobs w)) ≤ length (gather counted (w_jobs w)).
Proof.
  unfold gather. induction (map_to_list (w_jobs w)) as [|[i b] l IH]; cbn; [lia|].
  rewrite !length_app.
  assert (length (held_clients b) ≤ length (counted b)); [|lia].
  destruct b as [| | | | | | |[]| | | |]; cbn; lia.
Qed.

(** C33. Connections are conserved: the clients ever opened are the idle ones,
    the ones held by guards and the closed ones, each once. So no client is
    ever lent to two guards or lost, and at most [max_size] are open. *)
Theorem pool_connections cfg w :
  reachable cfg w →
  let open := (client <$> idle (w_state w)) ++ gather held_clients (w_jobs w) in
  w_created w ≡ₚ open ++ w_closed w ∧ length open ≤ max_size cfg ∧
  (NoDup (w_created w) → NoDup open).
Proof.
  intros Hr open. apply reachable_inv in Hr as Hinv. pose proof (inv_clients _ _ Hinv) as Hc.
  rewrite app_assoc in Hc. fold open in Hc. split; [done|]. split.
  - pose proof (held_counted w). pose proof (inv_bound _ _ Hinv). pose proof (inv_active _ _ Hinv).
    unfold open. rewrite length_app, length_fmap. lia.
  - intros Hn. rewrite Hc in Hn. by apply NoDup_app in Hn as [? _].
Qed.

(** ** Progress *)

Lemma gather_nil {A} (f : Job → list A) m :
  (∀ j b, m !! j = Some b → f b = []) → gather f m = [].
Proof.
  intros H. unfold gather. assert (Forall (λ b, f b = []) (map_to_list m).*2) as HF.
  { apply Forall_fmap, Forall_forall. intros [i b] Hi%elem_of_map_to_list. by eapply H. }
  induction HF as [|b l Hb _ IH]; cbn; [done|]. by rewrite Hb, IH.
Qed.

(** C34. The pool conserves work: a call that gets the lock is told to wait
    exactly when [max_size] jobs own a slot; otherwise it gets an idle
    connection that has not expired, or opens one. In particular, when every
    job has ended and none was cancelled while it connected, no slot is taken
    and a call never waits. *)
Theorem pool_progress cfg w j start w' :
  reachable cfg w → act cfg w (TryAcquire j) = Some (Ok w') →
  w_jobs w !! j = Some (Acquiring start) →
  (w_jobs w' !! j = Some (Waiting start (w_now w)) ↔
     length (gather counted (w_jobs w)) = max_size cfg) ∧
  (length (gather counted (w_jobs w)) < max_size cfg →
     w_jobs w' !! j = Some (Connecting start (w_now w)) ∨
     ∃ c, c ∈ idle (w_state w) ∧ is_expired (w_now w) c (max_idle_time cfg) = false ∧
          w_jobs w' !! j = Some (Holding (mk_conn (client c) (w_now w)))) ∧
  ((∀ i b, w_jobs w !! i = Some b → i ≠ j → b = Returned ∨ (∃ e, b = Failed e)) →
     active_count (w_state w) = 0).
Proof.
  intros Hr E Hj. apply reachable_inv in Hr as Hinv. destruct (id Hinv) as [[Hc H0] Hb Ha _ _ _].
  cbn in E. rewrite Hj in E. injection E as E. unfold act_try_acquire in E.
  pose proof (try_acquire_spec cfg (w_now w) start (w_state w) Hc H0 Hb) as Ht.
  assert (∀ c s log, try_acquire cfg (w_now w) start (w_state w) = Ok (s, log, Reused c) →
    ∃ d, d ∈ idle (w_state w) ∧ is_expired (w_now w) d (max_idle_time cfg) = false ∧
      c = mk_conn (client d) (w_now w)) as Hre by apply try_acquire_reused.
  rewrite <-Ha. destruct (try_acquire _ _ _ _) as [[[s log] r]|e|]; [|done..].
  injection E as <-. cbn. rewrite lookup_insert_eq. destruct Ht as (_ & Hb' & _ & Hr').
  split; [|split].
  - destruct r; destruct Hr' as (Ha' & _ & Hk); (split; [intros [=]|intros Hn]); try lia; try done;
      destruct Hk as (_ & _ & ->); done.
  - intros Hlt. destruct r as [c| |]; [|by left|].
    + destruct (Hre _ _ _ eq_refl) as (d & ? & ? & ->). right. eauto.
    + destruct Hr' as (_ & _ & _ & _ & ?). lia.
  - intros Hall. rewrite Ha. rewrite gather_nil; [done|]. intros i b Hi.
    destruct (decide (i = j)) as [->|Hne]; [rewrite Hj in Hi; by injection Hi as <-|].
    by destruct (Hall i b Hi Hne) as [->|[e ->]].
Qed.
(** ** Slots that do not come back

    [Notify] promises that a task that waits is woken by a notification only:
    as long as [notify_one] has not been called, polls are not ready. *)

Class NotifyLaws : Type := {
  silent : notify_t → Prop;
  silent_new : silent notify_new;
  silent_poll j n : silent n → ∃ n', poll_notified j n = (n', false) ∧ silent n'
}.

Section stalls.
Context {NL : NotifyLaws}.

(** Job 1 waits while nothing else happens. *)
Definition stalled (e : DaemonError) (t : Z) (w : World) : Prop :=
  w_state w = mk_state [] 0 1 1 ∧ silent (w_notify w) ∧ w_now w = t ∧
  w_jobs w = {[0 := Failed e; 1 := Waiting 0 0]}.

Definition wait_polls (ds : list Z) : list Action := ds ≫= λ d, [Tick d; PollWait 1].

Lemma stalled_polls cfg e t w ds :
  stalled e t w → Forall (λ d, 0 ≤ d)%Z ds → (t + foldr Z.add 0 ds < acquire_timeout cfg)%Z →
  ∃ w', run_actions cfg w (wait_polls ds) = Some w' ∧ stalled e (t + foldr Z.add 0 ds)%Z w'.
Proof.
  intros Hw Hds. revert t w Hw. induction Hds as [|d ds Hd Hds IH]; intros t w Hw Ht.
  { exists w. split; [done|]. by rewrite Z.add_0_r. }
  destruct Hw as (Hs & Hn & Ht' & Hj). cbn -[act] in *.
  assert (0 ≤ foldr Z.add 0 ds)%Z as Hpos by (clear -Hds; induction Hds; cbn; lia).
  destruct (silent_poll 1 (w_notify w) Hn) as (n' & Hp & Hn').
  cbn [wait_polls mbind list_bind app run_actions act]. rewrite decide_True by done.
  cbn [w_jobs]. rewrite Hj. cbn [lookup]. rewrite lookup_insert_ne, lookup_singleton_eq by done.
  unfold act_poll_wait. cbn [w_notify w_now]. rewrite Hp, decide_False by lia.
  destruct (IH (t + d)%Z (set_notify (mk_world (w_state w) (w_notify w) (w_now w + d) (w_log w)
    (w_jobs w) (w_created w) (w_closed w)) n')) as (w' & Hw' & Hst'); [|lia|].
  - repeat split; try done. cbn. lia.
  - rewrite Hj in Hw'. exists w'. split; [done|]. by rewrite Z.add_assoc.
Qed.

(** The error path does not wake anybody. With one slot: job 0 takes it
    and connects, job 1 is told to wait, the connection of job 0 fails and its
    slot is given back. Then the pool is empty and a new call would be served
    at once, but job 1 stays asleep at every poll until its timeout, and fails
    with it. *)
Theorem failed_connect_stalls cfg e ds d :
  max_size cfg = 1 → Forall (λ d, 0 ≤ d)%Z ds → (0 ≤ d)%Z →
  (foldr Z.add 0 ds < acquire_timeout cfg ≤ foldr Z.add 0 ds + d)%Z →
  ∃ s w w1, ConnectionPool_new cfg = Ok s ∧
    run_actions cfg (init s) ([Acquire 0; TryAcquire 0; Acquire 1; TryAcquire 1;
      ConnectError 0 e; CreateFailed 0] ++ wait_polls ds) = Some w ∧
    stats (w_state w) = (0, 0, 1) ∧ w_jobs w !! 0 = Some (Failed e) ∧
    w_jobs w !! 1 = Some (Waiting 0 0) ∧
    (∃ w2, run_actions cfg w [Acquire 2; TryAcquire 2] = Some w2 ∧
       w_jobs w2 !! 2 = Some (Connecting (w_now w) (w_now w))) ∧
    run_actions cfg w [Tick d; PollWait 1; StopWaiting 1] = Some w1 ∧
    w_jobs w1 !! 1 = Some (Failed (timeout_error "acquiring connection from pool")).
Proof.
  destruct cfg as [ms mi at_ ct m]. cbn [max_size acquire_timeout]. intros -> Hds Hd Hat.
  set (cfg := mk_config 1 mi at_ ct m).
  assert (∃ w0, run_actions cfg (init (mk_state [] 0 1 0)) [Acquire 0; TryAcquire 0; Acquire 1;
      TryAcquire 1; ConnectError 0 e; CreateFailed 0] = Some w0 ∧ stalled e 0%Z w0) as (w0 & E0 & H0).
  { eexists. split; [reflexivity|]. repeat split. apply silent_new. }
  destruct (stalled_polls cfg e 0%Z w0 ds H0 Hds) as (w & E & Hst); [cbn; lia|].
  rewrite Z.add_0_l in Hst. exists (mk_state [] 0 1 0), w.
  destruct w as [s n now lg jobs cr cl]. destruct Hst as (Hs & Hn & Ht & Hj). cbn in Hs, Hn, Ht, Hj.
  subst s now jobs.
  destruct (silent_poll 1 n Hn) as (n' & Hp & Hn').
  eexists. split; [done|]. split; [by rewrite run_actions_app, E0|]. split; [done|].
  split; [done|]. split; [done|]. split; [by eexists|].
  cbn [run_actions act]. rewrite decide_True by done. cbn [w_jobs].
  rewrite lookup_insert_ne, lookup_singleton_eq by done.
  unfold act_poll_wait. cbn [w_notify w_now]. rewrite Hp, decide_True by (cbn; lia). split; reflexivity.
Qed.
End stalls.
(** A cancelled job never moves again. *)
Lemma act_cancelled cfg w a w' j x y :
  act cfg w a = Some (Ok w') → w_jobs w !! j = Some (Cancelled x y) →
  w_jobs w' !! j = Some (Cancelled x y).
Proof.
  intros E Hj.
  destruct a as [d|i|i|i c|i e|i|i|i|i|i|i|i|i|i]; cbn in E; try case_decide;
    try (destruct (decide (i = j)) as [->|Hne]; [by rewrite Hj in E|]);
    try (destruct (w_jobs w !! i) as [b|] eqn:Hi; [|try done]); try (destruct b; try done);
    try case_decide; try done.
  all: try (injection E as <-; cbn; by rewrite ?lookup_insert_ne).
  - unfold act_try_acquire in E.
    destruct (try_acquire _ _ _ _) as [[[s log] r]|e|]; try done.
    injection E as <-. cbn. by rewrite lookup_insert_ne.
  - destruct (create_failed cfg (w_state w)) as [[s log]|e'|]; try done.
    injection E as <-. cbn. by rewrite lookup_insert_ne.
  - injection E as <-. unfold act_poll_wait.
    destruct (poll_notified i (w_notify w)) as [n []]; [|case_decide]; cbn;
      rewrite ?lookup_insert_ne; done.
  - unfold act_drop_task in E. destruct (drop_guard _ _ _ _) as [[[s log] b]|e|]; try done.
    injection E as <-. cbn. by rewrite lookup_insert_ne.
Qed.

(** Cancelling an [acquire] while it connects leaks its slot: the count
    stays taken in every later state, so the other jobs share one slot less
    for ever, and a pool of one slot never lends a connection again. *)
Theorem cancel_leaks_slot cfg w j x l w' :
  reachable cfg w → w_jobs w !! j = Some (Cancelled true x) → run_actions cfg w l = Some w' →
  length (gather counted (delete j (w_jobs w'))) < max_size cfg ∧
  (max_size cfg = 1 → ∀ i c, w_jobs w' !! i ≠ Some (Holding c)) ∧
  0 < active_count (w_state w').
Proof.
  intros Hr Hj E. assert (w_jobs w' !! j = Some (Cancelled true x)) as Hj'.
  { clear Hr. revert w Hj E. induction l as [|a l IH]; cbn; intros w Hj E; [by simplify_eq|].
    destruct (act cfg w a) as [[w1|e|]|] eqn:Ea; try done. eapply IH; [|done].
    by eapply act_cancelled. }
  apply (run_actions_reachable _ _ _ _ Hr), reachable_inv in E as Hinv.
  assert (length (gather counted (delete j (w_jobs w'))) < max_size cfg) as Hlt.
  { pose proof (inv_active _ _ Hinv) as Ha. pose proof (inv_bound _ _ Hinv).
    rewrite <-(insert_delete_id (w_jobs w') j _ Hj') in Ha.
    rewrite gather_fresh in Ha by apply lookup_delete_eq. cbn in Ha. lia. }
  split; [done|]. split.
  - intros H1 i c Hi. assert (i ≠ j) by congruence.
    assert (delete j (w_jobs w') !! i = Some (Holding c)) as Hd by by rewrite lookup_delete_ne.
    pose proof (gather_update counted _ i (Holding c) Returned Hd) as Hp%Permutation_length.
    cbn in Hp. lia.
  - apply (counted_active cfg w' j _ Hinv Hj').
Qed.
End pool.

(** ** Examples *)

(** A [Notify] with a permit. *)
#[local] Instance permit_notify : Notify := {|
  notify_t := bool;
  notify_new := false;
  notify_one _ := true;
  poll_notified _ n := (false, n);
  drop_notified _ n := n
|}.

#[local] Instance permit_laws : NotifyLaws := {|
  silent n := n = false;
  silent_new := eq_refl;
  silent_poll j n Hn := ex_intro _ false (conj (f_equal (pair false) Hn) eq_refl)
|}.

Definition one_slot : PoolConfig := mk_config 1 300000 30000 10000 true.
Definition one_slot_world (l : list (Action (Client:=nat))) : World :=
  default (init (mk_state [] 0 1 0)) (run_actions one_slot (init (mk_state [] 0 1 0)) l).

Lemma one_slot_reachable l : reachable one_slot (one_slot_world l).
Proof.
  unfold one_slot_world. assert (reachable one_slot (init (Client:=nat) (mk_state [] 0 1 0))) as H0.
  { by apply reach_new. }
  destruct (run_actions _ _ l) as [w|] eqn:E; cbn; [|done].
  by eapply run_actions_reachable.
Qed.

(** Two calls share one connection: the second waits, is notified and reuses
    it. *)
Definition shared_use : list (Action (Client:=nat)) :=
  [Acquire 0; TryAcquire 0; Acquire 1; TryAcquire 1; Tick 5; Connected 0 77; DropGuard 0;
   DropTask 0; NotifyOne 0; PollWait 1; StopWaiting 1; TryAcquire 1].

Example shared_use_result :
  w_jobs (one_slot_world shared_use) = {[0 := Returned; 1 := Holding (mk_conn 77 5)]} ∧
  stats (w_state (one_slot_world shared_use)) = (0, 1, 1) ∧
  gauges (w_log (one_slot_world shared_use)) = (0, 1)%Z.
Proof. vm_compute. auto. Qed.

Lemma pool_safe_witness :
  invariant (w_state (one_slot_world shared_use)) = true ∧
  active_count (w_state (one_slot_world shared_use)) = 1.
Proof.
  destruct (pool_safe one_slot (one_slot_world shared_use)) as (Hi & Ha & _).
  - apply one_slot_reachable.
  - split; [exact Hi|]. rewrite Ha. vm_compute. reflexivity.
Defined.

Lemma pool_connections_witness :
  w_created (one_slot_world shared_use) ≡ₚ [77].
Proof.
  destruct (pool_connections one_slot (one_slot_world shared_use)) as (Hc & _).
  - apply one_slot_reachable.
  - etransitivity; [exact Hc|]. vm_compute. reflexivity.
Defined.

Lemma pool_progress_witness :
  let w := one_slot_world [Acquire 0] in
  active_count (w_state w) = 0 ∧
  ∃ w', act one_slot w (TryAcquire 0) = Some (Ok w') ∧ w_jobs w' !! 0 ≠ Some (Waiting 0 0).
Proof.
  intros w. destruct (act one_slot w (TryAcquire 0)) as [[w'|e|]|] eqn:E; try (vm_compute in E; done).
  destruct (pool_progress one_slot w 0 0 w') as (Hi & _ & H0); [apply one_slot_reachable|done|done|].
  split; [apply H0|exists w'; split; [done|]].
  - intros i b Hb Hne. change (w_jobs w) with ({[0 := Acquiring 0]} : gmap nat (Job (Client:=nat))) in Hb.
    by rewrite lookup_singleton_ne in Hb.
  - intros Hw. apply Hi in Hw. by vm_compute in Hw.
Defined.

Lemma failed_connect_stalls_witness :
  ∃ (s : PoolState (Client:=nat)) w, ConnectionPool_new one_slot = Ok s ∧
    run_actions one_slot (init s) ([Acquire 0; TryAcquire 0; Acquire 1; TryAcquire 1;
      ConnectError 0 (FromDaemon 1); CreateFailed 0] ++ wait_polls [10000; 19999]%Z) = Some w ∧
    w_jobs w !! 1 = Some (Waiting 0 0).
Proof.
  destruct (failed_connect_stalls (Client:=nat) one_slot (FromDaemon 1) [10000; 19999]%Z 1)
    as (s & w & w1 & H1 & H2 & _ & _ & H3 & _); [done|repeat constructor; lia|lia|cbn; lia|].
  by exists s, w.
Defined.

Lemma cancel_leaks_slot_witness :
  let w := one_slot_world [Acquire 0; TryAcquire 0; Cancel 0; Acquire 1; TryAcquire 1] in
  0 < active_count (w_state w) ∧ ∀ i c, w_jobs w !! i ≠ Some (Holding c).
Proof.
  intros w. set (w0 := one_slot_world [Acquire 0; TryAcquire 0; Cancel 0]).
  destruct (cancel_leaks_slot one_slot w0 0 false [Acquire 1; TryAcquire 1] w) as (_ & Hh & Ha).
  - apply one_slot_reachable.
  - reflexivity.
  - reflexivity.
  - split; [exact Ha|]. apply Hh. reflexivity.
Defined.
