(* ===== verification/NixIO.v ===== *)
(** The protocol's reader and writer: the traits [NixRead] and [NixWrite]
    ([harmonia-protocol/src/de/mod.rs], [ser/mod.rs]) as classes with laws,
    [NixWriter] ([ser/writer.rs]) and [NixReader] ([de/reader.rs]) as their
    instances.

    An [async fn] that is awaited is run to its end: the schedules of the
    underlying sink and reader say when a poll is not ready. *)

From stdpp Require Import base list numbers strings.
From Stdlib Require Import ZArith Lia Strings.Byte.
From S2P Require Import Prelude Async Wire Sink ProtoRead Framed Version StorePath.

(** ** Effects: a state and an I/O error *)

Definition io (S A : Type) : Type := S → S * res io_error A.

#[export] Instance io_ret {S} : MRet (io S) := λ A a s, (s, Ok a).
#[export] Instance io_bind {S} : MBind (io S) := λ A B f m s,
  match m s with
  | (s, Ok a) => f a s
  | (s, Err e) => (s, Err e)
  | (s, Panic) => (s, Panic)
  end.

Definition io_lift {S A} (r : res io_error A) : io S A := λ s, (s, r).

Lemma io_bind_Ok {S A B} (m : io S A) (f : A → io S B) s s' a :
  m s = (s', Ok a) → (m ≫= f) s = f a s'.
Proof. intros E. unfold mbind, io_bind. by rewrite E. Qed.

(** ** The traits *)

Class NixWrite (S : Type) : Type := {
  w_version : S → ProtocolVersion;
  w_store_dir : S → StoreDir;
  write_number : Z → io S unit;
  write_slice : bytes → io S unit;
  (** The message is the sequence of strings its [Display] writes. *)
  write_display : list bytes → io S unit
}.

Class NixRead (S : Type) : Type := {
  r_version : S → ProtocolVersion;
  r_store_dir : S → StoreDir;
  try_read_number : io S (option Z);
  try_read_bytes_limited : Z → Z → io S (option bytes);
  try_read_bytes : io S (option bytes)
}.

(** [missing_data("unexpected end-of-file")]. *)
Definition or_eof {S A} (m : io S (option A)) : io S A :=
  o ← m;
  match o with
  | Some v => mret v
  | None => io_lift (Err (UnexpectedEof "unexpected end-of-file"))
  end.

Definition read_number {S} `{!NixRead S} : io S Z := or_eof try_read_number.
Definition read_bytes_limited {S} `{!NixRead S} (lo hi : Z) : io S bytes :=
  or_eof (try_read_bytes_limited lo hi).
Definition read_bytes {S} `{!NixRead S} : io S bytes := or_eof try_read_bytes.

(** What a serialiser may rely on. [nw_at s d]: the bytes [d] have been
    accepted. [w_room] is how long a displayed message may be. *)
Class NixWriteLaws (S : Type) `{!NixWrite S} : Type := {
  nw_at : S → bytes → Prop;
  w_room : S → nat;
  same_writer (s s' : S) : Prop :=
    w_version s' = w_version s ∧ w_store_dir s' = w_store_dir s ∧ w_room s' = w_room s;
  write_number_law s d n :
    nw_at s d → ∃ s', write_number n s = (s', Ok tt) ∧ nw_at s' (d ++ u64_to_le_bytes n) ∧
      same_writer s s';
  write_slice_law s d b :
    nw_at s d → is_u64 (Z.of_nat (length b)) →
    ∃ s', write_slice b s = (s', Ok tt) ∧ nw_at s' (d ++ put_nix_slice b) ∧ same_writer s s';
  write_display_law s d ps :
    nw_at s d → length (concat ps) ≤ w_room s →
    ∃ s', write_display ps s = (s', Ok tt) ∧ nw_at s' (d ++ put_nix_slice (concat ps)) ∧
      same_writer s s'
}.

(** What a deserialiser may rely on: reading is a function of the stream.
    Byte strings up to [r_limit] are read, errors of the others are those of the
    reader ([read_bytes_refines]). *)
Class NixReadLaws (S : Type) `{!NixRead S} : Type := {
  nr_inv : S → Prop;
  nr_rest : S → bytes;
  r_limit : S → Z;
  same_reader (s s' : S) : Prop :=
    r_version s' = r_version s ∧ r_store_dir s' = r_store_dir s ∧ r_limit s' = r_limit s;
  try_read_number_law s :
    nr_inv s → ∃ s', same_reader s s' ∧ nr_inv s' ∧
    match take_u64 (nr_rest s) with
    | Ok (o, tl) => try_read_number s = (s', Ok o) ∧ nr_rest s' = tl
    | Err e => try_read_number s = (s', Err e)
    | Panic => False
    end;
  try_read_bytes_law s o tl :
    nr_inv s → take_bytes 0 (r_limit s) (nr_rest s) = Ok (o, tl) →
    ∃ s', same_reader s s' ∧ nr_inv s' ∧ try_read_bytes s = (s', Ok o) ∧ nr_rest s' = tl
}.

(** ** [NixWriter] *)

Record NixWriter (W : Type) : Type := mk_nw {
  nw_inner : W;
  nw_buf : bytes;
  nw_cap : nat;
  display_buf_size : nat;
  reserved_buf_size : nat;
  nw_max_buf_size : nat;
  nw_version : ProtocolVersion;
  nw_store_dir : StoreDir
}.
Arguments mk_nw {W}.
Arguments nw_inner {W}.
Arguments nw_buf {W}.
Arguments nw_cap {W}.
Arguments display_buf_size {W}.
Arguments reserved_buf_size {W}.
Arguments nw_max_buf_size {W}.
Arguments nw_version {W}.
Arguments nw_store_dir {W}.

Record NixWriterBuilder : Type := mk_nwb {
  b_buf : option (bytes * nat);
  b_reserved_buf_size : nat;
  b_display_buf_size : nat;
  b_initial_buf_size : nat;
  b_version : ProtocolVersion;
  b_store_dir : StoreDir
}.

Definition NixWriterBuilder_default : NixWriterBuilder :=
  mk_nwb None RESERVED_BUF_SIZE (Z.to_nat 8192) DEFAULT_BUF_SIZE PROTOCOL_VERSION (str "/nix/store").

Definition set_display_buf_size (b : NixWriterBuilder) (size : nat) : res io_error NixWriterBuilder :=
  if decide (8 ≤ size) then
    Ok (mk_nwb (b_buf b) (b_reserved_buf_size b) size (b_initial_buf_size b) (b_version b)
          (b_store_dir b))
  else Panic.

Definition set_reserved_buf_size (b : NixWriterBuilder) (size : nat) : res io_error NixWriterBuilder :=
  if decide (8 ≤ size) then
    Ok (mk_nwb (b_buf b) size (b_display_buf_size b) (b_initial_buf_size b) (b_version b)
          (b_store_dir b))
  else Panic.

Definition set_initial_buf_size (b : NixWriterBuilder) (size : nat) : NixWriterBuilder :=
  mk_nwb (b_buf b) (b_reserved_buf_size b) (b_display_buf_size b) size (b_version b) (b_store_dir b).

(** [BytesMut::with_capacity] gives exactly the capacity. *)
Definition nw_build {W} (b : NixWriterBuilder) (w : W) : NixWriter W :=
  let '(buf, cap) := default ([], b_initial_buf_size b) (b_buf b) in
  mk_nw w buf cap (b_display_buf_size b) (b_reserved_buf_size b) (b_initial_buf_size b)
    (b_version b) (b_store_dir b).

Definition nw_set {W} (x : NixWriter W) (w : W) (buf : bytes) (cap : nat) : NixWriter W :=
  mk_nw w buf cap (display_buf_size x) (reserved_buf_size x) (nw_max_buf_size x) (nw_version x)
    (nw_store_dir x).

Section writer.
Context {HM : BytesMutReserve} {W : Type} {AW : AsyncWrite W} {AF : AsyncFlush W} {AWL : AsyncWriteLaws W}.
Implicit Types x : NixWriter W.

Definition nw_remaining x : nat := nw_cap x - length (nw_buf x).

(** [advance] gives up the bytes before the window, so the capacity shrinks. *)
Definition nw_flush_buf x : NixWriter W * polled unit :=
  let '(buf, w, p) :=
    flush_loop "failed to write the buffer" (length (nw_buf x)) (nw_buf x) (nw_inner x) in
  let cap := nw_cap x - (length (nw_buf x) - length buf) in
  match p with
  | Ready (Ok _) =>
      (nw_set x w buf
         (if decide (cap < reserved_buf_size x)
          then bytes_reserve (length buf) cap (reserved_buf_size x - cap) else cap),
       Ready (Ok tt))
  | _ => (nw_set x w buf cap, p)
  end.

(** Behind the check for room: large data goes to the inner writer. *)
Definition nw_put x (data : bytes) : NixWriter W * polled nat :=
  if decide (nw_cap x < length data) then
    let '(w, p) := aw_poll_write (nw_inner x) data in (nw_set x w (nw_buf x) (nw_cap x), p)
  else if decide (nw_remaining x < length data) then (x, Ready Panic)
  else (nw_set x (nw_inner x) (nw_buf x ++ data) (nw_cap x), Ready (Ok (length data))).

Definition nw_poll_write x (data : bytes) : NixWriter W * polled nat :=
  if decide (nw_remaining x < length data) then
    match nw_flush_buf x with
    | (x, Ready (Ok _)) => nw_put x data
    | (x, Ready (Err e)) => (x, Ready (Err e))
    | (x, Ready Panic) => (x, Ready Panic)
    | (x, Pending) => (x, Pending)
    end
  else nw_put x data.

(** [write_all], polled until it is ready. *)
Fixpoint nw_write_loop (fuel : nat) (data : bytes) : io (NixWriter W) unit := λ x,
  match data, fuel with
  | [], _ => (x, Ok tt)
  | _, O => (x, Panic)
  | _, S fuel =>
      match nw_poll_write x data with
      | (x, Ready (Ok O)) => (x, Err (WriteZero "write zero"))
      | (x, Ready (Ok n)) => nw_write_loop fuel (drop n data) x
      | (x, Ready (Err e)) => (x, Err e)
      | (x, Ready Panic) => (x, Panic)
      | (x, Pending) => nw_write_loop fuel data x
      end
  end.

Definition nw_write_all (data : bytes) : io (NixWriter W) unit := λ x,
  nw_write_loop (length data + wr_patience (nw_inner x)) data x.

Definition nw_await (f : NixWriter W → NixWriter W * polled unit) : io (NixWriter W) unit := λ x,
  match poll_until f (wr_patience (nw_inner x)) x with
  | (x, Ready r) => (x, r)
  | (x, Pending) => (x, Panic)
  end.

Definition nw_poll_flush x : NixWriter W * polled unit :=
  match nw_flush_buf x with
  | (x, Ready (Ok _)) =>
      let '(w, p) := aw_poll_flush (nw_inner x) in (nw_set x w (nw_buf x) (nw_cap x), p)
  | y => y
  end.

Definition nw_poll_shutdown x : NixWriter W * polled unit :=
  match nw_poll_flush x with
  | (x, Ready (Ok _)) =>
      let '(w, p) := aw_poll_shutdown (nw_inner x) in (nw_set x w (nw_buf x) (nw_cap x), p)
  | y => y
  end.

Definition nw_flush : io (NixWriter W) unit := nw_await nw_poll_flush.

Definition nw_write_number (value : Z) : io (NixWriter W) unit := nw_write_all (u64_to_le_bytes value).

Definition nw_write_slice (buf : bytes) : io (NixWriter W) unit :=
  let padding := calc_padding (Z.of_nat (length buf)) in
  _ ← nw_write_number (Z.of_nat (length buf));
  _ ← nw_write_all buf;
  if decide (0 < padding) then nw_write_all (take padding ZEROS) else mret ().

(** [fmt::Write] for the buffer: a string is written when there is room. *)
Fixpoint nw_write_strs (ps : list bytes) x : NixWriter W * bool :=
  match ps with
  | [] => (x, true)
  | p :: ps =>
      if decide (length p ≤ nw_remaining x)
      then nw_write_strs ps (nw_set x (nw_inner x) (nw_buf x ++ p) (nw_cap x))
      else (x, false)
  end.

Definition nw_ensure_display : io (NixWriter W) unit := λ x,
  if decide (nw_remaining x < display_buf_size x) then nw_await nw_flush_buf x else (x, Ok tt).

(** Everything between the room check and the padding. *)
Definition nw_put_display (ps : list bytes) : io (NixWriter W) nat := λ x,
  let offset := length (nw_buf x) in
  if decide (nw_remaining x < 8) then (x, Panic) else
  match nw_write_strs ps (nw_set x (nw_inner x) (nw_buf x ++ u64_to_le_bytes 0) (nw_cap x)) with
  | (x, false) =>
      (nw_set x (nw_inner x) (take offset (nw_buf x)) (nw_cap x),
       Err (InvalidData "an error occurred when formatting an argument"))
  | (x, true) =>
      let len := length (nw_buf x) - offset - 8 in
      (nw_set x (nw_inner x)
         (take offset (nw_buf x) ++ u64_to_le_bytes (Z.of_nat len) ++ drop (offset + 8) (nw_buf x))
         (nw_cap x),
       Ok len)
  end.

Definition nw_write_display (ps : list bytes) : io (NixWriter W) unit :=
  _ ← nw_ensure_display;
  len ← nw_put_display ps;
  nw_write_all (take (calc_padding (Z.of_nat len)) ZEROS).

#[export] Instance NixWriter_write : NixWrite (NixWriter W) := {|
  w_version := nw_version;
  w_store_dir := nw_store_dir;
  write_number := nw_write_number;
  write_slice := nw_write_slice;
  write_display := nw_write_display
|}.

(** ** What the writer has accepted *)

(** [bytes] never gives back capacity in [reserve]. *)
Class BytesMutGrows : Prop :=
  bytes_reserve_grows len cap additional : cap ≤ bytes_reserve len cap additional.

Context {HML : BytesMutLaws} {HMG : BytesMutGrows}.

(** The bytes [d] have been written or wait in the buffer. The sizes are such
    that half of the reserved size holds a length. *)
Definition writer_at x (d : bytes) : Prop :=
  wr_inv (nw_inner x) ∧ wr_written (nw_inner x) ++ nw_buf x = d ∧ length (nw_buf x) ≤ nw_cap x ∧
  8 ≤ display_buf_size x ∧ 16 ≤ reserved_buf_size x.

(** The longest message that always finds room: [reserve] counts from the
    capacity it sees, so only half of [reserved_buf_size] is sure. *)
Definition display_room x : nat := min (display_buf_size x) (reserved_buf_size x / 2) - 8.

Definition same_sizes x x' : Prop :=
  display_buf_size x' = display_buf_size x ∧ reserved_buf_size x' = reserved_buf_size x ∧
  nw_version x' = nw_version x ∧ nw_store_dir x' = nw_store_dir x.

Abbreviation nw_sched x := (wr_patience (nw_inner x)).

Lemma same_sizes_refl x : same_sizes x x.
Proof. done. Qed.

Lemma same_sizes_set x w buf cap : same_sizes x (nw_set x w buf cap).
Proof. done. Qed.

Lemma same_sizes_trans x y z : same_sizes x y → same_sizes y z → same_sizes x z.
Proof. unfold same_sizes. intuition congruence. Qed.

Hint Resolve same_sizes_refl same_sizes_set same_sizes_trans : harmonia.

Lemma nw_flush_buf_spec x d x' p :
  writer_at x d → nw_flush_buf x = (x', p) →
  writer_at x' d ∧ same_sizes x x' ∧ nw_sched x' ≤ nw_sched x ∧
  match p with
  | Pending => nw_sched x' < nw_sched x
  | Ready (Ok _) => nw_buf x' = [] ∧ reserved_buf_size x ≤ 2 * nw_cap x'
  | _ => False
  end.
Proof.
  intros (Hs & Hd & Hc & Hsz) E. unfold nw_flush_buf in E.
  destruct (flush_loop _ _ _ _) as [[buf w] q] eqn:El.
  apply flush_loop_law in El as (Hs' & (k & Hk & Hb) & Hle & Hq); [|done|done].
  assert (wr_written w ++ buf = wr_written (nw_inner x) ++ nw_buf x) as Heq by (by rewrite Hk, <-app_assoc, Hb).
  apply (f_equal length) in Hb. rewrite length_app in Hb.
  destruct q as [[u|e|]|]; try done; injection E as <- <-.
  - subst buf. split; [|split; [done|split; [done|split; [done|]]]].
    + split; [done|]. split; [by rewrite <-Hd, <-Heq|]. split; [cbn; lia|done].
    + cbn [nw_set nw_cap length]. set (cap := nw_cap x - _). case_decide as Hlt; [|lia].
      pose proof (bytes_reserve_room 0 cap (reserved_buf_size x - cap)).
      pose proof (bytes_reserve_grows 0 cap (reserved_buf_size x - cap)). lia.
  - split; [|done]. split; [done|]. split; [by rewrite <-Hd, <-Heq|]. split; [cbn; lia|done].
Qed.

Lemma nw_put_spec x d data x' p :
  writer_at x d → data ≠ [] → (length data ≤ nw_remaining x ∨ nw_buf x = []) →
  nw_put x data = (x', p) →
  same_sizes x x' ∧ nw_sched x' ≤ nw_sched x ∧
  match p with
  | Pending => writer_at x' d ∧ nw_sched x' < nw_sched x
  | Ready (Ok n) => 0 < n ≤ length data ∧ writer_at x' (d ++ take n data)
  | _ => False
  end.
Proof.
  intros (Hs & Hd & Hc & Hsz) Hne Hroom E. unfold nw_put, nw_remaining in *.
  assert (0 < length data) by (destruct data; [done|cbn; lia]).
  case_decide as Hl.
  - assert (nw_buf x = []) as Hb by (destruct Hroom; [lia|done]).
    rewrite Hb, app_nil_r in Hd.
    destruct (aw_poll_write (nw_inner x) data) as [w q] eqn:Ew.
    apply aw_poll_write_law in Ew as (Hs' & Hsc & Hq); [|done|done].
    destruct q as [[n|e|]|]; injection E as <- <-; (split; [done|]); cbn; try done.
    + destruct Hq as (Hw & Hn).
      split; [done|]. split; [done|]. split; [done|].
      cbn. rewrite Hb, app_nil_r, Hw, Hd. split; [done|]. split; [cbn; lia|done].
    + destruct Hq as [Hw Hlt]. split; [lia|]. split; [|done]. split; [done|]. cbn.
      rewrite Hb, app_nil_r, Hw, Hd. split; [done|]. split; [cbn; lia|done].
  - rewrite decide_False in E by (destruct Hroom as [|Hb]; [lia|rewrite Hb; cbn; lia]).
    injection E as <- <-. split; [done|]. split; [done|]. split; [lia|]. split; [done|]. cbn.
    rewrite app_assoc, Hd, take_ge by done. split; [done|].
    rewrite length_app. split; [destruct Hroom as [|Hb]; [lia|rewrite Hb; cbn; lia]|done].
Qed.

Lemma nw_poll_write_spec x d data x' p :
  writer_at x d → data ≠ [] → nw_poll_write x data = (x', p) →
  same_sizes x x' ∧ nw_sched x' ≤ nw_sched x ∧
  match p with
  | Pending => writer_at x' d ∧ nw_sched x' < nw_sched x
  | Ready (Ok n) => 0 < n ≤ length data ∧ writer_at x' (d ++ take n data)
  | _ => False
  end.
Proof.
  intros Hat Hne E. unfold nw_poll_write in E. case_decide as Hr.
  - destruct (nw_flush_buf x) as [x1 q] eqn:Ef.
    apply (nw_flush_buf_spec x d) in Ef as (Hat1 & Hsz & Hle & Hq); [|done].
    destruct q as [[u|e|]|]; try done.
    + destruct Hq as [Hb _]. apply (nw_put_spec x1 d) in E as (Hsz1 & Hle1 & Hp); auto.
      split; [by eauto with harmonia|]. split; [lia|].
      destruct p as [[]|]; try done. destruct Hp. split; [done|lia].
    + injection E as <- <-. auto.
  - apply (nw_put_spec x d) in E; auto. left. unfold nw_remaining in *. lia.
Qed.

Lemma nw_write_loop_spec fuel x d data :
  writer_at x d → length data + nw_sched x ≤ fuel →
  ∃ x', nw_write_loop fuel data x = (x', Ok tt) ∧ writer_at x' (d ++ data) ∧ same_sizes x x'.
Proof.
  revert x d data. induction fuel as [|fuel IH]; intros x d data Hat Hf.
  all: destruct data as [|c data];
    [exists x; rewrite app_nil_r; split; [done|split; [done|apply same_sizes_refl]]|cbn in Hf; try lia].
  set (l := c :: data) in *. cbn [nw_write_loop].
  destruct (nw_poll_write x l) as [x1 q] eqn:E.
  apply (nw_poll_write_spec x d) in E as (Hsz & Hle & Hq); [|done|done].
  unfold l at 1. destruct q as [[n|e|]|]; try done.
  - destruct Hq as [Hn Hat1]. destruct n as [|n]; [lia|].
    destruct (IH x1 (d ++ take (S n) l) (drop (S n) l) Hat1) as (x2 & E2 & Hat2 & Hsz2).
    { rewrite length_drop. unfold l in *. cbn in *. lia. }
    exists x2. rewrite <-app_assoc, take_drop in Hat2. eauto with harmonia.
  - destruct Hq as [Hat1 Hlt]. destruct (IH x1 d l Hat1) as (x2 & E2 & Hat2 & Hsz2).
    { unfold l. cbn. lia. }
    eauto with harmonia.
Qed.

Lemma nw_write_all_spec x d data :
  writer_at x d →
  ∃ x', nw_write_all data x = (x', Ok tt) ∧ writer_at x' (d ++ data) ∧ same_sizes x x'.
Proof. intros Hat. by apply nw_write_loop_spec. Qed.

Lemma nw_await_flush_buf x d :
  writer_at x d →
  ∃ x', nw_await nw_flush_buf x = (x', Ok tt) ∧ writer_at x' d ∧ same_sizes x x' ∧ nw_buf x' = [] ∧
    reserved_buf_size x ≤ 2 * nw_cap x'.
Proof.
  intros Hat. unfold nw_await.
  destruct (poll_until_ind nw_flush_buf (λ y, nw_sched y) (λ y, writer_at y d ∧ same_sizes x y)
    (λ y r, r = Ok tt ∧ writer_at y d ∧ same_sizes x y ∧ nw_buf y = [] ∧
       reserved_buf_size x ≤ 2 * nw_cap y)) with (fuel := nw_sched x) (r := x)
    as (x' & r & E & -> & Hq); [|by auto with harmonia|done|].
  - intros y y' p [Hy Hsz] E. apply (nw_flush_buf_spec y d) in E as (Hat' & Hsz' & _ & Hp); [|done].
    assert (same_sizes x y') by eauto with harmonia. destruct Hsz as (_ & Hres & _).
    destruct p as [[[]|e|]|]; try done. rewrite Hres in Hp. done.
  - rewrite E. eauto.
Qed.

Lemma nw_write_number_spec x d n :
  writer_at x d →
  ∃ x', nw_write_number n x = (x', Ok tt) ∧ writer_at x' (d ++ u64_to_le_bytes n) ∧ same_sizes x x'.
Proof. apply nw_write_all_spec. Qed.

Lemma nw_write_padding x d c n :
  writer_at x (d ++ c) → n < 8 →
  ∃ x', nw_write_all (take n ZEROS) x = (x', Ok tt) ∧
    writer_at x' (d ++ c ++ replicate n Byte.x00) ∧ same_sizes x x'.
Proof.
  intros Hat Hn. rewrite take_zeros by lia. rewrite app_assoc. by apply nw_write_all_spec.
Qed.

Lemma nw_write_slice_spec x d b :
  writer_at x d →
  ∃ x', nw_write_slice b x = (x', Ok tt) ∧ writer_at x' (d ++ put_nix_slice b) ∧ same_sizes x x'.
Proof.
  intros Hat. unfold nw_write_slice, put_nix_slice.
  destruct (nw_write_number_spec x d (Z.of_nat (length b)) Hat) as (x1 & E1 & Hat1 & Hsz1).
  rewrite (io_bind_Ok _ _ _ _ _ E1).
  destruct (nw_write_all_spec x1 _ b Hat1) as (x2 & E2 & Hat2 & Hsz2).
  rewrite (io_bind_Ok _ _ _ _ _ E2). rewrite <-app_assoc in Hat2.
  pose proof (calc_padding_lt_8 (Z.of_nat (length b))) as H8.
  destruct (nw_write_padding x2 d _ _ Hat2 H8) as (x3 & E3 & Hat3 & Hsz3).
  rewrite <-app_assoc in Hat3. case_decide as Hp.
  - exists x3. eauto 10 with harmonia.
  - assert (calc_padding (Z.of_nat (length b)) = 0) as -> by lia.
    exists x2. cbn. rewrite app_nil_r. eauto with harmonia.
Qed.

Lemma nw_write_strs_spec ps x d :
  writer_at x d → length (concat ps) ≤ nw_remaining x →
  nw_write_strs ps x = (nw_set x (nw_inner x) (nw_buf x ++ concat ps) (nw_cap x), true).
Proof.
  intros (_ & _ & Hc & _). revert x Hc. induction ps as [|p ps IH]; cbn; intros x Hc Hl.
  { rewrite app_nil_r. by destruct x. }
  rewrite length_app in Hl. unfold nw_remaining in *. rewrite decide_True by lia.
  rewrite IH; cbn; rewrite ?length_app; [by rewrite <-app_assoc|lia..].
Qed.

Lemma nw_put_display_spec ps x d :
  writer_at x d → 8 + length (concat ps) ≤ nw_remaining x →
  ∃ x', nw_put_display ps x = (x', Ok (length (concat ps))) ∧ same_sizes x x' ∧
    writer_at x' (d ++ u64_to_le_bytes (Z.of_nat (length (concat ps))) ++ concat ps).
Proof.
  intros (Hs & Hd & Hc & Hsz) Hl. unfold nw_put_display, nw_remaining in *.
  rewrite decide_False by lia.
  pose proof (length_u64_to_le_bytes 0) as H8.
  rewrite (nw_write_strs_spec _ _ (d ++ u64_to_le_bytes 0)).
  - cbn. eexists. rewrite !length_app, H8.
    replace (length (nw_buf x) + 8 + length (concat ps) - length (nw_buf x) - 8)
      with (length (concat ps)) by lia.
    split; [done|]. split; [done|]. split; [done|]. cbn. split; [|split; [|done]].
    + rewrite <-(app_assoc (nw_buf x)), take_app_length, app_assoc, Hd.
      rewrite drop_app_ge by lia. replace (length (nw_buf x) + 8 - length (nw_buf x)) with 8 by lia.
      rewrite drop_app_length' by done. done.
    + rewrite <-(app_assoc (nw_buf x)), take_app_length, drop_app_ge by lia.
      rewrite !length_app, length_u64_to_le_bytes, length_drop, length_app. lia.
  - split; [done|]. cbn. rewrite app_assoc, Hd. split; [done|]. rewrite length_app. split; [lia|done].
  - unfold nw_remaining. cbn. rewrite length_app. lia.
Qed.

Lemma nw_ensure_display_spec x d :
  writer_at x d →
  ∃ x', nw_ensure_display x = (x', Ok tt) ∧ writer_at x' d ∧ same_sizes x x' ∧
    8 + display_room x ≤ nw_remaining x'.
Proof.
  intros Hat. unfold nw_ensure_display, display_room. destruct (id Hat) as (_ & _ & _ & Hd & Hr).
  pose proof (Nat.div_mod_eq (reserved_buf_size x) 2). assert (8 ≤ reserved_buf_size x / 2).
  { apply Nat.div_le_lower_bound; lia. }
  case_decide as Hl.
  - destruct (nw_await_flush_buf x d Hat) as (x' & E & Hat' & Hsz & Hb & Hcap).
    exists x'. split; [done|]. split; [done|]. split; [done|]. unfold nw_remaining. rewrite Hb. cbn [length].
    assert (reserved_buf_size x / 2 ≤ nw_cap x'); [|lia].
    apply Nat.Div0.div_le_upper_bound; lia.
  - exists x. split; [done|]. split; [done|]. split; [apply same_sizes_refl|]. lia.
Qed.

Lemma nw_write_display_spec x d ps :
  writer_at x d → length (concat ps) ≤ display_room x →
  ∃ x', nw_write_display ps x = (x', Ok tt) ∧ writer_at x' (d ++ put_nix_slice (concat ps)) ∧
    same_sizes x x'.
Proof.
  intros Hat Hl. unfold nw_write_display, put_nix_slice.
  destruct (nw_ensure_display_spec x d Hat) as (x1 & E1 & Hat1 & Hsz1 & Hroom).
  rewrite (io_bind_Ok _ _ _ _ _ E1).
  destruct (nw_put_display_spec ps x1 d Hat1) as (x2 & E2 & Hsz2 & Hat2); [lia|].
  rewrite (io_bind_Ok _ _ _ _ _ E2).
  destruct (nw_write_padding x2 d _ (calc_padding (Z.of_nat (length (concat ps)))) Hat2)
    as (x3 & E3 & Hat3 & Hsz3); [apply calc_padding_lt_8|].
  rewrite <-app_assoc in Hat3. exists x3. eauto 10 with harmonia.
Qed.

Context {AFL : AsyncFlushLaws W}.

Lemma nw_poll_flush_spec x d x' p :
  writer_at x d → nw_poll_flush x = (x', p) →
  writer_at x' d ∧ same_sizes x x' ∧ nw_sched x' ≤ nw_sched x ∧
  match p with
  | Pending => nw_sched x' < nw_sched x
  | Ready (Ok _) => nw_buf x' = []
  | _ => False
  end.
Proof.
  intros Hat E. unfold nw_poll_flush in E. destruct (nw_flush_buf x) as [x1 q] eqn:E1.
  apply (nw_flush_buf_spec x d) in E1 as (Hat1 & Hsz & Hle & Hq); [|done].
  destruct q as [[u|e|]|]; try done; [|by injection E as <- <-].
  destruct Hat1 as (Hs & Hd & Hc & Hrest). destruct (aw_poll_flush (nw_inner x1)) as [w r] eqn:Ew.
  apply aw_poll_flush_law in Ew as (Hi & Hw & Hle2 & Hr); [|done]. injection E as <- <-.
  split; [split; [done|]; cbn; rewrite Hw; done|]. split; [by eauto with harmonia|]. cbn. split; [lia|].
  destruct r as [[]|]; try done; [apply Hq|lia].
Qed.

Lemma nw_flush_spec x d :
  writer_at x d →
  ∃ x', nw_flush x = (x', Ok tt) ∧ writer_at x' d ∧ same_sizes x x' ∧ nw_buf x' = [].
Proof.
  intros Hat. unfold nw_flush, nw_await.
  destruct (poll_until_ind nw_poll_flush (λ y, nw_sched y) (λ y, writer_at y d ∧ same_sizes x y)
    (λ y r, r = Ok tt ∧ writer_at y d ∧ same_sizes x y ∧ nw_buf y = [])) with (fuel := nw_sched x) (r := x)
    as (x' & r & E & -> & Hq); [|by auto with harmonia|done|].
  - intros y y' p [Hy Hsz] E. apply (nw_poll_flush_spec y d) in E as (Hat' & Hsz' & _ & Hp); [|done].
    assert (same_sizes x y') by eauto with harmonia. by destruct p as [[[]|e|]|].
  - rewrite E. eauto.
Qed.

#[export] Program Instance NixWriter_laws : NixWriteLaws (NixWriter W) := {|
  nw_at := writer_at;
  w_room := display_room
|}.
Next Obligation.
  intros x d n Hat. destruct (nw_write_number_spec x d n Hat) as (x' & E & Hat' & Hv & Hd & ? & ?).
  exists x'. unfold w_version, w_store_dir. cbn. unfold display_room. rewrite Hv, Hd. auto.
Qed.
Next Obligation.
  intros x d b Hat _. destruct (nw_write_slice_spec x d b Hat) as (x' & E & Hat' & Hv & Hd & ? & ?).
  exists x'. unfold w_version, w_store_dir. cbn. unfold display_room. rewrite Hv, Hd. auto.
Qed.
Next Obligation.
  intros x d ps Hat Hl.
  destruct (nw_write_display_spec x d ps Hat Hl) as (x' & E & Hat' & Hv & Hd & ? & ?).
  exists x'. unfold w_version, w_store_dir. cbn. unfold display_room. rewrite Hv, Hd. auto.
Qed.

(** A message that finds no room leaves the stream as it was. *)
Lemma nw_write_strs_fail ps x :
  length (nw_buf x) ≤ nw_cap x → nw_remaining x < length (concat ps) →
  ∃ k, nw_write_strs ps x = (nw_set x (nw_inner x) (nw_buf x ++ k) (nw_cap x), false).
Proof.
  revert x. induction ps as [|p ps IH]; cbn; intros x Hc Hl; [lia|].
  rewrite length_app in Hl. unfold nw_remaining in *. case_decide.
  - destruct (IH (nw_set x (nw_inner x) (nw_buf x ++ p) (nw_cap x))) as [k ->];
      [cbn; rewrite length_app; lia..|].
    exists (p ++ k). cbn. by rewrite app_assoc.
  - exists []. rewrite app_nil_r. by destruct x.
Qed.

Lemma nw_write_display_error x d ps x1 :
  writer_at x d → nw_ensure_display x = (x1, Ok tt) → nw_remaining x1 < 8 + length (concat ps) →
  ∃ x', nw_write_display ps x =
      (x', Err (InvalidData "an error occurred when formatting an argument")) ∧
    writer_at x' d ∧ same_sizes x x'.
Proof.
  intros Hat E1 Hl. destruct (nw_ensure_display_spec x d Hat) as (x2 & E2 & Hat1 & Hsz1 & Hroom).
  rewrite E1 in E2. injection E2 as <-.
  unfold nw_write_display. rewrite (io_bind_Ok _ _ _ _ _ E1).
  destruct Hat1 as (Hs & Hd & Hc & Hsz). unfold mbind, io_bind, nw_put_display.
  rewrite decide_False by lia. pose proof (length_u64_to_le_bytes 0) as H8.
  unfold nw_remaining in *.
  set (y := nw_set x1 (nw_inner x1) (nw_buf x1 ++ u64_to_le_bytes 0) (nw_cap x1)).
  destruct (nw_write_strs_fail ps y) as [k ->];
    [unfold y, nw_remaining; cbn; rewrite length_app; lia..|].
  cbn. eexists. split; [done|]. rewrite <-app_assoc, take_app_length. split; [|done].
  split; [done|]. split; [done|]. split; [cbn; lia|done].
Qed.
End writer.

(** ** [NixReader] *)

Record NixReader (R : Type) : Type := mk_nr {
  nr_inner : R;
  nr_reserved_buf_size : nat;
  nr_max_buf_size : nat;
  nr_version : ProtocolVersion;
  nr_store_dir : StoreDir
}.
Arguments mk_nr {R}.
Arguments nr_inner {R}.
Arguments nr_reserved_buf_size {R}.
Arguments nr_max_buf_size {R}.
Arguments nr_version {R}.
Arguments nr_store_dir {R}.

(** How long a byte string may be, for a given limit of the protocol reader, so
    that the buffer can hold it when it is there. *)
Class StringLimit (R : Type) {HR : AsyncBytesRead R} {HB : AsyncBytesReadBase R} : Type := {
  longest : nat → nat;
  longest_le m : longest m ≤ m;
  longest_fits r m n : rd_inv r → n ≤ longest m + 8 → n ≤ length (rest r) → rd_fits r n
}.

(** All that is to come fits the buffer. *)
#[export] Program Instance laws_string_limit {R : Type} {HR : AsyncBytesRead R} {HL : AsyncBytesReadLaws R} : StringLimit R := {|
  longest m := m
|}.
Next Obligation. done. Qed.
Next Obligation. intros. by apply laws_fits. Qed.

(** The buffer can hold [n + 8] bytes, whatever is to come. *)
Program Definition room_string_limit {R : Type} {HR : AsyncBytesRead R} (HB : AsyncBytesReadBase R) (n : nat) :
    StringLimit R (HB := with_room HB (n + 8)) := {|
  longest m := min n m
|}.
Next Obligation. intros. cbn. lia. Qed.
Next Obligation. intros R HR HB n r m k [_ Hr] Hk _. eapply fits_le; [exact Hr|lia]. Qed.

Section reader.
Context {R : Type} {HR : AsyncBytesRead R} {HL : AsyncBytesReadBase R}.
Implicit Types x : NixReader R.

Definition nr_set x (r : R) : NixReader R :=
  mk_nr r (nr_reserved_buf_size x) (nr_max_buf_size x) (nr_version x) (nr_store_dir x).

(** [poll_reader] of one of the resumable readers, awaited. *)
Definition nr_await {T A} (f : T * R → (T * R) * polled A) (init : T) : io (NixReader R) A := λ x,
  match poll_until f (patience (nr_inner x)) (init, nr_inner x) with
  | ((_, r), Ready a) => (nr_set x r, a)
  | ((_, r), Pending) => (nr_set x r, Panic)
  end.

Definition nr_try_read_number : io (NixReader R) (option Z) := nr_await u64_poll_reader u64_new.

Definition nr_try_read_bytes_limited (lo hi : Z) : io (NixReader R) (option bytes) := λ x,
  if decide (hi ≤ Z.of_nat (nr_max_buf_size x))%Z
  then nr_await bytes_poll_reader (ReadLen lo hi u64_new) x
  else (x, Panic).

Definition nr_try_read_bytes : io (NixReader R) (option bytes) := λ x,
  nr_try_read_bytes_limited 0 (Z.of_nat (nr_max_buf_size x)) x.

#[export] Instance NixReader_read : NixRead (NixReader R) := {|
  r_version := nr_version;
  r_store_dir := nr_store_dir;
  try_read_number := nr_try_read_number;
  try_read_bytes_limited := nr_try_read_bytes_limited;
  try_read_bytes := nr_try_read_bytes
|}.

Lemma nr_await_spec {T A} (f : T * R → (T * R) * polled A) init (I : T * R → Prop)
    (Q : R → res io_error A → Prop) x :
  (∀ st st' p, I st → f st = (st', p) →
     match p with Pending => I st' ∧ patience st'.2 < patience st.2 | Ready a => Q st'.2 a end) →
  I (init, nr_inner x) →
  ∃ r a, nr_await f init x = (nr_set x r, a) ∧ Q r a.
Proof.
  intros Hstep Hi. unfold nr_await.
  destruct (poll_until_ind f (λ st, patience st.2) I (λ st a, Q st.2 a)) with
    (fuel := patience (nr_inner x)) (r := (init, nr_inner x)) as ([t r] & a & E & Hq);
    [|done|done|rewrite E; eauto].
  intros st st' p Hst E. specialize (Hstep st st' p Hst E). by destruct p.
Qed.

Lemma nr_number_spec x :
  rd_inv (nr_inner x) →
  ∃ r, rd_inv r ∧
    match take_u64 (rest (nr_inner x)) with
    | Ok (o, tl) => nr_try_read_number x = (nr_set x r, Ok o) ∧ rest r = tl
    | Err e => nr_try_read_number x = (nr_set x r, Err e)
    | Panic => False
    end.
Proof.
  intros Hi. destruct (nr_await_spec u64_poll_reader u64_new
    (λ st, rd_inv st.2 ∧ ∃ a, u64_at st.1 a ∧ rest (nr_inner x) = a ++ rest st.2)
    (λ r a, rd_inv r ∧ match a with
       | Ok o => take_u64 (rest (nr_inner x)) = Ok (o, rest r)
       | Err e => take_u64 (rest (nr_inner x)) = Err e
       | Panic => False end) x) as (r & a & E & Hr & Ha).
  - intros [u r] st' p [Hr (a & Hu & Hbs)] E.
    apply (u64_poll_reader_spec u r a (rest (nr_inner x))) in E as [Hi' Hp]; [|done..].
    destruct p as [[o|e|]|]; try done; [by destruct Hp|].
    destruct Hp as (a' & ? & ? & ?). split; [|done]. split; [done|]. eauto.
  - split; [done|]. exists []. split; [apply u64_new_at|done].
  - exists r. split; [done|]. unfold nr_try_read_number. rewrite E.
    destruct a; [by rewrite Ha|by rewrite Ha|done].
Qed.

Lemma nr_bytes_spec x :
  let hi := Z.of_nat (nr_max_buf_size x) in
  rd_inv (nr_inner x) → announced_fits 0 hi (nr_inner x) (rest (nr_inner x)) →
  ∃ r, rd_inv r ∧
    match take_bytes 0 hi (rest (nr_inner x)) with
    | Ok (o, tl) => nr_try_read_bytes x = (nr_set x r, Ok o) ∧ rest r = tl
    | Err e => nr_try_read_bytes x = (nr_set x r, Err e)
    | Panic => False
    end.
Proof.
  intros hi Hi Hfits. destruct (nr_await_spec bytes_poll_reader (ReadLen 0 hi u64_new)
    (λ st, rd_inv st.2 ∧ bytes_at 0 hi st.1 st.2 (rest (nr_inner x)) ∧ announced_fits 0 hi st.2 (rest (nr_inner x)))
    (λ r a, rd_inv r ∧ match a with
       | Ok o => take_bytes 0 hi (rest (nr_inner x)) = Ok (o, rest r)
       | Err e => take_bytes 0 hi (rest (nr_inner x)) = Err e
       | Panic => False end) x) as (r & a & E & Hr & Ha).
  - intros [s r] st' p (Hr & Hat & Hf) E. pose proof (bytes_poll_reader_fits s r st' p E) as Hk.
    apply (bytes_poll_reader_spec 0 hi s r (rest (nr_inner x))) in E as [Hi' Hp]; [|done..].
    destruct p as [[]|]; [split; [done|apply Hp]|done|done|]. destruct Hp. split; [|done]. split_and!; [done|done|].
    by apply (announced_keeps 0 hi r).
  - split; [done|]. split; [|done]. split; [done|]. split; [done|]. exists []. split; [apply u64_new_at|done].
  - exists r. split; [done|]. unfold nr_try_read_bytes, nr_try_read_bytes_limited.
    rewrite decide_True by done. fold hi. rewrite E.
    destruct a; [by rewrite Ha|by rewrite Ha|done].
Qed.

(** A string inside the limit that is there. *)
Lemma longest_announced {SL : StringLimit R} (r : R) m o tl : rd_inv r →
  take_bytes 0 (Z.of_nat (longest m)) (rest r) = Ok (o, tl) →
  announced_fits 0 (Z.of_nat m) r (rest r) ∧ take_bytes 0 (Z.of_nat m) (rest r) = Ok (o, tl).
Proof.
  intros Hi. pose proof (longest_le m) as Hle. unfold take_bytes, announced_fits.
  destruct (take_u64 (rest r)) as [[[len|] bs]|e|] eqn:Eu; cbn [mbind res_bind]; [|done..].
  case_decide as Hlim; [|done]. rewrite (decide_True (P := (0 ≤ len ≤ Z.of_nat m)%Z)) by lia.
  apply take_u64_Some in Eu as [Hu Er]. assert (length bs ≤ length (rest r)) as Hl by (rewrite Er, length_app; lia).
  destruct (checked_aligned len) as [aligned|] eqn:Hal; cbn [ok_or mbind res_bind]; [|done].
  pose proof (aligned_padding len aligned ltac:(lia) Hal) as Hp. pose proof (calc_padding_lt_8 len) as H8.
  intros Ht. split; [|exact Ht]. intros len' aligned' tl' [= <- <-] _ Ha. rewrite Hal in Ha. injection Ha as <-.
  apply (longest_fits r m); [done|lia|].
  destruct (decide (0 < aligned)%Z); [|lia]. destruct (decide (Z.of_nat (length bs) < aligned)%Z); [done|lia].
Qed.

#[export] Program Instance NixReader_laws {SL : StringLimit R} : NixReadLaws (NixReader R) := {|
  nr_inv x := rd_inv (nr_inner x);
  nr_rest x := rest (nr_inner x);
  r_limit x := Z.of_nat (longest (nr_max_buf_size x))
|}.
Next Obligation.
  intros SL x Hi. destruct (nr_number_spec x Hi) as (r & Hr & Hm). exists (nr_set x r).
  split; [done|]. split; [done|]. exact Hm.
Qed.
Next Obligation.
  intros SL x o tl Hi Ht. destruct (longest_announced _ _ _ _ Hi Ht) as [Hf Ht'].
  destruct (nr_bytes_spec x Hi Hf) as (r & Hr & Hm). rewrite Ht' in Hm. destruct Hm. exists (nr_set x r).
  by split_and!.
Qed.
End reader.
