(* ===== verification/Streams.v ===== *)
(** What the client and the server of the daemon protocol need of their streams
    besides [NixRead] and [NixWrite]: flushing and raw bytes, the frames of
    [FramedReader], and the version that is set after the handshake; with
    [NixWriter] and [NixReader] as the instances. *)

From stdpp Require Import base list numbers strings.
From Stdlib Require Import ZArith Lia Strings.Byte.
From S2P Require Import Prelude Async Wire Sink ProtoRead Framed Version StorePath NixIO.

#[local] Unset Program Cases.

(** ** The interfaces *)

(** [AsyncWrite] of the writer: [flush] and [write_all]. *)
Class AsyncWriter (S : Type) : Type := {
  flush : io S unit;
  write_all : bytes → io S unit
}.

(** [FramedReader] over the reader: open it, read into a buffer of [S room]
    bytes, drain it, and have the reader back. *)
Class FramedSource (S : Type) : Type := {
  framing : Type;
  framed_open : S → framing;
  framed_get : nat → io framing bytes;
  framed_drain_all : io framing nat;
  framed_close : framing → S
}.

(** [FramedWriter] over the writer: open it, copy the chunks a source gives,
    as [copy_buf] does, and shut it down. *)
Class FramedSink (S : Type) : Type := framed_copy : list (res io_error bytes) → io S unit.

Class SetVersion (S : Type) : Type := set_version : ProtocolVersion → S → S.

(** ** Laws of the streams *)

(** [w_sent] is what has left the buffers of the writer. *)
Class AsyncWriterLaws (S : Type) {HW : NixWrite S} {HWL : NixWriteLaws S} {HA : AsyncWriter S} : Type := {
  w_sent : S → bytes;
  flush_law s d : nw_at s d →
    ∃ s', flush s = (s', Ok tt) ∧ nw_at s' d ∧ same_writer s s' ∧ w_sent s' = d;
  write_all_law s d b : nw_at s d →
    ∃ s', write_all b s = (s', Ok tt) ∧ nw_at s' (d ++ b) ∧ same_writer s s'
}.

(** [fr_at s x c tl]: the frames opened on [s] still hold [c], and [tl] follows
    them. *)
Class FramedSourceLaws (S : Type) {HR : NixRead S} {HRL : NixReadLaws S} {HF : FramedSource S} : Type := {
  fr_at : S → framing → bytes → bytes → Prop;
  framed_open_law s fs tl :
    nr_inv s → frames_ok fs → nr_rest s = frames fs ++ tl → fr_at s (framed_open s) (concat fs) tl;
  framed_get_law s x c tl room : fr_at s x c tl →
    ∃ x' b c', framed_get room x = (x', Ok b) ∧ fr_at s x' c' tl ∧
      c = b ++ c' ∧ length b ≤ Datatypes.S room ∧ (b = [] → c = []);
  framed_drain_law s x c tl : fr_at s x c tl →
    ∃ x' n, framed_drain_all x = (x', Ok n) ∧ same_reader s (framed_close x') ∧
      nr_inv (framed_close x') ∧ nr_rest (framed_close x') = tl
}.

Class FramedSinkLaws (S : Type) {HW : NixWrite S} {HWL : NixWriteLaws S} {HF : FramedSink S} : Prop :=
  framed_copy_law s d chunks :
    nw_at s d → Forall (λ c, c ≠ []) chunks → is_u64 (Z.of_nat (length (concat chunks))) →
    ∃ s' fs, framed_copy (Ok <$> chunks) s = (s', Ok tt) ∧ frames_ok fs ∧ concat fs = concat chunks ∧
      nw_at s' (d ++ frames fs) ∧ same_writer s s'.

Class SetVersionReadLaws (S : Type) {HR : NixRead S} {HRL : NixReadLaws S} {HV : SetVersion S} : Prop :=
  set_version_read v s : nr_inv s → nr_inv (set_version v s) ∧ nr_rest (set_version v s) = nr_rest s ∧
    r_version (set_version v s) = v ∧ r_store_dir (set_version v s) = r_store_dir s ∧
    r_limit (set_version v s) = r_limit s.

Class SetVersionWriteLaws (S : Type) {HW : NixWrite S} {HWL : NixWriteLaws S} {HV : SetVersion S} : Prop :=
  set_version_write v s d : nw_at s d → nw_at (set_version v s) d ∧ w_version (set_version v s) = v ∧
    w_store_dir (set_version v s) = w_store_dir s ∧ w_room (set_version v s) = w_room s.

(** ** [NixWriter] *)

Section writer.
Context {HM : BytesMutReserve} {HML : BytesMutLaws} {HMG : BytesMutGrows}.
Context {W : Type} {AW : AsyncWrite W} {AF : AsyncFlush W} {AWL : AsyncWriteLaws W} {AFL : AsyncFlushLaws W}.

#[export] Instance NixWriter_async : AsyncWriter (NixWriter W) := {|
  flush := nw_flush;
  write_all := nw_write_all
|}.

#[export] Instance NixWriter_set_version : SetVersion (NixWriter W) := λ v x,
  mk_nw (nw_inner x) (nw_buf x) (nw_cap x) (display_buf_size x) (reserved_buf_size x) (nw_max_buf_size x) v
    (nw_store_dir x).

Lemma same_sizes_writer (x x' : NixWriter W) : same_sizes x x' → same_writer x x'.
Proof.
  intros (? & ? & ? & ?). unfold same_writer. cbn. unfold display_room. split_and!; congruence.
Qed.

#[export] Program Instance NixWriter_async_laws : AsyncWriterLaws (NixWriter W) := {|
  w_sent x := wr_written (nw_inner x)
|}.
Next Obligation.
  intros x d Hx. destruct (nw_flush_spec x d Hx) as (x' & E & Hat & Hsz & Hbuf). exists x'.
  split; [done|]. split; [done|]. destruct Hat as (_ & Hd & _). rewrite Hbuf, app_nil_r in Hd.
  split; [by apply same_sizes_writer|done].
Qed.
Next Obligation.
  intros x d b Hx. destruct (nw_write_all_spec x d b Hx) as (x' & E & Hat & Hsz). exists x'.
  split; [done|]. split; [done|by apply same_sizes_writer].
Qed.

#[export] Instance NixWriter_set_version_laws : SetVersionWriteLaws (NixWriter W).
Proof. intros v x d Hx. done. Qed.

(** The writer as the [AsyncWrite] below another writer. *)
#[export] Instance NixWriter_async_write : AsyncWrite (NixWriter W) := nw_poll_write.

#[export] Instance NixWriter_async_flush : AsyncFlush (NixWriter W) := {|
  aw_poll_flush := nw_poll_flush;
  aw_poll_shutdown := nw_poll_shutdown
|}.

(** Its laws, with the sizes, the version and the store directory of [x0]. *)
Program Definition NixWriter_async_write_laws (x0 : NixWriter W) : AsyncWriteLaws (NixWriter W) := {|
  wr_inv x := writer_at x (wr_written (nw_inner x) ++ nw_buf x) ∧ same_sizes x0 x;
  wr_written x := wr_written (nw_inner x) ++ nw_buf x;
  wr_patience x := wr_patience (nw_inner x)
|}.
Next Obligation.
  intros x0 x buf x' p [Hx Hx0] Hne E.
  apply (nw_poll_write_spec x (wr_written (nw_inner x) ++ nw_buf x) buf) in E as (Hsz & Hle & Hp); [|done|done].
  assert (∀ d, writer_at x' d → wr_written (nw_inner x') ++ nw_buf x' = d) as Hd by (by intros d (_ & ? & _)).
  assert (same_sizes x0 x') by (by eapply same_sizes_trans).
  destruct p as [[n|e|]|]; try done.
  - destruct Hp as [Hn Hat]. rewrite (Hd _ Hat). done.
  - destruct Hp as [Hat Hlt]. rewrite (Hd _ Hat). done.
Qed.

Lemma NixWriter_async_flush_laws (x0 : NixWriter W) :
  AsyncFlushLaws (AWL := NixWriter_async_write_laws x0) (NixWriter W).
Proof.
  intros x x' p [Hx Hx0] E. cbn in E.
  apply (nw_poll_flush_spec x (wr_written (nw_inner x) ++ nw_buf x)) in E as (Hat & Hsz & Hle & Hp); [|done].
  assert (wr_written (nw_inner x') ++ nw_buf x' = wr_written (nw_inner x) ++ nw_buf x) as Hd by (by destruct Hat as (_ & ? & _)).
  cbn. rewrite Hd. split; [split; [done|by eapply same_sizes_trans]|]. split; [done|]. split; [done|].
  by destruct p as [[]|].
Qed.

(** [copy_buf] from the chunks of a source: each is written, and at the end the
    frame is flushed and then the writer below. *)
Fixpoint fw_copy_buf {X : AsyncWriteLaws (NixWriter W)} (chunks : list (res io_error bytes)) (x : FramedWriter (NixWriter W))
    : FramedWriter (NixWriter W) * res io_error unit :=
  match chunks with
  | [] | Ok [] :: _ =>
      match fw_until fw_poll_flush x with
      | Ok x => (x, Ok tt)
      | Err e => (x, Err e)
      | Panic => (x, Panic)
      end
  | Ok chunk :: chunks =>
      match fw_write_all (length chunk + wr_patience (fw_out x)) x chunk with
      | Ok x => fw_copy_buf chunks x
      | Err e => (x, Err e)
      | Panic => (x, Panic)
      end
  | Err e :: _ => (x, Err e)
  | Panic :: _ => (x, Panic)
  end.

(** Then [shutdown], and a flush of the writer. *)
#[export] Instance NixWriter_framed : FramedSink (NixWriter W) := λ chunks x,
  let X := NixWriter_async_write_laws x in
  match fw_copy_buf chunks (fw_new x) with
  | (f, Ok _) =>
      match fw_until fw_poll_shutdown f with
      | Ok f => nw_flush (fw_out f)
      | Err e => (fw_out f, Err e)
      | Panic => (fw_out f, Panic)
      end
  | (f, Err e) => (fw_out f, Err e)
  | (f, Panic) => (fw_out f, Panic)
  end.

Lemma fw_copy_buf_spec x0 d0 chunks x d :
  let X := NixWriter_async_write_laws x0 in
  fw_at d0 x d → Forall (λ c, c ≠ []) chunks →
  ∃ x', fw_copy_buf (Ok <$> chunks) x = (x', Ok tt) ∧ fw_at d0 x' (d ++ concat chunks).
Proof using HML HMG AFL.
  intros X Hat Hc. pose proof (NixWriter_async_flush_laws x0) as XF. revert x d Hat.
  induction Hc as [|c chunks Hne _ IH]; intros x d Hat.
  - cbn [concat fmap list_fmap fw_copy_buf] in *. rewrite app_nil_r in *.
    destruct (fw_until_flush d0 x d Hat) as (x1 & -> & Hat1). eauto.
  - cbn [concat] in *. rewrite app_assoc.
    destruct (fw_write_all_spec d0 (length c + wr_patience (fw_out x)) x d c Hat) as (x1 & E1 & Hat1); [done|].
    destruct c as [|y c]; [done|]. cbn [fmap list_fmap fw_copy_buf]. rewrite E1. by apply IH.
Qed.

(** A new [FramedWriter] on the writer. *)
Lemma fw_new_writer x d :
  writer_at x d → fw_at (AWL := NixWriter_async_write_laws x) d (fw_new x) [].
Proof.
  intros Hx. assert (wr_written (AsyncWriteLaws := NixWriter_async_write_laws x) x = d) as Hd by (by destruct Hx as (_ & ? & _)).
  apply fw_new_at; [|done]. cbn in Hd. split; [by rewrite Hd|apply same_sizes_refl].
Qed.

(** [shutdown] of the frames, and [flush]. *)
Lemma fw_finish x0 d0 f d :
  let X := NixWriter_async_write_laws x0 in
  fw_at d0 f d → is_u64 (Z.of_nat (length d)) →
  ∃ f' x' fs, fw_until fw_poll_shutdown f = Ok f' ∧ nw_flush (fw_out f') = (x', Ok tt) ∧
    frames_ok fs ∧ concat fs = d ∧ writer_at x' (d0 ++ frames fs) ∧ same_writer x0 x'.
Proof using HML HMG AFL.
  intros X Hf Hu. pose proof (NixWriter_async_flush_laws x0) as XF.
  destruct (fw_until_shutdown d0 f d Hf) as (f' & -> & [Hi Hsz] & fs & Hfs & Hc & Hw).
  cbn in Hw. rewrite Hw in Hi.
  destruct (nw_flush_spec _ _ Hi) as (x' & Ex & Hat' & Hsz' & _). exists f', x', fs.
  split; [done|]. split; [done|]. split; [apply frames_ok_total; [done|by rewrite Hc]|]. split; [done|]. split; [done|].
  apply same_sizes_writer. by eapply same_sizes_trans.
Qed.

#[export] Instance NixWriter_framed_laws : FramedSinkLaws (NixWriter W).
Proof using HMG HML AFL.
  intros x d chunks Hx Hne Hu. unfold framed_copy, NixWriter_framed. cbv zeta.
  destruct (fw_copy_buf_spec x d chunks (fw_new x) [] (fw_new_writer x d Hx) Hne) as (f & -> & Hf).
  destruct (fw_finish x d f _ Hf Hu) as (f' & x' & fs & -> & E2 & ?). by exists x', fs.
Qed.
End writer.

(** ** [NixReader] *)

Section reader.
Context {R : Type} {HR : AsyncBytesRead R} {HL : AsyncBytesReadBase R}.

#[export] Instance NixReader_set_version : SetVersion (NixReader R) := λ v x,
  mk_nr (nr_inner x) (nr_reserved_buf_size x) (nr_max_buf_size x) v (nr_store_dir x).

#[export] Instance NixReader_set_version_laws {SL : StringLimit R} : SetVersionReadLaws (NixReader R).
Proof using Type. intros v x Hx. done. Qed.

(** The frames are read from the reader inside. *)
#[export] Instance NixReader_framed : FramedSource (NixReader R) := {|
  framing := NixReader R * FramedReadState;
  framed_open x := (x, FReadLen u64_new);
  framed_get room := λ '(x, st),
    match poll_until (λ y, framed_poll_read y (S room)) (patience (nr_inner x)) (st, nr_inner x) with
    | ((st, r), Ready a) => ((nr_set x r, st), a)
    | ((st, r), Pending) => ((nr_set x r, st), Panic)
    end;
  framed_drain_all := λ '(x, st),
    let '((st, r), n) := framed_drain (9 + length (rest (nr_inner x)) + patience (nr_inner x))
                           (st, nr_inner x) 0 in
    ((nr_set x r, st), n);
  framed_close := fst
|}.

#[export] Program Instance NixReader_framed_laws {SL : StringLimit R} : FramedSourceLaws (NixReader R) := {|
  fr_at x0 f c tl := framed_at (f.2, nr_inner f.1) c tl ∧ same_reader x0 f.1
|}.
Next Obligation.
  intros SL x fs tl Hi Hfs Hr. split; [|done]. by apply framed_new_at.
Qed.
Next Obligation.
  intros SL x0 [x st] c tl room [Hat Hsame]. cbn [fst snd] in *.
  destruct (poll_until_ind (λ y, framed_poll_read y (S room)) (λ y, patience y.2) (λ y, framed_at y c tl)
    (λ y a, ∃ b c', a = Ok b ∧ framed_at y c' tl ∧ c = b ++ c' ∧ length b ≤ S room ∧ (b = [] → c = [])))
    with (fuel := patience (nr_inner x)) (r := (st, nr_inner x)) as ([st' r] & a & E & b & c' & -> & ? & ? & ? & ?);
    [|done|done|].
  - intros y y' p Hy E. apply (framed_poll_read_spec y c tl) in E; [|done|lia].
    destruct p as [[b|e|]|]; try done. destruct E as (c' & ? & ? & Hnil & ? & ?).
    exists b, c'. split_and!; try done. intros ->. by apply Hnil.
  - exists (nr_set x r, st'), b, c'. cbn. rewrite E. split; [done|]. split; [|done]. split; [done|]. done.
Qed.
Next Obligation.
  intros SL x0 [x st] c tl [Hat Hsame]. cbn [fst snd] in *. pose proof (framed_at_length _ _ _ Hat) as Hlen. cbn in Hlen.
  destruct (framed_drain_spec (9 + length (rest (nr_inner x)) + patience (nr_inner x)) (st, nr_inner x) c tl 0)
    as ([st' r] & E & Hi & Hr); [done|cbn; lia|].
  exists (nr_set x r, st'), (0 + length c). unfold framed_drain_all, NixReader_framed. rewrite E.
  split_and!; try done.
Qed.
End reader.
