(* ===== verification/NixCodec.v ===== *)
(** Typed values of the daemon protocol: the traits [NixSerialize] and
    [NixDeserialize] and their implementations for integers, strings and
    collections ([harmonia-protocol/src/ser/*.rs], [de/*.rs]), as classes over
    any [NixWrite] and [NixRead], with a class of codecs whose two halves fit. *)

From stdpp Require Import base list numbers strings sorting.
From Stdlib Require Import ZArith Lia Strings.Byte Sorting.Sorted.
From S2P Require Import Prelude Async Wire Sink BufferMut BytesReader ProtoRead Framed Version StorePath NixIO.

(** ** The traits *)

Class NixSerialize (T : Type) : Type :=
  serialize : ∀ S : Type, NixWrite S → T → io S unit.

Class NixDeserialize (T : Type) : Type :=
  try_deserialize : ∀ S : Type, NixRead S → io S (option T).

Definition write_value {T S : Type} {NS : NixSerialize T} {HW : NixWrite S} : T → io S unit :=
  serialize S HW.

Definition try_read_value (T : Type) {S : Type} {ND : NixDeserialize T} {HR : NixRead S}
    : io S (option T) := try_deserialize S HR.

(** The default [deserialize]. *)
Definition read_value (T : Type) {S : Type} {ND : NixDeserialize T} {HR : NixRead S} : io S T :=
  or_eof (try_deserialize S HR).

(** [Ok(reader.try_read..().await?.map(f))], and with a fallible [f]. *)
Definition io_map {S A B} (f : A → B) (m : io S (option A)) : io S (option B) :=
  o ← m; mret (f <$> o).

Definition io_try_map {S A B} (f : A → res io_error B) (m : io S (option A)) : io S (option B) :=
  o ← m;
  match o with
  | Some v => b ← io_lift (f v); mret (Some b)
  | None => mret None
  end.

(** [if let Some(x) = first? { rest } else { Ok(None) }]. *)
Definition io_first {S A B} (m : io S (option A)) (k : A → io S B) : io S (option B) :=
  o ← m;
  match o with
  | Some v => b ← k v; mret (Some b)
  | None => mret None
  end.

(** ** Integers

    [UInt w] is the unsigned integer of [w] bits ([u8], [u16], [u32], and
    [usize] with 64 of them); [u64] and [i64] have implementations of their
    own. *)

Inductive U64 : Type := u64 (z : Z).
Inductive UInt (w : Z) : Type := uint (z : Z).
Arguments uint {w} z.
Inductive I64 : Type := i64 (z : Z).

Abbreviation U16 := (UInt 16).
Abbreviation U32 := (UInt 32).
Abbreviation usize := (UInt 64).

Definition u64_val (n : U64) : Z := match n with u64 z => z end.
Definition uint_val {w} (n : UInt w) : Z := match n with uint z => z end.
Definition i64_val (n : I64) : Z := match n with i64 z => z end.

#[export] Instance u64_serialize : NixSerialize U64 := λ S HW n, write_number (u64_val n).
#[export] Instance u64_deserialize : NixDeserialize U64 := λ S HR, io_map u64 try_read_number.

(** [try_into] a narrower integer. *)
Definition uint_try_from (w z : Z) : res io_error (UInt w) :=
  if decide (0 ≤ z < 2 ^ w)%Z then Ok (uint z)
  else Err (InvalidData "out of range integral type conversion attempted").

#[export] Instance uint_serialize w : NixSerialize (UInt w) := λ S HW n, write_number (uint_val n).
#[export] Instance uint_deserialize w : NixDeserialize (UInt w) := λ S HR,
  io_try_map (uint_try_from w) try_read_number.

#[export] Instance bool_serialize : NixSerialize bool := λ S HW b,
  write_number (if (b : bool) then 1 else 0).
#[export] Instance bool_deserialize : NixDeserialize bool := λ S HR,
  io_map (λ v, bool_decide (v ≠ 0%Z)) try_read_number.

(** [as u64] and [as i64]. *)
#[export] Instance i64_serialize : NixSerialize I64 := λ S HW n, write_number (wrap_u64 (i64_val n)).
#[export] Instance i64_deserialize : NixDeserialize I64 := λ S HR,
  io_map (λ v, i64 (if decide (v < 9223372036854775808)%Z then v else v - u64_modulus))
    try_read_number.

(** [()] is read without reading. *)
#[export] Instance unit_deserialize : NixDeserialize unit := λ S HR, mret (Some tt).

(** ** Byte strings and strings *)

Inductive Bytes : Type := mk_Bytes (b : bytes).
Inductive RString : Type := mk_String (s : bytes).
Definition bytes_val (b : Bytes) : bytes := match b with mk_Bytes b => b end.
Definition string_val (s : RString) : bytes := match s with mk_String s => s end.

(** [str::from_utf8]: well-formed sequences as in the Unicode standard, table
    3-7. [cont lo hi] is a continuation byte in the given range. *)
Definition cont (lo hi : Z) (b : byte) : bool := (lo <=? byte_to_Z b)%Z && (byte_to_Z b <=? hi)%Z.

Fixpoint is_utf8 (s : bytes) : bool :=
  match s with
  | [] => true
  | a :: s =>
      let x := byte_to_Z a in
      if (x <? 128)%Z then is_utf8 s
      else if (194 <=? x)%Z && (x <=? 223)%Z then
        match s with b :: s => cont 128 191 b && is_utf8 s | _ => false end
      else if (224 <=? x)%Z && (x <=? 239)%Z then
        match s with
        | b :: c :: s =>
            cont (if (x =? 224)%Z then 160 else 128) (if (x =? 237)%Z then 159 else 191) b &&
            cont 128 191 c && is_utf8 s
        | _ => false
        end
      else if (240 <=? x)%Z && (x <=? 244)%Z then
        match s with
        | b :: c :: d :: s =>
            cont (if (x =? 240)%Z then 144 else 128) (if (x =? 244)%Z then 143 else 191) b &&
            cont 128 191 c && cont 128 191 d && is_utf8 s
        | _ => false
        end
      else false
  end.

Definition from_utf8 (b : bytes) : res io_error bytes :=
  if is_utf8 b then Ok b else Err (InvalidData "invalid utf-8").

#[export] Instance Bytes_serialize : NixSerialize Bytes := λ S HW b, write_slice (bytes_val b).
#[export] Instance Bytes_deserialize : NixDeserialize Bytes := λ S HR, io_map mk_Bytes try_read_bytes.

#[export] Instance String_serialize : NixSerialize RString := λ S HW s, write_slice (string_val s).
#[export] Instance String_deserialize : NixDeserialize RString := λ S HR,
  io_try_map (λ b, mk_String <$> from_utf8 b) try_read_bytes.

(** The [display] and [from_str] attributes of the derive macros: the text of
    a value is written, and the bytes read are parsed. *)
Definition write_text {S E} {HW : NixWrite S} (text : res E bytes) : io S unit :=
  match text with
  | Ok t => write_display [t]
  | Err _ => io_lift (Err (InvalidData "an error occurred when formatting an argument"))
  | Panic => io_lift Panic
  end.

Definition invalid_data {E A} (r : res E A) : res io_error A :=
  map_err (λ _, InvalidData "invalid data") r.

Definition read_text {S E A} {HR : NixRead S} (parse : bytes → res E A) : io S (option A) :=
  io_try_map (λ b, s ← from_utf8 b; invalid_data (parse s)) try_read_bytes.

(** ** Collections *)

(** [size_of::<T>()], which the compiler chooses. *)
Class SizeOf (T : Type) : Type := size_of : Z.

Definition isize_max : Z := 9223372036854775807.

(** [Vec::with_capacity] panics when the size overflows. *)
Definition with_capacity_ok (T : Type) {SZ : SizeOf T} (len : Z) : bool :=
  bool_decide (len * size_of ≤ isize_max)%Z.

Fixpoint write_all_values {T S} {NS : NixSerialize T} {HW : NixWrite S} (l : list T) : io S unit :=
  match l with
  | [] => mret tt
  | v :: l => _ ← write_value v; write_all_values l
  end.

Fixpoint read_n {S A} (n : nat) (m : io S A) : io S (list A) :=
  match n with
  | O => mret []
  | S n => v ← m; l ← read_n n m; mret (v :: l)
  end.

Definition len_usize {A} (l : list A) : usize := uint (Z.of_nat (length l)).

#[export] Instance Vec_serialize {T} {NS : NixSerialize T} : NixSerialize (list T) := λ S HW l,
  _ ← write_value (len_usize l); write_all_values l.

#[export] Instance Vec_deserialize {T} {ND : NixDeserialize T} {SZ : SizeOf T} :
    NixDeserialize (list T) := λ S HR,
  io_first (try_read_value usize) (λ len,
    if with_capacity_ok T (uint_val len)
    then read_n (Z.to_nat (uint_val len)) (read_value T)
    else io_lift Panic).

(** [Ord]. *)
Class Ord (T : Type) : Type := cmp : T → T → comparison.

(** A [BTreeMap] is the list of its entries in the order of the keys;
    [insert] replaces the value of a key that is there. A [BTreeSet] is a map
    to [()]. *)
Record BTreeMap (K V : Type) : Type := mk_map { entries : list (K * V) }.
Arguments mk_map {K V}.
Arguments entries {K V}.

Record BTreeSet (T : Type) : Type := mk_set { elems : list T }.
Arguments mk_set {T}.
Arguments elems {T}.

Fixpoint insert_entry {K V} {HO : Ord K} (k : K) (v : V) (l : list (K * V)) : list (K * V) :=
  match l with
  | [] => [(k, v)]
  | (k', v') :: l' =>
      match cmp k k' with
      | Lt => (k, v) :: l
      | Eq => (k', v) :: l'
      | Gt => (k', v') :: insert_entry k v l'
      end
  end.

(** [BTreeSet::insert] keeps the element that is there. *)
Fixpoint insert_elem {T} {HO : Ord T} (x : T) (l : list T) : list T :=
  match l with
  | [] => [x]
  | y :: l' =>
      match cmp x y with
      | Lt => x :: l
      | Eq => l
      | Gt => y :: insert_elem x l'
      end
  end.

#[export] Instance BTreeSet_serialize {T} {NS : NixSerialize T} : NixSerialize (BTreeSet T) := λ S HW l,
  _ ← write_value (len_usize (elems l)); write_all_values (elems l).

#[export] Instance BTreeSet_deserialize {T} {ND : NixDeserialize T} {HO : Ord T} :
    NixDeserialize (BTreeSet T) := λ S HR,
  io_first (try_read_value usize) (λ len,
    l ← read_n (Z.to_nat (uint_val len)) (read_value T);
    mret (mk_set (fold_left (λ s x, insert_elem x s) l []))).

#[export] Instance pair_serialize {K V} {NK : NixSerialize K} {NV : NixSerialize V} :
    NixSerialize (K * V) := λ S HW kv, _ ← write_value kv.1; write_value kv.2.

#[export] Instance BTreeMap_serialize {K V} {NK : NixSerialize K} {NV : NixSerialize V} :
    NixSerialize (BTreeMap K V) := λ S HW m,
  _ ← write_value (len_usize (entries m)); write_all_values (entries m).

#[export] Instance BTreeMap_deserialize {K V} {NK : NixDeserialize K} {NV : NixDeserialize V}
    {HO : Ord K} : NixDeserialize (BTreeMap K V) := λ S HR,
  io_first (try_read_value usize) (λ len,
    l ← read_n (Z.to_nat (uint_val len)) (k ← read_value K; v ← read_value V; mret (k, v));
    mret (mk_map (fold_left (λ m kv, insert_entry kv.1 kv.2 m) l []))).

(** ** What a codec writes and reads

    [env] is what both sides agree on: the version, the store directory, the
    longest byte string and the longest displayed text. *)

Record env : Type := mk_env {
  e_version : ProtocolVersion;
  e_dir : StoreDir;
  e_limit : Z;
  e_room : nat
}.

Section writes.
Context {S : Type} {HW : NixWrite S} {HWL : NixWriteLaws S}.

Definition w_env (E : env) (s : S) : Prop :=
  w_version s = e_version E ∧ w_store_dir s = e_dir E ∧ w_room s = e_room E.

Definition writes (E : env) (m : io S unit) (bs : bytes) : Prop :=
  ∀ s d, nw_at s d → w_env E s → ∃ s', m s = (s', Ok tt) ∧ nw_at s' (d ++ bs) ∧ w_env E s'.

Lemma w_env_same E s s' : same_writer s s' → w_env E s → w_env E s'.
Proof. unfold same_writer, w_env. intuition congruence. Qed.

Lemma writes_ret E : writes E (mret tt) [].
Proof. intros s d Hs He. exists s. by rewrite app_nil_r. Qed.

Lemma writes_bind E m1 m2 b1 b2 :
  writes E m1 b1 → writes E m2 b2 → writes E (_ ← m1; m2) (b1 ++ b2).
Proof.
  intros H1 H2 s d Hs He. destruct (H1 s d Hs He) as (s1 & E1 & Hs1 & He1).
  destruct (H2 s1 _ Hs1 He1) as (s2 & E2 & Hs2 & He2). exists s2.
  rewrite (io_bind_Ok _ _ _ _ _ E1), app_assoc. done.
Qed.

Lemma writes_number E n : writes E (write_number n) (u64_to_le_bytes n).
Proof.
  intros s d Hs He. destruct (write_number_law s d n Hs) as (s' & ? & ? & ?).
  eauto using w_env_same.
Qed.

Lemma writes_slice E b : is_u64 (Z.of_nat (length b)) → writes E (write_slice b) (put_nix_slice b).
Proof.
  intros Hb s d Hs He. destruct (write_slice_law s d b Hs Hb) as (s' & ? & ? & ?).
  eauto using w_env_same.
Qed.

Lemma writes_text {Er} E (t : bytes) :
  length t ≤ e_room E → writes E (write_text (Ok t : res Er bytes)) (put_nix_slice t).
Proof.
  intros Ht s d Hs He. destruct (write_display_law s d [t] Hs) as (s' & ? & H2 & ?).
  { cbn. rewrite app_nil_r. destruct He as (_ & _ & ->). done. }
  cbn in H2. rewrite app_nil_r in H2. eauto using w_env_same.
Qed.
End writes.

Section reads.
Context {S : Type} {HR : NixRead S} {HRL : NixReadLaws S}.

Definition r_env (E : env) (s : S) : Prop :=
  r_version s = e_version E ∧ r_store_dir s = e_dir E ∧ r_limit s = e_limit E.

(** [m] takes [bs] off the stream and gives [v]. *)
Definition reads {A} (E : env) (m : io S A) (bs : bytes) (v : A) : Prop :=
  ∀ s tl, nr_inv s → r_env E s → nr_rest s = bs ++ tl →
  ∃ s', m s = (s', Ok v) ∧ nr_inv s' ∧ r_env E s' ∧ nr_rest s' = tl.

Lemma r_env_same E s s' : same_reader s s' → r_env E s → r_env E s'.
Proof. unfold same_reader, r_env. intuition congruence. Qed.

Lemma reads_ret {A} E (v : A) : reads E (mret v) [] v.
Proof. intros s tl Hs He Hr. by exists s. Qed.

Lemma reads_lift {A} E (r : res io_error A) v : r = Ok v → reads E (io_lift r) [] v.
Proof. intros -> s tl Hs He Hr. by exists s. Qed.

Lemma reads_bind {A B} E (m : io S A) (f : A → io S B) b1 b2 v w :
  reads E m b1 v → reads E (f v) b2 w → reads E (m ≫= f) (b1 ++ b2) w.
Proof.
  intros H1 H2 s tl Hs He Hr. rewrite <-app_assoc in Hr.
  destruct (H1 s _ Hs He Hr) as (s1 & E1 & Hs1 & He1 & Hr1).
  destruct (H2 s1 _ Hs1 He1 Hr1) as (s2 & E2 & ?). exists s2.
  by rewrite (io_bind_Ok _ _ _ _ _ E1).
Qed.

(** The last step adds nothing to what is read. *)
Lemma reads_bind_nil {A B} E (m : io S A) (f : A → io S B) bs v w :
  reads E m bs v → reads E (f v) [] w → reads E (m ≫= f) bs w.
Proof. intros H1 H2. rewrite <-(app_nil_r bs). by eapply reads_bind. Qed.

Lemma reads_or_eof {A} E (m : io S (option A)) bs v :
  reads E m bs (Some v) → reads E (or_eof m) bs v.
Proof. intros H. eapply reads_bind_nil; [exact H|apply reads_ret]. Qed.

Lemma reads_map {A B} E (f : A → B) (m : io S (option A)) bs v :
  reads E m bs (Some v) → reads E (io_map f m) bs (Some (f v)).
Proof. intros H. eapply reads_bind_nil; [exact H|apply reads_ret]. Qed.

Lemma reads_try_map {A B} E (f : A → res io_error B) (m : io S (option A)) bs v w :
  reads E m bs (Some v) → f v = Ok w → reads E (io_try_map f m) bs (Some w).
Proof.
  intros H Hf. eapply reads_bind_nil; [exact H|].
  eapply reads_bind_nil; [by apply reads_lift|apply reads_ret].
Qed.

Lemma reads_first {A B} E (m : io S (option A)) (k : A → io S B) b1 b2 v w :
  reads E m b1 (Some v) → reads E (k v) b2 w → reads E (io_first m k) (b1 ++ b2) (Some w).
Proof.
  intros H1 H2. eapply reads_bind; [exact H1|]. eapply reads_bind_nil; [exact H2|apply reads_ret].
Qed.

Lemma reads_number E n : is_u64 n → reads E try_read_number (u64_to_le_bytes n) (Some n).
Proof.
  intros Hn s tl Hs He Hr. destruct (try_read_number_law s Hs) as (s' & Hsame & Hs' & Hm).
  rewrite Hr, take_u64_encoded in Hm by done. destruct Hm. exists s'. split_and!; eauto using r_env_same.
Qed.

Lemma reads_bytes E b :
  alignable (Z.of_nat (length b)) → (Z.of_nat (length b) ≤ e_limit E)%Z →
  reads E try_read_bytes (put_nix_slice b) (Some b).
Proof.
  intros Ha Hl s tl Hs He Hr.
  assert (take_bytes 0 (r_limit s) (nr_rest s) = Ok (Some b, tl)) as Ht.
  { rewrite Hr. destruct He as (_ & _ & ->). apply take_bytes_encoded; [done|lia]. }
  destruct (try_read_bytes_law s _ _ Hs Ht) as (s' & Hsame & Hs' & ? & ?). exists s'. split_and!; eauto using r_env_same.
Qed.

Lemma reads_text {Er A} E (parse : bytes → res Er A) t v :
  alignable (Z.of_nat (length t)) → (Z.of_nat (length t) ≤ e_limit E)%Z →
  is_utf8 t = true → parse t = Ok v → reads E (read_text parse) (put_nix_slice t) (Some v).
Proof.
  intros Ha Hl Hu Hp. eapply reads_try_map; [by apply reads_bytes|].
  unfold from_utf8. rewrite Hu. cbn. by rewrite Hp.
Qed.
End reads.

(** ** Codecs *)

(** A type whose serialiser and deserialiser agree on the bytes
    [codec_bytes E v] of every value with [codec_ok E v]. *)
Class NixCodec (T : Type) {NS : NixSerialize T} {ND : NixDeserialize T} : Type := {
  codec_ok : env → T → Prop;
  codec_bytes : env → T → bytes;
  codec_writes E v : codec_ok E v → ∀ S HW HWL,
    @writes S HW HWL E (serialize S HW v) (codec_bytes E v);
  codec_reads E v : codec_ok E v → ∀ S HR HRL,
    @reads S HR HRL _ E (try_deserialize S HR) (codec_bytes E v) (Some v)
}.

Lemma codec_reads_value {T} `{NixCodec T} E v :
  codec_ok E v → ∀ S HR HRL, @reads S HR HRL _ E (read_value T) (codec_bytes E v) v.
Proof. intros Hv S HR HRL. apply reads_or_eof, codec_reads, Hv. Qed.

Hint Resolve codec_writes codec_reads codec_reads_value writes_number writes_ret reads_ret : harmonia.

#[export] Program Instance u64_codec : NixCodec U64 := {|
  codec_ok E n := is_u64 (u64_val n);
  codec_bytes E n := u64_to_le_bytes (u64_val n)
|}.
Next Obligation. intros E [z] Hz S HW HWL. apply writes_number. Qed.
Next Obligation. intros E [z] Hz S HR HRL. apply (reads_map E u64). by apply reads_number. Qed.

#[export] Program Instance uint_codec w : NixCodec (UInt w) := {|
  codec_ok E n := (0 ≤ uint_val n < 2 ^ w)%Z ∧ is_u64 (uint_val n);
  codec_bytes E n := u64_to_le_bytes (uint_val n)
|}.
Next Obligation. intros w E [z] Hz S HW HWL. apply writes_number. Qed.
Next Obligation.
  intros w E [z] [Hz Hu] S HR HRL. eapply reads_try_map; [by apply reads_number|].
  unfold uint_try_from. by rewrite decide_True.
Qed.

#[export] Program Instance bool_codec : NixCodec bool := {|
  codec_ok E b := True;
  codec_bytes E b := u64_to_le_bytes (if (b : bool) then 1 else 0)
|}.
Next Obligation. intros E b _ S HW HWL. apply writes_number. Qed.
Next Obligation.
  intros E b _ S HR HRL. unfold try_deserialize, bool_deserialize.
  set (n := (if b then 1 else 0)%Z).
  replace (Some b) with (Some (bool_decide (n ≠ 0%Z))) by (by destruct b).
  apply (reads_map E (λ v, bool_decide (v ≠ 0%Z))), reads_number.
  unfold is_u64, u64_modulus, n. destruct b; lia.
Qed.

Definition is_i64 (z : Z) : Prop := (- 9223372036854775808 ≤ z < 9223372036854775808)%Z.

#[export] Program Instance i64_codec : NixCodec I64 := {|
  codec_ok E n := is_i64 (i64_val n);
  codec_bytes E n := u64_to_le_bytes (wrap_u64 (i64_val n))
|}.
Next Obligation. intros E [z] _ S HW HWL. apply writes_number. Qed.
Next Obligation.
  intros E [z] Hz S HR HRL. unfold try_deserialize, i64_deserialize. cbn.
  set (f := λ v, i64 _).
  replace (Some (i64 z)) with (Some (f (wrap_u64 z))).
  { apply (reads_map E f), reads_number. apply Z.mod_pos_bound. done. }
  unfold f, wrap_u64, is_i64, u64_modulus in *. cbn in Hz. do 2 f_equal. case_decide as Hd.
  - destruct (decide (0 ≤ z)%Z); [apply Z.mod_small; lia|].
    rewrite <-(Z.mod_add z 1), Z.mod_small in Hd by lia. lia.
  - destruct (decide (0 ≤ z)%Z); [rewrite Z.mod_small in Hd; lia|].
    rewrite <-(Z.mod_add z 1), Z.mod_small by lia. lia.
Qed.

Definition bytes_ok (E : env) (b : bytes) : Prop :=
  alignable (Z.of_nat (length b)) ∧ (Z.of_nat (length b) ≤ e_limit E)%Z.

#[export] Program Instance Bytes_codec : NixCodec Bytes := {|
  codec_ok E b := bytes_ok E (bytes_val b);
  codec_bytes E b := put_nix_slice (bytes_val b)
|}.
Next Obligation. intros E [b] [Ha Hl] S HW HWL. apply writes_slice, alignable_is_u64, Ha. Qed.
Next Obligation. intros E [b] [Ha Hl] S HR HRL. by apply (reads_map E mk_Bytes), reads_bytes. Qed.

#[export] Program Instance String_codec : NixCodec RString := {|
  codec_ok E s := bytes_ok E (string_val s) ∧ is_utf8 (string_val s) = true;
  codec_bytes E s := put_nix_slice (string_val s)
|}.
Next Obligation. intros E [b] [[Ha Hl] _] S HW HWL. apply writes_slice, alignable_is_u64, Ha. Qed.
Next Obligation.
  intros E [b] [[Ha Hl] Hu] S HR HRL. eapply reads_try_map; [by apply reads_bytes|].
  cbn in *. unfold from_utf8. by rewrite Hu.
Qed.

(** ASCII is UTF-8. *)
Lemma ascii_utf8 s : Forall (λ b, byte_to_Z b < 128)%Z s → is_utf8 s = true.
Proof.
  induction 1 as [|b s Hb _ IH]; cbn; [done|].
  by replace (byte_to_Z b <? 128)%Z with true by (symmetry; by apply Z.ltb_lt).
Qed.

(** *** Collections *)

Definition len_ok {A} (l : list A) : Prop := is_u64 (Z.of_nat (length l)).

Lemma len_usize_ok {A} E (l : list A) : len_ok l → codec_ok E (len_usize l).
Proof. intros Hl. split; [|exact Hl]. exact Hl. Qed.

Section values.
Context {T : Type} {NS : NixSerialize T} {ND : NixDeserialize T} {CT : NixCodec T}.

Definition values_bytes (E : env) (l : list T) : bytes := concat (codec_bytes E <$> l).

Lemma writes_values E l S (HW : NixWrite S) (HWL : NixWriteLaws S) :
  Forall (codec_ok E) l → writes E (write_all_values l) (values_bytes E l).
Proof.
  induction 1 as [|v l Hv _ IH]; [apply writes_ret|]. apply writes_bind; [|exact IH].
  by apply codec_writes.
Qed.

(** The length, then the values. *)
Lemma writes_list E l S (HW : NixWrite S) (HWL : NixWriteLaws S) :
  len_ok l → Forall (codec_ok E) l →
  writes E (_ ← write_value (len_usize l); write_all_values l)
    (u64_to_le_bytes (Z.of_nat (length l)) ++ values_bytes E l).
Proof. intros Hl Hv. apply writes_bind; [apply writes_number|by apply writes_values]. Qed.
End values.

Lemma reads_n {S A} {HR : NixRead S} {HRL : NixReadLaws S} E (m : io S A) (bs : list bytes) l :
  Forall2 (reads E m) bs l → reads E (read_n (length l) m) (concat bs) l.
Proof.
  induction 1 as [|b v bs l Hv _ IH]; [apply reads_ret|].
  eapply reads_bind; [exact Hv|]. eapply reads_bind_nil; [exact IH|apply reads_ret].
Qed.

Lemma reads_values {T} {NS : NixSerialize T} {ND : NixDeserialize T} {CT : NixCodec T} E l S
    (HR : NixRead S) (HRL : NixReadLaws S) :
  Forall (codec_ok E) l → reads E (read_n (length l) (read_value T)) (values_bytes E l) l.
Proof.
  intros Hl. apply reads_n. induction Hl; cbn; constructor; [|done]. by apply codec_reads_value.
Qed.

(** The length, then something that depends on it. *)
Lemma reads_len {S A B} {HR : NixRead S} {HRL : NixReadLaws S} E (l : list A) (k : usize → io S B) bs w :
  len_ok l → reads E (k (len_usize l)) bs w →
  reads E (io_first (try_read_value usize) k)
    (u64_to_le_bytes (Z.of_nat (length l)) ++ bs) (Some w).
Proof.
  intros Hl Hk. eapply reads_first; [|exact Hk].
  exact (codec_reads E (len_usize l) (len_usize_ok E l Hl) S HR HRL).
Qed.

Lemma len_usize_nat {A} (l : list A) : Z.to_nat (uint_val (len_usize l)) = length l.
Proof. apply Nat2Z.id. Qed.

#[export] Program Instance Vec_codec {T} {NS : NixSerialize T} {ND : NixDeserialize T}
    {SZ : SizeOf T} {CT : NixCodec T} : NixCodec (list T) := {|
  codec_ok E l := len_ok l ∧ with_capacity_ok T (Z.of_nat (length l)) = true ∧ Forall (codec_ok E) l;
  codec_bytes E l := u64_to_le_bytes (Z.of_nat (length l)) ++ values_bytes E l
|}.
Next Obligation. intros T NS ND SZ CT E l (Hl & _ & Hv) S HW HWL. by apply writes_list. Qed.
Next Obligation.
  intros T NS ND SZ CT E l (Hl & Hc & Hv) S HR HRL. apply reads_len; [done|].
  cbn [uint_val len_usize]. rewrite Hc, Nat2Z.id. by apply reads_values.
Qed.

(** *** Ordered collections *)

Class OrdLaws (T : Type) {HO : Ord T} : Prop := {
  cmp_eq a b : cmp a b = Eq ↔ a = b;
  cmp_antisym a b : cmp b a = CompOpp (cmp a b);
  cmp_trans a b c : cmp a b = Lt → cmp b c = Lt → cmp a c = Lt
}.

Section ordered.
Context {T : Type} {HO : Ord T} {HOL : OrdLaws T}.

Definition ascending : list T → Prop := StronglySorted (λ a b, cmp a b = Lt).

Lemma cmp_gt a b : cmp a b = Gt ↔ cmp b a = Lt.
Proof. rewrite (cmp_antisym a b). by destruct (cmp a b). Qed.

Lemma insert_elem_last x l : Forall (λ y, cmp y x = Lt) l → insert_elem x l = l ++ [x].
Proof.
  induction 1 as [|y l Hy _ IH]; cbn; [done|]. apply cmp_gt in Hy. by rewrite Hy, IH.
Qed.

Lemma ascending_below x l acc :
  ascending (acc ++ x :: l) → Forall (λ y, cmp y x = Lt) acc.
Proof.
  induction acc as [|y acc IH]; cbn; intros Hs; [constructor|].
  apply StronglySorted_inv in Hs as [Hs Hy]. constructor; [|by apply IH].
  apply Forall_app in Hy as [_ Hy]. by apply Forall_cons in Hy as [? _].
Qed.

(** Values that come in order are put behind each other. *)
Lemma insert_elems_sorted l acc :
  ascending (acc ++ l) → fold_left (λ s x, insert_elem x s) l acc = acc ++ l.
Proof.
  revert acc. induction l as [|x l IH]; intros acc Hs; cbn; [by rewrite app_nil_r|].
  rewrite insert_elem_last.
  - rewrite IH; by rewrite <-app_assoc.
  - by apply ascending_below in Hs.
Qed.

Lemma insert_entry_last {V} (k : T) (v : V) l :
  Forall (λ y, cmp y.1 k = Lt) l → insert_entry k v l = l ++ [(k, v)].
Proof.
  induction 1 as [|[k' v'] l Hy _ IH]; cbn; [done|]. cbn in Hy. apply cmp_gt in Hy. by rewrite Hy, IH.
Qed.

Lemma insert_entries_sorted {V} (l acc : list (T * V)) :
  ascending (fst <$> (acc ++ l)) →
  fold_left (λ m kv, insert_entry kv.1 kv.2 m) l acc = acc ++ l.
Proof.
  revert acc. induction l as [|[k v] l IH]; intros acc Hs; cbn; [by rewrite app_nil_r|].
  rewrite insert_entry_last.
  - rewrite IH; by rewrite <-app_assoc.
  - rewrite fmap_app in Hs. apply ascending_below in Hs. by apply Forall_fmap in Hs.
Qed.

(** What is read is in order, whatever the order on the wire. *)
Lemma insert_elem_forall (P : T → Prop) x l : P x → Forall P l → Forall P (insert_elem x l).
Proof.
  intros Hx. induction 1 as [|y l Hy Hl IH]; cbn; [by constructor|].
  destruct (cmp x y); by repeat constructor.
Qed.

Lemma insert_elem_ascending x l : ascending l → ascending (insert_elem x l).
Proof.
  induction l as [|y l IH]; cbn; intros Hs; [by repeat constructor|].
  apply StronglySorted_inv in Hs as [Hs Hy]. destruct (cmp x y) eqn:E.
  - by constructor.
  - constructor; [by constructor|]. constructor; [done|].
    eapply Forall_impl; [exact Hy|]. intros z Hz. by eapply cmp_trans.
  - constructor; [by apply IH|]. apply insert_elem_forall; [by apply cmp_gt|done].
Qed.

Lemma insert_elems_ascending l acc :
  ascending acc → ascending (fold_left (λ s x, insert_elem x s) l acc).
Proof.
  revert acc. induction l as [|x l IH]; cbn; intros acc Ha; [done|].
  by apply IH, insert_elem_ascending.
Qed.

Lemma insert_entry_forall {V} (P : T → Prop) (k : T) (v : V) l :
  P k → Forall P (fst <$> l) → Forall P (fst <$> insert_entry k v l).
Proof.
  intros Hk. induction l as [|[k' v'] l IH]; cbn; intros Hl; [by constructor|].
  apply Forall_cons in Hl as [Hk' Hl]. destruct (cmp k k'); cbn; repeat constructor; auto.
Qed.

Lemma insert_entry_ascending {V} (k : T) (v : V) l :
  ascending (fst <$> l) → ascending (fst <$> insert_entry k v l).
Proof.
  induction l as [|[k' v'] l IH]; cbn; intros Hs; [by repeat constructor|].
  apply StronglySorted_inv in Hs as [Hs Hy]. destruct (cmp k k') eqn:E; cbn.
  - by constructor.
  - constructor; [by constructor|]. constructor; [done|].
    eapply Forall_impl; [exact Hy|]. intros z Hz. by eapply cmp_trans.
  - constructor; [by apply IH|]. apply insert_entry_forall; [by apply cmp_gt|done].
Qed.

Lemma insert_entries_ascending {V} (l acc : list (T * V)) :
  ascending (fst <$> acc) →
  ascending (fst <$> fold_left (λ m kv, insert_entry kv.1 kv.2 m) l acc).
Proof.
  revert acc. induction l as [|[k v] l IH]; cbn; intros acc Ha; [done|].
  by apply IH, insert_entry_ascending.
Qed.
End ordered.

#[export] Program Instance BTreeSet_codec {T} {NS : NixSerialize T} {ND : NixDeserialize T}
    {HO : Ord T} {HOL : OrdLaws T} {CT : NixCodec T} : NixCodec (BTreeSet T) := {|
  codec_ok E l := len_ok (elems l) ∧ ascending (elems l) ∧ Forall (codec_ok E) (elems l);
  codec_bytes E l := u64_to_le_bytes (Z.of_nat (length (elems l))) ++ values_bytes E (elems l)
|}.
Next Obligation. intros T NS ND HO HOL CT E l (Hl & _ & Hv) S HW HWL. by apply writes_list. Qed.
Next Obligation.
  intros T NS ND HO HOL CT E [l] (Hl & Hs & Hv) S HR HRL. cbn in *. apply reads_len; [done|].
  rewrite len_usize_nat. eapply reads_bind_nil; [by apply reads_values|].
  rewrite insert_elems_sorted by done. apply reads_ret.
Qed.

Section pairs.
Context {K V : Type} {NK : NixSerialize K} {NV : NixSerialize V} {DK : NixDeserialize K}
  {DV : NixDeserialize V} {CK : NixCodec K} {CV : NixCodec V}.

Definition pair_ok (E : env) (kv : K * V) : Prop := codec_ok E kv.1 ∧ codec_ok E kv.2.
Definition pair_bytes (E : env) (kv : K * V) : bytes := codec_bytes E kv.1 ++ codec_bytes E kv.2.

Lemma writes_entries E l S (HW : NixWrite S) (HWL : NixWriteLaws S) :
  Forall (pair_ok E) l → writes E (write_all_values l) (concat (pair_bytes E <$> l)).
Proof.
  induction 1 as [|[k v] l [Hk Hv] _ IH]; [apply writes_ret|]. apply writes_bind; [|exact IH].
  apply writes_bind; by apply codec_writes.
Qed.

Lemma reads_entries E l S (HR : NixRead S) (HRL : NixReadLaws S) :
  Forall (pair_ok E) l →
  reads E (read_n (length l) (k ← read_value K; v ← read_value V; mret (k, v)))
    (concat (pair_bytes E <$> l)) l.
Proof.
  intros Hl. apply reads_n. induction Hl as [|[k v] l [Hk Hv] _ IH]; cbn; constructor; [|done].
  eapply reads_bind; [by apply codec_reads_value|].
  eapply reads_bind_nil; [by apply codec_reads_value|apply reads_ret].
Qed.
End pairs.

#[export] Program Instance BTreeMap_codec {K V} {NK : NixSerialize K} {NV : NixSerialize V}
    {DK : NixDeserialize K} {DV : NixDeserialize V} {HO : Ord K} {HOL : OrdLaws K}
    {CK : NixCodec K} {CV : NixCodec V} : NixCodec (BTreeMap K V) := {|
  codec_ok E m := len_ok (entries m) ∧ ascending (fst <$> entries m) ∧
    Forall (pair_ok E) (entries m);
  codec_bytes E m := u64_to_le_bytes (Z.of_nat (length (entries m))) ++
    concat (pair_bytes E <$> entries m)
|}.
Next Obligation.
  intros K V NK NV DK DV HO HOL CK CV E [m] (Hl & _ & Hv) S HW HWL.
  apply writes_bind; [apply writes_number|by apply writes_entries].
Qed.
Next Obligation.
  intros K V NK NV DK DV HO HOL CK CV E [m] (Hl & Hs & Hv) S HR HRL. cbn in *.
  apply reads_len; [done|]. rewrite len_usize_nat. eapply reads_bind_nil; [by apply reads_entries|].
  rewrite insert_entries_sorted by done. apply reads_ret.
Qed.

(** ** Properties *)

(** Inversion of the combinators. *)
Lemma io_bind_inv {S A B} (m : io S A) (f : A → io S B) s s' b :
  (m ≫= f) s = (s', Ok b) → ∃ s1 a, m s = (s1, Ok a) ∧ f a s1 = (s', Ok b).
Proof.
  unfold mbind, io_bind. destruct (m s) as [s1 [a|e|]] eqn:E; intros H; try done. eauto.
Qed.

Lemma io_first_inv {S A B} (m : io S (option A)) (k : A → io S B) s s' b :
  io_first m k s = (s', Ok (Some b)) → ∃ s1 a, m s = (s1, Ok (Some a)) ∧ k a s1 = (s', Ok b).
Proof.
  intros (s1 & [a|] & E1 & E2)%io_bind_inv; [|done].
  apply io_bind_inv in E2 as (s2 & b' & E2 & E3). injection E3 as <- <-. eauto.
Qed.

(** C32. A value that is written and flushed comes back: for every type with
    a codec, writing a value over any accepting schedule of the underlying
    writer and flushing appends some bytes, and reading them through any
    reader that keeps the laws, whatever its schedule and whatever follows,
    gives the value and leaves exactly what follows. *)
Theorem value_roundtrip (T : Type) (NS : NixSerialize T) (ND : NixDeserialize T) (CT : NixCodec T)
    (HM : BytesMutReserve) (HML : BytesMutLaws) (HMG : BytesMutGrows)
    (E : env) (v : T) (x : NixWriter sink) (d : bytes) :
  codec_ok E v → writer_at x d → w_env E x →
  ∃ x1 x2 bs, write_value v x = (x1, Ok tt) ∧ nw_flush x1 = (x2, Ok tt) ∧
    written (nw_inner x2) = d ++ bs ∧
    ∀ (R : Type) (HR : AsyncBytesRead R) (HL : AsyncBytesReadLaws R) (y : NixReader R) (tl : bytes),
      rd_inv (nr_inner y) → rest (nr_inner y) = bs ++ tl → r_env E y →
      ∃ y', read_value T y = (y', Ok v) ∧ rest (nr_inner y') = tl.
Proof.
  intros Hv Hx He. destruct (codec_writes E v Hv (NixWriter sink) NixWriter_write NixWriter_laws x d Hx He) as (x1 & E1 & Hx1 & _).
  destruct (nw_flush_spec x1 _ Hx1) as (x2 & E2 & (_ & Hw & _) & _ & Hb).
  rewrite Hb, app_nil_r in Hw. exists x1, x2, (codec_bytes E v).
  split; [done|]. split; [done|]. split; [done|]. intros R HR HL y tl Hi Hr Hy.
  destruct (codec_reads_value E v Hv (NixReader R) NixReader_read NixReader_laws y tl Hi Hy Hr) as (y' & ? & _ & _ & ?).
  eauto.
Qed.

(** C37. What is read is well typed, from any stream and any reader: integers
    are inside their width, strings are UTF-8, the elements of a set and the
    keys of a map are strictly ascending, whatever order and duplicates the
    peer sends. *)
Theorem read_well_typed (S : Type) (HR : NixRead S) (T V : Type) (ND : NixDeserialize T)
    (NV : NixDeserialize V) (HO : Ord T) (HOL : OrdLaws T) (s : S) :
  (∀ w s' n, try_read_value (UInt w) s = (s', Ok (Some n)) → (0 ≤ uint_val n < 2 ^ w)%Z) ∧
  (∀ s' r, try_read_value RString s = (s', Ok (Some r)) → is_utf8 (string_val r) = true) ∧
  (∀ s' r, try_read_value (BTreeSet T) s = (s', Ok (Some r)) → ascending (elems r)) ∧
  (∀ s' r, try_read_value (BTreeMap T V) s = (s', Ok (Some r)) → ascending (fst <$> entries r)).
Proof.
  split; [|split; [|split]].
  - intros w s' n (s1 & [z|] & _ & E2)%io_bind_inv; [|done].
    apply io_bind_inv in E2 as (s2 & b & E2 & E3). injection E3 as <- <-.
    unfold io_lift, uint_try_from in E2. case_decide; [|done]. by injection E2 as <- <-.
  - intros s' r (s1 & [z|] & _ & E2)%io_bind_inv; [|done].
    apply io_bind_inv in E2 as (s2 & b & E2 & E3). injection E3 as <- <-.
    unfold io_lift, from_utf8 in E2. destruct (is_utf8 z) eqn:Hu; [|done]. by injection E2 as <- <-.
  - intros s' r (s1 & len & _ & E2)%io_first_inv.
    apply io_bind_inv in E2 as (s2 & l & E2 & E3). injection E3 as <- <-.
    apply insert_elems_ascending. constructor.
  - intros s' r (s1 & len & _ & E2)%io_first_inv.
    apply io_bind_inv in E2 as (s2 & l & E2 & E3). injection E3 as <- <-.
    apply insert_entries_ascending. constructor.
Qed.

(** A peer can make the reader of a list panic: the length it announces
    goes to [Vec::with_capacity] unchecked, so a length whose size in memory
    overflows panics before any element is read, where the reader of a set
    only reports the end of the stream. *)
Theorem vec_length_panics (S : Type) (HR : NixRead S) (HRL : NixReadLaws S) (T : Type)
    (ND : NixDeserialize T) (SZ : SizeOf T) (s : S) (n : Z) (tl : bytes) :
  nr_inv s → nr_rest s = u64_to_le_bytes n ++ tl → is_u64 n → (isize_max < n * size_of)%Z →
  (try_read_value (list T) s).2 = Panic.
Proof.
  intros Hs Hr Hn Hsz.
  pose proof (codec_reads (mk_env (r_version s) (r_store_dir s) (r_limit s) 0) (uint n : usize))
    as Hc. destruct (Hc (conj Hn Hn) S HR HRL s tl Hs) as (s1 & E1 & _); [done|done|].
  unfold try_read_value, try_deserialize at 1, Vec_deserialize, io_first.
  rewrite (io_bind_Ok _ _ _ _ _ E1).
  unfold with_capacity_ok. cbn [uint_val]. rewrite bool_decide_false by lia. done.
Qed.

(** ** Concrete uses *)

(** [String] and [u64] with their orders and sizes. *)
#[export] Instance String_ord : Ord RString := λ a b, bytes_cmp (string_val a) (string_val b).

#[export] Instance String_ord_laws : OrdLaws RString.
Proof.
  split.
  - intros [a] [b]. unfold cmp, String_ord. cbn. rewrite bytes_cmp_eq. naive_solver.
  - intros [a] [b]. apply bytes_cmp_antisym.
  - intros [a] [b] [c]. apply bytes_cmp_trans.
Qed.

#[export] Instance u64_size : SizeOf U64 := 8%Z.

Lemma exact_reserve_grows : @BytesMutGrows exact_reserve.
Proof. intros len cap additional. unfold bytes_reserve, exact_reserve. lia. Qed.

Definition sample_env : env := mk_env PROTOCOL_VERSION (str "/nix/store") 64 24.

Definition sample_writer : NixWriter sink :=
  mk_nw (mk_sink [] [Some 3; None; Some 40]) [] 0 32 64 64 PROTOCOL_VERSION (str "/nix/store").

Definition sample_map : BTreeMap RString (list U64) :=
  mk_map [(mk_String (str "max-jobs"), [u64 4]); (mk_String (str "substituters"), [u64 1; u64 7])].

Definition sample_reader (src : source) : NixReader (BytesReader source) :=
  mk_nr (reader_build 8 1000 (λ _, []) src) 8 64 PROTOCOL_VERSION (str "/nix/store").

Lemma sample_map_ok : codec_ok sample_env sample_map.
Proof.
  repeat first [split|constructor]; vm_compute; try done; by intros.
Defined.

Lemma sample_writer_at : writer_at sample_writer [].
Proof. split; [by repeat constructor|]. repeat split; vm_compute; lia. Defined.

Lemma value_roundtrip_witness :
  ∃ x1 x2 bs, write_value (HW := NixWriter_write (HM := exact_reserve)) sample_map sample_writer = (x1, Ok tt) ∧
    nw_flush (HM := exact_reserve) x1 = (x2, Ok tt) ∧ written (nw_inner x2) = bs ∧
    ∃ y', read_value (BTreeMap RString (list U64)) (sample_reader [None; Some (bs ++ str "F")]) =
        (y', Ok sample_map) ∧
      rest (nr_inner y') = str "F".
Proof.
  destruct (value_roundtrip _ _ _ BTreeMap_codec exact_reserve exact_reserve_laws exact_reserve_grows
    sample_env sample_map sample_writer [] sample_map_ok sample_writer_at) as (x1 & x2 & bs & E1 & E2 & Hw & Hr);
    [done|].
  exists x1, x2, bs. split; [exact E1|]. split; [exact E2|]. split; [exact Hw|].
  assert (length bs = 88) as Hl.
  { vm_compute in E1. injection E1 as E1. rewrite <-E1 in E2. vm_compute in E2. injection E2 as E2.
    change (length (([] : bytes) ++ bs) = 88). rewrite <-Hw, <-E2. vm_compute. reflexivity. }
  assert (src_rest [None; Some (bs ++ str "F")] = bs ++ str "F") as Hsrc.
  { unfold src_rest. cbn. by rewrite app_nil_r. }
  destruct (source_reader_inv 8 1000 (λ _, []) [None; Some (bs ++ str "F")]) as (Hi & Hrest & _).
  { split; [repeat constructor; [done|]; intros [= Hn]; by destruct bs|]. cbn [ar_rest source_async_read_laws]. rewrite Hsrc, length_app, Hl.
    split; [lia|]. split; [cbn; lia|intros l; apply list_subseteq_nil]. }
  rewrite Hsrc in Hrest.
  exact (Hr (BytesReader source) _ _ (sample_reader [None; Some (bs ++ str "F")]) (str "F") Hi Hrest
    (conj eq_refl (conj eq_refl eq_refl))).
Defined.

(** A peer that sends three elements out of order, one of them twice. *)
Definition unsorted_source : source :=
  [Some (u64_to_le_bytes 3 ++ put_nix_slice (str "b") ++ put_nix_slice (str "a") ++
         put_nix_slice (str "b"))].

Lemma read_well_typed_witness :
  ∃ y r, try_read_value (BTreeSet RString) (sample_reader unsorted_source) = (y, Ok (Some r)) ∧
    elems r = [mk_String (str "a"); mk_String (str "b")] ∧ ascending (elems r).
Proof.
  destruct (read_well_typed (NixReader (BytesReader source)) NixReader_read RString U64 _ _ _ _
    (sample_reader unsorted_source)) as (_ & _ & Hs & _).
  eexists _, _. split; [vm_compute; reflexivity|]. split; [reflexivity|].
  eapply Hs. vm_compute. reflexivity.
Defined.

Lemma vec_length_panics_witness :
  let y := sample_reader [Some (u64_to_le_bytes 2305843009213693952)] in
  (try_read_value (list U64) y).2 = Panic.
Proof.
  intros y. destruct (source_reader_inv 8 1000 (λ _, []) [Some (u64_to_le_bytes 2305843009213693952)])
    as (Hi & Hrest & _).
  { split; [by repeat constructor|]. split; [lia|]. split; [vm_compute; lia|].
    intros l. apply list_subseteq_nil. }
  apply (vec_length_panics _ NixReader_read NixReader_laws U64 _ u64_size y 2305843009213693952 []).
  - exact Hi.
  - by rewrite app_nil_r.
  - done.
  - vm_compute. reflexivity.
Defined.
