(* ===== verification/Utf8.v ===== *)
(** Text that may not be UTF-8: [String::from_utf8_lossy] of the Rust standard
    library. *)

From stdpp Require Import base list numbers strings.
From Stdlib Require Import ZArith Lia Strings.Byte.
From S2P Require Import Prelude NixCodec.

(** ** Lossy text

    [String::from_utf8_lossy]: every maximal part of a character that is not
    completed becomes U+FFFD. The number of bytes to take, and whether they are
    a character. *)

Definition utf8_step (s : bytes) : nat * bool :=
  match s with
  | [] => (0, true)
  | a :: s =>
      let x := byte_to_Z a in
      if (x <? 128)%Z then (1, true)
      else if (194 <=? x)%Z && (x <=? 223)%Z then
        match s with b :: _ => if cont 128 191 b then (2, true) else (1, false) | _ => (1, false) end
      else if (224 <=? x)%Z && (x <=? 239)%Z then
        match s with
        | b :: s =>
            if cont (if (x =? 224)%Z then 160 else 128) (if (x =? 237)%Z then 159 else 191) b then
              match s with c :: _ => if cont 128 191 c then (3, true) else (2, false) | _ => (2, false) end
            else (1, false)
        | _ => (1, false)
        end
      else if (240 <=? x)%Z && (x <=? 244)%Z then
        match s with
        | b :: s =>
            if cont (if (x =? 240)%Z then 144 else 128) (if (x =? 244)%Z then 143 else 191) b then
              match s with
              | c :: s =>
                  if cont 128 191 c then
                    match s with d :: _ => if cont 128 191 d then (4, true) else (3, false) | _ => (3, false) end
                  else (2, false)
              | _ => (2, false)
              end
            else (1, false)
        | _ => (1, false)
        end
      else (1, false)
  end.

Definition REPLACEMENT_CHARACTER : bytes := [xef; xbf; xbd].

(** [keep] bytes of a character are still to be copied, [skip] bytes of a broken
    one to be left out. *)
Fixpoint lossy (keep skip : nat) (s : bytes) : bytes :=
  match s with
  | [] => []
  | a :: s' =>
      match keep, skip with
      | S keep, _ => a :: lossy keep skip s'
      | 0, S skip => lossy 0 skip s'
      | 0, 0 =>
          match utf8_step s with
          | (n, true) => a :: lossy (n - 1) 0 s'
          | (n, false) => REPLACEMENT_CHARACTER ++ lossy 0 (n - 1) s'
          end
      end
  end.

Definition from_utf8_lossy (s : bytes) : bytes := lossy 0 0 s.

(** Text that is UTF-8 stays as it is. *)
Lemma from_utf8_lossy_utf8 s : is_utf8 s = true → from_utf8_lossy s = s.
Proof.
  unfold from_utf8_lossy. remember (length s) as n eqn:Hn. assert (length s ≤ n) as Hle by lia. clear Hn.
  revert s Hle. induction n as [|n IH]; intros [|a s] Hle; [done|cbn in Hle; lia|done|].
  cbn [length] in Hle. cbn [is_utf8 lossy utf8_step].
  destruct (byte_to_Z a <? 128)%Z; [intros Hs; cbn; f_equal; apply IH; [lia|done]|].
  destruct (_ && _).
  { destruct s as [|b s]; [done|]. destruct (cont 128 191 b); [|done]. cbn. intros Hs. do 2 f_equal. apply IH; [cbn in Hle; lia|done]. }
  destruct (_ && _).
  { destruct s as [|b [|c s]]; [done|done|]. destruct (cont _ _ b); [|done]. destruct (cont 128 191 c); [|done].
    cbn. intros Hs. do 3 f_equal. apply IH; [cbn in Hle; lia|done]. }
  destruct (_ && _); [|done].
  destruct s as [|b [|c [|d s]]]; [done..|]. destruct (cont _ _ b); [|done]. destruct (cont 128 191 c); [|done].
  destruct (cont 128 191 d); [|done]. cbn. intros Hs. do 4 f_equal. apply IH; [cbn in Hle; lia|done].
Qed.
