(* ===== verification/WireTypes.v ===== *)
(** The building blocks of the protocol's messages: values written as text
    ([display] / [from_str], [store_dir_display] / [from_store_dir_str]), as a
    number ([into] / [try_from]) and as optional values, with the derive
    macros that generate them ([harmonia-protocol-derive/src]) and the types
    that use them ([harmonia-protocol/src/store_impls.rs],
    [daemon_wire/types.rs], [types2.rs], [log.rs], [nar_hash.rs]). *)

From stdpp Require Import base list numbers strings.
From Stdlib Require Import ZArith Lia Strings.Byte.
From S2P Require Import Prelude Async Wire Sink ProtoRead Framed Version BaseEncoding Hash StorePath ContentAddress Signature DerivedPath NixIO NixCodec.

#[local] Unset Program Cases.

#[export] Hint Mode NixSerialize ! : typeclass_instances.
#[export] Hint Mode NixDeserialize ! : typeclass_instances.
#[export] Hint Mode NixCodec ! - - : typeclass_instances.

(** [writer.version()], [reader.store_dir()] and the like. *)
Definition io_gets {S A} (f : S → A) : io S A := λ s, (s, Ok (f s)).

Lemma writes_store_dir {S} {HW : NixWrite S} {HWL : NixWriteLaws S} E (k : StoreDir → io S unit) bs :
  writes E (k (e_dir E)) bs → writes E (io_gets w_store_dir ≫= k) bs.
Proof. intros Hk s d Hs He. destruct (id He) as (_ & Hd & _). unfold mbind, io_bind, io_gets. rewrite Hd. by apply Hk. Qed.

Lemma writes_version {S} {HW : NixWrite S} {HWL : NixWriteLaws S} E
    (k : ProtocolVersion → io S unit) bs :
  writes E (k (e_version E)) bs → writes E (io_gets w_version ≫= k) bs.
Proof. intros Hk s d Hs He. destruct (id He) as (Hv & _ & _). unfold mbind, io_bind, io_gets. rewrite Hv. by apply Hk. Qed.

Lemma reads_store_dir {S A} {HR : NixRead S} {HRL : NixReadLaws S} E (k : StoreDir → io S A) bs v :
  reads E (k (e_dir E)) bs v → reads E (io_gets r_store_dir ≫= k) bs v.
Proof. intros Hk s tl Hs He. destruct (id He) as (_ & Hd & _). unfold mbind, io_bind, io_gets. rewrite Hd. by apply Hk. Qed.

Lemma reads_version {S A} {HR : NixRead S} {HRL : NixReadLaws S} E
    (k : ProtocolVersion → io S A) bs v :
  reads E (k (e_version E)) bs v → reads E (io_gets r_version ≫= k) bs v.
Proof. intros Hk s tl Hs He. destruct (id He) as (Hv & _ & _). unfold mbind, io_bind, io_gets. rewrite Hv. by apply Hk. Qed.

(** ** Text

    A type that is written as its text and read by parsing it. The store
    directory is used by the [store_dir] attributes only. *)

Class Text (T : Type) : Type := {
  text_error : Type;
  text_fmt : StoreDir → T → res DecodePartial bytes;
  text_parse : StoreDir → bytes → res text_error T
}.

#[export] Instance text_serialize {T} {HT : Text T} : NixSerialize T := λ S HW v,
  store_dir ← io_gets w_store_dir; write_text (text_fmt store_dir v).

(** Parsing what was read. *)
Definition parse_text {T S} {HT : Text T} {HR : NixRead S} (s : bytes) : io S T :=
  dir ← io_gets r_store_dir; io_lift (invalid_data (text_parse dir s)).

#[export] Instance text_deserialize {T} {HT : Text T} : NixDeserialize T := λ S HR,
  io_first try_read_bytes (λ buf, s ← io_lift (from_utf8 buf); parse_text s).

(** [optional_from_str!] and [optional_from_store_dir_str!]: [None] is the
    empty string. *)
#[export] Instance option_text_serialize {T} {HT : Text T} : NixSerialize (option T) := λ S HW o,
  match o with Some v => write_value v | None => write_slice [] end.

#[export] Instance option_text_deserialize {T} {HT : Text T} : NixDeserialize (option T) := λ S HR,
  io_first try_read_bytes (λ buf,
    s ← io_lift (from_utf8 buf);
    if decide (s = []) then mret None else v ← parse_text s; mret (Some v)).

(** What a text promises. *)
Class TextLaws (T : Type) {HT : Text T} : Type := {
  text_wf : T → Prop;
  text_of : StoreDir → T → bytes;
  text_fmt_eq dir v : text_wf v → text_fmt dir v = Ok (text_of dir v);
  text_parse_of dir v :
    is_absolute dir = true → text_wf v → text_parse dir (text_of dir v) = Ok v;
  text_of_nonempty dir v : text_wf v → text_of dir v ≠ []
}.

(** The text fits the limits of both sides, and is UTF-8 as every [String]. *)
Definition text_ok (E : env) (t : bytes) : Prop :=
  bytes_ok E t ∧ is_utf8 t = true ∧ length t ≤ e_room E.

Section text.
Context {T : Type} {HT : Text T} {TL : TextLaws T}.

Definition text_value_ok (E : env) (v : T) : Prop :=
  is_absolute (e_dir E) = true ∧ text_wf v ∧ text_ok E (text_of (e_dir E) v).

Lemma reads_parse_text {S} {HR : NixRead S} {HRL : NixReadLaws S} E v :
  text_value_ok E v → reads E (parse_text (text_of (e_dir E) v)) [] v.
Proof.
  intros (Hd & Hv & _). apply reads_store_dir, reads_lift. by rewrite text_parse_of.
Qed.

Lemma reads_utf8 {S A} {HR : NixRead S} {HRL : NixReadLaws S} E t (k : bytes → io S A) w :
  text_ok E t → reads E (k t) [] w →
  reads E (io_first try_read_bytes (λ buf, s ← io_lift (from_utf8 buf); k s)) (put_nix_slice t) (Some w).
Proof.
  intros ([Ha Hl] & Hu & _) Hk. rewrite <-(app_nil_r (put_nix_slice t)).
  eapply reads_first; [by apply reads_bytes|]. eapply reads_bind_nil; [|exact Hk].
  apply reads_lift. unfold from_utf8. by rewrite Hu.
Qed.

Lemma writes_text_value {S} {HW : NixWrite S} {HWL : NixWriteLaws S} E v :
  text_value_ok E v → writes E (write_value v) (put_nix_slice (text_of (e_dir E) v)).
Proof.
  intros (Hd & Hv & _ & _ & Hr). apply writes_store_dir. rewrite text_fmt_eq by done.
  by apply writes_text.
Qed.

#[export] Program Instance text_codec : NixCodec T := {|
  codec_ok := text_value_ok;
  codec_bytes E v := put_nix_slice (text_of (e_dir E) v)
|}.
Next Obligation. intros E v Hv S HW HWL. by apply writes_text_value. Qed.
Next Obligation.
  intros E v Hv S HR HRL. apply (reads_utf8 E _ parse_text); [apply Hv|]. by apply reads_parse_text.
Qed.

#[export] Program Instance option_text_codec : NixCodec (option T) := {|
  codec_ok E o := match o with Some v => text_value_ok E v | None => (0 ≤ e_limit E)%Z end;
  codec_bytes E o := put_nix_slice match o with Some v => text_of (e_dir E) v | None => [] end
|}.
Next Obligation.
  intros E [v|] Hv S HW HWL; [by apply writes_text_value|]. by apply writes_slice.
Qed.
Next Obligation.
  intros E [v|] Hv S HR HRL.
  - apply (reads_utf8 E _ (λ s, if decide (s = []) then _ else _)); [apply Hv|].
    rewrite decide_False by (by apply text_of_nonempty, Hv).
    eapply reads_bind_nil; [by apply reads_parse_text|apply reads_ret].
  - apply (reads_utf8 E _ (λ s, if decide (s = []) then _ else _)); [|apply reads_ret].
    split; [split; [split; [done|unfold u64_max; cbn; lia]|exact Hv]|]. split; [done|cbn; lia].
Qed.
End text.

(** ** Numbers: [into] / [from] and [try_from] of another type *)

Class Repr (T B : Type) : Type := {
  into : T → B;
  try_from : B → option T
}.
#[export] Hint Mode Repr ! - : typeclass_instances.

Class ReprLaws (T B : Type) {HR : Repr T B} : Prop :=
  try_from_into (v : T) : try_from (into v) = Some v.

#[export] Instance repr_serialize {T B} {HR : Repr T B} {NS : NixSerialize B} : NixSerialize T :=
  λ S HW v, write_value (into v).

#[export] Instance repr_deserialize {T B} {HR : Repr T B} {ND : NixDeserialize B} :
    NixDeserialize T := λ S HRd,
  io_try_map (λ b, ok_or (try_from b) (InvalidData "no discriminant matches")) (try_read_value B).

#[export] Program Instance repr_codec {T B} {HR : Repr T B} {HRL : ReprLaws T B}
    {NS : NixSerialize B} {ND : NixDeserialize B} {CB : NixCodec B} : NixCodec T := {|
  codec_ok E v := codec_ok E (into v);
  codec_bytes E v := codec_bytes E (into v)
|}.
Next Obligation. intros T B HR HRL NS ND CB E v Hv S HW HWL. exact (codec_writes E (into v) Hv S HW HWL). Qed.
Next Obligation.
  intros T B HR HRL NS ND CB E v Hv S HRd HRdL.
  eapply reads_try_map; [exact (codec_reads E (into v) Hv S HRd HRdL)|]. by rewrite try_from_into.
Qed.

(** Enumerations with discriminants ([num_enum]). *)
Class Enum (T : Type) : Type := {
  variants : list T;
  discriminant : T → Z
}.

Definition from_discriminant {T} {HE : Enum T} (z : Z) : option T :=
  head (filter (λ v, discriminant v = z) variants).

Definition enum_u16 {T} {HE : Enum T} : Repr T U16 := {|
  into v := uint (discriminant v); try_from n := from_discriminant (uint_val n) |}.
Definition enum_u64 {T} {HE : Enum T} : Repr T U64 := {|
  into v := u64 (discriminant v); try_from n := from_discriminant (u64_val n) |}.

Class EnumLaws (T : Type) {HE : Enum T} : Prop := {
  variants_all (v : T) : v ∈ variants;
  discriminant_nodup : NoDup (discriminant <$> variants)
}.

Lemma filter_discriminant {T} (f : T → Z) v l :
  v ∈ l → NoDup (f <$> l) → filter (λ w, f w = f v) l = [v].
Proof.
  induction 1 as [v l|v w l Hv IH]; rewrite fmap_cons; intros [Hw Hn]%NoDup_cons.
  - rewrite filter_cons, decide_True by done. f_equal.
    assert (∀ w, w ∈ l → f w ≠ f v) as Hout.
    { intros w Hin Heq. apply Hw. rewrite <-Heq. by apply list_elem_of_fmap_2. }
    clear -Hout. induction l as [|w l IH]; [done|]. rewrite filter_cons, decide_False.
    + apply IH. intros u Hu. apply Hout. by constructor.
    + apply Hout. by constructor.
  - rewrite filter_cons, decide_False; [by apply IH|].
    intros Heq. apply Hw. rewrite Heq. by apply list_elem_of_fmap_2.
Qed.

Lemma from_discriminant_eq {T} {HE : Enum T} {EL : EnumLaws T} v :
  from_discriminant (discriminant v) = Some v.
Proof.
  unfold from_discriminant. by rewrite filter_discriminant by (apply variants_all || apply discriminant_nodup).
Qed.

Lemma enum_u16_laws {T} {HE : Enum T} {EL : EnumLaws T} : @ReprLaws T U16 enum_u16.
Proof. intros v. apply from_discriminant_eq. Qed.
Lemma enum_u64_laws {T} {HE : Enum T} {EL : EnumLaws T} : @ReprLaws T U64 enum_u64.
Proof. intros v. apply from_discriminant_eq. Qed.

(** The laws of a concrete enumeration, by evaluation. *)
Ltac solve_enum :=
  split; [intros []; apply (bool_decide_unpack _); vm_compute; exact I
         |apply (bool_decide_unpack _); vm_compute; exact I].

(** *** log.rs *)

Inductive Verbosity : Type :=
| VError | VWarn | VNotice | VInfo | VTalkative | VChatty | VDebug | VVomit.
#[export] Instance Verbosity_eq_dec : EqDecision Verbosity.
Proof. solve_decision. Defined.

#[export] Instance Verbosity_enum : Enum Verbosity := {|
  variants := [VError; VWarn; VNotice; VInfo; VTalkative; VChatty; VDebug; VVomit];
  discriminant v := match v with
    | VError => 0 | VWarn => 1 | VNotice => 2 | VInfo => 3 | VTalkative => 4 | VChatty => 5
    | VDebug => 6 | VVomit => 7 end%Z |}.
#[export] Instance Verbosity_laws : EnumLaws Verbosity.
Proof. solve_enum. Qed.

(** [FromPrimitive] with [catch_all]. *)
#[export] Instance Verbosity_repr : Repr Verbosity U16 := {|
  into v := uint (discriminant v);
  try_from n := Some (default VVomit (from_discriminant (uint_val n))) |}.
#[export] Instance Verbosity_repr_laws : ReprLaws Verbosity U16.
Proof. intros v. cbn [into try_from Verbosity_repr uint_val]. by rewrite from_discriminant_eq. Qed.

Inductive ActivityType : Type :=
| AUnknown | ACopyPath | AFileTransfer | ARealise | ACopyPaths | ABuilds | ABuild | AOptimiseStore
| AVerifyPaths | ASubstitute | AQueryPathInfo | APostBuildHook | ABuildWaiting | AFetchTree.
#[export] Instance ActivityType_eq_dec : EqDecision ActivityType.
Proof. solve_decision. Defined.

#[export] Instance ActivityType_enum : Enum ActivityType := {|
  variants := [AUnknown; ACopyPath; AFileTransfer; ARealise; ACopyPaths; ABuilds; ABuild;
    AOptimiseStore; AVerifyPaths; ASubstitute; AQueryPathInfo; APostBuildHook; ABuildWaiting; AFetchTree];
  discriminant v := match v with
    | AUnknown => 0 | ACopyPath => 100 | AFileTransfer => 101 | ARealise => 102 | ACopyPaths => 103
    | ABuilds => 104 | ABuild => 105 | AOptimiseStore => 106 | AVerifyPaths => 107 | ASubstitute => 108
    | AQueryPathInfo => 109 | APostBuildHook => 110 | ABuildWaiting => 111 | AFetchTree => 112 end%Z |}.
#[export] Instance ActivityType_laws : EnumLaws ActivityType.
Proof. solve_enum. Qed.
#[export] Instance ActivityType_repr : Repr ActivityType U16 := enum_u16.
#[export] Instance ActivityType_repr_laws : ReprLaws ActivityType U16 := enum_u16_laws.

Inductive ResultType : Type :=
| RFileLinked | RBuildLogLine | RUntrustedPath | RCorruptedPath | RSetPhase | RProgress
| RSetExpected | RPostBuildLogLine | RFetchStatus.
#[export] Instance ResultType_eq_dec : EqDecision ResultType.
Proof. solve_decision. Defined.

#[export] Instance ResultType_enum : Enum ResultType := {|
  variants := [RFileLinked; RBuildLogLine; RUntrustedPath; RCorruptedPath; RSetPhase; RProgress;
    RSetExpected; RPostBuildLogLine; RFetchStatus];
  discriminant v := match v with
    | RFileLinked => 100 | RBuildLogLine => 101 | RUntrustedPath => 102 | RCorruptedPath => 103
    | RSetPhase => 104 | RProgress => 105 | RSetExpected => 106 | RPostBuildLogLine => 107
    | RFetchStatus => 108 end%Z |}.
#[export] Instance ResultType_laws : EnumLaws ResultType.
Proof. solve_enum. Qed.
#[export] Instance ResultType_repr : Repr ResultType U16 := enum_u16.
#[export] Instance ResultType_repr_laws : ReprLaws ResultType U16 := enum_u16_laws.

Inductive FieldType : Type := FTInt | FTString.
#[export] Instance FieldType_eq_dec : EqDecision FieldType.
Proof. solve_decision. Defined.

#[export] Instance FieldType_enum : Enum FieldType := {|
  variants := [FTInt; FTString];
  discriminant v := match v with FTInt => 0 | FTString => 1 end%Z |}.
#[export] Instance FieldType_laws : EnumLaws FieldType.
Proof. solve_enum. Qed.
#[export] Instance FieldType_repr : Repr FieldType U16 := enum_u16.
#[export] Instance FieldType_repr_laws : ReprLaws FieldType U16 := enum_u16_laws.

(** *** daemon_wire/types.rs, types2.rs, types.rs, build_result.rs *)

Inductive Operation : Type :=
| OpIsValidPath | OpQueryReferrers | OpAddToStore | OpBuildPaths | OpEnsurePath | OpAddTempRoot
| OpAddIndirectRoot | OpFindRoots | OpSetOptions | OpCollectGarbage | OpQueryAllValidPaths
| OpQueryPathInfo | OpQueryPathFromHashPart | OpQueryValidPaths | OpQuerySubstitutablePaths
| OpQueryValidDerivers | OpOptimiseStore | OpVerifyStore | OpBuildDerivation | OpAddSignatures
| OpNarFromPath | OpAddToStoreNar | OpQueryMissing | OpQueryDerivationOutputMap
| OpRegisterDrvOutput | OpQueryRealisation | OpAddMultipleToStore | OpAddBuildLog
| OpBuildPathsWithResults | OpAddPermRoot.
#[export] Instance Operation_eq_dec : EqDecision Operation.
Proof. solve_decision. Defined.

#[export] Instance Operation_enum : Enum Operation := {|
  variants := [OpIsValidPath; OpQueryReferrers; OpAddToStore; OpBuildPaths; OpEnsurePath; OpAddTempRoot;
    OpAddIndirectRoot; OpFindRoots; OpSetOptions; OpCollectGarbage; OpQueryAllValidPaths;
    OpQueryPathInfo; OpQueryPathFromHashPart; OpQueryValidPaths; OpQuerySubstitutablePaths;
    OpQueryValidDerivers; OpOptimiseStore; OpVerifyStore; OpBuildDerivation; OpAddSignatures;
    OpNarFromPath; OpAddToStoreNar; OpQueryMissing; OpQueryDerivationOutputMap; OpRegisterDrvOutput;
    OpQueryRealisation; OpAddMultipleToStore; OpAddBuildLog; OpBuildPathsWithResults; OpAddPermRoot];
  discriminant v := match v with
    | OpIsValidPath => 1 | OpQueryReferrers => 6 | OpAddToStore => 7 | OpBuildPaths => 9
    | OpEnsurePath => 10 | OpAddTempRoot => 11 | OpAddIndirectRoot => 12 | OpFindRoots => 14
    | OpSetOptions => 19 | OpCollectGarbage => 20 | OpQueryAllValidPaths => 23
    | OpQueryPathInfo => 26 | OpQueryPathFromHashPart => 29 | OpQueryValidPaths => 31
    | OpQuerySubstitutablePaths => 32 | OpQueryValidDerivers => 33 | OpOptimiseStore => 34
    | OpVerifyStore => 35 | OpBuildDerivation => 36 | OpAddSignatures => 37 | OpNarFromPath => 38
    | OpAddToStoreNar => 39 | OpQueryMissing => 40 | OpQueryDerivationOutputMap => 41
    | OpRegisterDrvOutput => 42 | OpQueryRealisation => 43 | OpAddMultipleToStore => 44
    | OpAddBuildLog => 45 | OpBuildPathsWithResults => 46 | OpAddPermRoot => 47 end%Z |}.
#[export] Instance Operation_laws : EnumLaws Operation.
Proof. solve_enum. Qed.
#[export] Instance Operation_repr : Repr Operation U64 := enum_u64.
#[export] Instance Operation_repr_laws : ReprLaws Operation U64 := enum_u64_laws.

Inductive BuildMode : Type :=
| ModeNormal | ModeRepair | ModeCheck.
#[export] Instance BuildMode_eq_dec : EqDecision BuildMode.
Proof. solve_decision. Defined.

#[export] Instance BuildMode_enum : Enum BuildMode := {|
  variants := [ModeNormal; ModeRepair; ModeCheck];
  discriminant v := match v with
    | ModeNormal => 0 | ModeRepair => 1 | ModeCheck => 2 end%Z |}.
#[export] Instance BuildMode_laws : EnumLaws BuildMode.
Proof. solve_enum. Qed.
#[export] Instance BuildMode_repr : Repr BuildMode U16 := enum_u16.
#[export] Instance BuildMode_repr_laws : ReprLaws BuildMode U16 := enum_u16_laws.

Inductive GCAction : Type :=
| GCReturnLive | GCReturnDead | GCDeleteDead | GCDeleteSpecific.
#[export] Instance GCAction_eq_dec : EqDecision GCAction.
Proof. solve_decision. Defined.

#[export] Instance GCAction_enum : Enum GCAction := {|
  variants := [GCReturnLive; GCReturnDead; GCDeleteDead; GCDeleteSpecific];
  discriminant v := match v with
    | GCReturnLive => 0 | GCReturnDead => 1 | GCDeleteDead => 2 | GCDeleteSpecific => 3 end%Z |}.
#[export] Instance GCAction_laws : EnumLaws GCAction.
Proof. solve_enum. Qed.
#[export] Instance GCAction_repr : Repr GCAction U16 := enum_u16.
#[export] Instance GCAction_repr_laws : ReprLaws GCAction U16 := enum_u16_laws.

Inductive FileIngestionMethod : Type :=
| IngestFlat | IngestRecursive.
#[export] Instance FileIngestionMethod_eq_dec : EqDecision FileIngestionMethod.
Proof. solve_decision. Defined.

#[export] Instance FileIngestionMethod_enum : Enum FileIngestionMethod := {|
  variants := [IngestFlat; IngestRecursive];
  discriminant v := match v with
    | IngestFlat => 0 | IngestRecursive => 1 end%Z |}.
#[export] Instance FileIngestionMethod_laws : EnumLaws FileIngestionMethod.
Proof. solve_enum. Qed.
#[export] Instance FileIngestionMethod_repr : Repr FileIngestionMethod U16 := enum_u16.
#[export] Instance FileIngestionMethod_repr_laws : ReprLaws FileIngestionMethod U16 := enum_u16_laws.

Inductive TrustLevel : Type :=
| TrustUnknown | TrustTrusted | TrustNotTrusted.
#[export] Instance TrustLevel_eq_dec : EqDecision TrustLevel.
Proof. solve_decision. Defined.

#[export] Instance TrustLevel_enum : Enum TrustLevel := {|
  variants := [TrustUnknown; TrustTrusted; TrustNotTrusted];
  discriminant v := match v with
    | TrustUnknown => 0 | TrustTrusted => 1 | TrustNotTrusted => 2 end%Z |}.
#[export] Instance TrustLevel_laws : EnumLaws TrustLevel.
Proof. solve_enum. Qed.
#[export] Instance TrustLevel_repr : Repr TrustLevel U64 := enum_u64.
#[export] Instance TrustLevel_repr_laws : ReprLaws TrustLevel U64 := enum_u64_laws.

Inductive SuccessStatus : Type :=
| StBuilt | StSubstituted | StAlreadyValid | StResolvesToAlreadyValid.
#[export] Instance SuccessStatus_eq_dec : EqDecision SuccessStatus.
Proof. solve_decision. Defined.

#[export] Instance SuccessStatus_enum : Enum SuccessStatus := {|
  variants := [StBuilt; StSubstituted; StAlreadyValid; StResolvesToAlreadyValid];
  discriminant v := match v with
    | StBuilt => 0 | StSubstituted => 1 | StAlreadyValid => 2 | StResolvesToAlreadyValid => 13 end%Z |}.
#[export] Instance SuccessStatus_laws : EnumLaws SuccessStatus.
Proof. solve_enum. Qed.

Inductive FailureStatus : Type :=
| StPermanentFailure | StInputRejected | StOutputRejected | StTransientFailure | StCachedFailure
| StTimedOut | StMiscFailure | StDependencyFailed | StLogLimitExceeded | StNotDeterministic
| StNoSubstituters.
#[export] Instance FailureStatus_eq_dec : EqDecision FailureStatus.
Proof. solve_decision. Defined.

#[export] Instance FailureStatus_enum : Enum FailureStatus := {|
  variants := [StPermanentFailure; StInputRejected; StOutputRejected; StTransientFailure; StCachedFailure;
    StTimedOut; StMiscFailure; StDependencyFailed; StLogLimitExceeded; StNotDeterministic;
    StNoSubstituters];
  discriminant v := match v with
    | StPermanentFailure => 3 | StInputRejected => 4 | StOutputRejected => 5 | StTransientFailure => 6
    | StCachedFailure => 7 | StTimedOut => 8 | StMiscFailure => 9 | StDependencyFailed => 10
    | StLogLimitExceeded => 11 | StNotDeterministic => 12 | StNoSubstituters => 14 end%Z |}.
#[export] Instance FailureStatus_laws : EnumLaws FailureStatus.
Proof. solve_enum. Qed.

(** *** daemon_wire/logger.rs *)

Definition STDERR_LAST : Z := 0x616c7473.
Definition STDERR_ERROR : Z := 0x63787470.
Definition STDERR_NEXT : Z := 0x6f6c6d67.
Definition STDERR_READ : Z := 0x64617461.
Definition STDERR_WRITE : Z := 0x64617416.
Definition STDERR_START_ACTIVITY : Z := 0x53545254.
Definition STDERR_STOP_ACTIVITY : Z := 0x53544f50.
Definition STDERR_RESULT : Z := 0x52534c54.

Inductive RawLogMessageType : Type :=
| TLast | TError | TNext | TRead | TWrite | TStartActivity | TStopActivity | TResult.
#[export] Instance RawLogMessageType_eq_dec : EqDecision RawLogMessageType.
Proof. solve_decision. Defined.

#[export] Instance RawLogMessageType_enum : Enum RawLogMessageType := {|
  variants := [TLast; TError; TNext; TRead; TWrite; TStartActivity; TStopActivity; TResult];
  discriminant v := match v with
    | TLast => STDERR_LAST | TError => STDERR_ERROR | TNext => STDERR_NEXT | TRead => STDERR_READ
    | TWrite => STDERR_WRITE | TStartActivity => STDERR_START_ACTIVITY
    | TStopActivity => STDERR_STOP_ACTIVITY | TResult => STDERR_RESULT end%Z |}.
#[export] Instance RawLogMessageType_laws : EnumLaws RawLogMessageType.
Proof. solve_enum. Qed.
#[export] Instance RawLogMessageType_repr : Repr RawLogMessageType U64 := enum_u64.
#[export] Instance RawLogMessageType_repr_laws : ReprLaws RawLogMessageType U64 := enum_u64_laws.

(** *** Other numbers *)

(** [DaemonInt] is a [c_uint], [DaemonTime] a [time_t]. *)
Abbreviation DaemonInt := U32 (only parsing).
Abbreviation DaemonTime := I64 (only parsing).
Abbreviation DaemonString := Bytes (only parsing).
Abbreviation DaemonPath := Bytes (only parsing).

#[export] Instance ProtocolVersion_repr : Repr ProtocolVersion U16 := {|
  into v := uint (to_u16 v); try_from n := Some (from_u16 (uint_val n)) |}.

#[export] Program Instance ProtocolVersion_codec : NixCodec ProtocolVersion := {|
  codec_ok E v := version_wf v;
  codec_bytes E v := u64_to_le_bytes (to_u16 v)
|}.
Next Obligation. intros E v Hv S HW HWL. apply writes_number. Qed.
Next Obligation.
  intros E v Hv S HR HRL. destruct (to_u16_roundtrip v Hv) as [Hr Hb].
  eapply reads_try_map.
  - refine (codec_reads E (uint (to_u16 v) : U16) (conj Hb _) S HR HRL).
    unfold is_u64, u64_modulus. cbn. lia.
  - cbn. by rewrite Hr.
Qed.

Record Microseconds : Type := mk_microseconds { micros : Z }.
#[export] Instance Microseconds_repr : Repr Microseconds I64 := {|
  into m := i64 (micros m); try_from n := Some (mk_microseconds (i64_val n)) |}.
#[export] Instance Microseconds_repr_laws : ReprLaws Microseconds I64.
Proof. by intros []. Qed.

Inductive IgnoredZero : Type := ignored_zero.
#[export] Instance IgnoredZero_repr : Repr IgnoredZero U64 := {|
  into _ := u64 0; try_from _ := Some ignored_zero |}.
#[export] Instance IgnoredZero_repr_laws : ReprLaws IgnoredZero U64.
Proof. by intros []. Qed.

Inductive IgnoredOne : Type := ignored_one.
#[export] Instance IgnoredOne_repr : Repr IgnoredOne U64 := {|
  into _ := u64 1; try_from _ := Some ignored_one |}.
#[export] Instance IgnoredOne_repr_laws : ReprLaws IgnoredOne U64.
Proof. by intros []. Qed.

Inductive IgnoredTrue : Type := ignored_true.
#[export] Instance IgnoredTrue_repr : Repr IgnoredTrue bool := {|
  into _ := true; try_from _ := Some ignored_true |}.
#[export] Instance IgnoredTrue_repr_laws : ReprLaws IgnoredTrue bool.
Proof. by intros []. Qed.

(** *** Optional numbers *)

#[export] Instance option_Microseconds_serialize : NixSerialize (option Microseconds) := λ S HW o,
  match o with
  | Some value => _ ← write_number 1; write_value value
  | None => write_number 0
  end.

#[export] Instance option_Microseconds_deserialize : NixDeserialize (option Microseconds) := λ S HR,
  io_first (try_read_value (UInt 8)) (λ tag,
    if decide (uint_val tag = 0)%Z then mret None
    else if decide (uint_val tag = 1)%Z then v ← read_value Microseconds; mret (Some v)
    else io_lift (Err (InvalidData "invalid optional tag from remote"))).

#[export] Program Instance option_Microseconds_codec : NixCodec (option Microseconds) := {|
  codec_ok E o := match o with Some v => codec_ok E v | None => True end;
  codec_bytes E o := match o with
    | Some v => u64_to_le_bytes 1 ++ codec_bytes E v | None => u64_to_le_bytes 0 end
|}.
Next Obligation.
  intros E [v|] Hv S HW HWL; [|apply writes_number].
  apply writes_bind; [apply writes_number|exact (codec_writes E v Hv S HW HWL)].
Qed.
Next Obligation.
  intros E [v|] Hv S HR HRL; [|rewrite <-(app_nil_r (u64_to_le_bytes 0))].
  - eapply (reads_first E _ _ _ _ (uint 1)).
    { refine (codec_reads E (uint 1 : UInt 8) _ S HR HRL). by split. }
    eapply reads_bind_nil; [exact (codec_reads_value E v Hv S HR HRL)|apply reads_ret].
  - eapply (reads_first E _ _ _ _ (uint 0)).
    { refine (codec_reads E (uint 0 : UInt 8) _ S HR HRL). by split. }
    apply reads_ret.
Qed.

(** [Option<NonZero<i64>>]: zero is [None]. *)
Record NonZero : Type := mk_nonzero { nonzero : Z }.
Definition nonzero_new (z : Z) : option NonZero :=
  if decide (z = 0)%Z then None else Some (mk_nonzero z).

#[export] Instance option_NonZero_serialize : NixSerialize (option NonZero) := λ S HW o,
  write_number (wrap_u64 (match o with Some n => nonzero n | None => 0 end)).

#[export] Instance option_NonZero_deserialize : NixDeserialize (option NonZero) := λ S HR,
  io_map (λ n, nonzero_new (i64_val n)) (try_read_value DaemonTime).

#[export] Program Instance option_NonZero_codec : NixCodec (option NonZero) := {|
  codec_ok E o := match o with Some n => nonzero n ≠ 0 ∧ is_i64 (nonzero n) | None => True end%Z;
  codec_bytes E o := u64_to_le_bytes (wrap_u64 (match o with Some n => nonzero n | None => 0 end))
|}.
Next Obligation. intros E o Ho S HW HWL. apply writes_number. Qed.
Next Obligation.
  intros E o Ho S HR HRL. set (z := match o with Some n => nonzero n | None => 0%Z end).
  replace o with (nonzero_new (i64_val (i64 z))) at 2.
  - apply (reads_map E (λ n, nonzero_new (i64_val n))).
    refine (codec_reads E (i64 z) _ S HR HRL). destruct o; [apply Ho|done].
  - unfold nonzero_new. cbn. destruct o as [[n]|]; [|done]. cbn in *. by rewrite decide_False by apply Ho.
Qed.

(** [optional_info!]: a flag, then the value. *)
Definition optional_info_serialize {T S} {NS : NixSerialize T} {HW : NixWrite S} (o : option T)
    : io S unit :=
  match o with
  | Some value => _ ← write_value true; write_value value
  | None => write_value false
  end.

Definition optional_info_deserialize {T S} {ND : NixDeserialize T} {HR : NixRead S}
    : io S (option (option T)) :=
  io_first (try_read_value bool) (λ found : bool,
    if found then v ← read_value T; mret (Some v) else mret None).

Section optional_info.
Context {T : Type} {NS : NixSerialize T} {ND : NixDeserialize T} {CT : NixCodec T}.

Definition optional_info_bytes (E : env) (o : option T) : bytes :=
  u64_to_le_bytes (match o with Some _ => 1 | None => 0 end) ++ match o with Some v => codec_bytes E v | None => [] end.

Definition optional_info_ok (E : env) (o : option T) : Prop :=
  match o with Some v => codec_ok E v | None => True end.

Lemma writes_optional_info {S} {HW : NixWrite S} {HWL : NixWriteLaws S} E o :
  optional_info_ok E o → writes E (optional_info_serialize o) (optional_info_bytes E o).
Proof.
  destruct o as [v|]; intros Ho; unfold optional_info_bytes.
  - apply writes_bind; [apply writes_number|exact (codec_writes E v Ho S HW HWL)].
  - rewrite app_nil_r. apply writes_number.
Qed.

Lemma reads_optional_info {S} {HR : NixRead S} {HRL : NixReadLaws S} E o :
  optional_info_ok E o → reads E optional_info_deserialize (optional_info_bytes E o) (Some o).
Proof.
  destruct o as [v|]; intros Ho.
  - eapply reads_first; [exact (codec_reads E true I S HR HRL)|].
    eapply reads_bind_nil; [exact (codec_reads_value E v Ho S HR HRL)|apply reads_ret].
  - eapply reads_first; [exact (codec_reads E false I S HR HRL)|]. apply reads_ret.
Qed.
End optional_info.

(** ** The types with a text *)

(** *** nar_hash.rs *)

Record NarHash : Type := mk_nar_hash { nar_hash_sha256 : Sha256 }.

Definition NarHash_from_slice (digest : bytes) : res InvalidHashError NarHash :=
  mk_nar_hash <$> Sha256_from_slice digest.

#[export] Instance NarHash_CommonHash : CommonHash NarHash := {|
  from_slice a hash :=
    if decide (a ≠ SHA256) then Err (TypeMismatch SHA256 a)
    else map_err invalid_to_kind (NarHash_from_slice hash);
  implied_algorithm := Some SHA256;
  algorithm _ := SHA256;
  digest_bytes h := sha256_data (nar_hash_sha256 h)
|}.

#[export] Instance NarHash_laws : CommonHashLaws NarHash.
Proof.
  refine {| h_wf h := Sha256_wf (nar_hash_sha256 h) |}.
  - done.
  - intros [[d]] Hd. cbn [from_slice NarHash_CommonHash algorithm digest_bytes sha256_data nar_hash_sha256].
    unfold NarHash_from_slice. use_decide. by rewrite Sha256_from_slice_eq.
  - intros a d Hd. cbn [from_slice NarHash_CommonHash]. destruct (decide (a ≠ SHA256)) as [|Ha]; [done|].
    apply dec_stable in Ha as ->. unfold NarHash_from_slice. by rewrite Sha256_from_slice_eq.
Defined.

(** *** Types of the store core *)

Record BaseStorePath : Type := mk_base_store_path { base_store_path : StorePath }.
Inductive IgnoredErrorType : Type := ignored_error_type.

Section texts.
Context {DE : DataEncoding}.

#[export] Instance StorePath_text : Text StorePath := {|
  text_fmt dir p := store_dir_fmt dir p;
  text_parse dir s := from_store_dir_str (E:=ParseStorePathError) dir s |}.

#[export] Instance BaseStorePath_text : Text BaseStorePath := {|
  text_fmt _ p := StorePath_fmt (base_store_path p);
  text_parse _ s := mk_base_store_path <$> StorePath_from_str s |}.

#[export] Instance StorePathHash_text : Text StorePathHash := {|
  text_fmt _ h := StorePathHash_fmt h;
  text_parse _ s := decode_digest s |}.

#[export] Instance OutputName_text : Text OutputName := {|
  text_fmt _ o := Ok (oname o);
  text_parse _ s := OutputName_from_str s |}.

#[export] Instance Algorithm_text : Text Algorithm := {|
  text_fmt _ a := Ok (Algorithm_to_string a);
  text_parse _ s := Algorithm_from_str s |}.

#[export] Instance Signature_text : Text Signature := {|
  text_fmt _ s := Signature_fmt s;
  text_parse _ s := Signature_from_str s |}.

#[export] Instance ContentAddress_text : Text ContentAddress := {|
  text_fmt _ ca := CA_to_string ca;
  text_parse _ s := CA_from_str s |}.

#[export] Instance MethodAlgorithm_text : Text ContentAddressMethodAlgorithm := {|
  text_fmt _ m := Ok (MA_to_string m);
  text_parse _ s := MA_from_str s |}.

(** [Hash] is written in base32 and read in any form. *)
#[export] Instance Hash_text : Text Hash := {|
  text_fmt _ h := Base32_fmt false h;
  text_parse _ s := Any_from_str s |}.

(** [NarHash] is written in base16 without its algorithm. *)
#[export] Instance NarHash_text : Text NarHash := {|
  text_fmt _ h := Ok (Base16_fmt true h);
  text_parse _ s := Bare_from_str Any_parse s |}.

#[export] Instance DerivedPath_text : Text DerivedPath := {|
  text_fmt dir d := Legacy_fmt dir d;
  text_parse dir s := Legacy_from_store_dir_str dir s |}.

#[export] Instance IgnoredErrorType_text : Text IgnoredErrorType := {|
  text_error := bytes;
  text_fmt _ _ := Ok (str "Error");
  text_parse _ _ := Ok ignored_error_type |}.

Context {DL : DataEncodingLaws}.

#[export] Program Instance StorePath_text_laws : TextLaws StorePath := {|
  text_wf := path_wf; text_of dir p := dir ++ "/"%byte :: path_text p |}.
Next Obligation.
  intros dir p Hp. unfold text_fmt, StorePath_text, store_dir_fmt, StorePath_display. by rewrite StorePath_fmt_eq.
Qed.
Next Obligation.
  intros dir p Hd Hp. unfold text_parse, StorePath_text, from_store_dir_str, StorePath_from_store_dir_str.
  rewrite strip_printed by done. res_simpl. by rewrite from_bytes_text.
Qed.
Next Obligation. intros dir p Hp. by destruct dir. Qed.

#[export] Program Instance BaseStorePath_text_laws : TextLaws BaseStorePath := {|
  text_wf p := path_wf (base_store_path p); text_of _ p := path_text (base_store_path p) |}.
Next Obligation. intros dir p Hp. by apply StorePath_fmt_eq. Qed.
Next Obligation. intros dir [p] Hd Hp. unfold text_parse, BaseStorePath_text. by rewrite StorePath_from_text. Qed.
Next Obligation. intros dir p Hp. unfold path_text. by destruct (hash_text _). Qed.

#[export] Program Instance StorePathHash_text_laws : TextLaws StorePathHash := {|
  text_wf := sph_wf; text_of _ h := hash_text h |}.
Next Obligation. intros dir h Hh. by apply StorePathHash_fmt_eq. Qed.
Next Obligation. intros dir h Hd Hh. by apply decode_digest_text. Qed.
Next Obligation. intros dir h Hh He. destruct (StorePathHash_fmt_eq h Hh) as [_ Hl]. by rewrite He in Hl. Qed.

#[export] Program Instance OutputName_text_laws : TextLaws OutputName := {|
  text_wf := output_ok; text_of _ o := oname o |}.
Next Obligation. done. Qed.
Next Obligation. intros dir [o] Hd Ho. by apply OutputName_from_str_ok. Qed.
Next Obligation. intros dir [o] (Ho & _) He. by destruct o. Qed.

#[export] Program Instance Algorithm_text_laws : TextLaws Algorithm := {|
  text_wf _ := True; text_of _ a := Algorithm_to_string a |}.
Next Obligation. done. Qed.
Next Obligation. intros dir a _ _. apply Algorithm_from_to_string. Qed.
Next Obligation. by intros dir [] _. Qed.

#[export] Program Instance Signature_text_laws : TextLaws Signature := {|
  text_wf := signature_wf; text_of _ s := signature_text s |}.
Next Obligation. intros dir s Hs. by apply Signature_fmt_eq. Qed.
Next Obligation. intros dir s Hd Hs. by apply Signature_from_text. Qed.
Next Obligation. intros dir s Hs. unfold signature_text. by destruct (key_name s). Qed.

#[export] Program Instance ContentAddress_text_laws : TextLaws ContentAddress := {|
  text_wf := CA_wf; text_of _ ca := CA_text ca |}.
Next Obligation. intros dir ca Hca. by apply CA_to_string_eq. Qed.
Next Obligation. intros dir ca Hd Hca. by apply CA_from_text. Qed.
Next Obligation. by intros dir [] _. Qed.

#[export] Program Instance MethodAlgorithm_text_laws : TextLaws ContentAddressMethodAlgorithm := {|
  text_wf _ := True; text_of _ m := MA_to_string m |}.
Next Obligation. done. Qed.
Next Obligation. intros dir m _ _. apply MA_from_to_string. Qed.
Next Obligation. by intros dir [|[]|[]] _. Qed.

#[export] Program Instance Hash_text_laws : TextLaws Hash := {|
  text_wf := Hash_wf; text_of _ h := with_algorithm false ":" h (encoded NixBase32 (digest_bytes h)) |}.
Next Obligation. intros dir h Hh. by apply Base32_fmt_eq. Qed.
Next Obligation. intros dir h Hd Hh. by apply Any_from_str_prefixed. Qed.
Next Obligation. intros dir [[] d] _; done. Qed.

#[export] Program Instance NarHash_text_laws : TextLaws NarHash := {|
  text_wf := h_wf; text_of _ h := encoded Hex (digest_bytes h) |}.
Next Obligation. intros dir h Hh. apply (display_eq Hex true h Hh). Qed.
Next Obligation. intros dir h Hd Hh. apply (Any_parse_encoded Hex h Hh). Qed.
Next Obligation.
  intros dir h Hh He. pose proof (length_encoded Hex (digest_bytes h)) as Hl.
  rewrite He, (length_digest h Hh) in Hl. by vm_compute in Hl.
Qed.

#[export] Program Instance DerivedPath_text_laws : TextLaws DerivedPath := {|
  text_wf := derived_wf; text_of dir d := dir ++ "/"%byte :: derived_text "!" d |}.
Next Obligation. intros dir d Hd. unfold text_fmt, DerivedPath_text, Legacy_fmt. by rewrite Derived_fmt_eq. Qed.
Next Obligation.
  intros dir d Hdir Hd. unfold text_parse, DerivedPath_text, Legacy_from_store_dir_str. rewrite strip_printed by done.
  res_simpl. by rewrite Derived_from_text by auto.
Qed.
Next Obligation. intros dir p Hp. by destruct dir. Qed.

#[export] Program Instance IgnoredErrorType_text_laws : TextLaws IgnoredErrorType := {|
  text_wf _ := True; text_of _ _ := str "Error" |}.
Next Obligation. done. Qed.
Next Obligation. by intros dir [] _ _. Qed.
Next Obligation. done. Qed.
End texts.

(** ** Orders of the keys *)

#[export] Instance Bytes_ord : Ord Bytes := λ a b, bytes_cmp (bytes_val a) (bytes_val b).

(** Derived orders compare field by field, collections element by element. *)
#[export] Instance pair_ord {A B} {HA : Ord A} {HB : Ord B} : Ord (A * B) := λ x y,
  match cmp x.1 y.1 with Eq => cmp x.2 y.2 | c => c end.

#[export] Instance list_ord {A} {HA : Ord A} : Ord (list A) :=
  fix go x y :=
    match x, y with
    | [], [] => Eq
    | [], _ :: _ => Lt
    | _ :: _, [] => Gt
    | a :: x, b :: y => match cmp a b with Eq => go x y | c => c end
    end.

(** Comparing the images of an injective function. *)
Definition ord_by {T U} {HO : Ord U} (f : T → U) : Ord T := λ a b, cmp (f a) (f b).

Lemma ord_by_laws {T U} {HO : Ord U} {HOL : OrdLaws U} (f : T → U) :
  Inj (=) (=) f → @OrdLaws T (ord_by f).
Proof.
  intros Hf. split.
  - intros a b. change (cmp (f a) (f b) = Eq ↔ a = b). rewrite cmp_eq. split; [apply Hf|congruence].
  - intros a b. exact (cmp_antisym (f a) (f b)).
  - intros a b c. exact (cmp_trans (f a) (f b) (f c)).
Qed.

#[export] Instance Bytes_ord_laws : OrdLaws Bytes.
Proof.
  split.
  - intros [a] [b]. unfold cmp, Bytes_ord. cbn. rewrite bytes_cmp_eq. naive_solver.
  - intros [a] [b]. apply bytes_cmp_antisym.
  - intros [a] [b] [c]. apply bytes_cmp_trans.
Qed.

Lemma pair_cmp {A B} {HA : Ord A} {HB : Ord B} (x y : A * B) :
  cmp x y = match cmp x.1 y.1 with Eq => cmp x.2 y.2 | c => c end.
Proof. done. Qed.

#[export] Instance pair_ord_laws {A B} {HA : Ord A} {HB : Ord B} {LA : OrdLaws A} {LB : OrdLaws B} :
  OrdLaws (A * B).
Proof.
  split.
  - intros [a1 a2] [b1 b2]. rewrite pair_cmp. cbn. destruct (cmp a1 b1) eqn:Ec.
    + apply cmp_eq in Ec as ->. rewrite cmp_eq. naive_solver.
    + split; [done|]. intros [= -> ->]. by rewrite (proj2 (cmp_eq b1 b1) eq_refl) in Ec.
    + split; [done|]. intros [= -> ->]. by rewrite (proj2 (cmp_eq b1 b1) eq_refl) in Ec.
  - intros [a1 a2] [b1 b2]. rewrite !pair_cmp. cbn. rewrite (cmp_antisym a1 b1).
    destruct (cmp a1 b1); cbn; [apply cmp_antisym|done..].
  - intros [a1 a2] [b1 b2] [c1 c2]. rewrite !pair_cmp. cbn.
    destruct (cmp a1 b1) eqn:E1; [|destruct (cmp b1 c1) eqn:E2|done].
    + apply cmp_eq in E1 as ->. destruct (cmp b1 c1); [apply cmp_trans|done..].
    + apply cmp_eq in E2 as ->. by rewrite E1.
    + by rewrite (cmp_trans a1 b1 c1 E1 E2).
    + done.
Qed.

Lemma list_cmp_cons {A} {HA : Ord A} (a b : A) x y :
  cmp (a :: x) (b :: y) = match cmp a b with Eq => cmp x y | c => c end.
Proof. done. Qed.

#[export] Instance list_ord_laws {A} {HA : Ord A} {LA : OrdLaws A} : OrdLaws (list A).
Proof.
  split.
  - induction a as [|a x IH]; intros [|b y]; [done..|]. rewrite list_cmp_cons.
    destruct (cmp a b) eqn:Ec.
    + apply cmp_eq in Ec as ->. rewrite IH. naive_solver.
    + split; [done|]. intros [= -> ->]. by rewrite (proj2 (cmp_eq b b) eq_refl) in Ec.
    + split; [done|]. intros [= -> ->]. by rewrite (proj2 (cmp_eq b b) eq_refl) in Ec.
  - induction a as [|a x IH]; intros [|b y]; [done..|]. rewrite !list_cmp_cons, (cmp_antisym a b).
    destruct (cmp a b); cbn; [apply IH|done..].
  - induction a as [|a x IH]; intros [|b y] [|c z]; [done..|]. rewrite !list_cmp_cons.
    destruct (cmp a b) eqn:E1; [|destruct (cmp b c) eqn:E2|done].
    + apply cmp_eq in E1 as ->. destruct (cmp b c); [apply IH|done..].
    + apply cmp_eq in E2 as ->. by rewrite E1.
    + by rewrite (cmp_trans a b c E1 E2).
    + done.
Qed.

#[export] Instance StorePath_ord : Ord StorePath := StorePath_cmp.
#[export] Instance StorePath_ord_laws : OrdLaws StorePath.
Proof.
  refine (ord_by_laws (HO:=pair_ord) (λ p, (mk_Bytes (rev (sph (sp_hash p))), mk_Bytes (spn (sp_name p)))) _).
  intros [[h] [n]] [[h'] [n']] [= Hh Hn]. cbn in *. apply (f_equal (@rev _)) in Hh.
  rewrite !rev_involutive in Hh. congruence.
Qed.

#[export] Instance OutputName_ord : Ord OutputName := λ a b, bytes_cmp (oname a) (oname b).
#[export] Instance OutputName_ord_laws : OrdLaws OutputName.
Proof. refine (ord_by_laws (HO:=Bytes_ord) (λ o, mk_Bytes (oname o)) _). by intros [] [] [= ->]. Qed.

#[export] Instance Signature_ord : Ord Signature :=
  ord_by (λ s, (mk_Bytes (key_name s), mk_Bytes (sig s))).
#[export] Instance Signature_ord_laws : OrdLaws Signature.
Proof. apply ord_by_laws. by intros [] [] [= -> ->]. Qed.

#[export] Instance DrvOutput_ord : Ord DrvOutput := ord_by (λ d, (do_path d, do_output d)).
#[export] Instance DrvOutput_ord_laws : OrdLaws DrvOutput.
Proof. apply ord_by_laws. by intros [] [] [= -> ->]. Qed.
