(* ===== verification/Messages.v ===== *)
(** The messages of the daemon protocol: path information, realisations,
    build results, derivations, options and the requests
    ([harmonia-protocol/src/valid_path_info.rs], [build_result.rs],
    [store_impls.rs], [types.rs], [daemon_wire/types2.rs]). A struct is
    written field by field; reading the first field may find the end of the
    stream, the others may not. *)

From stdpp Require Import base list numbers strings.
From Stdlib Require Import ZArith Lia Strings.Byte.
From S2P Require Import Prelude Async Wire Sink ProtoRead Framed Version BaseEncoding Hash StorePath ContentAddress Signature DerivedPath NixIO NixCodec WireTypes.

#[local] Unset Program Cases.

(** ** Proofs for structs *)

Lemma writes_value {T} {NS : NixSerialize T} {ND : NixDeserialize T} {CT : NixCodec T} {S}
    {HW : NixWrite S} {HWL : NixWriteLaws S} E (v : T) :
  codec_ok E v → writes E (write_value v) (codec_bytes E v).
Proof. intros Hv. exact (codec_writes E v Hv S HW HWL). Qed.

Lemma reads_value {T} {NS : NixSerialize T} {ND : NixDeserialize T} {CT : NixCodec T} {S}
    {HR : NixRead S} {HRL : NixReadLaws S} E (v : T) :
  codec_ok E v → reads E (read_value T) (codec_bytes E v) v.
Proof. intros Hv. exact (codec_reads_value E v Hv S HR HRL). Qed.

Lemma reads_try_value {T} {NS : NixSerialize T} {ND : NixDeserialize T} {CT : NixCodec T} {S}
    {HR : NixRead S} {HRL : NixReadLaws S} E (v : T) :
  codec_ok E v → reads E (try_read_value T) (codec_bytes E v) (Some v).
Proof. intros Hv. exact (codec_reads E v Hv S HR HRL). Qed.

(** Field by field. *)
Ltac writes_fields :=
  repeat (apply writes_bind; [by apply writes_value|]); by apply writes_value.
Ltac reads_fields :=
  repeat first
    [ eapply reads_bind; [by apply reads_value|]
    | eapply reads_bind_nil; [by apply reads_value|]
    | apply reads_ret ].
Ltac solve_writes ser :=
  intros; cbv beta in *; destruct_and?; unfold serialize, ser; writes_fields.
Ltac solve_reads de :=
  intros; cbv beta in *; destruct_and?;
  match goal with v : _ |- reads _ _ _ (Some ?w) => constr_eq v w; destruct v end;
  eapply reads_first; [by apply reads_try_value|]; reads_fields.

Section messages.
Context {DE : DataEncoding} {DL : DataEncodingLaws}.

(** The sizes the compiler chooses for the elements of lists. *)
Context {SZ_Bytes : SizeOf Bytes} {SZ_DerivedPath : SizeOf DerivedPath} {SZ_Signature : SizeOf Signature}.

(** ** Realisations *)

#[export] Instance DrvOutput_serialize : NixSerialize DrvOutput := λ S HW v,
  _ ← write_value (do_path v); write_value (do_output v).

#[export] Instance DrvOutput_deserialize : NixDeserialize DrvOutput := λ S HR,
  io_first (try_read_value StorePath) (λ do_path',
    do_output' ← read_value OutputName; mret (mk_drv_output do_path' do_output')).

#[export] Program Instance DrvOutput_codec : NixCodec DrvOutput := {|
  codec_ok E v := codec_ok E (do_path v) ∧ codec_ok E (do_output v);
  codec_bytes E v := codec_bytes E (do_path v) ++ codec_bytes E (do_output v)
|}.
Next Obligation. solve_writes DrvOutput_serialize. Qed.
Next Obligation. solve_reads DrvOutput_deserialize. Qed.

Record UnkeyedRealisation : Type := mk_UnkeyedRealisation {
  ur_out_path : StorePath;
  ur_signatures : BTreeSet Signature
}.

#[export] Instance UnkeyedRealisation_serialize : NixSerialize UnkeyedRealisation := λ S HW v,
  _ ← write_value (ur_out_path v); write_value (ur_signatures v).

#[export] Instance UnkeyedRealisation_deserialize : NixDeserialize UnkeyedRealisation := λ S HR,
  io_first (try_read_value StorePath) (λ ur_out_path',
    ur_signatures' ← read_value (BTreeSet Signature);
    mret (mk_UnkeyedRealisation ur_out_path' ur_signatures')).

#[export] Program Instance UnkeyedRealisation_codec : NixCodec UnkeyedRealisation := {|
  codec_ok E v := codec_ok E (ur_out_path v) ∧ codec_ok E (ur_signatures v);
  codec_bytes E v := codec_bytes E (ur_out_path v) ++ codec_bytes E (ur_signatures v)
|}.
Next Obligation. solve_writes UnkeyedRealisation_serialize. Qed.
Next Obligation. solve_reads UnkeyedRealisation_deserialize. Qed.

#[export] Instance UnkeyedRealisation_ord : Ord UnkeyedRealisation :=
  ord_by (λ r, (ur_out_path r, elems (ur_signatures r))).
#[export] Instance UnkeyedRealisation_ord_laws : OrdLaws UnkeyedRealisation.
Proof. apply ord_by_laws. by intros [? []] [? []] [= -> ->]. Qed.

Record Realisation : Type := mk_Realisation {
  re_key : DrvOutput;
  re_value : UnkeyedRealisation
}.

#[export] Instance Realisation_serialize : NixSerialize Realisation := λ S HW v,
  _ ← write_value (re_key v); write_value (re_value v).

#[export] Instance Realisation_deserialize : NixDeserialize Realisation := λ S HR,
  io_first (try_read_value DrvOutput) (λ re_key',
    re_value' ← read_value UnkeyedRealisation; mret (mk_Realisation re_key' re_value')).

#[export] Program Instance Realisation_codec : NixCodec Realisation := {|
  codec_ok E v := codec_ok E (re_key v) ∧ codec_ok E (re_value v);
  codec_bytes E v := codec_bytes E (re_key v) ++ codec_bytes E (re_value v)
|}.
Next Obligation. solve_writes Realisation_serialize. Qed.
Next Obligation. solve_reads Realisation_deserialize. Qed.

#[export] Instance Realisation_ord : Ord Realisation := ord_by (λ r, (re_key r, re_value r)).
#[export] Instance Realisation_ord_laws : OrdLaws Realisation.
Proof. apply ord_by_laws. by intros [] [] [= -> ->]. Qed.

(** ** Path information *)

(** A [StoreDir] is not on the wire: the reader fills in its own. *)
#[export] Instance StoreDir_serialize : NixSerialize StoreDir := λ S HW _, mret tt.
#[export] Instance StoreDir_deserialize : NixDeserialize StoreDir := λ S HR,
  dir ← io_gets r_store_dir; mret (Some dir).

#[export] Program Instance StoreDir_codec : NixCodec StoreDir := {|
  codec_ok E dir := dir = e_dir E;
  codec_bytes E dir := []
|}.
Next Obligation. intros E dir _ S HW HWL. apply writes_ret. Qed.
Next Obligation. intros E dir -> S HR HRL. apply reads_store_dir, reads_ret. Qed.

Record UnkeyedValidPathInfo : Type := mk_UnkeyedValidPathInfo {
  vi_deriver : option StorePath;
  vi_nar_hash : NarHash;
  vi_references : BTreeSet StorePath;
  vi_registration_time : option NonZero;
  vi_nar_size : U64;
  vi_ultimate : bool;
  vi_signatures : BTreeSet Signature;
  vi_ca : option ContentAddress;
  vi_store_dir : StoreDir
}.

#[export] Instance UnkeyedValidPathInfo_serialize : NixSerialize UnkeyedValidPathInfo := λ S HW v,
  _ ← write_value (vi_deriver v); _ ← write_value (vi_nar_hash v);
  _ ← write_value (vi_references v); _ ← write_value (vi_registration_time v);
  _ ← write_value (vi_nar_size v); _ ← write_value (vi_ultimate v);
  _ ← write_value (vi_signatures v); _ ← write_value (vi_ca v); write_value (vi_store_dir v).

#[export] Instance UnkeyedValidPathInfo_deserialize : NixDeserialize UnkeyedValidPathInfo := λ S HR,
  io_first (try_read_value (option StorePath)) (λ vi_deriver',
    vi_nar_hash' ← read_value NarHash; vi_references' ← read_value (BTreeSet StorePath);
    vi_registration_time' ← read_value (option NonZero); vi_nar_size' ← read_value U64;
    vi_ultimate' ← read_value bool; vi_signatures' ← read_value (BTreeSet Signature);
    vi_ca' ← read_value (option ContentAddress); vi_store_dir' ← read_value StoreDir;
    mret (mk_UnkeyedValidPathInfo vi_deriver' vi_nar_hash' vi_references' vi_registration_time' vi_nar_size' vi_ultimate' vi_signatures' vi_ca' vi_store_dir')).

#[export] Program Instance UnkeyedValidPathInfo_codec : NixCodec UnkeyedValidPathInfo := {|
  codec_ok E v := codec_ok E (vi_deriver v) ∧ codec_ok E (vi_nar_hash v) ∧ codec_ok E (vi_references v) ∧
    codec_ok E (vi_registration_time v) ∧ codec_ok E (vi_nar_size v) ∧
    codec_ok E (vi_ultimate v) ∧ codec_ok E (vi_signatures v) ∧ codec_ok E (vi_ca v) ∧
    codec_ok E (vi_store_dir v);
  codec_bytes E v := codec_bytes E (vi_deriver v) ++ codec_bytes E (vi_nar_hash v) ++
    codec_bytes E (vi_references v) ++ codec_bytes E (vi_registration_time v) ++
    codec_bytes E (vi_nar_size v) ++ codec_bytes E (vi_ultimate v) ++
    codec_bytes E (vi_signatures v) ++ codec_bytes E (vi_ca v) ++ codec_bytes E (vi_store_dir v)
|}.
Next Obligation. solve_writes UnkeyedValidPathInfo_serialize. Qed.
Next Obligation. solve_reads UnkeyedValidPathInfo_deserialize. Qed.

Record ValidPathInfo : Type := mk_ValidPathInfo {
  pi_path : StorePath;
  pi_info : UnkeyedValidPathInfo
}.

#[export] Instance ValidPathInfo_serialize : NixSerialize ValidPathInfo := λ S HW v,
  _ ← write_value (pi_path v); write_value (pi_info v).

#[export] Instance ValidPathInfo_deserialize : NixDeserialize ValidPathInfo := λ S HR,
  io_first (try_read_value StorePath) (λ pi_path',
    pi_info' ← read_value UnkeyedValidPathInfo; mret (mk_ValidPathInfo pi_path' pi_info')).

#[export] Program Instance ValidPathInfo_codec : NixCodec ValidPathInfo := {|
  codec_ok E v := codec_ok E (pi_path v) ∧ codec_ok E (pi_info v);
  codec_bytes E v := codec_bytes E (pi_path v) ++ codec_bytes E (pi_info v)
|}.
Next Obligation. solve_writes ValidPathInfo_serialize. Qed.
Next Obligation. solve_reads ValidPathInfo_deserialize. Qed.

Record UnkeyedSubstitutablePathInfo : Type := mk_UnkeyedSubstitutablePathInfo {
  si_deriver : option StorePath;
  si_references : BTreeSet StorePath;
  si_download_size : U64;
  si_nar_size : U64
}.

#[export] Instance UnkeyedSubstitutablePathInfo_serialize : NixSerialize UnkeyedSubstitutablePathInfo := λ S HW v,
  _ ← write_value (si_deriver v); _ ← write_value (si_references v);
  _ ← write_value (si_download_size v); write_value (si_nar_size v).

#[export] Instance UnkeyedSubstitutablePathInfo_deserialize : NixDeserialize UnkeyedSubstitutablePathInfo := λ S HR,
  io_first (try_read_value (option StorePath)) (λ si_deriver',
    si_references' ← read_value (BTreeSet StorePath); si_download_size' ← read_value U64;
    si_nar_size' ← read_value U64;
    mret (mk_UnkeyedSubstitutablePathInfo si_deriver' si_references' si_download_size' si_nar_size')).

#[export] Program Instance UnkeyedSubstitutablePathInfo_codec : NixCodec UnkeyedSubstitutablePathInfo := {|
  codec_ok E v := codec_ok E (si_deriver v) ∧ codec_ok E (si_references v) ∧ codec_ok E (si_download_size v) ∧
    codec_ok E (si_nar_size v);
  codec_bytes E v := codec_bytes E (si_deriver v) ++ codec_bytes E (si_references v) ++
    codec_bytes E (si_download_size v) ++ codec_bytes E (si_nar_size v)
|}.
Next Obligation. solve_writes UnkeyedSubstitutablePathInfo_serialize. Qed.
Next Obligation. solve_reads UnkeyedSubstitutablePathInfo_deserialize. Qed.

#[export] Instance option_UnkeyedValidPathInfo_serialize : NixSerialize (option UnkeyedValidPathInfo) := λ S HW,
  optional_info_serialize.
#[export] Instance option_UnkeyedValidPathInfo_deserialize : NixDeserialize (option UnkeyedValidPathInfo) := λ S HR,
  optional_info_deserialize.
#[export] Program Instance option_UnkeyedValidPathInfo_codec : NixCodec (option UnkeyedValidPathInfo) := {|
  codec_ok := optional_info_ok; codec_bytes := optional_info_bytes |}.
Next Obligation. intros. by apply writes_optional_info. Qed.
Next Obligation. intros. by apply reads_optional_info. Qed.

#[export] Instance option_UnkeyedSubstitutablePathInfo_serialize : NixSerialize (option UnkeyedSubstitutablePathInfo) := λ S HW,
  optional_info_serialize.
#[export] Instance option_UnkeyedSubstitutablePathInfo_deserialize : NixDeserialize (option UnkeyedSubstitutablePathInfo) := λ S HR,
  optional_info_deserialize.
#[export] Program Instance option_UnkeyedSubstitutablePathInfo_codec : NixCodec (option UnkeyedSubstitutablePathInfo) := {|
  codec_ok := optional_info_ok; codec_bytes := optional_info_bytes |}.
Next Obligation. intros. by apply writes_optional_info. Qed.
Next Obligation. intros. by apply reads_optional_info. Qed.

(** ** Arguments and results of the operations *)

Record AddToStoreRequest : Type := mk_AddToStoreRequest {
  as_name : RString;
  as_cam : ContentAddressMethodAlgorithm;
  as_refs : BTreeSet StorePath;
  as_repair : bool
}.

#[export] Instance AddToStoreRequest_serialize : NixSerialize AddToStoreRequest := λ S HW v,
  _ ← write_value (as_name v); _ ← write_value (as_cam v); _ ← write_value (as_refs v);
  write_value (as_repair v).

#[export] Instance AddToStoreRequest_deserialize : NixDeserialize AddToStoreRequest := λ S HR,
  io_first (try_read_value RString) (λ as_name',
    as_cam' ← read_value ContentAddressMethodAlgorithm;
    as_refs' ← read_value (BTreeSet StorePath); as_repair' ← read_value bool;
    mret (mk_AddToStoreRequest as_name' as_cam' as_refs' as_repair')).

#[export] Program Instance AddToStoreRequest_codec : NixCodec AddToStoreRequest := {|
  codec_ok E v := codec_ok E (as_name v) ∧ codec_ok E (as_cam v) ∧ codec_ok E (as_refs v) ∧
    codec_ok E (as_repair v);
  codec_bytes E v := codec_bytes E (as_name v) ++ codec_bytes E (as_cam v) ++ codec_bytes E (as_refs v) ++
    codec_bytes E (as_repair v)
|}.
Next Obligation. solve_writes AddToStoreRequest_serialize. Qed.
Next Obligation. solve_reads AddToStoreRequest_deserialize. Qed.

Record BuildPathsRequest : Type := mk_BuildPathsRequest {
  bp_paths : list DerivedPath;
  bp_mode : BuildMode
}.

#[export] Instance BuildPathsRequest_serialize : NixSerialize BuildPathsRequest := λ S HW v,
  _ ← write_value (bp_paths v); write_value (bp_mode v).

#[export] Instance BuildPathsRequest_deserialize : NixDeserialize BuildPathsRequest := λ S HR,
  io_first (try_read_value (list DerivedPath)) (λ bp_paths',
    bp_mode' ← read_value BuildMode; mret (mk_BuildPathsRequest bp_paths' bp_mode')).

#[export] Program Instance BuildPathsRequest_codec : NixCodec BuildPathsRequest := {|
  codec_ok E v := codec_ok E (bp_paths v) ∧ codec_ok E (bp_mode v);
  codec_bytes E v := codec_bytes E (bp_paths v) ++ codec_bytes E (bp_mode v)
|}.
Next Obligation. solve_writes BuildPathsRequest_serialize. Qed.
Next Obligation. solve_reads BuildPathsRequest_deserialize. Qed.

Record CollectGarbageRequest : Type := mk_CollectGarbageRequest {
  cg_action : GCAction;
  cg_paths_to_delete : BTreeSet StorePath;
  cg_ignore_liveness : bool;
  cg_max_freed : U64;
  cg_removed1 : IgnoredZero;
  cg_removed2 : IgnoredZero;
  cg_removed3 : IgnoredZero
}.

#[export] Instance CollectGarbageRequest_serialize : NixSerialize CollectGarbageRequest := λ S HW v,
  _ ← write_value (cg_action v); _ ← write_value (cg_paths_to_delete v);
  _ ← write_value (cg_ignore_liveness v); _ ← write_value (cg_max_freed v);
  _ ← write_value (cg_removed1 v); _ ← write_value (cg_removed2 v); write_value (cg_removed3 v).

#[export] Instance CollectGarbageRequest_deserialize : NixDeserialize CollectGarbageRequest := λ S HR,
  io_first (try_read_value GCAction) (λ cg_action',
    cg_paths_to_delete' ← read_value (BTreeSet StorePath); cg_ignore_liveness' ← read_value bool;
    cg_max_freed' ← read_value U64; cg_removed1' ← read_value IgnoredZero;
    cg_removed2' ← read_value IgnoredZero; cg_removed3' ← read_value IgnoredZero;
    mret (mk_CollectGarbageRequest cg_action' cg_paths_to_delete' cg_ignore_liveness' cg_max_freed' cg_removed1' cg_removed2' cg_removed3')).

#[export] Program Instance CollectGarbageRequest_codec : NixCodec CollectGarbageRequest := {|
  codec_ok E v := codec_ok E (cg_action v) ∧ codec_ok E (cg_paths_to_delete v) ∧
    codec_ok E (cg_ignore_liveness v) ∧ codec_ok E (cg_max_freed v) ∧ codec_ok E (cg_removed1 v) ∧
    codec_ok E (cg_removed2 v) ∧ codec_ok E (cg_removed3 v);
  codec_bytes E v := codec_bytes E (cg_action v) ++ codec_bytes E (cg_paths_to_delete v) ++
    codec_bytes E (cg_ignore_liveness v) ++ codec_bytes E (cg_max_freed v) ++
    codec_bytes E (cg_removed1 v) ++ codec_bytes E (cg_removed2 v) ++
    codec_bytes E (cg_removed3 v)
|}.
Next Obligation. solve_writes CollectGarbageRequest_serialize. Qed.
Next Obligation. solve_reads CollectGarbageRequest_deserialize. Qed.

Record CollectGarbageResponse : Type := mk_CollectGarbageResponse {
  cr_paths_deleted : list DaemonString;
  cr_bytes_freed : U64;
  cr_obsolete : IgnoredZero
}.

#[export] Instance CollectGarbageResponse_serialize : NixSerialize CollectGarbageResponse := λ S HW v,
  _ ← write_value (cr_paths_deleted v); _ ← write_value (cr_bytes_freed v);
  write_value (cr_obsolete v).

#[export] Instance CollectGarbageResponse_deserialize : NixDeserialize CollectGarbageResponse := λ S HR,
  io_first (try_read_value (list DaemonString)) (λ cr_paths_deleted',
    cr_bytes_freed' ← read_value U64; cr_obsolete' ← read_value IgnoredZero;
    mret (mk_CollectGarbageResponse cr_paths_deleted' cr_bytes_freed' cr_obsolete')).

#[export] Program Instance CollectGarbageResponse_codec : NixCodec CollectGarbageResponse := {|
  codec_ok E v := codec_ok E (cr_paths_deleted v) ∧ codec_ok E (cr_bytes_freed v) ∧ codec_ok E (cr_obsolete v);
  codec_bytes E v := codec_bytes E (cr_paths_deleted v) ++ codec_bytes E (cr_bytes_freed v) ++
    codec_bytes E (cr_obsolete v)
|}.
Next Obligation. solve_writes CollectGarbageResponse_serialize. Qed.
Next Obligation. solve_reads CollectGarbageResponse_deserialize. Qed.

Record QueryValidPathsRequest : Type := mk_QueryValidPathsRequest {
  qv_paths : BTreeSet StorePath;
  qv_substitute : bool
}.

#[export] Instance QueryValidPathsRequest_serialize : NixSerialize QueryValidPathsRequest := λ S HW v,
  _ ← write_value (qv_paths v); write_value (qv_substitute v).

#[export] Instance QueryValidPathsRequest_deserialize : NixDeserialize QueryValidPathsRequest := λ S HR,
  io_first (try_read_value (BTreeSet StorePath)) (λ qv_paths',
    qv_substitute' ← read_value bool; mret (mk_QueryValidPathsRequest qv_paths' qv_substitute')).

#[export] Program Instance QueryValidPathsRequest_codec : NixCodec QueryValidPathsRequest := {|
  codec_ok E v := codec_ok E (qv_paths v) ∧ codec_ok E (qv_substitute v);
  codec_bytes E v := codec_bytes E (qv_paths v) ++ codec_bytes E (qv_substitute v)
|}.
Next Obligation. solve_writes QueryValidPathsRequest_serialize. Qed.
Next Obligation. solve_reads QueryValidPathsRequest_deserialize. Qed.

Record VerifyStoreRequest : Type := mk_VerifyStoreRequest {
  vs_check_contents : bool;
  vs_repair : bool
}.

#[export] Instance VerifyStoreRequest_serialize : NixSerialize VerifyStoreRequest := λ S HW v,
  _ ← write_value (vs_check_contents v); write_value (vs_repair v).

#[export] Instance VerifyStoreRequest_deserialize : NixDeserialize VerifyStoreRequest := λ S HR,
  io_first (try_read_value bool) (λ vs_check_contents',
    vs_repair' ← read_value bool; mret (mk_VerifyStoreRequest vs_check_contents' vs_repair')).

#[export] Program Instance VerifyStoreRequest_codec : NixCodec VerifyStoreRequest := {|
  codec_ok E v := codec_ok E (vs_check_contents v) ∧ codec_ok E (vs_repair v);
  codec_bytes E v := codec_bytes E (vs_check_contents v) ++ codec_bytes E (vs_repair v)
|}.
Next Obligation. solve_writes VerifyStoreRequest_serialize. Qed.
Next Obligation. solve_reads VerifyStoreRequest_deserialize. Qed.

Record AddSignaturesRequest : Type := mk_AddSignaturesRequest {
  ag_path : StorePath;
  ag_signatures : list Signature
}.

#[export] Instance AddSignaturesRequest_serialize : NixSerialize AddSignaturesRequest := λ S HW v,
  _ ← write_value (ag_path v); write_value (ag_signatures v).

#[export] Instance AddSignaturesRequest_deserialize : NixDeserialize AddSignaturesRequest := λ S HR,
  io_first (try_read_value StorePath) (λ ag_path',
    ag_signatures' ← read_value (list Signature);
    mret (mk_AddSignaturesRequest ag_path' ag_signatures')).

#[export] Program Instance AddSignaturesRequest_codec : NixCodec AddSignaturesRequest := {|
  codec_ok E v := codec_ok E (ag_path v) ∧ codec_ok E (ag_signatures v);
  codec_bytes E v := codec_bytes E (ag_path v) ++ codec_bytes E (ag_signatures v)
|}.
Next Obligation. solve_writes AddSignaturesRequest_serialize. Qed.
Next Obligation. solve_reads AddSignaturesRequest_deserialize. Qed.

Record AddToStoreNarRequest : Type := mk_AddToStoreNarRequest {
  an_path_info : ValidPathInfo;
  an_repair : bool;
  an_dont_check_sigs : bool
}.

#[export] Instance AddToStoreNarRequest_serialize : NixSerialize AddToStoreNarRequest := λ S HW v,
  _ ← write_value (an_path_info v); _ ← write_value (an_repair v);
  write_value (an_dont_check_sigs v).

#[export] Instance AddToStoreNarRequest_deserialize : NixDeserialize AddToStoreNarRequest := λ S HR,
  io_first (try_read_value ValidPathInfo) (λ an_path_info',
    an_repair' ← read_value bool; an_dont_check_sigs' ← read_value bool;
    mret (mk_AddToStoreNarRequest an_path_info' an_repair' an_dont_check_sigs')).

#[export] Program Instance AddToStoreNarRequest_codec : NixCodec AddToStoreNarRequest := {|
  codec_ok E v := codec_ok E (an_path_info v) ∧ codec_ok E (an_repair v) ∧ codec_ok E (an_dont_check_sigs v);
  codec_bytes E v := codec_bytes E (an_path_info v) ++ codec_bytes E (an_repair v) ++
    codec_bytes E (an_dont_check_sigs v)
|}.
Next Obligation. solve_writes AddToStoreNarRequest_serialize. Qed.
Next Obligation. solve_reads AddToStoreNarRequest_deserialize. Qed.

Record QueryMissingResult : Type := mk_QueryMissingResult {
  qm_will_build : BTreeSet StorePath;
  qm_will_substitute : BTreeSet StorePath;
  qm_unknown : BTreeSet StorePath;
  qm_download_size : U64;
  qm_nar_size : U64
}.

#[export] Instance QueryMissingResult_serialize : NixSerialize QueryMissingResult := λ S HW v,
  _ ← write_value (qm_will_build v); _ ← write_value (qm_will_substitute v);
  _ ← write_value (qm_unknown v); _ ← write_value (qm_download_size v);
  write_value (qm_nar_size v).

#[export] Instance QueryMissingResult_deserialize : NixDeserialize QueryMissingResult := λ S HR,
  io_first (try_read_value (BTreeSet StorePath)) (λ qm_will_build',
    qm_will_substitute' ← read_value (BTreeSet StorePath);
    qm_unknown' ← read_value (BTreeSet StorePath); qm_download_size' ← read_value U64;
    qm_nar_size' ← read_value U64;
    mret (mk_QueryMissingResult qm_will_build' qm_will_substitute' qm_unknown' qm_download_size' qm_nar_size')).

#[export] Program Instance QueryMissingResult_codec : NixCodec QueryMissingResult := {|
  codec_ok E v := codec_ok E (qm_will_build v) ∧ codec_ok E (qm_will_substitute v) ∧ codec_ok E (qm_unknown v) ∧
    codec_ok E (qm_download_size v) ∧ codec_ok E (qm_nar_size v);
  codec_bytes E v := codec_bytes E (qm_will_build v) ++ codec_bytes E (qm_will_substitute v) ++
    codec_bytes E (qm_unknown v) ++ codec_bytes E (qm_download_size v) ++
    codec_bytes E (qm_nar_size v)
|}.
Next Obligation. solve_writes QueryMissingResult_serialize. Qed.
Next Obligation. solve_reads QueryMissingResult_deserialize. Qed.

Record AddMultipleToStoreRequest : Type := mk_AddMultipleToStoreRequest {
  am_repair : bool;
  am_dont_check_sigs : bool
}.

#[export] Instance AddMultipleToStoreRequest_serialize : NixSerialize AddMultipleToStoreRequest := λ S HW v,
  _ ← write_value (am_repair v); write_value (am_dont_check_sigs v).

#[export] Instance AddMultipleToStoreRequest_deserialize : NixDeserialize AddMultipleToStoreRequest := λ S HR,
  io_first (try_read_value bool) (λ am_repair',
    am_dont_check_sigs' ← read_value bool;
    mret (mk_AddMultipleToStoreRequest am_repair' am_dont_check_sigs')).

#[export] Program Instance AddMultipleToStoreRequest_codec : NixCodec AddMultipleToStoreRequest := {|
  codec_ok E v := codec_ok E (am_repair v) ∧ codec_ok E (am_dont_check_sigs v);
  codec_bytes E v := codec_bytes E (am_repair v) ++ codec_bytes E (am_dont_check_sigs v)
|}.
Next Obligation. solve_writes AddMultipleToStoreRequest_serialize. Qed.
Next Obligation. solve_reads AddMultipleToStoreRequest_deserialize. Qed.

Record AddPermRootRequest : Type := mk_AddPermRootRequest {
  ap_store_path : StorePath;
  ap_gc_root : DaemonPath
}.

#[export] Instance AddPermRootRequest_serialize : NixSerialize AddPermRootRequest := λ S HW v,
  _ ← write_value (ap_store_path v); write_value (ap_gc_root v).

#[export] Instance AddPermRootRequest_deserialize : NixDeserialize AddPermRootRequest := λ S HR,
  io_first (try_read_value StorePath) (λ ap_store_path',
    ap_gc_root' ← read_value DaemonPath; mret (mk_AddPermRootRequest ap_store_path' ap_gc_root')).

#[export] Program Instance AddPermRootRequest_codec : NixCodec AddPermRootRequest := {|
  codec_ok E v := codec_ok E (ap_store_path v) ∧ codec_ok E (ap_gc_root v);
  codec_bytes E v := codec_bytes E (ap_store_path v) ++ codec_bytes E (ap_gc_root v)
|}.
Next Obligation. solve_writes AddPermRootRequest_serialize. Qed.
Next Obligation. solve_reads AddPermRootRequest_deserialize. Qed.

Record ClientOptions : Type := mk_ClientOptions {
  co_keep_failed : bool;
  co_keep_going : bool;
  co_try_fallback : bool;
  co_verbosity : Verbosity;
  co_max_build_jobs : DaemonInt;
  co_max_silent_time : DaemonTime;
  co_use_build_hook : IgnoredTrue;
  co_verbose_build : Verbosity;
  co_log_type : IgnoredZero;
  co_print_build_trace : IgnoredZero;
  co_build_cores : DaemonInt;
  co_use_substitutes : bool;
  co_other_settings : BTreeMap RString DaemonString
}.

#[export] Instance ClientOptions_serialize : NixSerialize ClientOptions := λ S HW v,
  _ ← write_value (co_keep_failed v); _ ← write_value (co_keep_going v);
  _ ← write_value (co_try_fallback v); _ ← write_value (co_verbosity v);
  _ ← write_value (co_max_build_jobs v); _ ← write_value (co_max_silent_time v);
  _ ← write_value (co_use_build_hook v); _ ← write_value (co_verbose_build v);
  _ ← write_value (co_log_type v); _ ← write_value (co_print_build_trace v);
  _ ← write_value (co_build_cores v); _ ← write_value (co_use_substitutes v);
  write_value (co_other_settings v).

#[export] Instance ClientOptions_deserialize : NixDeserialize ClientOptions := λ S HR,
  io_first (try_read_value bool) (λ co_keep_failed',
    co_keep_going' ← read_value bool; co_try_fallback' ← read_value bool;
    co_verbosity' ← read_value Verbosity; co_max_build_jobs' ← read_value DaemonInt;
    co_max_silent_time' ← read_value DaemonTime; co_use_build_hook' ← read_value IgnoredTrue;
    co_verbose_build' ← read_value Verbosity; co_log_type' ← read_value IgnoredZero;
    co_print_build_trace' ← read_value IgnoredZero; co_build_cores' ← read_value DaemonInt;
    co_use_substitutes' ← read_value bool;
    co_other_settings' ← read_value (BTreeMap RString DaemonString);
    mret (mk_ClientOptions co_keep_failed' co_keep_going' co_try_fallback' co_verbosity' co_max_build_jobs' co_max_silent_time' co_use_build_hook' co_verbose_build' co_log_type' co_print_build_trace' co_build_cores' co_use_substitutes' co_other_settings')).

#[export] Program Instance ClientOptions_codec : NixCodec ClientOptions := {|
  codec_ok E v := codec_ok E (co_keep_failed v) ∧ codec_ok E (co_keep_going v) ∧
    codec_ok E (co_try_fallback v) ∧ codec_ok E (co_verbosity v) ∧
    codec_ok E (co_max_build_jobs v) ∧ codec_ok E (co_max_silent_time v) ∧
    codec_ok E (co_use_build_hook v) ∧ codec_ok E (co_verbose_build v) ∧
    codec_ok E (co_log_type v) ∧ codec_ok E (co_print_build_trace v) ∧
    codec_ok E (co_build_cores v) ∧ codec_ok E (co_use_substitutes v) ∧
    codec_ok E (co_other_settings v);
  codec_bytes E v := codec_bytes E (co_keep_failed v) ++ codec_bytes E (co_keep_going v) ++
    codec_bytes E (co_try_fallback v) ++ codec_bytes E (co_verbosity v) ++
    codec_bytes E (co_max_build_jobs v) ++ codec_bytes E (co_max_silent_time v) ++
    codec_bytes E (co_use_build_hook v) ++ codec_bytes E (co_verbose_build v) ++
    codec_bytes E (co_log_type v) ++ codec_bytes E (co_print_build_trace v) ++
    codec_bytes E (co_build_cores v) ++ codec_bytes E (co_use_substitutes v) ++
    codec_bytes E (co_other_settings v)
|}.
Next Obligation. solve_writes ClientOptions_serialize. Qed.
Next Obligation. solve_reads ClientOptions_deserialize. Qed.

Definition ClientOptions_default : ClientOptions :=
  mk_ClientOptions false false false VError (uint 1) (i64 0) ignored_true VError ignored_zero
    ignored_zero (uint 1) true (mk_map []).

(** ** Build results *)

Record BuildResultSuccess : Type := mk_BuildResultSuccess {
  bs_status : SuccessStatus;
  bs_built_outputs : BTreeMap OutputName UnkeyedRealisation
}.

Record BuildResultFailure : Type := mk_BuildResultFailure {
  bf_status : FailureStatus;
  bf_error_msg : DaemonString;
  bf_is_non_deterministic : bool
}.

Inductive BuildResultInner : Type :=
| BSuccess (s : BuildResultSuccess)
| BFailure (f : BuildResultFailure).

Record BuildResult : Type := mk_BuildResult {
  bres_inner : BuildResultInner;
  bres_times_built : DaemonInt;
  bres_start_time : DaemonTime;
  bres_stop_time : DaemonTime;
  bres_cpu_user : option Microseconds;
  bres_cpu_system : option Microseconds
}.

Definition bres_success (r : BuildResult) : option BuildResultSuccess :=
  match bres_inner r with BSuccess s => Some s | BFailure _ => None end.
Definition bres_failure (r : BuildResult) : option BuildResultFailure :=
  match bres_inner r with BSuccess _ => None | BFailure f => Some f end.

(** The flat form: the status, the message, the flag and the outputs. *)
Definition build_parts (i : BuildResultInner)
    : U16 * DaemonString * bool * BTreeMap OutputName UnkeyedRealisation :=
  match i with
  | BSuccess s => (uint (discriminant (bs_status s)), mk_Bytes [], false, bs_built_outputs s)
  | BFailure f =>
      (uint (discriminant (bf_status f)), bf_error_msg f, bf_is_non_deterministic f, mk_map [])
  end.

Definition build_inner (status_raw : U16) (error_msg : DaemonString) (is_non_deterministic : bool)
    (built_outputs : BTreeMap OutputName UnkeyedRealisation) : res io_error BuildResultInner :=
  match from_discriminant (T:=SuccessStatus) (uint_val status_raw) with
  | Some status => Ok (BSuccess (mk_BuildResultSuccess status built_outputs))
  | None =>
      match from_discriminant (T:=FailureStatus) (uint_val status_raw) with
      | Some status => Ok (BFailure (mk_BuildResultFailure status error_msg is_non_deterministic))
      | None => Err (InvalidData "invalid build status")
      end
  end.

#[export] Instance BuildResult_serialize : NixSerialize BuildResult := λ S HW v,
  let '(status_raw, error_msg, is_non_deterministic, built_outputs) := build_parts (bres_inner v) in
  _ ← write_value status_raw; _ ← write_value error_msg; _ ← write_value (bres_times_built v);
  _ ← write_value is_non_deterministic; _ ← write_value (bres_start_time v);
  _ ← write_value (bres_stop_time v); _ ← write_value (bres_cpu_user v);
  _ ← write_value (bres_cpu_system v); write_value built_outputs.

#[export] Instance BuildResult_deserialize : NixDeserialize BuildResult := λ S HR,
  io_first (try_read_value U16) (λ status_raw,
    error_msg ← read_value DaemonString; times_built ← read_value DaemonInt;
    is_non_deterministic ← read_value bool; start_time ← read_value DaemonTime;
    stop_time ← read_value DaemonTime; cpu_user ← read_value (option Microseconds);
    cpu_system ← read_value (option Microseconds);
    built_outputs ← read_value (BTreeMap OutputName UnkeyedRealisation);
    inner ← io_lift (build_inner status_raw error_msg is_non_deterministic built_outputs);
    mret (mk_BuildResult inner times_built start_time stop_time cpu_user cpu_system)).

(** The two status types share no number, so the flat form is injective. *)
Lemma build_inner_parts i :
  let '(status, msg, nd, outputs) := build_parts i in build_inner status msg nd outputs = Ok i.
Proof.
  destruct i as [[st outs]|[st msg nd]]; unfold build_parts, build_inner; cbn [uint_val bs_status bf_status].
  - by rewrite from_discriminant_eq.
  - replace (from_discriminant (T:=SuccessStatus) (discriminant st)) with (@None SuccessStatus)
      by (by destruct st). by rewrite from_discriminant_eq.
Qed.

Lemma build_status_ok E i : codec_ok E (build_parts i).1.1.1.
Proof. destruct i as [[[] ?]|[[] ? ?]]; by vm_compute. Qed.

#[export] Program Instance BuildResult_codec : NixCodec BuildResult := {|
  codec_ok E v :=
    let '(_, error_msg, is_non_deterministic, built_outputs) := build_parts (bres_inner v) in
    codec_ok E error_msg ∧ codec_ok E (bres_times_built v) ∧ codec_ok E is_non_deterministic ∧
    codec_ok E (bres_start_time v) ∧ codec_ok E (bres_stop_time v) ∧ codec_ok E (bres_cpu_user v) ∧
    codec_ok E (bres_cpu_system v) ∧ codec_ok E built_outputs;
  codec_bytes E v :=
    let '(status_raw, error_msg, is_non_deterministic, built_outputs) := build_parts (bres_inner v) in
    codec_bytes E status_raw ++ codec_bytes E error_msg ++ codec_bytes E (bres_times_built v) ++
    codec_bytes E is_non_deterministic ++ codec_bytes E (bres_start_time v) ++
    codec_bytes E (bres_stop_time v) ++ codec_bytes E (bres_cpu_user v) ++
    codec_bytes E (bres_cpu_system v) ++ codec_bytes E built_outputs
|}.
Next Obligation.
  intros E v Hv S HW HWL. cbv beta in *. unfold serialize, BuildResult_serialize.
  pose proof (build_status_ok E (bres_inner v)) as Hst.
  destruct (build_parts (bres_inner v)) as [[[st msg] nd] outs]. destruct_and?. writes_fields.
Qed.
Next Obligation.
  intros E v Hv S HR HRL. cbv beta in *. unfold try_deserialize, BuildResult_deserialize.
  pose proof (build_status_ok E (bres_inner v)) as Hst. pose proof (build_inner_parts (bres_inner v)) as Hi.
  destruct (build_parts (bres_inner v)) as [[[st msg] nd] outs]. destruct_and?. destruct v.
  eapply reads_first; [by apply reads_try_value|].
  repeat (eapply reads_bind; [by apply reads_value|]). eapply reads_bind_nil; [by apply reads_value|].
  eapply reads_bind_nil; [by apply reads_lift|apply reads_ret].
Qed.

Record KeyedBuildResult : Type := mk_KeyedBuildResult {
  kb_path : DerivedPath;
  kb_result : BuildResult
}.

#[export] Instance KeyedBuildResult_serialize : NixSerialize KeyedBuildResult := λ S HW v,
  _ ← write_value (kb_path v); write_value (kb_result v).

#[export] Instance KeyedBuildResult_deserialize : NixDeserialize KeyedBuildResult := λ S HR,
  io_first (try_read_value DerivedPath) (λ kb_path',
    kb_result' ← read_value BuildResult; mret (mk_KeyedBuildResult kb_path' kb_result')).

#[export] Program Instance KeyedBuildResult_codec : NixCodec KeyedBuildResult := {|
  codec_ok E v := codec_ok E (kb_path v) ∧ codec_ok E (kb_result v);
  codec_bytes E v := codec_bytes E (kb_path v) ++ codec_bytes E (kb_result v)
|}.
Next Obligation. solve_writes KeyedBuildResult_serialize. Qed.
Next Obligation. solve_reads KeyedBuildResult_deserialize. Qed.

End messages.
