(* ===== verification/Derivations.v ===== *)
(** Derivations on the wire: the instances for [(StorePath, BasicDerivation)]
    and for the outputs of a derivation
    ([harmonia-protocol/src/store_impls.rs]), with the types of
    [harmonia-store-core/src/derivation]. *)

From stdpp Require Import base list numbers strings.
From Stdlib Require Import ZArith Lia Strings.Byte.
From S2P Require Import Prelude Async Wire Sink ProtoRead Framed Version BaseEncoding Codecs Hash StorePath ContentAddress Signature DerivedPath NixIO NixCodec WireTypes Messages.

#[local] Unset Program Cases.

Inductive DerivationOutput : Type :=
| InputAddressed (p : StorePath)
| CAFixed (ca : ContentAddress)
| Deferred
| CAFloating (m : ContentAddressMethodAlgorithm)
| Impure (m : ContentAddressMethodAlgorithm).

(** [serde_json]'s map of attributes. *)
Class StructuredAttrsLib : Type := StructuredAttrs : Type.

Section derivations.
Context {DE : DataEncoding} {DG : DigestLib} {SA : StructuredAttrsLib} {SZ_Bytes : SizeOf Bytes}.

Record BasicDerivation : Type := mk_BasicDerivation {
  bd_name : StorePathName;
  bd_outputs : BTreeMap OutputName DerivationOutput;
  bd_inputs : BTreeSet StorePath;
  bd_platform : Bytes;
  bd_builder : Bytes;
  bd_args : list Bytes;
  bd_env : BTreeMap Bytes Bytes;
  bd_structured_attrs : option StructuredAttrs
}.

(** [write_value] of a string literal. *)
Definition write_str {S} {HW : NixWrite S} (s : string) : io S unit :=
  write_value (mk_String (str s)).

Definition write_derivation_output {S} {HW : NixWrite S} (output : DerivationOutput)
    (drv_name : StorePathName) (output_name : OutputName) : io S unit :=
  match output with
  | InputAddressed store_path =>
      _ ← write_value store_path; _ ← write_str ""; write_str ""
  | CAFixed ca =>
      name ← io_lift (invalid_data (StorePathName_try_from (output_path_name drv_name output_name)));
      dir ← io_gets w_store_dir;
      path ← io_lift (unwrap (make_store_path_from_ca dir name ca));
      _ ← write_value path;
      _ ← write_value (CA_method_algorithm ca);
      h ← io_lift (CA_hash ca);
      write_text (Base32_fmt true h)
  | Deferred => _ ← write_str ""; _ ← write_str ""; write_str ""
  | CAFloating algo => _ ← write_str ""; _ ← write_value algo; write_str ""
  | Impure algo => _ ← write_str ""; _ ← write_value algo; write_str "impure"
  end.

(** What the three strings say. *)
Definition parse_output {S} {HR : NixRead S} (store_path_str method_str hash_str : bytes)
    : io S DerivationOutput :=
  if decide (hash_str = str "impure") then
    algo ← io_lift (invalid_data (MA_from_str method_str)); mret (Impure algo)
  else if decide (store_path_str = [] ∧ method_str ≠ []) then
    algo ← io_lift (invalid_data (MA_from_str method_str)); mret (CAFloating algo)
  else if decide (store_path_str = [] ∧ method_str = [] ∧ hash_str = []) then mret Deferred
  else if decide (method_str = [] ∧ hash_str = []) then
    store_path ← parse_text store_path_str; mret (InputAddressed store_path)
  else
    method_algo ← io_lift (invalid_data (MA_from_str method_str));
    hash ← io_lift (invalid_data (Base32_from_str (H:=Hash) hash_str));
    ca ← io_lift (invalid_data (CA_from_hash (MA_method method_algo) hash));
    mret (CAFixed ca).

Definition read_derivation_output {S} {HR : NixRead S} : io S DerivationOutput :=
  store_path_str ← read_value RString;
  method_str ← read_value RString;
  hash_str ← read_value RString;
  parse_output (string_val store_path_str) (string_val method_str) (string_val hash_str).

Fixpoint write_outputs {S} {HW : NixWrite S} (drv_name : StorePathName)
    (l : list (OutputName * DerivationOutput)) : io S unit :=
  match l with
  | [] => mret tt
  | (output_name, output) :: l =>
      _ ← write_value output_name;
      _ ← write_derivation_output output drv_name output_name;
      write_outputs drv_name l
  end.

#[export] Instance BasicDerivation_serialize : NixSerialize (StorePath * BasicDerivation) := λ S HW v,
  let '(drv_path, drv) := v in
  _ ← write_value drv_path;
  _ ← write_value (len_usize (entries (bd_outputs drv)));
  _ ← write_outputs (bd_name drv) (entries (bd_outputs drv));
  _ ← write_value (bd_inputs drv);
  _ ← write_value (bd_platform drv);
  _ ← write_value (bd_builder drv);
  _ ← write_value (bd_args drv);
  write_value (bd_env drv).

#[export] Instance BasicDerivation_deserialize : NixDeserialize (StorePath * BasicDerivation) := λ S HR,
  io_first (try_read_value StorePath) (λ drv_path,
    outputs_len ← read_value usize;
    outputs ← read_n (Z.to_nat (uint_val outputs_len))
      (output_name ← read_value OutputName; output ← read_derivation_output;
       mret (output_name, output));
    inputs ← read_value (BTreeSet StorePath);
    platform ← read_value Bytes;
    builder ← read_value Bytes;
    args ← read_value (list Bytes);
    env ← read_value (BTreeMap Bytes Bytes);
    mret (drv_path, mk_BasicDerivation (sp_name drv_path)
      (mk_map (fold_left (λ m kv, insert_entry kv.1 kv.2 m) outputs []))
      inputs platform builder args env None)).

(** ** The outputs that can be read *)

Context {DL : DataEncodingLaws}.

Definition output_strings (E : env) (o : DerivationOutput) : bytes * bytes * bytes :=
  match o with
  | InputAddressed p => (text_of (e_dir E) p, [], [])
  | CAFixed _ => ([], [], [])
  | Deferred => ([], [], [])
  | CAFloating m => ([], MA_to_string m, [])
  | Impure m => ([], MA_to_string m, str "impure")
  end.

Definition output_bytes (E : env) (o : DerivationOutput) : bytes :=
  let '(p, m, h) := output_strings E o in put_nix_slice p ++ put_nix_slice m ++ put_nix_slice h.

Definition output_wire_ok (E : env) (o : DerivationOutput) : Prop :=
  (8 ≤ e_limit E)%Z ∧
  match o with
  | InputAddressed p => codec_ok E p
  | CAFixed _ => False
  | Deferred => True
  | CAFloating m | Impure m => codec_ok E m
  end.

Lemma writes_str {S} {HW : NixWrite S} {HWL : NixWriteLaws S} E s :
  length (str s) < 8 → writes E (write_str s) (put_nix_slice (str s)).
Proof using Type. intros Hl. apply writes_slice. unfold is_u64, u64_modulus. lia. Qed.

Lemma writes_output {S} {HW : NixWrite S} {HWL : NixWriteLaws S} E o drv_name name :
  output_wire_ok E o → writes E (write_derivation_output o drv_name name) (output_bytes E o).
Proof using DL.
  intros [Hl Ho]. destruct o as [p|ca| |m|m]; [|done|..]; unfold output_bytes; cbn [output_strings].
  all: repeat (apply writes_bind; [first [exact (writes_value E _ Ho)
    | apply (writes_str E ""); cbn; lia]|]).
  all: first [apply (writes_str E ""); cbn; lia | apply (writes_str E "impure"); cbn; lia].
Qed.

Lemma parse_output_strings {S} {HR : NixRead S} {HRL : NixReadLaws S} E o :
  output_wire_ok E o →
  let '(p, m, h) := output_strings E o in reads E (parse_output p m h) [] o.
Proof using DL.
  intros [Hl Ho]. destruct o as [p|ca| |m|m]; [|done|..]; cbn [output_strings]; unfold parse_output.
  - pose proof (text_of_nonempty (e_dir E) p (proj1 (proj2 Ho))).
    rewrite decide_False by done. rewrite !decide_False by naive_solver. rewrite decide_True by done.
    eapply reads_bind_nil; [by apply reads_parse_text|apply reads_ret].
  - repeat (rewrite decide_False by naive_solver). rewrite decide_True by done. apply reads_ret.
  - assert (MA_to_string m ≠ []) by (by destruct m as [|[]|[]]).
    rewrite decide_False by done. rewrite decide_True by done.
    eapply reads_bind_nil; [apply reads_lift; by rewrite MA_from_to_string|apply reads_ret].
  - rewrite decide_True by done.
    eapply reads_bind_nil; [apply reads_lift; by rewrite MA_from_to_string|apply reads_ret].
Qed.

Lemma output_strings_ok E o : output_wire_ok E o →
  let '(p, m, h) := output_strings E o in
  codec_ok E (mk_String p) ∧ codec_ok E (mk_String m) ∧ codec_ok E (mk_String h).
Proof using DL.
  intros [Hl Ho].
  assert (∀ s : string, length (str s) < 8 → is_utf8 (str s) = true → codec_ok E (mk_String (str s))) as Hs.
  { intros s Hn Hu. split; [|done]. split; [|cbn; lia]. unfold alignable, u64_max. cbn. lia. }
  assert (∀ t, text_ok E t → codec_ok E (mk_String t)) as Ht by (intros t (Hb & Hu & _); by split).
  assert (codec_ok E (mk_String [])) as H0 by (apply (Hs EmptyString); [cbn; lia|done]).
  destruct o as [p|ca| |m|m]; [|done|..]; cbn [output_strings]; split_and?; try done.
  - apply Ht, Ho.
  - apply Ht, Ho.
  - apply Ht, Ho.
  - apply (Hs "impure"%string); [cbn; lia|done].
Qed.

Lemma reads_output {S} {HR : NixRead S} {HRL : NixReadLaws S} E o :
  output_wire_ok E o → reads E read_derivation_output (output_bytes E o) o.
Proof using DL.
  intros Ho. pose proof (parse_output_strings (S:=S) E o Ho) as Hp.
  pose proof (output_strings_ok E o Ho) as Hok. unfold output_bytes.
  destruct (output_strings E o) as [[p m] h]. destruct Hok as (Hp' & Hm & Hh).
  eapply reads_bind; [exact (reads_value E _ Hp')|]. eapply reads_bind; [exact (reads_value E _ Hm)|].
  eapply reads_bind_nil; [exact (reads_value E _ Hh)|exact Hp].
Qed.

Definition entry_ok (E : env) (kv : OutputName * DerivationOutput) : Prop :=
  codec_ok E kv.1 ∧ output_wire_ok E kv.2.
Definition entry_bytes (E : env) (kv : OutputName * DerivationOutput) : bytes :=
  codec_bytes E kv.1 ++ output_bytes E kv.2.

Lemma writes_outputs {S} {HW : NixWrite S} {HWL : NixWriteLaws S} E drv_name l :
  Forall (entry_ok E) l → writes E (write_outputs drv_name l) (concat (entry_bytes E <$> l)).
Proof using DL.
  induction 1 as [|[k o] l [Hk Ho] _ IH]; [apply writes_ret|].
  cbn [fmap list_fmap concat]. unfold entry_bytes at 1. rewrite <-app_assoc.
  apply writes_bind; [exact (writes_value E k Hk)|].
  apply writes_bind; [exact (writes_output E o _ _ Ho)|exact IH].
Qed.

Lemma reads_outputs {S} {HR : NixRead S} {HRL : NixReadLaws S} E l :
  Forall (entry_ok E) l →
  reads E (read_n (length l) (output_name ← read_value OutputName; output ← read_derivation_output;
             mret (output_name, output))) (concat (entry_bytes E <$> l)) l.
Proof using DL.
  intros Hl. apply reads_n. induction Hl as [|[k o] l [Hk Ho] _ IH]; cbn; constructor; [|done].
  eapply reads_bind; [exact (reads_value E k Hk)|].
  eapply reads_bind_nil; [exact (reads_output E o Ho)|apply reads_ret].
Qed.

#[export] Program Instance BasicDerivation_codec : NixCodec (StorePath * BasicDerivation) := {|
  codec_ok E v :=
    codec_ok E v.1 ∧ bd_name v.2 = sp_name v.1 ∧ bd_structured_attrs v.2 = None ∧
    len_ok (entries (bd_outputs v.2)) ∧ ascending (fst <$> entries (bd_outputs v.2)) ∧
    Forall (entry_ok E) (entries (bd_outputs v.2)) ∧
    codec_ok E (bd_inputs v.2) ∧ codec_ok E (bd_platform v.2) ∧ codec_ok E (bd_builder v.2) ∧
    codec_ok E (bd_args v.2) ∧ codec_ok E (bd_env v.2);
  codec_bytes E v :=
    codec_bytes E v.1 ++ codec_bytes E (len_usize (entries (bd_outputs v.2))) ++
    concat (entry_bytes E <$> entries (bd_outputs v.2)) ++
    codec_bytes E (bd_inputs v.2) ++ codec_bytes E (bd_platform v.2) ++
    codec_bytes E (bd_builder v.2) ++ codec_bytes E (bd_args v.2) ++ codec_bytes E (bd_env v.2)
|}.
Next Obligation.
  intros E [path drv] Hv S HW HWL. cbv beta in *. cbn [fst snd] in *. destruct_and?.
  unfold serialize, BasicDerivation_serialize.
  apply writes_bind; [by apply writes_value|].
  apply writes_bind; [by apply writes_value, len_usize_ok|].
  apply writes_bind; [by apply writes_outputs|]. writes_fields.
Qed.
Next Obligation.
  intros E [path [name [outputs] inputs platform builder args env attrs]] Hv S HR HRL.
  cbv beta in *.
  cbn [fst snd bd_name bd_outputs bd_inputs bd_platform bd_builder bd_args bd_env bd_structured_attrs
       entries] in *.
  destruct Hv as (Hp & -> & -> & Hl & Hs & Ho & Hv). destruct_and?.
  eapply reads_first; [by apply reads_try_value|].
  eapply reads_bind; [by apply reads_value, len_usize_ok|]. rewrite len_usize_nat.
  eapply reads_bind; [by apply reads_outputs|]. rewrite insert_entries_sorted by done. reads_fields.
Qed.

(** ** Fixed outputs

    The strings the writer sends for a fixed output: the hash is bare. *)

Context {DGL : DigestLaws}.

Definition fixed_path (E : env) (ca : ContentAddress) (drv_name : StorePathName) (name : OutputName)
    : StorePath := ca_path (e_dir E) (mk_spn (output_path_name drv_name name)) ca.

Definition fixed_hash (ca : ContentAddress) : bytes :=
  match ca with
  | CText h => encoded NixBase32 (sha256_data h)
  | CFlat h | CRecursive h => encoded NixBase32 (Hash_digest_bytes h)
  end.

Lemma CA_hash_fmt ca : CA_wf ca →
  ∃ h, CA_hash (E:=io_error) ca = Ok h ∧ Base32_fmt true h = Ok (fixed_hash ca).
Proof using DL.
  intros Hca. assert (∀ h : Hash, Hash_wf h →
    Base32_fmt true h = Ok (encoded NixBase32 (Hash_digest_bytes h))) as Hf
    by (intros h Hh; exact (display_eq (CL:=Hash_laws) NixBase32 true h Hh)).
  destruct ca as [h|h|h]; cbn [CA_wf CA_hash fixed_hash] in *; [|by exists h; auto..].
  destruct (Hash_new_digest (E:=io_error) SHA256 (sha256_data h) Hca) as (g & Hg & _ & Hd & Hwf).
  exists g. split; [exact Hg|]. by rewrite Hf, Hd.
Qed.

Lemma fixed_hash_plain ca : (":"%byte ∉ fixed_hash ca).
Proof using DL. destruct ca; apply encoded_plain. Qed.

Lemma fixed_hash_length ca : CA_wf ca → 16 ≤ length (fixed_hash ca).
Proof using DL.
  intros Hca. assert (∀ a, 16 ≤ input_len NixBase32 (size a)) as Ha by (intros []; vm_compute; lia).
  destruct ca as [h|h|h]; cbn [fixed_hash CA_wf] in *; rewrite length_encoded.
  - rewrite Hca. apply Ha.
  - pose proof (length_digest (CommonHashLaws:=Hash_laws) h Hca) as Hl. cbn in Hl. rewrite Hl. apply Ha.
  - pose proof (length_digest (CommonHashLaws:=Hash_laws) h Hca) as Hl. cbn in Hl. rewrite Hl. apply Ha.
Qed.

Definition fixed_ok (E : env) (ca : ContentAddress) (drv_name : StorePathName) (name : OutputName)
    : Prop :=
  CA_wf ca ∧ name_ok (output_path_name drv_name name) ∧ codec_ok E (fixed_path E ca drv_name name) ∧
  codec_ok E (CA_method_algorithm ca) ∧ text_ok E (fixed_hash ca).

Lemma writes_fixed {S} {HW : NixWrite S} {HWL : NixWriteLaws S} E ca drv_name name :
  fixed_ok E ca drv_name name →
  writes E (write_derivation_output (CAFixed ca) drv_name name)
    (put_nix_slice (text_of (e_dir E) (fixed_path E ca drv_name name)) ++
     put_nix_slice (MA_to_string (CA_method_algorithm ca)) ++ put_nix_slice (fixed_hash ca)).
Proof using DGL DL.
  intros (Hca & Hn & Hp & Hm & Hh) s d Hs He.
  destruct (make_store_path_eq (e_dir E) (mk_spn (output_path_name drv_name name)) ca Hca Hn) as [Hmk _].
  destruct (CA_hash_fmt ca Hca) as (h & Ech & Ef).
  unfold write_derivation_output, StorePathName_try_from. rewrite into_name_ok by done.
  unfold io_lift at 1, mbind at 1, io_bind at 1. cbn [fmap res_fmap invalid_data map_err].
  revert s d Hs He. apply writes_store_dir.
  intros s d Hs He. unfold io_lift at 1, mbind at 1, io_bind at 1. rewrite Hmk. cbn [unwrap].
  revert s d Hs He. apply writes_bind; [exact (writes_value E _ Hp)|].
  apply writes_bind; [exact (writes_value E _ Hm)|].
  intros s d Hs He. unfold io_lift, mbind, io_bind. rewrite Ech, Ef.
  revert s d Hs He. apply writes_text, Hh.
Qed.

(** ** Properties *)

(** Reading a derivation gives it the name of its path, suffix included, and
    no structured attributes. *)
Lemma read_derivation_name {S} {HR : NixRead S} (s s' : S) path drv :
  try_read_value (StorePath * BasicDerivation) s = (s', Ok (Some (path, drv))) →
  bd_name drv = sp_name path ∧ bd_structured_attrs drv = None.
Proof using Type.
  intros (s1 & p & _ & H)%io_first_inv.
  repeat (apply io_bind_inv in H as (? & ? & _ & H)). by injection H as <- <- <-.
Qed.

(** A fixed output does not survive the wire: the writer sends its hash
    bare, the reader expects the algorithm in front of it. So what is written
    for a well-formed content address, by any writer and whatever follows, is
    refused as invalid data by any reader. *)
Theorem ca_fixed_unreadable (E : env) (ca : ContentAddress) (drv_name : StorePathName)
    (name : OutputName) :
  fixed_ok E ca drv_name name →
  ∃ bs,
    (∀ S (HW : NixWrite S) (HWL : NixWriteLaws S),
       writes E (write_derivation_output (CAFixed ca) drv_name name) bs) ∧
    (∀ S (HR : NixRead S) (HRL : NixReadLaws S) (s : S) (tl : bytes),
       nr_inv s → r_env E s → nr_rest s = bs ++ tl →
       (read_derivation_output s).2 = Err (InvalidData "invalid data")).
Proof using DGL DL.
  intros Hok. eexists. split; [intros; by apply writes_fixed|].
  destruct Hok as (Hca & _ & Hp & Hm & Hh). intros S HR HRL s tl Hs He Hr.
  assert (∀ t, text_ok E t → codec_ok E (mk_String t)) as Ht by (intros t (Hb & Hu & _); by split).
  rewrite <-!app_assoc in Hr.
  destruct (reads_value E (mk_String _) (Ht _ (proj2 (proj2 Hp))) s _ Hs He Hr) as (s1 & E1 & Hs1 & He1 & Hr1).
  destruct (reads_value E (mk_String _) (Ht _ (proj2 (proj2 Hm))) s1 _ Hs1 He1 Hr1) as (s2 & E2 & Hs2 & He2 & Hr2).
  destruct (reads_value E (mk_String _) (Ht _ Hh) s2 _ Hs2 He2 Hr2) as (s3 & E3 & _).
  unfold read_derivation_output.
  rewrite (io_bind_Ok _ _ _ _ _ E1), (io_bind_Ok _ _ _ _ _ E2), (io_bind_Ok _ _ _ _ _ E3).
  cbn [string_val]. unfold parse_output.
  pose proof (fixed_hash_plain ca) as Hplain. pose proof (fixed_hash_length ca Hca) as Hlen.
  pose proof (text_of_nonempty (e_dir E) _ (proj1 (proj2 Hp))).
  rewrite decide_False by (intros Heq; rewrite Heq in Hlen; cbn in Hlen; lia).
  rewrite !decide_False by naive_solver.
  rewrite decide_False by (intros [_ Heq]; rewrite Heq in Hlen; cbn in Hlen; lia).
  rewrite MA_from_to_string. unfold Base32_from_str. by rewrite split_once_None.
Qed.
End derivations.

(** ** Concrete uses *)

#[local] Existing Instance prefix_lib.
#[local] Existing Instance prefix_laws.

Definition wide_env : env := mk_env PROTOCOL_VERSION (str "/nix/store") 8192 4096.

Lemma small_text_ok E t :
  (e_limit E = 8192)%Z → e_room E = 4096 → length t ≤ 4096 → is_utf8 t = true → text_ok E t.
Proof.
  intros He Hr Hl Hu. split; [|split; [done|lia]].
  split; [unfold alignable, u64_max|]; lia.
Qed.

Lemma ca_fixed_unreadable_witness :
  ∃ bs,
    (∀ S (HW : NixWrite S) (HWL : NixWriteLaws S),
       writes wide_env (write_derivation_output (CAFixed sample_ca) sample_name (mk_output (str "out"))) bs) ∧
    (∀ S (HR : NixRead S) (HRL : NixReadLaws S) (s : S) (tl : bytes),
       nr_inv s → r_env wide_env s → nr_rest s = bs ++ tl →
       (read_derivation_output s).2 = Err (InvalidData "invalid data")).
Proof.
  apply (ca_fixed_unreadable wide_env sample_ca sample_name (mk_output (str "out"))).
  pose proof sample_name_ok. split; [reflexivity|]. split; [done|].
  split; [split; [reflexivity|]; split|].
  - by apply make_store_path_eq.
  - apply small_text_ok; [done|done|vm_compute; lia|vm_compute; reflexivity].
  - split; [split; [reflexivity|]; split; [done|]|];
      apply small_text_ok; done || (vm_compute; lia) || (vm_compute; reflexivity).
Defined.
