(* ===== verification/Requests.v ===== *)
(** The requests of the daemon protocol ([harmonia-protocol/src/daemon_wire/types2.rs]):
    a number for the operation, then its arguments. *)

From stdpp Require Import base list numbers strings.
From Stdlib Require Import ZArith Lia Strings.Byte.
From S2P Require Import Prelude Async Wire Sink ProtoRead Framed Version BaseEncoding Codecs Hash StorePath ContentAddress Signature DerivedPath NixIO NixCodec WireTypes Messages Derivations.

#[local] Unset Program Cases.

Section requests.
Context {DE : DataEncoding} {DL : DataEncodingLaws} {DG : DigestLib} {SA : StructuredAttrsLib}.
Context {SZ_Bytes : SizeOf Bytes} {SZ_DerivedPath : SizeOf DerivedPath} {SZ_Signature : SizeOf Signature}.

Record BuildDerivationRequest : Type := mk_BuildDerivationRequest {
  bd_drv : StorePath * BasicDerivation;
  bd_mode : BuildMode
}.

#[export] Instance BuildDerivationRequest_serialize : NixSerialize BuildDerivationRequest := λ S HW v,
  _ ← write_value (bd_drv v); write_value (bd_mode v).

#[export] Instance BuildDerivationRequest_deserialize : NixDeserialize BuildDerivationRequest := λ S HR,
  io_first (try_read_value (StorePath * BasicDerivation)) (λ bd_drv',
    bd_mode' ← read_value BuildMode; mret (mk_BuildDerivationRequest bd_drv' bd_mode')).

#[export] Program Instance BuildDerivationRequest_codec : NixCodec BuildDerivationRequest := {|
  codec_ok E v := codec_ok E (bd_drv v) ∧ codec_ok E (bd_mode v);
  codec_bytes E v := codec_bytes E (bd_drv v) ++ codec_bytes E (bd_mode v)
|}.
Next Obligation. solve_writes BuildDerivationRequest_serialize. Qed.
Next Obligation. solve_reads BuildDerivationRequest_deserialize. Qed.

Inductive Request : Type :=
| RqIsValidPath (a : StorePath)
| RqQueryReferrers (a : StorePath)
| RqAddToStore (a : AddToStoreRequest)
| RqBuildPaths (a : BuildPathsRequest)
| RqEnsurePath (a : StorePath)
| RqAddTempRoot (a : StorePath)
| RqAddIndirectRoot (a : DaemonPath)
| RqFindRoots
| RqSetOptions (a : ClientOptions)
| RqCollectGarbage (a : CollectGarbageRequest)
| RqQueryAllValidPaths
| RqQueryPathInfo (a : StorePath)
| RqQueryPathFromHashPart (a : StorePathHash)
| RqQueryValidPaths (a : QueryValidPathsRequest)
| RqQuerySubstitutablePaths (a : BTreeSet StorePath)
| RqQueryValidDerivers (a : StorePath)
| RqOptimiseStore
| RqVerifyStore (a : VerifyStoreRequest)
| RqBuildDerivation (a : BuildDerivationRequest)
| RqAddSignatures (a : AddSignaturesRequest)
| RqNarFromPath (a : StorePath)
| RqAddToStoreNar (a : AddToStoreNarRequest)
| RqQueryMissing (a : list DerivedPath)
| RqQueryDerivationOutputMap (a : StorePath)
| RqRegisterDrvOutput (a : Realisation)
| RqQueryRealisation (a : DrvOutput)
| RqAddMultipleToStore (a : AddMultipleToStoreRequest)
| RqAddBuildLog (a : BaseStorePath)
| RqBuildPathsWithResults (a : BuildPathsRequest)
| RqAddPermRoot (a : AddPermRootRequest).

Definition operation (r : Request) : Operation :=
  match r with
  | RqIsValidPath _ => OpIsValidPath
  | RqQueryReferrers _ => OpQueryReferrers
  | RqAddToStore _ => OpAddToStore
  | RqBuildPaths _ => OpBuildPaths
  | RqEnsurePath _ => OpEnsurePath
  | RqAddTempRoot _ => OpAddTempRoot
  | RqAddIndirectRoot _ => OpAddIndirectRoot
  | RqFindRoots => OpFindRoots
  | RqSetOptions _ => OpSetOptions
  | RqCollectGarbage _ => OpCollectGarbage
  | RqQueryAllValidPaths => OpQueryAllValidPaths
  | RqQueryPathInfo _ => OpQueryPathInfo
  | RqQueryPathFromHashPart _ => OpQueryPathFromHashPart
  | RqQueryValidPaths _ => OpQueryValidPaths
  | RqQuerySubstitutablePaths _ => OpQuerySubstitutablePaths
  | RqQueryValidDerivers _ => OpQueryValidDerivers
  | RqOptimiseStore => OpOptimiseStore
  | RqVerifyStore _ => OpVerifyStore
  | RqBuildDerivation _ => OpBuildDerivation
  | RqAddSignatures _ => OpAddSignatures
  | RqNarFromPath _ => OpNarFromPath
  | RqAddToStoreNar _ => OpAddToStoreNar
  | RqQueryMissing _ => OpQueryMissing
  | RqQueryDerivationOutputMap _ => OpQueryDerivationOutputMap
  | RqRegisterDrvOutput _ => OpRegisterDrvOutput
  | RqQueryRealisation _ => OpQueryRealisation
  | RqAddMultipleToStore _ => OpAddMultipleToStore
  | RqAddBuildLog _ => OpAddBuildLog
  | RqBuildPathsWithResults _ => OpBuildPathsWithResults
  | RqAddPermRoot _ => OpAddPermRoot
  end.

(** The derived implementations for an enumeration with a tag. *)
#[export] Instance Request_serialize : NixSerialize Request := λ S HW r,
  match r with
  | RqIsValidPath a => _ ← write_value OpIsValidPath; write_value a
  | RqQueryReferrers a => _ ← write_value OpQueryReferrers; write_value a
  | RqAddToStore a => _ ← write_value OpAddToStore; write_value a
  | RqBuildPaths a => _ ← write_value OpBuildPaths; write_value a
  | RqEnsurePath a => _ ← write_value OpEnsurePath; write_value a
  | RqAddTempRoot a => _ ← write_value OpAddTempRoot; write_value a
  | RqAddIndirectRoot a => _ ← write_value OpAddIndirectRoot; write_value a
  | RqFindRoots => write_value OpFindRoots
  | RqSetOptions a => _ ← write_value OpSetOptions; write_value a
  | RqCollectGarbage a => _ ← write_value OpCollectGarbage; write_value a
  | RqQueryAllValidPaths => write_value OpQueryAllValidPaths
  | RqQueryPathInfo a => _ ← write_value OpQueryPathInfo; write_value a
  | RqQueryPathFromHashPart a => _ ← write_value OpQueryPathFromHashPart; write_value a
  | RqQueryValidPaths a => _ ← write_value OpQueryValidPaths; write_value a
  | RqQuerySubstitutablePaths a => _ ← write_value OpQuerySubstitutablePaths; write_value a
  | RqQueryValidDerivers a => _ ← write_value OpQueryValidDerivers; write_value a
  | RqOptimiseStore => write_value OpOptimiseStore
  | RqVerifyStore a => _ ← write_value OpVerifyStore; write_value a
  | RqBuildDerivation a => _ ← write_value OpBuildDerivation; write_value a
  | RqAddSignatures a => _ ← write_value OpAddSignatures; write_value a
  | RqNarFromPath a => _ ← write_value OpNarFromPath; write_value a
  | RqAddToStoreNar a => _ ← write_value OpAddToStoreNar; write_value a
  | RqQueryMissing a => _ ← write_value OpQueryMissing; write_value a
  | RqQueryDerivationOutputMap a => _ ← write_value OpQueryDerivationOutputMap; write_value a
  | RqRegisterDrvOutput a => _ ← write_value OpRegisterDrvOutput; write_value a
  | RqQueryRealisation a => _ ← write_value OpQueryRealisation; write_value a
  | RqAddMultipleToStore a => _ ← write_value OpAddMultipleToStore; write_value a
  | RqAddBuildLog a => _ ← write_value OpAddBuildLog; write_value a
  | RqBuildPathsWithResults a => _ ← write_value OpBuildPathsWithResults; write_value a
  | RqAddPermRoot a => _ ← write_value OpAddPermRoot; write_value a
  end.

Definition read_request {S} {HR : NixRead S} (tag : Operation) : io S Request :=
  match tag with
  | OpIsValidPath => a ← read_value StorePath; mret (RqIsValidPath a)
  | OpQueryReferrers => a ← read_value StorePath; mret (RqQueryReferrers a)
  | OpAddToStore => a ← read_value AddToStoreRequest; mret (RqAddToStore a)
  | OpBuildPaths => a ← read_value BuildPathsRequest; mret (RqBuildPaths a)
  | OpEnsurePath => a ← read_value StorePath; mret (RqEnsurePath a)
  | OpAddTempRoot => a ← read_value StorePath; mret (RqAddTempRoot a)
  | OpAddIndirectRoot => a ← read_value DaemonPath; mret (RqAddIndirectRoot a)
  | OpFindRoots => mret RqFindRoots
  | OpSetOptions => a ← read_value ClientOptions; mret (RqSetOptions a)
  | OpCollectGarbage => a ← read_value CollectGarbageRequest; mret (RqCollectGarbage a)
  | OpQueryAllValidPaths => mret RqQueryAllValidPaths
  | OpQueryPathInfo => a ← read_value StorePath; mret (RqQueryPathInfo a)
  | OpQueryPathFromHashPart => a ← read_value StorePathHash; mret (RqQueryPathFromHashPart a)
  | OpQueryValidPaths => a ← read_value QueryValidPathsRequest; mret (RqQueryValidPaths a)
  | OpQuerySubstitutablePaths => a ← read_value (BTreeSet StorePath); mret (RqQuerySubstitutablePaths a)
  | OpQueryValidDerivers => a ← read_value StorePath; mret (RqQueryValidDerivers a)
  | OpOptimiseStore => mret RqOptimiseStore
  | OpVerifyStore => a ← read_value VerifyStoreRequest; mret (RqVerifyStore a)
  | OpBuildDerivation => a ← read_value BuildDerivationRequest; mret (RqBuildDerivation a)
  | OpAddSignatures => a ← read_value AddSignaturesRequest; mret (RqAddSignatures a)
  | OpNarFromPath => a ← read_value StorePath; mret (RqNarFromPath a)
  | OpAddToStoreNar => a ← read_value AddToStoreNarRequest; mret (RqAddToStoreNar a)
  | OpQueryMissing => a ← read_value (list DerivedPath); mret (RqQueryMissing a)
  | OpQueryDerivationOutputMap => a ← read_value StorePath; mret (RqQueryDerivationOutputMap a)
  | OpRegisterDrvOutput => a ← read_value Realisation; mret (RqRegisterDrvOutput a)
  | OpQueryRealisation => a ← read_value DrvOutput; mret (RqQueryRealisation a)
  | OpAddMultipleToStore => a ← read_value AddMultipleToStoreRequest; mret (RqAddMultipleToStore a)
  | OpAddBuildLog => a ← read_value BaseStorePath; mret (RqAddBuildLog a)
  | OpBuildPathsWithResults => a ← read_value BuildPathsRequest; mret (RqBuildPathsWithResults a)
  | OpAddPermRoot => a ← read_value AddPermRootRequest; mret (RqAddPermRoot a)
  end.

#[export] Instance Request_deserialize : NixDeserialize Request := λ S HR,
  io_first (try_read_value Operation) read_request.

Definition request_args_ok (E : env) (r : Request) : Prop :=
  match r with
  | RqIsValidPath a => codec_ok E a
  | RqQueryReferrers a => codec_ok E a
  | RqAddToStore a => codec_ok E a
  | RqBuildPaths a => codec_ok E a
  | RqEnsurePath a => codec_ok E a
  | RqAddTempRoot a => codec_ok E a
  | RqAddIndirectRoot a => codec_ok E a
  | RqFindRoots => True
  | RqSetOptions a => codec_ok E a
  | RqCollectGarbage a => codec_ok E a
  | RqQueryAllValidPaths => True
  | RqQueryPathInfo a => codec_ok E a
  | RqQueryPathFromHashPart a => codec_ok E a
  | RqQueryValidPaths a => codec_ok E a
  | RqQuerySubstitutablePaths a => codec_ok E a
  | RqQueryValidDerivers a => codec_ok E a
  | RqOptimiseStore => True
  | RqVerifyStore a => codec_ok E a
  | RqBuildDerivation a => codec_ok E a
  | RqAddSignatures a => codec_ok E a
  | RqNarFromPath a => codec_ok E a
  | RqAddToStoreNar a => codec_ok E a
  | RqQueryMissing a => codec_ok E a
  | RqQueryDerivationOutputMap a => codec_ok E a
  | RqRegisterDrvOutput a => codec_ok E a
  | RqQueryRealisation a => codec_ok E a
  | RqAddMultipleToStore a => codec_ok E a
  | RqAddBuildLog a => codec_ok E a
  | RqBuildPathsWithResults a => codec_ok E a
  | RqAddPermRoot a => codec_ok E a
  end.

Definition request_args (E : env) (r : Request) : bytes :=
  match r with
  | RqIsValidPath a => codec_bytes E a
  | RqQueryReferrers a => codec_bytes E a
  | RqAddToStore a => codec_bytes E a
  | RqBuildPaths a => codec_bytes E a
  | RqEnsurePath a => codec_bytes E a
  | RqAddTempRoot a => codec_bytes E a
  | RqAddIndirectRoot a => codec_bytes E a
  | RqFindRoots => []
  | RqSetOptions a => codec_bytes E a
  | RqCollectGarbage a => codec_bytes E a
  | RqQueryAllValidPaths => []
  | RqQueryPathInfo a => codec_bytes E a
  | RqQueryPathFromHashPart a => codec_bytes E a
  | RqQueryValidPaths a => codec_bytes E a
  | RqQuerySubstitutablePaths a => codec_bytes E a
  | RqQueryValidDerivers a => codec_bytes E a
  | RqOptimiseStore => []
  | RqVerifyStore a => codec_bytes E a
  | RqBuildDerivation a => codec_bytes E a
  | RqAddSignatures a => codec_bytes E a
  | RqNarFromPath a => codec_bytes E a
  | RqAddToStoreNar a => codec_bytes E a
  | RqQueryMissing a => codec_bytes E a
  | RqQueryDerivationOutputMap a => codec_bytes E a
  | RqRegisterDrvOutput a => codec_bytes E a
  | RqQueryRealisation a => codec_bytes E a
  | RqAddMultipleToStore a => codec_bytes E a
  | RqAddBuildLog a => codec_bytes E a
  | RqBuildPathsWithResults a => codec_bytes E a
  | RqAddPermRoot a => codec_bytes E a
  end.

Lemma operation_ok E (op : Operation) : codec_ok E op.
Proof using Type. by destruct op. Qed.

#[export] Program Instance Request_codec : NixCodec Request := {|
  codec_ok := request_args_ok;
  codec_bytes E r := codec_bytes E (operation r) ++ request_args E r
|}.
Next Obligation.
  intros E r Hr S HW HWL. destruct r; cbn [request_args_ok operation request_args] in *;
    first [apply writes_bind; [apply writes_value, operation_ok|by apply writes_value]
          |rewrite app_nil_r; apply writes_value, operation_ok].
Qed.
Next Obligation.
  intros E r Hr S HR HRL. eapply reads_first; [apply reads_try_value, operation_ok|].
  destruct r; cbn [request_args_ok operation request_args read_request] in *;
    first [eapply reads_bind_nil; [by apply reads_value|apply reads_ret]|apply reads_ret].
Qed.
End requests.
