(* ===== verification/Logger.v ===== *)
(** The log stream of the daemon: log messages and errors on the wire
    ([harmonia-protocol/src/log.rs], [daemon_wire/logger.rs],
    [store_impls.rs]), the errors of the daemon ([types.rs]) and the loop that
    reads log messages up to the result ([ProcessStderr]). *)

From stdpp Require Import base list numbers strings.
From Stdlib Require Import ZArith Lia Strings.Byte.
From S2P Require Import Prelude Async Wire Sink ProtoRead Framed Version BaseEncoding Hash StorePath ContentAddress Signature DerivedPath NixIO NixCodec WireTypes Messages.

#[local] Unset Program Cases.

(** ** log.rs *)

Inductive Field : Type := FieldInt (v : U64) | FieldString (s : Bytes).

Record Message : Type := mk_Message { ms_level : Verbosity; ms_text : Bytes }.

Section logger.
Context {DE : DataEncoding} {DL : DataEncodingLaws} {SZ_Field : SizeOf Field}.

#[export] Instance Field_serialize : NixSerialize Field := λ S HW f,
  match f with
  | FieldInt v => _ ← write_value FTInt; write_value v
  | FieldString s => _ ← write_value FTString; write_value s
  end.

#[export] Instance Field_deserialize : NixDeserialize Field := λ S HR,
  io_first (try_read_value FieldType) (λ tag,
    match tag with
    | FTInt => v ← read_value U64; mret (FieldInt v)
    | FTString => s ← read_value Bytes; mret (FieldString s)
    end).

#[export] Program Instance Field_codec : NixCodec Field := {|
  codec_ok E f := match f with FieldInt v => codec_ok E v | FieldString s => codec_ok E s end;
  codec_bytes E f := match f with
    | FieldInt v => codec_bytes E FTInt ++ codec_bytes E v
    | FieldString s => codec_bytes E FTString ++ codec_bytes E s end
|}.
Next Obligation.
  intros E [v|s] Hf S HW HWL; (apply writes_bind; [by apply writes_value|by apply writes_value]).
Qed.
Next Obligation.
  intros E [v|s] Hf S HR HRL; (eapply reads_first; [by apply reads_try_value|]);
    (eapply reads_bind_nil; [by apply reads_value|apply reads_ret]).
Qed.

Record Activity : Type := mk_Activity {
  ac_fields : list Field;
  ac_id : U64;
  ac_level : Verbosity;
  ac_parent : U64;
  ac_text : Bytes;
  ac_activity_type : ActivityType
}.

#[export] Instance Activity_serialize : NixSerialize Activity := λ S HW v,
  _ ← write_value (ac_id v); _ ← write_value (ac_level v); _ ← write_value (ac_activity_type v);
  _ ← write_value (ac_text v); _ ← write_value (ac_fields v); write_value (ac_parent v).

#[export] Instance Activity_deserialize : NixDeserialize Activity := λ S HR,
  io_first (try_read_value U64) (λ id,
    level ← read_value Verbosity; activity_type ← read_value ActivityType;
    text ← read_value Bytes; fields ← read_value (list Field); parent ← read_value U64;
    mret (mk_Activity fields id level parent text activity_type)).

#[export] Program Instance Activity_codec : NixCodec Activity := {|
  codec_ok E v := codec_ok E (ac_id v) ∧ codec_ok E (ac_level v) ∧ codec_ok E (ac_activity_type v) ∧
    codec_ok E (ac_text v) ∧ codec_ok E (ac_fields v) ∧ codec_ok E (ac_parent v);
  codec_bytes E v := codec_bytes E (ac_id v) ++ codec_bytes E (ac_level v) ++
    codec_bytes E (ac_activity_type v) ++ codec_bytes E (ac_text v) ++ codec_bytes E (ac_fields v) ++
    codec_bytes E (ac_parent v)
|}.
Next Obligation. solve_writes Activity_serialize. Qed.
Next Obligation. solve_reads Activity_deserialize. Qed.

Record StopActivity : Type := mk_StopActivity { sa_id : U64 }.

#[export] Instance StopActivity_serialize : NixSerialize StopActivity := λ S HW v,
  write_value (sa_id v).
#[export] Instance StopActivity_deserialize : NixDeserialize StopActivity := λ S HR,
  io_map mk_StopActivity (try_read_value U64).
#[export] Program Instance StopActivity_codec : NixCodec StopActivity := {|
  codec_ok E v := codec_ok E (sa_id v); codec_bytes E v := codec_bytes E (sa_id v) |}.
Next Obligation. solve_writes StopActivity_serialize. Qed.
Next Obligation. intros E [id] Hv S HR HRL. by apply (reads_map E mk_StopActivity), reads_try_value. Qed.

Record ActivityResult : Type := mk_ActivityResult {
  ar_fields : list Field;
  ar_id : U64;
  ar_result_type : ResultType
}.

#[export] Instance ActivityResult_serialize : NixSerialize ActivityResult := λ S HW v,
  _ ← write_value (ar_id v); _ ← write_value (ar_result_type v); write_value (ar_fields v).

#[export] Instance ActivityResult_deserialize : NixDeserialize ActivityResult := λ S HR,
  io_first (try_read_value U64) (λ id,
    result_type ← read_value ResultType; fields ← read_value (list Field);
    mret (mk_ActivityResult fields id result_type)).

#[export] Program Instance ActivityResult_codec : NixCodec ActivityResult := {|
  codec_ok E v := codec_ok E (ar_id v) ∧ codec_ok E (ar_result_type v) ∧ codec_ok E (ar_fields v);
  codec_bytes E v := codec_bytes E (ar_id v) ++ codec_bytes E (ar_result_type v) ++
    codec_bytes E (ar_fields v)
|}.
Next Obligation. solve_writes ActivityResult_serialize. Qed.
Next Obligation. solve_reads ActivityResult_deserialize. Qed.

Inductive LogMessage : Type :=
| LMessage (m : Message)
| LStartActivity (a : Activity)
| LStopActivity (a : StopActivity)
| LResult (r : ActivityResult).

(** [LogMessage::message]. *)
Definition log_message (text : Bytes) : LogMessage := LMessage (mk_Message VError text).

#[export] Instance LogMessage_serialize : NixSerialize LogMessage := λ S HW m,
  version ← io_gets w_version;
  match m with
  | LMessage msg => _ ← write_value TNext; write_value (ms_text msg)
  | LStartActivity act =>
      if decide (20 ≤ minor version)%Z then _ ← write_value TStartActivity; write_value act
      else _ ← write_value TNext; write_value (ac_text act)
  | LStopActivity act =>
      if decide (20 ≤ minor version)%Z then _ ← write_value TStopActivity; write_value (sa_id act)
      else mret tt
  | LResult result =>
      if decide (20 ≤ minor version)%Z then _ ← write_value TResult; write_value result
      else mret tt
  end.

(** ** logger.rs: errors on the wire *)

Record TraceLine : Type := mk_TraceLine {
  tl_have_pos : IgnoredZero;
  tl_hint : DaemonString
}.

#[export] Instance TraceLine_serialize : NixSerialize TraceLine := λ S HW v,
  _ ← write_value (tl_have_pos v); write_value (tl_hint v).

#[export] Instance TraceLine_deserialize : NixDeserialize TraceLine := λ S HR,
  io_first (try_read_value IgnoredZero) (λ tl_have_pos',
    tl_hint' ← read_value DaemonString; mret (mk_TraceLine tl_have_pos' tl_hint')).

#[export] Program Instance TraceLine_codec : NixCodec TraceLine := {|
  codec_ok E v := codec_ok E (tl_have_pos v) ∧ codec_ok E (tl_hint v);
  codec_bytes E v := codec_bytes E (tl_have_pos v) ++ codec_bytes E (tl_hint v)
|}.
Next Obligation. solve_writes TraceLine_serialize. Qed.
Next Obligation. solve_reads TraceLine_deserialize. Qed.

Context {SZ_TraceLine : SizeOf TraceLine}.

Record LogError : Type := mk_LogError {
  le_ty : IgnoredErrorType;
  le_level : Verbosity;
  le_name : IgnoredErrorType;
  le_msg : DaemonString;
  le_exit_status : DaemonInt;
  le_have_pos : IgnoredZero;
  le_traces : list TraceLine
}.

Definition default_exit_status : DaemonInt := uint 1.

(** The fields with [version = "26.."] and the one with [version = "..=25"]. *)
#[export] Instance LogError_serialize : NixSerialize LogError := λ S HW v,
  version ← io_gets w_version;
  if decide (26 ≤ minor version)%Z then
    _ ← write_value (le_ty v); _ ← write_value (le_level v); _ ← write_value (le_name v);
    _ ← write_value (le_msg v); _ ← write_value (le_have_pos v); write_value (le_traces v)
  else _ ← write_value (le_msg v); write_value (le_exit_status v).

#[export] Instance LogError_deserialize : NixDeserialize LogError := λ S HR,
  version ← io_gets r_version;
  if decide (26 ≤ minor version)%Z then
    io_first (try_read_value IgnoredErrorType) (λ ty,
      level ← read_value Verbosity; name ← read_value IgnoredErrorType;
      msg ← read_value DaemonString; have_pos ← read_value IgnoredZero;
      traces ← read_value (list TraceLine);
      mret (mk_LogError ty level name msg default_exit_status have_pos traces))
  else
    io_first (try_read_value DaemonString) (λ msg,
      exit_status ← read_value DaemonInt;
      mret (mk_LogError ignored_error_type VError ignored_error_type msg exit_status ignored_zero [])).

(** What is not on the wire must have its default. *)
#[export] Program Instance LogError_codec : NixCodec LogError := {|
  codec_ok E v :=
    if decide (26 ≤ minor (e_version E))%Z then
      codec_ok E (le_ty v) ∧ codec_ok E (le_level v) ∧ codec_ok E (le_name v) ∧ codec_ok E (le_msg v) ∧
      codec_ok E (le_have_pos v) ∧ codec_ok E (le_traces v) ∧ le_exit_status v = default_exit_status
    else codec_ok E (le_msg v) ∧ codec_ok E (le_exit_status v) ∧ le_level v = VError ∧ le_traces v = [];
  codec_bytes E v :=
    if decide (26 ≤ minor (e_version E))%Z then
      codec_bytes E (le_ty v) ++ codec_bytes E (le_level v) ++ codec_bytes E (le_name v) ++
      codec_bytes E (le_msg v) ++ codec_bytes E (le_have_pos v) ++ codec_bytes E (le_traces v)
    else codec_bytes E (le_msg v) ++ codec_bytes E (le_exit_status v)
|}.
Next Obligation.
  intros E v Hv S HW HWL. cbv beta in *. apply writes_version. case_decide; destruct_and?; writes_fields.
Qed.
Next Obligation.
  intros E [ty level name msg st hp tr] Hv S HR HRL. cbv beta in *. apply reads_version.
  case_decide; destruct_and?; cbn [le_level le_exit_status le_traces] in *; subst.
  - eapply reads_first; [by apply reads_try_value|]. reads_fields.
  - destruct ty, name, hp. eapply reads_first; [by apply reads_try_value|]. reads_fields.
Qed.

Inductive RawLogMessage : Type :=
| RLast
| RError (err : LogError)
| RNext (msg : DaemonString)
| RRead (len : usize)
| RWrite (buf : Bytes)
| RStartActivity (act : Activity)
| RStopActivity (act : StopActivity)
| RResult (result : ActivityResult).

#[export] Instance RawLogMessage_serialize : NixSerialize RawLogMessage := λ S HW m,
  version ← io_gets w_version;
  match m with
  | RLast => write_value TLast
  | RError err => _ ← write_value TError; write_value err
  | RNext msg => _ ← write_value TNext; write_value msg
  | RRead len => _ ← write_value TRead; write_value len
  | RWrite buf => _ ← write_value TWrite; write_value buf
  | RStartActivity act =>
      if decide (20 ≤ minor version)%Z then _ ← write_value TStartActivity; write_value act
      else _ ← write_value TNext; write_value (ac_text act)
  | RStopActivity act =>
      if decide (20 ≤ minor version)%Z then _ ← write_value TStopActivity; write_value act
      else mret tt
  | RResult result =>
      if decide (20 ≤ minor version)%Z then _ ← write_value TResult; write_value result
      else mret tt
  end.

Definition read_raw_message {S} {HR : NixRead S} (tag : RawLogMessageType) : io S RawLogMessage :=
  match tag with
  | TLast => mret RLast
  | TError => v ← read_value LogError; mret (RError v)
  | TNext => v ← read_value DaemonString; mret (RNext v)
  | TRead => v ← read_value usize; mret (RRead v)
  | TWrite => v ← read_value Bytes; mret (RWrite v)
  | TStartActivity => v ← read_value Activity; mret (RStartActivity v)
  | TStopActivity => v ← read_value StopActivity; mret (RStopActivity v)
  | TResult => v ← read_value ActivityResult; mret (RResult v)
  end.

#[export] Instance RawLogMessage_deserialize : NixDeserialize RawLogMessage := λ S HR,
  io_first (try_read_value RawLogMessageType) read_raw_message.

Definition raw_tag (m : RawLogMessage) : RawLogMessageType :=
  match m with
  | RLast => TLast | RError _ => TError | RNext _ => TNext | RRead _ => TRead | RWrite _ => TWrite
  | RStartActivity _ => TStartActivity | RStopActivity _ => TStopActivity | RResult _ => TResult
  end.

Definition raw_args (E : env) (m : RawLogMessage) : bytes :=
  match m with
  | RLast => [] | RError v => codec_bytes E v | RNext v => codec_bytes E v | RRead v => codec_bytes E v
  | RWrite v => codec_bytes E v | RStartActivity v => codec_bytes E v
  | RStopActivity v => codec_bytes E v | RResult v => codec_bytes E v
  end.

(** Activities are part of the protocol from version 20 on. *)
#[export] Program Instance RawLogMessage_codec : NixCodec RawLogMessage := {|
  codec_ok E m := (20 ≤ minor (e_version E))%Z ∧
    match m with
    | RLast => True | RError v => codec_ok E v | RNext v => codec_ok E v | RRead v => codec_ok E v
    | RWrite v => codec_ok E v | RStartActivity v => codec_ok E v
    | RStopActivity v => codec_ok E v | RResult v => codec_ok E v
    end;
  codec_bytes E m := codec_bytes E (raw_tag m) ++ raw_args E m
|}.
Next Obligation.
  intros E m [Hv Hm] S HW HWL. apply writes_version.
  destruct m; cbn [raw_tag raw_args]; rewrite ?app_nil_r, ?(decide_True _ _ Hv);
    first [by apply writes_value|apply writes_bind; [by apply writes_value|by apply writes_value]].
Qed.
Next Obligation.
  intros E m [Hv Hm] S HR HRL. eapply reads_first; [apply reads_try_value; by destruct m|].
  destruct m; cbn [raw_tag raw_args read_raw_message];
    first [apply reads_ret|eapply reads_bind_nil; [by apply reads_value|apply reads_ret]].
Qed.

(** A log message on the wire, and how its reader sees it: the level of a
    message is not sent. *)
Definition raw_of (m : LogMessage) : RawLogMessage :=
  match m with
  | LMessage m => RNext (ms_text m)
  | LStartActivity a => RStartActivity a
  | LStopActivity a => RStopActivity a
  | LResult r => RResult r
  end.

Definition seen (m : LogMessage) : LogMessage :=
  match m with LMessage m => log_message (ms_text m) | m => m end.

Lemma writes_log {S} {HW : NixWrite S} {HWL : NixWriteLaws S} E m :
  codec_ok E (raw_of m) → writes E (write_value m) (codec_bytes E (raw_of m)).
Proof using DL.
  intros [Hv Hm]. apply writes_version.
  destruct m; cbn [raw_of raw_tag raw_args] in *; rewrite ?(decide_True _ _ Hv);
    (apply writes_bind; [by apply writes_value
                        |first [by apply writes_value|exact (writes_value E (sa_id _) Hm)]]).
Qed.
End logger.
