(* ===== verification/ResultLogs.v ===== *)
(** [ResultLog] ([harmonia-protocol/src/daemon_wire/logger.rs]): something that
    is a stream of log messages and a future of a result, and the combinators
    the client and the server build them with, poll by poll. The theorems say
    what a caller gets that takes messages until there are none and then awaits
    the result, as [process_logs] of the server does. *)

From stdpp Require Import base list numbers strings.
From Stdlib Require Import ZArith Lia Wf_nat Strings.Byte.
From S2P Require Import Prelude Async Wire Sink ProtoRead Framed Version BaseEncoding Codecs Hash StorePath ContentAddress Signature DerivedPath NixIO NixCodec WireTypes Messages Derivations Requests Logger.

(** ** Streams and futures *)

(** A future that gives [A]; one that fails gives [inl]. *)
Class Future (D A : Type) : Type := poll_future : D → D * poll A.

(** The stream and the future of a [ResultLog]. *)
Class ResultLog (X E T : Type) : Type := {
  poll_next : X → X * poll (option LogMessage);
  poll_result : X → X * poll (res E T)
}.
#[export] Hint Mode Future ! - : typeclass_instances.
#[export] Hint Mode ResultLog ! - - : typeclass_instances.

(** Awaiting a future. *)
Inductive resolves {D A} {HD : Future D A} : D → A → Prop :=
| resolves_now d d' a : poll_future d = (d', Ready a) → resolves d a
| resolves_later d d' a : poll_future d = (d', Pending) → resolves d' a → resolves d a.

Section running.
Context {X E T : Type} {HX : ResultLog X E T}.

(** [while let Some(msg) = logs.next().await]. *)
Inductive streams : X → list LogMessage → X → Prop :=
| streams_end x x' : poll_next x = (x', Ready None) → streams x [] x'
| streams_msg x x' m logs y : poll_next x = (x', Ready (Some m)) → streams x' logs y → streams x (m :: logs) y
| streams_later x x' logs y : poll_next x = (x', Pending) → streams x' logs y → streams x logs y.

(** [logs.await]. *)
Inductive awaits : X → res E T → Prop :=
| awaits_now x x' r : poll_result x = (x', Ready r) → awaits x r
| awaits_later x x' r : poll_result x = (x', Pending) → awaits x' r → awaits x r.

Definition yields (x : X) (logs : list LogMessage) (r : res E T) : Prop := ∃ y, streams x logs y ∧ awaits y r.

(** A caller that stops taking messages early has seen the first of them. *)
Inductive begins : X → list LogMessage → Prop :=
| begins_nil x : begins x []
| begins_msg x x' m logs : poll_next x = (x', Ready (Some m)) → begins x' logs → begins x (m :: logs)
| begins_later x x' logs : poll_next x = (x', Pending) → begins x' logs → begins x logs.
End running.

(** ** [map_ok] and [map_err] *)

Section map.
Context {X E T : Type} {HX : ResultLog X E T}.

Record MapOkResult (T2 : Type) : Type := mk_map_ok { mo_result : X; mo_mapper : option (T → T2) }.

#[export] Instance MapOkResult_log {T2} : ResultLog (MapOkResult T2) E T2 := {|
  poll_next s := let '(x, p) := poll_next (mo_result _ s) in (mk_map_ok _ x (mo_mapper _ s), p);
  poll_result s :=
    match poll_result (mo_result _ s) with
    | (x, Ready (Ok value)) =>
        (mk_map_ok _ x None, Ready match mo_mapper _ s with Some f => Ok (f value) | None => Panic end)
    | (x, Ready (Err e)) => (mk_map_ok _ x (mo_mapper _ s), Ready (Err e))
    | (x, Ready Panic) => (mk_map_ok _ x (mo_mapper _ s), Ready Panic)
    | (x, Pending) => (mk_map_ok _ x (mo_mapper _ s), Pending)
    end
|}.

Definition map_ok {T2} (f : T → T2) (x : X) : MapOkResult T2 := mk_map_ok _ x (Some f).

Record MapErrResult (E2 : Type) : Type := mk_map_err { me_result : X; me_mapper : option (E → E2) }.

#[export] Instance MapErrResult_log {E2} : ResultLog (MapErrResult E2) E2 T := {|
  poll_next s := let '(x, p) := poll_next (me_result _ s) in (mk_map_err _ x (me_mapper _ s), p);
  poll_result s :=
    match poll_result (me_result _ s) with
    | (x, Ready (Err e)) =>
        (mk_map_err _ x None, Ready match me_mapper _ s with Some f => Err (f e) | None => Panic end)
    | (x, Ready (Ok value)) => (mk_map_err _ x (me_mapper _ s), Ready (Ok value))
    | (x, Ready Panic) => (mk_map_err _ x (me_mapper _ s), Ready Panic)
    | (x, Pending) => (mk_map_err _ x (me_mapper _ s), Pending)
    end
|}.

Definition map_err {E2} (f : E → E2) (x : X) : MapErrResult E2 := mk_map_err _ x (Some f).
End map.
Arguments MapOkResult X T T2 : clear implicits.
Arguments MapErrResult X E E2 : clear implicits.

(** ** [and_then] *)

Section and_then.
Context {X E T R T2 : Type} {HX : ResultLog X E T} {HR : Future R (res E T2)}.

Inductive AndThenLogResult : Type := First (mapper : option (T → R)) | Second (result : R).

Record AndThenLog : Type := mk_and_then { at_stream : X; at_result : AndThenLogResult }.

Definition poll_second (x : X) (result : R) : AndThenLog * poll (res E T2) :=
  let '(result, p) := poll_future result in (mk_and_then x (Second result), p).

#[export] Instance AndThenLog_log : ResultLog AndThenLog E T2 := {|
  poll_next s := let '(x, p) := poll_next (at_stream s) in (mk_and_then x (at_result s), p);
  poll_result s :=
    match at_result s with
    | First mapper =>
        match poll_result (at_stream s) with
        | (x, Ready (Ok res)) =>
            match mapper with
            | Some f => poll_second x (f res)
            | None => (mk_and_then x (First None), Ready Panic)
            end
        | (x, Ready (Err e)) => (mk_and_then x (First mapper), Ready (Err e))
        | (x, Ready Panic) => (mk_and_then x (First mapper), Ready Panic)
        | (x, Pending) => (mk_and_then x (First mapper), Pending)
        end
    | Second result => poll_second (at_stream s) result
    end
|}.

Definition and_then (f : T → R) (x : X) : AndThenLog := mk_and_then x (First (Some f)).
End and_then.
Arguments AndThenLog X T R : clear implicits.

(** ** [future_result] *)

Section future_result.
Context {Fut X E T : Type} {HF : Future Fut (E + X)} {HX : ResultLog X E T}.

(** [Invalid] is the default value only. *)
Inductive FutureResult : Type :=
| Later (fut : Fut)
| ResolvedOk (result : X)
| ResolvedErr (err : option E).

(** [poll_resolved]: the state after it, when it is ready. *)
Definition poll_resolved (s : FutureResult) : FutureResult * poll unit :=
  match s with
  | Later fut =>
      match poll_future fut with
      | (_, Ready (inr result)) => (ResolvedOk result, Ready tt)
      | (_, Ready (inl err)) => (ResolvedErr (Some err), Ready tt)
      | (fut, Pending) => (Later fut, Pending)
      end
  | s => (s, Ready tt)
  end.

#[export] Instance FutureResult_log : ResultLog FutureResult E T := {|
  poll_next s :=
    match poll_resolved s with
    | (ResolvedOk result, Ready _) => let '(x, p) := poll_next result in (ResolvedOk x, p)
    | (s, Ready _) => (s, Ready None)
    | (s, Pending) => (s, Pending)
    end;
  poll_result s :=
    match poll_resolved s with
    | (ResolvedOk result, Ready _) => let '(x, p) := poll_result result in (ResolvedOk x, p)
    | (ResolvedErr (Some err), Ready _) => (ResolvedErr None, Ready (Err err))
    | (s, Ready _) => (s, Ready Panic)
    | (s, Pending) => (s, Pending)
    end
|}.
End future_result.
Arguments FutureResult Fut X E : clear implicits.

(** ** [with_logs] *)

Section result_process.
Context {R E T : Type} {HR : Future R (res E T)}.

(** A stream with a schedule: [None] is [Pending]. *)
Definition log_schedule : Type := list (option LogMessage).

Definition schedule_next (s : log_schedule) : log_schedule * poll (option LogMessage) :=
  match s with
  | [] => ([], Ready None)
  | None :: s => (s, Pending)
  | Some m :: s => (s, Ready (Some m))
  end.

Record ResultProcess : Type := mk_process { rp_stream : log_schedule; rp_result : R }.

(** The loop in [poll]: take messages until there are none. *)
Fixpoint skip_logs (s : log_schedule) : log_schedule * poll unit :=
  match s with
  | [] => ([], Ready tt)
  | None :: s => (s, Pending)
  | Some _ :: s => skip_logs s
  end.

#[export] Instance ResultProcess_log : ResultLog ResultProcess E T := {|
  poll_next s := let '(stream, p) := schedule_next (rp_stream s) in (mk_process stream (rp_result s), p);
  poll_result s :=
    match skip_logs (rp_stream s) with
    | (stream, Ready _) => let '(r, p) := poll_future (rp_result s) in (mk_process stream r, p)
    | (stream, Pending) => (mk_process stream (rp_result s), Pending)
    end
|}.
End result_process.
Arguments ResultProcess R : clear implicits.

(** ** [drive_result] *)

Section drive.
Context {X D E T : Type} {HX : ResultLog X E T} {HD : Future D (E + unit)}.

Record DriveResult : Type := mk_drive {
  dr_result : X;
  dr_driver : D;
  driving : bool;
  drive_err : option E
}.

Definition drive (s : DriveResult) : DriveResult :=
  if driving s then
    match poll_future (dr_driver s) with
    | (d, Ready (inl err)) => mk_drive (dr_result s) d false (Some err)
    | (d, Ready (inr _)) => mk_drive (dr_result s) d false None
    | (d, Pending) => mk_drive (dr_result s) d true (drive_err s)
    end
  else s.

Definition set_result (s : DriveResult) (x : X) : DriveResult :=
  mk_drive x (dr_driver s) (driving s) (drive_err s).

#[export] Instance DriveResult_log : ResultLog DriveResult E T := {|
  poll_next s :=
    let s := drive s in
    match drive_err s with
    | Some _ => (s, Ready None)
    | None => let '(x, p) := poll_next (dr_result s) in (set_result s x, p)
    end;
  poll_result s :=
    let s := drive s in
    match drive_err s with
    | Some err => (mk_drive (dr_result s) (dr_driver s) (driving s) None, Ready (Err err))
    | None => let '(x, p) := poll_result (dr_result s) in (set_result s x, p)
    end
|}.

Definition drive_result (driver : D) (x : X) : DriveResult := mk_drive x driver true None.
End drive.
Arguments DriveResult X D E : clear implicits.

(** ** What a caller gets *)

(** A combinator [c] that passes the stream on. *)
Lemma streams_wrap {X Y E E' T T'} {HX : ResultLog X E T} {HY : ResultLog Y E' T'} (c : X → Y) :
  (∀ x, poll_next (c x) = let '(x', p) := poll_next x in (c x', p)) →
  ∀ x logs z, streams (c x) logs z ↔ ∃ y, z = c y ∧ streams x logs y.
Proof.
  intros Hc x logs z. split.
  - remember (c x) as s eqn:Es. intros Hs. revert x Es.
    induction Hs as [s s' E1|s s' m logs z E1 _ IH|s s' logs z E1 _ IH]; intros x ->; rewrite Hc in E1;
      destruct (poll_next x) as [x' p] eqn:E2; injection E1 as <- ->.
    + exists x'. split; [done|by constructor].
    + destruct (IH x' eq_refl) as (y & -> & Hy). exists y. split; [done|by econstructor].
    + destruct (IH x' eq_refl) as (y & -> & Hy). exists y. split; [done|by econstructor].
  - intros (y & -> & Hs). induction Hs as [x y E1|x x' m logs y E1 _ IH|x x' logs y E1 _ IH].
    + apply streams_end. by rewrite Hc, E1.
    + eapply streams_msg; [|done]. by rewrite Hc, E1.
    + eapply streams_later; [|done]. by rewrite Hc, E1.
Qed.

(** A combinator whose result is made of the result below, by [g]. *)
Lemma awaits_wrap {X Y E E' T T'} {HX : ResultLog X E T} {HY : ResultLog Y E' T'} (c : X → Y) (g : res E T → res E' T') :
  (∀ x, match poll_result x with
        | (x', Pending) => poll_result (c x) = (c x', Pending)
        | (x', Ready r) => ∃ y, poll_result (c x) = (y, Ready (g r))
        end) →
  ∀ x r, awaits (c x) r ↔ ∃ r0, awaits x r0 ∧ r = g r0.
Proof.
  intros Hc x r. split.
  - remember (c x) as s eqn:Es. intros Hs. revert x Es.
    induction Hs as [s s' r E1|s s' r E1 _ IH]; intros x ->; specialize (Hc x) as Hcx;
      destruct (poll_result x) as [x' [r0|]] eqn:E2.
    + destruct Hcx as [y Hy]. exists r0. split; [by econstructor|congruence].
    + congruence.
    + destruct Hcx as [y Hy]. congruence.
    + destruct (IH x') as (r0 & ? & ->); [congruence|]. exists r0. split; [by econstructor|done].
  - intros (r0 & Hs & ->). induction Hs as [x x' r0 E1|x x' r0 E1 _ IH]; specialize (Hc x) as Hcx; rewrite E1 in Hcx.
    + destruct Hcx as [y Hy]. by econstructor.
    + by eapply awaits_later.
Qed.

Lemma yields_wrap {X Y E E' T T'} {HX : ResultLog X E T} {HY : ResultLog Y E' T'} (c : X → Y) (P : X → res E' T' → Prop) :
  (∀ x, poll_next (c x) = let '(x', p) := poll_next x in (c x', p)) → (∀ x r, awaits (c x) r ↔ P x r) →
  ∀ x logs r, yields (c x) logs r ↔ ∃ y, streams x logs y ∧ P y r.
Proof.
  intros Hn Hr x logs r. unfold yields. setoid_rewrite (streams_wrap c Hn). split.
  - intros (z & (y & -> & Hs) & Ha). exists y. by rewrite <-Hr.
  - intros (y & Hs & HP). exists (c y). rewrite Hr. eauto.
Qed.

Section combinators.
Context {X E T : Type} {HX : ResultLog X E T}.

Definition res_map {T2} (f : T → T2) (r : res E T) : res E T2 :=
  match r with Ok v => Ok (f v) | Err e => Err e | Panic => Panic end.
Definition res_map_error {E2} (f : E → E2) (r : res E T) : res E2 T :=
  match r with Ok v => Ok v | Err e => Err (f e) | Panic => Panic end.

Lemma map_ok_yields {T2} (f : T → T2) (x : X) logs r :
  yields (map_ok f x) logs r ↔ ∃ r0, yields x logs r0 ∧ r = res_map f r0.
Proof.
  unfold map_ok. rewrite (yields_wrap (λ x, mk_map_ok T2 x (Some f)) (λ x r, ∃ r0, awaits x r0 ∧ r = res_map f r0)).
  - unfold yields. naive_solver.
  - intros y. cbn. by destruct (poll_next y).
  - apply awaits_wrap. intros y. cbn. destruct (poll_result y) as [y' [[]|]]; cbn; eauto.
Qed.

Lemma map_err_yields {E2} (f : E → E2) (x : X) logs r :
  yields (map_err f x) logs r ↔ ∃ r0, yields x logs r0 ∧ r = res_map_error f r0.
Proof.
  unfold map_err. rewrite (yields_wrap (λ x, mk_map_err E2 x (Some f)) (λ x r, ∃ r0, awaits x r0 ∧ r = res_map_error f r0)).
  - unfold yields. naive_solver.
  - intros y. cbn. by destruct (poll_next y).
  - apply awaits_wrap. intros y. cbn. destruct (poll_result y) as [y' [[]|]]; cbn; eauto.
Qed.
End combinators.

Section and_then_spec.
Context {X E T R T2 : Type} {HX : ResultLog X E T} {HR : Future R (res E T2)}.

Definition then_result (f : T → R) (r0 : res E T) (r : res E T2) : Prop :=
  match r0 with Ok v => resolves (f v) r | Err e => r = Err e | Panic => r = Panic end.

Lemma awaits_second (x : X) (d : R) r : awaits (mk_and_then (T := T) x (Second d)) r ↔ resolves d r.
Proof.
  split.
  - remember (mk_and_then x (Second d)) as s eqn:Es. intros Hs. revert d Es.
    induction Hs as [s s' r E1|s s' r E1 _ IH]; intros d ->; cbn in E1; unfold poll_second in E1;
      destruct (poll_future d) as [d' p] eqn:E2; injection E1 as <- ->.
    + by eapply resolves_now.
    + eapply resolves_later; [done|]. by apply IH.
  - induction 1 as [d d' r E1|d d' r E1 _ IH].
    + eapply awaits_now. cbn. unfold poll_second. by rewrite E1.
    + eapply awaits_later; [|exact IH]. cbn. unfold poll_second. by rewrite E1.
Qed.

Lemma awaits_first (f : T → R) (x : X) r :
  awaits (mk_and_then x (First (Some f))) r ↔ ∃ r0, awaits x r0 ∧ then_result f r0 r.
Proof.
  split.
  - remember (mk_and_then x (First (Some f))) as s eqn:Es. intros Hs. revert x Es.
    induction Hs as [s s' r E1|s s' r E1 Hs IH]; intros x ->; cbn in E1;
      destruct (poll_result x) as [x' [[v|e|]|]] eqn:E2.
    all: try discriminate E1.
    all: try (exists (Err e); split; [by eapply awaits_now|cbn; congruence]).
    all: try (exists Panic; split; [by eapply awaits_now|cbn; congruence]).
    + exists (Ok v). split; [by eapply awaits_now|]. unfold poll_second in E1.
      destruct (poll_future (f v)) as [d p] eqn:E3. injection E1 as <- ->. by eapply resolves_now.
    + exists (Ok v). split; [by eapply awaits_now|]. unfold poll_second in E1.
      destruct (poll_future (f v)) as [d p] eqn:E3. injection E1 as <- ->.
      eapply resolves_later; [done|]. by apply awaits_second in Hs.
    + injection E1 as <-. destruct (IH x' eq_refl) as (r0 & ? & ?). exists r0. split; [by eapply awaits_later|done].
  - intros (r0 & Ha & Hr). induction Ha as [x x' r0 E1|x x' r0 E1 _ IH].
    + destruct r0 as [v|e|]; cbn in Hr; [|subst r|subst r]; [|eapply awaits_now; cbn; by rewrite E1..].
      inversion Hr as [d d' r' E2|d d' r' E2 Hd]; subst.
      * eapply awaits_now. cbn. rewrite E1. unfold poll_second. by rewrite E2.
      * eapply awaits_later; [cbn; rewrite E1; unfold poll_second; by rewrite E2|]. by apply awaits_second.
    + eapply awaits_later; [|by apply IH]. cbn. by rewrite E1.
Qed.

Lemma and_then_yields (f : T → R) (x : X) logs r :
  yields (and_then f x) logs r ↔ ∃ r0, yields x logs r0 ∧ then_result f r0 r.
Proof.
  unfold and_then. rewrite (yields_wrap (λ x, mk_and_then x (First (Some f))) (λ x r, ∃ r0, awaits x r0 ∧ then_result f r0 r)).
  - unfold yields. naive_solver.
  - intros y. cbn. by destruct (poll_next y).
  - apply awaits_first.
Qed.
End and_then_spec.

Section future_result_spec.
Context {Fut X E T : Type} {HF : Future Fut (E + X)} {HX : ResultLog X E T}.

Lemma resolved_yields (x : X) logs r : yields (ResolvedOk (Fut := Fut) (E := E) x) logs r ↔ yields x logs r.
Proof.
  rewrite (yields_wrap (λ x, ResolvedOk (Fut := Fut) x) awaits); [done|..].
  - intros y. cbn. by destruct (poll_next y).
  - intros y r0. rewrite (awaits_wrap (λ x, ResolvedOk (Fut := Fut) x) id); [naive_solver|].
    intros z. cbn. destruct (poll_result z) as [z' []]; [by eexists|done].
Qed.

(** The state after the future below has resolved. *)
Definition resolved (o : E + X) : FutureResult Fut X E :=
  match o with inl err => ResolvedErr (Some err) | inr x => ResolvedOk x end.

Lemma later_streams (fut : Fut) logs z :
  streams (Later (X := X) fut) logs z ↔ ∃ o, resolves fut o ∧ streams (resolved o) logs z.
Proof.
  split.
  - remember (Later fut) as s eqn:Es. intros Hs. revert fut Es.
    assert (∀ fut s' p, poll_next (Later (X := X) fut) = (s', p) →
      (∃ fut', s' = Later fut' ∧ p = Pending ∧ poll_future fut = (fut', Pending)) ∨
      ∃ fut' o, poll_future fut = (fut', Ready o) ∧ poll_next (resolved o) = (s', p)) as Hc.
    { intros fut s' p E1. cbn in E1. destruct (poll_future fut) as [fut' [[err|x]|]] eqn:E2;
        [right; exists fut', (inl err)|right; exists fut', (inr x)|left; exists fut']; naive_solver. }
    induction Hs as [s s' E1|s s' m logs z E1 Hs IH|s s' logs z E1 Hs IH]; intros fut ->;
      destruct (Hc _ _ _ E1) as [(fut' & -> & Hp & E2)|(fut' & o & E2 & E3)]; try done;
      try (exists o; split; [by eapply resolves_now|by econstructor]).
    destruct (IH fut' eq_refl) as (o & Ho & ?). exists o. split; [by eapply resolves_later|done].
  - intros (o & Ho & Hs). induction Ho as [fut fut' o E1|fut fut' o E1 _ IH].
    + assert (poll_next (Later (X := X) fut) = poll_next (resolved o)) as E2
        by (cbn; rewrite E1; by destruct o).
      destruct Hs as [s s' E3|s s' m logs z E3 Hs|s s' logs z E3 Hs]; rewrite <-E2 in E3; by econstructor.
    + eapply streams_later; [|by apply IH]. cbn. by rewrite E1.
Qed.

Lemma future_result_yields (fut : Fut) logs r :
  yields (Later (X := X) fut) logs r ↔
  ∃ o, resolves fut o ∧ match o with inr x => yields x logs r | inl err => logs = [] ∧ r = Err err end.
Proof.
  assert (∀ o, (∃ z, streams (resolved o) logs z ∧ awaits z r) ↔
    match o with inr x => yields x logs r | inl err => logs = [] ∧ r = Err err end) as Ho.
  { intros [err|x]; [|by apply (resolved_yields x)]. split.
    - intros (z & Hs & Ha). inversion Hs; subst; simplify_eq/=. inversion Ha; subst; by simplify_eq/=.
    - intros [-> ->]. exists (ResolvedErr (Some err)). split; [by apply streams_end|by eapply awaits_now]. }
  unfold yields. setoid_rewrite later_streams. setoid_rewrite <-Ho. naive_solver.
Qed.
End future_result_spec.

Section result_process_spec.
Context {R E T : Type} {HR : Future R (res E T)}.

Lemma process_streams (s : log_schedule) (d : R) logs z :
  streams (mk_process s d) logs z ↔ logs = omap id s ∧ z = mk_process [] d.
Proof.
  split.
  - remember (mk_process s d) as p eqn:Ep. intros Hs. revert s Ep.
    induction Hs as [p z E1|p p' m logs z E1 _ IH|p p' logs z E1 _ IH]; intros s ->;
      destruct s as [|[m'|] s]; cbn in E1; try discriminate E1; simplify_eq; [done|..].
    + by destruct (IH s eq_refl) as [-> ->].
    + by destruct (IH s eq_refl) as [-> ->].
  - intros [-> ->]. induction s as [|[m|] s IH]; cbn.
    + by apply streams_end.
    + by eapply streams_msg.
    + by eapply streams_later.
Qed.

(** Awaiting the result takes what is left of the log. *)
Lemma process_awaits (s : log_schedule) (d : R) r : awaits (mk_process s d) r ↔ resolves d r.
Proof.
  assert (∀ s, (∃ s', skip_logs s = (s', Pending) ∧ length s' < length s) ∨ skip_logs s = ([], Ready tt)) as Hk.
  { induction s0 as [|[m|] s0 IH]; cbn; [by right| |left; exists s0; split; [done|lia]].
    destruct IH as [(s' & ? & ?)|?]; [left; exists s'; split; [done|lia]|by right]. }
  split.
  - remember (mk_process s d) as p eqn:Ep. intros Ha. revert s d Ep.
    induction Ha as [p z r E1|p z r E1 _ IH]; intros s d ->; cbn in E1;
      destruct (Hk s) as [(s' & Es & _)|Es]; rewrite Es in E1.
    + discriminate E1.
    + destruct (poll_future d) as [d' p'] eqn:E2. injection E1 as <- ->. by eapply resolves_now.
    + injection E1 as <-. by eapply IH.
    + destruct (poll_future d) as [d' p'] eqn:E2. injection E1 as <- ->. eapply resolves_later; [done|]. by eapply IH.
  - intros Hd. revert s. induction Hd as [d d' r E1|d d' r E1 _ IHd]; intros s;
      induction s as [s IH] using (induction_ltof1 _ (@length _));
      (destruct (Hk s) as [(s' & Es & Hl)|Es];
        [eapply awaits_later; [cbn; by rewrite Es|by apply IH]|]).
    + eapply awaits_now. cbn. by rewrite Es, E1.
    + eapply awaits_later; [cbn; by rewrite Es, E1|]. apply IHd.
Qed.

Lemma process_yields (s : log_schedule) (d : R) logs r :
  yields (mk_process s d) logs r ↔ logs = omap id s ∧ resolves d r.
Proof.
  unfold yields. setoid_rewrite process_streams. rewrite <-(process_awaits [] d r). naive_solver.
Qed.
End result_process_spec.

Section drive_spec.
Context {X D E T : Type} {HX : ResultLog X E T} {HD : Future D (E + unit)}.
Implicit Types s : DriveResult X D E.

(** The driver of [s] is going to fail with [e]. *)
Definition driver_fails s (e : E) : Prop := driving s = true ∧ resolves (dr_driver s) (inl e).

Lemma drive_cases s : drive_err s = None →
  dr_result (drive s) = dr_result s ∧
  (drive_err (drive s) = None ∧ (∀ e, driver_fails (drive s) e → driver_fails s e) ∨
   ∃ e, drive_err (drive s) = Some e ∧ driving (drive s) = false ∧ driver_fails s e).
Proof.
  intros He. unfold drive, driver_fails. destruct (driving s) eqn:Hd; [|by rewrite Hd; auto].
  destruct (poll_future (dr_driver s)) as [d [[e|[]]|]] eqn:E1; cbn; (split; [done|]).
  - right. exists e. split; [done|]. split; [done|]. split; [done|by eapply resolves_now].
  - left. split; [done|]. by intros e [? _].
  - left. split; [done|]. intros e [_ He']. split; [done|by eapply resolves_later].
Qed.

Lemma drive_streams s logs z : drive_err s = None → streams s logs z →
  (drive_err z = None ∧ streams (dr_result s) logs (dr_result z) ∧ ∀ e, driver_fails z e → driver_fails s e) ∨
  ∃ e, drive_err z = Some e ∧ driving z = false ∧ driver_fails s e ∧ begins (dr_result s) logs.
Proof.
  intros Hs Hst. revert Hs.
  induction Hst as [s z E1|s s' m logs z E1 _ IH|s s' logs z E1 _ IH]; intros Hs;
    destruct (drive_cases s Hs) as (Hr & [(He & Hf)|(e & He & Hd & Hf)]); cbn in E1; rewrite He in E1.
  all: try discriminate E1.
  all: try (destruct (poll_next (dr_result (drive s))) as [x p] eqn:E2; rewrite Hr in E2; injection E1 as <- ->).
  - left. split; [done|]. split; [by constructor|]. intros e [Hd He']. by apply Hf.
  - injection E1 as <-. right. exists e. split_and!; try done. constructor.
  - destruct (IH He) as [(? & Hx & Hz)|(e & ? & ? & Hd & Hb)].
    + left. split; [done|]. split; [by econstructor|]. intros e He'. apply Hf. by apply Hz.
    + right. exists e. split; [done|]. split; [done|]. split; [by apply Hf|by econstructor].
  - destruct (IH He) as [(? & Hx & Hz)|(e & ? & ? & Hd & Hb)].
    + left. split; [done|]. split; [by econstructor|]. intros e He'. apply Hf. by apply Hz.
    + right. exists e. split; [done|]. split; [done|]. split; [by apply Hf|by econstructor].
Qed.

Lemma drive_awaits s r : drive_err s = None → awaits s r →
  awaits (dr_result s) r ∨ ∃ e, driver_fails s e ∧ r = Err e.
Proof.
  intros Hs Ha. revert Hs.
  induction Ha as [s z r E1|s z r E1 _ IH]; intros Hs;
    destruct (drive_cases s Hs) as (Hr & [(He & Hf)|(e & He & Hd & Hf)]); cbn in E1; rewrite He in E1.
  all: try (destruct (poll_result (dr_result (drive s))) as [x p] eqn:E2; rewrite Hr in E2; injection E1 as <- ->).
  - left. by eapply awaits_now.
  - injection E1 as _ <-. right. by exists e.
  - destruct (IH He) as [?|(e & Hd & ->)]; [left; by eapply awaits_later|]. right. exists e. split; [by apply Hf|done].
  - discriminate E1.
Qed.
End drive_spec.

(** ** Properties *)

(** The combinators pass on every message in order, and nothing else, and
    their result is made of the results below, whatever the polls in between:
    [map_ok] and [map_err] map it, [and_then] awaits the next future after a
    success, [future_result] has no messages when its future fails, and
    [with_logs] gives its messages and then its result, or just its result. *)
Theorem result_log_combinators {X E T Fut R T2 E2 : Type} {HX : ResultLog X E T} {HF : Future Fut (E + X)}
    {HR : Future R (res E T2)} (x : X) (fut : Fut) (d : R) (s : log_schedule)
    (f : T → T2) (g : E → E2) (k : T → R) (logs : list LogMessage) :
  (∀ r, yields (map_ok f x) logs r ↔ ∃ r0, yields x logs r0 ∧ r = res_map f r0) ∧
  (∀ r, yields (map_err g x) logs r ↔ ∃ r0, yields x logs r0 ∧ r = res_map_error g r0) ∧
  (∀ r, yields (and_then k x) logs r ↔ ∃ r0, yields x logs r0 ∧ then_result k r0 r) ∧
  (∀ r, yields (Later fut) logs r ↔
     ∃ o, resolves fut o ∧ match o with inr x => yields x logs r | inl err => logs = [] ∧ r = Err err end) ∧
  (∀ r, (yields (mk_process s d) logs r ↔ logs = omap id s ∧ resolves d r) ∧
        (awaits (mk_process s d) r ↔ resolves d r)).
Proof.
  split; [apply map_ok_yields|]. split; [apply map_err_yields|]. split; [apply and_then_yields|].
  split; [apply future_result_yields|]. intros r. split; [apply process_yields|apply process_awaits].
Qed.

Lemma streams_begins {X E T} {HX : ResultLog X E T} (x y : X) logs : streams x logs y → begins x logs.
Proof. induction 1; by econstructor. Qed.

(** [drive_result] runs the driver beside the log: the caller gets what it
    would get without the driver, or, only if the driver fails, the first of the
    messages and then the driver's error. *)
Theorem drive_result_outcomes {X D E T : Type} {HX : ResultLog X E T} {HD : Future D (E + unit)}
    (x : X) (driver : D) (logs : list LogMessage) (r : res E T) :
  yields (drive_result driver x) logs r →
  yields x logs r ∨ ∃ e, resolves driver (inl e) ∧ r = Err e ∧ begins x logs.
Proof.
  intros (z & Hs & Ha). apply drive_streams in Hs as [(Hz & Hs & Hf)|(e & Hz & Hd & [_ He] & Hb)]; [|..|done].
  - cbn in Hs. destruct (drive_awaits z r Hz Ha) as [?|(e & He & ->)]; [left; by exists (dr_result z)|].
    right. exists e. split; [by apply Hf|]. split; [done|]. by eapply streams_begins.
  - cbn in Hb, He. right. exists e. split; [done|]. split; [|done].
    destruct Ha as [z z' r E1|z z' r E1 _]; cbn in E1; unfold drive in E1; rewrite Hd, Hz in E1; congruence.
Qed.

(** ** Concrete uses *)

(** A future that is ready after some polls. *)
Definition delayed (A : Type) : Type := nat * A.
#[export] Instance delayed_future {A} : Future (delayed A) A := λ '(n, a),
  match n with O => ((O, a), Ready a) | S n => ((n, a), Pending) end.

Definition hello : LogMessage := LMessage (mk_Message VError (mk_Bytes (str "hello"))).

(** Two messages, and a driver that fails after the first. *)
Definition driven : DriveResult (ResultProcess (delayed (res nat bool))) (delayed (nat + unit)) nat :=
  drive_result (1, inl 7) (mk_process [Some hello; Some hello] (2, Ok true)).

Lemma drive_result_outcomes_witness :
  let x : ResultProcess (delayed (res nat bool)) := mk_process [Some hello; Some hello] (2, Ok true) in
  yields driven [hello] (Err 7) ∧
  (yields x [hello] (Err 7) ∨ ∃ e, resolves ((1, inl 7) : delayed (nat + unit)) (inl e) ∧ Err 7 = Err (A := bool) e ∧
     begins x [hello]).
Proof.
  intros x. assert (yields driven [hello] (Err 7)) as Hy.
  { eexists. split; [eapply streams_msg; [reflexivity|]; eapply streams_end; reflexivity|].
    eapply awaits_now. reflexivity. }
  split; [exact Hy|]. exact (drive_result_outcomes x (1, inl 7) [hello] (Err 7) Hy).
Defined.
