(* ===== verification/DaemonErrors.v ===== *)
(** The errors of the daemon ([harmonia-protocol/src/types.rs]), how they are
    turned into error messages of the log stream and back
    ([daemon_wire/logger.rs]), and computations that may fail with them. *)

From stdpp Require Import base list numbers strings.
From Stdlib Require Import ZArith Lia Strings.Byte.
From S2P Require Import Prelude Async Wire Sink ProtoRead Framed Version BaseEncoding Hash StorePath ContentAddress Signature DerivedPath NixIO NixCodec WireTypes Messages Logger.

(** ** The errors *)

Record RemoteError : Type := mk_RemoteError {
  rem_level : Verbosity;
  rem_msg : DaemonString;
  rem_exit_status : DaemonInt;
  rem_traces : list TraceLine
}.

Record DaemonErrorContext : Type := mk_context {
  ctx_operation : option Operation;
  ctx_fields : list string
}.

Definition DaemonErrorContext_default : DaemonErrorContext := mk_context None [].

Inductive DaemonErrorKind : Type :=
| WrongMagic (magic : Z)
| UnsupportedVersion (v : ProtocolVersion)
| UnimplementedOperation (op : Operation)
| NoSinkForLoggerWrite
| NoSourceForLoggerRead
| KindIO (e : io_error)
| KindRemote (e : RemoteError)
| KindCustom (msg : bytes).

Record DaemonError : Type := mk_DaemonError {
  err_context : DaemonErrorContext;
  err_kind : DaemonErrorKind
}.

(** The [From] conversions. *)
Definition from_kind (kind : DaemonErrorKind) : DaemonError := mk_DaemonError DaemonErrorContext_default kind.
Definition from_io (e : io_error) : DaemonError := from_kind (KindIO e).
Definition from_remote (e : RemoteError) : DaemonError := from_kind (KindRemote e).

Definition RemoteError_from (err : LogError) : RemoteError :=
  mk_RemoteError (le_level err) (le_msg err) (le_exit_status err) (le_traces err).

Definition from_log_error (err : LogError) : DaemonError := from_remote (RemoteError_from err).

Definition LogError_from_remote (e : RemoteError) : LogError :=
  mk_LogError ignored_error_type (rem_level e) ignored_error_type (rem_msg e) (rem_exit_status e)
    ignored_zero (rem_traces e).

Definition custom (msg : bytes) : DaemonError := from_kind (KindCustom msg).

Definition unimplemented (op : Operation) : DaemonError :=
  mk_DaemonError (mk_context (Some op) []) (UnimplementedOperation op).

Definition fill_operation (op : Operation) (e : DaemonError) : DaemonError :=
  match ctx_operation (err_context e) with
  | None => mk_DaemonError (mk_context (Some op) (ctx_fields (err_context e))) (err_kind e)
  | Some _ => e
  end.

Definition push_field (field : string) (e : DaemonError) : DaemonError :=
  mk_DaemonError (mk_context (ctx_operation (err_context e)) (ctx_fields (err_context e) ++ [field]))
    (err_kind e).

(** ** Their texts *)

(** [Display] and [Debug] of a variant are its name. *)
Definition Operation_name (op : Operation) : bytes := str
  match op with
  | OpIsValidPath => "IsValidPath" | OpQueryReferrers => "QueryReferrers" | OpAddToStore => "AddToStore"
  | OpBuildPaths => "BuildPaths" | OpEnsurePath => "EnsurePath" | OpAddTempRoot => "AddTempRoot"
  | OpAddIndirectRoot => "AddIndirectRoot" | OpFindRoots => "FindRoots" | OpSetOptions => "SetOptions"
  | OpCollectGarbage => "CollectGarbage" | OpQueryAllValidPaths => "QueryAllValidPaths"
  | OpQueryPathInfo => "QueryPathInfo" | OpQueryPathFromHashPart => "QueryPathFromHashPart"
  | OpQueryValidPaths => "QueryValidPaths" | OpQuerySubstitutablePaths => "QuerySubstitutablePaths"
  | OpQueryValidDerivers => "QueryValidDerivers" | OpOptimiseStore => "OptimiseStore"
  | OpVerifyStore => "VerifyStore" | OpBuildDerivation => "BuildDerivation"
  | OpAddSignatures => "AddSignatures" | OpNarFromPath => "NarFromPath"
  | OpAddToStoreNar => "AddToStoreNar" | OpQueryMissing => "QueryMissing"
  | OpQueryDerivationOutputMap => "QueryDerivationOutputMap"
  | OpRegisterDrvOutput => "RegisterDrvOutput" | OpQueryRealisation => "QueryRealisation"
  | OpAddMultipleToStore => "AddMultipleToStore" | OpAddBuildLog => "AddBuildLog"
  | OpBuildPathsWithResults => "BuildPathsWithResults" | OpAddPermRoot => "AddPermRoot"
  end.

(** [{:x}] of a number. *)
Fixpoint hex_digits (fuel : nat) (z : Z) : list Z :=
  match fuel with
  | O => []
  | S fuel => if decide (z < 16)%Z then [z] else hex_digits fuel (z / 16) ++ [(z mod 16)%Z]
  end.
Definition u64_to_hex (z : Z) : bytes := hex_digit (str "0123456789abcdef") <$> hex_digits 16 z.

(** The texts of I/O errors, and of byte strings in the package [bstr]. *)
Class ErrorText : Type := {
  io_error_text : io_error → bytes;
  as_bstr : bytes → bytes
}.

Definition DaemonErrorContext_fmt (c : DaemonErrorContext) : bytes :=
  match ctx_operation c with
  | Some op => Operation_name op ++ (ctx_fields c ≫= λ f, str "." ++ str f)
  | None =>
      match ctx_fields c with
      | [] => []
      | f :: fs => str f ++ (fs ≫= λ f, str "." ++ str f)
      end
  end.

Section text.
Context {ET : ErrorText}.

Definition DaemonErrorKind_fmt (k : DaemonErrorKind) : bytes :=
  match k with
  | WrongMagic magic => str "wrong magic 0x" ++ u64_to_hex magic
  | UnsupportedVersion v => str "unsupported version " ++ version_to_string v
  | UnimplementedOperation op => str "unimplemented operation '" ++ Operation_name op ++ str "'"
  | NoSinkForLoggerWrite => str "no source for logger write"
  | NoSourceForLoggerRead => str "no sink for logger read"
  | KindIO e => str "io error " ++ io_error_text e
  | KindRemote e => str "remote error: " ++ as_bstr (bytes_val (rem_msg e))
  | KindCustom msg => msg
  end.

Definition DaemonError_fmt (e : DaemonError) : bytes :=
  if bool_decide (is_Some (ctx_operation (err_context e))) || bool_decide (ctx_fields (err_context e) ≠ [])
  then DaemonErrorContext_fmt (err_context e) ++ str ": " ++ DaemonErrorKind_fmt (err_kind e)
  else DaemonErrorKind_fmt (err_kind e).

(** [From<DaemonError> for LogError]: a remote error is passed on as it is, any
    other as its text. *)
Definition LogError_from (e : DaemonError) : LogError :=
  match err_kind e with
  | KindRemote r => LogError_from_remote r
  | _ => mk_LogError ignored_error_type VError ignored_error_type (mk_Bytes (DaemonError_fmt e))
           (uint 1) ignored_zero []
  end.
End text.

Lemma remote_log_error err : LogError_from_remote (RemoteError_from err) = err.
Proof. destruct err as [[] ? [] ? ? [] ?]. reflexivity. Qed.

Lemma log_error_remote e : RemoteError_from (LogError_from_remote e) = e.
Proof. by destruct e. Qed.

Lemma fill_operation_kind op e : err_kind (fill_operation op e) = err_kind e.
Proof. unfold fill_operation. by destruct (ctx_operation _). Qed.

Lemma fill_operation_twice op op' e : fill_operation op' (fill_operation op e) = fill_operation op e.
Proof.
  unfold fill_operation. destruct (ctx_operation (err_context e)) eqn:E; cbn; [by rewrite E|done].
Qed.

(** ** Computations with errors of a type [E] *)

Definition eff (E S A : Type) : Type := S → S * res E A.

#[export] Instance eff_ret {E S} : MRet (eff E S) | 10 := λ A a s, (s, Ok a).
#[export] Instance eff_bind {E S} : MBind (eff E S) | 10 := λ A B f m s,
  match m s with
  | (s, Ok a) => f a s
  | (s, Err e) => (s, Err e)
  | (s, Panic) => (s, Panic)
  end.

Definition eff_lift {E S A} (r : res E A) : eff E S A := λ s, (s, r).
Definition eff_throw {E S A} (e : E) : eff E S A := λ s, (s, Err e).

Definition res_map_err {E F A} (f : E → F) (r : res E A) : res F A :=
  match r with Ok a => Ok a | Err e => Err (f e) | Panic => Panic end.

(** [map_err], and with it the conversion in [?]. *)
Definition map_err {E F S A} (f : E → F) (m : eff E S A) : eff F S A := λ s,
  let '(s, r) := m s in (s, res_map_err f r).

(** [m.await?] in a function that returns [DaemonResult]. *)
Definition io_try {S A} : io S A → eff DaemonError S A := map_err from_io.

(** [with_field] on an I/O result and on an error of the daemon. *)
Definition with_field {S A} (field : string) (m : io S A) : eff DaemonError S A :=
  map_err (λ e, push_field field (from_io e)) m.
Definition throw_field {S A} (field : string) (k : DaemonErrorKind) : eff DaemonError S A :=
  eff_throw (push_field field (from_kind k)).

Lemma eff_bind_Ok {E S A B} (m : eff E S A) (f : A → eff E S B) s s' a :
  m s = (s', Ok a) → (m ≫= f) s = f a s'.
Proof. intros H. unfold mbind, eff_bind. by rewrite H. Qed.

Lemma eff_bind_Err {E S A B} (m : eff E S A) (f : A → eff E S B) s s' e :
  m s = (s', Err e) → (m ≫= f) s = (s', Err e).
Proof. intros H. unfold mbind, eff_bind. by rewrite H. Qed.

Lemma eff_map_err_Ok {E F S A} (f : E → F) (m : eff E S A) s s' a :
  m s = (s', Ok a) → map_err f m s = (s', Ok a).
Proof. intros H. unfold map_err. by rewrite H. Qed.

Lemma eff_map_err_Err {E F S A} (f : E → F) (m : eff E S A) s s' e :
  m s = (s', Err e) → map_err f m s = (s', Err (f e)).
Proof. intros H. unfold map_err. by rewrite H. Qed.
