(* ===== verification/DaemonStore.v ===== *)
(** The trait [DaemonStore] ([harmonia-protocol/src/types.rs]) as a signature
    of events, one for each method, and a class of handlers for them.

    A method that returns a [ResultLog] gives log messages and then its
    result. A method that is given a reader of data may log and read in any
    order before it is done: it is a tree of these actions. *)

From stdpp Require Import base list numbers strings.
From Stdlib Require Import ZArith Lia Strings.Byte.
From S2P Require Import Prelude Async Wire Sink ProtoRead Framed Version BaseEncoding Codecs Hash StorePath ContentAddress Signature DerivedPath NixIO NixCodec WireTypes Messages Derivations Requests Logger DaemonErrors.

Section events.
Context {SA : StructuredAttrsLib}.

(** The methods without a stream. *)
Inductive StoreE : Type → Type :=
| set_options (options : ClientOptions) : StoreE unit
| is_valid_path (path : StorePath) : StoreE bool
| query_valid_paths (paths : BTreeSet StorePath) (substitute : bool) : StoreE (BTreeSet StorePath)
| query_path_info (path : StorePath) : StoreE (option UnkeyedValidPathInfo)
| build_paths (paths : list DerivedPath) (mode : BuildMode) : StoreE unit
| build_paths_with_results (drvs : list DerivedPath) (mode : BuildMode) : StoreE (list KeyedBuildResult)
| build_derivation (drv_path : StorePath) (drv : BasicDerivation) (mode : BuildMode) : StoreE BuildResult
| query_missing (paths : list DerivedPath) : StoreE QueryMissingResult
| query_all_valid_paths : StoreE (BTreeSet StorePath)
| query_referrers (path : StorePath) : StoreE (BTreeSet StorePath)
| ensure_path (path : StorePath) : StoreE unit
| add_temp_root (path : StorePath) : StoreE unit
| add_indirect_root (path : DaemonPath) : StoreE unit
| find_roots : StoreE (BTreeMap DaemonPath StorePath)
| collect_garbage (action : GCAction) (paths_to_delete : BTreeSet StorePath) (ignore_liveness : bool)
    (max_freed : U64) : StoreE CollectGarbageResponse
| query_path_from_hash_part (hash : StorePathHash) : StoreE (option StorePath)
| query_substitutable_paths (paths : BTreeSet StorePath) : StoreE (BTreeSet StorePath)
| query_valid_derivers (path : StorePath) : StoreE (BTreeSet StorePath)
| optimise_store : StoreE unit
| verify_store (check_contents repair : bool) : StoreE bool
| add_signatures (path : StorePath) (signatures : list Signature) : StoreE unit
| query_derivation_output_map (path : StorePath) : StoreE (BTreeMap OutputName (option StorePath))
| register_drv_output (realisation : Realisation) : StoreE unit
| query_realisation (output_id : DrvOutput) : StoreE (BTreeSet Realisation)
| add_perm_root (path : StorePath) (gc_root : DaemonPath) : StoreE DaemonPath.

(** The methods that are given a reader ([AsyncBufRead]) as their last
    argument. *)
Inductive UploadE : Type → Type :=
| add_to_store_nar (info : ValidPathInfo) (repair dont_check_sigs : bool) : UploadE unit
| add_build_log (path : StorePath) : UploadE unit
| add_ca_to_store (name : RString) (cam : ContentAddressMethodAlgorithm) (refs : BTreeSet StorePath)
    (repair : bool) : UploadE ValidPathInfo.

(** What a method with a reader does: it is done, logs a message, or reads
    into a buffer of [S room] bytes. *)
Inductive source_log (A : Type) : Type :=
| SDone (a : A)
| SLog (m : LogMessage) (k : source_log A)
| SRead (room : nat) (k : res io_error bytes → source_log A).

Definition ResultLog (A : Type) : Type := list LogMessage * res DaemonError A.

(** A store with the state [St]. The reader that [nar_from_path] returns is
    what its calls of [fill_buf] give, each consumed before the next. *)
Class DaemonStore (St : Type) : Type := {
  trust_level : St → TrustLevel;
  store_call : ∀ {T : Type}, StoreE T → St → St * ResultLog T;
  nar_from_path : StorePath → St → St * ResultLog (list (res io_error bytes));
  store_upload : ∀ {T : Type}, UploadE T → St → source_log (St * res DaemonError T);
  shutdown : St → St * res DaemonError unit
}.

Definition store_operation {T} (e : StoreE T) : Operation :=
  match e with
  | set_options _ => OpSetOptions
  | is_valid_path _ => OpIsValidPath
  | query_valid_paths _ _ => OpQueryValidPaths
  | query_path_info _ => OpQueryPathInfo
  | build_paths _ _ => OpBuildPaths
  | build_paths_with_results _ _ => OpBuildPathsWithResults
  | build_derivation _ _ _ => OpBuildDerivation
  | query_missing _ => OpQueryMissing
  | query_all_valid_paths => OpQueryAllValidPaths
  | query_referrers _ => OpQueryReferrers
  | ensure_path _ => OpEnsurePath
  | add_temp_root _ => OpAddTempRoot
  | add_indirect_root _ => OpAddIndirectRoot
  | find_roots => OpFindRoots
  | collect_garbage _ _ _ _ => OpCollectGarbage
  | query_path_from_hash_part _ => OpQueryPathFromHashPart
  | query_substitutable_paths _ => OpQuerySubstitutablePaths
  | query_valid_derivers _ => OpQueryValidDerivers
  | optimise_store => OpOptimiseStore
  | verify_store _ _ => OpVerifyStore
  | add_signatures _ _ => OpAddSignatures
  | query_derivation_output_map _ => OpQueryDerivationOutputMap
  | register_drv_output _ => OpRegisterDrvOutput
  | query_realisation _ => OpQueryRealisation
  | add_perm_root _ _ => OpAddPermRoot
  end.

Definition upload_operation {T} (e : UploadE T) : Operation :=
  match e with
  | add_to_store_nar _ _ _ => OpAddToStoreNar
  | add_build_log _ => OpAddBuildLog
  | add_ca_to_store _ _ _ _ => OpAddToStore
  end.

(** The default bodies of the trait's methods. *)
Definition default_call {T} (e : StoreE T) : ResultLog T := ([], Err (unimplemented (store_operation e))).
Definition default_upload {T St} (e : UploadE T) (st : St) : source_log (St * res DaemonError T) :=
  SDone _ (st, Err (unimplemented (upload_operation e))).
Definition default_nar : ResultLog (list (res io_error bytes)) := ([], Err (unimplemented OpNarFromPath)).
End events.
Arguments SDone {A}.
Arguments SLog {A}.
Arguments SRead {A}.
