(* ===== verification/Server.v ===== *)
(** The daemon server ([harmonia-daemon/src/server/mod.rs]): the handshake, the
    dispatch of a request to the store, the reply, and the loop over requests.

    The server is modelled over any protocol reader and writer, and any store.
    [BoxedStore] only moves the results of the store to the heap. *)

From stdpp Require Import base list numbers strings.
From Stdlib Require Import ZArith Lia Strings.Byte.
From S2P Require Import Prelude Async Wire Sink ProtoRead Framed Version BaseEncoding Codecs Hash StorePath ContentAddress Signature DerivedPath NixIO Streams NixCodec WireTypes Messages Derivations Requests Logger DaemonErrors DaemonStore.

#[local] Unset Program Cases.

(** ** Errors *)

Record RecoverableError : Type := mk_recoverable { can_recover : bool; rec_source : DaemonError }.

(** [From] for [RecoverableError], and [recover]. *)
Definition fatal (e : DaemonError) : RecoverableError := mk_recoverable false e.
Definition recover (e : DaemonError) : RecoverableError := mk_recoverable true e.

Definition CLIENT_MAGIC : Z := 0x6e697863.
Definition SERVER_MAGIC : Z := 0x6478696f.
Definition SERVER_PROTOCOL_VERSION : ProtocolVersion := mk_version 1 37.
Definition NIX_VERSION : RString := mk_String (str "2.24.0 (Harmonia)").

Section server.
Context {DE : DataEncoding} {DL : DataEncodingLaws} {DG : DigestLib} {SA : StructuredAttrsLib}.
Context {ET : ErrorText}.
Context {SZ_Bytes : SizeOf Bytes} {SZ_DerivedPath : SizeOf DerivedPath} {SZ_Signature : SizeOf Signature}.
Context {SZ_Field : SizeOf Field} {SZ_TraceLine : SizeOf TraceLine}.
Context {SZ_KeyedBuildResult : SizeOf KeyedBuildResult}.
Context {RS WS St : Type} {HR : NixRead RS} {HF : FramedSource RS} {HW : NixWrite WS} {HA : AsyncWriter WS}.
Context {HS : DaemonStore St}.

(** ** Writing logs *)

(** A write whose error ends the connection. *)
Definition fatal_io {S A} : io S A → eff RecoverableError S A := map_err (λ e, fatal (from_io e)).

Definition write_log (msg : LogMessage) : eff RecoverableError WS unit :=
  _ ← fatal_io (write_value msg); fatal_io flush.

Fixpoint write_logs (logs : list LogMessage) : eff RecoverableError WS unit :=
  match logs with
  | [] => mret tt
  | msg :: logs => _ ← write_log msg; write_logs logs
  end.

(** The function [process_logs]. *)
Definition process_logs {T} (logs : ResultLog T) : eff RecoverableError WS T :=
  _ ← write_logs logs.1; eff_lift (res_map_err recover logs.2).

(** ** The connection *)

Record DaemonConnection : Type := mk_connection {
  store_trust : TrustLevel;
  conn_reader : RS;
  conn_writer : WS;
  (** The store, which the code passes along. *)
  conn_store : St
}.

Definition set_reader (r : RS) (s : DaemonConnection) : DaemonConnection :=
  mk_connection (store_trust s) r (conn_writer s) (conn_store s).
Definition set_writer (w : WS) (s : DaemonConnection) : DaemonConnection :=
  mk_connection (store_trust s) (conn_reader s) w (conn_store s).
Definition set_store (st : St) (s : DaemonConnection) : DaemonConnection :=
  mk_connection (store_trust s) (conn_reader s) (conn_writer s) st.

Definition on_reader {E A} (m : eff E RS A) : eff E DaemonConnection A := λ s,
  let '(r, a) := m (conn_reader s) in (set_reader r s, a).
Definition on_writer {E A} (m : eff E WS A) : eff E DaemonConnection A := λ s,
  let '(w, a) := m (conn_writer s) in (set_writer w s, a).

(** [write_value(&value).await?]. *)
Definition reply {T} {NS : NixSerialize T} (value : T) : eff RecoverableError DaemonConnection unit :=
  on_writer (fatal_io (write_value value)).

(** A method of the store, and the method [process_logs] of the connection. *)
Definition call {T} (e : StoreE T) : eff RecoverableError DaemonConnection T := λ s,
  let '(st, logs) := store_call e (conn_store s) in
  (value ← on_writer (process_logs logs); _ ← reply RLast; mret value) (set_store st s).

(** ** Data from the client *)

(** A method of the store that reads from [framed]: its messages are written
    as they come, and what it reads comes from the frames. *)
Fixpoint upload_loop {A} (p : source_log A) : eff RecoverableError (framing * WS) A :=
  match p with
  | SDone a => mret a
  | SLog msg k => λ '(f, w),
      match write_log msg w with
      | (w, Ok _) => upload_loop k (f, w)
      | (w, Err e) => ((f, w), Err e)
      | (w, Panic) => ((f, w), Panic)
      end
  | SRead room k => λ '(f, w),
      match framed_get room f with
      | (f, Panic) => ((f, w), Panic)
      | (f, r) => upload_loop (k r) (f, w)
      end
  end.

(** The method, then [drain_all], whatever came of the method; the first error
    of the two. *)
Definition upload {T} (e : UploadE T) : eff RecoverableError DaemonConnection T := λ s,
  let '((f, w), r) := upload_loop (store_upload e (conn_store s)) (framed_open (conn_reader s), conn_writer s) in
  let '(f, drained) := framed_drain_all f in
  let s := set_writer w (set_reader (framed_close f) s) in
  match r, drained with
  | Panic, _ | _, Panic => (s, Panic)
  | Err e, _ => (s, Err e)
  | Ok (st, r), drained =>
      (value ← eff_lift (res_map_err recover r);
       _ ← eff_lift (res_map_err (λ e, fatal (from_io e)) drained); mret value) (set_store st s)
  end.

(** [copy_buf] from the reader of a NAR. *)
Fixpoint copy_buf (chunks : list (res io_error bytes)) : io WS unit :=
  match chunks with
  | [] | Ok [] :: _ => flush
  | Ok chunk :: chunks => _ ← write_all chunk; copy_buf chunks
  | Err e :: _ => io_lift (Err e)
  | Panic :: _ => io_lift Panic
  end.

Definition serve_nar (path : StorePath) : eff RecoverableError DaemonConnection unit := λ s,
  let '(st, logs) := nar_from_path path (conn_store s) in
  (_ ← on_writer (write_logs logs.1);
   reader ← eff_lift (res_map_err fatal logs.2);
   _ ← reply RLast;
   on_writer (fatal_io (copy_buf reader))) (set_store st s).

(** [AddMultipleToStore]; [MultiStore] has its handler. *)
Context (serve_add_multiple : AddMultipleToStoreRequest → eff RecoverableError DaemonConnection unit).

(** ** A request *)

Definition process_request (request : Request) : eff RecoverableError DaemonConnection unit :=
  match request with
  | RqSetOptions options => call (set_options options)
  | RqIsValidPath path => value ← call (is_valid_path path); reply value
  | RqQueryValidPaths req => value ← call (query_valid_paths (qv_paths req) (qv_substitute req)); reply value
  | RqQueryPathInfo path => value ← call (query_path_info path); reply value
  | RqNarFromPath path => serve_nar path
  | RqQueryReferrers path => value ← call (query_referrers path); reply value
  | RqAddToStore req =>
      value ← upload (add_ca_to_store (as_name req) (as_cam req) (as_refs req) (as_repair req));
      _ ← reply RLast; reply value
  | RqBuildPaths req => _ ← call (build_paths (bp_paths req) (bp_mode req)); reply ignored_one
  | RqEnsurePath path => _ ← call (ensure_path path); reply ignored_one
  | RqAddTempRoot path => _ ← call (add_temp_root path); reply ignored_one
  | RqAddIndirectRoot path => _ ← call (add_indirect_root path); reply ignored_one
  | RqFindRoots => value ← call find_roots; reply value
  | RqCollectGarbage req =>
      value ← call (collect_garbage (cg_action req) (cg_paths_to_delete req) (cg_ignore_liveness req)
                      (cg_max_freed req));
      reply value
  | RqQueryAllValidPaths => value ← call query_all_valid_paths; reply value
  | RqQueryPathFromHashPart hash => value ← call (query_path_from_hash_part hash); reply value
  | RqQuerySubstitutablePaths paths => value ← call (query_substitutable_paths paths); reply value
  | RqQueryValidDerivers path => value ← call (query_valid_derivers path); reply value
  | RqOptimiseStore => _ ← call optimise_store; reply ignored_one
  | RqVerifyStore req => value ← call (verify_store (vs_check_contents req) (vs_repair req)); reply value
  | RqBuildDerivation req =>
      let '(drv_path, drv) := bd_drv req in
      value ← call (build_derivation drv_path drv (bd_mode req)); reply value
  | RqAddSignatures req => _ ← call (add_signatures (ag_path req) (ag_signatures req)); reply ignored_one
  | RqAddToStoreNar req =>
      _ ← upload (add_to_store_nar (an_path_info req) (an_repair req) (an_dont_check_sigs req));
      reply RLast
  | RqQueryMissing paths => value ← call (query_missing paths); reply value
  | RqQueryDerivationOutputMap path => value ← call (query_derivation_output_map path); reply value
  | RqRegisterDrvOutput realisation => call (register_drv_output realisation)
  | RqQueryRealisation output_id => value ← call (query_realisation output_id); reply value
  | RqAddMultipleToStore req => serve_add_multiple req
  | RqAddBuildLog path =>
      _ ← upload (add_build_log (base_store_path path));
      _ ← reply RLast; reply ignored_one
  | RqBuildPathsWithResults req =>
      value ← call (build_paths_with_results (bp_paths req) (bp_mode req)); reply value
  | RqAddPermRoot req => value ← call (add_perm_root (ap_store_path req) (ap_gc_root req)); reply value
  end.

(** What [process_requests] does with a request. *)
Definition serve_request (request : Request) : eff DaemonError DaemonConnection unit := λ s,
  match process_request request s with
  | (s, Ok _) => on_writer (io_try flush) s
  | (s, Err err) =>
      let source := fill_operation (operation request) (rec_source err) in
      if can_recover err
      then (_ ← on_writer (io_try (write_value (RError (LogError_from source)))); on_writer (io_try flush)) s
      else (s, Err source)
  | (s, Panic) => (s, Panic)
  end.

(** [fuel] bounds the number of requests. *)
Fixpoint process_requests (fuel : nat) : eff DaemonError DaemonConnection unit :=
  match fuel with
  | O => eff_lift Panic
  | S fuel =>
      res ← on_reader (io_try (try_read_value Request));
      match res with
      | None => λ s, let '(st, r) := shutdown (conn_store s) in (set_store st s, r)
      | Some request => _ ← serve_request request; process_requests fuel
      end
  end.
End server.
Arguments DaemonConnection : clear implicits.
Arguments mk_connection {RS WS St}.
Arguments store_trust {RS WS St}.
Arguments conn_reader {RS WS St}.
Arguments conn_writer {RS WS St}.
Arguments conn_store {RS WS St}.

(** ** Handshake *)

(** A store before its handshake ([HandshakeDaemonStore]). *)
Class HandshakeDaemonStore (H St : Type) : Type := store_handshake : H → ResultLog St.

Record Builder : Type := mk_builder {
  bld_store_trust : TrustLevel;
  bld_store_dir : StoreDir;
  bld_min_version : ProtocolVersion;
  bld_max_version : ProtocolVersion;
  bld_nix_version : option RString
}.

Definition Builder_default : Builder :=
  mk_builder TrustNotTrusted (str "/nix/store") PROTOCOL_VERSION_MIN PROTOCOL_VERSION None.

Definition bld_set_store_dir (b : Builder) (store_dir : StoreDir) : Builder :=
  mk_builder (bld_store_trust b) store_dir (bld_min_version b) (bld_max_version b) (bld_nix_version b).

Definition bld_set_min_version {E} (b : Builder) (version : ProtocolVersion) : res E Builder :=
  if version_lt version PROTOCOL_VERSION_MIN then Panic
  else Ok (mk_builder (bld_store_trust b) (bld_store_dir b) version (bld_max_version b) (bld_nix_version b)).

Definition bld_set_max_version {E} (b : Builder) (version : ProtocolVersion) : res E Builder :=
  if version_lt PROTOCOL_VERSION version then Panic
  else Ok (mk_builder (bld_store_trust b) (bld_store_dir b) (bld_min_version b) version (bld_nix_version b)).

Section handshake.
Context {DE : DataEncoding} {DL : DataEncodingLaws} {DG : DigestLib} {SA : StructuredAttrsLib}.
Context {ET : ErrorText}.
Context {SZ_Bytes : SizeOf Bytes} {SZ_DerivedPath : SizeOf DerivedPath} {SZ_Signature : SizeOf Signature}.
Context {SZ_Field : SizeOf Field} {SZ_TraceLine : SizeOf TraceLine}.
Context {SZ_KeyedBuildResult : SizeOf KeyedBuildResult}.
Context {RS WS H St : Type} {HR : NixRead RS} {HF : FramedSource RS} {HVR : SetVersion RS}.
Context {HW : NixWrite WS} {HA : AsyncWriter WS} {HVW : SetVersion WS}.
Context {HH : HandshakeDaemonStore H St} {HS : DaemonStore St}.

Definition set_versions {St'} (v : ProtocolVersion) : eff DaemonError (DaemonConnection RS WS St') unit := λ s,
  (set_writer (set_version v (conn_writer s)) (set_reader (set_version v (conn_reader s)) s), Ok tt).

(** The method [handshake]; the version the two sides agree on. *)
Definition handshake (min_version max_version : ProtocolVersion) (nix_version : RString)
    : eff DaemonError (DaemonConnection RS WS H) ProtocolVersion :=
  if negb (bool_decide (major min_version = 1%Z) && bool_decide (37 ≤ minor min_version)%Z) then eff_lift Panic
  else if version_lt SERVER_PROTOCOL_VERSION max_version then eff_lift Panic
  else
  client_magic ← on_reader (with_field "clientMagic" read_number);
  if bool_decide (client_magic ≠ CLIENT_MAGIC) then throw_field "clientMagic" (WrongMagic client_magic) else
  _ ← on_writer (with_field "serverMagic" (write_number SERVER_MAGIC));
  _ ← on_writer (with_field "protocolVersion" (write_value max_version));
  _ ← on_writer (io_try flush);
  client_version ← on_reader (with_field "clientVersion" (read_value ProtocolVersion));
  let version := version_min client_version max_version in
  if version_lt version min_version then throw_field "clientVersion" (UnsupportedVersion version) else
  _ ← set_versions version;
  send_cpu ← on_reader (with_field "sendCpu" (read_value bool));
  _ ← (if send_cpu : bool then _ ← on_reader (with_field "cpuAffinity" read_number); mret tt else mret tt);
  _ ← on_reader (with_field "reserveSpace" (read_value bool));
  _ ← on_writer (with_field "nixVersion" (write_value nix_version));
  (λ s, on_writer (with_field "trusted" (write_value (store_trust s))) s) ≫= λ _,
  _ ← on_writer (io_try flush);
  mret version.

(** [serve_connection] on a reader and a writer built for the connection, with
    fuel for the requests. *)
Definition serve_connection
    (serve_add_multiple : AddMultipleToStoreRequest → eff RecoverableError (DaemonConnection RS WS St) unit)
    (b : Builder) (fuel : nat) (reader : RS) (writer : WS) (store : H)
    : RS * WS * res DaemonError unit :=
  let conn := mk_connection (bld_store_trust b) reader writer store in
  match handshake (bld_min_version b) (bld_max_version b) (default NIX_VERSION (bld_nix_version b)) conn with
  | (conn, Ok _) =>
      match (store ← process_logs (store_handshake store); _ ← fatal_io (write_value RLast); mret store)
              (conn_writer conn) with
      | (w, Ok store) =>
          let conn := mk_connection (store_trust conn) (conn_reader conn) w store in
          let '(conn, r) := (_ ← on_writer (io_try flush); process_requests serve_add_multiple fuel) conn in
          (conn_reader conn, conn_writer conn, r)
      | (w, Err e) => (conn_reader conn, w, Err (rec_source e))
      | (w, Panic) => (conn_reader conn, w, Panic)
      end
  | (conn, Err e) => (conn_reader conn, conn_writer conn, Err e)
  | (conn, Panic) => (conn_reader conn, conn_writer conn, Panic)
  end.
End handshake.
