(* ===== verification/ServerSpec.v ===== *)
(** What the daemon server does, seen from its streams: the replies, and that
    serving a request, or a session of requests, writes exactly the replies of
    the store. *)

From stdpp Require Import base list numbers strings.
From Stdlib Require Import ZArith Lia Strings.Byte.
From S2P Require Import Prelude Async Wire Sink ProtoRead Framed Version BaseEncoding Codecs Hash StorePath ContentAddress Signature DerivedPath NixIO Streams NixCodec WireTypes Messages Derivations Requests Logger DaemonErrors DaemonStore Server.

#[local] Unset Program Cases.

(** ** The replies *)

Section replies.
Context {DE : DataEncoding} {DL : DataEncodingLaws} {DG : DigestLib} {SA : StructuredAttrsLib}.
Context {ET : ErrorText}.
Context {SZ_Bytes : SizeOf Bytes} {SZ_DerivedPath : SizeOf DerivedPath} {SZ_Signature : SizeOf Signature}.
Context {SZ_Field : SizeOf Field} {SZ_TraceLine : SizeOf TraceLine}.
Context {SZ_KeyedBuildResult : SizeOf KeyedBuildResult}.

(** The request of a method. *)
Definition request_of {T} (e : StoreE T) : Request :=
  match e with
  | set_options options => RqSetOptions options
  | is_valid_path path => RqIsValidPath path
  | query_valid_paths paths substitute => RqQueryValidPaths (mk_QueryValidPathsRequest paths substitute)
  | query_path_info path => RqQueryPathInfo path
  | build_paths paths mode => RqBuildPaths (mk_BuildPathsRequest paths mode)
  | build_paths_with_results drvs mode => RqBuildPathsWithResults (mk_BuildPathsRequest drvs mode)
  | build_derivation drv_path drv mode => RqBuildDerivation (mk_BuildDerivationRequest (drv_path, drv) mode)
  | query_missing paths => RqQueryMissing paths
  | query_all_valid_paths => RqQueryAllValidPaths
  | query_referrers path => RqQueryReferrers path
  | ensure_path path => RqEnsurePath path
  | add_temp_root path => RqAddTempRoot path
  | add_indirect_root path => RqAddIndirectRoot path
  | find_roots => RqFindRoots
  | collect_garbage action paths_to_delete ignore_liveness max_freed =>
      RqCollectGarbage (mk_CollectGarbageRequest action paths_to_delete ignore_liveness max_freed
                          ignored_zero ignored_zero ignored_zero)
  | query_path_from_hash_part hash => RqQueryPathFromHashPart hash
  | query_substitutable_paths paths => RqQuerySubstitutablePaths paths
  | query_valid_derivers path => RqQueryValidDerivers path
  | optimise_store => RqOptimiseStore
  | verify_store check_contents repair => RqVerifyStore (mk_VerifyStoreRequest check_contents repair)
  | add_signatures path signatures => RqAddSignatures (mk_AddSignaturesRequest path signatures)
  | query_derivation_output_map path => RqQueryDerivationOutputMap path
  | register_drv_output realisation => RqRegisterDrvOutput realisation
  | query_realisation output_id => RqQueryRealisation output_id
  | add_perm_root path gc_root => RqAddPermRoot (mk_AddPermRootRequest path gc_root)
  end.

Definition upload_request {T} (e : UploadE T) : Request :=
  match e with
  | add_to_store_nar info repair dont_check_sigs =>
      RqAddToStoreNar (mk_AddToStoreNarRequest info repair dont_check_sigs)
  | add_build_log path => RqAddBuildLog (mk_base_store_path path)
  | add_ca_to_store name cam refs repair => RqAddToStore (mk_AddToStoreRequest name cam refs repair)
  end.

Lemma request_of_operation {T} (e : StoreE T) : operation (request_of e) = store_operation e.
Proof. by destruct e. Qed.

Lemma upload_request_operation {T} (e : UploadE T) : operation (upload_request e) = upload_operation e.
Proof. by destruct e. Qed.

(** What follows the log of a method that succeeded: nothing, a number that is
    ignored, or the value. *)
Definition value_bytes (E : env) {T} (e : StoreE T) : T → bytes :=
  match e in StoreE T return T → bytes with
  | set_options _ | register_drv_output _ => λ _, []
  | build_paths _ _ | ensure_path _ | add_temp_root _ | add_indirect_root _ | optimise_store
  | add_signatures _ _ => λ _, codec_bytes E ignored_one
  | is_valid_path _ | verify_store _ _ => λ v, codec_bytes E v
  | query_valid_paths _ _ | query_all_valid_paths | query_referrers _ | query_substitutable_paths _
  | query_valid_derivers _ => λ v, codec_bytes E v
  | query_path_info _ => λ v, codec_bytes E v
  | build_paths_with_results _ _ => λ v, codec_bytes E v
  | build_derivation _ _ _ => λ v, codec_bytes E v
  | query_missing _ => λ v, codec_bytes E v
  | find_roots => λ v, codec_bytes E v
  | collect_garbage _ _ _ _ => λ v, codec_bytes E v
  | query_path_from_hash_part _ => λ v, codec_bytes E v
  | query_derivation_output_map _ => λ v, codec_bytes E v
  | query_realisation _ => λ v, codec_bytes E v
  | add_perm_root _ _ => λ v, codec_bytes E v
  end.

Definition value_ok (E : env) {T} (e : StoreE T) : T → Prop :=
  match e in StoreE T return T → Prop with
  | set_options _ | register_drv_output _ => λ _, True
  | build_paths _ _ | ensure_path _ | add_temp_root _ | add_indirect_root _ | optimise_store
  | add_signatures _ _ => λ _, True
  | is_valid_path _ | verify_store _ _ => λ v, codec_ok E v
  | query_valid_paths _ _ | query_all_valid_paths | query_referrers _ | query_substitutable_paths _
  | query_valid_derivers _ => λ v, codec_ok E v
  | query_path_info _ => λ v, codec_ok E v
  | build_paths_with_results _ _ => λ v, codec_ok E v
  | build_derivation _ _ _ => λ v, codec_ok E v
  | query_missing _ => λ v, codec_ok E v
  | find_roots => λ v, codec_ok E v
  | collect_garbage _ _ _ _ => λ v, codec_ok E v
  | query_path_from_hash_part _ => λ v, codec_ok E v
  | query_derivation_output_map _ => λ v, codec_ok E v
  | query_realisation _ => λ v, codec_ok E v
  | add_perm_root _ _ => λ v, codec_ok E v
  end.

Definition upload_value_bytes (E : env) {T} (e : UploadE T) : T → bytes :=
  match e in UploadE T return T → bytes with
  | add_to_store_nar _ _ _ => λ _, []
  | add_build_log _ => λ _, codec_bytes E ignored_one
  | add_ca_to_store _ _ _ _ => λ v, codec_bytes E v
  end.

Definition upload_value_ok (E : env) {T} (e : UploadE T) : T → Prop :=
  match e in UploadE T return T → Prop with
  | add_to_store_nar _ _ _ | add_build_log _ => λ _, True
  | add_ca_to_store _ _ _ _ => λ v, codec_ok E v
  end.

Definition logs_bytes (E : env) (logs : list LogMessage) : bytes :=
  concat ((λ m, codec_bytes E (raw_of m)) <$> logs).
Definition logs_ok (E : env) (logs : list LogMessage) : Prop := Forall (λ m, codec_ok E (raw_of m)) logs.

(** The message for an error of the operation [op]. *)
Definition error_message (op : Operation) (err : DaemonError) : RawLogMessage :=
  RError (LogError_from (fill_operation op err)).

(** The reply to an operation that ends with [r], given the bytes of a value. *)
Definition result_bytes {T} (E : env) (op : Operation) (value : T → bytes) (r : res DaemonError T) : bytes :=
  match r with
  | Ok v => codec_bytes E RLast ++ value v
  | Err err => codec_bytes E (error_message op err)
  | Panic => []
  end.

Definition result_ok {T} (E : env) (op : Operation) (value : T → Prop) (r : res DaemonError T) : Prop :=
  match r with
  | Ok v => value v
  | Err err => codec_ok E (error_message op err)
  | Panic => False
  end.

Definition reply_bytes (E : env) {T} (e : StoreE T) (out : ResultLog T) : bytes :=
  logs_bytes E out.1 ++ result_bytes E (store_operation e) (value_bytes E e) out.2.

Definition reply_ok (E : env) {T} (e : StoreE T) (out : ResultLog T) : Prop :=
  logs_ok E out.1 ∧ result_ok E (store_operation e) (value_ok E e) out.2.
End replies.

(** ** Proofs about writers *)

Section emits.
Context {S : Type} {HW : NixWrite S} {HWL : NixWriteLaws S}.

(** [m] writes [bs] and ends with [r]. *)
Definition emits {X A} (E : env) (m : eff X S A) (bs : bytes) (r : res X A) : Prop :=
  ∀ s d, nw_at s d → w_env E s → ∃ s', m s = (s', r) ∧ nw_at s' (d ++ bs) ∧ w_env E s'.

Lemma emits_io {X} E (f : io_error → X) (m : io S unit) bs :
  writes E m bs → emits E (map_err f m) bs (Ok tt).
Proof.
  intros H s d Hs He. destruct (H s d Hs He) as (s' & Hm & ?). exists s'. by rewrite (eff_map_err_Ok _ _ _ _ _ Hm).
Qed.

Lemma emits_lift {X A} E (r : res X A) : emits E (eff_lift r) [] r.
Proof. intros s d Hs He. exists s. by rewrite app_nil_r. Qed.

Lemma emits_ret {X A} E (a : A) : emits (X:=X) E (mret a) [] (Ok a).
Proof. apply (emits_lift E (Ok a)). Qed.

Lemma emits_bind {X A B} E (m : eff X S A) (f : A → eff X S B) b1 b2 a r :
  emits E m b1 (Ok a) → emits E (f a) b2 r → emits E (m ≫= f) (b1 ++ b2) r.
Proof.
  intros H1 H2 s d Hs He. destruct (H1 s d Hs He) as (s1 & E1 & Hs1 & He1).
  destruct (H2 s1 _ Hs1 He1) as (s2 & E2 & Hs2 & He2). exists s2.
  rewrite (eff_bind_Ok _ _ _ _ _ E1), app_assoc. done.
Qed.
End emits.

Section server_proofs.
Context {DE : DataEncoding} {DL : DataEncodingLaws} {DG : DigestLib} {SA : StructuredAttrsLib}.
Context {ET : ErrorText}.
Context {SZ_Bytes : SizeOf Bytes} {SZ_DerivedPath : SizeOf DerivedPath} {SZ_Signature : SizeOf Signature}.
Context {SZ_Field : SizeOf Field} {SZ_TraceLine : SizeOf TraceLine}.
Context {SZ_KeyedBuildResult : SizeOf KeyedBuildResult}.
Context {WS : Type} {HW : NixWrite WS} {HWL : NixWriteLaws WS} {HA : AsyncWriter WS} {HAL : AsyncWriterLaws WS}.

Lemma writes_flush E : writes E flush [].
Proof using HAL.
  intros s d Hs He. destruct (flush_law s d Hs) as (s' & ? & ? & ? & ?). exists s'. rewrite app_nil_r.
  eauto using w_env_same.
Qed.

Lemma writes_all E b : writes E (write_all b) b.
Proof using HAL.
  intros s d Hs He. destruct (write_all_law s d b Hs) as (s' & ? & ? & ?). exists s'. eauto using w_env_same.
Qed.

Lemma emits_write_log E m :
  codec_ok E (raw_of m) → emits E (write_log m) (codec_bytes E (raw_of m)) (Ok tt).
Proof using HAL DL.
  intros Hm. rewrite <-(app_nil_r (codec_bytes _ _)). eapply emits_bind.
  - apply emits_io, writes_log, Hm.
  - apply emits_io, writes_flush.
Qed.

Lemma emits_write_logs E logs : logs_ok E logs → emits E (write_logs logs) (logs_bytes E logs) (Ok tt).
Proof using HAL DL.
  induction 1 as [|m logs Hm _ IH]; [apply emits_ret|]. cbn [write_logs]. unfold logs_bytes. cbn.
  eapply emits_bind; [by apply emits_write_log|exact IH].
Qed.

Lemma emits_process_logs {T} E (out : ResultLog T) :
  logs_ok E out.1 → emits E (process_logs out) (logs_bytes E out.1) (res_map_err recover out.2).
Proof using HAL DL.
  intros Hl. rewrite <-(app_nil_r (logs_bytes _ _)).
  eapply emits_bind; [by apply emits_write_logs|apply emits_lift].
Qed.

Lemma emits_copy_buf E chunks :
  Forall (λ c, c ≠ []) chunks → emits E (fatal_io (copy_buf (Ok <$> chunks))) (concat chunks) (Ok tt).
Proof using HAL.
  intros Hc. apply emits_io. induction Hc as [|c chunks Hne _ IH]; [apply writes_flush|].
  destruct c as [|x c]; [done|]. cbn [fmap list_fmap copy_buf concat].
  apply writes_bind; [apply writes_all|exact IH].
Qed.

(** What [copy_buf] copies of a reader, up to its end or its first error. *)
Fixpoint read_chunks (l : list (res io_error bytes)) : list bytes * res io_error unit :=
  match l with
  | [] | Ok [] :: _ => ([], Ok tt)
  | Ok c :: l => let '(cs, r) := read_chunks l in (c :: cs, r)
  | Err e :: _ => ([], Err e)
  | Panic :: _ => ([], Panic)
  end.

Lemma read_chunks_ok chunks : Forall (λ c, c ≠ []) chunks → read_chunks (Ok <$> chunks) = (chunks, Ok tt).
Proof using Type. induction 1 as [|[|x c] chunks Hne _ IH]; [done|done|]. cbn in *. by rewrite IH. Qed.

Lemma emits_copy_chunks E l :
  emits E (fatal_io (copy_buf l)) (concat (read_chunks l).1)
    (res_map_err (λ e, fatal (from_io e)) (read_chunks l).2).
Proof using HAL.
  induction l as [|c l IH]; [apply emits_io, writes_flush|].
  destruct c as [[|x c]|e|]; [apply emits_io, writes_flush| |apply (emits_lift E (Err _))|apply (emits_lift E Panic)].
  intros s d Hs He. cbn [copy_buf read_chunks]. destruct (writes_all E (x :: c) s d Hs He) as (s1 & E1 & Hs1 & He1).
  destruct (IH s1 _ Hs1 He1) as (s2 & E2 & Hs2 & He2). exists s2.
  destruct (read_chunks l) as [cs r]. cbn [fst snd] in *. split_and!; [|by rewrite <-app_assoc in Hs2|done].
  unfold fatal_io, map_err in *. by rewrite (io_bind_Ok _ _ _ _ _ E1).
Qed.
End server_proofs.

(** ** Proofs about the connection *)

Section connection.
Context {DE : DataEncoding} {DL : DataEncodingLaws} {DG : DigestLib} {SA : StructuredAttrsLib}.
Context {ET : ErrorText}.
Context {SZ_Bytes : SizeOf Bytes} {SZ_DerivedPath : SizeOf DerivedPath} {SZ_Signature : SizeOf Signature}.
Context {SZ_Field : SizeOf Field} {SZ_TraceLine : SizeOf TraceLine}.
Context {SZ_KeyedBuildResult : SizeOf KeyedBuildResult}.
Context {RS : Type} {HR : NixRead RS} {HRL : NixReadLaws RS} {HF : FramedSource RS} {HFL : FramedSourceLaws RS}.
Context {WS : Type} {HW : NixWrite WS} {HWL : NixWriteLaws WS} {HA : AsyncWriter WS} {HAL : AsyncWriterLaws WS}.
Context {St : Type} {HS : DaemonStore St}.
Context (serve_add_multiple : AddMultipleToStoreRequest → eff RecoverableError (DaemonConnection RS WS St) unit).
Implicit Types s : DaemonConnection RS WS St.

(** The input [i] is still to be read, the output [d] has been written, and
    both sides agree on [E]. *)
Definition conn_at {St'} (E : env) (s : DaemonConnection RS WS St') (i d : bytes) : Prop :=
  nr_inv (conn_reader s) ∧ r_env E (conn_reader s) ∧ nr_rest (conn_reader s) = i ∧
  nw_at (conn_writer s) d ∧ w_env E (conn_writer s).

(** [m] turns the store [st] into [st'], takes the input from [i] to [i'],
    writes [bs] and ends with [r]. *)
Definition serves {X A} (E : env) (m : eff X (DaemonConnection RS WS St) A) (st : St) (i bs : bytes)
    (r : res X A) (st' : St) (i' : bytes) : Prop :=
  ∀ s d, conn_at E s i d → conn_store s = st →
  ∃ s', m s = (s', r) ∧ conn_at E s' i' (d ++ bs) ∧ conn_store s' = st' ∧ store_trust s' = store_trust s.

Lemma serves_writer {X A} E (m : eff X WS A) bs r st i :
  emits E m bs r → serves E (on_writer m) st i bs r st i.
Proof using Type.
  intros Hm s d (Hi & Hr & Hrest & Hw & He) Hst. destruct (Hm _ _ Hw He) as (w & E1 & Hw' & He').
  unfold on_writer. rewrite E1. eexists. split; [done|]. done.
Qed.

Lemma serves_reader {A} E (f : io_error → DaemonError) (m : io RS A) bs v st i :
  reads E m bs v → serves E (on_reader (map_err f m)) st (bs ++ i) [] (Ok v) st i.
Proof using Type.
  intros Hm s d (Hi & Hr & Hrest & Hw & He) Hst. destruct (Hm _ i Hi Hr Hrest) as (x & E1 & Hi' & Hr' & Hrest').
  unfold on_reader. rewrite (eff_map_err_Ok _ _ _ _ _ E1). rewrite app_nil_r. eexists. split; [done|]. done.
Qed.

Lemma serves_lift {X A} E (r : res X A) st i : serves E (eff_lift r) st i [] r st i.
Proof using Type. intros s d Hs Hst. exists s. by rewrite app_nil_r. Qed.

Lemma serves_bind {X A B} E (m : eff X _ A) (f : A → eff X _ B) st i b1 a st1 i1 b2 r st2 i2 :
  serves E m st i b1 (Ok a) st1 i1 → serves E (f a) st1 i1 b2 r st2 i2 →
  serves E (m ≫= f) st i (b1 ++ b2) r st2 i2.
Proof using Type.
  intros H1 H2 s d Hs Hst. destruct (H1 s d Hs Hst) as (s1 & E1 & Hs1 & Hst1 & Ht1).
  destruct (H2 s1 _ Hs1 Hst1) as (s2 & E2 & Hs2 & Hst2 & Ht2). exists s2.
  rewrite (eff_bind_Ok _ _ _ _ _ E1), app_assoc. split; [done|]. split; [done|]. split; [done|congruence].
Qed.

(** The rest is not run. *)
Lemma serves_stop {X A B} E (m : eff X _ A) (f : A → eff X _ B) st i bs (r : res X A) st1 i1 :
  (∀ a, r ≠ Ok a) → serves E m st i bs r st1 i1 →
  serves E (m ≫= f) st i bs (match r with Err e => Err e | _ => Panic end) st1 i1.
Proof using Type.
  intros Hr H1 s d Hs Hst. destruct (H1 s d Hs Hst) as (s1 & E1 & ?). exists s1.
  unfold mbind, eff_bind. rewrite E1. destruct r; [by destruct (Hr a)|done|done].
Qed.

Lemma serves_reply {T} {NS : NixSerialize T} {ND : NixDeserialize T} {CT : NixCodec T} E (v : T) st i :
  codec_ok E v → serves E (reply v) st i (codec_bytes E v) (Ok tt) st i.
Proof using Type. intros Hv. apply serves_writer, emits_io. exact (writes_value E v Hv). Qed.

Context (E : env) (HE : (20 ≤ minor (e_version E))%Z).

Lemma last_ok : codec_ok E RLast.
Proof using HE. done. Qed.

(** ** Methods of the store *)

(** What is written before the reply to a value. *)
Definition call_bytes {T} (out : ResultLog T) : bytes :=
  logs_bytes E out.1 ++ match out.2 with Ok _ => codec_bytes E RLast | _ => [] end.

Lemma serves_set_store {X A} (m : eff X _ A) st st' i bs r st2 i2 :
  serves E m st' i bs r st2 i2 → serves E (λ s, m (set_store st' s)) st i bs r st2 i2.
Proof using Type. intros H s d Hs Hst. by destruct (H (set_store st' s) d Hs eq_refl) as (s' & ?); exists s'. Qed.

(** [serves] of a function that is the same on the states in question. *)
Lemma serves_ext {X A} (m m' : eff X _ A) st i bs r st2 i2 :
  (∀ s, conn_store s = st → m s = m' s) → serves E m' st i bs r st2 i2 → serves E m st i bs r st2 i2.
Proof using Type. intros Hm H s d Hs Hst. rewrite Hm by done. by apply H. Qed.

Lemma serves_call {T} (e : StoreE T) st st' out i :
  store_call e st = (st', out) → logs_ok E out.1 →
  serves E (call e) st i (call_bytes out) (res_map_err recover out.2) st' i.
Proof using HAL HE DL.
  intros Hc Hl. eapply serves_ext.
  { intros s Hst. unfold call. rewrite Hst, Hc. reflexivity. }
  apply (serves_set_store (value ← on_writer (process_logs out); _ ← reply RLast; mret value)).
  assert (serves E (on_writer (process_logs out)) st' i (logs_bytes E out.1) (res_map_err recover out.2) st' i)
    as Hp by (by apply serves_writer, emits_process_logs).
  unfold call_bytes. destruct (out.2) as [v|err|].
  - eapply serves_bind; [exact Hp|]. rewrite <-(app_nil_r (codec_bytes E RLast)).
    eapply serves_bind; [apply serves_reply, last_ok|apply (serves_lift E (Ok v))].
  - rewrite app_nil_r. by apply (serves_stop E _ (λ v, _ ← reply RLast; mret v)) in Hp.
  - rewrite app_nil_r. by apply (serves_stop E _ (λ v, _ ← reply RLast; mret v)) in Hp.
Qed.

(** A method, then the reply to its value. *)
Lemma serves_call_reply {T} (e : StoreE T) st st' out i (k : T → eff RecoverableError _ unit) value :
  store_call e st = (st', out) → logs_ok E out.1 →
  (∀ v, out.2 = Ok v → serves E (k v) st' i (value v) (Ok tt) st' i) →
  serves E (v ← call e; k v) st i
    (logs_bytes E out.1 ++ match out.2 with Ok v => codec_bytes E RLast ++ value v | _ => [] end)
    (match out.2 with Ok _ => Ok tt | Err err => Err (recover err) | Panic => Panic end) st' i.
Proof using HAL HE DL.
  intros Hc Hl Hk. pose proof (serves_call e st st' out i Hc Hl) as Hs. unfold call_bytes in Hs.
  destruct (out.2) as [v|err|].
  - rewrite app_assoc. eapply serves_bind; [exact Hs|]. by apply Hk.
  - by apply (serves_stop E _ k) in Hs.
  - by apply (serves_stop E _ k) in Hs.
Qed.

(** What [process_request] writes for a method. *)
Definition request_bytes {T} (value : T → bytes) (out : ResultLog T) : bytes :=
  logs_bytes E out.1 ++ match out.2 with Ok v => codec_bytes E RLast ++ value v | _ => [] end.
Definition request_result {T} (out : ResultLog T) : res RecoverableError unit :=
  match out.2 with Ok _ => Ok tt | Err err => Err (recover err) | Panic => Panic end.

Lemma serves_call_unit (e : StoreE unit) st st' out i :
  store_call e st = (st', out) → logs_ok E out.1 →
  serves E (call e) st i (request_bytes (λ _, []) out) (request_result out) st' i.
Proof using HAL HE DL.
  intros Hc Hl. pose proof (serves_call e st st' out i Hc Hl) as Hs. unfold request_bytes, request_result, call_bytes in *.
  destruct out as [logs [[]|err|]]; cbn [fst snd] in *; rewrite ?app_nil_r in *; exact Hs.
Qed.

Lemma serves_process_request {T} (e : StoreE T) st st' out i :
  store_call e st = (st', out) → logs_ok E out.1 → (∀ v, out.2 = Ok v → value_ok E e v) →
  serves E (process_request serve_add_multiple (request_of e)) st i
    (request_bytes (value_bytes E e) out) (request_result out) st' i.
Proof using HAL HE DL.
  intros Hc Hl Hv. destruct e; cbn [request_of process_request value_ok value_bytes bd_drv] in *;
    first [ by apply serves_call_unit
          | apply (serves_call_reply _ st st' out i); [exact Hc|exact Hl|]; intros v Hr;
            apply serves_reply; first [exact (Hv v Hr)|done] ].
Qed.

(** ** A request *)

(** The reply is complete and flushed. *)
Definition serves_flushed {X A} (m : eff X (DaemonConnection RS WS St) A) (st : St) (i bs : bytes)
    (r : res X A) (st' : St) (i' : bytes) : Prop :=
  ∀ s d, conn_at E s i d → conn_store s = st →
  ∃ s', m s = (s', r) ∧ conn_at E s' i' (d ++ bs) ∧ conn_store s' = st' ∧ store_trust s' = store_trust s ∧
    w_sent (conn_writer s') = d ++ bs.

Lemma conn_flush s i d : conn_at E s i d →
  ∃ s', on_writer (io_try flush) s = (s', Ok tt) ∧ conn_at E s' i d ∧ conn_store s' = conn_store s ∧
    store_trust s' = store_trust s ∧ w_sent (conn_writer s') = d.
Proof using HAL.
  intros (Hi & Hr & Hrest & Hw & He). destruct (flush_law _ _ Hw) as (w & Ew & Hw' & Hsame & Hsent).
  unfold on_writer, io_try. rewrite (eff_map_err_Ok _ _ _ _ _ Ew).
  exists (set_writer w s). split; [done|]. split; [|done].
  split_and!; try done. exact (w_env_same _ _ _ Hsame He).
Qed.

(** Serving a request, given what [process_request] does. *)
Lemma serve_request_reply request s s1 i d bs (r : res DaemonError unit) :
  process_request serve_add_multiple request s = (s1, res_map_err recover r) →
  conn_at E s1 i (d ++ bs) → result_ok E (operation request) (λ _, True) r →
  let out := bs ++ match r with Err err => codec_bytes E (error_message (operation request) err) | _ => [] end in
  ∃ s', serve_request serve_add_multiple request s = (s', Ok tt) ∧ conn_at E s' i (d ++ out) ∧
    conn_store s' = conn_store s1 ∧ store_trust s' = store_trust s1 ∧ w_sent (conn_writer s') = d ++ out.
Proof using HAL DL.
  intros E1 Hs1 Hok out. unfold serve_request. rewrite E1. unfold out.
  destruct r as [[]|err|]; [| |done]; cbn [res_map_err result_ok] in *.
  - rewrite app_nil_r. apply conn_flush, Hs1.
  - cbn [can_recover recover rec_source].
    destruct (serves_writer E (io_try (write_value (error_message (operation request) err)))
      (codec_bytes E (error_message (operation request) err)) (Ok tt) (conn_store s1) i) with (s := s1)
      (d := d ++ bs) as (s2 & E2 & Hs2 & Hst2 & Ht2); [|done|done|].
    { apply emits_io. exact (writes_value E _ Hok). }
    rewrite (eff_bind_Ok _ _ _ _ _ E2). rewrite <-app_assoc in Hs2.
    destruct (conn_flush _ _ _ Hs2) as (s3 & -> & Hs3 & Hst3 & Ht3 & Hsent).
    exists s3. split_and!; congruence || done.
Qed.

Lemma serves_method {T} (e : StoreE T) st st' out i :
  store_call e st = (st', out) → reply_ok E e out →
  serves_flushed (serve_request serve_add_multiple (request_of e)) st i (reply_bytes E e out) (Ok tt) st' i.
Proof using HAL HE DL.
  intros Hc [Hl Hr].
  assert (reply_bytes E e out = request_bytes (value_bytes E e) out ++
    match request_result out with Err err => codec_bytes E (error_message (operation (request_of e)) (rec_source err))
                                | _ => [] end) as ->.
  { unfold reply_bytes, request_bytes, request_result, result_bytes. rewrite request_of_operation.
    destruct (out.2); cbn; rewrite ?app_nil_r; done. }
  pose proof (serves_process_request e st st' out i Hc Hl) as Hp. unfold request_result in *.
  intros s d Hs Hst. destruct (out.2) as [v|err|]; [..|done]; cbn [result_ok] in Hr.
  - destruct (Hp ltac:(by intros ? [= <-]) s d Hs Hst) as (s1 & E1 & Hs1 & <- & <-).
    exact (serve_request_reply _ s s1 i d _ (Ok tt) E1 Hs1 I).
  - destruct (Hp ltac:(done) s d Hs Hst) as (s1 & E1 & Hs1 & <- & <-).
    apply (serve_request_reply _ s s1 i d _ (Err err) E1 Hs1). by rewrite request_of_operation.
Qed.

(** ** Uploads *)

(** [p], reading from a source with the contents [c], logs [logs] and gives
    [a]: each read gets some bytes, none only at the end. *)
Inductive upload_runs {A} : source_log A → bytes → list LogMessage → A → Prop :=
| runs_done a c : upload_runs (SDone a) c [] a
| runs_log m k c logs a : upload_runs k c logs a → upload_runs (SLog m k) c (m :: logs) a
| runs_read room k b c logs a :
    length b ≤ S room → (b = [] → c = []) → upload_runs (k (Ok b)) c logs a →
    upload_runs (SRead room k) (b ++ c) logs a.

(** The messages [p] logs can be sent, whatever it reads. *)
Fixpoint source_log_ok {A} (p : source_log A) : Prop :=
  match p with
  | SDone _ => True
  | SLog m k => codec_ok E (raw_of m) ∧ source_log_ok k
  | SRead _ k => ∀ r, source_log_ok (k r)
  end.

Lemma upload_loop_spec {A} (p : source_log A) (r0 : RS) f c tl (w : WS) d :
  source_log_ok p → fr_at r0 f c tl → nw_at w d → w_env E w →
  ∃ logs a f' c' w', upload_loop p (f, w) = ((f', w'), Ok a) ∧ upload_runs p c logs a ∧
    fr_at r0 f' c' tl ∧ nw_at w' (d ++ logs_bytes E logs) ∧ w_env E w'.
Proof using HAL HFL DL.
  revert f c w d. induction p as [a|m k IH|room k IH]; intros f c w d Hp Hf Hw He.
  - exists [], a, f, c, w. unfold logs_bytes. cbn. rewrite app_nil_r. split_and!; try done. constructor.
  - destruct Hp as [Hm Hk]. destruct (emits_write_log E m Hm w d Hw He) as (w1 & E1 & Hw1 & He1).
    destruct (IH f c w1 _ Hk Hf Hw1 He1) as (logs & a & f' & c' & w' & E2 & Hruns & Hf' & Hw' & He').
    exists (m :: logs), a, f', c', w'. cbn [upload_loop]. rewrite E1. unfold logs_bytes. cbn.
    rewrite app_assoc. split_and!; try done. by constructor.
  - destruct (framed_get_law r0 f c tl room Hf) as (f1 & b & c1 & E1 & Hf1 & -> & Hb & Hend).
    destruct (IH (Ok b) f1 c1 w d (Hp _) Hf1 Hw He) as (logs & a & f' & c' & w' & E2 & Hruns & ?).
    exists logs, a, f', c', w'. cbn [upload_loop]. rewrite E1. split; [done|]. split; [|done].
    constructor; [done| |done]. intros ->. by apply Hend.
Qed.

(** [upload] writes what the method logs and takes the frames off the input. *)
Lemma serves_upload {T} (e : UploadE T) st fs tl :
  source_log_ok (store_upload e st) → frames_ok fs →
  ∀ s d, conn_at E s (frames fs ++ tl) d → conn_store s = st →
  ∃ logs st' r s', upload_runs (store_upload e st) (concat fs) logs (st', r) ∧
    upload e s = (s', res_map_err recover r) ∧ conn_at E s' tl (d ++ logs_bytes E logs) ∧
    conn_store s' = st' ∧ store_trust s' = store_trust s.
Proof using HAL HFL DL.
  intros Hok Hfs s d (Hi & Hr & Hrest & Hw & He) Hst. subst st.
  pose proof (framed_open_law _ _ _ Hi Hfs Hrest) as Hopen.
  destruct (upload_loop_spec _ _ _ _ _ _ _ Hok Hopen Hw He) as (logs & [st' r] & f & c & w & E1 & Hruns & Hf & Hw' & He').
  destruct (framed_drain_law _ _ _ _ Hf) as (f' & n & E2 & Hsame & Hi' & Hrest').
  exists logs, st', r. unfold upload. rewrite E1, E2.
  eexists. split; [exact Hruns|]. split; [by destruct r|].
  split; [|done]. split_and!; try done. exact (r_env_same _ _ _ Hsame Hr).
Qed.

(** The reply to an upload. *)
Definition upload_bytes {T} (e : UploadE T) (logs : list LogMessage) (r : res DaemonError T) : bytes :=
  logs_bytes E logs ++ result_bytes E (upload_operation e) (upload_value_bytes E e) r.

Definition upload_ok {T} (e : UploadE T) (r : res DaemonError T) : Prop :=
  result_ok E (upload_operation e) (upload_value_ok E e) r.

(** What [process_request] does for an upload: the same for the three of them,
    but for the reply. *)
Lemma upload_request_eq {T} (e : UploadE T) :
  ∃ k, process_request serve_add_multiple (upload_request e) = (v ← upload e; k v) ∧
    ∀ v st i, upload_value_ok E e v →
      serves E (k v) st i (codec_bytes E RLast ++ upload_value_bytes E e v) (Ok tt) st i.
Proof using HE DL.
  destruct e; eexists; (split; [reflexivity|]); cbn [upload_value_ok upload_value_bytes]; intros v st i Hv.
  - rewrite app_nil_r. apply serves_reply, last_ok.
  - eapply serves_bind; apply serves_reply; [apply last_ok|done].
  - eapply serves_bind; apply serves_reply; [apply last_ok|done].
Qed.

Lemma serves_upload_request {T} (e : UploadE T) st fs tl s d :
  source_log_ok (store_upload e st) → frames_ok fs →
  (∀ logs st' r, upload_runs (store_upload e st) (concat fs) logs (st', r) → upload_ok e r) →
  conn_at E s (frames fs ++ tl) d → conn_store s = st →
  ∃ logs st' r s', upload_runs (store_upload e st) (concat fs) logs (st', r) ∧
    serve_request serve_add_multiple (upload_request e) s = (s', Ok tt) ∧
    conn_at E s' tl (d ++ upload_bytes e logs r) ∧ conn_store s' = st' ∧
    w_sent (conn_writer s') = d ++ upload_bytes e logs r.
Proof using HAL HFL HE DL.
  intros Hok Hfs Hres Hs Hst. destruct (serves_upload e st fs tl Hok Hfs s d Hs Hst)
    as (logs & st' & r & s1 & Hruns & E1 & Hs1 & Hst1 & Ht1).
  destruct (upload_request_eq e) as (k & Ek & Hk). pose proof (Hres _ _ _ Hruns) as Hr.
  unfold upload_bytes, upload_ok, result_bytes in *. exists logs, st', r.
  destruct r as [v|err|]; [..|done]; cbn [res_map_err result_ok] in *.
  - destruct (Hk v st' tl Hr s1 _ Hs1 Hst1) as (s2 & E2 & Hs2 & Hst2 & Ht2). rewrite <-app_assoc in Hs2.
    assert (process_request serve_add_multiple (upload_request e) s = (s2, res_map_err recover (Ok tt))) as Ep
      by (by rewrite Ek, (eff_bind_Ok _ _ _ _ _ E1)).
    destruct (serve_request_reply _ _ _ _ _ _ _ Ep Hs2 I) as (s' & ? & ? & ? & ? & ?).
    rewrite app_nil_r in *. exists s'. split_and!; congruence || done.
  - assert (process_request serve_add_multiple (upload_request e) s = (s1, res_map_err recover (Err err))) as Ep
      by (by rewrite Ek, (eff_bind_Err _ _ _ _ _ E1)).
    rewrite <-upload_request_operation in *.
    destruct (serve_request_reply _ _ _ _ _ _ _ Ep Hs1 Hr) as (s' & ? & ? & ? & ? & ?).
    exists s'. split_and!; congruence || done.
Qed.

(** ** NARs *)

Definition nar_bytes (logs : list LogMessage) (chunks : list bytes) : bytes :=
  logs_bytes E logs ++ codec_bytes E RLast ++ concat chunks.

Lemma serves_nar path st st' logs chunks i s d :
  nar_from_path path st = (st', (logs, Ok (Ok <$> chunks))) → logs_ok E logs → Forall (λ c, c ≠ []) chunks →
  conn_at E s i d → conn_store s = st →
  ∃ s', serve_request serve_add_multiple (RqNarFromPath path) s = (s', Ok tt) ∧
    conn_at E s' i (d ++ nar_bytes logs chunks) ∧ conn_store s' = st' ∧
    w_sent (conn_writer s') = d ++ nar_bytes logs chunks.
Proof using HAL HE DL.
  intros Hn Hl Hc Hs Hst.
  assert (serves E (serve_nar path) st i (nar_bytes logs chunks) (Ok tt) st' i) as Hp.
  { eapply serves_ext.
    { intros s' Hst'. unfold serve_nar. rewrite Hst', Hn. reflexivity. }
    apply (serves_set_store (_ ← on_writer (write_logs logs);
      reader ← eff_lift (Ok (Ok <$> chunks)); _ ← reply RLast; on_writer (fatal_io (copy_buf reader)))).
    eapply serves_bind; [by apply serves_writer, emits_write_logs|].
    change (codec_bytes E RLast ++ concat chunks) with ([] ++ codec_bytes E RLast ++ concat chunks).
    eapply serves_bind; [apply serves_lift|]. eapply serves_bind; [apply serves_reply, last_ok|].
    by apply serves_writer, emits_copy_buf. }
  destruct (Hp s d Hs Hst) as (s1 & E1 & Hs1 & Hst1 & Ht1).
  destruct (serve_request_reply (RqNarFromPath path) s s1 i d (nar_bytes logs chunks) (Ok tt) E1 Hs1 I)
    as (s' & ? & ? & ? & ? & ?).
  rewrite app_nil_r in *. exists s'. split_and!; congruence || done.
Qed.

(** The answer for any NAR, and how the request ends: an error of the store, or
    of the reader it gives, is not sent but ends the connection, after the log
    or in the middle of the archive. *)
Definition nar_outcome (out : ResultLog (list (res io_error bytes))) : bytes * res DaemonError unit :=
  match out.2 with
  | Ok l => (nar_bytes out.1 (read_chunks l).1,
             res_map_err (λ e, fill_operation OpNarFromPath (from_io e)) (read_chunks l).2)
  | Err e => (logs_bytes E out.1, Err (fill_operation OpNarFromPath e))
  | Panic => (logs_bytes E out.1, Panic)
  end.

(** The same before [serve_request] adds the operation. *)
Definition nar_result (r : res DaemonError (list (res io_error bytes))) : res RecoverableError unit :=
  match r with
  | Ok l => res_map_err (λ e, fatal (from_io e)) (read_chunks l).2
  | Err e => Err (fatal e)
  | Panic => Panic
  end.

Lemma serves_nar_reader path st st' out i :
  nar_from_path path st = (st', out) → logs_ok E out.1 →
  serves E (serve_nar path) st i (nar_outcome out).1 (nar_result out.2) st' i.
Proof using HAL HE DL.
  intros Hn Hl. eapply serves_ext.
  { intros s' Hst'. unfold serve_nar. rewrite Hst', Hn. reflexivity. }
  apply (serves_set_store (_ ← on_writer (write_logs out.1);
    reader ← eff_lift (res_map_err fatal out.2); _ ← reply RLast; on_writer (fatal_io (copy_buf reader)))).
  destruct out as [logs [l|e|]]; cbn [nar_outcome nar_result fst snd res_map_err] in *.
  - eapply serves_bind; [by apply serves_writer, emits_write_logs|].
    change (codec_bytes E RLast ++ concat (read_chunks l).1) with ([] ++ codec_bytes E RLast ++ concat (read_chunks l).1).
    eapply serves_bind; [apply serves_lift|]. eapply serves_bind; [apply serves_reply, last_ok|].
    apply serves_writer, emits_copy_chunks.
  - rewrite <-(app_nil_r (logs_bytes E logs)). eapply serves_bind; [by apply serves_writer, emits_write_logs|].
    apply (serves_stop E _ _ st' i [] (Err (fatal e))); [done|apply serves_lift].
  - rewrite <-(app_nil_r (logs_bytes E logs)). eapply serves_bind; [by apply serves_writer, emits_write_logs|].
    apply (serves_stop E _ _ st' i [] Panic); [done|apply serves_lift].
Qed.

(** A NAR that is given whole is sent; otherwise the connection ends with the
    error, which is not written. *)
Lemma serves_nar_outcome path st st' out i s d :
  nar_from_path path st = (st', out) → logs_ok E out.1 → conn_at E s i d → conn_store s = st →
  ∃ s', serve_request serve_add_multiple (RqNarFromPath path) s = (s', (nar_outcome out).2) ∧
    conn_at E s' i (d ++ (nar_outcome out).1) ∧ conn_store s' = st' ∧
    ((nar_outcome out).2 = Ok tt → w_sent (conn_writer s') = d ++ (nar_outcome out).1).
Proof using HAL HE DL.
  intros Hn Hl Hs Hst. destruct (serves_nar_reader path st st' out i Hn Hl s d Hs Hst) as (s1 & E1 & Hs1 & Hst1 & Ht1).
  assert (process_request serve_add_multiple (RqNarFromPath path) s = (s1, nar_result out.2)) as E1' by exact E1.
  destruct (nar_result out.2) as [[]|e|] eqn:Er.
  - destruct (serve_request_reply (RqNarFromPath path) s s1 i d (nar_outcome out).1 (Ok tt) E1' Hs1 I)
      as (s' & E2 & Hs' & ? & ? & ?). rewrite app_nil_r in *. exists s'. rewrite E2.
    assert ((nar_outcome out).2 = Ok tt) as ->.
    { unfold nar_outcome. destruct out as [logs [l|?|]]; cbn in *; [|done..]. by destruct (read_chunks l) as [? [[]|?|]]. }
    split_and!; congruence || done.
  - exists s1. unfold serve_request. rewrite E1'.
    assert (can_recover e = false ∧ (nar_outcome out).2 = Err (fill_operation OpNarFromPath (rec_source e))) as [-> ->].
    { unfold nar_outcome. destruct out as [logs [l|?|]]; cbn in *; [|by injection Er as <-|done].
      destruct (read_chunks l) as [? [[]|?|]]; cbn in *; [done|by injection Er as <-|done]. }
    split_and!; done.
  - exists s1. unfold serve_request. rewrite E1'. assert ((nar_outcome out).2 = Panic) as ->.
    { unfold nar_outcome. destruct out as [logs [l|?|]]; cbn in *; [|done..]. by destruct (read_chunks l) as [? [[]|?|]]. }
    split_and!; done.
Qed.

(** ** Sessions *)

Inductive item : Type :=
| IMethod {T : Type} (e : StoreE T)
| IUpload {T : Type} (e : UploadE T) (fs : list bytes)
| INar (path : StorePath).

Definition item_request (it : item) : Request :=
  match it with
  | IMethod e => request_of e
  | IUpload e _ => upload_request e
  | INar path => RqNarFromPath path
  end.

(** What the client sends for it. *)
Definition item_input (it : item) : bytes :=
  codec_bytes E (item_request it) ++ match it with IUpload _ fs => frames fs | _ => [] end.

Definition item_ok (it : item) : Prop :=
  codec_ok E (item_request it) ∧ match it with IUpload _ fs => frames_ok fs | _ => True end.

(** The store, given it, goes from [st] to [st'], [bs] is written, and the
    request ends with [r]: an error of a method is part of the reply, an error
    for a NAR is not. *)
Inductive item_reply : St → item → bytes → res DaemonError unit → St → Prop :=
| method_reply T (e : StoreE T) st st' out :
    store_call e st = (st', out) → item_reply st (IMethod e) (reply_bytes E e out) (Ok tt) st'
| upload_reply T (e : UploadE T) fs st st' logs r :
    upload_runs (store_upload e st) (concat fs) logs (st', r) →
    item_reply st (IUpload e fs) (upload_bytes e logs r) (Ok tt) st'
| nar_reply path st st' out :
    nar_from_path path st = (st', out) →
    item_reply st (INar path) (nar_outcome out).1 (nar_outcome out).2 st'.

(** How a session ends: with the input, or at a request that fails, with what
    comes after it still unread. *)
Inductive ending : Type :=
| AllServed
| StoppedBefore (unread : list item) (r : res DaemonError unit).

Inductive session : St → list item → bytes → ending → St → Prop :=
| session_nil st : session st [] [] AllServed st
| session_cons st it bs st1 its out o st2 :
    item_reply st it bs (Ok tt) st1 → session st1 its out o st2 → session st (it :: its) (bs ++ out) o st2
| session_stop st it bs r st1 its :
    item_reply st it bs r st1 → r ≠ Ok tt → session st (it :: its) bs (StoppedBefore its r) st1.

(** What the store answers can be written: it is inside the limits of the
    protocol. *)
Definition item_fits (st : St) (it : item) : Prop :=
  match it with
  | IMethod e => reply_ok E e (store_call e st).2
  | IUpload e fs => source_log_ok (store_upload e st) ∧
      ∀ logs st' r, upload_runs (store_upload e st) (concat fs) logs (st', r) → upload_ok e r
  | INar path => logs_ok E (nar_from_path path st).2.1
  end.

(** All that it answers in a session. *)
Fixpoint replies_fit (st : St) (its : list item) : Prop :=
  match its with
  | [] => True
  | it :: its => item_fits st it ∧ ∀ bs st1, item_reply st it bs (Ok tt) st1 → replies_fit st1 its
  end.

Lemma replies_fit_all its : (∀ st it, item_fits st it) → ∀ st, replies_fit st its.
Proof using Type. intros H. induction its as [|it its IH]; intros st; [done|]. split; [apply H|]. intros. apply IH. Qed.

Lemma serves_item it s i d :
  item_fits (conn_store s) it → item_ok it →
  conn_at E s (match it with IUpload _ fs => frames fs ++ i | _ => i end) d →
  ∃ bs r s', item_reply (conn_store s) it bs r (conn_store s') ∧
    serve_request serve_add_multiple (item_request it) s = (s', r) ∧ conn_at E s' i (d ++ bs) ∧
    (r = Ok tt → w_sent (conn_writer s') = d ++ bs).
Proof using HAL HFL HE DL.
  intros Hfit [_ Hit] Hs. destruct it as [T e|T e fs|path]; cbn [item_request item_fits] in *.
  - destruct (store_call e (conn_store s)) as [st' out] eqn:Hc.
    destruct (serves_method e _ _ _ i Hc Hfit s d Hs eq_refl) as (s' & ? & ? & <- & ? & ?).
    exists (reply_bytes E e out), (Ok tt), s'. split; [by constructor|done].
  - destruct Hfit as [Hl Hu].
    destruct (serves_upload_request e (conn_store s) fs i s d) as (logs & st' & r & s' & Hruns & ? & ? & <- & ?);
      [done|done|done|done|done|].
    exists (upload_bytes e logs r), (Ok tt), s'. split; [by constructor|done].
  - destruct (nar_from_path path (conn_store s)) as [st' out] eqn:Hn.
    destruct (serves_nar_outcome path _ _ _ i s d Hn Hfit Hs eq_refl) as (s' & ? & ? & <- & ?).
    exists (nar_outcome out).1, (nar_outcome out).2, s'. split; [by constructor|done].
Qed.

Lemma read_none s d : conn_at E s [] d →
  ∃ s', on_reader (io_try (try_read_value Request)) s = (s', Ok None) ∧ conn_at E s' [] d ∧
    conn_store s' = conn_store s ∧ conn_writer s' = conn_writer s.
Proof using Type.
  intros (Hi & Hr & Hrest & Hw & He).
  destruct (try_read_number_law (conn_reader s) Hi) as (x & Hsame & Hi' & Hm).
  rewrite Hrest in Hm. cbn in Hm. destruct Hm as [Hm Hx].
  exists (set_reader x s). split.
  - unfold on_reader, io_try. rewrite (eff_map_err_Ok _ _ _ x None); [done|].
    unfold try_read_value, try_deserialize, Request_deserialize, io_first, mbind, io_bind.
    unfold try_read_value, try_deserialize, repr_deserialize, io_try_map, mbind, io_bind.
    unfold try_read_value, try_deserialize, u64_deserialize, io_map, mbind, io_bind. by rewrite Hm.
  - unfold conn_at. split_and!; try done. exact (r_env_same _ _ _ Hsame Hr).
Qed.

Lemma item_input_reads it s i d : item_ok it → conn_at E s (item_input it ++ i) d →
  ∃ s', on_reader (io_try (try_read_value Request)) s = (s', Ok (Some (item_request it))) ∧
    conn_at E s' (match it with IUpload _ fs => frames fs ++ i | _ => i end) d ∧ conn_store s' = conn_store s.
Proof using DL.
  intros [Hreq _] Hs. unfold item_input in Hs. rewrite <-app_assoc in Hs.
  destruct (serves_reader E from_io (try_read_value Request) (codec_bytes E (item_request it))
    (Some (item_request it)) (conn_store s) (match it with IUpload _ fs => frames fs | _ => [] end ++ i)
    (reads_try_value E _ Hreq) s d Hs eq_refl) as (s' & ? & Hs' & ? & ?).
  exists s'. rewrite app_nil_r in Hs'. split; [done|]. split; [|done]. by destruct it.
Qed.

Lemma serves_session its s d :
  replies_fit (conn_store s) its → Forall item_ok its → conn_at E s (concat (item_input <$> its)) d →
  w_sent (conn_writer s) = d →
  ∃ out o st s' r, session (conn_store s) its out o st ∧
    process_requests serve_add_multiple (S (length its)) s = (s', r) ∧
    match o with
    | AllServed => r = (shutdown st).2 ∧ conn_store s' = (shutdown st).1 ∧ conn_at E s' [] (d ++ out) ∧
        w_sent (conn_writer s') = d ++ out
    | StoppedBefore unread e => r = e ∧ conn_store s' = st ∧ conn_at E s' (concat (item_input <$> unread)) (d ++ out)
    end.
Proof using HAL HFL HE DL.
  intros Hfit Hits. revert s d Hfit. induction Hits as [|it its Hit _ IH]; intros s d Hfit Hs Hsent; cbn [concat fmap list_fmap] in Hs.
  - destruct (read_none s d Hs) as (s1 & E1 & Hs1 & Est & Ew). exists [], AllServed, (conn_store s).
    cbn [length process_requests]. rewrite (eff_bind_Ok _ _ _ _ _ E1), Est.
    destruct (shutdown (conn_store s)) as [st r]. exists (set_store st s1), r.
    split; [constructor|]. rewrite app_nil_r. split; [done|]. split; [done|]. split; [done|]. split; [done|]. cbn. by rewrite Ew.
  - destruct (item_input_reads it s _ d Hit Hs) as (s1 & E1 & Hs1 & Est). destruct Hfit as [Hf Hfits].
    rewrite <-Est in Hf, Hfits |- *.
    destruct (serves_item it s1 _ d Hf Hit Hs1) as (bs & r & s2 & Hrep & E2 & Hs2 & Hsent2).
    cbn [length]. cbn [process_requests]. rewrite (eff_bind_Ok _ _ _ _ _ E1).
    assert (r = Ok tt ∨ r ≠ Ok tt) as [->|Hr] by (destruct r as [[]| |]; auto).
    + destruct (IH s2 _ (Hfits _ _ Hrep) Hs2 (Hsent2 eq_refl)) as (out & o & st & s3 & r & Hsess & E3 & Ho).
      exists (bs ++ out), o, st, s3, r. rewrite app_assoc. split; [by econstructor|].
      by rewrite (eff_bind_Ok _ _ _ _ _ E2).
    + exists bs, (StoppedBefore its r), (conn_store s2), s2, r. split; [by constructor|].
      unfold mbind, eff_bind. rewrite E2. destruct r as [[]| |]; done.
Qed.
End connection.

(** ** The handshake *)

(** What the client sends, and what the server answers. *)
Definition handshake_request (E : env) : bytes :=
  u64_to_le_bytes CLIENT_MAGIC ++ codec_bytes E PROTOCOL_VERSION ++ codec_bytes E false ++ codec_bytes E false.
Definition handshake_reply (E : env) (nix_version : RString) (trust : TrustLevel) : bytes :=
  u64_to_le_bytes SERVER_MAGIC ++ codec_bytes E PROTOCOL_VERSION ++ codec_bytes E nix_version ++
  codec_bytes E trust.

Section handshake.
Context {RS : Type} {HR : NixRead RS} {HRL : NixReadLaws RS} {HVR : SetVersion RS} {HVRL : SetVersionReadLaws RS}.
Context {WS : Type} {HW : NixWrite WS} {HWL : NixWriteLaws WS} {HA : AsyncWriter WS} {HAL : AsyncWriterLaws WS}.
Context {HVW : SetVersion WS} {HVWL : SetVersionWriteLaws WS}.
Context {H : Type}.
Context (E : env) (HE : e_version E = PROTOCOL_VERSION).
Implicit Types s : DaemonConnection RS WS H.

(** A step, then the rest. *)
Lemma conn_step {X A B} (m : eff X (DaemonConnection RS WS H) A) (f : A → eff X _ B) st i b a i1 s d
    (P : DaemonConnection RS WS H * res X B → Prop) :
  serves E m st i b (Ok a) st i1 → conn_at E s i d → conn_store s = st →
  (∀ s1, conn_at E s1 i1 (d ++ b) → conn_store s1 = st → store_trust s1 = store_trust s → P (f a s1)) →
  P ((m ≫= f) s).
Proof using Type.
  intros Hm Hs Hst Hk. destruct (Hm s d Hs Hst) as (s1 & E1 & Hs1 & Hst1 & Ht1).
  rewrite (eff_bind_Ok _ _ _ _ _ E1). by apply Hk.
Qed.

Lemma serves_set_versions st i : serves (St := H) E (set_versions PROTOCOL_VERSION) st i [] (Ok tt) st i.
Proof using HE HVRL HVWL.
  intros s d (Hi & (Hrv & Hrd & Hrl) & Hrest & Hw & (Hwv & Hwd & Hwr)) Hst. eexists. split; [done|].
  destruct (set_version_read PROTOCOL_VERSION _ Hi) as (? & ? & ? & ? & ?).
  destruct (set_version_write PROTOCOL_VERSION _ _ Hw) as (? & ? & ? & ?).
  rewrite app_nil_r. split; [|done]. unfold conn_at, r_env, w_env. cbn. split_and!; congruence.
Qed.

Lemma serves_field_write field (m : io WS unit) bs st i :
  writes E m bs → serves (St := H) E (on_writer (with_field field m)) st i bs (Ok tt) st i.
Proof using Type. intros Hm. by apply serves_writer, emits_io. Qed.

Lemma serves_flush st i : serves (St := H) E (on_writer (io_try flush)) st i [] (Ok tt) st i.
Proof using HAL. apply serves_writer, emits_io, writes_flush. Qed.

Lemma version_codec_ok : codec_ok E PROTOCOL_VERSION.
Proof using Type. by repeat split. Qed.

Lemma server_magic_u64 : is_u64 SERVER_MAGIC.
Proof using Type. unfold is_u64, u64_modulus, SERVER_MAGIC. lia. Qed.

Lemma magic_u64 : is_u64 CLIENT_MAGIC.
Proof using Type. unfold is_u64, u64_modulus, CLIENT_MAGIC. lia. Qed.

Lemma reads_magic n : is_u64 n → reads (S := RS) E read_number (u64_to_le_bytes n) n.
Proof using Type. intros Hn. by apply reads_or_eof, reads_number. Qed.

Lemma serves_field_read {A} field (m : io RS A) bs v st i :
  reads E m bs v → serves (St := H) E (on_reader (with_field field m)) st (bs ++ i) [] (Ok v) st i.
Proof using Type. intros Hm. by apply serves_reader. Qed.

Lemma handshake_spec nix_version i s d :
  codec_ok E nix_version → conn_at E s (handshake_request E ++ i) d →
  ∃ s', handshake PROTOCOL_VERSION_MIN PROTOCOL_VERSION nix_version s = (s', Ok PROTOCOL_VERSION) ∧
    conn_at E s' i (d ++ handshake_reply E nix_version (store_trust s)) ∧ conn_store s' = conn_store s ∧
    store_trust s' = store_trust s ∧ w_sent (conn_writer s') = d ++ handshake_reply E nix_version (store_trust s).
Proof using HE HAL HVRL HVWL.
  intros Hn Hs. pose proof version_codec_ok as Hv.
  set (trust := store_trust s). set (st := conn_store s). assert (Hst : conn_store s = st) by done.
  assert (Ht : store_trust s = trust) by done. clearbody st trust.
  set (Q := λ x : DaemonConnection RS WS H * res DaemonError ProtocolVersion,
    ∃ s', x = (s', Ok PROTOCOL_VERSION) ∧ conn_at E s' i (d ++ handshake_reply E nix_version trust) ∧
      conn_store s' = st ∧ store_trust s' = trust ∧ w_sent (conn_writer s') = d ++ handshake_reply E nix_version trust).
  change (Q (handshake PROTOCOL_VERSION_MIN PROTOCOL_VERSION nix_version s)).
  unfold handshake_request in Hs. rewrite <-!app_assoc in Hs. unfold handshake.
  match goal with |- context [negb ?b] => change (negb b) with false end.
  change (version_lt SERVER_PROTOCOL_VERSION PROTOCOL_VERSION) with false. cbv iota.
  eapply conn_step; [exact (serves_field_read "clientMagic" read_number _ _ _ _ (reads_magic _ magic_u64))|exact Hs|exact Hst|].
  intros s1 Hs1 Hst1 Ht1. rewrite bool_decide_false by tauto.
  eapply conn_step; [apply serves_field_write, writes_number|exact Hs1|exact Hst1|]. intros s2 Hs2 Hst2 Ht2.
  eapply conn_step; [apply serves_field_write; exact (writes_value E _ Hv)|exact Hs2|exact Hst2|]. intros s3 Hs3 Hst3 Ht3.
  eapply conn_step; [apply serves_flush|exact Hs3|exact Hst3|]. intros s4 Hs4 Hst4 Ht4.
  eapply conn_step; [apply serves_field_read; exact (reads_value E _ Hv)|exact Hs4|exact Hst4|]. intros s5 Hs5 Hst5 Ht5.
  change (version_min PROTOCOL_VERSION PROTOCOL_VERSION) with PROTOCOL_VERSION.
  change (version_lt PROTOCOL_VERSION PROTOCOL_VERSION_MIN) with false. cbn iota.
  eapply conn_step; [apply serves_set_versions|exact Hs5|exact Hst5|]. intros s6 Hs6 Hst6 Ht6.
  eapply conn_step; [apply serves_field_read; exact (reads_value E false I)|exact Hs6|exact Hst6|]. intros s7 Hs7 Hst7 Ht7.
  eapply conn_step; [apply (serves_lift E (Ok tt))|exact Hs7|exact Hst7|]. intros s8 Hs8 Hst8 Ht8.
  eapply conn_step; [apply serves_field_read; exact (reads_value E false I)|exact Hs8|exact Hst8|]. intros s9 Hs9 Hst9 Ht9.
  eapply conn_step; [apply serves_field_write; exact (writes_value E _ Hn)|exact Hs9|exact Hst9|]. intros s10 Hs10 Hst10 Ht10.
  unfold mbind at 1, eff_bind. replace (store_trust s10) with trust by congruence.
  assert (codec_ok E trust) as Htr by (by destruct trust).
  destruct (serves_field_write "trusted" (write_value trust) (codec_bytes E trust) st i (writes_value E _ Htr) s10 _ Hs10 Hst10)
    as (s11 & -> & Hs11 & Hst11 & Ht11).
  destruct (conn_flush E s11 _ _ Hs11) as (s12 & E12 & Hs12 & Hst12 & Ht12 & Hsent).
  rewrite (eff_bind_Ok _ _ _ _ _ E12). exists s12. unfold handshake_reply.
  rewrite ?app_nil_r, <-?app_assoc in Hs12, Hsent. split; [done|]. split_and!; congruence || done.
Qed.
End handshake.
