(* ===== verification/Samples.v ===== *)
(** Concrete streams and a small store, for the examples of connections. *)

From stdpp Require Import base list numbers strings.
From Stdlib Require Import ZArith Lia Strings.Byte.
From S2P Require Import Prelude Async Wire Sink NarTree BufferMut BytesReader ProtoRead Framed Version BaseEncoding Codecs Hash StorePath ContentAddress Signature DerivedPath NixIO Streams NixCodec WireTypes Messages Derivations Requests Logger DaemonErrors DaemonStore Server ServerSpec.

(** ** Parameters *)

#[export] Existing Instance prefix_lib.
#[export] Existing Instance prefix_laws.
#[export] Existing Instance exact_reserve.
#[export] Existing Instance exact_reserve_laws.
#[export] Existing Instance exact_reserve_grows.
#[export] Instance no_attrs : StructuredAttrsLib := unit.
#[export] Instance plain_text : ErrorText := {| io_error_text _ := str "i/o error"; as_bstr b := b |}.
#[export] Instance word_size T : SizeOf T | 1000 := 8%Z.

Definition small_env : env := mk_env PROTOCOL_VERSION (str "/nix/store") 512 248.

(** ** Streams *)

Definition small_writer (sch : list (option nat)) : NixWriter sink :=
  mk_nw (mk_sink [] sch) [] 0 256 512 512 PROTOCOL_VERSION (str "/nix/store").

Definition small_reader (src : source) : NixReader (BytesReader source) :=
  mk_nr (reader_build 8 4000 (λ _, []) src) 8 512 PROTOCOL_VERSION (str "/nix/store").

Lemma small_writer_at sch : Forall (λ o, o ≠ Some 0) sch → nw_at (small_writer sch) [].
Proof. intros Hs. split; [done|]. repeat split; vm_compute; lia. Qed.

Lemma small_writer_env sch : w_env small_env (small_writer sch).
Proof. done. Qed.

Lemma small_reader_at bs :
  bs ≠ [] → length bs ≤ 996 →
  nr_inv (small_reader [None; Some bs]) ∧ r_env small_env (small_reader [None; Some bs]) ∧
  nr_rest (small_reader [None; Some bs]) = bs.
Proof.
  intros Hne Hl. assert (src_rest [None; Some bs] = bs) as Hsrc by (unfold src_rest; cbn; by rewrite app_nil_r).
  destruct (source_reader_inv 8 4000 (λ _, []) [None; Some bs]) as (Hi & Hrest & _).
  { split; [repeat constructor; congruence|]. cbn [ar_rest source_async_read_laws]. rewrite Hsrc.
    split; [lia|]. split; [lia|intros l; apply list_subseteq_nil]. }
  rewrite Hsrc in Hrest. done.
Qed.

(** ** A store *)

(** A store that knows some paths, answers two questions, has one archive, and
    takes new paths without looking at all of their data. *)
Definition toy_call {T} (e : StoreE T) (st : list StorePath) : ResultLog T :=
  match e in StoreE T return ResultLog T with
  | is_valid_path path =>
      ([LMessage (mk_Message VError (mk_Bytes (str "looking")))], Ok (bool_decide (path ∈ st)))
  | ensure_path _ => ([], Ok tt)
  | e => default_call e
  end.

Definition toy_upload {T} (e : UploadE T) (st : list StorePath) : source_log (list StorePath * res DaemonError T) :=
  match e in UploadE T return source_log (list StorePath * res DaemonError T) with
  | add_to_store_nar info _ _ =>
      SLog (LMessage (mk_Message VError (mk_Bytes (str "adding")))) (SRead 3 (λ _, SDone (pi_path info :: st, Ok tt)))
  | e => default_upload e st
  end.

Definition toy_tree : node := FileNode true (str "hello").
Definition toy_chunks : list bytes := [take 5 (nar toy_tree); drop 5 (nar toy_tree)].

#[export] Instance toy_store : DaemonStore (list StorePath) := {|
  trust_level _ := TrustNotTrusted;
  store_call T e st := (st, toy_call e st);
  nar_from_path path st := (st, if bool_decide (path ∈ st) then ([], Ok (Ok <$> toy_chunks)) else default_nar);
  store_upload T e st := toy_upload e st;
  shutdown st := (st, Ok tt)
|}.

#[export] Instance toy_handshake : HandshakeDaemonStore (list StorePath) (list StorePath) := λ st, ([], Ok st).

Definition toy_info : ValidPathInfo :=
  mk_ValidPathInfo sample_path
    (mk_UnkeyedValidPathInfo None (mk_nar_hash (mk_sha256 (replicate 32 x00))) (mk_set []) None
       (u64 9) false (mk_set []) None (str "/nix/store")).

Definition no_multiple {St} (_ : AddMultipleToStoreRequest)
    : eff RecoverableError (DaemonConnection (NixReader (BytesReader source)) (NixWriter sink) St) unit := eff_lift Panic.

(** ** Conditions *)

Lemma small_conn bs sch (st : list StorePath) :
  bs ≠ [] → length bs ≤ 996 → Forall (λ o, o ≠ Some 0) sch →
  conn_at small_env (mk_connection TrustUnknown (small_reader [None; Some bs]) (small_writer sch) st) bs [].
Proof.
  intros Hne Hl Hs. destruct (small_reader_at bs Hne Hl) as (? & ? & ?). pose proof (small_writer_at sch Hs).
  by split_and!.
Qed.

Ltac small_ok := pose proof sample_path_wf; repeat constructor; cbn; try done; unfold u64_max; lia.

Lemma toy_info_ok : codec_ok small_env (RqAddToStoreNar (mk_AddToStoreNarRequest toy_info false true)).
Proof. small_ok. Qed.

Lemma toy_nar_ok : codec_ok small_env (RqNarFromPath sample_path).
Proof. small_ok. Qed.

Lemma toy_fits (st : list StorePath) it : item_fits small_env st it.
Proof.
  destruct it as [T e|T e fs|path].
  - destruct e; small_ok.
  - split.
    + destruct e; cbn; [|done..]. split; [small_ok|]. done.
    + intros logs st' r Hr. destruct e; inversion Hr as [|? ? ? ? ? Hr1|]; subst; [|small_ok..].
      inversion Hr1 as [| |? ? ? ? ? ? ? ? Hr2]; subst. by inversion Hr2.
  - cbn. case_bool_decide; constructor.
Qed.
