(* ===== verification/Client.v ===== *)
(** The client of the daemon protocol ([harmonia-store-remote/src/client.rs]) and
    the loop that reads log messages up to a result ([ProcessStderr] in
    [harmonia-protocol/src/daemon_wire/logger.rs]).

    A method writes its request and flushes it; then it reads the log messages,
    and after them the result. [fuel] bounds the number of messages. *)

From stdpp Require Import base list numbers strings.
From Stdlib Require Import ZArith Lia Strings.Byte.
From S2P Require Import Prelude Async Wire Sink ProtoRead Framed Version BaseEncoding Codecs Hash StorePath ContentAddress Signature DerivedPath NixIO Streams NixCodec WireTypes Messages Derivations Requests Logger DaemonErrors DaemonStore Server.

#[local] Unset Program Cases.

Section stderr.
Context {DE : DataEncoding} {DL : DataEncodingLaws} {SZ_Bytes : SizeOf Bytes}.
Context {SZ_Field : SizeOf Field} {SZ_TraceLine : SizeOf TraceLine}.
Context {RS : Type} {HR : NixRead RS}.

Definition yield {A} (m : LogMessage) (x : RS * ResultLog A) : RS * ResultLog A :=
  (x.1, (m :: x.2.1, x.2.2)).

(** The loop in [ProcessStderr::stream], without a source for [Read] and a sink
    for [Write]. After [Last] it reads a [()], which is nothing. *)
Fixpoint stderr_loop (fuel : nat) (r : RS) : RS * ResultLog unit :=
  match fuel with
  | O => (r, ([], Panic))
  | S fuel =>
      match read_value RawLogMessage r with
      | (r, Ok (RNext text)) => yield (LMessage (mk_Message VError text)) (stderr_loop fuel r)
      | (r, Ok (RResult result)) => yield (LResult result) (stderr_loop fuel r)
      | (r, Ok (RStartActivity act)) => yield (LStartActivity act) (stderr_loop fuel r)
      | (r, Ok (RStopActivity act)) => yield (LStopActivity act) (stderr_loop fuel r)
      | (r, Ok (RRead len)) => (r, ([], Err (from_kind NoSourceForLoggerRead)))
      | (r, Ok (RWrite buf)) => stderr_loop fuel r
      | (r, Ok RLast) => let '(r, value) := read_value unit r in (r, ([], res_map_err from_io value))
      | (r, Ok (RError err)) => (r, ([], Err (from_log_error err)))
      | (r, Err err) => (r, ([], Err (from_io err)))
      | (r, Panic) => (r, ([], Panic))
      end
  end.

(** [ProcessStderr::new(reader).stream()]: the messages, then [read_result] of
    the type [T]. *)
Definition process_stderr (T : Type) {ND : NixDeserialize T} (fuel : nat) (r : RS) : RS * ResultLog T :=
  match stderr_loop fuel r with
  | (r, (logs, Ok _)) => let '(r, value) := io_try (read_value T) r in (r, (logs, value))
  | (r, (logs, Err err)) => (r, (logs, Err err))
  | (r, (logs, Panic)) => (r, (logs, Panic))
  end.

(** The loop of [nar_from_path], which has nothing to read after [Last] and
    ignores [Read] too. *)
Fixpoint nar_loop (fuel : nat) (r : RS) : RS * ResultLog unit :=
  match fuel with
  | O => (r, ([], Panic))
  | S fuel =>
      match read_value RawLogMessage r with
      | (r, Ok (RNext text)) => yield (LMessage (mk_Message VError text)) (nar_loop fuel r)
      | (r, Ok (RResult result)) => yield (LResult result) (nar_loop fuel r)
      | (r, Ok (RStartActivity act)) => yield (LStartActivity act) (nar_loop fuel r)
      | (r, Ok (RStopActivity act)) => yield (LStopActivity act) (nar_loop fuel r)
      | (r, Ok (RRead len)) => nar_loop fuel r
      | (r, Ok (RWrite buf)) => nar_loop fuel r
      | (r, Ok RLast) => (r, ([], Ok tt))
      | (r, Ok (RError err)) => (r, ([], Err (from_log_error err)))
      | (r, Err err) => (r, ([], Err (from_io err)))
      | (r, Panic) => (r, ([], Panic))
      end
  end.
End stderr.

Section client.
Context {DE : DataEncoding} {DL : DataEncodingLaws} {DG : DigestLib} {SA : StructuredAttrsLib}.
Context {SZ_Bytes : SizeOf Bytes} {SZ_DerivedPath : SizeOf DerivedPath} {SZ_Signature : SizeOf Signature}.
Context {SZ_Field : SizeOf Field} {SZ_TraceLine : SizeOf TraceLine}.
Context {SZ_KeyedBuildResult : SizeOf KeyedBuildResult}.
Context {RS WS : Type} {HR : NixRead RS} {HVR : SetVersion RS}.
Context {HW : NixWrite WS} {HA : AsyncWriter WS} {HFW : FramedSink WS} {HVW : SetVersion WS}.

Record DaemonClient : Type := mk_client {
  cl_id : Z;
  cl_host : bytes;
  cl_reader : RS;
  cl_writer : WS;
  cl_daemon_nix_version : option RString;
  cl_remote_trusts_us : TrustLevel
}.

Definition cl_set (c : DaemonClient) (r : RS) (w : WS) : DaemonClient :=
  mk_client (cl_id c) (cl_host c) r w (cl_daemon_nix_version c) (cl_remote_trusts_us c).

(** A method of the client, given its fuel. *)
Definition client_method (T : Type) : Type := nat → DaemonClient → DaemonClient * ResultLog T.

(** [async { send.await?; Ok(self.process_stderr()) }.future_result()
    .fill_operation(op)], where [process_stderr] flushes first. *)
Definition request (op : Operation) (send : io WS unit) {T} {ND : NixDeserialize T} : client_method T :=
  λ fuel c,
  match (io_try (_ ← send; flush) : eff DaemonError WS unit) (cl_writer c) with
  | (w, Ok _) =>
      let '(r, (logs, result)) := process_stderr T fuel (cl_reader c) in
      (cl_set c r w, (logs, res_map_err (fill_operation op) result))
  | (w, Err err) => (cl_set c (cl_reader c) w, ([], Err (fill_operation op err)))
  | (w, Panic) => (cl_set c (cl_reader c) w, ([], Panic))
  end.

(** [map_ok]. *)
Definition method_map {T U} (f : T → U) (m : client_method T) : client_method U := λ fuel c,
  let '(c, (logs, result)) := m fuel c in
  (c, (logs, match result with Ok v => Ok (f v) | Err e => Err e | Panic => Panic end)).

(** ** The methods *)

Definition client_set_options (options : ClientOptions) : client_method unit :=
  request OpSetOptions (_ ← write_value OpSetOptions; write_value options).

Definition client_is_valid_path (path : StorePath) : client_method bool :=
  request OpIsValidPath (_ ← write_value OpIsValidPath; write_value path).

Definition client_query_path_info (path : StorePath) : client_method (option UnkeyedValidPathInfo) :=
  request OpQueryPathInfo (_ ← write_value OpQueryPathInfo; write_value path).

Definition client_build_paths_with_results (drvs : list DerivedPath) (mode : BuildMode) : client_method (list KeyedBuildResult) :=
  request OpBuildPathsWithResults (_ ← write_value OpBuildPathsWithResults; _ ← write_value drvs; write_value mode).

Definition client_build_derivation (drv_path : StorePath) (drv : BasicDerivation) (mode : BuildMode) : client_method BuildResult :=
  request OpBuildDerivation (_ ← write_value OpBuildDerivation; _ ← write_value (drv_path, drv); write_value mode).

Definition client_query_missing (paths : list DerivedPath) : client_method QueryMissingResult :=
  request OpQueryMissing (_ ← write_value OpQueryMissing; write_value paths).

Definition client_query_all_valid_paths : client_method (BTreeSet StorePath) :=
  request OpQueryAllValidPaths (write_value OpQueryAllValidPaths).

Definition client_query_referrers (path : StorePath) : client_method (BTreeSet StorePath) :=
  request OpQueryReferrers (_ ← write_value OpQueryReferrers; write_value path).

Definition client_ensure_path (path : StorePath) : client_method unit :=
  request OpEnsurePath (_ ← write_value OpEnsurePath; write_value path).

Definition client_add_temp_root (path : StorePath) : client_method unit :=
  request OpAddTempRoot (_ ← write_value OpAddTempRoot; write_value path).

Definition client_add_indirect_root (path : DaemonPath) : client_method unit :=
  request OpAddIndirectRoot (_ ← write_value OpAddIndirectRoot; write_value path).

Definition client_find_roots : client_method (BTreeMap DaemonPath StorePath) :=
  request OpFindRoots (write_value OpFindRoots).

Definition client_collect_garbage (action : GCAction) (paths_to_delete : BTreeSet StorePath)
    (ignore_liveness : bool) (max_freed : U64) : client_method CollectGarbageResponse :=
  request OpCollectGarbage (_ ← write_value OpCollectGarbage; _ ← write_value action; _ ← write_value paths_to_delete; _ ← write_value ignore_liveness; write_value max_freed).

Definition client_query_path_from_hash_part (hash : StorePathHash) : client_method (option StorePath) :=
  request OpQueryPathFromHashPart (_ ← write_value OpQueryPathFromHashPart; write_value hash).

Definition client_query_substitutable_paths (paths : BTreeSet StorePath) : client_method (BTreeSet StorePath) :=
  request OpQuerySubstitutablePaths (_ ← write_value OpQuerySubstitutablePaths; write_value paths).

Definition client_query_valid_derivers (path : StorePath) : client_method (BTreeSet StorePath) :=
  request OpQueryValidDerivers (_ ← write_value OpQueryValidDerivers; write_value path).

Definition client_optimise_store : client_method unit :=
  request OpOptimiseStore (write_value OpOptimiseStore).

Definition client_verify_store (check_contents repair : bool) : client_method bool :=
  request OpVerifyStore (_ ← write_value OpVerifyStore; _ ← write_value check_contents; write_value repair).

Definition client_add_signatures (path : StorePath) (signatures : list Signature) : client_method unit :=
  request OpAddSignatures (_ ← write_value OpAddSignatures; _ ← write_value path; write_value signatures).

Definition client_query_derivation_output_map (path : StorePath) : client_method (BTreeMap OutputName (option StorePath)) :=
  request OpQueryDerivationOutputMap (_ ← write_value OpQueryDerivationOutputMap; write_value path).

Definition client_register_drv_output (realisation : Realisation) : client_method unit :=
  request OpRegisterDrvOutput (_ ← write_value OpRegisterDrvOutput; write_value realisation).

Definition client_query_realisation (output_id : DrvOutput) : client_method (BTreeSet Realisation) :=
  request OpQueryRealisation (_ ← write_value OpQueryRealisation; write_value output_id).

Definition client_add_perm_root (path : StorePath) (gc_root : DaemonPath) : client_method DaemonPath :=
  request OpAddPermRoot (_ ← write_value OpAddPermRoot; _ ← write_value path; write_value gc_root).


(** The range is [27..] of the minor version. *)
Definition client_query_valid_paths (paths : BTreeSet StorePath) (substitute : bool)
    : client_method (BTreeSet StorePath) :=
  request OpQueryValidPaths (
    _ ← write_value OpQueryValidPaths; _ ← write_value paths;
    version ← io_gets w_version;
    if decide (27 ≤ minor version)%Z then write_value substitute else mret tt).

Definition client_build_paths (paths : list DerivedPath) (mode : BuildMode) : client_method unit :=
  method_map (λ _ : IgnoredOne, tt)
    (request OpBuildPaths (_ ← write_value OpBuildPaths; _ ← write_value paths; write_value mode)).

(** The client as a [DaemonStore]. *)
Definition client_call {T} (e : StoreE T) : client_method T :=
  match e in StoreE T return client_method T with
  | set_options options => client_set_options options
  | is_valid_path path => client_is_valid_path path
  | query_valid_paths paths substitute => client_query_valid_paths paths substitute
  | query_path_info path => client_query_path_info path
  | build_paths paths mode => client_build_paths paths mode
  | build_paths_with_results drvs mode => client_build_paths_with_results drvs mode
  | build_derivation drv_path drv mode => client_build_derivation drv_path drv mode
  | query_missing paths => client_query_missing paths
  | query_all_valid_paths => client_query_all_valid_paths
  | query_referrers path => client_query_referrers path
  | ensure_path path => client_ensure_path path
  | add_temp_root path => client_add_temp_root path
  | add_indirect_root path => client_add_indirect_root path
  | find_roots => client_find_roots
  | collect_garbage action paths_to_delete ignore_liveness max_freed =>
      client_collect_garbage action paths_to_delete ignore_liveness max_freed
  | query_path_from_hash_part hash => client_query_path_from_hash_part hash
  | query_substitutable_paths paths => client_query_substitutable_paths paths
  | query_valid_derivers path => client_query_valid_derivers path
  | optimise_store => client_optimise_store
  | verify_store check_contents repair => client_verify_store check_contents repair
  | add_signatures path signatures => client_add_signatures path signatures
  | query_derivation_output_map path => client_query_derivation_output_map path
  | register_drv_output realisation => client_register_drv_output realisation
  | query_realisation output_id => client_query_realisation output_id
  | add_perm_root path gc_root => client_add_perm_root path gc_root
  end.

(** ** Methods with a stream *)

(** [ProcessStderr::new(reader).stream().drive_result(driver)] after the request
    has been sent and flushed; the driver copies the chunks of the source to a
    [FramedWriter], shuts it down and flushes. The driver is polled before the
    log: here it has run to its end when the log is read. *)
Definition framed_request (op : Operation) (send : io WS unit) (source : list (res io_error bytes))
    {T} {ND : NixDeserialize T} : client_method T := λ fuel c,
  match (io_try (_ ← send; _ ← flush; _ ← framed_copy source; flush) : eff DaemonError WS unit) (cl_writer c) with
  | (w, Ok _) =>
      let '(r, (logs, result)) := process_stderr T fuel (cl_reader c) in
      (cl_set c r w, (logs, res_map_err (fill_operation op) result))
  | (w, Err err) => (cl_set c (cl_reader c) w, ([], Err (fill_operation op err)))
  | (w, Panic) => (cl_set c (cl_reader c) w, ([], Panic))
  end.

(** The version is at least 37 after the handshake; [old_versions] stands for
    what is done below 23. *)
Definition client_add_to_store_nar (old_versions : client_method unit) (info : ValidPathInfo) (repair dont_check_sigs : bool)
    (source : list (res io_error bytes)) : client_method unit := λ fuel c,
  if decide (23 ≤ minor (w_version (cl_writer c)))%Z then
    framed_request OpAddToStoreNar
      (_ ← write_value OpAddToStoreNar; _ ← write_value info; _ ← write_value repair; write_value dont_check_sigs)
      source fuel c
  else old_versions fuel c.

Definition client_add_build_log (path : StorePath) (source : list (res io_error bytes)) : client_method unit :=
  framed_request OpAddBuildLog (_ ← write_value OpAddBuildLog; write_value path) source.

Definition client_add_ca_to_store (name : RString) (cam : ContentAddressMethodAlgorithm)
    (refs : BTreeSet StorePath) (repair : bool) (source : list (res io_error bytes))
    : client_method ValidPathInfo :=
  framed_request OpAddToStore
    (_ ← write_value OpAddToStore; _ ← write_value name; _ ← write_value cam; _ ← write_value refs;
     write_value repair) source.

Definition client_upload (old_versions : client_method unit) {T} (e : UploadE T) (source : list (res io_error bytes))
    : client_method T :=
  match e in UploadE T return client_method T with
  | add_to_store_nar info repair dont_check_sigs =>
      client_add_to_store_nar old_versions info repair dont_check_sigs source
  | add_build_log path => client_add_build_log path source
  | add_ca_to_store name cam refs repair => client_add_ca_to_store name cam refs repair source
  end.

(** [nar_from_path]; when it succeeds, a [NarBytesReader] is lent the reader. *)
Definition client_nar_from_path (path : StorePath) : client_method unit := λ fuel c,
  match (io_try (_ ← write_value OpNarFromPath; _ ← write_value path; flush) : eff DaemonError WS unit)
          (cl_writer c) with
  | (w, Ok _) =>
      let '(r, (logs, result)) := nar_loop fuel (cl_reader c) in
      (cl_set c r w, (logs, res_map_err (fill_operation OpNarFromPath) result))
  | (w, Err err) => (cl_set c (cl_reader c) w, ([], Err (fill_operation OpNarFromPath err)))
  | (w, Panic) => (cl_set c (cl_reader c) w, ([], Panic))
  end.

(** ** Handshake *)

Record DaemonHandshakeClient : Type := mk_handshake_client {
  hc_host : bytes;
  hc_min_version : ProtocolVersion;
  hc_max_version : ProtocolVersion;
  hc_reader : RS;
  hc_writer : WS
}.

Definition hc_set (c : DaemonHandshakeClient) (r : RS) (w : WS) : DaemonHandshakeClient :=
  mk_handshake_client (hc_host c) (hc_min_version c) (hc_max_version c) r w.

Definition hc_on_reader {A} (m : eff DaemonError RS A) : eff DaemonError DaemonHandshakeClient A := λ c,
  let '(r, a) := m (hc_reader c) in (hc_set c r (hc_writer c), a).
Definition hc_on_writer {A} (m : eff DaemonError WS A) : eff DaemonError DaemonHandshakeClient A := λ c,
  let '(w, a) := m (hc_writer c) in (hc_set c (hc_reader c) w, a).

Definition hc_set_versions (v : ProtocolVersion) : eff DaemonError DaemonHandshakeClient unit := λ c,
  (hc_set c (set_version v (hc_reader c)) (set_version v (hc_writer c)), Ok tt).

(** Up to the log messages: the version of the daemon, and whether it trusts
    the client. *)
Definition exchange_versions (min_version max_version : ProtocolVersion)
    : eff DaemonError DaemonHandshakeClient (option RString * TrustLevel) :=
  _ ← hc_on_writer (with_field "clientMagic" (write_number CLIENT_MAGIC));
  _ ← hc_on_writer (with_field "clientMagic" flush);
  magic ← hc_on_reader (with_field "serverMagic" read_number);
  if bool_decide (magic ≠ SERVER_MAGIC) then throw_field "serverMagic" (WrongMagic magic) else
  server_version ← hc_on_reader (with_field "protocolVersion" (read_value ProtocolVersion));
  let version := version_min server_version max_version in
  if version_lt version min_version then throw_field "protocolVersion" (UnsupportedVersion version) else
  _ ← hc_on_writer (with_field "clientVersion" (write_value version));
  _ ← hc_set_versions version;
  _ ← (if decide (14 ≤ minor version)%Z then hc_on_writer (with_field "sendCpu" (write_value false)) else mret tt);
  _ ← (if decide (11 ≤ minor version)%Z then hc_on_writer (with_field "reserveSpace" (write_value false))
       else mret tt);
  daemon_nix_version ←
    (if decide (33 ≤ minor version)%Z then
       _ ← hc_on_writer (io_try flush);
       v ← hc_on_reader (with_field "nixVersion" (read_value RString)); mret (Some v)
     else mret None);
  remote_trusts_us ←
    (if decide (35 ≤ minor version)%Z then hc_on_reader (with_field "trusted" (read_value TrustLevel))
     else mret TrustUnknown);
  _ ← hc_on_writer (io_try flush);
  mret (daemon_nix_version, remote_trusts_us).

(** [handshake]; [id] is the next number of [CLIENT_ID]. *)
Definition client_handshake (id : Z) (fuel : nat) (c : DaemonHandshakeClient)
    : DaemonHandshakeClient * ResultLog DaemonClient :=
  match exchange_versions (hc_min_version c) (hc_max_version c) c with
  | (c, Ok (daemon_nix_version, remote_trusts_us)) =>
      let '(r, (logs, result)) := stderr_loop fuel (hc_reader c) in
      (hc_set c r (hc_writer c),
       (logs, match result with
              | Ok _ => Ok (mk_client id (hc_host c) r (hc_writer c) daemon_nix_version remote_trusts_us)
              | Err e => Err e
              | Panic => Panic
              end))
  | (c, Err e) => (c, ([], Err e))
  | (c, Panic) => (c, ([], Panic))
  end.
End client.
Arguments DaemonClient : clear implicits.
Arguments mk_client {RS WS}.
Arguments cl_id {RS WS}.
Arguments cl_host {RS WS}.
Arguments cl_reader {RS WS}.
Arguments cl_writer {RS WS}.
Arguments cl_daemon_nix_version {RS WS}.
Arguments cl_remote_trusts_us {RS WS}.
Arguments DaemonHandshakeClient : clear implicits.
Arguments mk_handshake_client {RS WS}.
Arguments hc_host {RS WS}.
Arguments hc_min_version {RS WS}.
Arguments hc_max_version {RS WS}.
Arguments hc_reader {RS WS}.
Arguments hc_writer {RS WS}.

(** ** The builder *)

Record DaemonClientBuilder : Type := mk_client_builder {
  cb_store_dir : StoreDir;
  cb_host : option bytes;
  cb_min_version : ProtocolVersion;
  cb_max_version : ProtocolVersion
}.

Definition DaemonClientBuilder_default : DaemonClientBuilder :=
  mk_client_builder (str "/nix/store") None PROTOCOL_VERSION_MIN PROTOCOL_VERSION.

Definition cb_set_store_dir (b : DaemonClientBuilder) (store_dir : StoreDir) : DaemonClientBuilder :=
  mk_client_builder store_dir (cb_host b) (cb_min_version b) (cb_max_version b).
Definition cb_set_host (b : DaemonClientBuilder) (host : bytes) : DaemonClientBuilder :=
  mk_client_builder (cb_store_dir b) (Some host) (cb_min_version b) (cb_max_version b).
Definition cb_clear_host (b : DaemonClientBuilder) : DaemonClientBuilder :=
  mk_client_builder (cb_store_dir b) None (cb_min_version b) (cb_max_version b).
Definition cb_set_min_version {E} (b : DaemonClientBuilder) (v : ProtocolVersion) : res E DaemonClientBuilder :=
  if version_lt v PROTOCOL_VERSION_MIN then Panic
  else Ok (mk_client_builder (cb_store_dir b) (cb_host b) v (cb_max_version b)).
Definition cb_set_max_version {E} (b : DaemonClientBuilder) (v : ProtocolVersion) : res E DaemonClientBuilder :=
  if version_lt PROTOCOL_VERSION v then Panic
  else Ok (mk_client_builder (cb_store_dir b) (cb_host b) (cb_min_version b) v).

(** [build], on a reader and a writer that have the builder's store directory. *)
Definition cb_build {RS WS} (b : DaemonClientBuilder) (reader : RS) (writer : WS) : DaemonHandshakeClient RS WS :=
  mk_handshake_client (default (str "unknown") (cb_host b)) (cb_min_version b) (cb_max_version b) reader writer.
