(* ===== verification/ClientSpec.v ===== *)
(** The client against the server: which methods of the client understand what
    the server sends, what they return, and what goes wrong with the others. *)

From stdpp Require Import base list numbers strings.
From Stdlib Require Import ZArith Lia Strings.Byte.
From S2P Require Import Prelude Async Wire Sink ProtoRead Framed Version BaseEncoding Codecs Hash StorePath ContentAddress Signature DerivedPath NixIO Streams NixCodec WireTypes Messages Derivations Requests Logger DaemonErrors DaemonStore Server ServerSpec Client.

#[local] Unset Program Cases.

(** ** Reading the log *)

Section stderr.
Context {DE : DataEncoding} {DL : DataEncodingLaws} {SZ_Bytes : SizeOf Bytes}.
Context {SZ_Field : SizeOf Field} {SZ_TraceLine : SizeOf TraceLine}.
Context {RS : Type} {HR : NixRead RS} {HRL : NixReadLaws RS}.
Context (E : env) (HE : (20 ≤ minor (e_version E))%Z).

(** [m] takes [bs] off the stream, yields [logs] and ends with [r]. *)
Definition hears {A} (m : RS → RS * ResultLog A) (bs : bytes) (out : ResultLog A) : Prop :=
  ∀ s tl, nr_inv s → r_env E s → nr_rest s = bs ++ tl →
  ∃ s', m s = (s', out) ∧ nr_inv s' ∧ r_env E s' ∧ nr_rest s' = tl.

Lemma hears_log fuel bs m out :
  codec_ok E (raw_of m) → hears (stderr_loop fuel) bs out →
  hears (stderr_loop (S fuel)) (codec_bytes E (raw_of m) ++ bs) (seen m :: out.1, out.2).
Proof using DL.
  intros Hm Hk s tl Hi Hr Hrest. rewrite <-app_assoc in Hrest.
  destruct (reads_value E (raw_of m) Hm s _ Hi Hr Hrest) as (s1 & E1 & Hi1 & Hr1 & Hrest1).
  destruct (Hk s1 tl Hi1 Hr1 Hrest1) as (s2 & E2 & ?). exists s2. split; [|done].
  cbn [stderr_loop]. rewrite E1. destruct m as [[l t]|a|a|a]; cbn [raw_of]; rewrite E2; done.
Qed.

Lemma hears_logs fuel logs bs out :
  logs_ok E logs → hears (stderr_loop fuel) bs out →
  hears (stderr_loop (length logs + fuel)) (logs_bytes E logs ++ bs) ((seen <$> logs) ++ out.1, out.2).
Proof using DL.
  intros Hl Hk. induction Hl as [|m logs Hm _ IH].
  - destruct out. exact Hk.
  - unfold logs_bytes. cbn. rewrite <-app_assoc. by apply (hears_log _ _ _ ((seen <$> logs) ++ out.1, out.2)).
Qed.

Lemma hears_last fuel : hears (stderr_loop (S fuel)) (codec_bytes E RLast) ([], Ok tt).
Proof using DL HE.
  intros s tl Hi Hr Hrest.
  assert (codec_ok E RLast) as Hl by done.
  destruct (reads_value E RLast Hl s _ Hi Hr Hrest) as (s1 & E1 & ?). exists s1. split; [|done].
  cbn [stderr_loop]. by rewrite E1.
Qed.

Lemma hears_error fuel err :
  codec_ok E (RError err) →
  hears (stderr_loop (S fuel)) (codec_bytes E (RError err)) ([], Err (from_log_error err)).
Proof using DL.
  intros Hl s tl Hi Hr Hrest.
  destruct (reads_value E (RError err) Hl s _ Hi Hr Hrest) as (s1 & E1 & ?). exists s1. split; [|done].
  cbn [stderr_loop]. by rewrite E1.
Qed.

(** A result, read with the codec the value was written with. *)
Lemma hears_result T {ND : NixDeserialize T} fuel logs bs (v : T) :
  logs_ok E logs → reads E (read_value T) bs v →
  hears (process_stderr T (length logs + S fuel)) (logs_bytes E logs ++ codec_bytes E RLast ++ bs)
    (seen <$> logs, Ok v).
Proof using DL HE.
  intros Hl Hv s tl Hi Hr Hrest.
  assert (hears (stderr_loop (length logs + S fuel)) (logs_bytes E logs ++ codec_bytes E RLast)
    ((seen <$> logs) ++ [], Ok tt)) as Hs
    by exact (hears_logs (S fuel) logs _ ([], Ok tt) Hl (hears_last fuel)).
  rewrite app_nil_r in Hs. rewrite app_assoc, <-(app_assoc _ bs) in Hrest.
  destruct (Hs s _ Hi Hr Hrest) as (s1 & E1 & Hi1 & Hr1 & Hrest1).
  destruct (Hv s1 tl Hi1 Hr1 Hrest1) as (s2 & E2 & ?). exists s2. split; [|done].
  unfold process_stderr. rewrite E1. unfold io_try. by rewrite (eff_map_err_Ok _ _ _ _ _ E2).
Qed.

Lemma hears_failure T {ND : NixDeserialize T} fuel logs err :
  logs_ok E logs → codec_ok E (RError err) →
  hears (process_stderr T (length logs + S fuel)) (logs_bytes E logs ++ codec_bytes E (RError err))
    (seen <$> logs, Err (from_log_error err)).
Proof using DL.
  intros Hl He s tl Hi Hr Hrest.
  assert (hears (stderr_loop (length logs + S fuel)) (logs_bytes E logs ++ codec_bytes E (RError err))
    ((seen <$> logs) ++ [], Err (from_log_error err))) as Hs
    by exact (hears_logs (S fuel) logs _ ([], Err (from_log_error err)) Hl (hears_error fuel err He)).
  rewrite app_nil_r in Hs.
  destruct (Hs s _ Hi Hr Hrest) as (s1 & E1 & ?). exists s1. split; [|done].
  unfold process_stderr. by rewrite E1.
Qed.
End stderr.

(** ** The methods of the client *)

(** The request of a method, operation first. *)
Ltac writes_request Hq :=
  match goal with |- writes _ _ (codec_bytes ?E ?r) =>
    change (codec_bytes E r) with (codec_bytes E (operation r) ++ request_args E r);
    change (request_args_ok E r) in Hq
  end;
  cbn [request_of upload_request operation request_args request_args_ok] in *;
  first
    [ rewrite app_nil_r; apply writes_value, operation_ok
    | apply writes_bind; [apply writes_value, operation_ok|];
      first [exact (writes_value _ _ Hq)|hnf in Hq; destruct_and?; writes_fields] ].

Section client.
Context {DE : DataEncoding} {DL : DataEncodingLaws} {DG : DigestLib} {SA : StructuredAttrsLib}.
Context {ET : ErrorText}.
Context {SZ_Bytes : SizeOf Bytes} {SZ_DerivedPath : SizeOf DerivedPath} {SZ_Signature : SizeOf Signature}.
Context {SZ_Field : SizeOf Field} {SZ_TraceLine : SizeOf TraceLine}.
Context {SZ_KeyedBuildResult : SizeOf KeyedBuildResult}.
Context {RS : Type} {HR : NixRead RS} {HRL : NixReadLaws RS}.
Context {WS : Type} {HW : NixWrite WS} {HWL : NixWriteLaws WS} {HA : AsyncWriter WS} {HAL : AsyncWriterLaws WS}.
Context (E : env) (HE : (27 ≤ minor (e_version E))%Z).
Implicit Types c : DaemonClient RS WS.

(** The replies [i] are still to be read, and [d] has been written. *)
Definition client_at c (i d : bytes) : Prop :=
  nr_inv (cl_reader c) ∧ r_env E (cl_reader c) ∧ nr_rest (cl_reader c) = i ∧
  nw_at (cl_writer c) d ∧ w_env E (cl_writer c).

(** The method sends [q], and flushes it; on the reply [p], with more than [n]
    messages of fuel, it gives [out]. *)
Definition calls {T} (m : client_method T) (n : nat) (q p : bytes) (out : ResultLog T) : Prop :=
  ∀ c fuel d tl, client_at c (p ++ tl) d → n < fuel →
  ∃ c', m fuel c = (c', out) ∧ client_at c' tl (d ++ q) ∧ w_sent (cl_writer c') = d ++ q.

Lemma calls_request {T} {ND : NixDeserialize T} op send n q p (out : ResultLog T) :
  writes E send q → (∀ fuel, hears E (process_stderr T (n + S fuel)) p out) →
  calls (request op send) n q p (out.1, res_map_err (fill_operation op) out.2).
Proof using HAL.
  intros Hq Hp c fuel d tl (Hi & Hr & Hrest & Hw & He) Hf.
  destruct (Hq _ _ Hw He) as (w & E1 & Hw1 & He1). destruct (flush_law _ _ Hw1) as (w' & E2 & Hw2 & Hsame & Hsent).
  destruct (Hp (fuel - S n) _ tl Hi Hr Hrest) as (r & E3 & Hi' & Hr' & Hrest').
  replace (n + S (fuel - S n)) with fuel in E3 by lia.
  unfold request, io_try. rewrite (eff_map_err_Ok _ _ _ w' tt) by (by rewrite (io_bind_Ok _ _ _ _ _ E1), E2).
  rewrite E3. destruct out as [logs result]. eexists. split; [done|]. split; [|done].
  unfold client_at. split_and!; try done. exact (w_env_same _ _ _ Hsame He1).
Qed.

(** What the caller of the client gets for the store's answer. *)
Definition client_result {T} (op : Operation) (r : res DaemonError T) : res DaemonError T :=
  match r with
  | Ok v => Ok v
  | Err err => Err (fill_operation op (from_log_error (LogError_from (fill_operation op err))))
  | Panic => Panic
  end.
Definition client_out {T} (op : Operation) (out : ResultLog T) : ResultLog T :=
  (seen <$> out.1, client_result op out.2).

(** The methods for which the server sends a number that says nothing, and the
    client reads nothing. *)
Definition unread {T} (e : StoreE T) : bool :=
  match e with
  | ensure_path _ | add_temp_root _ | add_indirect_root _ | optimise_store | add_signatures _ _ => true
  | _ => false
  end.

(** The methods whose request is the one the server reads. *)
Definition understood {T} (e : StoreE T) : bool :=
  match e with collect_garbage _ _ _ _ => false | _ => true end.

(** The methods whose request is the one the server reads, and which read what
    the server sends. *)
Definition agrees {T} (e : StoreE T) : bool := understood e && negb (unread e).

(** The reply up to where the client reads it. *)
Definition expected_value {T} (e : StoreE T) (v : T) : bytes := if unread e then [] else value_bytes E e v.
Definition expected_bytes {T} (e : StoreE T) (out : ResultLog T) : bytes :=
  logs_bytes E out.1 ++ result_bytes E (store_operation e) (expected_value e) out.2.

Lemma expected_agrees {T} (e : StoreE T) out : agrees e = true → expected_bytes e out = reply_bytes E e out.
Proof using Type.
  unfold agrees, expected_bytes, expected_value. intros [_ Hu%negb_true_iff]%andb_prop. by rewrite Hu.
Qed.

Lemma expected_unread {T} (e : StoreE T) logs v :
  unread e = true → reply_bytes E e (logs, Ok v) = expected_bytes e (logs, Ok v) ++ codec_bytes E ignored_one.
Proof using Type.
  unfold expected_bytes, expected_value, reply_bytes, result_bytes. intros Hu. rewrite Hu. cbn [fst snd].
  rewrite app_nil_r, <-app_assoc. by destruct e.
Qed.

(** A method is a request: the type it reads, what it makes of the value, and
    what it sends. *)
Definition requests {T} (e : StoreE T) : Prop :=
  ∃ U (ND : NixDeserialize U) (g : U → T) send,
    (∀ fuel c, client_call e fuel c = method_map g (request (store_operation e) send) fuel c) ∧
    writes E send (codec_bytes E (request_of e)) ∧
    ∀ v, value_ok E e v → ∃ u, reads E (read_value U) (expected_value e v) u ∧ g u = v.

Lemma calls_expected {T} (e : StoreE T) out :
  requests e → reply_ok E e out →
  calls (client_call e) (length out.1) (codec_bytes E (request_of e)) (expected_bytes e out)
    (client_out (store_operation e) out).
Proof using HAL DL HE.
  intros (U & ND & g & send & Hcall & Hq & Hv) [Hl Hr] c fuel d tl Hc Hf. rewrite Hcall.
  destruct out as [logs [v|err|]]; cbn [fst snd result_ok] in *; [..|done].
  - destruct (Hv v Hr) as (u & Hu & <-).
    destruct (calls_request (store_operation e) send (length logs) _ _ (seen <$> logs, Ok u) Hq
      (λ fuel, hears_result E ltac:(lia) U fuel logs _ u Hl Hu) c fuel d tl Hc Hf) as (c' & E1 & Hc').
    exists c'. split; [|done]. unfold method_map. by rewrite E1.
  - destruct (calls_request (store_operation e) send (length logs) _ _
      (seen <$> logs, Err (from_log_error (LogError_from (fill_operation (store_operation e) err)))) Hq
      (λ fuel, hears_failure E U fuel logs _ Hl Hr) c fuel d tl Hc Hf) as (c' & E1 & Hc').
    exists c'. split; [|done]. unfold method_map. by rewrite E1.
Qed.

Lemma reads_unit : reads E (read_value unit) [] tt.
Proof using Type. intros s tl Hi Hr Hrest. by exists s. Qed.

Lemma method_map_id {T} (m : client_method T) fuel c : m fuel c = method_map id m fuel c.
Proof using Type. unfold method_map. by destruct (m fuel c) as [? [? []]]. Qed.

Lemma query_valid_paths_sends paths substitute :
  codec_ok E (request_of (query_valid_paths paths substitute)) →
  writes E (_ ← write_value OpQueryValidPaths; _ ← write_value paths; version ← io_gets w_version;
            if decide (27 ≤ minor version)%Z then write_value substitute else mret tt)
    (codec_bytes E (request_of (query_valid_paths paths substitute))).
Proof using DL HE.
  intros [Hp Hs]. apply writes_bind; [apply writes_value, operation_ok|]. apply writes_bind; [exact (writes_value E paths Hp)|].
  apply writes_version. rewrite decide_True by done. exact (writes_value E substitute Hs).
Qed.

Lemma client_requests {T} (e : StoreE T) : understood e = true → codec_ok E (request_of e) → requests e.
Proof using DL HE.
  intros Hu Hq. destruct e; try done.
  all: eexists _, _, _, _; split; [intros fuel c;
    lazymatch goal with |- client_call (build_paths _ _) _ _ = _ => exact eq_refl | _ => exact (method_map_id _ fuel c) end|].
  all: split; [first [writes_request Hq|by apply query_valid_paths_sends]|].
  all: intros v Hv; unfold expected_value; cbn [value_bytes value_ok unread] in *.
  all: first
    [ exists v; split; [exact (reads_value E v Hv)|done]
    | destruct v; exists tt; split; [apply reads_unit|done]
    | destruct v; exists ignored_one; split; [by apply (reads_value E ignored_one)|done] ].
Qed.

Lemma client_call_calls {T} (e : StoreE T) out :
  agrees e = true → codec_ok E (request_of e) → reply_ok E e out →
  calls (client_call e) (length out.1) (codec_bytes E (request_of e)) (reply_bytes E e out)
    (client_out (store_operation e) out).
Proof using HAL DL HE.
  intros Ha Hq Hr. rewrite <-expected_agrees by done. apply calls_expected; [|done].
  apply client_requests; [by apply andb_prop in Ha as [? _]|done].
Qed.
End client.

(** ** The handshake *)

Section handshake.
Context {DE : DataEncoding} {DL : DataEncodingLaws} {SZ_Bytes : SizeOf Bytes}.
Context {SZ_Field : SizeOf Field} {SZ_TraceLine : SizeOf TraceLine}.
Context {RS : Type} {HR : NixRead RS} {HRL : NixReadLaws RS} {HVR : SetVersion RS} {HVRL : SetVersionReadLaws RS}.
Context {WS : Type} {HW : NixWrite WS} {HWL : NixWriteLaws WS} {HA : AsyncWriter WS} {HAL : AsyncWriterLaws WS}.
Context {HVW : SetVersion WS} {HVWL : SetVersionWriteLaws WS}.
Context (E : env) (HE : e_version E = PROTOCOL_VERSION).
Implicit Types c : DaemonHandshakeClient RS WS.

Definition hc_at c (i d : bytes) : Prop :=
  nr_inv (hc_reader c) ∧ r_env E (hc_reader c) ∧ nr_rest (hc_reader c) = i ∧
  nw_at (hc_writer c) d ∧ w_env E (hc_writer c).

(** The rest of the handshake, after a step. *)
Definition hc_then c {A} (i d : bytes) (k : eff DaemonError (DaemonHandshakeClient RS WS) A)
    (P : DaemonHandshakeClient RS WS * res DaemonError A → Prop) : Prop :=
  ∀ c1, hc_at c1 i d → hc_host c1 = hc_host c → P (k c1).

Lemma hc_write {A} (f : io_error → DaemonError) (m : io WS unit) bs (k : unit → eff DaemonError _ A) c i d P :
  writes E m bs → hc_at c i d → hc_then c i (d ++ bs) (k tt) P → P ((hc_on_writer (map_err f m) ≫= k) c).
Proof using Type.
  intros Hm (Hi & Hr & Hrest & Hw & He) Hk. destruct (Hm _ _ Hw He) as (w & E1 & Hw1 & He1).
  rewrite (eff_bind_Ok _ _ _ (hc_set c (hc_reader c) w) tt); [by apply Hk|].
  unfold hc_on_writer. by rewrite (eff_map_err_Ok _ _ _ _ _ E1).
Qed.

Lemma hc_read {A B} (f : io_error → DaemonError) (m : io RS A) bs v (k : A → eff DaemonError _ B) c i d P :
  reads E m bs v → hc_at c (bs ++ i) d → hc_then c i d (k v) P → P ((hc_on_reader (map_err f m) ≫= k) c).
Proof using Type.
  intros Hm (Hi & Hr & Hrest & Hw & He) Hk. destruct (Hm _ i Hi Hr Hrest) as (r & E1 & Hi1 & Hr1 & Hrest1).
  rewrite (eff_bind_Ok _ _ _ (hc_set c r (hc_writer c)) v); [by apply Hk|].
  unfold hc_on_reader. by rewrite (eff_map_err_Ok _ _ _ _ _ E1).
Qed.

Lemma hc_versions {A} (k : unit → eff DaemonError _ A) c i d P :
  hc_at c i d → hc_then c i d (k tt) P → P ((hc_set_versions PROTOCOL_VERSION ≫= k) c).
Proof using HE HVRL HVWL.
  intros (Hi & (Hrv & Hrd & Hrl) & Hrest & Hw & (Hwv & Hwd & Hwr)) Hk.
  destruct (set_version_read PROTOCOL_VERSION _ Hi) as (? & ? & ? & ? & ?).
  destruct (set_version_write PROTOCOL_VERSION _ _ Hw) as (? & ? & ? & ?).
  rewrite (eff_bind_Ok (hc_set_versions PROTOCOL_VERSION) k c
    (hc_set c (set_version PROTOCOL_VERSION (hc_reader c)) (set_version PROTOCOL_VERSION (hc_writer c))) tt eq_refl).
  apply Hk; [|done].
  unfold hc_at, r_env, w_env. cbn. split_and!; congruence.
Qed.

Lemma exchange_spec nix_version trust c i d :
  codec_ok E nix_version → hc_at c (handshake_reply E nix_version trust ++ i) d →
  ∃ c', exchange_versions PROTOCOL_VERSION_MIN PROTOCOL_VERSION c = (c', Ok (Some nix_version, trust)) ∧
    hc_at c' i (d ++ handshake_request E) ∧ hc_host c' = hc_host c ∧
    w_sent (hc_writer c') = d ++ handshake_request E.
Proof using HE HAL HVRL HVWL.
  intros Hn Hc. pose proof (version_codec_ok E) as Hv. set (host := hc_host c).
  assert (Hh : hc_host c = host) by done. clearbody host.
  set (Q := λ x : DaemonHandshakeClient RS WS * res DaemonError (option RString * TrustLevel),
    ∃ c', x = (c', Ok (Some nix_version, trust)) ∧ hc_at c' i (d ++ handshake_request E) ∧ hc_host c' = host ∧
      w_sent (hc_writer c') = d ++ handshake_request E).
  change (Q (exchange_versions PROTOCOL_VERSION_MIN PROTOCOL_VERSION c)).
  unfold handshake_reply in Hc. rewrite <-!app_assoc in Hc. unfold exchange_versions, with_field, io_try.
  eapply hc_write; [apply writes_number|exact Hc|]. intros c1 Hc1 Hh1.
  eapply hc_write; [apply writes_flush|exact Hc1|]. intros c2 Hc2 Hh2.
  eapply hc_read; [exact (reads_magic E SERVER_MAGIC server_magic_u64)|exact Hc2|]. intros c3 Hc3 Hh3.
  rewrite bool_decide_false by tauto.
  eapply hc_read; [exact (reads_value E _ Hv)|exact Hc3|]. intros c4 Hc4 Hh4.
  change (version_min PROTOCOL_VERSION PROTOCOL_VERSION) with PROTOCOL_VERSION.
  change (version_lt PROTOCOL_VERSION PROTOCOL_VERSION_MIN) with false. cbv iota.
  eapply hc_write; [exact (writes_value E _ Hv)|exact Hc4|]. intros c5 Hc5 Hh5.
  apply (hc_versions _ c5 _ _ _ Hc5). intros c6 Hc6 Hh6.
  rewrite !decide_True by (cbn; lia).
  eapply hc_write; [exact (writes_value E false I)|exact Hc6|]. intros c7 Hc7 Hh7.
  eapply hc_write; [exact (writes_value E false I)|exact Hc7|]. intros c8 Hc8 Hh8.
  match goal with |- Q ((?m ≫= ?f) c8) =>
    assert (∃ c9, m c8 = (c9, Ok (Some nix_version)) ∧
      hc_at c9 (codec_bytes E trust ++ i) (d ++ handshake_request E) ∧ hc_host c9 = hc_host c8)
      as (c9 & E9 & Hc9 & Hh9) end.
  { set (P := λ x : DaemonHandshakeClient RS WS * res DaemonError (option RString), ∃ c9, x = (c9, Ok (Some nix_version)) ∧
      hc_at c9 (codec_bytes E trust ++ i) (d ++ handshake_request E) ∧ hc_host c9 = hc_host c8).
    match goal with |- ∃ c9, ?x = _ ∧ _ => change (P x) end.
    eapply hc_write; [apply writes_flush|exact Hc8|]. intros c9 Hc9 Hh9.
    eapply hc_read; [exact (reads_value E _ Hn)|exact Hc9|]. intros c10 Hc10 Hh10.
    exists c10. unfold handshake_request. rewrite ?app_nil_r, <-?app_assoc in Hc10. split; [done|].
    split; [done|congruence]. }
  rewrite (eff_bind_Ok _ _ _ _ _ E9). assert (codec_ok E trust) as Htr by (by destruct trust).
  eapply hc_read; [exact (reads_value E _ Htr)|exact Hc9|]. intros c10 Hc10 Hh10.
  destruct Hc10 as (Hi & Hr & Hrest & Hw & He). destruct (flush_law _ _ Hw) as (w & Ew & Hw' & Hsame & Hsent).
  rewrite (eff_bind_Ok _ _ _ (hc_set c10 (hc_reader c10) w) tt).
  - eexists. split; [done|]. cbn. split_and!; [..|congruence|done].
    unfold hc_at. cbn. split_and!; try done. exact (w_env_same _ _ _ Hsame He).
  - unfold hc_on_writer. by rewrite (eff_map_err_Ok _ _ _ _ _ Ew).
Qed.

(** The whole handshake, with the log the server sends after it. *)
Lemma client_handshake_spec nix_version trust id fuel logs c i d :
  hc_min_version c = PROTOCOL_VERSION_MIN → hc_max_version c = PROTOCOL_VERSION →
  codec_ok E nix_version → logs_ok E logs → length logs < fuel →
  hc_at c (handshake_reply E nix_version trust ++ logs_bytes E logs ++ codec_bytes E RLast ++ i) d →
  ∃ r w h, client_handshake id fuel c =
      (h, (seen <$> logs, Ok (mk_client id (hc_host c) r w (Some nix_version) trust))) ∧
    nr_inv r ∧ r_env E r ∧ nr_rest r = i ∧ nw_at w (d ++ handshake_request E) ∧ w_env E w ∧
    w_sent w = d ++ handshake_request E.
Proof using HE HAL HVRL HVWL DL.
  intros Hmin Hmax Hn Hl Hf Hc. destruct (exchange_spec nix_version trust c _ d Hn Hc) as (c1 & E1 & Hc1 & Hh1 & Hsent).
  unfold client_handshake. rewrite Hmin, Hmax, E1. destruct Hc1 as (Hi & Hr & Hrest & Hw & He).
  assert (20 ≤ minor (e_version E))%Z as Hv by (rewrite HE; cbn; lia).
  pose proof (hears_logs E (S (fuel - S (length logs))) logs _ ([], Ok tt) Hl
    (hears_last E Hv (fuel - S (length logs)))) as Hs.
  replace (length logs + S (fuel - S (length logs))) with fuel in Hs by lia.
  rewrite app_assoc in Hrest. destruct (Hs _ _ Hi Hr Hrest) as (r & E2 & Hi2 & Hr2 & Hrest2).
  rewrite E2. cbn. rewrite app_nil_r, Hh1. eexists r, (hc_writer c1), _. split; [done|]. split_and!; done.
Qed.
End handshake.
