(* ===== verification/Remote.v ===== *)
(** The remote store: the client ([harmonia-store-remote/src/client.rs]) talking
    to the server ([harmonia-daemon/src/server/mod.rs]) is the store behind the
    server, as far as the two agree on the protocol; and where they do not. *)

From stdpp Require Import base list numbers strings.
From Stdlib Require Import ZArith Lia Strings.Byte.
From S2P Require Import Prelude Async Wire Sink BufferMut BytesReader ProtoRead Framed Version BaseEncoding Codecs Hash StorePath ContentAddress Signature DerivedPath NixIO Streams NixCodec WireTypes Messages Derivations Requests Logger DaemonErrors DaemonStore Server ServerSpec Samples Client ClientSpec.

#[local] Unset Program Cases.

Section remote.
Context {DE : DataEncoding} {DL : DataEncodingLaws} {DG : DigestLib} {SA : StructuredAttrsLib}.
Context {ET : ErrorText}.
Context {SZ_Bytes : SizeOf Bytes} {SZ_DerivedPath : SizeOf DerivedPath} {SZ_Signature : SizeOf Signature}.
Context {SZ_Field : SizeOf Field} {SZ_TraceLine : SizeOf TraceLine}.
Context {SZ_KeyedBuildResult : SizeOf KeyedBuildResult}.

(** ** Runs *)

(** A method and what came of it. *)
Record outcome : Type := mk_outcome { oc_type : Type; oc_event : StoreE oc_type; oc_result : ResultLog oc_type }.

Definition event : Type := {T : Type & StoreE T}.
Definition ev {T} (e : StoreE T) : event := existT T e.

(** The methods on the store itself, one after the other. *)
Fixpoint store_run {St} {HS : DaemonStore St} (es : list event) (st : St) : St * list outcome :=
  match es with
  | [] => (st, [])
  | existT T e :: es =>
      let '(st, out) := store_call e st in
      let '(st, outs) := store_run es st in (st, mk_outcome T e out :: outs)
  end.

(** The methods of the client, one after the other. *)
Fixpoint client_run {RS WS} {HR : NixRead RS} {HW : NixWrite WS} {HA : AsyncWriter WS} (fuel : nat)
    (es : list event) (c : DaemonClient RS WS) : DaemonClient RS WS * list outcome :=
  match es with
  | [] => (c, [])
  | existT T e :: es =>
      let '(c, out) := client_call e fuel c in
      let '(c, outs) := client_run fuel es c in (c, mk_outcome T e out :: outs)
  end.

(** What the client's caller sees of it. *)
Definition outcome_seen (o : outcome) : outcome :=
  mk_outcome (oc_type o) (oc_event o) (client_out (store_operation (oc_event o)) (oc_result o)).

Definition outcome_request (E : env) (o : outcome) : bytes := codec_bytes E (request_of (oc_event o)).
Definition outcome_reply (E : env) (o : outcome) : bytes := reply_bytes E (oc_event o) (oc_result o).

(** The two sides agree on the method, and its arguments and answer can be
    sent. *)
Definition outcome_ok (E : env) (o : outcome) : Prop :=
  agrees (oc_event o) = true ∧ codec_ok E (request_of (oc_event o)) ∧ reply_ok E (oc_event o) (oc_result o).

Section server_side.
Context {RS : Type} {HR : NixRead RS} {HRL : NixReadLaws RS} {HF : FramedSource RS}.
Context {WS : Type} {HW : NixWrite WS} {HWL : NixWriteLaws WS} {HA : AsyncWriter WS} {HAL : AsyncWriterLaws WS}.
Context {St : Type} {HS : DaemonStore St}.
Context (add_multiple : AddMultipleToStoreRequest → eff RecoverableError (DaemonConnection RS WS St) unit).

Lemma server_run E es st st' outs (s : DaemonConnection RS WS St) d :
  (20 ≤ minor (e_version E))%Z → store_run es st = (st', outs) → Forall (outcome_ok E) outs →
  conn_at E s (concat (outcome_request E <$> outs)) d → conn_store s = st → w_sent (conn_writer s) = d →
  let p := concat (outcome_reply E <$> outs) in
  ∃ s', process_requests add_multiple (S (length es)) s = (s', (shutdown st').2) ∧
    conn_at E s' [] (d ++ p) ∧ w_sent (conn_writer s') = d ++ p.
Proof using HAL DL.
  intros HE. revert st outs s d. induction es as [|[T e] es IH]; intros st outs s d Hrun Hok Hs Hst Hsent.
  - injection Hrun as <- <-. destruct (read_none E s d Hs) as (s1 & E1 & Hs1 & Est & Ew).
    cbn [length process_requests]. rewrite (eff_bind_Ok _ _ _ _ _ E1), Est, Hst.
    destruct (shutdown st) as [st1 r]. exists (set_store st1 s1). cbn. rewrite app_nil_r, Ew. done.
  - cbn [store_run] in Hrun. destruct (store_call e st) as [st1 out] eqn:Ec.
    destruct (store_run es st1) as [st2 outs'] eqn:Er. injection Hrun as <- <-.
    apply Forall_cons in Hok as [(Ha & Hq & Hr) Hok].
    cbn [fmap list_fmap concat] in *. unfold outcome_request at 1 in Hs. cbn [oc_type oc_event oc_result] in *.
    destruct (serves_reader E from_io (try_read_value Request) _ (Some (request_of e)) st _
      (reads_try_value E _ Hq) s d Hs Hst) as (s1 & E1 & Hs1 & Est1 & Et1). rewrite app_nil_r in Hs1.
    destruct (serves_method add_multiple E HE e st st1 out _ Ec Hr s1 d Hs1 Est1)
      as (s2 & E2 & Hs2 & Est2 & Et2 & Hsent2).
    destruct (IH st1 outs' s2 (d ++ reply_bytes E e out) Er Hok Hs2 Est2 Hsent2) as (s3 & E3 & Hs3 & Hsent3).
    exists s3. unfold outcome_reply at 1 3. cbn [oc_event oc_result oc_type]. rewrite app_assoc.
    split; [|done]. cbn [length]. cbn [process_requests]. rewrite (eff_bind_Ok _ _ _ _ _ E1).
    by rewrite (eff_bind_Ok _ _ _ _ _ E2).
Qed.
End server_side.

Section client_side.
Context {RS : Type} {HR : NixRead RS} {HRL : NixReadLaws RS}.
Context {WS : Type} {HW : NixWrite WS} {HWL : NixWriteLaws WS} {HA : AsyncWriter WS} {HAL : AsyncWriterLaws WS}.

Lemma client_runs {St} {HS : DaemonStore St} E es (st st' : St) outs fuel (c : DaemonClient RS WS) d tl :
  (27 ≤ minor (e_version E))%Z → store_run es st = (st', outs) → Forall (outcome_ok E) outs →
  Forall (λ o, length (oc_result o).1 < fuel) outs →
  client_at E c (concat (outcome_reply E <$> outs) ++ tl) d → w_sent (cl_writer c) = d →
  let q := concat (outcome_request E <$> outs) in
  ∃ c', client_run fuel es c = (c', outcome_seen <$> outs) ∧ client_at E c' tl (d ++ q) ∧
    w_sent (cl_writer c') = d ++ q.
Proof using HAL DL.
  intros HE. revert st outs c d. induction es as [|[T e] es IH]; intros st outs c d Hrun Hok Hf Hc Hsent.
  - injection Hrun as <- <-. exists c. cbn in *. by rewrite app_nil_r.
  - cbn [store_run] in Hrun. destruct (store_call e st) as [st1 out] eqn:Ec.
    destruct (store_run es st1) as [st2 outs'] eqn:Er. injection Hrun as <- <-.
    apply Forall_cons in Hok as [(Ha & Hq & Hr) Hok]. apply Forall_cons in Hf as [Hf0 Hf].
    cbn [fmap list_fmap concat oc_type oc_event oc_result] in *. unfold outcome_reply at 1 in Hc.
    cbn [oc_type oc_event oc_result] in Hc. rewrite <-app_assoc in Hc.
    destruct (client_call_calls E HE e out Ha Hq Hr c fuel d _ Hc Hf0) as (c1 & E1 & Hc1 & Hsent1).
    destruct (IH st1 outs' c1 _ Er Hok Hf Hc1 Hsent1) as (c2 & E2 & Hc2 & Hsent2).
    exists c2. cbn [client_run]. rewrite E1, E2. split; [done|].
    unfold outcome_request at 1 3. cbn [oc_type oc_event]. by rewrite app_assoc.
Qed.
End client_side.

(** ** Connections *)

(** A reader and a writer at the start of a connection, with the input [i]. *)
Definition fresh {RS WS} {HR : NixRead RS} {HRL : NixReadLaws RS} {HW : NixWrite WS} {HWL : NixWriteLaws WS}
    (E : env) (r : RS) (w : WS) (i : bytes) : Prop :=
  nr_inv r ∧ r_env E r ∧ nr_rest r = i ∧ nw_at w [] ∧ w_env E w.

Section connections.
Context {RS : Type} {HR : NixRead RS} {HRL : NixReadLaws RS} {HF : FramedSource RS}.
Context {HVR : SetVersion RS} {HVRL : SetVersionReadLaws RS}.
Context {WS : Type} {HW : NixWrite WS} {HWL : NixWriteLaws WS} {HA : AsyncWriter WS} {HAL : AsyncWriterLaws WS}.
Context {HVW : SetVersion WS} {HVWL : SetVersionWriteLaws WS}.
Context {H St : Type} {HH : HandshakeDaemonStore H St} {HS : DaemonStore St}.
Context (add_multiple : AddMultipleToStoreRequest → eff RecoverableError (DaemonConnection RS WS St) unit).

(** All the bytes of a connection: from the client, and from the server. *)
Definition client_stream (E : env) (outs : list outcome) : bytes :=
  handshake_request E ++ concat (outcome_request E <$> outs).
Definition server_stream (E : env) (b : Builder) (logs : list LogMessage) (outs : list outcome) : bytes :=
  handshake_reply E (default NIX_VERSION (bld_nix_version b)) (bld_store_trust b) ++ logs_bytes E logs ++
  codec_bytes E RLast ++ concat (outcome_reply E <$> outs).

Lemma serve_connection_spec E b h st logs es st' outs r w :
  e_version E = PROTOCOL_VERSION → bld_min_version b = PROTOCOL_VERSION_MIN →
  bld_max_version b = PROTOCOL_VERSION → codec_ok E (default NIX_VERSION (bld_nix_version b)) →
  store_handshake h = (logs, Ok st) → logs_ok E logs →
  store_run es st = (st', outs) → Forall (outcome_ok E) outs → fresh E r w (client_stream E outs) →
  ∃ r' w', serve_connection add_multiple b (S (length es)) r w h = (r', w', (shutdown st').2) ∧
    nr_rest r' = [] ∧ w_sent w' = server_stream E b logs outs.
Proof using HAL HVRL HVWL DL.
  intros HE Hmin Hmax Hn Hh Hl Hrun Hok (Hi & Hr & Hrest & Hw & He).
  assert (20 ≤ minor (e_version E))%Z as HE' by (rewrite HE; cbn; lia).
  set (s := mk_connection (bld_store_trust b) r w h).
  destruct (handshake_spec E HE _ (concat (outcome_request E <$> outs)) s [] Hn) as (s1 & E1 & Hs1 & Hst1 & Ht1 & _).
  { unfold client_stream in Hrest. by split_and!. }
  destruct Hs1 as (Hi1 & Hr1 & Hrest1 & Hw1 & He1).
  assert (emits E (store ← process_logs (store_handshake h); _ ← fatal_io (write_value RLast); mret store)
    (logs_bytes E logs ++ codec_bytes E RLast) (Ok st)) as Hlogs.
  { rewrite Hh. eapply emits_bind; [exact (emits_process_logs E (logs, Ok st) Hl)|].
    rewrite <-(app_nil_r (codec_bytes E RLast)). eapply emits_bind; [|apply emits_ret].
    apply emits_io. exact (writes_value E RLast (last_ok E HE')). }
  destruct (Hlogs _ _ Hw1 He1) as (w2 & E2 & Hw2 & He2).
  set (s2 := mk_connection (store_trust s1) (conn_reader s1) w2 st).
  destruct (conn_flush E s2 (concat (outcome_request E <$> outs))
    (([] ++ handshake_reply E (default NIX_VERSION (bld_nix_version b)) (store_trust s)) ++
     logs_bytes E logs ++ codec_bytes E RLast)) as (s3 & E3 & Hs3 & Hst3 & Ht3 & Hsent3); [by split_and!|].
  destruct (server_run add_multiple E es st st' outs s3 _ HE' Hrun Hok Hs3 Hst3 Hsent3) as (s4 & E4 & Hs4 & Hsent4).
  unfold serve_connection. rewrite Hmin, Hmax. fold s. rewrite E1, E2. fold s2.
  rewrite (eff_bind_Ok _ _ _ _ _ E3), E4.
  exists (conn_reader s4), (conn_writer s4). split; [done|]. split; [by destruct Hs4 as (_ & _ & ? & _)|].
  rewrite Hsent4. unfold server_stream. cbn. by rewrite <-!app_assoc.
Qed.

Lemma remote_connection {RS' : Type} {HR' : NixRead RS'} {HRL' : NixReadLaws RS'}
    {HVR' : SetVersion RS'} {HVRL' : SetVersionReadLaws RS'}
    {WS' : Type} {HW' : NixWrite WS'} {HWL' : NixWriteLaws WS'} {HA' : AsyncWriter WS'}
    {HAL' : AsyncWriterLaws WS'} {HVW' : SetVersion WS'} {HVWL' : SetVersionWriteLaws WS'}
    (E : env) (h : H) (st st' : St) (logs : list LogMessage) (es : list event) (outs : list outcome) :
  e_version E = PROTOCOL_VERSION → codec_ok E NIX_VERSION →
  store_handshake h = (logs, Ok st) → logs_ok E logs →
  store_run es st = (st', outs) → Forall (outcome_ok E) outs →
  let q := client_stream E outs in
  let p := server_stream E Builder_default logs outs in
  (∀ (r : RS) (w : WS), fresh E r w q →
    ∃ r' w', serve_connection add_multiple Builder_default (S (length es)) r w h = (r', w', (shutdown st').2) ∧
      nr_rest r' = [] ∧ w_sent w' = p) ∧
  (∀ (r : RS') (w : WS') (id : Z) (fuel : nat),
    fresh E r w p → length logs < fuel → Forall (λ o, length (oc_result o).1 < fuel) outs →
    ∃ hc c c', client_handshake id fuel (cb_build DaemonClientBuilder_default r w) = (hc, (seen <$> logs, Ok c)) ∧
      cl_remote_trusts_us c = TrustNotTrusted ∧ cl_daemon_nix_version c = Some NIX_VERSION ∧
      client_run fuel es c = (c', outcome_seen <$> outs) ∧
      nr_rest (cl_reader c') = [] ∧ w_sent (cl_writer c') = q).
Proof using HAL HVRL HVWL DL.
  intros HE Hn Hh Hl Hrun Hok q p. split.
  { intros r w Hf. by apply (serve_connection_spec E Builder_default h st logs es st' outs r w). }
  intros r w id fuel Hf Hfuel Houts.
  destruct (client_handshake_spec E HE NIX_VERSION TrustNotTrusted id fuel logs
    (cb_build DaemonClientBuilder_default r w) (concat (outcome_reply E <$> outs)) [])
    as (r1 & w1 & hc & E1 & Hi & Hr & Hrest & Hw & He & Hsent); [done..|].
  set (c := mk_client id (hc_host (cb_build DaemonClientBuilder_default r w)) r1 w1 (Some NIX_VERSION) TrustNotTrusted) in *.
  destruct (client_runs E es st st' outs fuel c ([] ++ handshake_request E) []) as (c' & E2 & Hc' & Hsent');
    [rewrite HE; cbn; lia|done|done|done|by rewrite app_nil_r|done|].
  exists hc, c, c'. split_and!; try done. by destruct Hc' as (_ & _ & ? & _).
Qed.

(** C8. A connection from the handshake to the end of the requests. For any
    methods on which the two sides agree, whatever the store answers (errors and
    log messages included): the server, given all that the client sends, writes
    exactly the stream [p] and shuts its store down; the client, given [p],
    sends exactly the stream [q] and returns, method by method, the answers the
    store gives when it is called directly, the level of log messages and the
    form of errors aside. So the client is the store behind the server. *)
Theorem remote_store_refines {RS' : Type} {HR' : NixRead RS'} {HRL' : NixReadLaws RS'}
    {HVR' : SetVersion RS'} {HVRL' : SetVersionReadLaws RS'}
    {WS' : Type} {HW' : NixWrite WS'} {HWL' : NixWriteLaws WS'} {HA' : AsyncWriter WS'}
    {HAL' : AsyncWriterLaws WS'} {HVW' : SetVersion WS'} {HVWL' : SetVersionWriteLaws WS'}
    (E : env) (h : H) (st st' : St) (logs : list LogMessage) (es : list event) (outs : list outcome) :
  e_version E = PROTOCOL_VERSION → codec_ok E NIX_VERSION →
  store_handshake h = (logs, Ok st) → logs_ok E logs →
  store_run es st = (st', outs) → Forall (outcome_ok E) outs →
  let q := client_stream E outs in
  let p := server_stream E Builder_default logs outs in
  (∀ (r : RS) (w : WS), fresh E r w q →
    ∃ r' w', serve_connection add_multiple Builder_default (S (length es)) r w h = (r', w', (shutdown st').2) ∧
      nr_rest r' = [] ∧ w_sent w' = p) ∧
  (∀ (r : RS') (w : WS') (id : Z) (fuel : nat),
    fresh E r w p → length logs < fuel → Forall (λ o, length (oc_result o).1 < fuel) outs →
    ∃ hc c c', client_handshake id fuel (cb_build DaemonClientBuilder_default r w) = (hc, (seen <$> logs, Ok c)) ∧
      cl_remote_trusts_us c = TrustNotTrusted ∧ cl_daemon_nix_version c = Some NIX_VERSION ∧
      client_run fuel es c = (c', outcome_seen <$> outs) ∧
      nr_rest (cl_reader c') = [] ∧ w_sent (cl_writer c') = q).
Proof using HAL HVRL HVWL DL. apply remote_connection. Qed.
End connections.
End remote.

(** ** Concrete uses *)

(** A question the store answers, and one that it does not. *)
Definition sample_events : list event :=
  [ev (is_valid_path sample_path); ev (query_referrers sample_path)].

Definition sample_outcomes : list outcome := (store_run sample_events [sample_path]).2.

Lemma sample_run : store_run sample_events [sample_path] = ([sample_path], sample_outcomes).
Proof. reflexivity. Qed.

Lemma sample_outcomes_ok : Forall (outcome_ok small_env) sample_outcomes.
Proof.
  small_ok.
Qed.

Lemma nix_version_small : codec_ok small_env NIX_VERSION.
Proof. repeat constructor; vm_compute; done. Qed.

Lemma small_fresh bs sch :
  bs ≠ [] → length bs ≤ 996 → Forall (λ o, o ≠ Some 0) sch →
  fresh small_env (small_reader [None; Some bs]) (small_writer sch) bs.
Proof. intros Hne Hl Hs. destruct (small_reader_at bs Hne Hl) as (? & ? & ?). pose proof (small_writer_at sch Hs). by split_and!. Qed.

Lemma remote_store_refines_witness :
  let q := client_stream small_env sample_outcomes in
  let p := server_stream small_env Builder_default [] sample_outcomes in
  (∃ r w, serve_connection no_multiple Builder_default 3 (small_reader [None; Some q])
      (small_writer [None; Some 7]) [sample_path] = (r, w, Ok tt) ∧ nr_rest r = [] ∧ w_sent w = p) ∧
  (∃ hc c c', client_handshake 0 9 (cb_build DaemonClientBuilder_default (small_reader [None; Some p])
      (small_writer [Some 5; None])) = (hc, ([], Ok c)) ∧
    client_run 9 sample_events c = (c', outcome_seen <$> sample_outcomes) ∧ w_sent (cl_writer c') = q).
Proof.
  intros q p.
  destruct (remote_store_refines no_multiple (RS' := NixReader (BytesReader source)) (WS' := NixWriter sink) small_env [sample_path]
    [sample_path] [sample_path] [] sample_events sample_outcomes eq_refl nix_version_small eq_refl
    (Forall_nil_2 _) sample_run sample_outcomes_ok) as [Hs Hc].
  split.
  - apply Hs, small_fresh; [vm_compute; done|vm_compute; lia|by repeat constructor].
  - destruct (Hc (small_reader [None; Some p]) (small_writer [Some 5; None]) 0%Z 9) as (hc & c & c' & Hh & _ & _ & Hr & _ & Hw).
    + apply small_fresh; [vm_compute; done|vm_compute; lia|by repeat constructor].
    + cbn; lia.
    + repeat constructor; cbn; lia.
    + exists hc, c, c'. split; [exact Hh|]. split; [exact Hr|exact Hw].
Defined.
