(* ===== verification/Transfers.v ===== *)
(** Uploads and NARs between the client and the server: what the client reads
    from its source is what the store gets, and the NAR the store gives is what
    the client's caller reads. *)

From stdpp Require Import base list numbers strings.
From Stdlib Require Import ZArith Lia Strings.Byte.
From S2P Require Import Prelude Async Wire Sink NarReader NarTree NarWriter BufferMut BytesReader NarBytes Nar ProtoRead Framed Version BaseEncoding Codecs Hash StorePath ContentAddress Signature DerivedPath NixIO Streams NixCodec WireTypes Messages Derivations Requests Logger DaemonErrors DaemonStore Server ServerSpec Samples Client ClientSpec.

#[local] Unset Program Cases.

Section transfers.
Context {DE : DataEncoding} {DL : DataEncodingLaws} {DG : DigestLib} {SA : StructuredAttrsLib}.
Context {ET : ErrorText}.
Context {SZ_Bytes : SizeOf Bytes} {SZ_DerivedPath : SizeOf DerivedPath} {SZ_Signature : SizeOf Signature}.
Context {SZ_Field : SizeOf Field} {SZ_TraceLine : SizeOf TraceLine}.
Context {SZ_KeyedBuildResult : SizeOf KeyedBuildResult}.

(** ** The client *)

Section client.
Context {RS : Type} {HR : NixRead RS} {HRL : NixReadLaws RS}.
Context {WS : Type} {HW : NixWrite WS} {HWL : NixWriteLaws WS} {HA : AsyncWriter WS} {HAL : AsyncWriterLaws WS}.
Context {HFW : FramedSink WS} {HFWL : FramedSinkLaws WS}.
Context (E : env) (HE : (27 ≤ minor (e_version E))%Z).
Implicit Types c : DaemonClient RS WS.

(** The chunks of a source that can be framed. *)
Definition chunks_ok (chunks : list bytes) : Prop :=
  Forall (λ b, b ≠ []) chunks ∧ is_u64 (Z.of_nat (length (concat chunks))).

(** The writer sends the request [q] and then the chunks in frames, which do
    not depend on what is read; with the reply [p] the method gives [out]. *)
Definition sends_framed {T} (m : client_method T) (chunks : list bytes) (q : bytes)
    (reply : bytes → nat → ResultLog T → Prop) : Prop :=
  ∀ w d, nw_at w d → w_env E w →
  ∃ fs, frames_ok fs ∧ concat fs = concat chunks ∧
  ∀ c p n out fuel tl, cl_writer c = w → reply p n out → client_at E c (p ++ tl) d → n < fuel →
  ∃ c', m fuel c = (c', out) ∧ client_at E c' tl (d ++ q ++ frames fs) ∧
    w_sent (cl_writer c') = d ++ q ++ frames fs.

(** [process_stderr] understands the reply. *)
Definition heard {T} {ND : NixDeserialize T} (op : Operation) (p : bytes) (n : nat) (out : ResultLog T) : Prop :=
  ∃ out', (∀ fuel, hears (RS := RS) E (process_stderr T (n + S fuel)) p out') ∧
    out = (out'.1, res_map_err (fill_operation op) out'.2).

(** The driver, after the request. *)
Lemma framed_sent send chunks q w d :
  writes E send q → chunks_ok chunks → nw_at w d → w_env E w →
  ∃ w' fs, (io_try (_ ← send; _ ← flush; _ ← framed_copy (Ok <$> chunks); flush) : eff DaemonError WS unit) w =
      (w', Ok tt) ∧ frames_ok fs ∧ concat fs = concat chunks ∧ nw_at w' (d ++ q ++ frames fs) ∧ w_env E w' ∧
    w_sent w' = d ++ q ++ frames fs.
Proof using HAL HFWL.
  intros Hq [Hne Hu] Hw He.
  destruct (Hq _ _ Hw He) as (w1 & E1 & Hw1 & He1). destruct (flush_law _ _ Hw1) as (w2 & E2 & Hw2 & Hs2 & _).
  destruct (framed_copy_law _ _ chunks Hw2 Hne Hu) as (w3 & fs & E3 & Hfs & Hc & Hw3 & Hs3).
  destruct (flush_law _ _ Hw3) as (w4 & E4 & Hw4 & Hs4 & Hsent). exists w4, fs. rewrite app_assoc.
  split_and!; try done.
  - unfold io_try. apply eff_map_err_Ok.
    by rewrite (io_bind_Ok _ _ _ _ _ E1), (io_bind_Ok _ _ _ _ _ E2), (io_bind_Ok _ _ _ _ _ E3), E4.
  - eapply w_env_same; [exact Hs4|]. eapply w_env_same; [exact Hs3|]. by eapply w_env_same.
Qed.

Lemma framed_request_sends {T} {ND : NixDeserialize T} op send chunks q :
  writes E send q → chunks_ok chunks →
  sends_framed (framed_request op send (Ok <$> chunks)) chunks q (heard (T := T) op).
Proof using HAL HFWL.
  intros Hq Hch w d Hw He. destruct (framed_sent send chunks q w d Hq Hch Hw He) as (w' & fs & E1 & Hfs & Hc & ? & ? & ?).
  exists fs. split; [done|]. split; [done|].
  intros c p n out fuel tl <- (out' & Hp & ->) (Hi & Hr & Hrest & _ & _) Hf.
  destruct (Hp (fuel - S n) _ tl Hi Hr Hrest) as (r & E2 & Hi' & Hr' & Hrest').
  replace (n + S (fuel - S n)) with fuel in E2 by lia.
  unfold framed_request. rewrite E1, E2. destruct out' as [logs result]. eexists. by split_and!.
Qed.

(** The uploads on which the two sides agree. *)
Definition upload_agrees {T} (e : UploadE T) : bool :=
  match e with add_build_log _ => false | _ => true end.

(** The reply to an upload. *)
Definition upload_heard {T} (e : UploadE T) (p : bytes) (n : nat) (out : ResultLog T) : Prop :=
  ∃ logs r, logs_ok E logs ∧ upload_ok E e r ∧ p = upload_bytes E e logs r ∧ n = length logs ∧
    out = client_out (upload_operation e) (logs, r).

Lemma result_heard {T} {ND : NixDeserialize T} op (value : T → bytes) (ok : T → Prop) logs r :
  (∀ v, ok v → reads E (read_value T) (value v) v) → logs_ok E logs → result_ok E op ok r →
  heard op (logs_bytes E logs ++ result_bytes E op value r) (length logs) (client_out op (logs, r)).
Proof using DL HE.
  intros Hv Hl Hr. unfold heard, result_bytes, client_out.
  destruct r as [v|err|]; cbn [result_ok fst snd client_result] in *; [..|done].
  - exists (seen <$> logs, Ok v). split; [|done]. intros fuel. apply hears_result; [lia|done|]. by apply Hv.
  - exists (seen <$> logs, Err (from_log_error (LogError_from (fill_operation op err)))).
    split; [|done]. intros fuel. by apply hears_failure.
Qed.

Lemma upload_heard_heard {T} {ND : NixDeserialize T} (e : UploadE T) p n out :
  (∀ v, upload_value_ok E e v → reads E (read_value T) (upload_value_bytes E e v) v) →
  upload_heard e p n out → heard (upload_operation e) p n out.
Proof using DL HE.
  intros Hv (logs & r & Hl & Hr & -> & -> & ->). by eapply result_heard.
Qed.

Lemma client_upload_sends old {T} (e : UploadE T) chunks :
  upload_agrees e = true → codec_ok E (upload_request e) → chunks_ok chunks →
  sends_framed (client_upload old e (Ok <$> chunks)) chunks (codec_bytes E (upload_request e)) (upload_heard e).
Proof using HAL HFWL DL HE.
  intros Ha Hq Hc. destruct e as [info repair dont_check_sigs|path|name cam refs repair]; [|done|].
  - assert (writes (S := WS) E
      (_ ← write_value OpAddToStoreNar; _ ← write_value info; _ ← write_value repair; write_value dont_check_sigs)
      (codec_bytes E (upload_request (add_to_store_nar info repair dont_check_sigs)))) as Hwr by (writes_request Hq).
    intros w d Hw He.
    destruct (framed_request_sends (T := unit) OpAddToStoreNar _ chunks _ Hwr Hc w d Hw He) as (fs & ? & ? & Hk).
    exists fs. split; [done|]. split; [done|]. intros c p n out fuel tl Hcw Hp Hc0 Hf.
    unfold client_upload, client_add_to_store_nar. rewrite decide_True.
    { apply (Hk c p n); try done. apply (upload_heard_heard (add_to_store_nar info repair dont_check_sigs)); [|done].
      intros [] _. apply reads_unit. }
    rewrite Hcw. destruct He as (-> & _). lia.
  - assert (writes (S := WS) E
      (_ ← write_value OpAddToStore; _ ← write_value name; _ ← write_value cam; _ ← write_value refs; write_value repair)
      (codec_bytes E (upload_request (add_ca_to_store name cam refs repair)))) as Hwr by (writes_request Hq).
    intros w d Hw He.
    destruct (framed_request_sends (T := ValidPathInfo) OpAddToStore _ chunks _ Hwr Hc w d Hw He) as (fs & ? & ? & Hk).
    exists fs. split; [done|]. split; [done|]. intros c p n out fuel tl Hcw Hp Hc0 Hf.
    apply (Hk c p n); try done. apply (upload_heard_heard (add_ca_to_store name cam refs repair)); [|done].
    intros v Hv. exact (reads_value E v Hv).
Qed.
End client.

(** ** Reading a NAR *)

Section nar_client.
Context {RS : Type} {HR : NixRead RS} {HRL : NixReadLaws RS}.
Context {WS : Type} {HW : NixWrite WS} {HWL : NixWriteLaws WS} {HA : AsyncWriter WS} {HAL : AsyncWriterLaws WS}.
Context (E : env) (HE : (27 ≤ minor (e_version E))%Z).

Lemma nar_loop_logs fuel logs :
  logs_ok E logs →
  hears (RS := RS) E (nar_loop (length logs + S fuel)) (logs_bytes E logs ++ codec_bytes E RLast) (seen <$> logs, Ok tt).
Proof using DL HE.
  assert (20 ≤ minor (e_version E))%Z as HE' by lia.
  induction 1 as [|m logs Hm _ IH]; intros s tl Hi Hr Hrest.
  - destruct (reads_value E RLast (last_ok E HE') s tl Hi Hr Hrest) as (s' & E1 & ?). exists s'.
    cbn [length Nat.add nar_loop]. by rewrite E1.
  - unfold logs_bytes in Hrest. cbn in Hrest. rewrite <-!app_assoc in Hrest.
    destruct (reads_value E (raw_of m) Hm s _ Hi Hr Hrest) as (s1 & E1 & Hi1 & Hr1 & Hrest1).
    rewrite app_assoc in Hrest1. destruct (IH s1 tl Hi1 Hr1 Hrest1) as (s2 & E2 & ?). exists s2. split; [|done].
    cbn [length Nat.add nar_loop]. rewrite E1. destruct m as [[l t]|a|a|a]; cbn [raw_of]; by rewrite E2.
Qed.

Lemma client_nar_calls path logs :
  codec_ok E (RqNarFromPath path) → logs_ok E logs →
  calls E (client_nar_from_path (RS := RS) (WS := WS) path) (length logs) (codec_bytes E (RqNarFromPath path))
    (logs_bytes E logs ++ codec_bytes E RLast) (seen <$> logs, Ok tt).
Proof using HAL DL HE.
  intros Hq Hl c fuel d tl (Hi & Hr & Hrest & Hw & He) Hf.
  assert (writes (S := WS) E (_ ← write_value OpNarFromPath; write_value path) (codec_bytes E (RqNarFromPath path)))
    as Hwr by (writes_request Hq).
  destruct (Hwr _ _ Hw He) as (w1 & E1 & Hw1 & He1). destruct (flush_law _ _ Hw1) as (w2 & E2 & Hw2 & Hsame & Hsent).
  destruct (nar_loop_logs (fuel - S (length logs)) logs Hl _ tl Hi Hr Hrest) as (r & E3 & ? & ? & ?).
  replace (length logs + S (fuel - S (length logs))) with fuel in E3 by lia.
  unfold client_nar_from_path, io_try. rewrite (eff_map_err_Ok _ _ _ w2 tt).
  - rewrite E3. eexists. split; [done|]. split; [|done]. unfold client_at. split_and!; try done.
    exact (w_env_same _ _ _ Hsame He1).
  - destruct (io_bind_inv _ _ _ _ _ E1) as (w0 & [] & E0 & E0').
    by rewrite (io_bind_Ok _ _ _ _ _ E0), (io_bind_Ok _ _ _ _ _ E0').
Qed.
End nar_client.

(** ** The server *)

Section server.
Context {RS : Type} {HR : NixRead RS} {HRL : NixReadLaws RS} {HF : FramedSource RS} {HFL : FramedSourceLaws RS}.
Context {WS : Type} {HW : NixWrite WS} {HWL : NixWriteLaws WS} {HA : AsyncWriter WS} {HAL : AsyncWriterLaws WS}.
Context {St : Type} {HS : DaemonStore St}.
Context (add_multiple : AddMultipleToStoreRequest → eff RecoverableError (DaemonConnection RS WS St) unit).
Context (E : env) (HE : (20 ≤ minor (e_version E))%Z).
Implicit Types s : DaemonConnection RS WS St.

(** One round of the loop over requests. *)
Lemma process_requests_step (P : DaemonConnection RS WS St → Prop) request fuel s i d :
  codec_ok E request → conn_at E s (codec_bytes E request ++ i) d →
  (∀ s1, conn_at E s1 i d → conn_store s1 = conn_store s →
    ∃ s2, serve_request add_multiple request s1 = (s2, Ok tt) ∧ P s2) →
  ∃ s2, process_requests add_multiple (S fuel) s = process_requests add_multiple fuel s2 ∧ P s2.
Proof using DL.
  intros Hq Hs Hk.
  destruct (serves_reader E from_io (try_read_value Request) (codec_bytes E request) (Some request) (conn_store s) i
    (reads_try_value E _ Hq) s d Hs eq_refl) as (s1 & E1 & Hs1 & Hst1 & _).
  rewrite app_nil_r in Hs1. destruct (Hk s1 Hs1 Hst1) as (s2 & E2 & HP). exists s2. split; [|done].
  cbn [process_requests]. rewrite (eff_bind_Ok _ _ _ _ _ E1). by rewrite (eff_bind_Ok _ _ _ _ _ E2).
Qed.

Lemma upload_runs_logs {A} (p : source_log A) b logs a :
  upload_runs p b logs a → source_log_ok E p → logs_ok E logs.
Proof using Type.
  induction 1 as [|m k c logs a _ IH|room k b c logs a _ _ _ IH]; intros Hp.
  - constructor.
  - destruct Hp. constructor; [done|by apply IH].
  - by apply IH.
Qed.
End server.

(** ** The two together *)

Section both.
Context {RS : Type} {HR : NixRead RS} {HRL : NixReadLaws RS} {HF : FramedSource RS} {HFL : FramedSourceLaws RS}.
Context {WS : Type} {HW : NixWrite WS} {HWL : NixWriteLaws WS} {HA : AsyncWriter WS} {HAL : AsyncWriterLaws WS}.
Context {St : Type} {HS : DaemonStore St}.
Context (add_multiple : AddMultipleToStoreRequest → eff RecoverableError (DaemonConnection RS WS St) unit).

(** C16. An upload ([add_to_store_nar], [add_ca_to_store]) through the
    connection. Whatever the chunks of the client's source, the client sends the
    request and the chunks in frames [fs], a stream [q] that does not depend on
    the answer; the server, on [q], runs the
    store's method on a source that holds exactly those bytes, and takes exactly
    [q] off its input even when the store does not read all of it; and the
    client, on the reply, returns what the method logged and its result. *)
Theorem remote_upload {RS' : Type} {HR' : NixRead RS'} {HRL' : NixReadLaws RS'}
    {WS' : Type} {HW' : NixWrite WS'} {HWL' : NixWriteLaws WS'} {HA' : AsyncWriter WS'} {HAL' : AsyncWriterLaws WS'}
    {HFW' : FramedSink WS'} {HFWL' : FramedSinkLaws WS'}
    (old : client_method (RS := RS') (WS := WS') unit) (E : env) {T : Type} (e : UploadE T) (chunks : list bytes)
    (st : St) (w : WS') (d : bytes) :
  (27 ≤ minor (e_version E))%Z → upload_agrees e = true → codec_ok E (upload_request e) → chunks_ok chunks →
  source_log_ok E (store_upload e st) →
  (∀ logs st' r, upload_runs (store_upload e st) (concat chunks) logs (st', r) → upload_ok E e r) →
  nw_at w d → w_env E w →
  ∃ fs, frames_ok fs ∧ concat fs = concat chunks ∧
  let q := codec_bytes E (upload_request e) ++ frames fs in
  ∀ (s : DaemonConnection RS WS St) fuel tl d', conn_at E s (q ++ tl) d' → conn_store s = st →
    ∃ logs st' r s', upload_runs (store_upload e st) (concat chunks) logs (st', r) ∧
      process_requests add_multiple (S fuel) s = process_requests add_multiple fuel s' ∧
      conn_at E s' tl (d' ++ upload_bytes E e logs r) ∧ conn_store s' = st' ∧
      w_sent (conn_writer s') = d' ++ upload_bytes E e logs r ∧
      ∀ (c : DaemonClient RS' WS') fuel' tl', cl_writer c = w →
        client_at E c (upload_bytes E e logs r ++ tl') d → length logs < fuel' →
        ∃ c', client_upload old e (Ok <$> chunks) fuel' c = (c', client_out (upload_operation e) (logs, r)) ∧
          client_at E c' tl' (d ++ q) ∧ w_sent (cl_writer c') = d ++ q.
Proof using HAL HFL DL.
  intros HE Ha Hq Hc Hsl Hok Hw He.
  destruct (client_upload_sends (RS := RS') E HE old e chunks Ha Hq Hc w d Hw He) as (fs & Hfs & Hcat & Hk).
  exists fs. split; [done|]. split; [done|]. intros q s fuel tl d' Hs Hst. unfold q in Hs. rewrite <-app_assoc in Hs.
  destruct (process_requests_step add_multiple E (λ s2, ∃ logs st' r,
    upload_runs (store_upload e st) (concat chunks) logs (st', r) ∧ conn_at E s2 tl (d' ++ upload_bytes E e logs r) ∧
    conn_store s2 = st' ∧ w_sent (conn_writer s2) = d' ++ upload_bytes E e logs r)
    (upload_request e) fuel s _ d' Hq Hs) as (s2 & E2 & logs & st' & r & Hruns & Hs2 & Hst2 & Hsent2).
  { intros s1 Hs1 Hst1. rewrite <-Hcat in Hok |- *.
    destruct (serves_upload_request add_multiple E ltac:(lia) e st fs tl s1 d' Hsl Hfs Hok Hs1 ltac:(congruence))
      as (logs & st' & r & s2 & ? & ? & ? & ? & ?). exists s2. split; [done|]. by exists logs, st', r. }
  exists logs, st', r, s2. do 5 (split; [done|]). intros c fuel' tl' Hcw Hcat' Hf.
  apply (Hk c (upload_bytes E e logs r) (length logs) _ fuel' tl' Hcw); [|done|done].
  exists logs, r. split; [by eapply upload_runs_logs|]. by split; [eapply Hok|].
Qed.

(** C17. A NAR through the connection, inside a longer session: when the store
    gives the archive of [t], in any chunks, the client's caller reads exactly
    that archive, with reads of any size, and the reader the client has back is
    at the next reply. *)
Theorem remote_nar {R : Type} {HB : AsyncBytesRead R} {HBL : AsyncBytesReadLaws R}
    {WS' : Type} {HW' : NixWrite WS'} {HWL' : NixWriteLaws WS'} {HA' : AsyncWriter WS'} {HAL' : AsyncWriterLaws WS'}
    (E : env) (path : StorePath) (t : node) (chunks : list bytes) (logs : list LogMessage) (st st' : St) :
  (27 ≤ minor (e_version E))%Z → codec_ok E (RqNarFromPath path) → logs_ok E logs → node_wf t →
  nar_from_path path st = (st', (logs, Ok (Ok <$> chunks))) → Forall (λ b, b ≠ []) chunks → concat chunks = nar t →
  let q := codec_bytes E (RqNarFromPath path) in
  let p := nar_bytes E logs chunks in
  (∀ (s : DaemonConnection RS WS St) fuel tl d, conn_at E s (q ++ tl) d → conn_store s = st →
    ∃ s', process_requests add_multiple (S fuel) s = process_requests add_multiple fuel s' ∧
      conn_at E s' tl (d ++ p) ∧ conn_store s' = st' ∧ w_sent (conn_writer s') = d ++ p) ∧
  (∀ (c : DaemonClient (NixReader R) WS') fuel tl d, client_at E c (p ++ tl) d → length logs < fuel →
    ∃ c', client_nar_from_path path fuel c = (c', (seen <$> logs, Ok tt)) ∧ w_sent (cl_writer c') = d ++ q ∧
      ∀ rooms fuel', length (nar t) + patience (nr_inner (cl_reader c')) < fuel' →
      ∃ x, nb_read_to_end fuel' rooms (nb_new (nr_inner (cl_reader c'))) [] = (x, Ok (nar t)) ∧
        client_at E (cl_set c' (nr_set (cl_reader c') (nb_reader x)) (cl_writer c')) tl (d ++ q)).
Proof using HAL DL.
  intros HE Hq Hl Hwf Hn Hne Hcat q p. split.
  - intros s fuel tl d Hs Hst.
    apply (process_requests_step add_multiple E _ _ fuel s tl d Hq Hs). intros s1 Hs1 Hst1.
    by apply (serves_nar add_multiple E ltac:(lia) path st st' logs chunks tl s1 d Hn Hl Hne Hs1); congruence.
  - intros c fuel tl d Hc Hf. unfold p, nar_bytes in Hc. rewrite Hcat, app_assoc, <-app_assoc in Hc.
    destruct (client_nar_calls E HE path logs Hq Hl c fuel d _ Hc Hf)
      as (c' & E1 & (Hi & Hr & Hrest & Hw & He) & Hsent).
    exists c'. split; [done|]. split; [done|]. intros rooms fuel' Hf'.
    destruct (nb_read_to_end_spec fuel' rooms (nb_new (nr_inner (cl_reader c'))) (nar t) tl [])
      as (x & E2 & Hat); [by apply nb_new_at|done|].
    exists x. split; [done|]. destruct Hat as (Hi' & Hr' & _). by split_and!.
Qed.

(** C35. A session of the server, over any store whose replies along the session
    fit the limits of the protocol. On any finite sequence of requests (methods,
    uploads with their frames, NARs) the loop ends. Either it serves them all:
    it takes the whole input, sends the replies of the store in the order of the
    requests, each after the effects of the ones before it (an error of a method
    is a reply), and returns what the store's [shutdown] returns; or it stops at
    the first NAR that the store refuses or cannot read to its end, with that
    error, the replies so far written and the requests after it unread. *)
Theorem server_session (E : env) (its : list item) (s : DaemonConnection RS WS St) (d : bytes) :
  (20 ≤ minor (e_version E))%Z → replies_fit E (conn_store s) its → Forall (item_ok E) its →
  conn_at E s (concat (item_input E <$> its)) d → w_sent (conn_writer s) = d →
  ∃ out o st s' r, session E (conn_store s) its out o st ∧
    process_requests add_multiple (S (length its)) s = (s', r) ∧
    match o with
    | AllServed => r = (shutdown st).2 ∧ conn_store s' = (shutdown st).1 ∧ conn_at E s' [] (d ++ out) ∧
        w_sent (conn_writer s') = d ++ out
    | StoppedBefore unread e => r = e ∧ conn_store s' = st ∧ conn_at E s' (concat (item_input E <$> unread)) (d ++ out)
    end.
Proof using HAL HFL DL. intros HE. by apply serves_session. Qed.
End both.
End transfers.

(** ** Concrete uses *)

Definition sample_client (bs : bytes) (sch : list (option nat)) : DaemonClient (NixReader (BytesReader source)) (NixWriter sink) :=
  mk_client 0 (str "unknown") (small_reader [None; Some bs]) (small_writer sch) None TrustUnknown.

Lemma small_client bs sch :
  bs ≠ [] → length bs ≤ 996 → Forall (λ o, o ≠ Some 0) sch → client_at small_env (sample_client bs sch) bs [].
Proof.
  intros Hne Hl Hs. destruct (small_reader_at bs Hne Hl) as (? & ? & ?). pose proof (small_writer_at sch Hs).
  by split_and!.
Qed.

Definition toy_add : UploadE unit := add_to_store_nar toy_info false true.
Definition no_old : client_method (RS := NixReader (BytesReader source)) (WS := NixWriter sink) unit := λ _ c, (c, ([], Panic)).
Definition toy_adding : list LogMessage := [LMessage (mk_Message VError (mk_Bytes (str "adding")))].

Lemma toy_add_runs c logs st' r :
  upload_runs (store_upload toy_add []) c logs (st', r) → logs = toy_adding ∧ st' = [sample_path] ∧ r = Ok tt.
Proof.
  intros Hr. inversion Hr as [|? ? ? ? ? Hr1|]; subst. inversion Hr1 as [| |? ? ? ? ? ? ? ? Hr2]; subst.
  by inversion Hr2.
Qed.

Lemma frames_length fs : frames_ok fs → length (frames fs) ≤ 9 * length (concat fs) + 8.
Proof.
  unfold frames. induction 1 as [|f fs [Hne _] _ IH]; [vm_compute; lia|].
  cbn [fmap list_fmap concat]. unfold frame at 1. rewrite !length_app, !length_u64_to_le_bytes in *.
  destruct f; [done|cbn [length] in *; lia].
Qed.

Lemma remote_upload_witness :
  ∃ fs, concat fs = str "ABCDEF" ∧
  let q := codec_bytes small_env (upload_request toy_add) ++ frames fs in
  ∃ s', process_requests no_multiple 7
      (mk_connection TrustUnknown (small_reader [None; Some q]) (small_writer [Some 9; None]) [])
      = process_requests no_multiple 6 s' ∧ conn_store s' = [sample_path] ∧
    ∃ c', client_upload no_old toy_add [Ok (str "ABCD"); Ok (str "EF")] 3
        (sample_client (w_sent (conn_writer s')) []) = (c', (toy_adding, Ok tt)).
Proof.
  destruct (remote_upload no_multiple (RS' := NixReader (BytesReader source)) (WS' := NixWriter sink) no_old small_env toy_add
    [str "ABCD"; str "EF"] [] (small_writer []) []) as (fs & Hfs & Hcat & Hq).
  - vm_compute. done.
  - reflexivity.
  - exact toy_info_ok.
  - split; [by repeat constructor|vm_compute; done].
  - split; [small_ok|]. intros r. done.
  - intros logs st' r Hr. apply toy_add_runs in Hr as (-> & -> & ->). done.
  - by apply small_writer_at.
  - done.
  - exists fs. split; [done|]. intros q. pose proof (frames_length fs Hfs) as Hl. rewrite Hcat in Hl. cbn in Hl.
    assert (length q ≤ 996) as Hq' by (unfold q; rewrite length_app; vm_compute (length (codec_bytes _ _)); lia).
    destruct (Hq (mk_connection TrustUnknown (small_reader [None; Some q]) (small_writer [Some 9; None]) []) 6 [] [])
      as (logs & st' & r & s' & Hr & E1 & _ & Hst & Hsent & Hc).
    + rewrite app_nil_r. apply small_conn; [done|done|by repeat constructor].
    + done.
    + apply toy_add_runs in Hr as (-> & -> & ->). exists s'. split; [exact E1|]. split; [exact Hst|].
      rewrite Hsent. destruct (Hc (sample_client ([] ++ upload_bytes small_env toy_add toy_adding (Ok tt)) []) 3 [])
        as (c' & E2 & _).
      * done.
      * rewrite app_nil_r. apply small_client; [done|vm_compute; lia|constructor].
      * cbn. lia.
      * exists c'. exact E2.
Defined.

Lemma remote_nar_witness :
  let q := codec_bytes small_env (RqNarFromPath sample_path) in
  let p := nar_bytes small_env [] toy_chunks in
  (∃ s', process_requests no_multiple 7
      (mk_connection TrustUnknown (small_reader [None; Some q]) (small_writer [Some 9; None]) [sample_path])
      = process_requests no_multiple 6 s' ∧ w_sent (conn_writer s') = p) ∧
  (∃ c', client_nar_from_path sample_path 3 (sample_client (p ++ str "next") []) = (c', ([], Ok tt)) ∧
    ∃ fuel x, nb_read_to_end fuel [0; 6] (nb_new (nr_inner (cl_reader c'))) [] = (x, Ok (nar toy_tree)) ∧
      rest (nb_reader x) = str "next").
Proof.
  intros q p. destruct (remote_nar no_multiple (R := BytesReader source) (WS' := NixWriter sink) small_env sample_path toy_tree
    toy_chunks [] [sample_path] [sample_path]) as [Hs Hc].
  - vm_compute. done.
  - exact toy_nar_ok.
  - constructor.
  - vm_compute. repeat split; done.
  - reflexivity.
  - by repeat constructor.
  - reflexivity.
  - split.
    + destruct (Hs (mk_connection TrustUnknown (small_reader [None; Some q]) (small_writer [Some 9; None]) [sample_path])
        6 [] []) as (s' & E1 & _ & _ & Hsent).
      * rewrite app_nil_r. apply small_conn; [done|vm_compute; lia|by repeat constructor].
      * done.
      * exists s'. split; [exact E1|exact Hsent].
    + destruct (Hc (sample_client (p ++ str "next") []) 3 (str "next") []) as (c' & E1 & _ & Hk).
      * apply small_client; [done|vm_compute; lia|constructor].
      * cbn. lia.
      * exists c'. split; [exact E1|].
        destruct (Hk [0; 6] (S (length (nar toy_tree) + patience (nr_inner (cl_reader c'))))) as (x & E2 & Hx); [lia|].
        exists (S (length (nar toy_tree) + patience (nr_inner (cl_reader c')))), x. split; [exact E2|].
        destruct Hx as (_ & _ & Hx & _). exact Hx.
Defined.

Definition sample_items : list item :=
  [INar sample_path; IUpload toy_add [str "ABCD"; str "EF"]; IMethod (is_valid_path sample_path)].

(** Over a store without the path, the NAR is refused. *)
Definition refused_items : list item := [INar sample_path; IMethod (is_valid_path sample_path)].

Lemma sample_items_ok : Forall (item_ok small_env) sample_items.
Proof.
  constructor; [split; [exact toy_nar_ok|done]|]. constructor; [split; [exact toy_info_ok|by repeat constructor]|].
  constructor; [|constructor]. split; [small_ok|done].
Qed.

Lemma refused_items_ok : Forall (item_ok small_env) refused_items.
Proof.
  constructor; [split; [exact toy_nar_ok|done]|]. constructor; [|constructor]. split; [small_ok|done].
Qed.

Lemma sample_session out o st : session small_env [sample_path] sample_items out o st → o = AllServed.
Proof.
  intros Hs. inversion Hs as [|? ? ? st1 ? ? ? ? H1 Hs1|? ? ? ? ? ? H1 Hr1]; subst.
  2:{ inversion H1 as [| |? ? ? ? Hn]; subst. by injection Hn as _ <-. }
  inversion Hs1 as [|? ? ? st2 ? ? ? ? H2 Hs2|? ? ? ? ? ? H2 Hr2]; subst; [|by inversion H2; subst].
  inversion Hs2 as [|? ? ? st3 ? ? ? ? H3 Hs3|? ? ? ? ? ? H3 Hr3]; subst; [|by inversion H3; subst].
  by inversion Hs3.
Qed.

Definition nar_refused : DaemonError := fill_operation OpNarFromPath (unimplemented OpNarFromPath).

Lemma refused_session out o st : session small_env ([] : list StorePath) refused_items out o st →
  o = StoppedBefore [IMethod (is_valid_path sample_path)] (Err nar_refused).
Proof.
  intros Hs. inversion Hs as [|? ? ? st1 ? ? ? ? H1 Hs1|? ? ? ? ? ? H1 Hr1]; subst.
  - inversion H1 as [| |? ? ? ? Hn]; subst. injection Hn as _ <-. done.
  - inversion H1 as [| |? ? ? ? Hn]; subst. by injection Hn as _ <-.
Qed.

Definition session_of (st : list StorePath) (its : list item) :
    DaemonConnection (NixReader (BytesReader source)) (NixWriter sink) (list StorePath) :=
  mk_connection TrustUnknown (small_reader [None; Some (concat (item_input small_env <$> its))]) (small_writer [Some 9]) st.

Lemma server_session_witness :
  (∃ out st s', session small_env [sample_path] sample_items out AllServed st ∧
    process_requests no_multiple 4 (session_of [sample_path] sample_items) = (s', Ok tt) ∧ w_sent (conn_writer s') = out) ∧
  (∃ s', process_requests no_multiple 3 (session_of [] refused_items) = (s', Err nar_refused) ∧
    nr_rest (conn_reader s') = item_input small_env (IMethod (is_valid_path sample_path))).
Proof.
  split.
  - destruct (server_session no_multiple small_env sample_items (session_of [sample_path] sample_items) [])
      as (out & o & st & s' & r & Hs & E1 & Ho).
    + vm_compute. done.
    + apply replies_fit_all, toy_fits.
    + exact sample_items_ok.
    + apply small_conn; [done|vm_compute; lia|by repeat constructor].
    + done.
    + pose proof (sample_session out o st Hs) as ->. destruct Ho as (-> & _ & _ & Hsent).
      exists out, st, s'. split; [exact Hs|]. split; [exact E1|exact Hsent].
  - destruct (server_session no_multiple small_env refused_items (session_of [] refused_items) [])
      as (out & o & st & s' & r & Hs & E1 & Ho).
    + vm_compute. done.
    + apply replies_fit_all, toy_fits.
    + exact refused_items_ok.
    + apply small_conn; [done|vm_compute; lia|by repeat constructor].
    + done.
    + pose proof (refused_session out o st Hs) as ->. destruct Ho as (-> & _ & _ & _ & Hrest & _).
      exists s'. split; [exact E1|]. rewrite Hrest. apply app_nil_r.
Defined.
