(* ===== verification/Mismatch.v ===== *)
(** Where the client and the server of the daemon protocol do not agree: what
    goes wrong, and for how long. *)

From stdpp Require Import base list numbers strings.
From Stdlib Require Import ZArith Lia Strings.Byte.
From S2P Require Import Prelude Async Wire Sink NarTree BufferMut BytesReader ProtoRead Framed Version BaseEncoding Codecs Hash StorePath ContentAddress Signature DerivedPath NixIO Streams NixCodec WireTypes Messages Derivations Requests Logger DaemonErrors DaemonStore Server ServerSpec Samples Client ClientSpec Transfers.

#[local] Unset Program Cases.

(** ** Readers that fail *)

Section refuses.
Context {S : Type} {HR : NixRead S} {HRL : NixReadLaws S} (E : env) (tl : bytes).

(** On [bs], followed by [tl], [m] fails with [err]. *)
Definition refuses {A} (m : io S A) (bs : bytes) (err : io_error) : Prop :=
  ∀ s, nr_inv s → r_env E s → nr_rest s = bs ++ tl → ∃ s', m s = (s', Err err).

Lemma refuses_bind {A B} (m : io S A) (f : A → io S B) bs err : refuses m bs err → refuses (m ≫= f) bs err.
Proof using Type.
  intros Hm s Hi Hr Hrest. destruct (Hm s Hi Hr Hrest) as [s' E1]. exists s'. unfold mbind, io_bind. by rewrite E1.
Qed.

Lemma refuses_after {A B} (m : io S A) (f : A → io S B) b1 b2 v err :
  reads E m b1 v → refuses (f v) b2 err → refuses (m ≫= f) (b1 ++ b2) err.
Proof using Type.
  intros Hm Hf s Hi Hr Hrest. rewrite <-app_assoc in Hrest.
  destruct (Hm s _ Hi Hr Hrest) as (s1 & E1 & Hi1 & Hr1 & Hrest1). rewrite (io_bind_Ok _ _ _ _ _ E1). by eapply Hf.
Qed.

Lemma refuses_lift {A} (r : res io_error A) err : r = Err err → refuses (io_lift r) [] err.
Proof using Type. intros -> s _ _ _. by exists s. Qed.

Lemma refuses_first {A B} (m : io S (option A)) (k : A → io S B) b1 b2 v err :
  reads E m b1 (Some v) → refuses (k v) b2 err → refuses (io_first m k) (b1 ++ b2) err.
Proof using Type. intros Hm Hk. eapply refuses_after; [exact Hm|]. by apply refuses_bind. Qed.

Lemma refuses_discriminant {T} {HT : Repr T U64} n :
  is_u64 n → try_from (u64 n) = @None T →
  refuses (try_read_value T) (u64_to_le_bytes n) (InvalidData "no discriminant matches").
Proof using Type.
  intros Hn Hf. rewrite <-(app_nil_r (u64_to_le_bytes n)).
  eapply refuses_after; [exact (reads_try_value E (u64 n) Hn)|]. cbv beta iota. by apply refuses_bind, refuses_lift; rewrite Hf.
Qed.
End refuses.

Section mismatch.
Context {DE : DataEncoding} {DL : DataEncodingLaws} {DG : DigestLib} {SA : StructuredAttrsLib}.
Context {ET : ErrorText}.
Context {SZ_Bytes : SizeOf Bytes} {SZ_DerivedPath : SizeOf DerivedPath} {SZ_Signature : SizeOf Signature}.
Context {SZ_Field : SizeOf Field} {SZ_TraceLine : SizeOf TraceLine}.
Context {SZ_KeyedBuildResult : SizeOf KeyedBuildResult}.

(** ** A number that is not read *)

Section unread.
Context {RS : Type} {HR : NixRead RS} {HRL : NixReadLaws RS}.
Context {WS : Type} {HW : NixWrite WS} {HWL : NixWriteLaws WS} {HA : AsyncWriter WS} {HAL : AsyncWriterLaws WS}.
Context (E : env) (HE : (27 ≤ minor (e_version E))%Z).
Implicit Types c : DaemonClient RS WS.

Lemma log_refuses_one tl :
  refuses (S := RS) E tl (read_value RawLogMessage) (codec_bytes E ignored_one) (InvalidData "no discriminant matches").
Proof using Type. by apply refuses_bind, refuses_bind, refuses_discriminant. Qed.

Lemma request_refused {T} {ND : NixDeserialize T} op send q err c fuel bs tl d :
  writes E send q → refuses (S := RS) E tl (read_value RawLogMessage) bs err → client_at E c (bs ++ tl) d →
  ∃ c', request op send (T := T) (S fuel) c = (c', ([], Err (fill_operation op (from_io err)))).
Proof using HAL.
  intros Hq Hm (Hi & Hr & Hrest & Hw & He).
  destruct (Hq _ _ Hw He) as (w & E1 & Hw1 & He1). destruct (flush_law _ _ Hw1) as (w' & E2 & _).
  destruct (Hm _ Hi Hr Hrest) as (r & E3).
  unfold request, io_try. rewrite (eff_map_err_Ok _ _ _ w' tt) by (by rewrite (io_bind_Ok _ _ _ _ _ E1), E2).
  unfold process_stderr. cbn [stderr_loop]. rewrite E3. by eexists.
Qed.

(** C36. [ensure_path], [add_temp_root], [add_indirect_root], [optimise_store]
    and [add_signatures] of the client succeed, but leave the number the server
    sends after the log unread: whatever method of the agreed requests is called
    next, and whatever the server answers to it, the client reads that number as a log message and
    fails. *)
Theorem acknowledgement_unread {T T' : Type} (e : StoreE T) (next : StoreE T') (logs : list LogMessage) (v : T)
    (c : DaemonClient RS WS) (fuel : nat) (d answer : bytes) :
  unread e = true → codec_ok E (request_of e) → logs_ok E logs →
  understood next = true → codec_ok E (request_of next) →
  client_at E c (reply_bytes E e (logs, Ok v) ++ answer) d → length logs < fuel →
  ∃ c1 c2, client_call e fuel c = (c1, (seen <$> logs, Ok v)) ∧
    client_at E c1 (codec_bytes E ignored_one ++ answer) (d ++ codec_bytes E (request_of e)) ∧
    client_call next fuel c1 =
      (c2, ([], Err (fill_operation (store_operation next) (from_io (InvalidData "no discriminant matches"))))).
Proof using HAL DL HE.
  intros Hu Hq Hl Hn Hqn Hc Hf. rewrite expected_unread, <-app_assoc in Hc by done.
  assert (requests (RS := RS) (WS := WS) E e) as He by (apply client_requests; [done|by destruct e|done]).
  destruct (calls_expected E HE e (logs, Ok v) He) with (c := c) (fuel := fuel) (d := d)
    (tl := codec_bytes E ignored_one ++ answer) as (c1 & E1 & Hc1 & _); [split; [done|by destruct e]|done|done|].
  destruct (client_requests (RS := RS) (WS := WS) E HE next Hn Hqn) as (U & ND & g & send & Hcall & Hsend & _).
  destruct fuel as [|fuel]; [lia|].
  destruct (request_refused (T := U) (store_operation next) send _ _ c1 fuel _ _ _ Hsend (log_refuses_one _) Hc1) as (c2 & E2).
  exists c1, c2. split; [exact E1|]. split; [done|]. rewrite Hcall. unfold method_map. by rewrite E2.
Qed.
End unread.

(** ** A request that is too short *)

Section garbage.
Context {RS : Type} {HR : NixRead RS} {HRL : NixReadLaws RS} {HF : FramedSource RS}.
Context {WS : Type} {HW : NixWrite WS} {HWL : NixWriteLaws WS} {HA : AsyncWriter WS} {HAL : AsyncWriterLaws WS}.
Context {St : Type} {HS : DaemonStore St}.
Context (add_multiple : AddMultipleToStoreRequest → eff RecoverableError (DaemonConnection RS WS St) unit).
Context (E : env) (HE : (27 ≤ minor (e_version E))%Z).

(** What the client sends for [collect_garbage]. *)
Definition short_request (action : GCAction) (paths : BTreeSet StorePath) (ignore : bool) (max_freed : U64) : bytes :=
  codec_bytes E OpCollectGarbage ++ codec_bytes E action ++ codec_bytes E paths ++ codec_bytes E ignore ++
  codec_bytes E max_freed.

Lemma short_request_eq action paths ignore max_freed :
  codec_bytes E (request_of (collect_garbage action paths ignore max_freed)) =
  short_request action paths ignore max_freed ++ u64_to_le_bytes 0 ++ u64_to_le_bytes 0 ++ u64_to_le_bytes 0.
Proof using Type. unfold short_request. rewrite <-!app_assoc. reflexivity. Qed.

Lemma reads_ignored b : length b = 8 → reads (S := RS) E (read_value IgnoredZero) b ignored_zero.
Proof using Type.
  intros Hb. rewrite <-(u64_to_from_le_bytes b Hb). apply reads_or_eof.
  apply (reads_try_map E (λ n : U64, ok_or (try_from n) (InvalidData "no discriminant matches")) _ _
    (u64 (from_le_bytes b))); [|done].
  refine (reads_try_value E (u64 (from_le_bytes b)) _).
  pose proof (from_le_bytes_range b) as Hr. by rewrite Hb in Hr.
Qed.

Lemma eof_number : refuses (S := RS) E [] (read_value IgnoredZero) [] (UnexpectedEof "unexpected end-of-file").
Proof using Type.
  intros s Hi Hr Hrest. destruct (try_read_number_law s Hi) as (x & _ & _ & Hm).
  rewrite Hrest in Hm. cbn in Hm. destruct Hm as [Hm _]. exists x.
  unfold read_value, or_eof, try_deserialize, repr_deserialize, io_try_map, mbind, io_bind.
  unfold try_read_value, try_deserialize, u64_deserialize, io_map, mbind, io_bind. by rewrite Hm.
Qed.

(** The fields that are sent, then the rest of the request. *)
Lemma short_request_reads action paths ignore max_freed b1 b2 b3 :
  codec_ok E (request_of (collect_garbage action paths ignore max_freed)) →
  length b1 = 8 → length b2 = 8 → length b3 = 8 →
  reads (S := RS) E (try_read_value Request) (short_request action paths ignore max_freed ++ b1 ++ b2 ++ b3)
    (Some (request_of (collect_garbage action paths ignore max_freed))).
Proof using DL.
  intros (? & ? & ? & ? & _) Hb1 Hb2 Hb3. unfold short_request. rewrite <-!app_assoc.
  eapply reads_first; [apply reads_try_value, operation_ok|]. cbn [read_request request_of].
  eapply reads_bind_nil; [|apply reads_ret]. apply reads_or_eof.
  eapply reads_first; [by apply reads_try_value|].
  do 3 (eapply reads_bind; [by apply reads_value|]).
  do 2 (eapply reads_bind; [by apply reads_ignored|]).
  eapply reads_bind_nil; [by apply reads_ignored|apply reads_ret].
Qed.

Lemma short_request_eof action paths ignore max_freed :
  codec_ok E (request_of (collect_garbage action paths ignore max_freed)) →
  refuses (S := RS) E [] (try_read_value Request) (short_request action paths ignore max_freed)
    (UnexpectedEof "unexpected end-of-file").
Proof using DL.
  intros (? & ? & ? & ? & _). unfold short_request.
  eapply refuses_first; [apply reads_try_value, operation_ok|]. cbn [read_request].
  apply refuses_bind, refuses_bind. eapply refuses_first; [by apply reads_try_value|].
  do 2 (eapply refuses_after; [by apply reads_value|]). rewrite <-(app_nil_r (codec_bytes E max_freed)).
  eapply refuses_after; [by apply reads_value|]. apply refuses_bind, eof_number.
Qed.

(** [collect_garbage] of the client does not send the last three fields
    of the request. The server takes the next 24 bytes, whatever they are, for
    them; and when the client sends nothing more, it fails without a reply. *)
Theorem collect_garbage_short (action : GCAction) (paths : BTreeSet StorePath) (ignore : bool) (max_freed : U64)
    {RS' : Type} {HR' : NixRead RS'} {HRL' : NixReadLaws RS'}
    {WS' : Type} {HW' : NixWrite WS'} {HWL' : NixWriteLaws WS'} {HA' : AsyncWriter WS'} {HAL' : AsyncWriterLaws WS'} :
  codec_ok E (request_of (collect_garbage action paths ignore max_freed)) →
  let q := short_request action paths ignore max_freed in
  (∀ (c : DaemonClient RS' WS') fuel i d, client_at E c i d →
    w_sent (cl_writer (client_call (collect_garbage action paths ignore max_freed) fuel c).1) = d ++ q) ∧
  (∀ (s : DaemonConnection RS WS St) b tl d, conn_at E s (q ++ b ++ tl) d → length b = 24 →
    ∃ s', on_reader (io_try (try_read_value Request)) s =
        (s', Ok (Some (request_of (collect_garbage action paths ignore max_freed)))) ∧ conn_at E s' tl d) ∧
  (∀ (s : DaemonConnection RS WS St) fuel d, conn_at E s q d →
    ∃ s', process_requests add_multiple (S fuel) s = (s', Err (from_io (UnexpectedEof "unexpected end-of-file"))) ∧
      conn_writer s' = conn_writer s).
Proof using DL.
  intros Hq q. split; [|split].
  - intros c fuel i d (_ & _ & _ & Hw & He). destruct Hq as (? & ? & ? & ? & _).
    assert (writes (S := WS') E (_ ← write_value OpCollectGarbage; _ ← write_value action; _ ← write_value paths;
      _ ← write_value ignore; write_value max_freed) q) as Hwr.
    { apply writes_bind; [apply writes_value, operation_ok|]. writes_fields. }
    destruct (Hwr _ _ Hw He) as (w & E1 & Hw1 & _). destruct (flush_law _ _ Hw1) as (w' & E2 & _ & _ & Hsent).
    cbn [client_call]. unfold client_collect_garbage, request, io_try.
    rewrite (eff_map_err_Ok _ _ _ w' tt) by (by rewrite (io_bind_Ok _ _ _ _ _ E1), E2).
    by destruct (process_stderr _ _ _) as [r [logs result]].
  - intros s b tl d Hs Hb. rewrite app_assoc in Hs.
    assert (reads (S := RS) E (try_read_value Request) (q ++ b)
      (Some (request_of (collect_garbage action paths ignore max_freed)))) as Hrd.
    { rewrite <-(take_drop 8 b), <-(take_drop 8 (drop 8 b)).
      apply short_request_reads; [done|..]; rewrite ?length_take, ?length_drop; lia. }
    destruct (serves_reader E from_io _ _ _ (conn_store s) tl Hrd s d Hs eq_refl) as (s' & E1 & Hs' & _).
    rewrite app_nil_r in Hs'. by exists s'.
  - intros s fuel d (Hi & Hr & Hrest & _).
    destruct (short_request_eof action paths ignore max_freed Hq (conn_reader s) Hi Hr) as (r & E1);
      [by rewrite app_nil_r|].
    exists (set_reader r s). split; [|done]. cbn [process_requests]. apply eff_bind_Err.
    unfold on_reader, io_try, map_err. by rewrite E1.
Qed.
End garbage.

(** ** A path in the wrong form *)

Section build_log.
Context {RS : Type} {HR : NixRead RS} {HRL : NixReadLaws RS} {HF : FramedSource RS}.
Context {WS : Type} {HW : NixWrite WS} {HWL : NixWriteLaws WS} {HA : AsyncWriter WS}.
Context {St : Type} {HS : DaemonStore St}.
Context (add_multiple : AddMultipleToStoreRequest → eff RecoverableError (DaemonConnection RS WS St) unit).
Context (E : env).

(** The text of a path with its store directory is not the text of a path
    without it. *)
Lemma full_path_refused (path : StorePath) :
  is_absolute (e_dir E) = true → ∃ e, StorePath_from_str (text_of (e_dir E) path) = Err e.
Proof using DL.
  intros Hd. assert (∃ t, text_of (e_dir E) path = "/"%byte :: t) as [t ->].
  { destruct (e_dir E) as [|b dir]; [done|]. cbn in Hd. case_bool_decide; [|done]. subst b. by eexists. }
  pose proof (from_bytes_spec ("/"%byte :: t)) as Hs. unfold StorePath_from_str.
  destruct (from_bytes ("/"%byte :: t)) as [p|e|]; [|by eexists|done].
  destruct Hs as [Hwf Hfmt]. rewrite StorePath_fmt_eq in Hfmt by done. injection Hfmt as Hp.
  destruct (path_text_plain p "/"%byte Hwf eq_refl). rewrite Hp. apply list_elem_of_here.
Qed.

Lemma build_log_refused (path : StorePath) tl :
  codec_ok E path →
  refuses (S := RS) E tl (try_read_value Request) (codec_bytes E OpAddBuildLog ++ codec_bytes E path)
    (InvalidData "invalid data").
Proof using DL.
  intros (Hd & Hwf & [Ha Hl] & Hu & Hroom).
  eapply refuses_first; [apply reads_try_value, operation_ok|]. cbn [read_request].
  apply refuses_bind, refuses_bind. rewrite <-(app_nil_r (codec_bytes E path)).
  eapply refuses_first; [by apply reads_bytes|]. unfold from_utf8. rewrite Hu.
  intros s Hi Hr Hrest. exists s. destruct (full_path_refused path Hd) as [e He].
  unfold parse_text, io_gets, io_lift, mbind, io_bind. cbn -[text_of StorePath_from_str]. by rewrite He.
Qed.

(** [add_build_log] of the client sends the full path where the server
    reads a path without its store directory: the server refuses the request as
    invalid data and ends without a reply, before it reads any of the log. *)
Theorem add_build_log_refused (path : StorePath) (chunks : list bytes)
    {RS' : Type} {HR' : NixRead RS'} {HRL' : NixReadLaws RS'}
    {WS' : Type} {HW' : NixWrite WS'} {HWL' : NixWriteLaws WS'} {HA' : AsyncWriter WS'} {HAL' : AsyncWriterLaws WS'}
    {HFW' : FramedSink WS'} {HFWL' : FramedSinkLaws WS'} :
  codec_ok E path → chunks_ok chunks →
  let q := codec_bytes E OpAddBuildLog ++ codec_bytes E path in
  (∀ old (c : DaemonClient RS' WS') fuel i d, client_at E c i d →
    ∃ fs, concat fs = concat chunks ∧
      w_sent (cl_writer (client_upload old (add_build_log path) (Ok <$> chunks) fuel c).1) = d ++ q ++ frames fs) ∧
  (∀ (s : DaemonConnection RS WS St) fuel tl d, conn_at E s (q ++ tl) d →
    ∃ s', process_requests add_multiple (S fuel) s = (s', Err (from_io (InvalidData "invalid data"))) ∧
      conn_writer s' = conn_writer s ∧ conn_store s' = conn_store s).
Proof using DL.
  intros Hp Hc q. split.
  - intros old c fuel i d (_ & _ & _ & Hw & He).
    assert (writes (S := WS') E (_ ← write_value OpAddBuildLog; write_value path) q) as Hwr.
    { apply writes_bind; [apply writes_value, operation_ok|]. exact (writes_value E path Hp). }
    destruct (framed_sent E _ chunks q (cl_writer c) d Hwr Hc Hw He) as (w & fs & E1 & _ & Hcat & _ & _ & Hsent).
    exists fs. split; [done|]. cbn [client_upload]. unfold client_add_build_log, framed_request. rewrite E1.
    by destruct (process_stderr _ _ _) as [r [logs result]].
  - intros s fuel tl d (Hi & Hr & Hrest & _).
    destruct (build_log_refused path tl Hp (conn_reader s) Hi Hr Hrest) as (r & E1).
    exists (set_reader r s). split; [|done]. cbn [process_requests]. apply eff_bind_Err.
    unfold on_reader, io_try, map_err. by rewrite E1.
Qed.
End build_log.
End mismatch.

(** ** Concrete uses *)

Lemma small_path_request : codec_ok small_env (request_of (ensure_path sample_path)) ∧
  codec_ok small_env (request_of (is_valid_path sample_path)) ∧ codec_ok small_env sample_path.
Proof. small_ok. Qed.

(** [ensure_path], then [is_valid_path], with the replies of the server. *)
Lemma acknowledgement_unread_witness :
  let p := reply_bytes small_env (ensure_path sample_path) ([], Ok tt) ++
           reply_bytes small_env (is_valid_path sample_path) ([], Ok true) in
  ∃ c1 c2, client_call (ensure_path sample_path) 2 (sample_client p []) = (c1, ([], Ok tt)) ∧
    client_call (is_valid_path sample_path) 2 c1 =
      (c2, ([], Err (fill_operation OpIsValidPath (from_io (InvalidData "no discriminant matches"))))).
Proof.
  intros p. destruct small_path_request as (Hq & Hn & _).
  destruct (acknowledgement_unread (RS := NixReader (BytesReader source)) (WS := NixWriter sink) small_env ltac:(vm_compute; done)
    (ensure_path sample_path) (is_valid_path sample_path) [] tt (sample_client p []) 2 []
    (reply_bytes small_env (is_valid_path sample_path) ([], Ok true)) eq_refl Hq (Forall_nil_2 _) eq_refl Hn)
    as (c1 & c2 & E1 & _ & E2).
  - apply small_client; [done|vm_compute; lia|constructor].
  - cbn. lia.
  - exists c1, c2. split; [exact E1|exact E2].
Defined.

Definition sample_garbage : StoreE CollectGarbageResponse := collect_garbage GCReturnLive (mk_set []) false (u64 0).

Lemma collect_garbage_short_witness :
  let q := short_request small_env GCReturnLive (mk_set []) false (u64 0) in
  let conn bs := mk_connection TrustUnknown (small_reader [None; Some bs]) (small_writer []) ([] : list StorePath) in
  w_sent (cl_writer (client_call sample_garbage 2 (sample_client (str "x") [])).1) = q ∧
  (∃ s, on_reader (io_try (try_read_value Request)) (conn (q ++ str "these are the next bytes")) =
     (s, Ok (Some (request_of sample_garbage)))) ∧
  (∃ s, process_requests no_multiple 1 (conn q) =
     (s, Err (from_io (UnexpectedEof "unexpected end-of-file")))).
Proof.
  intros q conn.
  destruct (collect_garbage_short (RS := NixReader (BytesReader source)) (WS := NixWriter sink) no_multiple small_env
    GCReturnLive (mk_set []) false (u64 0) (RS' := NixReader (BytesReader source)) (WS' := NixWriter sink))
    as (Hc & Hs & He); [small_ok|]. split; [|split].
  - apply (Hc (sample_client (str "x") []) 2 (str "x") []).
    apply small_client; [done|vm_compute; lia|constructor].
  - destruct (Hs (conn (q ++ str "these are the next bytes")) (str "these are the next bytes") [] []) as (s & E1 & _).
    + rewrite app_nil_r. apply small_conn; [done|vm_compute; lia|constructor].
    + reflexivity.
    + exists s. exact E1.
  - destruct (He (conn q) 0 []) as (s & E1 & _).
    + apply small_conn; [done|vm_compute; lia|constructor].
    + exists s. exact E1.
Defined.

Lemma add_build_log_refused_witness :
  let q := codec_bytes small_env OpAddBuildLog ++ codec_bytes small_env sample_path in
  ∃ fs s, concat fs = str "building" ∧
    w_sent (cl_writer (client_upload no_old (add_build_log sample_path) [Ok (str "building")] 2
      (sample_client (str "x") [])).1) = q ++ frames fs ∧
    process_requests no_multiple 1
      (mk_connection TrustUnknown (small_reader [None; Some (q ++ str "rest")]) (small_writer []) ([] : list StorePath)) =
    (s, Err (from_io (InvalidData "invalid data"))).
Proof.
  intros q. destruct small_path_request as (_ & _ & Hp).
  destruct (add_build_log_refused (RS := NixReader (BytesReader source)) (WS := NixWriter sink) no_multiple small_env sample_path
    [str "building"] (RS' := NixReader (BytesReader source)) (WS' := NixWriter sink)) as (Hc & Hs).
  - exact Hp.
  - split; [by repeat constructor|vm_compute; done].
  - destruct (Hc no_old (sample_client (str "x") []) 2 (str "x") []) as (fs & Hf & E1).
    + apply small_client; [done|vm_compute; lia|constructor].
    + destruct (Hs (mk_connection TrustUnknown (small_reader [None; Some (q ++ str "rest")]) (small_writer []) []) 0
        (str "rest") []) as (s & E2 & _).
      * apply small_conn; [done|vm_compute; lia|constructor].
      * exists fs, s. split; [exact Hf|]. split; [exact E1|exact E2].
Defined.
