(* ===== verification/FileSystem.v ===== *)
(** What the archive code uses of the standard library's paths and files:
    [std::path] on Unix, byte for byte, and the system calls behind [std::fs]
    on a file system with directories, regular files, symbolic links and
    special files. A path is resolved as the system does it: the components
    one by one, a link on the way followed (at most forty of them), and the
    last component left alone by the calls that create. *)

From stdpp Require Import base list numbers strings gmap.
From Stdlib Require Import ZArith Lia Strings.Byte.
From S2P Require Import Prelude Async.

#[export] Instance byte_countable : Countable byte.
Proof. by apply (inj_countable' byte_to_Z byte_of_Z), byte_of_to_Z. Defined.

(** ** Paths *)

Abbreviation PathBuf := bytes (only parsing).

Abbreviation SLASH := x2f.
Definition DOT : bytes := [x2e].
Definition DOTDOT : bytes := [x2e; x2e].

Inductive component : Type := RootDir | CurDir | ParentDir | Normal (name : bytes).

#[export] Instance component_eq_dec : EqDecision component.
Proof. solve_decision. Defined.

Definition has_root (p : PathBuf) : bool := bool_decide (head p = Some SLASH).

(** A leading [.] is a component of its own. *)
Definition include_cur_dir (p : PathBuf) : bool :=
  match p with
  | [x2e] => true
  | x2e :: b :: _ => bool_decide (b = SLASH)
  | _ => false
  end.

Definition len_before_body (p : PathBuf) : nat :=
  if has_root p || include_cur_dir p then 1 else 0.

(** [parse_single_component]: empty and [.] components are skipped. *)
Definition parse_single_component (c : bytes) : option component :=
  if decide (c = [] ∨ c = DOT) then None
  else if decide (c = DOTDOT) then Some ParentDir else Some (Normal c).

Definition body (p : PathBuf) : list bytes := split_all SLASH (drop (len_before_body p) p).

Definition components (p : PathBuf) : list component :=
  (if has_root p then [RootDir] else if include_cur_dir p then [CurDir] else []) ++
  omap parse_single_component (body p).

(** [Path::starts_with] compares components. *)
Definition starts_with (p q : PathBuf) : bool := bool_decide (components q `prefix_of` components p).

Definition file_name (p : PathBuf) : option bytes :=
  match last (components p) with Some (Normal n) => Some n | _ => None end.

(** [PathBuf::push], [Path::join]. *)
Definition path_join (p name : PathBuf) : PathBuf :=
  if has_root name then name
  else p ++ (if decide (p = [] ∨ last p = Some SLASH) then [] else [SLASH]) ++ name.

(** [Components::trim_right]: skipped components at the end are cut off. *)
Definition trim_right (cs : list bytes) : list bytes :=
  rev ((fix go cs := match cs with
                     | c :: cs' => if parse_single_component c is Some _ then cs else go cs'
                     | [] => [] end) (rev cs)).

Definition parent (p : PathBuf) : option PathBuf :=
  match trim_right (body p) with
  | [] => if include_cur_dir p then Some [] else None
  | cs => Some (take (len_before_body p) p ++ join SLASH (trim_right (removelast cs)))
  end.

(** [PathBuf::pop]. *)
Definition path_pop (p : PathBuf) : PathBuf := default p (parent p).

(** ** Files *)

(** The entries of the file system, by the names on the way from the root of
    the file system; the root itself is a directory. *)
Inductive inode : Type :=
| IFile (mode : Z) (contents : bytes)
| ISymlink (target : bytes)
| IDir
| ISpecial.

Record fs : Type := mk_fs {
  files : gmap (list bytes) inode;
  cwd : list bytes;
  umask : Z
}.

Definition with_files (f : fs) (m : gmap (list bytes) inode) : fs := mk_fs m (cwd f) (umask f).

(** The components as the system sees them. *)
Definition raw (p : PathBuf) : list bytes := filter (λ c, c ≠ []) (split_all SLASH p).

Definition start_dir (f : fs) (p : PathBuf) : list bytes := if has_root p then [] else cwd f.

(** Path resolution. With [final], the last component need not be a
    directory. *)
Fixpoint follow (final : bool) (f : fs) (links : nat) : list bytes → list bytes → res io_error (list bytes) :=
  fix go (d ps : list bytes) {struct ps} : res io_error (list bytes) :=
    match ps with
    | [] => Ok d
    | c :: ps =>
        if decide (c = DOT) then go d ps
        else if decide (c = DOTDOT) then go (removelast d) ps
        else match files f !! (d ++ [c]) with
             | Some IDir => go (d ++ [c]) ps
             | Some (ISymlink t) =>
                 match links with
                 | O => Err (OsError ELOOP)
                 | S links =>
                     follow final f links (if has_root t then [] else d) (raw t ++ ps)
                 end
             | Some _ =>
                 if final && bool_decide (ps = []) then Ok (d ++ [c]) else Err (OsError ENOTDIR)
             | None => Err (OsError ENOENT)
             end
    end.

Definition MAX_LINKS : nat := 40.

Definition no_nul (p : bytes) : res io_error unit :=
  if decide (x00 ∈ p) then Err (OsError EINVAL) else Ok tt.

Definition trailing_slash (p : PathBuf) : bool := bool_decide (last p = Some SLASH).

(** The directory in which [p] is to be created, and the name it gets. *)
Definition locate (f : fs) (p : PathBuf) : res io_error (list bytes * bytes) :=
  _ ← no_nul p;
  match last (raw p) with
  | None => Err (OsError (if has_root p then EEXIST else ENOENT))
  | Some l =>
      d ← follow false f MAX_LINKS (start_dir f p) (removelast (raw p));
      if decide (l = DOT ∨ l = DOTDOT) then Err (OsError EEXIST) else Ok (d, l)
  end.

(** [std::fs::create_dir]. *)
Definition create_dir (f : fs) (p : PathBuf) : res io_error fs :=
  '(d, l) ← locate f p;
  match files f !! (d ++ [l]) with
  | Some _ => Err (OsError EEXIST)
  | None => Ok (with_files f (<[d ++ [l] := IDir]> (files f)))
  end.

(** [std::os::unix::fs::symlink]. *)
Definition symlink (f : fs) (target : bytes) (p : PathBuf) : res io_error fs :=
  _ ← no_nul target;
  '(d, l) ← locate f p;
  if decide (target = []) then Err (OsError ENOENT) else
  match files f !! (d ++ [l]) with
  | Some _ => Err (OsError EEXIST)
  | None =>
      if trailing_slash p then Err (OsError ENOENT)
      else Ok (with_files f (<[d ++ [l] := ISymlink target]> (files f)))
  end.

(** [OpenOptions::open] with [write], [create_new] and [mode]; the file is
    known by its place from then on. *)
Definition open_new (f : fs) (mode : Z) (p : PathBuf) : res io_error (list bytes * fs) :=
  '(d, l) ← locate f p;
  if trailing_slash p then Err (OsError EISDIR) else
  match files f !! (d ++ [l]) with
  | Some _ => Err (OsError EEXIST)
  | None =>
      Ok (d ++ [l], with_files f (<[d ++ [l] := IFile (Z.land mode (Z.lnot (umask f))) []]> (files f)))
  end.

(** [write_all] on the open file. *)
Definition append (f : fs) (k : list bytes) (buf : bytes) : fs :=
  match files f !! k with
  | Some (IFile m c) => with_files f (<[k := IFile m (c ++ buf)]> (files f))
  | _ => f
  end.

(** [symlink_metadata], as [walkdir]'s [DirEntry::metadata] calls it. *)
Definition lstat (f : fs) (p : PathBuf) : res io_error inode :=
  _ ← no_nul p;
  match last (raw p) with
  | None => if has_root p then Ok IDir else Err (OsError ENOENT)
  | Some l =>
      if decide (l = DOT ∨ l = DOTDOT ∨ trailing_slash p = true)
      then _ ← follow false f MAX_LINKS (start_dir f p) (raw p); Ok IDir
      else d ← follow false f MAX_LINKS (start_dir f p) (removelast (raw p));
           ok_or (files f !! (d ++ [l])) (OsError ENOENT)
  end.

(** [std::fs::read_link]. *)
Definition read_link (f : fs) (p : PathBuf) : res io_error bytes :=
  n ← lstat f p;
  match n with ISymlink t => Ok t | _ => Err (OsError EINVAL) end.

(** [std::fs::read]: links are followed to the end. A special file gives what
    it gives, which the model refuses. *)
Definition read (f : fs) (p : PathBuf) : res io_error bytes :=
  _ ← no_nul p;
  if decide (raw p = [] ∧ has_root p = false) then Err (OsError ENOENT) else
  k ← follow true f MAX_LINKS (start_dir f p) (raw p);
  match files f !! k with
  | Some (IFile _ c) => if trailing_slash p then Err (OsError ENOTDIR) else Ok c
  | Some ISpecial => Err (OsError EINVAL)
  | _ => Err (OsError EISDIR)
  end.

(** ** Names *)

(** A name that can be an entry of a directory. *)
Definition name_ok (n : bytes) : Prop :=
  n ≠ [] ∧ (SLASH ∉ n) ∧ (x00 ∉ n) ∧ n ≠ DOT ∧ n ≠ DOTDOT.

#[export] Instance name_ok_dec n : Decision (name_ok n).
Proof. unfold name_ok. apply _. Defined.

Lemma split_all_nonnil c s : split_all c s ≠ [].
Proof. destruct s as [|x s]; cbn; [done|]. case_decide; [done|]. by destruct (split_all c s). Qed.

Lemma split_all_snoc c p q : split_all c (p ++ c :: q) = split_all c p ++ split_all c q.
Proof.
  induction p as [|x p IH]; cbn; [by rewrite decide_True|].
  rewrite IH. case_decide; [done|]. pose proof (split_all_nonnil c p).
  by destruct (split_all c p).
Qed.

Lemma join_split_all c s : join c (split_all c s) = s.
Proof.
  induction s as [|x s IH]; [done|]. cbn [split_all]. pose proof (split_all_nonnil c s).
  case_decide; destruct (split_all c s) as [|p ps]; try done; subst; cbn in *.
  all: destruct ps; cbn in *; congruence.
Qed.

Lemma join_snoc c cs e : cs ≠ [] → join c (cs ++ [e]) = join c cs ++ c :: e.
Proof.
  induction cs as [|d [|d' cs] IH]; intros Hcs; [done..|].
  cbn [app join] in *. rewrite IH by done. by rewrite <-app_assoc.
Qed.

Lemma split_all_parts c s : Forall (λ l, (c ∉ l) ∧ l ⊆ s) (split_all c s).
Proof.
  induction s as [|x s IH]; cbn; [repeat constructor; set_solver|].
  assert (Forall (λ l, (c ∉ l) ∧ l ⊆ x :: s) (split_all c s)) as IH'
    by (eapply Forall_impl; [exact IH|]; set_solver).
  case_decide; [constructor; [set_solver|done]|].
  destruct (split_all c s) as [|p ps]; [clear IH IH'; constructor; [set_solver|constructor]|].
  apply Forall_cons in IH as [[? ?] _]. apply Forall_cons in IH' as [_ ?].
  constructor; [set_solver|done].
Qed.

Lemma trim_right_snoc cs c :
  trim_right (cs ++ [c]) = if parse_single_component c is Some _ then cs ++ [c] else trim_right cs.
Proof.
  unfold trim_right. rewrite rev_app_distr. cbn.
  destruct (parse_single_component c); [|done]. cbn. by rewrite rev_involutive.
Qed.

Section names.
Context (n : bytes) (Hn : name_ok n).

Lemma name_component : parse_single_component n = Some (Normal n).
Proof using Hn.
  destruct Hn as (? & ? & ? & ? & ?). unfold parse_single_component.
  rewrite decide_False by tauto. by rewrite decide_False.
Qed.

Lemma name_relative : has_root n = false.
Proof using Hn.
  destruct Hn as (? & Hs & _). apply bool_decide_eq_false. destruct n; [done|]. set_solver.
Qed.

Lemma name_not_cur : include_cur_dir n = false.
Proof using Hn.
  destruct Hn as (? & Hs & _ & Hd & _). destruct n as [|b [|b' l]]; [done| |].
  - destruct b; try done. 
  - destruct b; try done. apply bool_decide_eq_false. set_solver.
Qed.

Lemma name_split : split_all SLASH n = [n].
Proof using Hn. apply split_all_single. apply Hn. Qed.

(** Pushing a name onto a path: the shape of the result. *)
Lemma path_join_cases p :
  (p = [] ∧ path_join p n = n) ∨
  (∃ q, p = q ++ [SLASH] ∧ path_join p n = q ++ SLASH :: n) ∨
  (p ≠ [] ∧ last p ≠ Some SLASH ∧ path_join p n = p ++ SLASH :: n).
Proof using Hn.
  unfold path_join. rewrite name_relative. case_decide as Hc.
  - destruct Hc as [->|Hc]; [by left|]. right; left.
    apply last_Some in Hc as [q ->]. exists q. split; [done|]. cbn. by rewrite <-app_assoc.
  - right; right. split; [tauto|]. split; [tauto|done].
Qed.

Lemma raw_join p : raw (path_join p n) = raw p ++ [n].
Proof using Hn.
  unfold raw.
  assert (filter (λ c : bytes, c ≠ []) [n] = [n]) as E.
  { rewrite filter_cons_True by apply Hn. done. }
  destruct (path_join_cases p) as [[-> ->]|[(q & -> & ->)|(_ & _ & ->)]].
  - by rewrite name_split, E.
  - rewrite !split_all_snoc, !filter_app, name_split. cbn [split_all].
    rewrite E. by rewrite app_nil_r.
  - by rewrite split_all_snoc, filter_app, name_split, E.
Qed.

Lemma has_root_join p : has_root (path_join p n) = has_root p.
Proof using Hn.
  destruct (path_join_cases p) as [[-> ->]|[(q & -> & ->)|(? & _ & ->)]].
  - apply name_relative.
  - by destruct q.
  - by destruct p.
Qed.

Lemma include_cur_dir_join p : include_cur_dir (path_join p n) = include_cur_dir p.
Proof using Hn.
  destruct (path_join_cases p) as [[-> ->]|[(q & -> & ->)|(? & _ & ->)]].
  - apply name_not_cur.
  - destruct q as [|b [|b' q]]; [done|by destruct b|by destruct b].
  - destruct p as [|b [|b' p]]; [done|by destruct b|by destruct b].
Qed.

Lemma len_before_body_join p : len_before_body (path_join p n) = len_before_body p.
Proof using Hn. unfold len_before_body. by rewrite has_root_join, include_cur_dir_join. Qed.

(** The body grows by the name; an empty component at its end gives way. *)
Lemma body_join p :
  ∃ cs, body (path_join p n) = cs ++ [n] ∧
    omap parse_single_component (body p) = omap parse_single_component cs ∧
    trim_right (body p) = trim_right cs.
Proof using Hn.
  unfold body. rewrite len_before_body_join.
  assert (∀ q, len_before_body q ≤ length q) as Hlen.
  { intros [|b q]; [done|]. unfold len_before_body. cbn. destruct (_ || _); lia. }
  assert (∀ cs : list bytes, trim_right (cs ++ [[]]) = trim_right cs) as Ht
    by (intros cs; by rewrite trim_right_snoc).
  destruct (path_join_cases p) as [[-> ->]|[(q & -> & ->)|(? & _ & ->)]].
  - exists []. change (len_before_body []) with 0. by rewrite !drop_0, name_split.
  - destruct (decide (length q < len_before_body (q ++ [SLASH]))) as [Hq|Hq].
    + assert (q = []) as -> by (destruct q; [done|]; unfold len_before_body in Hq; cbn in Hq;
        destruct (_ || _); lia).
      exists []. change (len_before_body _) with 1. cbn. by rewrite drop_0, name_split.
    + exists (split_all SLASH (drop (len_before_body (q ++ [SLASH])) q)).
      rewrite !drop_app_le, !split_all_snoc, name_split by lia.
      split; [done|]. cbn [split_all]. rewrite omap_app. split; [by cbn; rewrite app_nil_r|apply Ht].
  - exists (split_all SLASH (drop (len_before_body p) p)). rewrite drop_app_le by apply Hlen.
    by rewrite split_all_snoc, name_split.
Qed.

Lemma components_join p : components (path_join p n) = components p ++ [Normal n].
Proof using Hn.
  unfold components. rewrite has_root_join, include_cur_dir_join.
  destruct (body_join p) as (cs & -> & -> & _).
  rewrite omap_app, <-app_assoc. cbn. by rewrite name_component.
Qed.

Lemma file_name_join p : file_name (path_join p n) = Some n.
Proof using Hn. unfold file_name. by rewrite components_join, last_snoc. Qed.

(** The path without what [pop] would drop with the last component. *)
Definition tidied (p : PathBuf) : PathBuf :=
  take (len_before_body p) p ++ join SLASH (trim_right (body p)).

Lemma parent_join p : parent (path_join p n) = Some (tidied p).
Proof using Hn.
  unfold parent, tidied. destruct (body_join p) as (cs & -> & _ & ->).
  rewrite trim_right_snoc, name_component, len_before_body_join.
  destruct (cs ++ [n]) eqn:E; [by destruct cs|]. rewrite <-E, removelast_last. do 2 f_equal.
  destruct (path_join_cases p) as [[-> ->]|[(q & -> & ->)|(? & _ & ->)]]; [done| |].
  - change (q ++ SLASH :: n) with (q ++ [SLASH] ++ n). rewrite app_assoc.
    rewrite (take_app_le (q ++ [SLASH])); [done|]. rewrite length_app. unfold len_before_body.
    cbn. destruct (_ || _); lia.
  - rewrite take_app_le; [done|]. destruct p; [done|]. unfold len_before_body. cbn.
    destruct (_ || _); lia.
Qed.

Lemma tidied_join p : tidied (path_join p n) = path_join p n.
Proof using Hn.
  unfold tidied. destruct (body_join p) as (cs & E & _ & _). rewrite E.
  rewrite trim_right_snoc, name_component, <-E. unfold body. rewrite join_split_all.
  apply take_drop.
Qed.

Lemma trailing_slash_join p : trailing_slash (path_join p n) = false.
Proof using Hn.
  apply bool_decide_eq_false. pose proof Hn as (Hne & Hs & _).
  assert (∀ q, last (q ++ n) ≠ Some SLASH) as Hq.
  { intros q. destruct (exists_last Hne) as (m & b & E). rewrite E, app_assoc, last_snoc.
    rewrite E in Hs. set_solver. }
  destruct (path_join_cases p) as [[-> ->]|[(q & -> & ->)|(? & _ & ->)]].
  - apply (Hq []).
  - specialize (Hq (q ++ [SLASH])). by rewrite <-app_assoc in Hq.
  - specialize (Hq (p ++ [SLASH])). by rewrite <-app_assoc in Hq.
Qed.

Lemma no_nul_join p : (x00 ∉ p) → x00 ∉ path_join p n.
Proof using Hn.
  intros Hp. pose proof Hn as (_ & _ & H0 & _).
  destruct (path_join_cases p) as [[-> ->]|[(q & -> & ->)|(? & _ & ->)]]; set_solver.
Qed.
End names.

(** ** Resolution *)

(** Entries that are added do not change what resolves. *)
Lemma follow_mono final f f' links d ps k :
  files f ⊆ files f' → follow final f links d ps = Ok k → follow final f' links d ps = Ok k.
Proof.
  intros Hsub. revert d ps. induction links as [|links IHl]; intros d ps;
    revert d; induction ps as [|c ps IH]; intros d; cbn; try done.
  all: repeat case_decide; try apply IH.
  all: destruct (files f !! (d ++ [c])) as [i|] eqn:E; [|done].
  all: rewrite (lookup_weaken _ _ _ _ E Hsub); destruct i; try done; apply IH || apply IHl.
Qed.

(** One more component. *)
Lemma follow_snoc final f links d ps k c i :
  name_ok c → files f !! (k ++ [c]) = Some i → (i = IDir ∨ final = true ∧ (∀ t, i ≠ ISymlink t)) →
  follow false f links d ps = Ok k → follow final f links d (ps ++ [c]) = Ok (k ++ [c]).
Proof.
  intros (_ & _ & _ & Hc1 & Hc2) Hi Hf. revert d ps.
  induction links as [|links IHl]; intros d ps;
    revert d; induction ps as [|b ps IH]; intros d; cbn.
  1, 3: intros [= ->]; rewrite !decide_False, Hi by done; destruct Hf as [->|[-> Hf]]; [done|];
    destruct i; try done; by edestruct Hf.
  all: repeat case_decide; try apply IH.
  all: destruct (files f !! (d ++ [b])) as [[| | |]|]; try done; try apply IH.
  rewrite app_assoc. apply IHl.
Qed.

(** One step up. *)
Lemma follow_up f links d ps k :
  follow false f links d ps = Ok k → follow false f links d (ps ++ [DOTDOT]) = Ok (removelast k).
Proof.
  revert d ps. induction links as [|links IHl]; intros d ps;
    revert d; induction ps as [|b ps IH]; intros d; cbn.
  1, 3: by intros [= ->].
  all: repeat case_decide; try apply IH.
  all: destruct (files f !! (d ++ [b])) as [[| | |]|]; try discriminate; try apply IH.
  rewrite app_assoc. apply IHl.
Qed.

Arguments follow : simpl never.
Opaque MAX_LINKS.

(** [dir_at f p d]: the path [p] leads to the directory [d]. *)
Definition dir_at (f : fs) (p : PathBuf) (d : list bytes) : Prop :=
  (x00 ∉ p) ∧ follow false f MAX_LINKS (start_dir f p) (raw p) = Ok d.

(** [place f p k]: the path [p] names the entry [k] of some directory. *)
Definition place (f : fs) (p : PathBuf) (k : list bytes) : Prop :=
  trailing_slash p = false ∧ (x00 ∉ p) ∧ ∃ d l, locate f p = Ok (d, l) ∧ k = d ++ [l].

#[export] Instance dir_at_dec f p d : Decision (dir_at f p d).
Proof. unfold dir_at. apply _. Defined.

Lemma extends_start f f' p : cwd f' = cwd f → start_dir f' p = start_dir f p.
Proof. unfold start_dir. by intros ->. Qed.

Lemma dir_at_mono f f' p d :
  files f ⊆ files f' → cwd f' = cwd f → dir_at f p d → dir_at f' p d.
Proof.
  intros Hsub Hc [H0 H]. split; [done|]. rewrite (extends_start f) by done.
  by eapply follow_mono.
Qed.

Lemma locate_split f p d l :
  locate f p = Ok (d, l) →
  (x00 ∉ p) ∧ name_ok l ∧ raw p = removelast (raw p) ++ [l] ∧
  follow false f MAX_LINKS (start_dir f p) (removelast (raw p)) = Ok d.
Proof.
  unfold locate, no_nul. case_decide as H0; cbn; [done|]. destruct (last (raw p)) as [l'|] eqn:E; [|done].
  intros (d' & Hd & H)%res_bind_Ok. case_decide as Hl; [done|]. injection H as <- <-.
  apply last_Some in E as [ps E]. rewrite E, removelast_last in *. split; [done|]. split; [|done].
  assert (l' ∈ raw p) as Hin by (rewrite E; set_solver).
  unfold raw in Hin. apply list_elem_of_filter in Hin as [Hne Hin].
  pose proof (split_all_parts SLASH p) as Hps. rewrite Forall_forall in Hps.
  destruct (Hps l' Hin) as [Hs Hsub]. repeat split; try tauto. set_solver.
Qed.

Lemma locate_join f p d n :
  dir_at f p d → name_ok n → locate f (path_join p n) = Ok (d, n).
Proof.
  intros [H0 Hd] Hn. unfold locate, no_nul. rewrite decide_False by (by apply no_nul_join).
  cbn. rewrite raw_join, last_snoc, removelast_last by done.
  unfold start_dir in *. rewrite has_root_join, Hd by done. cbn.
  rewrite decide_False; [done|]. destruct Hn as (_ & _ & _ & ? & ?). tauto.
Qed.

Lemma place_join f p d n : dir_at f p d → name_ok n → place f (path_join p n) (d ++ [n]).
Proof.
  intros Hd Hn. split; [by apply trailing_slash_join|]. split; [apply no_nul_join, Hd; done|].
  exists d, n. by rewrite locate_join with (d := d).
Qed.

Lemma place_dir f p k : place f p k → files f !! k = Some IDir → dir_at f p k.
Proof.
  intros (_ & H0 & d & l & Hl & ->) Hk. split; [done|].
  apply locate_split in Hl as (_ & Hl & Hr & Hd). rewrite Hr.
  eapply follow_snoc; eauto.
Qed.

Lemma place_mono f f' p k : files f ⊆ files f' → cwd f' = cwd f → place f p k → place f' p k.
Proof.
  intros Hsub Hc (Ht & H0 & d & l & Hl & ->). split; [done|]. split; [done|]. exists d, l.
  split; [|done]. revert Hl. unfold locate, no_nul. rewrite decide_False by exact H0. cbn.
  destruct (last (raw p)); [|discriminate]. intros (d' & Hd & H)%res_bind_Ok.
  rewrite (extends_start f) by done. rewrite (follow_mono _ _ _ _ _ _ _ Hsub Hd). exact H.
Qed.

(** Such a path is its directory with the name pushed onto it. *)
Lemma place_tidied f q k : place f q k → tidied q = q.
Proof.
  intros (Ht & H0 & d & l & Hl & _). apply locate_split in Hl as (_ & Hl & Hr & _).
  pose proof (join_split_all SLASH q) as Hq.
  destruct (exists_last (split_all_nonnil SLASH q)) as (cs & e & E).
  assert (e = l) as ->.
  { unfold raw in Hr. rewrite E, filter_app in Hr. cbn in Hr. case_decide as He.
    - rewrite removelast_last in Hr. by apply app_inj_tail in Hr as [_ ?].
    - exfalso. subst e. rewrite E in Hq. destruct (decide (cs = [])) as [->|Hcs].
      + done.
      + rewrite join_snoc in Hq by done. unfold trailing_slash in Ht.
        by rewrite <-Hq, last_snoc, bool_decide_eq_true_2 in Ht. }
  assert (∃ p, q = path_join p l) as [p ->]; [|by apply tidied_join].
  rewrite E in Hq. unfold path_join. rewrite name_relative by done.
  destruct (decide (cs = [])) as [->|Hcs].
  - exists []. cbn in *. by subst.
  - exists (join SLASH cs ++ [SLASH]). rewrite join_snoc in Hq by done.
    rewrite decide_True by (right; apply last_snoc). by rewrite <-Hq, <-app_assoc.
Qed.

(** ** The system calls at a place *)

Section at_place.
Context (f : fs) (p : PathBuf) (k : list bytes) (Hp : place f p k).

Lemma create_dir_new :
  files f !! k = None → create_dir f p = Ok (with_files f (<[k := IDir]> (files f))).
Proof using Hp.
  destruct Hp as (_ & _ & d & l & Hl & ->). intros Hk. unfold create_dir. rewrite Hl. cbn.
  by rewrite Hk.
Qed.

Lemma symlink_new g :
  files f !! k = None → g ≠ [] → (x00 ∉ g) →
  symlink f g p = Ok (with_files f (<[k := ISymlink g]> (files f))).
Proof using Hp.
  destruct Hp as (Ht & _ & d & l & Hl & ->). intros Hk Hg H0. unfold symlink, no_nul.
  rewrite decide_False by done. cbn. rewrite Hl. cbn. by rewrite decide_False, Hk, Ht.
Qed.

Lemma open_new_new mode :
  files f !! k = None →
  open_new f mode p =
  Ok (k, with_files f (<[k := IFile (Z.land mode (Z.lnot (umask f))) []]> (files f))).
Proof using Hp.
  destruct Hp as (Ht & _ & d & l & Hl & ->). intros Hk. unfold open_new. rewrite Hl. cbn.
  by rewrite Hk, Ht.
Qed.

(** Nothing is overwritten. *)
Lemma calls_refuse i mode g :
  files f !! k = Some i → g ≠ [] → (x00 ∉ g) →
  create_dir f p = Err (OsError EEXIST) ∧ symlink f g p = Err (OsError EEXIST) ∧
  open_new f mode p = Err (OsError EEXIST).
Proof using Hp.
  destruct Hp as (Ht & _ & d & l & Hl & ->). intros Hk Hg H0.
  unfold create_dir, symlink, open_new, no_nul.
  rewrite decide_False by done. rewrite Hl. cbn. by rewrite Hk, Ht, decide_False.
Qed.

Lemma lstat_place : lstat f p = ok_or (files f !! k) (OsError ENOENT).
Proof using Hp.
  destruct Hp as (Ht & H0 & d & l & Hl & ->). unfold lstat, no_nul.
  rewrite decide_False by done. cbn. apply locate_split in Hl as (_ & Hl & Hr & Hd).
  assert (last (raw p) = Some l) as -> by (rewrite Hr; apply last_snoc).
  destruct Hl as (_ & _ & _ & ? & ?).
  rewrite decide_False by (rewrite Ht; by intros [?|[?|?]]). by rewrite Hd.
Qed.

Lemma read_place m c : files f !! k = Some (IFile m c) → read f p = Ok c.
Proof using Hp.
  destruct Hp as (Ht & H0 & d & l & Hl & ->). intros Hk. unfold read, no_nul.
  rewrite (decide_False (P := x00 ∈ p)) by done. cbn. apply locate_split in Hl as (_ & Hl & Hr & Hd).
  rewrite decide_False by (rewrite Hr; intros [? _]; by destruct (removelast (raw p))).
  assert (follow true f MAX_LINKS (start_dir f p) (raw p) = Ok (d ++ [l])) as ->
    by (rewrite Hr; eapply follow_snoc; eauto).
  cbn. by rewrite Hk, Ht.
Qed.
End at_place.

(** ** Paths that go up *)

(** A name pushed onto a directory's path with [../] before it is a place in
    the directory above. *)
Lemma place_up f p d l n :
  place f p (d ++ [l]) → files f !! (d ++ [l]) = Some IDir → name_ok n →
  place f (path_join p (DOTDOT ++ SLASH :: n)) (d ++ [n]).
Proof.
  intros Hp Hk Hn. pose proof (place_dir f p _ Hp Hk) as [_ Hd].
  destruct Hp as (Ht & H0 & d' & l' & Hl & E). apply app_inj_tail in E as [<- <-].
  apply locate_split in Hl as (_ & _ & Hr & _).
  assert (p ≠ []) as Hne by (intros ->; cbn in Hr; done).
  assert (path_join p (DOTDOT ++ SLASH :: n) = path_join (p ++ SLASH :: DOTDOT) n) as ->.
  { unfold path_join. rewrite (name_relative n) by done.
    change (has_root (DOTDOT ++ SLASH :: n)) with false. apply bool_decide_eq_false in Ht.
    rewrite decide_False by tauto. rewrite decide_False; [by rewrite <-!app_assoc|].
    change (p ++ SLASH :: DOTDOT) with (p ++ [SLASH; x2e] ++ [x2e]). rewrite app_assoc, last_snoc.
    intros [E%(f_equal length)|[=]]. revert E. rewrite !length_app. cbn. lia. }
  apply place_join; [|done]. split.
  { rewrite not_elem_of_app. split; [done|]. by apply (bool_decide_unpack _). }
  assert (start_dir f (p ++ SLASH :: DOTDOT) = start_dir f p) as ->.
  { unfold start_dir, has_root. by destruct p. }
  assert (raw (p ++ SLASH :: DOTDOT) = raw p ++ [DOTDOT]) as ->.
  { unfold raw. by rewrite split_all_snoc, filter_app. }
  rewrite (follow_up _ _ _ _ _ Hd). by rewrite removelast_last.
Qed.
