(* ===== verification/CaseHack.v ===== *)
(** The case hack: how entries whose names differ only in case get different
    names on a file system that ignores case
    ([harmonia-nar/src/archive/restorer.rs]), and how the names are recovered
    ([harmonia-nar/src/archive/dumper.rs]). *)

From stdpp Require Import base list numbers strings gmap.
From Stdlib Require Import ZArith Lia Strings.Byte.
From S2P Require Import Prelude FileSystem.

Definition CASE_HACK_SUFFIX : bytes := str "~nix~case~hack~".

Definition u32_max : Z := 4294967295.

(** [Entries]: keyed by the lower-case name. *)
Abbreviation Entries := (gmap bytes Z).

(** [Entries::hack_name]. [to_lowercase] is
    [String::from_utf8_lossy(name).to_lowercase()]; the counter is a [u32]. *)
Definition hack_name {E : Type} (to_lowercase : bytes → bytes) (entries : Entries) (name : bytes)
    : res E (Entries * bytes) :=
  let lower := to_lowercase name in
  match entries !! lower with
  | Some i =>
      if decide (i < u32_max)%Z
      then Ok (<[lower := (i + 1)%Z]> entries, name ++ CASE_HACK_SUFFIX ++ dec_to_string 10 (i + 1))
      else Panic
  | None => Ok (<[lower := 0%Z]> entries, name)
  end.

(** [bstr]'s [rfind]: the last position at which [pat] occurs. *)
Fixpoint rfind (pat s : bytes) : option nat :=
  match s with
  | [] => if decide (pat = []) then Some 0 else None
  | _ :: s' =>
      match rfind pat s' with
      | Some i => Some (S i)
      | None => match strip_prefix pat s with Some _ => Some 0 | None => None end
      end
  end.

(** [remove_case_hack_osstr]. *)
Definition remove_case_hack_osstr (name : bytes) : option bytes :=
  match rfind CASE_HACK_SUFFIX name with Some pos => Some (take pos name) | None => None end.

(** [remove_case_hack]. *)
Definition remove_case_hack (name : bytes) : bytes :=
  match rfind CASE_HACK_SUFFIX name with Some pos => take pos name | None => name end.

(** A name that does not look hacked. *)
Definition unhacked (n : bytes) : Prop := rfind CASE_HACK_SUFFIX n = None.

#[export] Instance unhacked_dec n : Decision (unhacked n).
Proof. unfold unhacked. apply _. Defined.

Lemma remove_unhacked n : unhacked n → remove_case_hack n = n.
Proof. unfold remove_case_hack. by intros ->. Qed.

Lemma rfind_none_absent c pat s : (c ∉ s) → rfind (c :: pat) s = None.
Proof.
  induction s as [|x s IH]; cbn; [done|]. intros [Hx Hs]%not_elem_of_cons.
  rewrite IH by done. by rewrite decide_False.
Qed.

Lemma rfind_suffix n ds : (x7e ∉ ds) → (x6e ∉ ds) →
  rfind CASE_HACK_SUFFIX (n ++ CASE_HACK_SUFFIX ++ ds) = Some (length n).
Proof.
  intros Ht Hn.
  assert (rfind CASE_HACK_SUFFIX (x7e :: ds) = None) as H0.
  { cbn [rfind]. unfold CASE_HACK_SUFFIX. cbn [str String.list_byte_of_string].
    change (str "~nix~case~hack~") with (x7e :: str "nix~case~hack~").
    rewrite rfind_none_absent by done. cbn [strip_prefix]. rewrite decide_True by done.
    destruct ds as [|d ds]; [done|]. cbn. rewrite decide_False; [done|]. set_solver. }
  induction n as [|x n IH]; [|cbn [app length rfind]; by rewrite IH].
  assert (rfind CASE_HACK_SUFFIX (str "nix~case~hack~" ++ ds) = None) as H1.
  { change (str "nix~case~hack~" ++ ds) with (str "nix~case~hack" ++ x7e :: ds). revert H0.
    generalize (x7e :: ds) as tl. intros tl H0. unfold CASE_HACK_SUFFIX in *. cbn in *.
    rewrite H0. reflexivity. }
  change (rfind CASE_HACK_SUFFIX (x7e :: str "nix~case~hack~" ++ ds) = Some 0).
  cbn [rfind]. rewrite H1. change (x7e :: str "nix~case~hack~" ++ ds) with (CASE_HACK_SUFFIX ++ ds).
  by rewrite strip_prefix_app.
Qed.

(** A name the hack changed is recovered. *)
Lemma remove_hacked n i : (0 ≤ i ≤ u32_max)%Z →
  remove_case_hack (n ++ CASE_HACK_SUFFIX ++ dec_to_string 10 i) = n.
Proof.
  unfold u32_max. intros Hi. unfold remove_case_hack.
  assert (∀ c, ¬ (48 ≤ byte_to_Z c < 58)%Z → c ∉ dec_to_string 10 i) as Hp
    by (intros c; apply dec_to_string_plain; cbn; lia).
  rewrite rfind_suffix by (apply Hp; by intros [? ?]). apply take_app_length.
Qed.

Lemma hacked_name_ok n i : (0 ≤ i ≤ u32_max)%Z → name_ok n →
  name_ok (n ++ CASE_HACK_SUFFIX ++ dec_to_string 10 i).
Proof.
  unfold u32_max. intros Hi (Hne & Hs & H0 & _ & _).
  assert (∀ c, ¬ (48 ≤ byte_to_Z c < 58)%Z → (c ∉ n) → (c ∉ CASE_HACK_SUFFIX) →
    c ∉ n ++ CASE_HACK_SUFFIX ++ dec_to_string 10 i) as Hc.
  { intros c Hc Hn Hx. rewrite !not_elem_of_app. split; [done|]. split; [done|].
    apply dec_to_string_plain; [cbn; lia|done]. }
  split; [by destruct n|]. split; [apply Hc; [by intros []|done|by apply (bool_decide_unpack _)]|].
  split; [apply Hc; [by intros []|done|by apply (bool_decide_unpack _)]|].
  split; intros E%(f_equal length); revert E; rewrite !length_app; cbn; lia.
Qed.
