(* ===== verification/Restore.v ===== *)
(** Unpacking an archive ([harmonia-nar/src/archive/restorer.rs]): the sink
    [NarRestorer], which turns events into system calls run on a blocking
    thread one at a time, and [restore]. *)

From stdpp Require Import base list numbers strings gmap.
From Stdlib Require Import ZArith Lia Strings.Byte.
From S2P Require Import Prelude Async NarTree FileSystem CaseHack.

(** ** Errors *)

Inductive NarWriteOperation : Type :=
| CreateDirectory | CreateSymlink | CreateFile | PathUTF8 | JoinError.

Record NarWriteError : Type := mk_write_error {
  nwe_operation : NarWriteOperation;
  nwe_path : PathBuf;
  nwe_source : io_error
}.

Definition create_dir_error : PathBuf → io_error → NarWriteError := mk_write_error CreateDirectory.
Definition create_symlink_error : PathBuf → io_error → NarWriteError := mk_write_error CreateSymlink.
Definition create_file_error : PathBuf → io_error → NarWriteError := mk_write_error CreateFile.

(** ** Blocking tasks

    What the next polls of a [JoinHandle] find: the task not done, done, or
    lost (it panicked or the runtime is going down). With nothing left in the
    schedule, done. *)
Inductive join_poll : Type := JoinPending | JoinDone | JoinLost.

#[export] Instance join_poll_eq_dec : EqDecision join_poll.
Proof. solve_decision. Defined.

Record world : Type := mk_world { disk : fs; joins : list join_poll }.

Definition poll_join (js : list join_poll) : list join_poll * join_poll :=
  match js with [] => ([], JoinDone) | j :: js => (js, j) end.

(** The tasks [start_send] spawns. The reader of a file is what its
    [fill_buf]s give. *)
Inductive task : Type :=
| TaskFile (path : PathBuf) (mode : Z) (reader : list (res io_error bytes))
| TaskSymlink (target : bytes) (path : PathBuf)
| TaskDir (path : PathBuf).

Fixpoint write_loop (f : fs) (file : list bytes) (path : PathBuf) (reader : list (res io_error bytes))
    : fs * res NarWriteError unit :=
  match reader with
  | [] | Ok [] :: _ => (f, Ok tt)
  | Ok buf :: reader => write_loop (append f file buf) file path reader
  | Err e :: _ => (f, Err (create_file_error path e))
  | Panic :: _ => (f, Panic)
  end.

Definition run_task (f : fs) (j : task) : fs * res NarWriteError unit :=
  match j with
  | TaskFile path mode reader =>
      match open_new f mode path with
      | Ok (file, f) => write_loop f file path reader
      | Err e => (f, Err (create_file_error path e))
      | Panic => (f, Panic)
      end
  | TaskSymlink target path =>
      match symlink f target path with
      | Ok f => (f, Ok tt)
      | Err e => (f, Err (create_symlink_error path e))
      | Panic => (f, Panic)
      end
  | TaskDir path =>
      match create_dir f path with
      | Ok f => (f, Ok tt)
      | Err e => (f, Err (create_dir_error path e))
      | Panic => (f, Panic)
      end
  end.

Section restorer.
(** [String::from_utf8_lossy(name).to_lowercase()]. *)
Context (to_lowercase : bytes → bytes).

(** ** The restorer *)

Record NarRestorer : Type := mk_restorer {
  nr_root : PathBuf;
  nr_path : PathBuf;
  nr_state : option task;
  nr_use_case_hack : bool;
  nr_entries : Entries;
  nr_dir_stack : list Entries
}.

Definition new_restorer (path : PathBuf) (use_case_hack : bool) : NarRestorer :=
  mk_restorer path path None use_case_hack ∅ [].

Definition NarRestorer_new (path : PathBuf) : NarRestorer := new_restorer path false.
Definition with_case_hack (path : PathBuf) : NarRestorer := new_restorer path true.

(** On Unix every name is an [OsStr]. *)
Definition join_name (path : PathBuf) (name : bytes) : PathBuf :=
  match name with [] => path | _ => path_join path name end.

(** [Sink::poll_ready], and [poll_flush] and [poll_close], which are the same. *)
Definition poll_ready (w : world) (x : NarRestorer)
    : world * NarRestorer * poll (res NarWriteError unit) :=
  let idle := mk_restorer (nr_root x) (nr_path x) None (nr_use_case_hack x) (nr_entries x) (nr_dir_stack x) in
  match nr_state x with
  | None => (w, idle, Ready (Ok tt))
  | Some j =>
      let '(js, p) := poll_join (joins w) in
      match p with
      | JoinPending => (mk_world (disk w) js, x, Pending)
      | JoinLost =>
          (mk_world (disk w) js, x,
           Ready (Err (mk_write_error JoinError (nr_root x) (Other "background task failed"))))
      | JoinDone =>
          let '(f, r) := run_task (disk w) j in
          (mk_world f js, match r with Ok _ => idle | _ => x end, Ready r)
      end
  end.

(** Events with their readers. *)
Inductive REvent : Type :=
| RFile (name : bytes) (executable : bool) (size : Z) (reader : list (res io_error bytes))
| RSymlink (name target : bytes)
| RStartDirectory (name : bytes)
| REndDirectory.

Definition rename (x : NarRestorer) (name : bytes) : res NarWriteError (Entries * bytes) :=
  if nr_use_case_hack x then hack_name to_lowercase (nr_entries x) name else Ok (nr_entries x, name).

Definition file_mode (executable : bool) : Z := if executable then 511 else 438.

(** [Sink::start_send]. *)
Definition start_send (x : NarRestorer) (item : REvent) : res NarWriteError NarRestorer :=
  match nr_state x with
  | Some _ => Panic
  | None =>
      match item with
      | RFile name executable _ reader =>
          '(entries, name) ← rename x name;
          let path := join_name (nr_path x) name in
          Ok (mk_restorer (nr_root x) (nr_path x) (Some (TaskFile path (file_mode executable) reader))
                (nr_use_case_hack x) entries (nr_dir_stack x))
      | RSymlink name target =>
          '(entries, name) ← rename x name;
          let path := join_name (nr_path x) name in
          Ok (mk_restorer (nr_root x) (nr_path x) (Some (TaskSymlink target path))
                (nr_use_case_hack x) entries (nr_dir_stack x))
      | RStartDirectory name =>
          '(entries, name) ← rename x name;
          let path := join_name (nr_path x) name in
          if nr_use_case_hack x
          then Ok (mk_restorer (nr_root x) path (Some (TaskDir path)) true ∅ (entries :: nr_dir_stack x))
          else Ok (mk_restorer (nr_root x) path (Some (TaskDir path)) false entries (nr_dir_stack x))
      | REndDirectory =>
          if nr_use_case_hack x
          then Ok (mk_restorer (nr_root x) (path_pop (nr_path x)) None true
                     (default ∅ (head (nr_dir_stack x))) (tail (nr_dir_stack x)))
          else Ok (mk_restorer (nr_root x) (path_pop (nr_path x)) None false
                     (nr_entries x) (nr_dir_stack x))
      end
  end.

(** Polling until the task is done; every poll that is not ready uses up
    schedule. *)
Fixpoint until_ready (fuel : nat) (w : world) (x : NarRestorer)
    : world * NarRestorer * poll (res NarWriteError unit) :=
  match poll_ready w x with
  | (w, x, Pending) =>
      match fuel with O => (w, x, Pending) | S fuel => until_ready fuel w x end
  | r => r
  end.

(** [StreamExt::forward]: an error of the stream ends it at once; otherwise
    [poll_ready], [start_send], and [poll_close] at the end. *)
Fixpoint forward (w : world) (x : NarRestorer) (items : list (res NarWriteError REvent))
    : world * res NarWriteError unit :=
  match items with
  | Err e :: _ => (w, Err e)
  | Panic :: _ => (w, Panic)
  | [] =>
      match until_ready (length (joins w)) w x with
      | (w, _, Ready r) => (w, r)
      | (w, _, Pending) => (w, Panic)
      end
  | Ok ev :: items =>
      match until_ready (length (joins w)) w x with
      | (w, x, Ready (Ok _)) =>
          match start_send x ev with
          | Ok x => forward w x items
          | Err e => (w, Err e)
          | Panic => (w, Panic)
          end
      | (w, _, Ready r) => (w, r)
      | (w, _, Pending) => (w, Panic)
      end
  end.

(** [RestoreOptions]; the case hack is on by default on macOS. *)
Record RestoreOptions : Type := mk_restore_options { ro_use_case_hack : bool }.
Definition RestoreOptions_new (macos : bool) : RestoreOptions := mk_restore_options macos.
Definition RestoreOptions_use_case_hack (_ : RestoreOptions) (b : bool) : RestoreOptions :=
  mk_restore_options b.

Definition RestoreOptions_restore (o : RestoreOptions) (w : world)
    (stream : list (res NarWriteError REvent)) (path : PathBuf) : world * res NarWriteError unit :=
  forward w (new_restorer path (ro_use_case_hack o)) stream.

Definition restore (macos : bool) := RestoreOptions_restore (RestoreOptions_new macos).
End restorer.
