(* ===== verification/RestoreSpec.v ===== *)
(** Unpacking, specified: on the events of a tree, whatever the blocking
    tasks' timing and however the contents arrive, exactly that tree appears
    at the given path and nothing else on the file system changes; nothing
    that exists is ever overwritten; and what happens with names that are not
    names of a directory's entries. *)

From stdpp Require Import base list numbers strings gmap.
From Stdlib Require Import ZArith Lia Strings.Byte.
From S2P Require Import Prelude Async NarTree FileSystem CaseHack Restore.

(** ** What is to appear on the file system *)

Fixpoint entry_of (n : bytes) (es : list (bytes * node)) : option node :=
  match es with
  | [] => None
  | (n', t) :: es => if decide (n' = n) then Some t else entry_of n es
  end.

(** The node of a tree at a relative path. *)
Fixpoint node_at (t : node) (rel : list bytes) : option node :=
  match rel with
  | [] => Some t
  | n :: rel =>
      match t with
      | DirectoryNode es => t ← entry_of n es; node_at t rel
      | _ => None
      end
  end.

Definition inode_of (um : Z) (t : node) : inode :=
  match t with
  | FileNode x c => IFile (Z.land (file_mode x) (Z.lnot um)) c
  | SymlinkNode g => ISymlink g
  | DirectoryNode _ => IDir
  end.

(** The tree [t] is what the file system has at [k] and below. *)
Definition tree_at (f : fs) (k : list bytes) (t : node) : Prop :=
  ∀ rel, files f !! (k ++ rel) = inode_of (umask f) <$> node_at t rel.

Definition absent (f : fs) (k : list bytes) : Prop := ∀ rel, files f !! (k ++ rel) = None.

(** [f'] is [f] with the tree [t] at [k] and no other difference. *)
Definition grown (f f' : fs) (k : list bytes) (t : node) : Prop :=
  cwd f' = cwd f ∧ umask f' = umask f ∧ tree_at f' k t ∧
  ∀ k', ¬ k `prefix_of` k' → files f' !! k' = files f !! k'.

(** A tree that a file system can hold. *)
Fixpoint tree_ok (t : node) : Prop :=
  match t with
  | FileNode _ _ => True
  | SymlinkNode g => g ≠ [] ∧ (x00 ∉ g)
  | DirectoryNode es =>
      NoDup es.*1 ∧
      (fix go (es : list (bytes * node)) : Prop :=
         match es with [] => True | (n, t) :: es => name_ok n ∧ tree_ok t ∧ go es end) es
  end.

Lemma tree_ok_dir es :
  tree_ok (DirectoryNode es) ↔ NoDup es.*1 ∧ Forall (λ e, name_ok e.1 ∧ tree_ok e.2) es.
Proof.
  cbn. f_equiv. induction es as [|[n t] es IH]; cbn; [by rewrite Forall_nil|].
  rewrite Forall_cons, IH. cbn. tauto.
Qed.

(** The event with the contents of a file behind a reader, which hands them
    out in non-empty buffers of any sizes. *)
Inductive delivers : NarEvent → REvent → Prop :=
| delivers_file name x c (chunks : list bytes) :
    concat chunks = c → Forall (λ k, k ≠ []) chunks →
    delivers (EvFile name x (Z.of_nat (length c)) c) (RFile name x (Z.of_nat (length c)) (Ok <$> chunks))
| delivers_symlink name g : delivers (EvSymlink name g) (RSymlink name g)
| delivers_start name : delivers (EvStartDirectory name) (RStartDirectory name)
| delivers_end : delivers EvEndDirectory REndDirectory.

(** The file system with the tree put into it, node by node. *)
Fixpoint graft (um : Z) (k : list bytes) (t : node) (m : gmap (list bytes) inode) : gmap (list bytes) inode :=
  match t with
  | DirectoryNode es =>
      (fix go (es : list (bytes * node)) (m : gmap (list bytes) inode) : gmap (list bytes) inode :=
         match es with [] => m | (n, t) :: es => go es (graft um (k ++ [n]) t m) end)
        es (<[k := IDir]> m)
  | _ => <[k := inode_of um t]> m
  end.

Definition graft_entries (um : Z) (k : list bytes) (es : list (bytes * node)) (m : gmap (list bytes) inode)
    : gmap (list bytes) inode :=
  foldl (λ m e, graft um (k ++ [e.1]) e.2 m) m es.

Lemma graft_dir um k es m :
  graft um k (DirectoryNode es) m = graft_entries um k es (<[k := IDir]> m).
Proof. cbn. generalize (<[k:=IDir]> m). induction es as [|[n t] es IH]; cbn; [done|]. intros m'. apply IH. Qed.

Lemma graft_outside um t : ∀ k k' m, ¬ k `prefix_of` k' → graft um k t m !! k' = m !! k'.
Proof.
  induction t as [x c|g|es IH] using node_rect'; intros k k' m Hk.
  1, 2: cbn; apply lookup_insert_ne; intros ->; done.
  rewrite graft_dir. rewrite <-(lookup_insert_ne m k k' IDir) by (by intros ->).
  generalize (<[k:=IDir]> m) as m'. clear m. unfold graft_entries.
  induction IH as [|[n t] es IHt _ IHes]; intros m; cbn; [done|].
  rewrite IHes. apply IHt. intros Hp. apply Hk. etrans; [|exact Hp]. by apply prefix_app_r.
Qed.

Lemma app_cons_ne {A : Type} (k : list A) x l : k ≠ k ++ x :: l.
Proof. intros E%(f_equal length). revert E. len_lia. Qed.

Lemma graft_inside um t : tree_ok t → ∀ k rel m,
  graft um k t m !! (k ++ rel) =
  match node_at t rel with Some u => Some (inode_of um u) | None => m !! (k ++ rel) end.
Proof.
  induction t as [x c|g|es IH] using node_rect'; intros Hok k rel m.
  1, 2: cbn [graft]; destruct rel as [|n rel]; cbn;
    [by rewrite app_nil_r, lookup_insert_eq|by rewrite lookup_insert_ne by (apply app_cons_ne)].
  rewrite graft_dir. apply tree_ok_dir in Hok as [Hnd Hok].
  assert (∀ m', graft_entries um k es m' !! (k ++ rel) =
    match rel with
    | [] => m' !! k
    | n :: rel' => match entry_of n es ≫= λ u, node_at u rel' with
                   | Some u => Some (inode_of um u) | None => m' !! (k ++ rel) end
    end) as Hes.
  { unfold graft_entries. induction es as [|[n t] es IHes]; intros m'; cbn.
    { destruct rel; [by rewrite app_nil_r|done]. }
    apply Forall_cons in IH as [IHt IH], Hok as [[_ Ht] Hok]. apply NoDup_cons in Hnd as [Hn Hnd].
    cbn in *. rewrite IHes by done. clear IHes IH. destruct rel as [|n' rel].
    { apply graft_outside. intros Hp%prefix_length. revert Hp. len_lia. }
    change (k ++ n' :: rel) with (k ++ [n'] ++ rel). rewrite app_assoc. case_decide as E.
    - subst n'. cbn. rewrite IHt by done. destruct (entry_of n es) eqn:Ee; cbn; [|done].
      exfalso. apply Hn. clear -Ee. induction es as [|[n' t'] es IH]; cbn in *; [done|].
      case_decide; [subst; left|right; auto].
    - rewrite graft_outside; [done|]. rewrite <-app_assoc. intros Hp%prefix_app_inv.
      by apply prefix_cons_inv_1 in Hp. }
  rewrite Hes. destruct rel as [|n rel]; cbn; [by rewrite lookup_insert_eq|].
  destruct (entry_of n es ≫= _); [done|]. by rewrite lookup_insert_ne by (apply app_cons_ne).
Qed.

(** ** The names on disk *)

Section names_on_disk.
Context (to_lowercase : bytes → bytes) (hack : bool).

(** The name an entry gets after the entries counted in [m]. *)
Definition hacked (m : Entries) (n : bytes) : Entries * bytes :=
  if hack then
    let lower := to_lowercase n in
    match m !! lower with
    | Some i => (<[lower := (i + 1)%Z]> m, n ++ CASE_HACK_SUFFIX ++ dec_to_string 10 (i + 1))
    | None => (<[lower := 0%Z]> m, n)
    end
  else (m, n).

Fixpoint disk_tree (t : node) : node :=
  match t with
  | DirectoryNode es =>
      DirectoryNode ((fix go (m : Entries) (es : list (bytes * node)) : list (bytes * node) :=
        match es with
        | [] => []
        | (n, t) :: es => ((hacked m n).2, disk_tree t) :: go (hacked m n).1 es
        end) ∅ es)
  | t => t
  end.

Fixpoint disk_entries (m : Entries) (es : list (bytes * node)) : list (bytes * node) :=
  match es with
  | [] => []
  | (n, t) :: es => ((hacked m n).2, disk_tree t) :: disk_entries (hacked m n).1 es
  end.

Lemma disk_tree_dir es : disk_tree (DirectoryNode es) = DirectoryNode (disk_entries ∅ es).
Proof. reflexivity. Qed.

(** No directory has so many entries that a counter overflows. *)
Fixpoint dirs_small (t : node) : Prop :=
  match t with
  | DirectoryNode es =>
      (Z.of_nat (length es) ≤ u32_max)%Z ∧
      (fix go (es : list (bytes * node)) : Prop :=
         match es with [] => True | (_, t) :: es => dirs_small t ∧ go es end) es
  | _ => True
  end.

Lemma dirs_small_dir es :
  dirs_small (DirectoryNode es) ↔
  (Z.of_nat (length es) ≤ u32_max)%Z ∧ Forall (λ e, dirs_small e.2) es.
Proof.
  cbn. f_equiv. induction es as [|[n t] es IH]; cbn; [by rewrite Forall_nil|].
  by rewrite Forall_cons, IH.
Qed.

Definition counts (m : Entries) (b : Z) : Prop := ∀ l i, m !! l = Some i → (0 ≤ i < b)%Z.

Lemma hacked_counts m n b : (0 ≤ b)%Z → counts m b → counts (hacked m n).1 (b + 1).
Proof.
  intros Hb Hm. unfold hacked. destruct hack; [|intros l i Hi; specialize (Hm l i Hi); lia].
  destruct (m !! to_lowercase n) as [j|] eqn:E; cbn; intros l i.
  all: intros [[_ <-]|[_ Hi]]%lookup_insert_Some; [|specialize (Hm l i Hi); lia].
  - specialize (Hm _ _ E). lia.
  - lia.
Qed.

Lemma rename_hacked x n b :
  nr_use_case_hack x = hack → (hack = true → counts (nr_entries x) b) → (b ≤ u32_max)%Z →
  rename to_lowercase x n = Ok (hacked (nr_entries x) n).
Proof.
  intros Hx Hm Hb. unfold rename, hack_name, hacked. rewrite Hx. destruct hack; [|done].
  destruct (_ !! _) as [i|] eqn:E; [|done]. specialize (Hm eq_refl _ _ E). by rewrite decide_True by lia.
Qed.
End names_on_disk.

Lemma disk_entries_plain to_lowercase m m' es :
  disk_entries to_lowercase false m es = disk_entries to_lowercase false m' es.
Proof. induction es as [|[n t] es IH]; cbn; [done|]. by rewrite IH. Qed.

(** ** Running the restorer *)

Lemma graft_extends um k t m : (∀ rel, m !! (k ++ rel) = None) → m ⊆ graft um k t m.
Proof.
  intros Hm. apply map_subseteq_spec. intros k' i Hi. rewrite graft_outside; [done|].
  intros [rel ->]. by rewrite Hm in Hi.
Qed.

Section run.
Context (to_lowercase : bytes → bytes).
Abbreviation forward := (forward to_lowercase).
Abbreviation start_send := (start_send to_lowercase).

(** From this state the events lead to [F] and [r], whatever the timing of
    the tasks. *)
Definition goes (f : fs) (x : NarRestorer) (items : list REvent) (F : fs) (r : res NarWriteError unit) : Prop :=
  ∀ js, Forall (λ j, j ≠ JoinLost) js →
    ∃ js', forward (mk_world f js) x (Ok <$> items) = (mk_world F js', r).

Definition idle (x : NarRestorer) : NarRestorer :=
  mk_restorer (nr_root x) (nr_path x) None (nr_use_case_hack x) (nr_entries x) (nr_dir_stack x).

Lemma restorer_idle fuel w x :
  nr_state x = None → until_ready fuel w x = (w, x, Ready (Ok tt)).
Proof. destruct x; cbn. intros ->. by destruct fuel. Qed.

Lemma until_ready_task f x j f' js :
  nr_state x = Some j → run_task f j = (f', Ok tt) → Forall (λ j, j ≠ JoinLost) js →
  ∃ js', Forall (λ j, j ≠ JoinLost) js' ∧
    until_ready (length js) (mk_world f js) x = (mk_world f' js', idle x, Ready (Ok tt)).
Proof.
  intros Hx Hj Hjs. induction Hjs as [|p js Hp Hjs IH].
  - exists []. split; [done|]. cbn. unfold poll_ready. rewrite Hx. cbn. by rewrite Hj.
  - destruct p; try done.
    + destruct IH as (js' & Hjs' & IH). exists js'. split; [done|].
      cbn. unfold poll_ready at 1. rewrite Hx. exact IH.
    + exists js. split; [done|]. cbn. unfold poll_ready. rewrite Hx. cbn. by rewrite Hj.
Qed.

Lemma goes_task f x j f' items F r :
  nr_state x = Some j → run_task f j = (f', Ok tt) → goes f' (idle x) items F r → goes f x items F r.
Proof.
  intros Hx Hj Hg js Hjs. destruct (until_ready_task f x j f' js Hx Hj Hjs) as (js' & Hjs' & E).
  destruct (Hg js' Hjs') as (js2 & E2). exists js2. rewrite <-E2.
  destruct items as [|ev items]; cbn; by rewrite E, restorer_idle.
Qed.

Lemma goes_send f x ev x' items F r :
  nr_state x = None → start_send x ev = Ok x' → goes f x' items F r → goes f x (ev :: items) F r.
Proof.
  intros Hx Hs Hg js Hjs. destruct (Hg js Hjs) as (js' & E). exists js'.
  cbn. rewrite restorer_idle by done. by rewrite Hs.
Qed.

Lemma goes_done f x : nr_state x = None → goes f x [] f (Ok tt).
Proof. intros Hx js _. exists js. cbn. by rewrite restorer_idle. Qed.

(** ** Writing a file *)

Lemma write_loop_ok path k m (chunks : list bytes) : ∀ f c,
  files f !! k = Some (IFile m c) → Forall (λ b, b ≠ []) chunks →
  write_loop f k path (Ok <$> chunks) =
  (with_files f (<[k := IFile m (c ++ concat chunks)]> (files f)), Ok tt).
Proof.
  induction chunks as [|b chunks IH]; intros f c Hf Hb.
  - cbn. rewrite app_nil_r, insert_id by done. by destruct f.
  - apply Forall_cons in Hb as [Hb Hbs]. destruct b as [|b0 b]; [done|].
    cbn [fmap list_fmap write_loop concat]. unfold append. rewrite Hf.
    rewrite IH with (c := c ++ b0 :: b); [|cbn; by rewrite lookup_insert_eq|done].
    cbn. by rewrite insert_insert_eq, <-app_assoc.
Qed.

Lemma run_task_leaf f q k t :
  place f q k → files f !! k = None → tree_ok t →
  match t with
  | FileNode x c => ∀ chunks : list bytes, concat chunks = c → Forall (λ b, b ≠ []) chunks →
      run_task f (TaskFile q (file_mode x) (Ok <$> chunks)) =
      (with_files f (graft (umask f) k t (files f)), Ok tt)
  | SymlinkNode g => run_task f (TaskSymlink g q) = (with_files f (graft (umask f) k t (files f)), Ok tt)
  | DirectoryNode _ => run_task f (TaskDir q) = (with_files f (<[k := IDir]> (files f)), Ok tt)
  end.
Proof.
  intros Hp Hk Hok. destruct t as [x c|g|es]; cbn.
  - intros chunks <- Hc. rewrite (open_new_new f q k) by done.
    rewrite (write_loop_ok q k (Z.land (file_mode x) (Z.lnot (umask f))) chunks _ []);
      [|cbn; by rewrite lookup_insert_eq|done].
    cbn. by rewrite insert_insert_eq.
  - destruct Hok. by rewrite (symlink_new f q k).
  - by rewrite (create_dir_new f q k).
Qed.
(** ** Restoring a node *)

Section node.
Context (hack : bool).
Abbreviation disk_tree := (disk_tree to_lowercase hack).
Abbreviation disk_entries := (disk_entries to_lowercase hack).
Abbreviation hacked := (hacked to_lowercase hack).

(** The restorer after a node: the path is back where it was. *)
Definition after_node (x : NarRestorer) (m : Entries) (t : node) (q : PathBuf) : NarRestorer :=
  mk_restorer (nr_root x) (match t with DirectoryNode _ => path_pop q | _ => nr_path x end) None
    hack m (nr_dir_stack x).

Definition restores (t : node) : Prop :=
  ∀ f x n m n' q k evs rest F r,
    nr_state x = None → nr_use_case_hack x = hack → tree_ok (disk_tree t) → dirs_small t →
    Forall2 delivers (events_of n t) evs →
    rename to_lowercase x n = Ok (m, n') → q = join_name (nr_path x) n' → place f q k → absent f k →
    goes (with_files f (graft (umask f) k (disk_tree t) (files f))) (after_node x m t q) rest F r →
    goes f x (evs ++ rest) F r.

(** Siblings, in a directory that is there. *)
Lemma restores_entries es : Forall (λ e, restores e.2) es →
  ∀ f x b k evs rest F r,
    nr_state x = None → nr_use_case_hack x = hack →
    NoDup (disk_entries (nr_entries x) es).*1 →
    Forall (λ e, name_ok e.1 ∧ tree_ok e.2) (disk_entries (nr_entries x) es) →
    Forall (λ e, dirs_small e.2) es →
    (0 ≤ b)%Z → (hack = true → counts (nr_entries x) b) → (b + Z.of_nat (length es) ≤ u32_max)%Z →
    Forall2 delivers (concat ((λ e, events_of e.1 e.2) <$> es)) evs →
    dir_at f (nr_path x) k → tidied (nr_path x) = nr_path x →
    Forall (λ e, absent f (k ++ [e.1])) (disk_entries (nr_entries x) es) →
    (∀ m, (hack = false → m = nr_entries x) →
      goes (with_files f (graft_entries (umask f) k (disk_entries (nr_entries x) es) (files f)))
        (mk_restorer (nr_root x) (nr_path x) None hack m (nr_dir_stack x)) rest F r) →
    goes f x (evs ++ rest) F r.
Proof.
  induction 1 as [|[n t] es IHt Hes IH]; intros f x b k evs rest F r Hx Hh Hnd Hok Hsm Hb Hc Hlen Hev Hd Htd Habs Hg.
  { cbn in Hev. apply Forall2_nil_inv_l in Hev as ->. destruct x, f; cbn in *; subst. by apply Hg. }
  cbn in Hev. apply Forall2_app_inv_l in Hev as (ev1 & ev2 & Hev1 & Hev2 & ->).
  cbn in Hnd, Hok, Hlen. apply NoDup_cons in Hnd as [Hn Hnd].
  apply Forall_cons in Hok as [[Hn' Ht] Hok], Hsm as [Hst Hsm]. cbn in *.
  destruct (hacked (nr_entries x) n) as [m n'] eqn:E. cbn in *.
  apply Forall_cons in Habs as [Ha Habs]. cbn in Ha.
  assert (path_pop (path_join (nr_path x) n') = nr_path x) as Hpop
    by (unfold path_pop; by rewrite parent_join, Htd).
  rewrite <-app_assoc.
  eapply (IHt f x n m n' (path_join (nr_path x) n') (k ++ [n'])); try done.
  { rewrite (rename_hacked _ hack x n b) by (done || lia). by rewrite E. }
  { by destruct n', Hn'. }
  { by apply place_join. }
  pose proof (graft_extends (umask f) _ (disk_tree t) (files f) Ha) as Hsub.
  assert (after_node x m t (path_join (nr_path x) n') =
          mk_restorer (nr_root x) (nr_path x) None hack m (nr_dir_stack x)) as ->.
  { unfold after_node. rewrite Hpop. by destruct t. }
  eapply (IH _ _ (b + 1)%Z k).
  1, 2: reflexivity.
  1, 2, 3: assumption.
  1, 3: lia.
  2, 4: assumption.
  - intros Hh'. replace m with (hacked (nr_entries x) n).1 by (by rewrite E).
    apply hacked_counts; auto.
  - eapply dir_at_mono; [exact Hsub|reflexivity|exact Hd].
  - rewrite Forall_forall in Habs |- *. intros e He rel.
    cbn. rewrite graft_outside; [by apply Habs|]. rewrite <-app_assoc.
    intros Hp%prefix_app_inv. apply prefix_cons_inv_1 in Hp as ->. apply Hn.
    by apply list_elem_of_fmap_2.
  - intros m' Hm'. apply (Hg m'). intros Hh'. rewrite Hm' by done.
    unfold RestoreSpec.hacked in E. rewrite Hh' in E. by injection E as <- <-.
Qed.

Lemma restores_leaf t : (∀ es, t ≠ DirectoryNode es) → restores t.
Proof.
  intros Hl f x n m n' q k evs rest F r Hx Hh Hok _ Hev Hr -> Hp Ha Hg.
  pose proof (Ha []) as Hk. rewrite app_nil_r in Hk.
  pose proof (run_task_leaf f _ k (disk_tree t) Hp Hk Hok) as Hrun.
  destruct t as [e c|g|es]; [| |by edestruct Hl].
  all: cbn in Hev; apply Forall2_cons_inv_l in Hev as (ev & evs' & Hev & Hnil & ->);
    apply Forall2_nil_inv_l in Hnil as ->; inversion Hev; subst.
  all: eapply goes_send; [done| |].
  1, 3: unfold Restore.start_send; rewrite Hx, Hr; cbn; reflexivity.
  all: eapply goes_task; [reflexivity|apply Hrun; done|]; unfold idle; cbn; rewrite Hh; exact Hg.
Qed.

Lemma restores_dir es : Forall (λ e, restores e.2) es → restores (DirectoryNode es).
Proof.
  intros IH f x n m n' q k evs rest F r Hx Hh Hok Hsm Hev Hr -> Hp Ha Hg.
  pose proof (Ha []) as Hk. rewrite app_nil_r in Hk.
  pose proof (run_task_leaf f _ k _ Hp Hk Hok) as Hrun.
  rewrite disk_tree_dir in Hok, Hrun, Hg. apply tree_ok_dir in Hok as [Hnd Hok].
  apply dirs_small_dir in Hsm as [Hlen Hsm].
  rewrite events_of_dir in Hev. apply Forall2_cons_inv_l in Hev as (ev & evs' & Hs & Hev & ->).
  inversion Hs; subst ev; clear Hs.
  apply Forall2_app_inv_l in Hev as (evc & eve & Hevc & Heve & ->).
  apply Forall2_cons_inv_l in Heve as (ev & evs' & He & Hnil & ->).
  apply Forall2_nil_inv_l in Hnil as ->. inversion He; subst ev; clear He.
  set (q := join_name (nr_path x) n') in *.
  set (x1 := mk_restorer (nr_root x) q None hack (if hack then ∅ else m)
               (if hack then m :: nr_dir_stack x else nr_dir_stack x)).
  assert (disk_entries (nr_entries x1) es = disk_entries ∅ es) as Hes.
  { subst x1. cbn. destruct hack; [done|]. apply disk_entries_plain. }
  cbn [app]. rewrite <-app_assoc.
  apply (goes_send _ _ _ (mk_restorer (nr_root x) q (Some (TaskDir q)) hack
           (nr_entries x1) (nr_dir_stack x1))); [done| |].
  { unfold Restore.start_send. rewrite Hx, Hr. cbn. rewrite Hh. subst x1. by destruct hack. }
  eapply goes_task; [reflexivity|exact Hrun|]. change (idle _) with x1.
  assert (∀ rel, rel ≠ [] → <[k:=IDir]> (files f) !! (k ++ rel) = None) as Hin.
  { intros [|c rel] Hrel; [done|]. rewrite lookup_insert_ne by apply app_cons_ne. apply Ha. }
  eapply (restores_entries es IH _ x1 0 k); rewrite ?Hes; try done.
  - intros Hh'. subst x1. cbn. rewrite Hh'. by intros l i Hi.
  - cbn. eapply place_dir; [|cbn; apply lookup_insert_eq].
    apply (place_mono f); [by apply insert_subseteq|reflexivity|exact Hp].
  - cbn. by eapply place_tidied.
  - apply Forall_forall. intros e _ rel. cbn. rewrite <-app_assoc. by apply Hin.
  - intros m2 Hm2. rewrite graft_dir in Hg. eapply goes_send; [done| |exact Hg].
    unfold Restore.start_send, after_node. subst x1. cbn in *. destruct hack; [done|].
    by rewrite Hm2.
Qed.

Lemma restores_all t : restores t.
Proof.
  induction t as [x c|g|es IH] using node_rect'; [by apply restores_leaf..|by apply restores_dir].
Qed.

(** A whole archive, at a path where there is nothing yet. *)
Lemma restore_goes f p k t evs :
  tree_ok (disk_tree t) → dirs_small t → Forall2 delivers (events_of [] t) evs →
  place f p k → absent f k →
  goes f (new_restorer p hack) evs (with_files f (graft (umask f) k (disk_tree t) (files f))) (Ok tt).
Proof.
  intros Hok Hsm Hev Hp Ha. rewrite <-(app_nil_r evs).
  eapply (restores_all t f _ [] (hacked ∅ []).1 [] p k); try done.
  - rewrite (rename_hacked _ hack _ _ 0); [|done|by intros _ l i Hi|done].
    unfold RestoreSpec.hacked. by destruct hack.
  - by apply goes_done.
Qed.
End node.
End run.

(** ** Trees under the case hack *)

Arguments dec_to_string : simpl never.
Arguments CASE_HACK_SUFFIX : simpl never.

(** No name looks like one the hack made. *)
Fixpoint names_unhacked (t : node) : Prop :=
  match t with
  | DirectoryNode es =>
      (fix go (es : list (bytes * node)) : Prop :=
         match es with [] => True | (n, t) :: es => unhacked n ∧ names_unhacked t ∧ go es end) es
  | _ => True
  end.

Lemma names_unhacked_dir es :
  names_unhacked (DirectoryNode es) ↔ Forall (λ e, unhacked e.1 ∧ names_unhacked e.2) es.
Proof.
  cbn. induction es as [|[n t] es IH]; cbn; [by rewrite Forall_nil|].
  rewrite Forall_cons, IH. cbn. tauto.
Qed.

Section hacked.
Context (to_lowercase : bytes → bytes).

(** What the dumper makes of a tree with hacked names. *)
Lemma disk_entries_names hack es : ∀ m b,
  (0 ≤ b)%Z → counts m b → (b + Z.of_nat (length es) ≤ u32_max)%Z →
  (hack = true → Forall (λ e : bytes * node, unhacked e.1) es) → Forall (λ e, name_ok e.1) es →
  (if hack then remove_case_hack else id) <$> (disk_entries to_lowercase hack m es).*1 = es.*1 ∧
  Forall (λ e, name_ok e.1) (disk_entries to_lowercase hack m es).
Proof.
  induction es as [|[n t] es IH]; intros m b Hb Hm Hlen Hu Hn; [done|].
  apply Forall_cons in Hn as [Hn Hns]. cbn in Hlen.
  destruct (IH (hacked to_lowercase hack m n).1 (b + 1)%Z) as [IH1 IH2]; try lia; try done.
  { by apply hacked_counts. }
  { intros Hh. specialize (Hu Hh). by apply Forall_cons in Hu as [_ ?]. }
  cbn. rewrite IH1, Forall_cons. unfold hacked in *. destruct hack; [|done].
  specialize (Hu eq_refl). apply Forall_cons in Hu as [Hu _].
  destruct (m !! to_lowercase n) as [i|] eqn:E; cbn in *.
  - specialize (Hm _ _ E). rewrite remove_hacked by lia. split; [done|]. split; [|done].
    apply hacked_name_ok; [lia|done].
  - by rewrite remove_unhacked.
Qed.

Lemma disk_tree_ok hack t :
  tree_ok t → dirs_small t → (hack = true → names_unhacked t) → tree_ok (disk_tree to_lowercase hack t).
Proof.
  induction t as [x c|g|es IH] using node_rect'; [done..|].
  intros Hok Hsm Hu. rewrite disk_tree_dir. apply tree_ok_dir in Hok as [Hnd Hok].
  apply dirs_small_dir in Hsm as [Hlen Hsm]. apply tree_ok_dir.
  setoid_rewrite names_unhacked_dir in Hu.
  destruct (disk_entries_names hack es ∅ 0) as [Hn1 Hn2]; try lia.
  { by intros l i Hi. }
  { intros Hh. eapply Forall_impl; [by apply Hu|]. by intros e []. }
  { eapply Forall_impl; [exact Hok|]. by intros e []. }
  split; [by eapply (NoDup_fmap_1 (if hack then remove_case_hack else id)); rewrite Hn1|].
  apply Forall_and. split; [done|]. clear Hn1 Hn2 Hnd Hlen. generalize (∅ : Entries).
  induction es as [|[n t] es IHes]; intros m; cbn; constructor.
  all: apply Forall_cons in IH as [IHt IH], Hok as [[_ Ht] Hok], Hsm as [Hst Hsm].
  - apply IHt; [done..|]. intros Hh. specialize (Hu Hh). by apply Forall_cons in Hu as [[_ ?] _].
  - apply IHes; [done..|]. intros Hh. specialize (Hu Hh). by apply Forall_cons in Hu as [_ ?].
Qed.
End hacked.

Lemma disk_tree_plain to_lowercase t : disk_tree to_lowercase false t = t.
Proof.
  induction t as [x c|g|es IH] using node_rect'; [done..|]. rewrite disk_tree_dir. f_equal.
  generalize (∅ : Entries). induction IH as [|[n t] es IHt _ IHes]; intros m; [done|].
  cbn in *. by rewrite IHt, IHes.
Qed.

Lemma graft_grown f k t : tree_ok t → absent f k → grown f (with_files f (graft (umask f) k t (files f))) k t.
Proof.
  intros Hok Ha. split; [done|]. split; [done|]. split.
  - intros rel. cbn. rewrite graft_inside by done. destruct (node_at t rel); [done|]. apply Ha.
  - intros k' Hk. cbn. by apply graft_outside.
Qed.

(** ** Theorems *)

(** C4. Unpacking is exact. The events of a tree, with the contents of files
    in buffers of any sizes and the blocking tasks taking any time, restored
    to a path where there is nothing, succeed, and then the file system has
    there the tree - each file with its contents and its mode less the umask,
    each link with its target, each directory with its entries, under the
    names of the case hack when it is on - and is otherwise as before. *)
Theorem restore_exact (to_lowercase : bytes → bytes) (o : RestoreOptions) (f : fs) (js : list join_poll)
    (p : PathBuf) (k : list bytes) (t : node) (evs : list REvent) :
  place f p k → absent f k → tree_ok t → dirs_small t →
  (ro_use_case_hack o = true → names_unhacked t) →
  Forall2 delivers (events_of [] t) evs → Forall (λ j, j ≠ JoinLost) js →
  ∃ w', RestoreOptions_restore to_lowercase o (mk_world f js) (Ok <$> evs) p = (w', Ok tt) ∧
    grown f (disk w') k (disk_tree to_lowercase (ro_use_case_hack o) t).
Proof.
  intros Hp Ha Hok Hsm Hu Hev Hjs.
  pose proof (disk_tree_ok to_lowercase _ t Hok Hsm Hu) as Hdok.
  destruct (restore_goes to_lowercase (ro_use_case_hack o) f p k t evs Hdok Hsm Hev Hp Ha js Hjs)
    as (js' & E).
  eexists. split; [exact E|]. by apply graft_grown.
Qed.

(** What the options and the file system look like in the examples: an empty
    directory [/nix/store]. *)
Definition sample_fs : fs :=
  mk_fs {[ [str "nix"] := IDir; [str "nix"; str "store"] := IDir ]} [] 18.

Definition sample_dir : node :=
  DirectoryNode [(str "Readme", FileNode false (str "hello")); (str "bin", DirectoryNode [(str "run", FileNode true (str "#!"))]);
    (str "readme", SymlinkNode (str "../x"))].

Definition sample_events : list REvent :=
  [RStartDirectory []; RFile (str "Readme") false 5 [Ok (str "he"); Ok (str "llo")];
   RStartDirectory (str "bin"); RFile (str "run") true 2 [Ok (str "#!")]; REndDirectory;
   RSymlink (str "readme") (str "../x"); REndDirectory].

Definition ascii_lower : bytes → bytes := map to_ascii_lowercase.


Lemma sample_dir_at : dir_at sample_fs (str "/nix/store") [str "nix"; str "store"].
Proof. apply (bool_decide_unpack _). vm_compute. exact I. Qed.

Lemma sample_place n :
  name_ok n → place sample_fs (path_join (str "/nix/store") n) [str "nix"; str "store"; n].
Proof. intros Hn. by apply (place_join sample_fs _ _ n sample_dir_at). Qed.

Lemma sample_absent n : absent sample_fs [str "nix"; str "store"; n].
Proof.
  intros rel. unfold sample_fs. cbn [files].
  by rewrite lookup_insert_ne, lookup_singleton_ne by done.
Qed.

Lemma restore_exact_witness :
  let p := path_join (str "/nix/store") (str "out") in
  let k := [str "nix"; str "store"; str "out"] in
  ∃ w', RestoreOptions_restore ascii_lower (mk_restore_options true)
          (mk_world sample_fs [JoinPending; JoinDone; JoinPending]) (Ok <$> sample_events) p = (w', Ok tt) ∧
    grown sample_fs (disk w') k (disk_tree ascii_lower true sample_dir) ∧
    files (disk w') !! (k ++ [str "readme~nix~case~hack~1"]) = Some (ISymlink (str "../x")).
Proof.
  intros p k.
  destruct (restore_exact ascii_lower (mk_restore_options true) sample_fs
    [JoinPending; JoinDone; JoinPending] p k sample_dir sample_events) as (w' & E & Hg).
  - apply sample_place. by apply (bool_decide_unpack _).
  - apply sample_absent.
  - cbn [tree_ok sample_dir].
    repeat match goal with |- _ ∧ _ => split end; try exact I; by apply (bool_decide_unpack _).
  - cbn. unfold u32_max. lia.
  - intros _. cbn. repeat split; reflexivity.
  - constructor; [constructor|]. constructor.
    { by apply (delivers_file _ _ (str "hello") [str "he"; str "llo"]); repeat constructor. }
    constructor; [constructor|]. constructor.
    { by apply (delivers_file _ _ (str "#!") [str "#!"]); repeat constructor. }
    repeat constructor.
  - repeat constructor; discriminate.
  - exists w'. split; [exact E|]. split; [exact Hg|]. destruct Hg as (_ & _ & Ht & _).
    rewrite (Ht [str "readme~nix~case~hack~1"]). vm_compute. reflexivity.
Defined.

(** ** Nothing is overwritten *)

Lemma write_loop_other path k reader : ∀ f k', k' ≠ k →
  files (write_loop f k path reader).1 !! k' = files f !! k'.
Proof.
  induction reader as [|[[|b buf]|e|] reader IH]; intros f k' Hk; try done.
  cbn. rewrite IH by done. unfold append. destruct (files f !! k) as [[]|]; try done.
  cbn. by rewrite lookup_insert_ne by done.
Qed.

Lemma open_new_Ok f mode p k f' :
  open_new f mode p = Ok (k, f') → files f !! k = None ∧ ∃ i, f' = with_files f (<[k := i]> (files f)).
Proof.
  unfold open_new. intros ([d l] & _ & H)%res_bind_Ok. destruct (trailing_slash p); [done|].
  destruct (files f !! (d ++ [l])) eqn:E; [done|]. injection H as <- <-. eauto.
Qed.

Lemma create_dir_Ok f p f' :
  create_dir f p = Ok f' → ∃ k i, files f !! k = None ∧ f' = with_files f (<[k := i]> (files f)).
Proof.
  unfold create_dir. intros ([d l] & _ & H)%res_bind_Ok.
  destruct (files f !! (d ++ [l])) eqn:E; [done|]. injection H as <-. eauto.
Qed.

Lemma symlink_Ok f g p f' :
  symlink f g p = Ok f' → ∃ k i, files f !! k = None ∧ f' = with_files f (<[k := i]> (files f)).
Proof.
  unfold symlink. intros (_ & _ & H)%res_bind_Ok. apply res_bind_Ok in H as ([d l] & _ & H).
  case_decide; [done|]. destruct (files f !! (d ++ [l])) eqn:E; [done|].
  destruct (trailing_slash p); [done|]. injection H as <-. eauto.
Qed.

Lemma run_task_extends f j : files f ⊆ files (run_task f j).1.
Proof.
  destruct j as [path mode reader|g path|path]; cbn.
  - destruct (open_new f mode path) as [[k f']|e|] eqn:E; [|done..].
    apply open_new_Ok in E as (Hk & i & ->). apply map_subseteq_spec. intros k' i' Hi.
    assert (k' ≠ k) by congruence. rewrite write_loop_other by done. cbn.
    by rewrite lookup_insert_ne by done.
  - destruct (symlink f g path) as [f'|e|] eqn:E; [|done..].
    apply symlink_Ok in E as (k & i & Hk & ->). by apply insert_subseteq.
  - destruct (create_dir f path) as [f'|e|] eqn:E; [|done..].
    apply create_dir_Ok in E as (k & i & Hk & ->). by apply insert_subseteq.
Qed.

Lemma poll_ready_extends w x w' x' p :
  poll_ready w x = (w', x', p) → files (disk w) ⊆ files (disk w').
Proof.
  unfold poll_ready. destruct (nr_state x) as [j|]; [|by intros [= <- _ _]].
  destruct (poll_join (joins w)) as [js []]; try (by intros [= <- _ _]).
  pose proof (run_task_extends (disk w) j). destruct (run_task (disk w) j) as [f r].
  by intros [= <- _ _].
Qed.

Lemma until_ready_extends fuel : ∀ w x w' x' p,
  until_ready fuel w x = (w', x', p) → files (disk w) ⊆ files (disk w').
Proof.
  induction fuel as [|fuel IH]; intros w x w' x' p; cbn;
    destruct (poll_ready w x) as [[w1 x1] [a|]] eqn:E; apply poll_ready_extends in E.
  all: try (by intros [= <- _ _]).
  intros H. etrans; [exact E|]. by eapply IH.
Qed.

(** C5. Restoring never harms what is there. Whatever events a stream gives,
    well formed or not, with readers and blocking tasks that succeed or fail
    at any point, whatever the outcome: every file, link and directory that
    was on the file system is there afterwards, unchanged. *)
Theorem restore_preserves (to_lowercase : bytes → bytes) (o : RestoreOptions) (w : world)
    (stream : list (res NarWriteError REvent)) (path : PathBuf) :
  files (disk w) ⊆ files (disk (RestoreOptions_restore to_lowercase o w stream path).1).
Proof.
  unfold RestoreOptions_restore. generalize (new_restorer path (ro_use_case_hack o)) as x.
  revert w. induction stream as [|[ev|e|] items IH]; intros w x; cbn; try done.
  all: destruct (until_ready (length (joins w)) w x) as [[w1 x1] p] eqn:E;
    apply until_ready_extends in E; destruct p as [[]|]; cbn; try done.
  destruct (start_send to_lowercase x1 ev) as [x2|e|]; cbn; try done.
  etrans; [exact E|]. apply IH.
Qed.

(** The operation that a root of each kind begins with. *)
Definition root_operation (t : node) : NarWriteOperation :=
  match t with FileNode _ _ => CreateFile | SymlinkNode _ => CreateSymlink | DirectoryNode _ => CreateDirectory end.

Lemma until_ready_fails f x j f' e js :
  nr_state x = Some j → run_task f j = (f', Err e) → Forall (λ j, j ≠ JoinLost) js →
  ∃ js', until_ready (length js) (mk_world f js) x = (mk_world f' js', x, Ready (Err e)).
Proof.
  intros Hx Hj Hjs. induction Hjs as [|p js Hp Hjs IH].
  - exists []. cbn. unfold poll_ready. rewrite Hx. cbn. by rewrite Hj.
  - destruct p; try done.
    + destruct IH as (js' & IH). exists js'. cbn. unfold poll_ready at 1. rewrite Hx. exact IH.
    + exists js. cbn. unfold poll_ready. rewrite Hx. cbn. by rewrite Hj.
Qed.

Lemma goes_fail to_lowercase f x j f' e items :
  nr_state x = Some j → run_task f j = (f', Err e) → goes to_lowercase f x items f' (Err e).
Proof.
  intros Hx Hj js Hjs. destruct (until_ready_fails f x j f' e js Hx Hj Hjs) as (js' & E).
  exists js'. destruct items as [|ev items]; cbn; by rewrite E.
Qed.

(** Restoring over something fails with the error of the root's first
    system call, and changes nothing at all: the events that follow are not
    acted on. *)
Theorem restore_occupied (to_lowercase : bytes → bytes) (o : RestoreOptions) (f : fs)
    (js : list join_poll) (p : PathBuf) (k : list bytes) (i : inode) (t : node) (evs : list REvent) :
  place f p k → files f !! k = Some i → tree_ok t →
  Forall2 delivers (events_of [] t) evs → Forall (λ j, j ≠ JoinLost) js →
  ∃ js', RestoreOptions_restore to_lowercase o (mk_world f js) (Ok <$> evs) p =
    (mk_world f js', Err (mk_write_error (root_operation t) p (OsError EEXIST))).
Proof.
  intros Hp Hk Hok Hev Hjs. unfold RestoreOptions_restore.
  set (x := new_restorer p (ro_use_case_hack o)).
  assert (∃ m, rename to_lowercase x [] = Ok (m, [])) as [m Hr].
  { subst x. unfold rename. cbn. destruct (ro_use_case_hack o); eauto. }
  cut (goes to_lowercase f x evs f (Err (mk_write_error (root_operation t) p (OsError EEXIST)))).
  { intros Hg. by apply Hg. }
  destruct t as [e c|g|es]; [| |rewrite events_of_dir in Hev].
  all: apply Forall2_cons_inv_l in Hev as (ev & evs' & Hs & _ & ->); inversion Hs; subst.
  - eapply goes_send; [done|unfold start_send; rewrite Hr; reflexivity|].
    eapply goes_fail; [reflexivity|]. cbn.
    destruct (calls_refuse f p k Hp i (file_mode e) DOT Hk) as (_ & _ & ->); [|by apply (bool_decide_unpack _)|]; done.
  - eapply goes_send; [done|unfold start_send; rewrite Hr; reflexivity|].
    eapply goes_fail; [reflexivity|]. cbn. destruct Hok.
    by destruct (calls_refuse f p k Hp i 0 g Hk) as (_ & -> & _).
  - assert (∃ x', start_send to_lowercase x (RStartDirectory []) = Ok x' ∧ nr_state x' = Some (TaskDir p))
      as (x' & Hs' & Hx').
    { unfold start_send. rewrite Hr. cbn. destruct (ro_use_case_hack o); eauto. }
    eapply goes_send; [done|exact Hs'|]. eapply goes_fail; [exact Hx'|]. cbn.
    destruct (calls_refuse f p k Hp i 0 DOT Hk) as (-> & _ & _); [|by apply (bool_decide_unpack _)|]; done.
Qed.

Lemma restore_occupied_witness :
  let p := str "/nix/store" in
  ∃ js', RestoreOptions_restore ascii_lower (RestoreOptions_new false)
           (mk_world sample_fs [JoinPending]) (Ok <$> [RSymlink [] (str "x")]) p =
    (mk_world sample_fs js', Err (mk_write_error CreateSymlink p (OsError EEXIST))).
Proof.
  intros p. apply (restore_occupied ascii_lower _ sample_fs [JoinPending] p [str "nix"; str "store"]
    IDir (SymlinkNode (str "x"))).
  - split; [reflexivity|]. split; [by apply (bool_decide_unpack _)|].
    exists [str "nix"], (str "store"). split; [vm_compute; reflexivity|reflexivity].
  - vm_compute. reflexivity.
  - split; by apply (bool_decide_unpack _).
  - repeat constructor.
  - repeat constructor; discriminate.
Defined.

(** ** Names that leave the directory *)

Definition escaping (n : bytes) (e : bool) (c : bytes) : node :=
  DirectoryNode [(DOTDOT ++ SLASH :: n, FileNode e c)].

(** C6. Entry names are used as they come. The events of an archive whose
    root directory has an entry [../n] are restored without an error, and the
    file appears beside the target directory, outside the path the caller
    gave. *)
Theorem restore_escapes (to_lowercase : bytes → bytes) (f : fs) (js : list join_poll)
    (p : PathBuf) (d : list bytes) (l n : bytes) (e : bool) (c : bytes) (evs : list REvent) :
  place f p (d ++ [l]) → absent f (d ++ [l]) → name_ok n → n ≠ l → files f !! (d ++ [n]) = None →
  Forall2 delivers (events_of [] (escaping n e c)) evs → Forall (λ j, j ≠ JoinLost) js →
  ∃ w', RestoreOptions_restore to_lowercase (RestoreOptions_new false) (mk_world f js) (Ok <$> evs) p = (w', Ok tt) ∧
    files (disk w') !! (d ++ [n]) = Some (IFile (Z.land (file_mode e) (Z.lnot (umask f))) c) ∧
    ¬ (d ++ [l]) `prefix_of` (d ++ [n]).
Proof.
  intros Hp Ha Hn Hnl Hd Hev Hjs.
  pose proof (Ha []) as Hk. rewrite app_nil_r in Hk.
  assert (d ++ [l] ≠ d ++ [n]) as Hne by (intros E; simplify_eq).
  cbn in Hev. apply Forall2_cons_inv_l in Hev as (ev & evs' & Hs & Hev & ->). inversion Hs; subst.
  apply Forall2_cons_inv_l in Hev as (ev & evs2 & Hs2 & Hev & ->).
  inversion Hs2 as [? ? ? chunks Hc Hch| | |]; subst.
  apply Forall2_cons_inv_l in Hev as (ev & evs3 & Hs3 & Hev & ->). inversion Hs3; subst.
  apply Forall2_nil_inv_l in Hev as ->.
  set (f1 := with_files f (<[d ++ [l] := IDir]> (files f))).
  assert (place f1 (path_join p (DOTDOT ++ SLASH :: n)) (d ++ [n])) as Hp1.
  { apply (place_up f1 p d l n); [|apply lookup_insert_eq|done].
    apply (place_mono f); [by apply insert_subseteq|reflexivity|exact Hp]. }
  pose proof (run_task_leaf f1 _ _ (FileNode e (concat chunks)) Hp1) as Hrun.
  assert (goes to_lowercase f (new_restorer p false)
    [RStartDirectory []; RFile (DOTDOT ++ SLASH :: n) e (Z.of_nat (length (concat chunks))) (Ok <$> chunks);
     REndDirectory] (with_files f1 (graft (umask f1) (d ++ [n]) (FileNode e (concat chunks)) (files f1))) (Ok tt)) as Hg.
  { eapply goes_send; [done|reflexivity|].
    eapply goes_task; [reflexivity|cbn; by rewrite (create_dir_new f p (d ++ [l]))|].
    eapply goes_send; [done|reflexivity|].
    eapply goes_task; [reflexivity|apply Hrun; [cbn; by rewrite lookup_insert_ne|done..]|].
    eapply goes_send; [done|reflexivity|]. by apply goes_done. }
  destruct (Hg js Hjs) as (js' & E). eexists. split; [exact E|]. cbn.
  split; [apply lookup_insert_eq|]. intros Hpre%prefix_app_inv.
  by apply prefix_cons_inv_1 in Hpre.
Qed.

Lemma restore_escapes_witness :
  let p := path_join (str "/nix/store") (str "out") in
  ∃ w', RestoreOptions_restore ascii_lower (RestoreOptions_new false) (mk_world sample_fs [])
          (Ok <$> [RStartDirectory []; RFile (str "../evil") true 2 [Ok (str "#!")]; REndDirectory]) p = (w', Ok tt) ∧
    files (disk w') !! [str "nix"; str "store"; str "evil"] = Some (IFile 493 (str "#!")) ∧
    ¬ [str "nix"; str "store"; str "out"] `prefix_of` [str "nix"; str "store"; str "evil"].
Proof.
  intros p. apply (restore_escapes ascii_lower sample_fs [] p [str "nix"; str "store"] (str "out")
    (str "evil") true (str "#!")).
  - apply sample_place. by apply (bool_decide_unpack _).
  - apply sample_absent.
  - by apply (bool_decide_unpack _).
  - discriminate.
  - reflexivity.
  - constructor; [constructor|]. constructor.
    { by apply (delivers_file _ _ (str "#!") [str "#!"]); repeat constructor. }
    repeat constructor.
  - constructor.
Defined.
