(* ===== verification/Dump.v ===== *)
(** Walking a file tree as an archive's events
    ([harmonia-nar/src/archive/dumper.rs]): [NarDumper], which takes the
    entries of a [walkdir] walk in chunks from a blocking task and turns them
    into events, [DumpedFile], the lazy reader of a file behind a semaphore,
    and [MappedFile] ([harmonia-nar/src/archive/mmap.rs]). The walk itself is
    [walkdir]'s and a parameter. *)

From stdpp Require Import base list numbers strings gmap.
From Stdlib Require Import ZArith Lia Strings.Byte.
From S2P Require Import Prelude Async NarTree NarWriter FileSystem CaseHack Restore.

(** ** The order of siblings *)

Definition sort_case_hack (left_file_name right_file_name : bytes) : comparison :=
  bytes_cmp (default left_file_name (remove_case_hack_osstr left_file_name))
    (default right_file_name (remove_case_hack_osstr right_file_name)).

(** ** Reading a file *)

Definition SMALL_FILE_THRESHOLD : Z := 256 * 1024.

Inductive FileData : Type := InMemory (v : bytes) | Mapped (m : bytes).

Definition as_slice (d : FileData) : bytes := match d with InMemory v => v | Mapped m => m end.

(** [MappedFile::open]. A file that is shorter than its metadata said would
    fault when the mapping is read. *)
Definition MappedFile_open (f : fs) (path : PathBuf) (size : Z) : res io_error bytes :=
  if decide (size = 0)%Z then Ok [] else
  c ← read f path;
  if decide (size ≤ Z.of_nat (length c))%Z then Ok (take (Z.to_nat size) c) else Panic.

(** The semaphore that bounds the open files. *)
Record semaphore : Type := mk_sem { permits : nat; closed : bool }.

Inductive DumpedFile : Type :=
| WaitPermit (path : PathBuf) (size : Z)
| OpenFile (path : PathBuf) (size : Z)
| Reading (data : FileData) (offset : nat)
| FileEof.

Definition DumpedFile_new (path : PathBuf) (size : Z) : DumpedFile := WaitPermit path size.

(** The blocking task of an open file. *)
Definition load (f : fs) (path : PathBuf) (size : Z) : res io_error FileData :=
  if decide (size ≤ SMALL_FILE_THRESHOLD)%Z then InMemory <$> read f path
  else Mapped <$> MappedFile_open f path size.

Definition release (sm : semaphore) : semaphore := mk_sem (S (permits sm)) (closed sm).

(** [AsyncRead::poll_read] with [room] bytes of buffer. The permit goes with
    the state: a file that fails or ends gives it back. The loop goes through
    each state at most once. *)
Fixpoint file_poll_read (fuel : nat) (w : world) (sm : semaphore) (x : DumpedFile) (room : nat)
    : world * semaphore * DumpedFile * polled bytes :=
  match fuel with
  | O => (w, sm, x, Pending)
  | S fuel =>
      match x with
      | WaitPermit path size =>
          if closed sm then (w, sm, FileEof, Ready (Err (BrokenPipe "semaphore closed")))
          else match permits sm with
               | O => (w, sm, x, Pending)
               | S n => file_poll_read fuel w (mk_sem n (closed sm)) (OpenFile path size) room
               end
      | OpenFile path size =>
          let '(js, p) := poll_join (joins w) in
          let w := mk_world (disk w) js in
          match p with
          | JoinPending => (w, sm, x, Pending)
          | JoinLost => (w, release sm, FileEof, Ready (Err (BrokenPipe "spawned task failed")))
          | JoinDone =>
              match load (disk w) path size with
              | Ok data => file_poll_read fuel w sm (Reading data 0) room
              | Err e => (w, release sm, FileEof, Ready (Err e))
              | Panic => (w, release sm, FileEof, Ready Panic)
              end
          end
      | Reading data offset =>
          match drop offset (as_slice data) with
          | [] => (w, release sm, FileEof, Ready (Ok []))
          | remaining =>
              (w, sm, Reading data (offset + Nat.min (length remaining) room),
               Ready (Ok (take room remaining)))
          end
      | FileEof => (w, sm, FileEof, Ready (Ok []))
      end
  end.

Definition FILE_STATES : nat := 3.

Definition poll_read (w : world) (sm : semaphore) (x : DumpedFile) (room : nat) :=
  file_poll_read FILE_STATES w sm x room.

(** ** Entries *)

Inductive Entry : Type :=
| EntFile (path : PathBuf) (size : Z) (executable : bool)
| EntSymlink (path target : PathBuf)
| EntDirectory (path : PathBuf).

Definition Entry_path (e : Entry) : PathBuf :=
  match e with EntFile path _ _ => path | EntSymlink path _ => path | EntDirectory path => path end.

(** What [walkdir]'s iterator has left to give. *)
Abbreviation walker := (list (res io_error PathBuf)).

Inductive State : Type :=
| Idle (buf : list (res io_error Entry)) (iter : walker) (remain : bool)
| Pend (buf : list (res io_error Entry)) (iter : walker).

Definition CHUNK_SIZE : nat := 25.

Definition stat_entry (f : fs) (r : res io_error PathBuf) : res io_error Entry :=
  path ← r;
  m ← lstat f path;
  match m with
  | IDir => Ok (EntDirectory path)
  | IFile mode c => Ok (EntFile path (Z.of_nat (length c)) (bool_decide (Z.land mode 64 = 64%Z)))
  | ISymlink _ => target ← read_link f path; Ok (EntSymlink path target)
  | ISpecial => Err (Other "unsupported file type")
  end.

(** [State::next_chunk], [n] rounds of its loop. *)
Fixpoint next_chunk (f : fs) (n : nat) (buf : list (res io_error Entry)) (iter : walker)
    : list (res io_error Entry) * walker * bool :=
  match n with
  | O => (buf, iter, true)
  | S n =>
      match iter with
      | [] => (buf, [], false)
      | r :: iter => next_chunk f n (buf ++ [stat_entry f r]) iter
      end
  end.

(** [State::poll_next]: at most an empty buffer, its task, the new buffer. *)
Fixpoint state_poll_next (fuel : nat) (w : world) (s : State)
    : world * State * poll (option (res io_error Entry)) :=
  match fuel with
  | O => (w, s, Pending)
  | S fuel =>
      match s with
      | Idle (e :: buf) iter remain => (w, Idle buf iter remain, Ready (Some e))
      | Idle [] iter remain =>
          if remain then state_poll_next fuel w (Pend [] iter) else (w, s, Ready None)
      | Pend buf iter =>
          let '(js, p) := poll_join (joins w) in
          let w := mk_world (disk w) js in
          match p with
          | JoinPending => (w, s, Pending)
          | JoinLost => (w, s, Ready (Some (Err (Other "task failed"))))
          | JoinDone =>
              let '(buf, iter, remain) := next_chunk (disk w) CHUNK_SIZE buf iter in
              state_poll_next fuel w (Idle buf iter remain)
          end
      end
  end.

Definition STATE_STEPS : nat := 3.

(** ** The dumper *)

Record NarDumper : Type := mk_dumper {
  nd_state : State;
  nd_next : option Entry;
  nd_level : Z;
  nd_dir : PathBuf;
  nd_use_case_hack : bool
}.

Inductive DumpEvent : Type :=
| DFile (name : bytes) (executable : bool) (size : Z) (reader : DumpedFile)
| DSymlink (name target : bytes)
| DStartDirectory (name : bytes)
| DEndDirectory.

Abbreviation dump_result := (poll (option (res io_error DumpEvent))).

(** [self.dir.pop(); self.level -= 1; return EndDirectory]. *)
Definition end_directory (d : NarDumper) : NarDumper * dump_result :=
  if decide (0 < nd_level d)%Z
  then (mk_dumper (nd_state d) (nd_next d) (nd_level d - 1) (path_pop (nd_dir d)) (nd_use_case_hack d),
        Ready (Some (Ok DEndDirectory)))
  else (d, Ready (Some Panic)).

(** The name of an entry: none for the root. *)
Definition event_name (d : NarDumper) (e : Entry) : res io_error bytes :=
  if decide (0 < nd_level d)%Z then
    match file_name (Entry_path e) with
    | Some n => Ok (if nd_use_case_hack d then remove_case_hack n else n)
    | None => Panic
    end
  else Ok [].

(** The event of an entry taken from [next]. *)
Definition emit (d : NarDumper) (e : Entry) : NarDumper * dump_result :=
  let taken := mk_dumper (nd_state d) None (nd_level d) (nd_dir d) (nd_use_case_hack d) in
  match event_name d e with
  | Ok name =>
      match e with
      | EntDirectory path =>
          if decide (nd_level d < u32_max)%Z
          then (mk_dumper (nd_state d) None (nd_level d + 1) path (nd_use_case_hack d),
                Ready (Some (Ok (DStartDirectory name))))
          else (taken, Ready (Some Panic))
      | EntFile path size executable =>
          (taken, Ready (Some (Ok (DFile name executable size (DumpedFile_new path size)))))
      | EntSymlink _ target => (taken, Ready (Some (Ok (DSymlink name target))))
      end
  | Err e => (taken, Ready (Some (Err e)))
  | Panic => (taken, Ready (Some Panic))
  end.

(** [Stream::poll_next]: at most one new entry is taken on the way. *)
Fixpoint dumper_poll_next (fuel : nat) (w : world) (d : NarDumper) : world * NarDumper * dump_result :=
  match fuel with
  | O => (w, d, Pending)
  | S fuel =>
      match nd_next d with
      | Some e =>
          if starts_with (Entry_path e) (nd_dir d)
          then let '(d, r) := emit d e in (w, d, r)
          else let '(d, r) := end_directory d in (w, d, r)
      | None =>
          let '(w, s, r) := state_poll_next STATE_STEPS w (nd_state d) in
          let d := mk_dumper s None (nd_level d) (nd_dir d) (nd_use_case_hack d) in
          match r with
          | Pending => (w, d, Pending)
          | Ready (Some (Ok e)) =>
              dumper_poll_next fuel w
                (mk_dumper s (Some e) (nd_level d) (nd_dir d) (nd_use_case_hack d))
          | Ready (Some (Err e)) => (w, d, Ready (Some (Err e)))
          | Ready (Some Panic) => (w, d, Ready (Some Panic))
          | Ready None =>
              if decide (0 < nd_level d)%Z
              then let '(d, r) := end_directory d in (w, d, r)
              else (w, d, Ready None)
          end
      end
  end.

Definition DUMPER_STEPS : nat := 2.
Definition poll_next (w : world) (d : NarDumper) := dumper_poll_next DUMPER_STEPS w d.

(** ** Options *)

Record DumpOptions : Type := mk_dump_options { do_use_case_hack : bool; do_max_open_files : nat }.

Definition OPEN_FILES : nat := 100.

Definition DumpOptions_new (macos : bool) : DumpOptions := mk_dump_options macos OPEN_FILES.
Definition DumpOptions_use_case_hack (o : DumpOptions) (b : bool) : DumpOptions :=
  mk_dump_options b (do_max_open_files o).
Definition DumpOptions_max_open_files (o : DumpOptions) (n : nat) : DumpOptions :=
  mk_dump_options (do_use_case_hack o) n.

Section walk.
(** [walkdir]: the entries below a path, links not followed, siblings in the
    given order. *)
Context (walk : fs → (bytes → bytes → comparison) → PathBuf → walker).

Definition DumpOptions_dump (o : DumpOptions) (f : fs) (root : PathBuf) : NarDumper * semaphore :=
  let iter := walk f (if do_use_case_hack o then sort_case_hack else bytes_cmp) root in
  (mk_dumper (Idle [] iter true) None 0 root (do_use_case_hack o), mk_sem (do_max_open_files o) false).

Definition dump (macos : bool) := DumpOptions_dump (DumpOptions_new macos).

Definition with_max_open_files (macos : bool) (f : fs) (root : PathBuf) (max_open_files : nat) :=
  DumpOptions_dump (DumpOptions_max_open_files (DumpOptions_new macos) max_open_files) f root.

Definition NarDumper_new (macos : bool) (f : fs) (root : PathBuf) :=
  with_max_open_files macos f root OPEN_FILES.
End walk.

(** ** Collecting *)

(** The room of a [BufReader]. *)
Definition BUF_SIZE : nat := Z.to_nat 8192.

(** Reading a file to its end: the pieces it gives with the given rooms, then
    with [BUF_SIZE]. *)
Fixpoint read_to_end (fuel : nat) (rooms : list nat) (w : world) (sm : semaphore) (x : DumpedFile)
    (acc : list bytes) : world * semaphore * res io_error (list bytes) :=
  match fuel with
  | O => (w, sm, Panic)
  | S fuel =>
      match poll_read w sm x (default BUF_SIZE (head rooms)) with
      | (w, sm, x, Pending) => read_to_end fuel rooms w sm x acc
      | (w, sm, _, Ready (Ok [])) => (w, sm, Ok (rev acc))
      | (w, sm, x, Ready (Ok c)) => read_to_end fuel (tail rooms) w sm x (c :: acc)
      | (w, sm, _, Ready (Err e)) => (w, sm, Err e)
      | (w, sm, _, Ready Panic) => (w, sm, Panic)
      end
  end.

(** [NarEvent::read_file]: the event with its file read. *)
Definition read_file (fuel : nat) (rooms : list nat) (w : world) (sm : semaphore) (ev : DumpEvent)
    : world * semaphore * res io_error WEvent :=
  match ev with
  | DFile name executable size reader =>
      let '(w, sm, r) := read_to_end fuel rooms w sm reader [] in
      (w, sm, WFile name executable size <$> r)
  | DSymlink name target => (w, sm, Ok (WSymlink name target))
  | DStartDirectory name => (w, sm, Ok (WStartDirectory name))
  | DEndDirectory => (w, sm, Ok WEndDirectory)
  end.

(** [dump(path).and_then(read_file).try_collect()]. *)
Fixpoint dump_collect (fuel rfuel : nat) (rooms : list nat) (w : world) (sm : semaphore) (d : NarDumper)
    (acc : list WEvent) : world * semaphore * res io_error (list WEvent) :=
  match fuel with
  | O => (w, sm, Panic)
  | S fuel =>
      match poll_next w d with
      | (w, d, Pending) => dump_collect fuel rfuel rooms w sm d acc
      | (w, d, Ready None) => (w, sm, Ok (rev acc))
      | (w, d, Ready (Some (Ok ev))) =>
          match read_file rfuel rooms w sm ev with
          | (w, sm, Ok ev) => dump_collect fuel rfuel rooms w sm d (ev :: acc)
          | (w, sm, Err e) => (w, sm, Err e)
          | (w, sm, Panic) => (w, sm, Panic)
          end
      | (w, d, Ready (Some (Err e))) => (w, sm, Err e)
      | (w, d, Ready (Some Panic)) => (w, sm, Panic)
      end
  end.
