(* ===== verification/DumpSpec.v ===== *)
(** Dumping, specified: over a walk that lists a tree in order, the dumper
    gives exactly the tree's events, each file with its contents, whatever
    the timing of the blocking tasks and the sizes of the reads, and every
    permit it took is back at the end. *)

From stdpp Require Import base list numbers strings gmap sorting.
From Stdlib Require Import ZArith Lia Strings.Byte.
From S2P Require Import Prelude Async NarTree NarWriter FileSystem CaseHack Restore RestoreSpec Dump.

Abbreviation never_lost := (Forall (λ j, j ≠ JoinLost)).

(** ** Reading a file *)

Lemma load_place f p k m c :
  place f p k → files f !! k = Some (IFile m c) →
  ∃ data, load f p (Z.of_nat (length c)) = Ok data ∧ as_slice data = c.
Proof.
  intros Hp Hk. unfold load, MappedFile_open. rewrite (read_place f p k Hp m c Hk).
  case_decide; [by eexists|]. case_decide as H0.
  - exists (Mapped []). split; [done|]. by destruct c.
  - cbn. rewrite decide_True by done. eexists. split; [done|]. cbn.
    apply take_ge. lia.
Qed.

Lemma read_loaded data : ∀ fuel rooms w sm off acc,
  Forall (λ n, 0 < n) rooms → length (as_slice data) - off < fuel →
  ∃ chunks, read_to_end fuel rooms w sm (Reading data off) acc = (w, release sm, Ok (rev acc ++ chunks)) ∧
    concat chunks = drop off (as_slice data) ∧ Forall (λ b, b ≠ []) chunks.
Proof.
  induction fuel as [|fuel IH]; intros rooms w sm off acc Hr Hf; [lia|].
  cbn [read_to_end poll_read]. unfold poll_read, FILE_STATES. cbn [file_poll_read].
  destruct (drop off (as_slice data)) as [|b l] eqn:E.
  { exists []. by rewrite app_nil_r. }
  assert (0 < default BUF_SIZE (head rooms)) as Hroom.
  { destruct Hr as [|n rooms Hn _]; [vm_compute; lia|done]. }
  set (room := default BUF_SIZE (head rooms)) in *.
  assert (length (as_slice data) - off = S (length l)) as Hl
    by (rewrite <-length_drop, E; done).
  destruct (take room (b :: l)) as [|b' c] eqn:Et; [destruct room; [lia|done]|].
  destruct (IH (tail rooms) w sm (off + Nat.min (length (b :: l)) room) ((b' :: c) :: acc))
    as (chunks & Hrun & Hc & Hne); [by destruct Hr|cbn [length]; lia|].
  exists ((b' :: c) :: chunks). rewrite Hrun. split; [cbn; by rewrite <-app_assoc|].
  split; [|by constructor]. cbn [concat]. rewrite Hc, <-Et, <-drop_drop, E.
  destruct (decide (room ≤ length (b :: l))).
  - rewrite Nat.min_r by lia. apply take_drop.
  - rewrite Nat.min_l by lia. rewrite drop_all, app_nil_r. apply take_ge. lia.
Qed.

Lemma read_opened f p size data js : never_lost js → load f p size = Ok data →
  ∀ fuel rooms sm acc, Forall (λ n, 0 < n) rooms → length (as_slice data) + length js < fuel →
  ∃ js' chunks, read_to_end fuel rooms (mk_world f js) sm (OpenFile p size) acc =
      (mk_world f js', release sm, Ok (rev acc ++ chunks)) ∧
    never_lost js' ∧ length js' ≤ length js ∧
    concat chunks = as_slice data ∧ Forall (λ b, b ≠ []) chunks.
Proof.
  intros Hjs Hload. induction Hjs as [|j js Hj Hjs IH]; intros fuel rooms sm acc Hr Hf.
  all: destruct fuel as [|fuel]; [cbn in Hf; lia|].
  - destruct (read_loaded data (S fuel) rooms (mk_world f []) sm 0 acc) as (chunks & Hrun & Hc & Hne);
      [done|cbn in Hf; lia|].
    exists [], chunks. rewrite drop_0 in Hc. rewrite <-Hrun. split; [|done].
    cbn [read_to_end]. unfold poll_read, FILE_STATES. cbn. by rewrite Hload.
  - destruct j; [| |done].
    + destruct (IH fuel rooms sm acc) as (js' & chunks & Hrun & ? & ? & ?); [done|cbn in Hf; lia|].
      exists js', chunks. rewrite <-Hrun. cbn [length]. split; [done|]. split; [done|]. split; [lia|done].
    + destruct (read_loaded data (S fuel) rooms (mk_world f js) sm 0 acc) as (chunks & Hrun & Hc & Hne);
        [done|cbn in Hf; lia|].
      exists js, chunks. rewrite drop_0 in Hc. rewrite <-Hrun.
      split; [|split; [done|split; [cbn; lia|done]]].
      cbn [read_to_end]. unfold poll_read, FILE_STATES. cbn. by rewrite Hload.
Qed.

(** A file is read whole, and its permit comes back. *)
Lemma read_whole f p k m c js sm fuel rooms :
  place f p k → files f !! k = Some (IFile m c) → never_lost js →
  Forall (λ n, 0 < n) rooms → 0 < permits sm → closed sm = false → length c + length js < fuel →
  ∃ js' chunks, read_to_end fuel rooms (mk_world f js) sm (DumpedFile_new p (Z.of_nat (length c))) [] =
      (mk_world f js', sm, Ok chunks) ∧
    never_lost js' ∧ length js' ≤ length js ∧ concat chunks = c ∧ Forall (λ b, b ≠ []) chunks.
Proof.
  intros Hp Hk Hjs Hr Hn Hcl Hf. destruct (load_place f p k m c Hp Hk) as (data & Hload & <-).
  destruct sm as [[|n] cl]; cbn in Hn, Hcl; [lia|]. subst cl.
  destruct (read_opened f p _ data js Hjs Hload fuel rooms (mk_sem n false) [] Hr Hf)
    as (js' & chunks & Hrun & ?). exists js', chunks. split; [|done].
  change (mk_sem (S n) false) with (release (mk_sem n false)). cbn in Hrun. rewrite <-Hrun.
  destruct fuel as [|fuel]; [lia|]. cbn [read_to_end]. unfold poll_read, FILE_STATES.
  cbn [file_poll_read DumpedFile_new closed permits release].
  destruct Hjs as [|[] js Hj Hjs]; cbn; rewrite ?Hload; try done.
Qed.

(** ** The entries still to come *)

Definition coming (f : fs) (s : State) : list (res io_error Entry) :=
  match s with
  | Idle buf iter _ => buf ++ (stat_entry f <$> iter)
  | Pend buf iter => buf ++ (stat_entry f <$> iter)
  end.

Definition state_ok (s : State) : Prop :=
  match s with Idle _ iter false => iter = [] | _ => True end.

Lemma next_chunk_spec f n : ∀ buf iter buf' iter' remain,
  next_chunk f n buf iter = (buf', iter', remain) →
  buf' ++ (stat_entry f <$> iter') = buf ++ (stat_entry f <$> iter) ∧
  (remain = false → iter' = []) ∧ (0 < n → remain = true → buf' ≠ []).
Proof.
  induction n as [|n IH]; intros buf iter buf' iter' remain; cbn.
  { intros [= <- <- <-]. split; [done|]. split; [done|lia]. }
  destruct iter as [|r iter]; [by intros [= <- <- <-]|].
  intros H. pose proof H as (E & Hf & Hn)%IH. rewrite E. split; [by rewrite <-app_assoc|].
  split; [done|]. intros _ Hr. destruct n as [|n]; [|apply Hn; [lia|done]].
  injection H as <- <- <-. by destruct buf.
Qed.

Lemma state_poll_next_spec f js s w' s' r :
  state_ok s → never_lost js → state_poll_next STATE_STEPS (mk_world f js) s = (w', s', r) →
  state_ok s' ∧ disk w' = f ∧ never_lost (joins w') ∧ length (joins w') ≤ length js ∧
  match r with
  | Pending => coming f s' = coming f s ∧ length (joins w') < length js
  | Ready (Some e) => coming f s = e :: coming f s'
  | Ready None => coming f s = [] ∧ coming f s' = []
  end.
Proof.
  intros Hs Hjs.
  assert (∀ fuel buf iter, 0 < fuel → state_poll_next (S fuel) (mk_world f js) (Pend buf iter) = (w', s', r) →
    state_ok s' ∧ disk w' = f ∧ never_lost (joins w') ∧ length (joins w') ≤ length js ∧
    match r with
    | Pending => coming f s' = buf ++ (stat_entry f <$> iter) ∧ length (joins w') < length js
    | Ready (Some e) => buf ++ (stat_entry f <$> iter) = e :: coming f s'
    | Ready None => buf ++ (stat_entry f <$> iter) = [] ∧ coming f s' = []
    end) as Hpend.
  { intros fuel buf iter Hfuel. destruct fuel as [|fuel]; [lia|]. cbn [state_poll_next joins disk].
    assert (∀ js' p, poll_join js = (js', p) →
      never_lost js' ∧ length js' ≤ length js ∧ p ≠ JoinLost ∧ (p = JoinPending → length js' < length js)) as Hp.
    { intros js' p. destruct Hjs as [|j js0 Hj Hjs0]; cbn; intros [= <- <-]; repeat split; try done; lia. }
    destruct (poll_join js) as [js' p]. destruct (Hp js' p eq_refl) as (Hl & Hle & Hne & Hlt).
    destruct p; [| |done].
    { intros [= <- <- <-]. cbn. auto 10. }
    destruct (next_chunk f CHUNK_SIZE buf iter) as [[buf' iter'] remain] eqn:E.
    apply next_chunk_spec in E as (E & Hrem & Hbuf).
    destruct buf' as [|e buf'].
    - destruct remain; [exfalso; apply Hbuf; [vm_compute; lia|done..]|].
      rewrite (Hrem eq_refl) in *. intros [= <- <- <-]. cbn in *. by rewrite <-E.
    - intros [= <- <- <-]. cbn. rewrite <-E. split; [|auto].
      destruct remain; [done|]. by apply Hrem. }
  unfold STATE_STEPS. destruct s as [[|e buf] iter remain|buf iter].
  - destruct remain.
    + intros H. apply (Hpend 1 [] iter); [lia|exact H].
    + cbn in Hs. subst iter. intros [= <- <- <-]. cbn. auto 10.
  - intros [= <- <- <-]. cbn in *. auto 10.
  - intros H. apply (Hpend 2 buf iter); [lia|exact H].
Qed.

(** ** One event *)

(** The dumper in directory [dir] at [level] with the entries [es] to come. *)
Definition stands (f : fs) (d : NarDumper) (dir : PathBuf) (level : Z) (hack : bool) (es : list Entry) : Prop :=
  nd_dir d = dir ∧ nd_level d = level ∧ nd_use_case_hack d = hack ∧ state_ok (nd_state d) ∧
  (Ok <$> match nd_next d with Some e => [e] | None => [] end) ++ coming f (nd_state d) = Ok <$> es.

(** The event that comes next, and where the dumper stands after it. *)
Definition step (dir : PathBuf) (level : Z) (hack : bool) (es : list Entry)
    : option (res io_error DumpEvent) * (PathBuf * Z * list Entry) :=
  let last := (Some (Ok DEndDirectory), (path_pop dir, (level - 1)%Z, es)) in
  match es with
  | [] => if decide (0 < level)%Z then last else (None, (dir, level, []))
  | e :: es =>
      if starts_with (Entry_path e) dir then
        let name := if decide (0 < level)%Z
                    then (λ n, if hack then remove_case_hack n else n) <$> file_name (Entry_path e)
                    else Some [] in
        match name, e with
        | None, _ => (Some Panic, (dir, level, es))
        | Some n, EntDirectory p =>
            if decide (level < u32_max)%Z then (Some (Ok (DStartDirectory n)), (p, (level + 1)%Z, es))
            else (Some Panic, (dir, level, es))
        | Some n, EntFile p size x => (Some (Ok (DFile n x size (DumpedFile_new p size))), (dir, level, es))
        | Some n, EntSymlink _ g => (Some (Ok (DSymlink n g)), (dir, level, es))
        end
      else if decide (0 < level)%Z then last else (Some Panic, (dir, level, e :: es))
  end.

Lemma stands_step f d dir level hack es d' r :
  stands f d dir level hack es → es ≠ [] → nd_next d ≠ None →
  dumper_poll_next 1 (mk_world f []) d = (mk_world f [], d', r) →
  ∃ x dir' level' es', step dir level hack es = (x, (dir', level', es')) ∧ r = Ready x ∧
    (∀ ev, x = Some (Ok ev) → stands f d' dir' level' hack es').
Proof.
  intros (<- & <- & <- & Hs & E) _ Hn. cbn [dumper_poll_next].
  destruct (nd_next d) as [e|] eqn:En; [|done]. cbn in E. destruct es as [|e' es]; [done|].
  injection E as <- E. cbn [step]. destruct (starts_with (Entry_path e) (nd_dir d)).
  - unfold emit, event_name. case_decide as Hl; cbn.
    1: destruct (file_name (Entry_path e)); cbn.
    2: { intros [= <- <-]. do 4 eexists. done. }
    all: destruct e; try case_decide; intros [= <- <-];
      do 4 eexists; (split; [reflexivity|]); (split; [reflexivity|]); intros ev Hev; try done;
      repeat split; try done.
  - unfold end_directory. case_decide as Hl; intros [= <- <-];
      do 4 eexists; (split; [reflexivity|]); (split; [reflexivity|]); intros ev Hev; try done.
    repeat split; try done. cbn. rewrite En. cbn. by f_equal.
Qed.

Lemma next_known fuel w d : nd_next d ≠ None →
  dumper_poll_next (S fuel) w d = (w, (dumper_poll_next 1 (mk_world (disk w) []) d).1.2,
    (dumper_poll_next 1 (mk_world (disk w) []) d).2).
Proof.
  intros Hn. cbn [dumper_poll_next]. destruct (nd_next d) as [e|]; [|done].
  destruct (starts_with _ _); [destruct (emit d e)|destruct (end_directory d)]; done.
Qed.

Lemma dumper_next_spec f js d dir level hack es w' d' r :
  stands f d dir level hack es → never_lost js → poll_next (mk_world f js) d = (w', d', r) →
  disk w' = f ∧ never_lost (joins w') ∧ length (joins w') ≤ length js ∧
  match r with
  | Pending => stands f d' dir level hack es ∧ length (joins w') < length js
  | Ready x => ∃ dir' level' es', step dir level hack es = (x, (dir', level', es')) ∧
      (∀ ev, x = Some (Ok ev) → stands f d' dir' level' hack es')
  end.
Proof.
  intros Hst Hjs. unfold poll_next, DUMPER_STEPS.
  assert (∀ fuel w1 d1, stands f d1 dir level hack es → disk w1 = f → never_lost (joins w1) →
    length (joins w1) ≤ length js → nd_next d1 ≠ None →
    dumper_poll_next (S fuel) w1 d1 = (w', d', r) →
    disk w' = f ∧ never_lost (joins w') ∧ length (joins w') ≤ length js ∧
    match r with
    | Pending => stands f d' dir level hack es ∧ length (joins w') < length js
    | Ready x => ∃ dir' level' es', step dir level hack es = (x, (dir', level', es')) ∧
        (∀ ev, x = Some (Ok ev) → stands f d' dir' level' hack es')
    end) as Hknown.
  { intros fuel w1 d1 Hst1 Hd Hj Hl Hn. rewrite next_known by done. rewrite Hd.
    destruct (dumper_poll_next 1 (mk_world f []) d1) as [[w2 d2] r2] eqn:E2.
    assert (w2 = mk_world f []) as ->.
    { pose proof (next_known 0 (mk_world f []) d1 Hn) as Hw. apply (f_equal (λ x, x.1.1)) in Hw.
      rewrite E2 in Hw. exact Hw. }
    intros [= <- <- <-].
    destruct (stands_step f d1 dir level hack es d2 r2 Hst1) as (x & dir' & level' & es' & Hstep & -> & Hst2);
      [|done|exact E2|by eauto 10].
    intros ->. destruct Hst1 as (_ & _ & _ & _ & E). by destruct (nd_next d1). }
  destruct (nd_next d) as [e|] eqn:En.
  { apply (Hknown 1); [done..|]. by rewrite En. }
  cbn [dumper_poll_next]. rewrite En.
  destruct (state_poll_next STATE_STEPS (mk_world f js) (nd_state d)) as [[w1 s1] q] eqn:E.
  destruct Hst as (<- & <- & <- & Hs & Hes). rewrite En in Hes. cbn in Hes.
  apply state_poll_next_spec in E as (Hs1 & Hd & Hj & Hl & Hq); [|done..].
  destruct q as [[e|]|].
  - rewrite Hq in Hes. destruct es as [|e' es]; [done|]. injection Hes as -> Hes.
    apply (Hknown 0); try done. repeat split; try done. cbn. f_equal. exact Hes.
  - destruct Hq as [Hq1 Hq2]. rewrite Hq1 in Hes. symmetry in Hes. apply fmap_nil_inv in Hes as ->.
    cbn [step]. unfold end_directory. cbn [nd_level].
    case_decide; intros [= <- <- <-]; (split; [done|]); (split; [done|]); (split; [done|]);
      do 3 eexists; (split; [reflexivity|]); [|done].
    intros ev _. repeat split; try done.
  - destruct Hq as [Hq Hlt]. intros [= <- <- <-]. repeat split; try done. cbn. by rewrite Hq.
Qed.

(** ** Trees on the file system *)

(** The node [t] is what [i] is; only the owner's execute bit of a mode
    counts. *)
Definition shows (i : inode) (t : node) : Prop :=
  match i, t with
  | IFile m c, FileNode x c' => c = c' ∧ x = bool_decide (Z.land m 64 = 64%Z)
  | ISymlink g, SymlinkNode g' => g = g'
  | IDir, DirectoryNode _ => True
  | _, _ => False
  end.

Definition tree_on (f : fs) (k : list bytes) (t : node) : Prop :=
  ∀ rel, match files f !! (k ++ rel), node_at t rel with
         | Some i, Some u => shows i u
         | None, None => True
         | _, _ => False
         end.

(** The paths of a tree, each directory before its entries. *)
Fixpoint preorder (p : PathBuf) (t : node) : list PathBuf :=
  p :: match t with
       | DirectoryNode es =>
           (fix go (es : list (bytes * node)) : list PathBuf :=
              match es with [] => [] | (n, t) :: es => preorder (path_join p n) t ++ go es end) es
       | _ => []
       end.

Lemma preorder_dir p es :
  preorder p (DirectoryNode es) = p :: concat ((λ e, preorder (path_join p e.1) e.2) <$> es).
Proof. cbn. f_equal. induction es as [|[n t] es IH]; cbn; [done|]. by rewrite IH. Qed.

Definition entry_at (p : PathBuf) (t : node) : Entry :=
  match t with
  | FileNode x c => EntFile p (Z.of_nat (length c)) x
  | SymlinkNode g => EntSymlink p g
  | DirectoryNode _ => EntDirectory p
  end.

Fixpoint entries (p : PathBuf) (t : node) : list Entry :=
  entry_at p t ::
  match t with
  | DirectoryNode es =>
      (fix go (es : list (bytes * node)) : list Entry :=
         match es with [] => [] | (n, t) :: es => entries (path_join p n) t ++ go es end) es
  | _ => []
  end.

Lemma entries_dir p es :
  entries p (DirectoryNode es) = EntDirectory p :: concat ((λ e, entries (path_join p e.1) e.2) <$> es).
Proof. cbn. f_equal. induction es as [|[n t] es IH]; cbn; [done|]. by rewrite IH. Qed.

Lemma tree_on_entry f k es n t :
  tree_on f k (DirectoryNode es) → NoDup es.*1 → (n, t) ∈ es → tree_on f (k ++ [n]) t.
Proof.
  intros Ht Hnd Hin rel. rewrite <-app_assoc. specialize (Ht (n :: rel)). cbn in Ht.
  assert (entry_of n es = Some t) as E; [|by rewrite E in Ht].
  clear Ht. induction es as [|[n' t'] es IH]; [set_solver|]. cbn in *.
  apply NoDup_cons in Hnd as [Hn' Hnd]. apply elem_of_cons in Hin as [[= <- <-]|Hin].
  - by rewrite decide_True.
  - rewrite decide_False; [by apply IH|]. intros ->. apply Hn'. by apply (list_elem_of_fmap_2 fst _ (n, t)).
Qed.

Lemma tree_on_root f k t : tree_on f k t → ∃ i, files f !! k = Some i ∧ shows i t.
Proof.
  intros Ht. specialize (Ht []). rewrite app_nil_r in Ht. cbn in Ht.
  destruct (files f !! k) as [i|]; [by exists i|done].
Qed.

Lemma stat_entry_at f p k t : place f p k → tree_on f k t → stat_entry f (Ok p) = Ok (entry_at p t).
Proof.
  intros Hp (i & Hi & Hs)%tree_on_root. unfold stat_entry, read_link.
  assert (lstat f p = Ok i) as E by (by rewrite (lstat_place f p k Hp), Hi).
  cbn. rewrite E. cbn. destruct i, t; cbn in *; try done.
  - by destruct Hs as [-> ->].
  - by subst.
Qed.

Lemma place_entry f p k es n :
  place f p k → tree_on f k (DirectoryNode es) → name_ok n → place f (path_join p n) (k ++ [n]).
Proof.
  intros Hp (i & Hi & Hs)%tree_on_root Hn. destruct i; try done.
  apply place_join; [|done]. by apply place_dir.
Qed.

(** What the walk's paths turn into. *)
Lemma stat_preorder f t : ∀ p k, place f p k → tree_on f k t → tree_ok t →
  stat_entry f <$> (Ok <$> preorder p t) = Ok <$> entries p t.
Proof.
  induction t as [x c|g|es IH] using node_rect'; intros p k Hp Ht Hok.
  1, 2: cbn [preorder entries fmap list_fmap]; by rewrite (stat_entry_at f p k _ Hp Ht).
  rewrite preorder_dir, entries_dir. cbn [fmap list_fmap].
  rewrite (stat_entry_at f p k _ Hp Ht). cbn [entry_at]. f_equal.
  apply tree_ok_dir in Hok as [Hnd Hok].
  assert (∀ es', es' ⊆ es → Forall (λ e, ∀ p k, place f p k → tree_on f k e.2 → tree_ok e.2 →
            stat_entry f <$> (Ok <$> preorder p e.2) = Ok <$> entries p e.2) es' →
    stat_entry f <$> (Ok <$> concat ((λ e, preorder (path_join p e.1) e.2) <$> es')) =
    Ok <$> concat ((λ e, entries (path_join p e.1) e.2) <$> es')) as H; [|by apply H].
  clear IH. induction es' as [|[n t] es' IHes]; intros Hsub HF; [done|]. cbn.
  apply Forall_cons in HF as [Hn HF]. rewrite !fmap_app.
  assert ((n, t) ∈ es) as Hin by set_solver.
  rewrite Forall_forall in Hok. destruct (Hok _ Hin) as [Hname Htok]. cbn in *.
  rewrite (Hn (path_join p n) (k ++ [n])).
  - f_equal. apply IHes; [set_solver|done].
  - by eapply place_entry.
  - by eapply tree_on_entry.
  - done.
Qed.

(** ** A tree's events *)

(** How deep a tree is, and the length of its largest file. *)
Fixpoint depth (t : node) : nat :=
  match t with
  | DirectoryNode es =>
      S ((fix go (es : list (bytes * node)) : nat :=
            match es with [] => 0 | (_, t) :: es => Nat.max (depth t) (go es) end) es)
  | _ => 0
  end.

Fixpoint largest (t : node) : nat :=
  match t with
  | FileNode _ c => length c
  | SymlinkNode _ => 0
  | DirectoryNode es =>
      (fix go (es : list (bytes * node)) : nat :=
         match es with [] => 0 | (_, t) :: es => Nat.max (largest t) (go es) end) es
  end.

Lemma depth_entry es n t : (n, t) ∈ es → depth t < depth (DirectoryNode es).
Proof.
  cbn. intros Hin. apply Nat.lt_succ_r. induction es as [|[n' t'] es IH]; [set_solver|].
  apply elem_of_cons in Hin as [[= <- <-]|Hin]; [lia|]. specialize (IH Hin). lia.
Qed.

Lemma largest_entry es n t : (n, t) ∈ es → largest t ≤ largest (DirectoryNode es).
Proof.
  cbn. intros Hin. induction es as [|[n' t'] es IH]; [set_solver|].
  apply elem_of_cons in Hin as [[= <- <-]|Hin]; [lia|]. specialize (IH Hin). lia.
Qed.

(** The tree with every name changed. *)
Fixpoint map_names (g : bytes → bytes) (t : node) : node :=
  match t with
  | DirectoryNode es =>
      DirectoryNode ((fix go (es : list (bytes * node)) : list (bytes * node) :=
        match es with [] => [] | (n, t) :: es => (g n, map_names g t) :: go es end) es)
  | t => t
  end.

Lemma map_names_dir g es :
  map_names g (DirectoryNode es) = DirectoryNode ((λ e, (g e.1, map_names g e.2)) <$> es).
Proof. cbn. f_equal. induction es as [|[n t] es IH]; cbn; [done|]. by rewrite IH. Qed.

Section dumping.
Context (f : fs) (hack : bool) (J rfuel : nat) (rooms : list nat) (sm : semaphore).
Context (Hrooms : Forall (λ n, 0 < n) rooms) (Hpermits : 0 < permits sm) (Hopen : closed sm = false).

Definition shown (n : bytes) : bytes := if hack then remove_case_hack n else n.

(** From this state, the rest of the events. *)
Definition yields (dir : PathBuf) (level : Z) (es : list Entry) (evs : list NarEvent) : Prop :=
  ∀ d js acc fuel, stands f d dir level hack es → never_lost js → length js ≤ J →
    length evs + length js < fuel →
    ∃ js' ws, dump_collect fuel rfuel rooms (mk_world f js) sm d acc =
        (mk_world f js', sm, Ok (rev acc ++ ws)) ∧ Forall2 carries evs ws.

Definition reads (ev : DumpEvent) (e : NarEvent) : Prop :=
  ∀ js, never_lost js → length js ≤ J →
    ∃ js' w, read_file rfuel rooms (mk_world f js) sm ev = (mk_world f js', sm, Ok w) ∧
      never_lost js' ∧ length js' ≤ length js ∧ carries e w.

Lemma yields_done dir : yields dir 0 [] [].
Proof.
  intros d js acc fuel. revert d js. induction fuel as [|fuel IH]; intros d js Hst Hjs Hl Hf; [lia|].
  cbn [dump_collect]. destruct (poll_next (mk_world f js) d) as [[w d'] r] eqn:E.
  eapply dumper_next_spec in E as (Hd & Hj & Hle & Hr); [|done..]. destruct w as [f' js']. cbn in *. subst f'.
  destruct r as [x|].
  - destruct Hr as (? & ? & ? & Hstep & _). cbn in Hstep. injection Hstep as <- _ _ _.
    exists js', []. by rewrite app_nil_r.
  - destruct Hr as [Hst' Hlt]. apply IH; [done|done|lia|lia].
Qed.

Lemma yields_step dir level es ev e dir' level' es' evs :
  step dir level hack es = (Some (Ok ev), (dir', level', es')) → reads ev e →
  yields dir' level' es' evs → yields dir level es (e :: evs).
Proof.
  intros Hstep Hread Hy d js acc fuel. revert d js.
  induction fuel as [|fuel IH]; intros d js Hst Hjs Hl Hf; [lia|].
  cbn [dump_collect]. destruct (poll_next (mk_world f js) d) as [[w d'] r] eqn:E.
  eapply dumper_next_spec in E as (Hd & Hj & Hle & Hr); [|done..]. destruct w as [f' js']. cbn in *. subst f'.
  destruct r as [x|].
  - destruct Hr as (? & ? & ? & Hstep' & Hst'). rewrite Hstep in Hstep'. injection Hstep' as <- <- <- <-.
    destruct (Hread js') as (js2 & w & Hrun & Hj2 & Hle2 & Hc); [done|lia|]. rewrite Hrun.
    destruct (Hy d' js2 (w :: acc) fuel) as (js3 & ws & Hrun2 & Hcs); [by eapply Hst'|done|lia|lia|].
    exists js3, (w :: ws). rewrite Hrun2. cbn. rewrite <-app_assoc. by repeat constructor.
  - destruct Hr as [Hst' Hlt]. apply IH; [done|done|lia|lia].
Qed.

Definition outside (rest : list Entry) (p : PathBuf) : Prop :=
  match rest with [] => True | e :: _ => starts_with (Entry_path e) p = false end.

Definition name_at (level : Z) (p : PathBuf) : option bytes :=
  if decide (0 < level)%Z then shown <$> file_name p else Some [].

Definition dumps (t : node) : Prop :=
  ∀ p dir level n rest evs k,
    place f p k → tree_on f k t → tree_ok t → starts_with p dir = true → name_at level p = Some n →
    (0 ≤ level)%Z → (level + Z.of_nat (depth t) ≤ u32_max)%Z → largest t + J < rfuel →
    outside rest p →
    yields (match t with DirectoryNode _ => path_pop p | _ => dir end) level rest evs →
    yields dir level (entries p t ++ rest) (events_of n (map_names shown t) ++ evs).

Lemma dumps_leaf t : (∀ es, t ≠ DirectoryNode es) → dumps t.
Proof.
  intros Hl p dir level n rest evs k Hp Ht _ Hs Hn Hlv _ Hfuel _ Hy. unfold name_at, shown in Hn.
  destruct t as [x c|g|es]; [| |by edestruct Hl]; cbn.
  - eapply yields_step; [cbn [step Entry_path]; rewrite Hs, Hn; reflexivity| |exact Hy].
    apply tree_on_root in Ht as (i & Hi & Hsh). destruct i as [m c'| | |]; try done.
    destruct Hsh as [-> ->]. intros js Hjs HJ. cbn [largest] in Hfuel.
    destruct (read_whole f p k m c js sm rfuel rooms) as (js' & chunks & Hrun & ? & ? & Hc & Hne); try done; [lia|].
    do 2 eexists. cbn [read_file]. rewrite Hrun. cbn. split; [reflexivity|].
    split; [done|]. split; [done|]. by constructor.
  - eapply yields_step; [cbn [step Entry_path]; rewrite Hs, Hn; reflexivity| |exact Hy].
    intros js Hjs HJ. do 2 eexists. cbn. split; [reflexivity|]. split; [done|]. split; [lia|constructor].
Qed.

Lemma reads_plain ev e w : (∀ js, read_file rfuel rooms (mk_world f js) sm ev = (mk_world f js, sm, Ok w)) →
  carries e w → reads ev e.
Proof. intros Hr Hc js Hjs HJ. exists js, w. rewrite Hr. auto. Qed.

(** Paths of siblings. *)
Lemma starts_with_join p n : name_ok n → starts_with (path_join p n) p = true.
Proof.
  intros Hn. apply bool_decide_eq_true. rewrite components_join by done. by apply prefix_app_r.
Qed.

Lemma starts_with_sibling p n m :
  name_ok n → name_ok m → m ≠ n → starts_with (path_join p m) (path_join p n) = false.
Proof.
  intros Hn Hm Hne. apply bool_decide_eq_false. rewrite !components_join by done.
  intros Hp%prefix_app_inv. apply prefix_cons_inv_1 in Hp. congruence.
Qed.

Lemma outside_join rest p n : name_ok n → outside rest p → outside rest (path_join p n).
Proof.
  intros Hn. destruct rest as [|e rest]; [done|]. cbn. intros H%bool_decide_eq_false.
  apply bool_decide_eq_false. rewrite components_join by done. intros Hp. apply H.
  etrans; [|exact Hp]. by apply prefix_app_r.
Qed.

Lemma dumps_entries p k level rest evs all :
  place f p k → tree_on f k (DirectoryNode all) → NoDup all.*1 →
  (0 < level)%Z → (level + Z.of_nat (depth (DirectoryNode all)) ≤ u32_max + 1)%Z →
  largest (DirectoryNode all) + J < rfuel → outside rest p → yields p level rest evs →
  ∀ es, es ⊆ all → NoDup es.*1 → Forall (λ e, dumps e.2) es → Forall (λ e, name_ok e.1 ∧ tree_ok e.2) es →
  yields p level (concat ((λ e, entries (path_join p e.1) e.2) <$> es) ++ rest)
    (concat ((λ e, events_of e.1 e.2) <$> ((λ e, (shown e.1, map_names shown e.2)) <$> es)) ++ evs).
Proof.
  intros Hp Ht Hnda Hlv Hdepth Hfuel Hout Hy.
  induction es as [|[n t] es IHes]; intros Hsub Hnd IH Hok; [done|].
  apply Forall_cons in IH as [IHt IH], Hok as [[Hn Htok] Hok]. apply NoDup_cons in Hnd as [Hnn Hnd].
  cbn in IHt, Hn, Htok, Hnn |- *. rewrite <-!app_assoc.
  assert ((n, t) ∈ all) as Hin by set_solver.
  pose proof (depth_entry _ _ _ Hin). pose proof (largest_entry _ _ _ Hin).
  eapply (IHt _ _ _ _ _ _ (k ++ [n])).
  - by eapply place_entry.
  - by eapply tree_on_entry.
  - done.
  - by apply starts_with_join.
  - unfold name_at. rewrite decide_True by done. by rewrite file_name_join.
  - lia.
  - lia.
  - lia.
  - destruct es as [|[m u] es]; [by apply outside_join|].
    apply Forall_cons in Hok as [[Hm _] _]. cbn in *.
    assert (m ≠ n) by set_solver.
    destruct u; cbn; by apply starts_with_sibling.
  - assert (path_pop (path_join p n) = p) as Hpop.
    { unfold path_pop. rewrite parent_join by done. cbn. by eapply place_tidied. }
    rewrite Hpop. assert (match t with DirectoryNode _ => p | _ => p end = p) as -> by (by destruct t).
    apply IHes; [set_solver|done..].
Qed.

Lemma dumps_all t : dumps t.
Proof.
  induction t as [x c|g|es IH] using node_rect'; [by apply dumps_leaf..|].
  intros p dir level n rest evs k Hp Ht Hok Hs Hn Hlv Hdepth Hfuel Hout Hy.
  apply tree_ok_dir in Hok as [Hnd Hok]. rewrite map_names_dir, entries_dir, events_of_dir.
  cbn [app]. rewrite <-app_assoc. unfold name_at, shown in Hn.
  assert (level < u32_max)%Z as Hlt by (cbn in Hdepth; lia).
  eapply yields_step; [cbn [step Entry_path]; rewrite Hs, Hn, decide_True by done; reflexivity| |].
  { by apply (reads_plain _ _ (WStartDirectory n)); [|constructor]. }
  apply (dumps_entries p k _ rest _ es); try done; [lia..|].
  eapply yields_step; [| |exact Hy].
  - replace level with (level + 1 - 1)%Z at 2 by lia.
    destruct rest as [|e rest]; cbn [step outside] in *; [|rewrite Hout];
      rewrite (decide_True (P := (0 < level + 1)%Z)) by lia; reflexivity.
  - by apply (reads_plain _ _ WEndDirectory); [|constructor].
Qed.
End dumping.
