(* ===== verification/Walk.v ===== *)
(** What the dumper relies on of [walkdir], as a law, and a walker over the
    file system model that keeps it. *)

From stdpp Require Import base list numbers strings gmap sorting.
From Stdlib Require Import ZArith Lia Strings.Byte.
From S2P Require Import Prelude Async NarTree NarWriter FileSystem CaseHack Restore RestoreSpec Dump DumpSpec.

(** ** Orders *)

Definition total_order (cmp : bytes → bytes → comparison) : Prop :=
  (∀ a b, cmp b a = CompOpp (cmp a b)) ∧
  (∀ a b c, cmp a b ≠ Gt → cmp b c ≠ Gt → cmp a c ≠ Gt).

(** Siblings are in strictly ascending order. *)
Fixpoint sorted_by (cmp : bytes → bytes → comparison) (t : node) : Prop :=
  match t with
  | DirectoryNode es =>
      StronglySorted (λ a b, cmp a b = Lt) es.*1 ∧
      (fix go (es : list (bytes * node)) : Prop :=
         match es with [] => True | (_, t) :: es => sorted_by cmp t ∧ go es end) es
  | _ => True
  end.

Lemma sorted_by_dir cmp es :
  sorted_by cmp (DirectoryNode es) ↔
  StronglySorted (λ a b, cmp a b = Lt) es.*1 ∧ Forall (λ e, sorted_by cmp e.2) es.
Proof.
  cbn. f_equiv. induction es as [|[n t] es IH]; cbn; [by rewrite Forall_nil|].
  by rewrite Forall_cons, IH.
Qed.

Lemma bytes_cmp_order : total_order bytes_cmp.
Proof.
  split.
  - intros a b. apply bytes_cmp_antisym.
  - induction a as [|x a IH]; intros [|y b] [|z c]; cbn; try done.
    destruct (Z.compare_spec (byte_to_Z x) (byte_to_Z y)) as [E1|E1|E1]; try done;
      destruct (Z.compare_spec (byte_to_Z y) (byte_to_Z z)) as [E2|E2|E2]; try done;
      destruct (Z.compare_spec (byte_to_Z x) (byte_to_Z z)) as [E3|E3|E3]; try done; try lia.
    apply IH.
Qed.

Lemma sort_case_hack_key a b : sort_case_hack a b = bytes_cmp (remove_case_hack a) (remove_case_hack b).
Proof.
  unfold sort_case_hack, remove_case_hack_osstr, remove_case_hack.
  by destruct (rfind _ a), (rfind _ b).
Qed.

Lemma sort_case_hack_order : total_order sort_case_hack.
Proof.
  destruct bytes_cmp_order as [H1 H2].
  split; intros *; rewrite !sort_case_hack_key; [apply H1|apply H2].
Qed.

(** ** The law *)

(** A walk from a path, not following links, with siblings sorted: every path
    of the tree once, a directory before what is in it. *)
Definition lists_tree (walk : fs → (bytes → bytes → comparison) → PathBuf → walker) : Prop :=
  ∀ f cmp p k t, total_order cmp → place f p k → tree_on f k t → tree_ok t → sorted_by cmp t →
    walk f cmp p = Ok <$> preorder p t.

(** ** A walker *)

Fixpoint strip_path (k k' : list bytes) : option (list bytes) :=
  match k, k' with
  | [], _ => Some k'
  | x :: k, y :: k' => if decide (x = y) then strip_path k k' else None
  | _ :: _, [] => None
  end.

Lemma strip_path_Some k : ∀ k' rel, strip_path k k' = Some rel ↔ k' = k ++ rel.
Proof.
  induction k as [|x k IH]; intros k' rel; cbn; [naive_solver|].
  destruct k' as [|y k']; [naive_solver|]. case_decide as E.
  - subst. rewrite IH. naive_solver.
  - naive_solver.
Qed.

Definition children (f : fs) (k : list bytes) : list bytes :=
  omap (λ kv : list bytes * inode, match strip_path k kv.1 with Some [n] => Some n | _ => None end)
    (map_to_list (files f)).

Definition sort_names (cmp : bytes → bytes → comparison) : list bytes → list bytes :=
  merge_sort (λ a b, cmp a b ≠ Gt).

Fixpoint walk_from (fuel : nat) (f : fs) (cmp : bytes → bytes → comparison) (p : PathBuf) (k : list bytes) : walker :=
  match fuel with
  | O => []
  | S fuel =>
      Ok p :: match files f !! k with
              | Some IDir =>
                  concat ((λ n, walk_from fuel f cmp (path_join p n) (k ++ [n])) <$> sort_names cmp (children f k))
              | _ => []
              end
  end.

Definition map_walk (f : fs) (cmp : bytes → bytes → comparison) (p : PathBuf) : walker :=
  match locate f p with
  | Ok (d, l) => walk_from (S (max_list_with (λ kv, length kv.1) (map_to_list (files f)))) f cmp p (d ++ [l])
  | _ => [Err (OsError ENOENT)]
  end.

Lemma elem_children f k n : n ∈ children f k ↔ is_Some (files f !! (k ++ [n])).
Proof.
  unfold children. rewrite list_elem_of_omap. split.
  - intros ([k' i] & Hin & Hn). cbn in Hn. destruct (strip_path k k') as [[|n' [|]]|] eqn:E; try done.
    injection Hn as ->. apply strip_path_Some in E as ->. apply elem_of_map_to_list in Hin. by eexists.
  - intros [i Hi]. exists (k ++ [n], i). split; [by apply elem_of_map_to_list|]. cbn.
    by rewrite (proj2 (strip_path_Some k (k ++ [n]) [n]) eq_refl).
Qed.

Lemma NoDup_children f k : NoDup (children f k).
Proof.
  unfold children. pose proof (NoDup_fst_map_to_list (files f)) as Hnd. revert Hnd.
  generalize (map_to_list (files f)) as l. induction l as [|[k' i] l IH]; intros Hnd; [constructor|].
  cbn in *. apply NoDup_cons in Hnd as [Hk Hnd].
  destruct (strip_path k k') as [[|n [|]]|] eqn:E; try by apply IH.
  apply strip_path_Some in E as ->. constructor; [|by apply IH].
  rewrite list_elem_of_omap. intros ([k2 i2] & Hin & Hn). cbn in Hn.
  destruct (strip_path k k2) as [[|n' [|]]|] eqn:E; try done. injection Hn as ->.
  apply strip_path_Some in E as ->. apply Hk. by apply (list_elem_of_fmap_2 fst _ (k ++ [n], i2)).
Qed.

Lemma entry_of_elem n es : is_Some (entry_of n es) ↔ n ∈ es.*1.
Proof.
  induction es as [|[n' t] es IH]; cbn; [rewrite is_Some_alt; set_solver|].
  case_decide; [subst; split; [by left|by eexists]|]. rewrite IH. set_solver.
Qed.

Lemma children_elem f k es n : tree_on f k (DirectoryNode es) → n ∈ children f k ↔ n ∈ es.*1.
Proof.
  intros Ht. rewrite elem_children, <-entry_of_elem. specialize (Ht [n]). cbn in Ht.
  destruct (entry_of n es), (files f !! (k ++ [n])); cbn in Ht; rewrite ?is_Some_alt; tauto.
Qed.

Lemma strictly_sorted_apart (cmp : bytes → bytes → comparison) l x y :
  StronglySorted (λ a b, cmp a b = Lt) l → x ∈ l → y ∈ l → x = y ∨ cmp x y = Lt ∨ cmp y x = Lt.
Proof.
  induction 1 as [|a l Hs IH Ha]; [set_solver|]. rewrite Forall_forall in Ha.
  intros [->|Hx]%elem_of_cons [->|Hy]%elem_of_cons; auto.
Qed.

(** The names a directory has are those of the tree, in its order. *)
Lemma children_tree f cmp k es :
  total_order cmp → tree_on f k (DirectoryNode es) → NoDup es.*1 →
  StronglySorted (λ a b, cmp a b = Lt) es.*1 → sort_names cmp (children f k) = es.*1.
Proof.
  intros [Hopp Htrans] Ht Hnd Hs. unfold sort_names.
  apply (StronglySorted_unique_strong (λ a b, cmp a b ≠ Gt)).
  - intros x y Hx Hy Hxy Hyx. rewrite merge_sort_Permutation, children_elem in Hx by done.
    destruct (strictly_sorted_apart cmp _ x y Hs Hx Hy) as [?|[E|E]]; [done|exfalso..].
    + by rewrite Hopp, E in Hyx.
    + by rewrite Hopp, E in Hxy.
  - apply StronglySorted_merge_sort; [intros a b c; apply Htrans|].
    intros a b. rewrite (Hopp a b). destruct (cmp a b); cbn; auto.
  - clear -Hs. induction Hs as [|a l Hs IH Ha]; constructor; [done|].
    eapply Forall_impl; [exact Ha|]. cbn. congruence.
  - rewrite merge_sort_Permutation. apply NoDup_Permutation; [apply NoDup_children|done|].
    intros n. by apply children_elem.
Qed.

Lemma walk_from_tree f cmp t : total_order cmp → ∀ fuel p k,
  place f p k → tree_on f k t → tree_ok t → sorted_by cmp t →
  (∀ k', is_Some (files f !! k') → length k' < length k + fuel) →
  walk_from fuel f cmp p k = Ok <$> preorder p t.
Proof.
  intros Hcmp. induction t as [x c|g|es IH] using node_rect'; intros fuel p k Hp Ht Hok Hs Hf.
  all: destruct (tree_on_root _ _ _ Ht) as (i & Hi & Hsh).
  all: destruct fuel as [|fuel]; [specialize (Hf k (ex_intro _ i Hi)); lia|].
  1, 2: cbn; rewrite Hi; by destruct i.
  rewrite preorder_dir. cbn [walk_from fmap list_fmap]. rewrite Hi. destruct i; try done. f_equal.
  apply tree_ok_dir in Hok as [Hnd Hok]. apply sorted_by_dir in Hs as [Hss Hs].
  rewrite (children_tree f cmp k es) by done.
  assert (∀ es', es' ⊆ es →
    concat ((λ n, walk_from fuel f cmp (path_join p n) (k ++ [n])) <$> es'.*1) =
    Ok <$> concat ((λ e, preorder (path_join p e.1) e.2) <$> es')) as H; [|by apply H].
  induction es' as [|[n t] es' IHes]; intros Hsub; [done|]. cbn. rewrite fmap_app.
  assert ((n, t) ∈ es) as Hin by set_solver. rewrite !Forall_forall in *.
  destruct (Hok _ Hin) as [Hname Htok]. f_equal; [|apply IHes; set_solver].
  apply (IH _ Hin).
  - by eapply place_entry.
  - by eapply tree_on_entry.
  - done.
  - by apply (Hs _ Hin).
  - intros k' Hk'. specialize (Hf k' Hk'). rewrite length_app. cbn. lia.
Qed.

Lemma map_walk_lists : lists_tree map_walk.
Proof.
  intros f cmp p k t Hcmp Hp Ht Hok Hs. unfold map_walk.
  pose proof Hp as (_ & _ & d & l & -> & ->). apply walk_from_tree; try done.
  intros k' [i Hi]. apply elem_of_map_to_list in Hi.
  assert (length k' ≤ max_list_with (λ kv : list bytes * inode, length kv.1) (map_to_list (files f))); [|lia].
  revert Hi. generalize (map_to_list (files f)). induction l0 as [|kv l0 IH]; [set_solver|].
  intros [<-|Hin]%elem_of_cons; cbn; [lia|]. specialize (IH Hin). lia.
Qed.
