(* ===== verification/ByteStream.v ===== *)
(** The stream of an archive's bytes ([harmonia-nar/src/archive/byte_stream.rs]):
    [ChannelWriter], an [AsyncWrite] that sends its bytes in chunks through a
    bounded channel, and [NarByteStream], which dumps a path through the NAR
    writer into it on a task of its own. *)

From stdpp Require Import base list numbers strings gmap sorting.
From Stdlib Require Import ZArith Lia Strings.Byte.
From S2P Require Import Prelude Async Sink NarTree NarWriter.

Definition DEFAULT_CHUNK_SIZE : nat := Z.to_nat 65536.
Definition CHANNEL_CAPACITY : nat := 4.

(** ** The writer *)

(** The channel: every chunk sent so far, how many of them the receiver has
    not taken, and what the receiver does before the next attempts to reserve
    a slot: take some chunks, or go away. When nothing is said it takes
    everything. *)
Record ChannelWriter : Type := mk_channel {
  sent : list bytes;
  inflight : nat;
  receiver : list (option nat);
  cbuffer : bytes;
  chunk_size : nat
}.

Definition ChannelWriter_new (receiver : list (option nat)) (chunk_size : nat) : ChannelWriter :=
  mk_channel [] 0 receiver [] chunk_size.

(** [PollSender::poll_reserve]. *)
Definition poll_reserve (c : ChannelWriter) : ChannelWriter * polled unit :=
  match receiver c with
  | [] => (mk_channel (sent c) 0 [] (cbuffer c) (chunk_size c), Ready (Ok tt))
  | None :: _ => (c, Ready (Err (BrokenPipe "channel closed")))
  | Some n :: rs =>
      let c := mk_channel (sent c) (inflight c - n) rs (cbuffer c) (chunk_size c) in
      (c, if decide (inflight c < CHANNEL_CAPACITY) then Ready (Ok tt) else Pending)
  end.

Definition poll_emit_chunk (c : ChannelWriter) : ChannelWriter * polled unit :=
  match cbuffer c with
  | [] => (c, Ready (Ok tt))
  | _ =>
      match poll_reserve c with
      | (c, Ready (Ok _)) =>
          (mk_channel (sent c ++ [cbuffer c]) (S (inflight c)) (receiver c) [] (chunk_size c), Ready (Ok tt))
      | r => r
      end
  end.

(** [poll_write]: a full buffer goes first. *)
Definition channel_poll_write (c : ChannelWriter) (buf : bytes) : ChannelWriter * polled nat :=
  let '(c, p) := if decide (chunk_size c ≤ length (cbuffer c)) then poll_emit_chunk c else (c, Ready (Ok tt)) in
  match p with
  | Ready (Ok _) =>
      let n := Nat.min (length buf) (chunk_size c - length (cbuffer c)) in
      (mk_channel (sent c) (inflight c) (receiver c) (cbuffer c ++ take n buf) (chunk_size c), Ready (Ok n))
  | Ready (Err e) => (c, Ready (Err e))
  | Ready Panic => (c, Ready Panic)
  | Pending => (c, Pending)
  end.

Definition channel_poll_flush : ChannelWriter → ChannelWriter * polled unit := poll_emit_chunk.
Definition channel_poll_shutdown : ChannelWriter → ChannelWriter * polled unit := poll_emit_chunk.

#[export] Instance channel_async_write : AsyncWrite ChannelWriter := channel_poll_write.

(** The receiver stays, no chunk is empty or over the size, and no more than
    the capacity wait in the channel. *)
Definition channel_ok (c : ChannelWriter) : Prop :=
  0 < chunk_size c ∧ Forall (λ o, o ≠ None) (receiver c) ∧ length (cbuffer c) ≤ chunk_size c ∧
  Forall (λ k, k ≠ [] ∧ length k ≤ chunk_size c) (sent c) ∧
  inflight c ≤ CHANNEL_CAPACITY ∧ inflight c ≤ length (sent c).

Lemma poll_emit_chunk_spec c c' p :
  channel_ok c → poll_emit_chunk c = (c', p) →
  channel_ok c' ∧ chunk_size c' = chunk_size c ∧
  concat (sent c') ++ cbuffer c' = concat (sent c) ++ cbuffer c ∧
  length (receiver c') ≤ length (receiver c) ∧
  match p with
  | Pending => length (receiver c') < length (receiver c) ∧ cbuffer c' = cbuffer c
  | Ready (Ok _) => cbuffer c' = []
  | _ => False
  end.
Proof.
  intros (Hcs & Hrx & Hb & Hsent & Hcap & Hin). unfold poll_emit_chunk.
  destruct (cbuffer c) as [|b buf] eqn:Eb.
  { intros [= <- <-]. rewrite Eb. repeat split; try done. by rewrite Eb. }
  unfold poll_reserve. destruct Hrx as [|[n|] rs Hn Hrs]; [| |done].
  - cbn. intros [= <- <-]. cbn. rewrite Eb. repeat split; try done; cbn; try lia.
    + by apply Forall_app; repeat constructor.
    + unfold CHANNEL_CAPACITY. lia.
    + rewrite length_app. cbn. lia.
    + by rewrite concat_app; cbn; rewrite !app_nil_r.
  - cbn. case_decide as Hd; cbn; intros [= <- <-]; cbn; rewrite ?Eb; repeat split; try done; cbn; try lia.
    + by apply Forall_app; repeat constructor.
    + rewrite length_app. cbn. lia.
    + by rewrite concat_app; cbn; rewrite !app_nil_r.
Qed.

#[export] Program Instance channel_async_write_laws : AsyncWriteLaws ChannelWriter := {|
  wr_inv := channel_ok;
  wr_written c := concat (sent c) ++ cbuffer c;
  wr_patience c := length (receiver c)
|}.
Next Obligation.
  intros c buf c' p Hc Hne. unfold aw_poll_write, channel_async_write, channel_poll_write.
  destruct (if decide _ then poll_emit_chunk c else _) as [c1 q] eqn:E.
  assert (channel_ok c1 ∧ concat (sent c1) ++ cbuffer c1 = concat (sent c) ++ cbuffer c ∧
    length (receiver c1) ≤ length (receiver c) ∧
    match q with
    | Pending => length (receiver c1) < length (receiver c)
    | Ready (Ok _) => length (cbuffer c1) < chunk_size c1
    | _ => False
    end) as (Hc1 & Hw & Hle & Hq).
  { case_decide as Hd.
    - apply poll_emit_chunk_spec in E as (Hc1 & Hs & Hw & Hle & Hq); [|done]. split; [done|].
      split; [done|]. split; [done|]. destruct q as [[u|e|]|]; try done; [|apply Hq].
      rewrite Hq. cbn. apply Hc1.
    - injection E as <- <-. split; [done|]. split; [done|]. split; [done|lia]. }
  destruct q as [[u|e|]|]; try done.
  - intros [= <- <-]. destruct Hc1 as (Hcs & Hrx & Hb & Hs & Hcap & Hin). cbn.
    split; [|split; [done|split]].
    + repeat split; try done. cbn. rewrite length_app, length_take. lia.
    + by rewrite app_assoc, Hw.
    + destruct buf; [done|]. cbn [length]. lia.
  - intros [= <- <-]. split; [done|]. split; [done|]. split; [done|lia].
Qed.

(** ** The task *)

(** Polling the flush of the channel until it is ready. *)
Fixpoint flush_channel (fuel : nat) (c : ChannelWriter) : ChannelWriter * res io_error unit :=
  match channel_poll_flush c with
  | (c, Ready r) => (c, r)
  | (c, Pending) => match fuel with O => (c, Panic) | S fuel => flush_channel fuel c end
  end.

Definition set_out {W : Type} (x : NarWriter W) (w : W) : NarWriter W :=
  mk_writer (wstate x) (buffer x) (cutoff x) (wreader x) (wlevel x) w.

(** [Sink::poll_flush] of the NAR writer, and [poll_close], which is the same
    over this channel, polled until ready. *)
Definition flush_nar (x : NarWriter ChannelWriter) : NarWriter ChannelWriter * res io_error unit :=
  match flush_buf 3 x with
  | Ok x =>
      let '(c, r) := flush_channel (length (receiver (wout x))) (wout x) in (set_out x c, r)
  | Err e => (x, Err e)
  | Panic => (x, Panic)
  end.

(** [SinkExt::send]: [poll_ready], [start_send], [poll_flush]. *)
Definition send (x : NarWriter ChannelWriter) (ev : WEvent) : NarWriter ChannelWriter * res io_error unit :=
  match until_ready (ready_fuel x) x with
  | (x, Ready (Ok _)) =>
      match start_send x ev with
      | Ok x => flush_nar x
      | Err e => (x, Err e)
      | Panic => (x, Panic)
      end
  | (x, Ready r) => (x, r)
  | (x, Pending) => (x, Panic)
  end.

(** The task of [NarByteStream::with_chunk_size] over what the dumper gives:
    an error of the dumper or of the writer is logged and the task ends, and
    with it the stream. *)
Fixpoint stream_task (x : NarWriter ChannelWriter) (events : list (res io_error WEvent))
    : NarWriter ChannelWriter :=
  match events with
  | [] => (flush_nar x).1
  | Ok ev :: events =>
      match send x ev with
      | (x, Ok _) => stream_task x events
      | (x, _) => x
      end
  | _ :: _ => x
  end.

(** The stream: [poll_next] gives every chunk as [Ok], then ends. *)
Definition nar_byte_stream (receiver : list (option nat)) (chunk_size : nat)
    (events : list (res io_error WEvent)) : list (res io_error bytes) :=
  Ok <$> sent (wout (stream_task (writer_new (ChannelWriter_new receiver chunk_size)) events)).

(** ** What the stream carries *)

Lemma flush_channel_spec fuel : ∀ c, channel_ok c → length (receiver c) ≤ fuel →
  ∃ c', flush_channel fuel c = (c', Ok tt) ∧ channel_ok c' ∧ cbuffer c' = [] ∧
    chunk_size c' = chunk_size c ∧ concat (sent c') = concat (sent c) ++ cbuffer c.
Proof.
  induction fuel as [|fuel IH]; intros c Hc Hf; cbn [flush_channel]; unfold channel_poll_flush.
  all: destruct (poll_emit_chunk c) as [c1 p] eqn:E.
  all: apply poll_emit_chunk_spec in E as (Hc1 & Hs & Hw & Hle & Hp); [|done].
  all: destruct p as [[[]|e|]|]; try done.
  - exists c1. rewrite Hp, app_nil_r in Hw. auto.
  - lia.
  - exists c1. rewrite Hp, app_nil_r in Hw. auto.
  - destruct Hp as [Hlt Hb]. destruct (IH c1 Hc1) as (c' & E & ? & ? & Hs' & Hsent); [lia|].
    exists c'. rewrite E, Hsent, Hw, Hs', Hs. auto.
Qed.

(** Everything accepted so far is in the channel. *)
Definition settled (x : NarWriter ChannelWriter) : Prop :=
  writer_inv x ∧ concat (sent (wout x)) = logical x.

Lemma flush_nar_spec x : writer_inv x →
  ∃ x', flush_nar x = (x', Ok tt) ∧ settled x' ∧ logical x' = logical x ∧ wlevel x' = wlevel x.
Proof.
  intros Hx. unfold flush_nar.
  destruct (flush_buf_closed 1 x Hx) as (x1 & -> & Hw & Hi & Hl & Hv).
  destruct (flush_channel_spec (length (receiver (wout x1))) (wout x1)) as (c & E & Hc & Hb & Hs & Hsent);
    [apply Hi|done|]. rewrite E. eexists. split; [done|].
  assert (logical (set_out x1 c) = logical x) as Hlog.
  { rewrite <-Hl. unfold logical. f_equal. cbn. rewrite Hb, app_nil_r. exact Hsent. }
  split; [split|done].
  - destruct Hi as (_ & ? & ? & ?). split; [exact Hc|]. done.
  - rewrite Hlog, <-Hw. cbn. by rewrite Hsent.
Qed.

Lemma send_spec x e w : writer_inv x → carries e w → event_ok (wlevel x) e →
  ∃ x', send x w = (x', Ok tt) ∧ settled x' ∧ logical x' = logical x ++ event_bytes (wlevel x) e ∧
    wlevel x' = event_level (wlevel x) e.
Proof.
  intros Hx Hc Hok. unfold send. destruct (until_ready_idle x Hx) as (x1 & -> & Hi & Hl & Hv & _).
  rewrite <-Hv in Hok. destruct (start_send_spec x1 e w Hi Hc Hok) as (x2 & -> & Hx2 & Hl2 & Hv2).
  destruct (flush_nar_spec x2 Hx2) as (x3 & -> & Hs & Hl3 & Hv3).
  exists x3. split; [done|]. split; [done|]. by rewrite Hl3, Hl2, Hl, Hv3, Hv2, Hv.
Qed.

(** The bytes of a list of events from a level, and that no directory is
    closed that is not open. *)
Fixpoint events_out (lv : nat) (es : list NarEvent) : bytes :=
  match es with [] => [] | e :: es => event_bytes lv e ++ events_out (event_level lv e) es end.

Fixpoint events_ok (lv : nat) (es : list NarEvent) : Prop :=
  match es with [] => True | e :: es => event_ok lv e ∧ events_ok (event_level lv e) es end.

Lemma events_node t : ∀ name lv rest,
  (events_ok lv (events_of name t ++ rest) ↔ events_ok lv rest) ∧
  events_out lv (events_of name t ++ rest) = node_out lv name t ++ events_out lv rest.
Proof.
  induction t as [x c|g|es IH] using node_rect'; intros name lv rest.
  1, 2: cbn [events_of app events_ok events_out event_ok event_level]; (split; [tauto|]);
    unfold node_out, event_bytes, par_tail; cbn [node_body]; by rewrite <-!app_assoc.
  rewrite events_of_dir. cbn [app events_ok events_out event_ok event_level]. rewrite <-app_assoc.
  assert (∀ rest',
    (events_ok (lv + 1) (concat ((λ e, events_of e.1 e.2) <$> es) ++ rest') ↔ events_ok (lv + 1) rest') ∧
    events_out (lv + 1) (concat ((λ e, events_of e.1 e.2) <$> es) ++ rest') =
      entries_body es ++ events_out (lv + 1) rest') as Hes.
  { unfold entries_body. induction IH as [|[n t] es Ht _ IHes]; intros rest'; [done|].
    rewrite !fmap_cons, !concat_cons, <-!app_assoc. cbn [fst snd] in *.
    destruct (Ht n (lv + 1) (concat ((λ e, events_of e.1 e.2) <$> es) ++ rest')) as [-> ->].
    destruct (IHes rest') as [-> ->]. split; [done|]. unfold node_out, entry_head.
    rewrite !(decide_False (P := lv + 1 = 0)), decide_True by lia. by rewrite app_nil_l, <-!app_assoc. }
  destruct (Hes ([EvEndDirectory] ++ rest)) as [-> ->].
  cbn [app events_ok events_out event_ok event_level]. rewrite Nat.add_sub. split.
  - split; [tauto|]. intros ?. split; [done|]. split; [lia|done].
  - unfold node_out, event_bytes, par_tail. rewrite node_body_dir, <-!app_assoc.
    by rewrite Nat.add_sub, (decide_False (P := lv + 1 = 0)) by lia.
Qed.

Lemma events_out_app es es' lv : ∃ lv',
  events_out lv (es ++ es') = events_out lv es ++ events_out lv' es' ∧
  (events_ok lv (es ++ es') → events_ok lv es ∧ events_ok lv' es').
Proof.
  revert lv; induction es as [|e es IH]; intros lv; [by exists lv|]. cbn.
  destruct (IH (event_level lv e)) as (lv' & -> & Hok). exists lv'. rewrite app_assoc. naive_solver.
Qed.

Lemma event_bytes_nonempty lv e : event_bytes lv e ≠ [].
Proof.
  unfold event_bytes, par_tail. intros H%(f_equal length). revert H. destruct e as [n x z c|n g|n|].
  all: rewrite !length_app; cbn; try destruct x; cbn; lia.
Qed.

Lemma stream_task_spec es ws : Forall2 carries es ws → ∀ x more,
  settled x → events_ok (wlevel x) es →
  ∃ x', stream_task x ((Ok <$> ws) ++ more) = stream_task x' more ∧ settled x' ∧
    logical x' = logical x ++ events_out (wlevel x) es.
Proof.
  induction 1 as [|e w es ws Hc Hcs IH]; intros x more Hx Hok.
  - exists x. by rewrite app_nil_r.
  - destruct Hok as [He Hok]. destruct (send_spec x e w (proj1 Hx) Hc He) as (x1 & E & Hx1 & Hl & Hv).
    rewrite <-Hv in Hok. destruct (IH x1 more Hx1 Hok) as (x2 & E2 & Hx2 & Hl2).
    exists x2. split; [cbn; by rewrite E|]. split; [done|]. cbn [events_out].
    by rewrite Hl2, Hl, Hv, <-app_assoc.
Qed.

Lemma stream_new rx cs : 0 < cs → Forall (λ o, o ≠ None) rx →
  settled (writer_new (ChannelWriter_new rx cs)).
Proof.
  intros Hcs Hrx. split; [|done]. apply writer_new_inv.
  split; [done|]. split; [done|]. split; [cbn; lia|]. split; [constructor|]. cbn. lia.
Qed.

(** The chunk size stays. *)
Section chunk_size.
Context (cs : nat).
Definition sized (c : ChannelWriter) : Prop := chunk_size c = cs.

Lemma emit_sized c : sized c → sized (poll_emit_chunk c).1.
Proof.
  unfold poll_emit_chunk, poll_reserve. intros Hc. destruct (cbuffer c); [done|].
  destruct (receiver c) as [|[n|] rs]; try done. cbn. by case_decide.
Qed.

Lemma poll_write_sized c buf : sized c → sized (aw_poll_write c buf).1.
Proof.
  intros Hc. unfold aw_poll_write, channel_async_write, channel_poll_write.
  pose proof (emit_sized c Hc). case_decide; [destruct (poll_emit_chunk c) as [c1 [[]|]]; done|done].
Qed.

Lemma flush_channel_sized fuel : ∀ c, sized c → sized (flush_channel fuel c).1.
Proof.
  induction fuel as [|fuel IH]; intros c Hc; cbn [flush_channel]; unfold channel_poll_flush;
    pose proof (emit_sized c Hc); destruct (poll_emit_chunk c) as [c1 [|]]; try done. by apply IH.
Qed.

Lemma flush_nar_sized x : sized (wout x) → sized (wout (flush_nar x).1).
Proof.
  intros Hx. unfold flush_nar. destruct (flush_buf 3 x) as [x1|e|] eqn:E; try done.
  apply (flush_buf_kept sized) in E; [|apply poll_write_sized|done].
  pose proof (flush_channel_sized (length (receiver (wout x1))) _ E).
  by destruct (flush_channel _ _).
Qed.

Lemma stream_task_sized events : ∀ x, sized (wout x) → sized (wout (stream_task x events)).
Proof.
  induction events as [|[ev|e|] events IH]; intros x Hx; try done; [by apply flush_nar_sized|].
  cbn. assert (sized (wout (send x ev).1)) as Hs.
  { unfold send. pose proof (until_ready_kept sized poll_write_sized (ready_fuel x) x Hx) as H1.
    destruct (until_ready (ready_fuel x) x) as [x1 [[u|e|]|]]; try done. cbn in H1.
    destruct (start_send x1 ev) as [x2|e|] eqn:E; try done.
    apply flush_nar_sized. by apply (start_send_kept sized x1 ev x2). }
  destruct (send x ev) as [x1 [[]|e|]]; try done. by apply IH.
Qed.
End chunk_size.

(** C7. The stream of a tree is its archive: over a receiver that stays,
    taking chunks whenever it likes, the chunks are the serialisation of the
    tree, cut into non-empty pieces of at most the chunk size. *)
Theorem stream_exact (t : node) (name : bytes) (rx : list (option nat)) (cs : nat) (ws : list WEvent) :
  0 < cs → Forall (λ o, o ≠ None) rx → Forall2 carries (events_of name t) ws →
  ∃ chunks, nar_byte_stream rx cs (Ok <$> ws) = Ok <$> chunks ∧ concat chunks = nar t ∧
    Forall (λ k, k ≠ [] ∧ length k ≤ cs) chunks.
Proof.
  intros Hcs Hrx Hc. eexists. split; [reflexivity|].
  set (x := writer_new (ChannelWriter_new rx cs)).
  pose proof (stream_new rx cs Hcs Hrx) as Hx. fold x in Hx.
  destruct (events_node t name 0 []) as [[_ Hok] Hout]. rewrite app_nil_r in Hok, Hout.
  destruct (stream_task_spec _ ws Hc x [] Hx (Hok I)) as (x1 & E & Hx1 & Hl).
  pose proof (stream_task_sized cs (Ok <$> ws) x eq_refl) as Hsz.
  rewrite app_nil_r in E. rewrite E in *. cbn [stream_task] in *.
  destruct (flush_nar_spec x1 (proj1 Hx1)) as (x2 & E2 & [Hi2 Hs2] & Hl2 & _). rewrite E2 in *.
  cbn [fst] in *. split.
  - rewrite Hs2, Hl2, Hl, nar_tokens. change (wlevel x) with 0. rewrite Hout.
    unfold logical, pending, node_out, entry_head. cbn. by rewrite !app_nil_r.
  - destruct Hi2 as ((_ & _ & _ & Hf & _) & _). unfold sized in Hsz. by rewrite Hsz in Hf.
Qed.

Lemma stream_exact_witness :
  ∃ chunks, nar_byte_stream [Some 0; Some 0; Some 0; Some 0; Some 0; Some 2] 30 (Ok <$> sample_items) = Ok <$> chunks ∧
    concat chunks = nar sample_tree ∧ Forall (λ k, k ≠ [] ∧ length k ≤ 30) chunks.
Proof.
  apply (stream_exact sample_tree [] _ 30 sample_items).
  - lia.
  - repeat constructor; discriminate.
  - repeat constructor; discriminate.
Defined.

(** A dump that fails part-way looks like one that ended: the stream
    gives the bytes of the events before the error, all of its items are
    [Ok], and then it ends, strictly short of the archive. *)
Theorem stream_truncates (t : node) (name : bytes) (es es' : list NarEvent) (rx : list (option nat)) (cs : nat)
    (ws : list WEvent) (err : io_error) (more : list (res io_error WEvent)) :
  0 < cs → Forall (λ o, o ≠ None) rx → events_of name t = es ++ es' → es' ≠ [] → Forall2 carries es ws →
  ∃ chunks missing, nar_byte_stream rx cs ((Ok <$> ws) ++ Err err :: more) = Ok <$> chunks ∧
    concat chunks ++ missing = nar t ∧ missing ≠ [].
Proof.
  intros Hcs Hrx Hes Hne Hc. set (x := writer_new (ChannelWriter_new rx cs)).
  pose proof (stream_new rx cs Hcs Hrx) as Hx. fold x in Hx.
  destruct (events_node t name 0 []) as [[_ Hok] Hout]. rewrite app_nil_r in Hok, Hout.
  destruct (events_out_app es es' 0) as (lv' & Hsplit & Hoks). rewrite Hes in Hok, Hout.
  destruct (Hoks (Hok I)) as [Hok1 _].
  destruct (stream_task_spec es ws Hc x (Err err :: more) Hx Hok1) as (x1 & E & [_ Hs1] & Hl).
  exists (sent (wout x1)), (events_out lv' es'). unfold nar_byte_stream. fold x. rewrite E.
  split; [done|]. split.
  - rewrite Hs1, Hl, <-app_assoc. change (wlevel x) with 0. rewrite <-Hsplit, Hout, nar_tokens.
    unfold logical, pending, node_out, entry_head. cbn. by rewrite !app_nil_r.
  - destruct es' as [|e es']; [done|]. cbn. intros H%app_nil. destruct H as [H _].
    by apply event_bytes_nonempty in H.
Qed.

Lemma stream_truncates_witness :
  ∃ chunks missing, nar_byte_stream [] 64 ((Ok <$> take 2 sample_items) ++ [Err (OsError ENOENT)]) = Ok <$> chunks ∧
    concat chunks ++ missing = nar sample_tree ∧ missing ≠ [].
Proof.
  apply (stream_truncates sample_tree [] (take 2 (events_of [] sample_tree)) (drop 2 (events_of [] sample_tree))
    [] 64 (take 2 sample_items) (OsError ENOENT) []).
  - lia.
  - constructor.
  - symmetry. apply take_drop.
  - discriminate.
  - repeat constructor; discriminate.
Defined.
