(* ===== verification/Archive.v ===== *)
(** Archives and the file system: dumping a tree gives its events, restoring
    them gives the tree back, with and without the case hack, and the whole
    way from one file system through the serialised archive to another. *)

From stdpp Require Import base list numbers strings gmap sorting.
From Stdlib Require Import ZArith Lia Strings.Byte.
From S2P Require Import Prelude Async Wire Sink NarTree NarWriter NarParser BufferMut BytesReader Nar FileSystem CaseHack Restore RestoreSpec Dump DumpSpec Walk.

(** ** Names through the case hack *)

Definition order (hack : bool) : bytes → bytes → comparison :=
  if hack then sort_case_hack else bytes_cmp.

Lemma order_total hack : total_order (order hack).
Proof. destruct hack; [apply sort_case_hack_order|apply bytes_cmp_order]. Qed.

Lemma order_shown hack a b : order hack a b = bytes_cmp (shown hack a) (shown hack b).
Proof. destruct hack; [apply sort_case_hack_key|done]. Qed.

Section disk_names.
Context (to_lowercase : bytes → bytes) (hack : bool).

Lemma shown_disk_entries es : ∀ m b,
  (0 ≤ b)%Z → counts m b → (b + Z.of_nat (length es) ≤ u32_max)%Z →
  (hack = true → Forall (λ e : bytes * node, unhacked e.1) es) →
  shown hack <$> (disk_entries to_lowercase hack m es).*1 = es.*1.
Proof.
  induction es as [|[n t] es IH]; intros m b Hb Hm Hlen Hu; [done|]. cbn in Hlen.
  cbn. rewrite (IH _ (b + 1)%Z); [|lia|by apply hacked_counts|lia|].
  2: { intros Hh. specialize (Hu Hh). by apply Forall_cons in Hu as [_ ?]. }
  f_equal. unfold hacked, shown. destruct hack; [|done].
  specialize (Hu eq_refl). apply Forall_cons in Hu as [Hu _].
  destruct (m !! to_lowercase n) as [i|] eqn:E; cbn.
  - specialize (Hm _ _ E). apply remove_hacked. lia.
  - by apply remove_unhacked.
Qed.

(** The entries on disk, one by one. *)
Lemma disk_entries_zip es : ∀ m, (disk_entries to_lowercase hack m es).*2 = disk_tree to_lowercase hack <$> es.*2.
Proof. induction es as [|[n t] es IH]; intros m; cbn; [done|]. by rewrite IH. Qed.

Lemma disk_depth t : depth (disk_tree to_lowercase hack t) = depth t.
Proof.
  induction t as [x c|g|es IH] using node_rect'; [done..|]. rewrite disk_tree_dir. cbn. f_equal.
  generalize (∅ : Entries). induction IH as [|[n t] es IHt _ IHes]; intros m; cbn in *; [done|].
  by rewrite IHt, IHes.
Qed.

Lemma disk_largest t : largest (disk_tree to_lowercase hack t) = largest t.
Proof.
  induction t as [x c|g|es IH] using node_rect'; [done..|]. rewrite disk_tree_dir. cbn.
  generalize (∅ : Entries). induction IH as [|[n t] es IHt _ IHes]; intros m; cbn in *; [done|].
  by rewrite IHt, IHes.
Qed.

(** A property of the entries that survives the renaming. *)
Lemma Forall_disk_entries (P Q : node → Prop) es : ∀ m,
  Forall (λ e, P e.2 → Q (disk_tree to_lowercase hack e.2)) es → Forall (λ e, P e.2) es →
  Forall (λ e, Q e.2) (disk_entries to_lowercase hack m es).
Proof.
  induction es as [|[n t] es IH]; intros m HPQ HP; cbn; [constructor|].
  apply Forall_cons in HPQ as [Ht HPQ], HP as [Hp HP]. constructor; [by apply Ht|by apply IH].
Qed.

Definition nameable (t : node) : Prop := dirs_small t ∧ (hack = true → names_unhacked t).

Lemma nameable_dir es : nameable (DirectoryNode es) →
  Forall (λ e, nameable e.2) es ∧
  ∀ m, counts m 0 → shown hack <$> (disk_entries to_lowercase hack m es).*1 = es.*1.
Proof.
  intros [[Hlen Hsm]%dirs_small_dir Hu]. setoid_rewrite names_unhacked_dir in Hu. split.
  - apply Forall_and. split; [done|]. apply Forall_forall. intros e He Hh.
    specialize (Hu Hh). rewrite Forall_forall in Hu. by apply Hu.
  - intros m Hm. apply (shown_disk_entries es m 0); [lia|done|lia|].
    intros Hh. eapply Forall_impl; [by apply Hu|]. by intros e [].
Qed.

Lemma counts_empty b : counts ∅ b.
Proof. by intros l i Hi. Qed.

(** The dumper's names are the archive's. *)
Lemma shown_disk_tree t : nameable t → map_names (shown hack) (disk_tree to_lowercase hack t) = t.
Proof.
  induction t as [x c|g|es IH] using node_rect'; [done..|].
  intros [Hch Hn]%nameable_dir. rewrite disk_tree_dir, map_names_dir. f_equal.
  specialize (Hn ∅ (counts_empty 0)). revert Hn. generalize (∅ : Entries).
  induction IH as [|[n t] es IHt _ IHes]; intros m Hn; [done|].
  apply Forall_cons in Hch as [Ht Hch]. cbn in *. injection Hn as Hn Hns.
  rewrite Hn, IHt by done. f_equal. by apply IHes.
Qed.

Lemma sorted_disk_tree t :
  nameable t → sorted_by bytes_cmp t → sorted_by (order hack) (disk_tree to_lowercase hack t).
Proof.
  induction t as [x c|g|es IH] using node_rect'; [done..|].
  intros [Hch Hn]%nameable_dir [Hs Hss]%sorted_by_dir. rewrite disk_tree_dir. apply sorted_by_dir. split.
  - specialize (Hn ∅ (counts_empty 0)). rewrite <-Hn in Hs. clear -Hs.
    revert Hs. generalize (disk_entries to_lowercase hack ∅ es).*1 as l.
    induction l as [|a l IHl]; cbn; intros Hs; [constructor|].
    apply StronglySorted_inv in Hs as [Hs Ha]. constructor; [by apply IHl|].
    apply Forall_fmap in Ha. eapply Forall_impl; [exact Ha|]. intros b. cbn. by rewrite order_shown.
  - eapply (Forall_disk_entries (λ t, nameable t ∧ sorted_by bytes_cmp t)).
    + eapply Forall_impl; [exact IH|]. intros e He [? ?]. by apply He.
    + by apply Forall_and.
Qed.
End disk_names.

(** A restored tree is one that can be dumped, when the umask leaves the
    owner's execute bit alone. *)
Lemma tree_at_on f k t : Z.land (umask f) 64 = 0%Z → tree_at f k t → tree_on f k t.
Proof.
  intros Hum Ht rel. rewrite (Ht rel). destruct (node_at t rel) as [u|]; cbn; [|done].
  destruct u as [x c|g|es]; cbn; try done. split; [done|].
  assert (Z.land (Z.land (file_mode x) (Z.lnot (umask f))) 64 = Z.land (file_mode x) 64) as ->.
  { apply Z.bits_inj'. intros n Hn. apply (f_equal (λ z, Z.testbit z n)) in Hum.
    rewrite Z.land_spec, Z.bits_0 in Hum. rewrite !Z.land_spec, Z.lnot_spec by done.
    destruct (Z.testbit (file_mode x) n), (Z.testbit (umask f) n), (Z.testbit 64 n); done. }
  by destruct x.
Qed.

(** ** Theorems *)

Section walk.
Context (walk : fs → (bytes → bytes → comparison) → PathBuf → walker) (Hwalk : lists_tree walk).

Lemma dump_tree o f p k t js fuel rfuel rooms :
  place f p k → tree_on f k t → tree_ok t → sorted_by (order (do_use_case_hack o)) t →
  (Z.of_nat (depth t) ≤ u32_max)%Z → 0 < do_max_open_files o → never_lost js →
  Forall (λ n, 0 < n) rooms → largest t + length js < rfuel →
  length (events_of [] (map_names (shown (do_use_case_hack o)) t)) + length js < fuel →
  let '(d, sm) := DumpOptions_dump walk o f p in
  ∃ js' ws, dump_collect fuel rfuel rooms (mk_world f js) sm d [] = (mk_world f js', sm, Ok ws) ∧
    Forall2 carries (events_of [] (map_names (shown (do_use_case_hack o)) t)) ws.
Proof using Hwalk.
  intros Hp Ht Hok Hs Hd Hm Hjs Hr Hrf Hf. cbn.
  set (sm := mk_sem (do_max_open_files o) false).
  pose proof (dumps_all f (do_use_case_hack o) (length js) rfuel rooms sm Hr Hm eq_refl t) as Hdump.
  specialize (Hdump p p 0%Z [] [] [] k Hp Ht Hok).
  rewrite !app_nil_r in Hdump. apply Hdump; try done; try lia.
  - by apply bool_decide_eq_true.
  - by apply yields_done.
  - repeat split; try done. cbn.
    replace (if do_use_case_hack o then sort_case_hack else bytes_cmp) with (order (do_use_case_hack o)) by done.
    rewrite (Hwalk f (order (do_use_case_hack o)) p k t) by (try done; apply order_total).
    by eapply stat_preorder.
Qed.
End walk.

Lemma map_names_id t : map_names id t = t.
Proof.
  induction t as [x c|g|es IH] using node_rect'; [done..|]. rewrite map_names_dir. f_equal.
  induction IH as [|[n t] es IHt _ IHes]; cbn in *; [done|]. by rewrite IHt, IHes.
Qed.

(** Restoring and dumping are inverse, with and without the case hack:
    over any walk that lists a tree in order, what was restored from the
    events of a tree with sorted names is dumped as the same events, each
    file with its contents and its execute bit, and all the permits of the
    semaphore are back. *)
Theorem restore_dump (walk : fs → (bytes → bytes → comparison) → PathBuf → walker)
    (to_lowercase : bytes → bytes) (hack : bool) (max_open_files : nat) (f : fs) (js js2 : list join_poll)
    (p : PathBuf) (k : list bytes) (t : node) (evs : list REvent) (fuel rfuel : nat) (rooms : list nat) :
  lists_tree walk → place f p k → absent f k → Z.land (umask f) 64 = 0%Z →
  tree_ok t → dirs_small t → (hack = true → names_unhacked t) → sorted_by bytes_cmp t →
  (Z.of_nat (depth t) ≤ u32_max)%Z → Forall2 delivers (events_of [] t) evs →
  never_lost js → never_lost js2 → 0 < max_open_files → Forall (λ n, 0 < n) rooms →
  largest t + length js2 < rfuel → length (events_of [] t) + length js2 < fuel →
  ∃ w', RestoreOptions_restore to_lowercase (mk_restore_options hack) (mk_world f js) (Ok <$> evs) p = (w', Ok tt) ∧
    let '(d, sm) := DumpOptions_dump walk (mk_dump_options hack max_open_files) (disk w') p in
    ∃ js' ws, dump_collect fuel rfuel rooms (mk_world (disk w') js2) sm d [] =
        (mk_world (disk w') js', sm, Ok ws) ∧ Forall2 carries (events_of [] t) ws.
Proof.
  intros Hwalk Hp Ha Hum Hok Hsm Hu Hs Hd Hev Hjs Hjs2 Hm Hr Hrf Hf.
  pose proof (disk_tree_ok to_lowercase hack t Hok Hsm Hu) as Hdok.
  destruct (restore_goes to_lowercase hack f p k t evs Hdok Hsm Hev Hp Ha js Hjs) as (js' & E).
  eexists. split; [exact E|]. cbn [disk].
  set (f' := with_files f _). pose proof (graft_grown f k _ Hdok Ha) as (Hc & Hum' & Ht & Hout). fold f' in Hc, Hum', Ht, Hout.
  assert (nameable hack t) as Hname by done.
  pose proof (shown_disk_tree to_lowercase hack t Hname) as Hshown.
  pose proof (dump_tree walk Hwalk (mk_dump_options hack max_open_files) f' p k
    (disk_tree to_lowercase hack t) js2 fuel rfuel rooms) as Hdump.
  cbn [do_use_case_hack do_max_open_files] in Hdump. rewrite Hshown in Hdump. apply Hdump.
  - apply (place_mono f); [by apply graft_extends|reflexivity|exact Hp].
  - apply tree_at_on; [by rewrite Hum'|exact Ht].
  - exact Hdok.
  - by apply sorted_disk_tree.
  - by rewrite disk_depth.
  - exact Hm.
  - exact Hjs2.
  - exact Hr.
  - by rewrite disk_largest.
  - exact Hf.
Qed.

Ltac by_decide := by apply (bool_decide_unpack _).

Lemma sample_dir_ok :
  tree_ok sample_dir ∧ dirs_small sample_dir ∧ names_unhacked sample_dir ∧
  sorted_by bytes_cmp sample_dir ∧ node_wf sample_dir.
Proof.
  split; [cbn [tree_ok sample_dir]; repeat match goal with |- _ ∧ _ => split end; try exact I; by_decide|].
  split; [cbn; unfold u32_max; lia|]. split; [cbn; repeat split; reflexivity|].
  split; [cbn; repeat constructor|]. cbn. unfold alignable, u64_max, u64_modulus. cbn. lia.
Qed.

Lemma sample_delivers : Forall2 delivers (events_of [] sample_dir) sample_events.
Proof.
  constructor; [constructor|]. constructor.
  { by apply (delivers_file _ _ (str "hello") [str "he"; str "llo"]); repeat constructor. }
  constructor; [constructor|]. constructor.
  { by apply (delivers_file _ _ (str "#!") [str "#!"]); repeat constructor. }
  repeat constructor.
Qed.

Lemma restore_dump_witness :
  let p := path_join (str "/nix/store") (str "out") in
  ∃ w', RestoreOptions_restore ascii_lower (mk_restore_options true)
          (mk_world sample_fs [JoinPending; JoinDone]) (Ok <$> sample_events) p = (w', Ok tt) ∧
    let '(d, sm) := DumpOptions_dump map_walk (mk_dump_options true 1) (disk w') p in
    ∃ js' ws, dump_collect 20 20 [2] (mk_world (disk w') [JoinPending; JoinPending]) sm d [] =
        (mk_world (disk w') js', sm, Ok ws) ∧ Forall2 carries (events_of [] sample_dir) ws.
Proof.
  intros p. destruct sample_dir_ok as (Hok & Hsm & Hu & Hs & _).
  apply (restore_dump map_walk ascii_lower true 1 sample_fs _ _ p [str "nix"; str "store"; str "out"] sample_dir).
  - exact map_walk_lists.
  - apply sample_place. by_decide.
  - apply sample_absent.
  - reflexivity.
  - exact Hok.
  - exact Hsm.
  - intros _. exact Hu.
  - exact Hs.
  - cbn. unfold u32_max. lia.
  - exact sample_delivers.
  - repeat constructor; discriminate.
  - repeat constructor; discriminate.
  - lia.
  - repeat constructor.
  - cbn. lia.
  - cbn. lia.
Defined.

(** C3. From one file system to another: the tree at a path, dumped over any
    walk that lists it and written through the NAR writer over any accepting
    schedule, is the serialisation of the tree; the parser over the buffered
    reader, however those bytes arrive, gives the tree's events; and those
    events, restored at a free place of another file system, put exactly that
    tree there. *)
Theorem pack_unpack (walk : fs → (bytes → bytes → comparison) → PathBuf → walker)
    (to_lowercase : bytes → bytes) (max_open_files : nat) (f1 f2 : fs) (js : list join_poll)
    (p1 p2 : PathBuf) (k1 k2 : list bytes) (t : node) (fuel rfuel : nat) (rooms : list nat)
    (sch : list (option nat)) :
  lists_tree walk → place f1 p1 k1 → tree_on f1 k1 t → tree_ok t → node_wf t → sorted_by bytes_cmp t →
  (Z.of_nat (depth t) ≤ u32_max)%Z → 0 < max_open_files → never_lost js → Forall (λ n, 0 < n) rooms →
  largest t + length js < rfuel → length (events_of [] t) + length js < fuel →
  Forall (λ o, o ≠ Some 0) sch →
  place f2 p2 k2 → absent f2 k2 → dirs_small t →
  let '(d, sm) := DumpOptions_dump walk (mk_dump_options false max_open_files) f1 p1 in
  ∃ js' ws, dump_collect fuel rfuel rooms (mk_world f1 js) sm d [] = (mk_world f1 js', sm, Ok ws) ∧
    write_nar (mk_sink [] sch) ws = Ok (nar t) ∧
    ∀ src reserved max_ keep plans nfuel pfuel,
      src_rest src = nar t → reader_ok reserved max_ keep src →
      2 * length (nar t) + length src + 1 < nfuel → length (events_of [] t) + length src < pfuel →
      ∃ es, collect nfuel pfuel true plans (parser_new (reader_build reserved max_ keep src)) [] = Ok es ∧
        ∀ evs js2, Forall2 delivers es evs → never_lost js2 →
          ∃ w', RestoreOptions_restore to_lowercase (mk_restore_options false) (mk_world f2 js2) (Ok <$> evs) p2 = (w', Ok tt) ∧
            grown f2 (disk w') k2 t.
Proof.
  intros Hwalk Hp1 Ht Hok Hwf Hs Hd Hm Hjs Hr Hrf Hf Hsch Hp2 Ha2 Hsm.
  pose proof (dump_tree walk Hwalk (mk_dump_options false max_open_files) f1 p1 k1 t js fuel rfuel rooms
    Hp1 Ht Hok Hs Hd Hm Hjs Hr Hrf) as Hdump.
  change (map_names (shown _) t) with (map_names id t) in Hdump. rewrite map_names_id in Hdump.
  specialize (Hdump Hf). destruct (DumpOptions_dump walk _ f1 p1) as [d sm]. destruct Hdump as (js' & ws & Hrun & Hc).
  exists js', ws. split; [exact Hrun|]. split; [by eapply write_nar_spec|].
  intros src reserved max_ keep plans nfuel pfuel Hsrc Hro Hn Hpf.
  destruct (source_reader_inv reserved max_ keep src Hro) as (Hi & Hrest & Hpat).
  rewrite <-Hpat in Hn, Hpf. rewrite <-(app_nil_r (nar t)) in Hn.
  destruct (collect_nar nfuel pfuel true plans (reader_build reserved max_ keep src) t [])
    as (es & -> & Hes); [done|by rewrite Hrest, app_nil_r|done..|].
  exists es. split; [done|]. rewrite (event_read_eq _ _ Hes). intros evs js2 Hev Hjs2.
  pose proof (disk_tree_ok to_lowercase false t Hok Hsm) as Hdok.
  destruct (restore_goes to_lowercase false f2 p2 k2 t evs (Hdok ltac:(done)) Hsm Hev Hp2 Ha2 js2 Hjs2)
    as (js3 & E).
  eexists. split; [exact E|]. rewrite disk_tree_plain. by apply graft_grown.
Qed.

(** The tree of the examples on a file system. *)
Definition packed_fs : fs :=
  with_files sample_fs (graft 18 [str "nix"; str "store"; str "out"] sample_dir (files sample_fs)).

Lemma packed_place : place packed_fs (path_join (str "/nix/store") (str "out")) [str "nix"; str "store"; str "out"].
Proof.
  apply (place_mono sample_fs); [|reflexivity|apply sample_place; by_decide].
  apply graft_extends, sample_absent.
Qed.

Lemma packed_tree : tree_on packed_fs [str "nix"; str "store"; str "out"] sample_dir.
Proof.
  apply tree_at_on; [reflexivity|]. apply (graft_grown sample_fs); [apply sample_dir_ok|apply sample_absent].
Qed.

Lemma pack_unpack_witness :
  let p := path_join (str "/nix/store") (str "out") in
  let '(d, sm) := DumpOptions_dump map_walk (mk_dump_options false 2) packed_fs p in
  ∃ js' ws, dump_collect 20 20 [] (mk_world packed_fs [JoinPending]) sm d [] = (mk_world packed_fs js', sm, Ok ws) ∧
    write_nar (mk_sink [] [None; Some 5]) ws = Ok (nar sample_dir) ∧
    ∃ es, collect (Z.to_nat 5000) (Z.to_nat 1000) true []
            (parser_new (reader_build 16 4096 (λ _, []) (pieces 400 7 (nar sample_dir)))) [] = Ok es ∧
      ∀ evs js2, Forall2 delivers es evs → never_lost js2 →
        ∃ w', RestoreOptions_restore ascii_lower (mk_restore_options false) (mk_world sample_fs js2) (Ok <$> evs) p = (w', Ok tt) ∧
          grown sample_fs (disk w') [str "nix"; str "store"; str "out"] sample_dir.
Proof.
  intros p. destruct sample_dir_ok as (Hok & Hsm & _ & Hs & Hwf).
  destruct (pack_unpack map_walk ascii_lower 2 packed_fs sample_fs [JoinPending] p p
    [str "nix"; str "store"; str "out"] [str "nix"; str "store"; str "out"] sample_dir 20 20 []
    [None; Some 5]) as (js' & ws & Hrun & Hw & Hread).
  - exact map_walk_lists.
  - exact packed_place.
  - exact packed_tree.
  - exact Hok.
  - exact Hwf.
  - exact Hs.
  - cbn. unfold u32_max. lia.
  - lia.
  - repeat constructor; discriminate.
  - constructor.
  - cbn. lia.
  - cbn. lia.
  - repeat constructor; discriminate.
  - apply sample_place. by_decide.
  - apply sample_absent.
  - exact Hsm.
  - exists js', ws. split; [exact Hrun|]. split; [exact Hw|]. apply Hread.
    + vm_compute. reflexivity.
    + split; [apply pieces_ok; lia|]. split; [lia|]. split; [vm_compute; lia|].
      intros l. apply list_subseteq_nil.
    + apply Nat.ltb_lt. vm_compute. reflexivity.
    + apply Nat.ltb_lt. vm_compute. reflexivity.
Defined.
