(* ===== verification/StoreDb.v ===== *)
(** The store database ([harmonia-store-db/src]): the tables of the schema, the
    statements that change them ([write.rs]), the queries ([query.rs]) and the
    rows they give ([types.rs]), and how a connection is opened
    ([connection.rs]).

    The tables are lists of rows, typed as the schema declares its columns. The
    statements are the SQL text of the source read as SQLite documents it:
    uniqueness, [AUTOINCREMENT], [INSERT OR REPLACE], foreign keys with their
    actions and the triggers of the schema. A statement (or a transaction)
    that fails leaves the tables as they were. SQL leaves the order of the rows
    of a result open: it is a parameter, the class [Planner]. *)

From stdpp Require Import base list numbers strings.
From Stdlib Require Import ZArith Lia Strings.Byte.
From S2P Require Import Prelude NixCodec.

(** ** Machine integers and times *)

Definition i64_min : Z := -9223372036854775808.
Definition i64_max : Z := 9223372036854775807.

(** [as i64] of a [u64]. *)
Definition as_i64 (z : Z) : Z := if (z <=? i64_max)%Z then z else (z - u64_modulus)%Z.

(** Negation of an [i64], with overflow checks. *)
Definition neg_i64 {E : Type} (z : Z) : res E Z := if (z =? i64_min)%Z then Panic else Ok (- z)%Z.

(** A [SystemTime] is the number of nanoseconds since the epoch. *)
Definition SystemTime : Type := Z.
Definition nanos_per_sec : Z := 1000000000.

Definition unix_to_system_time {E : Type} (timestamp : Z) : res E SystemTime :=
  if (0 <=? timestamp)%Z then Ok (timestamp * nanos_per_sec)%Z
  else s ← neg_i64 timestamp; Ok (- (s * nanos_per_sec))%Z.

Definition system_time_to_unix {E : Type} (time : SystemTime) : res E Z :=
  if (0 <=? time)%Z then Ok (as_i64 (time / nanos_per_sec))
  else neg_i64 (as_i64 ((- time) / nanos_per_sec)).

(** ** Strings *)

#[export] Instance bytes_ord : Ord bytes := bytes_cmp.

(** The length of the white space character (Unicode's [White_Space]) that a
    string starts with. The scan may go byte by byte: in UTF-8 no character
    starts inside another. *)
Definition whitespace_at (s : bytes) : option nat :=
  match s with
  | ("009" | "010" | "011" | "012" | "013" | " ") :: _ => Some 1
  | xc2 :: (x85 | xa0) :: _ => Some 2
  | xe1 :: x9a :: x80 :: _ => Some 3
  | xe2 :: x80 :: (x80 | x81 | x82 | x83 | x84 | x85 | x86 | x87 | x88 | x89 | x8a | xa8 | xa9 | xaf) :: _ => Some 3
  | xe2 :: x81 :: x9f :: _ => Some 3
  | xe3 :: x80 :: x80 :: _ => Some 3
  | _ => None
  end%byte.

(** [split_whitespace]: [skip] bytes of a white space character are still to be
    passed over, [word] is the word read so far, in reverse. *)
Fixpoint split_words (skip : nat) (word : bytes) (s : bytes) : list bytes :=
  let flush := if word is [] then [] else [rev word] in
  match s with
  | [] => flush
  | b :: s' =>
      match skip, whitespace_at s with
      | S skip, _ => split_words skip word s'
      | 0, Some n => flush ++ split_words (n - 1) [] s'
      | 0, None => split_words 0 (b :: word) s'
      end
  end.

Definition split_whitespace (s : bytes) : list bytes := split_words 0 [] s.

(** ** The schema *)

Record ValidPathsRow : Type := mk_row {
  r_id : Z;
  r_path : bytes;
  r_hash : bytes;
  r_registrationTime : Z;
  r_deriver : option bytes;
  r_narSize : option Z;
  r_ultimate : option Z;
  r_sigs : option bytes;
  r_ca : option bytes
}.

Record PathRef : Type := mk_ref { referrer_id : Z; reference_id : Z }.

Record DerivationOutput : Type := mk_output { drv_id : Z; output_id : bytes; out_path : bytes }.

Record Realisation : Type := mk_realisation {
  rl_id : Z;
  rl_drv_path : bytes;
  rl_output_name : bytes;
  rl_output_path_id : Z;
  rl_signatures : option bytes
}.

Record RealisationRef : Type := mk_realisation_ref { rr_referrer : Z; rr_reference : option Z }.

#[export] Instance ValidPathsRow_eq_dec : EqDecision ValidPathsRow.
Proof. solve_decision. Defined.
#[export] Instance PathRef_eq_dec : EqDecision PathRef.
Proof. solve_decision. Defined.
#[export] Instance DerivationOutput_eq_dec : EqDecision DerivationOutput.
Proof. solve_decision. Defined.

(** [SCHEMA_SQL]; the numbers are the last identifiers given out
    ([AUTOINCREMENT] gives none twice). *)
Record Core : Type := mk_core {
  ValidPaths : list ValidPathsRow;
  ValidPaths_seq : Z;
  Refs : list PathRef;
  DerivationOutputs : list DerivationOutput
}.

(** [CA_SCHEMA_SQL]. *)
Record Ca : Type := mk_ca {
  Realisations : list Realisation;
  Realisations_seq : Z;
  RealisationsRefs : list RealisationRef
}.

Definition SCHEMA_SQL : Core := mk_core [] 0 [] [].
Definition CA_SCHEMA_SQL : Ca := mk_ca [] 0 [].

(** ** Connections *)

Inductive sqlite_error : Type :=
| NoSuchTable | ReadOnlyDatabase | ConstraintUnique | ConstraintForeignKey | DatabaseFull
| QueryReturnedNoRows | IntegralValueOutOfRange | CannotOpen.

Inductive Error : Type :=
| Sqlite (e : sqlite_error)
| DatabaseOpen (path : bytes) (source : sqlite_error)
| InvalidStorePath (s : bytes)
| PathNotFound (s : bytes)
| DatabaseNotFound (path : bytes)
| SchemaVersionMismatch (expected found : Z)
| InvalidSignature (s : bytes)
| InvalidContentAddress (s : bytes).

Inductive OpenMode : Type := ReadOnly | ReadWrite | Create.

Record StoreDb : Type := mk_db {
  db_core : option Core;
  db_ca : option Ca;
  db_foreign_keys : bool;
  db_read_only : bool
}.

(** What is found at the path of a database: a database with the tables it
    has, or a file that SQLite does not open. *)
Definition file : Type := res sqlite_error (option Core * option Ca).

(** [PRAGMA foreign_keys] concerns the connection only. *)
Definition configure_pragmas (db : StoreDb) : StoreDb :=
  mk_db (db_core db) (db_ca db) true (db_read_only db).

(** [create table if not exists]. *)
Definition create_schema (db : StoreDb) : StoreDb * res Error unit :=
  if db_read_only db && negb (bool_decide (is_Some (db_core db) ∧ is_Some (db_ca db)))
  then (db, Err (Sqlite ReadOnlyDatabase))
  else (mk_db (Some (default SCHEMA_SQL (db_core db))) (Some (default CA_SCHEMA_SQL (db_ca db)))
          (db_foreign_keys db) (db_read_only db), Ok tt).

(** [foreign_keys] is the default of the SQLite library. *)
Definition open_with_flags (foreign_keys : bool) (path : bytes) (read_only : bool) (f : file) : res Error StoreDb :=
  match f with
  | Ok (core, ca) => Ok (mk_db core ca foreign_keys read_only)
  | Err e => Err (DatabaseOpen path e)
  | Panic => Panic
  end.

Definition open_system_at (foreign_keys : bool) (path : bytes) (disk : option file) : res Error StoreDb :=
  f ← ok_or disk (DatabaseNotFound path);
  open_with_flags foreign_keys path true f.

Definition open_system (foreign_keys : bool) (disk : option file) : res Error StoreDb :=
  open_system_at foreign_keys (str "/nix/var/nix/db/db.sqlite") disk.

Definition open (foreign_keys : bool) (path : bytes) (disk : option file) (mode : OpenMode) : res Error StoreDb :=
  match mode with
  | ReadOnly => f ← ok_or disk (DatabaseNotFound path); open_with_flags foreign_keys path true f
  | ReadWrite => f ← ok_or disk (DatabaseNotFound path); open_with_flags foreign_keys path false f
  | Create =>
      db ← open_with_flags foreign_keys path false (default (Ok (None, None)) disk);
      Ok (configure_pragmas db)
  end.

Definition open_memory (foreign_keys : bool) : res Error StoreDb :=
  let '(db, r) := create_schema (configure_pragmas (mk_db None None foreign_keys false)) in
  _ ← r; Ok db.

Definition has_schema (db : StoreDb) : bool := bool_decide (is_Some (db_core db)).
Definition has_ca_schema (db : StoreDb) : bool := bool_decide (is_Some (db_ca db)).

Definition core_of (db : StoreDb) : res Error Core := ok_or (db_core db) (Sqlite NoSuchTable).
Definition ca_of (db : StoreDb) : res Error Ca := ok_or (db_ca db) (Sqlite NoSuchTable).
Definition writable (db : StoreDb) : res Error unit :=
  if db_read_only db then Err (Sqlite ReadOnlyDatabase) else Ok tt.

(** A statement or a transaction: its changes are kept when it succeeds and
    undone when it does not. *)
Definition execute {A : Type} (db : StoreDb) (f : res Error (Core * option Ca * A)) : StoreDb * res Error A :=
  match f with
  | Ok (core, ca, a) => (mk_db (Some core) ca (db_foreign_keys db) (db_read_only db), Ok a)
  | Err e => (db, Err e)
  | Panic => (db, Panic)
  end.

(** ** Statements *)

(** [SELECT ... FROM ValidPaths WHERE path = ?1] and [WHERE id = ?1]. *)
Definition select_path (c : Core) (path : bytes) : list ValidPathsRow :=
  filter (λ r, r_path r = path) (ValidPaths c).
Definition select_id (c : Core) (id : Z) : list ValidPathsRow := filter (λ r, r_id r = id) (ValidPaths c).

Definition ids (c : Core) : list Z := r_id <$> ValidPaths c.
Definition paths (c : Core) : list bytes := r_path <$> ValidPaths c.

Definition foreign_key (foreign_keys : bool) (ok : bool) : res Error unit :=
  if foreign_keys && negb ok then Err (Sqlite ConstraintForeignKey) else Ok tt.

(** [INSERT OR REPLACE INTO Refs]. *)
Definition insert_ref (fk : bool) (c : Core) (x : PathRef) : res Error Core :=
  _ ← foreign_key fk (bool_decide (referrer_id x ∈ ids c ∧ reference_id x ∈ ids c));
  Ok (mk_core (ValidPaths c) (ValidPaths_seq c) (filter (λ y, y ≠ x) (Refs c) ++ [x]) (DerivationOutputs c)).

(** [INSERT OR REPLACE INTO DerivationOutputs]. *)
Definition insert_output (fk : bool) (c : Core) (x : DerivationOutput) : res Error Core :=
  _ ← foreign_key fk (bool_decide (drv_id x ∈ ids c));
  Ok (mk_core (ValidPaths c) (ValidPaths_seq c) (Refs c)
        (filter (λ y, ¬ (drv_id y = drv_id x ∧ output_id y = output_id x)) (DerivationOutputs c) ++ [x])).

(** One statement for each element of a list, as long as they succeed. *)
Fixpoint each {A : Type} (f : Core → A → res Error Core) (c : Core) (l : list A) : res Error Core :=
  match l with [] => Ok c | x :: l => c ← f c x; each f c l end.

(** *** Paths *)

Record RegisterPathParams : Type := mk_params {
  p_path : bytes;
  p_hash : bytes;
  p_registration_time : SystemTime;
  p_deriver : option bytes;
  p_nar_size : option Z;
  p_ultimate : bool;
  p_sigs : option bytes;
  p_ca : option bytes;
  p_references : BTreeSet bytes
}.

Definition RegisterPathParams_default (now : SystemTime) : RegisterPathParams :=
  mk_params [] [] now None None false None None (mk_set []).

(** [INSERT INTO ValidPaths]; the identifier is [last_insert_rowid]. *)
Definition insert_valid_path (c : Core) (params : RegisterPathParams) : res Error (Core * Z) :=
  time ← system_time_to_unix (p_registration_time params);
  if (ValidPaths_seq c =? i64_max)%Z then Err (Sqlite DatabaseFull)
  else if bool_decide (p_path params ∈ paths c) then Err (Sqlite ConstraintUnique)
  else
    let id := (ValidPaths_seq c + 1)%Z in
    let row := mk_row id (p_path params) (p_hash params) time (p_deriver params)
      (as_i64 <$> p_nar_size params) (Some (if p_ultimate params then 1 else 0)%Z) (p_sigs params) (p_ca params) in
    Ok (mk_core (ValidPaths c ++ [row]) id (Refs c) (DerivationOutputs c), id).

Definition add_reference_to (fk : bool) (id : Z) (c : Core) (reference : bytes) : res Error Core :=
  match head (select_path c reference) with
  | Some r => insert_ref fk c (mk_ref id (r_id r))
  | None => Ok c
  end.

Definition register_valid_path (db : StoreDb) (params : RegisterPathParams) : StoreDb * res Error Z :=
  execute db (
    c ← core_of db; _ ← writable db;
    '(c, id) ← insert_valid_path c params;
    c ← each (add_reference_to (db_foreign_keys db) id) c (elems (p_references params));
    Ok (c, db_ca db, id)).

Definition add_reference (db : StoreDb) (referrer_path reference_path : bytes) : StoreDb * res Error unit :=
  execute db (
    c ← core_of db; _ ← writable db;
    let rows := r ← select_path c referrer_path; f ← select_path c reference_path; [mk_ref (r_id r) (r_id f)] in
    c ← each (insert_ref (db_foreign_keys db)) c rows;
    Ok (c, db_ca db, tt)).

(** A scalar subquery is the value of its first row; nothing is equal to the
    [NULL] of an empty one. *)
Definition remove_reference (db : StoreDb) (referrer_path reference_path : bytes) : StoreDb * res Error unit :=
  execute db (
    c ← core_of db; _ ← writable db;
    let a := r_id <$> head (select_path c referrer_path) in
    let b := r_id <$> head (select_path c reference_path) in
    Ok (mk_core (ValidPaths c) (ValidPaths_seq c)
          (filter (λ x, ¬ (a = Some (referrer_id x) ∧ b = Some (reference_id x))) (Refs c))
          (DerivationOutputs c), db_ca db, tt)).

Definition register_derivation_output (db : StoreDb) (drv_path output_id output_path : bytes) :
    StoreDb * res Error unit :=
  execute db (
    c ← core_of db; _ ← writable db;
    let rows := (λ v, mk_output (r_id v) output_id output_path) <$> select_path c drv_path in
    c ← each (insert_output (db_foreign_keys db)) c rows;
    Ok (c, db_ca db, tt)).

(** The triggers before a row of [ValidPaths] is deleted. *)
Definition DeleteSelfRefs (c : Core) (id : Z) : Core :=
  mk_core (ValidPaths c) (ValidPaths_seq c)
    (filter (λ x, ¬ (referrer_id x = id ∧ reference_id x = id)) (Refs c)) (DerivationOutputs c).

Definition realised (k : Ca) (id : Z) : list Z := rl_id <$> filter (λ r, rl_output_path_id r = id) (Realisations k).

Definition DeleteSelfRefsViaRealisations (k : Ca) (id : Z) : Ca :=
  mk_ca (Realisations k) (Realisations_seq k)
    (filter (λ x, rr_reference x ∉ Some <$> realised k id) (RealisationsRefs k)).

(** What the deletion of a path does to the tables that refer to it: [on
    delete restrict] and [on delete cascade]. *)
Definition cascade_core (c : Core) (id : Z) : res Error Core :=
  if bool_decide (id ∈ reference_id <$> Refs c) then Err (Sqlite ConstraintForeignKey)
  else Ok (mk_core (ValidPaths c) (ValidPaths_seq c) (filter (λ x, referrer_id x ≠ id) (Refs c))
             (filter (λ x, drv_id x ≠ id) (DerivationOutputs c))).

Definition cascade_ca (k : Ca) (id : Z) : res Error Ca :=
  let gone := realised k id in
  if bool_decide (Exists (λ x, rr_reference x ∈ Some <$> gone) (RealisationsRefs k))
  then Err (Sqlite ConstraintForeignKey)
  else Ok (mk_ca (filter (λ r, rl_output_path_id r ≠ id) (Realisations k)) (Realisations_seq k)
             (filter (λ x, rr_referrer x ∉ gone) (RealisationsRefs k))).

Definition delete_valid_path (fk : bool) (c : Core) (ca : option Ca) (id : Z) : res Error (Core * option Ca) :=
  let c := DeleteSelfRefs c id in
  let ca := (λ k, DeleteSelfRefsViaRealisations k id) <$> ca in
  '(c, ca) ← (if fk then
    c ← cascade_core c id;
    match ca with None => Ok (c, None) | Some k => k ← cascade_ca k id; Ok (c, Some k) end
  else Ok (c, ca));
  Ok (mk_core (filter (λ r, r_id r ≠ id) (ValidPaths c)) (ValidPaths_seq c) (Refs c) (DerivationOutputs c), ca).

(** [path] is unique: there is at most one row to delete. *)
Definition invalidate_path (db : StoreDb) (path : bytes) : StoreDb * res Error bool :=
  execute db (
    c ← core_of db; _ ← writable db;
    match select_path c path with
    | [] => Ok (c, db_ca db, false)
    | r :: _ =>
        '(c, ca) ← delete_valid_path (db_foreign_keys db) c (db_ca db) (r_id r);
        Ok (c, ca, true)
    end).

Definition set_sigs (sigs : bytes) (r : ValidPathsRow) : ValidPathsRow :=
  mk_row (r_id r) (r_path r) (r_hash r) (r_registrationTime r) (r_deriver r) (r_narSize r) (r_ultimate r)
    (Some sigs) (r_ca r).

Definition update_signatures (db : StoreDb) (path sigs : bytes) : StoreDb * res Error unit :=
  execute db (
    c ← core_of db; _ ← writable db;
    let rows := (λ r, if bool_decide (r_path r = path) then set_sigs sigs r else r) <$> ValidPaths c in
    Ok (mk_core rows (ValidPaths_seq c) (Refs c) (DerivationOutputs c), db_ca db, tt)).

(** *** Realisations *)

(** A statement on the tables of realisations. *)
Definition execute_ca {A : Type} (db : StoreDb) (f : res Error (Ca * A)) : StoreDb * res Error A :=
  match f with
  | Ok (ca, a) => (mk_db (db_core db) (Some ca) (db_foreign_keys db) (db_read_only db), Ok a)
  | Err e => (db, Err e)
  | Panic => (db, Panic)
  end.

Definition register_realisation (db : StoreDb) (drv_path output_name : bytes) (output_path_id : Z)
    (signatures : option bytes) : StoreDb * res Error Z :=
  execute_ca db (
    k ← ca_of db; _ ← writable db;
    if (Realisations_seq k =? i64_max)%Z then Err (Sqlite DatabaseFull) else
    let id := (Realisations_seq k + 1)%Z in
    _ ← (if db_foreign_keys db
         then c ← core_of db; foreign_key true (bool_decide (output_path_id ∈ ids c)) else Ok tt);
    Ok (mk_ca (Realisations k ++ [mk_realisation id drv_path output_name output_path_id signatures]) id
          (RealisationsRefs k), id)).

Definition add_realisation_reference (db : StoreDb) (referrer_id reference_id : Z) : StoreDb * res Error unit :=
  execute_ca db (
    k ← ca_of db; _ ← writable db;
    _ ← foreign_key (db_foreign_keys db)
          (bool_decide (referrer_id ∈ rl_id <$> Realisations k ∧ reference_id ∈ rl_id <$> Realisations k));
    Ok (mk_ca (Realisations k) (Realisations_seq k)
          (RealisationsRefs k ++ [mk_realisation_ref referrer_id (Some reference_id)]), tt)).

(** ** Queries *)

(** The order in which SQLite gives the rows of a query without [ORDER BY]: of
    the rows of [ValidPaths] for [path >= ?1], and of the result of a query. *)
Class Planner : Type := {
  range_scan : list ValidPathsRow → list ValidPathsRow;
  scan : ∀ {A : Type}, list A → list A
}.

Class PlannerLaws {P : Planner} : Prop := {
  range_scan_perm l : range_scan l ≡ₚ l;
  scan_perm {A : Type} (l : list A) : scan l ≡ₚ l
}.

Record ValidPathInfo : Type := mk_info {
  vp_id : Z;
  vp_path : bytes;
  vp_hash : bytes;
  vp_registration_time : SystemTime;
  vp_deriver : option bytes;
  vp_nar_size : option Z;
  vp_ultimate : bool;
  vp_sigs : option bytes;
  vp_ca : option bytes;
  vp_references : BTreeSet bytes
}.

Definition signatures (info : ValidPathInfo) : list bytes :=
  default [] (split_whitespace <$> vp_sigs info).

(** [trim] of a text is empty when the text is only white space. *)
Fixpoint blank (skip : nat) (s : bytes) : bool :=
  match s with
  | [] => true
  | _ :: s' =>
      match skip, whitespace_at s with
      | S skip, _ => blank skip s'
      | 0, Some n => blank (n - 1) s'
      | 0, None => false
      end
  end.

Definition is_signed (info : ValidPathInfo) : bool :=
  match vp_sigs info with Some s => negb (blank 0 s) | None => false end.

(** [row.get::<_, Option<i32>>]. *)
Definition get_i32 (v : option Z) : res Error (option Z) :=
  match v with
  | Some z => if (-2147483648 <=? z)%Z && (z <=? 2147483647)%Z then Ok v else Err (Sqlite IntegralValueOutOfRange)
  | None => Ok None
  end.

(** The rows of a query, inserted into a [BTreeSet]. *)
Definition collect_set (l : list bytes) : BTreeSet bytes := mk_set (fold_left (λ s x, insert_elem x s) l []).

Section queries.
Context {P : Planner}.

Definition query_references_by_id (c : Core) (id : Z) : BTreeSet bytes :=
  collect_set (scan (r ← filter (λ x, referrer_id x = id) (Refs c); r_path <$> select_id c (reference_id r))).

(** [row.get] of each column, and then the references. *)
Definition info_of_row (c : Core) (r : ValidPathsRow) : res Error ValidPathInfo :=
  time ← unix_to_system_time (r_registrationTime r);
  ultimate ← get_i32 (r_ultimate r);
  Ok (mk_info (r_id r) (r_path r) (r_hash r) time (r_deriver r) (wrap_u64 <$> r_narSize r)
        (negb (default 0 ultimate =? 0)%Z) (r_sigs r) (r_ca r) (query_references_by_id c (r_id r))).

Definition first_info (c : Core) (rows : list ValidPathsRow) : res Error (option ValidPathInfo) :=
  match rows with
  | [] => Ok None
  | r :: _ => info ← info_of_row c r; Ok (Some info)
  end.

Definition query_path_info (db : StoreDb) (path : bytes) : res Error (option ValidPathInfo) :=
  c ← core_of db; first_info c (select_path c path).

Definition query_path_info_by_id (db : StoreDb) (id : Z) : res Error (option ValidPathInfo) :=
  c ← core_of db; first_info c (select_id c id).

Definition query_path_from_hash_part (db : StoreDb) (store_dir hash_part : bytes) : res Error (option bytes) :=
  let prefix := store_dir ++ str "/" ++ hash_part in
  c ← core_of db;
  Ok (match head (filter (λ r, bytes_cmp (r_path r) prefix ≠ Lt) (range_scan (ValidPaths c))) with
      | Some r => if bool_decide (prefix `prefix_of` r_path r) then Some (r_path r) else None
      | None => None
      end).

Definition is_valid_path (db : StoreDb) (path : bytes) : res Error bool :=
  c ← core_of db;
  Ok (match head (select_path c path) with Some _ => true | None => false end).

Definition query_references (db : StoreDb) (path : bytes) : res Error (BTreeSet bytes) :=
  c ← core_of db;
  let id := r_id <$> head (select_path c path) in
  Ok (collect_set (scan (r ← filter (λ x, id = Some (referrer_id x)) (Refs c);
    r_path <$> select_id c (reference_id r)))).

Definition query_referrers (db : StoreDb) (path : bytes) : res Error (BTreeSet bytes) :=
  c ← core_of db;
  let id := r_id <$> head (select_path c path) in
  Ok (collect_set (scan (r ← filter (λ x, id = Some (reference_id x)) (Refs c);
    r_path <$> select_id c (referrer_id r)))).

Definition query_valid_derivers (db : StoreDb) (output_path : bytes) : res Error (list bytes) :=
  c ← core_of db;
  Ok (scan (d ← filter (λ d, out_path d = output_path) (DerivationOutputs c); r_path <$> select_id c (drv_id d))).

Definition query_derivation_outputs (db : StoreDb) (drv_path : bytes) : res Error (list DerivationOutput) :=
  c ← core_of db;
  Ok (scan (d ← DerivationOutputs c; v ← filter (λ v, r_path v = drv_path) (select_id c (drv_id d)); [d])).

Definition query_all_valid_paths (db : StoreDb) : res Error (list bytes) :=
  c ← core_of db; Ok (scan (paths c)).

Definition count_valid_paths (db : StoreDb) : res Error Z :=
  c ← core_of db; Ok (wrap_u64 (Z.of_nat (length (ValidPaths c)))).

Definition query_realisation (db : StoreDb) (drv_path output_name : bytes) : res Error (option Realisation) :=
  k ← ca_of db;
  Ok (head (scan (filter (λ r, rl_drv_path r = drv_path ∧ rl_output_name r = output_name) (Realisations k)))).
End queries.
