(* ===== verification/StoreDbSpec.v ===== *)
(** The store database against a specification without tables: a finite map
    from paths to what is known of them, their references included. The
    invariant of the tables (keys, foreign keys, ranges of the columns), each
    statement of [write.rs] as an operation on the map, and the queries of
    [query.rs] as functions of it. *)

From stdpp Require Import base list numbers strings gmap.
From Stdlib Require Import ZArith Lia Strings.Byte.
From S2P Require Import Prelude FileSystem NixCodec StoreDb.

(** ** Times *)

(** Subseconds are cut off towards the epoch. *)
Definition whole_seconds (t : SystemTime) : SystemTime := (Z.quot t nanos_per_sec * nanos_per_sec)%Z.

Definition time_ok (t : SystemTime) : Prop := (i64_min * nanos_per_sec < t ≤ i64_max * nanos_per_sec)%Z.

Lemma as_i64_small z : (z ≤ i64_max)%Z → as_i64 z = z.
Proof. intros Hz. unfold as_i64. by rewrite (proj2 (Z.leb_le _ _) Hz). Qed.

Lemma as_i64_wrap n : is_u64 n → wrap_u64 (as_i64 n) = n.
Proof.
  unfold is_u64, as_i64, wrap_u64. intros Hn. destruct (n <=? i64_max)%Z.
  - by apply Z.mod_small.
  - replace (n - u64_modulus)%Z with (n + (-1) * u64_modulus)%Z by lia.
    rewrite Z.mod_add by done. by apply Z.mod_small.
Qed.

Lemma system_time_to_unix_ok {E} t : time_ok t →
  system_time_to_unix (E := E) t = Ok (Z.quot t nanos_per_sec) ∧ (i64_min < Z.quot t nanos_per_sec ≤ i64_max)%Z.
Proof.
  unfold time_ok, system_time_to_unix, i64_min, i64_max, nanos_per_sec. intros Ht. destruct (0 <=? t)%Z eqn:E0.
  - apply Z.leb_le in E0. rewrite Z.quot_div_nonneg by lia.
    assert (0 ≤ t / 1000000000 ≤ 9223372036854775807)%Z.
    { split; [apply Z.div_pos; lia|]. apply Z.div_le_upper_bound; lia. }
    rewrite as_i64_small by (unfold i64_max; lia). split; [done|lia].
  - apply Z.leb_gt in E0.
    assert (Z.quot t 1000000000 = - (- t / 1000000000))%Z as Eq.
    { rewrite <-(Z.opp_involutive t) at 1. rewrite Z.quot_opp_l by lia. by rewrite Z.quot_div_nonneg by lia. }
    assert (0 ≤ - t / 1000000000 < 9223372036854775808)%Z.
    { split; [apply Z.div_pos; lia|]. apply Z.div_lt_upper_bound; lia. }
    rewrite as_i64_small by (unfold i64_max; lia). unfold neg_i64, i64_min. rewrite (proj2 (Z.eqb_neq _ _)) by lia.
    rewrite Eq. split; [done|lia].
Qed.

Lemma unix_to_system_time_ok {E} s : (i64_min < s)%Z → unix_to_system_time (E := E) s = Ok (s * nanos_per_sec)%Z.
Proof.
  intros Hs. unfold unix_to_system_time, neg_i64. destruct (0 <=? s)%Z; [done|].
  rewrite (proj2 (Z.eqb_neq _ _)) by lia. cbn. f_equal. lia.
Qed.

(** ** Sets of strings *)

#[export] Instance bytes_ord_laws : OrdLaws bytes.
Proof.
  split; [apply bytes_cmp_eq|intros a b; apply bytes_cmp_antisym|intros a b c; apply bytes_cmp_trans].
Qed.

Section sets.
Context {T : Type} {HO : Ord T} {HOL : OrdLaws T}.

Lemma elem_of_insert_elem (x y : T) l : x ∈ insert_elem y l ↔ x = y ∨ x ∈ l.
Proof.
  induction l as [|z l IH]; cbn; [set_solver|]. destruct (cmp y z) eqn:E.
  - apply cmp_eq in E as ->. set_solver.
  - set_solver.
  - set_solver.
Qed.

Lemma elem_of_insert_elems (x : T) l acc : x ∈ fold_left (λ s x, insert_elem x s) l acc ↔ x ∈ l ∨ x ∈ acc.
Proof.
  revert acc. induction l as [|y l IH]; intros acc; cbn; [set_solver|].
  rewrite IH, elem_of_insert_elem. set_solver.
Qed.

Lemma ascending_cons (x : T) l : ascending (x :: l) ↔ Forall (λ y, cmp x y = Lt) l ∧ ascending l.
Proof. split; [intros Hs; inversion Hs; by subst|by intros [??]; constructor]. Qed.

(** A set is determined by its elements. *)
Lemma ascending_unique (l1 l2 : list T) :
  ascending l1 → ascending l2 → (∀ x, x ∈ l1 ↔ x ∈ l2) → l1 = l2.
Proof.
  revert l2. induction l1 as [|x l1 IH]; intros [|y l2] H1 H2 Hx.
  - done.
  - exfalso. assert (y ∈ @nil T) as Hy by (apply Hx; set_solver). inversion Hy.
  - exfalso. assert (x ∈ @nil T) as Hy by (apply Hx; set_solver). inversion Hy.
  - apply ascending_cons in H1 as [F1 S1]. apply ascending_cons in H2 as [F2 S2].
    rewrite Forall_forall in F1, F2.
    assert (x = y) as ->.
    { apply cmp_eq. destruct (cmp x y) eqn:E; [done| |].
      - assert (x ∈ y :: l2) as Hin by (apply Hx; set_solver).
        apply elem_of_cons in Hin as [->|Hin]; [by rewrite (proj2 (cmp_eq y y) eq_refl) in E|].
        apply F2 in Hin. by rewrite cmp_antisym, E in Hin.
      - assert (y ∈ x :: l1) as Hin by (apply Hx; set_solver).
        apply elem_of_cons in Hin as [->|Hin]; [by rewrite (proj2 (cmp_eq x x) eq_refl) in E|].
        apply F1 in Hin. congruence. }
    f_equal. apply IH; [done|done|]. intros z.
    assert (∀ l, Forall (λ w, cmp y w = Lt) l → y ∉ l) as Hy.
    { intros l F Hin. rewrite Forall_forall in F. apply F in Hin. by rewrite (proj2 (cmp_eq y y) eq_refl) in Hin. }
    pose proof (Hy l1). pose proof (Hy l2). rewrite !Forall_forall in *. set_solver.
Qed.

Lemma ascending_filter (Q : T → Prop) `{!∀ x, Decision (Q x)} l : ascending l → ascending (filter Q l).
Proof.
  induction l as [|x l IH]; [done|]. intros [F S]%ascending_cons. rewrite filter_cons. case_decide; [|by apply IH].
  apply ascending_cons. split; [|by apply IH]. rewrite Forall_forall in *. intros y [_ Hy]%list_elem_of_filter. by apply F.
Qed.
End sets.

Lemma elem_of_collect_set x l : x ∈ elems (collect_set l) ↔ x ∈ l.
Proof. unfold collect_set. cbn. rewrite elem_of_insert_elems. set_solver. Qed.

Lemma collect_set_ascending l : ascending (elems (collect_set l)).
Proof. apply insert_elems_ascending. constructor. Qed.

Lemma set_eq (s t : BTreeSet bytes) :
  ascending (elems s) → ascending (elems t) → (∀ x, x ∈ elems s ↔ x ∈ elems t) → s = t.
Proof. destruct s, t. cbn. intros ???. f_equal. by apply ascending_unique. Qed.

(** A path has signatures when there is a word among them. *)
Lemma split_words_word s : ∀ skip w, w ≠ [] → split_words skip w s ≠ [].
Proof.
  induction s as [|b s IH]; intros skip w Hw; cbn [split_words].
  - by destruct w.
  - destruct skip; [|by apply IH]. destruct (whitespace_at _); [by destruct w|by apply IH].
Qed.

Lemma blank_words s : ∀ skip, blank skip s = true ↔ split_words skip [] s = [].
Proof.
  induction s as [|b s IH]; intros skip; cbn [blank split_words]; [done|].
  destruct skip; [|apply IH]. destruct (whitespace_at _); [apply IH|]. split; [done|].
  intros E. by destruct (split_words_word s 0 [b]).
Qed.

Lemma is_signed_signatures info : is_signed info = true ↔ signatures info ≠ [].
Proof.
  unfold is_signed, signatures, split_whitespace. destruct (vp_sigs info) as [s|]; [|done]. cbn.
  rewrite negb_true_iff, <-not_true_iff_false. by rewrite blank_words.
Qed.

(** ** Keys *)

Section filters.
Context {A : Type} (Q : A → Prop) `{!∀ x, Decision (Q x)}.

Lemma filter_none (l : list A) : (∀ y, y ∈ l → ¬ Q y) → filter Q l = [].
Proof using Type.
  induction l as [|x l IH]; [done|]. intros Hl. rewrite filter_cons_False by (apply Hl; set_solver).
  apply IH. set_solver.
Qed.

Lemma filter_all (l : list A) : (∀ y, y ∈ l → Q y) → filter Q l = l.
Proof using Type.
  induction l as [|x l IH]; [done|]. intros Hl. rewrite filter_cons_True by (apply Hl; set_solver).
  f_equal. apply IH. set_solver.
Qed.
Lemma Forall_filter_keep (R : A → Prop) (l : list A) : Forall R l → Forall R (filter Q l).
Proof using Type. rewrite !Forall_forall. intros Hl x [_ Hx]%list_elem_of_filter. by apply Hl. Qed.
End filters.

Section keys.
Context {A K : Type} `{!EqDecision K} (f : A → K).

Lemma key_inj l x y : NoDup (f <$> l) → x ∈ l → y ∈ l → f x = f y → x = y.
Proof.
  induction l as [|z l IH]; cbn; [intros _ Hx; inversion Hx|].
  intros [Hz Hl]%NoDup_cons. rewrite !elem_of_cons. intros [->|Hx] [->|Hy] Ef; [done| | |by apply IH].
  - destruct Hz. rewrite Ef. by apply list_elem_of_fmap_2.
  - destruct Hz. rewrite <-Ef. by apply list_elem_of_fmap_2.
Qed.

Lemma select_key (l : list A) x : NoDup (f <$> l) → x ∈ l → filter (λ y, f y = f x) l = [x].
Proof.
  induction l as [|z l IH]; [intros _ Hx; inversion Hx|]. rewrite fmap_cons.
  intros [Hz Hl]%NoDup_cons. rewrite elem_of_cons, filter_cons. intros [->|Hx].
  - rewrite decide_True by done. f_equal. apply filter_none. intros y Hy Ef.
    destruct Hz. rewrite <-Ef. by apply list_elem_of_fmap_2.
  - rewrite decide_False; [by apply IH|]. intros Ef. destruct Hz. rewrite Ef. by apply list_elem_of_fmap_2.
Qed.

Lemma select_none (l : list A) k : k ∉ f <$> l → filter (λ y, f y = k) l = [].
Proof.
  intros Hk. apply filter_none. intros y Hy <-. destruct Hk. by apply list_elem_of_fmap_2.
Qed.
End keys.

(** ** The invariant *)

Definition row_ok (r : ValidPathsRow) : Prop :=
  (i64_min < r_registrationTime r ≤ i64_max)%Z ∧
  (∀ z, r_ultimate r = Some z → (-2147483648 ≤ z ≤ 2147483647)%Z).

(** The keys of the tables are unique, identifiers come from the sequence, and
    no row refers to a path that is not there. *)
Record core_wf (c : Core) : Prop := {
  wf_ids : NoDup (ids c);
  wf_paths : NoDup (paths c);
  wf_range : Forall (λ r, 0 < r_id r ≤ ValidPaths_seq c)%Z (ValidPaths c);
  wf_seq : (0 ≤ ValidPaths_seq c ≤ i64_max)%Z;
  wf_rows : Forall row_ok (ValidPaths c);
  wf_refs : Forall (λ x, referrer_id x ∈ ids c ∧ reference_id x ∈ ids c) (Refs c);
  wf_refs_key : NoDup (Refs c);
  wf_outputs : Forall (λ d, drv_id d ∈ ids c) (DerivationOutputs c);
  wf_outputs_key : NoDup ((λ d, (drv_id d, output_id d)) <$> DerivationOutputs c)
}.

Record ca_wf (c : Core) (k : Ca) : Prop := {
  wf_realisation_ids : NoDup (rl_id <$> Realisations k);
  wf_realisation_range : Forall (λ r, 0 < rl_id r ≤ Realisations_seq k)%Z (Realisations k);
  wf_realisation_seq : (0 ≤ Realisations_seq k ≤ i64_max)%Z;
  wf_realised : Forall (λ r, rl_output_path_id r ∈ ids c) (Realisations k);
  wf_realisation_refs : Forall (λ x, rr_referrer x ∈ rl_id <$> Realisations k ∧
    ∀ z, rr_reference x = Some z → z ∈ rl_id <$> Realisations k) (RealisationsRefs k)
}.

(** A database with its tables, opened for writing, with foreign keys on. *)
Definition db_wf (db : StoreDb) (c : Core) (k : Ca) : Prop :=
  db = mk_db (Some c) (Some k) true false ∧ core_wf c ∧ ca_wf c k.

Section rows.
Context {c : Core} (Hc : core_wf c).

Lemma path_inj r s : r ∈ ValidPaths c → s ∈ ValidPaths c → r_path r = r_path s → r = s.
Proof using Hc. apply key_inj, wf_paths, Hc. Qed.

Lemma id_inj r s : r ∈ ValidPaths c → s ∈ ValidPaths c → r_id r = r_id s → r = s.
Proof using Hc. apply key_inj, wf_ids, Hc. Qed.

Lemma select_path_in r : r ∈ ValidPaths c → select_path c (r_path r) = [r].
Proof using Hc. apply select_key, wf_paths, Hc. Qed.

Lemma select_id_in r : r ∈ ValidPaths c → select_id c (r_id r) = [r].
Proof using Hc. apply select_key, wf_ids, Hc. Qed.
End rows.

Lemma elem_of_ids c i : i ∈ ids c ↔ ∃ r, r ∈ ValidPaths c ∧ r_id r = i.
Proof. unfold ids. rewrite list_elem_of_fmap. naive_solver. Qed.

Lemma elem_of_paths c p : p ∈ paths c ↔ ∃ r, r ∈ ValidPaths c ∧ r_path r = p.
Proof. unfold paths. rewrite list_elem_of_fmap. naive_solver. Qed.

Lemma select_path_cases c p : core_wf c →
  (∃ r, r ∈ ValidPaths c ∧ r_path r = p ∧ select_path c p = [r]) ∨ (select_path c p = [] ∧ p ∉ paths c).
Proof.
  intros Hc. destruct (decide (p ∈ paths c)) as [Hp|Hp].
  - left. apply elem_of_paths in Hp as (r & Hr & <-). exists r. by rewrite select_path_in.
  - right. split; [|done]. by apply (select_none r_path).
Qed.

#[local] Arguments query_references_by_id : simpl never.

(** ** The specification *)

Abbreviation store_map := (gmap bytes ValidPathInfo) (only parsing).

(** What a row says of its path. *)
Definition decode {P : Planner} (c : Core) (r : ValidPathsRow) : ValidPathInfo :=
  mk_info (r_id r) (r_path r) (r_hash r) (r_registrationTime r * nanos_per_sec)%Z (r_deriver r)
    (wrap_u64 <$> r_narSize r) (negb (default 0 (r_ultimate r) =? 0)%Z) (r_sigs r) (r_ca r)
    (query_references_by_id c (r_id r)).

Definition store_view {P : Planner} (c : Core) : store_map :=
  list_to_map ((λ r, (r_path r, decode c r)) <$> ValidPaths c).

Definition set_references (refs : BTreeSet bytes) (i : ValidPathInfo) : ValidPathInfo :=
  mk_info (vp_id i) (vp_path i) (vp_hash i) (vp_registration_time i) (vp_deriver i) (vp_nar_size i)
    (vp_ultimate i) (vp_sigs i) (vp_ca i) refs.

Definition with_sigs (sigs : bytes) (i : ValidPathInfo) : ValidPathInfo :=
  mk_info (vp_id i) (vp_path i) (vp_hash i) (vp_registration_time i) (vp_deriver i) (vp_nar_size i)
    (vp_ultimate i) (Some sigs) (vp_ca i) (vp_references i).

(** The paths that refer to [p]. *)
Definition refers (m : store_map) (p q : bytes) : Prop := ∃ i, m !! q = Some i ∧ p ∈ elems (vp_references i).

(** A new path knows the references that are valid, itself included. *)
Definition spec_register (m : store_map) (id : Z) (params : RegisterPathParams) : store_map :=
  let path := p_path params in
  <[path := mk_info id path (p_hash params) (whole_seconds (p_registration_time params)) (p_deriver params)
      (p_nar_size params) (p_ultimate params) (p_sigs params) (p_ca params)
      (mk_set (filter (λ x, x = path ∨ is_Some (m !! x)) (elems (p_references params))))]> m.

Definition spec_add_reference (m : store_map) (a b : bytes) : store_map :=
  match m !! b with
  | Some _ => alter (λ i, set_references (mk_set (insert_elem b (elems (vp_references i)))) i) a m
  | None => m
  end.

Definition spec_remove_reference (m : store_map) (a b : bytes) : store_map :=
  alter (λ i, set_references (mk_set (filter (λ x, x ≠ b) (elems (vp_references i)))) i) a m.

Section view.
Context {P : Planner} {PL : PlannerLaws}.

Lemma elem_of_references c id x :
  x ∈ elems (query_references_by_id c id) ↔
  ∃ r, r ∈ ValidPaths c ∧ r_path r = x ∧ mk_ref id (r_id r) ∈ Refs c.
Proof using PL.
  unfold query_references_by_id. rewrite elem_of_collect_set, scan_perm.
  rewrite list_elem_of_bind. split.
  - intros ([a b] & Hx & Hy). apply list_elem_of_filter in Hy as [Ha Hy]. cbn in *. subst.
    apply list_elem_of_fmap in Hx as (r & -> & Hr). apply list_elem_of_filter in Hr as [<- Hr]. by exists r.
  - intros (r & Hr & <- & Hy). exists (mk_ref id (r_id r)). rewrite list_elem_of_filter, list_elem_of_fmap.
    split; [|done]. exists r. unfold select_id. by rewrite list_elem_of_filter.
Qed.

Lemma references_ext c c' id id' :
  (∀ x, x ∈ elems (query_references_by_id c id) ↔ x ∈ elems (query_references_by_id c' id')) →
  query_references_by_id c id = query_references_by_id c' id'.
Proof. intros Hx. apply set_eq; [apply collect_set_ascending..|done]. Qed.

Lemma store_view_Some c p i :
  core_wf c → (store_view c !! p = Some i) ↔ ∃ r, r ∈ ValidPaths c ∧ r_path r = p ∧ i = decode c r.
Proof.
  intros Hc. unfold store_view. rewrite <-(elem_of_list_to_map (M := gmap bytes)).
  - rewrite list_elem_of_fmap. naive_solver.
  - rewrite <-list_fmap_compose. apply (wf_paths c Hc).
Qed.

Lemma store_view_is_Some c p : core_wf c → is_Some (store_view c !! p) ↔ p ∈ paths c.
Proof.
  intros Hc. rewrite elem_of_paths. split.
  - intros [i (r & Hr & Hp & _)%store_view_Some]; [by exists r|done].
  - intros (r & Hr & <-). exists (decode c r). apply store_view_Some; [done|]. by exists r.
Qed.

Lemma store_view_None c p : core_wf c → store_view c !! p = None ↔ p ∉ paths c.
Proof. intros Hc. by rewrite <-(store_view_is_Some c p Hc), eq_None_not_Some. Qed.

Lemma store_view_in c r : core_wf c → r ∈ ValidPaths c → store_view c !! r_path r = Some (decode c r).
Proof. intros Hc Hr. apply store_view_Some; [done|]. by exists r. Qed.
End view.

(** ** References *)

(** A core with other references. *)
Definition with_refs (c : Core) (l : list PathRef) : Core :=
  mk_core (ValidPaths c) (ValidPaths_seq c) l (DerivationOutputs c).

Definition refs_ok (c : Core) (l : list PathRef) : Prop :=
  Forall (λ x, referrer_id x ∈ ids c ∧ reference_id x ∈ ids c) l ∧ NoDup l.

Lemma with_refs_wf c l : core_wf c → refs_ok c l → core_wf (with_refs c l).
Proof. intros [] []. by split. Qed.

Lemma insert_ref_ok c x : core_wf c → referrer_id x ∈ ids c → reference_id x ∈ ids c →
  ∃ l, insert_ref true c x = Ok (with_refs c l) ∧ refs_ok c l ∧ ∀ y, y ∈ l ↔ y = x ∨ y ∈ Refs c.
Proof.
  intros Hc Ha Hb. exists (filter (λ y, y ≠ x) (Refs c) ++ [x]). unfold insert_ref, foreign_key.
  rewrite bool_decide_true by done. split_and!; [done| |].
  - split.
    + apply Forall_app. split; [|by repeat constructor]. apply Forall_filter_keep, (wf_refs c Hc).
    + apply NoDup_app. split_and!; [apply NoDup_filter, (wf_refs_key c Hc)| |apply NoDup_singleton].
      intros y [? _]%list_elem_of_filter. by rewrite list_elem_of_singleton.
  - intros y. rewrite elem_of_app, list_elem_of_filter, list_elem_of_singleton.
    destruct (decide (y = x)); naive_solver.
Qed.

Lemma add_references_ok id l : ∀ c, core_wf c → id ∈ ids c →
  ∃ k, each (add_reference_to true id) c l = Ok (with_refs c k) ∧ refs_ok c k ∧
    ∀ y, y ∈ k ↔ y ∈ Refs c ∨ ∃ r, r ∈ ValidPaths c ∧ r_path r ∈ l ∧ y = mk_ref id (r_id r).
Proof.
  induction l as [|p l IH]; intros c Hc Hid; cbn [each].
  { exists (Refs c). split_and!; [by destruct c|split; apply Hc|]. set_solver. }
  destruct (select_path_cases c p Hc) as [(r & Hr & <- & Es)|[Es Hp]].
  - assert (add_reference_to true id c (r_path r) = insert_ref true c (mk_ref id (r_id r))) as ->.
    { unfold add_reference_to. by rewrite Es. }
    destruct (insert_ref_ok c (mk_ref id (r_id r)) Hc Hid) as (l' & -> & Hl' & Hin).
    { apply elem_of_ids. by exists r. }
    destruct (IH (with_refs c l')) as (k & E & Hk & Hink); [by apply with_refs_wf|done|].
    exists k. cbn [mbind res_bind]. rewrite E. split_and!; [done|done|]. intros y. rewrite Hink. cbn. rewrite Hin.
    split.
    + intros [[->|?]|(s & ? & ? & ->)]; [right; exists r; set_solver|by left|right; exists s; set_solver].
    + intros [?|(s & Hs & [Ep|?]%elem_of_cons & ->)]; [by left; right| |right; by exists s].
      rewrite (path_inj Hc s r Hs Hr Ep). by left; left.
  - assert (add_reference_to true id c p = Ok c) as -> by (unfold add_reference_to; by rewrite Es).
    cbn [mbind res_bind]. destruct (IH c Hc Hid) as (k & E & Hk & Hink). exists k. rewrite E.
    split_and!; [done|done|]. intros y. rewrite Hink. split.
    + intros [?|(s & ? & ? & ->)]; [by left|right; exists s; set_solver].
    + intros [?|(s & Hs & [Ep|?]%elem_of_cons & ->)]; [by left| |right; by exists s].
      destruct Hp. apply elem_of_paths. by exists s.
Qed.

(** ** Statements *)

(** Running a statement on a database that is open for writing. *)
Ltac run_db :=
  unfold core_of, ca_of, writable;
  cbn [db_core db_ca db_read_only db_foreign_keys ok_or mbind res_bind].

Section statements.
Context {P : Planner} {PL : PlannerLaws}.

Lemma store_view_eq (c : Core) (m : store_map) : core_wf c →
  (∀ r, r ∈ ValidPaths c → m !! r_path r = Some (decode c r)) → (∀ p, p ∉ paths c → m !! p = None) →
  store_view c = m.
Proof.
  intros Hc Hin Hout. apply map_eq. intros p. destruct (decide (p ∈ paths c)) as [Hp|Hp].
  - apply elem_of_paths in Hp as (r & Hr & <-). by rewrite Hin, store_view_in.
  - by rewrite Hout, (proj2 (store_view_None c p Hc)).
Qed.

Lemma decode_ext c c' r : (∀ s, mk_ref (r_id r) (r_id s) ∈ Refs c → s ∈ ValidPaths c →
    s ∈ ValidPaths c' ∧ mk_ref (r_id r) (r_id s) ∈ Refs c') →
  (∀ s, mk_ref (r_id r) (r_id s) ∈ Refs c' → s ∈ ValidPaths c' →
    s ∈ ValidPaths c ∧ mk_ref (r_id r) (r_id s) ∈ Refs c) →
  decode c r = decode c' r.
Proof using PL.
  intros H1 H2. unfold decode. f_equal. apply references_ext. intros x. rewrite !elem_of_references. naive_solver.
Qed.

(** The outputs of derivations: the path of the derivation, the name of the
    output and its path. *)
Definition outputs_view (c : Core) : gset (bytes * bytes * bytes) :=
  list_to_set (d ← DerivationOutputs c; (λ v, (r_path v, output_id d, out_path d)) <$> select_id c (drv_id d)).

Lemma elem_of_outputs_view c p n o : (p, n, o) ∈ outputs_view c ↔
  ∃ r, r ∈ ValidPaths c ∧ r_path r = p ∧ mk_output (r_id r) n o ∈ DerivationOutputs c.
Proof.
  unfold outputs_view. rewrite elem_of_list_to_set, list_elem_of_bind. setoid_rewrite list_elem_of_fmap.
  unfold select_id. setoid_rewrite list_elem_of_filter. split.
  - intros ([i m q] & (v & [= -> -> ->] & E & Hv) & Hd). cbn in *. subst. by exists v.
  - intros (r & Hr & <- & Hd). exists (mk_output (r_id r) n o). split; [|done]. by exists r.
Qed.

Lemma outputs_view_same c c' : DerivationOutputs c' = DerivationOutputs c →
  (∀ r, r ∈ ValidPaths c → ∃ r', r' ∈ ValidPaths c' ∧ r_id r' = r_id r ∧ r_path r' = r_path r) →
  (∀ r n o, r ∈ ValidPaths c' → mk_output (r_id r) n o ∈ DerivationOutputs c →
    ∃ r', r' ∈ ValidPaths c ∧ r_id r' = r_id r ∧ r_path r' = r_path r) →
  outputs_view c' = outputs_view c.
Proof.
  intros E H1 H2. apply sets.set_eq. intros [[p n] o]. rewrite !elem_of_outputs_view, E. split.
  - intros (r & Hr & <- & Hd). destruct (H2 r n o Hr Hd) as (r' & Hr' & Ei & Ep). exists r'. by rewrite Ei.
  - intros (r & Hr & <- & Hd). destruct (H1 r Hr) as (r' & Hr' & Ei & Ep). exists r'. by rewrite Ei.
Qed.

(** *** [register_valid_path] *)

Definition params_ok (params : RegisterPathParams) : Prop :=
  time_ok (p_registration_time params) ∧ (∀ n, p_nar_size params = Some n → is_u64 n) ∧
  ascending (elems (p_references params)).

Definition new_row (c : Core) (params : RegisterPathParams) : ValidPathsRow :=
  mk_row (ValidPaths_seq c + 1) (p_path params) (p_hash params)
    (Z.quot (p_registration_time params) nanos_per_sec) (p_deriver params) (as_i64 <$> p_nar_size params)
    (Some (if p_ultimate params then 1 else 0)%Z) (p_sigs params) (p_ca params).

Definition with_row (c : Core) (r : ValidPathsRow) : Core :=
  mk_core (ValidPaths c ++ [r]) (r_id r) (Refs c) (DerivationOutputs c).

Lemma ids_with_row c r : ids (with_row c r) = ids c ++ [r_id r].
Proof. unfold ids. cbn. by rewrite fmap_app. Qed.

Lemma paths_with_row c r : paths (with_row c r) = paths c ++ [r_path r].
Proof. unfold paths. cbn. by rewrite fmap_app. Qed.

Lemma fresh_id c i : core_wf c → (ValidPaths_seq c < i)%Z → i ∉ ids c.
Proof.
  intros Hc Hi. rewrite elem_of_ids. intros (r & Hr & <-).
  pose proof (wf_range c Hc) as Hr'. rewrite Forall_forall in Hr'. apply Hr' in Hr. lia.
Qed.

Lemma with_row_wf c r : core_wf c → r_id r = (ValidPaths_seq c + 1)%Z → (ValidPaths_seq c < i64_max)%Z →
  r_path r ∉ paths c → row_ok r → core_wf (with_row c r).
Proof.
  intros Hc Hid Hmax Hp Hr. pose proof (fresh_id c (r_id r) Hc ltac:(lia)) as Hfresh.
  pose proof (wf_seq c Hc). split.
  - rewrite ids_with_row. apply NoDup_app. split_and!; [apply (wf_ids c Hc)| |apply NoDup_singleton].
    intros i Hi. rewrite list_elem_of_singleton. congruence.
  - rewrite paths_with_row. apply NoDup_app. split_and!; [apply (wf_paths c Hc)| |apply NoDup_singleton].
    intros i Hi. rewrite list_elem_of_singleton. congruence.
  - apply Forall_app. split; [|repeat constructor; cbn; lia].
    eapply Forall_impl; [apply (wf_range c Hc)|]. cbn. lia.
  - cbn. lia.
  - apply Forall_app. split; [apply (wf_rows c Hc)|by constructor].
  - eapply Forall_impl; [apply (wf_refs c Hc)|]. intros x. rewrite ids_with_row. set_solver.
  - apply (wf_refs_key c Hc).
  - eapply Forall_impl; [apply (wf_outputs c Hc)|]. intros x. rewrite ids_with_row. set_solver.
  - apply (wf_outputs_key c Hc).
Qed.

Lemma ca_wf_mono c c' k : (∀ i, i ∈ ids c → i ∈ ids c') → ca_wf c k → ca_wf c' k.
Proof. intros Hi []. split; [done..| |done]. eapply Forall_impl; [done|]. cbn. auto. Qed.

Lemma new_row_ok c params : params_ok params → row_ok (new_row c params).
Proof.
  intros (Ht & _). destruct (system_time_to_unix_ok (E := Error) _ Ht) as [_ ?]. split; [done|].
  intros z [= <-]. destruct (p_ultimate params); lia.
Qed.

Lemma register_error db c k params : db_wf db c k → params_ok params →
  (ValidPaths_seq c = i64_max → register_valid_path db params = (db, Err (Sqlite DatabaseFull))) ∧
  (ValidPaths_seq c ≠ i64_max → p_path params ∈ paths c →
    register_valid_path db params = (db, Err (Sqlite ConstraintUnique))).
Proof.
  intros (-> & Hc & Hk) (Ht & _). destruct (system_time_to_unix_ok (E := Error) _ Ht) as [Et _].
  unfold register_valid_path, insert_valid_path. run_db. rewrite Et. run_db. split.
  - intros ->. done.
  - intros Hs Hp. rewrite (proj2 (Z.eqb_neq _ _)) by done. by rewrite bool_decide_true by done.
Qed.

Lemma register_view c k params : core_wf c → params_ok params → (ValidPaths_seq c < i64_max)%Z →
  p_path params ∉ paths c → refs_ok (with_row c (new_row c params)) k →
  (∀ y, y ∈ k ↔ y ∈ Refs c ∨ ∃ r, r ∈ ValidPaths (with_row c (new_row c params)) ∧
    r_path r ∈ elems (p_references params) ∧ y = mk_ref (ValidPaths_seq c + 1) (r_id r)) →
  store_view (with_refs (with_row c (new_row c params)) k) =
    spec_register (store_view c) (ValidPaths_seq c + 1) params.
Proof using PL.
  intros Hc Hok Hmax Hp Hk Hin. set (row := new_row c params) in *. set (c' := with_refs (with_row c row) k).
  assert (ids c' = ids c ++ [r_id row]) as Hids by apply ids_with_row.
  assert (core_wf c') as Hc' by (apply with_refs_wf; [apply with_row_wf; [done..|by apply new_row_ok]|done]).
  pose proof (fresh_id c (r_id row) Hc ltac:(cbn; lia)) as Hfresh.
  assert (∀ r, r ∈ ValidPaths c' ↔ r ∈ ValidPaths c ∨ r = row) as Hrows.
  { intros r. cbn. by rewrite elem_of_app, list_elem_of_singleton. }
  pose proof (wf_refs c Hc) as Hfk. rewrite Forall_forall in Hfk.
  apply store_view_eq; [done| |].
  - intros r [Hr| ->]%Hrows.
    + unfold spec_register. rewrite lookup_insert_ne by (intros E; destruct Hp; rewrite E; apply elem_of_paths; by exists r).
      rewrite store_view_in by done. f_equal. apply decode_ext.
      * intros s Hs Hs'. split; [apply Hrows; by left|]. apply Hin. by left.
      * intros s Hs [Hs'| ->]%Hrows; cbn in Hs; apply Hin in Hs as [Hs|(t & _ & _ & Et)]; [done| | |].
        -- destruct Hfresh. cbn. injection Et as <- _. apply elem_of_ids. by exists r.
        -- destruct Hfresh. by apply Hfk in Hs as [_ ?].
        -- destruct Hfresh. cbn. injection Et as <- _. apply elem_of_ids. by exists r.
    + unfold spec_register. cbn [r_path row new_row]. rewrite lookup_insert_eq. f_equal. unfold decode. cbn.
      destruct Hok as (Ht & Hn & Hasc). f_equal.
      * destruct (p_nar_size params) as [n|]; [|done]. cbn. by rewrite as_i64_wrap by by apply Hn.
      * by destruct (p_ultimate params).
      * apply set_eq; [by apply ascending_filter|apply collect_set_ascending|]. intros x. cbn [elems].
        rewrite list_elem_of_filter, elem_of_references, store_view_is_Some, elem_of_paths by done. split.
        -- intros [[->|(s & Hs & <-)] Hx].
           ++ exists row. split_and!; [apply Hrows; by right|done|]. apply Hin. right. exists row.
              split_and!; [apply Hrows; by right|done|done].
           ++ exists s. split_and!; [apply Hrows; by left|done|]. apply Hin. right. exists s.
              split_and!; [apply Hrows; by left|done|done].
        -- intros (s & Hs & <- & Hy). apply Hin in Hy as [Hy|(t & Ht' & Hx & [= Eid])].
           { destruct Hfresh. by apply Hfk in Hy as [? _]. }
           apply (id_inj Hc') in Eid as ->; [|done|done]. split; [|done].
           apply Hrows in Hs as [Hs| ->]; [right; by exists t|by left].
  - intros p Hp'. unfold spec_register.
    assert (p ≠ p_path params ∧ p ∉ paths c) as [Hne Hp''].
    { change (paths c') with (paths (with_row c row)) in Hp'. rewrite paths_with_row in Hp'. cbn in Hp'. set_solver. }
    rewrite lookup_insert_ne by done. by apply store_view_None.
Qed.

Lemma register_ok db c k params : db_wf db c k → params_ok params → ValidPaths_seq c ≠ i64_max →
  p_path params ∉ paths c →
  ∃ db' c', register_valid_path db params = (db', Ok (ValidPaths_seq c + 1)%Z) ∧ db_wf db' c' k ∧
    ValidPaths_seq c' = (ValidPaths_seq c + 1)%Z ∧
    store_view c' = spec_register (store_view c) (ValidPaths_seq c + 1) params ∧
    outputs_view c' = outputs_view c.
Proof using PL.
  intros (-> & Hc & Hk) Hok Hmax Hp. destruct (id Hok) as (Ht & _).
  destruct (system_time_to_unix_ok (E := Error) _ Ht) as [Et _].
  pose proof (wf_seq c Hc) as Hseq.
  set (row := new_row c params). assert (core_wf (with_row c row)) as Hc1.
  { apply with_row_wf; [done|done|lia|done|by apply new_row_ok]. }
  assert (∀ i, i ∈ ids c → i ∈ ids (with_row c row)) as Hids by (intros i; rewrite ids_with_row; set_solver).
  destruct (add_references_ok (ValidPaths_seq c + 1) (elems (p_references params)) _ Hc1)
    as (l & El & Hl & Hin); [rewrite ids_with_row; cbn; set_solver|].
  exists (mk_db (Some (with_refs (with_row c row) l)) (Some k) true false), (with_refs (with_row c row) l).
  split_and!; [|split_and!|done| |].
  - unfold register_valid_path, insert_valid_path. run_db. rewrite Et. run_db.
    rewrite (proj2 (Z.eqb_neq _ _)), bool_decide_false by done. run_db. unfold row, with_row, new_row in El. cbn [r_id] in El. by rewrite El.
  - done.
  - by apply with_refs_wf.
  - by apply (ca_wf_mono c).
  - apply register_view; [done|done|lia|done|done|done].
  - apply outputs_view_same; [done|intros r Hr; exists r; set_solver|]. cbn.
    intros r n o [Hr|E]%elem_of_app Hd; [by exists r|]. apply list_elem_of_singleton in E as ->.
    destruct (fresh_id c (ValidPaths_seq c + 1) Hc); [lia|].
    pose proof (wf_outputs c Hc) as Hfk. rewrite Forall_forall in Hfk. apply (Hfk _ Hd).
Qed.

(** *** The other statements *)

Lemma add_reference_ok db c k a b : db_wf db c k →
  ∃ db' c', add_reference db a b = (db', Ok tt) ∧ db_wf db' c' k ∧ ValidPaths_seq c' = ValidPaths_seq c ∧
    store_view c' = spec_add_reference (store_view c) a b ∧ outputs_view c' = outputs_view c.
Proof using PL.
  intros (-> & Hc & Hk). unfold add_reference, spec_add_reference. run_db.
  destruct (select_path_cases c b Hc) as [(s & Hs & <- & Es)|[Es Hb]].
  2:{ rewrite (proj2 (store_view_None c b Hc) Hb). eexists _, c. split_and!; [|done..].
      rewrite Es.
      by destruct (select_path_cases c a Hc) as [(r & Hr & <- & ->)|[-> Ha]]. }
  rewrite (store_view_in c s) by done.
  destruct (select_path_cases c a Hc) as [(r & Hr & <- & Er)|[Er Ha]].
  2:{ eexists _, c. split_and!; [|done|done| |done].
      - by rewrite Er.
      - symmetry. apply map_eq. intros p. destruct (decide (p = a)) as [->|].
        + rewrite lookup_alter_eq. by rewrite (proj2 (store_view_None c a Hc) Ha).
        + by rewrite lookup_alter_ne by done. }
  destruct (insert_ref_ok c (mk_ref (r_id r) (r_id s)) Hc) as (l & El & Hl & Hin);
    [apply elem_of_ids; by exists r|apply elem_of_ids; by exists s|].
  pose proof (with_refs_wf c l Hc Hl) as Hc'. eexists _, (with_refs c l). split_and!; [|split_and!|done| |done].
  - rewrite Er, Es. cbn. by rewrite El.
  - done.
  - done.
  - by apply (ca_wf_mono c).
  - apply store_view_eq; [done| |].
    + intros t Ht. destruct (decide (t = r)) as [->|Hne].
      * rewrite lookup_alter_eq, store_view_in by done. cbn. f_equal. unfold decode, set_references. cbn. f_equal.
        apply set_eq; [apply insert_elem_ascending, collect_set_ascending|apply collect_set_ascending|].
        intros x. cbn [elems]. rewrite elem_of_insert_elem, !elem_of_references. split.
        -- intros [->|(t & ? & ? & ?)]; [exists s|exists t]; (split_and!; [done|done|apply Hin]); [by left|by right].
        -- intros (t & Ht' & <- & Hy). cbn in Ht', Hy. apply Hin in Hy as [[= Et]|?]; [left|right; by exists t].
           f_equal. by apply (id_inj Hc).
      * rewrite lookup_alter_ne by (intros E; destruct Hne; by apply (path_inj Hc)).
        rewrite store_view_in by done. f_equal. apply decode_ext; intros u Hu Hu'; (split; [done|]).
        -- apply Hin. by right.
        -- cbn in Hu. apply Hin in Hu as [[= E _]|?]; [|done]. destruct Hne. by apply (id_inj Hc).
    + intros p Hp. rewrite lookup_alter_ne.
      * by apply store_view_None.
      * intros <-. destruct Hp. apply elem_of_paths. by exists r.
Qed.

Lemma decode_references c c' r refs :
  refs = query_references_by_id c' (r_id r) → set_references refs (decode c r) = decode c' r.
Proof. by intros ->. Qed.

Lemma remove_reference_ok db c k a b : db_wf db c k →
  ∃ db' c', remove_reference db a b = (db', Ok tt) ∧ db_wf db' c' k ∧ ValidPaths_seq c' = ValidPaths_seq c ∧
    store_view c' = spec_remove_reference (store_view c) a b ∧ outputs_view c' = outputs_view c.
Proof using PL.
  intros (-> & Hc & Hk). unfold remove_reference, spec_remove_reference. run_db.
  set (ia := r_id <$> head (select_path c a)). set (ib := r_id <$> head (select_path c b)).
  set (l := filter _ (Refs c)). assert (refs_ok c l) as Hl.
  { split; [apply Forall_filter_keep, (wf_refs c Hc)|apply NoDup_filter, (wf_refs_key c Hc)]. }
  assert (∀ p r, r ∈ ValidPaths c → r_id <$> head (select_path c p) = Some (r_id r) ↔ r_path r = p) as Hsel.
  { intros p r Hr. destruct (select_path_cases c p Hc) as [(s & Hs & <- & ->)|[-> Hp]]; cbn.
    - split; [intros [= E]; f_equal; by apply (id_inj Hc)|]. intros E. by rewrite (path_inj Hc r s).
    - split; [done|]. intros <-. destruct Hp. apply elem_of_paths. by exists r. }
  assert (∀ r s, r ∈ ValidPaths c → s ∈ ValidPaths c → mk_ref (r_id r) (r_id s) ∈ l ↔
    mk_ref (r_id r) (r_id s) ∈ Refs c ∧ ¬ (r_path r = a ∧ r_path s = b)) as Hin.
  { intros r s Hr Hs. unfold l, ia, ib. rewrite list_elem_of_filter. cbn. rewrite !Hsel by done. tauto. }
  pose proof (with_refs_wf c l Hc Hl) as Hc'. eexists _, (with_refs c l). split_and!; [done|split_and!|done| |done].
  - done.
  - done.
  - by apply (ca_wf_mono c).
  - apply store_view_eq; [done| |].
    + intros t Ht. cbn in Ht. destruct (decide (r_path t = a)) as [<-|Hne].
      * rewrite lookup_alter_eq, store_view_in by done. cbn. f_equal. apply decode_references.
        apply set_eq; [apply ascending_filter, collect_set_ascending|apply collect_set_ascending|].
        intros x. cbn. rewrite list_elem_of_filter, !elem_of_references. cbn. split.
        -- intros (Hx & s & Hs & <- & Hy). exists s. split_and!; [done|done|]. apply Hin; naive_solver.
        -- intros (s & Hs & <- & Hy). apply Hin in Hy; naive_solver.
      * rewrite lookup_alter_ne, store_view_in by done. f_equal.
        apply decode_ext; intros u Hu Hu'; cbn in Hu, Hu'; (split; [done|]).
        -- apply (Hin t u); naive_solver.
        -- by apply Hin in Hu as [? _].
    + intros p Hp. destruct (decide (p = a)) as [->|].
      * rewrite lookup_alter_eq. by rewrite (proj2 (store_view_None c a Hc) Hp).
      * rewrite lookup_alter_ne by done. by apply store_view_None.
Qed.

Lemma update_signatures_ok db c k p sigs : db_wf db c k →
  ∃ db' c', update_signatures db p sigs = (db', Ok tt) ∧ db_wf db' c' k ∧ ValidPaths_seq c' = ValidPaths_seq c ∧
    store_view c' = alter (with_sigs sigs) p (store_view c) ∧ outputs_view c' = outputs_view c.
Proof using PL.
  intros (-> & Hc & Hk). unfold update_signatures. run_db.
  set (g := λ r, if bool_decide (r_path r = p) then set_sigs sigs r else r).
  set (c' := mk_core (g <$> ValidPaths c) (ValidPaths_seq c) (Refs c) (DerivationOutputs c)).
  assert (∀ r, r_id (g r) = r_id r ∧ r_path (g r) = r_path r) as Hg.
  { intros r. unfold g. by case_bool_decide. }
  assert (ids c' = ids c) as Hi by (unfold ids; cbn; rewrite <-list_fmap_compose; apply list_fmap_ext; intros; apply Hg).
  assert (paths c' = paths c) as Hp
    by (unfold paths; cbn; rewrite <-list_fmap_compose; apply list_fmap_ext; intros; apply Hg).
  assert (∀ s, s ∈ ValidPaths c' ↔ ∃ r, s = g r ∧ r ∈ ValidPaths c) as Hrows by (intros s; apply list_elem_of_fmap).
  assert (core_wf c') as Hc'.
  { split; rewrite ?Hi, ?Hp; try apply Hc; cbn; apply Forall_fmap.
    - eapply Forall_impl; [apply (wf_range c Hc)|]. intros r. cbn. by rewrite (proj1 (Hg r)).
    - eapply Forall_impl; [apply (wf_rows c Hc)|]. intros r. unfold g. cbn. by case_bool_decide. }
  eexists _, c'. split_and!; [done|split_and!|done| |].
  - done.
  - done.
  - apply (ca_wf_mono c); [|done]. intros i. by rewrite Hi.
  - assert (∀ r, query_references_by_id c' (r_id (g r)) = query_references_by_id c (r_id r)) as Hrefs.
    { intros r. apply references_ext. intros x. rewrite !elem_of_references, (proj1 (Hg r)). split.
      - intros (s & (t & -> & Ht)%Hrows & <- & Hy). exists t. destruct (Hg t) as [Eg Eg']. rewrite Eg in Hy. by rewrite Eg'.
      - intros (s & Hs & <- & Hy). exists (g s). destruct (Hg s) as [-> ->]. split_and!; [|done|done].
        apply Hrows. by exists s. }
    assert (∀ r, decode c' (g r) = if bool_decide (r_path r = p) then with_sigs sigs (decode c r) else decode c r) as Hd.
    { intros r. unfold decode at 1. rewrite Hrefs. unfold g, with_sigs, decode. by case_bool_decide. }
    apply store_view_eq; [done| |].
    + intros s (r & -> & Hr)%Hrows. rewrite Hd, (proj2 (Hg r)). case_bool_decide as E.
      * subst p. rewrite lookup_alter_eq, store_view_in by done. done.
      * rewrite lookup_alter_ne, store_view_in by done. done.
    + intros q Hq. rewrite Hp in Hq. destruct (decide (q = p)) as [->|].
      * rewrite lookup_alter_eq. by rewrite (proj2 (store_view_None c p Hc) Hq).
      * rewrite lookup_alter_ne by done. by apply store_view_None.
  - apply outputs_view_same; [done| |].
    + intros r Hr. exists (g r). split; [apply Hrows; by exists r|apply Hg].
    + intros s n o (r & -> & Hr)%Hrows _. exists r. split; [done|]. destruct (Hg r) as [-> ->]. done.
Qed.

(** *** [invalidate_path] *)

(** Another path refers to [p]. *)
Definition in_use (m : store_map) (p : bytes) : Prop :=
  map_Exists (λ q i, q ≠ p ∧ p ∈ elems (vp_references i)) m.

Lemma in_use_ids c r : core_wf c → r ∈ ValidPaths c →
  in_use (store_view c) (r_path r) ↔ r_id r ∈ reference_id <$> Refs (DeleteSelfRefs c (r_id r)).
Proof using PL.
  intros Hc Hr. unfold in_use, DeleteSelfRefs. rewrite list_elem_of_fmap. cbn. split.
  - intros (q & i & Hi & Hne & Hx). apply store_view_Some in Hi as (s & Hs & <- & ->); [|done].
    apply elem_of_references in Hx as (t & Ht & Ep & Hy). apply (path_inj Hc) in Ep as ->; [|done|done].
    exists (mk_ref (r_id s) (r_id r)). split; [done|]. rewrite list_elem_of_filter. split; [|done].
    intros [E _]. destruct Hne. f_equal. by apply (id_inj Hc).
  - intros ([a b] & Eb & [Hne Hy]%list_elem_of_filter). cbn in *. subst b.
    pose proof (wf_refs c Hc) as Hfk. rewrite Forall_forall in Hfk. destruct (Hfk _ Hy) as [Ha _]. cbn in Ha.
    apply elem_of_ids in Ha as (s & Hs & <-). exists (r_path s), (decode c s).
    split_and!; [by apply store_view_in| |].
    + intros E. destruct Hne. split; [|done]. f_equal. by apply (path_inj Hc).
    + apply elem_of_references. by exists r.
Qed.

(** The tables without the path [id] and what goes with it. *)
Definition without (c : Core) (id : Z) : Core :=
  mk_core (filter (λ r, r_id r ≠ id) (ValidPaths c)) (ValidPaths_seq c)
    (filter (λ x, referrer_id x ≠ id) (Refs (DeleteSelfRefs c id))) (filter (λ x, drv_id x ≠ id) (DerivationOutputs c)).

Definition without_ca (k : Ca) (id : Z) : Ca :=
  mk_ca (filter (λ r, rl_output_path_id r ≠ id) (Realisations k)) (Realisations_seq k)
    (filter (λ x, rr_referrer x ∉ realised k id) (RealisationsRefs (DeleteSelfRefsViaRealisations k id))).

Lemma delete_valid_path_ok c k id : id ∉ reference_id <$> Refs (DeleteSelfRefs c id) →
  delete_valid_path true c (Some k) id = Ok (without c id, Some (without_ca k id)).
Proof.
  intros Hid. unfold delete_valid_path, cascade_core, cascade_ca.
  rewrite bool_decide_false by done. cbn [mbind res_bind fmap option_fmap option_map].
  rewrite bool_decide_false; [done|]. rewrite Exists_exists. intros (x & Hx & Hg).
  apply list_elem_of_filter in Hx as [Hx _]. by destruct Hx.
Qed.

Lemma elem_of_without_ids c id i : i ∈ ids (without c id) ↔ i ∈ ids c ∧ i ≠ id.
Proof. rewrite !elem_of_ids. cbn. setoid_rewrite list_elem_of_filter. naive_solver. Qed.

Lemma NoDup_fmap_filter {A B} (f : A → B) (Q : A → Prop) `{!∀ x, Decision (Q x)} (l : list A) :
  NoDup (f <$> l) → NoDup (f <$> filter Q l).
Proof.
  induction l as [|x l IH]; [done|]. rewrite fmap_cons. intros [Hx Hl]%NoDup_cons. rewrite filter_cons.
  case_decide; [|by apply IH]. rewrite fmap_cons. apply NoDup_cons. split; [|by apply IH].
  intros (y & E & [_ Hy]%list_elem_of_filter)%list_elem_of_fmap. destruct Hx. rewrite E. by apply list_elem_of_fmap_2.
Qed.

Lemma without_wf c id : core_wf c → id ∉ reference_id <$> Refs (DeleteSelfRefs c id) → core_wf (without c id).
Proof.
  intros Hc Hid. split.
  - apply NoDup_fmap_filter, (wf_ids c Hc).
  - apply NoDup_fmap_filter, (wf_paths c Hc).
  - apply Forall_filter_keep, (wf_range c Hc).
  - apply (wf_seq c Hc).
  - apply Forall_filter_keep, (wf_rows c Hc).
  - rewrite Forall_forall. intros x [Hx Hx']%list_elem_of_filter. rewrite !elem_of_without_ids.
    assert (reference_id x ≠ id) by (intros <-; destruct Hid; by apply list_elem_of_fmap_2).
    apply list_elem_of_filter in Hx' as [_ Hx'].
    pose proof (wf_refs c Hc) as Hfk. rewrite Forall_forall in Hfk. naive_solver.
  - apply NoDup_filter, NoDup_filter, (wf_refs_key c Hc).
  - rewrite Forall_forall. intros x [Hx Hx']%list_elem_of_filter. rewrite elem_of_without_ids.
    pose proof (wf_outputs c Hc) as Hfk. rewrite Forall_forall in Hfk. naive_solver.
  - apply NoDup_fmap_filter, (wf_outputs_key c Hc).
Qed.

Lemma without_ca_wf c k id : ca_wf c k → ca_wf (without c id) (without_ca k id).
Proof.
  intros Hk. assert (∀ z, z ∈ rl_id <$> Realisations k → z ∉ realised k id →
    z ∈ rl_id <$> Realisations (without_ca k id)) as Hz.
  { intros z (r & -> & Hr)%list_elem_of_fmap Hz. apply list_elem_of_fmap. exists r. split; [done|].
    cbn. apply list_elem_of_filter. split; [|done]. intros <-. destruct Hz.
    unfold realised. apply list_elem_of_fmap. exists r. by rewrite list_elem_of_filter. }
  split.
  - apply NoDup_fmap_filter, (wf_realisation_ids c k Hk).
  - apply Forall_filter_keep, (wf_realisation_range c k Hk).
  - apply (wf_realisation_seq c k Hk).
  - rewrite Forall_forall. intros x [Hx Hx']%list_elem_of_filter. rewrite elem_of_without_ids.
    pose proof (wf_realised c k Hk) as Hfk. rewrite Forall_forall in Hfk. naive_solver.
  - rewrite Forall_forall. intros x [Hx Hx']%list_elem_of_filter. apply list_elem_of_filter in Hx' as [Hx' Hin].
    pose proof (wf_realisation_refs c k Hk) as Hfk. rewrite Forall_forall in Hfk. destruct (Hfk x Hin) as [Ha Hb].
    split; [by apply Hz|]. intros z Ez. apply Hz; [by apply Hb|]. intros Hin'. destruct Hx'. rewrite Ez.
    by apply list_elem_of_fmap_2.
Qed.

Lemma outputs_view_without c r : core_wf c → r ∈ ValidPaths c →
  outputs_view (without c (r_id r)) = filter (λ x, x.1.1 ≠ r_path r) (outputs_view c).
Proof.
  intros Hc Hr. apply sets.set_eq. intros [[p n] o]. rewrite elem_of_filter, !elem_of_outputs_view. cbn.
  setoid_rewrite list_elem_of_filter. cbn. split.
  - intros (s & [Hne Hs] & <- & _ & Hd). split; [|by exists s]. intros E. destruct Hne. f_equal. by apply (path_inj Hc).
  - intros (Hne & s & Hs & <- & Hd). assert (r_id s ≠ r_id r).
    { intros E. destruct Hne. f_equal. by apply (id_inj Hc). }
    exists s. by split_and!.
Qed.

(** *** Realisations, by their identifiers *)

Definition realisations_view (k : Ca) : gmap Z Realisation :=
  list_to_map ((λ r, (rl_id r, r)) <$> Realisations k).

(** The identifiers of the valid paths. *)
Definition valid_id (m : store_map) (i : Z) : Prop := map_Exists (λ _ x, vp_id x = i) m.

(** The realisations that are left without [p]. *)
Definition spec_unrealise (m : store_map) (p : bytes) (u : gmap Z Realisation) : gmap Z Realisation :=
  filter (λ x, vp_id <$> m !! p ≠ Some (rl_output_path_id x.2)) u.

Lemma valid_id_ids c i : core_wf c → valid_id (store_view c) i ↔ i ∈ ids c.
Proof using Type.
  intros Hc. unfold valid_id, map_Exists. rewrite elem_of_ids. split.
  - intros (p & x & (r & Hr & _ & ->)%store_view_Some & Ei); [by exists r|done].
  - intros (r & Hr & Ei). exists (r_path r), (decode c r). by rewrite store_view_in.
Qed.

Lemma realisations_view_Some c k i r : ca_wf c k →
  realisations_view k !! i = Some r ↔ r ∈ Realisations k ∧ rl_id r = i.
Proof using Type.
  intros Hk. unfold realisations_view. rewrite <-(elem_of_list_to_map (M := gmap Z)).
  - rewrite list_elem_of_fmap. naive_solver.
  - rewrite <-list_fmap_compose. apply (wf_realisation_ids c k Hk).
Qed.

Lemma realisations_view_is_Some c k i : ca_wf c k →
  is_Some (realisations_view k !! i) ↔ i ∈ rl_id <$> Realisations k.
Proof using Type.
  intros Hk. rewrite list_elem_of_fmap. split.
  - intros [r [Hr <-]%(realisations_view_Some c)]; [by exists r|done].
  - intros (r & -> & Hr). exists r. by apply (realisations_view_Some c).
Qed.

Lemma realisations_view_without c k id : ca_wf c k →
  realisations_view (without_ca k id) = filter (λ x, rl_output_path_id x.2 ≠ id) (realisations_view k).
Proof using Type.
  intros Hk. apply map_eq. intros i. apply option_eq. intros r.
  rewrite (realisations_view_Some (without c id)) by by apply without_ca_wf.
  rewrite map_lookup_filter_Some, (realisations_view_Some c) by done. cbn. rewrite list_elem_of_filter. tauto.
Qed.

Lemma invalidate_ok db c k p : db_wf db c k →
  (is_Some (store_view c !! p) → in_use (store_view c) p →
    invalidate_path db p = (db, Err (Sqlite ConstraintForeignKey))) ∧
  (¬ in_use (store_view c) p →
    ∃ db' c' k', invalidate_path db p = (db', Ok (bool_decide (is_Some (store_view c !! p)))) ∧
      db_wf db' c' k' ∧ ValidPaths_seq c' = ValidPaths_seq c ∧ store_view c' = delete p (store_view c) ∧
      outputs_view c' = filter (λ x, x.1.1 ≠ p) (outputs_view c) ∧
      Realisations_seq k' = Realisations_seq k ∧
      realisations_view k' = spec_unrealise (store_view c) p (realisations_view k)).
Proof using PL.
  intros (-> & Hc & Hk). unfold invalidate_path. run_db.
  destruct (select_path_cases c p Hc) as [(r & Hr & <- & Er)|[Er Hp]]; rewrite Er.
  - rewrite in_use_ids by done. split.
    + intros _ Hu. unfold delete_valid_path, cascade_core. by rewrite bool_decide_true by done.
    + intros Hu. pose proof (without_wf c (r_id r) Hc Hu) as Hc'.
      eexists _, (without c (r_id r)), (without_ca k (r_id r)). split_and!; [|split_and!|done| | |done|].
      * rewrite delete_valid_path_ok by done. rewrite bool_decide_true; [done|].
        apply store_view_is_Some; [done|]. apply elem_of_paths. by exists r.
      * done.
      * done.
      * by apply without_ca_wf.
      * apply store_view_eq; [done| |].
        -- intros s [Hne Hs]%list_elem_of_filter.
           rewrite lookup_delete_ne by (intros E; destruct Hne; f_equal; by apply (path_inj Hc)).
           rewrite store_view_in by done. f_equal. apply decode_ext; cbn.
           ++ intros t Ht Ht'. rewrite !list_elem_of_filter. cbn. split_and!; [|done|done|naive_solver|done].
              intros E. destruct Hu. apply list_elem_of_fmap. exists (mk_ref (r_id s) (r_id t)). split; [done|].
              apply list_elem_of_filter. split; [naive_solver|done].
           ++ intros t. rewrite !list_elem_of_filter. naive_solver.
        -- intros q Hq. destruct (decide (q = r_path r)) as [->|Hne]; [apply lookup_delete_eq|].
           rewrite lookup_delete_ne by done. apply store_view_None; [done|].
           intros (s & Hs & <-)%elem_of_paths. destruct Hq. apply elem_of_paths. exists s. split; [|done].
           apply list_elem_of_filter. split; [|done]. intros E. destruct Hne. f_equal. by apply (id_inj Hc).
      * by apply outputs_view_without.
      * rewrite (realisations_view_without c) by done. unfold spec_unrealise. rewrite store_view_in by done.
        apply map_filter_ext. intros i x _. cbn. split; [intros Hx [= E]; by destruct Hx|intros Hx E; destruct Hx; by rewrite E].
  - pose proof (proj2 (store_view_None c p Hc) Hp) as HN. rewrite HN. split; [by intros [? ?]|].
    intros _. eexists _, c, k. split_and!; [done|done|done|by rewrite delete_id| |done|].
    + apply sets.set_eq. intros [[q n] o]. rewrite elem_of_filter, elem_of_outputs_view. split; [|by intros [_ ?]].
      intros (r & Hr & <- & Hd). split; [|by exists r]. cbn. intros E. destruct Hp. apply elem_of_paths. by exists r.
    + unfold spec_unrealise. rewrite HN. symmetry. by apply map_filter_id.
Qed.

(** *** Derivation outputs *)

Definition spec_register_output (m : store_map) (s : gset (bytes * bytes * bytes)) (p n o : bytes) :
    gset (bytes * bytes * bytes) :=
  match m !! p with
  | Some _ => {[(p, n, o)]} ∪ filter (λ x, x.1 ≠ (p, n)) s
  | None => s
  end.

Lemma register_derivation_output_ok db c k p n o : db_wf db c k →
  ∃ db' c', register_derivation_output db p n o = (db', Ok tt) ∧ db_wf db' c' k ∧
    ValidPaths_seq c' = ValidPaths_seq c ∧ store_view c' = store_view c ∧
    outputs_view c' = spec_register_output (store_view c) (outputs_view c) p n o.
Proof.
  intros (-> & Hc & Hk). unfold register_derivation_output, spec_register_output. run_db.
  destruct (select_path_cases c p Hc) as [(r & Hr & <- & Er)|[Er Hp]]; rewrite Er.
  2:{ rewrite (proj2 (store_view_None c p Hc) Hp). eexists _, c. by split_and!. }
  rewrite store_view_in by done. cbn [fmap list_fmap each mbind res_bind]. unfold insert_output, foreign_key. cbn [drv_id output_id].
  assert (r_id r ∈ ids c) as Hid by (apply elem_of_ids; by exists r).
  rewrite bool_decide_true by done. cbn [andb negb mbind res_bind].
  set (x := mk_output (r_id r) n o). set (l := filter _ (DerivationOutputs c)).
  assert (∀ y, y ∈ l ↔ y ∈ DerivationOutputs c ∧ (drv_id y, output_id y) ≠ (r_id r, n)) as Hl.
  { intros y. unfold l. rewrite list_elem_of_filter. rewrite pair_equal_spec. tauto. }
  set (c' := mk_core (ValidPaths c) (ValidPaths_seq c) (Refs c) (l ++ [x])).
  assert (core_wf c') as Hc'.
  { split; try apply Hc; cbn.
    - apply Forall_app. split; [apply Forall_filter_keep, (wf_outputs c Hc)|by constructor].
    - rewrite fmap_app. apply NoDup_app. split_and!; [apply NoDup_fmap_filter, (wf_outputs_key c Hc)| |apply NoDup_singleton].
      intros y (d & -> & Hd)%list_elem_of_fmap. cbn [fmap list_fmap].
      rewrite list_elem_of_singleton. by apply Hl in Hd as [_ ?]. }
  eexists _, c'. split_and!; [done|split_and!; [done|done|by apply (ca_wf_mono c)]|done|done|].
  apply sets.set_eq. intros [[q m] u]. rewrite elem_of_union, elem_of_singleton, elem_of_filter, !elem_of_outputs_view. cbn.
  setoid_rewrite elem_of_app. setoid_rewrite Hl. setoid_rewrite list_elem_of_singleton. split.
  - intros (s & Hs & <- & [[Hd Hne]|[= Es -> ->]]).
    + right. split; [|by exists s]. intros [= Ep ->]. destruct Hne. cbn. f_equal. f_equal. by apply (path_inj Hc).
    + left. f_equal. f_equal. f_equal. by apply (id_inj Hc).
  - intros [[= -> -> ->]|[Hne (s & Hs & <- & Hd)]].
    + exists r. by split_and!; [..|right].
    + exists s. split_and!; [done|done|left]. split; [done|]. cbn. intros [= E ->]. destruct Hne. f_equal. f_equal.
      by apply (id_inj Hc).
Qed.

(** *** Realisations *)

Lemma register_realisation_error db c k d n i s : db_wf db c k →
  (Realisations_seq k = i64_max → register_realisation db d n i s = (db, Err (Sqlite DatabaseFull))) ∧
  (Realisations_seq k ≠ i64_max → ¬ valid_id (store_view c) i →
    register_realisation db d n i s = (db, Err (Sqlite ConstraintForeignKey))).
Proof using Type.
  intros (-> & Hc & Hk). rewrite valid_id_ids by done. unfold register_realisation. run_db. split.
  - intros ->. done.
  - intros Es Hi. rewrite (proj2 (Z.eqb_neq _ _)) by done. unfold foreign_key. by rewrite bool_decide_false.
Qed.

Lemma register_realisation_ok db c k d n i s : db_wf db c k →
  Realisations_seq k ≠ i64_max → valid_id (store_view c) i →
  let id := (Realisations_seq k + 1)%Z in
  ∃ db' k', register_realisation db d n i s = (db', Ok id) ∧ db_wf db' c k' ∧ Realisations_seq k' = id ∧
    realisations_view k' = <[id := mk_realisation id d n i s]> (realisations_view k).
Proof using PL.
  intros (-> & Hc & Hk) Es Hi%valid_id_ids id; [|done]. unfold register_realisation. run_db.
  rewrite (proj2 (Z.eqb_neq _ _)) by done. pose proof (wf_realisation_seq c k Hk). unfold foreign_key.
  rewrite bool_decide_true by done. pose proof (wf_realisation_range c k Hk) as Hr. rewrite Forall_forall in Hr.
  set (k' := mk_ca (Realisations k ++ [mk_realisation id d n i s]) id (RealisationsRefs k)).
  assert (ca_wf c k') as Hk'.
  { split; cbn.
    - rewrite fmap_app. apply NoDup_app. split_and!; [apply (wf_realisation_ids c k Hk)| |apply NoDup_singleton].
      intros z (r & -> & Hr')%list_elem_of_fmap. cbn [fmap list_fmap]. rewrite list_elem_of_singleton. cbn.
      apply Hr in Hr'. lia.
    - apply Forall_app. split; [|constructor; [cbn; lia|done]].
      eapply Forall_impl; [apply (wf_realisation_range c k Hk)|]. cbn. lia.
    - lia.
    - apply Forall_app. split; [apply (wf_realised c k Hk)|by constructor].
    - eapply Forall_impl; [apply (wf_realisation_refs c k Hk)|]. intros x [H1 H2]. rewrite fmap_app. set_solver. }
  eexists _, k'. split_and!; [done|by split_and!|done|]. apply map_eq. intros j. apply option_eq. intros r.
  rewrite lookup_insert_Some, !(realisations_view_Some c) by done. cbn. rewrite elem_of_app, list_elem_of_singleton.
  split.
  - intros [[Hr'| ->] <-]; [right|by left]. apply Hr in Hr' as ?. split_and!; [unfold id; lia|done|done].
  - intros [[<- <-]|(Hne & Hr' & <-)]; [split; [by right|done]|split; [by left|done]].
Qed.

(** A reference between two realisations that are there; no query reads it, and
    it does not keep a path from being invalidated. *)
Lemma add_realisation_reference_ok db c k i j : db_wf db c k →
  let known z := is_Some (realisations_view k !! z) in
  (¬ (known i ∧ known j) → add_realisation_reference db i j = (db, Err (Sqlite ConstraintForeignKey))) ∧
  (known i ∧ known j → ∃ db' k', add_realisation_reference db i j = (db', Ok tt) ∧ db_wf db' c k' ∧
    Realisations_seq k' = Realisations_seq k ∧ realisations_view k' = realisations_view k).
Proof using Type.
  intros (-> & Hc & Hk) known. unfold known. rewrite !(realisations_view_is_Some c) by done.
  unfold add_realisation_reference, foreign_key. run_db. split; intros Hi.
  - by rewrite bool_decide_false.
  - rewrite bool_decide_true by done. eexists _, _. split_and!; [done|split; [done|split; [done|]]|done|done].
    split; cbn; try apply Hk. apply Forall_app. split; [apply (wf_realisation_refs c k Hk)|].
    constructor; [|done]. cbn. split; [apply Hi|]. intros z [= <-]. apply Hi.
Qed.
End statements.
