(* ===== verification/StoreDbRefine.v ===== *)
(** The store database refines its specification: whatever statements are run,
    in any order, the tables keep their invariant and answer as the map of
    paths, the set of outputs and the map of realisations of the specification
    do. What the search for a hash part needs of the order of rows. *)

From stdpp Require Import base list numbers strings gmap sorting.
From Stdlib Require Import ZArith Lia Strings.Byte Sorting.Sorted.
From S2P Require Import Prelude FileSystem NixCodec StoreDb StoreDbSpec.

(** ** The operations *)

Inductive db_op : Type :=
| DRegister (params : RegisterPathParams)
| DAddReference (a b : bytes)
| DRemoveReference (a b : bytes)
| DRegisterOutput (p n o : bytes)
| DInvalidate (p : bytes)
| DUpdateSignatures (p sigs : bytes)
| DRegisterRealisation (d n : bytes) (i : Z) (s : option bytes)
| DAddRealisationReference (i j : Z).

Inductive answer : Type := AUnit | AId (id : Z) | ABool (b : bool).

Definition answered {A : Type} (f : A → answer) (x : StoreDb * res Error A) : StoreDb * res Error answer :=
  (x.1, f <$> x.2).

Definition run_op (o : db_op) (db : StoreDb) : StoreDb * res Error answer :=
  match o with
  | DRegister params => answered AId (register_valid_path db params)
  | DAddReference a b => answered (λ _, AUnit) (add_reference db a b)
  | DRemoveReference a b => answered (λ _, AUnit) (remove_reference db a b)
  | DRegisterOutput p n o => answered (λ _, AUnit) (register_derivation_output db p n o)
  | DInvalidate p => answered ABool (invalidate_path db p)
  | DUpdateSignatures p s => answered (λ _, AUnit) (update_signatures db p s)
  | DRegisterRealisation d n i s => answered AId (register_realisation db d n i s)
  | DAddRealisationReference i j => answered (λ _, AUnit) (add_realisation_reference db i j)
  end.

Fixpoint run_ops (os : list db_op) (db : StoreDb) : StoreDb * list (res Error answer) :=
  match os with
  | [] => (db, [])
  | o :: os =>
      let '(db, a) := run_op o db in
      let '(db, l) := run_ops os db in (db, a :: l)
  end.

(** ** The specification *)

(** The valid paths, the outputs of derivations and the realisations by their
    identifiers, with the last identifiers given out. *)
Record spec : Type := mk_spec {
  sp_paths : store_map;
  sp_outputs : gset (bytes * bytes * bytes);
  sp_last : Z;
  sp_realisations : gmap Z Realisation;
  sp_realisations_last : Z
}.

Definition new_spec : spec := mk_spec ∅ ∅ 0 ∅ 0.

Inductive spec_step : spec → db_op → res Error answer → spec → Prop :=
| spec_full m u v z params :
    spec_step (mk_spec m u i64_max v z) (DRegister params) (Err (Sqlite DatabaseFull)) (mk_spec m u i64_max v z)
| spec_taken m u n v z params :
    n ≠ i64_max → is_Some (m !! p_path params) →
    spec_step (mk_spec m u n v z) (DRegister params) (Err (Sqlite ConstraintUnique)) (mk_spec m u n v z)
| spec_registered m u n v z params :
    n ≠ i64_max → m !! p_path params = None →
    spec_step (mk_spec m u n v z) (DRegister params) (Ok (AId (n + 1)))
      (mk_spec (spec_register m (n + 1) params) u (n + 1) v z)
| spec_referenced m u n v z a b :
    spec_step (mk_spec m u n v z) (DAddReference a b) (Ok AUnit) (mk_spec (spec_add_reference m a b) u n v z)
| spec_unreferenced m u n v z a b :
    spec_step (mk_spec m u n v z) (DRemoveReference a b) (Ok AUnit) (mk_spec (spec_remove_reference m a b) u n v z)
| spec_output m u n v z p name o :
    spec_step (mk_spec m u n v z) (DRegisterOutput p name o) (Ok AUnit)
      (mk_spec m (spec_register_output m u p name o) n v z)
| spec_in_use m u n v z p :
    is_Some (m !! p) → in_use m p →
    spec_step (mk_spec m u n v z) (DInvalidate p) (Err (Sqlite ConstraintForeignKey)) (mk_spec m u n v z)
| spec_invalidated m u n v z p :
    ¬ in_use m p →
    spec_step (mk_spec m u n v z) (DInvalidate p) (Ok (ABool (bool_decide (is_Some (m !! p)))))
      (mk_spec (delete p m) (filter (λ x, x.1.1 ≠ p) u) n (spec_unrealise m p v) z)
| spec_signed m u n v z p s :
    spec_step (mk_spec m u n v z) (DUpdateSignatures p s) (Ok AUnit) (mk_spec (alter (with_sigs s) p m) u n v z)
| spec_realisations_full m u n v d name i s :
    spec_step (mk_spec m u n v i64_max) (DRegisterRealisation d name i s) (Err (Sqlite DatabaseFull))
      (mk_spec m u n v i64_max)
| spec_unknown_output m u n v z d name i s :
    z ≠ i64_max → ¬ valid_id m i →
    spec_step (mk_spec m u n v z) (DRegisterRealisation d name i s) (Err (Sqlite ConstraintForeignKey))
      (mk_spec m u n v z)
| spec_realised m u n v z d name i s :
    z ≠ i64_max → valid_id m i →
    spec_step (mk_spec m u n v z) (DRegisterRealisation d name i s) (Ok (AId (z + 1)))
      (mk_spec m u n (<[(z + 1)%Z := mk_realisation (z + 1) d name i s]> v) (z + 1))
| spec_unknown_realisation m u n v z i j :
    ¬ (is_Some (v !! i) ∧ is_Some (v !! j)) →
    spec_step (mk_spec m u n v z) (DAddRealisationReference i j) (Err (Sqlite ConstraintForeignKey))
      (mk_spec m u n v z)
| spec_realisation_referenced m u n v z i j :
    is_Some (v !! i) ∧ is_Some (v !! j) →
    spec_step (mk_spec m u n v z) (DAddRealisationReference i j) (Ok AUnit) (mk_spec m u n v z).

Inductive spec_run : spec → list db_op → list (res Error answer) → spec → Prop :=
| spec_run_nil s : spec_run s [] [] s
| spec_run_cons s o a s' os l s'' :
    spec_step s o a s' → spec_run s' os l s'' → spec_run s (o :: os) (a :: l) s''.

Definition op_ok (o : db_op) : Prop := match o with DRegister params => params_ok params | _ => True end.

(** ** The search for a hash part *)

Lemma bytes_cmp_app p s : bytes_cmp (p ++ s) p ≠ Lt.
Proof. induction p as [|x p IH]; cbn; [by destruct s|]. by rewrite Z.compare_refl. Qed.

Lemma Zcompare_swap_lt a b : Z.compare a b = Lt → Z.compare b a = Gt.
Proof. rewrite Z.compare_lt_iff, Z.compare_gt_iff. lia. Qed.

(** What lies between a string and an extension of it extends it too. *)
Lemma prefix_between p : ∀ m s, bytes_cmp m p ≠ Lt → bytes_cmp (p ++ s) m ≠ Lt → p `prefix_of` m.
Proof.
  induction p as [|x p IH]; intros m s H1 H2; [apply prefix_nil|].
  destruct m as [|y m]; [done|]. cbn in *.
  destruct (Z.compare (byte_to_Z y) (byte_to_Z x)) eqn:E1; [|done|].
  - apply Z.compare_eq in E1. rewrite E1, Z.compare_refl in H2.
    assert (y = x) as -> by (by rewrite <-(byte_of_to_Z y), <-(byte_of_to_Z x), E1).
    apply prefix_cons. by apply (IH m s).
  - apply Z.compare_gt_iff in E1. apply Z.compare_lt_iff in E1. by rewrite E1 in H2.
Qed.

Definition in_path_order (l : list ValidPathsRow) : Prop :=
  StronglySorted (λ r s, bytes_cmp (r_path s) (r_path r) ≠ Lt) l.

Lemma head_filter_sorted (Q : ValidPathsRow → Prop) `{!∀ r, Decision (Q r)} (l : list ValidPathsRow) :
  in_path_order l →
  match head (filter Q l) with
  | Some r => r ∈ l ∧ Q r ∧ ∀ s, s ∈ l → Q s → bytes_cmp (r_path s) (r_path r) ≠ Lt
  | None => ∀ s, s ∈ l → ¬ Q s
  end.
Proof.
  induction l as [|x l IH]; intros Hl; [intros s Hs; inversion Hs|].
  inversion Hl as [|? ? Hl' Hx]; subst. specialize (IH Hl'). rewrite Forall_forall in Hx.
  rewrite filter_cons. case_decide as Hq; cbn [head].
  - split_and!; [set_solver|done|]. intros s [->|Hs]%elem_of_cons _; [|by apply Hx].
    by rewrite (proj2 (bytes_cmp_eq (r_path x) (r_path x)) eq_refl).
  - destruct (head (filter Q l)) as [r|]; [|set_solver]. destruct IH as (Hr & Hqr & Hmin).
    split_and!; [set_solver|done|]. intros s [->|Hs]%elem_of_cons Hs'; [done|by apply Hmin].
Qed.

(** The answer of a search for a prefix: the first of the paths that begin with
    it, in the order of bytes, and nothing only when there is none. *)
Definition first_with (m : store_map) (prefix : bytes) (o : option bytes) : Prop :=
  match o with
  | Some p => is_Some (m !! p) ∧ prefix `prefix_of` p ∧
      ∀ q, is_Some (m !! q) → prefix `prefix_of` q → bytes_cmp q p ≠ Lt
  | None => ∀ q, is_Some (m !! q) → ¬ prefix `prefix_of` q
  end.

Section refine.
Context {P : Planner} {PL : PlannerLaws}.

Definition view (c : Core) (k : Ca) : spec :=
  mk_spec (store_view c) (outputs_view c) (ValidPaths_seq c) (realisations_view k) (Realisations_seq k).

(** *** In use implies valid, for references only point to valid paths *)

Lemma in_use_valid c p : core_wf c → in_use (store_view c) p → is_Some (store_view c !! p).
Proof using PL.
  intros Hc (q & i & (s & Hs & <- & ->)%store_view_Some & _ & Hx); [|done].
  apply elem_of_references in Hx as (t & Ht & <- & _). rewrite store_view_in by done. by eexists.
Qed.

Lemma step_refines o db c k : db_wf db c k → op_ok o →
  ∃ db' a c' k', run_op o db = (db', a) ∧ db_wf db' c' k' ∧ spec_step (view c k) o a (view c' k').
Proof using PL.
  intros Hdb Ho. destruct (id Hdb) as (_ & Hc & _). unfold view. destruct o as [params|a b|a b|p n o|p|p s|d n i s|i j].
  - destruct (register_error db c k params Hdb Ho) as [Hfull Htaken].
    destruct (decide (ValidPaths_seq c = i64_max)) as [E|Hne].
    { exists db, (Err (Sqlite DatabaseFull)), c, k. cbn. rewrite Hfull by done. split_and!; [done|done|]. rewrite E. constructor. }
    destruct (decide (p_path params ∈ paths c)) as [Hp|Hp].
    { exists db, (Err (Sqlite ConstraintUnique)), c, k. cbn. rewrite Htaken by done. split_and!; [done|done|].
      constructor; [done|]. by apply store_view_is_Some. }
    destruct (register_ok db c k params Hdb Ho Hne Hp) as (db' & c' & E & Hdb' & E1 & E2 & E3).
    exists db', (Ok (AId (ValidPaths_seq c + 1))), c', k. cbn. rewrite E, E1, E2, E3. split_and!; [done|done|].
    constructor; [done|]. by apply store_view_None.
  - destruct (add_reference_ok db c k a b Hdb) as (db' & c' & E & Hdb' & E1 & E2 & E3).
    exists db', (Ok AUnit), c', k. cbn. rewrite E, E1, E2, E3. split_and!; [done|done|constructor].
  - destruct (remove_reference_ok db c k a b Hdb) as (db' & c' & E & Hdb' & E1 & E2 & E3).
    exists db', (Ok AUnit), c', k. cbn. rewrite E, E1, E2, E3. split_and!; [done|done|constructor].
  - destruct (register_derivation_output_ok db c k p n o Hdb) as (db' & c' & E & Hdb' & E1 & E2 & E3).
    exists db', (Ok AUnit), c', k. cbn. rewrite E, E1, E2, E3. split_and!; [done|done|constructor].
  - destruct (invalidate_ok db c k p Hdb) as [Hu Hn]. destruct (decide (in_use (store_view c) p)) as [Hin|Hin].
    + pose proof (in_use_valid c p Hc Hin). exists db, (Err (Sqlite ConstraintForeignKey)), c, k.
      cbn. rewrite Hu by done. split_and!; [done|done|by constructor].
    + destruct (Hn Hin) as (db' & c' & k' & E & Hdb' & E1 & E2 & E3 & E4 & E5). eexists db', _, c', k'.
      cbn. rewrite E, E1, E2, E3, E4, E5.
      split_and!; [done|done|by constructor].
  - destruct (update_signatures_ok db c k p s Hdb) as (db' & c' & E & Hdb' & E1 & E2 & E3).
    exists db', (Ok AUnit), c', k. cbn. rewrite E, E1, E2, E3. split_and!; [done|done|constructor].
  - destruct (register_realisation_error db c k d n i s Hdb) as [Hfull Hfk].
    destruct (decide (Realisations_seq k = i64_max)) as [E|Hne].
    { exists db, (Err (Sqlite DatabaseFull)), c, k. cbn. rewrite Hfull by done. split_and!; [done|done|].
      rewrite E. constructor. }
    destruct (decide (valid_id (store_view c) i)) as [Hi|Hi].
    + destruct (register_realisation_ok db c k d n i s Hdb Hne Hi) as (db' & k' & E & Hdb' & E1 & E2).
      eexists db', _, c, k'. cbn. rewrite E, E1, E2. split_and!; [done|done|by constructor].
    + exists db, (Err (Sqlite ConstraintForeignKey)), c, k. cbn. rewrite Hfk by done.
      split_and!; [done|done|by constructor].
  - destruct (add_realisation_reference_ok db c k i j Hdb) as [Hfk Hok].
    destruct (decide (is_Some (realisations_view k !! i) ∧ is_Some (realisations_view k !! j))) as [Hi|Hi].
    + destruct (Hok Hi) as (db' & k' & E & Hdb' & E1 & E2).
      exists db', (Ok AUnit), c, k'. cbn. rewrite E, E1, E2. split_and!; [done|done|by constructor].
    + exists db, (Err (Sqlite ConstraintForeignKey)), c, k. cbn. rewrite Hfk by done.
      split_and!; [done|done|by constructor].
Qed.

Lemma run_refines os : ∀ db c k, db_wf db c k → Forall op_ok os →
  ∃ db' l c' k', run_ops os db = (db', l) ∧ db_wf db' c' k' ∧ spec_run (view c k) os l (view c' k').
Proof using PL.
  induction os as [|o os IH]; intros db c k Hdb Ho.
  { exists db, [], c, k. split_and!; [done|done|constructor]. }
  apply Forall_cons in Ho as [Ho Hos]. destruct (step_refines o db c k Hdb Ho) as (db1 & a & c1 & k1 & E1 & Hdb1 & H1).
  destruct (IH db1 c1 k1 Hdb1 Hos) as (db2 & l & c2 & k2 & E2 & Hdb2 & H2).
  exists db2, (a :: l), c2, k2. cbn. rewrite E1, E2. split_and!; [done|done|by econstructor].
Qed.

(** ** Queries *)

Lemma info_of_row_ok c r : core_wf c → r ∈ ValidPaths c → info_of_row c r = Ok (decode c r).
Proof.
  intros Hc Hr. pose proof (wf_rows c Hc) as Hok. rewrite Forall_forall in Hok. destruct (Hok r Hr) as [Ht Hu].
  unfold info_of_row, get_i32. rewrite unix_to_system_time_ok by lia. cbn [mbind res_bind]. unfold decode.
  destruct (r_ultimate r) as [z|] eqn:E; [|done]. specialize (Hu z eq_refl).
  by rewrite (proj2 (Z.leb_le _ z)), (proj2 (Z.leb_le z _)) by lia.
Qed.

Lemma select_path_view c p : core_wf c →
  head (select_path c p) = None ∧ store_view c !! p = None ∨
  ∃ r, r ∈ ValidPaths c ∧ r_path r = p ∧ head (select_path c p) = Some r ∧ store_view c !! p = Some (decode c r).
Proof.
  intros Hc. destruct (select_path_cases c p Hc) as [(r & Hr & <- & ->)|[-> Hp]].
  - right. exists r. by rewrite store_view_in.
  - left. by rewrite (proj2 (store_view_None c p Hc)).
Qed.

(** A path refers only to paths that are there. *)
Definition closed (m : store_map) : Prop :=
  ∀ p i x, m !! p = Some i → x ∈ elems (vp_references i) → is_Some (m !! x).

(** The output of a realisation is valid. *)
Definition realised_valid (sp : spec) : Prop :=
  ∀ i x, sp_realisations sp !! i = Some x → valid_id (sp_paths sp) (rl_output_path_id x).

(** The queries answer from the specification. A query without an order gives
    its rows in any order, and one of several realisations; the search for a
    hash part, which has no [ORDER BY] either, gives a valid path with that
    hash part, and is exact if SQLite reads the rows in the order of paths. *)
Record answers_from (db : StoreDb) (sp : spec) : Prop := {
  af_info p : query_path_info db p = Ok (sp_paths sp !! p);
  af_info_by_id id : ∃ o, query_path_info_by_id db id = Ok o ∧
    ∀ i, o = Some i ↔ sp_paths sp !! vp_path i = Some i ∧ vp_id i = id;
  af_valid p : is_valid_path db p = Ok (bool_decide (is_Some (sp_paths sp !! p)));
  af_references p : query_references db p = Ok (default (mk_set []) (vp_references <$> sp_paths sp !! p));
  af_referrers p : ∃ s, query_referrers db p = Ok s ∧ ascending (elems s) ∧
    ∀ q, q ∈ elems s ↔ refers (sp_paths sp) p q;
  af_all : ∃ l, query_all_valid_paths db = Ok l ∧ l ≡ₚ (map_to_list (sp_paths sp)).*1;
  af_count : count_valid_paths db = Ok (wrap_u64 (Z.of_nat (base.size (sp_paths sp))));
  af_derivers o : ∃ l, query_valid_derivers db o = Ok l ∧ ∀ p, p ∈ l ↔ ∃ n, (p, n, o) ∈ sp_outputs sp;
  af_outputs p : ∃ l, query_derivation_outputs db p = Ok l ∧
    ∀ d, d ∈ l ↔ ∃ i, sp_paths sp !! p = Some i ∧ drv_id d = vp_id i ∧ (p, output_id d, out_path d) ∈ sp_outputs sp;
  af_realisation d n : ∃ o, query_realisation db d n = Ok o ∧
    match o with
    | Some x => sp_realisations sp !! rl_id x = Some x ∧ rl_drv_path x = d ∧ rl_output_name x = n
    | None => ∀ i x, sp_realisations sp !! i = Some x → ¬ (rl_drv_path x = d ∧ rl_output_name x = n)
    end;
  af_hash_part dir h : ∃ o, query_path_from_hash_part db dir h = Ok o ∧
    (∀ p, o = Some p → is_Some (sp_paths sp !! p) ∧ (dir ++ str "/" ++ h) `prefix_of` p) ∧
    ((∀ l, in_path_order (range_scan l)) → first_with (sp_paths sp) (dir ++ str "/" ++ h) o)
}.

Lemma view_keys c : core_wf c → paths c ≡ₚ (map_to_list (store_view c)).*1.
Proof.
  intros Hc. apply NoDup_Permutation; [apply (wf_paths c Hc)|apply NoDup_fst_map_to_list|].
  intros p. rewrite <-store_view_is_Some, list_elem_of_fmap by done. split.
  - intros [i Hi]. exists (p, i). by rewrite elem_of_map_to_list.
  - intros ([q i] & -> & Hi%elem_of_map_to_list). by exists i.
Qed.

Lemma query_references_view c k p : core_wf c →
  query_references (mk_db (Some c) k true false) p =
    Ok (default (mk_set []) (vp_references <$> store_view c !! p)).
Proof using PL.
  intros Hc. unfold query_references. run_db.
  destruct (select_path_view c p Hc) as [[-> ->]|(r & Hr & <- & -> & ->)]; cbn [fmap option_fmap option_map default].
  - f_equal. apply set_eq; [apply collect_set_ascending|constructor|]. intros x.
    rewrite elem_of_collect_set, scan_perm, filter_none by done. done.
  - f_equal. change (vp_references (decode c r)) with (query_references_by_id c (r_id r)).
    unfold query_references_by_id, id. do 2 f_equal.
    rewrite (list_filter_iff _ (λ x, referrer_id x = r_id r)); [done|]. intros x. by split; [intros [= ->]|intros ->].
Qed.

Lemma query_referrers_view c k p : core_wf c →
  ∃ s, query_referrers (mk_db (Some c) k true false) p = Ok s ∧ ascending (elems s) ∧
    ∀ q, q ∈ elems s ↔ refers (store_view c) p q.
Proof using PL.
  intros Hc. unfold query_referrers. run_db. eexists. split_and!; [done|apply collect_set_ascending|]. intros q.
  rewrite elem_of_collect_set, scan_perm, list_elem_of_bind.
  unfold refers. setoid_rewrite list_elem_of_fmap. unfold select_id. setoid_rewrite list_elem_of_filter. split.
  - intros ([a b] & (s & -> & Es & Hs) & Eb & Hy). cbn in *. subst a.
    destruct (select_path_view c p Hc) as [[E _]|(r & Hr & <- & E & _)]; rewrite E in Eb; [done|].
    injection Eb as <-. exists (decode c s). rewrite store_view_in by done. split; [done|].
    apply elem_of_references. by exists r.
  - intros (i & (s & Hs & <- & ->)%store_view_Some & (t & Ht & <- & Hy)%elem_of_references); [|done].
    exists (mk_ref (r_id s) (r_id t)). cbn. rewrite (select_path_in Hc) by done. split; [by exists s|done].
Qed.

Lemma query_realisation_view c k d n : ca_wf c k →
  ∃ o, query_realisation (mk_db (Some c) (Some k) true false) d n = Ok o ∧
    match o with
    | Some x => realisations_view k !! rl_id x = Some x ∧ rl_drv_path x = d ∧ rl_output_name x = n
    | None => ∀ i x, realisations_view k !! i = Some x → ¬ (rl_drv_path x = d ∧ rl_output_name x = n)
    end.
Proof using PL.
  intros Hk. unfold query_realisation. run_db. eexists. split; [done|].
  set (l := filter _ (Realisations k)). pose proof (scan_perm l) as Hl.
  assert (∀ x, x ∈ scan l ↔ (rl_drv_path x = d ∧ rl_output_name x = n) ∧ x ∈ Realisations k) as Hx
    by (intros x; rewrite Hl; unfold l; by rewrite list_elem_of_filter).
  destruct (scan l) as [|x l']; cbn [head].
  - intros i x [Hin _]%(realisations_view_Some c) Hm; [|done].
    assert (x ∈ @nil Realisation) as Hnil by by apply Hx. inversion Hnil.
  - destruct (proj1 (Hx x)) as [Hm Hin]; [set_solver|]. split; [|done]. by apply (realisations_view_Some c).
Qed.

(** The search for a hash part finds a valid path with it; when SQLite reads the
    rows in the order of the index of paths, it finds the first whenever there
    is one. *)
Lemma hash_part_view c k dir h : core_wf c →
  let prefix := dir ++ str "/" ++ h in
  ∃ o, query_path_from_hash_part (mk_db (Some c) k true false) dir h = Ok o ∧
    (∀ p, o = Some p → is_Some (store_view c !! p) ∧ prefix `prefix_of` p) ∧
    (in_path_order (range_scan (ValidPaths c)) → first_with (store_view c) prefix o).
Proof using PL.
  intros Hc prefix. unfold query_path_from_hash_part. run_db. fold prefix. eexists. split; [done|].
  assert (∀ q, is_Some (store_view c !! q) ↔ ∃ r, r ∈ range_scan (ValidPaths c) ∧ r_path r = q) as Hv.
  { intros q. setoid_rewrite range_scan_perm. rewrite <-elem_of_paths. by apply store_view_is_Some. }
  set (l := filter _ _). split.
  { intros p. destruct (head l) as [r|] eqn:E; [|done]. case_bool_decide; [|done]. intros [= <-]. split; [|done].
    apply Hv. exists r. split; [|done]. assert (r ∈ l) as [_ Hr]%list_elem_of_filter by by apply head_Some_elem_of. done. }
  intros Hord. pose proof (head_filter_sorted (λ r, bytes_cmp (r_path r) prefix ≠ Lt) _ Hord) as Hh. fold l in Hh.
  assert (∀ q, prefix `prefix_of` q → bytes_cmp q prefix ≠ Lt) as Hge by (intros q [s ->]; apply bytes_cmp_app).
  destruct (head l) as [r|].
  - destruct Hh as (Hr & Hpre & Hmin). case_bool_decide as Hp.
    + split_and!; [apply Hv; by exists r|done|]. intros q (s & Hs & <-)%Hv Hps. apply Hmin; [done|]. by apply Hge.
    + intros q (s & Hs & <-)%Hv Hps. destruct Hp. pose proof (Hmin s Hs (Hge _ Hps)) as Hle.
      destruct Hps as [t Et]. rewrite Et in Hle. by apply (prefix_between _ _ t).
  - intros q (s & Hs & <-)%Hv Hps. apply (Hh s Hs). by apply Hge.
Qed.

Lemma queries_refine db c k : db_wf db c k → answers_from db (view c k).
Proof using PL.
  intros (-> & Hc & Hk). split; cbn [sp_paths sp_outputs sp_realisations view].
  - intros p. unfold query_path_info, first_info. run_db.
    destruct (select_path_cases c p Hc) as [(r & Hr & <- & ->)|[-> Hp]].
    + by rewrite info_of_row_ok, store_view_in by done.
    + by rewrite (proj2 (store_view_None c p Hc)).
  - intros id. unfold query_path_info_by_id, first_info. run_db.
    destruct (decide (id ∈ ids c)) as [Hid|Hid].
    + apply elem_of_ids in Hid as (r & Hr & <-). rewrite select_id_in, info_of_row_ok by done. eexists.
      split; [done|]. intros i. split.
      * intros [= <-]. split; [by apply (store_view_in c r)|done].
      * intros [(s & Hs & _ & ->)%store_view_Some E]; [|done]. f_equal. f_equal. by apply (id_inj Hc).
    + assert (select_id c id = []) as -> by by apply (select_none r_id). eexists. split; [done|]. intros i. split; [done|].
      intros [(s & Hs & _ & ->)%store_view_Some <-]; [|done]. destruct Hid. apply elem_of_ids. by exists s.
  - intros p. unfold is_valid_path. run_db.
    destruct (select_path_view c p Hc) as [[-> ->]|(r & Hr & <- & -> & ->)]; [done|]. by rewrite bool_decide_true by by eexists.
  - intros p. by apply query_references_view.
  - intros p. by apply query_referrers_view.
  - eexists. split; [done|]. by rewrite scan_perm, view_keys.
  - unfold count_valid_paths. run_db. rewrite <-length_map_to_list, <-(length_fmap fst), <-view_keys by done.
    unfold paths. by rewrite length_fmap.
  - intros o. eexists. split; [done|]. intros p. rewrite scan_perm, list_elem_of_bind.
    setoid_rewrite elem_of_outputs_view. setoid_rewrite list_elem_of_fmap. unfold select_id.
    setoid_rewrite list_elem_of_filter. split.
    + intros ([i n q] & (r & -> & Ei & Hr) & Eq & Hd). cbn in *. subst. exists n, r. done.
    + intros (n & r & Hr & <- & Hd). exists (mk_output (r_id r) n o). split; [by exists r|done].
  - intros p. eexists. split; [done|]. intros d. rewrite scan_perm, list_elem_of_bind.
    setoid_rewrite list_elem_of_bind. unfold select_id. setoid_rewrite list_elem_of_filter.
    setoid_rewrite list_elem_of_filter. setoid_rewrite list_elem_of_singleton. setoid_rewrite elem_of_outputs_view. split.
    + intros (e & (r & -> & Ep & Ei & Hr) & Hd). exists (decode c r). subst p. rewrite store_view_in by done.
      split_and!; [done|done|]. exists r. rewrite Ei. split_and!; [done|done|]. by destruct e.
    + intros (i & (r & Hr & Ep & ->)%store_view_Some & Ei & s & Hs & Es & Hd); [|done].
      assert (s = r) as -> by (apply (path_inj Hc); congruence). exists d. split; [by exists r|].
      cbn in Ei. rewrite <-Ei in Hd. by destruct d.
  - intros d n. by apply query_realisation_view.
  - intros dir h. destruct (hash_part_view c (Some k) dir h Hc) as (o & E & Hv & Ho). exists o. by split_and!; auto.
Qed.

(** The search on a database whose rows are read in the order of paths. *)
Lemma hash_part_found (db : StoreDb) (c : Core) (k : Ca) (dir h : bytes) :
  db_wf db c k → in_path_order (range_scan (ValidPaths c)) →
  ∃ o, query_path_from_hash_part db dir h = Ok o ∧ first_with (store_view c) (dir ++ str "/" ++ h) o.
Proof using PL.
  intros (-> & Hc & Hk) Hord. destruct (hash_part_view c (Some k) dir h Hc) as (o & E & _ & Ho).
  exists o. split; [done|by apply Ho].
Qed.

Lemma view_realised c k : core_wf c → ca_wf c k → realised_valid (view c k).
Proof using PL.
  intros Hc Hk i x [Hx _]%(realisations_view_Some c); [|done]. apply valid_id_ids; [done|].
  pose proof (wf_realised c k Hk) as Hr. rewrite Forall_forall in Hr. by apply Hr.
Qed.

Lemma view_closed c : core_wf c → closed (store_view c).
Proof using PL.
  intros Hc p i x (r & Hr & _ & ->)%store_view_Some Hx; [|done].
  apply elem_of_references in Hx as (t & Ht & <- & _). rewrite store_view_in by done. by eexists.
Qed.
End refine.

(** ** The whole database *)

Lemma schema_wf : db_wf (mk_db (Some SCHEMA_SQL) (Some CA_SCHEMA_SQL) true false) SCHEMA_SQL CA_SCHEMA_SQL.
Proof. split; [done|]. split; split; cbn; try constructor; done. Qed.

(** C9. A new database and any sequence of statements: none of them panics,
    each succeeds or fails as the specification says and answers the same (a
    path that another refers to cannot be invalidated, a realisation needs a
    valid output and a reference two realisations), and every query of
    [query.rs] answers from the state of the specification: a finite map of
    paths, a set of outputs and a map of realisations. The search for a hash
    part gives a valid path with it, and the first of them whenever there is one
    if SQLite reads the rows in the order of paths. The references of a valid
    path and the outputs of the realisations are valid. *)
Theorem database_refines {P : Planner} {PL : PlannerLaws} (foreign_keys : bool) (os : list db_op) :
  Forall op_ok os →
  ∃ db0 db l sp, open_memory foreign_keys = Ok db0 ∧ run_ops os db0 = (db, l) ∧
    spec_run new_spec os l sp ∧ answers_from db sp ∧ closed (sp_paths sp) ∧ realised_valid sp.
Proof.
  intros Hos. destruct (run_refines os _ _ _ schema_wf Hos) as (db & l & c & k & E & Hdb & Hrun).
  exists (mk_db (Some SCHEMA_SQL) (Some CA_SCHEMA_SQL) true false), db, l, (view c k).
  pose proof (queries_refine db c k Hdb). destruct Hdb as (_ & Hc & Hk).
  split_and!; [done|done|exact Hrun|done|by apply view_closed|by apply view_realised].
Qed.

(** ** Orders *)

(** Rows in the order of their identifiers. *)
Definition rowid_order : Planner := {| range_scan l := l; scan A l := l |}.

Lemma rowid_laws : @PlannerLaws rowid_order.
Proof. by split. Qed.

(** Rows in the order of the index of paths. *)
Definition path_le (r s : ValidPathsRow) : Prop := bytes_cmp (r_path s) (r_path r) ≠ Lt.

#[export] Instance path_le_dec r s : Decision (path_le r s).
Proof. unfold path_le. apply _. Defined.

Definition index_order : Planner := {| range_scan := merge_sort path_le; scan A l := l |}.

Lemma index_laws : @PlannerLaws index_order.
Proof. split; [apply merge_sort_Permutation|done]. Qed.

Lemma index_sorted l : in_path_order (merge_sort path_le l).
Proof.
  apply StronglySorted_merge_sort.
  - intros r s t H1 H2 E. unfold path_le in *. destruct (bytes_cmp (r_path s) (r_path r)) eqn:E1; [|done|].
    + apply bytes_cmp_eq in E1. by rewrite E1 in H2.
    + assert (bytes_cmp (r_path r) (r_path s) = Lt) as E1' by (rewrite bytes_cmp_antisym, E1; done).
      destruct H2. by apply (bytes_cmp_trans _ (r_path r)).
  - intros r s. unfold path_le. destruct (bytes_cmp (r_path s) (r_path r)) eqn:E; [by left| |by left].
    right. by rewrite bytes_cmp_antisym, E.
Qed.

(** ** Concrete uses *)

Definition sample_params (path : bytes) (refs : list bytes) : RegisterPathParams :=
  mk_params path (str "sha256:00") (-1500000000)%Z None (Some u64_max) true None None (mk_set refs).

Definition sample_ops : list db_op :=
  [DRegister (sample_params (str "/s/b") [str "/s/b"; str "/s/z"]);
   DRegister (sample_params (str "/s/a") [str "/s/b"]);
   DRegister (sample_params (str "/s/a") []);
   DInvalidate (str "/s/b");
   DRegisterOutput (str "/s/a") (str "out") (str "/s/b");
   DRegisterRealisation (str "d") (str "out") 2 None;
   DRegisterRealisation (str "d") (str "out") 7 None;
   DAddRealisationReference 1 1;
   DAddRealisationReference 1 2;
   DInvalidate (str "/s/a");
   DInvalidate (str "/s/b")].

Lemma sample_params_ok path refs : ascending refs → params_ok (sample_params path refs).
Proof. intros Hr. split_and!; [split; vm_compute; congruence|intros n [= <-]; split; vm_compute; congruence|done]. Qed.

Lemma sample_ops_ok : Forall op_ok sample_ops.
Proof.
  unfold sample_ops. repeat (apply Forall_cons; split); try apply Forall_nil; try exact I;
    apply sample_params_ok; repeat (apply SSorted_cons; [|repeat constructor]); apply SSorted_nil.
Qed.

Definition sample_core : StoreDb * list (res Error answer) :=
  run_ops sample_ops (mk_db (Some SCHEMA_SQL) (Some CA_SCHEMA_SQL) true false).

Lemma sample_answers : sample_core.2 =
  [Ok (AId 1); Ok (AId 2); Err (Sqlite ConstraintUnique); Err (Sqlite ConstraintForeignKey); Ok AUnit; Ok (AId 1);
   Err (Sqlite ConstraintForeignKey); Ok AUnit; Err (Sqlite ConstraintForeignKey); Ok (ABool true); Ok (ABool true)].
Proof. by vm_compute. Qed.

Lemma database_refines_witness :
  ∃ db0 db l sp, open_memory false = Ok db0 ∧ run_ops sample_ops db0 = (db, l) ∧
    spec_run new_spec sample_ops l sp ∧ @answers_from rowid_order db sp ∧ closed (sp_paths sp) ∧ realised_valid sp.
Proof. exact (@database_refines rowid_order rowid_laws false sample_ops sample_ops_ok). Defined.

(** Two paths, the later first in the order of paths. *)
Definition two_paths : list db_op :=
  [DRegister (sample_params (str "/s/zz-z") []); DRegister (sample_params (str "/s/bb-b") [])].

Definition two_db : StoreDb := (run_ops two_paths (mk_db (Some SCHEMA_SQL) (Some CA_SCHEMA_SQL) true false)).1.

Lemma two_db_wf : ∃ c k, db_wf two_db c k.
Proof.
  destruct (@run_refines rowid_order rowid_laws two_paths _ _ _ schema_wf) as (db & l & c & k & E & Hdb & _).
  { unfold two_paths. repeat (apply Forall_cons; split); try apply Forall_nil; try exact I;
      apply sample_params_ok, SSorted_nil. }
  exists c, k. unfold two_db. by rewrite E.
Qed.

(** In another order the same search misses a valid path: the statement has no
    [ORDER BY], so it relies on SQLite choosing the index. *)
Lemma hash_part_needs_order :
  is_valid_path two_db (str "/s/bb-b") = Ok true ∧
  @query_path_from_hash_part rowid_order two_db (str "/s") (str "bb") = Ok None.
Proof. by vm_compute. Qed.
