(* ===== verification/LocalStore.v ===== *)
(** The local store of the daemon ([harmonia-daemon/src/handler.rs]): a
    [DaemonStore] that answers from the store database. It reads only: the
    methods it does not implement are those of the trait's defaults. *)

From stdpp Require Import base list numbers strings gmap.
From Stdlib Require Import ZArith Lia Strings.Byte.
From S2P Require Import Prelude FileSystem StoreDb StoreDbSpec Async Wire Sink ProtoRead Framed Version BaseEncoding Codecs Hash StorePath ContentAddress Signature DerivedPath NixIO NixCodec WireTypes Messages Derivations Requests Logger DaemonErrors DaemonStore Server.

(** The texts of errors of the packages below, and of a task that panicked. *)
Class HandlerText : Type := {
  db_error_text : StoreDb.Error → bytes;
  hash_error_text : ParseHashError → bytes;
  hash_kind_text : ParseHashErrorKind → bytes;
  join_error_text : bytes
}.

(** [error.rs]: the error of [new]. *)
Inductive HandlerError : Type := Database (message : bytes).

Record LocalStoreHandler : Type := mk_handler { lh_store_dir : StoreDir; lh_db : StoreDb }.

(** [Result::ok]. *)
Definition res_ok {E F A : Type} (m : res E A) : res F (option A) :=
  match m with Ok a => Ok (Some a) | Err _ => Ok None | Panic => Panic end.

(** [filter_map] with a function that may panic. *)
Fixpoint filter_map {E A B : Type} (f : A → res E (option B)) (l : list A) : res E (list B) :=
  match l with
  | [] => Ok []
  | x :: l => o ← f x; l ← filter_map f l; Ok (match o with Some y => y :: l | None => l end)
  end.

Section handler.
Context {DE : DataEncoding} {DG : DigestLib} {SA : StructuredAttrsLib} {P : Planner} {HT : HandlerText}.

Definition LocalStoreHandler_new (foreign_keys : bool) (store_dir : StoreDir) (db_path : bytes) (disk : option file) :
    res HandlerError LocalStoreHandler :=
  db ← Prelude.map_err (λ e, Database (str "Failed to open " ++ db_path ++ str ": " ++ db_error_text e))
         (StoreDb.open foreign_keys db_path disk ReadOnly);
  Ok (mk_handler store_dir db).

(** The base name of a path, as a store path. *)
Definition base_store_path_of {E : Type} (path : bytes) : res E (option StorePath) :=
  match file_name path with
  | Some base_name => res_ok (StorePath_from_str base_name)
  | None => Ok None
  end.

Definition collect_btree {T : Type} {HO : Ord T} (l : list T) : BTreeSet T :=
  mk_set (fold_left (λ s x, insert_elem x s) l []).

(** [duration_since(UNIX_EPOCH)] fails before the epoch. *)
Definition protocol_time (t : SystemTime) : option NonZero :=
  if (0 <=? t)%Z then nonzero_new (as_i64 (t / nanos_per_sec)) else None.

Definition to_protocol_path_info (info : StoreDb.ValidPathInfo) (store_dir : StoreDir) :
    res DaemonError UnkeyedValidPathInfo :=
  hash_any ← Prelude.map_err (λ e, custom (str "Failed to parse hash '" ++ vp_hash info ++ str "': " ++ hash_error_text e))
    (Any_from_str (H := Hash) (vp_hash info));
  nar_hash ← Prelude.map_err (λ e, custom (str "Failed to convert hash '" ++ vp_hash info ++ str "': " ++ hash_kind_text e))
    (mk_nar_hash <$> Hash_to_Sha256 hash_any);
  references ← filter_map base_store_path_of (elems (vp_references info));
  deriver ← match vp_deriver info with Some d => base_store_path_of d | None => Ok None end;
  signatures ← match vp_sigs info with
               | Some s => filter_map (λ sig, res_ok (Signature_from_str sig)) (split_whitespace s)
               | None => Ok []
               end;
  ca ← match vp_ca info with Some s => res_ok (CA_from_str s) | None => Ok None end;
  Ok (mk_UnkeyedValidPathInfo deriver nar_hash (collect_btree references)
        (protocol_time (vp_registration_time info)) (u64 (default 0 (vp_nar_size info))%Z)
        (vp_ultimate info) (collect_btree signatures) ca store_dir).

(** [spawn_blocking] gives a panic of the task as an error. *)
Definition spawn_blocking {A : Type} (task : res StoreDb.Error A) : res DaemonError A :=
  match task with
  | Ok a => Ok a
  | Err e => Err (custom (str "Database error: " ++ db_error_text e))
  | Panic => Err (custom (str "Task join error: " ++ join_error_text))
  end.

(** [format!("{}/{}", self.store_dir, path)]. *)
Definition full_path {E : Type} (store_dir : StoreDir) (path : StorePath) : res E bytes :=
  unwrap (store_dir_fmt store_dir path).

Definition local_is_valid_path (h : LocalStoreHandler) (path : StorePath) : res DaemonError bool :=
  p ← full_path (lh_store_dir h) path;
  spawn_blocking (StoreDb.is_valid_path (lh_db h) p).

Definition local_query_path_info (h : LocalStoreHandler) (path : StorePath) :
    res DaemonError (option UnkeyedValidPathInfo) :=
  p ← full_path (lh_store_dir h) path;
  result ← spawn_blocking (StoreDb.query_path_info (lh_db h) p);
  match result with
  | Some info => Some <$> to_protocol_path_info info (lh_store_dir h)
  | None => Ok None
  end.

Definition local_query_path_from_hash_part (h : LocalStoreHandler) (hash : StorePathHash) :
    res DaemonError (option StorePath) :=
  hash_str ← unwrap (StorePathHash_fmt hash);
  result ← spawn_blocking (StoreDb.query_path_from_hash_part (lh_db h) (lh_store_dir h) hash_str);
  match result with
  | Some path => base_store_path_of path
  | None => Ok None
  end.

Fixpoint valid_loop (h : LocalStoreHandler) (valid : list StorePath) (paths : list StorePath) :
    res DaemonError (list StorePath) :=
  match paths with
  | [] => Ok valid
  | path :: paths =>
      is_valid ← local_is_valid_path h path;
      valid_loop h (if is_valid : bool then insert_elem path valid else valid) paths
  end.

Definition local_query_valid_paths (h : LocalStoreHandler) (paths : BTreeSet StorePath) (_substitute : bool) :
    res DaemonError (BTreeSet StorePath) :=
  mk_set <$> valid_loop h [] (elems paths).

Definition local_call {T : Type} (e : StoreE T) (h : LocalStoreHandler) : ResultLog T :=
  match e in StoreE T return ResultLog T with
  | is_valid_path path => ([], local_is_valid_path h path)
  | query_path_info path => ([], local_query_path_info h path)
  | query_path_from_hash_part hash => ([], local_query_path_from_hash_part h hash)
  | query_valid_paths paths substitute => ([], local_query_valid_paths h paths substitute)
  | e => default_call e
  end.

#[export] Instance LocalStore_store : DaemonStore LocalStoreHandler := {|
  trust_level _ := TrustTrusted;
  store_call T e h := (h, local_call e h);
  nar_from_path path h := (h, default_nar);
  store_upload T e h := default_upload e h;
  shutdown h := (h, Ok tt)
|}.

#[export] Instance LocalStore_handshake : HandshakeDaemonStore LocalStoreHandler LocalStoreHandler := λ h, ([], Ok h).
End handler.
