(* ===== verification/LocalStoreSpec.v ===== *)
(** The local store gives back what was registered: the texts of a path's data
    in the database, read by the handler and sent over a connection, are the
    data again. *)

From stdpp Require Import base list numbers strings gmap.
From Stdlib Require Import ZArith Lia Strings.Byte Sorting.Sorted.
From S2P Require Import Prelude FileSystem StoreDb StoreDbSpec StoreDbRefine Async Wire Sink BufferMut BytesReader ProtoRead Framed Version BaseEncoding Codecs Hash StorePath ContentAddress Signature DerivedPath NixIO Streams NixCodec WireTypes Messages Derivations Requests Logger DaemonErrors DaemonStore Server ServerSpec Samples Client ClientSpec Remote LocalStore.

(** ** Words *)

Definition is_graphic (b : byte) : bool := (33 <=? byte_to_Z b)%Z && (byte_to_Z b <=? 126)%Z.

Lemma graphic_not_space b s : is_graphic b = true → whitespace_at (b :: s) = None.
Proof. by destruct b. Qed.

Lemma split_words_graphic w : ∀ acc s, Forall (λ b, is_graphic b = true) w →
  split_words 0 acc (w ++ s) = split_words 0 (rev w ++ acc) s.
Proof.
  induction w as [|b w IH]; intros acc s Hw; [done|]. apply Forall_cons in Hw as [Hb Hw].
  cbn [app split_words]. rewrite graphic_not_space by done. rewrite IH by done. cbn [rev]. by rewrite <-app_assoc.
Qed.

(** Words with spaces between them are split into the words. *)
Lemma split_whitespace_join ws :
  Forall (λ w, w ≠ [] ∧ Forall (λ b, is_graphic b = true) w) ws → split_whitespace (join " " ws) = ws.
Proof.
  unfold split_whitespace. induction ws as [|w ws IH]; intros Hws; [done|].
  apply Forall_cons in Hws as [[Hne Hw] Hws]. destruct ws as [|w' ws].
  - cbn [join]. rewrite <-(app_nil_r w) at 1. rewrite split_words_graphic by done. cbn. rewrite app_nil_r.
    destruct (rev w) eqn:E; [by apply (f_equal (@rev _)) in E; rewrite rev_involutive in E|].
    by rewrite <-E, rev_involutive.
  - change (join " " (w :: w' :: ws)) with (w ++ " "%byte :: join " " (w' :: ws)).
    rewrite split_words_graphic by done. rewrite app_nil_r.
    change (split_words 0 (rev w) (" "%byte :: join " " (w' :: ws))) with
      ((if rev w is [] then [] else [rev (rev w)]) ++ split_words 0 [] (join " " (w' :: ws))).
    rewrite IH by done. destruct (rev w) eqn:E; [by apply (f_equal (@rev _)) in E; rewrite rev_involutive in E|].
    by rewrite <-E, rev_involutive.
Qed.

(** ** Filters *)

Lemma filter_map_all {E A B} (f : A → res E (option B)) (g : B → A) l :
  Forall (λ y, f (g y) = Ok (Some y)) l → filter_map f (g <$> l) = Ok l.
Proof.
  induction l as [|y l IH]; [done|]. intros [Hy Hl]%Forall_cons. cbn. rewrite Hy. cbn.
  change (list_fmap _ _ g l) with (g <$> l). by rewrite IH.
Qed.

Section collect.
Context {T : Type} {HO : Ord T} {HOL : OrdLaws T}.

Lemma collect_btree_eq (l : list T) (s : BTreeSet T) :
  ascending (elems s) → (∀ x, x ∈ l ↔ x ∈ elems s) → collect_btree l = s.
Proof using HOL.
  intros Hs Hl. destruct s as [es]. unfold collect_btree. f_equal. apply ascending_unique; [|done|].
  - apply insert_elems_ascending. constructor.
  - intros x. rewrite elem_of_insert_elems, Hl. set_solver.
Qed.
End collect.

Lemma filter_map_members {E A B} (f : A → res E (option B)) (g : B → A) (Q : B → Prop) l :
  (∀ y, Q y → f (g y) = Ok (Some y)) → Forall (λ x, ∃ y, Q y ∧ x = g y) l →
  ∃ l', filter_map f l = Ok l' ∧ l = g <$> l' ∧ Forall Q l'.
Proof.
  intros Hf. induction l as [|x l IH]; [by exists []|]. intros [(y & Hy & ->) Hl]%Forall_cons.
  destruct (IH Hl) as (l' & E1 & -> & Hq). exists (y :: l'). cbn. rewrite Hf by done. cbn. rewrite E1. by split_and!; [..|constructor].
Qed.

(** ** The form in the database *)

Section form.
Context {DE : DataEncoding} {DL : DataEncodingLaws} {DG : DigestLib} {SA : StructuredAttrsLib}.

Definition path_in (dir : StoreDir) (p : StorePath) : bytes := dir ++ "/"%byte :: path_text p.

Lemma path_text_name p : path_wf p → FileSystem.name_ok (path_text p).
Proof using DL.
  intros Hp. assert (∀ c, NAME_LOOKUP c = false → c ∉ path_text p) as Hc by (intros c; by apply path_text_plain).
  assert (∀ n, length n < 33 → path_text p ≠ n) as Hlen.
  { intros n Hn <-. destruct Hp as [Hh _]. destruct (StorePathHash_fmt_eq (sp_hash p) Hh) as [_ Hl].
    unfold path_text in Hn. rewrite length_app in Hn. change STORE_PATH_HASH_ENCODED_SIZE with 32 in Hl. cbn [length] in Hn. lia. }
  split_and!; [by apply Hlen; cbn; lia|by apply Hc|by apply Hc|apply Hlen; cbn; lia|apply Hlen; cbn; lia].
Qed.

Lemma file_name_path_in dir p : path_wf p → file_name (path_in dir p) = Some (path_text p).
Proof using DL.
  intros Hp. pose proof (path_text_name p Hp) as Hn.
  rewrite <-(file_name_join (path_text p) Hn (dir ++ [SLASH])). f_equal. unfold path_join, path_in.
  rewrite decide_True by (right; by rewrite last_snoc).
  destruct (path_text p) as [|b n] eqn:E; [by destruct Hn|]. unfold has_root. cbn [head].
  rewrite bool_decide_false; [by rewrite <-app_assoc|]. intros [= ->]. destruct Hn as (_ & Hs & _). set_solver.
Qed.

Lemma base_store_path_of_path {E} dir p : path_wf p → base_store_path_of (E := E) (path_in dir p) = Ok (Some p).
Proof using DL.
  intros Hp. unfold base_store_path_of. by rewrite file_name_path_in, StorePath_from_text.
Qed.

Lemma path_in_inj dir p q : path_wf p → path_wf q → path_in dir p = path_in dir q → p = q.
Proof using DL. intros Hp Hq E. apply app_inv_head in E. injection E as E. by apply path_text_inj. Qed.

Definition word (t : bytes) : Prop := t ≠ [] ∧ Forall (λ b, is_graphic b = true) t.

Definition time_of (o : option NonZero) : Z := match o with Some n => nonzero n | None => 0 end.

(** The data of a path that can be stored: everything has its text, names of
    keys are without white space, and the time is not before the epoch. *)
Definition info_wf (v : UnkeyedValidPathInfo) : Prop :=
  (∀ d, vi_deriver v = Some d → path_wf d) ∧ Sha256_wf (nar_hash_sha256 (vi_nar_hash v)) ∧
  (Forall path_wf (elems (vi_references v)) ∧ ascending (elems (vi_references v))) ∧
  (∀ n, vi_registration_time v = Some n → 0 < nonzero n ≤ i64_max)%Z ∧ is_u64 (u64_val (vi_nar_size v)) ∧
  (Forall (λ s, signature_wf s ∧ Forall (λ b, is_graphic b = true) (key_name s)) (elems (vi_signatures v)) ∧
   ascending (elems (vi_signatures v))) ∧
  (∀ ca, vi_ca v = Some ca → CA_wf ca).

(** The row that holds them, the hash in the base [b]. *)
Definition params_of (b : Base) (dir : StoreDir) (p : StorePath) (v : UnkeyedValidPathInfo) : RegisterPathParams :=
  let sha256 := nar_hash_sha256 (vi_nar_hash v) in
  mk_params (path_in dir p) (with_algorithm false ":" sha256 (encoded b (sha256_data sha256)))
    (time_of (vi_registration_time v) * nanos_per_sec)%Z (path_in dir <$> vi_deriver v)
    (Some (u64_val (vi_nar_size v))) (vi_ultimate v)
    (Some (join " " (signature_text <$> elems (vi_signatures v)))) (CA_text <$> vi_ca v)
    (collect_set (path_in dir <$> elems (vi_references v))).

Lemma params_of_ok b dir p v : info_wf v → params_ok (params_of b dir p v).
Proof.
  intros (_ & _ & _ & Ht & Hn & _). split_and!.
  - unfold time_ok, params_of, time_of, nanos_per_sec, i64_min, i64_max in *. cbn.
    destruct (vi_registration_time v) as [n|]; [specialize (Ht n eq_refl)|]; lia.
  - by intros n [= <-].
  - apply collect_set_ascending.
Qed.

Lemma signature_word s : signature_wf s → Forall (λ b, is_graphic b = true) (key_name s) → word (signature_text s).
Proof using DL.
  intros _ Hk. unfold signature_text. split; [by destruct (key_name s)|]. apply Forall_app. split; [done|].
  apply Forall_cons. split; [done|]. eapply Forall_impl; [apply base64_symbols|]. cbn beta.
  intros b Hb. repeat (apply elem_of_cons in Hb as [->|Hb]; [done|]). inversion Hb.
Qed.

Lemma stored_hash b (sha256 : Sha256) : Sha256_wf sha256 →
  ∃ h, Any_from_str (H := Hash) (with_algorithm false ":" sha256 (encoded b (sha256_data sha256))) = Ok h ∧
    Hash_to_Sha256 h = Ok sha256.
Proof using DL.
  intros Hw. destruct (Hash_new_digest (E := unit) SHA256 (sha256_data sha256) Hw) as (h & _ & Ha & Hd & Hwf).
  exists h. split.
  - replace (with_algorithm false ":" sha256 (encoded b (sha256_data sha256)))
      with (with_algorithm false ":" h (encoded b (digest_bytes h))); [by apply Any_from_str_prefixed|].
    unfold with_algorithm. cbn [algorithm digest_bytes Hash_CommonHash Sha256_CommonHash]. by rewrite Ha, Hd.
  - unfold Hash_to_Sha256. rewrite decide_False by (intros Hne; by apply Hne). rewrite Hd. unfold Sha256_new.
    rewrite decide_True by exact Hw. by destruct sha256.
Qed.

(** The references, as a set of texts in the order of texts, are read as the
    set of paths. *)
Lemma stored_references {E} dir (s : BTreeSet StorePath) :
  Forall path_wf (elems s) → ascending (elems s) →
  collect_btree <$> filter_map (base_store_path_of (E := E)) (elems (collect_set (path_in dir <$> elems s))) = Ok s.
Proof using DL.
  intros Hw Ha. rewrite Forall_forall in Hw.
  destruct (filter_map_members (base_store_path_of (E := E)) (path_in dir) (λ p, p ∈ elems s)
    (elems (collect_set (path_in dir <$> elems s)))) as (l & -> & El & Hl).
  - intros p Hp. by apply base_store_path_of_path, Hw.
  - rewrite Forall_forall. intros x Hx. rewrite elem_of_collect_set, list_elem_of_fmap in Hx. naive_solver.
  - cbn. f_equal. apply collect_btree_eq; [done|]. rewrite Forall_forall in Hl. intros x. split; [apply Hl|].
    intros Hx. assert (path_in dir x ∈ path_in dir <$> l) as Hin.
    { rewrite <-El, elem_of_collect_set. by apply list_elem_of_fmap_2. }
    apply list_elem_of_fmap in Hin as (y & Ey & Hy).
    apply path_in_inj in Ey as ->; [done|by apply Hw|by apply Hw, Hl].
Qed.

Lemma stored_signatures {E} (s : BTreeSet Signature) :
  Forall (λ s, signature_wf s ∧ Forall (λ b, is_graphic b = true) (key_name s)) (elems s) → ascending (elems s) →
  collect_btree <$> filter_map (λ sig, res_ok (F := E) (Signature_from_str sig))
    (split_whitespace (join " " (signature_text <$> elems s))) = Ok s.
Proof using DL.
  intros Hs Ha. rewrite split_whitespace_join.
  - rewrite filter_map_all.
    + cbn. f_equal. by apply collect_btree_eq.
    + eapply Forall_impl; [exact Hs|]. cbn. intros x [Hx _]. by rewrite Signature_from_text.
  - apply Forall_fmap. eapply Forall_impl; [exact Hs|]. cbn. intros x [Hx Hk]. by apply signature_word.
Qed.

Section protocol.
Context {P : Planner} {HT : HandlerText}.

(** The handler reads the row back. *)
Lemma to_protocol_of b dir p v i :
  info_wf v → vi_store_dir v = dir →
  vp_hash i = p_hash (params_of b dir p v) → vp_registration_time i = p_registration_time (params_of b dir p v) →
  vp_deriver i = p_deriver (params_of b dir p v) → vp_nar_size i = p_nar_size (params_of b dir p v) →
  vp_ultimate i = vi_ultimate v → vp_sigs i = p_sigs (params_of b dir p v) → vp_ca i = p_ca (params_of b dir p v) →
  vp_references i = p_references (params_of b dir p v) →
  to_protocol_path_info i dir = Ok v.
Proof using DL.
  intros (Hd & Hh & (Hr & Hra) & Ht & Hn & (Hs & Hsa) & Hca) Hdir E1 E2 E3 E4 E5 E6 E7 E8.
  unfold to_protocol_path_info. rewrite E1, E2, E3, E4, E5, E6, E7, E8. unfold params_of.
  cbn [p_hash p_registration_time p_deriver p_nar_size p_sigs p_ca p_references].
  destruct v as [deriver [sha256] refs time nsize ultimate sigs ca dir'].
  cbn [vi_deriver vi_nar_hash nar_hash_sha256 vi_references vi_registration_time vi_nar_size vi_ultimate
    vi_signatures vi_ca vi_store_dir] in *. subst dir'.
  destruct (stored_hash b sha256 Hh) as (h & -> & Eh). cbn [mbind res_bind Prelude.map_err]. rewrite Eh.
  cbn [fmap res_fmap mbind res_bind Prelude.map_err].
  pose proof (stored_references (E := DaemonError) dir refs Hr Hra) as Er.
  destruct (filter_map _ _) as [l| |] eqn:El; [|done|done]. injection Er as Er. cbn [mbind res_bind].
  assert ((match path_in dir <$> deriver with Some d => base_store_path_of (E := DaemonError) d | None => Ok None end) = Ok deriver) as ->.
  { destruct deriver as [d|]; [|done]. cbn. apply base_store_path_of_path. by apply Hd. }
  cbn [mbind res_bind].
  pose proof (stored_signatures (E := DaemonError) sigs Hs Hsa) as Es.
  destruct (filter_map _ (split_whitespace _)) as [l'| |] eqn:El'; [|done|done]. injection Es as Es. cbn [mbind res_bind].
  assert ((match CA_text <$> ca with Some t => res_ok (F := DaemonError) (CA_from_str t) | None => Ok None end) = Ok ca) as ->.
  { destruct ca as [c|]; [|done]. cbn. by rewrite CA_from_text by by apply Hca. }
  cbn [mbind res_bind default]. rewrite Er, Es. f_equal. f_equal; [|by destruct nsize].
  unfold protocol_time, time_of, nonzero_new. destruct time as [[n]|]; [|done]. specialize (Ht _ eq_refl). cbn in *.
  rewrite (proj2 (Z.leb_le _ _)) by (unfold nanos_per_sec; lia). rewrite Z.div_mul by done. rewrite as_i64_small by lia.
  rewrite decide_False by lia. done.
Qed.
End protocol.

(** ** A path that was registered *)

Section registered.
Context {P : Planner} {PL : PlannerLaws} {HT : HandlerText}.

Lemma full_path_eq {E} dir p : path_wf p → full_path (E := E) dir p = Ok (path_in dir p).
Proof using DL.
  intros Hp. unfold full_path, store_dir_fmt, StorePath_display. by rewrite StorePath_fmt_eq.
Qed.

(** What the local store says of a path is what the database knows of it. *)
Lemma local_answers db c k dir p : db_wf db c k → path_wf p →
  local_is_valid_path (mk_handler dir db) p = Ok (bool_decide (is_Some (store_view c !! path_in dir p))) ∧
  local_query_path_info (mk_handler dir db) p =
    match store_view c !! path_in dir p with
    | Some i => Some <$> to_protocol_path_info i dir
    | None => Ok None
    end.
Proof using DL PL.
  intros Hdb Hp. pose proof (queries_refine db c k Hdb) as Hq.
  unfold local_is_valid_path, local_query_path_info. cbn [lh_store_dir lh_db]. rewrite !full_path_eq by done.
  cbn [mbind res_bind]. rewrite (af_valid _ _ Hq), (af_info _ _ Hq). by split.
Qed.

Definition references_valid (db : StoreDb) (dir : StoreDir) (p : StorePath) (v : UnkeyedValidPathInfo) : Prop :=
  ∀ q, q ∈ elems (vi_references v) → q = p ∨ StoreDb.is_valid_path db (path_in dir q) = Ok true.

Lemma registered_answers db c k b dir p v :
  db_wf db c k → ValidPaths_seq c ≠ i64_max → StoreDb.is_valid_path db (path_in dir p) = Ok false →
  path_wf p → info_wf v → vi_store_dir v = dir → references_valid db dir p v →
  ∃ db' c', register_valid_path db (params_of b dir p v) = (db', Ok (ValidPaths_seq c + 1)%Z) ∧ db_wf db' c' k ∧
    local_is_valid_path (mk_handler dir db') p = Ok true ∧
    local_query_path_info (mk_handler dir db') p = Ok (Some v) ∧
    (∀ q, path_wf q → q ≠ p →
      local_is_valid_path (mk_handler dir db') q = local_is_valid_path (mk_handler dir db) q ∧
      local_query_path_info (mk_handler dir db') q = local_query_path_info (mk_handler dir db) q).
Proof using DL PL.
  intros Hdb Hseq Hfree Hp Hv Hdir Hrefs. pose proof (queries_refine db c k Hdb) as Hq.
  assert (∀ x, StoreDb.is_valid_path db x = Ok true ↔ is_Some (store_view c !! x)) as Hvalid.
  { intros x. rewrite (af_valid _ _ Hq). cbn. case_bool_decide; naive_solver. }
  destruct (id Hdb) as (_ & Hc & _).
  assert (store_view c !! path_in dir p = None) as HN.
  { apply eq_None_not_Some. intros E%Hvalid. congruence. }
  destruct (register_ok db c k (params_of b dir p v) Hdb (params_of_ok b dir p v Hv) Hseq) as (db' & c' & E & Hdb' & _ & Ev & _).
  { by apply store_view_None. }
  exists db', c'. split; [done|]. split; [done|].
  destruct (local_answers db' c' k dir p Hdb' Hp) as [-> ->]. rewrite Ev. unfold spec_register. cbn [p_path params_of].
  rewrite lookup_insert_eq. split_and!; [by rewrite bool_decide_true by by eexists| |].
  - rewrite (to_protocol_of b dir p v); [done|done|done|done| |done|done|done|done|done|].
    + cbn. unfold whole_seconds. by rewrite Z.quot_mul.
    + cbn [vp_references p_references params_of]. apply set_eq; [apply ascending_filter, collect_set_ascending|apply collect_set_ascending|].
      intros x. cbn [elems]. rewrite list_elem_of_filter. split; [by intros [_ ?]|]. intros Hx. split; [|done].
      rewrite elem_of_collect_set in Hx. apply list_elem_of_fmap in Hx as (q & -> & Hin).
      destruct (Hrefs q Hin) as [->|?%Hvalid]; [by left|by right].
  - intros q Hwq Hne. destruct (local_answers db' c' k dir q Hdb' Hwq) as [-> ->].
    destruct (local_answers db c k dir q Hdb Hwq) as [-> ->]. rewrite Ev. unfold spec_register. cbn [p_path params_of].
    rewrite lookup_insert_ne; [done|]. intros E'. destruct Hne. by apply (path_in_inj dir).
Qed.

(** ** The search for a hash part *)

Lemma hash_text_length h : sph_wf h → length (hash_text h) = 32.
Proof using DL. intros Hh. by destruct (StorePathHash_fmt_eq h Hh). Qed.

Lemma hash_text_inj h h' : sph_wf h → sph_wf h' → hash_text h = hash_text h' → h = h'.
Proof using DL. intros Hh Hh' E. apply (f_equal decode_digest) in E. rewrite !decode_digest_text in E by done. by injection E. Qed.

(** The first 32 characters of a base name are the hash. *)
Lemma hash_prefix dir h q : sph_wf h → path_wf q →
  (dir ++ str "/" ++ hash_text h) `prefix_of` path_in dir q ↔ sp_hash q = h.
Proof using DL.
  intros Hh [Hq _]. unfold path_in, path_text. change (str "/" ++ hash_text h) with ("/"%byte :: hash_text h). split.
  - intros [t E]. rewrite <-app_assoc in E. apply app_inv_head in E. injection E as E.
    apply app_inj_1 in E as [E _]; [by apply hash_text_inj|]. by rewrite !hash_text_length.
  - intros <-. apply prefix_app, prefix_cons, prefix_app_r. done.
Qed.

(** Every valid path is the text of a store path in the store directory. *)
Definition paths_in (db : StoreDb) (dir : StoreDir) : Prop :=
  ∀ x, StoreDb.is_valid_path db x = Ok true → ∃ q, path_wf q ∧ x = path_in dir q.

(** The search for a hash part by the local store, when SQLite reads the
    rows in the order of the index of paths: it gives a valid path with that
    hash exactly when there is one. *)
Theorem hash_part_served (db : StoreDb) (c : Core) (k : Ca) (dir : StoreDir) (h : StorePathHash) :
  db_wf db c k → in_path_order (range_scan (ValidPaths c)) → paths_in db dir → sph_wf h →
  ∃ o, local_query_path_from_hash_part (mk_handler dir db) h = Ok o ∧
    match o with
    | Some p => sp_hash p = h ∧ local_is_valid_path (mk_handler dir db) p = Ok true
    | None => ∀ p, path_wf p → local_is_valid_path (mk_handler dir db) p = Ok true → sp_hash p ≠ h
    end.
Proof using DL PL.
  intros Hdb Hord Hin Hh. destruct (StorePathHash_fmt_eq h Hh) as [Ef _].
  destruct (hash_part_found db c k dir (hash_text h) Hdb Hord) as (o & E & Ho).
  assert (∀ x, is_Some (store_view c !! x) ↔ StoreDb.is_valid_path db x = Ok true) as Hsv.
  { intros x. rewrite (af_valid _ _ (queries_refine db c k Hdb)). cbn. case_bool_decide; naive_solver. }
  assert (∀ p, path_wf p →
    local_is_valid_path (mk_handler dir db) p = Ok true ↔ StoreDb.is_valid_path db (path_in dir p) = Ok true) as Hv.
  { intros p Hp. unfold local_is_valid_path, spawn_blocking. rewrite full_path_eq by done.
    cbn [mbind res_bind lh_db lh_store_dir]. destruct (StoreDb.is_valid_path db (path_in dir p)) as [[]| |]; split; (congruence || done). }
  unfold local_query_path_from_hash_part. rewrite Ef. cbn [unwrap mbind res_bind lh_db lh_store_dir]. rewrite E. cbn [spawn_blocking mbind res_bind].
  destruct o as [x|].
  - destruct Ho as (Hx%Hsv & Hpre & _). destruct (Hin x Hx) as (q & Hq & ->). rewrite base_store_path_of_path by done.
    eexists. split; [done|]. split; [by apply (hash_prefix dir)|by apply Hv].
  - eexists. split; [done|]. intros p Hp Hvp%Hv%Hsv E'; [|done]. apply (Ho _ Hvp). by apply hash_prefix.
Qed.
End registered.
End form.

(** ** Through the daemon *)

Section daemon.
Context {DE : DataEncoding} {DL : DataEncodingLaws} {DG : DigestLib} {SA : StructuredAttrsLib} {ET : ErrorText}.
Context {SZ_Bytes : SizeOf Bytes} {SZ_DerivedPath : SizeOf DerivedPath} {SZ_Signature : SizeOf Signature}.
Context {SZ_Field : SizeOf Field} {SZ_TraceLine : SizeOf TraceLine}.
Context {SZ_KeyedBuildResult : SizeOf KeyedBuildResult}.
Context {P : Planner} {PL : PlannerLaws} {HT : HandlerText}.
Context {RS : Type} {HR : NixRead RS} {HRL : NixReadLaws RS} {HF : FramedSource RS}.
Context {HVR : SetVersion RS} {HVRL : SetVersionReadLaws RS}.
Context {WS : Type} {HW : NixWrite WS} {HWL : NixWriteLaws WS} {HA : AsyncWriter WS} {HAL : AsyncWriterLaws WS}.
Context {HVW : SetVersion WS} {HVWL : SetVersionWriteLaws WS}.
Context (add_multiple : AddMultipleToStoreRequest →
  eff RecoverableError (DaemonConnection RS WS LocalStoreHandler) unit).

(** What a client asks of a path, and the answers for a valid one. *)
Definition questions (p : StorePath) : list event := [ev (is_valid_path p); ev (query_path_info p)].

Definition answers_for (p : StorePath) (v : UnkeyedValidPathInfo) : list outcome :=
  [mk_outcome _ (is_valid_path p) ([], Ok true); mk_outcome _ (query_path_info p) ([], Ok (Some v))].

(** C10. From the database to the client. A path that is registered in the
    database with the texts of its data (hash in any base, references valid
    or the path itself) is answered by the daemon with exactly these data: the
    server over the local store and the client at the two ends of a connection
    exchange the streams [q] and [s], and the client gets that the path is
    valid and [v] itself. *)
Theorem client_reads_database (E : env) (db : StoreDb) (c : Core) (k : Ca) (b : Base) (dir : StoreDir)
    (p : StorePath) (v : UnkeyedValidPathInfo) :
  e_version E = PROTOCOL_VERSION → codec_ok E NIX_VERSION → codec_ok E p → codec_ok E v →
  db_wf db c k → ValidPaths_seq c ≠ i64_max → StoreDb.is_valid_path db (path_in dir p) = Ok false →
  info_wf v → vi_store_dir v = dir → references_valid db dir p v →
  let q := client_stream E (answers_for p v) in
  let s := server_stream E Builder_default [] (answers_for p v) in
  ∃ db', register_valid_path db (params_of b dir p v) = (db', Ok (ValidPaths_seq c + 1)%Z) ∧
    (∀ (r : RS) (w : WS), fresh E r w q →
      ∃ r' w', serve_connection add_multiple Builder_default 3 r w (mk_handler dir db') = (r', w', Ok tt) ∧
        nr_rest r' = [] ∧ w_sent w' = s) ∧
    (∀ (r : RS) (w : WS) (id : Z) (fuel : nat), fresh E r w s → 0 < fuel →
      ∃ hc cl cl', client_handshake id fuel (cb_build DaemonClientBuilder_default r w) = (hc, ([], Ok cl)) ∧
        client_run fuel (questions p) cl = (cl', answers_for p v) ∧
        nr_rest (cl_reader cl') = [] ∧ w_sent (cl_writer cl') = q).
Proof using DL PL HAL HVRL HVWL.
  intros HE Hn Hpok Hvok Hdb Hseq Hfree Hv Hdir Hrefs q s. assert (path_wf p) as Hp by (destruct Hpok as (_ & ? & _); done).
  destruct (registered_answers db c k b dir p v) as (db' & c' & Er & Hdb' & Eq1 & Eq2 & _); [done..|].
  assert (store_run (questions p) (mk_handler dir db') = (mk_handler dir db', answers_for p v)) as Hrun.
  { unfold questions, answers_for. cbn. by rewrite Eq1, Eq2. }
  assert (Forall (outcome_ok E) (answers_for p v)) as Hok.
  { unfold answers_for. repeat (apply Forall_cons; split); [..|by apply Forall_nil];
      (split; [done|]); (split; [exact Hpok|]); (split; [by apply Forall_nil|]); [done|exact Hvok]. }
  destruct (remote_connection add_multiple (RS' := RS) (WS' := WS) E (mk_handler dir db') (mk_handler dir db')
    (mk_handler dir db') [] (questions p) (answers_for p v) HE Hn eq_refl (Forall_nil_2 _) Hrun Hok) as [Hs Hcl].
  exists db'. split; [exact Er|]. split; [exact Hs|]. intros r w id fuel Hf Hfuel.
  destruct (Hcl r w id fuel Hf) as (hc & cl & cl' & E1 & _ & _ & E2 & E3 & E4).
  - cbn. lia.
  - unfold answers_for. repeat (apply Forall_cons; split); [..|by apply Forall_nil]; cbn; lia.
  - exists hc, cl, cl'. split; [exact E1|]. split; [exact E2|]. split; [exact E3|exact E4].
Qed.
End daemon.

(** ** Concrete uses *)

#[local] Existing Instance rowid_order.
#[local] Existing Instance rowid_laws.

#[export] Instance plain_handler_text : HandlerText := {|
  db_error_text _ := str "database error";
  hash_error_text _ := str "hash error";
  hash_kind_text _ := str "hash error";
  join_error_text := str "task panicked"
|}.

(** A path that refers to itself, with a signature and a content address. *)
Definition local_info : UnkeyedValidPathInfo :=
  mk_UnkeyedValidPathInfo (Some sample_path) (mk_nar_hash (mk_sha256 (replicate 32 x07))) (mk_set [sample_path])
    (Some (mk_nonzero 1700000000)) (u64 9) true (mk_set [mk_signature (str "key-1") (replicate 64 x09)])
    (Some (CText (mk_sha256 (replicate 32 x01)))) (str "/nix/store").

Definition empty_db : StoreDb := mk_db (Some SCHEMA_SQL) (Some CA_SCHEMA_SQL) true false.

Lemma local_info_wf : info_wf local_info.
Proof.
  pose proof sample_path_wf as Hp. split_and!.
  - by intros d [= <-].
  - done.
  - by repeat constructor.
  - repeat constructor.
  - intros n [= <-]. vm_compute. split; congruence.
  - split; vm_compute; congruence.
  - repeat constructor; set_solver.
  - repeat constructor.
  - by intros ca [= <-].
Qed.

Lemma small_text t : length t ≤ 248 → is_utf8 t = true → text_ok small_env t.
Proof.
  intros Hl Hu. assert (Z.of_nat (length t) ≤ 248)%Z by lia.
  split_and!; [split; unfold alignable, u64_max; cbn [e_limit small_env]; lia|done|cbn [e_room small_env]; lia].
Qed.

Ltac text_leaf := split; [done|split; [|apply small_text; vm_compute; [lia|reflexivity]]].

Lemma local_info_codec : codec_ok small_env sample_path ∧ codec_ok small_env local_info.
Proof.
  pose proof sample_path_wf as Hp. split; [text_leaf; exact Hp|].
  split; [|split; [|split; [|split; [|split; [|split; [|split; [|split]]]]]]];
    cbn [vi_deriver vi_nar_hash vi_references vi_registration_time vi_nar_size vi_ultimate vi_signatures vi_ca vi_store_dir local_info].
  - text_leaf. exact Hp.
  - text_leaf. done.
  - split; [done|]. split; [repeat constructor|]. apply Forall_singleton. text_leaf. exact Hp.
  - split; [done|split; vm_compute; congruence].
  - split; vm_compute; congruence.
  - done.
  - split; [done|]. split; [repeat constructor|]. apply Forall_singleton. text_leaf. split; [set_solver|done].
  - text_leaf. done.
  - done.
Qed.

Lemma client_reads_database_witness :
  let q := client_stream small_env (answers_for sample_path local_info) in
  let s := server_stream small_env Builder_default [] (answers_for sample_path local_info) in
  ∃ db', register_valid_path empty_db (params_of Hex (str "/nix/store") sample_path local_info) = (db', Ok 1%Z) ∧
    (∃ r' w', serve_connection no_multiple Builder_default 3 (small_reader [None; Some q]) (small_writer [None; Some 7])
        (mk_handler (str "/nix/store") db') = (r', w', Ok tt) ∧ nr_rest r' = [] ∧ w_sent w' = s) ∧
    (∃ hc cl cl', client_handshake 0 9 (cb_build DaemonClientBuilder_default (small_reader [None; Some s])
        (small_writer [Some 5; None])) = (hc, ([], Ok cl)) ∧
      client_run 9 (questions sample_path) cl = (cl', answers_for sample_path local_info)).
Proof.
  intros q s. destruct local_info_codec as [Hp Hv].
  destruct (client_reads_database (P := rowid_order) (PL := rowid_laws) (RS := NixReader (BytesReader source)) (WS := NixWriter sink)
    no_multiple small_env empty_db SCHEMA_SQL CA_SCHEMA_SQL Hex (str "/nix/store") sample_path local_info eq_refl
    nix_version_small Hp Hv schema_wf ltac:(done) eq_refl local_info_wf eq_refl) as (db' & E1 & Hs & Hc).
  { intros x Hx. apply list_elem_of_singleton in Hx as ->. by left. }
  exists db'. split; [exact E1|]. split.
  - apply Hs, small_fresh; [by vm_compute|vm_compute; lia|by repeat constructor].
  - destruct (Hc (small_reader [None; Some s]) (small_writer [Some 5; None]) 0%Z 9) as (hc & cl & cl' & Hh & Hr & _).
    + apply small_fresh; [by vm_compute|vm_compute; lia|by repeat constructor].
    + lia.
    + exists hc, cl, cl'. split; [exact Hh|exact Hr].
Defined.

(** The database with that path. *)
Definition local_db : StoreDb :=
  (register_valid_path empty_db (params_of Hex (str "/nix/store") sample_path local_info)).1.

Lemma local_db_core : ∃ c, db_wf local_db c CA_SCHEMA_SQL ∧ paths c = [path_in (str "/nix/store") sample_path].
Proof.
  destruct (register_ok empty_db _ _ (params_of Hex (str "/nix/store") sample_path local_info) schema_wf
    (params_of_ok _ _ _ _ local_info_wf)) as (db & c & E & Hdb & _ & Ev & _); [done|set_solver|].
  exists c. unfold local_db. rewrite E. split; [exact Hdb|]. destruct Hdb as (-> & Hc & _).
  apply (f_equal fst) in E. vm_compute in E. injection E as <-. by vm_compute.
Qed.

Lemma hash_part_served_witness :
  local_query_path_from_hash_part (P := index_order) (mk_handler (str "/nix/store") local_db) (sp_hash sample_path) =
    Ok (Some sample_path) ∧
  ∃ o, local_query_path_from_hash_part (P := index_order) (mk_handler (str "/nix/store") local_db) (sp_hash sample_path) = Ok o ∧
    match o with
    | Some p => sp_hash p = sp_hash sample_path ∧ local_is_valid_path (mk_handler (str "/nix/store") local_db) p = Ok true
    | None => ∀ p, path_wf p → local_is_valid_path (mk_handler (str "/nix/store") local_db) p = Ok true →
        sp_hash p ≠ sp_hash sample_path
    end.
Proof.
  split; [by vm_compute|]. destruct local_db_core as (c & Hdb & Hpaths).
  apply (hash_part_served (P := index_order) (PL := index_laws) local_db c CA_SCHEMA_SQL (str "/nix/store")).
  - exact Hdb.
  - apply index_sorted.
  - intros x Hx. exists sample_path. split; [exact sample_path_wf|].
    destruct Hdb as (E & Hc & _). rewrite E in Hx. clear E. unfold StoreDb.is_valid_path in Hx. cbn in Hx.
    destruct (select_path_cases c x Hc) as [(r & Hr & <- & _)|[En _]]; [|rewrite En in Hx; discriminate Hx].
    assert (r_path r ∈ paths c) as Hin by (apply elem_of_paths; exists r; split; [exact Hr|exact eq_refl]).
    rewrite Hpaths in Hin. exact (proj1 (list_elem_of_singleton _ _) Hin).
  - by vm_compute.
Defined.
