(* ===== verification/Lookup.v ===== *)
(** The calls of [std::fs] that follow a path to its end: [metadata],
    [canonicalize], [exists] and [read_dir]. The place that a path leads to is
    real: it is reached by directories only. *)

From stdpp Require Import base list numbers strings gmap.
From Stdlib Require Import ZArith Lia Strings.Byte.
From S2P Require Import Prelude Async FileSystem NarTree Walk NixCodec.

(** ** Calls *)

#[export] Instance inode_eq_dec : EqDecision inode.
Proof. solve_decision. Defined.

(** What is at a place; the root is a directory. *)
Definition kind (f : fs) (k : list bytes) : option inode := if decide (k = []) then Some IDir else files f !! k.

(** A path that ends in a slash has to lead to a directory. *)
Definition resolve (f : fs) (p : PathBuf) : res io_error (list bytes) :=
  _ ← no_nul p;
  if decide (raw p = [] ∧ has_root p = false) then Err (OsError ENOENT) else
  k ← follow true f MAX_LINKS (start_dir f p) (raw p);
  if trailing_slash p && negb (bool_decide (kind f k = Some IDir)) then Err (OsError ENOTDIR) else Ok k.

(** [std::fs::metadata]. *)
Definition metadata (f : fs) (p : PathBuf) : res io_error inode :=
  k ← resolve f p; ok_or (kind f k) (OsError ENOENT).

(** [Path::exists], [Path::is_dir]: an error is a no. *)
Definition exists_path (f : fs) (p : PathBuf) : bool := if metadata f p is Ok _ then true else false.

Definition is_dir (f : fs) (p : PathBuf) : bool := if metadata f p is Ok IDir then true else false.

(** The path of a place. *)
Definition path_of (k : list bytes) : PathBuf := SLASH :: join SLASH k.

(** [std::fs::canonicalize]. *)
Definition canonicalize (f : fs) (p : PathBuf) : res io_error PathBuf := path_of <$> resolve f p.

(** The order in which a directory gives its names. *)
Class DirOrder : Type := dir_order : fs → list bytes → list bytes.

Class DirOrderLaws `{!DirOrder} : Prop := dir_order_children f k : dir_order f k ≡ₚ children f k.

(** [std::fs::read_dir], its entries by name; [DirEntry::path] is the path of the
    directory with the name pushed onto it. *)
Definition read_dir `{!DirOrder} (f : fs) (p : PathBuf) : res io_error (list bytes) :=
  k ← resolve f p;
  if decide (kind f k = Some IDir) then Ok (dir_order f k) else Err (OsError ENOTDIR).

(** [read_to_string]. *)
Definition read_to_string (f : fs) (p : PathBuf) : res io_error bytes :=
  s ← read f p; if is_utf8 s then Ok s else Err (InvalidData "stream did not contain valid UTF-8").

(** ** Real places *)

(** Reached by directories, no link among them. *)
Definition real_dir (f : fs) (d : list bytes) : Prop :=
  ∀ a b, d = a ++ b → a ≠ [] → files f !! a = Some IDir ∧ (∃ c, last a = Some c ∧ name_ok c).

Definition real (f : fs) (k : list bytes) : Prop :=
  real_dir f k ∨ ∃ d c i, k = d ++ [c] ∧ real_dir f d ∧ name_ok c ∧ files f !! k = Some i ∧
    match i with IFile _ _ | ISpecial => True | _ => False end.

Lemma real_dir_nil f : real_dir f [].
Proof. intros a b E Ha. symmetry in E. by apply app_eq_nil in E as [-> _]. Qed.

Lemma real_dir_snoc f d c : real_dir f d → name_ok c → files f !! (d ++ [c]) = Some IDir → real_dir f (d ++ [c]).
Proof.
  intros Hd Hc Hi a b E Ha. destruct b as [|x b _] using rev_ind.
  - rewrite app_nil_r in E. subst a. split; [done|]. exists c. by rewrite last_snoc.
  - rewrite app_assoc in E. apply app_inj_tail in E as [-> _]. by eapply Hd.
Qed.

Lemma real_dir_up f d : real_dir f d → real_dir f (removelast d).
Proof.
  intros Hd. destruct d as [|c d _] using rev_ind; [done|]. rewrite removelast_last.
  intros a b -> Ha. apply (Hd a (b ++ [c])); [by rewrite app_assoc|done].
Qed.

Lemma real_dir_names f d : real_dir f d → Forall name_ok d.
Proof.
  induction d as [|c d IH] using rev_ind; intros Hd; [constructor|]. apply Forall_app. split.
  - apply IH. pose proof (real_dir_up f _ Hd) as H. by rewrite removelast_last in H.
  - destruct (Hd (d ++ [c]) []) as [_ (c' & Hl & Hc)]; [by rewrite app_nil_r|by destruct d|].
    rewrite last_snoc in Hl. injection Hl as <-. by constructor.
Qed.

(** Components of a path without NUL, [.] and [..] apart. *)
Definition component_ok (c : bytes) : Prop := c ≠ DOT → c ≠ DOTDOT → name_ok c.

Lemma raw_components p : (x00 ∉ p) → Forall component_ok (raw p).
Proof.
  intros H0. apply Forall_forall. intros c Hin Hd Hdd. unfold raw in Hin.
  apply list_elem_of_filter in Hin as [Hne Hin]. pose proof (split_all_parts SLASH p) as Hps.
  rewrite Forall_forall in Hps. destruct (Hps c Hin) as [Hs Hsub]. split_and!; try done. set_solver.
Qed.

(** Targets of links are paths without NUL. *)
Definition links_ok (f : fs) : Prop := ∀ k t, files f !! k = Some (ISymlink t) → x00 ∉ t.

Lemma follow_real final f : links_ok f → ∀ links d ps k, real_dir f d → Forall component_ok ps →
  follow final f links d ps = Ok k → real f k.
Proof.
  intros Hf. induction links as [|links IHl]; intros d ps; revert d; induction ps as [|c ps IH]; intros d k Hd Hps.
  1, 3: intros [= <-]; by left.
  all: apply Forall_cons in Hps as [Hc Hps]; unfold follow; fold follow.
  all: destruct (decide (c = DOT)) as [->|Hd1]; [by apply IH|].
  all: destruct (decide (c = DOTDOT)) as [->|Hd2]; [by apply IH, Hps; apply real_dir_up|].
  all: destruct (files f !! (d ++ [c])) as [[m s|t| |]|] eqn:E; try discriminate.
  all: try (intros Hk; eapply IH, Hk; [by apply real_dir_snoc; auto|done]).
  all: try (destruct (final && bool_decide (ps = [])); [|discriminate]; intros [= <-]; right;
    eexists d, c, _; split_and!; [done|done|by apply Hc|exact E|done]).
  intros Hk. eapply IHl, Hk.
  - destruct (has_root t); [apply real_dir_nil|done].
  - apply Forall_app. split; [|done]. apply raw_components. by eapply Hf.
Qed.

(** A file system whose links and working directory are sound. *)
Record fs_ok (f : fs) : Prop := {
  fo_links : links_ok f;
  fo_cwd : real_dir f (cwd f)
}.

Lemma resolve_real f p k : fs_ok f → resolve f p = Ok k → real f k.
Proof.
  intros [Hl Hc]. unfold resolve, no_nul. destruct (decide (x00 ∈ p)) as [|H0]; [done|]. cbn [mbind res_bind].
  destruct (decide (raw p = [] ∧ has_root p = false)); [done|]. intros (k' & Hk & E)%res_bind_Ok.
  destruct (_ && _); [done|]. injection E as <-. eapply follow_real, Hk; [done| |by apply raw_components].
  unfold start_dir. destruct (has_root p); [apply real_dir_nil|done].
Qed.

Lemma real_names f k : real f k → Forall name_ok k.
Proof.
  intros [Hk|(d & c & i & -> & Hd & Hc & _)]; [by eapply real_dir_names|]. apply Forall_app. split.
  - by eapply real_dir_names.
  - by constructor.
Qed.

(** ** The path of a place *)

Lemma split_join k : k ≠ [] → Forall name_ok k → split_all SLASH (join SLASH k) = k.
Proof.
  intros Hne Hk. induction k as [|c k IH]; [done|]. apply Forall_cons in Hk as [Hc Hk]. destruct k as [|c' k].
  - by apply name_split.
  - change (join SLASH (c :: c' :: k)) with (c ++ SLASH :: join SLASH (c' :: k)).
    rewrite split_all_app by apply Hc. by rewrite IH.
Qed.

Lemma raw_path_of k : Forall name_ok k → raw (path_of k) = k.
Proof.
  intros Hk. destruct k as [|c k]; [done|]. unfold raw, path_of.
  change (SLASH :: join SLASH (c :: k)) with ([] ++ SLASH :: join SLASH (c :: k)).
  rewrite split_all_snoc, split_join by done. cbn [split_all app].
  rewrite filter_cons_False by (intros H; by apply H).
  induction Hk as [|x l [Hx _] _ IH]; [done|]. by rewrite filter_cons_True, IH by done.
Qed.

Lemma components_path_of k : Forall name_ok k → components (path_of k) = RootDir :: (Normal <$> k).
Proof.
  intros Hk. unfold components, body, len_before_body. change (has_root (path_of k)) with true. cbn [orb app].
  f_equal. unfold path_of. cbn [drop]. destruct k as [|c k]; [done|]. rewrite drop_0, split_join by done.
  induction Hk as [|x l Hx _ IH]; [done|]. cbn. rewrite name_component by done. by rewrite <-IH.
Qed.

Lemma starts_with_path_of k d : Forall name_ok k → Forall name_ok d →
  starts_with (path_of k) (path_of d) = bool_decide (d `prefix_of` k).
Proof.
  intros Hk Hd. unfold starts_with. rewrite !components_path_of by done. apply bool_decide_ext. split.
  - intros [l E]. injection E as E. revert d Hd E. clear Hk. induction k as [|x k IH]; intros [|y d] Hd E; try done.
    + by apply prefix_nil.
    + injection E as -> E. apply prefix_cons. apply IH; [by apply Forall_cons in Hd as [_ ?]|done].
  - intros [l ->]. exists (Normal <$> l). by rewrite fmap_app.
Qed.

Lemma path_of_last d c : name_ok c → last (path_of (d ++ [c])) ≠ Some SLASH.
Proof.
  intros Hc. pose proof Hc as (Hne & Hs & _). destruct (exists_last Hne) as (m & b & ->).
  assert (b ≠ SLASH) as Hb by set_solver. assert (∃ s, path_of (d ++ [m ++ [b]]) = s ++ [b]) as [s ->].
  - unfold path_of. destruct (decide (d = [])) as [->|Hd].
    + exists (SLASH :: m). done.
    + rewrite join_snoc by done. exists (SLASH :: join SLASH d ++ SLASH :: m). cbn. by rewrite <-app_assoc.
  - rewrite last_snoc. congruence.
Qed.

Lemma path_of_snoc d c : Forall name_ok d → name_ok c → path_join (path_of d) c = path_of (d ++ [c]).
Proof.
  intros Hd Hc. unfold path_join. rewrite name_relative by done.
  destruct d as [|x d _] using rev_ind; [done|]. apply Forall_app in Hd as [_ Hx]. apply Forall_cons in Hx as [Hx _].
  rewrite decide_False.
  - unfold path_of. rewrite (join_snoc _ (d ++ [x])) by by destruct d. done.
  - intros [|Hl]; [done|]. by apply (path_of_last d x Hx).
Qed.

(** A place that is real is found by its path. *)
Lemma follow_dir final f links d : ∀ e, real_dir f (e ++ d) → follow final f links e d = Ok (e ++ d).
Proof.
  induction d as [|c d IH]; intros e Hd; [rewrite app_nil_r; by destruct links|].
  destruct (Hd (e ++ [c]) d) as [E (c' & Hl & Hn)]; [by rewrite <-app_assoc|by destruct e|].
  rewrite last_snoc in Hl. injection Hl as <-. destruct Hn as (_ & _ & _ & Hn1 & Hn2).
  assert (follow final f links e (c :: d) = follow final f links (e ++ [c]) d) as ->.
  { destruct links; unfold follow at 1; fold follow; rewrite !decide_False by done; by rewrite E. }
  rewrite IH; [by rewrite <-app_assoc|]. by rewrite <-app_assoc.
Qed.

Lemma follow_path_of f links k : real f k → follow true f links [] k = Ok k.
Proof.
  intros [Hk|(d & c & i & -> & Hd & Hc & Hi & Hkind)]; [by apply (follow_dir true f links k [])|].
  apply (follow_snoc true f links [] d d c i); [done|done| |by apply (follow_dir false f links d [])].
  right. split; [done|]. intros t ->. done.
Qed.

Lemma resolve_path_of f k : real f k → (x00 ∉ path_of k) → resolve f (path_of k) = Ok k.
Proof.
  intros Hk H0. unfold resolve, no_nul. rewrite (decide_False (P := x00 ∈ path_of k)) by done. cbn [mbind res_bind].
  rewrite decide_False by (intros [_ ?]; done). pose proof (real_names f k Hk) as Hn. rewrite raw_path_of by done.
  unfold start_dir. change (has_root (path_of k)) with true. rewrite follow_path_of by done. cbn [mbind res_bind].
  destruct k as [|c k _] using rev_ind; [done|]. apply Forall_app in Hn as [_ Hc]. apply Forall_cons in Hc as [Hc _].
  assert (trailing_slash (path_of (k ++ [c])) = false) as ->; [|done].
  apply bool_decide_eq_false. by apply path_of_last.
Qed.

Lemma no_nul_path_of k : Forall name_ok k → x00 ∉ path_of k.
Proof.
  intros Hk. unfold path_of. apply not_elem_of_cons. split; [done|].
  induction Hk as [|c k Hc Hk IH]; [set_solver|]. pose proof Hc as (_ & _ & H0 & _). destruct k as [|c' k]; [done|].
  change (join SLASH (c :: c' :: k)) with (c ++ SLASH :: join SLASH (c' :: k)). set_solver.
Qed.

(** Resolving once is enough. *)
Lemma canonicalize_resolved f p q : fs_ok f → canonicalize f p = Ok q →
  ∃ k, resolve f p = Ok k ∧ q = path_of k ∧ real f k ∧ resolve f q = Ok k.
Proof.
  intros Hf. unfold canonicalize. destruct (resolve f p) as [k| |] eqn:E; [|done|done]. intros [= <-].
  pose proof (resolve_real f p k Hf E) as Hk. exists k. split_and!; [done|done|done|].
  apply resolve_path_of; [done|]. apply no_nul_path_of. by eapply real_names.
Qed.

(** ** Places of trees *)

Lemma place_dir_resolve f p k : place f p k → files f !! k = Some IDir → resolve f p = Ok k.
Proof.
  intros Hp Hk. destruct (place_dir f p k Hp Hk) as [H0 _]. destruct Hp as (Ht & _ & d & l & Hl & ->).
  apply locate_split in Hl as (_ & Hl & Hr & Hd). unfold resolve, no_nul.
  rewrite (decide_False (P := x00 ∈ p)) by done. cbn [mbind res_bind].
  rewrite decide_False by (rewrite Hr; intros [E _]; by destruct (removelast (raw p))).
  rewrite Hr. rewrite (follow_snoc true f _ _ _ d l IDir) by auto. cbn [mbind res_bind]. by rewrite Ht.
Qed.

Lemma read_dir_place `{!DirOrder} f p k : place f p k → files f !! k = Some IDir → read_dir f p = Ok (dir_order f k).
Proof.
  intros Hp Hk. unfold read_dir. rewrite (place_dir_resolve f p k) by done. cbn [mbind res_bind].
  rewrite decide_True; [done|]. unfold kind. case_decide; done.
Qed.
