(* ===== verification/CacheConfig.v ===== *)
(** Errors, store and configuration of the binary cache server
    ([harmonia-cache/src]: error.rs, store.rs, config.rs). The TOML parser is a
    parameter that gives the table of a file; what [serde]'s derived code does
    with the table, the environment and the key files is here. *)

From stdpp Require Import base list numbers strings gmap.
From Stdlib Require Import ZArith Lia Strings.Byte.
From S2P Require Import Prelude Pool StoreDb FileSystem Async Wire BaseEncoding Codecs Hash StorePath Signature NixCodec Utf8 Messages DaemonErrors Lookup.

(** ** error.rs *)

Inductive ConfigError : Type :=
| ReadFile (path : bytes) (source : io_error)
| TomlParse (e : bytes)
| InvalidSigningKey (reason : bytes)
| Invalid (reason : bytes).

Inductive ServerError : Type := TlsSetup (reason : bytes) | Startup (reason : bytes).

Inductive StoreError : Type := PathQuery (hash reason : bytes) | Remote (e : DaemonError).

Inductive NarInfoError : Type :=
| NarInfoQueryFailed (reason : bytes)
| InvalidUtf8 (e : bytes)
| InvalidStoreDir (s : bytes).

Inductive BuildLogError : Type := QueryFailed (reason : bytes).

Inductive ServeError : Type := ServeFailed (source : io_error) | AccessDenied (path : bytes).

Inductive CacheError : Type :=
| Io (context : bytes) (source : io_error)
| EConfig (e : ConfigError)
| EServer (e : ServerError)
| EStore (e : StoreError)
| ESigning (e : ParseKeyError)
| EFingerprint (e : FingerprintError)
| ENarInfo (e : NarInfoError)
| EBuildLog (e : BuildLogError)
| EServe (e : ServeError).

Section texts.
Context {ET : ErrorText}.

Definition StoreError_fmt (e : StoreError) : bytes :=
  match e with
  | PathQuery hash reason => str "failed to query store path '" ++ hash ++ str "': " ++ reason
  | Remote e => str "Daemon communication error: " ++ DaemonError_fmt e
  end.

Definition ConfigError_fmt (e : ConfigError) : bytes :=
  match e with
  | ReadFile path source => str "Failed to read config file " ++ path ++ str ": " ++ io_error_text source
  | TomlParse e => str "Failed to parse TOML: " ++ e
  | InvalidSigningKey reason => str "invalid signing key: " ++ reason
  | Invalid reason => str "invalid configuration: " ++ reason
  end.

Definition ServerError_fmt (e : ServerError) : bytes :=
  match e with
  | TlsSetup reason => str "TLS setup failed: " ++ reason
  | Startup reason => str "server startup failed: " ++ reason
  end.

Definition ParseKeyError_fmt (e : ParseKeyError) : bytes :=
  match e with
  | CorruptKey => str "key is corrupt"
  | InvalidSecretKey => str "secret key is not valid"
  | InvalidPublicKey => str "public key is not valid"
  end.

Definition FingerprintError_fmt (e : FingerprintError) : bytes :=
  match e with
  | InvalidNarHashPrefix => str "NAR hash must start with 'sha256:'"
  | InvalidNarHashLength n => str "NAR hash has invalid length: expected 59, got " ++ u64_to_string (Z.of_nat n)
  end.

Definition NarInfoError_fmt (e : NarInfoError) : bytes :=
  match e with
  | NarInfoQueryFailed reason => str "Failed to query path info: " ++ reason
  | InvalidUtf8 e => str "Invalid UTF-8 in store directory: " ++ e
  | InvalidStoreDir s => str "Invalid store directory: " ++ s
  end.

Definition BuildLogError_fmt (e : BuildLogError) : bytes :=
  match e with QueryFailed reason => str "Failed to query derivation path: " ++ reason end.

Definition ServeError_fmt (e : ServeError) : bytes :=
  match e with
  | ServeFailed source => str "Failed to serve file: " ++ io_error_text source
  | AccessDenied path => str "Access denied: " ++ path
  end.

Definition CacheError_fmt (e : CacheError) : bytes :=
  match e with
  | Io context source => context ++ str ": " ++ io_error_text source
  | EConfig e => str "Configuration error: " ++ ConfigError_fmt e
  | EServer e => str "Server error: " ++ ServerError_fmt e
  | EStore e => str "Store error: " ++ StoreError_fmt e
  | ESigning e => str "Signing error: " ++ ParseKeyError_fmt e
  | EFingerprint e => str "Fingerprint error: " ++ FingerprintError_fmt e
  | ENarInfo e => str "NARInfo error: " ++ NarInfoError_fmt e
  | EBuildLog e => str "Build log error: " ++ BuildLogError_fmt e
  | EServe e => str "File serving error: " ++ ServeError_fmt e
  end.
End texts.

Definition status_code (e : CacheError) : Z :=
  match e with EStore (PathQuery _ _) => 404 | _ => 500 end.

Definition io_context {A : Type} (context : bytes) (r : res io_error A) : res CacheError A :=
  Prelude.map_err (Io context) r.

(** ** store.rs *)

(** What a pool is made with. *)
Record ConnectionPool : Type := mk_pool {
  socket_path : PathBuf;
  pool_store_dir : StoreDir;
  pool_config : PoolConfig
}.

Definition with_store_dir {E : Type} (socket : PathBuf) (dir : StoreDir) (cfg : PoolConfig) : res E ConnectionPool :=
  if decide (max_size cfg = 0) then Panic else Ok (mk_pool socket dir cfg).

Record Store : Type := mk_store { virtual_store : bytes; st_real_store : option bytes; pool : ConnectionPool }.

(** [StoreDir::new] of a string does not fail. *)
Definition Store_new {E : Type} (virtual_store daemon_store : bytes) (real_store : option bytes) (daemon_socket : PathBuf)
    (pool_config : PoolConfig) : res E Store :=
  pool ← with_store_dir daemon_socket (if is_utf8 daemon_store then daemon_store else str "/nix/store") pool_config;
  Ok (mk_store virtual_store real_store pool).

Definition with_size (n : nat) (metrics : bool) (c : PoolConfig) : PoolConfig :=
  mk_config n (max_idle_time c) (acquire_timeout c) (connection_timeout c) metrics.

Definition Store_default {E : Type} (available_parallelism : option nat) : res E Store :=
  Store_new (str "/nix/store") (str "/nix/store") None (str "/nix/var/nix/daemon-socket/socket")
    (with_size 2 false (PoolConfig_default available_parallelism)).

Definition real_store (s : Store) : PathBuf := default (virtual_store s) (st_real_store s).

Definition to_virtual_path (s : Store) (p : StorePath) : StorePath := p.

Definition get_real_path {DE : DataEncoding} {E : Type} (s : Store) (store_path : StorePath) : res E PathBuf :=
  name ← unwrap (StorePath_fmt store_path);
  Ok (if st_real_store s is Some _ then path_join (real_store s) name else path_join (virtual_store s) name).

(** ** config.rs *)

Definition default_bind : bytes := str "[::]:5000".
Definition default_workers : Z := 4.
Definition default_connection_rate : Z := 256.
Definition default_priority : Z := 30.
Definition default_enable_compression : bool := false.
Definition default_virtual_store : PathBuf := str "/nix/store".
Definition default_daemon_socket : PathBuf := str "/nix/var/nix/daemon-socket/socket".

(** Values of TOML; floats, dates and tables are of no type that is used. *)
Inductive toml_value : Type :=
| TString (s : bytes)
| TInteger (n : Z)
| TBoolean (b : bool)
| TArray (l : list toml_value)
| TOther.

(** [toml]: the table of a text, its keys in order, and the texts of errors. *)
Class Toml : Type := {
  toml_table : bytes → res bytes (list (bytes * toml_value));
  unknown_field : bytes → bytes;
  invalid_type : bytes → toml_value → bytes
}.

Inductive field_type : Type := FString | FUsize | FBool | FPaths.

Definition config_fields : list (bytes * field_type) :=
  [(str "bind", FString); (str "workers", FUsize); (str "max_connection_rate", FUsize); (str "priority", FUsize);
   (str "virtual_nix_store", FString); (str "real_nix_store", FString); (str "enable_compression", FBool);
   (str "sign_key_path", FString); (str "sign_key_paths", FPaths); (str "tls_cert_path", FString);
   (str "tls_key_path", FString); (str "daemon_socket", FString)].

Fixpoint assoc {A : Type} (k : bytes) (l : list (bytes * A)) : option A :=
  match l with
  | [] => None
  | (k', v) :: l => if decide (k = k') then Some v else assoc k l
  end.

Definition as_string (v : toml_value) : option bytes := if v is TString s then Some s else None.
Definition as_usize (v : toml_value) : option Z := if v is TInteger n then if (0 <=? n)%Z then Some n else None else None.
Definition as_bool (v : toml_value) : option bool := if v is TBoolean b then Some b else None.
Definition as_paths (v : toml_value) : option (list bytes) := if v is TArray l then mapM as_string l else None.

Definition has_type (t : field_type) (v : toml_value) : bool :=
  match t with
  | FString => bool_decide (is_Some (as_string v))
  | FUsize => bool_decide (is_Some (as_usize v))
  | FBool => bool_decide (is_Some (as_bool v))
  | FPaths => bool_decide (is_Some (as_paths v))
  end.

(** Texts of errors of the packages below. *)
Class CacheText : Type := {
  store_path_error_text : StorePathError → bytes;
  utf8_error_text : bytes → bytes
}.

(** What the process finds: the environment, the files, and the number of
    processors. *)
Record Env : Type := mk_env {
  var_os : bytes → option bytes;
  env_fs : fs;
  available_parallelism : option nat
}.

(** [std::env::var]: a value that is not Unicode is an error. *)
Definition var (e : Env) (name : bytes) : option bytes :=
  match var_os e name with Some v => if is_utf8 v then Some v else None | None => None end.

(** [str::trim]. *)
Fixpoint all_white (skip : nat) (s : bytes) : bool :=
  match s, skip with
  | [], _ => true
  | _ :: s', S skip => all_white skip s'
  | _ :: s', 0 => match whitespace_at s with Some n => all_white (n - 1) s' | None => false end
  end.

Fixpoint trim_start (skip : nat) (s : bytes) : bytes :=
  match s, skip with
  | [], _ => []
  | _ :: s', S skip => trim_start skip s'
  | _ :: s', 0 => match whitespace_at s with Some n => trim_start (n - 1) s' | None => s end
  end.

Fixpoint trim_end (s : bytes) : bytes :=
  match s with
  | [] => []
  | b :: s' => if all_white 0 s then [] else b :: trim_end s'
  end.

Definition trim (s : bytes) : bytes := trim_end (trim_start 0 s).

Section load.
Context {DE : DataEncoding} {ED : Ed25519} {ET : ErrorText} {HT : Toml}.

Record Config : Type := mk_cache_config {
  bind : bytes;
  workers : Z;
  max_connection_rate : Z;
  priority : Z;
  virtual_nix_store : PathBuf;
  real_nix_store : option PathBuf;
  enable_compression : bool;
  sign_key_path : option bytes;
  sign_key_paths : list PathBuf;
  tls_cert_path : option bytes;
  tls_key_path : option bytes;
  daemon_socket : PathBuf;
  secret_keys : list SecretKey;
  store : Store
}.

(** The derived [Default]: every field has the default of its type. *)
Definition Config_default {E : Type} (available_parallelism : option nat) : res E Config :=
  store ← Store_default available_parallelism;
  Ok (mk_cache_config [] 0 0 0 [] None false None [] None None [] [] store).

Fixpoint check_entries (t : list (bytes * toml_value)) : res bytes unit :=
  match t with
  | [] => Ok tt
  | (k, v) :: t =>
      match assoc k config_fields with
      | None => Err (unknown_field k)
      | Some ty => if has_type ty v then check_entries t else Err (invalid_type k v)
      end
  end.

(** The derived [Deserialize]: unknown fields are refused, missing ones get
    their defaults. *)
Definition Config_deserialize (available_parallelism : option nat) (t : list (bytes * toml_value)) : res bytes Config :=
  _ ← check_entries t;
  store ← Store_default available_parallelism;
  let get {A} (f : toml_value → option A) (k : bytes) : option A := assoc k t ≫= f in
  Ok (mk_cache_config
    (default default_bind (get as_string (str "bind")))
    (default default_workers (get as_usize (str "workers")))
    (default default_connection_rate (get as_usize (str "max_connection_rate")))
    (default default_priority (get as_usize (str "priority")))
    (default default_virtual_store (get as_string (str "virtual_nix_store")))
    (get as_string (str "real_nix_store"))
    (default default_enable_compression (get as_bool (str "enable_compression")))
    (get as_string (str "sign_key_path"))
    (default [] (get as_paths (str "sign_key_paths")))
    (get as_string (str "tls_cert_path"))
    (get as_string (str "tls_key_path"))
    (default default_daemon_socket (get as_string (str "daemon_socket")))
    [] store).

Definition Config_load (e : Env) (settings_file : PathBuf) : res CacheError Config :=
  contents ← Prelude.map_err (λ x, EConfig (ReadFile (from_utf8_lossy settings_file) x))
    (read_to_string (env_fs e) settings_file);
  Prelude.map_err (λ x, EConfig (TomlParse x))
    (t ← toml_table contents; Config_deserialize (available_parallelism e) t).

(** The key files, one after the other. *)
Fixpoint load_keys (f : fs) (paths : list PathBuf) : res CacheError (list SecretKey) :=
  match paths with
  | [] => Ok []
  | p :: paths =>
      key_content ← Prelude.map_err (λ e, EConfig (InvalidSigningKey
        (str "Couldn't read secret key from '" ++ from_utf8_lossy p ++ str "': " ++ io_error_text e))) (read_to_string f p);
      key ← Prelude.map_err (λ e, EConfig (InvalidSigningKey
        (str "Couldn't parse secret key from '" ++ from_utf8_lossy p ++ str "': " ++ ParseKeyError_fmt e)))
        (SecretKey_from_str (trim key_content));
      keys ← load_keys f paths;
      Ok (key :: keys)
  end.

(** The key files in their order: those of the settings, the deprecated option,
    and the two variables. *)
Definition key_paths (e : Env) (c : Config) : list PathBuf :=
  sign_key_paths c ++ option_list (sign_key_path c) ++ option_list (var e (str "SIGN_KEY_PATH")) ++
  match var e (str "SIGN_KEY_PATHS") with Some s => split_whitespace s | None => [] end.

Definition load (pool_metrics : bool) (e : Env) : res CacheError Config :=
  settings ← match var e (str "CONFIG_FILE") with
             | None => if exists_path (env_fs e) (str "settings.toml")
                       then Some <$> Config_load e (str "settings.toml") else Ok None
             | Some settings_file => Some <$> Config_load e settings_file
             end;
  match settings with
  | None => Config_default (available_parallelism e)
  | Some c =>
      if decide (workers c = 0%Z) then Err (EConfig (Invalid (str "workers must be greater than 0"))) else
      let paths := key_paths e c in
      keys ← load_keys (env_fs e) paths;
      let virtual_store_dir := default (virtual_nix_store c) (var_os e (str "NIX_STORE_DIR")) in
      store ← Store_new virtual_store_dir virtual_store_dir (real_nix_store c) (daemon_socket c)
        (with_size (Z.to_nat (workers c + 1)) pool_metrics (PoolConfig_default (available_parallelism e)));
      Ok (mk_cache_config (bind c) (workers c) (max_connection_rate c) (priority c) (virtual_nix_store c)
            (real_nix_store c) (enable_compression c) (sign_key_path c) paths (tls_cert_path c) (tls_key_path c)
            (daemon_socket c) keys store)
  end.
End load.

(** ** Keys and defaults *)

Section loaded.
Context {DE : DataEncoding} {ED : Ed25519} {ET : ErrorText} {HT : Toml}.

(** The key in a file. *)
Definition key_in (f : fs) (p : PathBuf) (k : SecretKey) : Prop :=
  ∃ text, read_to_string f p = Ok text ∧ SecretKey_from_str (trim text) = Ok k.

Lemma load_keys_ok f paths : ∀ keys, load_keys f paths = Ok keys → Forall2 (key_in f) paths keys.
Proof.
  induction paths as [|p paths IH]; intros keys; cbn [load_keys]; [intros [= <-]; constructor|].
  intros (text & Ht & (k & Hk & (ks & Hks & [= <-])%res_bind_Ok)%res_bind_Ok)%res_bind_Ok.
  constructor; [|by apply IH]. exists text. split; by eapply map_err_Ok.
Qed.

(** The keys of a configuration that was loaded are those of its key files. *)
Lemma loaded_keys metrics e c : load metrics e = Ok c → Forall2 (key_in (env_fs e)) (sign_key_paths c) (secret_keys c).
Proof.
  unfold load. intros (o & _ & H)%res_bind_Ok. destruct o as [c'|].
  - case_decide; [done|]. apply res_bind_Ok in H as (keys & Hk & (st & _ & [= <-])%res_bind_Ok). by apply load_keys_ok.
  - apply res_bind_Ok in H as (st & _ & [= <-]). constructor.
Qed.

(** Without a configuration file the server does not get the defaults that
    are given for it (README.md): it is to bind to an empty address with no
    workers, and neither the key files nor the store directory of the
    environment are looked at. An empty file gives the defaults and the store
    directory of the environment. *)
Theorem load_without_file (metrics : bool) (e : Env) :
  var e (str "CONFIG_FILE") = None → exists_path (env_fs e) (str "settings.toml") = false →
  (∃ c, load metrics e = Ok c ∧ bind c = [] ∧ workers c = 0%Z ∧ priority c = 0%Z ∧ secret_keys c = [] ∧
    virtual_store (store c) = str "/nix/store") ∧
  ∀ e' file text, env_fs e' = env_fs e → var e' (str "CONFIG_FILE") = Some file →
    read_to_string (env_fs e) file = Ok text → toml_table text = Ok [] →
    var e' (str "SIGN_KEY_PATH") = None → var e' (str "SIGN_KEY_PATHS") = None →
    ∃ c, load metrics e' = Ok c ∧ bind c = default_bind ∧ workers c = default_workers ∧ priority c = default_priority ∧
      virtual_store (store c) = default default_virtual_store (var_os e' (str "NIX_STORE_DIR")).
Proof.
  intros Hv Hx. split.
  - unfold load. rewrite Hv, Hx. cbn. eexists. by split_and!.
  - intros e' file text Hfs Hfile Hr Ht Hk1 Hk2. unfold load, Config_load. rewrite Hfile, Hfs, Hr.
    cbn [Prelude.map_err mbind res_bind fmap res_fmap]. rewrite Ht. cbn [mbind res_bind].
    unfold key_paths. rewrite Hk1, Hk2. cbn. eexists. by split_and!.
Qed.
End loaded.

(** ** Concrete uses *)

#[export] Instance empty_toml : Toml := {|
  toml_table _ := Ok [];
  unknown_field f := str "unknown field " ++ f;
  invalid_type f _ := str "invalid type for " ++ f
|}.

Definition key_env (config : option bytes) : Env :=
  mk_env (λ name, if decide (name = str "CONFIG_FILE") then config
                  else if decide (name = str "NIX_STORE_DIR") then Some (str "/gnu/store") else None)
    (mk_fs {[ [str "c"] := IFile 420 [] ]} [] 18) None.

#[local] Existing Instance Signature.open_scheme.

#[local] Instance config_text : ErrorText := {| io_error_text _ := str "i/o error"; as_bstr b := b |}.

Lemma load_without_file_witness :
  (∃ c, load false (key_env None) = Ok c ∧ bind c = [] ∧ workers c = 0%Z ∧ virtual_store (store c) = str "/nix/store") ∧
  (∃ c, load false (key_env (Some (str "/c"))) = Ok c ∧ bind c = str "[::]:5000" ∧ workers c = 4%Z ∧
    virtual_store (store c) = str "/gnu/store").
Proof.
  destruct (load_without_file false (key_env None)) as [(c & H1 & H2 & H3 & _ & _ & H4) H].
  - reflexivity.
  - vm_compute. reflexivity.
  - split; [exists c; split; [exact H1|]; split; [exact H2|]; split; [exact H3|exact H4]|].
    destruct (H (key_env (Some (str "/c"))) (str "/c") []) as (c' & H1' & H2' & H3' & _ & H4').
    + reflexivity.
    + vm_compute. reflexivity.
    + vm_compute. reflexivity.
    + reflexivity.
    + reflexivity.
    + reflexivity.
    + exists c'. split; [exact H1'|]. split; [exact H2'|]. split; [exact H3'|exact H4'].
Defined.
