(* ===== verification/Cache.v ===== *)
(** The binary cache server ([harmonia-cache/src]): the handlers that answer
    from the store of a daemon. A handler is a function of the state of the
    connections to the daemon; a response is its status, its headers and its
    body. What [actix_web] and [http_range] do with headers, the text of errors
    of packages, and the byte stream of an archive are parameters. *)

From stdpp Require Import base list numbers strings gmap.
From Stdlib Require Import ZArith Lia Strings.Byte.
From S2P Require Import Prelude FileSystem Async Wire Sink ProtoRead Framed Version BaseEncoding Codecs Hash StorePath ContentAddress Signature DerivedPath NixIO NixCodec Utf8 WireTypes Messages Derivations Requests Logger DaemonErrors DaemonStore CacheConfig.

(** ** Responses *)

Inductive CacheDirective : Type := MaxAge (seconds : Z) | NoStore.

Inductive header_value : Type := HText (s : bytes) | HCacheControl (ds : list CacheDirective).

(** narinfo.rs *)
Record NarInfo : Type := mk_narinfo {
  ni_store_path : bytes;
  ni_url : bytes;
  ni_compression : bytes;
  ni_nar_hash : bytes;
  ni_nar_size : Z;
  ni_references : list bytes;
  ni_deriver : option bytes;
  ni_sigs : list bytes;
  ni_ca : option bytes
}.

(** A stream with a declared size, the items it gives in order; a value as
    JSON. *)
Inductive Body : Type :=
| BodyNone
| BodyBytes (b : bytes)
| SizedStream (size : Z) (stream : list (res io_error bytes))
| BodyJson (n : NarInfo).

Record HttpResponse : Type := mk_response {
  rs_status : Z;
  rs_headers : list (bytes * header_value);
  rs_body : Body
}.

(** [insert_header] replaces a header of that name. *)
Definition insert_header (name : bytes) (v : header_value) (hs : list (bytes * header_value)) :
    list (bytes * header_value) :=
  filter (λ h, h.1 ≠ name) hs ++ [(name, v)].

Definition CACHE_CONTROL : bytes := str "cache-control".
Definition CONTENT_TYPE : bytes := str "content-type".
Definition CONTENT_RANGE : bytes := str "content-range".
Definition CONTENT_ENCODING : bytes := str "content-encoding".
Definition ACCEPT_RANGES : bytes := str "accept-ranges".

Definition cache_control_max_age (max_age : Z) : header_value := HCacheControl [MaxAge max_age].
Definition cache_control_max_age_1y : header_value := cache_control_max_age (365 * 24 * 60 * 60).
Definition cache_control_max_age_1d : header_value := cache_control_max_age (24 * 60 * 60).
Definition cache_control_no_store : header_value := HCacheControl [NoStore].

Definition not_found (control : header_value) (body : bytes) : HttpResponse :=
  mk_response 404 (insert_header CACHE_CONTROL control []) (BodyBytes body).

(** What [some_or_404!] returns early. *)
Definition missed : HttpResponse := not_found cache_control_no_store (str "missed hash").

(** ** Ranges (nar.rs) *)

(** [HeaderValue::to_str] and [http_range::HttpRange::parse], which gives the
    start and the length of each range. *)
Class Http : Type := {
  to_str : bytes → option bytes;
  http_range_parse : bytes → Z → option (list (Z * Z))
}.

(** Sums of [u64], with overflow checks. *)
Definition add_u64 {E : Type} (a b : Z) : res E Z := if (a + b <=? u64_max)%Z then Ok (a + b)%Z else Panic.
Definition sub_u64 {E : Type} (a b : Z) : res E Z := if (b <=? a)%Z then Ok (a - b)%Z else Panic.

(** [Bytes::slice]. *)
Definition slice (start stop : Z) (b : bytes) : bytes :=
  take (Z.to_nat stop - Z.to_nat start) (drop (Z.to_nat start) b).

(** The stream of [create_range_stream]; a panic ends it. *)
Fixpoint create_range_stream (stream : list (res io_error bytes)) (offset len sent : Z) :
    list (res io_error bytes) :=
  match stream with
  | [] => []
  | Err e :: stream => Err e :: create_range_stream stream offset len sent
  | Panic :: _ => [Panic]
  | Ok data :: stream =>
      let data_len := Z.of_nat (length data) in
      match add_u64 (E := io_error) sent data_len with
      | Ok sent' =>
          if (sent' <=? offset)%Z then create_range_stream stream offset len sent'
          else
            let start := if (sent <? offset)%Z then (offset - sent)%Z else 0%Z in
            let remaining := (len - Z.min (Z.max 0 (sent - offset)) len)%Z in
            if (remaining =? 0)%Z then []
            else match add_u64 (E := io_error) start remaining with
                 | Ok stop =>
                     let stop := Z.min stop data_len in
                     if (start <? stop)%Z
                     then Ok (slice start stop data) :: create_range_stream stream offset len sent'
                     else create_range_stream stream offset len sent'
                 | _ => [Panic]
                 end
      | _ => [Panic]
      end
  end.

Section cache.
Context {DE : DataEncoding} {DG : DigestLib} {SA : StructuredAttrsLib} {ED : Ed25519} {ET : ErrorText} {CT : CacheText}.

(** The daemon behind the pool: a connection is acquired or not. *)
Context {St : Type} {HS : DaemonStore St}.
Class Acquire : Type := pool_acquire : St → St * res DaemonError unit.
Context {HQ : Acquire}.

Definition acquire : eff CacheError St unit := map_err (λ e, EStore (Remote e)) pool_acquire.

(** A method of the client, its log dropped. *)
Definition client {T : Type} (e : StoreE T) : eff DaemonError St T := λ s,
  let '(s, out) := store_call e s in (s, out.2).

(** ** main.rs *)

Definition parse_hash_part (hash : bytes) (shown : bytes) : eff CacheError St StorePathHash :=
  eff_lift (Prelude.map_err (λ e, EStore (PathQuery shown (str "Invalid hash format: " ++ store_path_error_text e)))
    (decode_digest hash)).

Definition nixhash (hash : bytes) : eff CacheError St (option StorePath) :=
  store_path_hash ← parse_hash_part hash (from_utf8_lossy hash);
  _ ← acquire;
  map_err (λ e, EStore (PathQuery (from_utf8_lossy hash) (DaemonError_fmt e)))
    (client (query_path_from_hash_part store_path_hash)).

(** ** nar.rs *)

Context {HH : Http}.

(** [NarByteStream::new]: what the byte stream of the archive at a path gives. *)
Context (NarByteStream_new : PathBuf → list (res io_error bytes)).

Record PathParams : Type := mk_path_params { pp_narhash : bytes; pp_outhash : option bytes }.

Definition archive_headers (hs : list (bytes * header_value)) : list (bytes * header_value) :=
  insert_header CACHE_CONTROL cache_control_max_age_1y
    (insert_header ACCEPT_RANGES (HText (str "bytes"))
      (insert_header CONTENT_TYPE (HText (str "application/x-nix-archive")) hs)).

(** The response once the path and its size are known; [range] is the header
    of the request. *)
Definition archive_response (settings : Config) (range : option bytes) (rlength : Z) (real_path : PathBuf) :
    res CacheError HttpResponse :=
  match range with
  | Some ranges =>
      match to_str ranges with
      | Some ranges_header =>
          match http_range_parse ranges_header rlength with
          | Some [] => Panic
          | Some ((offset, range_length) :: _) =>
              let hs := if enable_compression settings then insert_header CONTENT_ENCODING (HText (str "none")) [] else [] in
              stop ← add_u64 offset range_length;
              last ← sub_u64 stop 1;
              let hs := insert_header CONTENT_RANGE (HText (str "bytes " ++ u64_to_string offset ++ str "-" ++
                u64_to_string last ++ str "/" ++ u64_to_string rlength)) hs in
              Ok (mk_response 200 (archive_headers hs)
                    (SizedStream range_length
                      (create_range_stream (NarByteStream_new real_path) offset range_length 0)))
          | None =>
              Ok (mk_response 416 (insert_header CONTENT_RANGE (HText (str "bytes */" ++ u64_to_string rlength)) [])
                    BodyNone)
          end
      | None => Ok (mk_response 400 [] BodyNone)
      end
  | None => Ok (mk_response 200 (archive_headers []) (SizedStream rlength (NarByteStream_new real_path)))
  end.

Definition nar_get (settings : Config) (path : PathParams) (range : option bytes) (query_hash : option bytes) :
    eff CacheError St HttpResponse :=
  match (match query_hash with Some h => Some h | None => pp_outhash path end) with
  | None => mret (not_found cache_control_no_store (str "missing outhash"))
  | Some outhash =>
      store_path_hash ← parse_hash_part outhash outhash;
      _ ← acquire;
      store_path ← map_err (λ e, EStore (PathQuery outhash (DaemonError_fmt e)))
        (client (query_path_from_hash_part store_path_hash));
      match store_path with
      | None => mret (not_found cache_control_no_store (str "store path not found"))
      | Some store_path =>
          _ ← acquire;
          info ← map_err (λ e, EStore (Remote e)) (client (query_path_info store_path));
          match info with
          | None => mret (not_found cache_control_no_store (str "path info not found"))
          | Some info =>
              expected_hash ← eff_lift (unwrap (Base32_fmt true (vi_nar_hash info)));
              if bool_decide (pp_narhash path ≠ expected_hash)
              then mret (not_found cache_control_no_store (str "hash mismatch detected"))
              else
                real_path ← eff_lift (get_real_path (store settings) store_path);
                eff_lift (archive_response settings range (u64_val (vi_nar_size info)) real_path)
          end
      end
  end.

(** ** narinfo.rs *)

(** [to_string] of each, which fails for none or stops at the first. *)
Fixpoint to_strings {A : Type} (f : A → res DecodePartial bytes) (l : list A) : res CacheError (list bytes) :=
  match l with
  | [] => Ok []
  | x :: l => s ← unwrap (f x); ss ← to_strings f l; Ok (s :: ss)
  end.

(** [as_ref().map(to_string)]. *)
Definition opt_string {A : Type} (f : A → res DecodePartial bytes) (o : option A) : res CacheError (option bytes) :=
  match o with Some x => s ← unwrap (f x); Ok (Some s) | None => Ok None end.

Definition sign_all (keys : list SecretKey) (fingerprint : bytes) : res CacheError (list bytes) :=
  (fix go ks := match ks with
   | [] => Ok []
   | k :: ks => g ← sign k fingerprint; s ← unwrap (Signature_fmt g); ss ← go ks; Ok (s :: ss)
   end) keys.

Definition narinfo_of (virtual_nix_store : bytes) (store_path : StorePath) (hash : bytes)
    (sign_keys : list SecretKey) (path_info : UnkeyedValidPathInfo) : res CacheError NarInfo :=
  nar_hash ← unwrap (Base32_fmt false (vi_nar_hash path_info));
  nar_hash_bare ← unwrap (Base32_fmt true (vi_nar_hash path_info));
  store_path_str ← unwrap (StorePath_fmt store_path);
  let nar_size := u64_val (vi_nar_size path_info) in
  deriver ← opt_string StorePath_fmt (vi_deriver path_info);
  ca ← opt_string CA_to_string (vi_ca path_info);
  references ← to_strings StorePath_fmt (elems (vi_references path_info));
  store_dir ← (if is_utf8 virtual_nix_store then Ok virtual_nix_store
               else Err (ENarInfo (InvalidUtf8 (utf8_error_text virtual_nix_store))));
  fingerprint ← Prelude.map_err EFingerprint
    (fingerprint_path store_dir store_path nar_hash nar_size (elems (vi_references path_info)));
  signed ← sign_all sign_keys fingerprint;
  sigs ← (if signed is [] then to_strings Signature_fmt (elems (vi_signatures path_info)) else Ok signed);
  Ok (mk_narinfo (virtual_nix_store ++ str "/" ++ store_path_str)
        (str "nar/" ++ nar_hash_bare ++ str ".nar?hash=" ++ hash) (str "none") nar_hash nar_size
        references deriver sigs ca).

Definition query_narinfo (settings : Config) (store_path : StorePath) (hash : bytes) :
    eff CacheError St (option NarInfo) :=
  _ ← acquire;
  path_info ← map_err (λ e, EStore (Remote e)) (client (query_path_info store_path));
  match path_info with
  | Some info =>
      n ← eff_lift (narinfo_of (virtual_store (store settings)) store_path hash (secret_keys settings) info);
      mret (Some n)
  | None => mret None
  end.

Definition push_line (prefix value : bytes) : bytes := prefix ++ value ++ [x0a].

Definition push_lines (prefix : bytes) (values : list bytes) : bytes := values ≫= push_line prefix.

Definition format_narinfo_txt (n : NarInfo) : bytes :=
  push_line (str "StorePath: ") (ni_store_path n) ++
  push_line (str "URL: ") (ni_url n) ++
  push_line (str "Compression: ") (ni_compression n) ++
  push_line (str "FileHash: ") (ni_nar_hash n) ++
  push_line (str "FileSize: ") (u64_to_string (ni_nar_size n)) ++
  push_line (str "NarHash: ") (ni_nar_hash n) ++
  push_line (str "NarSize: ") (u64_to_string (ni_nar_size n)) ++
  (if ni_references n is [] then []
   else str "References:" ++ (ni_references n ≫= λ r, " "%byte :: r) ++ [x0a]) ++
  (if ni_deriver n is Some drv then push_line (str "Deriver: ") drv else []) ++
  push_lines (str "Sig: ") (ni_sigs n) ++
  (if ni_ca n is Some ca then push_line (str "CA: ") ca else []).

Definition narinfo_get (settings : Config) (hash : bytes) (json : bool) : eff CacheError St HttpResponse :=
  real_store_path ← map_err (λ e, ENarInfo (NarInfoQueryFailed
    (str "Could not query nar hash in database: " ++ CacheError_fmt e))) (nixhash hash);
  match real_store_path with
  | None => mret missed
  | Some real_store_path =>
      let store_path := to_virtual_path (store settings) real_store_path in
      narinfo ← query_narinfo settings store_path hash;
      match narinfo with
      | None => mret (not_found cache_control_max_age_1d (str "missed hash"))
      | Some narinfo =>
          let control := insert_header CACHE_CONTROL cache_control_max_age_1d in
          if json then mret (mk_response 200 (control []) (BodyJson narinfo))
          else mret (mk_response 200
            (control (insert_header (str "Nix-Link") (HText (ni_url narinfo))
              (insert_header CONTENT_TYPE (HText (str "text/x-nix-narinfo")) [])))
            (BodyBytes (format_narinfo_txt narinfo)))
      end
  end.

(** ** cacheinfo.rs *)

Definition cacheinfo_get (settings : Config) : HttpResponse :=
  mk_response 200 (insert_header CONTENT_TYPE (HText (str "text/x-nix-cache-info")) [])
    (BodyBytes (str "StoreDir: " ++ virtual_store (store settings) ++ [x0a] ++ str "WantMassQuery: 1" ++ [x0a] ++
      str "Priority: " ++ u64_to_string (priority settings) ++ [x0a])).
End cache.
