(* ===== verification/CacheSpec.v ===== *)
(** What the binary cache promises: the part of an archive that a range asks
    for, narinfo files whose URL leads to the archive, whose signatures verify,
    and whose text says no less than their fields. *)

From stdpp Require Import base list numbers strings gmap.
From Stdlib Require Import ZArith Lia Strings.Byte.
From S2P Require Import Prelude FileSystem StoreDb StoreDbSpec StoreDbRefine Async Wire Sink NarTree ProtoRead Framed Version BaseEncoding Codecs Hash StorePath ContentAddress Signature DerivedPath NixIO NixCodec Utf8 WireTypes Messages Derivations Requests Logger DaemonErrors DaemonStore Server Samples LocalStore LocalStoreSpec Lookup CacheConfig Cache.

(** ** Ranges *)

(** All the bytes of a stream without an error. *)
Definition stream_bytes (l : list (res io_error bytes)) : bytes :=
  l ≫= λ x, match x with Ok b => b | _ => [] end.

Lemma stream_bytes_ok cs : stream_bytes (Ok <$> cs) = concat cs.
Proof. induction cs as [|c cs IH]; [done|]. unfold stream_bytes in *. cbn. by rewrite IH. Qed.

Definition part (offset len : Z) (b : bytes) : bytes := take (Z.to_nat len) (drop (Z.to_nat offset) b).

(** Inside the range: [sent] bytes of the archive were passed, past the
    offset. *)
Lemma range_inside cs : ∀ offset len sent, (0 ≤ offset ≤ sent)%Z → (0 ≤ len)%Z → (len ≤ u64_max)%Z →
  (sent + Z.of_nat (length (concat cs)) ≤ u64_max)%Z →
  ∃ ds, create_range_stream (Ok <$> cs) offset len sent = Ok <$> ds ∧
    concat ds = take (Z.to_nat (len - Z.min (sent - offset) len)) (concat cs).
Proof.
  induction cs as [|c cs IH]; intros offset len sent Ho Hl Hm Hs.
  { exists []. cbn. by rewrite take_nil. }
  cbn [concat] in Hs. rewrite length_app in Hs. cbn [fmap list_fmap create_range_stream]. unfold add_u64.
  rewrite (proj2 (Z.leb_le _ _)) by lia. rewrite (proj2 (Z.ltb_ge _ _)) by lia.
  rewrite (Z.max_r 0) by lia.
  destruct (IH offset len (sent + Z.of_nat (length c))%Z) as (ds & E & Hd); [lia..|].
  destruct (_ <=? offset)%Z eqn:E0.
  { apply Z.leb_le in E0. assert (c = []) as -> by (destruct c; [done|cbn in *; lia]).
    exists ds. rewrite E. split; [done|]. cbn. rewrite Hd. by rewrite Z.add_0_r. }
  destruct (_ =? 0)%Z eqn:E1.
  { apply Z.eqb_eq in E1. exists []. split; [done|]. rewrite E1. cbn. by rewrite take_0. }
  apply Z.eqb_neq in E1. rewrite (proj2 (Z.leb_le (0 + _) _)) by lia.
  destruct (_ <? _)%Z eqn:E2.
  - apply Z.ltb_lt in E2. change (list_fmap _ _ Ok cs) with (Ok (E := io_error) <$> cs). rewrite E.
    eexists (_ :: ds). split; [done|]. cbn [concat]. rewrite Hd. unfold slice. cbn [Z.to_nat]. rewrite drop_0, take_app, Nat.sub_0_r.
    f_equal.
    + destruct (decide (len - Z.min (sent - offset) len ≤ Z.of_nat (length c))%Z).
      * f_equal. lia.
      * rewrite !take_ge by lia. done.
    + f_equal. lia.
  - apply Z.ltb_ge in E2. assert (c = []) as -> by (destruct c; [done|cbn in *; lia]).
    exists ds. change (list_fmap _ _ Ok cs) with (Ok (E := io_error) <$> cs). rewrite E. split; [done|]. cbn. rewrite Hd.
    by rewrite Z.add_0_r.
Qed.

Lemma range_exact cs : ∀ offset len sent, (0 ≤ sent)%Z → (0 ≤ len)%Z → (offset + len ≤ u64_max)%Z → (0 ≤ offset)%Z →
  (sent + Z.of_nat (length (concat cs)) ≤ u64_max)%Z → (sent ≤ offset)%Z →
  ∃ ds, create_range_stream (Ok <$> cs) offset len sent = Ok <$> ds ∧
    concat ds = part (offset - sent) len (concat cs).
Proof.
  induction cs as [|c cs IH]; intros offset len sent Hs Hl Hm Ho Hsum Hle.
  { exists []. unfold part. cbn. by rewrite drop_nil, take_nil. }
  cbn [concat] in Hsum. rewrite length_app in Hsum. cbn [fmap list_fmap create_range_stream]. unfold add_u64.
  change (list_fmap _ _ Ok cs) with (Ok (E := io_error) <$> cs).
  rewrite (proj2 (Z.leb_le (sent + _) u64_max)) by lia.
  destruct (_ <=? offset)%Z eqn:E0.
  { apply Z.leb_le in E0. destruct (IH offset len (sent + Z.of_nat (length c))%Z) as (ds & -> & Hd); [lia..|].
    exists ds. split; [done|]. rewrite Hd. unfold part. cbn [concat]. rewrite drop_app_ge by lia. do 2 f_equal. lia. }
  apply Z.leb_gt in E0. rewrite Z.max_l, Z.min_l, Z.sub_0_r by lia.
  destruct (len =? 0)%Z eqn:E1.
  { apply Z.eqb_eq in E1 as ->. exists []. split; [done|]. unfold part. by rewrite take_0. }
  apply Z.eqb_neq in E1. set (start := if (sent <? offset)%Z then (offset - sent)%Z else 0%Z).
  assert (start = offset - sent)%Z as -> by (unfold start; destruct (Z.ltb_spec sent offset); lia).
  rewrite (proj2 (Z.leb_le (offset - sent + len) u64_max)) by lia. rewrite (proj2 (Z.ltb_lt _ _)) by lia.
  destruct (range_inside cs offset len (sent + Z.of_nat (length c))%Z) as (ds & -> & Hd); [lia..|].
  eexists (_ :: ds). split; [done|]. cbn [concat]. rewrite Hd. unfold slice, part.
  rewrite drop_app_le by lia. rewrite take_app, length_drop. f_equal.
  - destruct (decide (offset - sent + len ≤ Z.of_nat (length c))%Z).
    + f_equal. lia.
    + rewrite !take_ge; [done|rewrite length_drop; lia..].
  - f_equal. lia.
Qed.

(** ** The text of a narinfo *)

(** How the text is read: a line for each field, in order. *)
Definition field (prefix : bytes) (ls : list bytes) : option (bytes * list bytes) :=
  match ls with
  | l :: ls => match strip_prefix prefix l with Some v => Some (v, ls) | None => None end
  | [] => None
  end.

Definition opt_field (prefix : bytes) (ls : list bytes) : option bytes * list bytes :=
  match field prefix ls with Some (v, ls) => (Some v, ls) | None => (None, ls) end.

Fixpoint fields (prefix : bytes) (ls : list bytes) : list bytes * list bytes :=
  match ls with
  | l :: ls' =>
      match strip_prefix prefix l with
      | Some v => let '(vs, rest) := fields prefix ls' in (v :: vs, rest)
      | None => ([], ls)
      end
  | [] => ([], [])
  end.

Definition parse_narinfo (text : bytes) : option NarInfo :=
  '(store_path, ls) ← field (str "StorePath: ") (split_all x0a text);
  '(url, ls) ← field (str "URL: ") ls;
  '(compression, ls) ← field (str "Compression: ") ls;
  '(file_hash, ls) ← field (str "FileHash: ") ls;
  '(file_size, ls) ← field (str "FileSize: ") ls;
  '(nar_hash, ls) ← field (str "NarHash: ") ls;
  '(nar_size, ls) ← field (str "NarSize: ") ls;
  let '(references, ls) := opt_field (str "References:") ls in
  let '(deriver, ls) := opt_field (str "Deriver: ") ls in
  let '(sigs, ls) := fields (str "Sig: ") ls in
  let '(ca, ls) := opt_field (str "CA: ") ls in
  if decide (ls = [[]] ∧ file_hash = nar_hash ∧ file_size = nar_size)
  then Some (mk_narinfo store_path url compression nar_hash (dec_value nar_size)
         (default [] ((λ r, tail (split_all " " r)) <$> references)) deriver sigs ca)
  else None.

(** Fields that fit on a line. *)
Definition line_ok (s : bytes) : Prop := x0a ∉ s.

Definition narinfo_ok (n : NarInfo) : Prop :=
  line_ok (ni_store_path n) ∧ line_ok (ni_url n) ∧ line_ok (ni_compression n) ∧ line_ok (ni_nar_hash n) ∧
  is_u64 (ni_nar_size n) ∧ Forall (λ r, line_ok r ∧ (" "%byte ∉ r)) (ni_references n) ∧
  (∀ d, ni_deriver n = Some d → line_ok d) ∧ Forall line_ok (ni_sigs n) ∧ (∀ c, ni_ca n = Some c → line_ok c).

(** The text as a list of lines. *)
Definition lines_of (l : list (bytes * bytes)) : bytes := l ≫= λ x, push_line x.1 x.2.

Lemma split_lines l : Forall (λ x, line_ok x.1 ∧ line_ok x.2) l →
  split_all x0a (lines_of l) = ((λ x, x.1 ++ x.2) <$> l) ++ [[]].
Proof.
  induction l as [|[p v] l IH]; [done|]. intros [[Hp Hv] Hl]%Forall_cons. cbn in Hp, Hv.
  change (lines_of ((p, v) :: l)) with (push_line p v ++ lines_of l). unfold push_line.
  rewrite <-!app_assoc. cbn [app]. rewrite app_assoc, split_all_app by set_solver. by rewrite IH.
Qed.

Definition narinfo_lines (n : NarInfo) : list (bytes * bytes) :=
  [(str "StorePath: ", ni_store_path n); (str "URL: ", ni_url n); (str "Compression: ", ni_compression n);
   (str "FileHash: ", ni_nar_hash n); (str "FileSize: ", u64_to_string (ni_nar_size n));
   (str "NarHash: ", ni_nar_hash n); (str "NarSize: ", u64_to_string (ni_nar_size n))] ++
  (if ni_references n is [] then [] else [(str "References:", ni_references n ≫= λ r, " "%byte :: r)]) ++
  (if ni_deriver n is Some drv then [(str "Deriver: ", drv)] else []) ++
  (pair (str "Sig: ") <$> ni_sigs n) ++ (if ni_ca n is Some ca then [(str "CA: ", ca)] else []).

Lemma lines_of_app l l' : lines_of (l ++ l') = lines_of l ++ lines_of l'.
Proof. apply bind_app. Qed.

Lemma format_lines n : format_narinfo_txt n = lines_of (narinfo_lines n).
Proof.
  unfold format_narinfo_txt, narinfo_lines. rewrite !lines_of_app.
  assert (lines_of (pair (str "Sig: ") <$> ni_sigs n) = push_lines (str "Sig: ") (ni_sigs n)) as ->.
  { unfold lines_of, push_lines. induction (ni_sigs n) as [|g gs IH]; [done|]. cbn in *. by rewrite IH. }
  unfold lines_of at 1. cbn [mbind list_bind fst snd]. rewrite app_nil_r, <-!app_assoc. do 7 f_equal.
  f_equal; [by destruct (ni_references n); [|cbn; rewrite !app_nil_r]|].
  f_equal; [by destruct (ni_deriver n); [cbn; rewrite app_nil_r|]|].
  f_equal. by destruct (ni_ca n); [cbn; rewrite app_nil_r|].
Qed.

Lemma field_here p v ls : field p ((p ++ v) :: ls) = Some (v, ls).
Proof. cbn. by rewrite strip_prefix_app. Qed.

Lemma fields_here p vs rest : match rest with l :: _ => strip_prefix p l = None | [] => True end →
  fields p (((λ v, p ++ v) <$> vs) ++ rest) = (vs, rest).
Proof.
  intros Hr. induction vs as [|v vs IH]; cbn [fmap list_fmap app fields].
  - destruct rest as [|l rest]; [done|]. cbn. by rewrite Hr.
  - rewrite strip_prefix_app. by rewrite IH.
Qed.

Lemma split_references rs : rs ≠ [] → Forall (λ r, " "%byte ∉ r) rs →
  tail (split_all " " (rs ≫= λ r, " "%byte :: r)) = rs.
Proof.
  intros Hne Hrs. destruct rs as [|r rs]; [done|]. clear Hne. cbn [mbind list_bind app]. cbn [split_all].
  rewrite decide_True by done. cbn [tail]. apply Forall_cons in Hrs as [Hr Hrs].
  change (list_bind _ _ (λ r, " "%byte :: r) rs) with (rs ≫= λ r, " "%byte :: r).
  revert r Hr. induction rs as [|r' rs IH]; intros r Hr; cbn [mbind list_bind].
  - rewrite app_nil_r. by apply split_all_single.
  - apply Forall_cons in Hrs as [Hr' Hrs]. cbn [app]. rewrite split_all_app by done. f_equal. by apply IH.
Qed.

Lemma u64_text_line n : is_u64 n → line_ok (u64_to_string n).
Proof.
  intros Hn. apply dec_to_string_plain; [unfold is_u64, u64_modulus in Hn; cbn; lia|].
  vm_compute. intros [H _]. by apply H.
Qed.

Lemma narinfo_lines_ok n : narinfo_ok n → Forall (λ x, line_ok x.1 ∧ line_ok x.2) (narinfo_lines n).
Proof.
  intros (H1 & H2 & H3 & H4 & H5 & H6 & H7 & H8 & H9). pose proof (u64_text_line _ H5) as Hu.
  assert (∀ s, forallb (λ b, negb (bool_decide (b = x0a))) s = true → line_ok s) as Hl.
  { intros s Hs. unfold line_ok. rewrite forallb_forall in Hs. intros Hin%list_elem_of_In%Hs. by rewrite bool_decide_true in Hin. }
  unfold narinfo_lines. rewrite !Forall_app. split_and!.
  - repeat (apply Forall_cons; split); [..|by apply Forall_nil]; cbn [fst snd]; (split; [by apply Hl|done]).
  - destruct (ni_references n) as [|r rs] eqn:E; [by apply Forall_nil|]. apply Forall_singleton. split; [by apply Hl|].
    unfold line_ok. cbn [snd]. rewrite list_elem_of_bind. intros (x & Hx & Hin). rewrite Forall_forall in H6.
    apply H6 in Hin as [Hin _]. unfold line_ok in Hin. set_solver.
  - destruct (ni_deriver n) as [d|]; [|by apply Forall_nil]. apply Forall_singleton. split; [by apply Hl|by apply H7].
  - apply Forall_fmap. eapply Forall_impl; [exact H8|]. intros g Hg. split; [by apply Hl|done].
  - destruct (ni_ca n) as [d|]; [|by apply Forall_nil]. apply Forall_singleton. split; [by apply Hl|by apply H9].
Qed.

Definition opt_line (p : bytes) (o : option bytes) : list bytes :=
  match o with Some v => [p ++ v] | None => [] end.

(** No line of that field comes first. *)
Definition not_first (p : bytes) (ls : list bytes) : Prop :=
  match ls with l :: _ => strip_prefix p l = None | [] => True end.

Lemma opt_field_here p o rest : not_first p rest → opt_field p (opt_line p o ++ rest) = (o, rest).
Proof.
  intros Hr. unfold opt_field. destruct o as [v|].
  - cbn [opt_line app]. by rewrite field_here.
  - cbn [opt_line app]. destruct rest as [|l rest]; [done|]. cbn [field]. by rewrite Hr.
Qed.

Definition references_line (rs : list bytes) : option bytes :=
  if rs is [] then None else Some (rs ≫= λ r, " "%byte :: r).

(** The lines after the first seven. *)
Lemma rest_lines n :
  drop 7 ((λ x, x.1 ++ x.2) <$> narinfo_lines n) =
    opt_line (str "References:") (references_line (ni_references n)) ++ opt_line (str "Deriver: ") (ni_deriver n) ++
    ((λ v, str "Sig: " ++ v) <$> ni_sigs n) ++ opt_line (str "CA: ") (ni_ca n).
Proof.
  unfold narinfo_lines. rewrite !fmap_app. rewrite drop_app_ge by done. cbn [length fmap list_fmap Nat.sub drop].
  rewrite <-list_fmap_compose. destruct (ni_references n), (ni_deriver n), (ni_ca n); done.
Qed.

(** The text of a narinfo says all of it: a reader that takes the lines one
    by one gets every field back. *)
Theorem narinfo_text_roundtrip (n : NarInfo) :
  narinfo_ok n → parse_narinfo (format_narinfo_txt n) = Some n.
Proof.
  intros Hn. rewrite format_lines. unfold parse_narinfo. rewrite split_lines by by apply narinfo_lines_ok.
  destruct Hn as (_ & _ & _ & _ & Hu & Hr & _).
  rewrite <-(take_drop 7 ((λ x, x.1 ++ x.2) <$> narinfo_lines n)), rest_lines. rewrite <-!app_assoc.
  unfold narinfo_lines at 1. cbn [fmap list_fmap app take fst snd].
  do 7 (rewrite field_here; cbn [mbind option_bind]).
  rewrite take_0. cbn [app]. rewrite opt_field_here; [|by destruct (ni_deriver n), (ni_sigs n), (ni_ca n)].
  rewrite opt_field_here; [|by destruct (ni_sigs n), (ni_ca n)].
  rewrite fields_here; [|by destruct (ni_ca n)]. rewrite opt_field_here by done. rewrite decide_True by done.
  unfold u64_to_string. rewrite dec_to_string_value by (unfold is_u64, u64_modulus in Hu; cbn; lia).
  assert (default [] ((λ r, tail (split_all " " r)) <$> references_line (ni_references n)) = ni_references n) as ->.
  { destruct (ni_references n) as [|r rs]; [done|]. unfold references_line, default. cbn [fmap option_fmap option_map].
    apply split_references; [done|]. eapply Forall_impl; [exact Hr|]. by intros x [_ ?]. }
  by destruct n.
Qed.

(** ** Headers *)

Lemma header_here name v hs : (name, v) ∈ insert_header name v hs.
Proof. unfold insert_header. rewrite elem_of_app, list_elem_of_singleton. by right. Qed.

Lemma header_kept name v hs x : x.1 ≠ name → x ∈ hs → x ∈ insert_header name v hs.
Proof. intros Hx Hin. unfold insert_header. rewrite elem_of_app, list_elem_of_filter. by left. Qed.

(** ** Handlers *)

Section handlers.
Context {DE : DataEncoding} {DL : DataEncodingLaws} {DG : DigestLib} {SA : StructuredAttrsLib}.
Context {ED : Ed25519} {EL : Ed25519Laws} {ET : ErrorText} {CT : CacheText} {TM : Toml}.

(** The data of a path that have a text. *)
Definition printable (v : UnkeyedValidPathInfo) : Prop :=
  (∀ d, vi_deriver v = Some d → path_wf d) ∧ Sha256_wf (nar_hash_sha256 (vi_nar_hash v)) ∧
  Forall path_wf (elems (vi_references v)) ∧ is_u64 (u64_val (vi_nar_size v)) ∧
  Forall signature_wf (elems (vi_signatures v)) ∧ (∀ ca, vi_ca v = Some ca → CA_wf ca).

(** The hash as it stands in URLs. *)
Definition bare_hash (v : UnkeyedValidPathInfo) : bytes :=
  encoded NixBase32 (sha256_data (nar_hash_sha256 (vi_nar_hash v))).

Lemma Base32_fmt_bare v : Sha256_wf (nar_hash_sha256 (vi_nar_hash v)) → ∀ alternate,
  Base32_fmt alternate (vi_nar_hash v) = Ok (if alternate then bare_hash v else str "sha256:" ++ bare_hash v).
Proof using DL.
  intros Hh alternate. pose proof (display_eq NixBase32 alternate (vi_nar_hash v) Hh) as E. cbn [display] in E.
  rewrite E. by destruct alternate.
Qed.

Lemma bare_hash_length v : Sha256_wf (nar_hash_sha256 (vi_nar_hash v)) → length (bare_hash v) = 52.
Proof using DL. intros Hh. unfold bare_hash. rewrite length_encoded, Hh. done. Qed.

Lemma to_strings_ok {A} (f : A → res DecodePartial bytes) (g : A → bytes) l :
  Forall (λ x, f x = Ok (g x)) l → to_strings f l = Ok (g <$> l).
Proof. induction l as [|x l IH]; [done|]. intros [Hx Hl]%Forall_cons. cbn. rewrite Hx. cbn. by rewrite IH. Qed.

Lemma opt_string_ok {A} (f : A → res DecodePartial bytes) (g : A → bytes) (o : option A) :
  (∀ x, o = Some x → f x = Ok (g x)) → opt_string f o = Ok (g <$> o).
Proof. intros Hf. destruct o as [x|]; [|done]. cbn. by rewrite Hf. Qed.

(** The signatures of the keys. *)
Definition signature_of (m : bytes) (k : SecretKey) : Signature := mk_signature (sk_name k) (ed_sign (sk_key k) m).

Lemma sign_all_ok keys m : Forall (λ k, ":"%byte ∉ sk_name k) keys →
  sign_all keys m = Ok (signature_text <$> (signature_of m <$> keys)).
Proof using DL EL.
  induction keys as [|k ks IH]; [done|]. intros [Hk Hks]%Forall_cons.
  change (sign_all (k :: ks) m) with
    (g ← sign (E := CacheError) k m; s ← unwrap (Signature_fmt g); ss ← sign_all ks m; Ok (s :: ss)).
  unfold sign at 1. rewrite decide_True by apply length_ed_sign. cbn [mbind res_bind].
  rewrite Signature_fmt_eq by (split; [done|apply length_ed_sign]). cbn [mbind res_bind unwrap].
  by rewrite IH.
Qed.

(** The narinfo of a path. *)
Definition the_narinfo (vs : bytes) (p : StorePath) (hash : bytes) (keys : list SecretKey) (v : UnkeyedValidPathInfo) : NarInfo :=
  let nar_hash := str "sha256:" ++ bare_hash v in
  let m := fingerprint_text vs p nar_hash (u64_val (vi_nar_size v)) (elems (vi_references v)) in
  mk_narinfo (full_text vs p) (str "nar/" ++ bare_hash v ++ str ".nar?hash=" ++ hash) (str "none") nar_hash
    (u64_val (vi_nar_size v)) (path_text <$> elems (vi_references v)) (path_text <$> vi_deriver v)
    (signature_text <$> (if keys is [] then elems (vi_signatures v) else signature_of m <$> keys))
    (CA_text <$> vi_ca v).

Lemma narinfo_of_ok vs p hash keys v :
  is_utf8 vs = true → path_wf p → printable v → Forall (λ k, ":"%byte ∉ sk_name k) keys →
  narinfo_of vs p hash keys v = Ok (the_narinfo vs p hash keys v).
Proof using DL EL.
  intros Hu Hp (Hd & Hh & Hr & Hn & Hs & Hca) Hk. unfold narinfo_of. rewrite !Base32_fmt_bare by done.
  cbn [unwrap mbind res_bind]. rewrite StorePath_fmt_eq by done. cbn [unwrap mbind res_bind].
  rewrite (opt_string_ok _ path_text) by (intros x Hx; by apply StorePath_fmt_eq, Hd). cbn [mbind res_bind].
  rewrite (opt_string_ok _ CA_text) by (intros x Hx; by apply CA_to_string_eq, Hca). cbn [mbind res_bind].
  rewrite (to_strings_ok _ path_text).
  2:{ eapply Forall_impl; [exact Hr|]. intros x. apply StorePath_fmt_eq. }
  cbn [mbind res_bind]. rewrite Hu. cbn [mbind res_bind]. rewrite fingerprint_path_eq by done.
  rewrite strip_prefix_app. rewrite decide_True by (rewrite length_app, bare_hash_length by done; done).
  cbn [Prelude.map_err mbind res_bind]. rewrite sign_all_ok by done. cbn [mbind res_bind].
  unfold the_narinfo. destruct keys as [|k ks].
  - cbn [fmap list_fmap]. rewrite (to_strings_ok _ signature_text).
    + done.
    + eapply Forall_impl; [exact Hs|]. intros x. apply Signature_fmt_eq.
  - done.
Qed.

Lemma key_names f paths keys : Forall2 (key_in f) paths keys → Forall (λ k, ":"%byte ∉ sk_name k) keys.
Proof.
  induction 1 as [|p k ps ks (t & _ & Ht) _ IH]; [constructor|]. constructor; [|done].
  by apply SecretKey_from_str_ok in Ht as [? _].
Qed.

(** C12. A narinfo of a server is signed by each of its keys: for every key file
    of the configuration that was loaded, there is a signature in the narinfo
    that the public key of that file verifies for the fingerprint of exactly
    the path, hash, size and references that the narinfo gives. *)
Theorem narinfo_signed (metrics : bool) (e : Env) (c : Config) (p : StorePath) (hash : bytes) (v : UnkeyedValidPathInfo) :
  load metrics e = Ok c → is_utf8 (virtual_store (store c)) = true → path_wf p → printable v →
  ∃ n, narinfo_of (virtual_store (store c)) p hash (secret_keys c) v = Ok n ∧
    ni_store_path n = full_text (virtual_store (store c)) p ∧ ni_references n = path_text <$> elems (vi_references v) ∧
    ∀ file, file ∈ sign_key_paths c → ∃ k public m g, key_in (env_fs e) file k ∧
      to_public_key (E := CacheError) k = Ok public ∧
      fingerprint_path (virtual_store (store c)) p (ni_nar_hash n) (ni_nar_size n) (elems (vi_references v)) = Ok m ∧
      signature_text g ∈ ni_sigs n ∧ Signature_from_str (signature_text g) = Ok g ∧
      key_name g = pk_name public ∧ verify public m g = true.
Proof using DL EL.
  intros Hc Hu Hp Hv. pose proof (loaded_keys _ _ _ Hc) as Hkeys. pose proof (key_names _ _ _ Hkeys) as Hk.
  exists (the_narinfo (virtual_store (store c)) p hash (secret_keys c) v). split; [by apply narinfo_of_ok|].
  split; [done|]. split; [done|]. intros file (i & Hi)%list_elem_of_lookup.
  destruct (Forall2_lookup_l _ _ _ _ _ Hkeys Hi) as (k & Hin%list_elem_of_lookup_2 & Hkf).
  destruct Hv as (_ & Hh & Hr & _). rewrite Forall_forall in Hk.
  eexists k, _, _, (signature_of _ k). split_and!.
  - done.
  - unfold to_public_key. by rewrite decide_True by apply length_public_key.
  - rewrite fingerprint_path_eq by done. cbn [ni_nar_hash the_narinfo]. rewrite strip_prefix_app.
    by rewrite decide_True by (rewrite length_app, bare_hash_length by done; done).
  - cbn [ni_sigs the_narinfo]. apply list_elem_of_fmap_2. destruct (secret_keys c); [inversion Hin|].
    by apply list_elem_of_fmap_2.
  - apply Signature_from_text. split; [by apply Hk|apply length_ed_sign].
  - done.
  - apply verify_sign.
Qed.

Section requests.
Context {St : Type} {HS : DaemonStore St} {HQ : Acquire (St := St)} {HH : Http}.
Context (NarByteStream_new : PathBuf → list (res io_error bytes)).

(** The daemon has a connection, and in its state [s] knows the path [p] by its
    hash and its data [v]. *)
Record knows (s : St) (hash : bytes) (p : StorePath) (v : UnkeyedValidPathInfo) : Prop := {
  kn_acquire : pool_acquire s = (s, Ok tt);
  kn_path : ∃ h logs, decode_digest hash = Ok h ∧ store_call (query_path_from_hash_part h) s = (s, (logs, Ok (Some p)));
  kn_info : ∃ logs, store_call (query_path_info p) s = (s, (logs, Ok (Some v)))
}.

Lemma acquire_ok s hash p v : knows s hash p v → acquire s = (s, Ok tt).
Proof. intros Hk. unfold acquire, map_err. by rewrite (kn_acquire _ _ _ _ Hk). Qed.

Lemma client_ok {T} (e : StoreE T) s logs (r : res DaemonError T) :
  store_call e s = (s, (logs, r)) → client e s = (s, r).
Proof. intros E. unfold client. by rewrite E. Qed.

Lemma nixhash_ok s hash p v : knows s hash p v → nixhash hash s = (s, Ok (Some p)).
Proof.
  intros Hk. destruct (kn_path _ _ _ _ Hk) as (h & logs & Eh & Ec). unfold nixhash, parse_hash_part.
  rewrite (eff_bind_Ok _ _ s s h) by (unfold eff_lift; by rewrite Eh).
  rewrite (eff_bind_Ok _ _ s s tt) by by eapply acquire_ok.
  unfold map_err. by rewrite (client_ok _ _ _ _ Ec).
Qed.

Definition archive_path (settings : Config) (p : StorePath) : PathBuf :=
  path_join (real_store (store settings)) (path_text p).

Lemma get_real_path_ok {E} settings p : path_wf p →
  get_real_path (E := E) (store settings) p = Ok (archive_path settings p).
Proof using DL.
  intros Hp. unfold get_real_path. rewrite StorePath_fmt_eq by done. cbn. unfold archive_path, real_store.
  by destruct (st_real_store (store settings)).
Qed.

(** The handler up to the response. *)
Lemma nar_get_ok settings s hash p v narhash range : knows s hash p v → path_wf p →
  Sha256_wf (nar_hash_sha256 (vi_nar_hash v)) →
  nar_get NarByteStream_new settings (mk_path_params narhash None) range (Some hash) s =
    (s, if bool_decide (narhash ≠ bare_hash v) then Ok (not_found cache_control_no_store (str "hash mismatch detected"))
        else archive_response NarByteStream_new settings range (u64_val (vi_nar_size v)) (archive_path settings p)).
Proof using DL.
  intros Hk Hp Hh. destruct (kn_path _ _ _ _ Hk) as (h & logs & Eh & Ec). destruct (kn_info _ _ _ _ Hk) as (logs' & Ei).
  pose proof (acquire_ok _ _ _ _ Hk) as Ea. unfold nar_get, parse_hash_part.
  rewrite (eff_bind_Ok _ _ s s h) by (unfold eff_lift; by rewrite Eh).
  rewrite (eff_bind_Ok _ _ s s tt) by done.
  rewrite (eff_bind_Ok _ _ s s (Some p)) by (unfold map_err; by rewrite (client_ok _ _ _ _ Ec)).
  rewrite (eff_bind_Ok _ _ s s tt) by done.
  rewrite (eff_bind_Ok _ _ s s (Some v)) by (unfold map_err; by rewrite (client_ok _ _ _ _ Ei)).
  rewrite (eff_bind_Ok _ _ s s (bare_hash v)) by (unfold eff_lift; by rewrite Base32_fmt_bare).
  cbn [pp_narhash]. case_bool_decide; [done|].
  rewrite (eff_bind_Ok _ _ s s (archive_path settings p)) by (unfold eff_lift; by rewrite get_real_path_ok). done.
Qed.

(** C11. The narinfo of a path leads to its archive: asked for the hash of a
    path that the daemon knows, the cache answers with the text of its narinfo,
    and the URL in it, asked of the same cache, gives the byte stream of the
    archive at the path's place in the store with the size of the narinfo. With
    another NAR hash the archive is not given. *)
Theorem narinfo_leads_to_nar (settings : Config) (s : St) (hash : bytes) (p : StorePath) (v : UnkeyedValidPathInfo) :
  knows s hash p v → is_utf8 (virtual_store (store settings)) = true → path_wf p → printable v →
  Forall (λ k, ":"%byte ∉ sk_name k) (secret_keys settings) →
  ∃ n narhash r r', narinfo_get settings hash false s = (s, Ok r) ∧ rs_status r = 200%Z ∧
    rs_body r = BodyBytes (format_narinfo_txt n) ∧ ni_store_path n = full_text (virtual_store (store settings)) p ∧
    ni_url n = str "nar/" ++ narhash ++ str ".nar?hash=" ++ hash ∧ length narhash = 52 ∧
    nar_get NarByteStream_new settings (mk_path_params narhash None) None (Some hash) s = (s, Ok r') ∧
    rs_status r' = 200%Z ∧ rs_body r' = SizedStream (ni_nar_size n) (NarByteStream_new (archive_path settings p)) ∧
    ∀ other range, other ≠ narhash →
      ∃ r'', nar_get NarByteStream_new settings (mk_path_params other None) range (Some hash) s = (s, Ok r'') ∧
        rs_status r'' = 404%Z.
Proof using DL EL.
  intros Hk Hu Hp Hv Hkeys. destruct (id Hv) as (_ & Hh & _). destruct (kn_info _ _ _ _ Hk) as (logs & Ei).
  exists (the_narinfo (virtual_store (store settings)) p hash (secret_keys settings) v), (bare_hash v).
  eexists _, _. split.
  { unfold narinfo_get. rewrite (eff_bind_Ok _ _ s s (Some p)) by (unfold map_err; by rewrite (nixhash_ok _ _ _ _ Hk)).
    unfold query_narinfo, to_virtual_path.
    rewrite (eff_bind_Ok _ _ s s (Some (the_narinfo (virtual_store (store settings)) p hash (secret_keys settings) v))).
    - done.
    - rewrite (eff_bind_Ok _ _ s s tt) by by eapply acquire_ok.
      rewrite (eff_bind_Ok _ _ s s (Some v)) by (unfold map_err; by rewrite (client_ok _ _ _ _ Ei)).
      rewrite (eff_bind_Ok _ _ s s (the_narinfo (virtual_store (store settings)) p hash (secret_keys settings) v)); [done|].
      unfold eff_lift. by rewrite narinfo_of_ok. }
  split; [done|]. split; [done|]. split; [done|]. split; [done|]. split; [by apply bare_hash_length|]. split.
  { rewrite (nar_get_ok settings s hash p v) by done. by rewrite bool_decide_false by auto. }
  split; [done|]. split; [done|]. intros other range Hne. eexists. split.
  - rewrite (nar_get_ok settings s hash p v) by done. by rewrite bool_decide_true by done.
  - done.
Qed.

(** C13. A request for a range, when the package that parses the header gives a
    part [offset, offset + len) of the archive first: the body is exactly that
    part, whatever the chunks of the byte stream, of the size it declares. *)
Theorem nar_range_exact (settings : Config) (s : St) (hash : bytes) (p : StorePath) (v : UnkeyedValidPathInfo)
    (header text : bytes) (offset len : Z) (more : list (Z * Z)) (cs : list bytes) :
  knows s hash p v → path_wf p → Sha256_wf (nar_hash_sha256 (vi_nar_hash v)) → is_u64 (u64_val (vi_nar_size v)) →
  NarByteStream_new (archive_path settings p) = Ok <$> cs →
  Z.of_nat (length (concat cs)) = u64_val (vi_nar_size v) →
  to_str header = Some text → http_range_parse text (u64_val (vi_nar_size v)) = Some ((offset, len) :: more) →
  (0 ≤ offset ∧ 0 < len ∧ offset + len ≤ u64_val (vi_nar_size v))%Z →
  ∃ r ds, nar_get NarByteStream_new settings (mk_path_params (bare_hash v) None) (Some header) (Some hash) s = (s, Ok r) ∧
    rs_body r = SizedStream len (Ok <$> ds) ∧ concat ds = part offset len (concat cs) ∧
    Z.of_nat (length (concat ds)) = len ∧
    (CONTENT_RANGE, HText (str "bytes " ++ u64_to_string offset ++ str "-" ++ u64_to_string (offset + len - 1) ++
      str "/" ++ u64_to_string (u64_val (vi_nar_size v)))) ∈ rs_headers r.
Proof using DL.
  intros Hk Hp Hh Hsize Hcs Hlen Hstr Hparse (Ho & Hl & Hs). unfold is_u64, u64_modulus in Hsize.
  destruct (range_exact cs offset len 0) as (ds & E & Hd); [unfold u64_max; lia..|].
  rewrite Z.sub_0_r in Hd. eexists _, ds. split.
  { rewrite (nar_get_ok settings s hash p v) by done. rewrite bool_decide_false by auto.
    unfold archive_response. rewrite Hstr, Hparse. unfold add_u64, sub_u64.
    rewrite (proj2 (Z.leb_le (offset + len) _)) by (unfold u64_max; lia). cbn [mbind res_bind].
    rewrite (proj2 (Z.leb_le 1 _)) by lia. cbn [mbind res_bind]. rewrite Hcs, E. reflexivity. }
  split; [done|]. split; [done|]. split.
  - rewrite Hd. unfold part. rewrite length_take, length_drop. lia.
  - cbn [rs_headers]. unfold archive_headers. do 3 (apply header_kept; [done|]). apply header_here.
Qed.
End requests.
End handlers.

(** ** Concrete uses *)

#[local] Existing Instance rowid_order.
#[local] Existing Instance rowid_laws.
#[local] Existing Instance Signature.open_scheme.
#[local] Existing Instance Signature.open_scheme_laws.

#[export] Instance plain_cache_text : CacheText := {|
  store_path_error_text _ := str "bad hash";
  utf8_error_text _ := str "not UTF-8"
|}.

(** A pool that always has a connection; a package that gives one range. *)
#[export] Instance always_acquired : Acquire (St := LocalStoreHandler) := λ s, (s, Ok tt).

#[export] Instance one_range : Http := {|
  to_str b := Some b;
  http_range_parse _ _ := Some [(2, 5)%Z]
|}.

Definition sample_hash : bytes := hash_text (sp_hash sample_path).

Definition local_handler : LocalStoreHandler := mk_handler (str "/nix/store") local_db.

(** A configuration with one key file and another place for the files. *)
#[local] Instance key_toml : Toml := {|
  toml_table _ := Ok [(str "sign_key_path", TString (str "/key")); (str "real_nix_store", TString (str "/mnt/store"))];
  unknown_field f := str "unknown field " ++ f;
  invalid_type f _ := str "invalid type for " ++ f
|}.

Definition sample_key_env : Env :=
  mk_env (λ name, if decide (name = str "CONFIG_FILE") then Some (str "/c") else None)
    (mk_fs (<[ [str "c"] := IFile 420 [] ]> {[ [str "key"] := IFile 256 (SecretKey_fmt sample_secret ++ [x0a]) ]}) [] 18) None.

Definition sample_config : Config :=
  match load false sample_key_env with
  | Ok c => c
  | _ => mk_cache_config [] 0 0 0 [] None false None [] None None [] []
           (mk_store [] None (mk_pool [] [] (with_size 1 false (Pool.PoolConfig_default None))))
  end.

Lemma sample_config_loaded : load false sample_key_env = Ok sample_config.
Proof. vm_compute. reflexivity. Qed.

Definition sample_archive (p : PathBuf) : list (res io_error bytes) := Ok <$> [str "abc"; str "d"; str "efghi"].

Lemma local_knows : knows local_handler sample_hash sample_path local_info.
Proof.
  split; [reflexivity|..].
  - exists (sp_hash sample_path). eexists. split; [vm_compute; reflexivity|]. vm_compute. reflexivity.
  - eexists. vm_compute. reflexivity.
Qed.

Lemma local_printable : printable local_info.
Proof.
  destruct local_info_wf as (Hd & Hh & [Hr _] & _ & Hn & [Hs _] & Hca). split_and!; [exact Hd|exact Hh|exact Hr|exact Hn| |exact Hca].
  eapply Forall_impl; [exact Hs|]. by intros x [? _].
Qed.

Lemma narinfo_text_roundtrip_witness :
  let n := mk_narinfo (str "/nix/store/abc-test") (str "nar/abc.nar?hash=test") (str "none") (str "sha256:00") 1234
    [str "abc-test"; str "def-lib"] (Some (str "ghi-test.drv")) [str "key-1:AA=="] None in
  parse_narinfo (format_narinfo_txt n) = Some n.
Proof.
  intros n. apply (narinfo_text_roundtrip n).
  assert (∀ b s, bool_decide (b ∈ s) = false → b ∉ (s : bytes)) as Hl by (intros b s Hs; exact (proj1 (bool_decide_eq_false _) Hs)).
  split_and!; try (apply Hl; vm_compute; reflexivity).
  - split; vm_compute; congruence.
  - repeat (apply Forall_cons; split); [split; apply Hl; vm_compute; reflexivity..|apply Forall_nil_2].
  - intros d [= <-]. apply Hl. vm_compute. reflexivity.
  - repeat (apply Forall_cons; split); [apply Hl; vm_compute; reflexivity|apply Forall_nil_2].
  - intros c [=].
Defined.

Lemma narinfo_signed_witness :
  sign_key_paths sample_config = [str "/key"] ∧
  ∃ n, narinfo_of (str "/nix/store") sample_path sample_hash (secret_keys sample_config) local_info = Ok n ∧
    ∀ file, file ∈ sign_key_paths sample_config → ∃ k public m g, key_in (env_fs sample_key_env) file k ∧
      to_public_key (E := CacheError) k = Ok public ∧
      fingerprint_path (str "/nix/store") sample_path (ni_nar_hash n) (ni_nar_size n) (elems (vi_references local_info)) = Ok m ∧
      signature_text g ∈ ni_sigs n ∧ verify public m g = true.
Proof.
  split; [vm_compute; reflexivity|].
  destruct (narinfo_signed false sample_key_env sample_config sample_path sample_hash local_info)
    as (n & E & _ & _ & Hk).
  - exact sample_config_loaded.
  - vm_compute. reflexivity.
  - exact sample_path_wf.
  - exact local_printable.
  - assert (virtual_store (store sample_config) = str "/nix/store") as Hs by (vm_compute; reflexivity).
    rewrite Hs in E, Hk. exists n. split; [exact E|]. intros file Hin.
    destruct (Hk file Hin) as (k & public & m & g & H0 & H1 & H2 & H3 & _ & _ & H4).
    exists k, public, m, g. split; [exact H0|]. split; [exact H1|]. split; [exact H2|]. split; [exact H3|exact H4].
Defined.

Lemma narinfo_leads_to_nar_witness :
  ∃ n narhash r r', narinfo_get sample_config sample_hash false local_handler = (local_handler, Ok r) ∧
    rs_body r = BodyBytes (format_narinfo_txt n) ∧ ni_url n = str "nar/" ++ narhash ++ str ".nar?hash=" ++ sample_hash ∧
    nar_get sample_archive sample_config (mk_path_params narhash None) None (Some sample_hash) local_handler = (local_handler, Ok r') ∧
    rs_body r' = SizedStream (ni_nar_size n) (sample_archive (archive_path sample_config sample_path)).
Proof.
  destruct (narinfo_leads_to_nar sample_archive sample_config local_handler sample_hash sample_path local_info)
    as (n & narhash & r & r' & H1 & _ & H2 & _ & H3 & _ & H4 & _ & H5 & _).
  - exact local_knows.
  - reflexivity.
  - exact sample_path_wf.
  - exact local_printable.
  - exact (key_names _ _ _ (loaded_keys _ _ _ sample_config_loaded)).
  - exists n, narhash, r, r'. split; [exact H1|]. split; [exact H2|]. split; [exact H3|]. split; [exact H4|exact H5].
Defined.

Lemma nar_range_exact_witness :
  ∃ r ds, nar_get sample_archive sample_config (mk_path_params (bare_hash local_info) None) (Some (str "bytes=2-6"))
      (Some sample_hash) local_handler = (local_handler, Ok r) ∧
    rs_body r = SizedStream 5 (Ok <$> ds) ∧ concat ds = str "cdefg".
Proof.
  destruct (nar_range_exact sample_archive sample_config local_handler sample_hash sample_path local_info
    (str "bytes=2-6") (str "bytes=2-6") 2 5 [] [str "abc"; str "d"; str "efghi"]) as (r & ds & H1 & H2 & H3 & _).
  - exact local_knows.
  - exact sample_path_wf.
  - exact (proj1 (proj2 local_info_wf)).
  - split; vm_compute; congruence.
  - reflexivity.
  - reflexivity.
  - reflexivity.
  - reflexivity.
  - vm_compute. repeat split; congruence.
  - exists r, ds. split; [exact H1|]. split; [exact H2|exact H3].
Defined.
