(* ===== verification/CacheFiles.v ===== *)
(** The handlers of the binary cache that look at files ([harmonia-cache/src]:
    narlist.rs, serve.rs, buildlog.rs) and its pages (template.rs, root.rs,
    version.rs, health.rs). The file system does not change while a request is
    answered. The texts of the templates, the escapes and [actix_files] are
    parameters. *)

From stdpp Require Import base list numbers strings gmap.
From Stdlib Require Import ZArith Lia Strings.Byte.
From S2P Require Import Prelude FileSystem Async Wire ProtoRead Version BaseEncoding Codecs Hash StorePath Signature NixIO NixCodec Utf8 WireTypes Messages Derivations Requests Logger DaemonErrors DaemonStore Lookup CacheConfig Cache.

(** ** More of [std::path] *)

(** Skipped components at the front are cut off. *)
Fixpoint trim_left (cs : list bytes) : list bytes :=
  match cs with
  | c :: cs' => if parse_single_component c is Some _ then cs else trim_left cs'
  | [] => []
  end.

Fixpoint drop_components (n : nat) (cs : list bytes) : list bytes :=
  match n, cs with
  | 0, _ => cs
  | _, [] => []
  | S n', c :: cs => if parse_single_component c is Some _ then drop_components n' cs else drop_components n cs
  end.

(** [Path::strip_prefix] with an absolute prefix. *)
Definition path_strip_prefix (p q : PathBuf) : option PathBuf :=
  if starts_with p q
  then Some (join SLASH (trim_right (trim_left (drop_components (length (components q) - 1) (body p)))))
  else None.

(** The last dot of a name: what is before and after it. *)
Fixpoint rsplit_dot (n : bytes) : option (bytes * bytes) :=
  match n with
  | [] => None
  | b :: n' =>
      match rsplit_dot n' with
      | Some (before, after) => Some (b :: before, after)
      | None => if decide (b = x2e) then Some ([], n') else None
      end
  end.

(** [rsplit_file_at_dot]: stem and extension. *)
Definition split_file_name (n : bytes) : bytes * option bytes :=
  if decide (n = DOTDOT) then (n, None) else
  match rsplit_dot n with
  | Some (b :: before, after) => (b :: before, Some after)
  | _ => (n, None)
  end.

Definition extension (p : PathBuf) : option bytes := file_name p ≫= λ n, (split_file_name n).2.

Definition with_extension (p : PathBuf) (ext : bytes) : PathBuf :=
  match file_name p with
  | Some n =>
      take (len_before_body p) p ++ join SLASH (removelast (trim_right (body p)) ++ [(split_file_name n).1]) ++
      (if ext is [] then [] else x2e :: ext)
  | None => p
  end.

(** [str::replace]. *)
Fixpoint replace_from (skip : nat) (from to s : bytes) : bytes :=
  match s with
  | [] => []
  | b :: s' =>
      match skip with
      | S skip => replace_from skip from to s'
      | 0 => if strip_prefix from s is Some _ then to ++ replace_from (length from - 1) from to s'
             else b :: replace_from 0 from to s'
      end
  end.

Definition replace (from to s : bytes) : bytes := replace_from 0 from to s.

(** ** template.rs *)

(** Texts that are compiled in: templates, style sheet and package data. *)
Class Assets : Type := {
  BASE_TEMPLATE : bytes;
  LANDING_TEMPLATE : bytes;
  LANDING_WITH_KEYS_TEMPLATE : bytes;
  DIRECTORY_TEMPLATE : bytes;
  DIRECTORY_ROW_TEMPLATE : bytes;
  TAILWIND_CSS : bytes;
  CARGO_NAME : bytes;
  CARGO_VERSION : bytes;
  CARGO_HOME_PAGE : bytes
}.

(** The order in which a [HashMap] gives its entries; [askama_escape] for HTML
    and [percent_encoding] of control characters. *)
Class PageLib : Type := {
  hash_order : list (bytes * bytes) → list (bytes * bytes);
  escape_html_entity : bytes → bytes;
  encode_controls : bytes → bytes
}.

Section pages.
Context {AS : Assets} {PG : PageLib}.

Definition placeholder (key : bytes) : bytes := str "[[" ++ key ++ str "]]".

Definition render (template : bytes) (variables : list (bytes * bytes)) : bytes :=
  fold_left (λ result kv, replace (placeholder kv.1) kv.2 result) (hash_order variables) template.

Definition render_page (title css content : bytes) : bytes :=
  render BASE_TEMPLATE [(str "title", title); (str "css", css); (str "content", content)].

Definition html (body : bytes) : HttpResponse :=
  mk_response 200 (insert_header CONTENT_TYPE (HText (str "text/html; charset=utf-8")) []) (BodyBytes body).

(** ** version.rs and health.rs *)

Definition version_get : HttpResponse := mk_response 200 [] (BodyBytes (CARGO_NAME ++ str " " ++ CARGO_VERSION)).

Definition health_get : HttpResponse := mk_response 200 [] (BodyBytes (str "OK" ++ [x0a])).

(** ** root.rs *)

Context {ED : Ed25519} {DE : DataEncoding} {HH : Http}.

(** [host] and [forwarded] are headers of the request; [scheme] is that of the
    connection. *)
Definition root_scheme (forwarded : option bytes) (scheme : bytes) : bytes :=
  match forwarded ≫= to_str with
  | Some h => match trim (hd [] (split_all "," h)) with [] => scheme | s => s end
  | None => scheme
  end.

Fixpoint public_keys (ks : list SecretKey) : res CacheError (list bytes) :=
  match ks with
  | [] => Ok []
  | k :: ks => p ← to_public_key k; rest ← public_keys ks; Ok (PublicKey_fmt p :: rest)
  end.

Definition root_get (config : Config) (forwarded host : option bytes) (scheme : bytes) : res CacheError HttpResponse :=
  let cache_url := root_scheme forwarded scheme ++ str "://" ++ default (str "cache.example.com") (host ≫= to_str) in
  let vars := [(str "version", CARGO_VERSION); (str "store", from_utf8_lossy (virtual_store (store config)));
    (str "priority", u64_to_string (priority config)); (str "homepage", CARGO_HOME_PAGE); (str "name", CARGO_NAME);
    (str "cache_url", cache_url)] in
  keys ← public_keys (secret_keys config);
  let content :=
    match keys with
    | [] => render LANDING_TEMPLATE vars
    | _ => render LANDING_WITH_KEYS_TEMPLATE (vars ++
             [(str "public_keys_cli", join " " keys);
              (str "public_keys_list", join " " ((λ k, [x22] ++ k ++ [x22]) <$> keys))])
    end in
  Ok (html (render_page (str "Nix Binary Cache - " ++ CARGO_NAME ++ str " " ++ CARGO_VERSION) TAILWIND_CSS content)).
End pages.

(** ** narlist.rs *)

Inductive NarEntry : Type :=
| Directory (entries : gmap bytes NarEntry)
| Regular (nar_offset : option Z) (size : Z) (executable : bool)
| Symlink (target : bytes).

Record NarList : Type := mk_nar_list { nl_version : Z; nl_root : NarEntry }.

(** A directory that is being read; [dir_entry] are the names still to come. *)
Record Frame : Type := mk_frame { fr_path : PathBuf; fr_nar_entry : NarEntry; fr_dir_entry : list bytes }.

Definition file_entry (mode : Z) (contents : bytes) : NarEntry :=
  Regular None (Z.of_nat (length contents)) (negb (bool_decide (Z.land mode 73 = 0%Z))).

Section files.
Context {DO : DirOrder} (f : fs).

Definition symlink_entry (p : PathBuf) : res CacheError NarEntry :=
  target ← io_context (str "Failed to read link " ++ from_utf8_lossy p) (read_link f p);
  Ok (Symlink (from_utf8_lossy target)).

Definition read_frame (p : PathBuf) : res CacheError Frame :=
  names ← io_context (str "Failed to read directory " ++ from_utf8_lossy p) (read_dir f p);
  Ok (mk_frame p (Directory ∅) names).

(** [entries.insert]; the entry of a frame is a directory. *)
Definition insert_entry (name : bytes) (e : NarEntry) (fr : Frame) : res CacheError Frame :=
  match fr_nar_entry fr with
  | Directory entries => Ok (mk_frame (fr_path fr) (Directory (<[name := e]> entries)) (fr_dir_entry fr))
  | _ => Panic
  end.

(** One turn of the loop: a new stack, or the root. *)
Definition list_step (stack : list Frame) : res CacheError (list Frame + NarEntry) :=
  match stack with
  | [] => Panic
  | fr :: below =>
      match fr_dir_entry fr with
      | name :: names =>
          let fr := mk_frame (fr_path fr) (fr_nar_entry fr) names in
          let entry_path := path_join (fr_path fr) name in
          st ← io_context (str "Failed to get metadata for " ++ from_utf8_lossy entry_path) (lstat f entry_path);
          match st with
          | IFile m c => fr ← insert_entry (from_utf8_lossy name) (file_entry m c) fr; Ok (inl (fr :: below))
          | ISymlink _ =>
              e ← symlink_entry entry_path; fr ← insert_entry (from_utf8_lossy name) e fr; Ok (inl (fr :: below))
          | IDir => new ← read_frame entry_path; Ok (inl (new :: fr :: below))
          | ISpecial => Ok (inl (fr :: below))
          end
      | [] =>
          match below with
          | up :: below =>
              match file_name (fr_path fr) with
              | Some name => up ← insert_entry (from_utf8_lossy name) (fr_nar_entry fr) up; Ok (inl (up :: below))
              | None => Err (EServe (AccessDenied (from_utf8_lossy (fr_path fr))))
              end
          | [] => Ok (inr (fr_nar_entry fr))
          end
      end
  end.

(** The loop, for as many turns as the fuel allows. *)
Fixpoint list_loop (fuel : nat) (stack : list Frame) : option (res CacheError NarEntry) :=
  match fuel with
  | O => None
  | S fuel =>
      match list_step stack with
      | Ok (inl stack) => list_loop fuel stack
      | Ok (inr e) => Some (Ok e)
      | Err e => Some (Err e)
      | Panic => Some Panic
      end
  end.

Definition get_nar_list (fuel : nat) (p : PathBuf) : option (res CacheError NarList) :=
  let finish := fmap (λ r : res CacheError NarEntry, mk_nar_list 1 <$> r) in
  match io_context (str "Failed to get symlink metadata for " ++ from_utf8_lossy p) (lstat f p) with
  | Ok (IFile m c) => finish (Some (Ok (file_entry m c)))
  | Ok (ISymlink _) => finish (Some (symlink_entry p))
  | Ok IDir =>
      match read_frame p with
      | Ok fr => finish (list_loop fuel [fr])
      | Err e => Some (Err e)
      | Panic => Some Panic
      end
  | Ok ISpecial =>
      Some (Err (EServe (ServeFailed (Other "Unsupported file type for path"))))
  | Err e => Some (Err e)
  | Panic => Some Panic
  end.

(** ** serve.rs *)

(** An answer: a response of the handler, a file that [actix_files] is to send
    (opened by its path, at a place, with its contents), or a file that is sent
    decompressed. *)
Inductive Served : Type :=
| Page (r : HttpResponse)
| NamedFile (path : PathBuf) (place : list bytes) (contents : bytes) (headers : list (bytes * header_value))
| Decompressed (contents : bytes) (headers : list (bytes * header_value)).

(** [NamedFile::open_async]; a directory is refused as it is when read. *)
Definition open_file (p : PathBuf) : res io_error Served :=
  k ← resolve f p; c ← read f p; Ok (NamedFile p k c []).

(** A number of bytes as [f64]: 53 bits, ties to even. *)
Definition round_half_even (n d : Z) : Z :=
  let q := (n / d)%Z in
  match Z.compare (2 * (n mod d)) d with
  | Lt => q
  | Gt => (q + 1)%Z
  | Eq => if Z.even q then q else (q + 1)%Z
  end.

Definition as_f64 (n : Z) : Z :=
  let d := (2 ^ Z.max 0 (Z.log2 n - 52))%Z in (round_half_even n d * d)%Z.

(** [{:.2}] of a quotient by a power of two. *)
Definition fixed2 (n d : Z) : bytes :=
  let q := round_half_even (100 * n) d in
  u64_to_string (q / 100) ++ str "." ++ u64_to_string (q / 10 mod 10) ++ u64_to_string (q mod 10).

Definition file_size (n : Z) : bytes :=
  if (n <? 1024)%Z then u64_to_string n ++ str " B"
  else if (n <? 1024 * 1024)%Z then fixed2 (as_f64 n) 1024 ++ str " KiB"
  else if (n <? 1024 * 1024 * 1024)%Z then fixed2 (as_f64 n) (1024 * 1024) ++ str " MiB"
  else fixed2 (as_f64 n) (1024 * 1024 * 1024) ++ str " GiB".

Context {AS : Assets} {PG : PageLib}.

(** The size that a directory entry has is not shown for directories; [len] is
    the number of bytes of a file, or of the target of a link. *)
Definition inode_len (i : inode) : Z :=
  match i with IFile _ c => Z.of_nat (length c) | ISymlink t => Z.of_nat (length t) | _ => 0 end.

Definition listing_row (url_prefix fs_path : PathBuf) (name : bytes) : bytes :=
  let entry_path := path_join fs_path name in
  match path_strip_prefix entry_path fs_path with
  | None => []
  | Some p =>
      let p := from_utf8_lossy (path_join url_prefix p) in
      match lstat f entry_path with
      | Ok i =>
          let shown := escape_html_entity (from_utf8_lossy name) in
          render DIRECTORY_ROW_TEMPLATE
            ((str "url", encode_controls p) ::
             (if i is IDir then [(str "name", shown ++ str "/"); (str "size", str "-")]
              else [(str "name", shown); (str "size", file_size (inode_len i))]))
      | _ => []
      end
  end.

Definition directory_listing (url_prefix fs_path real_store : PathBuf) : res CacheError HttpResponse :=
  let path_without_store := default fs_path (path_strip_prefix fs_path real_store) in
  let index_of := str "Index of " ++ escape_html_entity (from_utf8_lossy path_without_store) in
  names ← io_context (str "cannot read directory: " ++ from_utf8_lossy fs_path) (read_dir f fs_path);
  let rows := names ≫= listing_row url_prefix fs_path in
  let content := render DIRECTORY_TEMPLATE [(str "index_of", index_of); (str "rows", rows)] in
  Ok (html (render_page (str "Nix binary cache (" ++ CARGO_NAME ++ str " " ++ CARGO_VERSION ++ str ")")
        TAILWIND_CSS content)).

Context {DE : DataEncoding} {DG : DigestLib} {SA : StructuredAttrsLib} {ED : Ed25519} {ET : ErrorText} {CT : CacheText}.
Context {HH : Http} {St : Type} {HS : DaemonStore St} {HQ : Acquire (St := St)}.

(** What a path below a store path leads to. *)
Definition serve_path (settings : Config) (hash : bytes) (dir : PathBuf) (store_path : PathBuf) : res CacheError Served :=
  let whole := bool_decide (components dir = []) in
  let full_path := if whole then store_path else path_join store_path dir in
  full_path ← io_context (str "cannot resolve nix store path: " ++ from_utf8_lossy full_path) (canonicalize f full_path);
  real ← io_context (str "cannot resolve real nix store path: " ++ from_utf8_lossy (real_store (store settings)))
    (canonicalize f (real_store (store settings)));
  if negb (starts_with full_path real) then Ok (Page (mk_response 404 [] BodyNone))
  else if is_dir f full_path then
    let index_file := path_join full_path (str "index.html") in
    if (if metadata f index_file is Ok (IFile _ _) then true else false)
    then io_context (str "cannot open " ++ from_utf8_lossy index_file) (open_file index_file)
    else
      let url_prefix := path_join (str "/serve") hash in
      let url_prefix := if whole then url_prefix else path_join url_prefix dir in
      Page <$> directory_listing url_prefix full_path real
  else io_context (str "cannot open file: " ++ from_utf8_lossy full_path) (open_file full_path).

Definition serve_get (settings : Config) (hash : bytes) (dir : PathBuf) : eff CacheError St Served :=
  let dir := default dir (path_strip_prefix dir [SLASH]) in
  store_path_obj ← nixhash hash;
  match store_path_obj with
  | None => mret (Page missed)
  | Some store_path_obj =>
      store_path ← eff_lift (get_real_path (store settings) store_path_obj);
      eff_lift (serve_path settings hash dir store_path)
  end.

(** The handler of narlist.rs; the value as JSON. *)
Definition narlist_get (fuel : nat) (settings : Config) (hash : bytes) :
    eff CacheError St (option (list (bytes * header_value) * NarList) + HttpResponse) :=
  store_path ← map_err (λ e, ENarInfo (NarInfoQueryFailed
    (str "Could not query nar hash in database: " ++ CacheError_fmt e))) (nixhash hash);
  match store_path with
  | None => mret (inr missed)
  | Some store_path =>
      p ← eff_lift (get_real_path (store settings) store_path);
      match get_nar_list fuel p with
      | Some r =>
          l ← eff_lift r;
          mret (inl (Some (insert_header CONTENT_TYPE (HText (str "application/json"))
            (insert_header CACHE_CONTROL cache_control_max_age_1y []), l)))
      | None => mret (inl None)
      end
  end.

(** ** buildlog.rs *)

Definition query_drv_path (drv : bytes) : eff CacheError St (option StorePath) := nixhash (take 32 drv).

Definition get_build_log (store : PathBuf) (drv_path : StorePath) : res CacheError (option PathBuf) :=
  drv_name ← unwrap (StorePath_fmt drv_path);
  match parent store with
  | None => Ok None
  | Some p =>
      if decide (length drv_name < 2) then Panic else
      let log_path := foldl path_join p [str "var"; str "log"; str "nix"; str "drvs"; take 2 drv_name; drop 2 drv_name] in
      if exists_path f log_path then Ok (Some log_path) else
      let log_path := with_extension log_path (str "drv.bz2") in
      Ok (if exists_path f log_path then Some log_path else None)
  end.

(** [str::contains]. *)
Fixpoint contains (needle s : bytes) : bool :=
  match strip_prefix needle s with
  | Some _ => true
  | None => match s with [] => false | _ :: s => contains needle s end
  end.

Definition file_headers (hs : list (bytes * header_value)) (s : Served) : Served :=
  match s with NamedFile p k c _ => NamedFile p k c hs | s => s end.

(** The response for a log, as the client can take it. *)
Definition log_response (settings : Config) (accept_encoding : option bytes) (build_log : PathBuf) : res CacheError Served :=
  match extension build_log with
  | None => Ok (Page (mk_response 404 (insert_header CACHE_CONTROL cache_control_no_store []) BodyNone))
  | Some ext =>
      let accept := default [] (accept_encoding ≫= to_str) in
      let context := str "Failed to open build log: " ++ from_utf8_lossy build_log in
      let hs := insert_header CACHE_CONTROL cache_control_max_age_1y [] in
      file ← io_context context (open_file build_log);
      if bool_decide (ext = str "bz2") && negb (contains (str "bzip2") accept) then
        Ok (match file with
            | NamedFile _ _ c _ => Decompressed c (insert_header CONTENT_TYPE (HText (str "text/plain; charset=utf-8")) hs)
            | s => s
            end)
      else
        Ok (file_headers
          (if bool_decide (ext = str "bz2") then insert_header CONTENT_ENCODING (HText (str "bzip2")) hs
           else if enable_compression settings then insert_header CONTENT_ENCODING (HText (str "none")) hs
           else hs) file)
  end.

(** Once the derivation is known. *)
Definition log_of (settings : Config) (drv_path : StorePath) (accept_encoding : option bytes) : eff CacheError St Served := λ s,
  match client (is_valid_path drv_path) s with
  | (s, Ok true) =>
      (s, build_log ← get_build_log (real_store (store settings)) drv_path;
          match build_log with
          | None => Ok (Page missed)
          | Some build_log => log_response settings accept_encoding build_log
          end)
  | (s, Ok false) => (s, Ok (Page (mk_response 404 (insert_header CACHE_CONTROL cache_control_no_store []) BodyNone)))
  | (s, Err e) =>
      (s, Ok (Page (mk_response 500 (insert_header CACHE_CONTROL cache_control_no_store [])
        (BodyBytes (str "Failed to query path info: " ++ DaemonError_fmt e)))))
  | (s, Panic) => (s, Panic)
  end.

Definition buildlog_get (settings : Config) (drv : bytes) (accept_encoding : option bytes) : eff CacheError St Served :=
  drv_path ← map_err (λ e, EBuildLog (QueryFailed
    (str "Could not query nar hash in database for " ++ drv ++ str ": " ++ CacheError_fmt e))) (query_drv_path drv);
  match drv_path with
  | None => mret (Page missed)
  | Some drv_path => _ ← acquire; log_of settings drv_path accept_encoding
  end.
End files.
