(* ===== verification/CacheFilesSpec.v ===== *)
(** What the cache shows of files: the listing of a path is the tree of its
    archive, and what is served lies in the store, but for an index file that
    is a link. *)

From stdpp Require Import base list numbers strings gmap.
From Stdlib Require Import ZArith Lia Strings.Byte.
From S2P Require Import Prelude FileSystem StoreDb StoreDbSpec StoreDbRefine Async Wire NarTree RestoreSpec DumpSpec Walk Archive ProtoRead Version BaseEncoding Codecs Hash StorePath Signature NixIO NixCodec Utf8 WireTypes Messages Derivations Requests Logger DaemonErrors DaemonStore Server Samples LocalStore LocalStoreSpec Lookup CacheConfig Cache CacheSpec CacheFiles.

#[export] Instance directive_eq_dec : EqDecision CacheDirective.
Proof. solve_decision. Defined.

#[export] Instance header_value_eq_dec : EqDecision header_value.
Proof. solve_decision. Defined.

(** ** Listings *)

(** The listing of a tree. *)
Fixpoint listing (t : node) : NarEntry :=
  match t with
  | FileNode x c => Regular None (Z.of_nat (length c)) x
  | SymlinkNode g => Symlink g
  | DirectoryNode es =>
      Directory ((fix go (es : list (bytes * node)) : gmap bytes NarEntry :=
                    match es with [] => ∅ | (n, t) :: es => <[n := listing t]> (go es) end) es)
  end.

Lemma listing_dir es : listing (DirectoryNode es) = Directory (list_to_map (prod_map id listing <$> es)).
Proof. cbn. f_equal. induction es as [|[n t] es IH]; [done|]. cbn. by rewrite IH. Qed.

(** Names and targets that are text. *)
Fixpoint names_text (t : node) : Prop :=
  match t with
  | FileNode _ _ => True
  | SymlinkNode g => is_utf8 g = true
  | DirectoryNode es =>
      (fix go (es : list (bytes * node)) : Prop :=
         match es with [] => True | (n, t) :: es => (is_utf8 n = true ∧ names_text t) ∧ go es end) es
  end.

Lemma names_text_dir es : names_text (DirectoryNode es) ↔ Forall (λ e, is_utf8 e.1 = true ∧ names_text e.2) es.
Proof. cbn. induction es as [|[n t] es IH]; [by rewrite Forall_nil|]. by rewrite Forall_cons, <-IH. Qed.

(** Some of the three execute bits of the file is set. *)
Definition executable_at (f : fs) (k : list bytes) : bool :=
  match files f !! k with
  | Some (IFile m _) => Z.testbit m 0 || Z.testbit m 3 || Z.testbit m 6
  | _ => false
  end.

(** The listing of a tree that is on disk at [k]: names and targets as text, and
    as executable every file with an execute bit. *)
Fixpoint listing_on (f : fs) (k : list bytes) (t : node) : NarEntry :=
  match t with
  | FileNode _ c => Regular None (Z.of_nat (length c)) (executable_at f k)
  | SymlinkNode g => Symlink (from_utf8_lossy g)
  | DirectoryNode es =>
      Directory ((fix go (es : list (bytes * node)) : gmap bytes NarEntry :=
                    match es with
                    | [] => ∅
                    | (n, t) :: es => <[from_utf8_lossy n := listing_on f (k ++ [n]) t]> (go es)
                    end) es)
  end.

Definition entry_on (f : fs) (k : list bytes) (e : bytes * node) : bytes * NarEntry :=
  (from_utf8_lossy e.1, listing_on f (k ++ [e.1]) e.2).

Lemma entry_on_names f k es : (entry_on f k <$> es).*1 = from_utf8_lossy <$> es.*1.
Proof. induction es as [|e es IH]; [done|]. cbn in *. by rewrite IH. Qed.

Lemma listing_on_dir f k es : listing_on f k (DirectoryNode es) = Directory (list_to_map (entry_on f k <$> es)).
Proof. cbn. f_equal. induction es as [|[n t] es IH]; [done|]. cbn. by rewrite IH. Qed.

(** The names in a directory stay apart when they are made text: no two of them
    differ only in bytes that are not UTF-8. *)
Fixpoint names_apart (t : node) : Prop :=
  match t with
  | DirectoryNode es =>
      NoDup (from_utf8_lossy <$> es.*1) ∧
      (fix go (es : list (bytes * node)) : Prop :=
         match es with [] => True | (_, t) :: es => names_apart t ∧ go es end) es
  | _ => True
  end.

Lemma names_apart_dir es :
  names_apart (DirectoryNode es) ↔ NoDup (from_utf8_lossy <$> es.*1) ∧ Forall (λ e, names_apart e.2) es.
Proof.
  cbn. apply and_iff_compat_l. induction es as [|[n t] es IH]; [by rewrite Forall_nil|]. by rewrite Forall_cons, <-IH.
Qed.

Lemma testbit_execute m : negb (bool_decide (Z.land m 73 = 0%Z)) = Z.testbit m 0 || Z.testbit m 3 || Z.testbit m 6.
Proof.
  assert (∀ i, Z.testbit (Z.land m 73) i = Z.testbit m i && Z.testbit 73 i) as Hb by (intros; apply Z.land_spec).
  case_bool_decide as E; cbn [negb].
  - rewrite E in Hb. pose proof (Hb 0%Z) as H0. pose proof (Hb 3%Z) as H3. pose proof (Hb 6%Z) as H6.
    rewrite !Z.bits_0 in *. change (Z.testbit 73 0) with true in H0. change (Z.testbit 73 3) with true in H3.
    change (Z.testbit 73 6) with true in H6. rewrite !andb_true_r in *. by rewrite <-H0, <-H3, <-H6.
  - destruct (Z.testbit m 0) eqn:H0, (Z.testbit m 3) eqn:H3, (Z.testbit m 6) eqn:H6; try done.
    destruct E. apply Z.bits_inj_0. intros i. rewrite Hb.
    destruct (decide (i = 0 ∨ i = 3 ∨ i = 6)%Z) as [[->|[->| ->]]|Hi]; [by rewrite ?H0, ?H3, ?H6..|].
    destruct (decide (i < 0)%Z); [by rewrite !Z.testbit_neg_r by lia|].
    destruct (decide (i < 7)%Z).
    + assert (i = 1 ∨ i = 2 ∨ i = 4 ∨ i = 5)%Z as [->|[->|[->| ->]]] by lia; by rewrite andb_comm.
    + rewrite (Z.bits_above_log2 73 i), andb_comm; [done|lia|]. change (Z.log2 73) with 6%Z. lia.
Qed.

(** Turns of the loop for an entry. *)
Fixpoint turns (t : node) : nat :=
  match t with
  | DirectoryNode es =>
      2 + (fix go (es : list (bytes * node)) : nat := match es with [] => 0 | (_, t) :: es => turns t + go es end) es
  | _ => 1
  end.

Lemma turns_dir es : turns (DirectoryNode es) = 2 + sum_list_with (λ e, turns e.2) es.
Proof. cbn. do 2 f_equal. induction es as [|[n t] es IH]; [done|]. cbn. by rewrite IH. Qed.

(** The files of a tree have an execute bit only if their owner has. *)
Definition owner_executes (f : fs) (k : list bytes) : Prop :=
  ∀ rel m c, files f !! (k ++ rel) = Some (IFile m c) → executable_at f (k ++ rel) = bool_decide (Z.land m 64 = 64%Z).

(** Then its listing is the tree of its archive. *)
Lemma listing_on_archive f t : ∀ k, tree_on f k t → tree_ok t → names_text t → owner_executes f k →
  listing_on f k t = listing t.
Proof.
  induction t as [x c|g|es IH] using node_rect'; intros k Hon Hok Htx Hm.
  - destruct (tree_on_root _ _ _ Hon) as (i & Hi & Hsh). destruct i as [md c'| | |]; try done.
    destruct Hsh as [<- ->]. cbn. f_equal. specialize (Hm [] md c'). rewrite app_nil_r in Hm. by apply Hm.
  - cbn. by rewrite from_utf8_lossy_utf8.
  - rewrite listing_on_dir, listing_dir. do 2 f_equal. apply tree_ok_dir in Hok as [Hnd Hok].
    apply names_text_dir in Htx. rewrite Forall_forall in *. apply list_fmap_ext. intros i [n t] Hi%list_elem_of_lookup_2.
    specialize (IH _ Hi). destruct (Hok _ Hi) as [_ Hok']. destruct (Htx _ Hi) as [Hu Htx']. cbn in *. unfold entry_on. cbn.
    rewrite from_utf8_lossy_utf8 by done. f_equal. apply IH; [by eapply tree_on_entry|done|done|].
    intros rel m c. rewrite <-!app_assoc. apply (Hm (n :: rel)).
Qed.

Section listings.
Context {DO : DirOrder} {DL : DirOrderLaws} (f : fs).

Lemma file_entry_on k m c : files f !! k = Some (IFile m c) →
  file_entry m c = Regular None (Z.of_nat (length c)) (executable_at f k).
Proof using Type. intros Hk. unfold file_entry, executable_at. by rewrite Hk, testbit_execute. Qed.

(** The names a directory gives are those of the tree, in some order. *)
Lemma dir_order_tree k es : tree_on f k (DirectoryNode es) → NoDup es.*1 →
  ∃ es', dir_order f k = es'.*1 ∧ es ≡ₚ es'.
Proof using DL.
  intros Ht Hnd. apply Permutation_map_inv. rewrite dir_order_children.
  apply NoDup_Permutation; [apply NoDup_children|done|]. intros n. by apply children_elem.
Qed.

(** An entry of a directory is put into its frame. *)
Definition entry_listed (t : node) : Prop := ∀ n q k below m ns fuel,
  place f (path_join q n) k → FileSystem.name_ok n → tree_on f k t → tree_ok t → names_apart t →
  list_loop f (turns t + fuel) (mk_frame q (Directory m) (n :: ns) :: below) =
  list_loop f fuel (mk_frame q (Directory (<[from_utf8_lossy n := listing_on f k t]> m)) ns :: below).

Lemma entries_listed q k below es : Forall (λ e, entry_listed e.2) es →
  Forall (λ e, FileSystem.name_ok e.1 ∧ tree_ok e.2) es → Forall (λ e, names_apart e.2) es →
  Forall (λ e, place f (path_join q e.1) (k ++ [e.1]) ∧ tree_on f (k ++ [e.1]) e.2) es →
  NoDup (from_utf8_lossy <$> es.*1) → ∀ m fuel, (∀ n, n ∈ es.*1 → m !! from_utf8_lossy n = None) →
  list_loop f (sum_list_with (λ e, turns e.2) es + fuel) (mk_frame q (Directory m) es.*1 :: below) =
  list_loop f fuel (mk_frame q (Directory (list_to_map (entry_on f k <$> es) ∪ m)) [] :: below).
Proof.
  induction es as [|[n t] es IH]; intros H1 H2 H3 H4 Hnd m fuel Hfree.
  { cbn. by rewrite (left_id_L ∅ (∪)). }
  apply Forall_cons in H1 as [Ht H1], H2 as [[Hn Hok] H2], H3 as [Htx H3], H4 as [[Hp Hon] H4].
  cbn [fst snd fmap list_fmap] in *. apply NoDup_cons in Hnd as [Hni Hnd].
  cbn [sum_list_with snd]. rewrite <-Nat.add_assoc. rewrite (Ht n q (k ++ [n])) by done.
  change (list_fmap _ _ fst es) with es.*1. rewrite IH; [|done..|].
  - do 4 f_equal. cbn. symmetry. rewrite <-insert_union_l. apply insert_union_r. apply not_elem_of_list_to_map_1.
    by rewrite entry_on_names.
  - intros n' Hn'. rewrite lookup_insert_ne; [apply Hfree; by right|]. intros E. apply Hni. rewrite E.
    by apply list_elem_of_fmap_2.
Qed.

(** A directory is read, and all that is in it goes into its frame. *)
Lemma directory_listed q k es : Forall (λ e, entry_listed e.2) es → place f q k →
  tree_on f k (DirectoryNode es) → tree_ok (DirectoryNode es) → names_apart (DirectoryNode es) →
  ∃ fr, read_frame f q = Ok fr ∧ ∀ below fuel,
    list_loop f (sum_list_with (λ e, turns e.2) es + fuel) (fr :: below) =
    list_loop f fuel (mk_frame q (listing_on f k (DirectoryNode es)) [] :: below).
Proof using DL.
  intros IH Hp Hon [Hnd Hok]%tree_ok_dir [Hap Htx]%names_apart_dir. destruct (tree_on_root _ _ _ Hon) as (i & Hi & Hsh).
  destruct i as [| | |]; try done. unfold read_frame. rewrite (read_dir_place f _ k) by done.
  cbn [io_context Prelude.map_err mbind res_bind]. eexists. split; [done|]. intros below fuel.
  destruct (dir_order_tree k es Hon Hnd) as (es' & -> & Hperm). rewrite listing_on_dir.
  assert (Forall (λ e, place f (path_join q e.1) (k ++ [e.1]) ∧ tree_on f (k ++ [e.1]) e.2) es') as Hpl.
  { rewrite <-Hperm. rewrite Forall_forall in *. intros [n t] Hin. split.
    - eapply place_entry; [done|exact Hon|]. by apply (Hok _ Hin).
    - by eapply tree_on_entry. }
  assert (list_to_map (M := gmap bytes NarEntry) (entry_on f k <$> es) = list_to_map (entry_on f k <$> es')) as ->.
  { apply list_to_map_proper; [|by rewrite Hperm]. by rewrite entry_on_names. }
  assert (sum_list_with (λ e : bytes * node, turns e.2) es = sum_list_with (λ e, turns e.2) es') as ->
    by (clear -Hperm; induction Hperm; cbn; lia).
  rewrite Hperm in IH, Hok, Htx, Hap.
  rewrite (entries_listed q k below es' IH Hok Htx Hpl Hap) by (intros; apply lookup_empty).
  by rewrite (right_id_L ∅ (∪)).
Qed.

Lemma entry_is_listed t : entry_listed t.
Proof using DL.
  induction t as [x c|g|es IH] using node_rect'; intros n q k below m ns fuel Hp Hn Hon Hok Htx.
  all: destruct (tree_on_root _ _ _ Hon) as (i & Hi & Hsh); pose proof (lstat_place f _ _ Hp) as Hst; rewrite Hi in Hst.
  - destruct i as [md c'| | |]; try done. cbn [turns Nat.add list_loop list_step fr_dir_entry fr_path fr_nar_entry].
    destruct (id Hsh) as [<- _]. rewrite Hst. cbn. by rewrite (file_entry_on k).
  - destruct i as [|g'| |]; try done. cbn in Hsh. subst g'.
    cbn [turns Nat.add list_loop list_step fr_dir_entry fr_path fr_nar_entry]. rewrite Hst. cbn [ok_or io_context Prelude.map_err mbind res_bind].
    unfold symlink_entry, read_link. by rewrite Hst.
  - destruct i as [| | |]; try done. rewrite turns_dir.
    replace (2 + _ + fuel) with (S (sum_list_with (λ e : bytes * node, turns e.2) es + S fuel)) by lia.
    destruct (directory_listed (path_join q n) k es IH Hp Hon Hok Htx) as (fr & Er & Hfr).
    cbn [list_loop list_step fr_dir_entry fr_path fr_nar_entry]. rewrite Hst. cbn [ok_or io_context Prelude.map_err mbind res_bind].
    rewrite Er. cbn [mbind res_bind]. rewrite Hfr.
    cbn [list_loop list_step fr_dir_entry fr_path fr_nar_entry]. rewrite file_name_join by done.
    cbn [insert_entry fr_nar_entry mbind res_bind fr_path fr_dir_entry]. done.
Qed.

(** C15. The listing of a path on disk: every name at its place, with kind, size
    and target, names and targets as text ([to_string_lossy]), a file as
    executable when any of its three execute bits is set, in whatever order the
    directories give their names; the walk takes no more turns than two for a
    directory and one for each other entry. The names of each directory are to
    stay apart as text, as UTF-8 names do. When the names and targets are UTF-8
    and no file has an execute bit that its owner has not, the listing is the
    tree of the archive of the path. *)
Theorem nar_list_exact (p : PathBuf) (k : list bytes) (t : node) (fuel : nat) :
  place f p k → tree_on f k t → tree_ok t → names_apart t → turns t ≤ fuel →
  get_nar_list f fuel p = Some (Ok (mk_nar_list 1 (listing_on f k t))) ∧
  (names_text t → owner_executes f k → listing_on f k t = listing t).
Proof using DL.
  intros Hp Hon Hok Htx Hfuel. split; [|by intros; apply listing_on_archive].
  destruct (tree_on_root _ _ _ Hon) as (i & Hi & Hsh).
  pose proof (lstat_place f _ _ Hp) as Hst. rewrite Hi in Hst. unfold get_nar_list. rewrite Hst.
  destruct t as [x c|g|es], i as [md c'|g'| |]; try done; cbn [ok_or io_context Prelude.map_err].
  - destruct Hsh as [<- _]. by rewrite (file_entry_on k).
  - cbn in Hsh. subst g'. unfold symlink_entry, read_link. by rewrite Hst.
  - assert (Forall (λ e : bytes * node, entry_listed e.2) es) as IH by (apply Forall_true; intros; apply entry_is_listed).
    destruct (directory_listed p k es IH Hp Hon Hok Htx) as (fr & -> & Hfr). rewrite turns_dir in Hfuel.
    replace fuel with (sum_list_with (λ e : bytes * node, turns e.2) es + S (fuel - S (sum_list_with (λ e : bytes * node, turns e.2) es))) by lia.
    by rewrite Hfr.
Qed.
End listings.

(** ** Serving files *)

Definition INDEX : bytes := str "index.html".

Lemma INDEX_ok : FileSystem.name_ok INDEX.
Proof. by apply (bool_decide_unpack _). Qed.

Lemma follow_past_dir final f links d ps : ∀ e, real_dir f (e ++ d) → follow final f links e (d ++ ps) = follow final f links (e ++ d) ps.
Proof.
  induction d as [|c d IH]; intros e Hd; [by rewrite app_nil_r|].
  destruct (Hd (e ++ [c]) d) as [E (c' & Hl & Hn)]; [by rewrite <-app_assoc|by destruct e|].
  rewrite last_snoc in Hl. injection Hl as <-. destruct Hn as (_ & _ & _ & Hn1 & Hn2).
  assert (follow final f links e ((c :: d) ++ ps) = follow final f links (e ++ [c]) (d ++ ps)) as ->.
  { destruct links; unfold follow at 1; fold follow; cbn [app]; rewrite !decide_False by done; by rewrite E. }
  rewrite IH; [by rewrite <-app_assoc|]. by rewrite <-app_assoc.
Qed.

(** The path of an entry of a real directory. *)
Lemma resolve_entry f d c : real_dir f d → FileSystem.name_ok c →
  resolve f (path_of (d ++ [c])) = follow true f MAX_LINKS d [c].
Proof.
  intros Hd Hc. assert (Forall FileSystem.name_ok (d ++ [c])) as Hn.
  { apply Forall_app. split; [by eapply real_dir_names|by constructor]. }
  unfold resolve, no_nul. rewrite (decide_False (P := x00 ∈ path_of (d ++ [c]))) by (by apply no_nul_path_of).
  cbn [mbind res_bind]. rewrite decide_False by (intros [_ ?]; done). rewrite raw_path_of by done.
  unfold start_dir. change (has_root (path_of (d ++ [c]))) with true. cbn iota.
  rewrite follow_past_dir by done. cbn [app]. assert (trailing_slash (path_of (d ++ [c])) = false) as ->.
  { apply bool_decide_eq_false. by apply path_of_last. }
  by destruct (follow true f MAX_LINKS d [c]).
Qed.

(** One step to an entry: it is the entry, unless that is a link. *)
Lemma follow_entry f links d c k : FileSystem.name_ok c → follow true f links d [c] = Ok k →
  k = d ++ [c] ∨ ∃ t, files f !! (d ++ [c]) = Some (ISymlink t).
Proof.
  intros (_ & _ & _ & Hd1 & Hd2).
  destruct links; unfold follow; fold follow; rewrite !decide_False by done;
    destruct (files f !! (d ++ [c])) as [[m s|t| |]|]; try done; cbn; intros Hk; (right; by eexists) || (left; by injection Hk as <-).
Qed.

Lemma read_resolved f p k c : resolve f p = Ok k → read f p = Ok c → ∃ m, files f !! k = Some (IFile m c).
Proof.
  unfold resolve, read. destruct (no_nul p); [|done|done]. cbn [mbind res_bind].
  destruct (decide _); [done|]. destruct (follow _ _ _ _ _) as [k'| |]; [|done|done]. cbn [mbind res_bind].
  destruct (_ && _); [done|]. intros [= <-]. destruct (files f !! k') as [[m s| | |]|]; try done.
  destruct (trailing_slash p); [done|]. intros [= <-]. by exists m.
Qed.

Lemma open_file_ok f p s : open_file f p = Ok s →
  ∃ k c m, s = NamedFile p k c [] ∧ resolve f p = Ok k ∧ files f !! k = Some (IFile m c).
Proof.
  unfold open_file. intros (k & Hk & (c & Hc & [= <-])%res_bind_Ok)%res_bind_Ok.
  destruct (read_resolved f p k c Hk Hc) as [m Hm]. eauto 8.
Qed.

Lemma eff_bind_inv {E S A B} (m : eff E S A) (g : A → eff E S B) s s' b :
  (m ≫= g) s = (s', Ok b) → ∃ s1 a, m s = (s1, Ok a) ∧ g a s1 = (s', Ok b).
Proof. unfold mbind, eff_bind. destruct (m s) as [s1 [a|e|]]; [by eauto|done|done]. Qed.

(** A path to a real directory, and the entries of one. *)
Lemma resolve_dir_at f q d : resolve f q = Ok d → real_dir f d → dir_at f q d.
Proof.
  unfold resolve, no_nul. destruct (decide (x00 ∈ q)) as [|H0]; [done|]. cbn [mbind res_bind].
  destruct (decide _); [done|]. intros (k & Hk & H)%res_bind_Ok Hd. destruct (_ && _); [done|]. injection H as <-.
  split; [done|]. clear H0 n. revert Hk. generalize (start_dir f q) (raw q). generalize MAX_LINKS as links.
  induction links as [|links IHl]; intros e ps; revert e; induction ps as [|x ps IH]; intros e.
  1, 3: by intros [= ->].
  all: unfold follow; fold follow; repeat case_decide; try apply IH.
  all: destruct (files f !! (e ++ [x])) as [[| | |]|] eqn:E; try done; try apply IH; try apply IHl.
  all: cbn [andb]; case_bool_decide; [|done]; intros [= <-].
  all: destruct (Hd (e ++ [x]) []) as [E' _]; [by rewrite app_nil_r|by destruct e|by rewrite E in E'].
Qed.

Lemma read_file f p k m c : resolve f p = Ok k → kind f k = Some (IFile m c) → read f p = Ok c.
Proof.
  unfold resolve, read. destruct (no_nul p); [|done|done]. cbn [mbind res_bind].
  destruct (decide _); [done|]. destruct (follow _ _ _ _ _) as [k'| |]; [|done|done]. cbn [mbind res_bind].
  destruct (trailing_slash p && _) eqn:E; [done|]. intros [= <-] Hk. rewrite Hk in E. unfold kind in Hk.
  destruct (decide (k' = [])); [done|]. rewrite Hk. by destruct (trailing_slash p).
Qed.

Lemma name_components n : FileSystem.name_ok n → components n = [Normal n].
Proof.
  intros Hn. pose proof (components_join n Hn []) as H. unfold path_join in H. rewrite name_relative in H by done. exact H.
Qed.

(** ** Extensions *)

Lemma rsplit_dot_plain e : (x2e ∉ e) → rsplit_dot e = None.
Proof.
  induction e as [|b e IH]; [done|]. intros Hb. cbn. rewrite IH by set_solver. rewrite decide_False; [done|]. set_solver.
Qed.

Lemma rsplit_dot_app s e : (x2e ∉ e) → rsplit_dot (s ++ x2e :: e) = Some (s, e).
Proof.
  intros He. induction s as [|b s IH]; cbn.
  - by rewrite rsplit_dot_plain, decide_True.
  - by rewrite IH.
Qed.

Lemma split_file_name_app b s e : (x2e ∉ e) → e ≠ [] → split_file_name (b :: s ++ x2e :: e) = (b :: s, Some e).
Proof.
  intros He Hne. unfold split_file_name. rewrite decide_False.
  - change (b :: s ++ x2e :: e) with ((b :: s) ++ x2e :: e). by rewrite rsplit_dot_app.
  - intros [= -> E]. destruct s as [|b' s]; [by injection E as E|]. injection E as _ E. by destruct s.
Qed.

Lemma extension_join q b s e : FileSystem.name_ok (b :: s ++ x2e :: e) → (x2e ∉ e) → e ≠ [] →
  extension (path_join q (b :: s ++ x2e :: e)) = Some e.
Proof. intros Hn He Hne. unfold extension. rewrite file_name_join by done. cbn [mbind option_bind]. by rewrite split_file_name_app. Qed.

(** Another extension in the place of one. *)
Lemma with_extension_join q b s e e' : FileSystem.name_ok (b :: s ++ x2e :: e) → (x2e ∉ e) → e ≠ [] → e' ≠ [] →
  with_extension (path_join q (b :: s ++ x2e :: e)) (e ++ x2e :: e') = path_join q (b :: s ++ x2e :: e) ++ x2e :: e'.
Proof.
  intros Hn He Hne Hne'. set (n := b :: s ++ x2e :: e) in *. unfold with_extension. rewrite file_name_join by done.
  unfold n at 4. rewrite split_file_name_app by done. cbn [fst].
  destruct (body_join n Hn q) as (cs & Hb & _). rewrite Hb, trim_right_snoc, name_component, removelast_last by done.
  rewrite <-(take_drop (len_before_body (path_join q n)) (path_join q n)) at 3. rewrite <-app_assoc. f_equal.
  fold (body (path_join q n)). pose proof (join_split_all SLASH (drop (len_before_body (path_join q n)) (path_join q n))) as Hj.
  change (split_all SLASH _) with (body (path_join q n)) in Hj. rewrite <-Hj, Hb. destruct (e ++ x2e :: e') eqn:E; [by destruct e|].
  rewrite <-E. clear E Hj Hb. destruct (decide (cs = [])) as [->|Hcs].
  - cbn [app join]. unfold n. cbn. by rewrite <-!app_assoc.
  - rewrite !join_snoc by done. unfold n. rewrite <-!app_assoc. cbn. by rewrite <-!app_assoc.
Qed.

Section serving.
Context {DO : DirOrder} (f : fs).
Context {AS : Assets} {PG : PageLib}.
Context {DE : DataEncoding} {DL : DataEncodingLaws} {DG : DigestLib} {SA : StructuredAttrsLib}.
Context {ED : Ed25519} {ET : ErrorText} {CT : CacheText}.
Context {HH : Http} {St : Type} {HS : DaemonStore St} {HQ : Acquire (St := St)}.

(** A file in the store, or what an index file that is a link leads to. *)
Definition confined (root : list bytes) (p : PathBuf) (k : list bytes) : Prop :=
  root `prefix_of` k ∨
  ∃ d t, root `prefix_of` d ∧ p = path_of (d ++ [INDEX]) ∧ files f !! (d ++ [INDEX]) = Some (ISymlink t).

Lemma io_context_Ok {A} c (r : res io_error A) a : io_context c r = Ok a → r = Ok a.
Proof. by destruct r; [intros [= ->]|..]. Qed.

Lemma serve_path_confined settings hash dir store_path root p k c hs :
  fs_ok f → resolve f (real_store (store settings)) = Ok root →
  serve_path f settings hash dir store_path = Ok (NamedFile p k c hs) →
  (∃ m, files f !! k = Some (IFile m c)) ∧ confined root p k.
Proof.
  intros Hf Hroot. unfold serve_path.
  intros (q & Hq%io_context_Ok & (r & Hr%io_context_Ok & H)%res_bind_Ok)%res_bind_Ok.
  apply canonicalize_resolved in Hq as (kq & _ & -> & Hreal & Hres); [|done].
  apply canonicalize_resolved in Hr as (kr & Hkr & -> & Hreal' & _); [|done]. rewrite Hroot in Hkr. injection Hkr as <-.
  rewrite starts_with_path_of in H by (by eapply real_names). case_bool_decide as Hpre; [|done]. cbn [negb] in H.
  unfold is_dir, metadata in H. rewrite Hres in H. cbn [mbind res_bind] in H.
  assert (∀ o, io_context o (open_file f (path_of kq)) = Ok (NamedFile p k c hs) →
    (∃ m, files f !! k = Some (IFile m c)) ∧ confined root p k) as Hfile.
  { intros o (k' & c' & m & E & Hk' & Hm)%io_context_Ok%open_file_ok. injection E as -> -> -> ->.
    rewrite Hres in Hk'. injection Hk' as <-. split; [by exists m|by left]. }
  destruct (kind f kq) as [[| | |]|] eqn:Ek; cbn [ok_or] in H; try by eapply Hfile. clear Hfile.
  assert (real_dir f kq) as Hdir.
  { destruct Hreal as [?|(d & x & i & E & _ & _ & Hi & Hk)]; [done|]. unfold kind in Ek. case_decide.
    - subst kq. by destruct d.
    - rewrite Hi in Ek. by injection Ek as ->. }
  rewrite path_of_snoc in H by (exact INDEX_ok || by eapply real_dir_names).
  destruct (if resolve f (path_of (kq ++ [str "index.html"])) ≫= _ is Ok (IFile _ _) then true else false).
  - apply io_context_Ok, open_file_ok in H as (k' & c' & m & E & Hk' & Hm). injection E as -> -> -> ->.
    split; [by exists m|]. rewrite resolve_entry in Hk' by (exact INDEX_ok || done).
    apply follow_entry in Hk' as [->|[t Ht]]; [left; by apply prefix_app_r|right; by exists kq, t|exact INDEX_ok].
  - by destruct (directory_listing _ _ _ _) in H.
Qed.

(** C14. What is served lies in the store. Whatever path is asked for below
    whatever hash, with links and parent components in it, a file that is sent
    is a regular file whose real place is below the real place of the store;
    the one exception is an [index.html] of a directory in the store that is a
    link, which is followed wherever it leads. *)
Theorem serve_confined (settings : Config) (hash : bytes) (dir : PathBuf) (s s' : St) (root : list bytes)
    (p : PathBuf) (k : list bytes) (c : bytes) (hs : list (bytes * header_value)) :
  fs_ok f → resolve f (real_store (store settings)) = Ok root →
  serve_get f settings hash dir s = (s', Ok (NamedFile p k c hs)) →
  (∃ m, files f !! k = Some (IFile m c)) ∧ confined root p k.
Proof.
  intros Hf Hroot. unfold serve_get. intros (s1 & o & _ & H)%eff_bind_inv. destruct o as [sp|]; [|done].
  apply eff_bind_inv in H as (s2 & q & _ & H). injection H as _ H. by eapply serve_path_confined.
Qed.

(** A link that is absolute. *)
Lemma follow_link d x t k : FileSystem.name_ok x → files f !! (d ++ [x]) = Some (ISymlink t) → has_root t = true →
  follow true f (pred MAX_LINKS) [] (raw t) = Ok k → follow true f MAX_LINKS d [x] = Ok k.
Proof.
  intros (_ & _ & _ & Hx1 & Hx2) Hi Ht Hk. replace MAX_LINKS with (S (pred MAX_LINKS)) by (vm_compute; reflexivity).
  unfold follow; fold follow. rewrite !decide_False by done. rewrite Hi, Ht, app_nil_r. exact Hk.
Qed.

(** An index file that is a link leads out of the store: when the
    [index.html] of a store path is an absolute link to a file, that file is
    sent, wherever it is, although the same link under any other name is
    answered with not found. *)
Theorem serve_index_escapes (settings : Config) (hash : bytes) (s : St) (p : StorePath) (root k : list bytes)
    (t : bytes) (m : Z) (c name : bytes) :
  nixhash hash s = (s, Ok (Some p)) → path_wf p → real_store (store settings) = path_of root → real_dir f root →
  files f !! (root ++ [path_text p]) = Some IDir → FileSystem.name_ok name →
  files f !! ((root ++ [path_text p]) ++ [INDEX]) = Some (ISymlink t) →
  files f !! ((root ++ [path_text p]) ++ [name]) = Some (ISymlink t) →
  has_root t = true → follow true f (pred MAX_LINKS) [] (raw t) = Ok k → kind f k = Some (IFile m c) →
  Forall FileSystem.name_ok k → ¬ root `prefix_of` k →
  serve_get f settings hash [] s = (s, Ok (NamedFile (path_of ((root ++ [path_text p]) ++ [INDEX])) k c [])) ∧
  serve_get f settings hash name s = (s, Ok (Page (mk_response 404 [] BodyNone))).
Proof using DL.
  intros Hnix Hp Hstore Hrd Hdir Hname Hidx Hlink Ht Hk Hkind Hkn Hout. pose proof (path_text_name p Hp) as Hpn.
  assert (real_dir f (root ++ [path_text p])) as Hrp by by apply real_dir_snoc.
  pose proof (real_dir_names f _ Hrp) as Hnp. pose proof (real_dir_names f _ Hrd) as Hnr.
  assert (archive_path settings p = path_of (root ++ [path_text p])) as Hpath.
  { unfold archive_path. rewrite Hstore. by apply path_of_snoc. }
  assert (∀ x, FileSystem.name_ok x → files f !! ((root ++ [path_text p]) ++ [x]) = Some (ISymlink t) →
    resolve f (path_of ((root ++ [path_text p]) ++ [x])) = Ok k) as Hlead.
  { intros x Hx Hl. rewrite resolve_entry by done. by eapply follow_link. }
  assert (∀ d, real_dir f d → resolve f (path_of d) = Ok d) as Hres.
  { intros d Hd. apply resolve_path_of; [by left|]. apply no_nul_path_of. by eapply real_dir_names. }
  assert (∀ dir, path_strip_prefix dir [SLASH] = None →
    serve_get f settings hash dir s = (s, serve_path f settings hash dir (path_of (root ++ [path_text p])))) as Hget.
  { intros dir Hd. unfold serve_get. rewrite Hd. rewrite (eff_bind_Ok _ _ s s (Some p)) by done.
    by rewrite (eff_bind_Ok _ _ s s (path_of (root ++ [path_text p]))) by (unfold eff_lift; by rewrite get_real_path_ok, Hpath). }
  rewrite (Hget []) by done. rewrite (Hget name).
  2:{ unfold path_strip_prefix, starts_with. rewrite bool_decide_false; [done|]. rewrite (name_components name) by done.
      intros [l [=]]. }
  unfold serve_path, canonicalize. rewrite Hstore, (Hres root) by done. split; f_equal.
  - change (bool_decide (components [] = [])) with true. cbn iota. rewrite Hres by done.
    cbn [fmap res_fmap io_context Prelude.map_err mbind res_bind]. rewrite starts_with_path_of, bool_decide_true by (done || by apply prefix_app_r). cbn [negb].
    unfold is_dir, metadata. rewrite Hres by done. cbn [mbind res_bind]. unfold kind at 1. rewrite decide_False by (by intros [_ [=]]%app_eq_nil).
    rewrite Hdir. cbn [ok_or]. rewrite path_of_snoc by (exact INDEX_ok || done). change (str "index.html") with INDEX.
    rewrite (Hlead INDEX INDEX_ok Hidx). cbn [mbind res_bind]. rewrite Hkind. cbn [ok_or]. unfold open_file.
    rewrite (Hlead INDEX INDEX_ok Hidx). cbn [mbind res_bind]. by rewrite (read_file f _ k m c (Hlead INDEX INDEX_ok Hidx) Hkind).
  - rewrite bool_decide_false by by rewrite name_components. rewrite path_of_snoc by done. rewrite Hlead by done.
    cbn [fmap res_fmap io_context Prelude.map_err mbind res_bind].
    by rewrite starts_with_path_of, bool_decide_false by done.
Qed.

(** ** Build logs *)

(** Where the log of a derivation is, below the directory of the store. *)
Definition log_dir (p : PathBuf) (drv : StorePath) : PathBuf :=
  foldl path_join p [str "var"; str "log"; str "nix"; str "drvs"; take 2 (path_text drv)].

Definition log_file (p : PathBuf) (drv : StorePath) : PathBuf := path_join (log_dir p drv) (drop 2 (path_text drv)).

(** The name of the log ends as that of the derivation. *)
Lemma log_name drv : path_wf drv → is_derivation drv = true →
  ∃ b s, drop 2 (path_text drv) = b :: s ++ x2e :: str "drv" ∧ FileSystem.name_ok (b :: s ++ x2e :: str "drv").
Proof using DL.
  intros Hp Hd. unfold is_derivation, ends_with in Hd. destruct (strip_suffix _ _) as [m|] eqn:E; [|done].
  apply strip_suffix_Some in E. pose proof (path_text_name drv Hp) as Hn.
  destruct Hp as [Hh _]. destruct (StorePathHash_fmt_eq (sp_hash drv) Hh) as [_ Hl].
  unfold path_text in *. rewrite E in *. change (str ".drv") with (x2e :: str "drv") in *.
  change STORE_PATH_HASH_ENCODED_SIZE with 32 in Hl.
  destruct (hash_text (sp_hash drv)) as [|a [|a' [|b s]]] eqn:Eh; cbn in Hl; try lia.
  exists b, (s ++ "-"%byte :: m). cbn [drop app] in *. rewrite ?drop_0, <-app_assoc. split; [done|].
  destruct Hn as (_ & Hs & H0 & _). rewrite <-?app_assoc. cbn [app].
  split_and!; [done|set_solver|set_solver|..]; intros [= _ E']; by destruct s as [|? []].
Qed.

Lemma get_build_log_eq store p drv : path_wf drv → is_derivation drv = true → parent store = Some p →
  get_build_log f store drv =
    Ok (if exists_path f (log_file p drv) then Some (log_file p drv)
        else if exists_path f (log_file p drv ++ str ".bz2") then Some (log_file p drv ++ str ".bz2") else None).
Proof using DL.
  intros Hp Hd Hpar. unfold get_build_log. rewrite StorePath_fmt_eq by done. cbn [unwrap mbind res_bind]. rewrite Hpar.
  destruct (log_name drv Hp Hd) as (b & s & E & Hn).
  rewrite decide_False by (intros Hlt; by rewrite drop_ge in E by lia).
  change (foldl path_join p [str "var"; str "log"; str "nix"; str "drvs"; take 2 (path_text drv); drop 2 (path_text drv)])
    with (log_file p drv). destruct (exists_path f (log_file p drv)); [done|].
  assert (with_extension (log_file p drv) (str "drv.bz2") = log_file p drv ++ str ".bz2") as ->; [|done].
  unfold log_file. rewrite E. apply (with_extension_join _ b s (str "drv") (str "bz2")); [done|..]; by apply (bool_decide_unpack _).
Qed.

Lemma log_extensions p drv : path_wf drv → is_derivation drv = true →
  extension (log_file p drv) = Some (str "drv") ∧ extension (log_file p drv ++ str ".bz2") = Some (str "bz2").
Proof using DL.
  intros Hp Hd. destruct (log_name drv Hp Hd) as (b & s & E & Hn). unfold log_file. rewrite E. split.
  - apply extension_join; [done|..]; by apply (bool_decide_unpack _).
  - assert (FileSystem.name_ok (b :: (s ++ x2e :: str "drv") ++ x2e :: str "bz2")) as Hn'.
    { change (b :: (s ++ x2e :: str "drv") ++ x2e :: str "bz2") with ((b :: s ++ x2e :: str "drv") ++ str ".bz2").
      destruct Hn as (_ & Hs & H0 & _). split_and!.
      - done.
      - rewrite not_elem_of_app. split; [done|by apply (bool_decide_unpack _)].
      - rewrite not_elem_of_app. split; [done|by apply (bool_decide_unpack _)].
      - intros [= _ E']. by destruct s.
      - intros [= _ E']. destruct s as [|? [|]]; done. }
    rewrite <-(extension_join (log_dir p drv) b (s ++ x2e :: str "drv") (str "bz2") Hn') by (by apply (bool_decide_unpack _)).
    f_equal. unfold path_join. rewrite !name_relative by done. rewrite <-!app_assoc. do 3 f_equal. cbn. by rewrite <-!app_assoc.
Qed.

Lemma exists_resolved q k i : resolve f q = Ok k → kind f k = Some i → exists_path f q = true.
Proof. intros Hr Hk. unfold exists_path, metadata. rewrite Hr. cbn. by rewrite Hk. Qed.

Lemma open_resolved q k m c : resolve f q = Ok k → kind f k = Some (IFile m c) → open_file f q = Ok (NamedFile q k c []).
Proof. intros Hr Hk. unfold open_file. rewrite Hr. cbn [mbind res_bind]. by rewrite (read_file f q k m c). Qed.

(** The log of a valid derivation: the file under the log directory that has
    the name of the derivation is sent as it is, and when there is none, the
    one with [.bz2] after that name, sent compressed with that encoding to a
    client that takes it and decompressed otherwise; without either the answer
    is not found. *)
Theorem build_log_served (settings : Config) (drv : StorePath) (accept : option bytes) (s : St) (p : PathBuf) :
  client (is_valid_path drv) s = (s, Ok true) → path_wf drv → is_derivation drv = true →
  parent (real_store (store settings)) = Some p →
  let log := log_file p drv in
  let takes_bzip2 := contains (str "bzip2") (default [] (accept ≫= to_str)) in
  (∀ k m c, resolve f log = Ok k → kind f k = Some (IFile m c) →
    ∃ hs, log_of f settings drv accept s = (s, Ok (NamedFile log k c hs)) ∧ (CONTENT_ENCODING, HText (str "bzip2")) ∉ hs) ∧
  (∀ k m c, exists_path f log = false → resolve f (log ++ str ".bz2") = Ok k → kind f k = Some (IFile m c) →
    ∃ hs, log_of f settings drv accept s =
        (s, Ok (if takes_bzip2 then NamedFile (log ++ str ".bz2") k c hs else Decompressed c hs)) ∧
      ((CONTENT_ENCODING, HText (str "bzip2")) ∈ hs ↔ takes_bzip2 = true)) ∧
  (exists_path f log = false → exists_path f (log ++ str ".bz2") = false →
    log_of f settings drv accept s = (s, Ok (Page missed))).
Proof using DL.
  intros Hc Hp Hd Hpar log takes. unfold log_of. rewrite Hc, (get_build_log_eq _ p) by done. fold log.
  destruct (log_extensions p drv Hp Hd) as [Ex1 Ex2]. fold log in Ex1, Ex2. cbn [mbind res_bind]. split_and!.
  - intros k m c Hr Hk. rewrite (exists_resolved log k _ Hr Hk). unfold log_response. rewrite Ex1.
    rewrite (open_resolved log k m c Hr Hk). cbn [io_context Prelude.map_err mbind res_bind].
    rewrite bool_decide_false by done. cbn [andb file_headers]. eexists. split; [done|].
    destruct (enable_compression settings); by apply (bool_decide_unpack _).
  - intros k m c Hx Hr Hk. rewrite Hx, (exists_resolved _ k _ Hr Hk). unfold log_response. rewrite Ex2.
    rewrite (open_resolved _ k m c Hr Hk). cbn [io_context Prelude.map_err mbind res_bind].
    rewrite bool_decide_true by done. fold takes. cbn [andb]. destruct takes; cbn [negb file_headers].
    + eexists. split; [done|]. split; [done|]. intros _. apply header_here.
    + eexists. split; [done|]. split; [|done]. intros Hin. exfalso. revert Hin. by apply (bool_decide_unpack _).
  - intros -> ->. done.
Qed.
End serving.

(** ** Concrete uses *)

#[local] Existing Instance rowid_order.
#[local] Existing Instance rowid_laws.
#[local] Existing Instance Signature.open_scheme.
#[local] Existing Instance Signature.open_scheme_laws.

#[export] Instance map_dir_order : DirOrder := children.
#[export] Instance map_dir_order_laws : DirOrderLaws.
Proof. intros f k. done. Qed.

Lemma owner_executes_checked f k :
  map_Forall (λ q i, match i with
                     | IFile m _ => Bool.eqb (executable_at f q) (bool_decide (Z.land m 64 = 64%Z))
                     | _ => true
                     end = true) (files f) → owner_executes f k.
Proof. intros H rel m c Hk. apply Bool.eqb_prop. exact (H _ _ Hk). Qed.

Lemma packed_executes k : owner_executes packed_fs k.
Proof. apply owner_executes_checked. apply (bool_decide_unpack _). vm_compute. exact I. Qed.

Lemma nar_list_exact_witness :
  let l := Directory (<[str "Readme" := Regular None 5 false]>
    (<[str "bin" := Directory {[ str "run" := Regular None 2 true ]}]> {[ str "readme" := Symlink (str "../x") ]})) in
  get_nar_list packed_fs 20 (path_join (str "/nix/store") (str "out")) = Some (Ok (mk_nar_list 1 l)) ∧
  l = listing RestoreSpec.sample_dir.
Proof.
  assert (names_apart RestoreSpec.sample_dir) as Hap by (apply (bool_decide_unpack _); vm_compute; exact I).
  destruct (nar_list_exact packed_fs (path_join (str "/nix/store") (str "out")) [str "nix"; str "store"; str "out"]
    RestoreSpec.sample_dir 20 packed_place packed_tree (proj1 sample_dir_ok) Hap
    ltac:(apply (bool_decide_unpack _); vm_compute; exact I)) as [E1 E2].
  split; [exact E1|]. apply E2; [repeat split|apply packed_executes].
Defined.

(** Only others may execute [Readme]: the archive says that it is not
    executable, the listing that it is. *)
Definition others_fs : fs :=
  with_files packed_fs (<[[str "nix"; str "store"; str "out"; str "Readme"] := IFile 421 (str "hello")]> (files packed_fs)).

Lemma others_execute :
  get_nar_list others_fs 20 (path_join (str "/nix/store/out") (str "Readme")) =
    Some (Ok (mk_nar_list 1 (Regular None 5 true))) ∧
  shows (IFile 421 (str "hello")) (FileNode false (str "hello")).
Proof. by vm_compute. Qed.

#[export] Instance plain_assets : Assets := {|
  BASE_TEMPLATE := str "[[title]] [[css]] [[content]]";
  LANDING_TEMPLATE := str "[[store]]";
  LANDING_WITH_KEYS_TEMPLATE := str "[[store]] [[public_keys_cli]]";
  DIRECTORY_TEMPLATE := str "[[index_of]] [[rows]]";
  DIRECTORY_ROW_TEMPLATE := str "[[url]] [[name]] [[size]]";
  TAILWIND_CSS := [];
  CARGO_NAME := str "harmonia";
  CARGO_VERSION := str "3";
  CARGO_HOME_PAGE := []
|}.

#[export] Instance plain_pages : PageLib := {|
  hash_order l := l;
  escape_html_entity s := s;
  encode_controls s := s
|}.

(** A store path with a file, a link out of the store and an index that is the
    same link. *)
Definition store_root : list bytes := [str "mnt"; str "store"].

Definition linked_fs : fs :=
  mk_fs (list_to_map
    [([str "mnt"], IDir); (store_root, IDir); (store_root ++ [path_text sample_path], IDir);
     ((store_root ++ [path_text sample_path]) ++ [str "data"], IFile 292 (str "data"));
     ((store_root ++ [path_text sample_path]) ++ [INDEX], ISymlink (str "/etc/passwd"));
     ((store_root ++ [path_text sample_path]) ++ [str "link"], ISymlink (str "/etc/passwd"));
     ([str "etc"], IDir); ([str "etc"; str "passwd"], IFile 384 (str "root"))]) [] 18.

Lemma linked_fs_ok : fs_ok linked_fs.
Proof.
  split; [|apply real_dir_nil]. intros k t Hk.
  assert (map_Forall (λ _ i, match i with ISymlink t => bool_decide (x00 ∈ t) | _ => false end = false) (files linked_fs)) as H.
  { apply (bool_decide_unpack _). vm_compute. exact I. }
  specialize (H _ _ Hk). cbn beta iota in H. exact (proj1 (bool_decide_eq_false _) H).
Qed.

Lemma serve_confined_witness :
  ∃ s', serve_get linked_fs sample_config sample_hash (str "/./data") local_handler =
      (s', Ok (NamedFile (path_of ((store_root ++ [path_text sample_path]) ++ [str "data"]))
        ((store_root ++ [path_text sample_path]) ++ [str "data"]) (str "data") [])) ∧
    confined linked_fs store_root (path_of ((store_root ++ [path_text sample_path]) ++ [str "data"]))
      ((store_root ++ [path_text sample_path]) ++ [str "data"]).
Proof.
  assert (∃ s', serve_get linked_fs sample_config sample_hash (str "/./data") local_handler =
      (s', Ok (NamedFile (path_of ((store_root ++ [path_text sample_path]) ++ [str "data"]))
        ((store_root ++ [path_text sample_path]) ++ [str "data"]) (str "data") []))) as [s' E]
    by (eexists; vm_compute; reflexivity).
  exists s'. split; [exact E|].
  apply (serve_confined linked_fs sample_config sample_hash (str "/./data") local_handler s' store_root _ _ (str "data") []).
  - exact linked_fs_ok.
  - vm_compute. reflexivity.
  - exact E.
Defined.

Lemma real_dir_checked f d : forallb (λ n, bool_decide (files f !! take (S n) d = Some IDir)) (seq 0 (length d)) = true →
  Forall FileSystem.name_ok d → real_dir f d.
Proof.
  intros H Hn a b -> Ha. destruct (exists_last Ha) as (a' & c & ->). split.
  - rewrite forallb_forall in H. specialize (H (length a')). rewrite bool_decide_eq_true in H. rewrite <-H.
    + f_equal. rewrite take_app_le by (rewrite length_app; cbn; lia). by rewrite take_ge by (rewrite length_app; cbn; lia).
    + apply in_seq. rewrite !length_app. cbn. lia.
  - exists c. rewrite last_snoc. split; [done|]. rewrite !Forall_app in Hn. destruct Hn as [[_ Hc] _]. by apply Forall_cons in Hc as [? _].
Qed.

Lemma serve_index_escapes_witness :
  serve_get linked_fs sample_config sample_hash [] local_handler =
    (local_handler, Ok (NamedFile (path_of ((store_root ++ [path_text sample_path]) ++ [INDEX]))
      [str "etc"; str "passwd"] (str "root") [])) ∧
  serve_get linked_fs sample_config sample_hash (str "link") local_handler =
    (local_handler, Ok (Page (mk_response 404 [] BodyNone))).
Proof.
  apply (serve_index_escapes linked_fs sample_config sample_hash local_handler sample_path store_root
    [str "etc"; str "passwd"] (str "/etc/passwd") 384).
  - apply (nixhash_ok _ _ _ local_info). exact local_knows.
  - exact sample_path_wf.
  - vm_compute. reflexivity.
  - apply real_dir_checked; [vm_compute; reflexivity|]. apply (bool_decide_unpack _). vm_compute. exact I.
  - vm_compute. reflexivity.
  - apply (bool_decide_unpack _). vm_compute. exact I.
  - vm_compute. reflexivity.
  - vm_compute. reflexivity.
  - reflexivity.
  - vm_compute. reflexivity.
  - vm_compute. reflexivity.
  - apply (bool_decide_unpack _). vm_compute. exact I.
  - apply (bool_decide_unpack _). vm_compute. exact I.
Defined.

(** A derivation with a compressed log. *)
Definition log_drv : StorePath := mk_store_path (mk_sph (replicate 20 "x"%byte)) (mk_spn (str "hello.drv")).

Definition log_key (ext : bytes) : list bytes :=
  [str "mnt"; str "var"; str "log"; str "nix"; str "drvs"; take 2 (path_text log_drv); drop 2 (path_text log_drv) ++ ext].

Definition log_fs : fs :=
  mk_fs (list_to_map ((λ n, (take (S n) (log_key []), IDir)) <$> seq 0 6) ∪
    {[ log_key (str ".bz2") := IFile 292 (str "BZh9") ]}) [] 18.

Lemma build_log_served_witness :
  log_of log_fs sample_config log_drv (Some (str "gzip")) [log_drv] =
    ([log_drv], Ok (Decompressed (str "BZh9") [(CACHE_CONTROL, cache_control_max_age_1y);
      (CONTENT_TYPE, HText (str "text/plain; charset=utf-8"))])) ∧
  ∃ hs, log_of log_fs sample_config log_drv (Some (str "gzip, bzip2")) [log_drv] =
      ([log_drv], Ok (NamedFile (log_file (str "/mnt") log_drv ++ str ".bz2") (log_key (str ".bz2")) (str "BZh9") hs)) ∧
    (CONTENT_ENCODING, HText (str "bzip2")) ∈ hs.
Proof.
  split; [vm_compute; reflexivity|].
  destruct (build_log_served log_fs sample_config log_drv (Some (str "gzip, bzip2")) [log_drv] (str "/mnt")) as (_ & H & _).
  - vm_compute. reflexivity.
  - split; [reflexivity|]. split; [discriminate|]. split; [vm_compute; lia|repeat constructor].
  - vm_compute. reflexivity.
  - vm_compute. reflexivity.
  - destruct (H (log_key (str ".bz2")) 292%Z (str "BZh9")) as (hs & E & Hin).
    + vm_compute. reflexivity.
    + vm_compute. reflexivity.
    + vm_compute. reflexivity.
    + exists hs. split; [exact E|]. apply Hin. vm_compute. reflexivity.
Defined.
