(* ===== verification/AddMultiple.v ===== *)
(** The stream of several paths
    ([harmonia-protocol/src/daemon_wire/add_multiple_to_store.rs]): a number,
    and for each path its data and its archive; with the lending of the reader
    to the consumer of an archive ([harmonia-utils-io/src/lending.rs]). What is
    written is read back path by path, whatever each consumer leaves unread. *)

From stdpp Require Import base list numbers strings.
From Stdlib Require Import ZArith Lia Strings.Byte.
From S2P Require Import Prelude Async Wire Sink NarReader NarTree NarWriter BufferMut BytesReader NarBytes Nar ProtoRead Framed Version BaseEncoding Codecs Hash StorePath ContentAddress Signature DerivedPath NixIO Streams NixCodec WireTypes Messages Derivations Requests Logger DaemonErrors DaemonStore Samples.

#[local] Unset Program Cases.

Record AddToStoreItem (R : Type) : Type := mk_item { it_info : ValidPathInfo; it_reader : R }.
Arguments mk_item {R}.
Arguments it_info {R}.
Arguments it_reader {R}.

(** ** Writing *)

Section write.
Context {DE : DataEncoding}.
Context {WS : Type} {HW : NixWrite WS} {HA : AsyncWriter WS}.

(** [tokio::io::copy_buf] from what a reader gives. *)
Fixpoint copy_buf (chunks : list (res io_error bytes)) : io WS unit :=
  match chunks with
  | [] | Ok [] :: _ => flush
  | Ok c :: chunks => _ ← write_all c; copy_buf chunks
  | Err e :: _ => io_lift (Err e)
  | Panic :: _ => io_lift Panic
  end.

Abbreviation written_item := (AddToStoreItem (list (res io_error bytes))).

(** The loop over the items, the index and the number written so far. *)
Fixpoint write_items (size idx written : nat) (stream : list (res DaemonError written_item)) : eff DaemonError WS nat :=
  match stream with
  | [] => mret written
  | item :: stream =>
      if decide (size ≤ idx)
      then eff_throw (custom (str "More than " ++ u64_to_string (Z.of_nat size) ++ str " items in stream"))
      else
        item ← eff_lift item;
        _ ← io_try (write_value (it_info item));
        _ ← io_try (copy_buf (it_reader item));
        write_items size (S idx) (S written) stream
  end.

(** [hint] is the upper bound of [size_hint]. *)
Definition write_add_multiple_to_store_stream (hint : option nat) (stream : list (res DaemonError written_item)) :
    eff DaemonError WS nat :=
  match hint with
  | None => eff_lift Panic
  | Some size =>
      _ ← io_try (write_value (uint (Z.of_nat size) : usize));
      written ← write_items size 0 0 stream;
      if decide (written ≠ size)
      then eff_throw (custom (str "Not enough items in stream: Expected " ++ u64_to_string (Z.of_nat size) ++
             str " got " ++ u64_to_string (Z.of_nat written)))
      else mret size
  end.
End write.

(** ** Lending *)

Section lending.
Context {R : Type} {HR : AsyncBytesRead R}.

(** [LentReader] of an archive: with the consumer, or given back at its end. *)
Inductive LentReader : Type := Held (x : NarBytesReader R) | Returned (x : NarBytesReader R).

Definition lent_fill_buf (l : LentReader) : LentReader * polled bytes :=
  match l with
  | Held x =>
      match nb_fill_buf x with
      | (x, Ready (Ok [])) => (Returned x, Ready (Ok []))
      | (x, q) => (Held x, q)
      end
  | Returned x => (Returned x, Ready (Ok []))
  end.

Definition lent_consume (l : LentReader) (amt : nat) : res io_error LentReader :=
  match l with
  | Held x => Held <$> nb_consume x amt
  | Returned x => if decide (amt = 0) then Ok (Returned x) else Panic
  end.

(** Dropping it gives the reader back. *)
Definition return_reader (l : LentReader) : NarBytesReader R :=
  match l with Held x | Returned x => x end.

(** [AsyncBufReadCompat] (compat.rs) over it. *)
Record Compat : Type := mk_compat { cp_reader : LentReader; cp_buffer : bytes }.

Definition cp_fill_buf (c : Compat) : Compat * polled bytes :=
  match cp_buffer c with
  | [] =>
      match lent_fill_buf (cp_reader c) with
      | (l, Ready (Ok b)) => (mk_compat l b, Ready (Ok b))
      | (l, q) => (mk_compat l [], q)
      end
  | b => (c, Ready (Ok b))
  end.

Definition cp_consume (c : Compat) (amt : nat) : res io_error Compat :=
  if decide (length (cp_buffer c) < amt) then Panic else
  l ← lent_consume (cp_reader c) amt; Ok (mk_compat l (drop amt (cp_buffer c))).

Definition cp_poll_read (c : Compat) (room : nat) : Compat * polled bytes :=
  match cp_fill_buf c with
  | (c, Ready (Ok [])) => (c, Ready (Ok []))
  | (c, Ready (Ok rem)) =>
      let amt := min (length rem) room in
      match cp_consume c amt with
      | Ok c => (c, Ready (Ok (take amt rem)))
      | Err e => (c, Ready (Err e))
      | Panic => (c, Ready Panic)
      end
  | y => y
  end.

(** [poll_drain] of [NarBytesReader], polled until it is ready. *)
Fixpoint nb_drain (fuel : nat) (x : NarBytesReader R) : NarBytesReader R * res io_error unit :=
  match fuel with
  | O => (x, Panic)
  | S fuel =>
      match nb_fill_buf x with
      | (x, Pending) => nb_drain fuel x
      | (x, Ready (Ok [])) => (x, Ok tt)
      | (x, Ready (Ok b)) =>
          match nb_consume x (length b) with
          | Ok x => nb_drain fuel x
          | Err e => (x, Err e)
          | Panic => (x, Panic)
          end
      | (x, Ready (Err e)) => (x, Err e)
      | (x, Ready Panic) => (x, Panic)
      end
  end.

(** [Lending]: a reader that is lent comes back, is drained, and is available
    again. *)
Inductive Lending : Type :=
| Lent (x : NarBytesReader R)
| Drain (x : NarBytesReader R)
| Available (r : R).

(** What a consumer does with an archive: it reads into buffers of [S room]
    bytes and drops the reader. *)
Inductive consumer (A : Type) : Type :=
| Stop (a : A)
| Read (room : nat) (k : res io_error bytes → consumer A).
Arguments Stop {A}.
Arguments Read {A}.

Context {HL : AsyncBytesReadBase R}.

Definition lent_patience (l : LentReader) : nat := patience (nb_reader (return_reader l)).

Definition cp_read (room : nat) (c : Compat) : Compat * res io_error bytes :=
  match poll_until (λ c, cp_poll_read c (S room)) (lent_patience (cp_reader c)) c with
  | (c, Ready a) => (c, a)
  | (c, Pending) => (c, Panic)
  end.

Fixpoint run_consumer {A} (p : consumer A) (c : Compat) : Compat * res io_error A :=
  match p with
  | Stop a => (c, Ok a)
  | Read room k =>
      match cp_read room c with
      | (c, Panic) => (c, Panic)
      | (c, r) => run_consumer (k r) c
      end
  end.

Definition drain_fuel (x : NarBytesReader R) : nat := S (length (rest (nb_reader x)) + patience (nb_reader x)).

Definition get_reader (l : Lending) : Lending * res io_error R :=
  match l with
  | Lent x | Drain x =>
      match nb_drain (drain_fuel x) x with
      | (x, Ok _) => (Available (nb_reader x), Ok (nb_reader x))
      | (x, Err e) => (Drain x, Err e)
      | (x, Panic) => (Drain x, Panic)
      end
  | Available r => (l, Ok r)
  end.
End lending.

Arguments Lending : clear implicits.
Arguments Stop {A}.
Arguments Read {A}.

(** ** [NixReader] as a reader of bytes *)

Section nix_reader.
Context {R : Type} {HR : AsyncBytesRead R}.

Definition on_inner {A} (x : NixReader R) (p : R * A) : NixReader R * A := (nr_set x p.1, p.2).

Definition nr_poll_read (x : NixReader R) (room : nat) : NixReader R * polled bytes :=
  match on_inner x (poll_fill_buf (nr_inner x)) with
  | (x, Ready (Ok [])) => (x, Ready (Ok []))
  | (x, Ready (Ok rem)) =>
      let amt := min (length rem) room in
      match consume (nr_inner x) amt with
      | Ok r => (nr_set x r, Ready (Ok (take amt rem)))
      | Err e => (x, Ready (Err e))
      | Panic => (x, Ready Panic)
      end
  | y => y
  end.

#[export] Instance NixReader_bytes : AsyncBytesRead (NixReader R) := {|
  poll_force_fill_buf x := on_inner x (poll_force_fill_buf (nr_inner x));
  poll_fill_buf x := on_inner x (poll_fill_buf (nr_inner x));
  prepare x n := nr_set x (prepare (nr_inner x) n);
  consume x n := nr_set x <$> consume (nr_inner x) n;
  poll_read := nr_poll_read
|}.

Context {HL : AsyncBytesReadBase R}.

(** The same limits, version and store directory. *)
Definition same_config (x y : NixReader R) : Prop :=
  nr_version y = nr_version x ∧ nr_store_dir y = nr_store_dir x ∧ nr_max_buf_size y = nr_max_buf_size x.

Lemma same_config_reader {SL : StringLimit R} x y : same_config x y → same_reader x y.
Proof using Type. intros (Hv & Hd & Hm). unfold same_reader. cbn. by rewrite Hm. Qed.

Lemma nr_poll_read_inner x room :
  (nr_poll_read x room).1 = nr_set x (nr_inner (nr_poll_read x room).1) ∧
  keeps_fits (nr_inner x) (nr_inner (nr_poll_read x room).1).
Proof using Type.
  unfold nr_poll_read, on_inner. destruct (poll_fill_buf (nr_inner x)) as [r q] eqn:E.
  assert (keeps_fits (nr_inner x) r) as Hk by (intros n; by apply (poll_fill_buf_fits _ _ q n)).
  destruct q as [[[|y b]|e|]|]; try done. cbn [fst snd nr_inner nr_set].
  destruct (consume r _) as [r2|e|] eqn:E2; [|done..]. split; [done|]. intros n Hn. cbn.
  eapply consume_fits; [exact E2|by apply Hk].
Qed.

(** Its laws, with the limits, the version and the store directory of [x0]. *)
Program Definition NixReader_bytes_laws (x0 : NixReader R) : AsyncBytesReadBase (NixReader R) := {|
  rd_inv x := rd_inv (nr_inner x) ∧ same_config x0 x;
  rest x := rest (nr_inner x);
  held x := held (nr_inner x);
  patience x := patience (nr_inner x);
  rd_fits x := rd_fits (nr_inner x)
|}.
Next Obligation. intros x0 x n m Hn Hm. exact (fits_le _ n m Hn Hm). Qed.
Next Obligation. intros x0 x [Hi _]. by apply held_prefix. Qed.
Next Obligation.
  intros x0 x x' p [Hi Hs] E. cbn in E. unfold on_inner in E. destruct (poll_fill_buf (nr_inner x)) as [r q] eqn:E1.
  injection E as <- <-. destruct (poll_fill_buf_law _ _ _ Hi E1) as (? & ? & ?). done.
Qed.
Next Obligation.
  intros x0 x x' p [Hi Hs] Hf E. cbn in E. unfold on_inner in E. destruct (poll_force_fill_buf (nr_inner x)) as [r q] eqn:E1.
  injection E as <- <-. destruct (force_fill_law _ _ _ Hi Hf E1) as (? & ? & ?). done.
Qed.
Next Obligation. intros x0 x n [Hi Hs] Hn. destruct (prepare_fits_law _ n Hi Hn) as (? & ? & ? & ?). done. Qed.
Next Obligation.
  intros x0 x n [Hi Hs] Hn. destruct (consume_law _ n Hi Hn) as (r & E & ? & ? & ? & ?). exists (nr_set x r).
  cbn. rewrite E. done.
Qed.
Next Obligation.
  intros x0 x room x' p [Hi Hs] Hroom E. cbn in E. unfold nr_poll_read, on_inner in E.
  destruct (poll_fill_buf (nr_inner x)) as [r q] eqn:E1. destruct (poll_fill_buf_law _ _ _ Hi E1) as (Hi1 & Hr1 & Hq).
  destruct q as [[b|e|]|]; try done; cbn in E.
  - destruct Hq as (-> & Hnil & _ & Hp). destruct (held r) as [|y b] eqn:Eh.
    { injection E as <- <-. cbn. split; [done|]. rewrite Hr1. rewrite Hnil by done. split_and!; [done|cbn; lia|done|done]. }
    set (n := min (length (y :: b)) room) in *.
    destruct (consume_law r n Hi1) as (r2 & E2 & Hi2 & Hr2 & _ & Hp2); [rewrite Eh; lia|].
    rewrite E2 in E. injection E as <- <-. cbn. split; [done|]. rewrite Hr2, Hr1.
    destruct (held_prefix r Hi1) as [more Hmore]. rewrite Eh, Hr1 in Hmore. rewrite Hmore.
    split_and!.
    + rewrite drop_app_le by lia. by rewrite app_assoc, take_drop.
    + rewrite length_take. destruct room; lia.
    + unfold n. destruct room; [lia|done].
    + lia.
  - injection E as <- <-. cbn. by destruct Hq.
Qed.
Next Obligation.
  intros x0 x x' p n E. cbn in E. unfold on_inner in E. destruct (poll_fill_buf (nr_inner x)) as [r q] eqn:E1.
  injection E as <- <-. by apply (poll_fill_buf_fits _ _ q n).
Qed.
Next Obligation.
  intros x0 x x' p n E. cbn in E. unfold on_inner in E. destruct (poll_force_fill_buf (nr_inner x)) as [r q] eqn:E1.
  injection E as <- <-. by apply (force_fill_fits _ _ q n).
Qed.
Next Obligation. intros x0 x m n. apply prepare_fits. Qed.
Next Obligation.
  intros x0 x m x' n E. cbn in E. destruct (consume (nr_inner x) m) as [r| |] eqn:E1; [|done..].
  injection E as <-. by apply (consume_fits _ m).
Qed.
Next Obligation.
  intros x0 x room x' p n E. destruct (nr_poll_read_inner x room) as [_ Hk]. change (nr_poll_read x room = (x', p)) in E. rewrite E in Hk. apply Hk.
Qed.
End nix_reader.

(** ** Reading the stream *)

Section parse.
Context {DE : DataEncoding}.
Context {R : Type} {HR : AsyncBytesRead R} {HL : AsyncBytesReadBase R}.

Abbreviation reader := (NixReader R).

(** [SizedStream]: the number of items, for [size_hint], and the stream. *)
Record MultiStream : Type := mk_multi { ms_count : nat; ms_source : Lending reader }.

Definition ms_size_hint (s : MultiStream) : nat * option nat := (0, Some (ms_count s)).

Definition parse_add_multiple_to_store (source : reader) : reader * res DaemonError MultiStream :=
  match io_try read_number source with
  | (source, Ok count) => (source, Ok (mk_multi (Z.to_nat count) (Available source)))
  | (source, Err e) => (source, Err e)
  | (source, Panic) => (source, Panic)
  end.

Definition source_of (l : Lending reader) : reader :=
  match l with Lent x | Drain x => nb_reader x | Available r => r end.

(** The data of the next item. *)
Definition next_info (source : Lending reader) : Lending reader * res DaemonError ValidPathInfo :=
  match get_reader (HL := NixReader_bytes_laws (source_of source)) source with
  | (l, Ok r) => let '(r, info) := io_try (read_value ValidPathInfo) r in (Available r, info)
  | (l, Err e) => (l, Err (from_io e))
  | (l, Panic) => (l, Panic)
  end.

(** Its archive, with the consumer. *)
Definition lend_archive (source : Lending reader) : Compat := mk_compat (Held (nb_new (source_of source))) [].

(** One item of the stream, handed to a consumer. *)
Definition next_item {A} (f : ValidPathInfo → consumer A) (source : Lending reader) : Lending reader * res DaemonError A :=
  match next_info source with
  | (source, Ok info) =>
      let '(c, a) := run_consumer (HL := NixReader_bytes_laws (source_of source)) (f info) (lend_archive source) in
      (Lent (return_reader (cp_reader c)), res_map_err from_io a)
  | (source, Err e) => (source, Err e)
  | (source, Panic) => (source, Panic)
  end.

(** The whole stream, every item with its consumer. *)
Fixpoint for_each {A} (f : ValidPathInfo → consumer A) (n : nat) (source : Lending reader) :
    Lending reader * res DaemonError (list A) :=
  match n with
  | O => (source, Ok [])
  | S n =>
      match next_item f source with
      | (source, Ok a) =>
          match for_each f n source with
          | (source, Ok l) => (source, Ok (a :: l))
          | (source, Err e) => (source, Err e)
          | (source, Panic) => (source, Panic)
          end
      | (source, Err e) => (source, Err e)
      | (source, Panic) => (source, Panic)
      end
  end.
End parse.

(** ** What a consumer gets *)

(** The pieces that reads give are those of the archive, never empty before its
    end. *)
Inductive fed {A} : consumer A → bytes → A → Prop :=
| fed_stop a out : fed (Stop a) out a
| fed_read room k b out a :
    length b ≤ S room → (b = [] → out = []) → fed (k (Ok b)) out a → fed (Read room k) (b ++ out) a.

Section spec.
Context {R : Type} {HR : AsyncBytesRead R} {HL : AsyncBytesReadBase R}.

Lemma nb_drain_spec fuel : ∀ (x : NarBytesReader R) out junk,
  nb_at x out junk → length out + patience (nb_reader x) < fuel →
  ∃ x', nb_drain fuel x = (x', Ok tt) ∧ nb_at x' [] junk.
Proof.
  induction fuel as [|fuel IH]; intros x out junk Hat Hf; [lia|]. cbn [nb_drain].
  destruct (nb_fill_buf x) as [x1 q] eqn:E. apply (nb_fill_spec x out junk) in E as [Hat1 Hq]; [|done].
  destruct q as [[b|e|]|]; try done; [|by apply (IH x1 out junk); [|lia]].
  destruct Hq as ([out' ->] & Hl & Hnil & Hp). destruct b as [|y b].
  - exists x1. split; [done|]. by rewrite <-(Hnil eq_refl).
  - destruct (nb_consume_spec x1 _ junk (length (y :: b)) Hat1) as (x2 & -> & Hat2 & Hp2); [lia|].
    rewrite drop_app_length in Hat2. rewrite length_app in Hf. cbn [length] in Hf. apply (IH x2 out'); [done|lia].
Qed.

(** What is still to come of the archive is [out]. *)
Definition compat_at (c : Compat) (out junk : bytes) : Prop :=
  match cp_reader c with
  | Held x => nb_at x out junk ∧ cp_buffer c `prefix_of` out ∧ length (cp_buffer c) ≤ nb_parsed x
  | Returned x => nb_at x [] junk ∧ out = [] ∧ cp_buffer c = []
  end.

Lemma cp_fill_spec c out junk c' q :
  compat_at c out junk → cp_fill_buf c = (c', q) → compat_at c' out junk ∧
  match q with
  | Pending => lent_patience (cp_reader c') < lent_patience (cp_reader c)
  | Ready (Ok b) => b = cp_buffer c' ∧ (b = [] → out = []) ∧ lent_patience (cp_reader c') ≤ lent_patience (cp_reader c)
  | _ => False
  end.
Proof.
  intros Hat E. unfold cp_fill_buf in E. destruct (cp_buffer c) as [|y b] eqn:Eb.
  2:{ injection E as <- <-. split; [done|]. by rewrite Eb. }
  unfold compat_at in Hat. destruct (cp_reader c) as [x|x] eqn:Er; cbn [lent_fill_buf] in E.
  - destruct Hat as (Hat & _ & _). destruct (nb_fill_buf x) as [x1 q1] eqn:E1.
    apply (nb_fill_spec x out junk) in E1 as [Hat1 Hq]; [|done]. destruct q1 as [[b|e|]|]; try done.
    + destruct Hq as (Hpre & Hl & Hnil & Hp). destruct b as [|y b]; injection E as <- <-; cbn.
      * specialize (Hnil eq_refl). subst out. done.
      * split; [|done]. split; [done|]. split; [done|]. by rewrite <-Hl.
    + injection E as <- <-. cbn. split; [|done]. split; [done|]. split; [apply prefix_nil|cbn; lia].
  - destruct Hat as (Hat & -> & _). injection E as <- <-. cbn. done.
Qed.

Lemma cp_poll_read_spec c out junk room c' q :
  compat_at c out junk → 0 < room → cp_poll_read c room = (c', q) →
  match q with
  | Pending => compat_at c' out junk ∧ lent_patience (cp_reader c') < lent_patience (cp_reader c)
  | Ready (Ok b) => ∃ out', out = b ++ out' ∧ compat_at c' out' junk ∧ length b ≤ room ∧ (b = [] → out = [])
  | _ => False
  end.
Proof.
  intros Hat Hroom E. unfold cp_poll_read in E. destruct (cp_fill_buf c) as [c1 q1] eqn:E1.
  apply (cp_fill_spec c out junk) in E1 as [Hat1 Hq]; [|done]. destruct q1 as [[b|e|]|]; try done; [|by injection E as <- <-].
  destruct Hq as (-> & Hnil & Hp). destruct (cp_buffer c1) as [|y b] eqn:Eb.
  { injection E as <- <-. exists out. split; [done|]. split; [done|]. split; [cbn; lia|done]. }
  rewrite <-Eb in *. set (n := min (length (cp_buffer c1)) room) in *. unfold cp_consume in E.
  rewrite decide_False in E by lia. unfold compat_at in Hat1. destruct (cp_reader c1) as [x|x] eqn:Er; cbn [lent_consume] in E.
  - destruct Hat1 as (Hat1 & [more ->] & Hl). destruct (nb_consume_spec x _ junk n Hat1) as (x2 & Ec & Hat2 & Hp2); [lia|].
    rewrite Ec in E. cbn [fmap res_fmap mbind res_bind] in E. injection E as <- <-.
    exists (drop n (cp_buffer c1) ++ more). rewrite app_assoc, take_drop. rewrite drop_app_le in Hat2 by lia.
    split; [done|]. split_and!.
    + cbn. split; [done|]. split; [by apply prefix_app_r|]. rewrite length_drop. unfold nb_consume in Ec.
      rewrite decide_False in Ec by lia. destruct (consume (nb_reader x) n); [|done|done].
      injection Ec as <-. cbn. lia.
    + rewrite length_take. lia.
    + intros H%(f_equal length). rewrite length_take, Eb in H. unfold n in H. rewrite Eb in H. cbn in H. destruct room; cbn in *; lia.
  - destruct Hat1 as (_ & _ & Hb). by rewrite Eb in Hb.
Qed.

Lemma cp_read_spec room c out junk : compat_at c out junk →
  ∃ c' b out', cp_read room c = (c', Ok b) ∧ out = b ++ out' ∧ compat_at c' out' junk ∧ length b ≤ S room ∧ (b = [] → out = []).
Proof.
  intros Hat. unfold cp_read.
  destruct (poll_until_ind (λ c, cp_poll_read c (S room)) (λ c, lent_patience (cp_reader c)) (λ c, compat_at c out junk)
    (λ c a, ∃ b out', a = Ok b ∧ out = b ++ out' ∧ compat_at c out' junk ∧ length b ≤ S room ∧ (b = [] → out = [])))
    with (fuel := lent_patience (cp_reader c)) (r := c) as (c1 & a1 & E & b & out' & -> & ?); [|done|done|].
  { intros c1 c2 q Hc E. apply (cp_poll_read_spec c1 out junk) in E; [|done|lia].
    destruct q as [[b|e|]|]; try done. destruct E as (out' & ? & ? & ? & ?). eauto 10. }
  rewrite E. by exists c1, b, out'.
Qed.

Lemma run_consumer_spec {A} (p : consumer A) : ∀ c out junk, compat_at c out junk →
  ∃ c' a left, run_consumer p c = (c', Ok a) ∧ fed p out a ∧ compat_at c' left junk ∧ left `suffix_of` out.
Proof.
  induction p as [a|room k IH]; intros c out junk Hat.
  { exists c, a, out. split; [done|]. split; [constructor|]. done. }
  cbn [run_consumer]. destruct (cp_read_spec room c out junk Hat) as (c1 & b & out' & -> & -> & Hat1 & Hb & Hnil).
  destruct (IH (Ok b) c1 out' junk Hat1) as (c2 & a & left & -> & Hfed & Hat2 & Hsuf).
  exists c2, a, left. split; [done|]. split; [|split; [done|by apply suffix_app_r]].
  constructor; [done| |done]. intros ->. by apply Hnil.
Qed.

Lemma return_reader_at c left junk : compat_at c left junk → ∃ left', nb_at (return_reader (cp_reader c)) left' junk ∧ left' `suffix_of` left.
Proof.
  unfold compat_at. destruct (cp_reader c) as [x|x].
  - intros (? & _). by exists left.
  - intros (? & -> & _). by exists [].
Qed.
End spec.

(** ** The stream *)

(** The bytes of the stream. *)
Definition item_bytes {DE : DataEncoding} {DL : DataEncodingLaws} (E : env) (i : ValidPathInfo * node) : bytes :=
  codec_bytes E i.1 ++ nar i.2.

Definition multi_bytes {DE : DataEncoding} {DL : DataEncodingLaws} (E : env) (items : list (ValidPathInfo * node)) : bytes :=
  u64_to_le_bytes (Z.of_nat (length items)) ++ concat (item_bytes E <$> items).

Definition items_ok {DE : DataEncoding} {DL : DataEncodingLaws} (E : env) (items : list (ValidPathInfo * node)) : Prop :=
  Forall (λ i, codec_ok E i.1 ∧ node_wf i.2) items ∧ is_u64 (Z.of_nat (length items)).

Section written.
Context {DE : DataEncoding} {DL : DataEncodingLaws}.
Context {WS : Type} {HW : NixWrite WS} {HWL : NixWriteLaws WS} {HA : AsyncWriter WS} {HAL : AsyncWriterLaws WS}.

Lemma copy_buf_writes E chunks : Forall (λ c, c ≠ []) chunks → writes (S := WS) E (copy_buf (Ok <$> chunks)) (concat chunks).
Proof using HAL.
  induction 1 as [|c chunks Hc _ IH]; intros s d Hs He.
  - destruct (flush_law s d Hs) as (s' & E1 & Hs' & Hsame & _). exists s'. rewrite app_nil_r. eauto using w_env_same.
  - destruct c as [|y c]; [done|]. cbn [fmap list_fmap copy_buf concat].
    destruct (write_all_law s d (y :: c) Hs) as (s1 & E1 & Hs1 & Hsame).
    destruct (IH s1 _ Hs1 (w_env_same _ _ _ Hsame He)) as (s2 & E2 & Hs2 & He2). exists s2.
    rewrite (io_bind_Ok _ _ _ _ _ E1), app_assoc. done.
Qed.

(** The items of a stream with their archives in pieces. *)
Definition gives (i : ValidPathInfo * node) (chunks : list bytes) : Prop :=
  Forall (λ c, c ≠ []) chunks ∧ concat chunks = nar i.2.

Definition stream_of (items : list (ValidPathInfo * node)) (pieces : list (list bytes)) :
    list (res DaemonError (AddToStoreItem (list (res io_error bytes)))) :=
  zip_with (λ i chunks, Ok (mk_item i.1 (Ok <$> chunks))) items pieces.

Lemma write_items_ok E size items pieces : Forall2 gives items pieces → Forall (λ i, codec_ok E i.1 ∧ node_wf i.2) items →
  ∀ idx written (w : WS) d, nw_at w d → w_env E w → idx + length items ≤ size →
  ∃ w', write_items size idx written (stream_of items pieces) w = (w', Ok (written + length items)) ∧
    nw_at w' (d ++ concat (item_bytes E <$> items)) ∧ w_env E w'.
Proof using HAL DL.
  induction 1 as [|[info t] chunks items pieces [Hne Hc] _ IH]; intros Hok idx written w d Hw He Hle.
  { exists w. cbn. rewrite app_nil_r, Nat.add_0_r. done. }
  apply Forall_cons in Hok as [[Hinfo Ht] Hok]. cbn [fst snd length] in *. cbn [stream_of zip_with write_items fst].
  rewrite decide_False by lia. rewrite (eff_bind_Ok _ _ w w (mk_item info (Ok <$> chunks))) by done.
  destruct (codec_writes E info Hinfo WS HW HWL w d Hw He) as (w1 & E1 & Hw1 & He1).
  rewrite (eff_bind_Ok _ _ w w1 tt) by (by apply eff_map_err_Ok).
  destruct (copy_buf_writes E chunks Hne w1 _ Hw1 He1) as (w2 & E2 & Hw2 & He2).
  rewrite (eff_bind_Ok _ _ w1 w2 tt) by (by apply eff_map_err_Ok).
  destruct (IH Hok (S idx) (S written) w2 _ Hw2 He2) as (w3 & E3 & Hw3 & He3); [lia|].
  exists w3. change (zip_with _ items pieces) with (stream_of items pieces). rewrite E3.
  split; [do 2 f_equal; lia|]. split; [|done]. rewrite Hc in Hw3. cbn [fmap list_fmap concat]. unfold item_bytes at 1. cbn [fst snd].
  rewrite <-!app_assoc in Hw3. rewrite <-!app_assoc. exact Hw3.
Qed.

Lemma written_exactly E items pieces : items_ok E items → Forall2 gives items pieces →
  ∀ (w : WS) d, nw_at w d → w_env E w →
  ∃ w', write_add_multiple_to_store_stream (Some (length items)) (stream_of items pieces) w = (w', Ok (length items)) ∧
    nw_at w' (d ++ multi_bytes E items) ∧ w_env E w'.
Proof using HAL DL.
  intros [Hok Hn] Hg w d Hw He. unfold write_add_multiple_to_store_stream.
  destruct (codec_writes E (uint (Z.of_nat (length items)) : usize)) with (S := WS) (HW := HW) (HWL := HWL) (s := w) (d := d)
    as (w1 & E1 & Hw1 & He1); [split; exact Hn|done|done|].
  rewrite (eff_bind_Ok _ _ w w1 tt) by (by apply eff_map_err_Ok).
  destruct (write_items_ok E (length items) items pieces Hg Hok 0 0 w1 _ Hw1 He1) as (w2 & E2 & Hw2 & He2); [lia|].
  rewrite (eff_bind_Ok _ _ w1 w2 (length items)) by exact E2. rewrite decide_False by (intros Hx; by apply Hx).
  exists w2. split; [done|]. split; [|done]. unfold multi_bytes. by rewrite <-app_assoc in Hw2.
Qed.

(** A stream of another length than it says ends in an error. *)
Lemma write_count size items pieces E : Forall2 gives items pieces → Forall (λ i, codec_ok E i.1 ∧ node_wf i.2) items →
  length items ≠ size → ∀ (w : WS) d, nw_at w d → w_env E w → is_u64 (Z.of_nat size) →
  ∃ w' e, write_add_multiple_to_store_stream (Some size) (stream_of items pieces) w = (w', Err e).
Proof using HAL DL.
  intros Hg Hok Hne w d Hw He Hu. unfold write_add_multiple_to_store_stream.
  destruct (codec_writes E (uint (Z.of_nat size) : usize)) with (S := WS) (HW := HW) (HWL := HWL) (s := w) (d := d)
    as (w1 & E1 & Hw1 & He1); [split; exact Hu|done|done|].
  rewrite (eff_bind_Ok _ _ w w1 tt) by (by apply eff_map_err_Ok).
  assert (∀ items pieces, Forall2 gives items pieces → Forall (λ i, codec_ok E i.1 ∧ node_wf i.2) items →
    ∀ idx written (w : WS) d, nw_at w d → w_env E w → size < idx + length items → idx ≤ size →
    ∃ w' e, write_items size idx written (stream_of items pieces) w = (w', Err e)) as Hmore.
  { clear -HAL. induction 1 as [|[info t] chunks items pieces [Hne Hc] _ IH]; intros Hok idx written w d Hw He Hlt Hle; cbn [length] in Hlt; [lia|].
    apply Forall_cons in Hok as [[Hinfo Ht] Hok]. cbn [fst snd] in *. cbn [stream_of zip_with write_items fst].
    case_decide as Hd; [eexists _, _; done|]. rewrite (eff_bind_Ok _ _ w w (mk_item info (Ok <$> chunks))) by done.
    destruct (codec_writes E info Hinfo WS HW HWL w d Hw He) as (w1 & E1 & Hw1 & He1).
    rewrite (eff_bind_Ok _ _ w w1 tt) by (by apply eff_map_err_Ok).
    destruct (copy_buf_writes E chunks Hne w1 _ Hw1 He1) as (w2 & E2 & Hw2 & He2).
    rewrite (eff_bind_Ok _ _ w1 w2 tt) by (by apply eff_map_err_Ok). eapply IH; [done|done|done|lia|lia]. }
  destruct (decide (size < length items)) as [Hlt|Hge].
  - destruct (Hmore items pieces Hg Hok 0 0 w1 _ Hw1 He1) as (w2 & e & E2); [lia|lia|].
    exists w2, e. by rewrite (eff_bind_Err _ _ _ _ _ E2).
  - destruct (write_items_ok E size items pieces Hg Hok 0 0 w1 _ Hw1 He1) as (w2 & E2 & _); [lia|].
    rewrite (eff_bind_Ok _ _ w1 w2 _ E2). rewrite decide_True by (cbn; lia). by eexists _, _.
Qed.
End written.

Section read_back.
Context {DE : DataEncoding} {DL : DataEncodingLaws}.
Context {R : Type} {HR : AsyncBytesRead R} {HL : AsyncBytesReadBase R} {SL : StringLimit R}.

(** The source before an item: [left] of the archive before it is unread. *)
Definition source_at (E : env) (l : Lending (NixReader R)) (left tl : bytes) : Prop :=
  ∃ s0, r_env E s0 ∧
  match l with
  | Available r => left = [] ∧ rd_inv (nr_inner r) ∧ same_config s0 r ∧ rest (nr_inner r) = tl
  | Lent x | Drain x => nb_at (HB := NixReader_bytes_laws s0) x left tl
  end.

Lemma get_reader_ok E l left tl : source_at E l left tl →
  ∃ l' r, get_reader (HL := NixReader_bytes_laws (source_of l)) l = (l', Ok r) ∧
    rd_inv (nr_inner r) ∧ r_env E r ∧ rest (nr_inner r) = tl.
Proof.
  intros (s0 & He & Hl). destruct l as [x|x|r]; cbn [get_reader].
  3:{ destruct Hl as (-> & Hi & Hs & Hr). eexists _, r. split; [done|]. split_and!; [done|by eapply r_env_same; [apply same_config_reader|]|done]. }
  all: destruct (nb_drain_spec (HL := NixReader_bytes_laws s0) (drain_fuel (HL := NixReader_bytes_laws s0) x) x left tl Hl) as (x' & E1 & Hat);
    [unfold drain_fuel; destruct Hl as (_ & Hr & _); rewrite Hr, length_app; lia|].
  all: change (drain_fuel (HL := NixReader_bytes_laws (nb_reader x)) x) with (drain_fuel (HL := NixReader_bytes_laws s0) x).
  all: cbn [source_of]; change (drain_fuel x) with (drain_fuel (HL := NixReader_bytes_laws s0) x); rewrite E1.
  all: destruct Hat as ([Hi Hs] & Hr & _); eexists _, _; split; [done|]; split_and!; [done|by eapply r_env_same; [apply same_config_reader|]|done].
Qed.

Lemma parse_ok E count (r : NixReader R) tl :
  is_u64 (Z.of_nat count) → rd_inv (nr_inner r) → r_env E r → rest (nr_inner r) = u64_to_le_bytes (Z.of_nat count) ++ tl →
  ∃ r', parse_add_multiple_to_store r = (r', Ok (mk_multi count (Available r'))) ∧ source_at E (Available r') [] tl.
Proof.
  intros Hn Hi He Hr.
  destruct (@reads_or_eof (NixReader R) NixReader_read NixReader_laws _ E _ _ _ (reads_number E (Z.of_nat count) Hn) r _ Hi He Hr) as (r1 & E1 & Hi1 & He1 & Hr1).
  exists r1. unfold parse_add_multiple_to_store.
  assert (io_try read_number r = (r1, Ok (Z.of_nat count))) as -> by (by apply eff_map_err_Ok). rewrite Nat2Z.id.
  split; [done|]. by exists r1.
Qed.

Lemma next_info_ok E l left info t tl :
  codec_ok E info → node_wf t → source_at E l left (item_bytes E (info, t) ++ tl) →
  ∃ l', next_info l = (l', Ok info) ∧ r_env E (source_of l') ∧
    compat_at (HL := NixReader_bytes_laws (source_of l')) (lend_archive l') (nar t) tl.
Proof.
  intros Hinfo Ht Hl. destruct (get_reader_ok _ _ _ _ Hl) as (l1 & r & E1 & Hi & He & Hr). unfold next_info. rewrite E1.
  unfold item_bytes in Hr. cbn [fst snd] in Hr. rewrite <-app_assoc in Hr.
  destruct (codec_reads_value E info Hinfo (NixReader R) NixReader_read NixReader_laws r (nar t ++ tl) Hi He Hr) as (r1 & E2 & Hi1 & He1 & Hr1).
  assert (io_try (read_value ValidPathInfo) r = (r1, Ok info)) as -> by (by apply eff_map_err_Ok).
  eexists. split; [done|]. split; [done|]. split; [|split; [apply prefix_nil|cbn; lia]].
  apply nb_new_at; [split; [exact Hi1|done]|exact Hr1|done].
Qed.

Lemma next_item_ok {A} E (f : ValidPathInfo → consumer A) l left info t tl :
  codec_ok E info → node_wf t → source_at E l left (item_bytes E (info, t) ++ tl) →
  ∃ l' a left', next_item f l = (l', Ok a) ∧ fed (f info) (nar t) a ∧ source_at E l' left' tl ∧ left' `suffix_of` nar t.
Proof.
  intros Hinfo Ht Hl. destruct (next_info_ok E l left info t tl Hinfo Ht Hl) as (l1 & E1 & He1 & Hc).
  unfold next_item. rewrite E1. set (r1 := source_of l1) in *.
  destruct (run_consumer_spec (HL := NixReader_bytes_laws r1) (f info) _ _ _ Hc) as (c & a & left1 & -> & Hfed & Hc1 & Hsuf).
  destruct (return_reader_at (HL := NixReader_bytes_laws r1) _ _ _ Hc1) as (left2 & Hat & Hsuf2).
  eexists _, a, left2. split; [done|]. split; [done|]. split; [by exists r1|by etrans].
Qed.

(** C19. The stream of several paths carries them whole: what is written for any
    list of paths with well-formed archives, their contents given in pieces of
    any size, is read as the same data in the same order, and each consumer is
    fed exactly the archive that belongs to its path, wherever the consumers
    before it stopped reading; when the reader of the last one is back and
    drained, what follows the stream is next. *)
Theorem multiple_roundtrip {WS : Type} {HW : NixWrite WS} {HWL : NixWriteLaws WS} {HA : AsyncWriter WS} {HAL : AsyncWriterLaws WS}
    {A : Type} (E : env) (items : list (ValidPathInfo * node)) (pieces : list (list bytes)) (w : WS) (d : bytes)
    (r : NixReader R) (tl : bytes) (f : ValidPathInfo → consumer A) :
  items_ok E items → Forall2 gives items pieces → nw_at w d → w_env E w →
  rd_inv (nr_inner r) → r_env E r → rest (nr_inner r) = multi_bytes E items ++ tl →
  (∃ w', write_add_multiple_to_store_stream (Some (length items)) (stream_of items pieces) w = (w', Ok (length items)) ∧
    nw_at w' (d ++ multi_bytes E items)) ∧
  ∃ r' s l results l' r'', parse_add_multiple_to_store r = (r', Ok s) ∧ ms_size_hint s = (0, Some (length items)) ∧
    for_each f (ms_count s) (ms_source s) = (l, Ok results) ∧ Forall2 (λ i a, fed (f i.1) (nar i.2) a) items results ∧
    get_reader (HL := NixReader_bytes_laws (source_of l)) l = (l', Ok r'') ∧ rest (nr_inner r'') = tl.
Proof using DL SL.
  intros Hok Hg Hw He Hi Hre Hr. split.
  { destruct (written_exactly E items pieces Hok Hg w d Hw He) as (w' & E1 & Hw' & _). by exists w'. }
  destruct Hok as [Hok Hn]. unfold multi_bytes in Hr. rewrite <-app_assoc in Hr.
  destruct (parse_ok E (length items) r _ Hn Hi Hre Hr) as (r1 & E1 & Hl1). exists r1. eexists.
  assert (∀ l left, source_at E l left (concat (item_bytes E <$> items) ++ tl) →
    ∃ l' results left', for_each f (length items) l = (l', Ok results) ∧
      Forall2 (λ i a, fed (f i.1) (nar i.2) a) items results ∧ source_at E l' left' tl) as Hrun.
  { clear -Hok. induction Hok as [|[info t] items [Hinfo Ht] _ IH]; intros l left Hl.
    { exists l, [], left. split; [done|]. split; [constructor|done]. }
    cbn [fmap list_fmap concat] in Hl. rewrite <-app_assoc in Hl.
    destruct (next_item_ok E f l left info t _ Hinfo Ht Hl) as (l1 & a & left1 & E1 & Hfed & Hl1 & _).
    destruct (IH l1 left1 Hl1) as (l2 & results & left2 & E2 & Hall & Hl2). cbn [length for_each]. rewrite E1, E2.
    eexists _, _, left2. split; [done|]. split; [by constructor|done]. }
  destruct (Hrun (Available r1) [] Hl1) as (l & results & left & E2 & Hall & Hl).
  destruct (get_reader_ok _ _ _ _ Hl) as (l' & r'' & E3 & _ & _ & Hr'').
  exists l, results, l', r''. split; [exact E1|]. done.
Qed.
End read_back.

(** ** A concrete use *)

Definition two_items : list (ValidPathInfo * node) :=
  [(toy_info, FileNode false (str "hi")); (toy_info, SymlinkNode (str "../x"))].

Definition ten_bytes (i : ValidPathInfo) : consumer (res io_error bytes) := Read 9 (λ b, Stop b).

Lemma multiple_roundtrip_witness :
  let r := small_reader [None; Some (multi_bytes small_env two_items ++ str "next")] in
  (∃ w', write_add_multiple_to_store_stream (Some 2)
      (stream_of two_items [[nar (FileNode false (str "hi"))]; [nar (SymlinkNode (str "../x"))]]) (small_writer [None; Some 7]) = (w', Ok 2) ∧
    nw_at w' (multi_bytes small_env two_items)) ∧
  ∃ r' s l results, parse_add_multiple_to_store r = (r', Ok s) ∧
    for_each ten_bytes (ms_count s) (ms_source s) = (l, Ok results) ∧
    Forall2 (λ i a, fed (ten_bytes i.1) (nar i.2) a) two_items results.
Proof.
  intros r. destruct (small_reader_at (multi_bytes small_env two_items ++ str "next")) as (Hi & He & Hr);
    [vm_compute; discriminate|vm_compute; lia|].
  destruct (multiple_roundtrip (R := BytesReader source) (WS := NixWriter sink) small_env two_items
    [[nar (FileNode false (str "hi"))]; [nar (SymlinkNode (str "../x"))]] (small_writer [None; Some 7]) [] r (str "next") ten_bytes)
    as [Hw (r' & s & l & results & l' & r'' & H1 & _ & H2 & H3 & _)].
  - split; [|split; vm_compute; congruence]. destruct toy_info_ok as [Ht _].
    repeat (apply Forall_cons; split); [..|apply Forall_nil_2]; (split; [exact Ht|]); split; vm_compute; congruence.
  - repeat (apply Forall2_cons; split); [..|apply Forall2_nil; exact I];
      (split; [apply Forall_singleton; vm_compute; discriminate|cbn [concat snd]; apply app_nil_r]).
  - apply small_writer_at. repeat constructor; discriminate.
  - exact (small_writer_env _).
  - exact Hi.
  - exact He.
  - exact Hr.
  - split; [exact Hw|]. exists r', s, l, results. split; [exact H1|]. split; [exact H2|exact H3].
Defined.
