(* ===== verification/DrvInputs.v ===== *)
(** The inputs of a derivation ([harmonia-store-core/src/derivation/inputs.rs]):
    a set of derived paths, and the trie [DerivationInputs] that the JSON form
    uses, with the conversions between the two. *)

From stdpp Require Import base sets list numbers strings sorting.
From Stdlib Require Import ZArith Lia Strings.Byte.
From S2P Require Import Prelude Async StorePath DerivedPath NixIO NixCodec WireTypes.

(** ** The types *)

Inductive OutputInputs : Type := mk_output_inputs {
  oi_outputs : BTreeSet OutputName;
  oi_dynamic_outputs : BTreeMap OutputName OutputInputs
}.

Definition OutputInputs_default : OutputInputs := mk_output_inputs (mk_set []) (mk_map []).

Record DerivationInputs : Type := mk_inputs {
  di_srcs : BTreeSet StorePath;
  di_drvs : BTreeMap StorePath OutputInputs
}.

Definition DerivationInputs_default : DerivationInputs := mk_inputs (mk_set []) (mk_map []).

(** The derived order of derived paths: [Built] comes before [Opaque]. *)
Fixpoint Single_cmp (x y : SingleDerivedPath) : comparison :=
  match x, y with
  | SBuilt d o, SBuilt d' o' => match Single_cmp d d' with Eq => cmp o o' | c => c end
  | SBuilt _ _, SOpaque _ => Lt
  | SOpaque _, SBuilt _ _ => Gt
  | SOpaque p, SOpaque p' => cmp p p'
  end.

#[export] Instance Single_ord : Ord SingleDerivedPath := Single_cmp.

(** ** From the trie to the set *)

Fixpoint expand_outputs (drv_path : SingleDerivedPath) (output_inputs : OutputInputs)
    (paths : list SingleDerivedPath) : list SingleDerivedPath :=
  let paths := fold_left (λ paths output, insert_elem (SBuilt drv_path output) paths)
                 (elems (oi_outputs output_inputs)) paths in
  (fix each (l : list (OutputName * OutputInputs)) (paths : list SingleDerivedPath) :=
     match l with
     | [] => paths
     | (output_name, nested_outputs) :: l =>
         each l (expand_outputs (SBuilt drv_path output_name) nested_outputs paths)
     end) (entries (oi_dynamic_outputs output_inputs)) paths.

(** [BTreeSet::from(&DerivationInputs)]. *)
Definition paths_of_inputs (inputs : DerivationInputs) : BTreeSet SingleDerivedPath :=
  let paths := fold_left (λ paths src, insert_elem (SOpaque src) paths) (elems (di_srcs inputs)) [] in
  mk_set (fold_left (λ paths kv, expand_outputs (SOpaque kv.1) kv.2 paths) (entries (di_drvs inputs)) paths).

(** ** From the set to the trie *)

(** [entry(k).or_default()], with what is done to the slot. *)
Fixpoint at_entry {K} {HO : Ord K} (k : K) (f : OutputInputs → OutputInputs) (l : list (K * OutputInputs)) :
    list (K * OutputInputs) :=
  match l with
  | [] => [(k, f OutputInputs_default)]
  | (k', v) :: l' =>
      match cmp k k' with
      | Lt => (k, f OutputInputs_default) :: l
      | Eq => (k', f v) :: l'
      | Gt => (k', v) :: at_entry k f l'
      end
  end.

(** [ensure_slot], with what is done to the slot it returns. *)
Fixpoint ensure_slot (k : SingleDerivedPath) (f : OutputInputs → OutputInputs)
    (drvs : list (StorePath * OutputInputs)) : list (StorePath * OutputInputs) :=
  match k with
  | SOpaque store_path => at_entry store_path f drvs
  | SBuilt drv_path output =>
      ensure_slot drv_path
        (λ node, mk_output_inputs (oi_outputs node) (mk_map (at_entry output f (entries (oi_dynamic_outputs node)))))
        drvs
  end.

Definition insert_output (output : OutputName) (slot : OutputInputs) : OutputInputs :=
  mk_output_inputs (mk_set (insert_elem output (elems (oi_outputs slot)))) (oi_dynamic_outputs slot).

Definition add_path (result : DerivationInputs) (path : SingleDerivedPath) : DerivationInputs :=
  match path with
  | SOpaque store_path =>
      mk_inputs (mk_set (insert_elem store_path (elems (di_srcs result)))) (di_drvs result)
  | SBuilt drv_path output =>
      mk_inputs (di_srcs result)
        (mk_map (ensure_slot drv_path (insert_output output) (entries (di_drvs result))))
  end.

(** [DerivationInputs::from(&BTreeSet)]. *)
Definition inputs_of_paths (paths : BTreeSet SingleDerivedPath) : DerivationInputs :=
  fold_left add_path (elems paths) DerivationInputs_default.

(** ** The order *)

Lemma Single_cmp_eq a b : Single_cmp a b = Eq ↔ a = b.
Proof.
  revert b. induction a as [d IH o|p]; intros [d' o'|p']; cbn; try done; [|rewrite cmp_eq; naive_solver].
  specialize (IH d'). destruct (Single_cmp d d').
  - rewrite (proj1 IH eq_refl), cmp_eq. naive_solver.
  - split; [done|]. intros [= -> ->]. by rewrite (proj2 IH eq_refl).
  - split; [done|]. intros [= -> ->]. by rewrite (proj2 IH eq_refl).
Qed.

#[export] Instance Single_ord_laws : OrdLaws SingleDerivedPath.
Proof.
  split; unfold cmp at 1, Single_ord; [apply Single_cmp_eq|..].
  - unfold cmp, Single_ord. induction a as [d IH o|p]; intros [d' o'|p']; cbn; try done; [|apply cmp_antisym].
    rewrite IH. destruct (Single_cmp d d'); cbn; [apply cmp_antisym|done..].
  - unfold cmp, Single_ord. induction a as [d IH o|p]; intros [d' o'|p'] [d'' o''|p'']; cbn; try done; [|apply cmp_trans].
    destruct (Single_cmp d d') eqn:E1; [|destruct (Single_cmp d' d'') eqn:E2|done].
    + apply Single_cmp_eq in E1 as ->. destruct (Single_cmp d' d''); [apply cmp_trans|done..].
    + apply Single_cmp_eq in E2 as ->. by rewrite E1.
    + by rewrite (IH _ _ E1 E2).
    + done.
Qed.

(** ** What a trie holds

    A derived path is a store path with the outputs that lead from it. *)

Fixpoint steps (d : SingleDerivedPath) : list OutputName :=
  match d with SOpaque _ => [] | SBuilt d o => steps d ++ [o] end.

Fixpoint extend (d : SingleDerivedPath) (os : list OutputName) : SingleDerivedPath :=
  match os with [] => d | o :: os => extend (SBuilt d o) os end.

(** The outputs that lead to an output that is asked for. *)
Fixpoint oi_has (t : OutputInputs) (os : list OutputName) : Prop :=
  match os with
  | [] => False
  | o :: os =>
      (os = [] ∧ o ∈ elems (oi_outputs t)) ∨ ∃ t', (o, t') ∈ entries (oi_dynamic_outputs t) ∧ oi_has t' os
  end.

Definition slot_has {K} (l : list (K * OutputInputs)) (k : K) (os : list OutputName) : Prop :=
  ∃ t, (k, t) ∈ l ∧ oi_has t os.

Definition inputs_has (inputs : DerivationInputs) (d : SingleDerivedPath) : Prop :=
  match d with
  | SOpaque p => p ∈ elems (di_srcs inputs)
  | SBuilt _ _ => slot_has (entries (di_drvs inputs)) (root_path d) (steps d)
  end.

(** Sets and maps are in order at every level. *)
Inductive oi_wf : OutputInputs → Prop :=
| oi_wf_intro outputs dynamic :
    ascending (elems outputs) → ascending (fst <$> entries dynamic) → Forall (λ e, oi_wf e.2) (entries dynamic) →
    oi_wf (mk_output_inputs outputs dynamic).

Definition slots_wf {K} {HO : Ord K} (l : list (K * OutputInputs)) : Prop :=
  ascending (fst <$> l) ∧ Forall (λ e, oi_wf e.2) l.

Lemma OutputInputs_rect' (P : OutputInputs → Prop) :
  (∀ outputs dynamic, Forall (λ e, P e.2) (entries dynamic) → P (mk_output_inputs outputs dynamic)) → ∀ t, P t.
Proof.
  intros H. fix IH 1. intros [outputs [l]]. apply H. cbn. induction l as [|[o t] l IHl]; constructor; [apply IH|exact IHl].
Qed.

Section sets.
Context {T : Type} {HO : Ord T} {HOL : OrdLaws T}.

Lemma elem_insert_elem (x y : T) l : y ∈ insert_elem x l ↔ y = x ∨ y ∈ l.
Proof.
  induction l as [|z l IH]; cbn; [set_solver|]. destruct (cmp x z) eqn:E; [|set_solver..].
  apply cmp_eq in E as ->. set_solver.
Qed.

Lemma elem_insert_elems {A} (f : A → T) (l : list A) acc y :
  y ∈ fold_left (λ s x, insert_elem (f x) s) l acc ↔ y ∈ acc ∨ ∃ x, x ∈ l ∧ y = f x.
Proof.
  revert acc. induction l as [|x l IH]; intros acc; cbn; [set_solver|]. rewrite IH, elem_insert_elem. set_solver.
Qed.

Lemma fold_insert_ascending {A} (f : A → T) (l : list A) acc :
  ascending acc → ascending (fold_left (λ s x, insert_elem (f x) s) l acc).
Proof. revert acc. induction l as [|x l IH]; cbn; intros acc Ha; [done|]. by apply IH, insert_elem_ascending. Qed.

(** A set is determined by its elements. *)
Lemma ascending_ext (l k : list T) : ascending l → ascending k → (∀ x, x ∈ l ↔ x ∈ k) → l = k.
Proof.
  intros Hl. revert k. induction Hl as [|x l Hl IH Hx]; intros k Hk Heq.
  { destruct k as [|y k]; [done|]. exfalso. eapply not_elem_of_nil, Heq. left. }
  destruct Hk as [|y k Hk Hy]; [exfalso; eapply not_elem_of_nil, Heq; left|].
  rewrite Forall_forall in Hx, Hy.
  assert (∀ a, cmp a a = Lt → False) as Hirr.
  { intros a Ha. by rewrite (proj2 (cmp_eq a a) eq_refl) in Ha. }
  assert (x = y) as ->.
  { destruct (proj1 (elem_of_cons _ _ _) (proj1 (Heq x) ltac:(left))) as [->|Hxk]; [done|].
    destruct (proj1 (elem_of_cons _ _ _) (proj2 (Heq y) ltac:(left))) as [->|Hyl]; [done|].
    exfalso. eapply Hirr, cmp_trans; [by apply Hx|by apply Hy]. }
  f_equal. apply IH; [done|]. intros z. split; intros Hz.
  - destruct (proj1 (elem_of_cons _ _ _) (proj1 (Heq z) ltac:(by right))) as [->|?]; [|done]. exfalso. by eapply Hirr, Hx.
  - destruct (proj1 (elem_of_cons _ _ _) (proj2 (Heq z) ltac:(by right))) as [->|?]; [|done]. exfalso. by eapply Hirr, Hy.
Qed.
End sets.

(** ** Expanding *)

Lemma expand_eq d outputs dynamic acc :
  expand_outputs d (mk_output_inputs outputs dynamic) acc =
  fold_left (λ paths e, expand_outputs (SBuilt d e.1) e.2 paths) (entries dynamic)
    (fold_left (λ paths o, insert_elem (SBuilt d o) paths) (elems outputs) acc).
Proof.
  destruct dynamic as [l]. cbn. generalize (fold_left (λ paths o, insert_elem (SBuilt d o) paths) (elems outputs) acc).
  induction l as [|[o t] l IH]; intros acc'; cbn; [done|apply IH].
Qed.

(** Expanding the slots of a map, from the places [g] says. *)
Lemma fold_expand {K} (g : K → SingleDerivedPath) (l : list (K * OutputInputs)) acc x :
  Forall (λ e, ∀ d acc, x ∈ expand_outputs d e.2 acc ↔ x ∈ acc ∨ ∃ os, oi_has e.2 os ∧ x = extend d os) l →
  x ∈ fold_left (λ paths e, expand_outputs (g e.1) e.2 paths) l acc ↔
  x ∈ acc ∨ ∃ k os, slot_has l k os ∧ x = extend (g k) os.
Proof.
  intros H. revert acc. induction H as [|[k t] l Ht _ IH]; intros acc; cbn.
  { unfold slot_has. split; [by left|]. intros [?|(? & ? & (? & ?%not_elem_of_nil & _) & _)]; done. }
  rewrite IH, Ht. unfold slot_has. setoid_rewrite elem_of_cons. naive_solver.
Qed.

Lemma expand_has t d acc x :
  x ∈ expand_outputs d t acc ↔ x ∈ acc ∨ ∃ os, oi_has t os ∧ x = extend d os.
Proof.
  revert d acc. induction t as [outputs dynamic IH] using OutputInputs_rect'. intros d acc.
  rewrite expand_eq, (fold_expand (SBuilt d)), elem_insert_elems by done. split.
  - intros [[?|(o & ? & ->)]|(o & os & (t & ? & ?) & ->)]; [by left|right; exists [o]|right; exists (o :: os)]; cbn; eauto 8.
  - intros [?|([|o os] & Hh & ->)]; [by do 2 left|done|]. destruct Hh as [[-> ?]|(t & ? & ?)].
    + left. right. by exists o.
    + right. exists o, os. split; [by exists t|done].
Qed.

Lemma fold_expand_ascending {K} (g : K → SingleDerivedPath) (l : list (K * OutputInputs)) acc :
  Forall (λ e, ∀ d acc, ascending acc → ascending (expand_outputs d e.2 acc)) l → ascending acc →
  ascending (fold_left (λ paths e, expand_outputs (g e.1) e.2 paths) l acc).
Proof. intros H. revert acc. induction H as [|[k t] l Ht _ IH]; intros acc Ha; cbn; [done|]. by apply IH, Ht. Qed.

Lemma expand_ascending t d acc : ascending acc → ascending (expand_outputs d t acc).
Proof.
  revert d acc. induction t as [outputs dynamic IH] using OutputInputs_rect'. intros d acc Ha.
  rewrite expand_eq. apply (fold_expand_ascending (SBuilt d)); [done|]. by apply fold_insert_ascending.
Qed.

Lemma root_extend d os : root_path (extend d os) = root_path d.
Proof. revert d. induction os as [|o os IH]; intros d; cbn; [done|]. by rewrite IH. Qed.

Lemma steps_extend d os : steps (extend d os) = steps d ++ os.
Proof. revert d. induction os as [|o os IH]; intros d; cbn; [by rewrite app_nil_r|].
  rewrite IH. cbn. by rewrite <-app_assoc.
Qed.

Lemma extend_app d a b : extend d (a ++ b) = extend (extend d a) b.
Proof. revert d. induction a as [|o a IH]; intros d; cbn; [done|apply IH]. Qed.

Lemma extend_steps d : extend (SOpaque (root_path d)) (steps d) = d.
Proof. induction d as [d IH o|p]; cbn; [|done]. by rewrite extend_app, IH. Qed.

Lemma elem_paths_of_inputs inputs x : x ∈ elems (paths_of_inputs inputs) ↔ inputs_has inputs x.
Proof.
  unfold paths_of_inputs. cbn [elems]. rewrite (fold_expand SOpaque), elem_insert_elems.
  2: { apply Forall_forall. intros e _ d acc. apply expand_has. }
  destruct x as [d o|p]; cbn [inputs_has].
  - split.
    + intros [[?%not_elem_of_nil|(? & _ & ?)]|(p & os & Hs & E)]; [done|done|]. rewrite E. clear E.
      by rewrite root_extend, steps_extend.
    + intros Hs. right. exists (root_path (SBuilt d o)), (steps (SBuilt d o)). split; [done|]. by rewrite extend_steps.
  - split.
    + intros [[?%not_elem_of_nil|(? & ? & [= ->])]|(p' & os & (t & _ & Hh) & E)]; [done|done|].
      apply (f_equal steps) in E. rewrite steps_extend in E. cbn in E. by subst os.
    + intros Hp. left. right. by exists p.
Qed.

Lemma paths_of_inputs_ascending inputs : ascending (elems (paths_of_inputs inputs)).
Proof.
  apply (fold_expand_ascending SOpaque); [apply Forall_forall; intros e _ d acc; apply expand_ascending|].
  apply fold_insert_ascending. constructor.
Qed.

(** ** Slots *)

(** [f] adds one output to a slot. *)
Definition adds (f : OutputInputs → OutputInputs) (os0 : list OutputName) : Prop :=
  ∀ t, oi_wf t → oi_wf (f t) ∧ ∀ os, oi_has (f t) os ↔ oi_has t os ∨ os = os0.

Lemma default_wf : oi_wf OutputInputs_default.
Proof. repeat constructor. Qed.

Lemma default_has os : ¬ oi_has OutputInputs_default os.
Proof. destruct os; cbn; [tauto|]. intros [[_ ?%not_elem_of_nil]|(? & ?%not_elem_of_nil & _)]; done. Qed.

Lemma fst_at_entry {K} {HO : Ord K} (P : K → Prop) k f (l : list (K * OutputInputs)) :
  P k → Forall P (fst <$> l) → Forall P (fst <$> at_entry k f l).
Proof.
  intros Hk. induction l as [|[k' v] l IH]; cbn; intros Hl; [by constructor|].
  apply Forall_cons in Hl as [Hk' Hl]. destruct (cmp k k'); cbn; repeat constructor; auto.
Qed.

Lemma slot_has_cons {K} (k : K) t l k' os : slot_has ((k, t) :: l) k' os ↔ (k' = k ∧ oi_has t os) ∨ slot_has l k' os.
Proof. unfold slot_has. setoid_rewrite elem_of_cons. naive_solver. Qed.

Lemma at_entry_adds {K} {HO : Ord K} {HOL : OrdLaws K} (k : K) f os0 l :
  adds f os0 → slots_wf l →
  slots_wf (at_entry k f l) ∧ ∀ k' os, slot_has (at_entry k f l) k' os ↔ slot_has l k' os ∨ (k' = k ∧ os = os0).
Proof.
  intros Hf. destruct (Hf _ default_wf) as [Hdw Hdh]. pose proof default_has as Hd.
  induction l as [|[k1 t] l IH]; intros [Ha Hw]; cbn [at_entry].
  { split; [repeat constructor; done|]. intros k' os. rewrite slot_has_cons, Hdh. naive_solver. }
  cbn in Ha. apply StronglySorted_inv in Ha as [Ha Hlt]. apply Forall_cons in Hw as [Ht Hw].
  destruct (cmp k k1) eqn:E.
  - apply cmp_eq in E as ->. destruct (Hf _ Ht) as [Hfw Hfh].
    split; [by repeat constructor|]. intros k' os. rewrite !slot_has_cons, Hfh. naive_solver.
  - split; [|intros k' os; rewrite !slot_has_cons, Hdh; naive_solver].
    split; [|by repeat constructor]. cbn. constructor; [by constructor|]. constructor; [done|].
    eapply Forall_impl; [exact Hlt|]. intros z Hz. by eapply cmp_trans.
  - destruct (IH (conj Ha Hw)) as [[Ha1 Hw1] Hh]. split; [|intros k' os; rewrite !slot_has_cons, Hh; naive_solver].
    split; [|by constructor]. cbn. constructor; [done|]. apply fst_at_entry; [by apply cmp_gt|done].
Qed.

(** One level down. *)
Lemma node_adds (o : OutputName) f os0 :
  adds f os0 → os0 ≠ [] →
  adds (λ node, mk_output_inputs (oi_outputs node) (mk_map (at_entry o f (entries (oi_dynamic_outputs node))))) (o :: os0).
Proof.
  intros Hf Hne t Ht. destruct Ht as [outputs dynamic Ho Ha Hw]. cbn.
  destruct (at_entry_adds o f os0 _ Hf (conj Ha Hw)) as [[Ha1 Hw1] Hh].
  split; [by constructor|]. intros [|o' os]; cbn; [naive_solver|].
  fold (slot_has (at_entry o f (entries dynamic)) o' os). fold (slot_has (entries dynamic) o' os). rewrite Hh. naive_solver.
Qed.

Lemma insert_output_adds o : adds (insert_output o) [o].
Proof.
  intros t Ht. destruct Ht as [outputs dynamic Ho Ha Hw]. split.
  - constructor; [by apply insert_elem_ascending|done|done].
  - intros [|o' os]; cbn; [naive_solver|]. rewrite elem_insert_elem. naive_solver.
Qed.

Lemma ensure_slot_adds k f os0 drvs :
  adds f os0 → os0 ≠ [] → slots_wf drvs →
  slots_wf (ensure_slot k f drvs) ∧
  ∀ p os, slot_has (ensure_slot k f drvs) p os ↔ slot_has drvs p os ∨ (p = root_path k ∧ os = steps k ++ os0).
Proof.
  revert f os0. induction k as [d IH o|p]; intros f os0 Hf Hne Hw; cbn [ensure_slot root_path steps].
  - destruct (IH _ _ (node_adds o f os0 Hf Hne)) as [Hw1 Hh]; [done|done|]. split; [done|].
    intros p os. by rewrite Hh, <-app_assoc.
  - by apply at_entry_adds.
Qed.

(** ** Both ways *)

Definition inputs_wf (inputs : DerivationInputs) : Prop :=
  ascending (elems (di_srcs inputs)) ∧ slots_wf (entries (di_drvs inputs)).

Lemma add_path_spec inputs path :
  inputs_wf inputs →
  inputs_wf (add_path inputs path) ∧ ∀ x, inputs_has (add_path inputs path) x ↔ inputs_has inputs x ∨ x = path.
Proof.
  intros [Hs Hd]. destruct path as [d o|p]; cbn [add_path].
  - destruct (ensure_slot_adds d (insert_output o) [o] _ (insert_output_adds o) ltac:(done) Hd) as [Hw Hh].
    split; [by split|]. intros [d' o'|p']; cbn; [|naive_solver]. rewrite Hh. split; [|naive_solver].
    intros [?|[Hr [Hst [= ->]]%app_inj_2]]; [by left| |done]. right. f_equal.
    rewrite <-(extend_steps d'), <-(extend_steps d), Hst. congruence.
  - split; [split; [by apply insert_elem_ascending|done]|].
    intros [d' o'|p']; cbn; [naive_solver|]. rewrite elem_insert_elem. naive_solver.
Qed.

Lemma add_paths_spec paths inputs :
  inputs_wf inputs →
  inputs_wf (fold_left add_path paths inputs) ∧
  ∀ x, inputs_has (fold_left add_path paths inputs) x ↔ inputs_has inputs x ∨ x ∈ paths.
Proof.
  revert inputs. induction paths as [|path paths IH]; intros inputs Hw; cbn.
  { split; [done|]. intros x. rewrite elem_of_nil. naive_solver. }
  destruct (add_path_spec inputs path Hw) as [Hw1 Hh1]. destruct (IH _ Hw1) as [Hw2 Hh2].
  split; [done|]. intros x. rewrite Hh2, Hh1, elem_of_cons. naive_solver.
Qed.

Lemma inputs_default_wf : inputs_wf DerivationInputs_default.
Proof. repeat constructor. Qed.

Lemma inputs_of_paths_wf s : inputs_wf (inputs_of_paths s).
Proof. apply add_paths_spec, inputs_default_wf. Qed.

Lemma inputs_roundtrip s : ascending (elems s) → paths_of_inputs (inputs_of_paths s) = s.
Proof.
  destruct s as [l]. cbn. intros Hl.
  assert (elems (paths_of_inputs (inputs_of_paths (mk_set l))) = l) as E.
  { apply ascending_ext; [apply paths_of_inputs_ascending|done|]. intros x. rewrite elem_paths_of_inputs.
    unfold inputs_of_paths. cbn [elems]. rewrite (proj2 (add_paths_spec l _ inputs_default_wf)).
    split; [|by right]. intros [Hx|?]; [|done]. destruct x; cbn in Hx; [|by apply elem_of_nil in Hx].
    by destruct Hx as (t & Ht%elem_of_nil & _). }
  destruct (paths_of_inputs _) as [l']. cbn in E. by subst l'.
Qed.

(** C21. The two forms of the inputs of a derivation say the same: what a set of
    derived paths is turned into, expanded again, is the set, however deep its
    outputs of outputs are; and expanding any trie gives, in order, exactly the
    paths that lead to an output it asks for, so that turning it into a trie
    again changes nothing of what it says. *)
Theorem inputs_trie_exact (s : BTreeSet SingleDerivedPath) (inputs : DerivationInputs) :
  ascending (elems s) →
  paths_of_inputs (inputs_of_paths s) = s ∧
  (∀ d, inputs_has (inputs_of_paths s) d ↔ d ∈ elems s) ∧
  (∀ d, d ∈ elems (paths_of_inputs inputs) ↔ inputs_has inputs d) ∧
  paths_of_inputs (inputs_of_paths (paths_of_inputs inputs)) = paths_of_inputs inputs.
Proof.
  intros Hs. split; [by apply inputs_roundtrip|]. split; [|split].
  - intros d. by rewrite <-elem_paths_of_inputs, inputs_roundtrip.
  - intros d. apply elem_paths_of_inputs.
  - apply inputs_roundtrip, paths_of_inputs_ascending.
Qed.

Definition sample_drv (c : byte) : StorePath := mk_store_path (mk_sph (replicate 20 c)) (mk_spn (str "a.drv")).

(** Outputs of two derivations, an output of an output, and a source. *)
Definition sample_paths : BTreeSet SingleDerivedPath :=
  let a := SOpaque (sample_drv "a") in
  let out := mk_output (str "out") in
  mk_set (fold_left (λ s x, insert_elem x s)
    [a; SBuilt a out; SBuilt (SBuilt a out) (mk_output (str "dev")); SBuilt (SBuilt a out) out;
     SBuilt (SOpaque (sample_drv "b")) out] []).

Lemma inputs_trie_exact_witness :
  length (elems sample_paths) = 5 ∧ length (entries (di_drvs (inputs_of_paths sample_paths))) = 2 ∧
  paths_of_inputs (inputs_of_paths sample_paths) = sample_paths.
Proof.
  split; [vm_compute; reflexivity|]. split; [vm_compute; reflexivity|].
  apply (inputs_trie_exact sample_paths DerivationInputs_default). apply insert_elems_ascending. constructor.
Defined.

(** A slot without outputs is not a path: it is lost on the way. *)
Example empty_slot_lost :
  inputs_of_paths (paths_of_inputs (mk_inputs (mk_set []) (mk_map [(sample_drv "a", OutputInputs_default)]))) =
  DerivationInputs_default.
Proof. vm_compute. reflexivity. Qed.
