(* ===== verification/Json.v ===== *)
(** JSON forms: the tree of a JSON text, what the code derived by [serde]
    makes of structures, and the forms of the types of the store core
    ([path.rs], [content_address.rs], [output_spec.rs], [derived_path/path.rs],
    [realisation.rs], [signature.rs] in [harmonia-store-core/src], [algo.rs]
    and [lib.rs] in [harmonia-utils-hash/src]). *)

From stdpp Require Import base sets list numbers strings sorting.
From Stdlib Require Import ZArith Lia Strings.Byte.
From S2P Require Import Prelude Async BaseEncoding Codecs Hash StorePath ContentAddress Signature DerivedPath NixIO NixCodec WireTypes Messages.

#[local] Unset Program Cases.

(** ** Values

    The tree of a text: the members of an object are in the order of the text,
    and a name may come twice. A number that is not an integer is its text. *)
Inductive Value : Type :=
| JNull
| JBool (b : bool)
| JNumber (z : Z)
| JFloat (text : bytes)
| JString (s : bytes)
| JArray (l : list Value)
| JObject (l : list (bytes * Value)).

(** Errors of serde, and those the code makes with [Error::custom]. *)
Inductive json_error : Type :=
| InvalidType
| InvalidLength
| TrailingCharacters
| RecursionLimitExceeded
| MissingField (name : bytes)
| DuplicateField (name : bytes)
| UnknownVariant
| NoVariant
| CustomPath (e : ParseStorePathError)
| CustomName (e : StorePathNameError)
| CustomAlgorithm (e : UnknownAlgorithm)
| CustomHash (e : ParseHashError)
| CustomAddress (e : ParseHashErrorKind)
| CustomSignature (e : ParseSignatureError)
| CustomUtf8 (field : bytes)
| CustomVersion (version : Z).

(** [Serialize] into a tree and [Deserialize] from one. The depth is how many
    arrays and objects the format still allows inside each other. *)
Class JsonSerialize (T : Type) : Type := to_value : T → res json_error Value.
Class JsonDeserialize (T : Type) : Type := from_value : nat → Value → res json_error T.

Definition enter {T} (depth : nat) (k : nat → res json_error T) : res json_error T :=
  match depth with S (S d) => k (S d) | _ => Err RecursionLimitExceeded end.

(** ** Standard types *)

#[export] Instance bool_to_value : JsonSerialize bool := λ b, Ok (JBool b).
#[export] Instance bool_from_value : JsonDeserialize bool := λ _ v,
  match v with JBool b => Ok b | _ => Err InvalidType end.

#[export] Instance uint_to_value w : JsonSerialize (UInt w) := λ n, Ok (JNumber (uint_val n)).
#[export] Instance uint_from_value w : JsonDeserialize (UInt w) := λ _ v,
  match v with
  | JNumber z => if decide (0 ≤ z < 2 ^ w)%Z then Ok (uint z) else Err InvalidType
  | _ => Err InvalidType
  end.

Fixpoint traverse {A B} (f : A → res json_error B) (l : list A) : res json_error (list B) :=
  match l with [] => Ok [] | x :: l => y ← f x; ys ← traverse f l; Ok (y :: ys) end.

Definition list_to_value {T} (f : T → res json_error Value) (l : list T) : res json_error Value :=
  JArray <$> traverse f l.

Definition list_from_value {T} (f : nat → Value → res json_error T) (depth : nat) (v : Value) : res json_error (list T) :=
  match v with JArray vs => enter depth (λ depth, traverse (f depth) vs) | _ => Err InvalidType end.

#[export] Instance Vec_to_value {T} {JS : JsonSerialize T} : JsonSerialize (list T) := list_to_value to_value.
#[export] Instance Vec_from_value {T} {JD : JsonDeserialize T} : JsonDeserialize (list T) := list_from_value from_value.

#[export] Instance BTreeSet_to_value {T} {JS : JsonSerialize T} : JsonSerialize (BTreeSet T) := λ s,
  list_to_value to_value (elems s).
#[export] Instance BTreeSet_from_value {T} {HO : Ord T} {JD : JsonDeserialize T} : JsonDeserialize (BTreeSet T) := λ depth v,
  l ← list_from_value from_value depth v; Ok (mk_set (fold_left (λ s x, insert_elem x s) l [])).

(** Types whose form is a string; they can be the keys of a map. *)
Class JsonKey (T : Type) : Type := {
  key_to : T → res json_error bytes;
  key_from : bytes → res json_error T
}.

#[export] Instance key_to_value {T} {JK : JsonKey T} : JsonSerialize T := λ x, JString <$> key_to x.
#[export] Instance key_from_value {T} {JK : JsonKey T} : JsonDeserialize T := λ _ v,
  match v with JString s => key_from s | _ => Err InvalidType end.

#[export] Instance RString_key : JsonKey RString := {|
  key_to s := Ok (string_val s);
  key_from s := Ok (mk_String s) |}.

Definition map_to_value {K V} {JK : JsonKey K} (f : V → res json_error Value) (m : BTreeMap K V) : res json_error Value :=
  JObject <$> traverse (λ e, k ← key_to e.1; v ← f e.2; Ok (k, v)) (entries m).

Definition map_from_value {K V} {HO : Ord K} {JK : JsonKey K} (f : nat → Value → res json_error V) (depth : nat) (v : Value)
    : res json_error (BTreeMap K V) :=
  match v with
  | JObject l =>
      enter depth (λ depth,
        es ← traverse (λ e, k ← key_from e.1; v ← f depth e.2; Ok (k, v)) l;
        Ok (mk_map (fold_left (λ m e, insert_entry e.1 e.2 m) es [])))
  | _ => Err InvalidType
  end.

#[export] Instance BTreeMap_to_value {K V} {JK : JsonKey K} {JS : JsonSerialize V} : JsonSerialize (BTreeMap K V) :=
  map_to_value to_value.
#[export] Instance BTreeMap_from_value {K V} {HO : Ord K} {JK : JsonKey K} {JD : JsonDeserialize V} :
    JsonDeserialize (BTreeMap K V) := map_from_value from_value.

(** ** Derived structures *)

(** A field: its name, its forms, when it is left out, and what it is when it
    is missing from an object or behind the end of an array. *)
Record field (T : Type) : Type := mk_field {
  f_name : bytes;
  f_ser : T → res json_error Value;
  f_de : nat → Value → res json_error T;
  f_skip : T → bool;
  f_missing : res json_error T;
  f_short : res json_error T
}.
Arguments mk_field {T}.
Arguments f_name {T}.
Arguments f_ser {T}.
Arguments f_de {T}.
Arguments f_skip {T}.
Arguments f_missing {T}.
Arguments f_short {T}.

Definition field_with {T} (name : string) (ser : T → res json_error Value) (de : nat → Value → res json_error T) : field T :=
  mk_field (str name) ser de (λ _, false) (Err (MissingField (str name))) (Err InvalidLength).

Definition required {T} {JS : JsonSerialize T} {JD : JsonDeserialize T} (name : string) : field T :=
  field_with name to_value from_value.

(** [default], with what is left out. *)
Definition with_default {T} (x : T) (skip : T → bool) (f : field T) : field T :=
  mk_field (f_name f) (f_ser f) (f_de f) skip (Ok x) (Ok x).

Definition no_skip {T} (_ : T) : bool := false.

#[export] Instance option_to_value {T} {JS : JsonSerialize T} : JsonSerialize (option T) := λ o,
  match o with Some x => to_value x | None => Ok JNull end.
#[export] Instance option_from_value {T} {JD : JsonDeserialize T} : JsonDeserialize (option T) := λ depth v,
  match v with JNull => Ok None | _ => Some <$> from_value depth v end.

Definition is_none {T} (o : option T) : bool := match o with None => true | Some _ => false end.

(** An [Option] with [skip_serializing_if = Option::is_none] and no [default]. *)
Definition optional {T} {JS : JsonSerialize T} {JD : JsonDeserialize T} (name : string) : field (option T) :=
  mk_field (str name) to_value from_value is_none (Ok None) (Err InvalidLength).

Inductive fields : list Type → Type :=
| FNil : fields []
| FCons {T Ts} : field T → fields Ts → fields (T :: Ts).

Fixpoint tuple (Ts : list Type) : Type := match Ts with [] => unit | T :: Ts => T * tuple Ts end.
Fixpoint slots (Ts : list Type) : Type := match Ts with [] => unit | T :: Ts => option T * slots Ts end.

Fixpoint no_slots (Ts : list Type) : slots Ts :=
  match Ts with [] => tt | _ :: Ts => (None, no_slots Ts) end.

Fixpoint ser_fields {Ts} (fs : fields Ts) : tuple Ts → res json_error (list (bytes * Value)) :=
  match fs with
  | FNil => λ _, Ok []
  | FCons f fs => λ t,
      if f_skip f t.1 then ser_fields fs t.2 else
      v ← f_ser f t.1; l ← ser_fields fs t.2; Ok ((f_name f, v) :: l)
  end.

Definition ser_struct {Ts} (fs : fields Ts) (t : tuple Ts) : res json_error Value := JObject <$> ser_fields fs t.

(** [visit_map]: one member; those that are not fields are skipped. *)
Fixpoint visit_entry {Ts} (fs : fields Ts) (depth : nat) (k : bytes) (v : Value) : slots Ts → res json_error (slots Ts) :=
  match fs with
  | FNil => λ s, Ok s
  | FCons f fs => λ s,
      if decide (k = f_name f) then
        match s.1 with
        | Some _ => Err (DuplicateField k)
        | None => x ← f_de f depth v; Ok (Some x, s.2)
        end
      else s' ← visit_entry fs depth k v s.2; Ok (s.1, s')
  end.

Fixpoint visit_map {Ts} (fs : fields Ts) (depth : nat) (l : list (bytes * Value)) (s : slots Ts) : res json_error (slots Ts) :=
  match l with
  | [] => Ok s
  | (k, v) :: l => s ← visit_entry fs depth k v s; visit_map fs depth l s
  end.

Fixpoint finish {Ts} (fs : fields Ts) : slots Ts → res json_error (tuple Ts) :=
  match fs with
  | FNil => λ _, Ok tt
  | FCons f fs => λ s,
      x ← match s.1 with Some x => Ok x | None => f_missing f end;
      t ← finish fs s.2; Ok (x, t)
  end.

(** [visit_seq]: the fields by position. *)
Fixpoint visit_seq {Ts} (fs : fields Ts) (depth : nat) (vs : list Value) : res json_error (tuple Ts) :=
  match fs with
  | FNil => match vs with [] => Ok tt | _ => Err TrailingCharacters end
  | FCons f fs =>
      match vs with
      | [] => x ← f_short f; t ← visit_seq fs depth []; Ok (x, t)
      | v :: vs => x ← f_de f depth v; t ← visit_seq fs depth vs; Ok (x, t)
      end
  end.

Definition de_struct {Ts} (fs : fields Ts) (depth : nat) (v : Value) : res json_error (tuple Ts) :=
  match v with
  | JObject l => enter depth (λ depth, s ← visit_map fs depth l (no_slots Ts); finish fs s)
  | JArray vs => enter depth (λ depth, visit_seq fs depth vs)
  | _ => Err InvalidType
  end.

(** ** Types of the store core *)

Section types.
Context {DE : DataEncoding}.

(** [serialize_as_base_path], [deserialize_from_base_path]. *)
#[export] Instance StorePath_key : JsonKey StorePath := {|
  key_to p := unwrap (StorePath_fmt p);
  key_from s := map_err CustomPath (StorePath_from_str s) |}.

(** [serde(transparent)]: the name is not checked. *)
#[export] Instance OutputName_key : JsonKey OutputName := {|
  key_to o := Ok (oname o);
  key_from s := Ok (mk_output s) |}.

#[export] Instance Algorithm_key : JsonKey Algorithm := {|
  key_to a := Ok (Algorithm_to_string a);
  key_from s := map_err CustomAlgorithm (Algorithm_from_str s) |}.

#[export] Instance Hash_key : JsonKey Hash := {|
  key_to h := unwrap (Hash_serialize h);
  key_from s := map_err CustomHash (Hash_deserialize s) |}.

(** [rename_all = lowercase], and [Recursive] is [nar]. A variant without
    data may also be written as an object with the value [null]. *)
Definition Method_variant (s : bytes) : res json_error ContentAddressMethod :=
  if decide (s = str "text") then Ok MText
  else if decide (s = str "flat") then Ok MFlat
  else if decide (s = str "nar") then Ok MRecursive
  else Err UnknownVariant.

#[export] Instance Method_to_value : JsonSerialize ContentAddressMethod := λ m,
  Ok (JString (match m with MText => str "text" | MFlat => str "flat" | MRecursive => str "nar" end)).
#[export] Instance Method_from_value : JsonDeserialize ContentAddressMethod := λ depth v,
  match v with
  | JString s => Method_variant s
  | JObject [(s, v)] =>
      enter depth (λ _, m ← Method_variant s; match v with JNull => Ok m | _ => Err InvalidType end)
  | JObject [] => enter depth (λ _, Err InvalidType)
  | JObject ((s, v) :: _) =>
      enter depth (λ _, m ← Method_variant s; match v with JNull => Err TrailingCharacters | _ => Err InvalidType end)
  | _ => Err InvalidType
  end.

(** [RawContentAddressMethodAlgorithm]. *)
Definition MA_fields :=
  FCons (required (T := ContentAddressMethod) "method") (FCons (required (T := Algorithm) "hashAlgo") FNil).

#[export] Instance MA_to_value : JsonSerialize ContentAddressMethodAlgorithm := λ m,
  ser_struct MA_fields ((MA_serialize m).1, ((MA_serialize m).2, tt)).
#[export] Instance MA_from_value : JsonDeserialize ContentAddressMethodAlgorithm := λ depth v,
  raw ← de_struct MA_fields depth v; Ok (MA_deserialize (raw.1, raw.2.1)).

(** [RawContentAddress]. *)
Definition CA_fields :=
  FCons (required (T := ContentAddressMethod) "method") (FCons (required (T := Hash) "hash") FNil).

#[export] Instance CA_to_value : JsonSerialize ContentAddress := λ ca,
  h ← CA_hash ca; ser_struct CA_fields (CA_method ca, (h, tt)).
#[export] Instance CA_from_value : JsonDeserialize ContentAddress := λ depth v,
  raw ← de_struct CA_fields depth v; map_err CustomAddress (CA_from_hash raw.1 raw.2.1).

(** An array of names; [*] alone is all of them. *)
#[export] Instance OutputSpec_to_value : JsonSerialize OutputSpec := λ o,
  match o with
  | All => Ok (JArray [JString (str "*")])
  | Named names => list_to_value to_value names
  end.
#[export] Instance OutputSpec_from_value : JsonDeserialize OutputSpec := λ depth v,
  names ← from_value (T := list RString) depth v;
  if decide (string_val <$> names = [str "*"]) then Ok All
  else Ok (Named (fold_left (λ s n, set_insert (mk_output (string_val n)) s) names [])).

(** How deep a value is. *)
Fixpoint value_depth (v : Value) : nat :=
  match v with
  | JArray l => S (list_max (value_depth <$> l))
  | JObject l => S (list_max ((λ e, value_depth e.2) <$> l))
  | _ => 0
  end.

(** [serde(untagged)]: the value is read whole, then the variants are tried
    one after the other. *)
Fixpoint first_variant {T} (variants : list (res json_error T)) : res json_error T :=
  match variants with
  | [] => Err NoVariant
  | Err _ :: variants => first_variant variants
  | r :: _ => r
  end.

Definition untagged {T} (depth : nat) (v : Value) (variants : list (res json_error T)) : res json_error T :=
  if decide (value_depth v < depth) then first_variant variants else Err RecursionLimitExceeded.

Fixpoint Single_ser (d : SingleDerivedPath) : res json_error Value :=
  match d with
  | SBuilt drv_path output =>
      v ← Single_ser drv_path; o ← to_value output; Ok (JObject [(str "drvPath", v); (str "output", o)])
  | SOpaque p => to_value p
  end.

Definition SBuilt_fields (de : nat → Value → res json_error SingleDerivedPath) :=
  FCons (field_with "drvPath" Single_ser de) (FCons (required (T := OutputName) "output") FNil).

(** The depth is enough fuel: each level of a path is an array or an object. *)
Fixpoint Single_de (fuel depth : nat) (v : Value) : res json_error SingleDerivedPath :=
  match fuel with
  | O => Err RecursionLimitExceeded
  | S fuel =>
      untagged depth v
        [t ← de_struct (SBuilt_fields (Single_de fuel)) depth v; Ok (SBuilt t.1 t.2.1);
         SOpaque <$> from_value depth v]
  end.

#[export] Instance Single_to_value : JsonSerialize SingleDerivedPath := Single_ser.
#[export] Instance Single_from_value : JsonDeserialize SingleDerivedPath := λ depth, Single_de depth depth.

Definition DBuilt_fields :=
  FCons (required (T := SingleDerivedPath) "drvPath") (FCons (required (T := OutputSpec) "outputs") FNil).

#[export] Instance Derived_to_value : JsonSerialize DerivedPath := λ d,
  match d with
  | DBuilt drv_path outputs => ser_struct DBuilt_fields (drv_path, (outputs, tt))
  | DOpaque p => to_value p
  end.
#[export] Instance Derived_from_value : JsonDeserialize DerivedPath := λ depth v,
  untagged depth v
    [t ← de_struct DBuilt_fields depth v; Ok (DBuilt t.1 t.2.1);
     DOpaque <$> from_value depth v].

(** *** Realisations and signatures *)

Definition DrvOutput_fields :=
  FCons (required (T := StorePath) "drvPath") (FCons (required (T := OutputName) "outputName") FNil).

#[export] Instance DrvOutput_to_value : JsonSerialize DrvOutput := λ d,
  ser_struct DrvOutput_fields (do_path d, (do_output d, tt)).
#[export] Instance DrvOutput_from_value : JsonDeserialize DrvOutput := λ depth v,
  t ← de_struct DrvOutput_fields depth v; Ok (mk_drv_output t.1 t.2.1).

(** [RawSignature], whose bytes are the field [sig]. *)
Definition Signature_fields :=
  FCons (required (T := RString) "keyName")
    (FCons (field_with "sig" (λ b, JString <$> unwrap (RawSignature_fmt b))
              (λ _ v, match v with JString s => map_err CustomSignature (RawSignature_from_str s) | _ => Err InvalidType end))
      FNil).

#[export] Instance Signature_to_value : JsonSerialize Signature := λ s,
  ser_struct Signature_fields (mk_String (key_name s), (sig s, tt)).
#[export] Instance Signature_from_value : JsonDeserialize Signature := λ depth v,
  t ← de_struct Signature_fields depth v; Ok (mk_signature (string_val t.1) t.2.1).

Definition UnkeyedRealisation_fields :=
  FCons (required (T := StorePath) "outPath")
    (FCons (with_default (mk_set []) no_skip (required (T := BTreeSet Signature) "signatures")) FNil).

#[export] Instance UnkeyedRealisation_to_value : JsonSerialize UnkeyedRealisation := λ r,
  ser_struct UnkeyedRealisation_fields (ur_out_path r, (ur_signatures r, tt)).
#[export] Instance UnkeyedRealisation_from_value : JsonDeserialize UnkeyedRealisation := λ depth v,
  t ← de_struct UnkeyedRealisation_fields depth v; Ok (mk_UnkeyedRealisation t.1 t.2.1).

Definition Realisation_fields :=
  FCons (required (T := DrvOutput) "key") (FCons (required (T := UnkeyedRealisation) "value") FNil).

#[export] Instance Realisation_to_value : JsonSerialize Realisation := λ r,
  ser_struct Realisation_fields (re_key r, (re_value r, tt)).
#[export] Instance Realisation_from_value : JsonDeserialize Realisation := λ depth v,
  t ← de_struct Realisation_fields depth v; Ok (mk_Realisation t.1 t.2.1).
End types.

(** ** Round trips

    [fits] says that a value is written, and read again wherever more than [n]
    levels may be nested. *)

Definition reads_as {T} (de : nat → Value → res json_error T) (n : nat) (v : Value) (x : T) : Prop :=
  value_depth v ≤ n ∧ ∀ depth, n < depth → de depth v = Ok x.

Definition fits {T} (ser : T → res json_error Value) (de : nat → Value → res json_error T) (n : nat) (x : T) : Prop :=
  ∃ v, ser x = Ok v ∧ v ≠ JNull ∧ reads_as de n v x.

Lemma reads_as_mono {T} (de : nat → Value → res json_error T) n m v x : reads_as de n v x → n ≤ m → reads_as de m v x.
Proof. intros [Hv Hd] Hn. split; [lia|]. intros depth ?. apply Hd. lia. Qed.

Lemma fits_mono {T} (ser : T → res json_error Value) de n m x : fits ser de n x → n ≤ m → fits ser de m x.
Proof. intros (v & ? & ? & Hr) Hn. exists v. eauto using reads_as_mono. Qed.

Lemma enter_S {T} depth n (k : nat → res json_error T) :
  S n < depth → ∃ d, n < d ∧ enter depth k = k d.
Proof. intros Hd. destruct depth as [|[|d]]; [lia|lia|]. exists (S d). split; [lia|done]. Qed.

Lemma traverse_fits {A T} (ser : A → res json_error T) (R : T → A → Prop) l :
  Forall (λ x, ∃ v, ser x = Ok v ∧ R v x) l → ∃ vs, traverse ser l = Ok vs ∧ Forall2 R vs l.
Proof.
  induction 1 as [|x l (v & Hv & HR) _ (vs & Hvs & HRs)]; cbn; [by exists []|].
  rewrite Hv, Hvs. exists (v :: vs). split; [done|by constructor].
Qed.

Lemma traverse_reads {A T} (de : A → res json_error T) vs l :
  Forall2 (λ v x, de v = Ok x) vs l → traverse de vs = Ok l.
Proof. induction 1 as [|v x vs l Hv _ IH]; cbn; [done|]. by rewrite Hv, IH. Qed.

Lemma fits_list {T} (ser : T → res json_error Value) de n l :
  Forall (fits ser de n) l → fits (list_to_value ser) (list_from_value de) (S n) l.
Proof.
  intros H. destruct (traverse_fits ser (reads_as de n) l) as (vs & Hvs & HR).
  { eapply Forall_impl; [exact H|]. intros x (v & ? & _ & ?). by exists v. }
  exists (JArray vs). unfold list_to_value. rewrite Hvs. split; [done|]. split; [done|]. split.
  - cbn. apply le_n_S, List.list_max_le, Forall_fmap. clear -HR. induction HR as [|v x vs l [Hd _]]; constructor; done.
  - intros depth Hd. cbn. destruct (enter_S depth n (λ depth, traverse (de depth) vs) Hd) as (d & Hn & ->).
    apply traverse_reads. eapply Forall2_impl; [exact HR|]. intros v x [_ Hr]. by apply Hr.
Qed.

Class JsonKeyLaws (T : Type) {JK : JsonKey T} : Type := {
  key_ok : T → Prop;
  key_law x : key_ok x → ∃ s, key_to x = Ok s ∧ key_from s = Ok x
}.

Lemma fits_key {T} {JK : JsonKey T} {KL : JsonKeyLaws T} n (x : T) : key_ok x → fits to_value from_value n x.
Proof.
  intros (s & Hs & Hp)%key_law. exists (JString s). unfold to_value, key_to_value. rewrite Hs.
  split; [done|]. split; [done|]. split; [cbn; lia|]. intros depth _. exact Hp.
Qed.

Lemma fits_map {K V} {HO : Ord K} {HOL : OrdLaws K} {JK : JsonKey K} {KL : JsonKeyLaws K}
    (ser : V → res json_error Value) de n (m : BTreeMap K V) :
  ascending (fst <$> entries m) → Forall (λ e, key_ok e.1 ∧ fits ser de n e.2) (entries m) →
  fits (map_to_value ser) (map_from_value de) (S n) m.
Proof.
  destruct m as [l]. cbn. intros Ha H.
  destruct (traverse_fits (λ e, k ← key_to e.1; v ← ser e.2; Ok (k, v))
    (λ kv e, key_from kv.1 = Ok e.1 ∧ reads_as de n kv.2 e.2) l) as (vs & Hvs & HR).
  { eapply Forall_impl; [exact H|]. intros [k x] [(s & Hs & Hp)%key_law (v & Hv & _ & Hr)]. cbn in *.
    exists (s, v). rewrite Hs. res_simpl. by rewrite Hv. }
  exists (JObject vs). unfold map_to_value. cbn [entries]. rewrite Hvs. split; [done|]. split; [done|]. split.
  - cbn. apply le_n_S, List.list_max_le, Forall_fmap. clear -HR. induction HR as [|v x vs l (_ & Hd & _)]; constructor; done.
  - intros depth Hd. cbn [map_from_value].
    destruct (enter_S depth n (λ depth, es ← traverse (λ e, k ← key_from e.1; v ← de depth e.2; Ok (k, v)) vs;
        Ok (mk_map (fold_left (λ m e, insert_entry e.1 e.2 m) es []))) Hd) as (d & Hn & ->).
    rewrite (traverse_reads _ vs l); [res_simpl; by rewrite insert_entries_sorted|].
    eapply Forall2_impl; [exact HR|]. intros [k v] [k' x] [Hk [_ Hr]]. cbn in *. rewrite Hk. res_simpl. by rewrite Hr.
Qed.

(** *** Structures *)

Definition field_fits {T} (f : field T) (n : nat) (x : T) : Prop :=
  if f_skip f x then f_missing f = Ok x else ∃ v, f_ser f x = Ok v ∧ reads_as (f_de f) n v x.

Fixpoint fields_fit {Ts} (fs : fields Ts) (n : nat) : tuple Ts → Prop :=
  match fs with
  | FNil => λ _, True
  | FCons f fs => λ t, field_fits f n t.1 ∧ fields_fit fs n t.2
  end.

Fixpoint field_names {Ts} (fs : fields Ts) : list bytes :=
  match fs with FNil => [] | FCons f fs => f_name f :: field_names fs end.

(** The slots after all members have been seen. *)
Fixpoint filled {Ts} (fs : fields Ts) : tuple Ts → slots Ts :=
  match fs with
  | FNil => λ _, tt
  | FCons f fs => λ t, (if f_skip f t.1 then None else Some t.1, filled fs t.2)
  end.

Lemma visit_map_other {T Ts} (f : field T) (fs : fields Ts) depth l o s :
  Forall (λ e, e.1 ≠ f_name f) l →
  visit_map (FCons f fs) depth l (o, s) = pair o <$> visit_map fs depth l s.
Proof.
  intros H. revert s. induction H as [|[k v] l Hk _ IH]; intros s; cbn; [done|].
  rewrite decide_False by done. destruct (visit_entry fs depth k v s) as [s'| |]; cbn; [|done|done]. apply IH.
Qed.

Lemma visit_fields {Ts} (fs : fields Ts) n t :
  NoDup (field_names fs) → fields_fit fs n t →
  ∃ l, ser_fields fs t = Ok l ∧ Forall (λ e, e.1 ∈ field_names fs ∧ value_depth e.2 ≤ n) l ∧
    ∀ depth, n < depth → visit_map fs depth l (no_slots Ts) = Ok (filled fs t).
Proof.
  induction fs as [|T Ts f fs IH]; cbn; intros Hnd Hf; [exists []; repeat constructor; done|].
  apply NoDup_cons in Hnd as [Hnin Hnd]. destruct Hf as [Hf Hfs]. destruct (IH t.2 Hnd Hfs) as (l & Hl & Hall & Hv).
  assert (Forall (λ e, e.1 ≠ f_name f) l) as Hne.
  { eapply Forall_impl; [exact Hall|]. intros e [He _] E. by rewrite E in He. }
  unfold field_fits in Hf. destruct (f_skip f t.1).
  - exists l. split; [done|]. split; [eapply Forall_impl; [exact Hall|]; intros e [? ?]; split; [by right|done]|].
    intros depth Hd. by rewrite visit_map_other, Hv.
  - destruct Hf as (v & Hs & Hdv & Hr). rewrite Hs, Hl. eexists. split; [done|]. split.
    + constructor; [split; [left|done]|]. eapply Forall_impl; [exact Hall|]. intros e [? ?]. split; [by right|done].
    + intros depth Hd. cbn [visit_map visit_entry]. cbn. rewrite decide_True by done. rewrite Hr by done. res_simpl.
      by rewrite visit_map_other, Hv.
Qed.

Lemma finish_filled {Ts} (fs : fields Ts) n t : fields_fit fs n t → finish fs (filled fs t) = Ok t.
Proof.
  induction fs as [|T Ts f fs IH]; cbn; [by destruct t|]. intros [Hf Hfs]. rewrite (IH t.2 Hfs).
  unfold field_fits in Hf. destruct t as [x t]; cbn in *. destruct (f_skip f x); [by rewrite Hf|done].
Qed.

Lemma fits_struct {Ts} (fs : fields Ts) n t :
  NoDup (field_names fs) → fields_fit fs n t → fits (ser_struct fs) (de_struct fs) (S n) t.
Proof.
  intros Hnd Hf. destruct (visit_fields fs n t Hnd Hf) as (l & Hl & Hall & Hv).
  exists (JObject l). unfold ser_struct. rewrite Hl. split; [done|]. split; [done|]. split.
  - cbn. apply le_n_S, List.list_max_le, Forall_fmap. eapply Forall_impl; [exact Hall|]. by intros e [_ ?].
  - intros depth Hd. cbn [de_struct].
    destruct (enter_S depth n (λ depth, s ← visit_map fs depth l (no_slots Ts); finish fs s) Hd) as (d & Hn & ->).
    rewrite Hv by done. by apply finish_filled with (n := n).
Qed.

Lemma field_with_fits {T} (name : string) (ser : T → res json_error Value) de n x :
  fits ser de n x → field_fits (field_with name ser de) n x.
Proof. intros (v & ? & _ & ?). by exists v. Qed.

Lemma default_fits {T} (f : field T) d (skip : T → bool) n x :
  (if skip x then x = d else ∃ v, f_ser f x = Ok v ∧ reads_as (f_de f) n v x) → field_fits (with_default d skip f) n x.
Proof. unfold field_fits. cbn. destruct (skip x); [by intros ->|done]. Qed.

Lemma optional_fits {T} {JS : JsonSerialize T} {JD : JsonDeserialize T} name n (o : option T) :
  (∀ x, o = Some x → fits to_value from_value n x) → field_fits (optional name) n o.
Proof.
  intros H. destruct o as [x|]; [|done]. destruct (H x eq_refl) as (v & Hv & Hn & Hd & Hr). exists v.
  split; [done|]. split; [done|]. intros depth ?. cbn. unfold from_value at 1, option_from_value.
  rewrite Hr by done. by destruct v.
Qed.

(** *** The codecs *)

Class JsonCodec (T : Type) {JS : JsonSerialize T} {JD : JsonDeserialize T} : Type := {
  json_ok : T → Prop;
  json_depth : T → nat;
  json_fits x : json_ok x → fits to_value from_value (json_depth x) x
}.

Lemma required_fits {T} {JS : JsonSerialize T} {JD : JsonDeserialize T} {JC : JsonCodec T} name n (x : T) :
  json_ok x → json_depth x ≤ n → field_fits (required name) n x.
Proof. intros Hx Hn. apply field_with_fits. eapply fits_mono; [by apply json_fits|done]. Qed.

Lemma optional_codec_fits {T} {JS : JsonSerialize T} {JD : JsonDeserialize T} {JC : JsonCodec T} name n (o : option T) :
  (∀ x, o = Some x → json_ok x ∧ json_depth x ≤ n) → field_fits (optional name) n o.
Proof. intros H. apply optional_fits. intros x [Hx Hn]%H. eapply fits_mono; [by apply json_fits|done]. Qed.

Lemma default_codec_fits {T} {JS : JsonSerialize T} {JD : JsonDeserialize T} {JC : JsonCodec T} name n d (x : T) :
  json_ok x → json_depth x ≤ n → field_fits (with_default d no_skip (required name)) n x.
Proof.
  intros Hx Hn. apply default_fits. destruct (json_fits x Hx) as (v & Hv & _ & Hr). exists v.
  split; [done|]. by eapply reads_as_mono.
Qed.

#[export] Program Instance key_codec {T} {JK : JsonKey T} {KL : JsonKeyLaws T} : JsonCodec T := {|
  json_ok := key_ok; json_depth _ := 0 |}.
Next Obligation. intros. by apply fits_key. Qed.

#[export] Program Instance bool_json : JsonCodec bool := {| json_ok _ := True; json_depth _ := 0 |}.
Next Obligation. intros b _. exists (JBool b). repeat split; done. Qed.

#[export] Program Instance uint_json w : JsonCodec (UInt w) := {|
  json_ok n := (0 ≤ uint_val n < 2 ^ w)%Z; json_depth _ := 0 |}.
Next Obligation.
  intros w [z] Hz. exists (JNumber z). repeat split; try done. intros depth _. unfold from_value, uint_from_value.
  by rewrite decide_True.
Qed.

Definition deepest {T} {JS : JsonSerialize T} {JD : JsonDeserialize T} {JC : JsonCodec T} (l : list T) : nat :=
  list_max (json_depth <$> l).

Lemma deepest_fits {T} {JS : JsonSerialize T} {JD : JsonDeserialize T} {JC : JsonCodec T} (l : list T) :
  Forall json_ok l → Forall (fits to_value from_value (deepest l)) l.
Proof.
  intros H. assert (Forall (λ x, json_depth x ≤ deepest l) l) as Hd.
  { apply (Forall_fmap json_depth (λ n, n ≤ deepest l)), List.list_max_le. done. }
  eapply Forall_impl; [exact (proj2 (Forall_and _ _) (conj H Hd))|]. intros x [Hx Hn].
  eapply fits_mono; [by apply json_fits|done].
Qed.

#[export] Program Instance Vec_json {T} {JS : JsonSerialize T} {JD : JsonDeserialize T} {JC : JsonCodec T} :
    JsonCodec (list T) := {| json_ok := Forall json_ok; json_depth l := S (deepest l) |}.
Next Obligation. intros T JS JD JC l Hl. by apply fits_list, deepest_fits. Qed.

#[export] Program Instance BTreeSet_json {T} {HO : Ord T} {HOL : OrdLaws T} {JS : JsonSerialize T} {JD : JsonDeserialize T}
    {JC : JsonCodec T} : JsonCodec (BTreeSet T) := {|
  json_ok s := ascending (elems s) ∧ Forall json_ok (elems s); json_depth s := S (deepest (elems s)) |}.
Next Obligation.
  intros T HO HOL JS JD JC [l] [Ha Hl]. cbn in *.
  destruct (fits_list to_value from_value _ l (deepest_fits l Hl)) as (v & Hv & Hn & Hd & Hr).
  exists v. split; [exact Hv|]. split; [done|]. split; [done|]. intros depth Hlt.
  unfold from_value at 1, BTreeSet_from_value. rewrite Hr by done. res_simpl. by rewrite insert_elems_sorted.
Qed.

#[export] Program Instance BTreeMap_json {K V} {HO : Ord K} {HOL : OrdLaws K} {JK : JsonKey K} {KL : JsonKeyLaws K}
    {JS : JsonSerialize V} {JD : JsonDeserialize V} {JC : JsonCodec V} : JsonCodec (BTreeMap K V) := {|
  json_ok m := ascending (fst <$> entries m) ∧ Forall (λ e, key_ok e.1 ∧ json_ok e.2) (entries m);
  json_depth m := S (deepest (snd <$> entries m)) |}.
Next Obligation.
  intros K V HO HOL JK KL JS JD JC [l] [Ha Hl]. cbn in *. apply fits_map; [done|]. cbn.
  apply Forall_and. apply Forall_and in Hl as [Hk Hv]. split; [done|].
  apply (Forall_fmap snd (fits to_value from_value (deepest (snd <$> l)))), deepest_fits. by apply Forall_fmap.
Qed.

(** A type whose form is that of a structure. *)
Lemma fits_via {T Ts} (fs : fields Ts) (t : tuple Ts) (ser : T → res json_error Value) de n x :
  NoDup (field_names fs) → fields_fit fs n t → ser x = ser_struct fs t →
  (∀ depth v, de_struct fs depth v = Ok t → de depth v = Ok x) → fits ser de (S n) x.
Proof.
  intros Hnd Hfit Hs Hd. destruct (fits_struct fs n t Hnd Hfit) as (v & Hv & Hne & Hdv & Hr).
  exists v. rewrite Hs. split; [done|]. split; [done|]. split; [done|]. intros depth Hlt. by apply Hd, Hr.
Qed.

Ltac fit_field :=
  first [apply required_fits | apply default_codec_fits | apply optional_codec_fits | apply field_with_fits | idtac];
  try done; try (cbn; lia).

Tactic Notation "via" constr(fs) constr(t) reference(inst) := apply (fits_via fs t);
  [apply (bool_decide_unpack _); vm_compute; exact I
  |repeat split; cbn [fst snd]; fit_field
  |try reflexivity
  |let E := fresh "E" in intros depth v E; unfold from_value, inst; rewrite E; res_simpl; cbn [fst snd]; try reflexivity].

Fixpoint single_depth (d : SingleDerivedPath) : nat :=
  match d with SBuilt d _ => S (single_depth d) | SOpaque _ => 0 end.

Section codecs.
Context {DE : DataEncoding} {DL : DataEncodingLaws}.

#[export] Program Instance StorePath_key_laws : JsonKeyLaws StorePath := {| key_ok := path_wf |}.
Next Obligation.
  intros p Hp. exists (path_text p). cbn [key_to key_from StorePath_key]. rewrite StorePath_fmt_eq by done.
  split; [done|]. by rewrite StorePath_from_text.
Qed.

#[export] Program Instance OutputName_key_laws : JsonKeyLaws OutputName := {| key_ok _ := True |}.
Next Obligation. intros [s] _. by exists s. Qed.

#[export] Program Instance RString_key_laws : JsonKeyLaws RString := {| key_ok _ := True |}.
Next Obligation. intros [s] _. by exists s. Qed.

#[export] Program Instance Algorithm_key_laws : JsonKeyLaws Algorithm := {| key_ok _ := True |}.
Next Obligation. intros a _. eexists. split; [done|]. cbn. by rewrite Algorithm_from_to_string. Qed.

#[export] Program Instance Hash_key_laws : JsonKeyLaws Hash := {| key_ok := Hash_wf |}.
Next Obligation.
  intros h Hh. cbn. unfold Hash_serialize, Hash_deserialize. rewrite SRI_fmt_eq by done. eexists. split; [done|].
  by rewrite SRI_from_str_prefixed.
Qed.

#[export] Program Instance Method_json : JsonCodec ContentAddressMethod := {| json_ok _ := True; json_depth _ := 0 |}.
Next Obligation. intros m _. eexists. split; [done|]. split; [done|]. split; [done|]. intros depth _. by destruct m. Qed.

#[export] Program Instance MA_json : JsonCodec ContentAddressMethodAlgorithm := {| json_ok _ := True; json_depth _ := 1 |}.
Next Obligation.
  intros m _. via MA_fields ((MA_method m, (MA_algorithm m, tt))) MA_from_value. by destruct m.
Qed.

#[export] Program Instance CA_json : JsonCodec ContentAddress := {| json_ok := CA_wf; json_depth _ := 1 |}.
Next Obligation.
  intros ca Hca. destruct (CA_hash_spec (E:=json_error) ca Hca) as (g & Hg & Hgw & Hf).
  via CA_fields ((CA_method ca, (g, tt))) CA_from_value.
  - unfold to_value, CA_to_value. by rewrite Hg.
  - by rewrite Hf.
Qed.

#[export] Program Instance OutputSpec_json : JsonCodec OutputSpec := {|
  json_ok o := match o with All => True | Named l => sorted l ∧ oname <$> l ≠ [str "*"] end;
  json_depth _ := 1 |}.
Next Obligation.
  intros o Ho. exists (JArray ((λ n, JString (oname n)) <$> match o with All => [mk_output (str "*")] | Named l => l end)).
  assert (∀ l, traverse (to_value (T:=OutputName)) l = Ok ((λ n, JString (oname n)) <$> l)) as Hs.
  { induction l as [|n l IH]; cbn; [done|]. by rewrite IH. }
  assert (∀ d l, traverse (from_value (T:=RString) d) ((λ n, JString (oname n)) <$> l) = Ok ((λ n, mk_String (oname n)) <$> l)) as Hd.
  { intros d. induction l as [|n l IH]; cbn; [done|]. by rewrite IH. }
  split; [destruct o; [done|]; cbn; unfold list_to_value; by rewrite Hs|]. split; [done|]. split.
  { cbn. apply le_n_S, List.list_max_le, Forall_fmap, Forall_fmap, Forall_true. cbn. lia. }
  intros depth Hlt. unfold from_value, OutputSpec_from_value, from_value, Vec_from_value. cbn [list_from_value].
  destruct depth as [|[|d]]; [lia|lia|]. cbn [enter]. rewrite Hd. res_simpl.
  rewrite <-list_fmap_compose. destruct o as [|l]; [done|]. destruct Ho as [Hs1 Hne].
  rewrite decide_False; [|exact Hne].
  f_equal. f_equal. clear -Hs1.
  assert (∀ acc, ascending (acc ++ l) →
    fold_left (λ s n, set_insert (mk_output (string_val n)) s) ((λ n, mk_String (oname n)) <$> l) acc = acc ++ l) as H.
  { clear. induction l as [|n l IH]; intros acc Hs; cbn; [by rewrite app_nil_r|].
    destruct n as [n]. rewrite set_insert_last by (by apply ascending_below in Hs).
    rewrite IH; by rewrite <-app_assoc. }
  by rewrite H.
Qed.

(** A variant that is found first, or last. *)
Lemma untagged_first {T} depth v (x : T) vs : value_depth v < depth → untagged depth v (Ok x :: vs) = Ok x.
Proof using Type. intros H. unfold untagged. by rewrite decide_True. Qed.

Lemma untagged_string {T Ts} depth s (fs : fields Ts) (k : tuple Ts → res json_error T) x :
  0 < depth → untagged depth (JString s) [t ← de_struct fs depth (JString s); k t; Ok x] = Ok x.
Proof using Type. intros H. unfold untagged. by rewrite decide_True. Qed.

Lemma StorePath_value p : path_wf p → ∃ s, to_value p = Ok (JString s) ∧ ∀ depth, from_value depth (JString s) = Ok p.
Proof. intros Hwf. destruct (key_law p) as (s & Hs & Hp); [exact Hwf|]. exists s. unfold to_value, key_to_value. rewrite Hs. by split. Qed.

Lemma Single_fits d : path_wf (root_path d) →
  ∃ v, Single_ser d = Ok v ∧ v ≠ JNull ∧ value_depth v ≤ single_depth d ∧
    ∀ fuel depth, single_depth d < depth → depth ≤ fuel → Single_de fuel depth v = Ok d.
Proof.
  induction d as [d IH o|p]; intros Hp.
  - destruct (IH Hp) as (v & Hv & _ & Hd & Hr).
    exists (JObject [(str "drvPath", v); (str "output", JString (oname o))]).
    split; [cbn; by rewrite Hv|]. split; [done|]. split; [cbn; lia|].
    intros [|fuel] depth Hlt Hf; [lia|]. cbn [Single_de single_depth] in *.
    assert (de_struct (SBuilt_fields (Single_de fuel)) depth (JObject [(str "drvPath", v); (str "output", JString (oname o))]) = Ok (d, (o, tt))) as E.
    { destruct depth as [|[|depth]]; [lia|lia|]. cbn [de_struct enter].
      cbn [visit_map visit_entry SBuilt_fields no_slots fst snd f_name f_de field_with required].
      rewrite decide_True by done. rewrite Hr by lia. res_simpl. cbn [fst snd].
      rewrite decide_False by done. rewrite decide_True by done. cbn. by destruct o. }
    rewrite E. apply untagged_first. cbn. lia.
  - destruct (StorePath_value p Hp) as (s & Hs & Hr). exists (JString s). split; [done|]. split; [done|].
    split; [cbn; lia|]. intros [|fuel] depth Hlt Hf; [lia|]. cbn [Single_de]. rewrite Hr.
    apply (untagged_string depth s (SBuilt_fields (Single_de fuel)) (λ t, Ok (SBuilt t.1 t.2.1))). lia.
Qed.

#[export] Program Instance Single_json : JsonCodec SingleDerivedPath := {|
  json_ok d := path_wf (root_path d); json_depth := single_depth |}.
Next Obligation.
  intros d Hd. destruct (Single_fits d Hd) as (v & Hv & Hn & Hdv & Hr). exists v.
  split; [done|]. split; [done|]. split; [done|]. intros depth Hlt. by apply Hr.
Qed.

#[export] Program Instance Derived_json : JsonCodec DerivedPath := {|
  json_ok d := match d with DOpaque p => path_wf p | DBuilt d o => path_wf (root_path d) ∧ json_ok o end;
  json_depth d := match d with DOpaque _ => 0 | DBuilt d _ => S (Nat.max 1 (single_depth d)) end |}.
Next Obligation.
  intros [d o|p] Hd.
  - destruct Hd as [Hd Ho].
    destruct (fits_struct DBuilt_fields (Nat.max 1 (single_depth d)) (d, (o, tt))) as (v & Hv & Hn & Hdv & Hr).
    { apply (bool_decide_unpack _). vm_compute. exact I. }
    { split; [|split; [|done]]; apply required_fits; cbn; try done; lia. }
    exists v. split; [done|]. split; [done|]. split; [done|]. intros depth Hlt.
    unfold from_value, Derived_from_value. rewrite Hr by done. apply untagged_first. lia.
  - destruct (StorePath_value p Hd) as (s & Hs & Hr). exists (JString s). split; [done|]. split; [done|].
    split; [cbn; lia|]. intros depth Hlt. unfold from_value at 1, Derived_from_value. rewrite Hr.
    apply (untagged_string depth s DBuilt_fields (λ t, Ok (DBuilt t.1 t.2.1))). lia.
Qed.

#[export] Program Instance DrvOutput_json : JsonCodec DrvOutput := {|
  json_ok d := path_wf (do_path d); json_depth _ := 1 |}.
Next Obligation. intros d Hd. via DrvOutput_fields ((do_path d, (do_output d, tt))) DrvOutput_from_value. by destruct d. Qed.

#[export] Program Instance Signature_json : JsonCodec Signature := {|
  json_ok s := length (sig s) = SIGNATURE_BYTES; json_depth _ := 1 |}.
Next Obligation.
  intros s Hs. via Signature_fields ((mk_String (key_name s), (sig s, tt))) Signature_from_value; [|by destruct s].
  exists (JString (enc BASE64 (sig s))). split.
  { cbn [f_ser field_with]. unfold RawSignature_fmt, enc_encode_mut. rewrite <-Hs, base64_enc_len, <-base64_len_eq. by rewrite decide_True. }
  split; [done|]. split; [cbn; lia|]. intros depth _. unfold RawSignature_from_str. rewrite BASE64_decode_enc. res_simpl.
  by rewrite decide_True.
Qed.

#[export] Program Instance UnkeyedRealisation_json : JsonCodec UnkeyedRealisation := {|
  json_ok r := path_wf (ur_out_path r) ∧ json_ok (ur_signatures r); json_depth r := S (json_depth (ur_signatures r)) |}.
Next Obligation.
  intros r [Hp Hs]. via UnkeyedRealisation_fields ((ur_out_path r, (ur_signatures r, tt))) UnkeyedRealisation_from_value.
  by destruct r.
Qed.

#[export] Program Instance Realisation_json : JsonCodec Realisation := {|
  json_ok r := path_wf (do_path (re_key r)) ∧ json_ok (re_value r); json_depth r := S (json_depth (re_value r)) |}.
Next Obligation.
  intros r [Hp Hs]. via Realisation_fields ((re_key r, (re_value r, tt))) Realisation_from_value. by destruct r.
Qed.
End codecs.

(** The forms of derived paths and realisations are read back as what they
    were written for. *)
Theorem core_json_roundtrip {DE : DataEncoding} {DL : DataEncodingLaws} (d : DerivedPath) (r : Realisation) :
  json_ok d → json_ok r →
  (∃ v, to_value d = Ok v ∧ ∀ depth, json_depth d < depth → from_value depth v = Ok d) ∧
  (∃ v, to_value r = Ok v ∧ ∀ depth, json_depth r < depth → from_value depth v = Ok r).
Proof.
  intros (v & Hv & _ & _ & Hr)%json_fits (w & Hw & _ & _ & Hr')%json_fits. split; eauto.
Qed.
