(* ===== verification/DerivationJson.v ===== *)
(** Derivations and their JSON form
    ([harmonia-store-core/src/derivation/derivation_output.rs], [inputs.rs],
    [basic_derivation.rs]). *)

From stdpp Require Import base sets list numbers strings sorting.
From Stdlib Require Import ZArith Lia Strings.Byte.
From S2P Require Import Prelude Async BaseEncoding Codecs Hash StorePath ContentAddress Signature DerivedPath NixIO NixCodec WireTypes Messages Derivations DrvInputs Json.

#[local] Unset Program Cases.

(** ** The structured attributes

    [serde_json::Map] with its own forms. *)
Class StructuredAttrsJson {SA : StructuredAttrsLib} : Type := {
  attrs_to : StructuredAttrs → res json_error Value;
  attrs_from : nat → Value → res json_error StructuredAttrs
}.

#[export] Instance attrs_to_value {SA : StructuredAttrsLib} {SJ : StructuredAttrsJson} : JsonSerialize StructuredAttrs := attrs_to.
#[export] Instance attrs_from_value {SA : StructuredAttrsLib} {SJ : StructuredAttrsJson} : JsonDeserialize StructuredAttrs := attrs_from.

(** [DerivationT<BTreeSet<SingleDerivedPath>>]. *)
Record Derivation {SA : StructuredAttrsLib} : Type := mk_Derivation {
  dv_name : StorePathName;
  dv_outputs : BTreeMap OutputName DerivationOutput;
  dv_inputs : BTreeSet SingleDerivedPath;
  dv_platform : Bytes;
  dv_builder : Bytes;
  dv_args : list Bytes;
  dv_env : BTreeMap Bytes Bytes;
  dv_structured_attrs : option StructuredAttrs
}.

Definition default_version : U32 := uint 4.

Section forms.
Context {DE : DataEncoding} {DG : DigestLib}.

(** ** Outputs *)

(** [RawDerivationOutput]; [impure] is left out when it is false. *)
Definition Output_fields :=
  FCons (optional (T := StorePath) "path")
  (FCons (optional (T := Hash) "hash")
  (FCons (optional (T := ContentAddressMethod) "method")
  (FCons (optional (T := Algorithm) "hashAlgo")
  (FCons (with_default false negb (required (T := bool) "impure")) FNil)))).

#[export] Instance DerivationOutput_to_value : JsonSerialize DerivationOutput := λ o,
  match o with
  | InputAddressed path => ser_struct Output_fields (Some path, (None, (None, (None, (false, tt)))))
  | CAFixed ca =>
      h ← CA_hash ca;
      ser_struct Output_fields (None, (Some h, (Some (CA_method ca), (None, (false, tt)))))
  | Deferred => ser_struct Output_fields (None, (None, (None, (None, (false, tt)))))
  | CAFloating m =>
      ser_struct Output_fields (None, (None, (Some (MA_method m), (Some (MA_algorithm m), (false, tt)))))
  | Impure m =>
      ser_struct Output_fields (None, (None, (Some (MA_method m), (Some (MA_algorithm m), (true, tt)))))
  end.

(** Which fields are present decides the variant. *)
Definition DerivationOutput_of_raw
    (path : option StorePath) (hash : option Hash) (method : option ContentAddressMethod) (hash_algo : option Algorithm)
    (impure : bool) : res json_error DerivationOutput :=
  match path with
  | Some path => Ok (InputAddressed path)
  | None =>
      match hash with
      | Some hash =>
          method ← ok_or method (MissingField (str "method"));
          ca ← map_err CustomAddress (CA_from_hash method hash);
          Ok (CAFixed ca)
      | None =>
          match method with
          | Some method =>
              algo ← ok_or hash_algo (MissingField (str "hashAlgo"));
              let ca_method_algo :=
                match method with MText => AText | MFlat => AFlat algo | MRecursive => ARecursive algo end in
              Ok (if impure then Impure ca_method_algo else CAFloating ca_method_algo)
          | None => Ok Deferred
          end
      end
  end.

#[export] Instance DerivationOutput_from_value : JsonDeserialize DerivationOutput := λ depth v,
  '(path, (hash, (method, (hash_algo, (impure, _))))) ← de_struct Output_fields depth v;
  DerivationOutput_of_raw path hash method hash_algo impure.

(** [DerivationOutput::path]. *)
Definition DerivationOutput_path (dir : StoreDir) (drv_name : StorePathName) (output_name : OutputName) (o : DerivationOutput) :
    res StorePathNameError (option StorePath) :=
  match o with
  | InputAddressed store_path => Ok (Some store_path)
  | CAFixed ca =>
      name ← StorePathName_try_from (output_path_name drv_name output_name);
      path ← unwrap (make_store_path_from_ca dir name ca);
      Ok (Some path)
  | _ => Ok None
  end.

(** ** Inputs *)

Fixpoint OutputInputs_ser (t : OutputInputs) : res json_error Value :=
  outputs ← to_value (oi_outputs t);
  dynamic ← (fix each (l : list (OutputName * OutputInputs)) : res json_error (list (bytes * Value)) :=
               match l with
               | [] => Ok []
               | (k, t) :: l => k ← key_to k; v ← OutputInputs_ser t; l ← each l; Ok ((k, v) :: l)
               end) (entries (oi_dynamic_outputs t));
  Ok (JObject [(str "outputs", outputs); (str "dynamicOutputs", JObject dynamic)]).

Definition OutputInputs_fields (de : nat → Value → res json_error OutputInputs) :=
  FCons (with_default (mk_set []) no_skip (required (T := BTreeSet OutputName) "outputs"))
  (FCons (with_default (mk_map []) no_skip
            (field_with "dynamicOutputs" (map_to_value (K := OutputName) OutputInputs_ser) (map_from_value de)))
  FNil).

(** The depth is enough fuel: each level of the trie is an object. *)
Fixpoint OutputInputs_de (fuel depth : nat) (v : Value) : res json_error OutputInputs :=
  match fuel with
  | O => Err RecursionLimitExceeded
  | S fuel =>
      t ← de_struct (OutputInputs_fields (OutputInputs_de fuel)) depth v; Ok (mk_output_inputs t.1 t.2.1)
  end.

#[export] Instance OutputInputs_to_value : JsonSerialize OutputInputs := OutputInputs_ser.
#[export] Instance OutputInputs_from_value : JsonDeserialize OutputInputs := λ depth, OutputInputs_de depth depth.

Definition Inputs_fields :=
  FCons (with_default (mk_set []) no_skip (required (T := BTreeSet StorePath) "srcs"))
  (FCons (with_default (mk_map []) no_skip (required (T := BTreeMap StorePath OutputInputs) "drvs")) FNil).

#[export] Instance Inputs_to_value : JsonSerialize DerivationInputs := λ i,
  ser_struct Inputs_fields (di_srcs i, (di_drvs i, tt)).
#[export] Instance Inputs_from_value : JsonDeserialize DerivationInputs := λ depth v,
  t ← de_struct Inputs_fields depth v; Ok (mk_inputs t.1 t.2.1).

(** ** Derivations *)

Context {SA : StructuredAttrsLib} {SJ : StructuredAttrsJson}.

(** [DerivationHelper]. *)
Definition Helper_fields :=
  FCons (required (T := RString) "name")
  (FCons (required (T := BTreeMap OutputName DerivationOutput) "outputs")
  (FCons (required (T := DerivationInputs) "inputs")
  (FCons (required (T := RString) "system")
  (FCons (required (T := RString) "builder")
  (FCons (required (T := list RString) "args")
  (FCons (required (T := BTreeMap RString RString) "env")
  (FCons (with_default None is_none (optional (T := StructuredAttrs) "structuredAttrs"))
  (FCons (with_default default_version no_skip (required (T := U32) "version")) FNil)))))))).

Definition utf8_or (field : string) (b : Bytes) : res json_error RString :=
  if is_utf8 (bytes_val b) then Ok (mk_String (bytes_val b)) else Err (CustomUtf8 (str field)).

#[export] Instance Derivation_to_value : JsonSerialize Derivation := λ d,
  let inputs := inputs_of_paths (dv_inputs d) in
  platform_str ← utf8_or "platform" (dv_platform d);
  builder_str ← utf8_or "builder" (dv_builder d);
  args_strs ← traverse (utf8_or "args") (dv_args d);
  env ← traverse (λ e, k ← utf8_or "env" e.1; v ← utf8_or "env" e.2; Ok (k, v)) (entries (dv_env d));
  let env_map := mk_map (fold_left (λ m e, insert_entry e.1 e.2 m) env []) in
  ser_struct Helper_fields
    (mk_String (spn (dv_name d)), (dv_outputs d, (inputs, (platform_str, (builder_str, (args_strs, (env_map,
      (dv_structured_attrs d, (default_version, tt))))))))).

#[export] Instance Derivation_from_value : JsonDeserialize Derivation := λ depth v,
  '(name, (outputs, (inputs, (platform, (builder, (args, (env, (structured_attrs, (version, _)))))))))
    ← de_struct Helper_fields depth v;
  if decide (uint_val version ≠ 4%Z) then Err (CustomVersion (uint_val version)) else
  let inputs := paths_of_inputs inputs in
  name ← map_err CustomName (StorePathName_try_from (string_val name));
  Ok (mk_Derivation _ name outputs inputs (mk_Bytes (string_val platform)) (mk_Bytes (string_val builder))
        ((λ s, mk_Bytes (string_val s)) <$> args)
        (mk_map (fold_left (λ m e, insert_entry (mk_Bytes (string_val e.1)) (mk_Bytes (string_val e.2)) m) (entries env) []))
        structured_attrs).

(** [Derivation::new]. *)
Definition Derivation_new (name : StorePathName) (platform builder : Bytes) : Derivation :=
  mk_Derivation _ name (mk_map []) (mk_set []) platform builder [] (mk_map []) None.
End forms.

(** ** Round trips *)

Fixpoint oi_depth (t : OutputInputs) : nat :=
  S (S (list_max ((λ e, oi_depth e.2) <$> entries (oi_dynamic_outputs t)))).

Class StructuredAttrsLaws {SA : StructuredAttrsLib} {SJ : StructuredAttrsJson} : Type := {
  attrs_ok : StructuredAttrs → Prop;
  attrs_depth : StructuredAttrs → nat;
  attrs_law x : attrs_ok x → fits attrs_to attrs_from (attrs_depth x) x
}.

#[export] Program Instance attrs_json {SA : StructuredAttrsLib} {SJ : StructuredAttrsJson} {SL : StructuredAttrsLaws} :
  JsonCodec StructuredAttrs := {| json_ok := attrs_ok; json_depth := attrs_depth |}.
Next Obligation. intros SA SJ SL x Hx. by apply attrs_law. Qed.

Section codecs.
Context {DE : DataEncoding} {DL : DataEncodingLaws}.

Definition output_json_ok (o : DerivationOutput) : Prop :=
  match o with InputAddressed p => path_wf p | CAFixed ca => CA_wf ca | _ => True end.

Lemma Output_names : NoDup (field_names Output_fields).
Proof using Type. apply (bool_decide_unpack _). vm_compute. exact I. Qed.

Lemma Output_fit path hash method algo impure :
  (∀ p, path = Some p → path_wf p) → (∀ h, hash = Some h → Hash_wf h) →
  fields_fit Output_fields 0 (path, (hash, (method, (algo, (impure, tt))))).
Proof.
  intros Hp Hh. repeat split; cbn [fst snd].
  - apply optional_codec_fits. intros p [= ->]. split; [by apply Hp|done].
  - apply optional_codec_fits. intros h [= ->]. split; [by apply Hh|done].
  - by apply optional_codec_fits.
  - by apply optional_codec_fits.
  - destruct impure; [|done]. exists (JBool true). repeat split; done.
Qed.

#[export] Program Instance Output_json : JsonCodec DerivationOutput := {| json_ok := output_json_ok; json_depth _ := 1 |}.
Next Obligation.
  intros o Ho.
  assert (∃ path hash method algo impure,
    to_value o = ser_struct Output_fields (path, (hash, (method, (algo, (impure, tt))))) ∧
    (∀ p, path = Some p → path_wf p) ∧ (∀ h, hash = Some h → Hash_wf h) ∧
    DerivationOutput_of_raw path hash method algo impure = Ok o) as (path & hash & method & algo & impure & Hs & Hp & Hh & Hr).
  { destruct o as [p|ca| |m|m].
    - eexists _, _, _, _, _. split; [done|]. split; [by intros ? [= <-]|]. done.
    - destruct (CA_hash_spec (E:=json_error) ca Ho) as (g & Hg & Hgw & Hf).
      unfold to_value, DerivationOutput_to_value. rewrite Hg. eexists _, _, _, _, _. split; [done|].
      split; [done|]. split; [by intros ? [= <-]|]. cbn. by rewrite Hf.
    - eexists _, _, _, _, _. split; [done|]. done.
    - eexists _, _, _, _, _. split; [done|]. split; [done|]. split; [done|]. by destruct m.
    - eexists _, _, _, _, _. split; [done|]. split; [done|]. split; [done|]. by destruct m. }
  apply (fits_via Output_fields (path, (hash, (method, (algo, (impure, tt)))))); [apply Output_names|by apply Output_fit|done|].
  intros depth v E. unfold from_value, DerivationOutput_from_value. by rewrite E.
Qed.

Lemma OutputInputs_ser_eq de t :
  OutputInputs_ser t = ser_struct (OutputInputs_fields de) (oi_outputs t, (oi_dynamic_outputs t, tt)).
Proof using Type.
  destruct t as [outputs [l]]. cbn [oi_outputs oi_dynamic_outputs OutputInputs_ser].
  unfold ser_struct, OutputInputs_fields. cbn [ser_fields with_default required field_with f_skip f_ser f_name fst snd no_skip].
  destruct (to_value outputs); [|done|done]. res_simpl. unfold map_to_value. cbn [entries].
  set (each := fix each (l : list (OutputName * OutputInputs)) : res json_error (list (bytes * Value)) :=
    match l with [] => Ok [] | (k, t) :: l => k ← key_to k; v ← OutputInputs_ser t; l ← each l; Ok ((k, v) :: l) end).
  assert (∀ l, each l = traverse (λ e, k ← key_to e.1; v ← OutputInputs_ser e.2; Ok (k, v)) l) as E.
  { clear. induction l as [|[k t] l IH]; cbn; [done|]. destruct (OutputInputs_ser t); cbn; [|done|done].
    fold each. rewrite IH. by destruct (traverse _ l). }
  rewrite E. by destruct (traverse _ l).
Qed.

Lemma OutputInputs_fits t fuel :
  oi_wf t → oi_depth t < fuel → fits OutputInputs_ser (OutputInputs_de fuel) (oi_depth t) t.
Proof.
  revert fuel. induction t as [outputs dynamic IH] using OutputInputs_rect'. intros [|fuel] Hw Hf; [lia|].
  inversion_clear Hw as [? ? Ho Ha Hs]. cbn [oi_depth oi_dynamic_outputs] in *.
  set (n := list_max ((λ e, oi_depth e.2) <$> entries dynamic)) in *.
  assert (Forall (λ e, oi_depth e.2 ≤ n) (entries dynamic)) as Hn.
  { apply (Forall_fmap (λ e : OutputName * OutputInputs, oi_depth e.2) (λ k, k ≤ n)), List.list_max_le. done. }
  apply (fits_via (OutputInputs_fields (OutputInputs_de fuel)) (outputs, (dynamic, tt))).
  - apply (bool_decide_unpack _). vm_compute. exact I.
  - repeat split; cbn [fst snd].
    + apply default_codec_fits; [by split; [|apply Forall_true]|]. cbn. apply le_n_S.
      apply List.list_max_le, Forall_fmap, Forall_true. cbn. lia.
    + apply default_fits. cbn [no_skip].
      destruct (fits_map OutputInputs_ser (OutputInputs_de fuel) n dynamic Ha) as (v & Hv & _ & Hr); [|by exists v].
      rewrite Forall_forall in IH, Hs, Hn |- *. intros e He. split; [done|].
      eapply fits_mono; [apply IH; [done|by apply Hs|]|by apply Hn]. specialize (Hn e He). cbn in Hn. lia.
  - by rewrite (OutputInputs_ser_eq (OutputInputs_de fuel)).
  - intros depth v E. cbn [OutputInputs_de]. by rewrite E.
Qed.

#[export] Program Instance OutputInputs_json : JsonCodec OutputInputs := {| json_ok := oi_wf; json_depth := oi_depth |}.
Next Obligation.
  intros t Ht. destruct (OutputInputs_fits t (S (oi_depth t)) Ht) as (v & Hv & Hn & Hd & _); [lia|].
  exists v. split; [done|]. split; [done|]. split; [done|]. intros depth Hlt.
  destruct (OutputInputs_fits t depth Ht Hlt) as (v' & Hv' & _ & _ & Hr).
  rewrite Hv in Hv'. injection Hv' as <-.
  unfold from_value, OutputInputs_from_value. by apply Hr.
Qed.

#[export] Program Instance Inputs_json : JsonCodec DerivationInputs := {|
  json_ok i := json_ok (di_srcs i) ∧ json_ok (di_drvs i);
  json_depth i := S (Nat.max (json_depth (di_srcs i)) (json_depth (di_drvs i))) |}.
Next Obligation.
  intros i [Hs Hd]. via Inputs_fields ((di_srcs i, (di_drvs i, tt))) Inputs_from_value. by destruct i.
Qed.
End codecs.

(** *** Derivations *)

Section derivation.
Context {DE : DataEncoding} {DL : DataEncodingLaws}.

Lemma ensure_slot_keys (P : StorePath → Prop) d f drvs :
  P (root_path d) → Forall P (fst <$> drvs) → Forall P (fst <$> ensure_slot d f drvs).
Proof. revert f. induction d as [d IH o|p]; intros f Hp Hd; cbn; [by apply IH|by apply fst_at_entry]. Qed.

Lemma inputs_of_paths_json s :
  Forall (λ d, path_wf (root_path d)) (elems s) → json_ok (inputs_of_paths s).
Proof.
  intros Hs. destruct (inputs_of_paths_wf s) as [Ha [Hk Hw]].
  assert (∀ l i, Forall (λ d, path_wf (root_path d)) l → Forall path_wf (elems (di_srcs i)) →
    Forall path_wf (fst <$> entries (di_drvs i)) →
    Forall path_wf (elems (di_srcs (fold_left add_path l i))) ∧
    Forall path_wf (fst <$> entries (di_drvs (fold_left add_path l i)))) as H.
  { induction l as [|d l IH]; intros i Hl H1 H2; cbn; [done|]. apply Forall_cons in Hl as [Hd Hl].
    apply IH; [done|..]; destruct d; cbn [add_path di_srcs di_drvs elems entries root_path] in *; try done; [by apply insert_elem_forall|by apply ensure_slot_keys]. }
  destruct (H (elems s) DerivationInputs_default Hs) as [H1 H2]; [constructor|constructor|].
  split; [by split|]. split; [done|]. apply Forall_and. split; [exact (proj1 (Forall_fmap fst path_wf _) H2)|done].
Qed.

Context {SA : StructuredAttrsLib} {SJ : StructuredAttrsJson} {SL : StructuredAttrsLaws}.

Definition utf8 (b : Bytes) : Prop := is_utf8 (bytes_val b) = true.

(** A derivation that has a JSON form. *)
Definition derivation_wf (d : Derivation) : Prop :=
  name_ok (spn (dv_name d)) ∧
  (ascending (fst <$> entries (dv_outputs d)) ∧ Forall (λ e, output_json_ok e.2) (entries (dv_outputs d))) ∧
  (ascending (elems (dv_inputs d)) ∧ Forall (λ p, path_wf (root_path p)) (elems (dv_inputs d))) ∧
  utf8 (dv_platform d) ∧ utf8 (dv_builder d) ∧ Forall utf8 (dv_args d) ∧
  (ascending (fst <$> entries (dv_env d)) ∧ Forall (λ e, utf8 e.1 ∧ utf8 e.2) (entries (dv_env d))) ∧
  ∀ a, dv_structured_attrs d = Some a → attrs_ok a.

Definition helper_depth (d : Derivation) : nat :=
  Nat.max 2 (Nat.max (json_depth (inputs_of_paths (dv_inputs d)))
    (match dv_structured_attrs d with Some a => attrs_depth a | None => 0 end)).

Definition derivation_depth (d : Derivation) : nat := S (helper_depth d).

Definition as_string (b : Bytes) : RString := mk_String (bytes_val b).

Lemma utf8_or_Ok field b : utf8 b → utf8_or field b = Ok (as_string b).
Proof using Type. unfold utf8, utf8_or. by intros ->. Qed.

Lemma utf8_or_inv field b s : utf8_or field b = Ok s → utf8 b.
Proof using Type. unfold utf8, utf8_or. by destruct (is_utf8 _). Qed.

Lemma traverse_inv {A B} (f : A → res json_error B) (P : A → Prop) l ys :
  (∀ x y, f x = Ok y → P x) → traverse f l = Ok ys → Forall P l.
Proof using Type.
  intros Hf. revert ys. induction l as [|x l IH]; intros ys; cbn; [constructor|].
  intros (y & Hy & (ys' & Hys & _)%res_bind_Ok)%res_bind_Ok. constructor; eauto.
Qed.

Lemma traverse_Ok {A B} (f : A → res json_error B) g l : Forall (λ x, f x = Ok (g x)) l → traverse f l = Ok (g <$> l).
Proof using Type. induction 1 as [|x l Hx _ IH]; cbn; [done|]. by rewrite Hx, IH. Qed.

Lemma flat_depth {T} {JK : JsonKey T} {KL : JsonKeyLaws T} (l : list T) : deepest l = 0.
Proof using Type. apply Nat.le_0_r, List.list_max_le, Forall_fmap, Forall_true. cbn. lia. Qed.

Lemma as_string_env l :
  ascending (fst <$> l) → ascending (fst <$> ((λ e : Bytes * Bytes, (as_string e.1, as_string e.2)) <$> l)).
Proof using Type.
  intros H. rewrite <-list_fmap_compose.
  induction l as [|[k v] l IH]; cbn in *; [constructor|]. apply StronglySorted_inv in H as [H Hk].
  constructor; [by apply IH|]. apply Forall_fmap. apply Forall_fmap in Hk. exact Hk.
Qed.

Lemma env_back l :
  ascending (fst <$> l) →
  fold_left (λ m e, insert_entry (mk_Bytes (string_val e.1)) (mk_Bytes (string_val e.2)) m)
    ((λ e : Bytes * Bytes, (as_string e.1, as_string e.2)) <$> l) [] = l.
Proof using Type.
  intros H. rewrite <-(insert_entries_sorted l [] H) at 2. generalize (@nil (Bytes * Bytes)). clear H.
  induction l as [|[[k] [v]] l IH]; intros acc; cbn; [done|]. apply IH.
Qed.

Definition helper_of (d : Derivation) :=
  (mk_String (spn (dv_name d)), (dv_outputs d, (inputs_of_paths (dv_inputs d), (as_string (dv_platform d),
    (as_string (dv_builder d), (as_string <$> dv_args d,
    (mk_map ((λ e : Bytes * Bytes, (as_string e.1, as_string e.2)) <$> entries (dv_env d)),
    (dv_structured_attrs d, (default_version, tt))))))))).

Lemma Derivation_ser_eq d : derivation_wf d → to_value d = ser_struct Helper_fields (helper_of d).
Proof using Type.
  intros (_ & _ & _ & Hp & Hb & Ha & [Hk He] & _). unfold to_value, Derivation_to_value.
  rewrite (utf8_or_Ok _ _ Hp), (utf8_or_Ok _ _ Hb). res_simpl. rewrite (traverse_Ok _ as_string).
  2: { eapply Forall_impl; [exact Ha|]. intros b. apply utf8_or_Ok. }
  res_simpl. rewrite (traverse_Ok _ (λ e : Bytes * Bytes, (as_string e.1, as_string e.2))).
  2: { eapply Forall_impl; [exact He|]. intros [k v] [Hk' Hv']. cbn in *. by rewrite !utf8_or_Ok. }
  res_simpl. by rewrite insert_entries_sorted by (by apply as_string_env).
Qed.

Lemma Helper_fit d : derivation_wf d → fields_fit Helper_fields (helper_depth d) (helper_of d).
Proof.
  intros (_ & [Ho1 Ho2] & [Hi1 Hi2] & _ & _ & _ & [Hk _] & Hattr).
  assert (deepest (snd <$> entries (dv_outputs d)) ≤ 1) as Hd.
  { apply List.list_max_le, Forall_fmap, Forall_true. cbn. lia. }
  unfold helper_depth, helper_of. repeat split; cbn [fst snd].
  - apply required_fits; [done|cbn; lia].
  - apply required_fits; [|cbn [json_depth BTreeMap_json]; lia]. split; [done|].
    eapply Forall_impl; [exact Ho2|]. by intros e He.
  - apply required_fits; [by apply inputs_of_paths_json|lia].
  - apply required_fits; [done|cbn; lia].
  - apply required_fits; [done|cbn; lia].
  - apply required_fits; [by apply Forall_true|]. cbn [json_depth Vec_json]. rewrite flat_depth. lia.
  - apply required_fits; [split; [by apply as_string_env|by apply Forall_true]|].
    cbn [json_depth BTreeMap_json]. rewrite flat_depth. lia.
  - destruct (dv_structured_attrs d) as [a|]; [|done]. apply (optional_codec_fits "structuredAttrs").
    intros x [= <-]. split; [by apply Hattr|cbn; lia].
  - apply default_codec_fits; cbn; lia.
Qed.

Lemma Helper_names : NoDup (field_names Helper_fields).
Proof using Type. apply (bool_decide_unpack _). vm_compute. exact I. Qed.

Lemma Derivation_fits d : derivation_wf d → fits to_value from_value (derivation_depth d) d.
Proof.
  intros Hd. apply (fits_via Helper_fields (helper_of d)); [apply Helper_names|by apply Helper_fit|by apply Derivation_ser_eq|].
  destruct Hd as (Hn & _ & [Hi _] & _ & _ & _ & [Hk _] & _).
  intros depth v E. unfold from_value, Derivation_from_value. rewrite E. unfold helper_of. res_simpl.
  rewrite decide_False by (cbn; lia). cbn [string_val]. unfold StorePathName_try_from. rewrite into_name_ok by done.
  res_simpl. cbn [entries]. rewrite env_back by done. rewrite inputs_roundtrip by done.
  rewrite <-list_fmap_compose. destruct d as [[n] o i [p] [b] args [env] attrs]. cbn. f_equal. f_equal.
  clear. induction args as [|[a] args IH]; cbn; [done|]. by rewrite IH.
Qed.

(** C20. The JSON form of a derivation keeps all of it: a derivation whose byte
    strings are UTF-8 is written, with its inputs as a trie, and is read back as
    itself by any reader that allows a few more levels than the inputs and
    attributes have; and what is written at all has only UTF-8 in it. *)
Theorem derivation_json_roundtrip (d : Derivation) :
  (derivation_wf d →
     ∃ v, to_value d = Ok v ∧ ∀ depth, derivation_depth d < depth → from_value depth v = Ok d) ∧
  (∀ v, to_value d = Ok v →
     utf8 (dv_platform d) ∧ utf8 (dv_builder d) ∧ Forall utf8 (dv_args d) ∧
     Forall (λ e, utf8 e.1 ∧ utf8 e.2) (entries (dv_env d))).
Proof using DL.
  split.
  - intros (v & Hv & _ & _ & Hr)%Derivation_fits. by exists v.
  - intros v (p & Hp & (b & Hb & (a & Ha & (e & He & _)%res_bind_Ok)%res_bind_Ok)%res_bind_Ok)%res_bind_Ok.
    split; [by eapply utf8_or_inv|]. split; [by eapply utf8_or_inv|]. split.
    + eapply traverse_inv, Ha. intros x y. apply utf8_or_inv.
    + eapply traverse_inv, He. intros [k x] y (k' & Hk & (x' & Hx & _)%res_bind_Ok)%res_bind_Ok.
      split; by eapply utf8_or_inv.
Qed.
End derivation.

(** Reading the output of a derivation is decided by three fields alone: an
    object without [path], [hash] and [method] is a deferred output whatever
    else it has, also when it says that it is impure or names an algorithm. *)
Theorem output_json_deferred {DE : DataEncoding} (depth : nat) (algo : option Algorithm) (impure : bool) :
  1 < depth →
  from_value depth (JObject ((match algo with Some a => [(str "hashAlgo", JString (Algorithm_to_string a))] | None => [] end)
    ++ [(str "impure", JBool impure)])) = Ok Deferred.
Proof. intros Hd. destruct depth as [|[|d]]; [lia|lia|]. destruct algo as [[]|]; reflexivity. Qed.

(** ** Concrete uses *)

#[local] Existing Instance prefix_lib.
#[local] Existing Instance prefix_laws.

(** Attributes as the members of an object. *)
#[local] Instance sample_attrs : StructuredAttrsLib := list (bytes * Value).
#[local] Instance sample_attrs_json : StructuredAttrsJson := {|
  attrs_to (l : list (bytes * Value)) := Ok (JObject l);
  attrs_from depth v :=
    match v with
    | JObject l => if decide (value_depth v < depth) then Ok l else Err RecursionLimitExceeded
    | _ => Err InvalidType
    end |}.

#[local] Program Instance sample_attrs_laws : StructuredAttrsLaws := {|
  attrs_ok _ := True; attrs_depth (l : list (bytes * Value)) := value_depth (JObject l) |}.
Next Obligation.
  intros l _. exists (JObject l). split; [done|]. split; [done|]. split; [done|]. intros depth Hd.
  cbn [attrs_from sample_attrs_json]. by rewrite decide_True.
Qed.

Definition sample_derivation : Derivation :=
  mk_Derivation _ (mk_spn (str "hello-2.12"))
    (mk_map [(mk_output (str "dev"), CAFloating (ARecursive SHA256)); (mk_output (str "out"), InputAddressed (sample_drv "c"))])
    sample_paths (mk_Bytes (str "x86_64-linux")) (mk_Bytes (str "/bin/sh")) [mk_Bytes (str "-c"); mk_Bytes []]
    (mk_map [(mk_Bytes (str "A"), mk_Bytes (str "1")); (mk_Bytes (str "B"), mk_Bytes [])])
    (Some [(str "flag", JArray [JNull; JBool true])]).

Lemma sample_drv_wf c : path_wf (sample_drv c).
Proof. split; [by destruct c|]. split; [discriminate|]. split; [vm_compute; lia|repeat constructor]. Qed.

Lemma derivation_json_roundtrip_witness :
  derivation_wf sample_derivation ∧
  ∃ v, to_value sample_derivation = Ok v ∧ from_value 128 v = Ok sample_derivation.
Proof.
  assert (derivation_wf sample_derivation) as Hwf.
  { split; [split; [discriminate|]; split; [vm_compute; lia|repeat constructor]|].
    split; [split; [repeat constructor|repeat constructor; apply sample_drv_wf]|].
    split; [split; [apply insert_elems_ascending; constructor|]|].
    - apply Forall_forall. intros p Hp.
      assert (root_path p = sample_drv "a" ∨ root_path p = sample_drv "b") as [->| ->]; [|apply sample_drv_wf..].
      apply elem_insert_elems in Hp as [?%not_elem_of_nil|(x & Hx & ->)]; [done|].
      repeat (apply elem_of_cons in Hx as [->|Hx]; [by auto|]). by apply not_elem_of_nil in Hx.
    - repeat split; try reflexivity; repeat constructor. }
  split; [exact Hwf|].
  destruct (proj1 (derivation_json_roundtrip sample_derivation) Hwf) as (v & Hv & Hr).
  exists v. split; [exact Hv|]. apply Hr. apply Nat.ltb_lt. vm_compute. reflexivity.
Defined.

Lemma output_json_deferred_witness :
  from_value 128 (JObject [(str "hashAlgo", JString (str "sha256")); (str "impure", JBool true)]) = Ok Deferred.
Proof. apply (output_json_deferred 128 (Some SHA256) true). lia. Defined.
