(* ===== verification/Nested.v ===== *)
(** Protocol streams inside frames: [FramedReader] as the source of a buffered
    reader ([harmonia-protocol/src/daemon_wire/framed/reader.rs], [build_buffered]
    in [de/reader.rs]) and [FramedWriter] as the sink of a protocol writer
    ([framed/writer.rs], [build] in [ser/writer.rs]). *)

From stdpp Require Import base list numbers strings.
From Stdlib Require Import ZArith Lia Strings.Byte.
From S2P Require Import Prelude Async Wire Sink BufferMut BytesReader NarWriter ProtoRead Framed Version StorePath NixIO Streams NixCodec.

#[local] Unset Program Cases.

(** ** Reading *)

#[export] Instance FramedReader_async_read {R} {HR : AsyncBytesRead R} : AsyncRead (FramedReadState * R) :=
  framed_poll_read.

(** The contents of frames at the front of a stream. *)
Fixpoint unframe (fuel : nat) (bs : bytes) : bytes :=
  match fuel with
  | O => []
  | S fuel =>
      match take_u64 bs with
      | Ok (Some len, bs) =>
          if decide (len = 0%Z) then []
          else take (Z.to_nat len) bs ++ unframe fuel (drop (Z.to_nat len) bs)
      | _ => []
      end
  end.

Lemma unframe_frames fs tl : ∀ fuel, frames_ok fs → length fs < fuel → unframe fuel (frames fs ++ tl) = concat fs.
Proof.
  induction fs as [|f fs IH]; intros [|fuel] Hfs Hf; try (cbn in Hf; lia); cbn [unframe].
  - unfold frames. cbn [fmap list_fmap concat app]. rewrite take_u64_encoded by (unfold is_u64, u64_modulus; lia). done.
  - apply Forall_cons in Hfs as [[Hne Hu] Hfs].
    assert (frames (f :: fs) ++ tl = u64_to_le_bytes (Z.of_nat (length f)) ++ f ++ frames fs ++ tl) as ->.
    { unfold frames, frame. rewrite fmap_cons, concat_cons. by rewrite <-!app_assoc. }
    rewrite take_u64_encoded by done. rewrite decide_False by (destruct f; [done|cbn; lia]).
    rewrite Nat2Z.id, take_app_length, drop_app_length. cbn [concat]. rewrite IH; [done|done|cbn in Hf; lia].
Qed.

Lemma length_frames fs tl : length fs ≤ length (frames fs ++ tl).
Proof.
  unfold frames. rewrite !length_app. induction fs as [|f fs IH]; [cbn; lia|].
  rewrite fmap_cons, concat_cons, length_app. unfold frame at 1. rewrite length_app, length_u64_to_le_bytes. cbn [length]. lia.
Qed.

Section reader.
Context {R : Type} {HR : AsyncBytesRead R} {HL : AsyncBytesReadBase R}.

(** What is still in the frames. *)
Definition framed_rest (x : FramedReadState * R) : bytes :=
  let contents bs := unframe (S (length bs)) bs in
  match x.1 with
  | FReadLen u => contents (take (tu_read u) (tu_buf u) ++ rest x.2)
  | FReadData remaining => take (Z.to_nat remaining) (rest x.2) ++ contents (drop (Z.to_nat remaining) (rest x.2))
  | FEof => []
  end.

Lemma framed_rest_at x c tl : framed_at x c tl → framed_rest x = c.
Proof.
  destruct x as [st r]. intros (_ & fs & Hfs & Hat). unfold framed_rest. cbn [fst snd] in *.
  assert (unframe (S (length (frames fs ++ tl))) (frames fs ++ tl) = concat fs) as Hun.
  { apply unframe_frames; [done|]. pose proof (length_frames fs tl). lia. }
  destruct st as [u|remaining|].
  - destruct Hat as (-> & a & (_ & Hr & _ & Ha) & Hbs). rewrite Hr, Ha, <-Hbs. done.
  - destruct Hat as (d & _ & -> & -> & Hr). rewrite Nat2Z.id, Hr, take_app_length, drop_app_length. by rewrite Hun.
  - by destruct Hat as [-> _].
Qed.

(** The frames are followed by [tl]. *)
Program Definition FramedReader_laws (tl : bytes) : AsyncReadLaws (FramedReadState * R) := {|
  ar_inv x := ∃ c, framed_at x c tl;
  ar_rest := framed_rest;
  ar_patience x := patience x.2
|}.
Next Obligation.
  intros tl x room x' p [c Hx] Hroom E. apply (framed_poll_read_spec x c tl) in E; [|done|done].
  rewrite (framed_rest_at _ _ _ Hx). destruct p as [[b|e|]|]; try done.
  - destruct E as (c' & -> & Hx' & Hnil & Hp & Hb). split; [by exists c'|]. rewrite (framed_rest_at _ _ _ Hx').
    split; [done|]. split; [done|]. split; [|done]. intros Hb0. by apply Hnil.
  - destruct E as [Hx' Hp]. split; [by exists c|]. by rewrite (framed_rest_at _ _ _ Hx').
Qed.
End reader.

Definition DEFAULT_MAX_BUF_SIZE : nat := Z.to_nat 8388608.

(** [NixReader::builder().set_version(version).build_buffered(reader)]: the
    store directory is the default. *)
Definition nr_build_buffered {R} (keep : list Filled → list Filled) (version : ProtocolVersion) (r : R) : NixReader (BytesReader R) :=
  mk_nr (reader_build DEFAULT_RESERVED_BUF_SIZE DEFAULT_MAX_BUF_SIZE keep r)
    DEFAULT_RESERVED_BUF_SIZE DEFAULT_MAX_BUF_SIZE version (str "/nix/store").

(** A string of at most so many bytes, with its length, fits the buffer of such
    a reader whatever the buffer has at the time. *)
Definition INNER_LIMIT : nat := Z.to_nat 2093048.

Lemma INNER_LIMIT_fits : 4 * (INNER_LIMIT + 8) + 2 * DEFAULT_RESERVED_BUF_SIZE ≤ DEFAULT_MAX_BUF_SIZE.
Proof. unfold INNER_LIMIT, DEFAULT_RESERVED_BUF_SIZE, DEFAULT_MAX_BUF_SIZE. lia. Qed.

(** The laws of the reader of frames that are followed by [tl]. *)
Abbreviation nested_base tl := (@BytesReader_base _ _ (FramedReader_laws tl)).
Abbreviation nested_room tl := (with_room (nested_base tl) (INNER_LIMIT + 8)).

(** A new reader, however long the stream in the frames is. *)
Lemma nr_build_at {R} {HR : AsyncBytesRead R} {HL : AsyncBytesReadBase R} keep version (r : R) fs tl :
  (∀ l, keep l ⊆ l) → rd_inv r → frames_ok fs → rest r = frames fs ++ tl →
  let x := nr_build_buffered keep version (framed_new r) in
  rd_inv (AsyncBytesReadBase := nested_room tl) (nr_inner x) ∧
  rest (AsyncBytesReadBase := nested_room tl) (nr_inner x) = concat fs.
Proof.
  intros Hk Hi Hfs Hr x. pose proof (framed_new_at r fs tl Hi Hfs Hr) as Hat. pose proof INNER_LIMIT_fits as Hl.
  destruct (reader_build_base (AL := FramedReader_laws tl) DEFAULT_RESERVED_BUF_SIZE DEFAULT_MAX_BUF_SIZE keep (framed_new r))
    as (Hx & Hrest & _); [by exists (concat fs)|unfold DEFAULT_RESERVED_BUF_SIZE; lia|lia|done|].
  split; [split; [exact Hx|exact Hl]|]. etrans; [exact Hrest|exact (framed_rest_at _ _ _ Hat)].
Qed.

(** ** Writing *)

Section writer.
Context {HM : BytesMutReserve} {HML : BytesMutLaws}.

#[export] Instance FramedWriter_async_write {W} {AW : AsyncWrite W} : AsyncWrite (FramedWriter W) := fw_poll_write.
#[export] Instance FramedWriter_async_flush {W} {AW : AsyncWrite W} {AF : AsyncFlush W} : AsyncFlush (FramedWriter W) := {|
  aw_poll_flush := fw_poll_flush;
  aw_poll_shutdown := fw_poll_shutdown
|}.

(** A writer with a record of what it has accepted, which it does not look
    at. *)
Record Logged (W : Type) : Type := mk_logged { lg_writer : W; lg_log : bytes }.

Arguments mk_logged {W}.
Arguments lg_writer {W}.
Arguments lg_log {W}.

#[export] Instance Logged_async_write {W} {AW : AsyncWrite W} : AsyncWrite (Logged W) := λ x buf,
  let '(w, p) := aw_poll_write (lg_writer x) buf in
  (mk_logged w (match p with Ready (Ok n) => lg_log x ++ take n buf | _ => lg_log x end), p).

#[export] Instance Logged_async_flush {W} {AF : AsyncFlush W} : AsyncFlush (Logged W) := {|
  aw_poll_flush x := let '(w, p) := aw_poll_flush (lg_writer x) in (mk_logged w (lg_log x), p);
  aw_poll_shutdown x := let '(w, p) := aw_poll_shutdown (lg_writer x) in (mk_logged w (lg_log x), p)
|}.

Context {W : Type} {AW : AsyncWrite W} {AF : AsyncFlush W} {AWL : AsyncWriteLaws W} {AFL : AsyncFlushLaws W}.

(** The frames begin after [d0]. *)
Program Definition FramedWriter_laws (d0 : bytes) : AsyncWriteLaws (Logged (FramedWriter W)) := {|
  wr_inv x := fw_at d0 (lg_writer x) (lg_log x);
  wr_written := lg_log;
  wr_patience x := wr_patience (fw_out (lg_writer x))
|}.
Next Obligation.
  intros d0 x buf x' p Hx Hne E. cbn in E. unfold aw_poll_write, Logged_async_write in E.
  destruct (aw_poll_write (lg_writer x) buf) as [w q] eqn:Ew. injection E as <- <-.
  apply (fw_poll_write_spec d0 _ (lg_log x)) in Ew as [Hle Hq]; [|done|done].
  destruct q as [[n|e|]|]; try done; cbn; by destruct Hq.
Qed.

Lemma FramedWriter_flush_laws d0 : AsyncFlushLaws (AWL := FramedWriter_laws d0) (Logged (FramedWriter W)).
Proof using AFL HML.
  intros x x' p Hx E. cbn in E. destruct (fw_poll_flush (lg_writer x)) as [w q] eqn:Ew. injection E as <- <-.
  apply (fw_poll_flush_spec d0 _ (lg_log x)) in Ew as (Hat & Hle & Hq); [|done]. done.
Qed.
End writer.

Arguments mk_logged {W}.
Arguments lg_writer {W}.
Arguments lg_log {W}.
