(* ===== verification/MultiStore.v ===== *)
(** [AddMultipleToStore] on both sides of a connection: the server's handler
    ([harmonia-daemon/src/server/mod.rs]), the method of a store
    ([harmonia-protocol/src/types.rs]) and the client's method
    ([harmonia-store-remote/src/client.rs]). The stream of [AddMultiple] runs
    inside frames. *)

From stdpp Require Import base list numbers strings.
From Stdlib Require Import ZArith Lia Strings.Byte.
From S2P Require Import Prelude Async Wire Sink BufferMut BytesReader NarBytes ProtoRead Framed Version BaseEncoding Codecs Hash StorePath ContentAddress Signature DerivedPath NixIO Streams NixCodec WireTypes Messages Derivations Requests Logger DaemonErrors DaemonStore Server Client AddMultiple Nested.

#[local] Unset Program Cases.

(** ** The method of a store *)

(** What [add_multiple_to_store] does with its stream: log, ask for the next
    item (the reader of the one before is dropped), read from the reader of an
    item. The index says whether there is one. *)
Inductive multi_log (A : Type) : bool → Type :=
| MDone {held} (a : A) : multi_log A held
| MLog {held} (m : LogMessage) (k : multi_log A held) : multi_log A held
| MNext {held} (done : multi_log A false) (failed : DaemonError → multi_log A false)
    (item : ValidPathInfo → multi_log A true) : multi_log A held
| MRead (room : nat) (k : res io_error bytes → multi_log A true) : multi_log A true.
Arguments MDone {A held}.
Arguments MLog {A held}.
Arguments MNext {A held}.
Arguments MRead {A}.

(** The number of items is the [size_hint] of the stream. *)
Class MultiStore (St : Type) : Type :=
  store_multi : bool → bool → nat → St → multi_log (St * res DaemonError unit) false.

(** The method of the trait for stores that do not have it. *)
Definition default_multi {St} : MultiStore St := λ _ _ _ st,
  MDone (st, Err (unimplemented OpAddMultipleToStore)).

(** ** The server *)

Section server.
Context {DE : DataEncoding} {DL : DataEncodingLaws}.
Context {SZ_Bytes : SizeOf Bytes} {SZ_Field : SizeOf Field} {SZ_TraceLine : SizeOf TraceLine}.
Context {R : Type} {HR : AsyncBytesRead R} {HL : AsyncBytesReadBase R}.
Context {WS St : Type} {HW : NixWrite WS} {HA : AsyncWriter WS} {HM : MultiStore St}.

Abbreviation framed_reader := (FramedReadState * R)%type.
Abbreviation nested_reader := (NixReader (BytesReader framed_reader)).
Abbreviation nested_laws := (@BytesReader_base _ _ (FramedReader_laws [])).
Abbreviation lent_laws r := (@NixReader_bytes_laws _ _ nested_laws r).

(** The stream between two steps of the method: its source, or the item whose
    reader the method holds. *)
Definition stream_state (held : bool) : Type :=
  if held then Compat (R := nested_reader) else Lending nested_reader.

Definition give_back {held} : stream_state held → Lending nested_reader :=
  match held with
  | true => λ c, Lent (return_reader (cp_reader c))
  | false => λ source, source
  end.

(** The method, its messages written as they come; [count] items are left. *)
Fixpoint multi_loop {A held} (p : multi_log A held) :
    nat → stream_state held → WS → (Lending nested_reader * WS) * res RecoverableError A :=
  match p in multi_log _ held
    return nat → stream_state held → WS → (Lending nested_reader * WS) * res RecoverableError A with
  | MDone a => λ _ x w, ((give_back x, w), Ok a)
  | MLog m k => λ count x w,
      match write_log m w with
      | (w, Ok _) => multi_loop k count x w
      | (w, Err e) => ((give_back x, w), Err e)
      | (w, Panic) => ((give_back x, w), Panic)
      end
  | MNext done failed item => λ count x w,
      match count with
      | O => multi_loop done 0 (give_back x) w
      | S count =>
          match next_info (HL := nested_laws) (give_back x) with
          | (source, Ok info) => multi_loop (item info) count (lend_archive source) w
          | (source, Err e) => multi_loop (failed e) 0 source w
          | (source, Panic) => ((source, w), Panic)
          end
      end
  | MRead room k => λ count c w,
      match cp_read (HL := lent_laws (nb_reader (return_reader (cp_reader c)))) room c with
      | (c, Panic) => ((give_back (held := true) c, w), Panic)
      | (c, r) => multi_loop (k r) count c w
      end
  end.

(** [keep] as in [BytesReader]. *)
Context (keep : list Filled → list Filled).

(** The reader of the frames, out of the reader of the stream. *)
Definition frames_of (source : Lending nested_reader) : framed_reader := br_src (nr_inner (source_of source)).

Definition serve_add_multiple (req : AddMultipleToStoreRequest)
    : eff RecoverableError (DaemonConnection (NixReader R) WS St) unit := λ s,
  let x := conn_reader s in
  let source := nr_build_buffered keep (nr_version x) (framed_new (nr_inner x)) in
  match parse_add_multiple_to_store (HL := nested_laws) source with
  | (source, Ok stream) =>
      let '((source, w), res) :=
        multi_loop (store_multi (am_repair req) (am_dont_check_sigs req) (ms_count stream) (conn_store s))
          (ms_count stream) (ms_source stream) (conn_writer s) in
      let '((w, st), res) :=
        match res with
        | Ok (st, Ok _) => let '(w, r) := fatal_io (write_value RLast) w in ((w, st), r)
        | Ok (st, Err e) => ((w, st), Err (recover e))
        | Ok (st, Panic) => ((w, st), Panic)
        | Err e => ((w, conn_store s), Err e)
        | Panic => ((w, conn_store s), Panic)
        end in
      let '(framed, drained) :=
        framed_drain (9 + length (rest (frames_of source).2) + patience (frames_of source).2) (frames_of source) 0 in
      let s := set_store st (set_writer w (set_reader (nr_set x framed.2) s)) in
      match res, drained with
      | Panic, _ | _, Panic => (s, Panic)
      | Err e, _ => (s, Err e)
      | Ok _, Ok _ => (s, Ok tt)
      | Ok _, Err e => (s, Err (fatal (from_io e)))
      end
  | (source, Err e) => (set_reader (nr_set x (br_src (nr_inner source)).2) s, Err (fatal e))
  | (source, Panic) => (set_reader (nr_set x (br_src (nr_inner source)).2) s, Panic)
  end.
End server.

(** ** The client *)

Section client.
Context {DE : DataEncoding} {DL : DataEncodingLaws} {HM : BytesMutReserve} {HML : BytesMutLaws} {HMG : BytesMutGrows}.
Context {SZ_Bytes : SizeOf Bytes} {SZ_Field : SizeOf Field} {SZ_TraceLine : SizeOf TraceLine}.
Context {RS : Type} {HR : NixRead RS}.
Context {W : Type} {AW : AsyncWrite W} {AF : AsyncFlush W} {AWL : AsyncWriteLaws W}.

Definition b_set_version (b : NixWriterBuilder) (version : ProtocolVersion) : NixWriterBuilder :=
  mk_nwb (b_buf b) (b_reserved_buf_size b) (b_display_buf_size b) (b_initial_buf_size b) version (b_store_dir b).

Abbreviation framed_writer := (Logged (FramedWriter (NixWriter W))).

(** The driver: a writer over frames over the writer of the connection. *)
Definition multi_driver (hint : option nat) (stream : list (res DaemonError (AddToStoreItem (list (res io_error bytes)))))
    : eff DaemonError (NixWriter W) unit := λ w,
  let X := NixWriter_async_write_laws w in
  let Y : AsyncWriteLaws framed_writer := FramedWriter_laws (wr_written (AsyncWriteLaws := X) w) in
  let connection (y : NixWriter framed_writer) := fw_out (lg_writer (nw_inner y)) in
  let writer := nw_build (b_set_version NixWriterBuilder_default (w_version w)) (mk_logged (fw_new w) []) in
  match (_ ← write_add_multiple_to_store_stream (WS := NixWriter framed_writer) hint stream;
         io_try (nw_await (W := framed_writer) nw_poll_shutdown) : eff DaemonError (NixWriter framed_writer) unit) writer with
  | (y, Ok _) => io_try (nw_flush (W := W)) (connection y)
  | (y, Err e) => (connection y, Err e)
  | (y, Panic) => (connection y, Panic)
  end.

(** [drive_result] as in [framed_request]. *)
Definition client_add_multiple_to_store (repair dont_check_sigs : bool) (hint : option nat)
    (stream : list (res DaemonError (AddToStoreItem (list (res io_error bytes)))))
    : client_method (RS := RS) (WS := NixWriter W) unit := λ fuel c,
  match (_ ← io_try (_ ← write_value OpAddMultipleToStore; _ ← write_value repair; write_value dont_check_sigs);
         multi_driver hint stream) (cl_writer c) with
  | (w, Ok _) =>
      let '(r, (logs, result)) := process_stderr unit fuel (cl_reader c) in
      (cl_set c r w, (logs, res_map_err (fill_operation OpAddMultipleToStore) result))
  | (w, Err err) => (cl_set c (cl_reader c) w, ([], Err (fill_operation OpAddMultipleToStore err)))
  | (w, Panic) => (cl_set c (cl_reader c) w, ([], Panic))
  end.
End client.
