(* ===== verification/RemoteMultiple.v ===== *)
(** Several paths through a connection: what the client's
    [add_multiple_to_store] sends is what the method of the store behind the
    server gets, path by path, and its log and result come back. *)

From stdpp Require Import base list numbers strings.
From Stdlib Require Import ZArith Lia Strings.Byte.
From S2P Require Import Prelude Async Wire Sink NarReader NarTree NarWriter BufferMut BytesReader NarBytes Nar ProtoRead Framed Version BaseEncoding Codecs Hash StorePath ContentAddress Signature DerivedPath NixIO Streams NixCodec WireTypes Messages Derivations Requests Logger DaemonErrors DaemonStore Server ServerSpec Samples Client ClientSpec AddMultiple Transfers Nested MultiStore.

#[local] Unset Program Cases.


(** ** The client *)

Section client.
Context {DE : DataEncoding} {DL : DataEncodingLaws} {HM : BytesMutReserve} {HML : BytesMutLaws} {HMG : BytesMutGrows}.
Context {W : Type} {AW : AsyncWrite W} {AF : AsyncFlush W} {AWL : AsyncWriteLaws W} {AFL : AsyncFlushLaws W}.

Section nested.
Context (x0 : NixWriter W) (d0 : bytes).
#[local] Instance X : AsyncWriteLaws (NixWriter W) := NixWriter_async_write_laws x0.
#[local] Instance XF : AsyncFlushLaws (NixWriter W) := NixWriter_async_flush_laws x0.
#[local] Instance Y : AsyncWriteLaws (Logged (FramedWriter (NixWriter W))) := FramedWriter_laws d0.
Implicit Types y : NixWriter (Logged (FramedWriter (NixWriter W))).

Abbreviation frames_in y := (lg_writer (nw_inner y)).
Abbreviation left_in y := (wr_patience (fw_out (frames_in y))).




End nested.

End client.

(** ** The server *)



Section server.
Context {DE : DataEncoding} {DL : DataEncodingLaws} {DG : DigestLib} {SA : StructuredAttrsLib} {ET : ErrorText}.
Context {SZ_Bytes : SizeOf Bytes} {SZ_DerivedPath : SizeOf DerivedPath} {SZ_Signature : SizeOf Signature}.
Context {SZ_Field : SizeOf Field} {SZ_TraceLine : SizeOf TraceLine} {SZ_KeyedBuildResult : SizeOf KeyedBuildResult}.
Context {R : Type} {HR : AsyncBytesRead R} {HL : AsyncBytesReadBase R} {SL : StringLimit R}.
Context {WS : Type} {HW : NixWrite WS} {HWL : NixWriteLaws WS} {HA : AsyncWriter WS} {HAL : AsyncWriterLaws WS}.
Context {St : Type} {HS : DaemonStore St} {HMS : MultiStore St}.
Context (keep : list Filled → list Filled) (Hkeep : ∀ l, keep l ⊆ l).
Context (E : env) (HE : (20 ≤ minor (e_version E))%Z).


Section stream.
(** The frames are followed by [tl]. *)
Context (tl : bytes).




End stream.


End server.

(** ** The two together *)

Section both.
Context {DE : DataEncoding} {DL : DataEncodingLaws} {DG : DigestLib} {SA : StructuredAttrsLib} {ET : ErrorText}.
Context {SZ_Bytes : SizeOf Bytes} {SZ_DerivedPath : SizeOf DerivedPath} {SZ_Signature : SizeOf Signature}.
Context {SZ_Field : SizeOf Field} {SZ_TraceLine : SizeOf TraceLine} {SZ_KeyedBuildResult : SizeOf KeyedBuildResult}.
Context {HM : BytesMutReserve} {HML : BytesMutLaws} {HMG : BytesMutGrows}.
Context {W : Type} {AW : AsyncWrite W} {AF : AsyncFlush W} {AWL : AsyncWriteLaws W} {AFL : AsyncFlushLaws W}.
Context {RS : Type} {HR : NixRead RS} {HRL : NixReadLaws RS}.




End both.

(** ** A concrete use *)









