(* ===== verification/StderrRead.v ===== *)
(** The reader behind [STDERR_READ]
    ([harmonia-protocol/src/daemon_wire/stderr_read.rs]): it asks the other
    side for data through a channel, one request at a time, and reads the
    replies, which are byte strings, as one stream. *)

From stdpp Require Import base list numbers strings.
From Stdlib Require Import ZArith Lia Strings.Byte.
From S2P Require Import Prelude Async Wire BufferMut BytesReader ProtoRead Framed.

Inductive State : Type :=
| Sending (value : nat)
| Reading (read : TryReadBytesLimited)
| Buffer (b : bytes).

(** [PollSender] on a channel with room for one item: what was sent, how many
    items wait, and what the receiver does before the next attempts to reserve:
    take some, or go away. When nothing is said it takes everything. *)
Record Sender : Type := mk_sender {
  s_sent : list nat;
  s_waiting : nat;
  s_receiver : list (option nat)
}.

Record StderrReader (R : Type) : Type := mk_stderr {
  sr_inner : R;
  sr_sender : Sender;
  sr_state : State
}.
Arguments mk_stderr {R}.
Arguments sr_inner {R}.
Arguments sr_sender {R}.
Arguments sr_state {R}.

Definition sender_poll_reserve (s : Sender) : Sender * polled unit :=
  match s_receiver s with
  | [] => (mk_sender (s_sent s) 0 [], Ready (Ok tt))
  | None :: _ => (s, Ready (Err (BrokenPipe "channel closed")))
  | Some n :: rs =>
      let s := mk_sender (s_sent s) (s_waiting s - n) rs in
      (s, if decide (s_waiting s < 1) then Ready (Ok tt) else Pending)
  end.

Definition sender_send_item (s : Sender) (value : nat) : Sender :=
  mk_sender (s_sent s ++ [value]) (S (s_waiting s)) (s_receiver s).

Section reader.
Context {R : Type} {HR : AsyncBytesRead R}.

Definition StderrReader_new (receiver : list (option nat)) (reader : R) : StderrReader R :=
  mk_stderr reader (mk_sender [] 0 receiver) (Buffer []).

(** The loop of [poll_fill_buf]: an empty buffer, a request, a reply and the
    buffer again are the four turns it can take. *)
Fixpoint stderr_fill_loop (fuel : nat) (me : StderrReader R) : StderrReader R * polled bytes :=
  match fuel with
  | O => (me, Pending)
  | S fuel =>
      match sr_state me with
      | Sending value =>
          match sender_poll_reserve (sr_sender me) with
          | (s, Ready (Ok _)) =>
              stderr_fill_loop fuel
                (mk_stderr (sr_inner me) (sender_send_item s value) (Reading (ReadLen 1 (Z.of_nat value) u64_new)))
          | (s, Ready (Err e)) => (mk_stderr (sr_inner me) s (Sending value), Ready (Err e))
          | (s, Ready Panic) => (mk_stderr (sr_inner me) s (Sending value), Ready Panic)
          | (s, Pending) => (mk_stderr (sr_inner me) s (Sending value), Pending)
          end
      | Reading read =>
          match bytes_poll_reader (read, sr_inner me) with
          | ((read, r), Ready (Ok (Some buf))) => stderr_fill_loop fuel (mk_stderr r (sr_sender me) (Buffer buf))
          | ((read, r), Ready (Ok None)) =>
              (mk_stderr r (sr_sender me) (Reading read), Ready (Err (UnexpectedEof "got EOF reading with STDERR_READ")))
          | ((read, r), Ready (Err e)) => (mk_stderr r (sr_sender me) (Reading read), Ready (Err e))
          | ((read, r), Ready Panic) => (mk_stderr r (sr_sender me) (Reading read), Ready Panic)
          | ((read, r), Pending) => (mk_stderr r (sr_sender me) (Reading read), Pending)
          end
      | Buffer [] => stderr_fill_loop fuel (mk_stderr (sr_inner me) (sr_sender me) (Sending DEFAULT_BUF_SIZE))
      | Buffer b => (me, Ready (Ok b))
      end
  end.

Definition stderr_poll_fill_buf (me : StderrReader R) : StderrReader R * polled bytes := stderr_fill_loop 4 me.

Definition stderr_consume (me : StderrReader R) (amt : nat) : res io_error (StderrReader R) :=
  match sr_state me with
  | Buffer b =>
      if decide (amt ≤ length b) then Ok (mk_stderr (sr_inner me) (sr_sender me) (Buffer (drop amt b))) else Panic
  | _ => Panic
  end.

(** [AsyncRead::poll_read], with room for some bytes. *)
Definition stderr_poll_read (me : StderrReader R) (room : nat) : StderrReader R * polled bytes :=
  match stderr_poll_fill_buf me with
  | (me, Ready (Ok rem)) =>
      if decide (rem = []) then (me, Ready (Ok [])) else
      let amt := Nat.min (length rem) room in
      match stderr_consume me amt with
      | Ok me => (me, Ready (Ok (take amt rem)))
      | Err e => (me, Ready (Err e))
      | Panic => (me, Ready Panic)
      end
  | r => r
  end.

(** Reading a number of bytes, poll by poll, as [read_exact] does. *)
Fixpoint stderr_read_exact (fuel n : nat) (me : StderrReader R) : StderrReader R * polled bytes :=
  match n with
  | O => (me, Ready (Ok []))
  | S _ =>
      match fuel with
      | O => (me, Pending)
      | S fuel =>
          match stderr_poll_read me n with
          | (me, Pending) => stderr_read_exact fuel n me
          | (me, Ready (Ok [])) => (me, Ready (Err (UnexpectedEof "early eof")))
          | (me, Ready (Ok b)) =>
              match stderr_read_exact fuel (n - length b) me with
              | (me, Ready (Ok b')) => (me, Ready (Ok (b ++ b')))
              | r => r
              end
          | r => r
          end
      end
  end.
End reader.

(** ** What it reads *)

Section laws.
Context {R : Type} {HR : AsyncBytesRead R} {HL : AsyncBytesReadLaws R}.

Definition wire (chunks : list bytes) : bytes := concat (put_nix_slice <$> chunks).

(** A reply answers a request: it is not empty and not longer than asked. *)
Definition reply_ok (c : bytes) : Prop := 0 < length c ≤ DEFAULT_BUF_SIZE.

(** The bytes [b] are at hand, the replies [cs] to come, and [k] replies were
    taken: a request is sent for each, of the size of the buffer. *)
Definition stderr_at (me : StderrReader R) (b : bytes) (cs : list bytes) (tl : bytes) (k : nat) : Prop :=
  rd_inv (sr_inner me) ∧ Forall (λ o, o ≠ None) (s_receiver (sr_sender me)) ∧
  match sr_state me with
  | Buffer b' => b' = b ∧ rest (sr_inner me) = wire cs ++ tl ∧ s_sent (sr_sender me) = replicate k DEFAULT_BUF_SIZE
  | Sending v => b = [] ∧ v = DEFAULT_BUF_SIZE ∧ rest (sr_inner me) = wire cs ++ tl ∧
      s_sent (sr_sender me) = replicate k DEFAULT_BUF_SIZE
  | Reading read => b = [] ∧ s_sent (sr_sender me) = replicate (S k) DEFAULT_BUF_SIZE ∧
      ∃ c cs', cs = c :: cs' ∧
        bytes_at 1 (Z.of_nat DEFAULT_BUF_SIZE) read (sr_inner me) (put_nix_slice c ++ wire cs' ++ tl)
  end.

Definition stderr_patience (me : StderrReader R) : nat :=
  patience (sr_inner me) + length (s_receiver (sr_sender me)).

Definition fill_post (me0 me : StderrReader R) (b : bytes) (cs : list bytes) (tl : bytes) (k : nat) (p : polled bytes) : Prop :=
  match p with
  | Pending => stderr_at me b cs tl k ∧ stderr_patience me < stderr_patience me0
  | Ready (Ok buf) => buf ≠ [] ∧ stderr_patience me ≤ stderr_patience me0 ∧ sr_state me = Buffer buf ∧
      ((b = buf ∧ stderr_at me buf cs tl k) ∨ (b = [] ∧ ∃ cs', cs = buf :: cs' ∧ stderr_at me buf cs' tl (S k)))
  | _ => False
  end.

Lemma fill_post_from me1 me0 me b cs tl k p :
  stderr_patience me1 ≤ stderr_patience me0 → fill_post me1 me b cs tl k p → fill_post me0 me b cs tl k p.
Proof using Type.
  intros H. unfold fill_post. destruct p as [[buf|e|]|]; [|done|done|].
  - intros (? & ? & ? & ?). split; [done|]. split; [lia|done].
  - intros [? ?]. split; [done|lia].
Qed.

Lemma buffer_turn fuel (me : StderrReader R) buf :
  buf ≠ [] → sr_state me = Buffer buf → stderr_fill_loop (S fuel) me = (me, Ready (Ok buf)).
Proof using Type. intros Hne Hs. cbn. rewrite Hs. by destruct buf. Qed.

Lemma reply_wire c tl : reply_ok c →
  take_bytes 1 (Z.of_nat DEFAULT_BUF_SIZE) (put_nix_slice c ++ tl) = Ok (Some c, tl).
Proof using Type.
  intros [H1 H2]. assert (Z.of_nat DEFAULT_BUF_SIZE = 32768%Z) as E by reflexivity.
  apply take_bytes_encoded; [unfold alignable, u64_max|]; lia.
Qed.

Lemma reading_turn fuel me cs tl k me' p :
  Forall reply_ok cs → stderr_at me [] cs tl k → (∃ read, sr_state me = Reading read) →
  stderr_fill_loop (S (S fuel)) me = (me', p) → fill_post me me' [] cs tl k p.
Proof.
  intros Hcs (Hi & Hrx & Hst) [read Es] E. rewrite Es in Hst. destruct Hst as (_ & Hsent & c & cs' & -> & Hat).
  apply Forall_cons in Hcs as [Hc _]. remember (S fuel) as f1 eqn:Ef. cbn [stderr_fill_loop] in E. rewrite Es in E. subst f1.
  destruct (bytes_poll_reader (read, sr_inner me)) as [[read1 r1] q] eqn:Eq.
  pose proof (reply_wire c (wire cs' ++ tl) Hc) as Hw.
  apply (bytes_poll_reader_spec _ _ _ _ _ _ _ Hi Hat) in Eq as [Hi1 Hq];
    [|apply (complete_fits _ _ read); [done|done|by rewrite Hw]]. cbn [fst snd] in *.
  destruct q as [[o|e|]|]; [|congruence|done|].
  - destruct Hq as [Ho Hp]. rewrite Hw in Ho. injection Ho as <- Hr.
    assert (c ≠ []) as Hne by (destruct c; [destruct Hc; cbn in *; lia|done]).
    rewrite (buffer_turn fuel _ c Hne) in E by done. injection E as <- <-. split; [done|].
    split; [unfold stderr_patience; cbn; lia|]. split; [done|]. right. split; [done|]. exists cs'.
    split; [done|]. split; [done|]. split; [done|]. cbn. done.
  - injection E as <- <-. destruct Hq as [Hat1 Hp]. split.
    + split; [done|]. split; [done|]. cbn. split; [done|]. split; [done|]. by exists c, cs'.
    + unfold stderr_patience. cbn. lia.
Qed.

Lemma sending_turn fuel me c cs tl k me' p :
  Forall reply_ok (c :: cs) → stderr_at me [] (c :: cs) tl k → (∃ v, sr_state me = Sending v) →
  stderr_fill_loop (S (S (S fuel))) me = (me', p) → fill_post me me' [] (c :: cs) tl k p.
Proof.
  intros Hcs (Hi & Hrx & Hst) [v Es] E. rewrite Es in Hst. destruct Hst as (_ & -> & Hr & Hsent).
  remember (S (S fuel)) as f2 eqn:Ef. cbn [stderr_fill_loop] in E. rewrite Es in E.
  destruct (sender_poll_reserve (sr_sender me)) as [s q] eqn:Eq.
  assert (s_sent s = s_sent (sr_sender me) ∧ Forall (λ o, o ≠ None) (s_receiver s) ∧
    length (s_receiver s) ≤ length (s_receiver (sr_sender me)) ∧
    match q with Pending => length (s_receiver s) < length (s_receiver (sr_sender me)) | Ready (Ok _) => True | _ => False end)
    as (Hs & Hrx1 & Hl & Hq).
  { unfold sender_poll_reserve in Eq. destruct Hrx as [|[n|] rs Hn Hrs]; [| |done].
    - injection Eq as <- <-. cbn. auto.
    - injection Eq as <- <-. cbn. case_decide; auto with lia. }
  destruct q as [[u|e|]|]; [|done|done|].
  - subst f2. eapply (reading_turn fuel) in E; [|done| |by eexists].
    + eapply fill_post_from; [|exact E]. unfold stderr_patience. cbn. lia.
    + split; [done|]. split; [done|]. cbn. split; [done|]. rewrite Hs, Hsent, <-replicate_S_end. split; [done|].
      exists c, cs. split; [done|]. split; [done|]. split; [done|]. exists []. split; [apply u64_new_at|].
      cbn [app]. rewrite Hr. unfold wire. cbn. by rewrite <-app_assoc.
  - injection E as <- <-. split; [|unfold stderr_patience; cbn; lia]. split; [done|]. split; [done|]. cbn.
    rewrite Hs. done.
Qed.

Lemma stderr_fill_spec me b cs tl k me' p :
  Forall reply_ok cs → stderr_at me b cs tl k → b ≠ [] ∨ cs ≠ [] →
  stderr_poll_fill_buf me = (me', p) → fill_post me me' b cs tl k p.
Proof.
  intros Hcs Hat Hne E. unfold stderr_poll_fill_buf in E. destruct (sr_state me) as [v|read|b1] eqn:Es.
  - assert (b = []) as -> by (destruct Hat as (_ & _ & Hs); rewrite Es in Hs; apply Hs).
    destruct cs as [|c cs]; [naive_solver|]. eapply sending_turn; eauto.
  - assert (b = []) as -> by (destruct Hat as (_ & _ & Hs); rewrite Es in Hs; apply Hs). eapply reading_turn; eauto.
  - pose proof Hat as (Hi & Hrx & Hs). rewrite Es in Hs. destruct Hs as (-> & Hr & Hsent).
    destruct b as [|y b]; [|rewrite (buffer_turn _ _ (y :: b)) in E by done; injection E as <- <-].
    + destruct cs as [|c cs]; [naive_solver|]. remember 3 as f3 eqn:Ef. cbn [stderr_fill_loop] in E. rewrite Es in E. subst f3.
      eapply (sending_turn 0 _ c cs tl k) in E; [|done| |by eexists].
      * by eapply fill_post_from; [|exact E].
      * split; [done|]. split; [done|]. cbn. done.
    + split; [done|]. split; [lia|]. split; [done|]. left. done.
Qed.

(** How many of the replies are needed for [n] bytes. *)
Fixpoint replies_for (n : nat) (cs : list bytes) : nat :=
  match n, cs with
  | S _, c :: cs => S (replies_for (n - length c) cs)
  | _, _ => 0
  end.

Lemma replies_for_0 cs : replies_for 0 cs = 0.
Proof using Type. by destruct cs. Qed.

(** One poll that reads: a part of what comes next, and never more than asked. *)
Lemma stderr_poll_read_spec me b cs tl k n me' p :
  Forall reply_ok cs → stderr_at me b cs tl k → 0 < n ≤ length (b ++ concat cs) →
  stderr_poll_read me n = (me', p) →
  match p with
  | Pending => stderr_at me' b cs tl k ∧ stderr_patience me' < stderr_patience me
  | Ready (Ok x) => ∃ b' cs' j, x ≠ [] ∧ length x ≤ n ∧ b ++ concat cs = x ++ b' ++ concat cs' ∧
      stderr_at me' b' cs' tl (k + j) ∧ Forall reply_ok cs' ∧ stderr_patience me' ≤ stderr_patience me ∧
      sr_state me' = Buffer b' ∧ cs' = drop j cs ∧
      replies_for (n - length b) cs = j + replies_for (n - length x - length b') cs'
  | _ => False
  end.
Proof.
  intros Hcs Hat Hn E. unfold stderr_poll_read in E. destruct (stderr_poll_fill_buf me) as [me1 q] eqn:Eq.
  apply (stderr_fill_spec _ _ _ _ _ _ _ Hcs Hat) in Eq.
  2: { destruct b; [right; intros ->; cbn in *; lia|by left]. }
  destruct q as [[buf|e|]|]; [|done|done|by injection E as <- <-]. destruct Eq as (Hne & Hp & Hs & Hor).
  rewrite decide_False in E by done. unfold stderr_consume in E. rewrite Hs, decide_True in E by lia.
  injection E as <- <-. set (amt := Nat.min (length buf) n).
  assert (0 < length buf) as Hbuf by (destruct buf; [done|cbn; lia]).
  assert (length (take amt buf) = amt) as Hlx by (rewrite length_take; lia).
  assert (∃ cs' j, Forall reply_ok cs' ∧ b ++ concat cs = buf ++ concat cs' ∧ stderr_at me1 buf cs' tl (k + j) ∧
    cs' = drop j cs ∧ replies_for (n - length b) cs = j + replies_for (n - length buf) cs') as (cs' & j & Hcs' & Hcat & Hat' & Hj & Hk).
  { destruct Hor as [[-> Hat']|(-> & cs' & -> & Hat')]; [exists cs, 0; by rewrite Nat.add_0_r|].
    apply Forall_cons in Hcs as [_ Hcs']. exists cs', 1. rewrite Nat.add_1_r. split; [done|]. split; [done|]. split; [done|].
    split; [done|]. cbn [length]. rewrite Nat.sub_0_r. by destruct n; [lia|]. }
  exists (drop amt buf), cs', j. split; [intros E; rewrite E in Hlx; cbn in Hlx; lia|]. split; [lia|].
  split; [by rewrite app_assoc, take_drop|]. split; [|split; [done|split; [exact Hp|split; [done|split; [done|]]]]].
  - destruct Hat' as (Hi & Hrx & Hst). rewrite Hs in Hst. destruct Hst as (_ & Hr & Hsent). by repeat split.
  - rewrite Hk, Hlx, length_drop. f_equal. f_equal. lia.
Qed.

Lemma stderr_read_exact_spec n fuel me b cs tl k :
  Forall reply_ok cs → stderr_at me b cs tl k → (n = 0 → sr_state me = Buffer b) →
  n ≤ length (b ++ concat cs) → n + stderr_patience me ≤ fuel →
  let j := replies_for (n - length b) cs in
  ∃ me' b', stderr_read_exact fuel n me = (me', Ready (Ok (take n (b ++ concat cs)))) ∧
    sr_state me' = Buffer b' ∧ stderr_at me' b' (drop j cs) tl (k + j).
Proof.
  revert n me b cs k. induction fuel as [|fuel IH]; intros [|n] me b cs k Hcs Hat H0 Hn Hf.
  1, 3: exists me, b; rewrite Nat.sub_0_l, replies_for_0, Nat.add_0_r; auto.
  { lia. }
  cbn [stderr_read_exact]. destruct (stderr_poll_read me (S n)) as [me1 q] eqn:Eq.
  apply (stderr_poll_read_spec _ _ _ _ _ _ _ _ Hcs Hat) in Eq; [|lia]. destruct q as [[x|e|]|]; [|done|done|].
  - destruct Eq as (b' & cs' & j & Hne & Hl & Hcat & Hat' & Hcs' & Hp & Hs & Hj & Hk).
    assert (0 < length x) by (destruct x; [done|cbn; lia]). rewrite Hcat, length_app in Hn.
    destruct (IH (S n - length x) me1 b' cs' (k + j) Hcs' Hat') as (me2 & b2 & E2 & Hs2 & Hat2); [done|lia|lia|].
    destruct x as [|y x]; [done|]. rewrite E2. exists me2, b2. rewrite Hcat. split.
    { do 3 f_equal. rewrite (take_app (y :: x)). by rewrite (take_ge (y :: x)) by lia. }
    split; [done|]. rewrite Hk, <-drop_drop, <-Hj, Nat.add_assoc. done.
  - destruct Eq as [Hat1 Hp]. by apply IH; [..|lia].
Qed.
End laws.

Lemma stderr_from_replies (R : Type) (HR : AsyncBytesRead R) (HL : AsyncBytesReadLaws R)
    (r : R) (receiver : list (option nat)) (cs : list bytes) (tl : bytes) (n : nat) :
  rd_inv r → rest r = wire cs ++ tl → Forall reply_ok cs → Forall (λ o, o ≠ None) receiver →
  n ≤ length (concat cs) →
  ∃ me, stderr_read_exact (n + patience r + length receiver) n (StderrReader_new receiver r) =
      (me, Ready (Ok (take n (concat cs)))) ∧
    s_sent (sr_sender me) = replicate (replies_for n cs) DEFAULT_BUF_SIZE ∧
    rest (sr_inner me) = wire (drop (replies_for n cs) cs) ++ tl.
Proof.
  intros Hi Hr Hcs Hrx Hn.
  destruct (stderr_read_exact_spec n (n + patience r + length receiver) (StderrReader_new receiver r) [] cs tl 0)
    as (me & b' & E & Hs & (_ & _ & Hst)); [done|by repeat split|done|done|unfold stderr_patience; cbn; lia|].
  rewrite Hs, Nat.sub_0_r in Hst. destruct Hst as (_ & Hr' & Hsent). by exists me.
Qed.

(** C29. The reader of [STDERR_READ] is the stream of the replies: reading any
    number of bytes that the replies hold gives the first of them in order,
    however the replies are cut and whatever the schedules of the connection
    and of the receiver of requests are; it has asked exactly once for every
    reply it needed, each time for the size of a buffer, and what follows the
    replies stays unread. *)
Theorem stderr_read_stream (R : Type) (HR : AsyncBytesRead R) (HL : AsyncBytesReadLaws R)
    (r : R) (receiver : list (option nat)) (cs : list bytes) (tl : bytes) (n : nat) :
  rd_inv r → rest r = wire cs ++ tl → Forall reply_ok cs → Forall (λ o, o ≠ None) receiver →
  n ≤ length (concat cs) →
  ∃ me, stderr_read_exact (n + patience r + length receiver) n (StderrReader_new receiver r) =
      (me, Ready (Ok (take n (concat cs)))) ∧
    s_sent (sr_sender me) = replicate (replies_for n cs) DEFAULT_BUF_SIZE ∧
    rest (sr_inner me) = wire (drop (replies_for n cs) cs) ++ tl.
Proof. intros Hi Hr Hcs Hrx Hn. by apply stderr_from_replies. Qed.

(** Two replies, cut inside the first one, and a receiver that comes late. *)
Definition sample_replies : list bytes := [str "harmonia "; str "store"].

Definition sample_reply_source : source :=
  let bs := wire sample_replies ++ str "tail" in [Some (take 11 bs); None; Some (drop 11 bs)].

Definition sample_reply_reader : BytesReader source := reader_build 8 1000 (λ _, []) sample_reply_source.

Lemma sample_reply_inv : rd_inv sample_reply_reader.
Proof.
  apply source_reader_inv. split; [unfold src_ok, sample_reply_source; repeat constructor; discriminate|].
  split; [lia|].
  split; [apply Nat.leb_le; vm_compute; reflexivity|]. intros l. apply list_subseteq_nil.
Qed.

Lemma stderr_read_stream_witness :
  ∃ me, stderr_read_exact (12 + patience sample_reply_reader + 1) 12 (StderrReader_new [Some 0] sample_reply_reader) =
      (me, Ready (Ok (str "harmonia sto"))) ∧
    s_sent (sr_sender me) = replicate 2 DEFAULT_BUF_SIZE ∧ rest (sr_inner me) = str "tail".
Proof.
  apply (stderr_read_stream (BytesReader source) _ _ sample_reply_reader [Some 0] sample_replies (str "tail") 12).
  - exact sample_reply_inv.
  - vm_compute. reflexivity.
  - constructor; [|constructor; [|constructor]]; split; apply Nat.leb_le; vm_compute; reflexivity.
  - repeat constructor. discriminate.
  - apply Nat.leb_le. vm_compute. reflexivity.
Defined.

(** An empty reply is not the end of the data: it is refused. *)
Example empty_reply_refused :
  (stderr_read_exact 5 1 (StderrReader_new [] (reader_build 8 1000 (λ _, []) [Some (put_nix_slice [])]))).2 =
  Ready (Err (InvalidData "bytes length out of range")).
Proof. vm_compute. reflexivity. Qed.
