(* ===== verification/StderrSource.v ===== *)
(** The client as the source of an upload in versions 1.21 and 1.22
    ([ProcessStderr::with_source] and [process_read] in
    [harmonia-protocol/src/daemon_wire/logger.rs], [add_to_store_nar] in
    [harmonia-store-remote/src/client.rs]): it answers each request for data
    with the next piece of its source. Together with [StderrRead] this is the
    transfer of a stream by requests and replies. *)

From stdpp Require Import base list numbers strings.
From Stdlib Require Import ZArith Lia Strings.Byte.
From S2P Require Import Prelude Async Wire Sink BufferMut BytesReader ProtoRead Framed Version BaseEncoding Codecs Hash StorePath ContentAddress Signature DerivedPath NixIO Streams NixCodec WireTypes Messages Derivations Requests Logger DaemonErrors DaemonStore Server ServerSpec Samples Client StderrRead.

#[local] Unset Program Cases.

Section source.
Context {DE : DataEncoding} {DL : DataEncodingLaws} {SZ_Bytes : SizeOf Bytes}.
Context {SZ_Field : SizeOf Field} {SZ_TraceLine : SizeOf TraceLine}.
Context {RS : Type} {HR : NixRead RS} {WS : Type} {HW : NixWrite WS} {HA : AsyncWriter WS}.

(** What a source gives, buffer by buffer; nothing more is the end. *)
Abbreviation upload := (list (res io_error bytes)).

Definition source_fill_buf (source : upload) : res io_error bytes :=
  match source with [] => Ok [] | x :: _ => x end.

Definition source_consume (len : nat) (source : upload) : upload :=
  match source with
  | Ok c :: source => match drop len c with [] => source | c' => Ok c' :: source end
  | _ => source
  end.

Definition process_read (len : nat) (st : WS * upload) : (WS * upload) * res DaemonError unit :=
  let '(w, source) := st in
  match source_fill_buf source with
  | Ok buf =>
      let len := Nat.min len (length buf) in
      match (io_try (_ ← write_slice (take len buf); flush) : eff DaemonError WS unit) w with
      | (w, Ok _) => ((w, source_consume len source), Ok tt)
      | (w, r) => ((w, source), r)
      end
  | Err e => (st, Err (from_io e))
  | Panic => (st, Panic)
  end.

(** The loop of [ProcessStderr::stream] with a source. *)
Fixpoint source_loop (fuel : nat) (r : RS) (st : WS * upload) : RS * (WS * upload) * ResultLog unit :=
  match fuel with
  | O => (r, st, ([], Panic))
  | S fuel =>
      let yield m (x : RS * (WS * upload) * ResultLog unit) := (x.1, (m :: x.2.1, x.2.2)) in
      match read_value RawLogMessage r with
      | (r, Ok (RNext text)) => yield (LMessage (mk_Message VError text)) (source_loop fuel r st)
      | (r, Ok (RResult result)) => yield (LResult result) (source_loop fuel r st)
      | (r, Ok (RStartActivity act)) => yield (LStartActivity act) (source_loop fuel r st)
      | (r, Ok (RStopActivity act)) => yield (LStopActivity act) (source_loop fuel r st)
      | (r, Ok (RRead len)) =>
          match process_read (Z.to_nat (uint_val len)) st with
          | (st, Ok _) => source_loop fuel r st
          | (st, Err err) => (r, st, ([], Err err))
          | (st, Panic) => (r, st, ([], Panic))
          end
      | (r, Ok (RWrite buf)) => source_loop fuel r st
      | (r, Ok RLast) => let '(r, value) := read_value unit r in (r, st, ([], res_map_err from_io value))
      | (r, Ok (RError err)) => (r, st, ([], Err (from_log_error err)))
      | (r, Err err) => (r, st, ([], Err (from_io err)))
      | (r, Panic) => (r, st, ([], Panic))
      end
  end.

(** What [add_to_store_nar] does below version 23, where
    [client_add_to_store_nar] has the argument [old_versions]; [older] stands
    for what is done below version 21. *)
Definition client_source_request (older : client_method (RS := RS) (WS := WS) unit) (info : ValidPathInfo)
    (repair dont_check_sigs : bool) (source : upload) : client_method unit := λ fuel c,
  if decide (21 ≤ minor (w_version (cl_writer c)))%Z then
    match (io_try (_ ← write_value OpAddToStoreNar; _ ← write_value info; _ ← write_value repair;
                   _ ← write_value dont_check_sigs; flush) : eff DaemonError WS unit) (cl_writer c) with
    | (w, Ok _) =>
        let '(r, (w, _), (logs, result)) := source_loop fuel (cl_reader c) (w, source) in
        (cl_set c r w, (logs, res_map_err (fill_operation OpAddToStoreNar) result))
    | (w, Err err) => (cl_set c (cl_reader c) w, ([], Err (fill_operation OpAddToStoreNar err)))
    | (w, Panic) => (cl_set c (cl_reader c) w, ([], Panic))
    end
  else older fuel c.
End source.

(** ** What is sent *)

(** The answers to requests, and what is unread of the source. *)
Fixpoint answers (lens : list nat) (chunks : list bytes) : list bytes * list bytes :=
  match lens with
  | [] => ([], chunks)
  | len :: lens =>
      let '(piece, chunks) :=
        match chunks with
        | [] => ([], [])
        | c :: chunks => (take len c, match drop len c with [] => chunks | c' => c' :: chunks end)
        end in
      let '(pieces, chunks) := answers lens chunks in (piece :: pieces, chunks)
  end.

Lemma answers_concat lens : ∀ chunks, concat (answers lens chunks).1 ++ concat (answers lens chunks).2 = concat chunks.
Proof.
  induction lens as [|len lens IH]; intros chunks; cbn [answers]; [done|].
  destruct chunks as [|c chunks].
  - specialize (IH []). by destruct (answers lens []).
  - set (unread := match drop len c with [] => chunks | c' => c' :: chunks end).
    assert (concat unread = drop len c ++ concat chunks) as Hl by (unfold unread; by destruct (drop len c)).
    specialize (IH unread). destruct (answers lens unread) as [pieces rest]. cbn [fst snd concat] in *.
    by rewrite <-app_assoc, IH, Hl, app_assoc, take_drop.
Qed.

Lemma answers_prefix lens chunks : concat (answers lens chunks).1 `prefix_of` concat chunks.
Proof. exists (concat (answers lens chunks).2). by rewrite answers_concat. Qed.

Lemma answers_bounded lens chunks : Forall2 (λ len p, length p ≤ len) lens (answers lens chunks).1.
Proof.
  revert chunks. induction lens as [|len lens IH]; intros chunks; cbn [answers]; [constructor|].
  destruct chunks as [|c chunks].
  - specialize (IH []). destruct (answers lens []). constructor; [cbn; lia|done].
  - specialize (IH (match drop len c with [] => chunks | c' => c' :: chunks end)). destruct (answers lens _).
    constructor; [rewrite length_take; lia|done].
Qed.

Section spec.
Context {DE : DataEncoding} {DL : DataEncodingLaws} {SZ_Bytes : SizeOf Bytes}.
Context {SZ_Field : SizeOf Field} {SZ_TraceLine : SizeOf TraceLine}.
Context {RS : Type} {HR : NixRead RS} {HRL : NixReadLaws RS}.
Context {WS : Type} {HW : NixWrite WS} {HWL : NixWriteLaws WS} {HA : AsyncWriter WS} {HAL : AsyncWriterLaws WS}.
Context (E : env) (HE : (20 ≤ minor (e_version E))%Z).

(** The requests of a server that asks for data and then is done. *)
Definition requests_bytes (lens : list nat) : bytes :=
  concat ((λ len, codec_bytes E (RRead (uint (Z.of_nat len)))) <$> lens) ++ codec_bytes E RLast.

Lemma process_read_spec len w chunks d :
  Forall (λ c, c ≠ [] ∧ is_u64 (Z.of_nat (length c))) chunks → nw_at w d →
  let '(pieces, unread) := answers [len] chunks in
  ∃ w' piece, pieces = [piece] ∧ process_read len (w, Ok <$> chunks) = ((w', Ok <$> unread), Ok tt) ∧
    nw_at w' (d ++ put_nix_slice piece) ∧ w_sent w' = d ++ put_nix_slice piece ∧
    Forall (λ c, c ≠ [] ∧ is_u64 (Z.of_nat (length c))) unread.
Proof.
  intros Hc Hw.
  assert (∀ b, is_u64 (Z.of_nat (length b)) → ∃ w', (io_try (_ ← write_slice b; flush) : eff DaemonError WS unit) w = (w', Ok tt) ∧
    nw_at w' (d ++ put_nix_slice b) ∧ w_sent w' = d ++ put_nix_slice b) as Hsend.
  { intros b Hb. destruct (write_slice_law w d b Hw Hb) as (w1 & E1 & Hw1 & _).
    destruct (flush_law w1 _ Hw1) as (w2 & E2 & Hw2 & _ & Hs). exists w2. split; [|done].
    unfold io_try. apply eff_map_err_Ok. unfold mbind, io_bind. by rewrite E1. }
  destruct Hc as [|c chunks [Hne Hu] Hc]; cbn [answers].
  - destruct (Hsend [] ltac:(cbn; unfold is_u64, u64_modulus; lia)) as (w' & E1 & ? & ?). exists w', [].
    split; [done|]. split; [|done]. unfold process_read. cbn [source_fill_buf fmap list_fmap length].
    rewrite Nat.min_0_r. cbn [take]. by rewrite E1.
  - assert (take (Nat.min len (length c)) c = take len c) as Ht.
    { destruct (decide (len ≤ length c)); [by rewrite Nat.min_l by lia|].
      by rewrite Nat.min_r, !take_ge by lia. }
    destruct (Hsend (take len c)) as (w' & E1 & ? & ?).
    { unfold is_u64 in *. rewrite length_take. lia. }
    exists w', (take len c). split; [done|].
    assert (drop (Nat.min len (length c)) c = drop len c) as Hd.
    { destruct (decide (len ≤ length c)); [by rewrite Nat.min_l by lia|].
      by rewrite Nat.min_r, !drop_ge by lia. }
    split; [|split; [done|split; [done|]]].
    + unfold process_read. cbn [source_fill_buf fmap list_fmap]. rewrite Ht, E1. cbn [source_consume]. rewrite Hd.
      by destruct (drop len c).
    + destruct (drop len c) as [|y c'] eqn:Ed; [done|]. constructor; [|done]. split; [done|].
      assert (length (y :: c') ≤ length c) by (rewrite <-Ed, length_drop; lia). unfold is_u64 in *. lia.
Qed.

Lemma source_loop_spec lens : ∀ fuel s w d chunks tl,
  length lens < fuel → Forall (λ len, codec_ok E (RRead (uint (Z.of_nat len)))) lens →
  Forall (λ c, c ≠ [] ∧ is_u64 (Z.of_nat (length c))) chunks →
  nr_inv s → r_env E s → nr_rest s = requests_bytes lens ++ tl → nw_at w d →
  let '(pieces, unread) := answers lens chunks in
  ∃ s' w', source_loop fuel s (w, Ok <$> chunks) = (s', (w', Ok <$> unread), ([], Ok tt)) ∧
    nr_inv s' ∧ nr_rest s' = tl ∧ nw_at w' (d ++ wire pieces).
Proof using DL HE HRL HAL.
  induction lens as [|len lens IH]; intros [|fuel] s w d chunks tl Hf Hok Hc Hi Hr Hrest Hw; try (cbn in Hf; lia).
  - cbn [answers]. unfold requests_bytes in Hrest. cbn [fmap list_fmap concat app] in Hrest.
    assert (codec_ok E RLast) as Hl by done. destruct (reads_value E RLast Hl s _ Hi Hr Hrest) as (s1 & E1 & Hi1 & Hr1 & Hrest1).
    exists s1, w. split; [cbn [source_loop]; rewrite E1; done|]. split; [done|]. split; [done|].
    unfold wire. cbn. by rewrite app_nil_r.
  - apply Forall_cons in Hok as [Hlen Hok]. unfold requests_bytes in Hrest. cbn [fmap list_fmap concat] in Hrest.
    rewrite <-!app_assoc in Hrest.
    destruct (reads_value E (RRead (uint (Z.of_nat len))) Hlen s _ Hi Hr Hrest) as (s1 & E1 & Hi1 & Hr1 & Hrest1).
    pose proof (process_read_spec len w chunks d Hc Hw) as Hp. cbn [answers] in Hp |- *.
    destruct (match chunks with [] => _ | c :: chunks => _ end) as [piece unread].
    destruct Hp as (w1 & piece' & [= <-] & E2 & Hw1 & _ & Hleft).
    specialize (IH fuel s1 w1 (d ++ put_nix_slice piece) unread tl ltac:(cbn in Hf; lia) Hok Hleft Hi1 Hr1).
    unfold requests_bytes in IH. rewrite <-app_assoc in IH. specialize (IH Hrest1 Hw1).
    destruct (answers lens unread) as [pieces unread2]. destruct IH as (s2 & w2 & E3 & Hi2 & Hrest2 & Hw2).
    exists s2, w2. split; [cbn [source_loop]; rewrite E1; cbn [uint_val]; rewrite Nat2Z.id, E2; exact E3|].
    split; [done|]. split; [done|]. unfold wire in *. cbn. by rewrite app_assoc.
Qed.
End spec.

(** C30. Requests and replies carry a stream: a client that is asked [k] times
    for a buffer answers with the pieces of its source and ends in step with
    the requests; the reader on the other side, over any connection that brings
    these answers, reads from them the first [n] bytes of the source, and when
    [k] is how many answers it needs for them, it has asked exactly [k] times.
    This holds however the source is cut and whatever the schedules are, as
    long as the source is not at its end. *)
Theorem source_feeds_reader {DE : DataEncoding} {DL : DataEncodingLaws} {SZ_Bytes : SizeOf Bytes} {SZ_Field : SizeOf Field}
    {SZ_TraceLine : SizeOf TraceLine} {RS : Type} {HR : NixRead RS} {HRL : NixReadLaws RS} {WS : Type} {HW : NixWrite WS}
    {HWL : NixWriteLaws WS} {HA : AsyncWriter WS} {HAL : AsyncWriterLaws WS}
    {R : Type} {HB : AsyncBytesRead R} {HBL : AsyncBytesReadLaws R}
    (E : env) (k n : nat) (chunks : list bytes) (s : RS) (w : WS) (d tl tl' : bytes) (r : R) (receiver : list (option nat)) :
  let pieces := (answers (replicate k DEFAULT_BUF_SIZE) chunks).1 in
  (20 ≤ minor (e_version E))%Z → codec_ok E (RRead (uint (Z.of_nat DEFAULT_BUF_SIZE))) →
  Forall (λ c, c ≠ [] ∧ is_u64 (Z.of_nat (length c))) chunks → Forall (λ p, p ≠ []) pieces →
  nr_inv s → r_env E s → nr_rest s = requests_bytes E (replicate k DEFAULT_BUF_SIZE) ++ tl → nw_at w d →
  rd_inv r → rest r = wire pieces ++ tl' → Forall (λ o, o ≠ None) receiver →
  n ≤ length (concat pieces) → replies_for n pieces = k →
  (∃ s' w' unread, source_loop (S k) s (w, Ok <$> chunks) = (s', (w', unread), ([], Ok tt)) ∧
     nr_rest s' = tl ∧ nw_at w' (d ++ wire pieces)) ∧
  ∃ me, stderr_read_exact (n + patience r + length receiver) n (StderrReader_new receiver r) =
      (me, Ready (Ok (take n (concat chunks)))) ∧
    s_sent (sr_sender me) = replicate k DEFAULT_BUF_SIZE ∧ rest (sr_inner me) = tl'.
Proof.
  intros pieces HE Hreq Hc Hp Hi Hr Hrest Hw Hri Hrr Hrx Hn Hk. split.
  - pose proof (source_loop_spec E HE (replicate k DEFAULT_BUF_SIZE) (S k) s w d chunks tl) as Hloop.
    unfold pieces in *. destruct (answers (replicate k DEFAULT_BUF_SIZE) chunks) as [ps unread]. cbn [fst] in *.
    destruct Hloop as (s' & w' & E1 & _ & Hrest' & Hw'); try done.
    + rewrite length_replicate. lia.
    + by apply Forall_replicate.
    + by exists s', w', (Ok <$> unread).
  - assert (Forall reply_ok pieces) as Hok.
    { apply Forall_lookup. intros i p Hi'. rewrite Forall_lookup in Hp. specialize (Hp i p Hi').
      destruct (Forall2_lookup_r _ _ _ _ _ (answers_bounded (replicate k DEFAULT_BUF_SIZE) chunks) Hi') as (len & Hl & Hlen).
      apply lookup_replicate in Hl as [-> _]. split; [destruct p; [done|cbn; lia]|done]. }
    destruct (stderr_from_replies R HB HBL r receiver pieces tl' n Hri Hrr Hok Hrx Hn) as (me & E1 & Hs & Hre).
    exists me. rewrite E1, Hs, Hre, Hk. pose proof (answers_concat (replicate k DEFAULT_BUF_SIZE) chunks) as Hcat.
    fold pieces in Hcat. split; [by rewrite <-Hcat, take_app_le|]. split; [done|].
    pose proof (Forall2_length _ _ _ (answers_bounded (replicate k DEFAULT_BUF_SIZE) chunks)) as Hl.
    fold pieces in Hl. rewrite length_replicate in Hl. by rewrite drop_ge by lia.
Qed.

Lemma sample_pieces : (answers (replicate 2 DEFAULT_BUF_SIZE) sample_replies).1 = sample_replies.
Proof. vm_compute. reflexivity. Qed.

Lemma source_feeds_reader_witness :
  let s := small_reader [None; Some (requests_bytes small_env (replicate 2 DEFAULT_BUF_SIZE))] in
  (∃ s' w' unread, source_loop 3 s (small_writer [None; Some 7], Ok <$> sample_replies) = (s', (w', unread), ([], Ok tt)) ∧
     nr_rest s' = [] ∧ nw_at w' (wire sample_replies)) ∧
  ∃ me, stderr_read_exact (12 + patience sample_reply_reader + 1) 12 (StderrReader_new [Some 0] sample_reply_reader) =
      (me, Ready (Ok (str "harmonia sto"))) ∧
    s_sent (sr_sender me) = replicate 2 DEFAULT_BUF_SIZE ∧ rest (sr_inner me) = str "tail".
Proof.
  intros s. set (bs := requests_bytes small_env (replicate 2 DEFAULT_BUF_SIZE)).
  destruct (small_reader_at bs) as (Hi & He & Hr); [vm_compute; discriminate|apply Nat.leb_le; vm_compute; reflexivity|].
  pose proof (source_feeds_reader (RS := NixReader (BytesReader source)) (WS := NixWriter sink) (R := BytesReader source) small_env 2 12 sample_replies
    s (small_writer [None; Some 7]) [] [] (str "tail") sample_reply_reader [Some 0]) as H.
  rewrite sample_pieces in H. cbv zeta in H. apply H; clear H.
  - vm_compute. discriminate.
  - split; [vm_compute; discriminate|]. split; split; vm_compute; first [reflexivity|congruence].
  - constructor; [|constructor; [|constructor]]; (split; [discriminate|]; split; vm_compute; first [reflexivity|congruence]).
  - constructor; [|constructor; [|constructor]]; discriminate.
  - exact Hi.
  - exact He.
  - rewrite app_nil_r. exact Hr.
  - apply small_writer_at. repeat constructor; discriminate.
  - exact sample_reply_inv.
  - vm_compute. reflexivity.
  - repeat constructor. discriminate.
  - apply Nat.leb_le. vm_compute. reflexivity.
  - vm_compute. reflexivity.
Defined.
